(* ===== verification/_CoqProject ===== *)
-Q . S2P
Prelude.v
Leb128.v
Types.v
Stack.v
Memory.v
Numeric.v
Softfloat.v
Simd.v
SimdLanes.v
InitExpr.v
ConstExpr.v
ParseInit.v
Utf8.v
Linking.v
Context.v
Operands.v
Interp.v
Handlers.v
Demo.v
SimdSpec.v
SimdTotal.v
Invariants.v
TypedOps.v
TypedVec.v
Typing.v
Control.v
Verifier.v
Soundness.v
Exceptions.v
Bulk.v
Budget.v
Termination.v
Writer.v
Validator.v
ParseVec.v
ParseBody.v
Sections.v
TrackerSpec.v
Emission.v
BodySound.v
ScopeSound.v
BranchSound.v
VecSound.v
LoopSound.v
ParserFrame.v
FunctionSound.v
CompileSound.v
SectionFrame.v
SectionSound.v
Validated.v
ValidatorFindings.v
VecFindings.v
SectionFindings.v
GasPool.v
HandleTable.v
Fibers.v
FiberMutex.v
SharedMutex.v
TxMutex.v
MpscStack.v
LockFindings.v
Findings.v
Fracpack.v
FracpackSpec.v
FracpackPack.v
FracpackUnpack.v
FracpackValues.v
FracpackBounded.v
FracpackLoops.v
FracpackMembers.v
FracpackSound.v
FracpackEvolution.v
FracpackFindings.v
