(* ===== verification/Prelude.v ===== *)
(** * psiserve verification: the psizam engine, psiber's locks, the fracpack codec

    psiserve runs WebAssembly services on fibers.  The engine is psizam
    (libraries/psizam): this development models its parser and validator, its
    bitcode writer, its interpreter and the components they are built from, down
    to the integer widths, the guard pages and the exceptions of the C++ code.
    The fibers are psiber's (libraries/psiber): the development models the locks
    they synchronize with, step by step.  Services exchange values as fracpack
    (libraries/psio1): the development models its writer and its readers.

    ** The program's parts and how they interact

    A module's bytes are read through a bounds-checked pointer as LEB128
    integers ([detail/guarded_ptr.hpp], [detail/leb128.hpp]) by
    [binary_parser::parse_module] ([detail/parser.hpp]) into the vectors of
    [module] ([types.hpp]).  The parser validates each function body with a
    tracker of operand types and a control stack, and calls the bitcode writer
    ([detail/bitcode_writer.hpp]) for each instruction as it goes; the writer
    appends the interpreter's instructions, patches branches when their labels
    end and charges gas at loops and prologues.  Imports are bound to host
    functions ([host_function.hpp], [host_function_table.hpp]).  An execution
    context ([detail/execution_context.hpp]) holds the instance: linear memory
    ([wasm_allocator] of [allocator.hpp]), tables, globals, gas and segment flags
    in [execution_context_base], and the operand stack, call stack, program
    counter and exception-handling scopes in [execution_context].  [reset] makes
    an instance of a module; [execute] enters a function and runs the dispatch
    loop, which hands each instruction to [interpret_visitor]
    ([detail/interpret_visitor.hpp]); the visitor calls back into the context.
    Floating point goes through [detail/softfloat.hpp] in the deterministic
    modes.

    Services run as fibers of one or more schedulers.  A fiber parks in a lock of
    [psiber/src/fiber_mutex.cpp] and is woken by the fiber that unlocks, possibly
    from another thread.

    A value is packed by [to_frac] ([psio1/fracpack.hpp]) through a stream
    ([psio1/stream.hpp]) into a fixed region, with offsets to a heap behind it;
    [from_frac] checks and unpacks bytes of any origin, and [from_frac_strict]
    also refuses members it does not know.

    ** Files and what they model

    - [Prelude]: the outcome monad ([Ok], [Throw] with one of the classes of
      exceptions.hpp, or [UB] where the C++ leaves defined behaviour), vectors,
      record update, the [keeps] calculus for invariants, fixed-width integers.
    - [Leb128]: [guarded_ptr] (Module [GuardedPtr]), [varuint] and [varint]
      (Module [Leb]) and the parser's readers [parse_varuint], [parse_varint].
    - [Types]: the data of types.hpp and the opcodes of detail/opcodes_def.hpp
      (Modules [types], [Opcode]); [module]'s index-space functions and the
      signature hash that [operator==] compares.
    - [Stack]: detail/wasm_stack.hpp and detail/stack_elem.hpp.  An accessor of
      the wrong variant is [UB].
    - [Memory]: [wasm_allocator] in its self-managed, external and pooled modes,
      with the ranges it has set the protection of ([mprotect]), where an access
      lands among them ([land_at]), and the unaligned accesses.
    - [Numeric]: the integer handlers' arithmetic.
    - [Softfloat]: detail/softfloat.hpp's scalar half, on bit patterns.  The
      Berkeley library and the host FPU are the classes [SoftFloat] and
      [HostFloat]; comparisons are written out from the library's documented
      order on bit patterns.
    - [Simd]: the lane arithmetic of the vector handlers and the vector half of
      detail/softfloat.hpp.  A vector is a 128-bit integer, the arrays it is
      copied to are lists of lanes, and [vec_handler] names for each opcode what
      is popped and what is computed.  [SimdLanes]: lemmas on lanes; [SimdSpec]:
      WebAssembly's operators and what the handlers make of them; [SimdTotal]:
      which of them have a value on every operand.
    - [InitExpr]: [init_expr::evaluate] with its extended-const stack machine;
      [ConstExpr]: the trees whose post-order code it runs; [ParseInit]:
      [parse_init_expr] of detail/parser.hpp.
    - [Utf8]: the names of imports, exports and custom sections, with the
      UTF-8 checks of detail/parser.hpp.
    - [Linking]: [resolve_impl] and [host_function_table::resolve].
    - [Context]: [execution_context_base] and [execution_context], one
      definition per method, [reset] and [execute] included.  Host functions and
      the gas handler are functions the state holds.
    - [Interp]: the handlers ([exec_...], those of the vector and atomic
      instructions included), [step] (the visitor) and [run] (the dispatch
      loop); [Handlers]: what the handlers have in common.
    - [Operands]: what the stack primitives do to the abstract operand stack.
    - [Demo]: one module and its instance, on which witnesses are evaluated.
    - [Invariants], [Control], [Exceptions], [Bulk], [Budget]: the theorems about
      the interpreter as a whole.  [TypedOps], [TypedVec], [Typing]: each handler
      on operands of its types, scalar, vector and atomic, then blocks of them.
    - [Verifier]: a checker of typed bitcode (one type per program point), and
      [Soundness]: what the interpreter does on code it accepts; [Termination]:
      rankings of such code and the number of dispatches it takes.
    - [Writer]: detail/bitcode_writer.hpp and detail/gas_injector.hpp;
      [Validator]: the tracker, the control stack and the cases of
      [parse_function_body_code] of detail/parser.hpp; [ParseVec]: its vector and
      atomic cases; [ParseBody]: its switch and loop ([write_code_out] parses all
      bodies); [Sections]:
      [parse_module] and every section with its entries.
    - [TrackerSpec] (the tracker as a stack of segments), [Emission] (the
      invariant of code under construction), [BodySound], [ScopeSound],
      [BranchSound], [VecSound], [LoopSound], [ParserFrame], [FunctionSound],
      [CompileSound], [SectionFrame], [SectionSound], [Validated]: the proof, in
      layers, that what the parser accepts and the writer emits is code that the
      checker of [Verifier] accepts.
    - [GasPool]: gas_pool.hpp; [HandleTable]: handle_table.hpp, the slab of
      resource handles that guests hold.
    - [Fibers]: the intrusive wait queues of psiber's locks; [FiberMutex]:
      [fiber_mutex]; [SharedMutex]: [fiber_shared_mutex]; [TxMutex]:
      [fiber_tx_mutex].  A fiber is a program counter inside of the operation it
      runs, and a state is the lock with all program counters.  [MpscStack]: the
      wake list, with its pushing threads and its consumer.
    - [Fracpack]: psio1/fracpack.hpp.  [is_packable<T>] is the record
      [packable], its specializations are functions to it ([memcpy_impl],
      [container_impl], [optional_impl], [struct_impl], ...), and a stream is
      the class [Stream].  [FracpackBounded]: bounded containers, [bitlist],
      [vector<bool>] and the associative containers.
    - [FracpackSpec]: what a codec promises, as a [layout] (the well-formed
      values and their bytes) and three records of laws: what it packs, what it
      reads back, and what it does on any bytes.  [FracpackPack],
      [FracpackUnpack], [FracpackValues], [FracpackLoops], [FracpackMembers]:
      the laws of each specialization from those of its parts.
      [FracpackSound]: the family [codec] of types these generate;
      [FracpackEvolution]: a struct and its next version.
    - [Findings], [ValidatorFindings], [VecFindings], [SectionFindings], [LockFindings],
      [FracpackFindings]: closed evaluations where the code does not do what it
      means to, or the code and its documentation part.

    ** What the theorems show

    - Codec: encoders and decoders are inverse, decoding arbitrary bytes is safe
      and never truncates, the unsigned encoder is minimal ([Leb128]).
    - Memory: [reset] meets its postcondition, stores read back and are local,
      and the guard layout confines every 32-bit access ([Memory]).
    - Arithmetic: the integer handlers refine the WebAssembly operators on every
      operand, traps included ([Numeric]); the integer vector handlers compute
      WebAssembly's lanes but where the C++ arithmetic overflows, and are
      undefined exactly there ([SimdSpec]); the scalar float operations of the
      deterministic modes are exact, ordered as IEEE says and canonical on NaNs
      ([Softfloat]; vector addition, subtraction, multiplication and division
      are not canonical, which [Findings] shows).
    - Initializers: the parser accepts exactly the grammar of constant
      expressions, and what it accepts evaluates to the value of its tree
      ([ParseInit]).
    - From bytes to execution: a module of supported instructions that
      [parse_module] accepts passes the checker, so it runs without undefined
      behaviour, and with metering on it ends ([Validated]).  The instructions
      are those of [admitted] of [LoopSound]: not those of exception handling,
      tail calls, bulk memory, table access and segments; no [br_table]
      whose labels differ in their types and no [select] of a type byte that is
      no value type, where [ValidatorFindings] shows why; and neither the five
      vector instructions that can overflow nor the two atomic ones that the
      parser types wrongly, where [VecFindings] does.  The memory has 32-bit
      addresses and guard pages.  Parsing ends whatever the bytes.  Names are
      accepted exactly when they are UTF-8 ([Utf8]), export names exactly when
      they differ ([Sections]).
    - Linking: every imported function is bound to the host function of its name
      and type, or linking fails for the lack of one ([Linking]).
    - Whole-run invariants, over every instruction and every way a run ends:
      memory stays within its limits, immutable globals keep their values, table
      sizes bound their storage, [execute] gives the caller its state, its stack
      heights, its caught exceptions and, where the function has left them in
      place, its exception-handling scopes back ([Invariants]).
    - Type soundness: accepted straight-line code runs to its end or traps
      ([Typing]); a whole program of functions, branches, calls, indirect calls
      and host calls that the checker accepts never leaves defined behaviour and
      returns a value of its function's type, traps, or runs out of dispatches
      ([Soundness]).
    - Resources: calls and returns conserve the call-depth budget, and metered
      gas bounds the work of a run ([Budget]); a checked program whose loops are
      metered ends within a number of dispatches given by its gas
      ([Termination]).
    - Control: branches, calls with their returns, and tail calls keep the stack
      discipline and the call-depth budget ([Control]); in a memory with guard
      pages [memory.copy] and [memory.fill] are [memmove] and [memset] ([Bulk]).
      The dispatch of an exception reads scopes it has destroyed whenever one is
      active, and is undefined then ([Exceptions]).
    - Handles: the slab answers as a finite map, and a destroyed handle is refused
      until its generation comes round ([HandleTable]); a lease of one thread
      conserves gas, of two it does not ([GasPool]).
    - Fracpack: what is packed is read back, reading any bytes is safe, strict
      reading accepts one encoding of each value ([FracpackSound]), and versions
      of a struct read each other ([FracpackEvolution]).  The laws hold for the
      family [codec] of types, which leaves out [vector<bool>], associative
      containers, variants of 128 alternatives or more and containers, tuples
      and structs of members that take no bytes, for encodings below the limit
      of the offsets, and for lists that fit their length prefix
      ([FracpackFindings] shows what the others do).
    - Locks, for every interleaving: [fiber_mutex] excludes, serves its waiters in
      order and loses no wake-up ([FiberMutex]); the wake list hands every pushed
      fiber on once, in order ([MpscStack]); [fiber_shared_mutex] is correct
      among fibers of one scheduler ([SharedMutex]).  Across schedulers it is not,
      and [fiber_tx_mutex] can deadlock ([LockFindings]).

    ** Bounds and fuel

    [run n] dispatches at most [n] instructions and then ends with
    [timeout_exception], as the watchdog does; statements about complete
    executions name the number of dispatches ([length code], [n + 1] for a bulk
    instruction of [n] bytes).  [dispatch_loop] recurses on the number of active
    scopes, of which each round would close one; [unwind_loop] on the call stack's height;
    [InitExpr.run] on the bytes left, which every opcode shortens ([run_fuel]).
    The LEB128 loops recurse on [bytes_needed], the loops over sections and over
    a function body on the bytes left ([parse_terminates] of [Validated] proves
    that without the bound they end within it), the loops of fracpack on counts that the data has
    given.  None of these can run out.

    ** Not modelled

    The native and LLVM compilers, whose correctness needs the semantics of
    their targets; the component model and the canonical ABI,
    which lift and lower through generated code; the compiled module format;
    WASI, psiber's scheduler and I/O, which are system calls and context
    switches; pfs, over a database that is a submodule of the repository; the
    other formats of psio1; psiserve itself, which is sockets and processes.

    The locks run over sequentially consistent memory; the exception that shutdown
    throws into parked fibers is left out.  [mmap] and [mprotect] are taken to
    succeed; the page size of the system is a field of the allocator.  Data races
    with other threads that write the gas deadline are not modelled.  Of fracpack,
    validation without a target, the unverified mode, user validation hooks,
    wrapper types, [std::bitset], views, and the copying of adjacent members in
    one piece are left out. *)
From Stdlib Require Import ZArith Lia Bool String.
From stdpp Require Import base list numbers decidable option.

#[global] Open Scope Z_scope.

#[global] Arguments Z.max : simpl never.
#[global] Arguments Z.min : simpl never.

(** ** Notations, tactics and hint databases *)

Declare Scope psi_scope.
Delimit Scope psi_scope with psi.
#[global] Open Scope psi_scope.

Create HintDb psi.
Create HintDb psi_word.

(** ** Errors and effects

    [PSIZAM_ASSERT] and [PSIZAM_THROW] throw one of the exception classes of
    exceptions.hpp with a message.  C++ code can also leave defined behaviour
    (an unchecked index, a read of the wrong union member): those paths are a
    third outcome, so that safety statements can exclude them.
    [std_out_of_range] is what [std::vector::at] throws,
    [std_bad_variant_access] what [std::get] does and [std_runtime_error] what the
    libraries outside of psizam throw. *)
Inductive exn_kind :=
  | wasm_interpreter_exception | wasm_section_length_exception | wasm_bad_alloc
  | wasm_double_free | wasm_vector_oob_exception | wasm_unsupported_import_exception
  | wasm_parse_exception | wasm_memory_exception | stack_memory_exception
  | wasm_invalid_element | wasm_link_exception | guarded_ptr_exception
  | timeout_exception | wasm_exit_exception | wasm_gas_exhausted_exception
  | span_exception | profile_exception
  | std_out_of_range | std_bad_variant_access | std_runtime_error.

#[global] Instance exn_kind_eq_dec : EqDecision exn_kind.
Proof. solve_decision. Defined.

Record exn := Exn { exn_class : exn_kind; exn_msg : string }.

Inductive outcome (S A : Type) : Type :=
  | Ok (a : A) (s : S)
  | Throw (e : exn) (s : S)
  | UB.
Arguments Ok {S A} a s.
Arguments Throw {S A} e s.
Arguments UB {S A}.

Definition M (S A : Type) : Type := S -> outcome S A.

Definition ret {S A} (a : A) : M S A := fun s => Ok a s.
Definition bind {S A B} (m : M S A) (k : A -> M S B) : M S B := fun s =>
  match m s with
  | Ok a s' => k a s'
  | Throw e s' => Throw e s'
  | UB => UB
  end.
Definition throw {S A} (k : exn_kind) (msg : string) : M S A := fun s => Throw (Exn k msg) s.
Definition undefined {S A} : M S A := fun _ => UB.
Definition psizam_assert {S} (b : bool) (k : exn_kind) (msg : string) : M S unit :=
  if b then ret tt else throw k msg.
Definition get {S} : M S S := fun s => Ok s s.
Definition gets {S A} (f : S -> A) : M S A := fun s => Ok (f s) s.
Definition modify {S} (f : S -> S) : M S unit := fun s => Ok tt (f s).

Notation "'let*' x ':=' m 'in' k" := (bind m (fun x => k))
  (at level 10, x binder, m at level 100, k at level 200) : psi_scope.
Notation "m ;;; k" := (bind m (fun _ => k))
  (at level 100, k at level 200, right associativity) : psi_scope.

(** [std::vector]: [at] is checked, [operator[]] is not. *)
Definition vec_lookup {A} (l : list A) (i : Z) : option A :=
  if i <? 0 then None else l !! Z.to_nat i.
Definition vec_at {S A} (l : list A) (i : Z) : M S A :=
  match vec_lookup l i with Some a => ret a | None => throw std_out_of_range "vector" end.
Definition vec_index {S A} (l : list A) (i : Z) : M S A :=
  match vec_lookup l i with Some a => ret a | None => undefined end.
Definition vec_size {A} (l : list A) : Z := Z.of_nat (length l).
Definition vec_update {A} (l : list A) (i : Z) (a : A) : list A :=
  if i <? 0 then l else <[Z.to_nat i := a]> l.

(** Running an operation on one field of a larger state. *)
Definition zoom {S T A} (sel : S -> T) (upd : T -> S -> S) (m : M T A) : M S A := fun s =>
  match m (sel s) with
  | Ok a t => Ok a (upd t s)
  | Throw e t => Throw e (upd t s)
  | UB => UB
  end.

(** Field update.  A record type gives its [Eta] expansion once; abstracting a
    projection out of it yields that field's setter. *)
Class Eta (R : Type) := eta : R -> R.
Class Setter {R T : Type} (proj : R -> T) := set_field : T -> R -> R.
#[global] Arguments set_field {R T} proj {Setter} x r /.

Ltac derive_setter :=
  lazymatch goal with
  | |- @Setter ?R ?T ?proj =>
      let inst := constr:(_ : Eta R) in
      let e := eval hnf in inst in
      lazymatch eval pattern proj in e with
      | ?g proj => exact (fun (x : T) => g (fun _ : R => x))
      end
  end.
#[global] Hint Extern 1 (Setter _) => derive_setter : typeclass_instances.

Notation "r '<|' p ':=' v '|>'" := (set_field p v r)
  (at level 1, left associativity, p at level 0, v at level 200) : psi_scope.

(** Weakest precondition of an operation: [Q] holds of a normal result, [E] of
    a thrown exception, and undefined behaviour satisfies nothing. *)
Definition wp {S A} (m : M S A) (Q : A -> S -> Prop) (E : exn -> S -> Prop) (s : S) : Prop :=
  match m s with
  | Ok a s' => Q a s'
  | Throw e s' => E e s'
  | UB => False
  end.

Lemma wp_bind {S A B} (m : M S A) (k : A -> M S B) Q E s :
  wp m (fun a => wp (k a) Q E) E s -> wp (bind m k) Q E s.
Proof. unfold wp, bind. destruct (m s); auto. Qed.

Lemma wp_mono {S A} (m : M S A) (Q Q' : A -> S -> Prop) (E E' : exn -> S -> Prop) s :
  (forall a s', Q a s' -> Q' a s') -> (forall e s', E e s' -> E' e s') ->
  wp m Q E s -> wp m Q' E' s.
Proof. unfold wp. destruct (m s); auto. Qed.

Lemma bind_ok {S A B} (m : M S A) (k : A -> M S B) s b s' :
  bind m k s = Ok b s' -> exists a s1, m s = Ok a s1 /\ k a s1 = Ok b s'.
Proof. unfold bind. destruct (m s) as [a s1|e s1|]; intros H; try discriminate. eauto. Qed.

Lemma ret_ok {S A} (x : A) (s : S) a s' : ret x s = Ok a s' -> a = x /\ s' = s.
Proof. intros [= <- <-]. auto. Qed.
Lemma modify_ok {S} (f : S -> S) s u s' : modify f s = Ok u s' -> s' = f s.
Proof. now intros [= _ <-]. Qed.
Lemma bind_assoc {S A B C} (m : M S A) (f : A -> M S B) (g : B -> M S C) s :
  bind (bind m f) g s = bind m (fun a => bind (f a) g) s.
Proof. unfold bind. destruct (m s); reflexivity. Qed.

(** The monad laws' computational content: rewriting with these runs an
    operation symbolically on a known state. *)
Lemma bind_ret {S A B} (a : A) (k : A -> M S B) s : bind (ret a) k s = k a s.
Proof. reflexivity. Qed.
Lemma bind_Ok {S A B} (m : M S A) (k : A -> M S B) s a s' :
  m s = Ok a s' -> bind m k s = k a s'.
Proof. unfold bind. now intros ->. Qed.
Lemma bind_Throw {S A B} (m : M S A) (k : A -> M S B) s e s' :
  m s = Throw e s' -> bind m k s = Throw e s'.
Proof. unfold bind. now intros ->. Qed.
Lemma psizam_assert_true {S} k msg (s : S) : psizam_assert true k msg s = Ok tt s.
Proof. reflexivity. Qed.

Lemma vec_lookup_Some {A} (l : list A) i a :
  vec_lookup l i = Some a <-> 0 <= i /\ l !! Z.to_nat i = Some a.
Proof. unfold vec_lookup. destruct (Z.ltb_spec i 0); split; intros; try lia; try discriminate; tauto. Qed.

Lemma vec_lookup_range {A} (l : list A) i : 0 <= i < vec_size l -> exists a, vec_lookup l i = Some a.
Proof.
  intros H. unfold vec_lookup, vec_size in *. destruct (Z.ltb_spec i 0); [lia|].
  apply lookup_lt_is_Some_2. lia.
Qed.

Lemma vec_lookup_lt {A} (l : list A) i a : vec_lookup l i = Some a -> 0 <= i < vec_size l.
Proof.
  rewrite vec_lookup_Some. intros [H1 H2]. apply lookup_lt_Some in H2. unfold vec_size. lia.
Qed.

Lemma vec_size_app {A} (l k : list A) : vec_size (l ++ k) = vec_size l + vec_size k.
Proof. unfold vec_size. rewrite length_app. lia. Qed.
Lemma vec_size_nonneg {A} (l : list A) : 0 <= vec_size l.
Proof. unfold vec_size. lia. Qed.
Lemma vec_index_past {S A} (l : list A) i (s : S) : vec_size l <= i -> vec_index l i s = UB.
Proof.
  intros H. unfold vec_index, vec_lookup, vec_size in *. destruct (Z.ltb_spec i 0); [reflexivity|].
  now rewrite lookup_ge_None_2 by lia.
Qed.
Lemma vec_index_Ok {S A} (l : list A) i a (s : S) : vec_lookup l i = Some a -> vec_index l i s = Ok a s.
Proof. unfold vec_index. now intros ->. Qed.
Lemma vec_update_length {A} (l : list A) i a : length (vec_update l i a) = length l.
Proof. unfold vec_update. destruct (_ <? _); [reflexivity|apply length_insert]. Qed.
Lemma vec_lookup_map {A B} (f : A -> B) l i : vec_lookup (map f l) i = option_map f (vec_lookup l i).
Proof. unfold vec_lookup. destruct (_ <? _); [reflexivity|]. now rewrite list_lookup_fmap. Qed.
Lemma map_vec_update {A B} (f : A -> B) l i a : map f (vec_update l i a) = vec_update (map f l) i (f a).
Proof. unfold vec_update. destruct (_ <? _); [reflexivity|]. now rewrite list_fmap_insert. Qed.
Lemma vec_update_same {A} (l : list A) i a : vec_lookup l i = Some a -> vec_update l i a = l.
Proof.
  rewrite vec_lookup_Some. intros [H0 Hl]. unfold vec_update. destruct (_ <? _); [reflexivity|].
  now apply list_insert_id.
Qed.
Lemma vec_update_size {A} (l : list A) i a : vec_size (vec_update l i a) = vec_size l.
Proof. unfold vec_size. now rewrite vec_update_length. Qed.
Lemma Forall_vec_update {A} (P : A -> Prop) l i a : Forall P l -> P a -> Forall P (vec_update l i a).
Proof. intros Hl Ha. unfold vec_update. destruct (_ <? _); [auto|]. now apply Forall_insert. Qed.
Lemma vec_lookup_update {A} (l : list A) i a j : 0 <= i < vec_size l ->
  vec_lookup (vec_update l i a) j = if decide (j = i) then Some a else vec_lookup l j.
Proof.
  unfold vec_lookup, vec_update, vec_size. intros Hi. destruct (Z.ltb_spec i 0); [lia|].
  destruct (decide (j = i)) as [->|Hne].
  - destruct (Z.ltb_spec i 0); [lia|]. apply list_lookup_insert_eq. lia.
  - destruct (Z.ltb_spec j 0); [reflexivity|]. apply list_lookup_insert_ne. lia.
Qed.

(** ** Invariant reasoning

    [keeps R m]: every run of [m] that stays defined relates its start and end
    states by [R], whether it returns or throws.  [keeps_ok] only constrains
    the runs that return.  Both compose along [bind] when [R] is a preorder, so
    an invariant of a component is checked on its primitive operations. *)
Definition keeps {S A} (R : S -> S -> Prop) (m : M S A) : Prop := forall s,
  match m s with Ok _ s' => R s s' | Throw _ s' => R s s' | UB => True end.
Definition keeps_ok {S A} (R : S -> S -> Prop) (m : M S A) : Prop := forall s,
  match m s with Ok _ s' => R s s' | _ => True end.

Create HintDb keeps.

Section Keeps.
Context {S : Type} (R : S -> S -> Prop) {P : PreOrder R}.

Lemma keeps_bind {A B} (m : M S A) (k : A -> M S B) : keeps R m -> (forall a, keeps R (k a)) -> keeps R (bind m k).
Proof.
  intros Hm Hk s. unfold bind. specialize (Hm s). destruct (m s) as [a s1|e s1|]; auto.
  specialize (Hk a s1). destruct (k a s1); auto; etrans; eauto.
Qed.
Lemma keeps_ok_bind {A B} (m : M S A) (k : A -> M S B) :
  keeps_ok R m -> (forall a, keeps_ok R (k a)) -> keeps_ok R (bind m k).
Proof.
  intros Hm Hk s. unfold bind. specialize (Hm s). destruct (m s) as [a s1|e s1|]; auto.
  specialize (Hk a s1). destruct (k a s1); auto; etrans; eauto.
Qed.

Lemma keeps_keeps_ok {A} (m : M S A) : keeps R m -> keeps_ok R m.
Proof. intros Hm s. specialize (Hm s). now destruct (m s). Qed.

Lemma keeps_ret {A} (a : A) : keeps R (ret a).
Proof. intros s. cbn. reflexivity. Qed.
Lemma keeps_throw {A} k msg : keeps R (throw k msg : M S A).
Proof. intros s. cbn. reflexivity. Qed.
Lemma keeps_undefined {A} : keeps R (undefined : M S A).
Proof. intros s. exact I. Qed.
Lemma keeps_get : keeps R get.
Proof. intros s. cbn. reflexivity. Qed.
Lemma keeps_gets {A} (f : S -> A) : keeps R (gets f).
Proof. intros s. cbn. reflexivity. Qed.
Lemma keeps_assert b k msg : keeps R (psizam_assert b k msg).
Proof. intros s. unfold psizam_assert. destruct b; cbn; reflexivity. Qed.
Lemma keeps_modify (f : S -> S) : (forall s, R s (f s)) -> keeps R (modify f).
Proof. intros Hf s. apply Hf. Qed.
Lemma keeps_vec_index {A} (l : list A) i : keeps R (vec_index l i).
Proof. intros s. unfold vec_index. destruct (vec_lookup l i); cbn; [reflexivity|exact I]. Qed.
Lemma keeps_vec_at {A} (l : list A) i : keeps R (vec_at l i).
Proof. intros s. unfold vec_at. destruct (vec_lookup l i); cbn; reflexivity. Qed.
Lemma keeps_zoom {T A} (Q : T -> T -> Prop) (sel : S -> T) upd (m : M T A) :
  (forall s t, Q (sel s) t -> R s (upd t s)) -> keeps Q m -> keeps R (zoom sel upd m).
Proof. intros Hu Hm s. unfold zoom. specialize (Hm (sel s)). destruct (m (sel s)); auto. Qed.
Lemma keeps_ok_zoom {T A} (Q : T -> T -> Prop) (sel : S -> T) upd (m : M T A) :
  (forall s t, Q (sel s) t -> R s (upd t s)) -> keeps_ok Q m -> keeps_ok R (zoom sel upd m).
Proof. intros Hu Hm s. unfold zoom. specialize (Hm (sel s)). destruct (m (sel s)); auto. Qed.
End Keeps.

#[export] Hint Resolve keeps_ret keeps_throw keeps_undefined keeps_get keeps_gets keeps_assert
  keeps_vec_index keeps_vec_at : keeps.
#[export] Hint Extern 0 (PreOrder _) => typeclasses eauto : keeps.

(** Decompose an operation along its structure; the leaves are primitive
    operations the [keeps] database knows. *)
Ltac keeps_step :=
  match goal with
  | |- keeps _ (bind _ _) => apply keeps_bind; [try exact _| |intro]
  | |- keeps _ (if ?b then _ else _) => destruct b
  | |- keeps _ (match ?x with _ => _ end) => destruct x
  | |- keeps _ (let '(_, _) := ?x in _) => destruct x
  | |- keeps_ok _ (bind _ _) => apply keeps_ok_bind; [try exact _| |intro]
  | |- keeps_ok _ (if ?b then _ else _) => destruct b
  | |- keeps_ok _ (match ?x with _ => _ end) => destruct x
  end.
Ltac keeps := repeat (keeps_step; cbv zeta beta); auto with keeps.

(** ** Loops

    [loop_ends n a s o]: the loop [while (more) a = body(a)], entered in the state
    [s], ends with the outcome [o] after [n] complete rounds.  A loop whose body
    goes round without end has no [o]. *)
Section Loops.
Context {S A : Type} (more : S -> bool) (body : A -> M S A).
Inductive loop_ends : nat -> A -> S -> outcome S unit -> Prop :=
| loop_exit a s : more s = false -> loop_ends 0 a s (Ok tt s)
| loop_throw a s e s' : more s = true -> body a s = Throw e s' -> loop_ends 0 a s (Throw e s')
| loop_undefined a s : more s = true -> body a s = UB -> loop_ends 0 a s UB
| loop_round n a s a' s' o : more s = true -> body a s = Ok a' s' -> loop_ends n a' s' o -> loop_ends (Datatypes.S n) a s o.

(** A definition of the loop with fuel agrees with it when every round makes the measure
    [left] smaller: [left] rounds are then enough, and fuel above them is. *)
Lemma loop_ends_fuel (loop : nat -> A -> M S unit) (inv : A -> S -> Prop) (left : S -> Z) :
  (forall n a s, loop (Datatypes.S n) a s = if more s then (let* a' := body a in loop n a') s else Ok tt s) ->
  (forall a s a' s', inv a s -> more s = true -> body a s = Ok a' s' -> inv a' s' /\ 0 <= left s' < left s) ->
  forall a s, inv a s -> 0 <= left s ->
  exists k o, Z.of_nat k <= left s /\ loop_ends k a s o /\ forall n, (k < n)%nat -> loop n a s = o.
Proof.
  intros Hl Hb a s Hi Hs. remember (Z.to_nat (left s)) as m eqn:Em. revert a s Hi Hs Em.
  induction m as [m IH] using (well_founded_induction lt_wf). intros a s Hi Hs ->.
  destruct (more s) eqn:Hm; [|exists 0%nat, (Ok tt s)].
  2:{ split; [lia|]. split; [now apply loop_exit|]. intros [|n] Hn; [lia|]. now rewrite Hl, Hm. }
  destruct (body a s) as [a' s'|e s'|] eqn:E.
  - destruct (Hb a s a' s' Hi Hm E) as [Hi' Hlt]. destruct (IH (Z.to_nat (left s')) ltac:(lia) a' s' Hi' ltac:(lia) eq_refl) as (k & o & Hk & He & Hn).
    exists (Datatypes.S k), o. split; [lia|]. split; [now apply (loop_round k a s a' s')|].
    intros [|n] Hlt'; [lia|]. rewrite Hl, Hm. unfold bind. rewrite E. apply Hn. lia.
  - exists 0%nat, (Throw e s'). split; [lia|]. split; [now apply loop_throw|]. intros [|n] Hn; [lia|]. rewrite Hl, Hm. unfold bind. now rewrite E.
  - exists 0%nat, UB. split; [lia|]. split; [now apply loop_undefined|]. intros [|n] Hn; [lia|]. rewrite Hl, Hm. unfold bind. now rewrite E.
Qed.
End Loops.

(** ** Fixed-width integers

    A [w]-bit unsigned integer is a [Z] in [0, 2^w); the signed reading of the
    same bits is [signed w].  C++'s conversions between the two are [wrap] and
    [signed]. *)
Definition wrap (w x : Z) : Z := x mod 2 ^ w.
Definition signed (w x : Z) : Z := if x <? 2 ^ (w - 1) then x else x - 2 ^ w.
Definition in_u (w x : Z) : Prop := 0 <= x < 2 ^ w.
Definition in_s (w x : Z) : Prop := - 2 ^ (w - 1) <= x < 2 ^ (w - 1).

#[global] Instance in_u_dec w x : Decision (in_u w x).
Proof. unfold in_u. apply _. Defined.

Definition UINT32_MAX : Z := 2 ^ 32 - 1.
Definition UINT64_MAX : Z := 2 ^ 64 - 1.

Section Width.
Context (w : Z) (Hw : 0 < w).

Lemma pow_pos_w : 0 < 2 ^ w.
Proof. apply Z.pow_pos_nonneg; lia. Qed.

Lemma pow_half : 2 ^ w = 2 * 2 ^ (w - 1).
Proof. rewrite <- Z.pow_succ_r by lia. f_equal; lia. Qed.

Lemma wrap_range x : in_u w (wrap w x).
Proof. apply Z.mod_pos_bound, pow_pos_w. Qed.

Lemma wrap_small x : in_u w x -> wrap w x = x.
Proof. apply Z.mod_small. Qed.

Lemma wrap_wrap x : wrap w (wrap w x) = wrap w x.
Proof. apply wrap_small, wrap_range. Qed.

Lemma wrap_add_pow x k : wrap w (x + k * 2 ^ w) = wrap w x.
Proof. apply Z_mod_plus_full. Qed.

Lemma signed_range x : in_u w x -> in_s w (signed w x).
Proof.
  unfold in_u, in_s, signed. pose proof pow_half. intros ?.
  destruct (Z.ltb_spec x (2 ^ (w - 1))); lia.
Qed.

Lemma wrap_signed x : in_u w x -> wrap w (signed w x) = x.
Proof.
  unfold signed. intros H. destruct (_ <? _).
  - now apply wrap_small.
  - replace (x - 2 ^ w) with (x + (-1) * 2 ^ w) by lia.
    rewrite wrap_add_pow. now apply wrap_small.
Qed.

Lemma signed_wrap x : in_s w x -> signed w (wrap w x) = x.
Proof.
  unfold in_s. intros H. pose proof pow_half. pose proof pow_pos_w.
  destruct (Z.lt_ge_cases x 0).
  - assert (E : wrap w x = x + 2 ^ w).
    { unfold wrap. rewrite <- (Z_mod_plus_full x 1). rewrite Z.mod_small; lia. }
    unfold signed. rewrite E. destruct (Z.ltb_spec (x + 2 ^ w) (2 ^ (w - 1))); lia.
  - rewrite wrap_small by (unfold in_u; lia).
    unfold signed. destruct (Z.ltb_spec x (2 ^ (w - 1))); lia.
Qed.

Lemma signed_inj x y : in_u w x -> in_u w y -> signed w x = signed w y -> x = y.
Proof. intros Hx Hy E. rewrite <- (wrap_signed x), <- (wrap_signed y), E; auto. Qed.
End Width.

#[export] Hint Resolve wrap_range : psi_word.
#[export] Hint Extern 1 (0 < _) => lia : psi_word.

(** ** Bit-level facts shared by the codecs and the arithmetic *)

Lemma lor_add (n a b : Z) : 0 <= n -> in_u n a -> Z.lor a (Z.shiftl b n) = a + b * 2 ^ n.
Proof.
  intros Hn Ha. rewrite Z.shiftl_mul_pow2 by lia.
  rewrite <- Z.lxor_lor, <- Z.add_nocarry_lxor; [reflexivity| |];
    apply Z.bits_inj'; intros i Hi; rewrite Z.land_spec, Z.bits_0;
    (destruct (Z.lt_ge_cases i n);
     [ rewrite Z.mul_pow2_bits_low by lia; now rewrite andb_false_r
     | rewrite <- (Z.mod_small a (2 ^ n)) by assumption;
       rewrite Z.mod_pow2_bits_high by lia; reflexivity ]).
Qed.

Lemma land_ones_mod (x n : Z) : 0 <= n -> Z.land x (2 ^ n - 1) = x mod 2 ^ n.
Proof. intros. rewrite <- Z.land_ones by lia. f_equal. rewrite Z.ones_equiv. lia. Qed.

Lemma testbit_high (n x i : Z) : in_u n x -> n <= i -> 0 <= n -> Z.testbit x i = false.
Proof. intros Hx Hi Hn. rewrite <- (Z.mod_small x (2 ^ n)) by assumption. now apply Z.mod_pow2_bits_high. Qed.

Lemma lor_bound (n a b : Z) : 0 <= n -> in_u n a -> in_u n b -> in_u n (Z.lor a b).
Proof.
  intros Hn Ha Hb. unfold in_u.
  assert (E : Z.lor a b = Z.lor a b mod 2 ^ n).
  { apply Z.bits_inj'. intros i Hi. destruct (Z.lt_ge_cases i n).
    - now rewrite Z.mod_pow2_bits_low.
    - rewrite Z.mod_pow2_bits_high, Z.lor_spec by lia.
      rewrite !(testbit_high n) by (auto; lia). reflexivity. }
  rewrite E. apply Z.mod_pos_bound. apply Z.pow_pos_nonneg; lia.
Qed.

(** Finite case analysis: a boolean fact on [0, n) is checked by evaluation. *)
Lemma Z_enum (P : Z -> bool) (n : nat) :
  forallb P (map Z.of_nat (seq 0 n)) = true -> forall b, 0 <= b < Z.of_nat n -> P b = true.
Proof.
  intros H b Hb. rewrite forallb_forall in H. apply H.
  apply in_map_iff. exists (Z.to_nat b). split; [lia|]. apply in_seq. lia.
Qed.

(** ** Tactics of the development *)

(** Case analysis on the booleans a goal is stuck on. *)
Ltac case_bool :=
  match goal with
  | |- context [if ?b then _ else _] => let E := fresh "Eb" in destruct b eqn:E
  | H : context [if ?b then _ else _] |- _ => let E := fresh "Eb" in destruct b eqn:E
  end.

(** Turn boolean comparisons into propositions and finish with [lia]. *)
Ltac blia :=
  repeat rewrite ?andb_true_iff, ?andb_false_iff, ?orb_true_iff, ?orb_false_iff,
    ?negb_true_iff, ?negb_false_iff, ?Z.eqb_eq, ?Z.eqb_neq, ?Z.ltb_lt, ?Z.ltb_ge,
    ?Z.leb_le, ?Z.leb_gt in *; lia.

(** Prove an equation between booleans on [0, n) by evaluating both sides. *)
Ltac z_enum b n Hb :=
  apply Bool.eqb_prop;
  match goal with
  | |- ?e = true =>
      let f := eval pattern b in e in
      match f with ?h b => exact (Z_enum h n eq_refl b Hb) end
  end.
