(* ===== verification/Leb128.v ===== *)
(** * LEB128 integers and bounded pointers

    Models psizam/detail/guarded_ptr.hpp and psizam/detail/leb128.hpp: the
    bounds-checked code pointer the parser reads through, and the variable
    length integers of the WebAssembly binary format. *)
From Stdlib Require Import ZArith Lia Bool String.
From stdpp Require Import base list numbers decidable option.
From S2P Require Import Prelude.

(** ** [guarded_ptr<uint8_t>]

    [gp_data] is the buffer starting at [orig_ptr]; [gp_raw] and [gp_bnds] are
    the offsets of [raw_ptr] and [bnds] from it. *)
Module GuardedPtr.

Record guarded_ptr := { gp_data : list Z; gp_raw : Z; gp_bnds : Z }.

Definition set_raw (r : Z) (g : guarded_ptr) : guarded_ptr :=
  {| gp_data := gp_data g; gp_raw := r; gp_bnds := gp_bnds g |}.
Definition set_bnds (b : Z) (g : guarded_ptr) : guarded_ptr :=
  {| gp_data := gp_data g; gp_raw := gp_raw g; gp_bnds := b |}.

(** [guarded_ptr(rp, bnds)] *)
Definition make (data : list Z) (n : Z) : guarded_ptr :=
  {| gp_data := data; gp_raw := 0; gp_bnds := n |}.

(** [static_cast<std::size_t>(bnds - raw_ptr)] *)
Definition avail (g : guarded_ptr) : Z := wrap 64 (gp_bnds g - gp_raw g).

(** A read of the underlying buffer; outside of it there is no object. *)
Definition deref (i : Z) : M guarded_ptr Z := fun g =>
  if i <? 0 then UB else
  match gp_data g !! Z.to_nat i with Some b => Ok b g | None => UB end.

(** [operator+=] *)
Definition advance (i : Z) : M guarded_ptr unit :=
  let* g := get in
  psizam_assert (i <=? avail g) guarded_ptr_exception "overbounding pointer" ;;;
  modify (set_raw (gp_raw g + i)).

(** [operator++] *)
Definition incr : M guarded_ptr unit :=
  let* g := get in
  psizam_assert (gp_raw g <? gp_bnds g) guarded_ptr_exception "overbounding pointer" ;;;
  modify (set_raw (gp_raw g + 1)).

(** [operator*] and [at()] *)
Definition current : M guarded_ptr Z :=
  let* g := get in
  psizam_assert (gp_raw g <? gp_bnds g) guarded_ptr_exception "accessing out of bounds" ;;;
  deref (gp_raw g).

(** [at(index)] and [operator[]] *)
Definition at_ (index : Z) : M guarded_ptr Z :=
  let* g := get in
  psizam_assert (index <? avail g) guarded_ptr_exception "accessing out of bounds" ;;;
  deref (gp_raw g + index).

Definition offset (g : guarded_ptr) : Z := gp_raw g.
Definition bounds (g : guarded_ptr) : Z := gp_bnds g.

(** [scoped_shrink_bounds(n)]: the bounds are reduced while [body] runs and put
    back when the guard is destroyed, by a normal exit or by an exception. *)
Definition scoped_shrink_bounds {A} (n : Z) (body : M guarded_ptr A) : M guarded_ptr A :=
  let* g := get in
  psizam_assert (n <=? avail g) guarded_ptr_exception "guarded ptr out of bounds" ;;;
  modify (set_bnds (gp_raw g + n)) ;;;
  fun s => match body s with
           | Ok a s' => Ok a (set_bnds (gp_bnds g) s')
           | Throw e s' => Throw e (set_bnds (gp_bnds g) s')
           | UB => UB
           end.

(** [scoped_consume_items(n)]: as above, and a normal exit must have advanced
    the pointer to the reduced bound. *)
Definition scoped_consume_items {A} (n : Z) (body : M guarded_ptr A) : M guarded_ptr A :=
  let* g := get in
  psizam_assert (n <=? avail g) guarded_ptr_exception "guarded ptr out of bounds" ;;;
  modify (set_bnds (gp_raw g + n)) ;;;
  fun s => match body s with
           | Ok a s' =>
               if gp_raw s' =? gp_bnds s' then Ok a (set_bnds (gp_bnds g) s')
               else Throw (Exn guarded_ptr_exception "guarded_ptr not advanced") s'
           | Throw e s' => Throw e (set_bnds (gp_bnds g) s')
           | UB => UB
           end.

(** The pointer never leaves the buffer. *)
Definition wf (g : guarded_ptr) : Prop :=
  0 <= gp_raw g <= gp_bnds g /\ gp_bnds g <= Z.of_nat (length (gp_data g)) /\
  Z.of_nat (length (gp_data g)) < 2 ^ 63.

Lemma avail_wf g : wf g -> avail g = gp_bnds g - gp_raw g.
Proof. intros (H1 & H2 & H3). apply wrap_small. unfold in_u. lia. Qed.

Lemma deref_wf g i : wf g -> 0 <= i < gp_bnds g -> exists b, deref i g = Ok b g.
Proof.
  intros (H1 & H2 & H3) Hi. unfold deref. destruct (Z.ltb_spec i 0); [lia|].
  destruct (gp_data g !! Z.to_nat i) eqn:E; [eauto|].
  apply lookup_ge_None in E. lia.
Qed.

End GuardedPtr.
Import GuardedPtr.

(** ** Variable-length integers *)
Module Leb.

Definition bytes_needed (N : Z) : nat :=
  if (N =? 1) || (N =? 7) then 1%nat else if N =? 32 then 5%nat else 10%nat.

(** [storage] holds the bytes that have been written; the tail of the array is
    indeterminate. *)
Record varuint := { storage : list Z; bytes_used : Z }.

(** [varuint<N>::from(uint8_t)]: [bytes_used] keeps its initial value. *)
Definition varuint_from_u8 (N v : Z) : varuint :=
  {| storage := [Z.land v 127]; bytes_used := Z.of_nat (bytes_needed N) |}.

(** The encoding loop of [varuint<N>::from(uint32_t)] and [from(uint64_t)];
    the flag is whether the loop was left by its [break]. *)
Fixpoint varuint_loop (fuel : nat) (v : Z) : list Z * bool :=
  match fuel with
  | O => ([], false)
  | S n =>
      let b := Z.land v 127 in
      let v' := Z.shiftr v 7 in
      if v' =? 0 then ([b], true)
      else let '(bs, broke) := varuint_loop n v' in (Z.lor b 128 :: bs, broke)
  end.

Definition varuint_of_loop (r : list Z * bool) : varuint :=
  {| storage := fst r; bytes_used := Z.of_nat (length (fst r)) + if snd r then 0 else 1 |}.

Definition varuint_from_u32 (N v : Z) : varuint :=
  varuint_of_loop (varuint_loop (bytes_needed N) v).

Definition varuint_from_u64 (N v : Z) : varuint :=
  if N <=? 32 then varuint_from_u32 N (wrap 32 v)
  else varuint_of_loop (varuint_loop (bytes_needed N) v).

(** [varuint<N>::from(guarded_ptr&)]: [cnt] counts the bytes read so far. *)
Fixpoint read_loop (check_last : Z -> M guarded_ptr unit) (N : Z) (fuel : nat) (cnt : Z)
  : M guarded_ptr (list Z) :=
  match fuel with
  | O => throw wasm_interpreter_exception "incorrect leb128 encoding"
  | S n =>
      let* g := get in
      psizam_assert (wrap 64 (offset g + cnt) <? bounds g) wasm_interpreter_exception "pointer out of bounds" ;;;
      let* b := at_ cnt in
      if Z.land b 128 =? 0 then
        (if cnt + 1 =? Z.of_nat (bytes_needed N) then check_last b else ret tt) ;;; ret [b]
      else
        let* bs := read_loop check_last N n (cnt + 1) in ret (b :: bs)
  end.

(** [static_cast<uint8_t>(~(uint32_t)0 << offset) & 0x7F] *)
Definition unused_mask (off : Z) : Z :=
  Z.land (wrap 8 (wrap 32 (Z.shiftl UINT32_MAX off))) 127.

Definition last_offset (N : Z) : Z := N - 7 * (Z.of_nat (bytes_needed N) - 1).

Definition varuint_check_last (N b : Z) : M guarded_ptr unit :=
  psizam_assert (Z.land (unused_mask (last_offset N)) b =? 0) wasm_parse_exception
    "unused bits of unsigned leb128 must be 0".

(** [from(guarded_ptr&)]: the loop, then [code += cnt+1; bytes_used = cnt+1].
    [varuint] and [varint] differ only in the check of a last byte. *)
Definition from_code (check_last : Z -> M guarded_ptr unit) (N : Z) : M guarded_ptr varuint :=
  let* bs := read_loop check_last N (bytes_needed N) 0 in
  advance (Z.of_nat (length bs)) ;;;
  ret {| storage := bs; bytes_used := Z.of_nat (length bs) |}.

Definition varuint_from_code (N : Z) : M guarded_ptr varuint :=
  from_code (varuint_check_last N) N.

(** The accumulation loop of [to()]: from the last byte down to the first,
    [ret <<= 7; ret |= storage[i] & 0x7f] at width [w]. *)
Fixpoint to_loop (w : Z) (bs : list Z) : Z :=
  match bs with
  | [] => 0
  | b :: bs' => Z.lor (wrap w (Z.shiftl (to_loop w bs') 7)) (Z.land b 127)
  end.

(** [varuint<N>::to()]; [None] when it reads an indeterminate byte. *)
Definition varuint_to (N : Z) (v : varuint) : option Z :=
  if N =? 1 then (fun b => if b =? 0 then 0 else 1) <$> storage v !! 0%nat
  else if N =? 7 then (fun b => Z.land b 127) <$> storage v !! 0%nat
  else if bytes_used v <=? Z.of_nat (length (storage v)) then
    Some (to_loop N (take (Z.to_nat (bytes_used v)) (storage v)))
  else None.

(** [varint<N>::from(int8_t)] *)
Definition varint_from_i8 (N v : Z) : varuint :=
  {| storage := [Z.land v 127]; bytes_used := Z.of_nat (bytes_needed N) |}.

(** [varint<N>::_from(v)]: [v] is a signed value, [v >>= 7] is arithmetic. *)
Fixpoint varint_loop (fuel : nat) (v : Z) : list Z * bool :=
  match fuel with
  | O => ([], false)
  | S n =>
      let b := Z.land v 127 in
      let v' := Z.shiftr v 7 in
      let sign := negb (Z.land b 64 =? 0) in
      if ((v' =? -1) && sign) || ((v' =? 0) && negb sign) then ([b], true)
      else let '(bs, broke) := varint_loop n v' in (Z.lor b 128 :: bs, broke)
  end.

Definition varint_from (N v : Z) : varuint :=
  varuint_of_loop (varint_loop (bytes_needed N) v).

Definition varint_check_last (N b : Z) : M guarded_ptr unit :=
  let off := last_offset N in
  let mask := unused_mask off in
  let expected := if Z.land b (Z.shiftl 1 (off - 1)) =? 0 then 0 else mask in
  psizam_assert (Z.land mask b =? expected) wasm_parse_exception
    "unused bits of signed leb128 must be the same as the sign bit".

Definition varint_from_code (N : Z) : M guarded_ptr varuint :=
  from_code (varint_check_last N) N.

(** [varint<N>::_to<T>()] for the 32- and 64-bit types, and [to()] for 7. *)
Definition varint_to (N : Z) (v : varuint) : option Z :=
  if N =? 7 then
    match storage v !! 0%nat with
    | Some b => Some (if Z.land b 64 =? 0 then signed 8 (wrap 8 b)
                      else signed 8 (wrap 8 (Z.lor b (wrap 32 (Z.shiftl UINT32_MAX 7)))))
    | None => None
    end
  else if bytes_used v <=? Z.of_nat (length (storage v)) then
    let bs := take (Z.to_nat (bytes_used v)) (storage v) in
    let r := to_loop N bs in
    if (1 <=? bytes_used v) && (bytes_used v <? Z.of_nat (bytes_needed N)) then
      match list.last bs with
      | Some l =>
          Some (signed N (if Z.land l 64 =? 0 then r
                          else Z.lor r (wrap N (wrap 64 (Z.shiftl UINT64_MAX (bytes_used v * 7))))))
      | None => None
      end
    else Some (signed N r)
  else None.

(** Decoding as the parser does it: [parse_varuint32(code)] and the like. *)
Definition parse_varuint (N : Z) : M guarded_ptr Z :=
  let* v := varuint_from_code N in
  match varuint_to N v with Some x => ret x | None => undefined end.
Definition parse_varint (N : Z) : M guarded_ptr Z :=
  let* v := varint_from_code N in
  match varint_to N v with Some x => ret x | None => undefined end.

End Leb.
Import Leb.


(** ** The mathematical value of an encoding *)

(** Bytes of an encoding: continuation bytes, then one final byte. *)
Inductive leb_wf : list Z -> Prop :=
  | leb_last b : 0 <= b < 128 -> leb_wf [b]
  | leb_more b bs : 128 <= b < 256 -> leb_wf bs -> leb_wf (b :: bs).

(** Base-128 little-endian value of the payload bits. *)
Fixpoint leb_val (bs : list Z) : Z :=
  match bs with [] => 0 | b :: bs' => b mod 128 + 128 * leb_val bs' end.

#[local] Hint Constructors leb_wf : psi.

Section Encoding.

Lemma land127 v : Z.land v 127 = v mod 128.
Proof. exact (land_ones_mod v 7 ltac:(lia)). Qed.

Lemma shr7 v : Z.shiftr v 7 = v / 128.
Proof. rewrite Z.shiftr_div_pow2 by lia. reflexivity. Qed.

Lemma lor128 b : 0 <= b < 128 -> Z.lor b 128 = b + 128.
Proof. intros H. exact (lor_add 7 b 1 ltac:(lia) H). Qed.

Lemma add128_mod b : 0 <= b < 128 -> (b + 128) mod 128 = b.
Proof.
  intros H. replace (b + 128) with (b + 1 * 128) by lia.
  rewrite Z_mod_plus_full. now apply Z.mod_small.
Qed.

(** Bit 7 is the continuation flag, bit 6 the sign of a final byte. *)
Lemma cont_flag b : 0 <= b < 256 -> (Z.land b 128 =? 0) = (b <? 128).
Proof.
  intros H. z_enum b 256%nat H.
Qed.

Lemma sign_flag b : 0 <= b < 128 -> (Z.land b 64 =? 0) = (b <? 64).
Proof.
  intros H. z_enum b 128%nat H.
Qed.

Lemma leb_val_bound bs : 0 <= leb_val bs < 2 ^ (7 * Z.of_nat (length bs)).
Proof.
  induction bs as [|b bs IH]; simpl leb_val; [simpl; lia|].
  cbn [length]. rewrite Nat2Z.inj_succ.
  replace (7 * Z.succ (Z.of_nat (length bs))) with (7 + 7 * Z.of_nat (length bs)) by lia.
  rewrite Z.pow_add_r by lia. change (2 ^ 7) with 128.
  pose proof (Z.mod_pos_bound b 128 ltac:(lia)). lia.
Qed.

Lemma to_loop_val w bs : 7 <= w -> to_loop w bs = wrap w (leb_val bs).
Proof.
  intros Hw. induction bs as [|b bs IH]; cbn [to_loop leb_val].
  - unfold wrap. now rewrite Z.mod_0_l by (apply Z.pow_nonzero; lia).
  - rewrite IH, land127, Z.lor_comm. unfold wrap.
    rewrite Z.shiftl_mul_pow2 by lia. rewrite Z.mul_mod_idemp_l by (apply Z.pow_nonzero; lia).
    change (2 ^ 7) with 128.
    assert (E : (leb_val bs * 128) mod 2 ^ w = leb_val bs mod 2 ^ (w - 7) * 128).
    { replace (2 ^ w) with (2 ^ (w - 7) * 128)
        by (change 128 with (2 ^ 7); rewrite <- Z.pow_add_r by lia; f_equal; lia).
      apply Z.mul_mod_distr_r; [apply Z.pow_nonzero|]; lia. }
    rewrite E. pose proof (Z.mod_pos_bound b 128 ltac:(lia)) as Hb.
    pose proof (Z.mod_pos_bound (leb_val bs) (2 ^ (w - 7)) ltac:(apply Z.pow_pos_nonneg; lia)) as Hv.
    change (leb_val bs mod 2 ^ (w - 7) * 128) with (leb_val bs mod 2 ^ (w - 7) * 2 ^ 7).
    rewrite <- Z.shiftl_mul_pow2 by lia. rewrite (lor_add 7) by (unfold in_u; simpl; lia).
    change (2 ^ 7) with 128. rewrite <- E, Z.mul_comm.
    rewrite <- (Z.mod_small (b mod 128 + (128 * leb_val bs) mod 2 ^ w) (2 ^ w)).
    + rewrite Zplus_mod_idemp_r. reflexivity.
    + rewrite Z.mul_comm, E.
      assert (2 ^ w = 2 ^ (w - 7) * 128)
        by (change 128 with (2 ^ 7); rewrite <- Z.pow_add_r by lia; f_equal; lia). lia.
Qed.

Lemma varuint_loop_ok fuel v :
  0 <= v < 2 ^ (7 * Z.of_nat fuel) -> fuel <> 0%nat ->
  exists bs, varuint_loop fuel v = (bs, true) /\ leb_wf bs /\ leb_val bs = v /\
             (length bs <= fuel)%nat.
Proof.
  revert v. induction fuel as [|n IH]; intros v Hv Hf; [congruence|].
  cbn [varuint_loop]. rewrite land127, shr7.
  pose proof (Z.mod_pos_bound v 128 ltac:(lia)) as Hm.
  pose proof (Z.div_mod v 128 ltac:(lia)) as Hd.
  destruct (Z.eqb_spec (v / 128) 0) as [E|E].
  - eexists; repeat split; [auto with psi| |simpl; lia].
    cbn. rewrite Z.mod_mod by lia. lia.
  - assert (Hb : 0 <= v / 128 < 2 ^ (7 * Z.of_nat n)).
    { split; [apply Z.div_pos; lia|]. apply Z.div_lt_upper_bound; [lia|].
      change 128 with (2 ^ 7). rewrite <- Z.pow_add_r by lia.
      replace (7 + 7 * Z.of_nat n) with (7 * Z.of_nat (S n)) by lia. lia. }
    destruct n as [|n]; [simpl in Hb; lia|].
    destruct (IH (v / 128) Hb ltac:(lia)) as (bs & E1 & E2 & E3 & E4). rewrite E1.
    eexists; repeat split; [|  |cbn [length]; lia].
    + apply leb_more; [rewrite lor128; lia|assumption].
    + cbn [leb_val]. rewrite lor128, E3, add128_mod; lia.
Qed.

End Encoding.

(** ** The decoding loop *)

Section Decoding.
Context (chk : Z -> M guarded_ptr unit) (N : Z) (g : guarded_ptr).
Context (Hwf : wf g).
(** The check on a last byte only inspects the byte. *)
Context (Hchk : forall b, chk b g = Ok tt g \/ exists e, chk b g = Throw e g).

Definition bytes_at (off : Z) (bs : list Z) : Prop :=
  take (length bs) (drop (Z.to_nat off) (gp_data g)) = bs.

Lemma at_ok cnt b :
  0 <= cnt -> gp_raw g + cnt < gp_bnds g ->
  gp_data g !! Z.to_nat (gp_raw g + cnt) = Some b -> at_ cnt g = Ok b g.
Proof.
  intros Hc Hb Hl. unfold at_, bind, get. cbn.
  rewrite avail_wf by assumption.
  replace (cnt <? gp_bnds g - gp_raw g) with true by (symmetry; apply Z.ltb_lt; lia).
  cbn. unfold deref. destruct Hwf. destruct (Z.ltb_spec (gp_raw g + cnt) 0); [lia|].
  now rewrite Hl.
Qed.

Lemma bytes_at_cons off b bs :
  0 <= off -> bytes_at off (b :: bs) <->
  gp_data g !! Z.to_nat off = Some b /\ bytes_at (off + 1) bs.
Proof.
  intros Ho. unfold bytes_at. cbn [length].
  replace (Z.to_nat (off + 1)) with (S (Z.to_nat off)) by lia.
  destruct (gp_data g !! Z.to_nat off) as [b'|] eqn:E.
  - rewrite (drop_S _ b') by assumption. cbn. split.
    + intros [= -> H]. auto.
    + intros [[= ->] H]. now rewrite H.
  - rewrite drop_ge by (now apply lookup_ge_None). cbn.
    split; [discriminate|intros [? _]; discriminate].
Qed.

Lemma in_bounds_test cnt :
  0 <= cnt -> gp_raw g + cnt < 2 ^ 64 ->
  (wrap 64 (offset g + cnt) <? bounds g) = (gp_raw g + cnt <? gp_bnds g).
Proof.
  intros. unfold offset, bounds. rewrite wrap_small; [reflexivity|].
  destruct Hwf. unfold in_u. lia.
Qed.

Lemma read_loop_step fuel cnt b :
  0 <= cnt -> gp_raw g + cnt < gp_bnds g ->
  gp_data g !! Z.to_nat (gp_raw g + cnt) = Some b ->
  read_loop chk N (S fuel) cnt g =
  (if Z.land b 128 =? 0 then
     (if cnt + 1 =? Z.of_nat (bytes_needed N) then chk b else ret tt) ;;; ret [b]
   else let* bs := read_loop chk N fuel (cnt + 1) in ret (b :: bs)) g.
Proof.
  intros Hc Hb Hl. cbn [read_loop]. unfold bind at 1. cbn [get].
  unfold bind at 1. rewrite in_bounds_test by (auto; destruct Hwf; lia).
  replace (gp_raw g + cnt <? gp_bnds g) with true by (symmetry; now apply Z.ltb_lt).
  cbn. now rewrite (bind_Ok _ _ _ _ _ (at_ok cnt b Hc Hb Hl)).
Qed.

Lemma read_loop_complete bs : leb_wf bs -> forall fuel cnt,
  (length bs <= fuel)%nat -> 0 <= cnt ->
  bytes_at (gp_raw g + cnt) bs -> gp_raw g + cnt + Z.of_nat (length bs) <= gp_bnds g ->
  (cnt + Z.of_nat (length bs) = Z.of_nat (bytes_needed N) ->
   forall l, list.last bs = Some l -> chk l g = Ok tt g) ->
  read_loop chk N fuel cnt g = Ok bs g.
Proof.
  induction 1 as [b Hb|b bs Hb Hbs IH]; intros [|fuel] cnt Hlen Hc Hat Hbnd Hl;
    cbn [length] in *; try lia.
  - apply bytes_at_cons in Hat as [Hl0 _]; [|destruct Hwf; lia].
    rewrite (read_loop_step _ _ b) by (auto; lia).
    rewrite cont_flag by lia. destruct (Z.ltb_spec b 128); [|lia].
    destruct (Z.eqb_spec (cnt + 1) (Z.of_nat (bytes_needed N))) as [E|E]; [|reflexivity].
    now rewrite (bind_Ok _ _ _ _ _ (Hl E b eq_refl)).
  - apply bytes_at_cons in Hat as [Hl0 Hat]; [|destruct Hwf; lia].
    rewrite (read_loop_step _ _ b) by (auto; lia).
    rewrite cont_flag by lia. destruct (Z.ltb_spec b 128); [lia|].
    rewrite (bind_Ok _ _ _ bs g); [reflexivity|]. apply IH; try lia.
    + now rewrite Z.add_assoc.
    + intros E l Hlast. apply Hl; [lia|]. destruct bs; [inversion Hbs|exact Hlast].
Qed.

Context (Hbytes : Forall (in_u 8) (gp_data g)).

Lemma read_loop_sound fuel : forall cnt, 0 <= cnt -> cnt + Z.of_nat fuel <= 10 ->
  wp (read_loop chk N fuel cnt)
     (fun bs g' => g' = g /\ leb_wf bs /\ (length bs <= fuel)%nat /\
        bytes_at (gp_raw g + cnt) bs /\ gp_raw g + cnt + Z.of_nat (length bs) <= gp_bnds g /\
        (cnt + Z.of_nat (length bs) = Z.of_nat (bytes_needed N) ->
         exists l, list.last bs = Some l /\ chk l g = Ok tt g))
     (fun _ g' => g' = g) g.
Proof.
  induction fuel as [|fuel IH]; intros cnt Hc Hf; [reflexivity|].
  destruct (Z.lt_ge_cases (gp_raw g + cnt) (gp_bnds g)) as [Hin|Hout].
  2:{ unfold wp. cbn [read_loop]. unfold bind at 1. cbn [get]. unfold bind at 1.
      rewrite in_bounds_test by (auto; destruct Hwf; lia).
      destruct (Z.ltb_spec (gp_raw g + cnt) (gp_bnds g)); [lia|]. reflexivity. }
  destruct (deref_wf g (gp_raw g + cnt) Hwf ltac:(destruct Hwf; lia)) as [b Hd].
  assert (Hl : gp_data g !! Z.to_nat (gp_raw g + cnt) = Some b).
  { unfold deref in Hd. destruct (_ <? _); [discriminate|]. destruct (_ !! _); congruence. }
  assert (Hb : in_u 8 b) by (eapply (Forall_lookup_1 _ _ _ _ Hbytes); eassumption).
  change (2 ^ 8) with 256 in Hb. unfold in_u in Hb.
  unfold wp. rewrite (read_loop_step _ _ b) by auto. rewrite cont_flag by assumption.
  assert (H1 : bytes_at (gp_raw g + cnt) [b]).
  { apply bytes_at_cons; [destruct Hwf; lia|]. split; [assumption|reflexivity]. }
  destruct (Z.ltb_spec b 128).
  - destruct (Z.eqb_spec (cnt + 1) (Z.of_nat (bytes_needed N))) as [E|E].
    + unfold bind. destruct (Hchk b) as [Hk|[e Hk]]; rewrite Hk; [|reflexivity].
      cbn; repeat split; eauto with psi lia.
    + cbn. repeat split; auto; try lia. apply leb_last; lia.
  - unfold bind at 1. specialize (IH (cnt + 1) ltac:(lia) ltac:(lia)). unfold wp in IH.
    destruct (read_loop chk N fuel (cnt + 1) g) as [bs g'|e g'|]; auto.
    destruct IH as (-> & A1 & A2 & A3 & A4 & A5). cbn. cbn [length]. repeat split.
    + apply leb_more; [lia|assumption].
    + lia.
    + apply bytes_at_cons; [destruct Hwf; lia|]. rewrite <- Z.add_assoc. auto.
    + lia.
    + intros E. destruct (A5 ltac:(lia)) as (l & L1 & L2). exists l. split; [|assumption].
      destruct bs; [inversion A1|exact L1].
Qed.

End Decoding.

(** ** Signed values *)

Fixpoint leb_sval (bs : list Z) : Z :=
  match bs with
  | [] => 0
  | [b] => if b <? 64 then b else b - 128
  | b :: bs' => b mod 128 + 128 * leb_sval bs'
  end.

Section Values.

Definition top (bs : list Z) : Z := 2 ^ (7 * (Z.of_nat (length bs) - 1)).

Lemma leb_wf_len bs : leb_wf bs -> 1 <= Z.of_nat (length bs).
Proof. destruct 1; cbn [length]; lia. Qed.

Lemma top_cons b bs : leb_wf bs -> top (b :: bs) = 128 * top bs.
Proof.
  intros H. apply leb_wf_len in H. unfold top. cbn [length].
  change 128 with (2 ^ 7). rewrite <- Z.pow_add_r by lia. f_equal. lia.
Qed.

Lemma top_pos bs : leb_wf bs -> 0 < top bs.
Proof. intros H. apply leb_wf_len in H. apply Z.pow_pos_nonneg; lia. Qed.

Lemma leb_sval_cons b bs : leb_wf bs -> leb_sval (b :: bs) = b mod 128 + 128 * leb_sval bs.
Proof. destruct 1; reflexivity. Qed.

(** The last byte decides the magnitude of the value. *)
Lemma leb_last_bounds bs : leb_wf bs ->
  exists l, list.last bs = Some l /\ 0 <= l < 128 /\
    l * top bs <= leb_val bs < (l + 1) * top bs /\
    leb_sval [l] * top bs <= leb_sval bs < (leb_sval [l] + 1) * top bs.
Proof.
  induction 1 as [b Hb|b bs Hb Hbs (l & E & Hl & IH1 & IH2)].
  - exists b. cbn -[Z.mul Z.sub]. unfold top. cbn -[leb_sval]. rewrite Z.mod_small by lia.
    repeat split; lia.
  - exists l. rewrite top_cons, (leb_sval_cons b bs) by assumption.
    pose proof (Z.mod_pos_bound b 128 ltac:(lia)).
    split; [destruct bs; [inversion Hbs|exact E]|]. split; [assumption|].
    cbn [leb_val]. split; nia.
Qed.

Lemma leb_sval_val bs : leb_wf bs ->
  exists l, list.last bs = Some l /\ 0 <= l < 128 /\
    leb_sval bs = leb_val bs - (if l <? 64 then 0 else 2 ^ (7 * Z.of_nat (length bs))).
Proof.
  induction 1 as [b Hb|b bs Hb Hbs (l & E & Hl & IH)].
  - exists b. cbn -[Z.sub]. rewrite Z.mod_small by lia. repeat split; try lia.
    destruct (b <? 64); lia.
  - exists l. split; [destruct bs; [inversion Hbs|exact E]|]. split; [assumption|].
    rewrite leb_sval_cons, IH by assumption. cbn [leb_val length].
    rewrite Nat2Z.inj_succ. replace (7 * Z.succ (Z.of_nat (length bs))) with (7 + 7 * Z.of_nat (length bs)) by lia.
    rewrite Z.pow_add_r by lia. change (2 ^ 7) with 128. destruct (l <? 64); lia.
Qed.

Lemma varint_loop_ok fuel v :
  in_s (7 * Z.of_nat fuel) v -> fuel <> 0%nat ->
  exists bs, varint_loop fuel v = (bs, true) /\ leb_wf bs /\ leb_sval bs = v /\
             (length bs <= fuel)%nat.
Proof.
  revert v. induction fuel as [|n IH]; intros v Hv Hf; [congruence|].
  cbn [varint_loop]. rewrite land127, shr7.
  pose proof (Z.mod_pos_bound v 128 ltac:(lia)) as Hm.
  pose proof (Z.div_mod v 128 ltac:(lia)) as Hd.
  rewrite sign_flag by assumption.
  destruct (((v / 128 =? -1) && negb (v mod 128 <? 64)) || ((v / 128 =? 0) && negb (negb (v mod 128 <? 64)))) eqn:E.
  - eexists; repeat split; [auto with psi| |simpl; lia].
    cbn -[Z.sub]. destruct (Z.ltb_spec (v mod 128) 64); cbn in E; blia.
  - assert (Hb : in_s (7 * Z.of_nat (S n) - 7) (v / 128) /\ n <> 0%nat).
    { unfold in_s in *. destruct n as [|n].
      - exfalso. simpl in Hv. destruct (Z.ltb_spec (v mod 128) 64); cbn in E;
          rewrite ?andb_false_r, ?andb_true_r, ?orb_false_r, ?orb_false_l in E; cbn in E; blia.
      - split; [|lia].
        replace (7 * Z.of_nat (S (S n)) - 1) with (7 + (7 * Z.of_nat (S (S n)) - 7 - 1)) in Hv by lia.
        rewrite Z.pow_add_r in Hv by lia. change (2 ^ 7) with 128 in Hv.
        split; [apply Z.div_le_lower_bound|apply Z.div_lt_upper_bound]; lia. }
    destruct Hb as [Hb Hn].
    replace (7 * Z.of_nat (S n) - 7) with (7 * Z.of_nat n) in Hb by lia.
    destruct (IH (v / 128) Hb Hn) as (bs & E1 & E2 & E3 & E4). rewrite E1.
    eexists; repeat split; [| |cbn [length]; lia].
    + apply leb_more; [rewrite lor128; lia|assumption].
    + rewrite leb_sval_cons, lor128, E3, add128_mod by (auto; lia). lia.
Qed.

(** No encoding of [v] is shorter than the one the loop produces. *)
Lemma varuint_loop_minimal fuel v bs :
  leb_wf bs -> leb_val bs = v -> (length (fst (varuint_loop fuel v)) <= length bs)%nat.
Proof.
  revert v bs. induction fuel as [|n IH]; intros v bs Hbs Hv; [simpl; lia|].
  cbn [varuint_loop]. rewrite shr7. pose proof (leb_wf_len _ Hbs).
  destruct (Z.eqb_spec (v / 128) 0); [simpl; lia|].
  destruct Hbs as [b Hb|b bs Hb Hbs].
  - cbn in Hv. rewrite Z.mod_small in Hv by lia. subst v. rewrite Z.div_small in n0; lia.
  - cbn [leb_val] in Hv. pose proof (Z.mod_pos_bound b 128 ltac:(lia)).
    assert (E : leb_val bs = v / 128) by (apply Z.div_unique with (b mod 128); lia).
    specialize (IH _ _ Hbs E). destruct (varuint_loop n (v / 128)). cbn in *. lia.
Qed.

End Values.

(** ** Last-byte checks and conversions at widths 32 and 64 *)

Definition wide (N : Z) : Prop := N = 32 \/ N = 64.

Section Wide.
Context (N : Z) (HN : wide N).

Lemma needed_bits : 7 * (Z.of_nat (bytes_needed N) - 1) + last_offset N = N /\
  1 <= last_offset N < 7 /\ Z.of_nat (bytes_needed N) <= 10 /\ bytes_needed N <> 0%nat.
Proof. destruct HN; subst; repeat split; (reflexivity || (vm_compute; discriminate)). Qed.

Lemma varuint_check_last_eq b g : 0 <= b < 128 ->
  varuint_check_last N b g =
  if b <? 2 ^ last_offset N then Ok tt g
  else Throw (Exn wasm_parse_exception "unused bits of unsigned leb128 must be 0") g.
Proof.
  intros Hb. unfold varuint_check_last.
  replace (Z.land (unused_mask (last_offset N)) b =? 0) with (b <? 2 ^ last_offset N);
    [now destruct (_ <? _)|].
  destruct HN; subst; z_enum b 128%nat Hb.
Qed.

Definition fits_s (b : Z) : bool :=
  (- 2 ^ (last_offset N - 1) <=? leb_sval [b]) && (leb_sval [b] <? 2 ^ (last_offset N - 1)).

Lemma varint_check_last_eq b g : 0 <= b < 128 ->
  varint_check_last N b g =
  if fits_s b then Ok tt g
  else Throw (Exn wasm_parse_exception "unused bits of signed leb128 must be the same as the sign bit") g.
Proof.
  intros Hb. unfold varint_check_last, fits_s.
  match goal with |- psizam_assert ?x _ _ _ = (if ?y then _ else _) => replace x with y; [now destruct y|] end.
  destruct HN; subst; z_enum b 128%nat Hb.
Qed.

Lemma top_full bs : Z.of_nat (length bs) = Z.of_nat (bytes_needed N) ->
  2 ^ N = top bs * 2 ^ last_offset N /\ 2 ^ (N - 1) = top bs * 2 ^ (last_offset N - 1).
Proof.
  intros E. unfold top. rewrite E. pose proof needed_bits.
  split; rewrite <- Z.pow_add_r by lia; f_equal; lia.
Qed.

Lemma leb_val_in_u bs : leb_wf bs -> (length bs <= bytes_needed N)%nat ->
  (in_u N (leb_val bs) <->
   (Z.of_nat (length bs) = Z.of_nat (bytes_needed N) ->
    forall l, list.last bs = Some l -> (l <? 2 ^ last_offset N) = true)).
Proof.
  intros Hbs Hlen. destruct (leb_last_bounds bs Hbs) as (l & El & Hl & Hv & _).
  pose proof (top_pos _ Hbs). pose proof needed_bits. unfold in_u.
  destruct (Z.eq_dec (Z.of_nat (length bs)) (Z.of_nat (bytes_needed N))) as [E|E].
  - destruct (top_full bs E) as [-> _]. rewrite El. split.
    + intros [_ Hu] _ l' [= <-]. apply Z.ltb_lt. nia.
    + intros H'. specialize (H' E l eq_refl). apply Z.ltb_lt in H'. nia.
  - split; [congruence|]. intros _. pose proof (leb_val_bound bs).
    assert (2 ^ (7 * Z.of_nat (length bs)) <= 2 ^ N) by (apply Z.pow_le_mono_r; lia). lia.
Qed.

Lemma leb_sval_in_s bs : leb_wf bs -> (length bs <= bytes_needed N)%nat ->
  (in_s N (leb_sval bs) <->
   (Z.of_nat (length bs) = Z.of_nat (bytes_needed N) ->
    forall l, list.last bs = Some l -> fits_s l = true)).
Proof.
  intros Hbs Hlen. destruct (leb_last_bounds bs Hbs) as (l & El & Hl & _ & Hv).
  pose proof (top_pos _ Hbs). pose proof needed_bits as Hn. unfold in_s, fits_s.
  destruct (Z.eq_dec (Z.of_nat (length bs)) (Z.of_nat (bytes_needed N))) as [E|E].
  - destruct (top_full bs E) as [_ ->]. rewrite El. split.
    + intros [? ?] _ l' [= <-]. apply andb_true_iff; split; [apply Z.leb_le|apply Z.ltb_lt]; nia.
    + intros H'. specialize (H' E l eq_refl). apply andb_true_iff in H' as [H1 H2].
      apply Z.leb_le in H1. apply Z.ltb_lt in H2. nia.
  - split; [congruence|]. intros _. pose proof (leb_wf_len _ Hbs).
    assert (Ht : 2 ^ (N - 1) >= 64 * top bs).
    { unfold top. change 64 with (2 ^ 6). rewrite <- Z.pow_add_r by lia.
      apply Z.le_ge, Z.pow_le_mono_r; lia. }
    assert (-64 <= leb_sval [l] < 64) by (cbn -[Z.sub]; destruct (Z.ltb_spec l 64); lia). nia.
Qed.

Definition complete (bs : list Z) : varuint :=
  {| storage := bs; bytes_used := Z.of_nat (length bs) |}.

Lemma varuint_to_complete bs : varuint_to N (complete bs) = Some (wrap N (leb_val bs)).
Proof.
  unfold varuint_to, complete. cbn [storage bytes_used].
  replace (N =? 1) with false by (destruct HN; subst; reflexivity).
  replace (N =? 7) with false by (destruct HN; subst; reflexivity).
  rewrite Z.leb_refl, Nat2Z.id, firstn_all, to_loop_val by (destruct HN; lia). reflexivity.
Qed.

(** The sign-extension mask at [7 * length bs] bits. *)
Lemma sign_mask k : 0 <= k < N -> k <= 64 ->
  wrap N (wrap 64 (Z.shiftl UINT64_MAX k)) = Z.shiftl (2 ^ (N - k) - 1) k.
Proof.
  intros Hk Hk'. unfold UINT64_MAX. rewrite !Z.shiftl_mul_pow2 by lia.
  assert (E : 2 ^ 64 = 2 ^ k * 2 ^ (64 - k)) by (rewrite <- Z.pow_add_r by lia; f_equal; lia).
  assert (EN : 2 ^ N = 2 ^ k * 2 ^ (N - k)) by (rewrite <- Z.pow_add_r by lia; f_equal; lia).
  assert (HNN : exists c, 2 ^ 64 = c * 2 ^ N).
  { destruct HN; subst; [exists (2 ^ 32)|exists 1]; reflexivity. }
  destruct HNN as [c Hc].
  pose proof (Z.pow_pos_nonneg 2 k ltac:(lia) ltac:(lia)).
  pose proof (Z.pow_pos_nonneg 2 (N - k) ltac:(lia) ltac:(lia)).
  pose proof (Z.pow_pos_nonneg 2 (64 - k) ltac:(lia) ltac:(lia)).
  unfold wrap.
  replace ((2 ^ 64 - 1) * 2 ^ k) with ((2 ^ 64 - 2 ^ k) + (2 ^ k - 1) * 2 ^ 64) by lia.
  rewrite Z_mod_plus_full, (Z.mod_small (2 ^ 64 - 2 ^ k)) by nia.
  replace (2 ^ 64 - 2 ^ k) with ((2 ^ N - 2 ^ k) + (c - 1) * 2 ^ N) by lia.
  rewrite Z_mod_plus_full, Z.mod_small by nia. nia.
Qed.

Lemma varint_to_complete bs : leb_wf bs -> (length bs <= bytes_needed N)%nat ->
  varint_to N (complete bs) = Some (signed N (wrap N (leb_sval bs))).
Proof.
  intros Hbs Hlen. pose proof (leb_wf_len _ Hbs). pose proof needed_bits as Hn.
  destruct (leb_sval_val bs Hbs) as (l & El & Hl & Hs).
  unfold varint_to, complete. cbn [storage bytes_used].
  replace (N =? 7) with false by (destruct HN; subst; reflexivity).
  rewrite Z.leb_refl, Nat2Z.id, firstn_all, to_loop_val by (destruct HN; lia).
  replace (1 <=? Z.of_nat (length bs)) with true by (symmetry; now apply Z.leb_le). cbn [andb].
  destruct (Z.ltb_spec (Z.of_nat (length bs)) (Z.of_nat (bytes_needed N))) as [Hs1|Hs1].
  - rewrite El, sign_flag by assumption. do 2 f_equal. rewrite Hs.
    destruct (l <? 64); [now rewrite Z.sub_0_r|].
    rewrite (Z.mul_comm _ 7), sign_mask by lia.
    pose proof (leb_val_bound bs) as Hv.
    assert (2 ^ (7 * Z.of_nat (length bs)) <= 2 ^ N) by (apply Z.pow_le_mono_r; lia).
    rewrite wrap_small by (unfold in_u; lia). rewrite lor_add by (unfold in_u; lia).
    assert (EN : 2 ^ N = 2 ^ (7 * Z.of_nat (length bs)) * 2 ^ (N - 7 * Z.of_nat (length bs)))
      by (rewrite <- Z.pow_add_r by lia; f_equal; lia).
    rewrite <- (wrap_small N (leb_val bs + _)) by (unfold in_u; nia).
    replace (leb_val bs + (2 ^ (N - 7 * Z.of_nat (length bs)) - 1) * 2 ^ (7 * Z.of_nat (length bs)))
      with (leb_val bs - 2 ^ (7 * Z.of_nat (length bs)) + 1 * 2 ^ N) by nia.
    now rewrite wrap_add_pow.
  - do 2 f_equal. rewrite Hs. destruct (l <? 64); [now rewrite Z.sub_0_r|].
    replace (2 ^ (7 * Z.of_nat (length bs))) with (2 ^ (7 * Z.of_nat (length bs) - N) * 2 ^ N)
      by (rewrite <- Z.pow_add_r by lia; f_equal; lia).
    replace (leb_val bs) with (leb_val bs - 2 ^ (7 * Z.of_nat (length bs) - N) * 2 ^ N
                               + 2 ^ (7 * Z.of_nat (length bs) - N) * 2 ^ N) at 1 by lia.
    now rewrite wrap_add_pow.
Qed.

End Wide.

(** ** Correctness of the codecs *)

Lemma advance_ok g n : wf g -> 0 <= n -> gp_raw g + n <= gp_bnds g ->
  advance n g = Ok tt (set_raw (gp_raw g + n) g).
Proof.
  intros Hwf H0 Hn. unfold advance, bind, get. cbn. rewrite avail_wf by assumption.
  now replace (n <=? gp_bnds g - gp_raw g) with true by (symmetry; apply Z.leb_le; lia).
Qed.

Lemma set_raw_wf g n : wf g -> 0 <= n -> gp_raw g + n <= gp_bnds g -> wf (set_raw (gp_raw g + n) g).
Proof. unfold wf. cbn. lia. Qed.

(** [bs] is what lies under the pointer. *)
Definition reads (g : guarded_ptr) (bs : list Z) : Prop :=
  bytes_at g (gp_raw g) bs /\ gp_raw g + Z.of_nat (length bs) <= gp_bnds g.

Lemma varuint_check_total N b g :
  varuint_check_last N b g = Ok tt g \/ exists e, varuint_check_last N b g = Throw e g.
Proof. unfold varuint_check_last, psizam_assert. destruct (_ =? _); eauto. Qed.

Lemma varint_check_total N b g :
  varint_check_last N b g = Ok tt g \/ exists e, varint_check_last N b g = Throw e g.
Proof. unfold varint_check_last, psizam_assert. destruct (_ =? _); eauto. Qed.

Lemma varuint_from_u64_loop N v : wide N -> in_u N v ->
  exists bs, varuint_from_u64 N v = complete bs /\ leb_wf bs /\ leb_val bs = v /\
    (length bs <= bytes_needed N)%nat /\ bs = fst (varuint_loop (bytes_needed N) v).
Proof.
  intros HN Hv. pose proof (needed_bits N HN) as Hn.
  assert (E0 : varuint_from_u64 N v = varuint_of_loop (varuint_loop (bytes_needed N) v)).
  { unfold varuint_from_u64. destruct HN; subst; cbn [Z.leb]; [|reflexivity].
    now rewrite wrap_small by assumption. }
  destruct (varuint_loop_ok (bytes_needed N) v) as (bs & E1 & E2 & E3 & E4); [|lia|].
  { unfold in_u in Hv. assert (2 ^ N <= 2 ^ (7 * Z.of_nat (bytes_needed N))) by (apply Z.pow_le_mono_r; lia). lia. }
  exists bs. rewrite E0, E1. unfold varuint_of_loop, complete. cbn [fst snd].
  rewrite Z.add_0_r. auto.
Qed.

Lemma varint_from_loop N v : wide N -> in_s N v ->
  exists bs, varint_from N v = complete bs /\ leb_wf bs /\ leb_sval bs = v /\
    (length bs <= bytes_needed N)%nat.
Proof.
  intros HN Hv. pose proof (needed_bits N HN) as Hn.
  destruct (varint_loop_ok (bytes_needed N) v) as (bs & E1 & E2 & E3 & E4); [|lia|].
  { unfold in_s in *. assert (2 ^ (N - 1) <= 2 ^ (7 * Z.of_nat (bytes_needed N) - 1)) by (apply Z.pow_le_mono_r; lia). lia. }
  exists bs. unfold varint_from, varuint_of_loop, complete. rewrite E1. cbn [fst snd].
  rewrite Z.add_0_r. auto.
Qed.

(** Reading back a complete encoding whose last byte passes the check. *)
Lemma from_code_complete chk N g bs :
  wide N -> wf g -> leb_wf bs -> (length bs <= bytes_needed N)%nat -> reads g bs ->
  (Z.of_nat (length bs) = Z.of_nat (bytes_needed N) ->
   forall l, list.last bs = Some l -> chk l g = Ok tt g) ->
  from_code chk N g = Ok (complete bs) (set_raw (gp_raw g + Z.of_nat (length bs)) g).
Proof.
  intros HN Hwf Hbs Hlen [Hat Hb] Hl. unfold from_code.
  rewrite (bind_Ok _ _ _ bs g).
  - rewrite (bind_Ok _ _ _ _ _ (advance_ok g _ Hwf (Nat2Z.is_nonneg _) Hb)). reflexivity.
  - apply read_loop_complete; auto; try lia. now rewrite Z.add_0_r.
Qed.

(** What reading arbitrary bytes can do. *)
Lemma from_code_sound chk N g :
  wide N -> wf g -> Forall (in_u 8) (gp_data g) ->
  (forall b, chk b g = Ok tt g \/ exists e, chk b g = Throw e g) ->
  wp (from_code chk N)
     (fun v g' => exists bs, v = complete bs /\ g' = set_raw (gp_raw g + Z.of_nat (length bs)) g /\
        reads g bs /\ leb_wf bs /\ (length bs <= bytes_needed N)%nat /\
        (Z.of_nat (length bs) = Z.of_nat (bytes_needed N) ->
         forall l, list.last bs = Some l -> 0 <= l < 128 /\ chk l g = Ok tt g))
     (fun _ g' => g' = g) g.
Proof.
  intros HN Hwf Hby Hchk. pose proof (needed_bits N HN) as Hn.
  pose proof (read_loop_sound chk N g Hwf Hchk Hby (bytes_needed N) 0 ltac:(lia) ltac:(lia)) as Hr.
  unfold from_code, wp in *. unfold bind at 1.
  destruct (read_loop _ _ _ _ g) as [bs g'|e g'|]; auto.
  destruct Hr as (-> & E2 & E4 & Hat & Hb & Hl). rewrite Z.add_0_r in *.
  rewrite (bind_Ok _ _ _ _ _ (advance_ok g _ Hwf (Nat2Z.is_nonneg _) Hb)). cbn.
  exists bs. do 5 (split; [first [reflexivity|assumption|split; assumption]|]).
  intros E l Hlast. destruct (leb_last_bounds bs E2) as (l' & El & Hl' & _).
  destruct (Hl E) as (l'' & L1 & L2). split; congruence.
Qed.

(** Decoding a given encoding, minimal or not. *)
Lemma parse_varuint_complete N bs g :
  wide N -> wf g -> leb_wf bs -> (length bs <= bytes_needed N)%nat -> in_u N (leb_val bs) -> reads g bs ->
  parse_varuint N g = Ok (leb_val bs) (set_raw (gp_raw g + Z.of_nat (length bs)) g).
Proof.
  intros HN Hwf Hbs Hlen Hv Hr. unfold parse_varuint, varuint_from_code. erewrite bind_Ok.
  2:{ apply from_code_complete; eauto. intros Efull l Hl.
      destruct (leb_last_bounds bs Hbs) as (l' & El & Hl' & _). rewrite Hl in El. injection El as <-.
      rewrite varuint_check_last_eq by assumption.
      now rewrite (proj1 (leb_val_in_u N HN bs Hbs Hlen) Hv Efull l Hl). }
  rewrite varuint_to_complete, wrap_small by assumption. reflexivity.
Qed.

Lemma parse_varint_complete N bs g :
  wide N -> wf g -> leb_wf bs -> (length bs <= bytes_needed N)%nat -> in_s N (leb_sval bs) -> reads g bs ->
  parse_varint N g = Ok (leb_sval bs) (set_raw (gp_raw g + Z.of_nat (length bs)) g).
Proof.
  intros HN Hwf Hbs Hlen Hv Hr. unfold parse_varint, varint_from_code. erewrite bind_Ok.
  2:{ apply from_code_complete; eauto. intros Efull l Hl.
      destruct (leb_last_bounds bs Hbs) as (l' & El & Hl' & _). rewrite Hl in El. injection El as <-.
      rewrite varint_check_last_eq by assumption.
      now rewrite (proj1 (leb_sval_in_s N HN bs Hbs Hlen) Hv Efull l Hl). }
  rewrite varint_to_complete, signed_wrap by (auto; destruct HN; lia). reflexivity.
Qed.

(** Decoding whatever lies under the pointer. *)
Lemma parse_varuint_reads N g :
  wide N -> wf g -> Forall (in_u 8) (gp_data g) ->
  wp (parse_varuint N)
     (fun v g' => exists bs, reads g bs /\ leb_wf bs /\ (length bs <= bytes_needed N)%nat /\
        v = leb_val bs /\ in_u N v /\ g' = set_raw (gp_raw g + Z.of_nat (length bs)) g)
     (fun _ g' => g' = g) g.
Proof.
  intros HN Hwf Hby. unfold parse_varuint, varuint_from_code. apply wp_bind.
  eapply wp_mono; [| |apply from_code_sound; auto using varuint_check_total]; [|auto].
  intros v g' (bs & -> & -> & Hr & Hbs & Hlen & Hl). rewrite varuint_to_complete by assumption.
  assert (Hu : in_u N (leb_val bs)).
  { apply (leb_val_in_u N HN bs Hbs Hlen). intros E l Hlast. destruct (Hl E l Hlast) as [Hl' Hc].
    rewrite varuint_check_last_eq in Hc by assumption. destruct (_ <? _); [reflexivity|discriminate]. }
  unfold wp. cbn. exists bs. rewrite wrap_small by assumption. auto 10.
Qed.

Lemma parse_varint_reads N g :
  wide N -> wf g -> Forall (in_u 8) (gp_data g) ->
  wp (parse_varint N)
     (fun v g' => exists bs, reads g bs /\ leb_wf bs /\ (length bs <= bytes_needed N)%nat /\
        v = leb_sval bs /\ in_s N v /\ g' = set_raw (gp_raw g + Z.of_nat (length bs)) g)
     (fun _ g' => g' = g) g.
Proof.
  intros HN Hwf Hby. unfold parse_varint, varint_from_code. apply wp_bind.
  eapply wp_mono; [| |apply from_code_sound; auto using varint_check_total]; [|auto].
  intros v g' (bs & -> & -> & Hr & Hbs & Hlen & Hl). rewrite varint_to_complete by assumption.
  assert (Hu : in_s N (leb_sval bs)).
  { apply (leb_sval_in_s N HN bs Hbs Hlen). intros E l Hlast. destruct (Hl E l Hlast) as [Hl' Hc].
    rewrite varint_check_last_eq in Hc by assumption. destruct (fits_s N l); [reflexivity|discriminate]. }
  unfold wp. cbn. exists bs. rewrite signed_wrap by (auto; destruct HN; lia). auto 10.
Qed.

(** C32. Encoding an unsigned or signed 32- or 64-bit integer and decoding the
    bytes through a bounded pointer gives the integer back and advances the
    pointer by exactly the bytes of the encoding. *)
Theorem leb128_roundtrip N g :
  wide N -> wf g ->
  (forall v, in_u N v -> reads g (storage (varuint_from_u64 N v)) ->
     parse_varuint N g = Ok v (set_raw (gp_raw g + bytes_used (varuint_from_u64 N v)) g)) /\
  (forall v, in_s N v -> reads g (storage (varint_from N v)) ->
     parse_varint N g = Ok v (set_raw (gp_raw g + bytes_used (varint_from N v)) g)).
Proof.
  intros HN Hwf. split; intros v Hv Hr.
  - destruct (varuint_from_u64_loop N v HN Hv) as (bs & E & Hbs & <- & Hlen & _). rewrite E in *. now apply parse_varuint_complete.
  - destruct (varint_from_loop N v HN Hv) as (bs & E & Hbs & <- & Hlen). rewrite E in *. now apply parse_varint_complete.
Qed.

(** C31. Decoding an integer from arbitrary bytes never leaves defined behaviour
    and never reads past the bounds: it either throws and leaves the pointer where
    it was, or consumes at most [bytes_needed] bytes and returns their base-128
    value, for a signed integer the two's complement reading of their payload
    bits, which is an [N]-bit integer (nothing is truncated). *)
Theorem leb128_reads_sound N g :
  wide N -> wf g -> Forall (in_u 8) (gp_data g) ->
  wp (parse_varuint N)
     (fun v g' => exists bs, reads g bs /\ leb_wf bs /\ (length bs <= bytes_needed N)%nat /\
        v = leb_val bs /\ in_u N v /\ g' = set_raw (gp_raw g + Z.of_nat (length bs)) g)
     (fun _ g' => g' = g) g /\
  wp (parse_varint N)
     (fun v g' => exists bs, reads g bs /\ leb_wf bs /\ (length bs <= bytes_needed N)%nat /\
        v = leb_sval bs /\ in_s N v /\ g' = set_raw (gp_raw g + Z.of_nat (length bs)) g)
     (fun _ g' => g' = g) g.
Proof. intros HN Hwf Hb. split; [now apply parse_varuint_reads|now apply parse_varint_reads]. Qed.

(** The unsigned encoder is minimal: any byte sequence that decodes to the
    same value is at least as long. *)
Theorem varuint_encoding_minimal N v bs :
  wide N -> in_u N v -> leb_wf bs -> leb_val bs = v ->
  bytes_used (varuint_from_u64 N v) <= Z.of_nat (length bs).
Proof.
  intros HN Hv Hbs E. destruct (varuint_from_u64_loop N v HN Hv) as (bs' & -> & _ & _ & _ & ->).
  pose proof (varuint_loop_minimal (bytes_needed N) v bs Hbs E). cbn. lia.
Qed.

(** ** Witnesses on concrete encodings *)

Definition sample : guarded_ptr := make [0xe5; 0x8e; 0x26; 0x0b] 4.
Definition sample_s : guarded_ptr := make [0xc0; 0xbb; 0x78; 0x0b] 4.

Lemma leb128_roundtrip_witness :
  parse_varuint 32 sample = Ok 624485 (set_raw 3 sample) /\ parse_varint 32 sample_s = Ok (-123456) (set_raw 3 sample_s).
Proof.
  split.
  - refine (proj1 (leb128_roundtrip 32 sample _ _) 624485 _ _).
    + left; reflexivity.
    + unfold wf; cbn; lia.
    + unfold in_u; lia.
    + split; [reflexivity|vm_compute; discriminate].
  - refine (proj2 (leb128_roundtrip 32 sample_s _ _) (-123456) _ _).
    + left; reflexivity.
    + unfold wf; cbn; lia.
    + unfold in_s; lia.
    + split; [reflexivity|vm_compute; discriminate].
Defined.

Lemma leb128_reads_sound_witness :
  wp (parse_varuint 64)
     (fun v g' => exists bs, reads sample bs /\ leb_wf bs /\ (length bs <= 10)%nat /\
        v = leb_val bs /\ in_u 64 v /\ g' = set_raw (0 + Z.of_nat (length bs)) sample)
     (fun _ g' => g' = sample) sample.
Proof.
  apply (leb128_reads_sound 64 sample).
  - right; reflexivity.
  - unfold wf; cbn; lia.
  - repeat (constructor; [unfold in_u; lia|]). constructor.
Defined.

Lemma varuint_encoding_minimal_witness : bytes_used (varuint_from_u64 32 5) <= 3.
Proof.
  apply (varuint_encoding_minimal 32 5 [0x85; 0x80; 0x00]).
  - left; reflexivity.
  - unfold in_u; lia.
  - apply leb_more; [lia|]. apply leb_more; [lia|]. apply leb_last; lia.
  - reflexivity.
Defined.
