(* ===== verification/Types.v ===== *)
(** * Modules and interpreter bytecode

    Models psizam/types.hpp (the decoded module and its queries) and the
    instruction set of psizam/detail/opcodes.hpp and opcodes_def.hpp that
    [bitcode_writer] emits and [interpret_visitor] executes.  Instructions
    with the same shape are grouped: [i32_binop i32_add] is the source's
    [i32_add_t].  Fields the interpreter never reads are left out. *)
From Stdlib Require Import ZArith Lia Bool String.
From stdpp Require Import base list numbers decidable option.
From S2P Require Import Prelude.

(** ** Value types ([enum types]) *)
Module types.
Definition i32 : Z := 0x7f.
Definition i64 : Z := 0x7e.
Definition f32 : Z := 0x7d.
Definition f64 : Z := 0x7c.
Definition v128 : Z := 0x7b.
Definition funcref : Z := 0x70.
Definition externref : Z := 0x6f.
Definition exnref : Z := 0x69.
Definition func : Z := 0x60.
Definition pseudo : Z := 0x40.
End types.

Inductive mem_safety := guarded | checked | unchecked | memory16.
Inductive checked_mode := strict | relaxed | immediate.
Inductive fp_mode := fast | hw_deterministic | softfloat.

#[global] Instance mem_safety_eq_dec : EqDecision mem_safety.
Proof. solve_decision. Defined.
#[global] Instance checked_mode_eq_dec : EqDecision checked_mode.
Proof. solve_decision. Defined.
#[global] Instance fp_mode_eq_dec : EqDecision fp_mode.
Proof. solve_decision. Defined.

(** ** Bytecode *)
Module Opcode.

(** [flags_align] is only a hint; the interpreter reads [offset]. *)
Record memarg := { flags_align : Z; mem_offset : Z }.

(** [br_table_t::elem_t] *)
Record br_table_elem := { bt_pc : Z; bt_stack_pop : Z; bt_eh_leave_count : Z }.

Inductive load_op :=
  | i32_load | i32_load8_s | i32_load16_s | i32_load8_u | i32_load16_u
  | i64_load | i64_load8_s | i64_load16_s | i64_load32_s
  | i64_load8_u | i64_load16_u | i64_load32_u | f32_load | f64_load.
Inductive store_op :=
  | i32_store | i32_store8 | i32_store16
  | i64_store | i64_store8 | i64_store16 | i64_store32 | f32_store | f64_store.

(** Shapes shared by the 32- and 64-bit instructions. *)
Inductive int_relop :=
  | eq | ne | lt_s | lt_u | le_s | le_u | gt_s | gt_u | ge_s | ge_u.
Inductive int_unop := clz | ctz | popcnt.
Inductive int_binop :=
  | add | sub | mul | div_s | div_u | rem_s | rem_u | and | or | xor
  | shl | shr_s | shr_u | rotl | rotr.
Inductive width := W32 | W64.

Inductive float_relop := feq | fne | flt | fgt | fle | fge.
Inductive float_unop := fabs | fneg | fceil | ffloor | ftrunc | fnearest | fsqrt.
Inductive float_binop := fadd | fsub | fmul | fdiv | fmin | fmax | fcopysign.

Inductive conv_op :=
  | i32_wrap_i64 | i64_extend_s_i32 | i64_extend_u_i32
  | i32_extend8_s | i32_extend16_s | i64_extend8_s | i64_extend16_s | i64_extend32_s
  | i32_reinterpret_f32 | i64_reinterpret_f64 | f32_reinterpret_i32 | f64_reinterpret_i64.

(** Conversions that go through the floating-point library. *)
Inductive fconv_op :=
  | i32_trunc_s_f32 | i32_trunc_u_f32 | i32_trunc_s_f64 | i32_trunc_u_f64
  | i64_trunc_s_f32 | i64_trunc_u_f32 | i64_trunc_s_f64 | i64_trunc_u_f64
  | i32_trunc_sat_f32_s | i32_trunc_sat_f32_u | i32_trunc_sat_f64_s | i32_trunc_sat_f64_u
  | i64_trunc_sat_f32_s | i64_trunc_sat_f32_u | i64_trunc_sat_f64_s | i64_trunc_sat_f64_u
  | f32_convert_s_i32 | f32_convert_u_i32 | f32_convert_s_i64 | f32_convert_u_i64 | f32_demote_f64
  | f64_convert_s_i32 | f64_convert_u_i32 | f64_convert_s_i64 | f64_convert_u_i64 | f64_promote_f32.

(** Vector instructions, by the shape of their immediates. *)
Inductive vec_load :=
  | v128_load | v128_load8x8_s | v128_load8x8_u | v128_load16x4_s | v128_load16x4_u | v128_load32x2_s
  | v128_load32x2_u | v128_load8_splat | v128_load16_splat | v128_load32_splat | v128_load64_splat
  | v128_load32_zero | v128_load64_zero.
Inductive vec_lane_load :=
  | v128_load8_lane | v128_load16_lane | v128_load32_lane | v128_load64_lane.
Inductive vec_lane_store :=
  | v128_store8_lane | v128_store16_lane | v128_store32_lane | v128_store64_lane.
Inductive vec_extract :=
  | i8x16_extract_lane_s | i8x16_extract_lane_u | i16x8_extract_lane_s | i16x8_extract_lane_u
  | i32x4_extract_lane | i64x2_extract_lane | f32x4_extract_lane | f64x2_extract_lane.
Inductive vec_replace :=
  | i8x16_replace_lane | i16x8_replace_lane | i32x4_replace_lane | i64x2_replace_lane | f32x4_replace_lane
  | f64x2_replace_lane.
Inductive vec_numeric :=
  | i8x16_swizzle | i8x16_splat | i16x8_splat | i32x4_splat | i64x2_splat | f32x4_splat | f64x2_splat
  | i8x16_eq | i8x16_ne | i8x16_lt_s | i8x16_lt_u | i8x16_gt_s | i8x16_gt_u | i8x16_le_s | i8x16_le_u
  | i8x16_ge_s | i8x16_ge_u | i16x8_eq | i16x8_ne | i16x8_lt_s | i16x8_lt_u | i16x8_gt_s | i16x8_gt_u
  | i16x8_le_s | i16x8_le_u | i16x8_ge_s | i16x8_ge_u | i32x4_eq | i32x4_ne | i32x4_lt_s | i32x4_lt_u
  | i32x4_gt_s | i32x4_gt_u | i32x4_le_s | i32x4_le_u | i32x4_ge_s | i32x4_ge_u | i64x2_eq | i64x2_ne
  | i64x2_lt_s | i64x2_gt_s | i64x2_le_s | i64x2_ge_s | f32x4_eq | f32x4_ne | f32x4_lt | f32x4_gt | f32x4_le
  | f32x4_ge | f64x2_eq | f64x2_ne | f64x2_lt | f64x2_gt | f64x2_le | f64x2_ge | v128_not | v128_and
  | v128_andnot | v128_or | v128_xor | v128_bitselect | v128_any_true | i8x16_abs | i8x16_neg | i8x16_popcnt
  | i8x16_all_true | i8x16_bitmask | i8x16_narrow_i16x8_s | i8x16_narrow_i16x8_u | i8x16_shl | i8x16_shr_s
  | i8x16_shr_u | i8x16_add | i8x16_add_sat_s | i8x16_add_sat_u | i8x16_sub | i8x16_sub_sat_s
  | i8x16_sub_sat_u | i8x16_min_s | i8x16_min_u | i8x16_max_s | i8x16_max_u | i8x16_avgr_u
  | i16x8_extadd_pairwise_i8x16_s | i16x8_extadd_pairwise_i8x16_u | i16x8_abs | i16x8_neg
  | i16x8_q15mulr_sat_s | i16x8_all_true | i16x8_bitmask | i16x8_narrow_i32x4_s | i16x8_narrow_i32x4_u
  | i16x8_extend_low_i8x16_s | i16x8_extend_high_i8x16_s | i16x8_extend_low_i8x16_u
  | i16x8_extend_high_i8x16_u | i16x8_shl | i16x8_shr_s | i16x8_shr_u | i16x8_add | i16x8_add_sat_s
  | i16x8_add_sat_u | i16x8_sub | i16x8_sub_sat_s | i16x8_sub_sat_u | i16x8_mul | i16x8_min_s | i16x8_min_u
  | i16x8_max_s | i16x8_max_u | i16x8_avgr_u | i16x8_extmul_low_i8x16_s | i16x8_extmul_high_i8x16_s
  | i16x8_extmul_low_i8x16_u | i16x8_extmul_high_i8x16_u | i32x4_extadd_pairwise_i16x8_s
  | i32x4_extadd_pairwise_i16x8_u | i32x4_abs | i32x4_neg | i32x4_all_true | i32x4_bitmask
  | i32x4_extend_low_i16x8_s | i32x4_extend_high_i16x8_s | i32x4_extend_low_i16x8_u
  | i32x4_extend_high_i16x8_u | i32x4_shl | i32x4_shr_s | i32x4_shr_u | i32x4_add | i32x4_sub | i32x4_mul
  | i32x4_min_s | i32x4_min_u | i32x4_max_s | i32x4_max_u | i32x4_dot_i16x8_s | i32x4_extmul_low_i16x8_s
  | i32x4_extmul_high_i16x8_s | i32x4_extmul_low_i16x8_u | i32x4_extmul_high_i16x8_u | i64x2_abs | i64x2_neg
  | i64x2_all_true | i64x2_bitmask | i64x2_extend_low_i32x4_s | i64x2_extend_high_i32x4_s
  | i64x2_extend_low_i32x4_u | i64x2_extend_high_i32x4_u | i64x2_shl | i64x2_shr_s | i64x2_shr_u | i64x2_add
  | i64x2_sub | i64x2_mul | i64x2_extmul_low_i32x4_s | i64x2_extmul_high_i32x4_s | i64x2_extmul_low_i32x4_u
  | i64x2_extmul_high_i32x4_u | f32x4_ceil | f32x4_floor | f32x4_trunc | f32x4_nearest | f32x4_abs | f32x4_neg
  | f32x4_sqrt | f32x4_add | f32x4_sub | f32x4_mul | f32x4_div | f32x4_min | f32x4_max | f32x4_pmin
  | f32x4_pmax | f64x2_ceil | f64x2_floor | f64x2_trunc | f64x2_nearest | f64x2_abs | f64x2_neg | f64x2_sqrt
  | f64x2_add | f64x2_sub | f64x2_mul | f64x2_div | f64x2_min | f64x2_max | f64x2_pmin | f64x2_pmax
  | i32x4_trunc_sat_f32x4_s | i32x4_trunc_sat_f32x4_u | f32x4_convert_i32x4_s | f32x4_convert_i32x4_u
  | i32x4_trunc_sat_f64x2_s_zero | i32x4_trunc_sat_f64x2_u_zero | f64x2_convert_low_i32x4_s
  | f64x2_convert_low_i32x4_u | f32x4_demote_f64x2_zero | f64x2_promote_low_f32x4 | f32x4_relaxed_madd
  | f32x4_relaxed_nmadd | f64x2_relaxed_madd | f64x2_relaxed_nmadd | i16x8_relaxed_dot_i8x16_i7x16_s
  | i32x4_relaxed_dot_i8x16_i7x16_add_s.

(** [atomic_sub] *)
Inductive atomic_sub :=
  | memory_atomic_notify | memory_atomic_wait32 | memory_atomic_wait64 | atomic_fence | i32_atomic_load
  | i64_atomic_load | i32_atomic_load8_u | i32_atomic_load16_u | i64_atomic_load8_u | i64_atomic_load16_u
  | i64_atomic_load32_u | i32_atomic_store | i64_atomic_store | i32_atomic_store8 | i32_atomic_store16
  | i64_atomic_store8 | i64_atomic_store16 | i64_atomic_store32 | i32_atomic_rmw_add | i64_atomic_rmw_add
  | i32_atomic_rmw8_add_u | i32_atomic_rmw16_add_u | i64_atomic_rmw8_add_u | i64_atomic_rmw16_add_u
  | i64_atomic_rmw32_add_u | i32_atomic_rmw_sub | i64_atomic_rmw_sub | i32_atomic_rmw8_sub_u
  | i32_atomic_rmw16_sub_u | i64_atomic_rmw8_sub_u | i64_atomic_rmw16_sub_u | i64_atomic_rmw32_sub_u
  | i32_atomic_rmw_and | i64_atomic_rmw_and | i32_atomic_rmw8_and_u | i32_atomic_rmw16_and_u
  | i64_atomic_rmw8_and_u | i64_atomic_rmw16_and_u | i64_atomic_rmw32_and_u | i32_atomic_rmw_or
  | i64_atomic_rmw_or | i32_atomic_rmw8_or_u | i32_atomic_rmw16_or_u | i64_atomic_rmw8_or_u
  | i64_atomic_rmw16_or_u | i64_atomic_rmw32_or_u | i32_atomic_rmw_xor | i64_atomic_rmw_xor
  | i32_atomic_rmw8_xor_u | i32_atomic_rmw16_xor_u | i64_atomic_rmw8_xor_u | i64_atomic_rmw16_xor_u
  | i64_atomic_rmw32_xor_u | i32_atomic_rmw_xchg | i64_atomic_rmw_xchg | i32_atomic_rmw8_xchg_u
  | i32_atomic_rmw16_xchg_u | i64_atomic_rmw8_xchg_u | i64_atomic_rmw16_xchg_u | i64_atomic_rmw32_xchg_u
  | i32_atomic_rmw_cmpxchg | i64_atomic_rmw_cmpxchg | i32_atomic_rmw8_cmpxchg_u | i32_atomic_rmw16_cmpxchg_u
  | i64_atomic_rmw8_cmpxchg_u | i64_atomic_rmw16_cmpxchg_u | i64_atomic_rmw32_cmpxchg_u.

Inductive opcode :=
  | unreachable_ | nop_ | end_ | block_ | loop_ | exit_ | error_
  | return_ (data pc stacksz : Z)
  | gas_charge_ (cost : Z)
  | if_ (pc : Z) | else_ (pc : Z)
  | br_ (data pc : Z) | br_if_ (data pc stacksz : Z)
  | br_table_ (size : Z) (table : list br_table_elem)
  | br_table_data_ (index : Z)
  | call_ (index : Z) | call_indirect_ (index : Z)
  | tail_call_ (index : Z) | tail_call_indirect_ (index : Z)
  | drop_ | select_
  | get_local_ (index : Z) | set_local_ (index : Z) | tee_local_ (index : Z)
  | get_global_ (index : Z) | set_global_ (index : Z)
  | load_ (op : load_op) (m : memarg) | store_ (op : store_op) (m : memarg)
  | current_memory_ | grow_memory_
  | i32_const_ (ui : Z) | i64_const_ (ui : Z) | f32_const_ (ui : Z) | f64_const_ (ui : Z)
  | eqz_ (w : width) | relop_ (w : width) (op : int_relop)
  | unop_ (w : width) (op : int_unop) | binop_ (w : width) (op : int_binop)
  | frelop_ (w : width) (op : float_relop)
  | funop_ (w : width) (op : float_unop) | fbinop_ (w : width) (op : float_binop)
  | conv_ (op : conv_op) | fconv_ (op : fconv_op)
  | ref_null_ (type : Z) | ref_is_null_ | ref_func_ (index : Z)
  | table_get_ (index : Z) | table_set_ (index : Z)
  | memory_init_ (index : Z) | data_drop_ (index : Z) | memory_copy_ | memory_fill_
  | table_init_ (index : Z) | elem_drop_ (index : Z) | table_copy_ (index : Z)
  | table_grow_ (index : Z) | table_size_ (index : Z) | table_fill_ (index : Z)
  | try_ | catch_ (data pc : Z) | catch_all_ (data pc : Z) | delegate_ (data : Z)
  | rethrow_ (data : Z) | throw_ (data : Z) | throw_ref_ | try_table_ (data pc : Z)
  | vec_load_ (op : vec_load) (m : memarg) | v128_store_ (m : memarg)
  | vec_load_lane_ (op : vec_lane_load) (m : memarg) (laneidx : Z)
  | vec_store_lane_ (op : vec_lane_store) (m : memarg) (laneidx : Z)
  | v128_const_ (data : Z) | i8x16_shuffle_ (lanes : list Z)
  | vec_extract_lane_ (op : vec_extract) (laneidx : Z) | vec_replace_lane_ (op : vec_replace) (laneidx : Z)
  | vec_ (op : vec_numeric) | atomic_op_ (sub : atomic_sub) (m : memarg).

End Opcode.
Import Opcode.

(** An [opcode*]: null, the context's [_halt], or an instruction of the code
    segment (an offset from [_mod->code[0].code]). *)
Inductive code_ptr := CodeNull | CodeHalt | CodeAt (off : Z).

(** ** Module data *)

Record activation_frame := { af_pc : code_ptr; af_last_op_index : Z; af_frame_size : Z }.

Record resizable_limits := { lim_flags : bool; lim_initial : Z; lim_maximum : Z }.

Record func_type := {
  form : Z; param_types : list Z; return_types : list Z;
  sig_hash : Z; return_count : Z; return_type : Z }.

(** [union expr_value]: the 16 bytes as an unsigned 128-bit integer; the
    narrower members are its low bits. *)
Definition expr_value := Z.
Definition ev_i32 (v : expr_value) : Z := wrap 32 v.
Definition ev_i64 (v : expr_value) : Z := wrap 64 v.

Record init_expr := { ie_value : expr_value; ie_opcode : Z; ie_raw_expr : list Z }.

Record global_type := { content_type : Z; mutability : bool }.
Record global_variable := { gv_type : global_type; gv_init : init_expr }.
Record table_type := { element_type : Z; tt_limits : resizable_limits }.
Record table_entry := { te_type : Z; te_index : Z; te_code_ptr : Z }.
Record memory_type := { mt_limits : resizable_limits; is_memory64 : bool }.
Record tag_type := { tag_attribute : Z; tag_type_index : Z }.

Inductive external_kind := Function | Table | Memory | Global | Tag.
#[global] Instance external_kind_eq_dec : EqDecision external_kind.
Proof. solve_decision. Defined.

(** [import_type] is a union; [im_kind] says which of the members is in use. *)
Record import_entry := {
  im_module : list Z; im_field : list Z; im_kind : external_kind;
  im_func_t : Z; im_table_t : table_type; im_mem_t : memory_type; im_global_t : global_type }.
Record export_entry := { ex_field : list Z; ex_kind : external_kind; ex_index : Z }.

Inductive elem_mode := active | passive | declarative.
#[global] Instance elem_mode_eq_dec : EqDecision elem_mode.
Proof. solve_decision. Defined.

Record elem_segment := {
  es_index : Z; es_offset : init_expr; es_mode : elem_mode; es_type : Z; es_elems : list table_entry }.
Record local_entry := { le_count : Z; le_type : Z }.
Record function_body := {
  fb_wasm_body_bytes : Z; fb_locals : list local_entry; fb_code : Z;
  fb_stack_size : Z; fb_prologue_gas_extra : Z }.
Record data_segment := { ds_index : Z; ds_offset : init_expr; ds_passive : bool; ds_data : list Z }.

(** [module]; [bytecode] is the code segment all [function_body::code] point into. *)
Record module := {
  m_start : Z; m_types : list func_type; m_imports : list import_entry;
  m_functions : list Z; m_tables : list table_type; m_memories : list memory_type;
  m_globals : list global_variable; m_exports : list export_entry;
  m_elements : list elem_segment; m_code : list function_body; m_data : list data_segment;
  m_tags : list tag_type; m_import_functions : list Z; m_num_imported_tables : Z;
  m_num_imported_memories : Z; m_num_imported_globals : Z; m_stack_limit_is_bytes : bool;
  m_error : option string; bytecode : list opcode }.

(** ** Function types *)

(** [finalize_returns] *)
Definition finalize_returns (ft : func_type) : func_type :=
  {| form := form ft; param_types := param_types ft; return_types := return_types ft;
     sig_hash := sig_hash ft;
     return_count := wrap 8 (vec_size (return_types ft));
     return_type := match return_types ft with [] => 0 | t :: _ => t end |}.

(** FNV-1a: [h ^= byte; h *= 0x100000001b3] on 64 bits. *)
Definition fnv_mix (h byte : Z) : Z := wrap 64 (Z.lxor h byte * 0x100000001b3).

(** [compute_sig_hash] *)
Definition compute_sig_hash (ft : func_type) : Z :=
  let h := 0xcbf29ce484222325 in
  let h := fnv_mix h (form ft) in
  let h := fnv_mix h (wrap 8 (vec_size (param_types ft))) in
  let h := fnv_mix h (wrap 8 (Z.shiftr (vec_size (param_types ft)) 8)) in
  let h := fold_left fnv_mix (param_types ft) h in
  let h := fnv_mix h (wrap 8 (vec_size (return_types ft))) in
  fold_left fnv_mix (return_types ft) h.

(** [operator==(func_type, func_type)] *)
Definition func_type_eqb (l r : func_type) : bool :=
  if negb (sig_hash l =? sig_hash r) then false else
  (form l =? form r) && (vec_size (param_types l) =? vec_size (param_types r)) &&
  bool_decide (param_types l = param_types r) &&
  (vec_size (return_types l) =? vec_size (return_types r)) &&
  bool_decide (return_types l = return_types r).

(** ** Module queries *)
Section Queries.
Context {S : Type} (m : module).

Definition get_imported_functions_size : Z :=
  Z.of_nat (length (filter (fun i => im_kind i = Function) (m_imports m))).
Definition get_functions_size : Z := vec_size (m_functions m).
Definition get_functions_total : Z := get_imported_functions_size + get_functions_size.

Definition get_function_pc (fidx : Z) : M S code_ptr :=
  psizam_assert (get_imported_functions_size <=? fidx) wasm_interpreter_exception
    "trying to get the PC of an imported function" ;;;
  let* fb := vec_at (m_code m) (fidx - get_imported_functions_size) in
  ret (CodeAt (fb_code fb)).

(** The loop over [imports] that finds the [index]-th function import. *)
Fixpoint nth_function_import (l : list import_entry) (index : Z) : option import_entry :=
  match l with
  | [] => None
  | i :: l' =>
      if bool_decide (im_kind i = Function)
      then if index =? 0 then Some i else nth_function_import l' (index - 1)
      else nth_function_import l' index
  end.

Definition get_function_type (index : Z) : M S func_type :=
  if index <? get_imported_functions_size then
    match nth_function_import (m_imports m) index with
    | Some i => vec_index (m_types m) (im_func_t i)
    | None => throw wasm_parse_exception "imported function index out of range"
    end
  else
    let local_idx := index - get_imported_functions_size in
    psizam_assert (local_idx <? vec_size (m_functions m)) wasm_parse_exception
      "function index out of range" ;;;
    let* t := vec_index (m_functions m) local_idx in
    vec_at (m_types m) t.

Definition get_function_stack_size (index : Z) : M S Z :=
  if negb (m_stack_limit_is_bytes m) then ret 1
  else if index <? get_imported_functions_size then ret 0
  else let* fb := vec_at (m_code m) (index - get_imported_functions_size) in
       ret (fb_stack_size fb).

(** [get_exported_function]: the index, or [UINT32_MAX]. *)
Definition get_exported_function (str : list Z) : Z :=
  match List.find (fun e => bool_decide (ex_kind e = Function) && bool_decide (ex_field e = str)) (m_exports m) with
  | Some e => ex_index e
  | None => UINT32_MAX
  end.

End Queries.

(** ** Properties *)

(** The precomputed hash only short-circuits a comparison: on types whose hash
    was computed, [operator==] is equality of the signatures. *)
Definition hashed (ft : func_type) : Prop := sig_hash ft = compute_sig_hash ft.

Lemma func_type_eqb_spec l r :
  hashed l -> hashed r ->
  func_type_eqb l r = true <->
  (form l = form r /\ param_types l = param_types r /\ return_types l = return_types r).
Proof.
  unfold hashed, func_type_eqb. intros Hl Hr. split.
  - destruct (negb _); [discriminate|].
    rewrite !andb_true_iff, !bool_decide_eq_true, !Z.eqb_eq. tauto.
  - intros (E1 & E2 & E3).
    assert (E : sig_hash l = sig_hash r) by (rewrite Hl, Hr; unfold compute_sig_hash; now rewrite E1, E2, E3).
    rewrite E, E1, E2, E3, !Z.eqb_refl. cbn. now rewrite !bool_decide_eq_true_2.
Qed.
