(* ===== verification/Stack.v ===== *)
(** * Operand and call stacks

    Models psizam/detail/wasm_stack.hpp ([stack<ElemT>] over a growable
    vector), psizam/detail/stack_elem.hpp ([operand_stack_elem]) and the
    accessors it inherits from psizam/detail/variant.hpp.  The vector keeps the
    elements above [_index], so the abstract stack is a view of it; the lemmas
    show that each operation refines the corresponding list operation. *)
From Stdlib Require Import ZArith Lia Bool String.
From stdpp Require Import base list numbers decidable option.
From S2P Require Import Prelude Types.

(** ** [operand_stack_elem]: a tagged union of the five constant types *)
Inductive elem :=
  | I32 (ui : Z) | I64 (ui : Z) | F32 (ui : Z) | F64 (ui : Z) | V128 (v : Z).

#[global] Instance elem_eq_dec : EqDecision elem.
Proof. solve_decision. Defined.

(** Reading a member other than the active one is undefined.  Signed members
    share the bits of the unsigned ones. *)
Definition to_ui32 {S} (e : elem) : M S Z := match e with I32 v => ret v | _ => undefined end.
Definition to_i32 {S} (e : elem) : M S Z := match e with I32 v => ret (signed 32 v) | _ => undefined end.
Definition to_ui64 {S} (e : elem) : M S Z := match e with I64 v => ret v | _ => undefined end.
Definition to_i64 {S} (e : elem) : M S Z := match e with I64 v => ret (signed 64 v) | _ => undefined end.
Definition to_fui32 {S} (e : elem) : M S Z := match e with F32 v => ret v | _ => undefined end.
Definition to_fui64 {S} (e : elem) : M S Z := match e with F64 v => ret v | _ => undefined end.
Definition to_v128 {S} (e : elem) : M S Z := match e with V128 v => ret v | _ => undefined end.

(** Well-formed contents: each member within its width. *)
Definition elem_ok (e : elem) : Prop :=
  match e with
  | I32 v | F32 v => in_u 32 v
  | I64 v | F64 v => in_u 64 v
  | V128 v => in_u 128 v
  end.

(** ** [stack<ElemT>] *)
Definition initial_stack_size : nat := 8.

Section Stack.
Context {E : Type} (dflt : E).

Record stack := { st_store : list E; st_index : nat }.

Definition stack_make (n : nat) : stack := {| st_store := repeat dflt n; st_index := 0 |}.

Definition push (e : E) : M stack unit := fun s =>
  let store := if (length (st_store s) <=? st_index s)%nat
               then st_store s ++ repeat dflt (length (st_store s))
               else st_store s in
  if (st_index s <? length store)%nat
  then Ok tt {| st_store := <[st_index s := e]> store; st_index := S (st_index s) |}
  else UB.

Definition pop : M stack E := fun s =>
  if (0 <? st_index s)%nat then
    match st_store s !! pred (st_index s) with
    | Some e => Ok e {| st_store := st_store s; st_index := pred (st_index s) |}
    | None => UB
    end
  else Throw (Exn wasm_interpreter_exception "operand stack underflow") s.

(** [get(index)]: the assertion admits [index == _index]. *)
Definition get_at (index : Z) : M stack E := fun s =>
  if index <=? Z.of_nat (st_index s)
  then match vec_lookup (st_store s) index with Some e => Ok e s | None => UB end
  else Throw (Exn wasm_interpreter_exception "invalid stack index") s.

Definition set_at (index : Z) (e : E) : M stack unit := fun s =>
  if index <=? Z.of_nat (st_index s)
  then match vec_lookup (st_store s) index with
       | Some _ => Ok tt {| st_store := vec_update (st_store s) index e; st_index := st_index s |}
       | None => UB
       end
  else Throw (Exn wasm_interpreter_exception "invalid stack index") s.

Definition eat (index : Z) : M stack unit := fun s =>
  if index <? 0 then UB else
  if index <=? vec_size (st_store s)
  then Ok tt {| st_store := st_store s; st_index := Z.to_nat index |}
  else Throw (Exn wasm_interpreter_exception "operand stack eat: index out of bounds") s.

(** [_store[dst] = _store[src]] *)
Definition copy_slot (dst src : Z) (store : list E) : option (list E) :=
  match vec_lookup store src, vec_lookup store dst with
  | Some e, Some _ => Some (vec_update store dst e)
  | _, _ => None
  end.

Definition compact (index : Z) : M stack unit := fun s =>
  match copy_slot index (Z.of_nat (st_index s) - 1) (st_store s) with
  | Some store => Ok tt {| st_store := store; st_index := S (Z.to_nat index) |}
  | None => UB
  end.

(** The ascending copy loop of [compact_n]. *)
Fixpoint copy_slots (n : nat) (dst src : Z) (store : list E) : option (list E) :=
  match n with
  | O => Some store
  | S n' => match copy_slot dst src store with
            | Some store' => copy_slots n' (dst + 1) (src + 1) store'
            | None => None
            end
  end.

Definition compact_n (index n : Z) : M stack unit := fun s =>
  if index <? 0 then UB else
  match copy_slots (Z.to_nat n) index (Z.of_nat (st_index s) - n) (st_store s) with
  | Some store => Ok tt {| st_store := store; st_index := Z.to_nat (index + n) |}
  | None => UB
  end.

(** [peek(i)] is a reference to [_store[_index - 1 - i]]. *)
Definition peek (i : nat) : M stack E := fun s =>
  match vec_lookup (st_store s) (Z.of_nat (st_index s) - 1 - Z.of_nat i) with
  | Some e => Ok e s | None => UB
  end.
Definition poke (i : nat) (e : E) : M stack unit := fun s =>
  let k := Z.of_nat (st_index s) - 1 - Z.of_nat i in
  match vec_lookup (st_store s) k with
  | Some _ => Ok tt {| st_store := vec_update (st_store s) k e; st_index := st_index s |}
  | None => UB
  end.

Definition size (s : stack) : Z := Z.of_nat (st_index s).

(** [reset_capacity]: the vector only ever grows by doubling, so its capacity
    is its size. *)
Definition reset_capacity (s : stack) : stack :=
  if (initial_stack_size <? length (st_store s))%nat
  then {| st_store := take initial_stack_size (st_store s); st_index := st_index s |} else s.

(** ** Refinement of the list operations *)
Definition view (s : stack) : list E := take (st_index s) (st_store s).
Definition stack_wf (s : stack) : Prop := (st_index s <= length (st_store s) /\ 0 < length (st_store s))%nat.

Lemma view_length s : stack_wf s -> length (view s) = st_index s.
Proof. intros [H _]. unfold view. rewrite length_take. lia. Qed.

Lemma view_size s : stack_wf s -> size s = vec_size (view s).
Proof. intros H. unfold size, vec_size. now rewrite view_length. Qed.

Lemma view_lookup s i : (i < st_index s)%nat -> view s !! i = st_store s !! i.
Proof. intros H. unfold view. now rewrite lookup_take_lt. Qed.

Lemma stack_make_wf n : (0 < n)%nat -> stack_wf (stack_make n) /\ view (stack_make n) = [].
Proof. intros H. unfold stack_wf, view; cbn. rewrite repeat_length. repeat split; lia. Qed.

Lemma push_view e s : stack_wf s ->
  exists s', push e s = Ok tt s' /\ stack_wf s' /\ view s' = view s ++ [e].
Proof.
  intros [H1 H2]. unfold push.
  set (store := if (_ <=? _)%nat then _ else _).
  assert (Hs : (st_index s < length store)%nat).
  { unfold store. destruct (Nat.leb_spec (length (st_store s)) (st_index s)); [|lia].
    rewrite length_app, repeat_length. lia. }
  apply Nat.ltb_lt in Hs as Hb. rewrite Hb. eexists; split; [reflexivity|]. unfold stack_wf, view; cbn.
  rewrite length_insert. split; [lia|].
  rewrite (take_S_r _ _ e) by (now apply list_lookup_insert_eq).
  rewrite take_insert_ge by lia. f_equal.
  unfold store. destruct (_ <=? _)%nat; [|reflexivity]. now rewrite take_app_le.
Qed.

Lemma pop_view s l e : stack_wf s -> view s = l ++ [e] ->
  exists s', pop s = Ok e s' /\ stack_wf s' /\ view s' = l.
Proof.
  intros Hw Hv. pose proof (view_length s Hw) as Hl. rewrite Hv, length_app in Hl. cbn in Hl.
  unfold pop. destruct (Nat.ltb_spec 0 (st_index s)); [|lia].
  assert (El : st_store s !! pred (st_index s) = Some e).
  { rewrite <- view_lookup, Hv by lia. rewrite lookup_app_r by lia.
    now replace (pred (st_index s) - length l)%nat with 0%nat by lia. }
  rewrite El. eexists; split; [reflexivity|]. destruct Hw. unfold stack_wf, view in *; cbn. split; [lia|].
  replace (pred (st_index s)) with (length l) by lia.
  transitivity (take (length l) (take (st_index s) (st_store s))); [rewrite take_take; f_equal; lia|].
  rewrite Hv. now rewrite take_app_length.
Qed.

Lemma pop_empty s : view s = [] -> stack_wf s ->
  pop s = Throw (Exn wasm_interpreter_exception "operand stack underflow") s.
Proof.
  intros Hv Hw. pose proof (view_length s Hw) as Hl. rewrite Hv in Hl. cbn in Hl.
  unfold pop. now rewrite <- Hl.
Qed.

Lemma get_view s i e : stack_wf s -> vec_lookup (view s) i = Some e -> get_at i s = Ok e s.
Proof.
  intros Hw Hl. apply vec_lookup_Some in Hl as [H0 Hl].
  assert (Hi : (Z.to_nat i < st_index s)%nat).
  { apply lookup_lt_Some in Hl. rewrite view_length in Hl by assumption. lia. }
  rewrite view_lookup in Hl by lia. unfold get_at.
  replace (i <=? Z.of_nat (st_index s)) with true by (symmetry; apply Z.leb_le; lia).
  now rewrite (proj2 (vec_lookup_Some _ _ _) (conj H0 Hl)).
Qed.

Lemma set_view s i e : stack_wf s -> 0 <= i < vec_size (view s) ->
  exists s', set_at i e s = Ok tt s' /\ stack_wf s' /\ view s' = vec_update (view s) i e.
Proof.
  intros Hw Hi. unfold vec_size in Hi. rewrite view_length in Hi by assumption.
  unfold set_at. replace (i <=? Z.of_nat (st_index s)) with true by (symmetry; apply Z.leb_le; lia).
  destruct Hw as [H1 H2]. destruct (vec_lookup_range (st_store s) i ltac:(unfold vec_size; lia)) as [a ->].
  eexists; split; [reflexivity|]. unfold stack_wf, view, vec_update; cbn.
  destruct (Z.ltb_spec i 0); [lia|]. rewrite length_insert. split; [lia|].
  rewrite take_insert_lt by lia. reflexivity.
Qed.

Lemma eat_view s i : stack_wf s -> 0 <= i <= vec_size (view s) ->
  exists s', eat i s = Ok tt s' /\ stack_wf s' /\ view s' = take (Z.to_nat i) (view s).
Proof.
  intros Hw Hi. unfold vec_size in Hi. rewrite view_length in Hi by assumption.
  destruct Hw as [H1 H2]. unfold eat. destruct (Z.ltb_spec i 0); [lia|].
  replace (i <=? vec_size (st_store s)) with true by (symmetry; apply Z.leb_le; unfold vec_size; lia).
  eexists; split; [reflexivity|]. unfold stack_wf, view; cbn. split; [lia|].
  rewrite take_take. f_equal; lia.
Qed.

Lemma peek_view s l e r : stack_wf s -> view s = l ++ e :: r -> peek (length r) s = Ok e s.
Proof.
  intros Hw Hv. pose proof (view_length s Hw) as Hl. rewrite Hv, length_app in Hl. cbn in Hl.
  unfold peek. rewrite (proj2 (vec_lookup_Some _ _ e)); [reflexivity|]. split; [lia|].
  rewrite <- view_lookup, Hv by lia. rewrite lookup_app_r by lia.
  now replace (_ - length l)%nat with 0%nat by lia.
Qed.

Lemma poke_view s l e e' r : stack_wf s -> view s = l ++ e :: r ->
  exists s', poke (length r) e' s = Ok tt s' /\ stack_wf s' /\ view s' = l ++ e' :: r.
Proof.
  intros Hw Hv. pose proof (peek_view s l e r Hw Hv) as Hp.
  pose proof (view_length s Hw) as Hl. rewrite Hv, length_app in Hl. cbn in Hl.
  unfold peek in Hp. unfold poke. destruct (vec_lookup _ _) eqn:El; [|discriminate].
  eexists; split; [reflexivity|]. destruct Hw. unfold stack_wf, view, vec_update in *; cbn.
  destruct (Z.ltb_spec (Z.of_nat (st_index s) - 1 - Z.of_nat (length r)) 0); [lia|].
  rewrite length_insert. split; [lia|]. rewrite take_insert_lt, Hv by lia.
  rewrite insert_app_r_alt by lia. f_equal. now replace (_ - length l)%nat with 0%nat by lia.
Qed.

(** Compaction: the ascending copy moves the top [n] slots down, overlap included. *)
Lemma copy_slot_spec dst src (store : list E) : 0 <= dst -> 0 <= src < vec_size store -> dst < vec_size store ->
  exists store', copy_slot dst src store = Some store' /\ length store' = length store /\
    forall k, 0 <= k -> vec_lookup store' k = vec_lookup store (if k =? dst then src else k).
Proof.
  intros Hd Hs Hd'. destruct (vec_lookup_range store src ltac:(lia)) as [e Ee].
  destruct (vec_lookup_range store dst ltac:(lia)) as [e' Ee'].
  unfold copy_slot. rewrite Ee, Ee'. eexists. split; [reflexivity|]. unfold vec_update.
  destruct (Z.ltb_spec dst 0); [lia|]. split; [apply length_insert|]. intros k Hk.
  destruct (Z.eqb_spec k dst) as [->|Hne].
  - rewrite Ee. apply vec_lookup_Some. split; [lia|]. apply list_lookup_insert_eq. unfold vec_size in *. lia.
  - unfold vec_lookup. destruct (Z.ltb_spec k 0); [lia|]. apply list_lookup_insert_ne. lia.
Qed.
Lemma copy_slots_spec n dst src (store : list E) :
  0 <= dst <= src -> src + Z.of_nat n <= vec_size store ->
  exists store', copy_slots n dst src store = Some store' /\ length store' = length store /\
    forall k, 0 <= k -> vec_lookup store' k =
      vec_lookup store (if (dst <=? k) && (k <? dst + Z.of_nat n) then k - dst + src else k).
Proof.
  revert dst src store. induction n as [|n IH]; intros dst src store Hd Hs; cbn [copy_slots].
  - exists store. split; [reflexivity|]. split; [reflexivity|]. intros k Hk.
    now replace (_ && _) with false by (symmetry; blia).
  - destruct (copy_slot_spec dst src store) as (s1 & -> & L1 & V1); try lia.
    destruct (IH (dst + 1) (src + 1) s1) as (s2 & -> & L2 & V2); [lia|unfold vec_size in *; lia|].
    exists s2. split; [reflexivity|]. split; [lia|]. intros k Hk. rewrite V2 by lia.
    destruct ((dst + 1 <=? k) && (k <? dst + 1 + Z.of_nat n)) eqn:E1.
    + replace (_ && _) with true by (symmetry; blia). rewrite V1 by blia.
      replace (_ =? dst) with false by (symmetry; blia). f_equal. lia.
    + rewrite V1 by lia. destruct (Z.eqb_spec k dst) as [->|Hne].
      * replace (_ && _) with true by (symmetry; blia). f_equal. lia.
      * now replace (_ && _) with false by (symmetry; blia).
Qed.

(** [compact_n] as a list operation; [compact] is the case of one value. *)
Lemma compact_n_view s l mid res : stack_wf s -> view s = l ++ mid ++ res ->
  exists s', compact_n (vec_size l) (vec_size res) s = Ok tt s' /\ stack_wf s' /\ view s' = l ++ res.
Proof.
  intros Hw Hv. pose proof (view_length s Hw) as Hl. rewrite Hv, !length_app in Hl. destruct Hw as [Hw1 Hw2].
  unfold compact_n, vec_size. destruct (Z.ltb_spec (Z.of_nat (length l)) 0); [lia|].
  destruct (copy_slots_spec (Z.to_nat (Z.of_nat (length res))) (Z.of_nat (length l))
              (Z.of_nat (st_index s) - Z.of_nat (length res)) (st_store s)) as (store & -> & L & V);
    [lia|unfold vec_size; lia|].
  eexists. split; [reflexivity|]. split; [split; cbn; lia|]. unfold view. cbn.
  apply list_eq. intros i. destruct (Nat.lt_ge_cases i (length l + length res)) as [Hi|Hi].
  2:{ rewrite lookup_take_ge by lia. symmetry. apply lookup_ge_None. rewrite length_app. lia. }
  rewrite lookup_take_lt by lia. specialize (V (Z.of_nat i) ltac:(lia)).
  unfold vec_lookup in V. destruct (Z.ltb_spec (Z.of_nat i) 0); [lia|]. rewrite Nat2Z.id in V. rewrite V. clear V.
  assert (Hst : forall j, (j < st_index s)%nat -> st_store s !! j = (l ++ mid ++ res) !! j).
  { intros j Hj. rewrite <- Hv. unfold view. now rewrite lookup_take_lt. }
  destruct (Nat.lt_ge_cases i (length l)) as [Hil|Hil].
  - replace (_ && _) with false by (symmetry; blia). destruct (Z.ltb_spec (Z.of_nat i) 0); [lia|].
    rewrite Nat2Z.id, Hst, !lookup_app_l by lia. reflexivity.
  - replace (_ && _) with true by (symmetry; blia).
    match goal with |- context [if ?a <? 0 then _ else _] => destruct (Z.ltb_spec a 0); [lia|] end.
    rewrite Hst by lia. rewrite !lookup_app_r by lia. f_equal. lia.
Qed.
Lemma compact_view s l mid e : stack_wf s -> view s = l ++ mid ++ [e] ->
  exists s', compact (vec_size l) s = Ok tt s' /\ stack_wf s' /\ view s' = l ++ [e].
Proof.
  intros Hw Hv. destruct (compact_n_view s l mid [e] Hw Hv) as (s' & Ec & W & V).
  revert Ec. unfold compact_n, compact, vec_size. destruct (_ <? _); [discriminate|]. cbn [length].
  change (Z.of_nat 1) with 1. change (Z.to_nat 1) with 1%nat. cbn [copy_slots].
  destruct (copy_slot _ _ _) as [store|]; [|discriminate]. intros [= <-]. eexists. split; [reflexivity|].
  split; [|rewrite <- V]; [destruct W as [W1 W2]; split; cbn in *; lia|]. unfold view. cbn. f_equal. lia.
Qed.

Lemma peek_wf_ub s : stack_wf s -> view s = [] -> peek 0 s = UB.
Proof.
  intros Hw Hv. pose proof (view_length s Hw) as Hl. rewrite Hv in Hl. cbn in Hl.
  unfold peek. now rewrite <- Hl.
Qed.

End Stack.
Arguments stack : clear implicits.
