(* ===== verification/Memory.v ===== *)
(** * Linear memory

    Models [wasm_allocator] of psizam/allocator.hpp: a reserved address range
    with the protection of each of its bytes, which the constructors set up and
    [alloc], [free] and [reset] change by [mprotect] (or a caller-provided buffer
    without guards), together with the unaligned little-endian accesses of
    interpret_visitor.hpp ([read_unaligned], [write_unaligned]) and
    [validate_pointer] of detail/execution_interface.hpp.  That the accessible
    bytes are those of the current pages is part of the invariant [alloc_wf].

    Bytes are a sparse map (an absent address holds zero), offsets are relative
    to [raw].  [mmap] and [mprotect] are taken to succeed. *)
From Stdlib Require Import ZArith Lia Bool String.
From stdpp Require Import base list numbers decidable option gmap.
From S2P Require Import Prelude.

(** ** Constants ([enum constants] of constants.hpp) *)
Definition page_size : Z := 64 * 1024.
Definition max_memory : Z := Z.shiftl 4 31.
Definition max_useable_memory : Z := Z.shiftl 1 32.
Definition max_pages : Z := max_useable_memory / page_size.

(** ** Bytes *)
Abbreviation bytes := (gmap Z Z).

Definition mem_get (m : bytes) (a : Z) : Z := default 0 (m !! a).

(** [memset(raw + lo, 0, hi - lo)] *)
Definition mem_zero (lo hi : Z) (m : bytes) : bytes := filter (fun kv => ~ (lo <= kv.1 < hi)) m.

(** [memcpy] of [n] bytes out of and into a little-endian integer. *)
Fixpoint read_le (m : bytes) (a : Z) (n : nat) : Z :=
  match n with
  | O => 0
  | S n' => mem_get m a + 2 ^ 8 * read_le m (a + 1) n'
  end.
Fixpoint write_le (m : bytes) (a : Z) (n : nat) (v : Z) : bytes :=
  match n with
  | O => m
  | S n' => <[a := v mod 2 ^ 8]> (write_le m (a + 1) n' (v / 2 ^ 8))
  end.
(** [memcpy] of a byte string. *)
Fixpoint write_bytes (m : bytes) (a : Z) (l : list Z) : bytes :=
  match l with
  | [] => m
  | b :: l' => <[a := b]> (write_bytes m (a + 1) l')
  end.

(** ** [wasm_allocator] *)
Inductive protection := PROT_NONE | PROT_READ | PROT_RW.
(** The ranges whose protection has been set, the latest first; the reservation
    begins as [PROT_NONE]. *)
Record mprotected := { mp_addr : Z; mp_len : Z; mp_prot : protection }.
Fixpoint prot_at (calls : list mprotected) (k : Z) : protection :=
  match calls with
  | [] => PROT_NONE
  | c :: calls' => if (mp_addr c <=? k) && (k <? mp_addr c + mp_len c) then mp_prot c else prot_at calls' k
  end.
Record wasm_allocator := {
  raw : bytes;
  page : Z;                (* -1: no memory *)
  external_ : bool;
  pooled_ : bool;
  max_pages_limit_ : Z;
  stored_mem_size : Z;     (* the u64 at mem_size_offset() *)
  syspagesize : Z;
  prot : list mprotected   (* at offsets from [raw] *) }.

Definition upd_raw (f : bytes -> bytes) (a : wasm_allocator) : wasm_allocator :=
  {| raw := f (raw a); page := page a; external_ := external_ a; pooled_ := pooled_ a;
     max_pages_limit_ := max_pages_limit_ a; stored_mem_size := stored_mem_size a;
     syspagesize := syspagesize a; prot := prot a |}.
Definition upd_page (p : Z) (a : wasm_allocator) : wasm_allocator :=
  {| raw := raw a; page := p; external_ := external_ a; pooled_ := pooled_ a;
     max_pages_limit_ := max_pages_limit_ a; stored_mem_size := stored_mem_size a;
     syspagesize := syspagesize a; prot := prot a |}.
Definition upd_mem_size (sz : Z) (a : wasm_allocator) : wasm_allocator :=
  {| raw := raw a; page := page a; external_ := external_ a; pooled_ := pooled_ a;
     max_pages_limit_ := max_pages_limit_ a; stored_mem_size := sz;
     syspagesize := syspagesize a; prot := prot a |}.
Definition upd_prot (f : list mprotected -> list mprotected) (a : wasm_allocator) : wasm_allocator :=
  {| raw := raw a; page := page a; external_ := external_ a; pooled_ := pooled_ a;
     max_pages_limit_ := max_pages_limit_ a; stored_mem_size := stored_mem_size a;
     syspagesize := syspagesize a; prot := f (prot a) |}.

(** [mprotect(raw + lo, len, p)]; [mprotect_own] is under [if (!external_)]. *)
Definition protect (lo len : Z) (p : protection) (old : list mprotected) : list mprotected :=
  {| mp_addr := lo; mp_len := len; mp_prot := p |} :: old.
Definition mprotect_own (lo len : Z) (p : protection) (a : wasm_allocator) : wasm_allocator :=
  upd_prot (fun old => if external_ a then old else protect lo len p old) a.
Definition table_size (ps : Z) : Z := ps.
Definition prefix_size (ps : Z) : Z := table_size ps + ps.

(** The constructors: self-managed, over a caller's buffer, from the pool. *)
Definition make_guarded (ps : Z) : wasm_allocator :=
  {| raw := ∅; page := -1; external_ := false; pooled_ := false; max_pages_limit_ := max_pages;
     stored_mem_size := 0; syspagesize := ps;
     prot := protect (- prefix_size ps) (table_size ps) PROT_RW [] |}.
Definition make_external (ps : Z) (base_null : bool) (max_bytes : Z) : M unit wasm_allocator :=
  psizam_assert (negb base_null) wasm_bad_alloc "null base pointer" ;;;
  psizam_assert (page_size <=? max_bytes) wasm_bad_alloc "max_bytes too small" ;;;
  psizam_assert (Z.land max_bytes (max_bytes - 1) =? 0) wasm_bad_alloc "max_bytes must be power of 2" ;;;
  ret {| raw := ∅; page := -1; external_ := true; pooled_ := false;
         max_pages_limit_ := max_bytes / page_size; stored_mem_size := 0; syspagesize := ps;
         prot := protect (- prefix_size ps) (prefix_size ps + max_bytes) PROT_RW [] |}.
(** A region of a [guarded_pool] that has not been used, as the pool's constructor
    prepared it (src/runtime.cpp). *)
Definition make_pooled (ps : Z) : wasm_allocator :=
  {| raw := ∅; page := -1; external_ := false; pooled_ := true; max_pages_limit_ := max_pages;
     stored_mem_size := 0; syspagesize := ps; prot := protect (- prefix_size ps) (table_size ps) PROT_RW [] |}.

Definition update_stored_mem_size (a : wasm_allocator) : wasm_allocator :=
  if 0 <=? page a then upd_mem_size (page a * page_size) a else a.

Definition alloc (size : Z) : M wasm_allocator unit :=
  if size =? 0 then ret tt else
  let* a := get in
  psizam_assert (0 <=? page a) wasm_bad_alloc "require memory to allocate" ;;;
  psizam_assert (size + page a <=? max_pages_limit_ a) wasm_bad_alloc "exceeded max number of pages" ;;;
  modify (mprotect_own (page_size * page a) (page_size * size) PROT_RW) ;;;
  modify (upd_raw (mem_zero (page_size * page a) (page_size * page a + page_size * size))) ;;;
  modify (upd_page (page a + size)) ;;;
  modify update_stored_mem_size.

Definition free_pages (size : Z) : M wasm_allocator unit :=
  if size =? 0 then ret tt else
  let* a := get in
  psizam_assert (0 <=? page a) wasm_bad_alloc "require memory to deallocate" ;;;
  psizam_assert (size <=? page a) wasm_bad_alloc "freed too many pages" ;;;
  modify (upd_page (page a - size)) ;;;
  modify (mprotect_own (page_size * (page a - size)) (page_size * size) PROT_NONE) ;;;
  modify update_stored_mem_size.

(** [reset(new_pages)] *)
Definition reset_pages (new_pages : Z) : M wasm_allocator unit :=
  let* a := get in
  (if 0 <=? page a
   then modify (upd_raw (mem_zero 0 (page_size * page a)))
   else modify (mprotect_own (- syspagesize a) (syspagesize a) PROT_READ) ;;; modify (upd_page 0)) ;;;
  let* p := gets page in
  (if p <? new_pages then alloc (new_pages - p)
   else if new_pages <? p then free_pages (p - new_pages)
   else ret tt) ;;;
  modify update_stored_mem_size.

(** [reset()]: no memory defined. *)
Definition reset_none : M wasm_allocator unit :=
  let* a := get in
  (if 0 <=? page a
   then modify (upd_raw (mem_zero 0 (page_size * page a))) ;;;
        modify (mprotect_own (- syspagesize a) (page_size * page a + syspagesize a) PROT_NONE)
   else ret tt) ;;;
  modify (upd_page (-1)) ;;;
  modify (upd_mem_size 0).

(** ** Accesses

    Where an access of [n] bytes at offset [addr] lands: on bytes it may read and
    write, on a protected byte of the reservation, which the signal handler turns
    into a trap, or outside of the reservation.  (Below [raw], only
    [validate_pointer] reads.) *)
Inductive landing := Accessible | Fault | Wild.

Definition page_writable (a : wasm_allocator) (k : Z) : bool := match prot_at (prot a) k with PROT_RW => true | _ => false end.
Definition page_readable (a : wasm_allocator) (k : Z) : bool := match prot_at (prot a) k with PROT_NONE => false | _ => true end.
Definition land_at (a : wasm_allocator) (addr n : Z) : landing :=
  if (0 <=? addr) && forallb (fun i => page_writable a (addr + Z.of_nat i)) (seq 0 (Z.to_nat n)) then Accessible
  else if external_ a then Wild
  else if (- syspagesize a <=? addr) && (addr + n <=? max_memory + syspagesize a) then Fault
  else Wild.

Definition oob_trap {A} : M wasm_allocator A := throw wasm_memory_exception "wasm memory out-of-bounds".

Definition access (addr n : Z) : M wasm_allocator unit :=
  let* a := get in
  match land_at a addr n with
  | Accessible => ret tt
  | Fault => oob_trap
  | Wild => undefined
  end.

Definition read_unaligned (addr : Z) (n : nat) : M wasm_allocator Z :=
  access addr (Z.of_nat n) ;;; gets (fun a => read_le (raw a) addr n).
Definition write_unaligned (addr : Z) (n : nat) (v : Z) : M wasm_allocator unit :=
  access addr (Z.of_nat n) ;;; modify (upd_raw (fun m => write_le m addr n v)).

(** [validate_pointer<T>(ptr, len)] reads the last byte of the range.  For an
    empty range at offset 0 that is the byte below [raw], in the prefix page. *)
Definition validate_pointer (sizeof_T ptr len : Z) : M wasm_allocator unit :=
  psizam_assert (len <=? UINT32_MAX / sizeof_T) wasm_interpreter_exception "length will overflow" ;;;
  let last := ptr + len * sizeof_T - 1 in
  if last <? 0 then
    let* a := get in
    if page_readable a last then ret tt else oob_trap
  else access last 1.

(** ** Invariant

    The stored size agrees with the page count, which respects the limit, and so
    does the protection: the bytes of the pages are accessible and no others
    above [raw], and the prefix page is readable when there is a memory.  All of a
    caller's buffer is accessible. *)
Definition accessible_end (a : wasm_allocator) : Z := (if external_ a then max_pages_limit_ a else page a) * page_size.
Record alloc_wf (a : wasm_allocator) : Prop := {
  awf_page : -1 <= page a <= max_pages_limit_ a;
  awf_limit : 0 <= max_pages_limit_ a <= max_pages;
  awf_size : stored_mem_size a = Z.max 0 (page a) * page_size;
  awf_sys : 4096 <= syspagesize a;
  awf_bytes : forall k, in_u 8 (mem_get (raw a) k);
  awf_prot : forall k, 0 <= k -> page_writable a k = (k <? accessible_end a);
  awf_prefix : page_readable a (-1) = external_ a || (0 <=? page a) }.

(** ** Byte-level lemmas *)

Lemma mem_get_insert m a b k : mem_get (<[a := b]> m) k = if decide (a = k) then b else mem_get m k.
Proof. unfold mem_get. destruct (decide (a = k)); subst; now simplify_map_eq. Qed.

Lemma mem_get_zero lo hi m k :
  mem_get (mem_zero lo hi m) k = if decide (lo <= k < hi) then 0 else mem_get m k.
Proof.
  unfold mem_get, mem_zero. destruct (decide _) as [Hk|Hk].
  - rewrite map_lookup_filter_None_2; [reflexivity|]. right. intros x _ Hn. now apply Hn.
  - destruct (m !! k) eqn:E.
    + now rewrite (map_lookup_filter_Some_2 _ _ _ _ E).
    + rewrite map_lookup_filter_None_2; [reflexivity|]. now left.
Qed.

Lemma mem_get_write_le m a n v k :
  mem_get (write_le m a n v) k =
  if decide (a <= k < a + Z.of_nat n) then (v / 2 ^ (8 * (k - a))) mod 2 ^ 8 else mem_get m k.
Proof.
  revert a v. induction n as [|n IH]; intros a v; cbn [write_le].
  - destruct (decide _); [lia|reflexivity].
  - rewrite mem_get_insert. destruct (decide (a = k)) as [<-|Hne].
    + destruct (decide _); [|lia]. rewrite Z.sub_diag. cbn. now rewrite Z.div_1_r.
    + rewrite IH. destruct (decide (a + 1 <= k < _)), (decide (a <= k < _)); try lia; try reflexivity.
      rewrite Z.div_div by lia. do 2 f_equal.
      rewrite <- Z.pow_add_r by lia. f_equal. lia.
Qed.

Lemma mem_get_write_bytes m a l k :
  mem_get (write_bytes m a l) k =
  if decide (a <= k < a + vec_size l) then default 0 (l !! Z.to_nat (k - a)) else mem_get m k.
Proof.
  unfold vec_size. revert a. induction l as [|b l IH]; intros a; cbn [write_bytes length].
  - destruct (decide _); [lia|reflexivity].
  - rewrite mem_get_insert. destruct (decide (a = k)) as [<-|Hne].
    + destruct (decide _); [|lia]. now rewrite Z.sub_diag.
    + rewrite IH. destruct (decide (a + 1 <= k < _)), (decide (a <= k < _)); try lia; try reflexivity.
      now replace (Z.to_nat (k - a)) with (S (Z.to_nat (k - (a + 1)))) by lia.
Qed.

Lemma read_le_ext m m' a n :
  (forall k, a <= k < a + Z.of_nat n -> mem_get m k = mem_get m' k) -> read_le m a n = read_le m' a n.
Proof.
  revert a. induction n as [|n IH]; intros a H; cbn [read_le]; [reflexivity|].
  rewrite (H a), (IH (a + 1)); [reflexivity| |lia]. intros. apply H. lia.
Qed.

Lemma read_le_range m a n : (forall k, in_u 8 (mem_get m k)) -> in_u (8 * Z.of_nat n) (read_le m a n).
Proof.
  intros Hm. revert a. induction n as [|n IH]; intros a; cbn [read_le]; [unfold in_u; lia|].
  specialize (Hm a). specialize (IH (a + 1)). unfold in_u in *.
  replace (8 * Z.of_nat (S n)) with (8 + 8 * Z.of_nat n) by lia. rewrite Z.pow_add_r by lia.
  change (2 ^ 8) with 256 in *. nia.
Qed.

Lemma read_write_le m a n v : read_le (write_le m a n v) a n = wrap (8 * Z.of_nat n) v.
Proof.
  revert a v m. induction n as [|n IH]; intros a v m; cbn [read_le write_le].
  - unfold wrap. cbn. symmetry. apply Z.mod_1_r.
  - rewrite mem_get_insert, decide_True by reflexivity.
    rewrite (read_le_ext _ (write_le m (a + 1) n (v / 2 ^ 8))), IH.
    + unfold wrap. replace (8 * Z.of_nat (S n)) with (8 + 8 * Z.of_nat n) by lia.
      rewrite Z.pow_add_r by lia. rewrite Z.rem_mul_r by (try apply Z.pow_pos_nonneg; lia). lia.
    + intros k Hk. rewrite mem_get_insert, decide_False by lia. reflexivity.
Qed.

Lemma write_le_bytes_ok m a n v :
  (forall k, in_u 8 (mem_get m k)) -> forall k, in_u 8 (mem_get (write_le m a n v) k).
Proof.
  intros H k. rewrite mem_get_write_le. destruct (decide _); [apply (wrap_range 8); lia|apply H].
Qed.

Lemma mem_zero_bytes_ok lo hi m :
  (forall k, in_u 8 (mem_get m k)) -> forall k, in_u 8 (mem_get (mem_zero lo hi m) k).
Proof. intros H k. rewrite mem_get_zero. destruct (decide _); [unfold in_u; lia|apply H]. Qed.

(** ** Protection *)
Lemma writable_own lo len p a k :
  page_writable (mprotect_own lo len p a) k =
    if negb (external_ a) && (lo <=? k) && (k <? lo + len) then match p with PROT_RW => true | _ => false end else page_writable a k.
Proof. unfold page_writable, mprotect_own, protect. cbn. destruct (external_ a); cbn; [reflexivity|]. now destruct ((lo <=? k) && _). Qed.
Lemma readable_own lo len p a k :
  page_readable (mprotect_own lo len p a) k =
    if negb (external_ a) && (lo <=? k) && (k <? lo + len) then match p with PROT_NONE => false | _ => true end else page_readable a k.
Proof. unfold page_readable, mprotect_own, protect. cbn. destruct (external_ a); cbn; [reflexivity|]. now destruct ((lo <=? k) && _). Qed.

Lemma writable_page p a k : page_writable (upd_page p a) k = page_writable a k. Proof. reflexivity. Qed.
Lemma writable_raw f a k : page_writable (upd_raw f a) k = page_writable a k. Proof. reflexivity. Qed.
Lemma writable_mem_size n a k : page_writable (upd_mem_size n a) k = page_writable a k. Proof. reflexivity. Qed.
Lemma readable_page p a k : page_readable (upd_page p a) k = page_readable a k. Proof. reflexivity. Qed.
Lemma readable_raw f a k : page_readable (upd_raw f a) k = page_readable a k. Proof. reflexivity. Qed.
Lemma readable_mem_size n a k : page_readable (upd_mem_size n a) k = page_readable a k. Proof. reflexivity. Qed.
Create Rewrite HintDb prot.
#[local] Hint Rewrite writable_own readable_own writable_page writable_raw writable_mem_size readable_page readable_raw readable_mem_size : prot.
(** The protection part of the invariant after an update, from that before it. *)
Ltac prot_step Hw Hr :=
  cbn -[page_writable page_readable]; intros; autorewrite with prot; rewrite ?Hw, ?Hr by assumption; unfold accessible_end, page_size in *; cbn in *;
  destruct (external_ _); cbn [negb andb orb]; [reflexivity|];
  repeat match goal with |- context [?x <? ?y] => destruct (Z.ltb_spec x y) | |- context [?x <=? ?y] => destruct (Z.leb_spec x y) end;
  cbn [andb orb negb]; lia || reflexivity.

(** The same of a concrete allocator. *)
Ltac prot_concrete :=
  match goal with |- forall k, 0 <= k -> page_writable ?a k = (k <? accessible_end ?a) =>
    let l := eval vm_compute in (prot a) in let e := eval vm_compute in (accessible_end a) in
    let Hl := fresh in let He := fresh in
    assert (Hl : prot a = l) by (vm_compute; reflexivity);
    assert (He : accessible_end a = e) by (vm_compute; reflexivity);
    intros; unfold page_writable; rewrite Hl, He; cbn [prot_at mp_addr mp_len mp_prot];
    repeat match goal with |- context [?x <? ?y] => destruct (Z.ltb_spec x y) | |- context [?x <=? ?y] => destruct (Z.leb_spec x y) end;
    cbn [andb]; lia || reflexivity
  end.

(** A run of accessible bytes ends at the end of the pages. *)
Lemma forallb_below (P : Z -> bool) e addr n : (forall k, 0 <= k -> P k = (k <? e)) -> 0 <= addr -> 1 <= n ->
  forallb (fun i => P (addr + Z.of_nat i)) (seq 0 (Z.to_nat n)) = (addr + n <=? e).
Proof.
  intros HP Ha Hn. apply eq_true_iff_eq. rewrite forallb_forall, Z.leb_le. split.
  - intros Hf. specialize (Hf (Z.to_nat (n - 1))). rewrite HP, Z.ltb_lt in Hf by lia. rewrite in_seq in Hf. lia.
  - intros He i Hi. rewrite in_seq in Hi. rewrite HP, Z.ltb_lt by lia. lia.
Qed.
(** Where an access lands, by the number of pages. *)
Lemma land_at_pages a addr n : alloc_wf a -> 1 <= n ->
  land_at a addr n =
    if (0 <=? addr) && (addr + n <=? accessible_end a) then Accessible
    else if external_ a then Wild
    else if (- syspagesize a <=? addr) && (addr + n <=? max_memory + syspagesize a) then Fault
    else Wild.
Proof.
  intros W Hn. unfold land_at. destruct (Z.leb_spec 0 addr); cbn [andb]; [|reflexivity].
  now rewrite (forallb_below (page_writable a) (accessible_end a)) by (auto; apply (awf_prot a W)).
Qed.

(** ** Allocator lemmas *)
Lemma alloc_spec a size :
  alloc_wf a -> 0 <= page a -> 0 <= size -> size + page a <= max_pages_limit_ a ->
  exists a', alloc size a = Ok tt a' /\ alloc_wf a' /\ page a' = page a + size /\
    external_ a' = external_ a /\ max_pages_limit_ a' = max_pages_limit_ a /\ syspagesize a' = syspagesize a /\
    forall k, mem_get (raw a') k =
      if decide (page_size * page a <= k < page_size * (page a + size)) then 0 else mem_get (raw a) k.
Proof.
  intros Hwf Hp Hs Hl. unfold alloc. destruct (Z.eqb_spec size 0) as [->|Hne].
  - exists a. repeat split; auto; try apply Hwf; try lia.
    intros k. destruct (decide _); [lia|reflexivity].
  - unfold bind, get, psizam_assert. destruct (Z.leb_spec 0 (page a)); [|lia].
    destruct (Z.leb_spec (size + page a) (max_pages_limit_ a)); [|lia].
    unfold ret, modify. destruct Hwf as [H1 H2 H3 H4 H5 H6 H7].
    set (a1 := upd_page (page a + size) _).
    exists (update_stored_mem_size a1). split; [reflexivity|].
    assert (E : update_stored_mem_size a1 = upd_mem_size ((page a + size) * page_size) a1).
    { unfold update_stored_mem_size. change (page a1) with (page a + size).
      destruct (Z.leb_spec 0 (page a + size)); [reflexivity|lia]. }
    rewrite E. split.
    { split; [..|subst a1; now prot_step H6 H7|subst a1; now prot_step H6 H7]; cbn; auto using mem_zero_bytes_ok; [lia|unfold page_size; lia]. }
    cbn. repeat split. intros k. rewrite mem_get_zero.
    destruct (decide _), (decide _); try reflexivity; unfold page_size in *; lia.
Qed.

Lemma alloc_over a size :
  0 <= page a -> 0 < size -> max_pages_limit_ a < size + page a ->
  alloc size a = Throw (Exn wasm_bad_alloc "exceeded max number of pages") a.
Proof.
  intros. unfold alloc. destruct (Z.eqb_spec size 0); [lia|]. cbn.
  destruct (Z.leb_spec 0 (page a)); [|lia].
  destruct (Z.leb_spec (size + page a) (max_pages_limit_ a)); [lia|reflexivity].
Qed.

Lemma free_pages_spec a size :
  alloc_wf a -> 0 <= size <= page a ->
  exists a', free_pages size a = Ok tt a' /\ alloc_wf a' /\ page a' = page a - size /\ raw a' = raw a.
Proof.
  intros Hwf Hs. unfold free_pages. destruct (Z.eqb_spec size 0) as [->|Hne].
  - exists a. repeat split; auto; try apply Hwf. lia.
  - unfold bind, get, psizam_assert. destruct (Z.leb_spec 0 (page a)); [|lia].
    destruct (Z.leb_spec size (page a)); [|lia]. unfold ret, modify. destruct Hwf as [H1 H2 H3 H4 H5 H6 H7].
    set (a1 := mprotect_own _ _ _ (upd_page (page a - size) a)).
    exists (update_stored_mem_size a1). split; [reflexivity|].
    assert (E : update_stored_mem_size a1 = upd_mem_size ((page a - size) * page_size) a1).
    { unfold update_stored_mem_size. change (page a1) with (page a - size).
      destruct (Z.leb_spec 0 (page a - size)); [reflexivity|lia]. }
    rewrite E. split; [|auto].
    split; [..|subst a1; now prot_step H6 H7|subst a1; now prot_step H6 H7]; cbn; auto; [lia|unfold page_size; lia].
Qed.

(** The state [reset(new_pages)] reaches before it grows or shrinks: a defined
    memory, zero on all its pages. *)
Definition reset_start (a : wasm_allocator) : wasm_allocator :=
  if 0 <=? page a then upd_raw (mem_zero 0 (page_size * page a)) a else upd_page 0 (mprotect_own (- syspagesize a) (syspagesize a) PROT_READ a).

Lemma reset_start_wf a : alloc_wf a ->
  alloc_wf (reset_start a) /\ 0 <= page (reset_start a) /\
  max_pages_limit_ (reset_start a) = max_pages_limit_ a /\
  (forall k, 0 <= k < page_size * page (reset_start a) -> mem_get (raw (reset_start a)) k = 0).
Proof.
  intros [H1 H2 H3 H4 H5 H6 H7]. unfold reset_start. destruct (Z.leb_spec 0 (page a)).
  - split; [split; [..|now prot_step H6 H7|now prot_step H6 H7]; cbn; auto using mem_zero_bytes_ok|]. cbn. repeat split; auto.
    intros k Hk. rewrite mem_get_zero, decide_True by lia. reflexivity.
  - split; [split; [..|now prot_step H6 H7|now prot_step H6 H7]; cbn; auto; rewrite ?H3; unfold page_size; lia|]. cbn. repeat split; auto; lia.
Qed.

Lemma reset_pages_eq n a :
  reset_pages n a =
  let a0 := reset_start a in
  bind (if page a0 <? n then alloc (n - page a0)
        else if n <? page a0 then free_pages (page a0 - n) else ret tt)
    (fun _ => modify update_stored_mem_size) a0.
Proof. unfold reset_pages, reset_start, bind, get, gets, modify. destruct (0 <=? page a); reflexivity. Qed.

Lemma update_stored_wf a : alloc_wf a -> alloc_wf (update_stored_mem_size a).
Proof.
  intros W. unfold update_stored_mem_size. destruct (0 <=? page a) eqn:E; [|exact W]. apply Z.leb_le in E.
  destruct W as [H1 H2 H3 H4 H5 H6 H7]. split; [..|exact H6|exact H7]; cbn; auto; unfold page_size; lia.
Qed.

Lemma update_stored_page a : page (update_stored_mem_size a) = page a.
Proof. unfold update_stored_mem_size. now destruct (_ <=? _). Qed.

Lemma update_stored_raw a : raw (update_stored_mem_size a) = raw a.
Proof. unfold update_stored_mem_size. now destruct (_ <=? _). Qed.

(** [wasm_allocator::reset(new_pages)] meets its documented postcondition
    from any well-formed state: it succeeds when [new_pages] is within the
    allocator's limit, leaves exactly [new_pages] pages, keeps the invariant,
    and every byte of the allocated pages is zero, whatever was in them. *)
Theorem reset_pages_post a new_pages :
  alloc_wf a -> 0 <= new_pages <= max_pages_limit_ a ->
  exists a', reset_pages new_pages a = Ok tt a' /\ alloc_wf a' /\ page a' = new_pages /\
    forall k, 0 <= k < new_pages * page_size -> mem_get (raw a') k = 0.
Proof.
  intros Hwf Hn. destruct (reset_start_wf a Hwf) as (W0 & P0 & L0 & Z0).
  rewrite reset_pages_eq. cbv zeta. set (a0 := reset_start a) in *.
  cut (exists a1, (if page a0 <? new_pages then alloc (new_pages - page a0)
        else if new_pages <? page a0 then free_pages (page a0 - new_pages) else ret tt) a0 = Ok tt a1 /\
      alloc_wf a1 /\ page a1 = new_pages /\
      forall k, 0 <= k < new_pages * page_size -> mem_get (raw a1) k = 0).
  - intros (a1 & E & W1 & P1 & Z1). rewrite (bind_Ok _ _ _ _ _ E).
    eexists; split; [reflexivity|]. rewrite update_stored_page, update_stored_raw.
    auto using update_stored_wf.
  - destruct (Z.ltb_spec (page a0) new_pages); [|destruct (Z.ltb_spec new_pages (page a0))].
    + destruct (alloc_spec a0 (new_pages - page a0)) as (a1 & E & W1 & P1 & _ & _ & _ & G1); auto; try lia.
      exists a1. repeat split; auto; try apply W1; try lia.
      intros k Hk. rewrite G1. destruct (decide _); [reflexivity|]. apply Z0. unfold page_size in *. lia.
    + destruct (free_pages_spec a0 (page a0 - new_pages)) as (a1 & E & W1 & P1 & R1); auto; try lia.
      exists a1. repeat split; auto; try apply W1; try lia.
      intros k Hk. rewrite R1. apply Z0. unfold page_size in *. lia.
    + exists a0. repeat split; auto; try apply W0; try lia.
      intros k Hk. apply Z0. unfold page_size in *. lia.
Qed.

Lemma make_guarded_wf ps : 4096 <= ps -> alloc_wf (make_guarded ps).
Proof.
  intros H. assert (Hm : max_pages = 65536) by reflexivity.
  assert (Hp : forall k, - ps <= k -> prot_at (prot (make_guarded ps)) k = PROT_NONE).
  { intros k Hk. cbn. unfold protect, prefix_size, table_size. now replace (_ && _) with false by (symmetry; apply andb_false_iff; rewrite Z.ltb_ge; lia). }
  split; cbn -[page_writable page_readable]; try lia.
  - intros k. unfold mem_get. rewrite lookup_empty. cbn. unfold in_u. lia.
  - intros k Hk. unfold page_writable. rewrite Hp by lia. unfold accessible_end, page_size. cbn. symmetry. apply Z.ltb_ge. lia.
  - unfold page_readable. now rewrite Hp by lia.
Qed.

Lemma reset_pages_post_witness :
  exists a', reset_pages 3 (make_guarded 4096) = Ok tt a' /\ alloc_wf a' /\ page a' = 3 /\
    forall k, 0 <= k < 3 * page_size -> mem_get (raw a') k = 0.
Proof. apply (reset_pages_post (make_guarded 4096) 3); [now apply make_guarded_wf|]. vm_compute. split; discriminate. Defined.

Lemma reset_none_spec a : alloc_wf a ->
  exists a', reset_none a = Ok tt a' /\ alloc_wf a' /\ page a' = -1.
Proof.
  intros [H1 H2 H3 H4 H5 H6 H7]. unfold reset_none, bind, get, modify, ret.
  destruct (Z.leb_spec 0 (page a)); (eexists; split; [reflexivity|]); (split; [|reflexivity]);
    (split; [..|now prot_step H6 H7|now prot_step H6 H7]); cbn; auto using mem_zero_bytes_ok; unfold page_size; lia.
Qed.

(** ** Access lemmas *)

Lemma access_in a addr n : land_at a addr n = Accessible -> access addr n a = Ok tt a.
Proof. intros H. unfold access, bind, get. now rewrite H. Qed.

Lemma read_unaligned_in a addr n :
  land_at a addr (Z.of_nat n) = Accessible -> read_unaligned addr n a = Ok (read_le (raw a) addr n) a.
Proof. intros H. unfold read_unaligned. now rewrite (bind_Ok _ _ _ _ _ (access_in _ _ _ H)). Qed.

Lemma write_unaligned_in a addr n v :
  land_at a addr (Z.of_nat n) = Accessible ->
  write_unaligned addr n v a = Ok tt (upd_raw (fun m => write_le m addr n v) a).
Proof. intros H. unfold write_unaligned. now rewrite (bind_Ok _ _ _ _ _ (access_in _ _ _ H)). Qed.

Lemma land_at_upd_raw f a addr n : land_at (upd_raw f a) addr n = land_at a addr n.
Proof. reflexivity. Qed.

Lemma upd_raw_wf a addr n v : alloc_wf a -> alloc_wf (upd_raw (fun m => write_le m addr n v) a).
Proof. intros [H1 H2 H3 H4 H5 H6 H7]. split; cbn; auto using write_le_bytes_ok. Qed.

(** Round trip through linear memory: after a store of [n] bytes the same
    bytes read back as the stored value truncated to [8 n] bits. *)
Lemma store_load_same a addr n v a' :
  write_unaligned addr n v a = Ok tt a' ->
  read_unaligned addr n a' = Ok (wrap (8 * Z.of_nat n) v) a'.
Proof.
  unfold write_unaligned, access, bind, get. destruct (land_at a addr (Z.of_nat n)) eqn:E; try discriminate.
  cbn. intros [= <-]. rewrite read_unaligned_in by (now rewrite land_at_upd_raw). cbn. now rewrite read_write_le.
Qed.

(** Stores do not disturb other bytes: a load of a range disjoint from the
    stored one returns what it returned before. *)
Lemma store_load_disjoint a addr n v a' addr' n' :
  write_unaligned addr n v a = Ok tt a' ->
  addr' + Z.of_nat n' <= addr \/ addr + Z.of_nat n <= addr' ->
  match read_unaligned addr' n' a, read_unaligned addr' n' a' with
  | Ok x _, Ok y _ => x = y
  | Throw e _, Throw e' _ => e = e'
  | UB, UB => True
  | _, _ => False
  end.
Proof.
  unfold write_unaligned, access, bind, get. destruct (land_at a addr (Z.of_nat n)) eqn:E; try discriminate.
  cbn. intros [= <-] Hd. unfold read_unaligned, access, bind, get. rewrite land_at_upd_raw.
  destruct (land_at a addr' (Z.of_nat n')); cbn; auto.
  apply read_le_ext. intros k Hk. rewrite mem_get_write_le, decide_False by lia. reflexivity.
Qed.

(** C36. Linear memory holds what is stored: after a store of [n] bytes the same
    bytes read back as the value truncated to [8 n] bits, and a load of a
    disjoint range, traps included, gives what it gave before. *)
Theorem store_load a addr n v a' :
  write_unaligned addr n v a = Ok tt a' ->
  read_unaligned addr n a' = Ok (wrap (8 * Z.of_nat n) v) a' /\
  forall addr' n', addr' + Z.of_nat n' <= addr \/ addr + Z.of_nat n <= addr' ->
    match read_unaligned addr' n' a, read_unaligned addr' n' a' with
    | Ok x _, Ok y _ => x = y
    | Throw e _, Throw e' _ => e = e'
    | UB, UB => True
    | _, _ => False
    end.
Proof. intros Hs. split; [eapply store_load_same; eauto|]. intros addr' n' Hd. eapply store_load_disjoint; eauto. Qed.

(** C6. Guard-page isolation, the safety invariant the allocator documents: in
    a reservation of the allocator's own (self-managed or from its pool, not a
    caller's buffer) and for a 32-bit memory any access of up to 16 bytes at a 32-bit address plus a
    32-bit offset either lies within the current pages or hits the guard and
    traps; it never leaves the reservation, so it is never undefined. *)
Theorem guarded_access_isolated a addr offset n :
  alloc_wf a -> external_ a = false ->
  in_u 32 addr -> in_u 32 offset -> 1 <= n <= 16 ->
  access (addr + offset) n a =
    if addr + offset + n <=? Z.max 0 (page a) * page_size then Ok tt a
    else Throw (Exn wasm_memory_exception "wasm memory out-of-bounds") a.
Proof.
  intros Hwf Hext Ha Ho Hn. unfold in_u in *. unfold access, bind, get. rewrite land_at_pages by (auto; lia).
  destruct Hwf as [H1 H2 H3 H4 H5 H6 H7]. unfold accessible_end. rewrite Hext.
  assert (Hp : page_size = 65536) by reflexivity. assert (Hm : max_memory = 2 ^ 33) by reflexivity.
  destruct (Z.leb_spec 0 (addr + offset)); [|lia]. cbn [andb].
  destruct (Z.leb_spec (addr + offset + n) (page a * page_size)),
           (Z.leb_spec (addr + offset + n) (Z.max 0 (page a) * page_size)); try lia; try reflexivity.
  replace (- syspagesize a <=? addr + offset) with true by (symmetry; apply Z.leb_le; lia).
  replace (addr + offset + n <=? max_memory + syspagesize a) with true by (symmetry; apply Z.leb_le; lia).
  reflexivity.
Qed.

(** A one-page memory, for the witnesses. *)
Definition one_page : wasm_allocator :=
  match reset_pages 1 (make_guarded 4096) with Ok _ a => a | _ => make_guarded 4096 end.

Lemma one_page_wf : alloc_wf one_page.
Proof.
  destruct (reset_pages_post (make_guarded 4096) 1) as (a' & E & W & _); [now apply make_guarded_wf|vm_compute; split; discriminate|].
  unfold one_page. now rewrite E.
Qed.

Lemma store_load_witness :
  exists a', write_unaligned 12 2 0x1FACE one_page = Ok tt a' /\ read_unaligned 12 2 a' = Ok (wrap 16 0x1FACE) a' /\
  match read_unaligned 14 4 one_page, read_unaligned 14 4 a' with
  | Ok x _, Ok y _ => x = y | Throw e _, Throw e' _ => e = e' | UB, UB => True | _, _ => False
  end.
Proof.
  eexists; split; [reflexivity|].
  match goal with |- context [read_unaligned 12 2 ?a' = _] => destruct (store_load one_page 12 2 0x1FACE a' eq_refl) as [H1 H2] end.
  split; [exact H1|]. apply (H2 14 4%nat). cbn. lia.
Defined.

Lemma guarded_access_isolated_witness :
  access (UINT32_MAX + UINT32_MAX) 16 one_page
  = Throw (Exn wasm_memory_exception "wasm memory out-of-bounds") one_page.
Proof.
  rewrite (guarded_access_isolated one_page UINT32_MAX UINT32_MAX 16); try reflexivity.
  - apply one_page_wf.
  - vm_compute. split; congruence.
  - vm_compute. split; congruence.
  - lia.
Defined.
