(* ===== verification/Numeric.v ===== *)
(** * Integer instructions

    Models the pure part of the integer comparison, numeric and conversion
    handlers of psizam/detail/interpret_visitor.hpp: what is computed from the
    operands once they are popped, with the traps as thrown exceptions.  The
    operands are unsigned representations; a handler that reads [to_i32] or
    [to_i64] works on [signed] of them. *)
From Stdlib Require Import ZArith Lia Bool String.
From stdpp Require Import base list numbers decidable option.
From S2P Require Import Prelude Types.
Import Opcode.

Definition b2z (b : bool) : Z := if b then 1 else 0.

(** ** Comparisons *)

Definition relop_bits (w : Z) (op : int_relop) (lhs rhs : Z) : bool :=
  let sl := signed w lhs in
  let sr := signed w rhs in
  match op with
  | eq => lhs =? rhs
  | ne => negb (lhs =? rhs)
  | lt_s => sl <? sr
  | lt_u => lhs <? rhs
  | le_s => sl <=? sr
  | le_u => lhs <=? rhs
  | gt_s => sr <? sl
  | gt_u => rhs <? lhs
  | ge_s => sr <=? sl
  | ge_u => rhs <=? lhs
  end.

Definition i32_eqz (v : Z) : Z := b2z (v =? 0).
Definition i64_eqz (v : Z) : Z := b2z (v =? 0).
Definition i32_relop (op : int_relop) (lhs rhs : Z) : Z := b2z (relop_bits 32 op lhs rhs).
Definition i64_relop (op : int_relop) (lhs rhs : Z) : Z := b2z (relop_bits 64 op lhs rhs).

(** ** Bit counting: the compiler builtins on a non-zero argument *)

Definition builtin_clz (w v : Z) : Z := w - 1 - Z.log2 v.

Fixpoint ctz_pos (p : positive) : Z :=
  match p with xO p' => 1 + ctz_pos p' | _ => 0 end.
Definition builtin_ctz (v : Z) : Z := match v with Zpos p => ctz_pos p | _ => 0 end.

Fixpoint popcount_pos (p : positive) : Z :=
  match p with xH => 1 | xO p' => popcount_pos p' | xI p' => 1 + popcount_pos p' end.
Definition builtin_popcount (v : Z) : Z := match v with Zpos p => popcount_pos p | _ => 0 end.

Definition i32_unop (op : int_unop) (oper : Z) : Z :=
  match op with
  | clz => if oper =? 0 then 32 else builtin_clz 32 oper
  | ctz => if oper =? 0 then 32 else builtin_ctz oper
  | popcnt => builtin_popcount oper
  end.
Definition i64_unop (op : int_unop) (oper : Z) : Z :=
  match op with
  | clz => if oper =? 0 then 64 else builtin_clz 64 oper
  | ctz => if oper =? 0 then 64 else builtin_ctz oper
  | popcnt => builtin_popcount oper
  end.

(** ** Arithmetic *)
Section Arith.
Context {S : Type}.

Definition i32_binop (op : int_binop) (lhs rhs : Z) : M S Z :=
  let mask := 8 * 4 - 1 in
  let sl := signed 32 lhs in
  let sr := signed 32 rhs in
  match op with
  | add => ret (wrap 32 (lhs + rhs))
  | sub => ret (wrap 32 (lhs - rhs))
  | mul => ret (wrap 32 (lhs * rhs))
  | div_s =>
      psizam_assert (negb (sr =? 0)) wasm_interpreter_exception "i32.div_s divide by zero" ;;;
      psizam_assert (negb ((sl =? - 2 ^ 31) && (sr =? -1))) wasm_interpreter_exception
        "i32.div_s traps when I32_MIN/-1" ;;;
      ret (wrap 32 (Z.quot sl sr))
  | div_u =>
      psizam_assert (negb (rhs =? 0)) wasm_interpreter_exception "i32.div_u divide by zero" ;;;
      ret (lhs / rhs)
  | rem_s =>
      psizam_assert (negb (sr =? 0)) wasm_interpreter_exception "i32.rem_s divide by zero" ;;;
      ret (if (sl =? - 2 ^ 31) && (sr =? -1) then 0 else wrap 32 (Z.rem sl sr))
  | rem_u =>
      psizam_assert (negb (rhs =? 0)) wasm_interpreter_exception "i32.rem_u divide by zero" ;;;
      ret (lhs mod rhs)
  | and => ret (Z.land lhs rhs)
  | or => ret (Z.lor lhs rhs)
  | xor => ret (Z.lxor lhs rhs)
  | shl => ret (wrap 32 (Z.shiftl lhs (Z.land rhs mask)))
  | shr_s => ret (wrap 32 (Z.shiftr sl (Z.land rhs mask)))
  | shr_u => ret (Z.shiftr lhs (Z.land rhs mask))
  | rotl =>
      let c := Z.land rhs mask in
      ret (Z.lor (wrap 32 (Z.shiftl lhs c)) (Z.shiftr lhs (Z.land (wrap 32 (- c)) mask)))
  | rotr =>
      let c := Z.land rhs mask in
      ret (Z.lor (Z.shiftr lhs c) (wrap 32 (Z.shiftl lhs (Z.land (wrap 32 (- c)) mask))))
  end.

(** The 64-bit rotates keep their count in a [uint32_t]. *)
Definition i64_binop (op : int_binop) (lhs rhs : Z) : M S Z :=
  let mask := 8 * 8 - 1 in
  let sl := signed 64 lhs in
  let sr := signed 64 rhs in
  match op with
  | add => ret (wrap 64 (lhs + rhs))
  | sub => ret (wrap 64 (lhs - rhs))
  | mul => ret (wrap 64 (lhs * rhs))
  | div_s =>
      psizam_assert (negb (sr =? 0)) wasm_interpreter_exception "i64.div_s divide by zero" ;;;
      psizam_assert (negb ((sl =? - 2 ^ 63) && (sr =? -1))) wasm_interpreter_exception
        "i64.div_s traps when I64_MIN/-1" ;;;
      ret (wrap 64 (Z.quot sl sr))
  | div_u =>
      psizam_assert (negb (rhs =? 0)) wasm_interpreter_exception "i64.div_u divide by zero" ;;;
      ret (lhs / rhs)
  | rem_s =>
      psizam_assert (negb (sr =? 0)) wasm_interpreter_exception "i64.rem_s divide by zero" ;;;
      ret (if (sl =? - 2 ^ 63) && (sr =? -1) then 0 else wrap 64 (Z.rem sl sr))
  | rem_u =>
      psizam_assert (negb (rhs =? 0)) wasm_interpreter_exception "i64.rem_u divide by zero" ;;;
      ret (lhs mod rhs)
  | and => ret (Z.land lhs rhs)
  | or => ret (Z.lor lhs rhs)
  | xor => ret (Z.lxor lhs rhs)
  | shl => ret (wrap 64 (Z.shiftl lhs (Z.land rhs mask)))
  | shr_s => ret (wrap 64 (Z.shiftr sl (Z.land rhs mask)))
  | shr_u => ret (Z.shiftr lhs (Z.land rhs mask))
  | rotl =>
      let c := Z.land (wrap 32 rhs) mask in
      ret (Z.lor (wrap 64 (Z.shiftl lhs c)) (Z.shiftr lhs (Z.land (wrap 32 (- c)) mask)))
  | rotr =>
      let c := Z.land (wrap 32 rhs) mask in
      ret (Z.lor (Z.shiftr lhs c) (wrap 64 (Z.shiftl lhs (Z.land (wrap 32 (- c)) mask))))
  end.

End Arith.

(** ** Conversions between integers *)
Definition i32_wrap_i64_v (v : Z) : Z := wrap 32 (signed 64 v).
Definition i64_extend_s_i32_v (v : Z) : Z := wrap 64 (signed 32 v).
Definition i64_extend_u_i32_v (v : Z) : Z := v.
(** [static_cast<int_N>(static_cast<int_n>(v))] stored as unsigned. *)
Definition extend_v (w n v : Z) : Z := wrap w (signed n (wrap n (signed w v))).

(** ** Reference semantics

    The integer operators as the WebAssembly specification writes them, on
    naturals below [2^N]; [None] is a trap. *)
Definition wasm_binop (w : Z) (op : int_binop) (l r : Z) : option Z :=
  let k := r mod w in
  match op with
  | add => Some ((l + r) mod 2 ^ w)
  | sub => Some ((l - r + 2 ^ w) mod 2 ^ w)
  | mul => Some (l * r mod 2 ^ w)
  | div_u => if r =? 0 then None else Some (l / r)
  | div_s =>
      if r =? 0 then None
      else if Z.quot (signed w l) (signed w r) =? 2 ^ (w - 1) then None
      else Some (Z.quot (signed w l) (signed w r) mod 2 ^ w)
  | rem_u => if r =? 0 then None else Some (l - r * (l / r))
  | rem_s =>
      if r =? 0 then None
      else Some ((signed w l - signed w r * Z.quot (signed w l) (signed w r)) mod 2 ^ w)
  | and => Some (Z.land l r)
  | or => Some (Z.lor l r)
  | xor => Some (Z.lxor l r)
  | shl => Some (l * 2 ^ k mod 2 ^ w)
  | shr_u => Some (l / 2 ^ k)
  | shr_s => Some (signed w l / 2 ^ k mod 2 ^ w)
  | rotl => Some (l mod 2 ^ (w - k) * 2 ^ k + l / 2 ^ (w - k))
  | rotr => Some (l mod 2 ^ k * 2 ^ (w - k) + l / 2 ^ k)
  end.

Section Bits.
Context (w : Z) (Hw : 1 < w).

Lemma wrap_shiftl l k : in_u w l -> 0 <= k <= w -> wrap w (Z.shiftl l k) = l mod 2 ^ (w - k) * 2 ^ k.
Proof.
  intros Hl Hk. unfold wrap. rewrite Z.shiftl_mul_pow2 by lia.
  replace (2 ^ w) with (2 ^ (w - k) * 2 ^ k) by (rewrite <- Z.pow_add_r by lia; f_equal; lia).
  rewrite Z.mul_mod_distr_r; [reflexivity| |]; apply Z.pow_nonzero; lia.
Qed.

Lemma div_pow_range l k : in_u w l -> 0 <= k <= w -> in_u (w - k) (l / 2 ^ k).
Proof.
  unfold in_u. intros Hl Hk. split; [apply Z.div_pos; [lia|apply Z.pow_pos_nonneg; lia]|].
  apply Z.div_lt_upper_bound; [apply Z.pow_pos_nonneg; lia|].
  rewrite <- Z.pow_add_r by lia. now replace (k + (w - k)) with w by lia.
Qed.

(** The two halves of a rotate: [c] is the complementary count [(-k) & (w - 1)]. *)
Lemma rotl_halves l k : in_u w l -> 0 <= k < w ->
  Z.lor (wrap w (Z.shiftl l k)) (Z.shiftr l ((- k) mod w)) = l mod 2 ^ (w - k) * 2 ^ k + l / 2 ^ (w - k).
Proof.
  intros Hl Hk. rewrite wrap_shiftl by (auto; lia). destruct (Z.eq_dec k 0) as [->|Hk0].
  - rewrite Z.mod_0_l by lia. rewrite Z.shiftr_0_r, Z.sub_0_r, Z.mul_1_r, (Z.mod_small l) by apply Hl.
    rewrite Z.lor_diag, Z.div_small by apply Hl. lia.
  - replace ((- k) mod w) with (w - k) by (rewrite Z.mod_opp_l_nz; rewrite ?Z.mod_small; lia).
    rewrite Z.shiftr_div_pow2 by lia. rewrite Z.lor_comm, <- Z.shiftl_mul_pow2 by lia.
    rewrite lor_add; [rewrite Z.shiftl_mul_pow2; lia|lia|].
    replace k with (w - (w - k)) at 1 by lia. apply div_pow_range; auto; lia.
Qed.

Lemma rotr_halves l k : in_u w l -> 0 <= k < w ->
  Z.lor (Z.shiftr l k) (wrap w (Z.shiftl l ((- k) mod w))) = l mod 2 ^ k * 2 ^ (w - k) + l / 2 ^ k.
Proof.
  intros Hl Hk. destruct (Z.eq_dec k 0) as [->|Hk0].
  - rewrite Z.mod_0_l by lia. rewrite Z.shiftl_0_r, Z.shiftr_0_r, wrap_small by auto.
    rewrite Z.lor_diag. cbn. rewrite Z.mod_1_r, Z.div_1_r. lia.
  - replace ((- k) mod w) with (w - k) by (rewrite Z.mod_opp_l_nz; rewrite ?Z.mod_small; lia).
    rewrite wrap_shiftl by (auto; lia). replace (w - (w - k)) with k by lia.
    rewrite Z.shiftr_div_pow2 by lia. rewrite <- Z.shiftl_mul_pow2 by lia.
    rewrite lor_add; [rewrite Z.shiftl_mul_pow2; lia|lia|]. apply div_pow_range; auto; lia.
Qed.

Lemma shiftr_range l k : in_u w l -> 0 <= k -> in_u w (Z.shiftr l k).
Proof.
  unfold in_u. intros Hl Hk. rewrite Z.shiftr_div_pow2 by lia.
  assert (0 < 2 ^ k) by (apply Z.pow_pos_nonneg; lia).
  split; [apply Z.div_pos; lia|]. apply Z.div_lt_upper_bound; nia.
Qed.

Lemma rotl_range l k : in_u w l -> 0 <= k < w -> in_u w (l mod 2 ^ (w - k) * 2 ^ k + l / 2 ^ (w - k)).
Proof.
  intros Hl Hk. rewrite <- rotl_halves by auto.
  apply lor_bound; [lia|apply wrap_range; lia|apply shiftr_range; auto; apply Z.mod_pos_bound; lia].
Qed.

Lemma rotr_range l k : in_u w l -> 0 <= k < w -> in_u w (l mod 2 ^ k * 2 ^ (w - k) + l / 2 ^ k).
Proof.
  intros Hl Hk. rewrite <- rotr_halves by auto.
  apply lor_bound; [lia|apply shiftr_range; auto; lia|apply wrap_range; lia].
Qed.

(** Signed division overflows in one case only. *)
Lemma quot_overflow a b : in_s w a -> in_s w b -> b <> 0 ->
  (Z.quot a b = 2 ^ (w - 1) <-> a = - 2 ^ (w - 1) /\ b = -1).
Proof.
  unfold in_s. intros Ha Hb Hb0. assert (0 < 2 ^ (w - 1)) by (apply Z.pow_pos_nonneg; lia).
  pose proof (Z.quot_rem' a b) as E. pose proof (Z.rem_bound_abs a b Hb0) as Hr.
  split; [|intros [-> ->]; change (-1) with (- (1)); rewrite Z.quot_opp_opp by lia; apply Z.quot_1_r].
  intros Eq. rewrite Eq in E.
  assert (b < 0 \/ 0 < b) as [Hn|Hp] by lia.
  - assert (b = -1) by nia. subst. lia.
  - nia.
Qed.

Lemma land_range a b : in_u w a -> in_u w b -> in_u w (Z.land a b).
Proof.
  unfold in_u. intros Ha Hb. split; [apply Z.land_nonneg; lia|].
  pose proof (Z.land_nonneg a b) as Hn.
  destruct (Z.eq_dec (Z.land a b) 0) as [->|]; [apply Z.pow_pos_nonneg; lia|].
  apply Z.log2_lt_pow2; [lia|]. eapply Z.le_lt_trans; [apply Z.log2_land; lia|].
  apply Z.min_lt_iff. left. destruct (Z.eq_dec a 0) as [->|]; [cbn; lia|]. apply Z.log2_lt_pow2; lia.
Qed.

Lemma lxor_range a b : in_u w a -> in_u w b -> in_u w (Z.lxor a b).
Proof.
  unfold in_u. intros Ha Hb.
  assert (Hn : 0 <= Z.lxor a b) by (apply Z.lxor_nonneg; lia). split; [exact Hn|].
  destruct (Z.eq_dec (Z.lxor a b) 0) as [->|]; [apply Z.pow_pos_nonneg; lia|].
  apply Z.log2_lt_pow2; [lia|]. eapply Z.le_lt_trans; [apply Z.log2_lxor; lia|].
  apply Z.max_lub_lt; [destruct (Z.eq_dec a 0) as [->|]|destruct (Z.eq_dec b 0) as [->|]];
    try (cbn; lia); apply Z.log2_lt_pow2; lia.
Qed.

Lemma signed_zero r : in_u w r -> (signed w r =? 0) = (r =? 0).
Proof.
  unfold in_u, signed. intros H. pose proof (pow_half w ltac:(lia)).
  assert (0 < 2 ^ (w - 1)) by (apply Z.pow_pos_nonneg; lia).
  apply eq_bool_prop_intro. rewrite !Is_true_true, !Z.eqb_eq.
  destruct (Z.ltb_spec r (2 ^ (w - 1))); lia.
Qed.

End Bits.

(** The arithmetic the two widths share. *)
Section Shared.
Context (w : Z) (Hw : 1 < w) (l r : Z) (Hl : in_u w l) (Hr : in_u w r).

Lemma div_s_case : r <> 0 ->
  ((signed w l =? - 2 ^ (w - 1)) && (signed w r =? -1)) =
  (Z.quot (signed w l) (signed w r) =? 2 ^ (w - 1)).
Proof.
  intros H0. pose proof (signed_zero w Hw r Hr) as E. rewrite (proj2 (Z.eqb_neq r 0) H0), Z.eqb_neq in E.
  apply eq_bool_prop_intro. rewrite !Is_true_true, andb_true_iff, !Z.eqb_eq.
  symmetry. apply quot_overflow; auto; apply signed_range; auto; lia.
Qed.

Lemma rem_s_case :
  (if (signed w l =? - 2 ^ (w - 1)) && (signed w r =? -1) then 0 else wrap w (Z.rem (signed w l) (signed w r)))
  = (signed w l - signed w r * Z.quot (signed w l) (signed w r)) mod 2 ^ w.
Proof.
  pose proof (Z.quot_rem' (signed w l) (signed w r)) as E.
  replace (signed w l - signed w r * _) with (Z.rem (signed w l) (signed w r)) by lia.
  destruct (_ && _) eqn:Ec; [|reflexivity].
  apply andb_true_iff in Ec as [_ E2%Z.eqb_eq]. rewrite E2.
  pose proof (Z.rem_bound_abs (signed w l) (-1) ltac:(lia)).
  replace (Z.rem (signed w l) (-1)) with 0 by lia. now rewrite Z.mod_0_l by (apply Z.pow_nonzero; lia).
Qed.

Lemma div_u_range : r <> 0 -> in_u w (l / r).
Proof.
  unfold in_u in *. intros. split; [apply Z.div_pos; lia|]. apply Z.div_lt_upper_bound; nia.
Qed.

Lemma rem_u_range : r <> 0 -> in_u w (l mod r).
Proof. unfold in_u in *. intros. pose proof (Z.mod_pos_bound l r). lia. Qed.

Lemma shift_count k : 0 < k -> w = 2 ^ k -> Z.land r (w - 1) = r mod w.
Proof. intros Hk ->. rewrite land_ones_mod; [reflexivity|lia]. Qed.

Lemma count_range : 0 <= r mod w < w.
Proof. apply Z.mod_pos_bound. lia. Qed.

End Shared.

(** The complementary count, computed on 32 bits. *)
Lemma neg_count c k : 0 < k <= 32 -> Z.land (wrap 32 (- c)) (2 ^ k - 1) = (- c) mod 2 ^ k.
Proof.
  intros Hk. rewrite land_ones_mod by lia. apply Z.mod_mod_divide.
  exists (2 ^ (32 - k)). rewrite <- Z.pow_add_r by lia. f_equal. lia.
Qed.

Lemma wrap_count r k : 0 < k <= 32 -> Z.land (wrap 32 r) (2 ^ k - 1) = r mod 2 ^ k.
Proof.
  intros Hk. rewrite land_ones_mod by lia. apply Z.mod_mod_divide.
  exists (2 ^ (32 - k)). rewrite <- Z.pow_add_r by lia. f_equal. lia.
Qed.

#[local] Hint Resolve div_u_range rem_u_range land_range lor_bound lxor_range rotl_range rotr_range : psi_word.

(** What it means for an implementation of one operator to meet the reference:
    the same value, in range, or a trap. *)
Definition meets {S} (w : Z) (spec : option Z) (o : outcome S Z) (s : S) : Prop :=
  match spec with
  | Some v => o = Ok v s /\ in_u w v
  | None => exists msg, o = Throw (Exn wasm_interpreter_exception msg) s
  end.

(** Each operator's clause reduces to a lemma of the sections above; [w] is
    the width and [k] its logarithm. *)
Ltac binop_clauses w k op l r Hl Hr :=
  let Hw := fresh "Hw" in assert (Hw : 1 < w) by lia;
  assert (Hk : 0 < k <= 32) by lia;
  pose proof (count_range w Hw r) as Hc; pose proof (signed_zero w Hw r Hr) as Hz;
  unfold meets; destruct op; cbn [i32_binop i64_binop wasm_binop];
  change (8 * 4 - 1) with (2 ^ 5 - 1); change (8 * 8 - 1) with (2 ^ 6 - 1);
  cbv beta zeta; rewrite ?wrap_count, ?neg_count, ?(land_ones_mod r k) by lia;
  change (2 ^ 5) with 32 in *; change (2 ^ 6) with 64 in *;
  try rewrite Hz; rewrite ?(rotl_halves w Hw), ?(rotr_halves w Hw) by auto;
  try (destruct (Z.eqb_spec r 0) as [H0|H0]; [eexists; reflexivity|]);
  unfold psizam_assert, bind, ret, throw; cbn [negb];
  try (change (- 2 ^ 31) with (- 2 ^ (w - 1)); change (- 2 ^ 63) with (- 2 ^ (w - 1)));
  try (rewrite (rem_s_case w Hw l r));
  try (match goal with H0 : r <> 0 |- _ => rewrite (div_s_case w Hw l r Hl Hr H0) end;
       destruct (_ =? 2 ^ (w - 1)); [eexists; reflexivity|]; cbn [negb]);
  rewrite ?Z.shiftl_mul_pow2, ?Z.shiftr_div_pow2 by lia;
  (split; [|auto with psi_word]).

Lemma sub_wrap w l r : 0 < w -> wrap w (l - r) = (l - r + 2 ^ w) mod 2 ^ w.
Proof. intros. unfold wrap. now rewrite <- (Z_mod_plus_full (l - r) 1), Z.mul_1_l. Qed.

Lemma rem_u_eq l r : r <> 0 -> l mod r = l - r * (l / r).
Proof. intros. apply Z.mod_eq; lia. Qed.

Ltac binop_close w l r :=
  try reflexivity; try (apply (wrap_range w); lia);
  repeat rewrite <- rem_u_eq by auto; try reflexivity;
  try (f_equal; apply sub_wrap; lia);
  auto with psi_word;
  try (apply lor_bound; auto; lia);
  rewrite <- Z.shiftr_div_pow2 by lia; apply shiftr_range; auto; lia.

Lemma i32_binop_meets {S} op l r (s : S) :
  in_u 32 l -> in_u 32 r -> meets 32 (wasm_binop 32 op l r) (i32_binop op l r s) s.
Proof. intros Hl Hr. binop_clauses 32 5 op l r Hl Hr; binop_close 32 l r. Qed.
Lemma i64_binop_meets {S} op l r (s : S) :
  in_u 64 l -> in_u 64 r -> meets 64 (wasm_binop 64 op l r) (i64_binop op l r s) s.
Proof. intros Hl Hr. binop_clauses 64 6 op l r Hl Hr; binop_close 64 l r. Qed.

(** C16. The integer arithmetic, shift and rotate handlers of both widths (the
    64-bit rotates keep the count in a 32-bit variable) implement the WebAssembly
    operators: on operands of their width each one returns exactly the specified
    value, again of that width, and traps exactly when the specification does
    (division by zero and the least integer divided by -1). *)
Theorem int_binop_refines {S} op l r (s : S) :
  (in_u 32 l -> in_u 32 r -> meets 32 (wasm_binop 32 op l r) (i32_binop op l r s) s) /\
  (in_u 64 l -> in_u 64 r -> meets 64 (wasm_binop 64 op l r) (i64_binop op l r s) s).
Proof. split; [apply i32_binop_meets|apply i64_binop_meets]. Qed.

Lemma int_binop_refines_witness :
  (meets 32 (wasm_binop 32 rotl 0x80000001 33) (i32_binop rotl 0x80000001 33 tt) tt /\
   wasm_binop 32 rotl 0x80000001 33 = Some 3) /\
  meets 64 (wasm_binop 64 div_s (2 ^ 63) (2 ^ 64 - 1)) (i64_binop div_s (2 ^ 63) (2 ^ 64 - 1) tt) tt /\
  wasm_binop 64 div_s (2 ^ 63) (2 ^ 64 - 1) = None.
Proof.
  split.
  - split; [apply (proj1 (int_binop_refines rotl 0x80000001 33 tt)); vm_compute; split; congruence|reflexivity].
  - split; [apply (proj2 (int_binop_refines div_s (2 ^ 63) (2 ^ 64 - 1) tt)); vm_compute; split; congruence|reflexivity].
Defined.

(** ** Bit counts against bit-by-bit counting *)

(** Zeros from bit [n - 1] down to the first one; zeros from bit 0 up; ones. *)
Fixpoint leading_zeros (n : nat) (v : Z) : Z :=
  match n with O => 0 | S n' => if Z.testbit v (Z.of_nat n') then 0 else 1 + leading_zeros n' v end.
Fixpoint trailing_zeros (n : nat) (v : Z) : Z :=
  match n with O => 0 | S n' => if Z.odd v then 0 else 1 + trailing_zeros n' (v / 2) end.
Fixpoint ones (n : nat) (v : Z) : Z :=
  match n with O => 0 | S n' => b2z (Z.odd v) + ones n' (v / 2) end.
Definition wasm_unop (w : nat) (op : int_unop) (v : Z) : Z :=
  match op with clz => leading_zeros w v | ctz => trailing_zeros w v | popcnt => ones w v end.

Lemma leading_zeros_spec n v : in_u (Z.of_nat n) v ->
  leading_zeros n v = if v =? 0 then Z.of_nat n else builtin_clz (Z.of_nat n) v.
Proof.
  unfold builtin_clz, in_u. induction n as [|n IH]; intros Hv; cbn [leading_zeros].
  - destruct (Z.eqb_spec v 0); [reflexivity|lia].
  - rewrite Nat2Z.inj_succ, Z.pow_succ_r in Hv by lia.
    destruct (Z.testbit v (Z.of_nat n)) eqn:Eb.
    + assert (2 ^ Z.of_nat n <= v).
      { destruct (Z.lt_ge_cases v (2 ^ Z.of_nat n)); [|lia].
        rewrite (testbit_high (Z.of_nat n)) in Eb by (unfold in_u; lia). discriminate. }
      assert (0 < 2 ^ Z.of_nat n) by (apply Z.pow_pos_nonneg; lia).
      rewrite (proj2 (Z.eqb_neq v 0)) by lia.
      rewrite (Z.log2_unique v (Z.of_nat n)); [lia|lia|]. rewrite Z.pow_succ_r; lia.
    + rewrite IH.
      * destruct (Z.eqb_spec v 0); lia.
      * split; [lia|]. destruct (Z.lt_ge_cases v (2 ^ Z.of_nat n)); [auto|exfalso].
        apply Bool.diff_false_true. rewrite <- Eb. apply Z.testbit_true; [lia|].
        rewrite <- (Z.div_unique v (2 ^ Z.of_nat n) 1 (v - 2 ^ Z.of_nat n)); [reflexivity|left; lia|lia].
Qed.

Lemma trailing_zeros_zero n : trailing_zeros n 0 = Z.of_nat n.
Proof. induction n as [|n IH]; [reflexivity|]. cbn [trailing_zeros]. change (Z.odd 0) with false. cbn [negb]. change (0 / 2) with 0. lia. Qed.

Lemma half_xO p : Z.pos p~0 / 2 = Z.pos p.
Proof. rewrite Pos2Z.inj_xO, Z.mul_comm, Z.div_mul; lia. Qed.
Lemma half_xI p : Z.pos p~1 / 2 = Z.pos p.
Proof. symmetry. apply (Z.div_unique _ _ _ 1); lia. Qed.

Lemma trailing_zeros_spec n p : Z.pos p < 2 ^ Z.of_nat n -> trailing_zeros n (Z.pos p) = ctz_pos p.
Proof.
  revert n. induction p as [p _|p IH|]; intros [|n] H; try (cbn in H; lia); cbn [trailing_zeros ctz_pos];
    try reflexivity.
  change (Z.odd (Z.pos p~0)) with false. rewrite half_xO, IH; [reflexivity|].
  rewrite Nat2Z.inj_succ, Z.pow_succ_r in H by lia. lia.
Qed.

Lemma ones_zero n : ones n 0 = 0.
Proof. induction n as [|n IH]; [reflexivity|]. cbn [ones]. now change (0 / 2) with 0. Qed.

Lemma ones_spec n p : Z.pos p < 2 ^ Z.of_nat n -> ones n (Z.pos p) = popcount_pos p.
Proof.
  revert n. induction p as [p IH|p IH|]; intros [|n] H; try (cbn in H; lia);
    rewrite ?Nat2Z.inj_succ, ?Z.pow_succ_r in H by lia; cbn [ones popcount_pos].
  - rewrite half_xI, IH by lia. reflexivity.
  - rewrite half_xO, IH by lia. reflexivity.
  - change (1 / 2) with 0. now rewrite ones_zero.
Qed.

Lemma unop_spec (w : nat) op v : in_u (Z.of_nat w) v ->
  wasm_unop w op v =
  match op with
  | clz => if v =? 0 then Z.of_nat w else builtin_clz (Z.of_nat w) v
  | ctz => if v =? 0 then Z.of_nat w else builtin_ctz v
  | popcnt => builtin_popcount v
  end.
Proof.
  intros Hv. unfold in_u in Hv. destruct op; cbn [wasm_unop].
  - now apply leading_zeros_spec.
  - destruct (Z.eqb_spec v 0) as [->|]; [apply trailing_zeros_zero|].
    destruct v; try lia. now apply trailing_zeros_spec.
  - destruct v; [apply ones_zero|now apply ones_spec|lia].
Qed.

(** [clz], [ctz] and [popcnt] on both widths agree with counting the bits
    one by one, zero included (where the compiler builtins are undefined). *)
Theorem int_unop_counts op v :
  (in_u 32 v -> i32_unop op v = wasm_unop 32 op v) /\ (in_u 64 v -> i64_unop op v = wasm_unop 64 op v).
Proof. split; intros Hv; rewrite unop_spec by exact Hv; destruct op; reflexivity. Qed.

Lemma int_unop_counts_witness : i32_unop clz 0x00F0 = 24 /\ i64_unop ctz 0 = 64.
Proof.
  split; [rewrite (proj1 (int_unop_counts clz 0x00F0))|rewrite (proj2 (int_unop_counts ctz 0))];
    (reflexivity || (vm_compute; split; congruence)).
Defined.

(** Sign extension keeps the low bits as a signed value. *)
Lemma extend_signed w n v : 0 < n <= w -> in_u w v ->
  signed w (extend_v w n v) = signed n (v mod 2 ^ n).
Proof.
  intros Hn Hv. unfold extend_v.
  assert (E : wrap n (signed w v) = v mod 2 ^ n).
  { unfold wrap, signed. destruct (_ <? _); [reflexivity|].
    replace (2 ^ w) with (2 ^ (w - n) * 2 ^ n) by (rewrite <- Z.pow_add_r by lia; f_equal; lia).
    rewrite <- (Z_mod_plus_full _ (2 ^ (w - n))). f_equal. lia. }
  rewrite E. apply signed_wrap; [lia|].
  pose proof (signed_range n ltac:(lia) (v mod 2 ^ n) (wrap_range n ltac:(lia) v)) as [H1 H2].
  assert (2 ^ (n - 1) <= 2 ^ (w - 1)) by (apply Z.pow_le_mono_r; lia). unfold in_s. lia.
Qed.
