(* ===== verification/Softfloat.v ===== *)
(** * Deterministic floating point

    Models the scalar half of psizam/detail/softfloat.hpp: the wrappers the
    interpreter calls in the deterministic modes.  Floats are bit patterns.
    The Berkeley SoftFloat arithmetic they call is a class of operations; its
    comparisons, which only test bits, are defined here as in
    external/softfloat/source ([f32_eq.c], [f32_lt.c], [f32_le.c] and the f64
    files).  The host's own floating point (the [fast] mode) is another class. *)
From Stdlib Require Import ZArith Lia Bool String.
From stdpp Require Import base list numbers decidable option.
From S2P Require Import Prelude Types.
Import Opcode.

(** ** Formats *)
Definition bits (w : width) : Z := match w with W32 => 32 | W64 => 64 end.
Definition mbits (w : width) : Z := match w with W32 => 23 | W64 => 52 end.
Definition emax (w : width) : Z := match w with W32 => 0xFF | W64 => 0x7FF end.
Definition bias (w : width) : Z := match w with W32 => 0x7F | W64 => 0x3FF end.

Definition sign_bit (w : width) (v : Z) : bool := Z.shiftr v (bits w - 1) =? 1.
Definition low_bits (w : width) (v : Z) : Z := Z.land v (2 ^ (bits w - 1) - 1).
(** [f32_is_nan]: [(v & 0x7FFFFFFF) > 0x7F800000] *)
Definition is_nan (w : width) (v : Z) : bool := Z.shiftl (emax w) (mbits w) <? low_bits w v.
Definition canonical (w : width) : Z :=
  match w with W32 => 0x7FC00000 | W64 => 0x7FF8000000000000 end.

(** ** Berkeley comparisons *)
Definition both_zero (w : width) (a b : Z) : bool := wrap (bits w) (Z.shiftl (Z.lor a b) 1) =? 0.
Definition f_eq (w : width) (a b : Z) : bool :=
  if is_nan w a || is_nan w b then false else (a =? b) || both_zero w a b.
Definition f_lt (w : width) (a b : Z) : bool :=
  if is_nan w a || is_nan w b then false
  else if negb (Bool.eqb (sign_bit w a) (sign_bit w b))
  then sign_bit w a && negb (both_zero w a b)
  else negb (a =? b) && xorb (sign_bit w a) (a <? b).
Definition f_le (w : width) (a b : Z) : bool :=
  if is_nan w a || is_nan w b then false
  else if negb (Bool.eqb (sign_bit w a) (sign_bit w b))
  then sign_bit w a || both_zero w a b
  else (a =? b) || xorb (sign_bit w a) (a <? b).

(** ** Libraries

    Integer types of the conversions. *)
Inductive int_type := TI32 | TU32 | TI64 | TU64.

Class SoftFloat := {
  sf_add : width -> Z -> Z -> Z;
  sf_sub : width -> Z -> Z -> Z;
  sf_mul : width -> Z -> Z -> Z;
  sf_div : width -> Z -> Z -> Z;
  sf_sqrt : width -> Z -> Z;
  sf_promote : Z -> Z;                       (* f32_to_f64 *)
  sf_demote : Z -> Z;                        (* f64_to_f32 *)
  sf_of_int : width -> int_type -> Z -> Z;   (* i32_to_f32, ui64_to_f64, ... *)
  sf_to_int : width -> int_type -> Z -> Z;   (* f32_to_i32(a, 0, false), ... *)
  sf_to_int_minMag : width -> int_type -> Z -> Z }.

(** The compiler's operators and builtins on [float] and [double]. *)
Class HostFloat := {
  hf_unop : width -> float_unop -> Z -> Z;
  hf_binop : width -> float_binop -> Z -> Z -> Z;
  hf_promote : Z -> Z;
  hf_demote : Z -> Z;
  hf_of_int : width -> int_type -> Z -> Z;
  hf_cast : width -> int_type -> Z -> Z;     (* static_cast, on an in-range value *)
  hf_madd : width -> Z -> Z -> Z -> Z;       (* a * b + c, which the compiler may contract *)
  hf_nmadd : width -> Z -> Z -> Z -> Z }.    (* -(a * b) + c *)

Section Wrappers.
Context {SF : SoftFloat}.

Definition canonicalize_nan (w : width) (f : Z) : Z := if is_nan w f then canonical w else f.
Definition propagate_nan (w : width) (force : bool) (a : Z) : Z := if force then canonical w else a.

Definition psizam_add (w : width) (a b : Z) : Z := canonicalize_nan w (sf_add w a b).
Definition psizam_sub (w : width) (a b : Z) : Z := canonicalize_nan w (sf_sub w a b).
Definition psizam_mul (w : width) (a b : Z) : Z := canonicalize_nan w (sf_mul w a b).
Definition psizam_div (w : width) (a b : Z) : Z := canonicalize_nan w (sf_div w a b).
Definition psizam_sqrt (w : width) (a : Z) : Z := canonicalize_nan w (sf_sqrt w a).

Definition psizam_min (w : width) (arith_nan : bool) (a b : Z) : Z :=
  if is_nan w a then propagate_nan w arith_nan a
  else if is_nan w b then propagate_nan w arith_nan b
  else if negb (Bool.eqb (sign_bit w a) (sign_bit w b)) then (if sign_bit w a then a else b)
  else if f_lt w a b then a else b.
Definition psizam_max (w : width) (arith_nan : bool) (a b : Z) : Z :=
  if is_nan w a then propagate_nan w arith_nan a
  else if is_nan w b then propagate_nan w arith_nan b
  else if negb (Bool.eqb (sign_bit w a) (sign_bit w b)) then (if sign_bit w a then b else a)
  else if f_lt w a b then b else a.

(** [a.v &= ~(1 << 31)] clears the sign; [~] is taken on the operand's width. *)
Definition not_ (w : width) (v : Z) : Z := 2 ^ bits w - 1 - v.
Definition sign_mask (w : width) : Z := Z.shiftl 1 (bits w - 1).
Definition psizam_copysign (w : width) (a b : Z) : Z :=
  Z.lor (Z.land a (not_ w (sign_mask w))) (Z.shiftl (Z.shiftr b (bits w - 1)) (bits w - 1)).
Definition psizam_abs (w : width) (a : Z) : Z := Z.land a (not_ w (sign_mask w)).
Definition psizam_neg (w : width) (a : Z) : Z :=
  let sign := Z.shiftr a (bits w - 1) in
  Z.lor (Z.land a (not_ w (sign_mask w))) (Z.shiftl (if sign =? 0 then 1 else 0) (bits w - 1)).

(** The unbiased exponent [(int)(a.v >> 23 & 0xFF) - 0x7F]. *)
Definition exponent (w : width) (a : Z) : Z := Z.land (Z.shiftr a (mbits w)) (emax w) - bias w.

Definition psizam_f32_ceil (arith_nan : bool) (a : Z) : Z :=
  let e := exponent W32 a in
  if arith_nan && is_nan W32 a then propagate_nan W32 arith_nan a
  else if 23 <=? e then a
  else if 0 <=? e then
    let m := Z.shiftr 0x007FFFFF e in
    if Z.land a m =? 0 then a
    else let v := if Z.shiftr a 31 =? 0 then wrap 32 (a + m) else a in Z.land v (not_ W32 m)
  else if negb (Z.shiftr a 31 =? 0) then 0x80000000
  else if negb (wrap 32 (Z.shiftl a 1) =? 0) then 0x3F800000 else a.

Definition psizam_f32_floor (arith_nan : bool) (a : Z) : Z :=
  let e := exponent W32 a in
  if arith_nan && is_nan W32 a then propagate_nan W32 arith_nan a
  else if 23 <=? e then a
  else if 0 <=? e then
    let m := Z.shiftr 0x007FFFFF e in
    if Z.land a m =? 0 then a
    else let v := if negb (Z.shiftr a 31 =? 0) then wrap 32 (a + m) else a in Z.land v (not_ W32 m)
  else if Z.shiftr a 31 =? 0 then 0
  else if negb (wrap 32 (Z.shiftl a 1) =? 0) then 0xBF800000 else a.

(** [_psizam_f32_trunc] and [_psizam_f64_trunc]; the guard bits in front of the
    mantissa are 9 for [float] and 12 for [double]. *)
Definition psizam_trunc (w : width) (arith_nan : bool) (a : Z) : Z :=
  let guard := bits w - mbits w in
  let e := exponent w a + guard in
  if arith_nan && is_nan w a then propagate_nan w arith_nan a
  else if mbits w + guard <=? e then a
  else let e := if e <? guard then 1 else e in
    let m := Z.shiftr (2 ^ bits w - 1) e in
    if Z.land a m =? 0 then a else Z.land a (not_ w m).

Definition inv_eps (w : width) : Z := match w with W32 => 0x4B000000 | W64 => 0x4330000000000000 end.

Definition psizam_nearest (w : width) (arith_nan : bool) (a : Z) : Z :=
  let e := Z.land (Z.shiftr a (mbits w)) (emax w) in
  let s := Z.shiftr a (bits w - 1) in
  if arith_nan && is_nan w a then propagate_nan w arith_nan a
  else if bias w + mbits w <=? e then a
  else let y := if negb (s =? 0) then sf_add w (sf_sub w a (inv_eps w)) (inv_eps w)
                else sf_sub w (sf_add w a (inv_eps w)) (inv_eps w) in
    if f_eq w y 0 then (if negb (s =? 0) then sign_mask w else 0) else y.

(** [int(x) - x] for an integer neighbour of [x], by adding and removing 2^52. *)
Definition f64_neighbour (a : Z) : Z :=
  if negb (Z.shiftr a 63 =? 0)
  then sf_sub W64 (sf_add W64 (sf_sub W64 a (inv_eps W64)) (inv_eps W64)) a
  else sf_sub W64 (sf_sub W64 (sf_add W64 a (inv_eps W64)) (inv_eps W64)) a.
Definition f64_one : Z := 0x3FF0000000000000.

Definition psizam_f64_ceil (arith_nan : bool) (a : Z) : Z :=
  let e := Z.land (Z.shiftr a 52) 0x7ff in
  if arith_nan && is_nan W64 a then propagate_nan W64 arith_nan a
  else if (0x3ff + 52 <=? e) || f_eq W64 a 0 then a
  else let y := f64_neighbour a in
    if e <=? 0x3ff - 1 then (if negb (Z.shiftr a 63 =? 0) then 0x8000000000000000 else f64_one)
    else if f_lt W64 y 0 then sf_add W64 (sf_add W64 a y) f64_one
    else sf_add W64 a y.

Definition psizam_f64_floor (arith_nan : bool) (a : Z) : Z :=
  let e := Z.land (Z.shiftr a 52) 0x7ff in
  if arith_nan && is_nan W64 a then propagate_nan W64 arith_nan a
  else if a =? 0x8000000000000000 then a
  else if (0x3ff + 52 <=? e) || (a =? 0) then a
  else let y := f64_neighbour a in
    if e <=? 0x3ff - 1 then (if negb (Z.shiftr a 63 =? 0) then 0xBFF0000000000000 else 0)
    else if negb (f_le W64 y 0) then sf_sub W64 (sf_add W64 a y) f64_one
    else sf_add W64 a y.

Definition psizam_gt (w : width) (a b : Z) : bool :=
  if is_nan w a then false else if is_nan w b then false else negb (f_le w a b).
Definition psizam_ge (w : width) (a b : Z) : bool :=
  if is_nan w a then false else if is_nan w b then false else negb (f_lt w a b).

(** ** Float to integer

    The range checks of each conversion, as the bit patterns of the source's
    literals: at or above the upper literal is an overflow; the lower literal
    is excluded ([lt]) or included ([le]). *)
Definition INT32_MIN : Z := - 2 ^ 31.
Definition INT32_MAX : Z := 2 ^ 31 - 1.
Definition INT64_MIN : Z := - 2 ^ 63.
Definition INT64_MAX : Z := 2 ^ 63 - 1.

Definition two_31 (w : width) : Z := match w with W32 => 0x4F000000 | W64 => 0x41E0000000000000 end.
Definition two_32 (w : width) : Z := match w with W32 => 0x4F800000 | W64 => 0x41F0000000000000 end.
Definition two_63 (w : width) : Z := match w with W32 => 0x5F000000 | W64 => 0x43E0000000000000 end.
Definition two_64 (w : width) : Z := match w with W32 => 0x5F800000 | W64 => 0x43F0000000000000 end.
Definition neg_two_31 (w : width) : Z := match w with W32 => 0xCF000000 | W64 => 0xC1E0000000000000 end.
Definition neg_two_63 (w : width) : Z := match w with W32 => 0xDF000000 | W64 => 0xC3E0000000000000 end.
Definition neg_one (w : width) : Z := match w with W32 => 0xBF800000 | W64 => 0xBFF0000000000000 end.
Definition neg_two_31_minus_1 : Z := 0xC1E0000000200000.

(** Overflow tests of [_psizam_f32_trunc_i32s] and its siblings; the f64/i32s
    one is the [FixedBound] instantiation the interpreter uses. *)
Definition trunc_overflow (w : width) (t : int_type) (a : Z) : bool :=
  match t, w with
  | TI32, W32 => psizam_ge w a (two_31 w) || f_lt w a (neg_two_31 w)
  | TI32, W64 => psizam_ge w a (two_31 w) || f_le w a neg_two_31_minus_1
  | TU32, _ => psizam_ge w a (two_32 w) || f_le w a (neg_one w)
  | TI64, _ => psizam_ge w a (two_63 w) || f_lt w a (neg_two_63 w)
  | TU64, _ => psizam_ge w a (two_64 w) || f_le w a (neg_one w)
  end.

Definition conv_msg (verb : string) (w : width) (t : int_type) (what : string) : string :=
  ("Error, f" ++ (match w with W32 => "32" | W64 => "64" end) ++ "." ++ verb ++
   (match t with TI32 => "_s/i32" | TU32 => "_u/i32" | TI64 => "_s/i64" | TU64 => "_u/i64" end) ++
   " " ++ what)%string.

Definition psizam_trunc_int {S} (w : width) (t : int_type) (a : Z) : M S Z :=
  psizam_assert (negb (trunc_overflow w t a)) wasm_interpreter_exception (conv_msg "convert" w t "overflow") ;;;
  psizam_assert (negb (is_nan w a)) wasm_interpreter_exception (conv_msg "convert" w t "unrepresentable") ;;;
  ret (sf_to_int w t (psizam_trunc w false a)).

(** [_psizam_i32_trunc_sat_f32_s] and its siblings. *)
Definition psizam_trunc_sat (w : width) (t : int_type) (a : Z) : Z :=
  if is_nan w a then 0 else
  match t with
  | TI32 => if psizam_ge w a (two_31 w) then INT32_MAX
            else if f_lt w a (neg_two_31 w) then INT32_MIN else sf_to_int_minMag w t a
  | TU32 => if psizam_ge w a (two_32 w) then UINT32_MAX
            else if f_le w a (neg_one w) then 0 else sf_to_int_minMag w t a
  | TI64 => if psizam_ge w a (two_63 w) then INT64_MAX
            else if f_lt w a (neg_two_63 w) then INT64_MIN else sf_to_int_minMag w t a
  | TU64 => if psizam_ge w a (two_64 w) then UINT64_MAX
            else if f_le w a (neg_one w) then 0 else sf_to_int_minMag w t a
  end.

End Wrappers.

(** ** Values

    A finite float is [fval] times the least positive subnormal; [one w] is 1.0
    in that unit.  Infinities fall above every finite magnitude. *)
Definition mag (w : width) (u : Z) : Z :=
  let e := u / 2 ^ mbits w in
  let m := u mod 2 ^ mbits w in
  if e =? 0 then m else (2 ^ mbits w + m) * 2 ^ (e - 1).
Definition fval (w : width) (v : Z) : Z :=
  if sign_bit w v then - mag w (low_bits w v) else mag w (low_bits w v).
Definition one (w : width) : Z := 2 ^ (bias w + mbits w - 1).

Section Values.
Context (w : width).

Lemma bits_pos : 0 < mbits w /\ mbits w < bits w - 1 /\ 0 < bias w.
Proof. destruct w; cbn; lia. Qed.

Lemma low_bits_range v : 0 <= low_bits w v < 2 ^ (bits w - 1).
Proof.
  unfold low_bits. pose proof bits_pos. rewrite land_ones_mod by lia.
  apply Z.mod_pos_bound, Z.pow_pos_nonneg; lia.
Qed.

(** A pattern is its sign and its low bits. *)
Lemma split_sign v : in_u (bits w) v ->
  v = (if sign_bit w v then 2 ^ (bits w - 1) else 0) + low_bits w v.
Proof.
  intros Hv. unfold in_u in Hv. pose proof bits_pos as (H1 & H2 & H3). unfold sign_bit, low_bits.
  rewrite land_ones_mod, Z.shiftr_div_pow2 by lia.
  assert (Hp : 0 < 2 ^ (bits w - 1)) by (apply Z.pow_pos_nonneg; lia).
  assert (E : 2 ^ bits w = 2 * 2 ^ (bits w - 1)) by (apply pow_half; lia).
  pose proof (Z.div_mod v (2 ^ (bits w - 1)) ltac:(lia)) as Ed.
  pose proof (Z.mod_pos_bound v _ Hp).
  destruct (Z.eqb_spec (v / 2 ^ (bits w - 1)) 1) as [E1|E1]; [rewrite E1 in Ed; lia|].
  assert (v / 2 ^ (bits w - 1) = 0) by nia. nia.
Qed.

Lemma mag_nonneg u : 0 <= u -> 0 <= mag w u.
Proof.
  intros Hu. unfold mag. pose proof bits_pos.
  assert (0 < 2 ^ mbits w) by (apply Z.pow_pos_nonneg; lia).
  pose proof (Z.mod_pos_bound u (2 ^ mbits w) ltac:(lia)).
  destruct (_ =? 0); [lia|]. apply Z.mul_nonneg_nonneg; [lia|]. apply Z.pow_nonneg; lia.
Qed.

(** The encoding of magnitudes is monotone: bit patterns compare as values. *)
Lemma mag_mono u u' : 0 <= u -> u < u' -> mag w u < mag w u'.
Proof.
  intros Hu Hlt. unfold mag. pose proof bits_pos as (H1 & H2 & H3).
  set (B := 2 ^ mbits w). assert (HB : 0 < B) by (apply Z.pow_pos_nonneg; lia).
  pose proof (Z.div_mod u B ltac:(lia)) as E. pose proof (Z.div_mod u' B ltac:(lia)) as E'.
  pose proof (Z.mod_pos_bound u B HB) as Hm. pose proof (Z.mod_pos_bound u' B HB) as Hm'.
  assert (He : 0 <= u / B <= u' / B) by (split; [apply Z.div_pos; lia|apply Z.div_le_mono; lia]).
  set (e := u / B) in *. set (e' := u' / B) in *. set (m := u mod B) in *. set (m' := u' mod B) in *.
  destruct (Z.eq_dec e e') as [Ee|Ee].
  - rewrite <- Ee in *. destruct (Z.eqb_spec e 0); [nia|].
    apply Z.mul_lt_mono_pos_r; [apply Z.pow_pos_nonneg; lia|nia].
  - destruct (Z.eqb_spec e' 0); [lia|].
    assert (Hp : 0 < 2 ^ (e' - 1)) by (apply Z.pow_pos_nonneg; lia).
    destruct (Z.eqb_spec e 0); [nia|].
    assert (Hle : 2 ^ e <= 2 ^ (e' - 1)) by (apply Z.pow_le_mono_r; lia).
    assert (E2 : 2 ^ e = 2 * 2 ^ (e - 1)) by (apply pow_half; lia).
    assert (0 < 2 ^ (e - 1)) by (apply Z.pow_pos_nonneg; lia). nia.
Qed.

Lemma mag_lt_iff u u' : 0 <= u -> 0 <= u' -> (mag w u < mag w u' <-> u < u').
Proof.
  intros. split; [|now apply mag_mono]. intros Hlt.
  destruct (Z.lt_total u u') as [?|[->|Hgt]]; [auto|lia|]. apply mag_mono in Hgt; lia.
Qed.

Lemma mag_zero : mag w 0 = 0.
Proof. destruct w; reflexivity. Qed.

Lemma mag_eq_iff u u' : 0 <= u -> 0 <= u' -> (mag w u = mag w u' <-> u = u').
Proof. intros H H'. pose proof (mag_lt_iff u u' H H'). pose proof (mag_lt_iff u' u H' H). lia. Qed.

Lemma both_zero_iff a b : in_u (bits w) a -> in_u (bits w) b ->
  both_zero w a b = true <-> low_bits w a = 0 /\ low_bits w b = 0.
Proof.
  intros Ha Hb. unfold both_zero. rewrite Z.eqb_eq. pose proof bits_pos.
  assert (E : wrap (bits w) (Z.shiftl (Z.lor a b) 1) = Z.shiftl (Z.lor (low_bits w a) (low_bits w b)) 1).
  { apply Z.bits_inj'. intros i Hi. unfold wrap, low_bits.
    destruct (Z.lt_ge_cases i (bits w)).
    - rewrite Z.mod_pow2_bits_low, !Z.shiftl_spec, !Z.lor_spec by lia.
      rewrite !land_ones_mod by lia. destruct (Z.lt_ge_cases (i - 1) 0).
      + now rewrite !Z.testbit_neg_r by lia.
      + rewrite !Z.mod_pow2_bits_low by lia. reflexivity.
    - rewrite Z.mod_pow2_bits_high, Z.shiftl_spec, Z.lor_spec by lia.
      rewrite !land_ones_mod, !Z.mod_pow2_bits_high by lia. reflexivity. }
  rewrite E, Z.shiftl_eq_0_iff, Z.lor_eq_0_iff by lia. reflexivity.
Qed.

(** Order of values by sign and low bits. *)
Lemma fval_lt_iff a b :
  fval w a < fval w b <->
  match sign_bit w a, sign_bit w b with
  | false, false => low_bits w a < low_bits w b
  | true, true => low_bits w b < low_bits w a
  | true, false => ~ (low_bits w a = 0 /\ low_bits w b = 0)
  | false, true => False
  end.
Proof.
  unfold fval. pose proof (low_bits_range a) as Ra. pose proof (low_bits_range b) as Rb.
  pose proof (mag_lt_iff (low_bits w a) (low_bits w b)) as L.
  pose proof (mag_lt_iff (low_bits w b) (low_bits w a)) as L'.
  pose proof (mag_nonneg (low_bits w a)). pose proof (mag_nonneg (low_bits w b)).
  pose proof mag_zero as E0.
  pose proof (mag_eq_iff (low_bits w a) 0). pose proof (mag_eq_iff (low_bits w b) 0).
  rewrite E0 in *. destruct (sign_bit w a), (sign_bit w b); lia.
Qed.

Lemma fval_eq_iff a b : in_u (bits w) a -> in_u (bits w) b ->
  fval w a = fval w b <-> a = b \/ (low_bits w a = 0 /\ low_bits w b = 0).
Proof.
  intros Ha Hb. pose proof (fval_lt_iff a b) as L. pose proof (fval_lt_iff b a) as L'.
  pose proof (low_bits_range a). pose proof (low_bits_range b).
  pose proof (split_sign a Ha) as Ea. pose proof (split_sign b Hb) as Eb.
  assert (0 < 2 ^ (bits w - 1)) by (apply Z.pow_pos_nonneg; pose proof bits_pos; lia).
  destruct (sign_bit w a), (sign_bit w b); lia.
Qed.

Lemma f_lt_spec a b : in_u (bits w) a -> in_u (bits w) b ->
  f_lt w a b = true <-> is_nan w a = false /\ is_nan w b = false /\ fval w a < fval w b.
Proof.
  intros Ha Hb. unfold f_lt. destruct (is_nan w a), (is_nan w b); cbn [orb].
  all: try (split; [discriminate|intros (? & ? & _); discriminate]).
  rewrite fval_lt_iff. pose proof (both_zero_iff a b Ha Hb) as Z0.
  pose proof (split_sign a Ha) as Ea. pose proof (split_sign b Hb) as Eb.
  destruct (sign_bit w a), (sign_bit w b), (both_zero w a b), (Z.eqb_spec a b), (Z.ltb_spec a b);
    cbn; intuition (try discriminate; try lia).
Qed.

Lemma f_eq_spec a b : in_u (bits w) a -> in_u (bits w) b ->
  f_eq w a b = true <-> is_nan w a = false /\ is_nan w b = false /\ fval w a = fval w b.
Proof.
  intros Ha Hb. unfold f_eq. destruct (is_nan w a), (is_nan w b); cbn [orb];
    try (split; [discriminate|intros (? & ? & _); discriminate]).
  rewrite fval_eq_iff, orb_true_iff, Z.eqb_eq, both_zero_iff by auto. tauto.
Qed.

Lemma f_le_spec a b : in_u (bits w) a -> in_u (bits w) b ->
  f_le w a b = true <-> is_nan w a = false /\ is_nan w b = false /\ fval w a <= fval w b.
Proof.
  intros Ha Hb. assert (E : f_le w a b = f_lt w a b || f_eq w a b).
  { unfold f_le, f_lt, f_eq. destruct (is_nan w a || is_nan w b); [reflexivity|].
    pose proof (split_sign a Ha) as Ea. pose proof (split_sign b Hb) as Eb.
    pose proof (both_zero_iff a b Ha Hb) as Z0. pose proof (low_bits_range a). pose proof (low_bits_range b).
    assert (0 < 2 ^ (bits w - 1)) by (apply Z.pow_pos_nonneg; pose proof bits_pos; lia).
    destruct (sign_bit w a), (sign_bit w b), (Z.eqb_spec a b), (Z.ltb_spec a b), (both_zero w a b);
      cbn; try reflexivity; exfalso; try lia; destruct (proj1 Z0 eq_refl); lia. }
  rewrite E, orb_true_iff, f_lt_spec, f_eq_spec by auto.
  destruct (is_nan w a), (is_nan w b); intuition (try discriminate; try lia).
Qed.

End Values.

(** ** Rounding to an integral value *)
Section Rounding.
Context (w : width).

Lemma land_not n v m : 0 <= n -> in_u n v -> in_u n m -> Z.land v (2 ^ n - 1 - m) = Z.ldiff v m.
Proof.
  intros Hn Hv Hm. replace (2 ^ n - 1 - m) with (Z.lnot m mod 2 ^ n).
  - apply Z.bits_inj'. intros i Hi. rewrite Z.land_spec, Z.ldiff_spec.
    destruct (Z.lt_ge_cases i n).
    + rewrite Z.mod_pow2_bits_low, Z.lnot_spec by lia. reflexivity.
    + now rewrite (testbit_high n v) by auto.
  - unfold in_u in *. unfold Z.lnot. rewrite <- (Z_mod_plus_full _ 1). rewrite Z.mod_small; lia.
Qed.

Lemma clear_low n t v : 0 <= t <= n -> in_u n v -> Z.land v (2 ^ n - 1 - (2 ^ t - 1)) = v / 2 ^ t * 2 ^ t.
Proof.
  intros Ht Hv. assert (2 ^ t <= 2 ^ n) by (apply Z.pow_le_mono_r; lia).
  assert (0 < 2 ^ t) by (apply Z.pow_pos_nonneg; lia).
  rewrite land_not by (unfold in_u in *; lia).
  replace (2 ^ t - 1) with (Z.ones t) by (rewrite Z.ones_equiv; lia).
  rewrite Z.ldiff_ones_r, Z.shiftl_mul_pow2, Z.shiftr_div_pow2 by lia. reflexivity.
Qed.

Lemma mask_shift n k : 0 <= k <= n -> Z.shiftr (2 ^ n - 1) k = 2 ^ (n - k) - 1.
Proof.
  intros H. rewrite Z.shiftr_div_pow2 by lia.
  replace (2 ^ n) with (2 ^ (n - k) * 2 ^ k) by (rewrite <- Z.pow_add_r by lia; f_equal; lia).
  assert (0 < 2 ^ k) by (apply Z.pow_pos_nonneg; lia).
  symmetry. apply (Z.div_unique _ _ _ (2 ^ k - 1)); lia.
Qed.

(** The exponent field is the quotient of the low bits. *)
Lemma exponent_eq a : in_u (bits w) a ->
  Z.land (Z.shiftr a (mbits w)) (emax w) = low_bits w a / 2 ^ mbits w.
Proof.
  intros Ha. unfold low_bits. pose proof (bits_pos w) as (H1 & H2 & H3).
  replace (emax w) with (2 ^ (bits w - 1 - mbits w) - 1) by (destruct w; reflexivity).
  rewrite !land_ones_mod by lia. rewrite <- Z.shiftr_div_pow2 by lia.
  apply Z.bits_inj'. intros i Hi. rewrite Z.shiftr_spec by lia.
  destruct (Z.lt_ge_cases i (bits w - 1 - mbits w)).
  - rewrite !Z.mod_pow2_bits_low, Z.shiftr_spec by lia. reflexivity.
  - rewrite !Z.mod_pow2_bits_high by lia. reflexivity.
Qed.

Context (u : Z) (Hu : 0 <= u).
Let B := 2 ^ mbits w.
Let e := u / B.
Let m := u mod B.

Lemma B_pos : 0 < B.
Proof. apply Z.pow_pos_nonneg; pose proof (bits_pos w); lia. Qed.

Lemma u_split : u = e * B + m /\ 0 <= m < B /\ 0 <= e.
Proof.
  pose proof B_pos. pose proof (Z.div_mod u B ltac:(lia)). pose proof (Z.mod_pos_bound u B ltac:(lia)).
  unfold e, m. repeat split; try lia. apply Z.div_pos; lia.
Qed.

(** Reading a magnitude from an explicit exponent and mantissa. *)
Lemma mag_of e0 m0 : 0 < e0 -> 0 <= m0 < B -> mag w (e0 * B + m0) = (B + m0) * 2 ^ (e0 - 1).
Proof.
  intros He Hm. unfold mag. fold B. pose proof B_pos.
  replace ((e0 * B + m0) / B) with e0 by (apply (Z.div_unique _ _ _ m0); lia).
  replace ((e0 * B + m0) mod B) with m0 by (apply (Z.mod_unique _ _ e0); lia).
  destruct (Z.eqb_spec e0 0); [lia|reflexivity].
Qed.

(** At least 2^mbits: integral already. *)
Lemma mag_integral : bias w + mbits w <= e -> mag w u mod one w = 0.
Proof.
  intros He. destruct u_split as (Eu & Hm & He0). pose proof (bits_pos w) as (H1 & H2 & H3).
  rewrite Eu, mag_of by lia. unfold one.
  replace (2 ^ (e - 1)) with (2 ^ (e - (bias w + mbits w)) * 2 ^ (bias w + mbits w - 1))
    by (rewrite <- Z.pow_add_r by lia; f_equal; lia).
  rewrite Z.mul_assoc. apply Z.mod_mul. apply Z.pow_nonzero; lia.
Qed.

(** Below 1.0: the exponent is below the bias. *)
Lemma mag_fraction : e < bias w -> 0 <= mag w u < one w.
Proof.
  intros He. split; [now apply mag_nonneg|]. destruct u_split as (Eu & Hm & He0).
  pose proof (bits_pos w) as (H1 & H2 & H3). pose proof B_pos.
  replace (one w) with (mag w (bias w * B + 0)).
  - apply mag_mono; [lia|]. nia.
  - rewrite mag_of by lia. unfold one, B. rewrite Z.add_0_r, <- Z.pow_add_r by lia. f_equal. lia.
Qed.

(** In between, [t] bits of the mantissa are the fraction. *)
Section Middle.
Context (He : bias w <= e < bias w + mbits w).
Let t := bias w + mbits w - e.
Let T := 2 ^ t.

Lemma T_divides : exists q, 0 < T /\ 0 < q /\ B = q * T /\ one w = T * 2 ^ (e - 1) /\ 0 < 2 ^ (e - 1).
Proof.
  pose proof (bits_pos w) as (H1 & H2 & H3). exists (2 ^ (mbits w - t)). unfold B, T, one.
  repeat split; try (apply Z.pow_pos_nonneg; unfold t; lia);
    rewrite <- Z.pow_add_r by (unfold t; lia); f_equal; unfold t; lia.
Qed.

Lemma clear_split : u / T * T = e * B + m / T * T.
Proof.
  destruct T_divides as (q & HT & Hq & EB & _ & _). destruct u_split as (Eu & Hm & He0).
  rewrite Eu at 1. rewrite EB.
  replace (e * (q * T) + m) with (m + e * q * T) by lia. rewrite Z.div_add by lia. lia.
Qed.

Lemma mag_clear : mag w (u / T * T) = mag w u / one w * one w.
Proof.
  destruct T_divides as (q & HT & Hq & EB & E1 & Hp). destruct u_split as (Eu & Hm & He0).
  pose proof (Z.div_mod m T ltac:(lia)). pose proof (Z.mod_pos_bound m T HT).
  pose proof (Z.div_pos m T ltac:(lia) HT). pose proof (bits_pos w) as (? & ? & ?).
  rewrite clear_split, mag_of by nia. rewrite Eu at 1. rewrite mag_of by lia.
  rewrite E1, Z.div_mul_cancel_r by lia. rewrite EB at 2.
  replace (q * T + m) with (m + q * T) by lia. rewrite Z.div_add by lia. rewrite EB. lia.
Qed.

(** The next grid point, the carry into the exponent included. *)
Lemma mag_next : mag w (u / T * T + T) = mag w (u / T * T) + one w.
Proof.
  destruct T_divides as (q & HT & Hq & EB & E1 & Hp). destruct u_split as (Eu & Hm & He0).
  pose proof (Z.div_mod m T ltac:(lia)). pose proof (Z.mod_pos_bound m T HT).
  pose proof (Z.div_pos m T ltac:(lia) HT). pose proof (bits_pos w) as (? & ? & ?).
  rewrite clear_split. assert (Hlt : m / T * T < B) by nia.
  assert (Hle : m / T * T + T <= B).
  { assert (m / T < q) by nia. nia. }
  rewrite (mag_of e (m / T * T)) by nia.
  destruct (Z.eq_dec (m / T * T + T) B) as [Ec|Ec].
  - replace (e * B + m / T * T + T) with ((e + 1) * B + 0) by lia.
    rewrite mag_of by lia. replace (e + 1 - 1) with (1 + (e - 1)) by lia.
    rewrite Z.pow_add_r by lia. rewrite E1. nia.
  - replace (e * B + m / T * T + T) with (e * B + (m / T * T + T)) by lia.
    rewrite mag_of by nia. rewrite E1. nia.
Qed.

Lemma frac_zero : u mod T = 0 <-> mag w u mod one w = 0.
Proof.
  destruct T_divides as (q & HT & Hq & EB & E1 & Hp).
  pose proof (Z.div_mod u T ltac:(lia)) as Ed. pose proof (Z.mod_pos_bound u T HT).
  assert (Ho : 0 < one w) by (rewrite E1; nia).
  pose proof (Z.div_mod (mag w u) (one w) ltac:(lia)) as Em.
  pose proof mag_clear as Ec. pose proof (Z.div_pos u T Hu HT).
  pose proof (mag_eq_iff w (u / T * T) u ltac:(nia) Hu) as Ei. split; intros Hz.
  - replace (u / T * T) with u in Ec by lia. lia.
  - assert (mag w (u / T * T) = mag w u) by lia. assert (u / T * T = u) by (now apply Ei). lia.
Qed.

End Middle.
End Rounding.

Section Results.
Context (w : width).
Let P := 2 ^ (bits w - 1).

Definition pattern (s : bool) (x : Z) : Z := (if s then 2 ^ (bits w - 1) else 0) + x.

Lemma P_pos : 0 < P.
Proof. apply Z.pow_pos_nonneg; pose proof (bits_pos w); lia. Qed.

Lemma pattern_range s x : 0 <= x < P -> in_u (bits w) (pattern s x).
Proof.
  intros H. unfold in_u, pattern. fold P. pose proof (bits_pos w).
  rewrite (pow_half (bits w)) by lia. fold P. destruct s; lia.
Qed.

Lemma pattern_split s x : 0 <= x < P -> sign_bit w (pattern s x) = s /\ low_bits w (pattern s x) = x.
Proof.
  intros Hx. pose proof (split_sign w _ (pattern_range s x Hx)) as E.
  pose proof (low_bits_range w (pattern s x)) as R. unfold pattern in *. fold P in E, R |- *.
  destruct s, (sign_bit w _); split; (reflexivity || lia).
Qed.

Lemma fval_pattern s x : 0 <= x < P -> fval w (pattern s x) = if s then - mag w x else mag w x.
Proof. intros Hx. unfold fval. destruct (pattern_split s x Hx) as [-> ->]. reflexivity. Qed.

Lemma pattern_of a : in_u (bits w) a -> a = pattern (sign_bit w a) (low_bits w a).
Proof. exact (split_sign w a). Qed.

(** Clearing [t] low bits, or testing them, acts on the magnitude. *)
Lemma pattern_div s x t : 0 <= t <= bits w - 1 -> pattern s x / 2 ^ t * 2 ^ t = pattern s (x / 2 ^ t * 2 ^ t).
Proof.
  intros Ht. unfold pattern. assert (0 < 2 ^ t) by (apply Z.pow_pos_nonneg; lia).
  replace (2 ^ (bits w - 1)) with (2 ^ (bits w - 1 - t) * 2 ^ t)
    by (rewrite <- Z.pow_add_r by lia; f_equal; lia).
  destruct s; [|reflexivity]. rewrite (Z.add_comm _ x), Z.div_add by lia. lia.
Qed.

Lemma clear_pattern a t : in_u (bits w) a -> 0 <= t <= bits w - 1 ->
  Z.land a (not_ w (2 ^ t - 1)) = pattern (sign_bit w a) (low_bits w a / 2 ^ t * 2 ^ t).
Proof.
  intros Ha Ht. unfold not_. rewrite clear_low by (auto; lia).
  rewrite (pattern_of a Ha) at 1. now apply pattern_div.
Qed.

Lemma test_pattern a t : in_u (bits w) a -> 0 <= t <= bits w - 1 ->
  Z.land a (2 ^ t - 1) = low_bits w a mod 2 ^ t.
Proof.
  intros Ha Ht. rewrite land_ones_mod by lia. unfold low_bits. rewrite land_ones_mod by lia.
  symmetry. apply Z.mod_mod_divide. exists (2 ^ (bits w - 1 - t)).
  rewrite <- Z.pow_add_r by lia. f_equal. lia.
Qed.

Lemma clear_range x t : 0 <= x < P -> 0 <= t -> 0 <= x / 2 ^ t * 2 ^ t < P.
Proof.
  intros Hx Ht. assert (0 < 2 ^ t) by (apply Z.pow_pos_nonneg; lia).
  pose proof (Z.div_mod x (2 ^ t) ltac:(lia)). pose proof (Z.mod_pos_bound x (2 ^ t) ltac:(lia)).
  pose proof (Z.div_pos x (2 ^ t)). nia.
Qed.

Lemma one_pos : 0 < one w.
Proof. apply Z.pow_pos_nonneg; pose proof (bits_pos w); lia. Qed.

(** Integral values and fractions under the three roundings. *)
Lemma round_integral s M : M mod one w = 0 ->
  let v := if s : bool then - M else M in
  Z.quot v (one w) * one w = v /\ v / one w * one w = v /\ - (- v / one w * one w) = v.
Proof.
  intros HM v. pose proof one_pos. assert (E : exists k, v = k * one w).
  { exists (if s then - (M / one w) else M / one w). pose proof (Z.div_mod M (one w)). destruct s; subst v; nia. }
  destruct E as [k ->]. rewrite Z.quot_mul, Z.div_mul by lia.
  replace (- (k * one w)) with (- k * one w) by lia. rewrite Z.div_mul by lia. lia.
Qed.

Lemma quot_mag s M : 0 <= M ->
  Z.quot (if s : bool then - M else M) (one w) * one w = if s then - (M / one w * one w) else M / one w * one w.
Proof.
  intros HM. pose proof one_pos. destruct s; rewrite ?Z.quot_opp_l, Z.quot_div_nonneg by lia; lia.
Qed.

(** [f32.trunc] and [f64.trunc] are exact: for every pattern that is not a
    NaN, the bit-masking code yields the value rounded toward zero to an
    integer ([fval] is the value in units of the least subnormal). *)
Theorem psizam_trunc_value arith_nan a :
  in_u (bits w) a -> is_nan w a = false ->
  fval w (psizam_trunc w arith_nan a) = Z.quot (fval w a) (one w) * one w.
Proof.
  intros Ha Hn. unfold psizam_trunc, exponent. rewrite Hn, andb_false_r, exponent_eq by auto.
  set (u := low_bits w a). assert (Ru : 0 <= u < P) by apply low_bits_range.
  set (E := u / 2 ^ mbits w). pose proof (bits_pos w) as (B1 & B2 & B3).
  assert (Fa : fval w a = if sign_bit w a then - mag w u else mag w u) by reflexivity.
  pose proof (mag_nonneg w u ltac:(lia)) as Hm.
  destruct (Z.leb_spec (mbits w + (bits w - mbits w)) (E - bias w + (bits w - mbits w))) as [Hbig|Hbig].
  { symmetry. rewrite Fa. apply round_integral, mag_integral; [lia|]. fold E. lia. }
  destruct (Z.ltb_spec (E - bias w + (bits w - mbits w)) (bits w - mbits w)) as [Hsm|Hsm].
  - rewrite mask_shift by lia. rewrite test_pattern, Z.mod_small by (auto; fold u P; lia). fold u.
    destruct (mag_fraction w u ltac:(lia) ltac:(fold E; lia)) as [_ Hf].
    rewrite Fa, quot_mag, (Z.div_small (mag w u)) by lia.
    destruct (Z.eqb_spec u 0) as [E0|E0].
    + rewrite Fa, E0, mag_zero. destruct (sign_bit w a); lia.
    + rewrite clear_pattern, Z.div_small by (auto; fold u P; lia).
      rewrite fval_pattern, Z.mul_0_l, mag_zero by (pose proof P_pos; lia). destruct (sign_bit w a); lia.
  - replace (bits w - (bits w - mbits w)) with (mbits w) in * by lia.
    rewrite mask_shift by lia.
    replace (bits w - (E - bias w + (bits w - mbits w))) with (bias w + mbits w - E) by lia.
    rewrite test_pattern by (auto; lia). fold u.
    destruct (Z.eqb_spec (u mod 2 ^ (bias w + mbits w - E)) 0) as [E0|E0].
    + symmetry. rewrite Fa. apply round_integral. apply (frac_zero w u); [lia|fold E; lia|exact E0].
    + rewrite clear_pattern by (auto; lia). fold u.
      rewrite fval_pattern by (apply clear_range; lia). rewrite Fa, quot_mag by lia.
      unfold E. rewrite (mag_clear w u) by (fold E; lia). reflexivity.
Qed.

End Results.

Lemma psizam_trunc_value_witness :
  fval W32 (psizam_trunc W32 true 0xC0700000) = Z.quot (fval W32 0xC0700000) (one W32) * one W32 /\
  psizam_trunc W32 true 0xC0700000 = 0xC0400000.
Proof.
  split; [apply (psizam_trunc_value W32 true 0xC0700000)|]; (reflexivity || (vm_compute; split; congruence)).
Defined.

(** ** [f32.floor] and [f32.ceil]

    Both round a magnitude down, or up when it has a fraction and the sign asks
    for it. *)
Section FloorCeil.
Context (a : Z) (Ha : in_u 32 a) (Hn : is_nan W32 a = false).
Let u := low_bits W32 a.
Let E := u / 2 ^ 23.
Let s := sign_bit W32 a.

Lemma fc_u : 0 <= u < 2 ^ 31.
Proof. apply (low_bits_range W32). Qed.

Lemma fc_sign : (Z.shiftr a 31 =? 0) = negb s.
Proof.
  pose proof (split_sign W32 a Ha) as Es. pose proof fc_u as Hu. fold u s in Es.
  rewrite Z.shiftr_div_pow2 by lia. rewrite Es. destruct s; cbn [negb]; change (bits W32 - 1) with 31.
  - replace ((2 ^ 31 + u) / 2 ^ 31) with 1; [reflexivity|]. apply (Z.div_unique _ _ _ u); lia.
  - rewrite Z.div_small by lia. reflexivity.
Qed.

Lemma fc_zero : (wrap 32 (Z.shiftl a 1) =? 0) = (u =? 0).
Proof.
  pose proof (both_zero_iff W32 a a Ha Ha) as Hz. unfold both_zero in Hz. rewrite Z.lor_diag in Hz.
  apply eq_bool_prop_intro. rewrite !Is_true_true. change (bits W32) with 32 in Hz.
  rewrite Hz, Z.eqb_eq. fold u. tauto.
Qed.

Lemma fc_val : fval W32 a = if s then - mag W32 u else mag W32 u.
Proof. reflexivity. Qed.

(** Magnitude rounded up: the masked sum carries exactly one grid step. *)
Lemma fc_up : 127 <= E < 150 -> u mod 2 ^ (150 - E) <> 0 ->
  let v := Z.land (wrap 32 (a + (2 ^ (150 - E) - 1))) (not_ W32 (2 ^ (150 - E) - 1)) in
  fval W32 v = (if s then -1 else 1) * (mag W32 u / one W32 * one W32 + one W32).
Proof.
  intros HE Hm v. set (T := 2 ^ (150 - E)) in *.
  assert (HT : 0 < T <= 2 ^ 23).
  { split; [apply Z.pow_pos_nonneg; lia|]. apply Z.pow_le_mono_r; lia. }
  pose proof fc_u as Hu. pose proof (Z.div_mod u T ltac:(lia)) as Ed. pose proof (Z.mod_pos_bound u T ltac:(lia)).
  assert (Hub : u < 150 * 2 ^ 23).
  { pose proof (Z.div_mod u (2 ^ 23) ltac:(lia)). pose proof (Z.mod_pos_bound u (2 ^ 23) ltac:(lia)).
    unfold E in HE. nia. }
  assert (Ea : a + (T - 1) = pattern W32 s (u + (T - 1))).
  { rewrite (pattern_of W32 a Ha) at 1. unfold pattern. fold u s. lia. }
  assert (Er : 0 <= u + (T - 1) < 2 ^ 31) by lia.
  assert (Ev : v = pattern W32 s (u / T * T + T)).
  { unfold v. rewrite Ea, wrap_small by (apply (pattern_range W32); exact Er).
    pose proof (clear_pattern W32 (pattern W32 s (u + (T - 1))) (150 - E)
      (pattern_range W32 _ _ Er) ltac:(cbn; lia)) as Ecp. fold T in Ecp. rewrite Ecp.
    destruct (pattern_split W32 s (u + (T - 1)) Er) as [-> ->]. f_equal.
    replace ((u + (T - 1)) / T) with (u / T + 1); [lia|]. apply (Z.div_unique _ _ _ (u mod T - 1)); lia. }
  assert (0 <= u / T) by (apply Z.div_pos; lia).
  rewrite Ev, fval_pattern by (change (bits W32 - 1) with 31; nia). unfold T, E.
  pose proof (mag_next W32 u ltac:(lia)) as En. pose proof (mag_clear W32 u ltac:(lia)) as Ec.
  change (bias W32 + mbits W32) with 150 in En, Ec. change (mbits W32) with 23 in En, Ec.
  fold E in En, Ec |- *. change (bias W32) with 127 in *.
  rewrite En, Ec by lia. destruct s; lia.
Qed.

Lemma fc_down t : 0 <= t <= 31 ->
  fval W32 (Z.land a (not_ W32 (2 ^ t - 1))) = (if s then -1 else 1) * mag W32 (u / 2 ^ t * 2 ^ t).
Proof.
  intros Ht. rewrite (clear_pattern W32) by (auto; exact Ht). fold u s.
  rewrite fval_pattern by (apply (clear_range W32); [exact fc_u|lia]). destruct s; lia.
Qed.

Lemma fc_mask : 0 <= E - 127 <= 23 -> Z.shiftr 0x007FFFFF (E - 127) = 2 ^ (150 - E) - 1.
Proof.
  intros H. change 0x007FFFFF with (2 ^ 23 - 1). rewrite mask_shift by lia. do 2 f_equal. lia.
Qed.

Lemma fc_clear : 127 <= E < 150 ->
  mag W32 (u / 2 ^ (150 - E) * 2 ^ (150 - E)) = mag W32 u / one W32 * one W32.
Proof.
  intros HE. pose proof fc_u. pose proof (mag_clear W32 u ltac:(lia)) as Ec.
  change (bias W32 + mbits W32) with 150 in Ec. change (mbits W32) with 23 in Ec. now apply Ec.
Qed.

Lemma fc_frac : 127 <= E < 150 ->
  u mod 2 ^ (150 - E) = 0 <-> mag W32 u mod one W32 = 0.
Proof.
  intros HE. pose proof fc_u. pose proof (frac_zero W32 u ltac:(lia)) as Ef.
  change (bias W32 + mbits W32) with 150 in Ef. change (mbits W32) with 23 in Ef. now apply Ef.
Qed.

End FloorCeil.

(** Floor of a signed magnitude, with and without a fraction. *)
Lemma floor_mag (s : bool) M o : 0 < o -> 0 <= M -> M mod o <> 0 ->
  (if s then - M else M) / o * o = if s then - (M / o * o + o) else M / o * o.
Proof.
  intros Ho HM Hf. pose proof (Z.div_mod M o ltac:(lia)). pose proof (Z.mod_pos_bound M o Ho).
  destruct s; [|reflexivity].
  replace (- M / o) with (- (M / o) - 1); [lia|]. apply (Z.div_unique _ _ _ (o - M mod o)); lia.
Qed.

(** [f32.floor] is exact: for every pattern that is not a NaN the result's
    value is the greatest integer below, including the carry from the mantissa
    into the exponent and the results -1.0 and 0 below one. *)
Lemma floor_exact arith_nan a :
  in_u 32 a -> is_nan W32 a = false ->
  fval W32 (psizam_f32_floor arith_nan a) = fval W32 a / one W32 * one W32.
Proof.
  intros Ha Hn. unfold psizam_f32_floor, exponent. cbv zeta. rewrite Hn, andb_false_r, (exponent_eq W32) by auto.
  rewrite (fc_sign a Ha), (fc_zero a Ha). set (u := low_bits W32 a). set (s := sign_bit W32 a).
  change (mbits W32) with 23. change (bias W32) with 127. set (E := u / 2 ^ 23).
  assert (Hu : 0 <= u < 2 ^ 31) by exact (fc_u a). pose proof (mag_nonneg W32 u ltac:(lia)) as Hm.
  assert (Fa : fval W32 a = if s then - mag W32 u else mag W32 u) by reflexivity.
  pose proof (one_pos W32) as Ho.
  destruct (Z.leb_spec 23 (E - 127)) as [Hbig|Hbig].
  { symmetry. rewrite Fa. apply round_integral, mag_integral; [lia|]. cbn -[Z.div]. fold E. lia. }
  destruct (Z.leb_spec 0 (E - 127)) as [Hmid|Hsm].
  - pose proof (fc_mask a ltac:(fold u E; lia)) as Hmk. fold u E in Hmk. rewrite !Hmk.
    rewrite (test_pattern W32 a (150 - E)) by (auto; cbn; lia). fold u.
    pose proof (fc_frac a ltac:(fold u E; lia)) as Hfr. fold u E in Hfr.
    destruct (Z.eqb_spec (u mod 2 ^ (150 - E)) 0) as [E0|E0].
    + symmetry. rewrite Fa. apply round_integral. now apply Hfr.
    + rewrite Fa, floor_mag by (auto; intros Hc; apply E0, Hfr, Hc).
      destruct s eqn:Es; cbn [negb].
      * pose proof (fc_up a Ha ltac:(fold u E; lia) E0) as Hup. fold u E s in Hup. rewrite Hup, Es. lia.
      * pose proof (fc_down a Ha (150 - E) ltac:(lia)) as Hd. fold u s in Hd. rewrite Hd, Es.
        pose proof (fc_clear a ltac:(fold u E; lia)) as Hc. fold u E in Hc. lia.
  - destruct (mag_fraction W32 u ltac:(lia) ltac:(cbn -[Z.div]; fold E; lia)) as [_ Hf].
    rewrite Fa. pose proof (mag_eq_iff W32 u 0 ltac:(lia) ltac:(lia)) as Hz. rewrite (mag_zero W32) in Hz.
    destruct s; cbn [negb].
    + destruct (Z.eqb_spec u 0) as [E0|E0]; cbn [negb].
      * rewrite Fa, E0, (mag_zero W32). reflexivity.
      * replace (- mag W32 u / one W32) with (-1); [reflexivity|].
        apply (Z.div_unique _ _ _ (one W32 - mag W32 u)); lia.
    + rewrite Z.div_small by lia. reflexivity.
Qed.

(** [f32.ceil] is exact: for every pattern that is not a NaN the result's
    value is the least integer above. *)
Lemma ceil_exact arith_nan a :
  in_u 32 a -> is_nan W32 a = false ->
  fval W32 (psizam_f32_ceil arith_nan a) = - (- fval W32 a / one W32 * one W32).
Proof.
  intros Ha Hn. unfold psizam_f32_ceil, exponent. cbv zeta. rewrite Hn, andb_false_r, (exponent_eq W32) by auto.
  rewrite (fc_sign a Ha), (fc_zero a Ha). set (u := low_bits W32 a). set (s := sign_bit W32 a).
  change (mbits W32) with 23. change (bias W32) with 127. set (E := u / 2 ^ 23).
  assert (Hu : 0 <= u < 2 ^ 31) by exact (fc_u a). pose proof (mag_nonneg W32 u ltac:(lia)) as Hm.
  assert (Fa : fval W32 a = if s then - mag W32 u else mag W32 u) by reflexivity.
  assert (Fn : - fval W32 a = if negb s then - mag W32 u else mag W32 u) by (rewrite Fa; destruct s; cbn; lia).
  pose proof (one_pos W32) as Ho.
  destruct (Z.leb_spec 23 (E - 127)) as [Hbig|Hbig].
  { symmetry. rewrite Fa. apply round_integral, mag_integral; [lia|]. cbn -[Z.div]. fold E. lia. }
  destruct (Z.leb_spec 0 (E - 127)) as [Hmid|Hsm].
  - pose proof (fc_mask a ltac:(fold u E; lia)) as Hmk. fold u E in Hmk. rewrite !Hmk.
    rewrite (test_pattern W32 a (150 - E)) by (auto; cbn; lia). fold u.
    pose proof (fc_frac a ltac:(fold u E; lia)) as Hfr. fold u E in Hfr.
    destruct (Z.eqb_spec (u mod 2 ^ (150 - E)) 0) as [E0|E0].
    + symmetry. rewrite Fa. apply round_integral. now apply Hfr.
    + rewrite Fn, floor_mag by (auto; intros Hc; apply E0, Hfr, Hc).
      destruct s eqn:Es; cbn [negb].
      * pose proof (fc_down a Ha (150 - E) ltac:(lia)) as Hd. fold u s in Hd. rewrite Hd, Es.
        pose proof (fc_clear a ltac:(fold u E; lia)) as Hc. fold u E in Hc. lia.
      * pose proof (fc_up a Ha ltac:(fold u E; lia) E0) as Hup. fold u E s in Hup. rewrite Hup, Es. lia.
  - destruct (mag_fraction W32 u ltac:(lia) ltac:(cbn -[Z.div]; fold E; lia)) as [_ Hf].
    rewrite Fn. pose proof (mag_eq_iff W32 u 0 ltac:(lia) ltac:(lia)) as Hz. rewrite (mag_zero W32) in Hz.
    destruct s; cbn [negb].
    + rewrite Z.div_small by lia. reflexivity.
    + destruct (Z.eqb_spec u 0) as [E0|E0]; cbn [negb].
      * rewrite Fa, E0, (mag_zero W32). reflexivity.
      * replace (- mag W32 u / one W32) with (-1); [reflexivity|].
        apply (Z.div_unique _ _ _ (one W32 - mag W32 u)); lia.
Qed.

(** [f32.floor] and [f32.ceil] are exact: for every pattern that is not a NaN
    the results' values are the greatest integer below and the least above,
    including the carry from the mantissa into the exponent and the results
    between -1 and 1. *)
Theorem psizam_f32_floor_ceil_value arith_nan a :
  in_u 32 a -> is_nan W32 a = false ->
  fval W32 (psizam_f32_floor arith_nan a) = fval W32 a / one W32 * one W32 /\
  fval W32 (psizam_f32_ceil arith_nan a) = - (- fval W32 a / one W32 * one W32).
Proof. intros Ha Hn. split; [now apply floor_exact|now apply ceil_exact]. Qed.

Lemma psizam_f32_floor_ceil_value_witness :
  (fval W32 (psizam_f32_floor true 0xBFFFFFFF) = fval W32 0xBFFFFFFF / one W32 * one W32 /\
   fval W32 (psizam_f32_ceil true 0xBFFFFFFF) = - (- fval W32 0xBFFFFFFF / one W32 * one W32)) /\
  psizam_f32_floor true 0xBFFFFFFF = 0xC0000000 /\ psizam_f32_ceil true 0xBFFFFFFF = 0xBF800000.
Proof.
  split; [apply (psizam_f32_floor_ceil_value true 0xBFFFFFFF)|]; repeat split; (reflexivity || (vm_compute; split; congruence) || (vm_compute; congruence)).
Defined.

(** ** Comparisons, minimum and maximum, NaNs *)

(** C33. The comparisons of the deterministic modes are the IEEE order of the
    values: all five agree with [fval], are false on NaNs, and treat the two
    zeros as equal.  In particular [gt] and [ge], which negate [le] and [lt],
    are not confused by NaNs. *)
Theorem psizam_compare_ieee w a b :
  in_u (bits w) a -> in_u (bits w) b ->
  let ordered (P : Prop) := is_nan w a = false /\ is_nan w b = false /\ P in
  (f_eq w a b = true <-> ordered (fval w a = fval w b)) /\
  (f_lt w a b = true <-> ordered (fval w a < fval w b)) /\
  (f_le w a b = true <-> ordered (fval w a <= fval w b)) /\
  (psizam_gt w a b = true <-> ordered (fval w a > fval w b)) /\
  (psizam_ge w a b = true <-> ordered (fval w a >= fval w b)).
Proof.
  intros Ha Hb ordered. unfold ordered. clear ordered.
  pose proof (f_eq_spec w a b Ha Hb). pose proof (f_lt_spec w a b Ha Hb). pose proof (f_le_spec w a b Ha Hb).
  unfold psizam_gt, psizam_ge.
  destruct (f_le w a b), (f_lt w a b), (is_nan w a), (is_nan w b); cbn [negb];
    intuition (try discriminate; try lia).
Qed.

Lemma psizam_compare_ieee_witness :
  psizam_ge W32 0x80000000 0 = true /\ fval W32 0x80000000 >= fval W32 0.
Proof.
  split; [reflexivity|].
  destruct (psizam_compare_ieee W32 0x80000000 0 ltac:(vm_compute; split; congruence)
              ltac:(vm_compute; split; congruence)) as (_ & _ & _ & _ & H).
  now apply H.
Defined.

Lemma signs_by_value w a b : in_u (bits w) a -> in_u (bits w) b ->
  sign_bit w a = true -> sign_bit w b = false -> fval w a <= fval w b.
Proof.
  intros Ha Hb Sa Sb. pose proof (fval_lt_iff w b a) as L. rewrite Sa, Sb in L. lia.
Qed.

(** C34. [min] and [max] of the deterministic modes: a NaN operand gives the
    canonical NaN; otherwise the result is one of the operands, with the
    smaller (larger) value, and of two zeros [min] takes a negative one and
    [max] a positive one if there is one. *)
Theorem psizam_min_max_spec w a b :
  in_u (bits w) a -> in_u (bits w) b ->
  (is_nan w a || is_nan w b = true ->
     psizam_min w true a b = canonical w /\ psizam_max w true a b = canonical w) /\
  (is_nan w a || is_nan w b = false ->
     let r := psizam_min w true a b in let R := psizam_max w true a b in
     (r = a \/ r = b) /\ fval w r = Z.min (fval w a) (fval w b) /\
     sign_bit w r = sign_bit w a || sign_bit w b /\
     (R = a \/ R = b) /\ fval w R = Z.max (fval w a) (fval w b) /\
     sign_bit w R = sign_bit w a && sign_bit w b).
Proof.
  intros Ha Hb. unfold psizam_min, psizam_max. split; intros Hn.
  - destruct (is_nan w a); [auto|]. cbn in Hn. now rewrite Hn.
  - apply orb_false_iff in Hn as [Na Nb]. rewrite Na, Nb.
    pose proof (f_lt_spec w a b Ha Hb) as L. rewrite Na, Nb in L.
    destruct (sign_bit w a) eqn:Sa, (sign_bit w b) eqn:Sb; cbn [Bool.eqb negb orb andb];
      try (destruct (f_lt w a b); cbv zeta; repeat split; auto; rewrite ?Sa, ?Sb; auto;
           intuition (try discriminate; try lia); fail).
    + pose proof (signs_by_value w a b Ha Hb Sa Sb). cbv zeta. rewrite Sa, Sb. repeat split; auto; lia.
    + pose proof (signs_by_value w b a Hb Ha Sb Sa). cbv zeta. rewrite Sa, Sb. repeat split; auto; lia.
Qed.

Lemma psizam_min_max_spec_witness :
  psizam_min W64 true 0 0x8000000000000000 = 0x8000000000000000 /\
  sign_bit W64 (psizam_min W64 true 0 0x8000000000000000) = true.
Proof.
  split; [reflexivity|].
  destruct (psizam_min_max_spec W64 0 0x8000000000000000 ltac:(vm_compute; split; congruence)
              ltac:(vm_compute; split; congruence)) as [_ H].
  destruct (H eq_refl) as (_ & _ & -> & _). reflexivity.
Defined.

(** C35. Determinism of NaNs in scalar arithmetic: whatever NaN the library
    computes, the only NaN that f32 and f64 addition, subtraction,
    multiplication, division, square root, minimum and maximum of the
    deterministic modes return is the canonical one.  (Vector addition,
    subtraction, multiplication and division are not canonicalized.) *)
Theorem psizam_nan_canonical {SF : SoftFloat} w a b r :
  In r [psizam_add w a b; psizam_sub w a b; psizam_mul w a b; psizam_div w a b; psizam_sqrt w a;
        psizam_min w true a b; psizam_max w true a b] ->
  is_nan w r = true -> r = canonical w.
Proof.
  assert (C : forall x, is_nan w (canonicalize_nan w x) = true -> canonicalize_nan w x = canonical w).
  { intros x. unfold canonicalize_nan. destruct (is_nan w x) eqn:E; [reflexivity|congruence]. }
  cbn [In]. intros [<-|[<-|[<-|[<-|[<-|[<-|[<-|[]]]]]]]]; try apply C;
    unfold psizam_min, psizam_max; (destruct (is_nan w a) eqn:Na; [reflexivity|]);
    (destruct (is_nan w b) eqn:Nb; [reflexivity|]);
    repeat (case_bool; try congruence).
Qed.

(** A library that only ever produces the hardware's negative quiet NaN. *)
Definition nan_lib : SoftFloat := {|
  sf_add := fun w _ _ => sign_mask w + canonical w; sf_sub := fun w _ _ => sign_mask w + canonical w;
  sf_mul := fun w _ _ => sign_mask w + canonical w; sf_div := fun w _ _ => sign_mask w + canonical w;
  sf_sqrt := fun w _ => sign_mask w + canonical w; sf_promote := fun a => a; sf_demote := fun a => a;
  sf_of_int := fun _ _ a => a; sf_to_int := fun _ _ a => a; sf_to_int_minMag := fun _ _ a => a |}.

Lemma psizam_nan_canonical_witness :
  @psizam_add nan_lib W32 0x7F800000 0xFF800000 = canonical W32.
Proof.
  apply (@psizam_nan_canonical nan_lib W32 0x7F800000 0xFF800000); [left; reflexivity|reflexivity].
Defined.
