(* ===== verification/Simd.v ===== *)
(** * Vector instructions

    Models the lane arithmetic of the SIMD handlers of
    psizam/detail/interpret_visitor.hpp and the vector half of
    psizam/detail/softfloat.hpp.  A [v128_t] is a 128-bit integer, and the arrays
    that the handlers copy it to are lists of lanes.  A computation of type [int]
    or [int64_t] that overflows is undefined ([None]), and so are narrower
    operands, which C++ promotes to [int]. *)
From Stdlib Require Import ZArith Lia Bool String.
From stdpp Require Import base list numbers decidable option.
From S2P Require Import Prelude Types Numeric Softfloat.
Import Opcode.

(** ** Lanes *)
(** The element type of an array: its width and whether it is signed. *)
Record lane := Lane { lane_bits : Z; lane_signed : bool }.
Definition i8 : lane := Lane 8 true.
Definition u8 : lane := Lane 8 false.
Definition i16 : lane := Lane 16 true.
Definition u16 : lane := Lane 16 false.
Definition i32 : lane := Lane 32 true.
Definition u32 : lane := Lane 32 false.
Definition i64 : lane := Lane 64 true.
Definition u64 : lane := Lane 64 false.

(** Conversion to an integer type. *)
Definition cast (t : lane) (x : Z) : Z :=
  if lane_signed t then signed (lane_bits t) (wrap (lane_bits t) x) else wrap (lane_bits t) x.
(** The result of an operator on operands of type [t], after the integer promotions. *)
Definition checked_int (w x : Z) : option Z := if (- 2 ^ (w - 1) <=? x) && (x <? 2 ^ (w - 1)) then Some x else None.
Definition arith (t : lane) (x : Z) : option Z :=
  if lane_bits t <? 32 then checked_int 32 x
  else if lane_signed t then checked_int (lane_bits t) x
  else Some (wrap (lane_bits t) x).

(** [memcpy] from a vector to an array and back. *)
Definition lane_count (t : lane) : nat := Z.to_nat (128 / lane_bits t).
Definition lanes (t : lane) (v : Z) : list Z :=
  map (fun i => cast t (Z.shiftr v (lane_bits t * Z.of_nat i))) (seq 0 (lane_count t)).
Definition merge (t : lane) (l : list Z) : Z :=
  fold_right (fun x acc => wrap (lane_bits t) x + 2 ^ lane_bits t * acc) 0 l.

Fixpoint collect {A B} (f : A -> option B) (l : list A) : option (list B) :=
  match l with
  | [] => Some []
  | x :: l => match f x, collect f l with Some y, Some r => Some (y :: r) | _, _ => None end
  end.

(** ** The shapes of the handlers *)
(** [v128_unop<A>], [v128_binop<A>], [v128_ternop<A>] with a function on lanes. *)
Definition unop (t : lane) (f : Z -> option Z) (c1 : Z) : option Z := merge t <$> collect f (lanes t c1).
Definition binop (t : lane) (f : Z -> Z -> option Z) (c1 c2 : Z) : option Z :=
  merge t <$> collect (fun p => f p.1 p.2) (zip (lanes t c1) (lanes t c2)).
Definition ternop (t : lane) (f : Z -> Z -> Z -> option Z) (c1 c2 c3 : Z) : option Z :=
  merge t <$> collect (fun p => f p.1 p.2.1 p.2.2) (zip (lanes t c1) (zip (lanes t c2) (lanes t c3))).
(** [v128_narrow<A, R>], [v128_extend<A, R>], [v128_extadd_pairwise<A, R>], [v128_extmul<A, R>]. *)
Definition narrow (t r : lane) (f : Z -> Z) (c1 c2 : Z) : option Z :=
  Some (merge r (map f (lanes t c1) ++ map f (lanes t c2))).
Definition half (high : bool) (r : lane) (l : list Z) : list Z :=
  if high then drop (lane_count r) l else take (lane_count r) l.
Definition extend (t r : lane) (high : bool) (c1 : Z) : option Z := Some (merge r (half high r (lanes t c1))).
Fixpoint pairs (l : list Z) : list (Z * Z) :=
  match l with x :: y :: l => (x, y) :: pairs l | _ => [] end.
Definition extadd_pairwise (t r : lane) (c1 : Z) : option Z :=
  merge r <$> collect (fun p => arith r (cast r p.1 + p.2)) (pairs (lanes t c1)).
Definition extmul (t r : lane) (high : bool) (c1 c2 : Z) : option Z :=
  merge r <$> collect (fun p => arith r (cast r p.1 * p.2)) (zip (half high r (lanes t c1)) (half high r (lanes t c2))).

(** ** Lane functions *)
Definition flag (b : bool) : option Z := Some (if b then -1 else 0).
Definition abs_lane (s : lane) (x : Z) : option Z := let a := cast s x in if a <? 0 then arith s (- a) else Some a.
Definition sat (lo hi r : Z) : Z := if r <? lo then lo else if hi <? r then hi else r.
Definition sat_of (lo hi : Z) (r : option Z) : option Z := sat lo hi <$> r.
Definition min_lane (a b : Z) : option Z := Some (if a <? b then a else b).
Definition max_lane (a b : Z) : option Z := Some (if a <? b then b else a).
Definition avgr (t : lane) (a b : Z) : option Z := (fun r => r / 2) <$> arith t (a + b + 1).
Definition q15mulr_sat_s (x y : Z) : option Z :=
  match arith i32 (cast i16 x * cast i16 y) with
  | None => None
  | Some p => (fun r => let tmp := cast u16 (Z.shiftr r 15) in if tmp =? 0x8000 then 0x7fff else tmp) <$> arith i32 (p + 0x4000)
  end.
Definition dot_lane (x y : (Z * Z)) : option Z :=
  match arith i32 (x.1 * y.1), arith i32 (x.2 * y.2) with
  | Some p1, Some p2 => arith i32 (p1 + p2)
  | _, _ => None
  end.
Definition dot (c1 c2 : Z) : option Z :=
  merge i32 <$> collect (fun p => dot_lane p.1 p.2) (zip (pairs (lanes i16 c1)) (pairs (lanes i16 c2))).
(** The dot products of the relaxed instructions. *)
Definition relaxed_dot (c1 c2 : Z) : option Z :=
  merge i16 <$> collect (fun p => arith i16 (cast i16 (p.1.1 * p.2.1) + cast i16 (p.1.2 * p.2.2)))
    (zip (pairs (lanes i8 c1)) (pairs (lanes i8 c2))).
Fixpoint sum_products (n : nat) (sum : Z) (l : list (Z * Z)) : option Z :=
  match n, l with
  | S n, p :: l => match arith i32 (sum + p.1 * p.2) with Some s => sum_products n s l | None => None end
  | _, _ => Some sum
  end.
Definition relaxed_dot_add (c1 c2 c3 : Z) : option Z :=
  merge i32 <$> collect (fun p => sum_products 4 p.2 (drop (4 * p.1) (zip (lanes i8 c1) (lanes i8 c2))))
    (zip (seq 0 4) (lanes i32 c3)).
(** [v128_unop_i32] *)
Definition any_true (a : list Z) : Z := fold_left (fun result x => if negb (x =? 0) then 1 else result) a 0.
Definition all_true (a : list Z) : Z := fold_left (fun result x => if x =? 0 then 0 else result) a 1.
Definition bitmask (a : list Z) : Z :=
  fold_left (fun result p => Z.lor result (Z.shiftl (if p.2 <? 0 then 1 else 0) (Z.of_nat p.1))) (zip (seq 0 (length a)) a) 0.
Definition swizzle (c1 c2 : Z) : option Z :=
  Some (merge u8 (map (fun i => if i <? 16 then nth (Z.to_nat i) (lanes u8 c1) 0 else 0) (lanes u8 c2))).
Definition splat (t : lane) (x : Z) : Z := merge t (repeat x (lane_count t)).

(** ** Immediates *)
Definition set_lane (t : lane) (laneidx x c : Z) : option Z :=
  if laneidx <? Z.of_nat (lane_count t) then Some (merge t (<[Z.to_nat laneidx := x]> (lanes t c))) else None.
Definition get_lane (t : lane) (laneidx c : Z) : option Z := lanes t c !! Z.to_nat laneidx.
Definition shuffle (ls : list Z) (c1 c2 : Z) : option Z :=
  merge u8 <$> collect (fun i => (lanes u8 c1 ++ lanes u8 c2) !! Z.to_nat i) ls.

(** ** Floating-point lanes *)
Section FloatLanes.
Context {SF : SoftFloat} {HF : HostFloat}.
(** [apply_f32x4], [apply_f64x2] and their variants; [t] and [r] are the types of the
    argument and result lanes. *)
Definition apply (t r : lane) (f : Z -> Z) (a : Z) : option Z := Some (merge r (map f (lanes t a))).
Definition apply2 (t r : lane) (f : Z -> Z -> Z) (a b : Z) : option Z :=
  Some (merge r (map (fun p => f p.1 p.2) (zip (lanes t a) (lanes t b)))).
Definition apply_f64x2_zero (f : Z -> Z) (a : Z) : option Z := Some (merge u32 (map f (lanes u64 a) ++ [0; 0])).
Definition apply_f32x4_low (t : lane) (f : Z -> Z) (a : Z) : option Z := Some (merge u64 (map f (take 2 (lanes t a)))).
Definition mask (b : bool) : Z := if b then -1 else 0.
Definition pmin (w : width) (a b : Z) : Z := if f_lt w b a then b else a.
Definition pmax (w : width) (a b : Z) : Z := if f_lt w a b then b else a.
End FloatLanes.

(** ** The handlers *)
(** What a handler pops, and the value it pushes: a vector, or an [i32] for [Test].  [Shift]
    pops a count and reduces it, [Splat] pops a value of the type [from]. *)
Inductive handler :=
  | Unop (f : Z -> option Z) | Binop (f : Z -> Z -> option Z) | Ternop (f : Z -> Z -> Z -> option Z)
  | Test (f : Z -> Z) | Shift (count_mask : Z) (f : Z -> Z -> option Z) | Splat (from : Z) (t : lane).
Definition vec_handler `{SoftFloat} `{HostFloat} (op : vec_numeric) : handler :=
  match op with
  | i8x16_swizzle => Binop swizzle
  | i8x16_splat => Splat types.i32 u8 | i16x8_splat => Splat types.i32 u16 | i32x4_splat => Splat types.i32 u32
  | i64x2_splat => Splat types.i64 u64 | f32x4_splat => Splat types.f32 u32 | f64x2_splat => Splat types.f64 u64
  | i8x16_eq => Binop (binop u8 (fun a b => flag (a =? b)))
  | i8x16_ne => Binop (binop u8 (fun a b => flag (negb (a =? b))))
  | i8x16_lt_s => Binop (binop i8 (fun a b => flag (a <? b)))
  | i8x16_lt_u => Binop (binop u8 (fun a b => flag (a <? b)))
  | i8x16_gt_s => Binop (binop i8 (fun a b => flag (b <? a)))
  | i8x16_gt_u => Binop (binop u8 (fun a b => flag (b <? a)))
  | i8x16_le_s => Binop (binop i8 (fun a b => flag (a <=? b)))
  | i8x16_le_u => Binop (binop u8 (fun a b => flag (a <=? b)))
  | i8x16_ge_s => Binop (binop i8 (fun a b => flag (b <=? a)))
  | i8x16_ge_u => Binop (binop u8 (fun a b => flag (b <=? a)))
  | i16x8_eq => Binop (binop u16 (fun a b => flag (a =? b)))
  | i16x8_ne => Binop (binop u16 (fun a b => flag (negb (a =? b))))
  | i16x8_lt_s => Binop (binop i16 (fun a b => flag (a <? b)))
  | i16x8_lt_u => Binop (binop u16 (fun a b => flag (a <? b)))
  | i16x8_gt_s => Binop (binop i16 (fun a b => flag (b <? a)))
  | i16x8_gt_u => Binop (binop u16 (fun a b => flag (b <? a)))
  | i16x8_le_s => Binop (binop i16 (fun a b => flag (a <=? b)))
  | i16x8_le_u => Binop (binop u16 (fun a b => flag (a <=? b)))
  | i16x8_ge_s => Binop (binop i16 (fun a b => flag (b <=? a)))
  | i16x8_ge_u => Binop (binop u16 (fun a b => flag (b <=? a)))
  | i32x4_eq => Binop (binop u32 (fun a b => flag (a =? b)))
  | i32x4_ne => Binop (binop u32 (fun a b => flag (negb (a =? b))))
  | i32x4_lt_s => Binop (binop i32 (fun a b => flag (a <? b)))
  | i32x4_lt_u => Binop (binop u32 (fun a b => flag (a <? b)))
  | i32x4_gt_s => Binop (binop i32 (fun a b => flag (b <? a)))
  | i32x4_gt_u => Binop (binop u32 (fun a b => flag (b <? a)))
  | i32x4_le_s => Binop (binop i32 (fun a b => flag (a <=? b)))
  | i32x4_le_u => Binop (binop u32 (fun a b => flag (a <=? b)))
  | i32x4_ge_s => Binop (binop i32 (fun a b => flag (b <=? a)))
  | i32x4_ge_u => Binop (binop u32 (fun a b => flag (b <=? a)))
  | i64x2_eq => Binop (binop u64 (fun a b => flag (a =? b)))
  | i64x2_ne => Binop (binop u64 (fun a b => flag (negb (a =? b))))
  | i64x2_lt_s => Binop (binop i64 (fun a b => flag (a <? b)))
  | i64x2_gt_s => Binop (binop i64 (fun a b => flag (b <? a)))
  | i64x2_le_s => Binop (binop i64 (fun a b => flag (a <=? b)))
  | i64x2_ge_s => Binop (binop i64 (fun a b => flag (b <=? a)))
  | f32x4_eq => Binop (apply2 u32 u32 (fun a b => mask (f_eq W32 a b)))
  | f32x4_ne => Binop (apply2 u32 u32 (fun a b => mask (negb (f_eq W32 a b))))
  | f32x4_lt => Binop (apply2 u32 u32 (fun a b => mask (f_lt W32 a b)))
  | f32x4_gt => Binop (apply2 u32 u32 (fun a b => mask (f_lt W32 b a)))
  | f32x4_le => Binop (apply2 u32 u32 (fun a b => mask (f_le W32 a b)))
  | f32x4_ge => Binop (apply2 u32 u32 (fun a b => mask (f_le W32 b a)))
  | f64x2_eq => Binop (apply2 u64 u64 (fun a b => mask (f_eq W64 a b)))
  | f64x2_ne => Binop (apply2 u64 u64 (fun a b => mask (negb (f_eq W64 a b))))
  | f64x2_lt => Binop (apply2 u64 u64 (fun a b => mask (f_lt W64 a b)))
  | f64x2_gt => Binop (apply2 u64 u64 (fun a b => mask (f_lt W64 b a)))
  | f64x2_le => Binop (apply2 u64 u64 (fun a b => mask (f_le W64 a b)))
  | f64x2_ge => Binop (apply2 u64 u64 (fun a b => mask (f_le W64 b a)))
  | v128_not => Unop (unop u64 (fun a => Some (Z.lnot a)))
  | v128_and => Binop (binop u64 (fun a b => Some (Z.land a b)))
  | v128_andnot => Binop (binop u64 (fun a b => Some (Z.land a (Z.lnot b))))
  | v128_or => Binop (binop u64 (fun a b => Some (Z.lor a b)))
  | v128_xor => Binop (binop u64 (fun a b => Some (Z.lxor a b)))
  | v128_bitselect => Ternop (ternop u64 (fun a b c => Some (Z.lor (Z.land a c) (Z.land b (Z.lnot c)))))
  | v128_any_true => Test (fun c => any_true (lanes u64 c))
  | i8x16_abs => Unop (unop u8 (abs_lane i8))
  | i8x16_neg => Unop (unop u8 (fun a => arith u8 (- a)))
  | i8x16_popcnt => Unop (unop u8 (fun a => Some (builtin_popcount a)))
  | i8x16_all_true => Test (fun c => all_true (lanes u8 c))
  | i8x16_bitmask => Test (fun c => bitmask (lanes i8 c))
  | i8x16_narrow_i16x8_s => Binop (narrow i16 i8 (sat (-0x80) 0x7f))
  | i8x16_narrow_i16x8_u => Binop (narrow i16 u8 (sat 0 0xff))
  | i8x16_shl => Shift 0x7 (fun b => unop u8 (fun a => arith u8 (Z.shiftl a b)))
  | i8x16_shr_s => Shift 0x7 (fun b => unop u8 (fun a => Some (Z.shiftr (cast i8 a) b)))
  | i8x16_shr_u => Shift 0x7 (fun b => unop u8 (fun a => Some (Z.shiftr a b)))
  | i8x16_add => Binop (binop u8 (fun a b => arith u8 (a + b)))
  | i8x16_add_sat_s => Binop (binop i8 (fun a b => sat_of (-0x80) 0x7f (arith i8 (a + b))))
  | i8x16_add_sat_u => Binop (binop u8 (fun a b => Z.min 0xff <$> arith u8 (a + b)))
  | i8x16_sub => Binop (binop u8 (fun a b => arith u8 (a - b)))
  | i8x16_sub_sat_s => Binop (binop i8 (fun a b => sat_of (-0x80) 0x7f (arith i8 (a - b))))
  | i8x16_sub_sat_u => Binop (binop u8 (fun a b => sat_of 0 0xff (arith u8 (a - b))))
  | i8x16_min_s => Binop (binop i8 min_lane) | i8x16_min_u => Binop (binop u8 min_lane)
  | i8x16_max_s => Binop (binop i8 max_lane) | i8x16_max_u => Binop (binop u8 max_lane)
  | i8x16_avgr_u => Binop (binop u8 (avgr u8))
  | i16x8_extadd_pairwise_i8x16_s => Unop (extadd_pairwise i8 i16)
  | i16x8_extadd_pairwise_i8x16_u => Unop (extadd_pairwise u8 u16)
  | i16x8_abs => Unop (unop u16 (abs_lane i16))
  | i16x8_neg => Unop (unop u16 (fun a => arith u16 (- a)))
  | i16x8_q15mulr_sat_s => Binop (binop u16 q15mulr_sat_s)
  | i16x8_all_true => Test (fun c => all_true (lanes u16 c))
  | i16x8_bitmask => Test (fun c => bitmask (lanes i16 c))
  | i16x8_narrow_i32x4_s => Binop (narrow i32 i16 (sat (-0x8000) 0x7fff))
  | i16x8_narrow_i32x4_u => Binop (narrow u32 u16 (fun a => sat 0 0xffff (cast i32 a)))
  | i16x8_extend_low_i8x16_s => Unop (extend i8 i16 false)
  | i16x8_extend_high_i8x16_s => Unop (extend i8 i16 true)
  | i16x8_extend_low_i8x16_u => Unop (extend u8 u16 false)
  | i16x8_extend_high_i8x16_u => Unop (extend u8 u16 true)
  | i16x8_shl => Shift 0xf (fun b => unop u16 (fun a => arith u16 (Z.shiftl a b)))
  | i16x8_shr_s => Shift 0xf (fun b => unop u16 (fun a => Some (Z.shiftr (cast i16 a) b)))
  | i16x8_shr_u => Shift 0xf (fun b => unop u16 (fun a => Some (Z.shiftr a b)))
  | i16x8_add => Binop (binop u16 (fun a b => arith u16 (a + b)))
  | i16x8_add_sat_s => Binop (binop i16 (fun a b => sat_of (-0x8000) 0x7fff (arith i16 (a + b))))
  | i16x8_add_sat_u => Binop (binop u16 (fun a b => Z.min 0xffff <$> arith u16 (a + b)))
  | i16x8_sub => Binop (binop u16 (fun a b => arith u16 (a - b)))
  | i16x8_sub_sat_s => Binop (binop i16 (fun a b => sat_of (-0x8000) 0x7fff (arith i16 (a - b))))
  | i16x8_sub_sat_u => Binop (binop u16 (fun a b => sat_of 0 0xffff (arith u16 (a - b))))
  | i16x8_mul => Binop (binop u16 (fun a b => arith u16 (a * b)))
  | i16x8_min_s => Binop (binop i16 min_lane) | i16x8_min_u => Binop (binop u16 min_lane)
  | i16x8_max_s => Binop (binop i16 max_lane) | i16x8_max_u => Binop (binop u16 max_lane)
  | i16x8_avgr_u => Binop (binop u16 (avgr u16))
  | i16x8_extmul_low_i8x16_s => Binop (extmul i8 i16 false)
  | i16x8_extmul_high_i8x16_s => Binop (extmul i8 i16 true)
  | i16x8_extmul_low_i8x16_u => Binop (extmul u8 u16 false)
  | i16x8_extmul_high_i8x16_u => Binop (extmul u8 u16 true)
  | i32x4_extadd_pairwise_i16x8_s => Unop (extadd_pairwise i16 i32)
  | i32x4_extadd_pairwise_i16x8_u => Unop (extadd_pairwise u16 u32)
  | i32x4_abs => Unop (unop u32 (abs_lane i32))
  | i32x4_neg => Unop (unop u32 (fun a => arith u32 (- a)))
  | i32x4_all_true => Test (fun c => all_true (lanes u32 c))
  | i32x4_bitmask => Test (fun c => bitmask (lanes i32 c))
  | i32x4_extend_low_i16x8_s => Unop (extend i16 i32 false)
  | i32x4_extend_high_i16x8_s => Unop (extend i16 i32 true)
  | i32x4_extend_low_i16x8_u => Unop (extend u16 u32 false)
  | i32x4_extend_high_i16x8_u => Unop (extend u16 u32 true)
  | i32x4_shl => Shift 0x1f (fun b => unop u32 (fun a => arith u32 (Z.shiftl a b)))
  | i32x4_shr_s => Shift 0x1f (fun b => unop u32 (fun a => Some (Z.shiftr (cast i32 a) b)))
  | i32x4_shr_u => Shift 0x1f (fun b => unop u32 (fun a => Some (Z.shiftr a b)))
  | i32x4_add => Binop (binop u32 (fun a b => arith u32 (a + b)))
  | i32x4_sub => Binop (binop u32 (fun a b => arith u32 (a - b)))
  | i32x4_mul => Binop (binop u32 (fun a b => arith u32 (a * b)))
  | i32x4_min_s => Binop (binop i32 min_lane) | i32x4_min_u => Binop (binop u32 min_lane)
  | i32x4_max_s => Binop (binop i32 max_lane) | i32x4_max_u => Binop (binop u32 max_lane)
  | i32x4_dot_i16x8_s => Binop dot
  | i32x4_extmul_low_i16x8_s => Binop (extmul i16 i32 false)
  | i32x4_extmul_high_i16x8_s => Binop (extmul i16 i32 true)
  | i32x4_extmul_low_i16x8_u => Binop (extmul u16 u32 false)
  | i32x4_extmul_high_i16x8_u => Binop (extmul u16 u32 true)
  | i64x2_abs => Unop (unop u64 (abs_lane i64))
  | i64x2_neg => Unop (unop u64 (fun a => arith u64 (- a)))
  | i64x2_all_true => Test (fun c => all_true (lanes u64 c))
  | i64x2_bitmask => Test (fun c => bitmask (lanes i64 c))
  | i64x2_extend_low_i32x4_s => Unop (extend i32 i64 false)
  | i64x2_extend_high_i32x4_s => Unop (extend i32 i64 true)
  | i64x2_extend_low_i32x4_u => Unop (extend u32 u64 false)
  | i64x2_extend_high_i32x4_u => Unop (extend u32 u64 true)
  | i64x2_shl => Shift 0x3f (fun b => unop u64 (fun a => arith u64 (Z.shiftl a b)))
  | i64x2_shr_s => Shift 0x3f (fun b => unop u64 (fun a => Some (Z.shiftr (cast i64 a) b)))
  | i64x2_shr_u => Shift 0x3f (fun b => unop u64 (fun a => Some (Z.shiftr a b)))
  | i64x2_add => Binop (binop u64 (fun a b => arith u64 (a + b)))
  | i64x2_sub => Binop (binop u64 (fun a b => arith u64 (a - b)))
  | i64x2_mul => Binop (binop u64 (fun a b => arith u64 (a * b)))
  | i64x2_extmul_low_i32x4_s => Binop (extmul i32 i64 false)
  | i64x2_extmul_high_i32x4_s => Binop (extmul i32 i64 true)
  | i64x2_extmul_low_i32x4_u => Binop (extmul u32 u64 false)
  | i64x2_extmul_high_i32x4_u => Binop (extmul u32 u64 true)
  | f32x4_ceil => Unop (apply u32 u32 (psizam_f32_ceil true))
  | f32x4_floor => Unop (apply u32 u32 (psizam_f32_floor true))
  | f32x4_trunc => Unop (apply u32 u32 (psizam_trunc W32 true))
  | f32x4_nearest => Unop (apply u32 u32 (psizam_nearest W32 true))
  | f32x4_abs => Unop (apply u32 u32 (psizam_abs W32))
  | f32x4_neg => Unop (apply u32 u32 (psizam_neg W32))
  | f32x4_sqrt => Unop (apply u32 u32 (psizam_sqrt W32))
  | f32x4_add => Binop (apply2 u32 u32 (sf_add W32))
  | f32x4_sub => Binop (apply2 u32 u32 (sf_sub W32))
  | f32x4_mul => Binop (apply2 u32 u32 (sf_mul W32))
  | f32x4_div => Binop (apply2 u32 u32 (sf_div W32))
  | f32x4_min => Binop (apply2 u32 u32 (psizam_min W32 true))
  | f32x4_max => Binop (apply2 u32 u32 (psizam_max W32 true))
  | f32x4_pmin => Binop (apply2 u32 u32 (pmin W32))
  | f32x4_pmax => Binop (apply2 u32 u32 (pmax W32))
  | f64x2_ceil => Unop (apply u64 u64 (psizam_f64_ceil true))
  | f64x2_floor => Unop (apply u64 u64 (psizam_f64_floor true))
  | f64x2_trunc => Unop (apply u64 u64 (psizam_trunc W64 true))
  | f64x2_nearest => Unop (apply u64 u64 (psizam_nearest W64 true))
  | f64x2_abs => Unop (apply u64 u64 (psizam_abs W64))
  | f64x2_neg => Unop (apply u64 u64 (psizam_neg W64))
  | f64x2_sqrt => Unop (apply u64 u64 (psizam_sqrt W64))
  | f64x2_add => Binop (apply2 u64 u64 (sf_add W64))
  | f64x2_sub => Binop (apply2 u64 u64 (sf_sub W64))
  | f64x2_mul => Binop (apply2 u64 u64 (sf_mul W64))
  | f64x2_div => Binop (apply2 u64 u64 (sf_div W64))
  | f64x2_min => Binop (apply2 u64 u64 (psizam_min W64 true))
  | f64x2_max => Binop (apply2 u64 u64 (psizam_max W64 true))
  | f64x2_pmin => Binop (apply2 u64 u64 (pmin W64))
  | f64x2_pmax => Binop (apply2 u64 u64 (pmax W64))
  | i32x4_trunc_sat_f32x4_s => Unop (apply u32 i32 (psizam_trunc_sat W32 TI32))
  | i32x4_trunc_sat_f32x4_u => Unop (apply u32 u32 (psizam_trunc_sat W32 TU32))
  | f32x4_convert_i32x4_s => Unop (apply i32 u32 (sf_of_int W32 TI32))
  | f32x4_convert_i32x4_u => Unop (apply u32 u32 (sf_of_int W32 TU32))
  | i32x4_trunc_sat_f64x2_s_zero => Unop (apply_f64x2_zero (psizam_trunc_sat W64 TI32))
  | i32x4_trunc_sat_f64x2_u_zero => Unop (apply_f64x2_zero (psizam_trunc_sat W64 TU32))
  | f64x2_convert_low_i32x4_s => Unop (apply_f32x4_low i32 (sf_of_int W64 TI32))
  | f64x2_convert_low_i32x4_u => Unop (apply_f32x4_low u32 (sf_of_int W64 TU32))
  | f32x4_demote_f64x2_zero => Unop (apply_f64x2_zero sf_demote)
  | f64x2_promote_low_f32x4 => Unop (apply_f32x4_low u32 sf_promote)
  | f32x4_relaxed_madd => Ternop (ternop u32 (fun a b c => Some (hf_madd W32 a b c)))
  | f32x4_relaxed_nmadd => Ternop (ternop u32 (fun a b c => Some (hf_nmadd W32 a b c)))
  | f64x2_relaxed_madd => Ternop (ternop u64 (fun a b c => Some (hf_madd W64 a b c)))
  | f64x2_relaxed_nmadd => Ternop (ternop u64 (fun a b c => Some (hf_nmadd W64 a b c)))
  | i16x8_relaxed_dot_i8x16_i7x16_s => Binop relaxed_dot
  | i32x4_relaxed_dot_i8x16_i7x16_add_s => Ternop relaxed_dot_add
  end.
