(* ===== verification/SimdLanes.v ===== *)
(** * Lanes of a vector

    Lemmas on the arrays that the vector handlers copy a vector to: their lanes as
    unsigned integers, handlers that work lane by lane, and the handlers that work
    on the bits of a vector. *)
From Stdlib Require Import ZArith Lia Bool String.
From stdpp Require Import base list numbers decidable option.
From S2P Require Import Prelude Types Numeric Softfloat Simd.
Import Opcode.

(** ** Lanes *)
Lemma cast_wrap t x : 0 < lane_bits t -> cast t (wrap (lane_bits t) x) = cast t x.
Proof. intros H. unfold cast. now rewrite !wrap_wrap. Qed.

(** The lanes of a vector as unsigned integers of [n] bits, and back. *)
Definition raw (n c : Z) : list Z := lanes (Lane n false) c.
Definition pack (n : Z) (l : list Z) : Z := merge (Lane n false) l.

Lemma lanes_raw t c : 0 < lane_bits t -> lanes t c = map (cast t) (raw (lane_bits t) c).
Proof.
  intros H. unfold raw, lanes. rewrite map_map. apply map_ext. intros i. cbn [lane_bits].
  unfold cast at 3. cbn [lane_signed lane_bits]. now rewrite cast_wrap.
Qed.
Lemma raw_range n c : 0 < n -> Forall (in_u n) (raw n c).
Proof. intros H. unfold raw, lanes. apply Forall_map, Forall_true. intros i. cbn. now apply wrap_range. Qed.
Lemma raw_length n c : length (raw n c) = lane_count (Lane n false).
Proof. unfold raw, lanes. now rewrite length_map, length_seq. Qed.
Lemma lanes_length t c : length (lanes t c) = lane_count t.
Proof. unfold lanes. now rewrite length_map, length_seq. Qed.

Lemma merge_range t l : 0 <= lane_bits t -> 0 <= merge t l < 2 ^ (lane_bits t * Z.of_nat (length l)).
Proof.
  intros H. unfold merge. induction l as [|x l IH]; [cbn; now rewrite Z.mul_0_r|]. cbn [fold_right length].
  replace (lane_bits t * Z.of_nat (S (length l))) with (lane_bits t + lane_bits t * Z.of_nat (length l)) by lia.
  rewrite Z.pow_add_r by lia. assert (W : 0 <= wrap (lane_bits t) x < 2 ^ lane_bits t) by (apply Z.mod_pos_bound, Z.pow_pos_nonneg; lia).
  nia.
Qed.
Lemma merge_ext t l l' : Forall2 (fun x y => wrap (lane_bits t) x = wrap (lane_bits t) y) l l' -> merge t l = merge t l'.
Proof. unfold merge. induction 1 as [|x y l l' E _ IH]; cbn [fold_right]; congruence. Qed.
(** A full array makes a vector. *)
Lemma merge_full t l : lane_bits t * Z.of_nat (length l) = 128 -> 0 <= lane_bits t -> in_u 128 (merge t l).
Proof. intros E H. pose proof (merge_range t l H) as B. now rewrite E in B. Qed.

(** ** Collecting results *)
Lemma collect_some {A B} (f : A -> option B) g l : Forall (fun x => f x = Some (g x)) l -> collect f l = Some (map g l).
Proof. induction 1 as [|x l E _ IH]; [reflexivity|]. cbn. now rewrite E, IH. Qed.
Lemma collect_none {A B} (f : A -> option B) l : Exists (fun x => f x = None) l -> collect f l = None.
Proof. induction 1 as [x l E|x l _ IH]; cbn; [now rewrite E|]. rewrite IH. now destruct (f x). Qed.

(** [f] computes [g] up to the bits that a lane keeps, and overflows on [ov]. *)
Definition meets_at (n : Z) (r : option Z) (g : Z) (ov : bool) : Prop :=
  match r with Some y => ov = false /\ wrap n y = wrap n g | None => ov = true end.
Lemma collect_meets {A} t (f : A -> option Z) g ov l : Forall (fun x => meets_at (lane_bits t) (f x) (g x) (ov x)) l ->
  merge t <$> collect f l = if existsb ov l then None else Some (merge t (map g l)).
Proof.
  rewrite List.Forall_forall. intros H. destruct (existsb ov l) eqn:E.
  - rewrite collect_none; [reflexivity|]. apply existsb_exists in E as (x & Hx & Ho). apply List.Exists_exists. exists x.
    split; [exact Hx|]. specialize (H x Hx). unfold meets_at in H. destruct (f x); [destruct H; congruence|reflexivity].
  - assert (Hd : forall x, In x l -> exists y, f x = Some y /\ wrap (lane_bits t) y = wrap (lane_bits t) (g x)).
    { intros x Hx. specialize (H x Hx). unfold meets_at in H. destruct (f x) as [y|]; [exists y; tauto|].
      assert (existsb ov l = true) by (apply existsb_exists; eauto). congruence. }
    clear H E. rewrite (collect_some f (fun x => default 0 (f x))).
    + cbn. f_equal. apply merge_ext. induction l as [|x l IH]; constructor; [|apply IH; intros; apply Hd; now right].
      destruct (Hd x (or_introl eq_refl)) as (y & -> & E). exact E.
    + apply List.Forall_forall. intros x Hx. destruct (Hd x Hx) as (y & -> & _). reflexivity.
Qed.
Lemma Forall_zip {A} (P : A -> Prop) l1 l2 : Forall P l1 -> Forall P l2 -> Forall (fun p => P p.1 /\ P p.2) (zip l1 l2).
Proof. intros H. revert l2. induction H as [|x l1 Hx _ IH]; intros [|y l2] H2; cbn; constructor; inversion_clear H2; auto. Qed.
Lemma zip_map {A B C} (f : A -> B) (g : A -> C) (l1 l2 : list A) : zip (map f l1) (map g l2) = map (fun p => (f p.1, g p.2)) (zip l1 l2).
Proof. revert l2. induction l1 as [|x l1 IH]; intros [|y l2]; cbn; f_equal; auto. Qed.
Lemma collect_map {A B C} (h : A -> B) (f : B -> option C) l : collect f (map h l) = collect (fun x => f (h x)) l.
Proof. induction l as [|x l IH]; cbn; [reflexivity|]. now rewrite IH. Qed.

(** ** The shapes, lane by lane *)
(** [f] on the lanes of two vectors. *)
Definition lift2 (n : Z) (f : Z -> Z -> Z) (c1 c2 : Z) : Z := pack n (map (fun p => f p.1 p.2) (zip (raw n c1) (raw n c2))).
Section Shapes.
Context (t : lane) (Hn : 0 < lane_bits t).
Abbreviation n := (lane_bits t).
Lemma unop_meets f g ov c : (forall x, in_u n x -> meets_at n (f (cast t x)) (g x) (ov x)) ->
  unop t f c = if existsb ov (raw n c) then None else Some (pack n (map g (raw n c))).
Proof.
  intros H. unfold unop. rewrite lanes_raw, collect_map by assumption. rewrite (collect_meets t _ g ov); [reflexivity|].
  pose proof (raw_range n c Hn) as R. rewrite List.Forall_forall in R |- *. intros x Hx. auto.
Qed.
Lemma binop_meets f g ov c1 c2 : (forall x y, in_u n x -> in_u n y -> meets_at n (f (cast t x) (cast t y)) (g x y) (ov x y)) ->
  binop t f c1 c2 = if existsb (fun p => ov p.1 p.2) (zip (raw n c1) (raw n c2)) then None
                    else Some (pack n (map (fun p => g p.1 p.2) (zip (raw n c1) (raw n c2)))).
Proof.
  intros H. unfold binop. rewrite !lanes_raw, zip_map, collect_map by assumption. rewrite (collect_meets t _ (fun p => g p.1 p.2) (fun p => ov p.1 p.2)); [reflexivity|].
  pose proof (Forall_zip _ _ _ (raw_range n c1 Hn) (raw_range n c2 Hn)) as R. rewrite List.Forall_forall in R |- *. intros p Hp. destruct (R p Hp). now apply H.
Qed.
End Shapes.


(** No lane overflows. *)
Section Total.
Context (t : lane) (Hn : 0 < lane_bits t).
Abbreviation n := (lane_bits t).
Lemma existsb_false {A} (l : list A) : existsb (fun _ => false) l = false.
Proof. now induction l. Qed.
Lemma unop_total f g c : (forall x, in_u n x -> meets_at n (f (cast t x)) (g x) false) -> unop t f c = Some (pack n (map g (raw n c))).
Proof. intros H. rewrite (unop_meets t Hn f g (fun _ => false)) by exact H. now rewrite existsb_false. Qed.
Lemma binop_total f g c1 c2 : (forall x y, in_u n x -> in_u n y -> meets_at n (f (cast t x) (cast t y)) (g x y) false) ->
  binop t f c1 c2 = Some (lift2 n g c1 c2).
Proof. intros H. rewrite (binop_meets t Hn f g (fun _ _ => false)) by exact H. now rewrite existsb_false. Qed.
End Total.


(** ** Whole vectors *)
Lemma lane_split c : in_u 128 c -> exists a b, in_u 64 a /\ in_u 64 b /\ lanes u64 c = [a; b] /\ c = a + 2 ^ 64 * b.
Proof.
  intros Hc. exists (wrap 64 c), (wrap 64 (Z.shiftr c 64)). split; [apply wrap_range; lia|]. split; [apply wrap_range; lia|]. split; [unfold lanes; cbn; reflexivity|].
  rewrite Z.shiftr_div_pow2 by lia. unfold wrap, in_u in *. change (2 ^ 128) with (2 ^ 64 * 2 ^ 64) in Hc. rewrite (Z.mod_small (c / 2 ^ 64)) by (split; [apply Z.div_pos; lia|apply Z.div_lt_upper_bound; lia]).
  rewrite Z.add_comm. apply Z.div_mod. lia.
Qed.
Lemma join_testbit a b i : in_u 64 a -> 0 <= i -> Z.testbit (a + 2 ^ 64 * b) i = if i <? 64 then Z.testbit a i else Z.testbit b (i - 64).
Proof.
  intros Ha Hi. rewrite Z.mul_comm, <- (lor_add 64) by (lia || exact Ha). rewrite Z.lor_spec, Z.shiftl_spec by lia. destruct (Z.ltb_spec i 64).
  - rewrite (Z.testbit_neg_r b) by lia. apply orb_false_r.
  - replace (Z.testbit a i) with false; [reflexivity|]. symmetry. rewrite <- (wrap_small 64 a Ha). apply Z.mod_pow2_bits_high. lia.
Qed.
Lemma wrap_testbit a i : 0 <= i -> Z.testbit (wrap 64 a) i = if i <? 64 then Z.testbit a i else false.
Proof. intros Hi. unfold wrap. destruct (Z.ltb_spec i 64); [apply Z.mod_pow2_bits_low; lia|apply Z.mod_pow2_bits_high; lia]. Qed.
Lemma merge_two x y : merge u64 [x; y] = wrap 64 x + 2 ^ 64 * wrap 64 y.
Proof. unfold merge. cbn [fold_right lane_bits u64]. lia. Qed.
(** The complement of a vector. *)
Lemma complement_lnot c : 2 ^ 128 - 1 - c = Z.lnot c + 2 ^ 128 * 1.
Proof. unfold Z.lnot. lia. Qed.
Lemma complement_testbit c i : in_u 128 c -> 0 <= i -> Z.testbit (2 ^ 128 - 1 - c) i = (i <? 128) && negb (Z.testbit c i).
Proof.
  intros Hc Hi. destruct (Z.ltb_spec i 128) as [Hl|Hl]; cbn [andb].
  - rewrite <- (Z.mod_pow2_bits_low _ 128) by lia. rewrite complement_lnot, Z.mul_comm, Z_mod_plus_full, Z.mod_pow2_bits_low by lia. now apply Z.lnot_spec.
  - apply (testbit_high 128); [unfold in_u in *; lia|exact Hl|lia].
Qed.
(** [op] works on each bit by [g]; [spec] does so on a whole vector. *)
Section Bitwise.
Context (g : bool -> bool -> bool -> bool).
Definition by_bits (spec : Z -> Z -> Z -> Z) : Prop := forall c1 c2 c3 i, in_u 128 c1 -> in_u 128 c2 -> in_u 128 c3 -> 0 <= i ->
  Z.testbit (spec c1 c2 c3) i = (i <? 128) && g (Z.testbit c1 i) (Z.testbit c2 i) (Z.testbit c3 i).
Lemma halves_meet (op spec : Z -> Z -> Z -> Z) c1 c2 c3 : (forall a b c i, 0 <= i -> Z.testbit (op a b c) i = g (Z.testbit a i) (Z.testbit b i) (Z.testbit c i)) ->
  by_bits spec -> in_u 128 c1 -> in_u 128 c2 -> in_u 128 c3 -> forall a1 b1 a2 b2 a3 b3,
  in_u 64 a1 -> in_u 64 a2 -> in_u 64 a3 -> c1 = a1 + 2 ^ 64 * b1 -> c2 = a2 + 2 ^ 64 * b2 -> c3 = a3 + 2 ^ 64 * b3 ->
  merge u64 [op a1 a2 a3; op b1 b2 b3] = spec c1 c2 c3.
Proof.
  intros Ho Hs H1 H2 H3 a1 b1 a2 b2 a3 b3 A1 A2 A3 E1 E2 E3. rewrite merge_two. apply Z.bits_inj'. intros i Hi. rewrite (Hs c1 c2 c3 i H1 H2 H3 Hi).
  rewrite join_testbit by (try apply wrap_range; lia). rewrite E1, E2, E3, !join_testbit by assumption.
  destruct (Z.ltb_spec i 64); [rewrite wrap_testbit by lia; rewrite (proj2 (Z.ltb_lt i 64)), (proj2 (Z.ltb_lt i 128)), Ho by lia; reflexivity|].
  rewrite wrap_testbit by lia. destruct (Z.ltb_spec (i - 64) 64), (Z.ltb_spec i 128); try lia; try reflexivity. now rewrite Ho by lia.
Qed.
End Bitwise.
Lemma bits1 g op spec c : (forall a i, 0 <= i -> Z.testbit (op a) i = g (Z.testbit a i)) ->
  (forall c i, in_u 128 c -> 0 <= i -> Z.testbit (spec c) i = (i <? 128) && g (Z.testbit c i)) -> in_u 128 c -> unop u64 (fun a => Some (op a)) c = Some (spec c).
Proof.
  intros Ho Hs Hc. destruct (lane_split c Hc) as (a & b & Ha & Hb & El & E). unfold unop. rewrite El. cbn [collect fmap option_fmap option_map]. f_equal.
  refine (halves_meet (fun x _ _ => g x) (fun x _ _ => op x) (fun x _ _ => spec x) c c c _ _ Hc Hc Hc a b a b a b Ha Ha Ha E E E); [now intros; apply Ho|intros ? ? ? ? ? ? ? ?; now apply Hs].
Qed.
Lemma bits2 g op spec c1 c2 : (forall a b i, 0 <= i -> Z.testbit (op a b) i = g (Z.testbit a i) (Z.testbit b i)) ->
  (forall c1 c2 i, in_u 128 c1 -> in_u 128 c2 -> 0 <= i -> Z.testbit (spec c1 c2) i = (i <? 128) && g (Z.testbit c1 i) (Z.testbit c2 i)) ->
  in_u 128 c1 -> in_u 128 c2 -> binop u64 (fun a b => Some (op a b)) c1 c2 = Some (spec c1 c2).
Proof.
  intros Ho Hs H1 H2. destruct (lane_split c1 H1) as (a1 & b1 & A1 & _ & L1 & E1), (lane_split c2 H2) as (a2 & b2 & A2 & _ & L2 & E2).
  unfold binop. rewrite L1, L2. cbn [zip zip_with collect fmap option_fmap option_map fst snd]. f_equal.
  refine (halves_meet (fun x y _ => g x y) (fun x y _ => op x y) (fun x y _ => spec x y) c1 c2 c2 _ _ H1 H2 H2 a1 b1 a2 b2 a2 b2 A1 A2 A2 E1 E2 E2); [now intros; apply Ho|intros ? ? ? ? ? ? ? ?; now apply Hs].
Qed.
Lemma bits3 g op spec c1 c2 c3 : (forall a b c i, 0 <= i -> Z.testbit (op a b c) i = g (Z.testbit a i) (Z.testbit b i) (Z.testbit c i)) -> by_bits g spec ->
  in_u 128 c1 -> in_u 128 c2 -> in_u 128 c3 -> ternop u64 (fun a b c => Some (op a b c)) c1 c2 c3 = Some (spec c1 c2 c3).
Proof.
  intros Ho Hs H1 H2 H3. destruct (lane_split c1 H1) as (a1 & b1 & A1 & _ & L1 & E1), (lane_split c2 H2) as (a2 & b2 & A2 & _ & L2 & E2), (lane_split c3 H3) as (a3 & b3 & A3 & _ & L3 & E3).
  unfold ternop. rewrite L1, L2, L3. cbn [zip zip_with collect fmap option_fmap option_map fst snd]. f_equal.
  exact (halves_meet g op spec c1 c2 c3 Ho Hs H1 H2 H3 a1 b1 a2 b2 a3 b3 A1 A2 A3 E1 E2 E3).
Qed.

(** Bit by bit. *)
Ltac bitwise := intros; rewrite ?Z.lnot_spec, ?Z.land_spec, ?Z.lor_spec, ?Z.lxor_spec, ?Z.land_spec, ?complement_testbit, ?Z.lnot_spec by assumption;
  try reflexivity; lazymatch goal with |- context [?i <? 128] => destruct (Z.ltb_spec i 128); [|rewrite ?(testbit_high 128) by (assumption || lia)] end; cbn [andb]; rewrite ?andb_true_l; try reflexivity.
