(* ===== verification/InitExpr.v ===== *)
(** * Constant initializer expressions

    Models [init_expr::evaluate] of psizam/types.hpp: constants, references to
    earlier globals, and the stack machine for extended constant expressions.
    The machine's cursor is the list of bytes not yet read.  Signed overflow
    and over-long shifts are undefined in C++ and are modelled so. *)
From Stdlib Require Import ZArith Lia Bool String.
From stdpp Require Import base list numbers decidable option.
From S2P Require Import Prelude Types.

Module InitExpr.

(** Opcodes of the expression bytes. *)
Definition op_end : Z := 0x0B.
Definition op_get_global : Z := 0x23.
Definition op_i32_const : Z := 0x41.
Definition op_i64_const : Z := 0x42.
Definition op_i32_add : Z := 0x6A.
Definition op_i32_sub : Z := 0x6B.
Definition op_i32_mul : Z := 0x6C.
Definition op_i64_add : Z := 0x7C.
Definition op_i64_sub : Z := 0x7D.
Definition op_i64_mul : Z := 0x7E.

Definition max_stack : nat := 16.

Section Eval.
Context {S : Type}.

Definition past_end {A} : M S A := throw wasm_interpreter_exception "init_expr: read past end".

(** The loop of the three readers: accumulate 7-bit groups in a [w]-bit integer;
    a shift by [w] or more is undefined.  Returns the final shift and last byte
    for the sign extension. *)
Fixpoint leb_loop (w : Z) (raw : list Z) (v shift : Z) : M S (Z * Z * Z * list Z) :=
  match raw with
  | [] => past_end
  | b :: raw' =>
      if w <=? shift then undefined else
      let v' := Z.lor v (wrap w (Z.shiftl (Z.land b 0x7f) shift)) in
      if negb (Z.land b 0x80 =? 0) then leb_loop w raw' v' (shift + 7)
      else ret (v', shift + 7, b, raw')
  end.

(** [read_leb_u32] *)
Definition read_leb_u (w : Z) (raw : list Z) : M S (Z * list Z) :=
  let* r := leb_loop w raw 0 0 in
  let '(v, _, _, raw') := r in ret (v, raw').

(** [read_leb_i32], [read_leb_i64]: the result is the signed reading of the [w]
    bits.  At [shift = w - 1] the negation of [1 << shift] overflows. *)
Definition read_leb_s (w : Z) (raw : list Z) : M S (Z * list Z) :=
  let* r := leb_loop w raw 0 0 in
  let '(v, shift, b, raw') := r in
  if (shift <? w) && negb (Z.land b 0x40 =? 0) then
    if shift =? w - 1 then undefined
    else ret (signed w (Z.lor v (wrap w (- Z.shiftl 1 shift))), raw')
  else ret (signed w v, raw').

(** The machine's stack of [int64_t], top first. *)
Definition push (st : list Z) (v : Z) : M S (list Z) :=
  psizam_assert (length st <? max_stack)%nat wasm_interpreter_exception "init_expr: stack overflow" ;;;
  ret (v :: st).
Definition pop2 (st : list Z) : M S (Z * Z * list Z) :=
  match st with
  | b :: a :: st' => ret (a, b, st')
  | _ => throw wasm_interpreter_exception "init_expr: stack underflow"
  end.

(** Signed [w]-bit arithmetic: overflow is undefined. *)
Definition signed_arith (w : Z) (f : Z -> Z -> Z) (a b : Z) : M S Z :=
  let v := f a b in
  if (- 2 ^ (w - 1) <=? v) && (v <? 2 ^ (w - 1)) then ret v else undefined.
Definition arith (w : Z) (f : Z -> Z -> Z) (st : list Z) : M S (list Z) :=
  let* p := pop2 st in
  let '(a, b, st') := p in
  let* v := signed_arith w f (signed w (wrap w a)) (signed w (wrap w b)) in
  push st' v.

(** One opcode; [None] leaves the loop. *)
Definition step_op (globals : list init_expr) (op : Z) (raw : list Z) (st : list Z) :
    M S (option (list Z * list Z)) :=
  if op =? op_i32_const then
    let* r := read_leb_s 32 raw in let* st' := push st r.1 in ret (Some (r.2, st'))
  else if op =? op_i64_const then
    let* r := read_leb_s 64 raw in let* st' := push st r.1 in ret (Some (r.2, st'))
  else if op =? op_get_global then
    let* r := read_leb_u 32 raw in
    match vec_lookup globals r.1 with
    | Some g => let* st' := push st (signed 64 (ev_i64 (ie_value g))) in ret (Some (r.2, st'))
    | None => throw wasm_interpreter_exception "init_expr: global index out of range"
    end
  else if op =? op_i32_add then let* st' := arith 32 Z.add st in ret (Some (raw, st'))
  else if op =? op_i32_sub then let* st' := arith 32 Z.sub st in ret (Some (raw, st'))
  else if op =? op_i32_mul then let* st' := arith 32 Z.mul st in ret (Some (raw, st'))
  else if op =? op_i64_add then let* st' := arith 64 Z.add st in ret (Some (raw, st'))
  else if op =? op_i64_sub then let* st' := arith 64 Z.sub st in ret (Some (raw, st'))
  else if op =? op_i64_mul then let* st' := arith 64 Z.mul st in ret (Some (raw, st'))
  else ret None.

(** [while (pos < raw_expr.size())]; each iteration reads at least its opcode,
    so the length of the expression bounds the iterations. *)
Fixpoint run (fuel : nat) (globals : list init_expr) (raw st : list Z) : M S (list Z) :=
  match fuel, raw with
  | _, [] => ret st
  | O, _ => undefined
  | Datatypes.S fuel', op :: raw' =>
      let* r := step_op globals op raw' st in
      match r with
      | Some (raw'', st') => run fuel' globals raw'' st'
      | None => ret st
      end
  end.

Definition evaluate (globals : list init_expr) (ie : init_expr) : M S expr_value :=
  match ie_raw_expr ie with
  | [] => if ie_opcode ie =? op_get_global
          then let* g := vec_index globals (signed 32 (ev_i32 (ie_value ie))) in ret (ie_value g)
          else ret (ie_value ie)
  | raw => let* st := run (length raw) globals raw [] in
           (* result.i64 = sp > 0 ? stack[0] : 0 *)
           ret (wrap 64 (List.last st 0))
  end.

(** ** The bound on the iterations is enough *)
Lemma leb_loop_shorter w raw v shift s r s' :
  leb_loop w raw v shift s = Ok r s' -> (length r.2 < length raw)%nat.
Proof.
  revert v shift. induction raw as [|b raw IH]; intros v shift; cbn [leb_loop]; [discriminate|].
  destruct (_ <=? _); [discriminate|]. destruct (negb _).
  - intros E. apply IH in E. cbn [length]. lia.
  - intros [= <- _]. cbn. lia.
Qed.
Lemma step_op_shorter globals op raw st s raw' st' s' :
  step_op globals op raw st s = Ok (Some (raw', st')) s' -> (length raw' <= length raw)%nat.
Proof.
  unfold step_op, arith, read_leb_s, read_leb_u. intros E.
  repeat match type of E with (if ?b then _ else _) _ = _ => destruct b end; try discriminate E;
    apply bind_ok in E as (r & s1 & E1 & E);
    try (apply bind_ok in E as (st1 & s2 & _ & E); injection E as <- _ _);
    try (injection E as <- _ _; reflexivity).
  1,2: apply bind_ok in E1 as ([[[v sh] b] raw1] & s3 & E1 & E2);
    destruct (_ && _) in E2; [destruct (_ =? _) in E2; [discriminate|]|];
    injection E2 as <- _; cbn; apply leb_loop_shorter in E1; cbn in E1; lia.
  apply bind_ok in E1 as ([[[v sh] b] raw1] & s3 & E1 & E2). injection E2 as <- _. cbn in E.
  destruct (vec_lookup globals v); [|discriminate]. apply bind_ok in E as (st1 & s4 & _ & E). injection E as <- _ _.
  apply leb_loop_shorter in E1. cbn in E1. lia.
Qed.
Lemma run_fuel fuel fuel' globals raw st s :
  (length raw <= fuel)%nat -> (length raw <= fuel')%nat -> run fuel globals raw st s = run fuel' globals raw st s.
Proof.
  revert fuel' raw st s. induction fuel as [|fuel IH]; intros fuel' [|op raw] st s Hf Hf'; cbn [length] in *; try lia;
    destruct fuel' as [|fuel']; try lia; try reflexivity.
  cbn [run]. unfold bind. destruct (step_op globals op raw st s) as [[[raw' st']|] s1|e s1|] eqn:E; try reflexivity.
  apply step_op_shorter in E. apply IH; lia.
Qed.

End Eval.
End InitExpr.
