(* ===== verification/ConstExpr.v ===== *)
(** * Extended constant expressions

    The evaluator of [init_expr] is a stack machine over the expression's bytes.
    Here constant expressions are trees with a meaning and an encoding, and the
    machine is shown to compute the meaning of every encoded tree that fits its
    stack.  The LEB128 readers of the machine, separate code from the parser's,
    are shown to invert the encoders of [Leb128]. *)
From Stdlib Require Import ZArith Lia Bool String.
From stdpp Require Import base list numbers decidable option.
From S2P Require Import Prelude Leb128 Types InitExpr.
Import Leb Opcode.

(** ** The readers *)
Lemma wrap_shift w sh x : 0 <= sh <= w -> wrap w (Z.shiftl x sh) = Z.shiftl (wrap (w - sh) x) sh.
Proof.
  intros H. unfold wrap. rewrite !Z.shiftl_mul_pow2 by lia.
  replace (2 ^ w) with (2 ^ (w - sh) * 2 ^ sh) by (rewrite <- Z.pow_add_r by lia; f_equal; lia).
  apply Z.mul_mod_distr_r; apply Z.pow_nonzero; lia.
Qed.

(** A value shifted above [sh] bits already read, truncated to [w] bits. *)
Lemma lor_wrap_shift w v x sh : 0 <= sh < w -> in_u sh v ->
  Z.lor v (wrap w (Z.shiftl x sh)) = wrap w (v + x * 2 ^ sh).
Proof.
  intros Hs Hv. rewrite wrap_shift, lor_add by (auto; lia).
  assert (E : 2 ^ w = 2 ^ (w - sh) * 2 ^ sh) by (rewrite <- Z.pow_add_r by lia; f_equal; lia).
  pose proof (wrap_range (w - sh) ltac:(lia) x) as Hr. unfold in_u in *.
  rewrite <- (wrap_small w (v + wrap _ _ * _)) by (unfold in_u; nia).
  replace (v + x * 2 ^ sh) with (v + wrap (w - sh) x * 2 ^ sh + x / 2 ^ (w - sh) * 2 ^ w).
  - symmetry. now apply wrap_add_pow.
  - unfold wrap. rewrite E. pose proof (Z.div_mod x (2 ^ (w - sh)) ltac:(apply Z.pow_nonzero; lia)). nia.
Qed.

Section Readers.
Context {S : Type}.

Lemma leb_loop_val w bs : leb_wf bs -> forall rest v sh (s : S),
  0 <= sh -> sh + 7 * (Z.of_nat (length bs) - 1) < w -> in_u sh v ->
  exists l, list.last bs = Some l /\
    InitExpr.leb_loop w (bs ++ rest) v sh s = Ok (wrap w (v + leb_val bs * 2 ^ sh), sh + 7 * Z.of_nat (length bs), l, rest) s.
Proof.
  induction 1 as [b Hb|b bs Hb Hbs IH]; intros rest v sh s Hsh Hw Hv;
    cbn [length app InitExpr.leb_loop leb_val] in *; destruct (Z.leb_spec w sh);
    try (pose proof (leb_wf_len bs Hbs)); try lia;
    rewrite lor_wrap_shift, land127, cont_flag by (auto; lia).
  - exists b. split; [reflexivity|]. destruct (Z.ltb_spec b 128); [|lia]. cbn [negb].
    unfold ret. rewrite Z.mul_0_r, Z.add_0_r. reflexivity.
  - destruct (Z.ltb_spec b 128); [lia|]. cbn [negb].
    assert (Hm : 0 <= b mod 128 < 128) by (apply Z.mod_pos_bound; lia).
    assert (E7 : 2 ^ (sh + 7) = 128 * 2 ^ sh) by (rewrite Z.pow_add_r by lia; lia).
    assert (Hv1 : in_u (sh + 7) (v + b mod 128 * 2 ^ sh)) by (unfold in_u in *; nia).
    assert (2 ^ (sh + 7) <= 2 ^ w) by (apply Z.pow_le_mono_r; lia).
    rewrite wrap_small by (unfold in_u in *; lia).
    destruct (IH rest _ (sh + 7) s ltac:(lia) ltac:(lia) Hv1) as (l & El & ->).
    exists l. split; [destruct bs; [inversion Hbs|exact El]|].
    replace (v + (b mod 128 + 128 * leb_val bs) * 2 ^ sh) with (v + b mod 128 * 2 ^ sh + leb_val bs * 2 ^ (sh + 7)) by lia.
    do 4 f_equal. lia.
Qed.

Lemma read_leb_u_val w bs rest (s : S) : leb_wf bs -> 7 * (Z.of_nat (length bs) - 1) < w ->
  InitExpr.read_leb_u w (bs ++ rest) s = Ok (wrap w (leb_val bs), rest) s.
Proof.
  intros Hbs Hl. destruct (leb_loop_val w bs Hbs rest 0 0 s) as (l & _ & E); [lia|lia|unfold in_u; lia|].
  unfold InitExpr.read_leb_u. rewrite (bind_Ok _ _ _ _ _ E). rewrite Z.mul_1_r. reflexivity.
Qed.

(** The signed reader, except at the one length where it negates [INT64_MIN]. *)
Lemma read_leb_s_val w bs rest (s : S) : leb_wf bs -> 7 * (Z.of_nat (length bs) - 1) < w -> 0 < w ->
  7 * Z.of_nat (length bs) <> w - 1 \/ 0 <= leb_sval bs ->
  InitExpr.read_leb_s w (bs ++ rest) s = Ok (signed w (wrap w (leb_sval bs)), rest) s.
Proof.
  intros Hbs Hl Hw Hn. destruct (leb_loop_val w bs Hbs rest 0 0 s) as (l & El & E); [lia|lia|unfold in_u; lia|].
  destruct (leb_sval_val bs Hbs) as (l' & El' & Hl' & Hs). rewrite El in El'. injection El' as <-.
  pose proof (leb_val_bound bs) as Hb.
  unfold InitExpr.read_leb_s. rewrite (bind_Ok _ _ _ _ _ E), Z.mul_1_r, !Z.add_0_l, sign_flag by assumption.
  set (sh := 7 * Z.of_nat (length bs)) in *. destruct (Z.ltb_spec sh w) as [Hsh|Hsh]; cbn [andb].
  - destruct (l <? 64) eqn:E64; cbn [negb]; [now rewrite Hs, Z.sub_0_r|].
    destruct (Z.eqb_spec sh (w - 1)); [lia|].
    assert (2 ^ sh <= 2 ^ w) by (apply Z.pow_le_mono_r; lia).
    rewrite (wrap_small w (leb_val bs)) by (unfold in_u; lia).
    replace (- Z.shiftl 1 sh) with (Z.shiftl (-1) sh) by (rewrite !Z.shiftl_mul_pow2 by lia; lia).
    rewrite lor_wrap_shift by (auto; lia). rewrite Hs. unfold ret. do 4 f_equal.
  - destruct (l <? 64); [now rewrite Hs, Z.sub_0_r|]. unfold ret. do 3 f_equal. rewrite Hs.
    replace (2 ^ sh) with (2 ^ (sh - w) * 2 ^ w) by (rewrite <- Z.pow_add_r by lia; f_equal; lia).
    rewrite <- (wrap_add_pow w (leb_val bs - _) (2 ^ (sh - w))). f_equal. lia.
Qed.
End Readers.

(** ** Instructions and trees

    A constant is kept as the bytes of its immediate, so that every encoding
    the parser accepts is covered, the longer ones included. *)
Inductive arith_op := OpAdd | OpSub | OpMul.

Inductive const_instr :=
  | KConst (w : width) (imm : list Z)
  | KGlobal (imm : list Z)
  | KArith (w : width) (op : arith_op).

Inductive const_expr :=
  | ELeaf (w : width) (imm : list Z)
  | EGlobal (imm : list Z)
  | EArith (w : width) (op : arith_op) (a b : const_expr).

Definition bits (w : width) : Z := match w with W32 => 32 | W64 => 64 end.
Definition op_fun (op : arith_op) : Z -> Z -> Z :=
  match op with OpAdd => Z.add | OpSub => Z.sub | OpMul => Z.mul end.
Definition op_byte (w : width) (op : arith_op) : Z :=
  match w, op with
  | W32, OpAdd => InitExpr.op_i32_add | W32, OpSub => InitExpr.op_i32_sub | W32, OpMul => InitExpr.op_i32_mul
  | W64, OpAdd => InitExpr.op_i64_add | W64, OpSub => InitExpr.op_i64_sub | W64, OpMul => InitExpr.op_i64_mul
  end.

(** The bytes of an instruction and of a sequence. *)
Definition instr_bytes (i : const_instr) : list Z :=
  match i with
  | KConst W32 imm => InitExpr.op_i32_const :: imm
  | KConst W64 imm => InitExpr.op_i64_const :: imm
  | KGlobal imm => InitExpr.op_get_global :: imm
  | KArith w op => [op_byte w op]
  end.
Definition code_bytes (code : list const_instr) : list Z := code ≫= instr_bytes.

(** Immediates as the binary format has them. *)
Definition imm_wf (w : width) (imm : list Z) : Prop :=
  leb_wf imm /\ (length imm <= bytes_needed (bits w))%nat.
Definition instr_wf (i : const_instr) : Prop :=
  match i with
  | KConst w imm => imm_wf w imm /\ in_s (bits w) (leb_sval imm)
  | KGlobal imm => imm_wf W32 imm /\ in_u 32 (leb_val imm)
  | KArith _ _ => True
  end.

(** Post-order code of a tree, and the operand stack it needs. *)
Fixpoint code_of (e : const_expr) : list const_instr :=
  match e with
  | ELeaf w imm => [KConst w imm]
  | EGlobal imm => [KGlobal imm]
  | EArith w op a b => code_of a ++ code_of b ++ [KArith w op]
  end.
Fixpoint depth (e : const_expr) : nat :=
  match e with
  | ELeaf _ _ | EGlobal _ => 1
  | EArith _ _ a b => Nat.max (depth a) (S (depth b))
  end.

(** The WebAssembly value of a tree: arithmetic on the [w]-bit operands. *)
Definition operand (w : width) (x : Z) : Z := signed (bits w) (wrap (bits w) x).
Fixpoint value (globals : list init_expr) (e : const_expr) : Z :=
  match e with
  | ELeaf _ imm => leb_sval imm
  | EGlobal imm => match vec_lookup globals (leb_val imm) with
                   | Some g => signed 64 (ev_i64 (ie_value g))
                   | None => 0
                   end
  | EArith w op a b => operand w (op_fun op (operand w (value globals a)) (operand w (value globals b)))
  end.

(** The globals a tree names exist, no intermediate result overflows its width,
    and no 64-bit constant is the 9-byte negative one the reader cannot read. *)
Definition readable (w : width) (imm : list Z) : Prop :=
  7 * Z.of_nat (length imm) <> bits w - 1 \/ 0 <= leb_sval imm.
Fixpoint evaluable (globals : list init_expr) (e : const_expr) : Prop :=
  match e with
  | ELeaf w imm => readable w imm
  | EGlobal imm => leb_val imm < vec_size globals
  | EArith w op a b =>
      evaluable globals a /\ evaluable globals b /\
      in_s (bits w) (op_fun op (operand w (value globals a)) (operand w (value globals b)))
  end.

Section Machine.
Context {St : Type} (globals : list init_expr).

Lemma step_op_const w imm rest st (s : St) : instr_wf (KConst w imm) -> readable w imm ->
  InitExpr.step_op globals (match w with W32 => InitExpr.op_i32_const | W64 => InitExpr.op_i64_const end) (imm ++ rest) st s
  = bind (InitExpr.push st (leb_sval imm)) (fun st' => ret (Some (rest, st'))) s.
Proof.
  intros [[Hbs Hl] Hv] Hr.
  assert (E : InitExpr.read_leb_s (bits w) (imm ++ rest) s = Ok (leb_sval imm, rest) s).
  { rewrite read_leb_s_val; [|assumption|destruct w; cbn in *; lia|destruct w; cbn; lia|exact Hr].
    now rewrite signed_wrap by (auto; destruct w; cbn; lia). }
  destruct w; unfold InitExpr.step_op; cbn [Z.eqb InitExpr.op_i32_const InitExpr.op_i64_const Pos.eqb];
    cbn [bits] in E; now rewrite (bind_Ok _ _ _ _ _ E).
Qed.

Lemma step_op_global imm rest st (s : St) : instr_wf (KGlobal imm) -> leb_val imm < vec_size globals ->
  InitExpr.step_op globals InitExpr.op_get_global (imm ++ rest) st s
  = bind (InitExpr.push st (value globals (EGlobal imm))) (fun st' => ret (Some (rest, st'))) s.
Proof.
  intros [[Hbs Hl] Hv] Hr. unfold InitExpr.step_op.
  cbn [Z.eqb InitExpr.op_i32_const InitExpr.op_i64_const InitExpr.op_get_global Pos.eqb].
  erewrite bind_Ok by (apply read_leb_u_val; [assumption|cbn in *; lia]). cbn [fst snd value].
  rewrite wrap_small by assumption.
  destruct (vec_lookup_range globals (leb_val imm)) as [g ->]; [unfold in_u in Hv; lia|reflexivity].
Qed.

Lemma step_op_arith w op a b rest st (s : St) :
  (length st < InitExpr.max_stack)%nat ->
  in_s (bits w) (op_fun op (operand w a) (operand w b)) ->
  InitExpr.step_op globals (op_byte w op) rest (b :: a :: st) s
  = Ok (Some (rest, operand w (op_fun op (operand w a) (operand w b)) :: st)) s.
Proof.
  intros Hl Hs. unfold operand at 1. rewrite signed_wrap by (auto; destruct w; cbn; lia).
  assert (E : InitExpr.arith (bits w) (op_fun op) (b :: a :: st) s
              = Ok (op_fun op (operand w a) (operand w b) :: st) s).
  { unfold InitExpr.arith, InitExpr.signed_arith, bind, InitExpr.pop2, ret.
    fold (operand w a) (operand w b). unfold in_s in Hs.
    destruct (Z.leb_spec (- 2 ^ (bits w - 1)) (op_fun op (operand w a) (operand w b))); [|lia].
    destruct (Z.ltb_spec (op_fun op (operand w a) (operand w b)) (2 ^ (bits w - 1))); [|lia]. cbn [andb].
    unfold InitExpr.push, bind. apply Nat.ltb_lt in Hl. now rewrite Hl. }
  destruct w, op; exact (bind_Ok _ _ _ _ _ E).
Qed.

(** The machine with as much fuel as there are bytes. *)
Definition run_all (raw st : list Z) : M St (list Z) := InitExpr.run (length raw) globals raw st.

Lemma run_all_cons op raw st s :
  run_all (op :: raw) st s =
  bind (InitExpr.step_op globals op raw st)
       (fun r => match r with Some (raw', st') => run_all raw' st' | None => ret st end) s.
Proof.
  unfold run_all. cbn [length InitExpr.run]. unfold bind.
  destruct (InitExpr.step_op globals op raw st s) as [[[raw' st']|] s1|e s1|] eqn:E; try reflexivity.
  apply InitExpr.step_op_shorter in E. apply InitExpr.run_fuel; lia.
Qed.

Definition stack_overflow : exn := Exn wasm_interpreter_exception "init_expr: stack overflow".

Lemma run_all_push op raw rest v st s :
  InitExpr.step_op globals op raw st s = bind (InitExpr.push st v) (fun st' => ret (Some (rest, st'))) s ->
  run_all (op :: raw) st s =
  if (length st + 1 <=? InitExpr.max_stack)%nat then run_all rest (v :: st) s else Throw stack_overflow s.
Proof.
  intros E. rewrite run_all_cons. unfold bind in *. rewrite E. unfold InitExpr.push, bind, psizam_assert.
  replace (length st + 1 <=? InitExpr.max_stack)%nat with (length st <? InitExpr.max_stack)%nat
    by (rewrite Nat.add_1_r; reflexivity).
  now destruct (_ <? _)%nat.
Qed.

Lemma code_bytes_app c1 c2 : code_bytes (c1 ++ c2) = code_bytes c1 ++ code_bytes c2.
Proof. apply bind_app. Qed.

(** The code of a tree pushes the tree's value, or overflows the stack when the
    tree is too deep for what is left of it. *)
Lemma run_code e : Forall instr_wf (code_of e) -> evaluable globals e -> forall rest st s,
  run_all (code_bytes (code_of e) ++ rest) st s =
  if (length st + depth e <=? InitExpr.max_stack)%nat then run_all rest (value globals e :: st) s
  else Throw stack_overflow s.
Proof.
  induction e as [w imm|imm|w op a IHa b IHb]; intros Hwf Hev rest st s; cbn [code_of depth] in *.
  - apply Forall_inv in Hwf. replace (code_bytes _ ++ rest) with
      ((match w with W32 => InitExpr.op_i32_const | W64 => InitExpr.op_i64_const end) :: imm ++ rest)
      by (destruct w; unfold code_bytes; simpl; now rewrite app_nil_r).
    apply run_all_push. now apply step_op_const.
  - apply Forall_inv in Hwf. cbn [code_bytes mbind list_bind instr_bytes app]. rewrite app_nil_r.
    apply run_all_push. now apply step_op_global.
  - cbn [code_of evaluable] in *. destruct Hev as (Ha & Hb & Hs).
    apply Forall_app in Hwf as [Wa Wb]. apply Forall_app in Wb as [Wb _].
    rewrite !code_bytes_app, <- !app_assoc, IHa by assumption.
    destruct (Nat.leb_spec (length st + depth a) InitExpr.max_stack) as [La|La].
    2:{ rewrite (proj2 (Nat.leb_gt _ _)) by lia. reflexivity. }
    rewrite IHb by assumption. cbn [length].
    replace (S (length st) + depth b)%nat with (length st + S (depth b))%nat by lia.
    destruct (Nat.leb_spec (length st + S (depth b)) InitExpr.max_stack) as [Lb|Lb].
    2:{ rewrite (proj2 (Nat.leb_gt _ _)) by lia. reflexivity. }
    rewrite (proj2 (Nat.leb_le _ _)) by lia. cbn [code_bytes mbind list_bind instr_bytes app].
    rewrite run_all_cons. unfold bind. rewrite step_op_arith by (auto; lia). reflexivity.
Qed.

End Machine.

Definition encoded (e : const_expr) : list Z := code_bytes (code_of e) ++ [InitExpr.op_end].

(** The evaluator of extended constant expressions computes the WebAssembly
    value of every well-formed expression whose globals exist and whose
    intermediate results do not overflow, for any encoding of its constants;
    an expression that needs more than 16 operands is refused with a stack
    overflow, and nothing else can happen. *)
Lemma evaluate_computes_value {St} globals e op v (s : St) :
  Forall instr_wf (code_of e) -> evaluable globals e ->
  InitExpr.evaluate globals {| ie_value := v; ie_opcode := op; ie_raw_expr := encoded e |} s =
  if (depth e <=? InitExpr.max_stack)%nat then Ok (wrap 64 (value globals e)) s else Throw stack_overflow s.
Proof.
  intros Hwf Hev. unfold InitExpr.evaluate. cbn [ie_raw_expr].
  pose proof (run_code globals e Hwf Hev [InitExpr.op_end] [] s) as E. cbn [length Nat.add] in E.
  fold (encoded e) in E. unfold run_all at 1 in E. unfold bind.
  destruct (encoded e) as [|b raw] eqn:Ee.
  { apply app_eq_nil in Ee as [_ Ee]. discriminate. }
  rewrite E. destruct (_ <=? _)%nat; reflexivity.
Qed.

(** Well-formedness of a concrete instruction. *)
Ltac solve_instr :=
  match goal with
  | |- instr_wf (KArith _ _) => exact I
  | |- _ => split; [split; [repeat (first [apply leb_last; lia|apply leb_more; [lia|]])|apply Nat.leb_le; reflexivity]
                   |split; vm_compute; [discriminate|reflexivity]]
  end.
