(* ===== verification/ParseInit.v ===== *)
(** * Parsing constant expressions

    Models [binary_parser::parse_init_expr] and the readers it uses
    (psizam/detail/parser.hpp): the initializers of globals and the offsets of
    data and element segments.  What the parser accepts is shown to be the code
    of an expression tree, which links the parser to the evaluator of
    [InitExpr]. *)
From Stdlib Require Import ZArith Lia Bool String.
From stdpp Require Import base list numbers decidable option.
From S2P Require Import Prelude Leb128 Types InitExpr ConstExpr.
Import GuardedPtr Leb Opcode.

Module Parser.

Definition op_f32_const : Z := 0x43.
Definition op_f64_const : Z := 0x44.
Definition op_ref_null : Z := 0xD0.
Definition op_ref_func : Z := 0xD2.
Definition op_vector_prefix : Z := 0xFD.
Definition op_v128_const : Z := 12.

(** [*code++]: the increment is checked first, then the copy is dereferenced. *)
Definition next : M guarded_ptr Z :=
  let* g := get in
  incr ;;;
  psizam_assert (gp_raw g <? gp_bnds g) guarded_ptr_exception "accessing out of bounds" ;;;
  deref (gp_raw g).

(** [memcpy] of [n] bytes at offset [i], little endian. *)
Fixpoint memcpy_le (n : nat) (i : Z) : M guarded_ptr Z :=
  match n with
  | O => ret 0
  | S n' => let* b := deref i in let* r := memcpy_le n' (i + 1) in ret (b + 256 * r)
  end.

(** [parse_raw<T>] and [parse_v128], [n] the size of the type. *)
Definition parse_raw (n : nat) : M guarded_ptr Z :=
  scoped_shrink_bounds (Z.of_nat n)
    (let* g := get in
     let* r := memcpy_le n (gp_raw g) in
     advance (Z.of_nat n) ;;; ret r).

(** Assignment to a member of [n] bits of the union. *)
Definition set_member (n : Z) (old x : expr_value) : expr_value :=
  Z.shiftl (Z.shiftr old n) n + wrap n x.

Definition check (b : bool) (msg : string) : M guarded_ptr unit := psizam_assert b wasm_parse_exception msg.

Section Parse.
(** [_mod->globals] and the option [enable_simd]. *)
Context (globals : list global_variable) (enable_simd : bool).

Definition parse_global_ref (max_global_idx : Z) : M guarded_ptr Z :=
  let* global_idx := parse_varuint 32 in
  check (global_idx <? max_global_idx) "global.get in init must reference an already-declared global" ;;;
  let* g := vec_index globals global_idx in
  check (negb (mutability (gv_type g))) "global.get in init must reference an immutable global" ;;;
  ret global_idx.

(** The first instruction: the value it leaves in the expression. *)
Definition parse_first (opcode : Z) (v : expr_value) (type max_global_idx : Z) : M guarded_ptr expr_value :=
  if opcode =? InitExpr.op_i32_const then let* x := parse_varint 32 in ret (set_member 32 v x)
  else if opcode =? InitExpr.op_i64_const then let* x := parse_varint 64 in ret (set_member 64 v x)
  else if opcode =? op_f32_const then
    let* x := parse_raw 4 in check (type =? types.f32) "expected f32 initializer" ;;; ret (set_member 32 v x)
  else if opcode =? op_f64_const then
    let* x := parse_raw 8 in check (type =? types.f64) "expected f64 initializer" ;;; ret (set_member 64 v x)
  else if opcode =? op_vector_prefix then
    check enable_simd "SIMD not enabled" ;;;
    let* vec_op := parse_varuint 32 in
    check (vec_op =? op_v128_const) "Expected v128.const" ;;;
    let* x := parse_raw 16 in check (type =? types.v128) "expected v128 initializer" ;;; ret (set_member 128 v x)
  else if opcode =? op_ref_null then
    check ((type =? types.funcref) || (type =? types.externref)) "expected reference type for ref.null" ;;;
    incr ;;; ret (set_member 64 v UINT32_MAX)
  else if opcode =? op_ref_func then
    let* func_idx := parse_varuint 32 in
    check (type =? types.funcref) "expected funcref for ref.func" ;;; ret (set_member 32 v func_idx)
  else if opcode =? InitExpr.op_get_global then
    let* global_idx := parse_global_ref max_global_idx in ret (set_member 32 v global_idx)
  else throw wasm_parse_exception "invalid opcode in constant expression".

(** The type check of an expression of one instruction. *)
Definition check_simple (opcode : Z) (v : expr_value) (type : Z) : M guarded_ptr unit :=
  if opcode =? InitExpr.op_i32_const then check (type =? types.i32) "expected i32 initializer"
  else if opcode =? InitExpr.op_i64_const then check (type =? types.i64) "expected i64 initializer"
  else if opcode =? InitExpr.op_get_global then
    let* g := vec_index globals (signed 32 (ev_i32 v)) in
    check (content_type (gv_type g) =? type) "type mismatch"
  else ret tt.

Definition is_arith (op : Z) : bool :=
  (op =? InitExpr.op_i32_add) || (op =? InitExpr.op_i32_sub) || (op =? InitExpr.op_i32_mul)
  || (op =? InitExpr.op_i64_add) || (op =? InitExpr.op_i64_sub) || (op =? InitExpr.op_i64_mul).

(** One further instruction: the new [stack_depth], a [uint32_t]. *)
Definition parse_more (op stack_depth max_global_idx : Z) : M guarded_ptr Z :=
  if op =? InitExpr.op_i32_const then parse_varint 32 ;;; ret (wrap 32 (stack_depth + 1))
  else if op =? InitExpr.op_i64_const then parse_varint 64 ;;; ret (wrap 32 (stack_depth + 1))
  else if op =? InitExpr.op_get_global then parse_global_ref max_global_idx ;;; ret (wrap 32 (stack_depth + 1))
  else if is_arith op then
    check (2 <=? stack_depth) "stack underflow in constant expression" ;;; ret (wrap 32 (stack_depth - 1))
  else throw wasm_parse_exception "invalid opcode in extended constant expression".

(** The loop up to [opcodes::end]: every iteration consumes its opcode, so the
    bytes that are left bound the iterations. *)
Fixpoint parse_rest (fuel : nat) (stack_depth max_global_idx : Z) : M guarded_ptr Z :=
  match fuel with
  | O => undefined
  | S fuel' =>
      let* b := current in
      if b =? InitExpr.op_end then ret stack_depth else
      let* op := next in
      let* d := parse_more op stack_depth max_global_idx in
      parse_rest fuel' d max_global_idx
  end.

(** [raw_expr.assign(expr_start, code.raw())] *)
Definition slice (from : Z) (g : guarded_ptr) : list Z :=
  take (Z.to_nat (gp_raw g - from)) (drop (Z.to_nat from) (gp_data g)).

Definition parse_init_expr (ie : init_expr) (type max_global_idx : Z) : M guarded_ptr init_expr :=
  let* start := gets gp_raw in
  let* opcode := next in
  let* v := parse_first opcode (ie_value ie) type max_global_idx in
  let* b := current in
  if b =? InitExpr.op_end then
    check_simple opcode v type ;;; incr ;;;
    ret {| ie_value := v; ie_opcode := opcode; ie_raw_expr := ie_raw_expr ie |}
  else
    check ((type =? types.i32) || (type =? types.i64)) "extended const expressions only produce i32 or i64" ;;;
    let* n := gets (fun g => Z.to_nat (avail g)) in
    let* d := parse_rest (S n) 1 max_global_idx in
    check (d =? 1) "constant expression must produce exactly one value" ;;;
    incr ;;;
    let* raw := gets (slice start) in
    ret {| ie_value := v; ie_opcode := InitExpr.op_i32_const; ie_raw_expr := raw |}.

End Parse.
End Parser.
Import Parser.

(** ** Consuming bytes *)

(** The pointer moved over exactly [bs]. *)
Definition ate (g g' : guarded_ptr) (bs : list Z) : Prop :=
  reads g bs /\ g' = set_raw (gp_raw g + Z.of_nat (length bs)) g.

(** A pointer inside its buffer, over bytes. *)
Definition good (g : guarded_ptr) : Prop := wf g /\ Forall (in_u 8) (gp_data g).

Lemma ate_good g g' bs : good g -> ate g g' bs -> good g'.
Proof.
  intros [Hwf Hb] [[_ Hr] ->]. split; [|exact Hb]. apply set_raw_wf; auto; lia.
Qed.

Lemma bytes_at_app g off b1 b2 : 0 <= off ->
  bytes_at g off (b1 ++ b2) <-> bytes_at g off b1 /\ bytes_at g (off + Z.of_nat (length b1)) b2.
Proof.
  intros Ho. revert off Ho. induction b1 as [|b b1 IH]; intros off Ho; cbn [app].
  - unfold bytes_at at 2. cbn. rewrite Z.add_0_r. tauto.
  - rewrite !bytes_at_cons, IH by lia. cbn [length].
    replace (off + Z.of_nat (S (length b1))) with (off + 1 + Z.of_nat (length b1)) by lia. tauto.
Qed.

Lemma ate_app g g1 g2 b1 b2 : good g -> ate g g1 b1 -> ate g1 g2 b2 -> ate g g2 (b1 ++ b2).
Proof.
  intros [Hwf _] [[H1 L1] ->] [[H2 L2] ->]. cbn in *. destruct Hwf as [[Hw _] _].
  split; [split|].
  - apply bytes_at_app; [lia|]. auto.
  - rewrite length_app. lia.
  - unfold set_raw. cbn. rewrite length_app. f_equal. lia.
Qed.

Lemma ate_nil g : good g -> ate g g [].
Proof.
  intros [[[? ?] ?] _]. split; [split; [reflexivity|cbn; lia]|].
  unfold set_raw. destruct g; cbn. f_equal. lia.
Qed.

Lemma reads_one g b : good g -> gp_raw g < gp_bnds g -> gp_data g !! Z.to_nat (gp_raw g) = Some b ->
  reads g [b] /\ in_u 8 b.
Proof.
  intros [Hwf Hb] Hlt E. split; [split; [|cbn; lia]|].
  - apply bytes_at_cons; [destruct Hwf; lia|]. split; [exact E|reflexivity].
  - exact (Forall_lookup_1 _ _ _ _ Hb E).
Qed.

Definition any {S} (_ : exn) (_ : S) : Prop := True.

Lemma current_wp g : good g ->
  wp current (fun b g' => g' = g /\ in_u 8 b /\ reads g [b]) any g.
Proof.
  intros Hg. unfold wp, current, bind, get, psizam_assert.
  destruct (Z.ltb_spec (gp_raw g) (gp_bnds g)) as [H|H]; cbn; [|exact I].
  destruct (deref_wf g (gp_raw g)) as [b E]; [apply Hg|destruct Hg as [[? ?] ?]; lia|]. rewrite E.
  split; [reflexivity|]. unfold deref in E. destruct (_ <? 0); [discriminate|].
  destruct (gp_data g !! _) eqn:El; [|discriminate]. injection E as ->.
  destruct (reads_one g b Hg H El). auto.
Qed.

Lemma incr_ate g b : reads g [b] -> incr g = Ok tt (set_raw (gp_raw g + 1) g) /\ ate g (set_raw (gp_raw g + 1) g) [b].
Proof.
  intros Hr. split; [|split; auto]. destruct Hr as [_ Hr]. cbn in Hr. unfold incr, bind, get, psizam_assert.
  destruct (Z.ltb_spec (gp_raw g) (gp_bnds g)); [reflexivity|lia].
Qed.

Lemma next_wp g : good g -> wp next (fun b g' => in_u 8 b /\ ate g g' [b]) any g.
Proof.
  intros Hg. unfold wp, next, incr, bind, get, psizam_assert.
  destruct (Z.ltb_spec (gp_raw g) (gp_bnds g)) as [H|H]; cbn; [|exact I].
  destruct (deref_wf g (gp_raw g)) as [b E]; [apply Hg|destruct Hg as [[? ?] ?]; lia|].
  unfold deref in *. cbn. destruct (_ <? 0); [discriminate|].
  destruct (gp_data g !! _) eqn:El; [|discriminate]. destruct (reads_one g _ Hg H El). split; [assumption|]. split; [assumption|reflexivity].
Qed.

Lemma wp_check b msg Q g : (b = true -> Q tt g) -> wp (check b msg) Q any g.
Proof. unfold wp, check, psizam_assert. destruct b; cbn; [auto|intros _; exact I]. Qed.

Lemma parse_varint_wp w g : good g ->
  wp (parse_varint (bits w))
     (fun v g' => exists imm, ate g g' imm /\ instr_wf (KConst w imm) /\ v = leb_sval imm) any g.
Proof.
  intros [Hwf Hb]. eapply wp_mono; [| |apply parse_varint_reads; auto; destruct w; unfold wide; auto]; [|intros; exact I].
  intros v g' (bs & Hr & Hl & Hn & -> & Hs & ->). exists bs. split; [now split|]. split; [|reflexivity]. now split.
Qed.

Lemma parse_varuint_wp g : good g ->
  wp (parse_varuint 32)
     (fun v g' => exists imm, ate g g' imm /\ instr_wf (KGlobal imm) /\ v = leb_val imm) any g.
Proof.
  intros [Hwf Hb]. eapply wp_mono; [| |apply parse_varuint_reads; auto; unfold wide; auto]; [|intros; exact I].
  intros v g' (bs & Hr & Hl & Hn & -> & Hs & ->). exists bs. split; [now split|]. split; [|reflexivity]. now split.
Qed.


(** ** What the parser accepts *)

(** A reference to an immutable global below [max]. *)
Definition declared (globals : list global_variable) (max i : Z) : Prop :=
  i < max /\ exists g, vec_lookup globals i = Some g /\ mutability (gv_type g) = false.
Definition instr_ok (globals : list global_variable) (max : Z) (i : const_instr) : Prop :=
  instr_wf i /\ match i with KGlobal imm => declared globals max (leb_val imm) | _ => True end.

(** Trees whose values are on the stack, the deepest first. *)
Definition forest_code (f : list const_expr) : list const_instr := f ≫= code_of.

Lemma forest_code_push f e : forest_code (f ++ [e]) = forest_code f ++ code_of e.
Proof. unfold forest_code. rewrite bind_app. cbn. now rewrite app_nil_r. Qed.

Lemma forest_code_arith f w op a b :
  forest_code (f ++ [EArith w op a b]) = forest_code (f ++ [a; b]) ++ [KArith w op].
Proof.
  change [a; b] with ([a] ++ [b]). rewrite app_assoc, !forest_code_push. cbn [code_of]. now rewrite !app_assoc.
Qed.

(** One instruction moves a forest to the next one. *)
Definition extends (f : list const_expr) (i : const_instr) (f' : list const_expr) : Prop :=
  forest_code f' = forest_code f ++ [i].

Lemma extends_leaf f i : (exists e, code_of e = [i]) -> exists f', extends f i f' /\ length f' = S (length f).
Proof.
  intros [e E]. exists (f ++ [e]). unfold extends. rewrite forest_code_push, E, length_app. cbn. split; [reflexivity|lia].
Qed.
Lemma extends_arith f w op : (2 <= length f)%nat -> exists f', extends f (KArith w op) f' /\ S (length f') = length f.
Proof.
  intros H. destruct (rev f) as [|b [|a r]] eqn:E; apply (f_equal (@length _)) in E as El; rewrite length_rev in El; cbn in El; try lia.
  assert (Ef : f = rev r ++ [a; b]) by (rewrite <- (rev_involutive f), E; cbn; now rewrite <- app_assoc).
  exists (rev r ++ [EArith w op a b]). split; [|rewrite length_app, length_rev; cbn; lia].
  unfold extends. now rewrite forest_code_arith, Ef.
Qed.

Lemma is_arith_op op : is_arith op = true -> exists w o, op = op_byte w o.
Proof.
  unfold is_arith. rewrite !orb_true_iff, !Z.eqb_eq.
  intros [[[[[->| ->]| ->]| ->]| ->]| ->];
    [exists W32, OpAdd|exists W32, OpSub|exists W32, OpMul|exists W64, OpAdd|exists W64, OpSub|exists W64, OpMul]; reflexivity.
Qed.

(** The little-endian value of raw bytes. *)
Fixpoint le_value (bs : list Z) : Z := match bs with [] => 0 | b :: bs' => b + 256 * le_value bs' end.

(** ** The grammar of constant expressions

    [first_instr v type op bs v']: the opcode [op] with the immediate bytes [bs]
    is a constant instruction allowed where a [type] is expected; it turns the
    union's contents [v] into [v']. *)
Inductive first_instr (globals : list global_variable) (simd : bool) (max : Z) (v : expr_value) (type : Z)
  : Z -> list Z -> expr_value -> Prop :=
  | first_i32 imm : instr_wf (KConst W32 imm) ->
      first_instr globals simd max v type InitExpr.op_i32_const imm (set_member 32 v (leb_sval imm))
  | first_i64 imm : instr_wf (KConst W64 imm) ->
      first_instr globals simd max v type InitExpr.op_i64_const imm (set_member 64 v (leb_sval imm))
  | first_f32 bs : length bs = 4%nat -> type = types.f32 ->
      first_instr globals simd max v type op_f32_const bs (set_member 32 v (le_value bs))
  | first_f64 bs : length bs = 8%nat -> type = types.f64 ->
      first_instr globals simd max v type op_f64_const bs (set_member 64 v (le_value bs))
  | first_v128 imm bs : simd = true -> instr_wf (KGlobal imm) -> leb_val imm = op_v128_const ->
      length bs = 16%nat -> type = types.v128 ->
      first_instr globals simd max v type op_vector_prefix (imm ++ bs) (set_member 128 v (le_value bs))
  | first_null b : type = types.funcref \/ type = types.externref ->
      first_instr globals simd max v type op_ref_null [b] (set_member 64 v UINT32_MAX)
  | first_func imm : instr_wf (KGlobal imm) -> type = types.funcref ->
      first_instr globals simd max v type op_ref_func imm (set_member 32 v (leb_val imm))
  | first_global imm : instr_ok globals max (KGlobal imm) ->
      first_instr globals simd max v type InitExpr.op_get_global imm (set_member 32 v (leb_val imm)).

(** The type an expression of one instruction has. *)
Definition simple_type (globals : list global_variable) (op : Z) (v : expr_value) (type : Z) : Prop :=
  (op = InitExpr.op_i32_const -> type = types.i32) /\ (op = InitExpr.op_i64_const -> type = types.i64) /\
  (op = InitExpr.op_get_global ->
   exists g, vec_lookup globals (signed 32 (ev_i32 v)) = Some g /\ content_type (gv_type g) = type).

(** [accepts ie type bs ie']: the bytes [bs] are a constant expression for a
    [type], and reading them into [ie] gives [ie']. *)
Inductive accepts (globals : list global_variable) (simd : bool) (max : Z) (ie : init_expr) (type : Z)
  : list Z -> init_expr -> Prop :=
  | accepts_simple op bs v :
      first_instr globals simd max (ie_value ie) type op bs v -> simple_type globals op v type ->
      accepts globals simd max ie type (op :: bs ++ [InitExpr.op_end])
        {| ie_value := v; ie_opcode := op; ie_raw_expr := ie_raw_expr ie |}
  | accepts_extended w o a b i op bs v code :
      let e := EArith w o a b in
      type = types.i32 \/ type = types.i64 -> Forall (instr_ok globals max) (code_of e) ->
      code_of e = i :: code -> instr_bytes i = op :: bs ->
      first_instr globals simd max (ie_value ie) type op bs v ->
      accepts globals simd max ie type (encoded e)
        {| ie_value := v; ie_opcode := InitExpr.op_i32_const; ie_raw_expr := encoded e |}.

Section Accepts.
Context (globals : list global_variable) (simd : bool) (max : Z) (Hmax : max <= vec_size globals).

Lemma parse_global_ref_wp g : good g ->
  wp (parse_global_ref globals max)
     (fun v g' => exists imm, ate g g' imm /\ instr_ok globals max (KGlobal imm) /\ v = leb_val imm) any g.
Proof.
  intros Hg. apply wp_bind. eapply wp_mono; [| |now apply parse_varuint_wp]; [|auto].
  intros v g' (imm & Ha & Hi & ->). apply wp_bind, wp_check. rewrite Z.ltb_lt. intros Hlt.
  assert (0 <= leb_val imm) by (destruct Hi as [_ Hu]; apply Hu).
  destruct (vec_lookup_range globals (leb_val imm)) as [gl E]; [lia|].
  apply wp_bind. unfold wp. rewrite (vec_index_Ok _ _ _ _ E). apply wp_bind, wp_check.
  rewrite negb_true_iff. intros Hm. cbn. exists imm. split; [assumption|]. split; [|reflexivity].
  split; [assumption|]. split; eauto.
Qed.

(** A further instruction and the depth it leaves. *)
Lemma parse_more_wp f op d g : good g ->
  d = Z.of_nat (length f) -> (1 <= length f)%nat -> d + 1 < 2 ^ 32 ->
  wp (parse_more globals op d max)
     (fun d' g' => exists i f' bs, instr_bytes i = op :: bs /\ ate g g' bs /\ instr_ok globals max i /\
        extends f i f' /\ d' = Z.of_nat (length f') /\ d' <= d + 1 /\ (1 <= length f')%nat) any g.
Proof.
  intros Hg Hd Hf Hb. unfold parse_more.
  assert (Hleaf : forall i bs g', instr_bytes i = op :: bs -> ate g g' bs -> instr_ok globals max i ->
    (exists e, code_of e = [i]) -> exists i0 f' bs0, instr_bytes i0 = op :: bs0 /\ ate g g' bs0 /\
      instr_ok globals max i0 /\ extends f i0 f' /\ wrap 32 (d + 1) = Z.of_nat (length f') /\
      wrap 32 (d + 1) <= d + 1 /\ (1 <= length f')%nat).
  { intros i bs g' Hi Ha Hok He. destruct (extends_leaf f i He) as (f' & Hx & Hl). exists i, f', bs.
    rewrite wrap_small by (unfold in_u; lia). repeat (split; [assumption || lia|]). lia. }
  destruct (Z.eqb_spec op InitExpr.op_i32_const) as [E1|_].
  { apply wp_bind. eapply wp_mono; [| |exact (parse_varint_wp W32 g Hg)]; [|auto].
    intros v g' (imm & Ha & Hi & _). cbn. apply (Hleaf (KConst W32 imm) imm); auto; [now subst|now split|].
    now exists (ELeaf W32 imm). }
  destruct (Z.eqb_spec op InitExpr.op_i64_const) as [E1|_].
  { apply wp_bind. eapply wp_mono; [| |exact (parse_varint_wp W64 g Hg)]; [|auto].
    intros v g' (imm & Ha & Hi & _). cbn. apply (Hleaf (KConst W64 imm) imm); auto; [now subst|now split|].
    now exists (ELeaf W64 imm). }
  destruct (Z.eqb_spec op InitExpr.op_get_global) as [E1|_].
  { apply wp_bind. eapply wp_mono; [| |exact (parse_global_ref_wp g Hg)]; [|auto].
    intros v g' (imm & Ha & Hi & _). cbn. apply (Hleaf (KGlobal imm) imm); auto; [now subst|].
    now exists (EGlobal imm). }
  destruct (is_arith op) eqn:Ea; [|exact I]. apply wp_bind, wp_check. rewrite Z.leb_le. intros H2. cbn.
  destruct (is_arith_op op Ea) as (w & o & ->).
  destruct (extends_arith f w o ltac:(lia)) as (f' & Hx & Hl). exists (KArith w o), f', [].
  rewrite wrap_small by (unfold in_u; lia). split; [reflexivity|]. split; [now apply ate_nil|].
  split; [now split|]. repeat (split; [assumption || lia|]). lia.
Qed.

Definition left (g : guarded_ptr) : Z := gp_bnds g - gp_raw g.

Lemma ate_left g g' bs : ate g g' bs -> left g' = left g - Z.of_nat (length bs) /\ 0 <= left g'.
Proof. intros [[_ Hr] ->]. unfold left. cbn. lia. Qed.

(** The loop ends at [end] with the code of a forest. *)
Lemma parse_rest_wp fuel : forall f d g, good g ->
  d = Z.of_nat (length f) -> (1 <= length f)%nat -> d + left g < 2 ^ 32 -> left g < Z.of_nat fuel ->
  wp (parse_rest globals fuel d max)
     (fun d' g' => exists code f', ate g g' (code_bytes code) /\ Forall (instr_ok globals max) code /\
        forest_code f' = forest_code f ++ code /\ d' = Z.of_nat (length f') /\ reads g' [InitExpr.op_end]) any g.
Proof.
  induction fuel as [|fuel IH]; intros f d g Hg Hd Hf Hb Hfuel.
  { destruct Hg as [[[? ?] ?] _]. unfold left in *. lia. }
  cbn [parse_rest]. apply wp_bind. eapply wp_mono; [| |now apply current_wp]; [|auto].
  intros b ? (-> & Hb8 & Hr). destruct (Z.eqb_spec b InitExpr.op_end) as [->|_].
  { cbn. exists [], f. rewrite app_nil_r. split; [now apply ate_nil|]. auto. }
  apply wp_bind. eapply wp_mono; [| |now apply next_wp]; [|auto]. intros op g1 [_ Ha1].
  pose proof (ate_good _ _ _ Hg Ha1) as Hg1. destruct (ate_left _ _ _ Ha1) as [L1 L1']. cbn in L1.
  apply wp_bind. eapply wp_mono; [| |apply (parse_more_wp f); auto; lia]; [|auto].
  intros d2 g2 (i & f2 & bs & Ei & Ha2 & Hok & Hx & Hd2 & Hle & Hf2).
  pose proof (ate_good _ _ _ Hg1 Ha2) as Hg2. destruct (ate_left _ _ _ Ha2) as [L2 L2'].
  eapply wp_mono; [| |apply (IH f2); auto; lia]; [|auto].
  intros d3 g3 (code & f3 & Ha3 & Hall & Ef & Hd3 & Hend). exists (i :: code), f3.
  split; [|split; [now constructor|split; [|auto]]].
  - change (code_bytes (i :: code)) with (instr_bytes i ++ code_bytes code). rewrite Ei.
    eapply ate_app; eauto. exact (ate_app _ _ _ _ _ Hg Ha1 Ha2).
  - rewrite Ef, Hx. now rewrite <- app_assoc.
Qed.

Lemma memcpy_le_ok bs : forall i g, 0 <= i -> bytes_at g i bs -> memcpy_le (length bs) i g = Ok (le_value bs) g.
Proof.
  induction bs as [|b bs IH]; intros i g Hi Hb; [reflexivity|].
  apply bytes_at_cons in Hb as [Eb Hb]; [|assumption]. cbn [memcpy_le length].
  rewrite (bind_Ok _ _ _ b g) by (unfold deref; destruct (Z.ltb_spec i 0); [lia|now rewrite Eb]).
  now rewrite (bind_Ok _ _ _ _ _ (IH (i + 1) g ltac:(lia) Hb)).
Qed.

Lemma parse_raw_ok g g' bs : good g -> ate g g' bs -> parse_raw (length bs) g = Ok (le_value bs) g'.
Proof.
  intros [Hwf _] [[Hbs Hl] ->]. pose proof Hwf as ([Hw1 Hw2] & Hw3 & Hw4). set (n := Z.of_nat (length bs)) in *.
  unfold parse_raw, scoped_shrink_bounds. fold n. unfold bind at 1. cbn [get]. rewrite avail_wf by assumption.
  unfold bind at 1, psizam_assert. destruct (Z.leb_spec n (gp_bnds g - gp_raw g)); [|lia]. cbn.
  rewrite (bind_Ok _ _ _ _ _ (memcpy_le_ok bs (gp_raw g) (set_bnds (gp_raw g + n) g) Hw1 Hbs)).
  rewrite (bind_Ok _ _ _ tt (set_raw (gp_raw g + n) (set_bnds (gp_raw g + n) g))).
  2:{ refine (advance_ok (set_bnds (gp_raw g + n) g) n _ _ _); [unfold wf; cbn; lia|lia|cbn; lia]. }
  reflexivity.
Qed.

Lemma parse_raw_wp n g : good g ->
  wp (parse_raw n) (fun x g' => exists bs, ate g g' bs /\ length bs = n /\ x = le_value bs) any g.
Proof.
  intros Hg. pose proof Hg as [Hwf _]. pose proof Hwf as ([Hw1 Hw2] & Hw3 & _).
  destruct (Z.leb_spec (Z.of_nat n) (gp_bnds g - gp_raw g)) as [Hn|Hn].
  - set (bs := take n (drop (Z.to_nat (gp_raw g)) (gp_data g))).
    assert (Hl : length bs = n) by (unfold bs; rewrite length_take, length_drop; lia).
    assert (Ha : ate g (set_raw (gp_raw g + Z.of_nat n) g) bs).
    { split; [split; [unfold bytes_at; now rewrite Hl|lia]|now rewrite Hl]. }
    unfold wp. rewrite <- Hl, (parse_raw_ok g _ bs Hg Ha), Hl. eauto.
  - unfold wp, parse_raw, scoped_shrink_bounds. unfold bind at 1. cbn [get]. rewrite avail_wf by assumption.
    unfold bind at 1, psizam_assert. destruct (Z.leb_spec (Z.of_nat n) (gp_bnds g - gp_raw g)); [lia|exact I].
Qed.

Lemma parse_first_wp op v type g : good g ->
  wp (parse_first globals simd op v type max)
     (fun v' g' => exists bs, ate g g' bs /\ first_instr globals simd max v type op bs v') any g.
Proof.
  intros Hg. unfold parse_first.
  destruct (Z.eqb_spec op InitExpr.op_i32_const) as [->|N1].
  { apply wp_bind. eapply wp_mono; [| |exact (parse_varint_wp W32 g Hg)]; [|auto].
    intros x g' (imm & Ha & Hi & ->). exists imm. split; [assumption|now constructor]. }
  destruct (Z.eqb_spec op InitExpr.op_i64_const) as [->|N2].
  { apply wp_bind. eapply wp_mono; [| |exact (parse_varint_wp W64 g Hg)]; [|auto].
    intros x g' (imm & Ha & Hi & ->). exists imm. split; [assumption|now constructor]. }
  destruct (Z.eqb_spec op op_f32_const) as [->|_].
  { apply wp_bind. eapply wp_mono; [| |exact (parse_raw_wp 4 g Hg)]; [|auto].
    intros x g' (bs & Ha & Hi & ->). apply wp_bind, wp_check. rewrite Z.eqb_eq. intros Ht.
    exists bs. split; [assumption|now constructor]. }
  destruct (Z.eqb_spec op op_f64_const) as [->|_].
  { apply wp_bind. eapply wp_mono; [| |exact (parse_raw_wp 8 g Hg)]; [|auto].
    intros x g' (bs & Ha & Hi & ->). apply wp_bind, wp_check. rewrite Z.eqb_eq. intros Ht.
    exists bs. split; [assumption|now constructor]. }
  destruct (Z.eqb_spec op op_vector_prefix) as [->|_].
  { apply wp_bind, wp_check. intros Hs. apply wp_bind.
    eapply wp_mono; [| |exact (parse_varuint_wp g Hg)]; [|auto]. intros x g1 (imm & Ha1 & Hi & ->).
    apply wp_bind, wp_check. rewrite Z.eqb_eq. intros Hv. apply wp_bind.
    eapply wp_mono; [| |exact (parse_raw_wp 16 g1 (ate_good _ _ _ Hg Ha1))]; [|auto]. intros x g' (bs & Ha2 & Hl & ->).
    apply wp_bind, wp_check. rewrite Z.eqb_eq. intros Ht. exists (imm ++ bs).
    split; [now apply (ate_app _ g1)|now constructor]. }
  destruct (Z.eqb_spec op op_ref_null) as [->|_].
  { apply wp_bind, wp_check. rewrite orb_true_iff, !Z.eqb_eq. intros Ht. unfold wp, incr, bind, get, psizam_assert.
    destruct (Z.ltb_spec (gp_raw g) (gp_bnds g)) as [H|H]; cbn; [|exact I].
    destruct (lookup_lt_is_Some_2 (gp_data g) (Z.to_nat (gp_raw g))) as [b Eb].
    { destruct Hg as [([? ?] & ? & ?) _]. lia. }
    exists [b]. split; [|now constructor]. apply incr_ate. now apply (reads_one g b Hg H). }
  destruct (Z.eqb_spec op op_ref_func) as [->|_].
  { apply wp_bind. eapply wp_mono; [| |exact (parse_varuint_wp g Hg)]; [|auto].
    intros x g' (imm & Ha & Hi & ->). apply wp_bind, wp_check. rewrite Z.eqb_eq. intros Ht.
    exists imm. split; [assumption|now constructor]. }
  destruct (Z.eqb_spec op InitExpr.op_get_global) as [->|_]; [|exact I].
  apply wp_bind. eapply wp_mono; [| |exact (parse_global_ref_wp g Hg)]; [|auto].
  intros x g' (imm & Ha & Hi & ->). exists imm. split; [assumption|now constructor].
Qed.

Lemma first_leaf v type op bs v' : first_instr globals simd max v type op bs v' -> type = types.i32 \/ type = types.i64 ->
  exists e i, code_of e = [i] /\ instr_bytes i = op :: bs /\ instr_ok globals max i.
Proof.
  intros [imm H|imm H|bs' _ ->|bs' _ ->|imm bs' _ _ _ _ ->|b H|imm _ ->|imm H] Ht;
    try (exfalso; destruct Ht; discriminate).
  - exists (ELeaf W32 imm), (KConst W32 imm). repeat split; apply H.
  - exists (ELeaf W64 imm), (KConst W64 imm). repeat split; apply H.
  - exfalso. destruct H, Ht; subst; discriminate.
  - exists (EGlobal imm), (KGlobal imm). repeat split; apply H.
Qed.

Lemma slice_ate g g' bs : ate g g' bs -> slice (gp_raw g) g' = bs.
Proof.
  intros [[H _] ->]. unfold slice. cbn. replace (Z.to_nat _) with (length bs) by lia. exact H.
Qed.

Lemma reads_unique g a b : reads g [a] -> reads g [b] -> a = b.
Proof. unfold reads, bytes_at. cbn. intros [Ha _] [Hb _]. congruence. Qed.

Lemma check_simple_wp op v type Q g :
  (op = InitExpr.op_get_global -> exists gl, vec_lookup globals (signed 32 (ev_i32 v)) = Some gl) ->
  (simple_type globals op v type -> Q tt g) -> wp (check_simple globals op v type) Q any g.
Proof.
  intros Hg HQ. unfold check_simple.
  destruct (Z.eqb_spec op InitExpr.op_i32_const) as [->|N1].
  { apply wp_check. rewrite Z.eqb_eq. intros ->. apply HQ. repeat split; intros E; congruence || discriminate E. }
  destruct (Z.eqb_spec op InitExpr.op_i64_const) as [->|N2].
  { apply wp_check. rewrite Z.eqb_eq. intros ->. apply HQ. repeat split; intros E; congruence || discriminate E. }
  destruct (Z.eqb_spec op InitExpr.op_get_global) as [->|N3].
  { destruct (Hg eq_refl) as [gl E]. apply wp_bind. unfold wp. rewrite (vec_index_Ok _ _ _ _ E). apply wp_check.
    rewrite Z.eqb_eq. intros Ht. apply HQ. repeat split; intros E'; congruence || eauto. }
  cbn. apply HQ. repeat split; intros; congruence.
Qed.

Lemma set_member_low n v x : 0 < n -> wrap n (set_member n v x) = wrap n x.
Proof.
  intros Hn. unfold set_member. rewrite Z.shiftl_mul_pow2, Z.add_comm, wrap_add_pow by lia. now apply wrap_wrap.
Qed.

Lemma first_global_ref v type bs v' : max <= 2 ^ 31 ->
  first_instr globals simd max v type InitExpr.op_get_global bs v' ->
  exists imm, bs = imm /\ signed 32 (ev_i32 v') = leb_val imm /\ declared globals max (leb_val imm).
Proof.
  intros Hm H. inversion H; subst. exists bs. split; [reflexivity|].
  match goal with H : instr_ok _ _ _ |- _ => destruct H as [[_ Hu] Hd] end. split; [|exact Hd].
  unfold ev_i32. rewrite set_member_low by lia. apply signed_wrap; [lia|].
  destruct Hd as [Hd _]. unfold in_u, in_s in *. lia.
Qed.

(** The extended form: from the first instruction to the final [end]. *)
Lemma extended_accepts ie type g g1 g2 op bs v b i code f :
  good g -> type = types.i32 \/ type = types.i64 ->
  first_instr globals simd max (ie_value ie) type op bs v ->
  ate g g1 (op :: bs) -> reads g1 [b] -> b <> InitExpr.op_end ->
  ate g1 g2 (code_bytes code) -> Forall (instr_ok globals max) code ->
  instr_bytes i = op :: bs -> instr_ok globals max i -> forest_code f = [i] ++ code ->
  length f = 1%nat -> reads g2 [InitExpr.op_end] ->
  exists raw g3, ate g g3 raw /\ incr g2 = Ok tt g3 /\
    accepts globals simd max ie type raw {| ie_value := v; ie_opcode := InitExpr.op_i32_const; ie_raw_expr := raw |}.
Proof.
  intros Hg Ht Hf Ha1 Hb Hne Ha2 Hall Hi Hok Hfor Hl Hend.
  destruct f as [|e [|]]; try discriminate. unfold forest_code in Hfor. cbn in Hfor. rewrite app_nil_r in Hfor.
  destruct (incr_ate _ _ Hend) as [Ei Ha3].
  assert (Hc : code <> []).
  { intros ->. destruct Ha2 as [_ ->]. apply Hne. apply (reads_unique g1); [exact Hb|].
    destruct Hend as [Hx Hy]. cbn in Hx, Hy. rewrite Z.add_0_r in *. now split. }
  assert (Ee : code_bytes (code_of e) = op :: bs ++ code_bytes code).
  { rewrite Hfor. change (code_bytes (i :: code)) with (instr_bytes i ++ code_bytes code). now rewrite Hi. }
  destruct e as [w imm|imm|w o a b']; cbn [code_of] in Hfor; try (injection Hfor as _ Hn; congruence).
  exists (encoded (EArith w o a b')), (set_raw (gp_raw g2 + 1) g2). split; [|split; [exact Ei|]].
  - unfold encoded. rewrite Ee. apply (ate_app g g2); auto. rewrite app_comm_cons. now apply (ate_app g g1).
  - apply (accepts_extended _ _ _ _ _ _ _ _ _ i op bs v code); auto. cbn [code_of]. rewrite Hfor. now constructor.
Qed.

Lemma parse_init_expr_wp ie type g : good g -> max <= 2 ^ 31 -> left g < 2 ^ 32 ->
  wp (parse_init_expr globals simd ie type max)
     (fun ie' g' => exists bs, ate g g' bs /\ accepts globals simd max ie type bs ie') any g.
Proof.
  intros Hg Hm Hleft. unfold parse_init_expr. apply wp_bind. cbn [wp gets].
  apply wp_bind. eapply wp_mono; [| |now apply next_wp]; [|auto]. intros op g0 [_ Ha0].
  pose proof (ate_good _ _ _ Hg Ha0) as Hg0. apply wp_bind.
  eapply wp_mono; [| |now apply parse_first_wp]; [|auto]. intros v g1 (bs & Ha1 & Hf).
  pose proof (ate_good _ _ _ Hg0 Ha1) as Hg1. apply wp_bind.
  eapply wp_mono; [| |now apply current_wp]; [|auto]. intros b ? (-> & _ & Hb).
  pose proof (ate_app _ _ _ _ _ Hg Ha0 Ha1) as Ha. destruct (ate_left _ _ _ Ha) as [L1 L1'].
  destruct (Z.eqb_spec b InitExpr.op_end) as [->|Hne].
  - apply wp_bind, check_simple_wp.
    { intros ->. destruct (first_global_ref _ _ _ _ Hm Hf) as (imm & -> & -> & _ & gl & E & _). eauto. }
    intros Hs. apply wp_bind. destruct (incr_ate _ _ Hb) as [Ei Ha2]. unfold wp. rewrite Ei. cbn.
    exists (op :: bs ++ [InitExpr.op_end]). split; [|now constructor].
    exact (ate_app _ _ _ _ _ Hg Ha Ha2).
  - apply wp_bind, wp_check. rewrite orb_true_iff, !Z.eqb_eq. intros Ht. apply wp_bind. cbn [wp gets].
    destruct (first_leaf _ _ _ _ _ Hf Ht) as (e0 & i & He0 & Hi & Hok). cbn [length app] in L1.
    apply wp_bind. eapply wp_mono; [| |apply (parse_rest_wp _ [e0]); auto].
    2:{ intros; exact I. }
    2:{ cbn. lia. }
    2:{ rewrite avail_wf by apply Hg1. unfold left. lia. }
    intros d g2 (code & f' & Ha2 & Hall & Ef & Hd & Hend). apply wp_bind, wp_check. rewrite Z.eqb_eq. intros ->.
    destruct (extended_accepts ie type g g1 g2 op bs v b i code f') as (raw & g3 & Ha3 & Ei & Hacc); auto; [|lia|].
    { rewrite Ef. unfold forest_code. cbn. now rewrite He0. }
    apply wp_bind. unfold wp. rewrite Ei. cbn. rewrite (slice_ate g g3 raw Ha3). eauto.
Qed.

(** ** Every expression of the grammar is accepted *)

Lemma ate_app_inv g g' b1 b2 : good g -> ate g g' (b1 ++ b2) -> exists g1, ate g g1 b1 /\ ate g1 g' b2.
Proof.
  intros [[[Hr _] _] _] [[Hb Hl] ->]. apply bytes_at_app in Hb as [Hb1 Hb2]; [|assumption].
  rewrite length_app in *. exists (set_raw (gp_raw g + Z.of_nat (length b1)) g).
  split; (split; [split; [assumption|cbn; lia]|]); [reflexivity|]. unfold set_raw. cbn. f_equal. lia.
Qed.

Lemma next_ok g g' b : good g -> ate g g' [b] -> next g = Ok b g'.
Proof.
  intros [[[Hr _] _] _] [[Hb Hl] ->]. apply bytes_at_cons in Hb as [Eb _]; [|assumption]. cbn in Hl.
  unfold next, incr, bind, get, psizam_assert, deref.
  destruct (Z.ltb_spec (gp_raw g) (gp_bnds g)); [|lia]. cbn. destruct (Z.ltb_spec (gp_raw g) 0); [lia|].
  now rewrite Eb.
Qed.

Lemma current_ok g g' b bs : good g -> ate g g' (b :: bs) -> current g = Ok b g.
Proof.
  intros [[[Hr _] _] _] [[Hb Hl] _]. apply bytes_at_cons in Hb as [Eb _]; [|assumption]. cbn in Hl.
  unfold current, bind, get, psizam_assert, deref.
  destruct (Z.ltb_spec (gp_raw g) (gp_bnds g)); [|lia]. cbn. destruct (Z.ltb_spec (gp_raw g) 0); [lia|].
  now rewrite Eb.
Qed.

Lemma parse_varint_ok w g g' imm : good g -> instr_wf (KConst w imm) -> ate g g' imm ->
  parse_varint (bits w) g = Ok (leb_sval imm) g'.
Proof.
  intros [Hg _] [[Hw Hl] Hs] [Hr ->]. apply parse_varint_complete; auto. destruct w; unfold wide; auto.
Qed.
Lemma parse_varuint_ok g g' imm : good g -> instr_wf (KGlobal imm) -> ate g g' imm ->
  parse_varuint 32 g = Ok (leb_val imm) g'.
Proof. intros [Hg _] [[Hw Hl] Hs] [Hr ->]. apply parse_varuint_complete; auto. unfold wide; auto. Qed.
Lemma parse_global_ref_ok g g' imm : good g -> instr_ok globals max (KGlobal imm) -> ate g g' imm ->
  parse_global_ref globals max g = Ok (leb_val imm) g'.
Proof.
  intros Hg (Hi & Hlt & gl & El & Hm) Ha. unfold parse_global_ref. rewrite (bind_Ok _ _ _ _ _ (parse_varuint_ok _ _ _ Hg Hi Ha)).
  unfold check. rewrite (proj2 (Z.ltb_lt _ _) Hlt), (bind_Ok _ _ _ tt g') by reflexivity.
  rewrite (bind_Ok _ _ _ _ _ (vec_index_Ok _ _ _ _ El)), Hm. reflexivity.
Qed.

Lemma check_ok b msg g : b = true -> check b msg g = Ok tt g.
Proof. now intros ->. Qed.

Lemma parse_first_ok v type op bs v' g g' : good g -> first_instr globals simd max v type op bs v' -> ate g g' bs ->
  parse_first globals simd op v type max g = Ok v' g'.
Proof.
  intros Hg [imm H|imm H|bs' H1 ->|bs' H1 ->|imm bs' H1 H2 H3 H4 ->|b H|imm H ->|imm H] Ha; unfold parse_first;
    cbn [Z.eqb Pos.eqb InitExpr.op_i32_const InitExpr.op_i64_const InitExpr.op_get_global
         op_f32_const op_f64_const op_vector_prefix op_ref_null op_ref_func].
  - exact (bind_Ok _ _ _ _ _ (parse_varint_ok W32 _ _ _ Hg H Ha)).
  - exact (bind_Ok _ _ _ _ _ (parse_varint_ok W64 _ _ _ Hg H Ha)).
  - pose proof (parse_raw_ok g g' bs' Hg Ha) as E. rewrite H1 in E. now rewrite (bind_Ok _ _ _ _ _ E).
  - pose proof (parse_raw_ok g g' bs' Hg Ha) as E. rewrite H1 in E. now rewrite (bind_Ok _ _ _ _ _ E).
  - destruct (ate_app_inv _ _ _ _ Hg Ha) as (g1 & Ha1 & Ha2). pose proof (ate_good _ _ _ Hg Ha1) as Hg1.
    rewrite (bind_Ok _ _ _ tt g) by now rewrite H1.
    rewrite (bind_Ok _ _ _ _ _ (parse_varuint_ok _ _ _ Hg H2 Ha1)), H3.
    pose proof (parse_raw_ok g1 g' bs' Hg1 Ha2) as E. rewrite H4 in E. unfold check at 1. cbn [Z.eqb Pos.eqb op_v128_const].
    rewrite (bind_Ok _ _ _ tt g1) by reflexivity. now rewrite (bind_Ok _ _ _ _ _ E).
  - rewrite (bind_Ok _ _ _ tt g) by (apply check_ok; destruct H; subst; reflexivity).
    destruct Ha as [Hr ->]. now rewrite (bind_Ok _ _ _ _ _ (proj1 (incr_ate _ _ Hr))).
  - now rewrite (bind_Ok _ _ _ _ _ (parse_varuint_ok _ _ _ Hg H Ha)).
  - exact (bind_Ok _ _ _ _ _ (parse_global_ref_ok _ _ _ Hg H Ha)).
Qed.

Lemma instr_bytes_head i : exists op bs, instr_bytes i = op :: bs /\ op <> InitExpr.op_end.
Proof. destruct i as [[]|?|[] []]; eexists _, _; split; reflexivity || discriminate. Qed.

(** A leaf adds one to the depth, an operator takes one away. *)
Definition depth_after (i : const_instr) (d : Z) : Z := match i with KArith _ _ => d - 1 | _ => d + 1 end.

Lemma parse_more_ok i op bs d g g' : good g -> instr_ok globals max i -> instr_bytes i = op :: bs -> ate g g' bs ->
  0 <= d -> d + 1 < 2 ^ 32 -> (match i with KArith _ _ => 2 <= d | _ => True end) ->
  parse_more globals op d max g = Ok (depth_after i d) g'.
Proof.
  intros Hg Hok Ei Ha H0 Hb H2.
  assert (Hw : forall x, 0 <= x < 2 ^ 32 -> wrap 32 x = x) by (intros; now apply wrap_small).
  destruct i as [w imm|imm|w o]; cbn [depth_after instr_bytes] in *.
  - destruct Hok as [Hi _]. destruct w; injection Ei as <- <-; unfold parse_more;
      cbn [Z.eqb Pos.eqb InitExpr.op_i32_const InitExpr.op_i64_const];
      pose proof (parse_varint_ok _ _ _ _ Hg Hi Ha) as E; cbn [bits] in E; rewrite (bind_Ok _ _ _ _ _ E);
      cbn; now rewrite Hw by lia.
  - injection Ei as <- <-. unfold parse_more. cbn [Z.eqb Pos.eqb InitExpr.op_i32_const InitExpr.op_i64_const InitExpr.op_get_global].
    rewrite (bind_Ok _ _ _ _ _ (parse_global_ref_ok _ _ _ Hg Hok Ha)). cbn. now rewrite Hw by lia.
  - injection Ei as <- <-. destruct Ha as [_ ->]. cbn [length Z.of_nat]. rewrite Z.add_0_r.
    replace (set_raw (gp_raw g) g) with g by (destruct g; reflexivity).
    unfold parse_more. apply Z.leb_le in H2. unfold check. rewrite H2. apply Z.leb_le in H2.
    destruct w, o; cbn; now rewrite Hw by lia.
Qed.

Lemma parse_rest_step i k d g g' : good g -> instr_ok globals max i -> ate g g' (instr_bytes i) ->
  0 <= d -> d + left g < 2 ^ 32 -> (match i with KArith _ _ => 2 <= d | _ => True end) ->
  parse_rest globals (S k) d max g = parse_rest globals k (depth_after i d) max g' /\ left g' + 1 <= left g.
Proof.
  intros Hg Hok Ha H0 Hb H2. destruct (instr_bytes_head i) as (op & bs & Ei & Hne). rewrite Ei in Ha.
  destruct (ate_left _ _ _ Ha) as [L1 L2]. cbn [length] in L1. split; [|lia].
  destruct (ate_app_inv g g' [op] bs Hg Ha) as (g1 & Ha1 & Ha2).
  cbn [parse_rest]. rewrite (bind_Ok _ _ _ _ _ (current_ok _ _ _ _ Hg Ha)).
  destruct (Z.eqb_spec op InitExpr.op_end); [congruence|]. rewrite (bind_Ok _ _ _ _ _ (next_ok _ _ _ Hg Ha1)).
  pose proof (ate_good _ _ _ Hg Ha1) as Hg1.
  now rewrite (bind_Ok _ _ _ _ _ (parse_more_ok i op bs d g1 g' Hg1 Hok Ei Ha2 H0 ltac:(lia) H2)).
Qed.

(** The loop reads the code of a tree as one more value. *)
Lemma parse_tree e : Forall (instr_ok globals max) (code_of e) -> forall k d g g', good g ->
  0 <= d -> d + left g < 2 ^ 32 -> ate g g' (code_bytes (code_of e)) ->
  parse_rest globals (length (code_of e) + k) d max g = parse_rest globals k (d + 1) max g' /\ left g' + 1 <= left g.
Proof.
  induction e as [w imm|imm|w o a IHa b IHb]; intros Hall k d g g' Hg Hd Hb Ha; cbn [code_of] in *.
  1,2: apply Forall_inv in Hall; unfold code_bytes in Ha; cbn [mbind list_bind] in Ha; rewrite app_nil_r in Ha;
    exact (parse_rest_step _ k d g g' Hg Hall Ha Hd Hb I).
  apply Forall_app in Hall as [Aa Hall]. apply Forall_app in Hall as [Ab Ao]. apply Forall_inv in Ao.
  rewrite !code_bytes_app in Ha.
  destruct (ate_app_inv _ _ _ _ Hg Ha) as (g1 & Ha1 & Ha'). pose proof (ate_good _ _ _ Hg Ha1) as Hg1.
  destruct (ate_app_inv _ _ _ _ Hg1 Ha') as (g2 & Ha2 & Ha3). pose proof (ate_good _ _ _ Hg1 Ha2) as Hg2.
  rewrite !length_app, <- !Nat.add_assoc. cbn [length].
  destruct (IHa Aa (length (code_of b) + (1 + k))%nat d g g1 Hg Hd Hb Ha1) as [Ea La].
  destruct (IHb Ab (1 + k)%nat (d + 1) g1 g2 Hg1 ltac:(lia) ltac:(lia) Ha2) as [Eb Lb].
  destruct (parse_rest_step (KArith w o) k (d + 2) g2 g' Hg2 Ao Ha3 ltac:(lia) ltac:(lia) ltac:(cbn; lia)) as [Eo Lo].
  rewrite Ea, Eb. cbn [Nat.add]. replace (d + 1 + 1) with (d + 2) by lia. rewrite Eo. cbn [depth_after].
  split; [f_equal; lia|lia].
Qed.

Lemma code_nonempty e : (1 <= length (code_of e))%nat.
Proof. induction e; cbn [code_of]; rewrite ?length_app; cbn; lia. Qed.

(** The rest of a tree's code after its first instruction. *)
Lemma parse_tail e i code k g g1 g' : Forall (instr_ok globals max) (code_of e) -> code_of e = i :: code ->
  (exists e0, code_of e0 = [i]) -> good g -> left g < 2 ^ 32 -> ate g g1 (instr_bytes i) -> ate g1 g' (code_bytes code) ->
  parse_rest globals (length code + k) 1 max g1 = parse_rest globals k 1 max g'.
Proof.
  intros Hall Ee [e0 E0] Hg Hl Ha1 Ha2. assert (Hi : instr_ok globals max i) by (rewrite Ee in Hall; now apply Forall_inv in Hall).
  assert (Hk : match i with KArith _ _ => False | _ => True end).
  { destruct i, e0 as [| |w' o' a b]; try exact I; cbn [code_of] in E0; try discriminate.
    apply (f_equal (@length _)) in E0. rewrite !length_app in E0. cbn in E0.
    pose proof (code_nonempty a). lia. }
  destruct (parse_rest_step i (length code + k) 0 g g1 Hg Hi Ha1) as [E1 _]; [lia|lia|destruct i; auto; contradiction|].
  destruct (parse_tree e Hall k 0 g g') as [E2 _]; [exact Hg|lia|lia| |].
  { rewrite Ee. change (code_bytes (i :: code)) with (instr_bytes i ++ code_bytes code). eapply ate_app; eauto. }
  rewrite Ee in E2. cbn [length Nat.add] in E2.
  replace (depth_after i 0) with 1 in E1 by (destruct i; auto; contradiction). now rewrite <- E1, E2.
Qed.

Lemma code_head e i code : code_of e = i :: code -> exists e0, code_of e0 = [i].
Proof.
  revert code. induction e as [w imm|imm|w o a IHa b _]; intros code E; cbn [code_of] in E.
  - injection E as <- _. now exists (ELeaf w imm).
  - injection E as <- _. now exists (EGlobal imm).
  - pose proof (code_nonempty a). destruct (code_of a) as [|i' c]; [cbn in *; lia|].
    injection E as -> _. now apply (IHa c).
Qed.

Lemma code_bytes_length code : Z.of_nat (length code) <= Z.of_nat (length (code_bytes code)).
Proof.
  induction code as [|i code IH]; [cbn; lia|].
  change (code_bytes (i :: code)) with (instr_bytes i ++ code_bytes code). rewrite length_app.
  destruct (instr_bytes_head i) as (op & bs & -> & _). cbn [length]. lia.
Qed.

Lemma check_simple_ok op v type g : simple_type globals op v type -> check_simple globals op v type g = Ok tt g.
Proof.
  intros (H1 & H2 & H3). unfold check_simple.
  destruct (Z.eqb_spec op InitExpr.op_i32_const); [rewrite H1 by assumption; reflexivity|].
  destruct (Z.eqb_spec op InitExpr.op_i64_const); [rewrite H2 by assumption; reflexivity|].
  destruct (Z.eqb_spec op InitExpr.op_get_global) as [E|]; [|reflexivity].
  destruct (H3 E) as (gl & El & Et). rewrite (bind_Ok _ _ _ _ _ (vec_index_Ok _ _ _ _ El)), Et.
  unfold check. now rewrite Z.eqb_refl.
Qed.

Lemma incr_ok g g' b : ate g g' [b] -> incr g = Ok tt g'.
Proof. intros [Hr ->]. exact (proj1 (incr_ate g b Hr)). Qed.

Lemma parse_init_expr_ok ie type bs ie' g g' : good g -> left g < 2 ^ 32 ->
  accepts globals simd max ie type bs ie' -> ate g g' bs ->
  parse_init_expr globals simd ie type max g = Ok ie' g'.
Proof.
  intros Hg Hl [op im v Hf Hs|w o a b i op im v code e Ht Hall Ee Ei Hf] Ha; unfold parse_init_expr;
    rewrite (bind_Ok _ _ _ (gp_raw g) g) by reflexivity.
  - destruct (ate_app_inv g g' [op] _ Hg Ha) as (g0 & Ha0 & Ha'). pose proof (ate_good _ _ _ Hg Ha0) as Hg0.
    destruct (ate_app_inv _ _ _ _ Hg0 Ha') as (g1 & Ha1 & Ha2). pose proof (ate_good _ _ _ Hg0 Ha1) as Hg1.
    rewrite (bind_Ok _ _ _ _ _ (next_ok _ _ _ Hg Ha0)), (bind_Ok _ _ _ _ _ (parse_first_ok _ _ _ _ _ _ _ Hg0 Hf Ha1)).
    rewrite (bind_Ok _ _ _ _ _ (current_ok _ _ _ _ Hg1 Ha2)), Z.eqb_refl.
    rewrite (bind_Ok _ _ _ _ _ (check_simple_ok _ _ _ _ Hs)). now rewrite (bind_Ok _ _ _ _ _ (incr_ok _ _ _ Ha2)).
  - pose proof (slice_ate _ _ _ Ha) as Hsl. destruct (code_head _ _ _ Ee) as [e0 E0]. unfold encoded in Ha.
    destruct (ate_app_inv _ _ _ _ Hg Ha) as (g2 & Ha2' & Ha3). rewrite Ee in Ha2'.
    destruct (ate_app_inv g g2 (instr_bytes i) (code_bytes code) Hg Ha2') as (g1 & Ha1 & Ha2).
    pose proof (ate_good _ _ _ Hg Ha1) as Hg1. pose proof (ate_good _ _ _ Hg1 Ha2) as Hg2.
    destruct code as [|i2 code']; [apply (f_equal (@length _)) in Ee; cbn [code_of e] in Ee; rewrite !length_app in Ee;
      pose proof (code_nonempty a); cbn in Ee; lia|]. set (code := i2 :: code') in *.
    assert (Hcur : exists b', current g1 = Ok b' g1 /\ b' <> InitExpr.op_end).
    { destruct (instr_bytes_head i2) as (op2 & bs2 & E2 & Hne). exists op2. split; [|exact Hne].
      apply (current_ok g1 g2 op2 (bs2 ++ code_bytes code') Hg1). unfold code in Ha2.
      change (code_bytes (i2 :: code')) with (instr_bytes i2 ++ code_bytes code') in Ha2. now rewrite E2 in Ha2. }
    destruct Hcur as (b' & Ecur & Hne). pose proof (ate_left _ _ _ Ha2) as [L1 L2]. pose proof (code_bytes_length code) as Hcl.
    assert (Er : parse_rest globals (S (Z.to_nat (avail g1))) 1 max g1 = Ok 1 g2).
    { rewrite avail_wf by apply Hg1. fold (left g1).
      replace (S (Z.to_nat (left g1))) with (length code + S (Z.to_nat (left g1) - length code))%nat by lia.
      rewrite (parse_tail e i code _ g g1 g2) by eauto. cbn [parse_rest].
      now rewrite (bind_Ok _ _ _ _ _ (current_ok _ _ _ _ Hg2 Ha3)). }
    rewrite Ei in Ha1. destruct (ate_app_inv g g1 [op] im Hg Ha1) as (g0 & Ha0 & Ha1'). pose proof (ate_good _ _ _ Hg Ha0) as Hg0.
    rewrite (bind_Ok _ _ _ _ _ (next_ok _ _ _ Hg Ha0)), (bind_Ok _ _ _ _ _ (parse_first_ok _ _ _ _ _ _ _ Hg0 Hf Ha1')).
    rewrite (bind_Ok _ _ _ _ _ Ecur). destruct (Z.eqb_spec b' InitExpr.op_end); [congruence|].
    rewrite (bind_Ok _ _ _ tt g1) by (apply check_ok; destruct Ht; subst; reflexivity).
    rewrite (bind_Ok _ _ _ (Z.to_nat (avail g1)) g1) by reflexivity.
    rewrite (bind_Ok _ _ _ _ _ Er). rewrite (bind_Ok _ _ _ tt g2) by reflexivity.
    rewrite (bind_Ok _ _ _ _ _ (incr_ok _ _ _ Ha3)). unfold gets, bind, ret. now rewrite Hsl.
Qed.

End Accepts.

(** ** Correctness of the parser *)

(** C37. The parser of constant expressions accepts exactly the grammar
    [accepts]: it returns an expression and moves the pointer over [bs] if and
    only if [bs] is one instruction of the expected type, or the post-order code
    of an arithmetic tree over constants and earlier immutable globals; on any
    other bytes it throws, and it never reads outside the bounds. *)
Theorem parse_init_expr_exact globals simd ie type max g :
  good g -> left g < 2 ^ 32 -> max <= vec_size globals -> max <= 2 ^ 31 ->
  (forall ie' g', parse_init_expr globals simd ie type max g = Ok ie' g' <->
     exists bs, ate g g' bs /\ accepts globals simd max ie type bs ie') /\
  parse_init_expr globals simd ie type max g <> UB.
Proof.
  intros Hg Hl Hm Hm'. pose proof (parse_init_expr_wp globals simd max Hm ie type g Hg Hm' Hl) as H. unfold wp in H.
  split; [|intros E; now rewrite E in H]. intros ie' g'. split.
  - intros E. now rewrite E in H.
  - intros (bs & Ha & Hacc). now apply (parse_init_expr_ok globals simd max ie type bs).
Qed.

(** No operation of a tree overflows and its constants can be read. *)
Fixpoint arith_ok (env : list init_expr) (e : const_expr) : Prop :=
  match e with
  | ELeaf w imm => readable w imm
  | EGlobal _ => True
  | EArith w op a b =>
      arith_ok env a /\ arith_ok env b /\
      in_s (bits w) (op_fun op (operand w (value env a)) (operand w (value env b)))
  end.

Lemma parsed_evaluable globals max env e : Forall (instr_ok globals max) (code_of e) -> max <= vec_size env ->
  arith_ok env e -> evaluable env e.
Proof.
  intros Hall Hm. induction e as [w imm|imm|w o a IHa b IHb]; cbn [code_of arith_ok evaluable] in *; auto.
  - intros _. apply Forall_inv in Hall. destruct Hall as (_ & Hd & _). lia.
  - apply Forall_app in Hall as [Ha Hall]. apply Forall_app in Hall as [Hb _]. intuition.
Qed.

Lemma evaluate_simple {St} env ie (s : St) : ie_raw_expr ie = [] ->
  (ie_opcode ie = InitExpr.op_get_global -> exists x, vec_lookup env (signed 32 (ev_i32 (ie_value ie))) = Some x) ->
  InitExpr.evaluate env ie s =
  Ok (if ie_opcode ie =? InitExpr.op_get_global
      then default 0 (ie_value <$> vec_lookup env (signed 32 (ev_i32 (ie_value ie)))) else ie_value ie) s.
Proof.
  intros Hr Hx. unfold InitExpr.evaluate. rewrite Hr. destruct (Z.eqb_spec (ie_opcode ie) InitExpr.op_get_global) as [E|]; [|reflexivity].
  destruct (Hx E) as [x Ex]. now rewrite (bind_Ok _ _ _ _ _ (vec_index_Ok _ _ _ _ Ex)), Ex.
Qed.

(** C38. From bytes to value: an initializer the parser accepted evaluates,
    once the globals it may name are initialized, to its constant, to the value
    of the global it names, or, for an extended expression whose arithmetic does
    not overflow, to the WebAssembly value of the tree whose code the bytes are;
    the only failure is a tree that needs more than 16 operands. *)
Theorem parsed_init_expr_evaluates {St} globals simd ie type max g ie' g' env (s : St) :
  good g -> left g < 2 ^ 32 -> max <= vec_size globals -> max <= 2 ^ 31 -> max <= vec_size env ->
  ie_raw_expr ie = [] -> parse_init_expr globals simd ie type max g = Ok ie' g' ->
  (ie_raw_expr ie' = [] /\
   InitExpr.evaluate env ie' s =
   Ok (if ie_opcode ie' =? InitExpr.op_get_global
       then default 0 (ie_value <$> vec_lookup env (signed 32 (ev_i32 (ie_value ie')))) else ie_value ie') s)
  \/
  (exists e, ate g g' (encoded e) /\
   (arith_ok env e ->
    InitExpr.evaluate env ie' s =
    if (depth e <=? InitExpr.max_stack)%nat then Ok (wrap 64 (value env e)) s else Throw stack_overflow s)).
Proof.
  intros Hg Hl Hm Hm' He Hr E. pose proof (parse_init_expr_wp globals simd max Hm ie type g Hg Hm' Hl) as H. unfold wp in H.
  rewrite E in H. destruct H as (bs & Ha & Hacc). revert Ha.
  destruct Hacc as [op im v Hf Hs|w o a b i op im v code e Ht Hall Ee Ei Hf]; intros Ha; [left|right].
  - split; [exact Hr|]. apply evaluate_simple; [exact Hr|]. cbn [ie_opcode ie_value]. intros ->.
    destruct (first_global_ref _ _ _ _ _ _ _ Hm' Hf) as (imm & -> & -> & Hd & gl & El & _).
    apply vec_lookup_range. apply vec_lookup_lt in El. lia.
  - exists e. split; [exact Ha|]. intros Hok. apply evaluate_computes_value; [|now apply (parsed_evaluable globals max)].
    eapply Forall_impl; [|exact Hall]. now intros x [Hx _].
Qed.

(** ** Witnesses: [(i64.mul (global.get 0) (i64.const -123456))] over a global holding 3. *)
Definition demo_globals : list global_variable :=
  [{| gv_type := {| content_type := types.i64; mutability := false |};
      gv_init := {| ie_value := 3; ie_opcode := 0x42; ie_raw_expr := [] |} |}].
Definition demo_ie : init_expr := {| ie_value := 0; ie_opcode := 0; ie_raw_expr := [] |}.
Definition demo_code : guarded_ptr := make [0x23; 0x00; 0x42; 0xc0; 0xbb; 0x78; 0x7E; 0x0B; 0x01] 9.

Lemma demo_good : good demo_code.
Proof. split; [unfold wf; cbn; lia|]. repeat (apply Forall_cons_2; [unfold in_u; lia|]). apply Forall_nil_2. Qed.

Lemma parse_init_expr_exact_witness :
  (forall ie' g', parse_init_expr demo_globals false demo_ie types.i64 1 demo_code = Ok ie' g' <->
     exists bs, ate demo_code g' bs /\ accepts demo_globals false 1 demo_ie types.i64 bs ie') /\
  parse_init_expr demo_globals false demo_ie types.i64 1 demo_code <> UB.
Proof.
  apply parse_init_expr_exact; [exact demo_good|vm_compute; reflexivity|vm_compute; discriminate|vm_compute; discriminate].
Defined.

Definition demo_env : list init_expr := [{| ie_value := 3; ie_opcode := 0x42; ie_raw_expr := [] |}].
Definition demo_parsed : init_expr :=
  {| ie_value := 0; ie_opcode := 0x41; ie_raw_expr := [0x23; 0x00; 0x42; 0xc0; 0xbb; 0x78; 0x7E; 0x0B] |}.

Example demo_value : InitExpr.evaluate demo_env demo_parsed tt = Ok (2 ^ 64 - 370368) tt.
Proof. reflexivity. Qed.

Lemma parsed_init_expr_evaluates_witness :
  exists e, ate demo_code (set_raw 8 demo_code) (encoded e) /\
   (arith_ok demo_env e ->
    InitExpr.evaluate demo_env demo_parsed tt =
    if (depth e <=? InitExpr.max_stack)%nat then Ok (wrap 64 (value demo_env e)) tt else Throw stack_overflow tt).
Proof.
  destruct (parsed_init_expr_evaluates demo_globals false demo_ie types.i64 1 demo_code demo_parsed (set_raw 8 demo_code)
              demo_env tt) as [[H _]|H];
    [exact demo_good|vm_compute; reflexivity|vm_compute; discriminate|vm_compute; discriminate|vm_compute; discriminate
    |reflexivity|vm_compute; reflexivity|discriminate H|exact H].
Defined.
