(* ===== verification/Utf8.v ===== *)
(** * Names

    Models [validate_utf8_code_point], [validate_utf8_string] and
    [parse_utf8_string] of psizam/detail/parser.hpp, which read the names of
    imports, exports and custom sections, and shows that they accept exactly the
    UTF-8 encodings of sequences of Unicode scalar values. *)
From Stdlib Require Import ZArith Lia Bool String.
From stdpp Require Import base list numbers decidable option.
From S2P Require Import Prelude Leb128 Types InitExpr ConstExpr ParseInit.
Import GuardedPtr Leb Parser.

(** ** The parser *)
Module Utf8.
Definition utf8_check (b : bool) : M guarded_ptr unit := check b "invalid utf8 encoding".

(** A continuation byte, read and checked. *)
Definition continuation : M guarded_ptr Z :=
  let* b := next in utf8_check (Z.land b 0xC0 =? 0x80) ;;; ret b.

Definition validate_utf8_code_point : M guarded_ptr Z :=
  let* ch := next in
  if ch <? 0x80 then ret 1
  else if ch <? 0xE0 then
    utf8_check (Z.land ch 0xC0 =? 0xC0) ;;;
    let* b2 := continuation in
    let code_point := Z.shiftl (ch - 0xC0) 6 + (b2 - 0x80) in
    utf8_check ((0x80 <=? code_point) && (code_point <? 0x800)) ;;; ret 2
  else if ch <? 0xF0 then
    let* b2 := continuation in
    let* b3 := continuation in
    let code_point := Z.shiftl (ch - 0xE0) 12 + Z.shiftl (b2 - 0x80) 6 + (b3 - 0x80) in
    utf8_check (((0x800 <=? code_point) && (code_point <? 0xD800)) || ((0xE000 <=? code_point) && (code_point <? 0x10000))) ;;; ret 3
  else if ch <? 0xF8 then
    let* b2 := continuation in
    let* b3 := continuation in
    let* b4 := continuation in
    let code_point := Z.shiftl (ch - 0xF0) 18 + Z.shiftl (b2 - 0x80) 12 + Z.shiftl (b3 - 0x80) 6 + (b4 - 0x80) in
    utf8_check ((0x10000 <=? code_point) && (code_point <? 0x110000)) ;;; ret 4
  else throw wasm_parse_exception "invalid utf8 encoding".

(** A code point is at least a byte, so [bytes] bounds the iterations. *)
Fixpoint validate_loop (fuel : nat) (bytes : Z) : M guarded_ptr unit :=
  match fuel with
  | O => undefined
  | S n =>
      if bytes =? 0 then ret tt else
      let* cp_size := validate_utf8_code_point in
      check (cp_size <=? bytes) "UTF-8 code point extends past string boundary" ;;;
      validate_loop n (bytes - cp_size)
  end.
Definition validate_utf8_string (bytes : Z) : M guarded_ptr unit := validate_loop (S (Z.to_nat bytes)) bytes.

Definition parse_utf8_string (max_size : Z) : M guarded_ptr (list Z) :=
  let* len := parse_varuint 32 in
  check (len <=? max_size) "name too long" ;;;
  scoped_shrink_bounds len
    (let* result := gets (fun g => take (Z.to_nat len) (drop (Z.to_nat (gp_raw g)) (gp_data g))) in
     validate_utf8_string len ;;; ret result).
End Utf8.
Import Utf8.

(** ** UTF-8 *)
Definition scalar (c : Z) : Prop := 0 <= c < 0xD800 \/ 0xE000 <= c < 0x110000.
Definition encode (c : Z) : list Z :=
  if c <? 0x80 then [c]
  else if c <? 0x800 then [0xC0 + c / 64; 0x80 + c mod 64]
  else if c <? 0x10000 then [0xE0 + c / 4096; 0x80 + (c / 64) mod 64; 0x80 + c mod 64]
  else [0xF0 + c / 262144; 0x80 + (c / 4096) mod 64; 0x80 + (c / 64) mod 64; 0x80 + c mod 64].
Definition utf8_text (bs : list Z) : Prop := exists cs, Forall scalar cs /\ bs = concat (map encode cs).

(** ** Bytes *)
Lemma continuation_bits b : in_u 8 b -> (Z.land b 0xC0 =? 0x80) = (0x80 <=? b) && (b <? 0xC0).
Proof.
  intros Hb. apply eqb_prop.
  exact (Z_enum (fun b => eqb (Z.land b 0xC0 =? 0x80) ((0x80 <=? b) && (b <? 0xC0))) 256 eq_refl b Hb).
Qed.
Lemma lead_bits b : in_u 8 b -> (Z.land b 0xC0 =? 0xC0) = (0xC0 <=? b).
Proof.
  intros Hb. apply eqb_prop.
  exact (Z_enum (fun b => eqb (Z.land b 0xC0 =? 0xC0) (0xC0 <=? b)) 256 eq_refl b Hb).
Qed.
Lemma shiftl_mul a n : 0 <= n -> Z.shiftl a n = a * 2 ^ n. Proof. apply Z.shiftl_mul_pow2. Qed.

(** The code points of the four lengths, in terms of the bytes. *)
Lemma encode_2 ch b2 : let c := (ch - 0xC0) * 64 + (b2 - 0x80) in
  0xC0 <= ch -> 0x80 <= b2 < 0xC0 -> 0x80 <= c < 0x800 -> encode c = [ch; b2].
Proof.
  intros c H1 H2 H3. unfold encode. destruct (Z.ltb_spec c 0x80); [lia|]. destruct (Z.ltb_spec c 0x800); [|lia].
  subst c. repeat (apply (f_equal2 cons); [Z.to_euclidean_division_equations; lia|]). reflexivity.
Qed.
Lemma encode_3 ch b2 b3 : let c := (ch - 0xE0) * 4096 + (b2 - 0x80) * 64 + (b3 - 0x80) in
  0x80 <= b2 < 0xC0 -> 0x80 <= b3 < 0xC0 -> 0x800 <= c < 0x10000 -> encode c = [ch; b2; b3].
Proof.
  intros c H2 H3 H. unfold encode. destruct (Z.ltb_spec c 0x80); [lia|]. destruct (Z.ltb_spec c 0x800); [lia|]. destruct (Z.ltb_spec c 0x10000); [|lia].
  subst c. repeat (apply (f_equal2 cons); [Z.to_euclidean_division_equations; lia|]). reflexivity.
Qed.
Lemma encode_4 ch b2 b3 b4 : let c := (ch - 0xF0) * 262144 + (b2 - 0x80) * 4096 + (b3 - 0x80) * 64 + (b4 - 0x80) in
  0x80 <= b2 < 0xC0 -> 0x80 <= b3 < 0xC0 -> 0x80 <= b4 < 0xC0 -> 0x10000 <= c < 0x110000 -> encode c = [ch; b2; b3; b4].
Proof.
  intros c H2 H3 H4 H. unfold encode. destruct (Z.ltb_spec c 0x80); [lia|]. destruct (Z.ltb_spec c 0x800); [lia|]. destruct (Z.ltb_spec c 0x10000); [lia|].
  subst c. repeat (apply (f_equal2 cons); [Z.to_euclidean_division_equations; lia|]). reflexivity.
Qed.

(** ** One code point *)
Lemma wp_continuation g Q : good g -> (forall b g', 0x80 <= b < 0xC0 -> ate g g' [b] -> Q b g') -> wp continuation Q any g.
Proof.
  intros Hg HQ. apply wp_bind. eapply wp_mono; [| |apply (next_wp g Hg)]; [|auto]. intros b g' [Hb Ha]. apply wp_bind, wp_check.
  rewrite (continuation_bits b Hb), andb_true_iff, Z.leb_le, Z.ltb_lt. intros H. now apply HQ.
Qed.
Lemma ate_snoc g g1 g2 bs b : good g -> ate g g1 bs -> ate g1 g2 [b] -> ate g g2 (bs ++ [b]) /\ good g2.
Proof.
  intros Hg H1 H2. split; [now apply (ate_app g g1)|]. apply (ate_good g1 g2 [b]); [|exact H2]. now apply (ate_good g g1 bs).
Qed.

Definition one_code_point (g : guarded_ptr) (n : Z) (g' : guarded_ptr) : Prop :=
  exists c, scalar c /\ ate g g' (encode c) /\ n = Z.of_nat (length (encode c)).
Lemma code_point_wp g : good g -> wp validate_utf8_code_point (one_code_point g) any g.
Proof.
  intros Hg. apply wp_bind. eapply wp_mono; [| |apply (next_wp g Hg)]; [|auto]. intros ch g1 [Hch H1].
  pose proof (ate_good _ _ _ Hg H1) as Hg1.
  destruct (Z.ltb_spec ch 0x80) as [L1|L1].
  { exists ch. unfold in_u in Hch. split; [left; lia|]. unfold encode. destruct (Z.ltb_spec ch 0x80); [|lia]. auto. }
  destruct (Z.ltb_spec ch 0xE0) as [L2|L2].
  { apply wp_bind, wp_check. rewrite (lead_bits ch Hch), Z.leb_le. intros Hl. apply wp_bind, wp_continuation; [exact Hg1|]. intros b2 g2 Hb2 H2.
    destruct (ate_snoc g g1 g2 [ch] b2 Hg H1 H2) as [Ha Hg2]. rewrite !shiftl_mul by lia. change (2 ^ 6) with 64. apply wp_bind, wp_check.
    rewrite andb_true_iff, Z.leb_le, Z.ltb_lt. intros Hc. exists ((ch - 0xC0) * 64 + (b2 - 0x80)). rewrite (encode_2 ch b2 Hl Hb2 Hc).
    split; [left; lia|]. auto. }
  destruct (Z.ltb_spec ch 0xF0) as [L3|L3].
  { apply wp_bind, wp_continuation; [exact Hg1|]. intros b2 g2 Hb2 H2. destruct (ate_snoc g g1 g2 [ch] b2 Hg H1 H2) as [Ha2 Hg2].
    apply wp_bind, wp_continuation; [exact Hg2|]. intros b3 g3 Hb3 H3. destruct (ate_snoc g g2 g3 _ b3 Hg Ha2 H3) as [Ha3 Hg3].
    rewrite !shiftl_mul by lia. change (2 ^ 12) with 4096. change (2 ^ 6) with 64. apply wp_bind, wp_check.
    rewrite orb_true_iff, !andb_true_iff, !Z.leb_le, !Z.ltb_lt. intros Hc. exists ((ch - 0xE0) * 4096 + (b2 - 0x80) * 64 + (b3 - 0x80)).
    rewrite (encode_3 ch b2 b3 Hb2 Hb3) by lia. split; [unfold scalar; lia|]. auto. }
  destruct (Z.ltb_spec ch 0xF8) as [L4|L4]; [|exact I].
  apply wp_bind, wp_continuation; [exact Hg1|]. intros b2 g2 Hb2 H2. destruct (ate_snoc g g1 g2 [ch] b2 Hg H1 H2) as [Ha2 Hg2].
  apply wp_bind, wp_continuation; [exact Hg2|]. intros b3 g3 Hb3 H3. destruct (ate_snoc g g2 g3 _ b3 Hg Ha2 H3) as [Ha3 Hg3].
  apply wp_bind, wp_continuation; [exact Hg3|]. intros b4 g4 Hb4 H4. destruct (ate_snoc g g3 g4 _ b4 Hg Ha3 H4) as [Ha4 Hg4].
  rewrite !shiftl_mul by lia. change (2 ^ 18) with 262144. change (2 ^ 12) with 4096. change (2 ^ 6) with 64. apply wp_bind, wp_check.
  rewrite andb_true_iff, Z.leb_le, Z.ltb_lt. intros Hc.
  exists ((ch - 0xF0) * 262144 + (b2 - 0x80) * 4096 + (b3 - 0x80) * 64 + (b4 - 0x80)). rewrite (encode_4 ch b2 b3 b4 Hb2 Hb3 Hb4 Hc).
  split; [unfold scalar; lia|]. auto.
Qed.

Lemma continuation_ok g g' b : good g -> 0x80 <= b < 0xC0 -> ate g g' [b] -> continuation g = Ok b g'.
Proof.
  intros Hg Hb Ha. unfold continuation. rewrite (bind_Ok _ _ _ _ _ (next_ok _ _ _ Hg Ha)). unfold utf8_check, check, psizam_assert.
  rewrite continuation_bits by (unfold in_u; lia). destruct (Z.leb_spec 0x80 b); [|lia]. destruct (Z.ltb_spec b 0xC0); [|lia]. reflexivity.
Qed.
Lemma utf8_check_ok b g : b = true -> utf8_check b g = Ok tt g. Proof. now intros ->. Qed.
(** The first of the bytes ahead, and the rest. *)
Ltac eat H g1 H1 :=
  match type of H with
  | ate ?g ?g' (?b :: ?bs) =>
      let Hg := fresh "Hg" in assert (Hg : good g) by assumption;
      destruct (ate_app_inv g g' [b] bs Hg H) as (g1 & H1 & ?);
      pose proof (ate_good g g1 [b] Hg H1); clear H; rename select (ate g1 g' bs) into H
  end.
Ltac one_continuation H :=
  let g1 := fresh "g" in let H1 := fresh "Ha" in eat H g1 H1;
  match type of H1 with
  | ate ?g _ [?b] =>
      let Hk := fresh in let Hr := fresh in assert (Hk : good g) by assumption; assert (Hr : 0x80 <= b < 0xC0) by lia;
      rewrite (bind_Ok _ _ _ _ _ (continuation_ok g g1 b Hk Hr H1)); clear Hk Hr
  end.
Ltac bytes_check :=
  match goal with
  | |- bind (utf8_check ?b) _ _ = _ =>
      let Hc := fresh in assert (Hc : b = true) by (rewrite ?orb_true_iff, ?andb_true_iff, ?Z.leb_le, ?Z.ltb_lt; lia);
      rewrite (bind_Ok _ _ _ _ _ (utf8_check_ok b _ Hc)); clear Hc
  end.

Lemma ate_nil_inv g g' : ate g g' [] -> g' = g.
Proof. intros [_ ->]. unfold set_raw. cbn. rewrite Z.add_0_r. now destruct g. Qed.
(** The base-64 digits of a code point. *)
Lemma digits c : exists q1 q2 q3 r0 r1 r2, c / 64 = q1 /\ c / 4096 = q2 /\ c / 262144 = q3 /\ c mod 64 = r0 /\ q1 mod 64 = r1 /\ q2 mod 64 = r2 /\
  c = 64 * q1 + r0 /\ q1 = 64 * q2 + r1 /\ q2 = 64 * q3 + r2 /\ 0 <= r0 < 64 /\ 0 <= r1 < 64 /\ 0 <= r2 < 64.
Proof.
  exists (c / 64), (c / 4096), (c / 262144), (c mod 64), (c / 64 mod 64), (c / 4096 mod 64). do 6 (split; [reflexivity|]).
  change 4096 with (64 * 64). change 262144 with (64 * 64 * 64). rewrite <- !Z.div_div by lia.
  repeat split; (apply Z.div_mod; lia) || (apply Z.mod_pos_bound; lia).
Qed.
Lemma code_point_ok c g g' : scalar c -> good g -> ate g g' (encode c) -> validate_utf8_code_point g = Ok (Z.of_nat (length (encode c))) g'.
Proof.
  intros Hs Hg H. unfold validate_utf8_code_point. unfold encode in *. unfold scalar in Hs.
  destruct (digits c) as (q1 & q2 & q3 & r0 & r1 & r2 & E1 & E2 & E3 & E4 & E5 & E6 & D). rewrite E1, E2, E3, E4, E5, E6 in *. clear E1 E2 E3 E4 E5 E6.
  destruct (Z.ltb_spec c 0x80); [|destruct (Z.ltb_spec c 0x800); [|destruct (Z.ltb_spec c 0x10000)]];
    eat H g1 Hb; rewrite (bind_Ok _ _ _ _ _ (next_ok _ _ _ Hg Hb)).
  - apply ate_nil_inv in H as ->. destruct (Z.ltb_spec c 0x80); [reflexivity|lia].
  - destruct (Z.ltb_spec (0xC0 + q1) 0x80); [lia|]. destruct (Z.ltb_spec (0xC0 + q1) 0xE0); [|lia].
    rewrite lead_bits by (unfold in_u; lia). bytes_check. one_continuation H. rewrite !shiftl_mul by lia. bytes_check. apply ate_nil_inv in H as ->. reflexivity.
  - destruct (Z.ltb_spec (0xE0 + q2) 0x80); [lia|]. destruct (Z.ltb_spec (0xE0 + q2) 0xE0); [lia|]. destruct (Z.ltb_spec (0xE0 + q2) 0xF0); [|lia].
    do 2 one_continuation H. rewrite !shiftl_mul by lia. bytes_check. apply ate_nil_inv in H as ->. reflexivity.
  - destruct (Z.ltb_spec (0xF0 + q3) 0x80); [lia|]. destruct (Z.ltb_spec (0xF0 + q3) 0xE0); [lia|]. destruct (Z.ltb_spec (0xF0 + q3) 0xF0); [lia|].
    destruct (Z.ltb_spec (0xF0 + q3) 0xF8); [|lia].
    do 3 one_continuation H. rewrite !shiftl_mul by lia. bytes_check. apply ate_nil_inv in H as ->. reflexivity.
Qed.

(** ** Strings *)
Lemma encode_length c : (1 <= length (encode c))%nat.
Proof. unfold encode. repeat destruct (_ <? _); cbn; lia. Qed.
Lemma text_nil : utf8_text []. Proof. exists []. auto. Qed.
Lemma text_cons c bs : scalar c -> utf8_text bs -> utf8_text (encode c ++ bs).
Proof. intros Hc (cs & Hcs & ->). exists (c :: cs). split; [now constructor|reflexivity]. Qed.

Lemma validate_wp fuel : forall n g, good g -> 0 <= n < Z.of_nat fuel ->
  wp (validate_loop fuel n) (fun _ g' => exists bs, ate g g' bs /\ utf8_text bs /\ Z.of_nat (length bs) = n) any g.
Proof.
  induction fuel as [|fuel IH]; intros n g Hg Hn; [lia|]. cbn [validate_loop]. destruct (Z.eqb_spec n 0) as [->|Hne].
  - exists []. split; [now apply ate_nil|]. split; [apply text_nil|reflexivity].
  - apply wp_bind. eapply wp_mono; [| |apply (code_point_wp g Hg)]; [|auto]. intros k g1 (c & Hc & H1 & ->). pose proof (encode_length c).
    apply wp_bind, wp_check. rewrite Z.leb_le. intros Hk.
    eapply wp_mono; [| |apply (IH (n - Z.of_nat (length (encode c))) g1); [now apply (ate_good g g1 (encode c))|lia]]; [|auto].
    intros [] g2 (bs & H2 & Ht & El). exists (encode c ++ bs). split; [now apply (ate_app g g1)|]. split; [now apply text_cons|]. rewrite length_app. lia.
Qed.
Lemma validate_ok cs : Forall scalar cs -> forall fuel g g', good g -> ate g g' (concat (map encode cs)) ->
  (length (concat (map encode cs)) < fuel)%nat -> validate_loop fuel (Z.of_nat (length (concat (map encode cs)))) g = Ok tt g'.
Proof.
  induction 1 as [|c cs Hc _ IH]; intros [|fuel] g g' Hg Ha Hf; try lia; cbn [validate_loop map concat].
  - apply ate_nil_inv in Ha as ->. reflexivity.
  - cbn [map concat] in *. pose proof (encode_length c). rewrite length_app in *. destruct (Z.eqb_spec (Z.of_nat (length (encode c) + length (concat (map encode cs)))) 0); [lia|].
    apply ate_app_inv in Ha as (g1 & H1 & H2); [|exact Hg]. rewrite (bind_Ok _ _ _ _ _ (code_point_ok c g g1 Hc Hg H1)).
    assert (Hk : (Z.of_nat (length (encode c)) <=? Z.of_nat (length (encode c) + length (concat (map encode cs)))) = true) by (apply Z.leb_le; lia).
    rewrite (bind_Ok _ _ _ _ _ (check_ok _ _ _ Hk)). replace (_ - _) with (Z.of_nat (length (concat (map encode cs)))) by lia.
    apply IH; [now apply (ate_good g g1 (encode c))|exact H2|lia].
Qed.

(** ** Names *)

(** A length in LEB128 and as many bytes. *)
Definition name_at (g g' : guarded_ptr) (max_size : Z) (name : list Z) : Prop :=
  exists imm, instr_wf (KGlobal imm) /\ ate g g' (imm ++ name) /\ leb_val imm = vec_size name /\ vec_size name <= max_size.

Lemma avail_good g : good g -> avail g = gp_bnds g - gp_raw g.
Proof. intros [Hg _]. now apply avail_wf. Qed.
Lemma shrink_good g n : good g -> 0 <= n <= avail g -> good (set_bnds (gp_raw g + n) g).
Proof. intros Hg Hn. rewrite (avail_good g Hg) in Hn. destruct Hg as [[[? ?] [? ?]] ?]. split; [|assumption]. unfold wf. cbn. lia. Qed.
Lemma shrunk_ate g g' bs : let n := vec_size bs in good g -> ate g g' bs ->
  n <= avail g /\ ate (set_bnds (gp_raw g + n) g) (set_bnds (gp_raw g + n) g') bs /\ take (Z.to_nat n) (drop (Z.to_nat (gp_raw g)) (gp_data g)) = bs /\
  set_bnds (gp_bnds g) g' = g'.
Proof.
  intros n Hg [[Hb Hl] ->]. subst n. unfold vec_size. rewrite (avail_good g Hg). split; [lia|]. rewrite Nat2Z.id.
  repeat split; try exact Hb; cbn; try lia.
Qed.
Lemma unshrink_ate g g' bs : good g -> vec_size bs <= avail g -> ate (set_bnds (gp_raw g + vec_size bs) g) g' bs -> ate g (set_bnds (gp_bnds g) g') bs.
Proof.
  intros Hg Hn [[Hb _] ->]. rewrite (avail_good g Hg) in Hn. unfold vec_size in *. repeat split; [exact Hb|lia].
Qed.
Lemma shrunk_run {A} n (body : M guarded_ptr A) g : n <= avail g ->
  scoped_shrink_bounds n body g = match body (set_bnds (gp_raw g + n) g) with
    | Ok a s' => Ok a (set_bnds (gp_bnds g) s') | Throw e s' => Throw e (set_bnds (gp_bnds g) s') | UB => UB end.
Proof. intros Hn. unfold scoped_shrink_bounds, bind, get, psizam_assert. apply Z.leb_le in Hn. rewrite Hn. reflexivity. Qed.

Lemma parse_utf8_string_wp max_size g : good g ->
  wp (parse_utf8_string max_size) (fun name g' => utf8_text name /\ name_at g g' max_size name) any g.
Proof.
  intros Hg. apply wp_bind. eapply wp_mono; [| |apply (parse_varuint_wp g Hg)]; [|auto]. intros len g1 (imm & H1 & Hi & ->).
  pose proof (ate_good _ _ _ Hg H1) as Hg1. set (len := leb_val imm) in *. assert (Hlen : in_u 32 len) by apply Hi. apply wp_bind, wp_check. rewrite Z.leb_le. intros Hmax.
  unfold wp. destruct (Z.leb_spec len (avail g1)) as [Hav|Hav].
  2:{ unfold scoped_shrink_bounds, bind, get, psizam_assert. destruct (Z.leb_spec len (avail g1)); [lia|exact I]. }
  rewrite shrunk_run by exact Hav. set (g2 := set_bnds (gp_raw g1 + len) g1).
  assert (Hg2 : good g2) by (apply shrink_good; [exact Hg1|unfold in_u in Hlen; lia]).
  unfold bind at 1. unfold gets. unfold bind. pose proof (validate_wp (S (Z.to_nat len)) len g2 Hg2 ltac:(unfold in_u in Hlen; lia)) as Hv. unfold wp in Hv.
  unfold validate_utf8_string. destruct (validate_loop _ _ g2) as [[] g3|e g3|]; [|exact I|contradiction]. destruct Hv as (bs & H3 & Ht & El).
  assert (Er : take (Z.to_nat len) (drop (Z.to_nat (gp_raw g2)) (gp_data g2)) = bs).
  { destruct H3 as [[Hb _] _]. rewrite <- Hb. f_equal. lia. }
  cbn [ret]. rewrite Er. split; [exact Ht|]. exists imm. split; [exact Hi|]. split.
  - apply (ate_app g g1); [exact Hg|exact H1|]. apply unshrink_ate; [exact Hg1|unfold vec_size; lia|]. unfold vec_size. rewrite El. exact H3.
  - unfold vec_size. lia.
Qed.
Lemma parse_utf8_string_ok max_size name g g' : good g -> utf8_text name -> name_at g g' max_size name -> parse_utf8_string max_size g = Ok name g'.
Proof.
  intros Hg (cs & Hcs & En) (imm & Hi & Ha & El & Hmax). apply ate_app_inv in Ha as (g1 & H1 & H2); [|exact Hg]. pose proof (ate_good _ _ _ Hg H1) as Hg1.
  unfold parse_utf8_string. rewrite (bind_Ok _ _ _ _ _ (parse_varuint_ok g g1 imm Hg Hi H1)), El.
  assert (Hk : (vec_size name <=? max_size) = true) by (apply Z.leb_le; lia). rewrite (bind_Ok _ _ _ _ _ (check_ok _ _ _ Hk)).
  destruct (shrunk_ate g1 g' name Hg1 H2) as (Hav & H3 & Er & Eb). rewrite shrunk_run by exact Hav. set (g2 := set_bnds (gp_raw g1 + vec_size name) g1) in *.
  assert (Hg2 : good g2) by (apply shrink_good; [exact Hg1|unfold vec_size in *; lia]).
  unfold bind at 1. unfold gets. change (gp_raw g2) with (gp_raw g1). change (gp_data g2) with (gp_data g1). rewrite Er. unfold bind, validate_utf8_string.
  assert (Hv : validate_loop (S (Z.to_nat (vec_size name))) (vec_size name) g2 = Ok tt (set_bnds (gp_raw g1 + vec_size name) g')).
  { unfold vec_size in *. rewrite En in *. apply (validate_ok cs Hcs _ g2); [exact Hg2|exact H3|lia]. }
  rewrite Hv. cbn [ret]. f_equal. rewrite <- Eb. reflexivity.
Qed.

(** C39. The parser of names accepts exactly UTF-8.  On a length and as many
    bytes it returns those bytes, with the pointer behind them, when they are the
    encoding of a sequence of Unicode scalar values (no overlong forms, no
    surrogates, nothing above 0x10FFFF); it throws on everything else and never
    reads past the bounds. *)
Theorem utf8_names_exact max_size g :
  good g ->
  match parse_utf8_string max_size g with
  | Ok name g' => utf8_text name /\ name_at g g' max_size name
  | Throw _ _ => forall name g', name_at g g' max_size name -> utf8_text name -> False
  | UB => False
  end.
Proof.
  intros Hg. pose proof (parse_utf8_string_wp max_size g Hg) as Hw. unfold wp in Hw.
  destruct (parse_utf8_string max_size g) as [name g'|e g'|] eqn:E; auto. intros name g2 Ha Ht. rewrite (parse_utf8_string_ok max_size name g g2 Hg Ht Ha) in E. discriminate.
Qed.

(** The name "a\u00e9\u20ac" (six bytes) behind its length, and an overlong "/". *)
Definition name_code : guarded_ptr := make [0x06; 0x61; 0xC3; 0xA9; 0xE2; 0x82; 0xAC] 7.
Definition overlong_code : guarded_ptr := make [0x02; 0xC0; 0xAF] 3.
Lemma utf8_names_exact_witness :
  (utf8_text [0x61; 0xC3; 0xA9; 0xE2; 0x82; 0xAC] /\ name_at name_code (set_raw 7 name_code) 100 [0x61; 0xC3; 0xA9; 0xE2; 0x82; 0xAC]) /\
  forall name g', name_at overlong_code g' 100 name -> utf8_text name -> False.
Proof.
  assert (G1 : good name_code) by (split; [unfold wf; cbn; lia|repeat (constructor; [unfold in_u; lia|]); constructor]).
  assert (G2 : good overlong_code) by (split; [unfold wf; cbn; lia|repeat (constructor; [unfold in_u; lia|]); constructor]).
  exact (conj (utf8_names_exact 100 name_code G1) (utf8_names_exact 100 overlong_code G2)).
Defined.
