(* ===== verification/Linking.v ===== *)
(** * Linking imports

    Models the two resolvers that connect a module's imports to the host:
    [registered_host_functions::resolve_impl] of psizam/host_function.hpp, which
    also links tables, globals and memories, and [host_function_table::resolve]
    of psizam/host_function_table.hpp.  The name maps are finite maps from
    module and field names.  Error messages omit the name the source appends. *)
From Stdlib Require Import ZArith Lia Bool String.
From stdpp Require Import base list numbers decidable option gmap countable.
From S2P Require Import Prelude Types InitExpr.

#[global] Instance eta_limits : Eta resizable_limits := fun l =>
  {| lim_flags := lim_flags l; lim_initial := lim_initial l; lim_maximum := lim_maximum l |}.
#[global] Instance eta_module : Eta module := fun m => {|
  m_start := m_start m; m_types := m_types m; m_imports := m_imports m; m_functions := m_functions m;
  m_tables := m_tables m; m_memories := m_memories m; m_globals := m_globals m; m_exports := m_exports m;
  m_elements := m_elements m; m_code := m_code m; m_data := m_data m; m_tags := m_tags m;
  m_import_functions := m_import_functions m; m_num_imported_tables := m_num_imported_tables m;
  m_num_imported_memories := m_num_imported_memories m; m_num_imported_globals := m_num_imported_globals m;
  m_stack_limit_is_bytes := m_stack_limit_is_bytes m;
  m_error := m_error m; bytecode := bytecode m |}.

Definition host_func_pair : Type := list Z * list Z.

(** [host_function] and its comparison with a function type. *)
Record host_function := { hf_params : list Z; hf_ret : list Z }.
Definition host_function_eqb (lhs : host_function) (rhs : func_type) : bool :=
  (vec_size (hf_params lhs) =? vec_size (param_types rhs)) && bool_decide (hf_params lhs = param_types rhs) &&
  (vec_size (hf_ret lhs) =? vec_size (return_types rhs)) && bool_decide (hf_ret lhs = return_types rhs).

Record host_table_import := { hti_initial_size : Z }.
Record host_global_import := { hgi_content_type : Z; hgi_value : Z }.
Record host_memory_import := { hmi_initial_pages : Z; hmi_maximum_pages : Z; hmi_has_maximum : bool }.

(** [registered_host_functions::mappings] *)
Record mappings := {
  named_mapping : gmap host_func_pair Z; host_functions : list host_function;
  table_imports : gmap host_func_pair host_table_import;
  global_imports : gmap host_func_pair host_global_import;
  memory_imports : gmap host_func_pair host_memory_import }.

Definition import_name (i : import_entry) : host_func_pair := (im_module i, im_field i).
Definition no_mapping : string := "no mapping for imported function".
Definition wrong_type : string := "wrong type for imported function".

Abbreviation L := (M module).

(** [import_functions[k] = idx] *)
Definition set_import_function (k idx : Z) : L unit :=
  let* m := get in
  let* _ := vec_index (m_import_functions m) k in
  modify (fun m => m <| m_import_functions := vec_update (m_import_functions m) k idx |>).

(** The type check both resolvers make. *)
Definition check_signature (sigs : list host_function) (idx : Z) (i : import_entry) : L unit :=
  let* m := get in
  let* sig := vec_index sigs idx in
  let* ft := vec_index (m_types m) (im_func_t i) in
  psizam_assert (host_function_eqb sig ft) wasm_link_exception wrong_type.

(** The inner loops that turn import [i] into an index among imports of a kind. *)
Definition kind_index (k : external_kind) (i : nat) (imports : list import_entry) : Z :=
  Z.of_nat (length (filter (fun e => im_kind e = k) (take i imports))).

Definition link_table (t : host_table_import) (idx : Z) : L unit :=
  let* m := get in
  match vec_lookup (m_tables m) idx with
  | None => ret tt
  | Some tt0 =>
      modify (fun m => m <| m_tables := vec_update (m_tables m) idx
        {| element_type := element_type tt0; tt_limits := (tt_limits tt0) <| lim_initial := hti_initial_size t |> |} |>)
  end.
(** [init.value.i64 = value] and the opcode that makes [evaluate] return it. *)
Definition global_opcode (content_type old : Z) : Z :=
  if content_type =? types.i32 then InitExpr.op_i32_const
  else if content_type =? types.i64 then InitExpr.op_i64_const
  else if content_type =? types.f32 then 0x43
  else if content_type =? types.f64 then 0x44
  else old.
Definition link_global (g : host_global_import) (idx : Z) : L unit :=
  let* m := get in
  match vec_lookup (m_globals m) idx with
  | None => ret tt
  | Some gv =>
      let ie := gv_init gv in
      modify (fun m => m <| m_globals := vec_update (m_globals m) idx
        {| gv_type := gv_type gv;
           gv_init := {| ie_value := ie_value ie / 2 ^ 64 * 2 ^ 64 + wrap 64 (hgi_value g);
                         ie_opcode := global_opcode (hgi_content_type g) (ie_opcode ie);
                         ie_raw_expr := ie_raw_expr ie |} |} |>)
  end.
Definition link_memory (h : host_memory_import) (idx : Z) : L unit :=
  let* m := get in
  match vec_lookup (m_memories m) idx with
  | None => ret tt
  | Some mt =>
      let lim := (mt_limits mt) <| lim_initial := hmi_initial_pages h |> in
      let lim := if hmi_has_maximum h
                 then lim <| lim_maximum := hmi_maximum_pages h |> <| lim_flags := true |> else lim in
      modify (fun m => m <| m_memories := vec_update (m_memories m) idx
        {| mt_limits := lim; is_memory64 := is_memory64 mt |} |>)
  end.

(** [resolve_impl]: [i] is the position of the head of [l] in [imports],
    [func_import_idx] the number of function imports before it. *)
Fixpoint resolve_impl_loop (mp : mappings) (imports : list import_entry) (i : nat) (l : list import_entry)
    (func_import_idx : Z) : L unit :=
  match l with
  | [] => ret tt
  | e :: l' =>
      match im_kind e with
      | Function =>
          match named_mapping mp !! import_name e with
          | None => throw wasm_link_exception no_mapping
          | Some idx =>
              set_import_function func_import_idx idx ;;;
              check_signature (host_functions mp) idx e ;;;
              resolve_impl_loop mp imports (S i) l' (func_import_idx + 1)
          end
      | Table =>
          (match table_imports mp !! import_name e with
           | Some t => link_table t (kind_index Table i imports) | None => ret tt end) ;;;
          resolve_impl_loop mp imports (S i) l' func_import_idx
      | Global =>
          (match global_imports mp !! import_name e with
           | Some g => link_global g (kind_index Global i imports) | None => ret tt end) ;;;
          resolve_impl_loop mp imports (S i) l' func_import_idx
      | Memory =>
          (match memory_imports mp !! import_name e with
           | Some h => link_memory h (kind_index Memory i imports) | None => ret tt end) ;;;
          resolve_impl_loop mp imports (S i) l' func_import_idx
      | Tag => resolve_impl_loop mp imports (S i) l' func_import_idx
      end
  end.
Definition resolve_impl (mp : mappings) : L unit :=
  let* m := get in resolve_impl_loop mp (m_imports m) 0 (m_imports m) 0.

(** [host_function_table::resolve]: stores at the position among all imports. *)
Fixpoint resolve_loop (names : gmap host_func_pair Z) (sigs : list host_function) (i : Z) (l : list import_entry) : L unit :=
  match l with
  | [] => ret tt
  | e :: l' =>
      (if negb (bool_decide (im_kind e = Function)) then ret tt else
       match names !! import_name e with
       | None => throw wasm_link_exception no_mapping
       | Some idx => set_import_function i idx ;;; check_signature sigs idx e
       end) ;;;
      resolve_loop names sigs (i + 1) l'
  end.
Definition resolve (names : gmap host_func_pair Z) (sigs : list host_function) : L unit :=
  let* m := get in resolve_loop names sigs 0 (m_imports m).

(** ** What linking establishes *)

Definition func_imports (l : list import_entry) : list import_entry := filter (fun e => im_kind e = Function) l.

(** Import [e] is bound to host function [idx]: by its name, at its type. *)
Definition linked (names : gmap host_func_pair Z) (sigs : list host_function) (tys : list func_type)
    (e : import_entry) (idx : Z) : Prop :=
  names !! import_name e = Some idx /\
  exists sig ft, vec_lookup sigs idx = Some sig /\ vec_lookup tys (im_func_t e) = Some ft /\
    hf_params sig = param_types ft /\ hf_ret sig = return_types ft.

(** What the parser and the registration guarantee: every function import's type
    index and every registered index is in range. *)
Record linkable (names : gmap host_func_pair Z) (sigs : list host_function) (tys : list func_type)
    (l : list import_entry) : Prop := {
  lk_types : Forall (fun e => im_kind e = Function -> is_Some (vec_lookup tys (im_func_t e))) l;
  lk_names : map_Forall (fun _ idx => is_Some (vec_lookup sigs idx)) names }.

Lemma host_function_eqb_spec sig ft : host_function_eqb sig ft = true <->
  hf_params sig = param_types ft /\ hf_ret sig = return_types ft.
Proof.
  unfold host_function_eqb. rewrite !andb_true_iff, !bool_decide_eq_true, !Z.eqb_eq. split; [tauto|].
  intros [-> ->]. auto.
Qed.

Lemma vec_update_snoc {A} (done : list A) x rest a : vec_update (done ++ x :: rest) (vec_size done) a = done ++ a :: rest.
Proof.
  unfold vec_update, vec_size. destruct (Z.ltb_spec (Z.of_nat (length done)) 0); [lia|].
  rewrite Nat2Z.id, insert_app_r_alt, Nat.sub_diag by lia. reflexivity.
Qed.

Section Link.
Context (names : gmap host_func_pair Z) (sigs : list host_function) (tys : list func_type).

(** The state of a resolver that has bound [bound] to [done]. *)
Record progress (bound todo : list import_entry) (done : list Z) (m : module) : Prop := {
  pg_types : m_types m = tys;
  pg_done : exists rest, m_import_functions m = done ++ rest /\ length rest = length (func_imports todo);
  pg_linked : Forall2 (linked names sigs tys) bound done }.

(** No host function has the import's name and type. *)
Definition unlinkable (e : import_entry) : Prop := forall idx, ~ linked names sigs tys e idx.

Lemma unnamed_unlinkable e : names !! import_name e = None -> unlinkable e.
Proof. intros Hn idx [Hi _]. congruence. Qed.

(** Binding one function import, as both resolvers do. *)
Lemma bind_import bound todo done e m idx :
  linkable names sigs tys (e :: todo) -> im_kind e = Function -> names !! import_name e = Some idx ->
  progress bound (e :: todo) done m ->
  match (set_import_function (vec_size done) idx ;;; check_signature sigs idx e) m with
  | Ok _ m' => progress (bound ++ [e]) todo (done ++ [idx]) m'
  | Throw ex _ => exn_class ex = wasm_link_exception /\ unlinkable e
  | UB => False
  end.
Proof.
  intros [Ht Hn] Hk Hi [P1 (rest & P2 & P2') P3]. unfold func_imports in P2'. rewrite filter_cons_True in P2' by exact Hk.
  destruct rest as [|x rest]; [discriminate|]. injection P2' as P2'.
  assert (Hx : vec_lookup (m_import_functions m) (vec_size done) = Some x).
  { apply vec_lookup_Some. unfold vec_size. split; [lia|]. now rewrite P2, Nat2Z.id, lookup_app_r, Nat.sub_diag by lia. }
  inversion_clear Ht as [|? ? Ht0 _]. destruct (Ht0 Hk) as [ft Hft]. destruct (Hn _ _ Hi) as [sig Hsig].
  unfold set_import_function, check_signature, bind, get, modify. rewrite (vec_index_Ok _ _ _ _ Hx).
  rewrite (vec_index_Ok _ _ _ _ Hsig). set (m1 := m <| m_import_functions := _ |>).
  assert (Hft1 : vec_lookup (m_types m1) (im_func_t e) = Some ft) by (rewrite <- P1 in Hft; exact Hft).
  rewrite (vec_index_Ok _ _ _ _ Hft1). unfold psizam_assert.
  destruct (host_function_eqb sig ft) eqn:Eq; cbn.
  2: { split; [reflexivity|]. intros idx' (Hi' & sig' & ft' & Hs' & Hf' & E). simplify_eq.
       apply host_function_eqb_spec in E. congruence. }
  apply host_function_eqb_spec in Eq as [Ep Er]. split; cbn; [exact P1| |].
  - exists rest. rewrite P2, vec_update_snoc, <- app_assoc. auto.
  - apply Forall2_app; [exact P3|]. constructor; [|constructor]. split; [exact Hi|]. exists sig, ft. auto.
Qed.

(** The outcome both theorems state. *)
Definition links (l : list import_entry) (r : outcome module unit) : Prop :=
  match r with
  | Ok _ m' => Forall2 (linked names sigs tys) (func_imports l) (m_import_functions m') /\ m_types m' = tys
  | Throw ex _ => exn_class ex = wasm_link_exception /\ Exists unlinkable (func_imports l)
  | UB => False
  end.

Lemma progress_end bound done m : progress bound [] done m ->
  Forall2 (linked names sigs tys) bound (m_import_functions m) /\ m_types m = tys.
Proof.
  intros [P1 (rest & P2 & P2') P3]. destruct rest; [|discriminate]. rewrite app_nil_r in P2. rewrite P2. auto.
Qed.
Lemma progress_skip bound e todo done m m' : im_kind e <> Function ->
  m_types m' = m_types m -> m_import_functions m' = m_import_functions m ->
  progress bound (e :: todo) done m -> progress bound todo done m'.
Proof.
  intros Hk E1 E2 [P1 (rest & P2 & P2') P3]. unfold func_imports in P2'. rewrite filter_cons_False in P2' by exact Hk.
  split; [congruence| |exact P3]. exists rest. rewrite E2. auto.
Qed.
Lemma func_imports_func e l : im_kind e = Function -> func_imports (e :: l) = e :: func_imports l.
Proof. exact (filter_cons_True _ e l). Qed.
(** The outcome of a resolver on [todo] after binding [bound]. *)
Definition links_rest (bound todo : list import_entry) (r : outcome module unit) : Prop :=
  match r with
  | Ok _ m' => Forall2 (linked names sigs tys) (bound ++ func_imports todo) (m_import_functions m') /\ m_types m' = tys
  | Throw ex _ => exn_class ex = wasm_link_exception /\ Exists unlinkable (func_imports todo)
  | UB => False
  end.
Lemma links_rest_nil l r : links_rest [] l r -> links l r.
Proof. destruct r; auto. Qed.
Lemma links_rest_end bound m done : progress bound [] done m -> links_rest bound [] (Ok tt m).
Proof. intros Hp. unfold links_rest, func_imports. cbn. rewrite app_nil_r. eapply progress_end, Hp. Qed.
Lemma links_rest_unnamed bound e todo msg (m : module) : im_kind e = Function -> names !! import_name e = None ->
  links_rest bound (e :: todo) (throw wasm_link_exception msg m).
Proof. intros Hk Hn. split; [reflexivity|]. rewrite func_imports_func by exact Hk. left. now apply unnamed_unlinkable. Qed.
Lemma links_rest_skip bound e todo r : im_kind e <> Function -> links_rest bound todo r -> links_rest bound (e :: todo) r.
Proof.
  intros Hk. unfold links_rest, func_imports. rewrite filter_cons_False by exact Hk. auto.
Qed.
(** One bound import, then the rest of the loop. *)
Lemma links_rest_bind bound e todo done m idx (k : M module unit) :
  linkable names sigs tys (e :: todo) -> im_kind e = Function -> names !! import_name e = Some idx ->
  progress bound (e :: todo) done m ->
  (forall m', progress (bound ++ [e]) todo (done ++ [idx]) m' -> links_rest (bound ++ [e]) todo (k m')) ->
  links_rest bound (e :: todo) (((set_import_function (vec_size done) idx ;;; check_signature sigs idx e) ;;; k) m).
Proof.
  intros Hl Hk Hi Hp Hrest. pose proof (bind_import bound todo done e m idx Hl Hk Hi Hp) as B. unfold bind at 1.
  destruct ((set_import_function (vec_size done) idx;;; check_signature sigs idx e) m) as [u m1|ex m1|].
  - specialize (Hrest m1 B). unfold links_rest in *. rewrite func_imports_func by exact Hk.
    destruct (k m1); [now rewrite (cons_middle e bound), app_assoc|destruct Hrest; auto|done].
  - destruct B as [B1 B2]. split; [exact B1|]. rewrite func_imports_func by exact Hk. now left.
  - destruct B.
Qed.
Lemma vec_size_snoc (done : list Z) idx : vec_size done + 1 = vec_size (done ++ [idx]).
Proof. unfold vec_size. rewrite length_app. cbn. lia. Qed.
Lemma linkable_tail e l : linkable names sigs tys (e :: l) -> linkable names sigs tys l.
Proof. intros [H1 H2]. inversion_clear H1. now split. Qed.

(** A step of a resolver that leaves the function bindings alone. *)
Definition keeps_functions (x : M module unit) : Prop := forall m, exists m', x m = Ok tt m' /\
  m_types m' = m_types m /\ m_import_functions m' = m_import_functions m.
Lemma keeps_functions_ret : keeps_functions (ret tt).
Proof. intros m. eauto. Qed.
Lemma keeps_functions_table t i : keeps_functions (link_table t i).
Proof. intros m. unfold link_table, bind, get. destruct (vec_lookup _ _); eauto. Qed.
Lemma keeps_functions_global g i : keeps_functions (link_global g i).
Proof. intros m. unfold link_global, bind, get. destruct (vec_lookup _ _); eauto. Qed.
Lemma keeps_functions_memory h i : keeps_functions (link_memory h i).
Proof. intros m. unfold link_memory, bind, get. destruct (vec_lookup _ _); eauto. Qed.
End Link.
#[local] Hint Resolve keeps_functions_ret keeps_functions_table keeps_functions_global keeps_functions_memory : psi.

Section Resolvers.
Context (mp : mappings) (tys : list func_type).
Abbreviation names := (named_mapping mp).
Abbreviation sigs := (host_functions mp).

Lemma resolve_impl_loop_links imports todo : forall i bound done m,
  linkable names sigs tys todo -> progress names sigs tys bound todo done m ->
  links_rest names sigs tys bound todo (resolve_impl_loop mp imports i todo (vec_size done) m).
Proof.
  induction todo as [|e todo IH]; intros i bound done m Hl Hp; cbn [resolve_impl_loop]; [eapply links_rest_end, Hp|].
  pose proof (linkable_tail _ _ _ _ _ Hl) as Hl'.
  assert (Skip : im_kind e <> Function -> forall x, keeps_functions x ->
    links_rest names sigs tys bound (e :: todo) ((x ;;; resolve_impl_loop mp imports (S i) todo (vec_size done)) m)).
  { intros Hk x Hx. destruct (Hx m) as (m1 & E1 & T1 & F1). rewrite (bind_Ok _ _ _ _ _ E1). apply links_rest_skip; [exact Hk|].
    exact (IH (S i) bound done m1 Hl' (progress_skip _ _ _ _ _ _ _ _ _ Hk T1 F1 Hp)). }
  destruct (im_kind e) eqn:Ek; try (apply Skip; [discriminate|]; case_match; auto with psi).
  - destruct (names !! import_name e) as [idx|] eqn:En; [|now apply links_rest_unnamed].
    rewrite <- bind_assoc. apply links_rest_bind; try assumption. intros m1 B.
    rewrite (vec_size_snoc done idx). exact (IH (S i) (bound ++ [e]) (done ++ [idx]) m1 Hl' B).
  - exact (Skip ltac:(discriminate) (ret tt) keeps_functions_ret).
Qed.
End Resolvers.

(** C30. Linking is faithful: on a module as the parser leaves it,
    [resolve_impl] binds every imported function, in the order of the function
    index space and whatever other imports stand between them, to the host
    function registered under its module and field names, whose signature is the
    import's declared type; it fails, with a link error, only when some imported
    function has no registered host function of its name and type. *)
Theorem resolve_impl_links mp m :
  length (m_import_functions m) = length (func_imports (m_imports m)) ->
  linkable (named_mapping mp) (host_functions mp) (m_types m) (m_imports m) ->
  links (named_mapping mp) (host_functions mp) (m_types m) (m_imports m) (resolve_impl mp m).
Proof.
  intros Hlen Hl. unfold resolve_impl, bind, get. apply links_rest_nil.
  apply (resolve_impl_loop_links mp (m_types m) (m_imports m) (m_imports m) 0 [] [] m Hl).
  split; [reflexivity| |constructor]. exists (m_import_functions m). auto.
Qed.

(** The table resolver binds function [k] at the position of its import entry:
    it agrees when every import is a function. *)
Lemma resolve_loop_links names sigs tys todo : forall bound done m,
  Forall (fun e => im_kind e = Function) todo -> linkable names sigs tys todo -> progress names sigs tys bound todo done m ->
  links_rest names sigs tys bound todo (resolve_loop names sigs (vec_size done) todo m).
Proof.
  induction todo as [|e todo IH]; intros bound done m Hf Hl Hp; cbn [resolve_loop]; [eapply links_rest_end, Hp|].
  pose proof (linkable_tail _ _ _ _ _ Hl) as Hl'. inversion_clear Hf as [|? ? Ek Hf'].
  rewrite bool_decide_eq_true_2 by exact Ek. cbn [negb].
  destruct (names !! import_name e) as [idx|] eqn:En; [|now apply links_rest_unnamed].
  apply links_rest_bind; try assumption. intros m1 B.
  rewrite (vec_size_snoc done idx). exact (IH (bound ++ [e]) (done ++ [idx]) m1 Hf' Hl' B).
Qed.

(** ** A module with a memory import before a function import *)
Definition link_module (imports : list import_entry) (slots : list Z) : module := {|
  m_start := UINT32_MAX;
  m_types := [{| form := types.func; param_types := [types.i32]; return_types := []; sig_hash := 0;
                 return_count := 0; return_type := 0 |}];
  m_imports := imports; m_functions := []; m_tables := []; m_memories := []; m_globals := []; m_exports := [];
  m_elements := []; m_code := []; m_data := []; m_tags := []; m_import_functions := slots;
  m_num_imported_tables := 0; m_num_imported_memories := 0; m_num_imported_globals := 0;
  m_stack_limit_is_bytes := false; m_error := None; bytecode := [] |}.
Definition link_import (field : list Z) (kind : external_kind) : import_entry := {|
  im_module := [1]; im_field := field; im_kind := kind; im_func_t := 0;
  im_table_t := {| element_type := types.funcref; tt_limits := {| lim_flags := false; lim_initial := 0; lim_maximum := 0 |} |};
  im_mem_t := {| mt_limits := {| lim_flags := false; lim_initial := 1; lim_maximum := 0 |}; is_memory64 := false |};
  im_global_t := {| content_type := types.i32; mutability := false |} |}.
Definition mem_then_func : module := link_module [link_import [2] Memory; link_import [3] Function] [0].
Definition one_host : mappings := {|
  named_mapping := {[ ([1], [3]) := 0 ]}; host_functions := [{| hf_params := [types.i32]; hf_ret := [] |}];
  table_imports := ∅; global_imports := ∅; memory_imports := ∅ |}.

Lemma resolve_impl_links_witness :
  links (named_mapping one_host) (host_functions one_host) (m_types mem_then_func) (m_imports mem_then_func)
    (resolve_impl one_host mem_then_func).
Proof.
  apply (resolve_impl_links one_host mem_then_func); [vm_compute; reflexivity|]. split.
  - repeat constructor; vm_compute; eauto.
  - intros k idx Hk. unfold one_host in Hk. cbn [named_mapping] in Hk.
    apply lookup_singleton_Some in Hk as [_ <-]. vm_compute. eauto.
Defined.

(** The same module through [host_function_table::resolve]: the binding is
    stored past the end of [import_functions]. *)
Lemma table_resolve_misplaces :
  is_Some (match resolve_impl one_host mem_then_func with Ok _ m => Some m | _ => None end) /\
  resolve (named_mapping one_host) (host_functions one_host) mem_then_func = UB.
Proof. split; [eexists|]; vm_compute; reflexivity. Qed.
