(* ===== verification/Context.v ===== *)
(** * Execution context

    Models psizam/detail/execution_context.hpp for the interpreter:
    [execution_context_base] (memory, tables, globals, gas, instantiation) and
    [execution_context] (operand and call stacks, program counter, calls,
    exception-handling frames, [execute]), with psizam/gas.hpp's [gas_state]
    and psizam/host_function_table.hpp's dispatch.  Host functions and the gas
    handler are functions held by the state, as in the source; [H] is the state
    of the host object behind [void* host]. *)
From Stdlib Require Import ZArith Lia Bool String.
From stdpp Require Import base list numbers decidable option gmap.
From S2P Require Import Prelude Types Stack Memory InitExpr.

(** ** State *)

(** [gas_state]; the handler reads and writes [consumed] and [deadline], or throws. *)
Record gas_state := {
  consumed : Z; deadline : Z;
  handler : option (Z -> Z -> (Z * Z) + exn) }.

(** [host_function_table::entry]: the signature and the trampoline (or slow
    dispatch), which sees the arguments, the host object and linear memory. *)
Record host_entry (H : Type) := {
  he_params : list Z; he_ret : list Z;
  he_call : option (list Z -> H -> bytes -> (Z + exn) * H * bytes) }.
Arguments he_params {H}. Arguments he_ret {H}. Arguments he_call {H}.

(** [execution_context_base].  [_table_inline]: table 0 lives in the prefix page
    ([_alt_table] is null). *)
Record base (H : Type) := {
  _mod : module; _wasm_alloc : wasm_allocator; _max_pages : Z; _table : list (host_entry H);
  _table_inline : bool; _table_data : list (list table_entry); _table_sizes : list Z;
  _globals : list init_expr; _dropped_elems : list bool; _dropped_data : list bool;
  _fp : fp_mode; _gas : gas_state; _mem_mode : mem_safety; _checked_kind : checked_mode;
  _read_watermark : Z; _host : H }.
Arguments _mod {H}. Arguments _wasm_alloc {H}. Arguments _max_pages {H}. Arguments _table {H}.
Arguments _table_inline {H}. Arguments _table_data {H}. Arguments _table_sizes {H}.
Arguments _globals {H}. Arguments _dropped_elems {H}. Arguments _dropped_data {H}. Arguments _fp {H}.
Arguments _gas {H}. Arguments _mem_mode {H}. Arguments _checked_kind {H}.
Arguments _read_watermark {H}. Arguments _host {H}.

#[global] Instance eta_gas : Eta gas_state := fun g =>
  {| consumed := consumed g; deadline := deadline g; handler := handler g |}.
#[global] Instance eta_base {H} : Eta (base H) := fun b =>
  {| _mod := _mod b; _wasm_alloc := _wasm_alloc b; _max_pages := _max_pages b; _table := _table b;
     _table_inline := _table_inline b; _table_data := _table_data b; _table_sizes := _table_sizes b;
     _globals := _globals b; _dropped_elems := _dropped_elems b; _dropped_data := _dropped_data b;
     _fp := _fp b; _gas := _gas b; _mem_mode := _mem_mode b; _checked_kind := _checked_kind b;
     _read_watermark := _read_watermark b; _host := _host b |}.

(** [eh_catch_entry], [eh_frame], [wasm_exception_t] *)
Record eh_catch_entry := {
  ec_kind : Z; ec_tag_index : Z; ec_handler_pc : Z; ec_operand_depth : Z; ec_eh_leave_count : Z }.
Record eh_frame := { ef_call_depth : Z; ef_catch_count : Z; ef_first_catch : Z }.
Record wasm_exception_t := { we_tag_index : Z; we_values : list Z }.

(** [execution_context]; [_pc] to [_exiting] are its [execution_state]. *)
Record ctx (H : Type) := {
  _base : base H; _os : stack elem; _pc : code_ptr; _as_index : Z; _os_index : Z; _exiting : bool;
  _last_op_index : Z; _as : stack activation_frame; _remaining_call_depth : Z;
  _eh_stack : list eh_frame; _eh_catches : list eh_catch_entry; _eh_exn_stack : list wasm_exception_t }.
Arguments _base {H}. Arguments _os {H}. Arguments _pc {H}. Arguments _as_index {H}.
Arguments _os_index {H}. Arguments _exiting {H}. Arguments _last_op_index {H}. Arguments _as {H}.
Arguments _remaining_call_depth {H}. Arguments _eh_stack {H}. Arguments _eh_catches {H}.
Arguments _eh_exn_stack {H}.

#[global] Instance eta_ctx {H} : Eta (ctx H) := fun c =>
  {| _base := _base c; _os := _os c; _pc := _pc c; _as_index := _as_index c; _os_index := _os_index c;
     _exiting := _exiting c; _last_op_index := _last_op_index c; _as := _as c;
     _remaining_call_depth := _remaining_call_depth c; _eh_stack := _eh_stack c;
     _eh_catches := _eh_catches c; _eh_exn_stack := _eh_exn_stack c |}.

(** ** [execution_context_base] *)
Section Base.
Context {H : Type}.
Implicit Types b : base H.

Definition on_alloc {A} (m : M wasm_allocator A) : M (base H) A :=
  zoom _wasm_alloc (fun a b => b <| _wasm_alloc := a |>) m.

Definition is_memory64 b : bool :=
  match m_memories (_mod b) with [] => false | m :: _ => is_memory64 m end.
Definition current_linear_memory b : Z := page (_wasm_alloc b).
Definition memory_size_bytes b : Z := stored_mem_size (_wasm_alloc b).
Definition set_max_pages (n : Z) b : base H := b <| _max_pages := Z.min n max_pages |>.

(** The loop over [mod.globals] that evaluates initializers in order. *)
Fixpoint eval_globals (l : list global_variable) (acc : list init_expr) : M (base H) (list init_expr) :=
  match l with
  | [] => ret acc
  | g :: l' =>
      let* v := InitExpr.evaluate acc (gv_init g) in
      eval_globals l' (acc ++ [{| ie_value := v; ie_opcode := ie_opcode (gv_init g); ie_raw_expr := [] |}])
  end.
Definition initialize_globals : M (base H) unit :=
  let* b := get in
  psizam_assert (bool_decide (_globals b = [])) wasm_memory_exception
    "initialize_globals called on non-empty _globals" ;;;
  let* gs := eval_globals (m_globals (_mod b)) [] in
  modify (fun b => b <| _globals := gs |>).

(** [grow_linear_memory]: the delta is the unsigned reading of the argument;
    the headroom subtractions are unsigned. *)
Definition grow_linear_memory (pages : Z) : M (base H) Z :=
  let* b := get in
  let sz := page (_wasm_alloc b) in
  let udelta := wrap 32 pages in
  let over_max :=
    match m_memories (_mod b) with
    | [] => true
    | m :: _ =>
        (wrap 32 (_max_pages b - sz) <? udelta) ||
        (lim_flags (mt_limits m) && (wrap 32 (lim_maximum (mt_limits m) - sz) <? udelta))
    end in
  if over_max then ret (-1)
  else (if 0 <? udelta then on_alloc (alloc udelta) else ret tt) ;;; ret sz.

(** Deferred read checks of the checked modes. *)
Definition track_read_max (e : Z) : M (base H) unit :=
  modify (fun b => if _read_watermark b <? e then b <| _read_watermark := e |> else b).
Definition track_read_or (e : Z) : M (base H) unit :=
  modify (fun b => b <| _read_watermark := Z.lor (_read_watermark b) e |>).
Definition validate_read_watermark : M (base H) unit :=
  let* b := get in
  if negb (bool_decide (_mem_mode b = checked)) then ret tt
  else if memory_size_bytes b <? _read_watermark b
  then modify (fun b => b <| _read_watermark := 0 |>) ;;;
       throw wasm_memory_exception "deferred memory read out-of-bounds"
  else modify (fun b => b <| _read_watermark := 0 |>).

(** Gas *)
Definition set_gas_budget (budget : Z) b : base H :=
  b <| _gas := (_gas b) <| consumed := 0 |> <| deadline := budget |> |>.
Definition gas_charge (cost : Z) : M (base H) unit :=
  modify (fun b => b <| _gas := (_gas b) <| consumed := wrap 64 (consumed (_gas b) + wrap 64 cost) |> |>) ;;;
  let* b := get in
  if deadline (_gas b) <=? consumed (_gas b) then
    match handler (_gas b) with
    | Some h =>
        match h (consumed (_gas b)) (deadline (_gas b)) with
        | inl (c, d) => modify (fun b => b <| _gas := (_gas b) <| consumed := c |> <| deadline := d |> |>)
        | inr e => fun b => Throw e b
        end
    | None => throw wasm_gas_exhausted_exception "gas exhausted"
    end
  else ret tt.

(** *** Tables

    An inline table 0 shares the prefix page with the stored memory size: the
    8-byte slot at [syspagesize - 20] from the start of the page overlaps the
    upper half of the [code_ptr] of entry [syspagesize / 16 - 2]. *)
Definition sizeof_table_entry : Z := 16.
Definition prefix_slot_entry (sys : Z) : Z := sys / sizeof_table_entry - 2.
Definition clobber_mem_size (e : table_entry) (a : wasm_allocator) : wasm_allocator :=
  upd_mem_size (stored_mem_size a / 2 ^ 32 * 2 ^ 32 + wrap 64 (te_code_ptr e) / 2 ^ 32) a.

(** [_table_data[t][i] = e] *)
Definition table_store (t i : Z) (e : table_entry) : M (base H) unit :=
  let* b := get in
  match vec_lookup (_table_data b) t with
  | Some tbl =>
      match vec_lookup tbl i with
      | Some _ =>
          modify (fun b => b <| _table_data := vec_update (_table_data b) t (vec_update tbl i e) |>) ;;;
          if (t =? 0) && _table_inline b && (i =? prefix_slot_entry (syspagesize (_wasm_alloc b)))
          then modify (fun b => b <| _wasm_alloc := clobber_mem_size e (_wasm_alloc b) |>)
          else ret tt
      | None => undefined
      end
  | None => undefined
  end.
(** [_table_data[t][i]] *)
Definition table_load (t i : Z) : M (base H) table_entry :=
  let* b := get in
  match vec_lookup (_table_data b) t with
  | Some tbl => vec_index tbl i
  | None => undefined
  end.

Fixpoint table_store_list (t i : Z) (l : list table_entry) : M (base H) unit :=
  match l with
  | [] => ret tt
  | e :: l' => table_store t i e ;;; table_store_list t (i + 1) l'
  end.

Definition table_size_at (t : Z) : M (base H) Z := let* b := get in vec_index (_table_sizes b) t.

(** [get_table_base] only checks the index of an extra table. *)
Definition get_table_base (t : Z) : M (base H) unit :=
  let* b := get in
  if t =? 0 then ret tt
  else psizam_assert (t <? vec_size (_table_data b)) wasm_interpreter_exception "table index out of range".
Definition get_table_size (t : Z) : M (base H) Z :=
  let* b := get in
  psizam_assert (t <? vec_size (_table_sizes b)) wasm_interpreter_exception "table index out of range" ;;;
  vec_index (_table_sizes b) t.
(** The index field is a [uint32_t]. *)
Definition table_elem (i t : Z) : M (base H) Z :=
  let* sz := table_size_at t in
  psizam_assert (i <? sz) wasm_interpreter_exception "table index out of range" ;;;
  get_table_base t ;;;
  let* e := table_load t i in ret (wrap 32 (te_index e)).

Definition init_table (x d s n t : Z) : M (base H) unit :=
  let* b := get in
  let* seg := vec_index (m_elements (_mod b)) x in
  let* dropped := vec_index (_dropped_elems b) x in
  let elem_len := if dropped : bool then 0 else vec_size (es_elems seg) in
  (if elem_len <? s + n then throw wasm_memory_exception "elem out of range" else ret tt) ;;;
  let* sz := table_size_at t in
  (if sz <? d + n then throw wasm_memory_exception "wasm memory out-of-bounds" else ret tt) ;;;
  if negb (elem_len =? 0)
  then get_table_base t ;;; table_store_list t d (take (Z.to_nat n) (drop (Z.to_nat s) (es_elems seg)))
  else ret tt.

Definition drop_elem (x : Z) : M (base H) unit :=
  let* b := get in
  if (vec_size (_dropped_elems b) <=? x) || (vec_size (m_elements (_mod b)) <=? x)
  then throw wasm_interpreter_exception "elem segment index out of range"
  else modify (fun b => b <| _dropped_elems := vec_update (_dropped_elems b) x true |>).

(** [get_table_ptr]: a pointer to entry [i] of table [t]; the model returns nothing
    and its users index from [i]. *)
Definition get_table_ptr (i size t : Z) : M (base H) unit :=
  let* sz := table_size_at t in
  if sz <? i + size then throw wasm_memory_exception "table out of range" else get_table_base t.

(** [table_grow]: the table moves to the heap, so table 0 is no longer inline. *)
Definition table_grow (t delta : Z) (init_val : table_entry) : M (base H) Z :=
  let* b := get in
  let* old_size := table_size_at t in
  let delta := wrap 32 delta in   (* a uint32_t parameter *)
  let new_size := old_size + delta in
  let* tt_ := vec_index (m_tables (_mod b)) t in
  let max_size := if lim_flags (tt_limits tt_) then lim_maximum (tt_limits tt_) else 0xFFFFFFFF in
  if max_size <? new_size then ret UINT32_MAX else
  match vec_lookup (_table_data b) t with
  | None => undefined
  | Some old =>
      if vec_size old <? old_size then undefined else
      let new_data := take (Z.to_nat old_size) old ++ repeat init_val (Z.to_nat delta) in
      modify (fun b => b <| _table_data := vec_update (_table_data b) t new_data |>) ;;;
      (if t =? 0 then modify (fun b => b <| _table_inline := false |>) else ret tt) ;;;
      modify (fun b => b <| _table_sizes := vec_update (_table_sizes b) t (wrap 32 new_size) |>) ;;;
      ret old_size
  end.

Definition table_fill (t i : Z) (val : table_entry) (n : Z) : M (base H) unit :=
  let* sz := table_size_at t in
  (if sz <? i + n then throw wasm_memory_exception "table out of range" else ret tt) ;;;
  get_table_base t ;;; table_store_list t i (repeat val (Z.to_nat n)).

(** *** Data segments *)
Definition init_linear_memory (x d s n : Z) : M (base H) unit :=
  let* b := get in
  let* seg := vec_index (m_data (_mod b)) x in
  let* dropped := vec_index (_dropped_data b) x in
  let data_len := if dropped : bool then 0 else vec_size (ds_data seg) in
  (if data_len <? s + n then throw wasm_memory_exception "data out of range" else ret tt) ;;;
  on_alloc (validate_pointer 1 d n) ;;;
  if negb (data_len =? 0)
  then on_alloc (modify (upd_raw (fun m => write_bytes m d (take (Z.to_nat n) (drop (Z.to_nat s) (ds_data seg))))))
  else ret tt.
Definition drop_data (x : Z) : M (base H) unit :=
  let* b := get in
  let* _ := vec_index (_dropped_data b) x in
  modify (fun b => b <| _dropped_data := vec_update (_dropped_data b) x true |>).

End Base.

(** ** Instantiation ([reset]) *)
Section Reset.
Context {H : Type}.
Implicit Types b : base H.

(** [module::indirect_table] *)
Definition indirect_table (sys : Z) (m : module) (i : Z) : bool :=
  match vec_lookup (m_tables m) i with
  | None => false
  | Some t =>
      let l := tt_limits t in
      let large := sys - 8 <? lim_initial l * sizeof_table_entry in
      let growable := (i =? 0) && (negb (lim_flags l) || (lim_initial l <? lim_maximum l)) in
      large || growable
  end.

(** [memset(_, 0xff, _)] *)
Definition null_entry : table_entry :=
  {| te_type := UINT32_MAX; te_index := UINT32_MAX; te_code_ptr := UINT64_MAX |}.

Definition reset_memory : M (base H) unit :=
  let* b := get in
  match m_memories (_mod b) with
  | m :: _ =>
      psizam_assert (lim_initial (mt_limits m) <=? _max_pages b) wasm_bad_alloc
        "Cannot allocate initial linear memory." ;;;
      on_alloc (reset_pages (lim_initial (mt_limits m)))
  | [] => on_alloc reset_none
  end.

Definition reset_globals : M (base H) unit :=
  let* b := get in
  let* gs := eval_globals (m_globals (_mod b)) [] in
  modify (fun b => b <| _globals := gs |>).

(** The loop over data segments; [i] is the index of the head of [l]. *)
Fixpoint reset_data (i : Z) (l : list data_segment) : M (base H) unit :=
  match l with
  | [] => ret tt
  | seg :: l' =>
      (if ds_passive seg then ret tt else
       let* b := get in
       let* v := InitExpr.evaluate (_globals b) (ds_offset seg) in
       let offset := ev_i32 v in
       match m_memories (_mod b) with
       | [] => undefined
       | m :: _ =>
           let available_memory := lim_initial (mt_limits m) * page_size in
           let required_memory := offset + vec_size (ds_data seg) in
           psizam_assert (required_memory <=? available_memory) wasm_memory_exception "data out of range" ;;;
           on_alloc (modify (upd_raw (fun m => write_bytes m offset (ds_data seg)))) ;;;
           modify (fun b => b <| _dropped_data := vec_update (_dropped_data b) i true |>)
       end) ;;;
      reset_data (i + 1) l'
  end.

Definition reset_tables : M (base H) unit :=
  let* b := get in
  let sys := syspagesize (_wasm_alloc b) in
  let tbls := m_tables (_mod b) in
  let inline := bool_decide (tbls <> []) && negb (indirect_table sys (_mod b) 0) in
  let init t := lim_initial (tt_limits t) in
  modify (fun b => b <| _table_data := map (fun t => repeat null_entry (Z.to_nat (init t))) tbls |>
                     <| _table_sizes := map init tbls |> <| _table_inline := inline |>) ;;;
  match tbls with
  | t :: _ =>
      if inline && (prefix_slot_entry sys <? init t)
      then modify (fun b => b <| _wasm_alloc := clobber_mem_size null_entry (_wasm_alloc b) |>)
      else ret tt
  | [] => ret tt
  end.

Fixpoint reset_elements (i : Z) (l : list elem_segment) : M (base H) unit :=
  match l with
  | [] => ret tt
  | seg :: l' =>
      (match es_mode seg with
       | passive => ret tt
       | declarative => modify (fun b => b <| _dropped_elems := vec_update (_dropped_elems b) i true |>)
       | active =>
           let* b := get in
           let tidx := es_index seg in
           psizam_assert (tidx <? vec_size (m_tables (_mod b))) wasm_memory_exception
             "elem segment table index out of range" ;;;
           let* v := InitExpr.evaluate (_globals b) (es_offset seg) in
           let offset := ev_i32 v in
           let* sz := table_size_at tidx in
           psizam_assert (offset + vec_size (es_elems seg) <=? sz) wasm_memory_exception "elem out of range" ;;;
           table_store_list tidx offset (es_elems seg) ;;;
           modify (fun b => b <| _dropped_elems := vec_update (_dropped_elems b) i true |>)
       end) ;;;
      reset_elements (i + 1) l'
  end.

(** [execution_context_base::reset], in the source's order; between the check
    and the rest it resets the capacity of the operand stack (see [reset]). *)
Definition check_module_error : M (base H) unit :=
  let* b := get in
  match m_error (_mod b) with
  | Some msg => throw wasm_interpreter_exception msg
  | None => ret tt
  end.
Definition reset_base : M (base H) unit :=
  let* b := get in
  reset_memory ;;;
  reset_globals ;;;
  modify (fun b => b <| _dropped_data := repeat false (length (m_data (_mod b))) |>) ;;;
  reset_data 0 (m_data (_mod b)) ;;;
  reset_tables ;;;
  modify (fun b => b <| _dropped_elems := repeat false (length (m_elements (_mod b))) |>) ;;;
  if bool_decide (m_tables (_mod b) <> []) then reset_elements 0 (m_elements (_mod b)) else ret tt.

End Reset.

(** ** [execution_context]: stacks and calls *)
Section Exec.
Context {H : Type}.
Abbreviation X := (M (ctx H)).

Definition on_base {A} (m : M (base H) A) : X A := zoom _base (fun b c => c <| _base := b |>) m.
Definition on_os {A} (m : M (stack elem) A) : X A := zoom _os (fun s c => c <| _os := s |>) m.
Definition on_as {A} (m : M (stack activation_frame) A) : X A := zoom _as (fun s c => c <| _as := s |>) m.
Definition the_module : X module := gets (fun c => _mod (_base c)).

(** A default-constructed [operand_stack_elem] has [_which] 0. *)
Definition elem_default : elem := I32 0.
Definition frame_default : activation_frame := {| af_pc := CodeNull; af_last_op_index := 0; af_frame_size := 0 |}.

Definition push_operand (e : elem) : X unit := on_os (push elem_default e).
Definition pop_operand : X elem := on_os pop.
Definition peek_operand (i : nat) : X elem := on_os (peek i).
Definition poke_operand (i : nat) (e : elem) : X unit := on_os (poke i e).
Definition get_operand (index : Z) : X elem :=
  let* base := gets _last_op_index in on_os (get_at (wrap 32 (base + index))).
Definition set_operand (index : Z) (e : elem) : X unit :=
  let* base := gets _last_op_index in on_os (set_at (wrap 32 (base + index)) e).
Definition eat_operands (index : Z) : X unit := on_os (eat (wrap 32 index)).
Definition compact_operand (index : Z) : X unit := on_os (compact (wrap 32 index)).
Definition compact_operand_n (index n : Z) : X unit := on_os (compact_n (wrap 32 index) n).
Definition operand_size : X Z := gets (fun c => size (_os c)).
Definition push_frame (f : activation_frame) : X unit := on_as (push frame_default f).
Definition pop_call : X activation_frame := on_as pop.
Definition call_depth : X Z := gets (fun c => size (_as c)).

Definition set_pc (p : code_ptr) : X unit := modify (fun c => c <| _pc := p |>).
(** [set_relative_pc]: relative to the first function's code, which starts the
    code segment. *)
Definition set_relative_pc (off : Z) : X unit :=
  let* m := the_module in
  let* fb := vec_index (m_code m) 0 in
  set_pc (CodeAt (fb_code fb + off)).
(** [inc_pc]: pointer arithmetic inside the code segment. *)
Definition inc_pc (n : Z) : X unit :=
  let* p := gets _pc in
  match p with CodeAt o => set_pc (CodeAt (o + n)) | _ => undefined end.

(** [exit]: stop at the next dispatch. *)
Definition exit_context : X unit := modify (fun c => c <| _pc := CodeHalt |> <| _exiting := true |>).

(** *** Globals *)
Definition get_global (index : Z) : X elem :=
  let* m := the_module in
  psizam_assert (index <? vec_size (m_globals m)) wasm_interpreter_exception "global index out of range" ;;;
  let* gl := vec_index (m_globals m) index in
  let* gs := gets (fun c => _globals (_base c)) in
  let* g := vec_index gs index in
  let v := ie_value g in
  let t := content_type (gv_type gl) in
  if t =? types.i32 then ret (I32 (wrap 32 v))
  else if t =? types.i64 then ret (I64 (wrap 64 v))
  else if t =? types.f32 then ret (F32 (wrap 32 v))
  else if t =? types.f64 then ret (F64 (wrap 64 v))
  else if t =? types.v128 then ret (V128 (wrap 128 v))
  else if (t =? types.funcref) || (t =? types.externref) || (t =? types.exnref) then ret (I32 (wrap 32 v))
  else throw wasm_interpreter_exception "invalid global type".

(** Writing a [w]-bit member of the union keeps the other bits. *)
Definition set_low (w v x : Z) : Z := v / 2 ^ w * 2 ^ w + x.
Definition store_global (index : Z) (w x : Z) : X unit :=
  let* gs := gets (fun c => _globals (_base c)) in
  let* g := vec_index gs index in
  on_base (modify (fun b => b <| _globals := vec_update (_globals b) index
    {| ie_value := set_low w (ie_value g) x; ie_opcode := ie_opcode g; ie_raw_expr := ie_raw_expr g |} |>)).

Definition set_global (index : Z) (el : elem) : X unit :=
  let* m := the_module in
  psizam_assert (index <? vec_size (m_globals m)) wasm_interpreter_exception "global index out of range" ;;;
  let* gl := vec_index (m_globals m) index in
  psizam_assert (mutability (gv_type gl)) wasm_interpreter_exception "global is not mutable" ;;;
  let t := content_type (gv_type gl) in
  match el with
  | I32 v =>
      psizam_assert ((t =? types.i32) || (t =? types.funcref) || (t =? types.externref) || (t =? types.exnref))
        wasm_interpreter_exception "expected i32 global type" ;;; store_global index 32 v
  | I64 v => psizam_assert (t =? types.i64) wasm_interpreter_exception "expected i64 global type" ;;;
             store_global index 64 v
  | F32 v => psizam_assert (t =? types.f32) wasm_interpreter_exception "expected f32 global type" ;;;
             store_global index 32 v
  | F64 v => psizam_assert (t =? types.f64) wasm_interpreter_exception "expected f64 global type" ;;;
             store_global index 64 v
  | V128 v => psizam_assert (t =? types.v128) wasm_interpreter_exception "expected v128 global type" ;;;
              store_global index 128 v
  end.

Definition is_true (e : elem) : X bool :=
  match e with
  | I32 v => ret (negb (v =? 0))
  | _ => throw wasm_invalid_element "should be an i32 type"
  end.

(** *** Calls *)

(** The type of a stack element, as [type_check] and [type_check_args] see it. *)
Definition elem_type (e : elem) : Z :=
  match e with
  | I32 _ => types.i32 | I64 _ => types.i64 | F32 _ => types.f32 | F64 _ => types.f64 | V128 _ => types.v128
  end.

Fixpoint type_check_loop (params : list Z) : X unit :=
  match params with
  | [] => ret tt
  | t :: params' =>
      let* e := peek_operand (length params') in
      psizam_assert (elem_type e =? t) wasm_interpreter_exception "function param type mismatch" ;;;
      type_check_loop params'
  end.
Definition type_check (ft : func_type) : X unit := type_check_loop (param_types ft).

(** [push_call<Should_Exit>(index)] *)
Definition push_call (should_exit : bool) (index : Z) : X unit :=
  let* m := the_module in
  let* pc := gets _pc in
  let* return_pc := (if should_exit then ret CodeHalt
                     else match pc with CodeAt o => ret (CodeAt (o + 1)) | _ => undefined end) in
  let* frame_size := get_function_stack_size m index in
  let* rem := gets _remaining_call_depth in
  psizam_assert (frame_size <=? rem) wasm_interpreter_exception "stack overflow" ;;;
  modify (fun c => c <| _remaining_call_depth := rem - frame_size |>) ;;;
  let* last := gets _last_op_index in
  push_frame {| af_pc := return_pc; af_last_op_index := last; af_frame_size := frame_size |} ;;;
  let* sz := operand_size in
  let* ft := get_function_type m index in
  modify (fun c => c <| _last_op_index := wrap 32 (sz - vec_size (param_types ft)) |>).

Definition apply_pop_call (num_locals return_count : Z) : X unit :=
  let* af := pop_call in
  modify (fun c => c <| _pc := af_pc af |> <| _last_op_index := af_last_op_index af |>) ;;;
  let* sz := operand_size in
  (if return_count =? 1 then compact_operand (sz - num_locals - 1)
   else if 1 <? return_count then compact_operand_n (sz - num_locals - return_count) return_count
   else eat_operands (sz - num_locals)) ;;;
  modify (fun c => c <| _remaining_call_depth := wrap 32 (_remaining_call_depth c + af_frame_size af) |>).

(** One local of the given type. *)
Definition zero_local (t : Z) : X elem :=
  if t =? types.i32 then ret (I32 0)
  else if t =? types.i64 then ret (I64 0)
  else if t =? types.f32 then ret (F32 0)
  else if t =? types.f64 then ret (F64 0)
  else if t =? types.v128 then ret (V128 0)
  else if (t =? types.funcref) || (t =? types.externref) || (t =? types.exnref) then ret (I32 UINT32_MAX)
  else throw wasm_interpreter_exception "invalid function param type".
Fixpoint push_locals (n : nat) (t : Z) : X unit :=
  match n with O => ret tt | S n' => (let* e := zero_local t in push_operand e) ;;; push_locals n' t end.
Fixpoint setup_locals_loop (l : list local_entry) : X unit :=
  match l with
  | [] => ret tt
  | le :: l' => push_locals (Z.to_nat (le_count le)) (le_type le) ;;; setup_locals_loop l'
  end.
Definition setup_locals (index : Z) : X unit :=
  let* m := the_module in
  let* fn := vec_index (m_code m) (index - get_imported_functions_size m) in
  setup_locals_loop (fb_locals fn).

(** Prologue gas of a local function. *)
Definition charge_prologue (index : Z) : X unit :=
  let* m := the_module in
  let imported := get_imported_functions_size m in
  if imported <=? index then
    let* fb := vec_index (m_code m) (index - imported) in
    on_base (gas_charge (fb_wasm_body_bytes fb + fb_prologue_gas_extra fb))
  else ret tt.

(** Marshalling to and from [native_value]; a [v128] slot is left
    uninitialised by the source. *)
Definition to_native (t : Z) (e : elem) : X Z :=
  if t =? types.i32 then to_ui32 e
  else if t =? types.i64 then to_ui64 e
  else if t =? types.f32 then to_fui32 e
  else if t =? types.f64 then to_fui64 e
  else undefined.
(** Pops the arguments, last first; returns them in order. *)
Fixpoint pop_native_args (rev_params : list Z) (acc : list Z) : X (list Z) :=
  match rev_params with
  | [] => ret acc
  | t :: ps => let* e := pop_operand in let* v := to_native t e in pop_native_args ps (v :: acc)
  end.
Definition push_native_result (ret_types : list Z) (v : Z) : X unit :=
  match ret_types with
  | [] => ret tt
  | t :: _ =>
      if t =? types.i32 then push_operand (I32 (wrap 32 v))
      else if t =? types.i64 then push_operand (I64 (wrap 64 v))
      else if t =? types.f32 then push_operand (F32 (wrap 32 v))
      else if t =? types.f64 then push_operand (F64 (wrap 64 v))
      else ret tt
  end.

(** [host_function_table::get_entry] and [call] *)
Definition get_entry (idx : Z) : X (host_entry H) :=
  let* b := gets _base in
  match vec_lookup (_table b) idx with
  | Some e => ret e
  | None => throw wasm_link_exception "unresolved imported function"
  end.
Definition host_call (idx : Z) (args : list Z) : X Z :=
  let* e := get_entry idx in
  match he_call e with
  | None => throw wasm_link_exception "unresolved imported function"
  | Some f =>
      let* b := gets _base in
      let '(r, h, mem) := f args (_host b) (raw (_wasm_alloc b)) in
      modify (fun c => c <| _base := (_base c) <| _host := h |>
                <| _wasm_alloc := upd_raw (fun _ => mem) (_wasm_alloc (_base c)) |> |>) ;;;
      match r with inl v => ret v | inr ex => fun c => Throw ex c end
  end.

(** The local-function half of [call]. *)
Definition call_local (index : Z) : X unit :=
  push_call false index ;;;
  setup_locals index ;;;
  let* m := the_module in
  let* pc := get_function_pc m index in
  set_pc pc.

(** The host-function half of [call].  [_remaining_call_depth] is restored when
    the scope is left, normally or by an exception; the pushed frame is popped
    only on the normal path. *)
Definition call_host (index : Z) : X unit :=
  let* m := the_module in
  let* ft := get_function_type m index in
  type_check ft ;;;
  inc_pc 1 ;;;
  let* frame_size := get_function_stack_size m index in
  let* rem := gets _remaining_call_depth in
  psizam_assert (frame_size <=? rem) wasm_interpreter_exception "stack overflow" ;;;
  let restore c := c <| _remaining_call_depth := rem |> in
  fun c0 =>
    match (modify (fun c => c <| _remaining_call_depth := rem - frame_size |>) ;;;
           push_frame {| af_pc := CodeNull; af_last_op_index := 0; af_frame_size := frame_size |} ;;;
           let* mapped := vec_index (m_import_functions m) index in
           let* hf := get_entry mapped in
           let* args := pop_native_args (rev (he_params hf)) [] in
           on_base validate_read_watermark ;;;
           let* r := host_call mapped args in
           push_native_result (he_ret hf) r ;;;
           let* _ := pop_call in ret tt) c0 with
    | Ok a c => Ok a (restore c)
    | Throw e c => Throw e (restore c)
    | UB => UB
    end.

Definition call (index : Z) : X unit :=
  charge_prologue index ;;;
  let* m := the_module in
  if index <? get_imported_functions_size m then call_host index else call_local index.

(** [saved_args]: pop [n] operands, first argument first in the result. *)
Fixpoint pop_n (n : nat) (acc : list elem) : X (list elem) :=
  match n with O => ret acc | S n' => let* e := pop_operand in pop_n n' (e :: acc) end.
Fixpoint push_all (l : list elem) : X unit :=
  match l with [] => ret tt | e :: l' => push_operand e ;;; push_all l' end.

(** [tail_call]: the frame is reused; its [frame_size] slot is updated in place
    through the reference taken at entry. *)
Definition tail_call (new_index : Z) : X unit :=
  let* m := the_module in
  let* cur := on_as (peek 0) in
  modify (fun c => c <| _remaining_call_depth := wrap 32 (_remaining_call_depth c + af_frame_size cur) |>) ;;;
  if new_index <? get_imported_functions_size m then
    let* ft := get_function_type m new_index in
    let* mapped := vec_index (m_import_functions m) new_index in
    let* hf := get_entry mapped in
    let n := length (param_types ft) in
    (if (length (he_params hf) <? n)%nat then undefined else ret tt) ;;;
    let* args := pop_native_args (rev (take n (he_params hf))) [] in
    let* last := gets _last_op_index in
    eat_operands last ;;;
    let* r := host_call mapped args in
    push_native_result (he_ret hf) r ;;;
    let* af := pop_call in
    modify (fun c => c <| _pc := af_pc af |> <| _last_op_index := af_last_op_index af |>)
  else
    charge_prologue new_index ;;;
    let* new_ft := get_function_type m new_index in
    let n := length (param_types new_ft) in
    let* new_frame_size := get_function_stack_size m new_index in
    let* rem := gets _remaining_call_depth in
    psizam_assert (new_frame_size <=? rem) wasm_interpreter_exception "stack overflow" ;;;
    modify (fun c => c <| _remaining_call_depth := rem - new_frame_size |>) ;;;
    let* saved_args := pop_n n [] in
    let* last := gets _last_op_index in
    eat_operands last ;;;
    push_all saved_args ;;;
    let* sz := operand_size in
    modify (fun c => c <| _last_op_index := wrap 32 (sz - Z.of_nat n) |>) ;;;
    on_as (poke 0 {| af_pc := af_pc cur; af_last_op_index := af_last_op_index cur;
                     af_frame_size := new_frame_size |}) ;;;
    setup_locals new_index ;;;
    let* pc := get_function_pc m new_index in
    set_pc pc.

(** [jump(pop_info, new_pc)] *)
Definition jump (pop_info new_pc : Z) : X unit :=
  set_relative_pc new_pc ;;;
  let depth_change := Z.land pop_info 0x00FFFFFF in
  let result_count := Z.shiftr pop_info 24 in
  if result_count =? 1 then
    let* op := pop_operand in
    let* sz := operand_size in
    eat_operands (sz - (depth_change - 1)) ;;;
    push_operand op
  else if 1 <? result_count then
    let* results := pop_n (Z.to_nat result_count) [] in
    let* sz := operand_size in
    eat_operands (sz - (depth_change - result_count)) ;;;
    push_all results
  else
    let* sz := operand_size in
    eat_operands (sz - depth_change).

(** *** Exception-handling frames *)
Definition frame_zero : eh_frame := {| ef_call_depth := 0; ef_catch_count := 0; ef_first_catch := 0 |}.
Definition catch_zero : eh_catch_entry :=
  {| ec_kind := 0; ec_tag_index := 0; ec_handler_pc := 0; ec_operand_depth := 0; ec_eh_leave_count := 0 |}.
Definition exn_zero : wasm_exception_t := {| we_tag_index := UINT32_MAX; we_values := [] |}.
(** [std::vector::resize] *)
Definition vec_resize {A} (z : A) (l : list A) (n : nat) : list A := take n l ++ repeat z (n - length l).
Definition has_eh_frames (c : ctx H) : bool := negb (bool_decide (_eh_stack c = [])).
(** The innermost frame is the last of the vector. *)
Definition current_eh_frame : X eh_frame :=
  let* l := gets _eh_stack in
  match last l with Some f => ret f | None => undefined end.
Definition push_eh_frame (f : eh_frame) : X unit := modify (fun c => c <| _eh_stack := _eh_stack c ++ [f] |>).
Definition pop_eh_frame : X unit := modify (fun c => c <| _eh_stack := removelast (_eh_stack c) |>).
Definition push_eh_catch (e : eh_catch_entry) : X unit :=
  modify (fun c => c <| _eh_catches := _eh_catches c ++ [e] |>).
Definition get_eh_catch (i : Z) : X eh_catch_entry := let* l := gets _eh_catches in vec_index l i.
Definition eh_catches_size : X Z := gets (fun c => wrap 32 (vec_size (_eh_catches c))).
Definition trim_eh_catches (sz : Z) : X unit :=
  modify (fun c => c <| _eh_catches := vec_resize catch_zero (_eh_catches c) (Z.to_nat sz) |>).
Definition push_caught_exception (tag : Z) (values : list Z) : X Z :=
  let* l := gets _eh_exn_stack in
  modify (fun c => c <| _eh_exn_stack := _eh_exn_stack c ++ [{| we_tag_index := tag; we_values := values |}] |>) ;;;
  ret (wrap 32 (vec_size l)).
Definition get_caught_exception (idx : Z) : X wasm_exception_t :=
  let* l := gets _eh_exn_stack in
  psizam_assert (idx <? vec_size l) wasm_interpreter_exception "invalid exception reference index" ;;;
  vec_index l idx.
(** [while (_as.size() > depth)]: the number of frames bounds the loop. *)
Fixpoint unwind_loop (fuel : nat) (depth : Z) : X unit :=
  let* n := call_depth in
  if n <=? depth then ret tt else
  match fuel with
  | O => undefined
  | S fuel' =>
      let* af := pop_call in
      modify (fun c => c <| _remaining_call_depth := wrap 32 (_remaining_call_depth c + af_frame_size af) |>
                         <| _last_op_index := af_last_op_index af |>) ;;;
      unwind_loop fuel' depth
  end.
Definition unwind_call_stack_to (depth : Z) : X unit :=
  let* n := call_depth in unwind_loop (Z.to_nat n) depth.

(** The frame-popping step that branches, [delegate] and the dispatcher share. *)
Definition leave_eh_frame : X unit :=
  let* f := current_eh_frame in
  pop_eh_frame ;;; trim_eh_catches (ef_first_catch f).
(** [for (i = 0; i < n; ++i) if (has_eh_frames()) ...] *)
Fixpoint leave_eh_frames (n : nat) : X unit :=
  match n with
  | O => ret tt
  | S n' =>
      let* c := get in
      (if has_eh_frames c then leave_eh_frame else ret tt) ;;; leave_eh_frames n'
  end.

(** [execution_context::reset] *)
Definition reset : X unit :=
  on_base check_module_error ;;;
  modify (fun c => c <| _os := reset_capacity (_os c) |>) ;;;
  on_base reset_base ;;;
  modify (fun c => c <| _pc := CodeNull |> <| _as_index := 0 |> <| _os_index := 0 |> <| _exiting := false |>) ;;;
  on_os (eat 0) ;;;
  on_as (eat 0).

(** *** [execute]

    [run] is the dispatch loop (see [Interp.run]). *)
Section Execute.
Context (run : X unit).

(** [type_check_args] on already converted arguments. *)
Definition type_check_args (ft : func_type) (args : list elem) : X unit :=
  psizam_assert (vec_size args =? vec_size (param_types ft)) wasm_interpreter_exception
    "wrong number of arguments" ;;;
  psizam_assert (bool_decide (map elem_type args = param_types ft)) wasm_interpreter_exception
    "unexpected argument type".

(** The scope guard: runs on every exit, with the values saved at entry. *)
Definition cleanup (saved : ctx H) : X unit :=
  let* os_index := gets _os_index in
  on_os (eat os_index) ;;;
  let* as_index := gets _as_index in
  on_as (eat as_index) ;;;
  modify (fun c =>
    c <| _eh_stack := vec_resize frame_zero (_eh_stack c) (length (_eh_stack saved)) |>
      <| _eh_catches := vec_resize catch_zero (_eh_catches c) (length (_eh_catches saved)) |>
      <| _eh_exn_stack := vec_resize exn_zero (_eh_exn_stack c) (length (_eh_exn_stack saved)) |>
      <| _pc := _pc saved |> <| _as_index := _as_index saved |> <| _os_index := _os_index saved |>
      <| _exiting := _exiting saved |>
      <| _last_op_index := _last_op_index saved |>
      <| _remaining_call_depth := _remaining_call_depth saved |>).

Definition execute_body (func_index : Z) (args : list elem) : X (option elem) :=
  let* m := the_module in
  let* ft := get_function_type m func_index in
  type_check_args ft args ;;;
  push_all args ;;;
  push_call true func_index ;;;
  charge_prologue func_index ;;;
  (if func_index <? get_imported_functions_size m then
     let* mapped := vec_index (m_import_functions m) func_index in
     let* hf := get_entry mapped in
     let* hf_args := pop_native_args (rev (he_params hf)) [] in
     let* r := host_call mapped hf_args in
     push_native_result (he_ret hf) r
   else
     let* pc := get_function_pc m func_index in
     set_pc pc ;;;
     setup_locals func_index ;;;
     run) ;;;
  let* ret_ft := get_function_type m func_index in
  let* exiting := gets _exiting in
  if negb (return_count ret_ft =? 0) && negb exiting then
    let* first := peek_operand (Z.to_nat (return_count ret_ft - 1)) in
    let* _ := pop_n (Z.to_nat (return_count ret_ft)) [] in
    ret (Some first)
  else ret None.

Definition execute (func_index : Z) (args : list elem) : X (option elem) := fun c =>
  if negb (func_index <? UINT32_MAX)
  then Throw (Exn wasm_interpreter_exception "cannot execute function, function not found") c
  else
    let c1 := c <| _as_index := size (_as c) |> <| _os_index := size (_os c) |> in
    match execute_body func_index args c1 with
    | Ok r c2 => match cleanup c c2 with Ok _ c3 => Ok r c3 | Throw e c3 => Throw e c3 | UB => UB end
    | Throw e c2 => match cleanup c c2 with Ok _ c3 => Throw e c3 | Throw e' c3 => Throw e' c3 | UB => UB end
    | UB => UB
    end.

(** [execute] by export name, [execute_func_table], [execute_start]. *)
Definition execute_named (name : list Z) (args : list elem) : X (option elem) :=
  let* m := the_module in execute (get_exported_function m name) args.
Definition execute_func_table (table_index : Z) (args : list elem) : X (option elem) :=
  let* f := on_base (table_elem table_index 0) in execute f args.
Definition execute_start : X unit :=
  let* m := the_module in
  if negb (m_start m =? UINT32_MAX) then let* _ := execute (m_start m) [] in ret tt else ret tt.

End Execute.
End Exec.
