(* ===== verification/Operands.v ===== *)
(** * Operand-stack reasoning

    What the stack primitives of the execution context do to the abstract
    operand stack (the [view] of [_os]), as rewriting facts the handlers'
    theorems share. *)
From Stdlib Require Import ZArith Lia Bool String.
From stdpp Require Import base list numbers decidable option gmap.
From S2P Require Import Prelude Types Stack Memory InitExpr Context.

Section Operands.
Context {H : Type}.
Implicit Types c : ctx H.

(** [holds c l]: the operand stack of [c] is well formed and holds [l], top last. *)
Definition holds c (l : list elem) : Prop := stack_wf (_os c) /\ view (_os c) = l.

(** [c] with another operand stack holding [l]. *)
Definition with_os c (l : list elem) (c' : ctx H) : Prop :=
  holds c' l /\ exists s, c' = c <| _os := s |>.

Lemma with_os_trans c l c1 l' c2 : with_os c l c1 -> with_os c1 l' c2 -> with_os c l' c2.
Proof. intros [_ [s ->]] [Hh [s' ->]]. split; [exact Hh|]. exists s'. reflexivity. Qed.

Lemma on_os_ok {A} (m : M (stack elem) A) c a s : m (_os c) = Ok a s -> on_os m c = Ok a (c <| _os := s |>).
Proof. intros E. unfold on_os, zoom. now rewrite E. Qed.

Lemma push_holds c l e : holds c l -> exists c', push_operand e c = Ok tt c' /\ with_os c (l ++ [e]) c'.
Proof.
  intros [Hw <-]. destruct (push_view elem_default e (_os c) Hw) as (s & E & W & V).
  exists (c <| _os := s |>). split; [now apply on_os_ok|]. split; [split; auto|now exists s].
Qed.
Lemma pop_holds c l e : holds c (l ++ [e]) -> exists c', pop_operand c = Ok e c' /\ with_os c l c'.
Proof.
  intros [Hw Hv]. destruct (pop_view (_os c) l e Hw Hv) as (s & E & W & V).
  exists (c <| _os := s |>). split; [now apply on_os_ok|]. split; [split; auto|now exists s].
Qed.
Lemma peek_holds c l e r : holds c (l ++ e :: r) -> peek_operand (length r) c = Ok e c.
Proof.
  intros [Hw Hv]. unfold peek_operand, on_os, zoom. rewrite (peek_view (_os c) l e r Hw Hv).
  destruct c; reflexivity.
Qed.
Lemma poke_holds c l e e' r : holds c (l ++ e :: r) ->
  exists c', poke_operand (length r) e' c = Ok tt c' /\ with_os c (l ++ e' :: r) c'.
Proof.
  intros [Hw Hv]. destruct (poke_view (_os c) l e e' r Hw Hv) as (s & E & W & V).
  exists (c <| _os := s |>). split; [now apply on_os_ok|]. split; [split; auto|now exists s].
Qed.
Lemma inc_pc_at c o n : _pc c = CodeAt o -> inc_pc n c = Ok tt (c <| _pc := CodeAt (o + n) |>).
Proof. intros E. unfold inc_pc, bind, gets. rewrite E. reflexivity. Qed.


Lemma on_base_ok {A} (m : M (base H) A) c a b : m (_base c) = Ok a b -> on_base m c = Ok a (c <| _base := b |>).
Proof. intros E. unfold on_base, zoom. now rewrite E. Qed.
Lemma on_base_throw {A} (m : M (base H) A) c e b : m (_base c) = Throw e b -> on_base m c = Throw e (c <| _base := b |>).
Proof. intros E. unfold on_base, zoom. now rewrite E. Qed.

(** Lists of operands. *)
Lemma with_os_refl c l : holds c l -> with_os c l c.
Proof. intros Hh. split; [exact Hh|]. exists (_os c). now destruct c. Qed.
Lemma push_all_holds c l es : holds c l -> exists c', push_all es c = Ok tt c' /\ with_os c (l ++ es) c'.
Proof.
  revert c l. induction es as [|e es IH]; intros c l Hh; cbn [push_all].
  - exists c. rewrite app_nil_r. auto using with_os_refl.
  - destruct (push_holds c l e Hh) as (c1 & E1 & W1). rewrite (bind_Ok _ _ _ _ _ E1).
    destruct (IH c1 (l ++ [e])) as (c2 & E2 & W2); [apply W1|]. rewrite <- app_assoc in W2.
    exists c2. split; [exact E2|]. eapply with_os_trans; eauto.
Qed.
Lemma pop_n_holds c l es acc : holds c (l ++ es) ->
  exists c', pop_n (length es) acc c = Ok (es ++ acc) c' /\ with_os c l c'.
Proof.
  revert c acc. induction es as [|e es IH] using rev_ind; intros c acc Hh.
  - rewrite app_nil_r in Hh. exists c. auto using with_os_refl.
  - rewrite length_app. cbn [length]. rewrite Nat.add_1_r. cbn [pop_n]. rewrite app_assoc in Hh.
    destruct (pop_holds c _ e Hh) as (c1 & E1 & W1). rewrite (bind_Ok _ _ _ _ _ E1).
    destruct (IH c1 (e :: acc)) as (c2 & E2 & W2); [apply W1|]. rewrite <- app_assoc.
    exists c2. split; [exact E2|]. eapply with_os_trans; eauto.
Qed.
Lemma size_holds c l : holds c l -> operand_size c = Ok (vec_size l) c.
Proof. intros [Hw <-]. unfold operand_size, gets. now rewrite view_size. Qed.
Lemma eat_holds c l r n : holds c (l ++ r) -> n = vec_size l -> vec_size l < 2 ^ 32 ->
  exists c', eat_operands n c = Ok tt c' /\ with_os c l c'.
Proof.
  intros [Hw Hv] -> Hb. destruct (eat_view (_os c) (vec_size l) Hw) as (s & E & W & V).
  { rewrite Hv. unfold vec_size. rewrite length_app. lia. }
  exists (c <| _os := s |>). unfold eat_operands. rewrite wrap_small by (unfold in_u, vec_size in *; lia).
  split; [now apply on_os_ok|]. split; [split; [exact W|]|now exists s].
  cbn. rewrite V, Hv. unfold vec_size. rewrite Nat2Z.id, take_app_le by lia. now rewrite take_ge.
Qed.
Lemma compact_holds c l mid e n : holds c (l ++ mid ++ [e]) -> n = vec_size l -> vec_size l < 2 ^ 32 ->
  exists c', compact_operand n c = Ok tt c' /\ with_os c (l ++ [e]) c'.
Proof.
  intros [Hw Hv] -> Hb. destruct (compact_view (_os c) l mid e Hw Hv) as (s & E & W & V).
  exists (c <| _os := s |>). unfold compact_operand. rewrite wrap_small by (unfold in_u, vec_size in *; lia).
  split; [now apply on_os_ok|]. split; [split; auto|now exists s].
Qed.
Lemma compact_n_holds c l mid res n k : holds c (l ++ mid ++ res) -> n = vec_size l -> k = vec_size res ->
  vec_size l < 2 ^ 32 -> exists c', compact_operand_n n k c = Ok tt c' /\ with_os c (l ++ res) c'.
Proof.
  intros [Hw Hv] -> -> Hb. destruct (compact_n_view (_os c) l mid res Hw Hv) as (s & E & W & V).
  exists (c <| _os := s |>). unfold compact_operand_n. rewrite wrap_small by (unfold in_u, vec_size in *; lia).
  split; [now apply on_os_ok|]. split; [split; auto|now exists s].
Qed.

End Operands.
