(* ===== verification/Interp.v ===== *)
(** * The interpreter

    Models psizam/detail/interpret_visitor.hpp: one definition per group of
    handlers, each with its program-counter update, operand accesses, checks
    and effects in the source's order, and the dispatch loop of
    [execution_context::execute(Visitor&&)].  An access through a reference to
    an operand ([auto& lhs = context.peek_operand()]) is a [peek_operand]
    followed by a [poke_operand] of the same slot.

    Vector handlers take their lane arithmetic from [Simd]; atomic instructions
    run as in the source, which has one thread, as plain accesses.

    The loop's fuel is the number of instructions executed before the watchdog
    interrupts the run with [timeout_exception]. *)
From Stdlib Require Import ZArith Lia Bool String.
From stdpp Require Import base list numbers decidable option gmap.
From S2P Require Import Prelude Types Stack Memory Numeric Softfloat Simd InitExpr Context.
Import Opcode.

(** ** Floating point by mode *)
Section Floats.
Context {SF : SoftFloat} {HF : HostFloat}.

Definition is_fast (m : fp_mode) : bool := match m with fast => true | _ => false end.

(** C++'s [>] and [>=] on IEEE operands are [<] and [<=] with the operands
    exchanged. *)
Definition float_relop_v (m : fp_mode) (w : width) (op : float_relop) (lhs rhs : Z) : bool :=
  match op with
  | feq => f_eq w lhs rhs
  | fne => negb (f_eq w lhs rhs)
  | flt => f_lt w lhs rhs
  | fgt => if is_fast m then f_lt w rhs lhs else psizam_gt w lhs rhs
  | fle => f_le w lhs rhs
  | fge => if is_fast m then f_le w rhs lhs else psizam_ge w lhs rhs
  end.
Definition f32_relop (m : fp_mode) := float_relop_v m W32.
Definition f64_relop (m : fp_mode) := float_relop_v m W64.

Definition f32_unop (m : fp_mode) (op : float_unop) (oper : Z) : Z :=
  if is_fast m then hf_unop W32 op oper else
  match op with
  | fabs => psizam_abs W32 oper
  | fneg => psizam_neg W32 oper
  | fceil => psizam_f32_ceil true oper
  | ffloor => psizam_f32_floor true oper
  | ftrunc => psizam_trunc W32 true oper
  | fnearest => psizam_nearest W32 true oper
  | fsqrt => psizam_sqrt W32 oper
  end.
Definition f64_unop (m : fp_mode) (op : float_unop) (oper : Z) : Z :=
  if is_fast m then hf_unop W64 op oper else
  match op with
  | fabs => psizam_abs W64 oper
  | fneg => psizam_neg W64 oper
  | fceil => psizam_f64_ceil true oper
  | ffloor => psizam_f64_floor true oper
  | ftrunc => psizam_trunc W64 true oper
  | fnearest => psizam_nearest W64 true oper
  | fsqrt => psizam_sqrt W64 oper
  end.

Definition float_binop_v (m : fp_mode) (w : width) (op : float_binop) (lhs rhs : Z) : Z :=
  if is_fast m then hf_binop w op lhs rhs else
  match op with
  | fadd => psizam_add w lhs rhs
  | fsub => psizam_sub w lhs rhs
  | fmul => psizam_mul w lhs rhs
  | fdiv => psizam_div w lhs rhs
  | fmin => psizam_min w true lhs rhs
  | fmax => psizam_max w true lhs rhs
  | fcopysign => psizam_copysign w lhs rhs
  end.
Definition f32_binop (m : fp_mode) := float_binop_v m W32.
Definition f64_binop (m : fp_mode) := float_binop_v m W64.

(** The [fast] range checks, with the same literals as the deterministic ones. *)
Definition trunc_overflow_fast (w : width) (t : int_type) (a : Z) : bool :=
  match t, w with
  | TI32, W32 => f_le w (two_31 w) a || f_lt w a (neg_two_31 w)
  | TI32, W64 => f_le w (two_31 w) a || f_le w a neg_two_31_minus_1
  | TU32, _ => f_le w (two_32 w) a || f_le w a (neg_one w)
  | TI64, _ => f_le w (two_63 w) a || f_lt w a (neg_two_63 w)
  | TU64, _ => f_le w (two_64 w) a || f_le w a (neg_one w)
  end.
Definition trunc_int {S} (m : fp_mode) (w : width) (t : int_type) (a : Z) : M S Z :=
  if is_fast m then
    psizam_assert (negb (trunc_overflow_fast w t a)) wasm_interpreter_exception (conv_msg "trunc" w t "overflow") ;;;
    psizam_assert (negb (is_nan w a)) wasm_interpreter_exception (conv_msg "trunc" w t "unrepresentable") ;;;
    ret (hf_cast w t a)
  else psizam_trunc_int w t a.
Definition of_int (m : fp_mode) (w : width) (t : int_type) (v : Z) : Z :=
  if is_fast m then hf_of_int w t v else sf_of_int w t v.

End Floats.

Section Interp.
Context {SF : SoftFloat} {HF : HostFloat} {H : Type}.
Abbreviation X := (M (ctx H)).

Definition fp : X fp_mode := gets (fun c => _fp (_base c)).

(** ** Operand access *)
Definition unary (dec : elem -> X Z) (enc : Z -> elem) (f : Z -> X Z) : X unit :=
  inc_pc 1 ;;;
  let* e := peek_operand 0 in
  let* v := dec e in
  let* r := f v in
  poke_operand 0 (enc r).
Definition binary (dec : elem -> X Z) (enc : Z -> elem) (f : Z -> Z -> X Z) : X unit :=
  inc_pc 1 ;;;
  let* er := pop_operand in
  let* rhs := dec er in
  let* el := peek_operand 0 in
  let* lhs := dec el in
  let* r := f lhs rhs in
  poke_operand 0 (enc r).

Definition wF32 (v : Z) : elem := F32 (wrap 32 v).
Definition wF64 (v : Z) : elem := F64 (wrap 64 v).
Definition wI32 (v : Z) : elem := I32 (wrap 32 v).
Definition wI64 (v : Z) : elem := I64 (wrap 64 v).

(** ** Control *)
Definition exec_if (pc : Z) : X unit :=
  inc_pc 1 ;;;
  let* oper := pop_operand in
  let* v := to_ui32 oper in
  if v =? 0 then set_relative_pc pc else ret tt.
Definition exec_br_if (data pc stacksz : Z) : X unit :=
  let* val := pop_operand in
  let* b := is_true val in
  if b : bool then leave_eh_frames (Z.to_nat stacksz) ;;; jump data pc
  else inc_pc 1.
(** The table follows the instruction in the code segment; [br_table_] carries it. *)
Definition exec_br_table (sz : Z) (table : list br_table_elem) : X unit :=
  let* e := pop_operand in
  let* i := to_ui32 e in
  let* entry := vec_index table (Z.min i sz) in
  leave_eh_frames (Z.to_nat (bt_eh_leave_count entry)) ;;;
  jump (bt_stack_pop entry) (bt_pc entry).

(** The checks [call_indirect] and [return_call_indirect] share: the function
    index behind a table element. *)
Definition resolve_indirect (index : Z) : X Z :=
  let type_idx := Z.land index 0xFFFF in
  let table_idx := Z.shiftr index 16 in
  let* e := pop_operand in
  let* i := to_ui32 e in
  let* fn := on_base (table_elem i table_idx) in
  let* m := the_module in
  psizam_assert (fn <? get_functions_total m) wasm_interpreter_exception
    "call_indirect to uninitialized table entry" ;;;
  let* expected := vec_at (m_types m) type_idx in
  let* actual := get_function_type m fn in
  psizam_assert (func_type_eqb actual expected) wasm_interpreter_exception "bad call_indirect type" ;;;
  ret fn.
Definition exec_call_indirect (index : Z) : X unit := let* fn := resolve_indirect index in call fn.
Definition exec_tail_call_indirect (index : Z) : X unit := let* fn := resolve_indirect index in tail_call fn.

(** ** Variables *)
Definition exec_select : X unit :=
  let* c := pop_operand in
  let* v2 := pop_operand in
  let* b := to_ui32 c in
  (if b =? 0 then let* _ := peek_operand 0 in poke_operand 0 v2 else ret tt) ;;;
  inc_pc 1.
Definition exec_get_local (index : Z) : X unit :=
  inc_pc 1 ;;; let* e := get_operand index in push_operand e.
Definition exec_set_local (index : Z) : X unit :=
  inc_pc 1 ;;; let* e := pop_operand in set_operand index e.
Definition exec_tee_local (index : Z) : X unit :=
  inc_pc 1 ;;; let* e := pop_operand in set_operand index e ;;; push_operand e.
Definition exec_get_global (index : Z) : X unit :=
  inc_pc 1 ;;; let* e := get_global index in push_operand e.
Definition exec_set_global (index : Z) : X unit :=
  inc_pc 1 ;;; let* e := pop_operand in set_global index e.

(** ** Memory *)

Definition compute_effective (offset : Z) : X Z :=
  let* p := pop_operand in
  let* b := gets _base in
  if is_memory64 b then
    let* addr := to_ui64 p in
    let effective := wrap 64 (offset + addr) in
    (if bool_decide (_mem_mode b = guarded)
     then psizam_assert ((effective <? max_memory) && (addr <=? effective))
            wasm_memory_exception "memory address out of range"
     else ret tt) ;;;
    ret effective
  else
    let* addr := to_ui32 p in
    let addr := if bool_decide (_mem_mode b = memory16) then Z.land addr 0xFFFF else addr in
    ret (offset + addr).

(** The pointer [linear_memory() + effective], as an offset: the sum wraps. *)
Definition pointer_offset (effective : Z) : Z := signed 64 effective.

Definition pop_memop_addr_read (offset access_size : Z) : X Z :=
  let* effective := compute_effective offset in
  let* b := gets _base in
  (if bool_decide (_mem_mode b = checked) then
     let e := wrap 64 (effective + access_size) in
     if bool_decide (_checked_kind b = immediate)
     then psizam_assert (e <=? memory_size_bytes b) wasm_memory_exception "memory read out of bounds"
     else if bool_decide (_checked_kind b = strict) then on_base (track_read_max e)
     else on_base (track_read_or e)
   else ret tt) ;;;
  ret (pointer_offset effective).
Definition pop_memop_addr_write (offset access_size : Z) : X Z :=
  let* effective := compute_effective offset in
  let* b := gets _base in
  (if bool_decide (_mem_mode b = checked) then
     let e := wrap 64 (effective + access_size) in
     psizam_assert (e <=? memory_size_bytes b) wasm_memory_exception "memory write out of bounds"
   else ret tt) ;;;
  ret (pointer_offset effective).

(** Bytes read, and the operand they become. *)
Definition load_size (op : load_op) : nat :=
  match op with
  | i32_load8_s | i32_load8_u | i64_load8_s | i64_load8_u => 1
  | i32_load16_s | i32_load16_u | i64_load16_s | i64_load16_u => 2
  | i32_load | f32_load | i64_load32_s | i64_load32_u => 4
  | i64_load | f64_load => 8
  end.
Definition load_value (op : load_op) (v : Z) : elem :=
  match op with
  | i32_load | i32_load8_u | i32_load16_u => I32 v
  | i32_load8_s => I32 (wrap 32 (signed 8 v))
  | i32_load16_s => I32 (wrap 32 (signed 16 v))
  | i64_load | i64_load8_u | i64_load16_u | i64_load32_u => I64 v
  | i64_load8_s => I64 (wrap 64 (signed 8 v))
  | i64_load16_s => I64 (wrap 64 (signed 16 v))
  | i64_load32_s => I64 (wrap 64 (signed 32 v))
  | f32_load => F32 v
  | f64_load => F64 v
  end.
Definition exec_load (op : load_op) (m : memarg) : X unit :=
  inc_pc 1 ;;;
  let* p := pop_memop_addr_read (mem_offset m) (Z.of_nat (load_size op)) in
  let* v := on_base (on_alloc (read_unaligned p (load_size op))) in
  push_operand (load_value op v).

Definition store_size (op : store_op) : nat :=
  match op with
  | i32_store8 | i64_store8 => 1
  | i32_store16 | i64_store16 => 2
  | i32_store | i64_store32 | f32_store => 4
  | i64_store | f64_store => 8
  end.
Definition store_value (op : store_op) (e : elem) : X Z :=
  match op with
  | i32_store | i32_store8 | i32_store16 => to_ui32 e
  | i64_store | i64_store8 | i64_store16 | i64_store32 => to_ui64 e
  | f32_store => to_fui32 e
  | f64_store => to_fui64 e
  end.
Definition exec_store (op : store_op) (m : memarg) : X unit :=
  inc_pc 1 ;;;
  let* val := pop_operand in
  let* p := pop_memop_addr_write (mem_offset m) (Z.of_nat (store_size op)) in
  let* v := store_value op val in
  on_base (on_alloc (write_unaligned p (store_size op) (wrap (8 * Z.of_nat (store_size op)) v))).

Definition exec_current_memory : X unit :=
  inc_pc 1 ;;;
  let* b := gets _base in
  if is_memory64 b then push_operand (I64 (wrap 64 (current_linear_memory b)))
  else push_operand (I32 (wrap 32 (current_linear_memory b))).
Definition exec_grow_memory : X unit :=
  inc_pc 1 ;;;
  let* b := gets _base in
  if is_memory64 b then
    let* e := peek_operand 0 in
    let* oper := to_ui64 e in
    let* r := on_base (grow_linear_memory (signed 32 (wrap 32 oper))) in
    poke_operand 0 (I64 (if r =? -1 then UINT64_MAX else wrap 64 r))
  else
    let* e := peek_operand 0 in
    let* oper := to_ui32 e in
    let* r := on_base (grow_linear_memory (signed 32 oper)) in
    poke_operand 0 (I32 (wrap 32 r)).

(** *** Bulk memory

    [memory.copy] and [memory.fill] move one byte per dispatch and leave the
    program counter in place until the count reaches zero. *)
Definition peek_ui32 (i : nat) : X Z := let* e := peek_operand i in to_ui32 e.
Definition pop3 : X unit := let* _ := pop_operand in let* _ := pop_operand in let* _ := pop_operand in ret tt.

Definition exec_memory_init (index : Z) : X unit :=
  let* size := pop_operand in
  let* src := pop_operand in
  let* dst := pop_operand in
  inc_pc 1 ;;;
  let* d := to_ui32 dst in let* s := to_ui32 src in let* n := to_ui32 size in
  on_base (init_linear_memory index d s n).
Definition exec_memory_copy : X unit :=
  let* size := peek_ui32 0 in
  let* src := peek_ui32 1 in
  let* dst := peek_ui32 2 in
  on_base (on_alloc (validate_pointer 1 src size)) ;;;
  on_base (on_alloc (validate_pointer 1 dst size)) ;;;
  if size =? 0 then pop3 ;;; inc_pc 1
  else if dst <=? src then
    let* v := on_base (on_alloc (read_unaligned src 1)) in
    on_base (on_alloc (write_unaligned dst 1 v)) ;;;
    poke_operand 0 (I32 (wrap 32 (size - 1))) ;;;
    poke_operand 1 (I32 (wrap 32 (src + 1))) ;;;
    poke_operand 2 (I32 (wrap 32 (dst + 1)))
  else
    let* v := on_base (on_alloc (read_unaligned (src + (size - 1)) 1)) in
    on_base (on_alloc (write_unaligned (dst + (size - 1)) 1 v)) ;;;
    poke_operand 0 (I32 (wrap 32 (size - 1))).
Definition exec_memory_fill : X unit :=
  let* size := peek_ui32 0 in
  let* dst := peek_ui32 2 in
  on_base (on_alloc (validate_pointer 1 dst size)) ;;;
  if size =? 0 then pop3 ;;; inc_pc 1
  else
    let* src := peek_ui32 1 in
    on_base (on_alloc (write_unaligned dst 1 (wrap 8 src))) ;;;
    poke_operand 0 (I32 (wrap 32 (size - 1))) ;;;
    poke_operand 2 (I32 (wrap 32 (dst + 1))).

(** ** Tables and references *)
Definition exec_table_init (index : Z) : X unit :=
  let elem_idx := Z.land index 0xFFFF in
  let table_idx := Z.shiftr index 16 in
  let* size := pop_operand in
  let* src := pop_operand in
  let* dst := pop_operand in
  inc_pc 1 ;;;
  let* d := to_ui32 dst in let* s := to_ui32 src in let* n := to_ui32 size in
  on_base (init_table elem_idx d s n table_idx).
Definition exec_table_copy (index : Z) : X unit :=
  let dst_table := Z.land index 0xFFFF in
  let src_table := Z.shiftr index 16 in
  let* size := peek_ui32 0 in
  let* src := peek_ui32 1 in
  let* dst := peek_ui32 2 in
  on_base (get_table_ptr src size src_table) ;;;
  on_base (get_table_ptr dst size dst_table) ;;;
  if size =? 0 then pop3 ;;; inc_pc 1
  else if negb (dst_table =? src_table) || (dst <=? src) then
    let* e := on_base (table_load src_table src) in
    on_base (table_store dst_table dst e) ;;;
    poke_operand 0 (I32 (wrap 32 (size - 1))) ;;;
    poke_operand 1 (I32 (wrap 32 (src + 1))) ;;;
    poke_operand 2 (I32 (wrap 32 (dst + 1)))
  else
    let* e := on_base (table_load src_table (src + (size - 1))) in
    on_base (table_store dst_table (dst + (size - 1)) e) ;;;
    poke_operand 0 (I32 (wrap 32 (size - 1))).
Definition exec_table_get (index : Z) : X unit :=
  let* i := peek_ui32 0 in
  let* sz := on_base (get_table_size index) in
  psizam_assert (i <? sz) wasm_interpreter_exception "table index out of range" ;;;
  on_base (get_table_base index) ;;;
  let* e := on_base (table_load index i) in
  poke_operand 0 (I32 (te_index e)) ;;;
  inc_pc 1.
(** An entry made from a reference has no type and no code. *)
Definition ref_entry (val : Z) : table_entry := {| te_type := UINT32_MAX; te_index := val; te_code_ptr := 0 |}.
Definition exec_table_set (index : Z) : X unit :=
  let* ev := pop_operand in let* val := to_ui32 ev in
  let* ei := pop_operand in let* idx := to_ui32 ei in
  let* sz := on_base (get_table_size index) in
  psizam_assert (idx <? sz) wasm_interpreter_exception "table index out of range" ;;;
  on_base (get_table_base index) ;;;
  on_base (table_store index idx (ref_entry val)) ;;;
  inc_pc 1.
Definition exec_ref_null : X unit := push_operand (I32 UINT32_MAX) ;;; inc_pc 1.
Definition exec_ref_is_null : X unit :=
  let* e := pop_operand in let* v := to_ui32 e in
  push_operand (I32 (b2z (v =? UINT32_MAX))) ;;; inc_pc 1.
Definition exec_ref_func (index : Z) : X unit := push_operand (I32 index) ;;; inc_pc 1.
Definition exec_table_grow (index : Z) : X unit :=
  let* ed := pop_operand in let* delta := to_ui32 ed in
  let* ei := pop_operand in let* init_val := to_ui32 ei in
  let* r := on_base (table_grow index delta (ref_entry init_val)) in
  push_operand (I32 r) ;;; inc_pc 1.
Definition exec_table_size (index : Z) : X unit :=
  let* sz := on_base (get_table_size index) in push_operand (I32 sz) ;;; inc_pc 1.
Definition exec_table_fill (index : Z) : X unit :=
  let* en := pop_operand in let* n := to_ui32 en in
  let* ev := pop_operand in let* val := to_ui32 ev in
  let* ei := pop_operand in let* i := to_ui32 ei in
  on_base (table_fill index i (ref_entry val) n) ;;; inc_pc 1.

(** ** Conversions *)
Definition exec_conv (op : conv_op) : X unit :=
  match op with
  | i32_wrap_i64 => unary to_ui64 I32 (fun v => ret (i32_wrap_i64_v v))
  | i64_extend_s_i32 => unary to_ui32 I64 (fun v => ret (i64_extend_s_i32_v v))
  | i64_extend_u_i32 => unary to_ui32 I64 (fun v => ret (i64_extend_u_i32_v v))
  | i32_extend8_s => unary to_ui32 I32 (fun v => ret (extend_v 32 8 v))
  | i32_extend16_s => unary to_ui32 I32 (fun v => ret (extend_v 32 16 v))
  | i64_extend8_s => unary to_ui64 I64 (fun v => ret (extend_v 64 8 v))
  | i64_extend16_s => unary to_ui64 I64 (fun v => ret (extend_v 64 16 v))
  | i64_extend32_s => unary to_ui64 I64 (fun v => ret (extend_v 64 32 v))
  | i32_reinterpret_f32 => unary to_fui32 I32 ret
  | i64_reinterpret_f64 => unary to_fui64 I64 ret
  | f32_reinterpret_i32 => unary to_ui32 F32 ret
  | f64_reinterpret_i64 => unary to_ui64 F64 ret
  end.
Definition exec_fconv (op : fconv_op) : X unit :=
  let* m := fp in
  match op with
  | i32_trunc_s_f32 => unary to_fui32 wI32 (trunc_int m W32 TI32)
  | i32_trunc_u_f32 => unary to_fui32 wI32 (trunc_int m W32 TU32)
  | i32_trunc_s_f64 => unary to_fui64 wI32 (trunc_int m W64 TI32)
  | i32_trunc_u_f64 => unary to_fui64 wI32 (trunc_int m W64 TU32)
  | i64_trunc_s_f32 => unary to_fui32 wI64 (trunc_int m W32 TI64)
  | i64_trunc_u_f32 => unary to_fui32 wI64 (trunc_int m W32 TU64)
  | i64_trunc_s_f64 => unary to_fui64 wI64 (trunc_int m W64 TI64)
  | i64_trunc_u_f64 => unary to_fui64 wI64 (trunc_int m W64 TU64)
  | i32_trunc_sat_f32_s => unary to_fui32 wI32 (fun v => ret (psizam_trunc_sat W32 TI32 v))
  | i32_trunc_sat_f32_u => unary to_fui32 wI32 (fun v => ret (psizam_trunc_sat W32 TU32 v))
  | i32_trunc_sat_f64_s => unary to_fui64 wI32 (fun v => ret (psizam_trunc_sat W64 TI32 v))
  | i32_trunc_sat_f64_u => unary to_fui64 wI32 (fun v => ret (psizam_trunc_sat W64 TU32 v))
  | i64_trunc_sat_f32_s => unary to_fui32 wI64 (fun v => ret (psizam_trunc_sat W32 TI64 v))
  | i64_trunc_sat_f32_u => unary to_fui32 wI64 (fun v => ret (psizam_trunc_sat W32 TU64 v))
  | i64_trunc_sat_f64_s => unary to_fui64 wI64 (fun v => ret (psizam_trunc_sat W64 TI64 v))
  | i64_trunc_sat_f64_u => unary to_fui64 wI64 (fun v => ret (psizam_trunc_sat W64 TU64 v))
  | f32_convert_s_i32 => unary to_i32 wF32 (fun v => ret (of_int m W32 TI32 v))
  | f32_convert_u_i32 => unary to_ui32 wF32 (fun v => ret (of_int m W32 TU32 v))
  | f32_convert_s_i64 => unary to_i64 wF32 (fun v => ret (of_int m W32 TI64 v))
  | f32_convert_u_i64 => unary to_ui64 wF32 (fun v => ret (of_int m W32 TU64 v))
  | f32_demote_f64 => unary to_fui64 wF32 (fun v => ret (if is_fast m then hf_demote v else sf_demote v))
  | f64_convert_s_i32 => unary to_i32 wF64 (fun v => ret (of_int m W64 TI32 v))
  | f64_convert_u_i32 => unary to_ui32 wF64 (fun v => ret (of_int m W64 TU32 v))
  | f64_convert_s_i64 => unary to_i64 wF64 (fun v => ret (of_int m W64 TI64 v))
  | f64_convert_u_i64 => unary to_ui64 wF64 (fun v => ret (of_int m W64 TU64 v))
  | f64_promote_f32 => unary to_fui32 wF64 (fun v => ret (if is_fast m then hf_promote v else sf_promote v))
  end.

(** ** Numeric dispatch *)
Definition exec_relop (w : width) (op : int_relop) : X unit :=
  match w with
  | W32 => binary to_ui32 I32 (fun l r => ret (i32_relop op l r))
  | W64 => binary to_ui64 I32 (fun l r => ret (i64_relop op l r))
  end.
Definition exec_eqz (w : width) : X unit :=
  match w with
  | W32 => unary to_ui32 I32 (fun v => ret (i32_eqz v))
  | W64 => unary to_ui64 I32 (fun v => ret (i64_eqz v))
  end.
Definition exec_unop (w : width) (op : int_unop) : X unit :=
  match w with
  | W32 => unary to_ui32 I32 (fun v => ret (i32_unop op v))
  | W64 => unary to_ui64 I64 (fun v => ret (i64_unop op v))
  end.
Definition exec_binop (w : width) (op : int_binop) : X unit :=
  match w with
  | W32 => binary to_ui32 I32 (i32_binop op)
  | W64 => binary to_ui64 I64 (i64_binop op)
  end.
Definition exec_frelop (w : width) (op : float_relop) : X unit :=
  let* m := fp in
  match w with
  | W32 => binary to_fui32 I32 (fun l r => ret (b2z (f32_relop m op l r)))
  | W64 => binary to_fui64 I32 (fun l r => ret (b2z (f64_relop m op l r)))
  end.
Definition exec_funop (w : width) (op : float_unop) : X unit :=
  let* m := fp in
  match w with
  | W32 => unary to_fui32 wF32 (fun v => ret (f32_unop m op v))
  | W64 => unary to_fui64 wF64 (fun v => ret (f64_unop m op v))
  end.
Definition exec_fbinop (w : width) (op : float_binop) : X unit :=
  let* m := fp in
  match w with
  | W32 => binary to_fui32 wF32 (fun l r => ret (f32_binop m op l r))
  | W64 => binary to_fui64 wF64 (fun l r => ret (f64_binop m op l r))
  end.

(** ** Exceptions *)
Definition catch_tag : Z := 0.
Definition catch_tag_ref : Z := 1.
Definition catch_all_kind : Z := 2.
Definition catch_all_ref : Z := 3.

Definition catch_matches (tag : Z) (e : eh_catch_entry) : bool :=
  if (ec_kind e =? catch_tag) || (ec_kind e =? catch_tag_ref) then ec_tag_index e =? tag
  else (ec_kind e =? catch_all_kind) || (ec_kind e =? catch_all_ref).

(** The first matching clause of a frame, as its place in [_eh_catches]. *)
Fixpoint find_catch (n : nat) (i tag : Z) : X (option Z) :=
  match n with
  | O => ret None
  | S n' =>
      let* e := get_eh_catch i in
      if catch_matches tag e then ret (Some i) else find_catch n' (i + 1) tag
  end.

Definition payload_elem (t v : Z) : elem :=
  if t =? types.i32 then I32 (wrap 32 v)
  else if t =? types.f32 then F32 (wrap 32 v)
  else if t =? types.f64 then F64 v
  else I64 v.
Fixpoint push_payload (params payload : list Z) : X unit :=
  match payload with
  | [] => ret tt
  | v :: payload' =>
      push_operand (payload_elem (match params with t :: _ => t | [] => types.i64 end) v) ;;;
      push_payload (tail params) payload'
  end.

(** [while (pending_leaves > 0 && has_eh_frames())] *)
Fixpoint pop_outer_frames (pending : nat) : X unit :=
  match pending with
  | O => ret tt
  | S p =>
      let* c := get in
      if has_eh_frames c then leave_eh_frame ;;; pop_outer_frames p else ret tt
  end.

(** [frame] and [entry] of the source are references into the vectors of frames and
    clauses, so they are places here, read where the source reads through them: past
    the end of its vector, where the element has been destroyed, a read is undefined. *)
Definition eh_frame_at (i : Z) : X eh_frame := let* l := gets _eh_stack in vec_index l i.

(** Transfer to a matched clause. *)
Definition enter_handler (frame entry : Z) (tag : Z) (payload : list Z) : X unit :=
  let* e := get_eh_catch entry in
  let* f := eh_frame_at frame in
  unwind_call_stack_to (ef_call_depth f) ;;;
  eat_operands (ec_operand_depth e) ;;;
  (if (ec_kind e =? catch_tag) || (ec_kind e =? catch_tag_ref) then
     let* m := the_module in
     let* tg := vec_index (m_tags m) tag in
     let* ft := vec_index (m_types m) (tag_type_index tg) in
     push_payload (param_types ft) payload
   else ret tt) ;;;
  (if (ec_kind e =? catch_tag_ref) || (ec_kind e =? catch_all_ref) then
     let* idx := push_caught_exception tag payload in push_operand (I64 idx)
   else ret tt) ;;;
  leave_eh_frame ;;;
  pop_outer_frames (Z.to_nat (ec_eh_leave_count e)) ;;;
  let* e := get_eh_catch entry in
  set_relative_pc (ec_handler_pc e).

(** The walk over the frames; each iteration that finds no clause pops one. *)
Fixpoint dispatch_loop (fuel : nat) (tag : Z) (payload : list Z) : X unit :=
  let* c := get in
  if negb (has_eh_frames c) then throw wasm_interpreter_exception "unhandled wasm exception" else
  match fuel with
  | O => undefined
  | S fuel' =>
      let frame := vec_size (_eh_stack c) - 1 in
      let* f := eh_frame_at frame in
      let* m := find_catch (Z.to_nat (ef_catch_count f)) (ef_first_catch f) tag in
      match m with
      | Some entry => enter_handler frame entry tag payload
      | None =>
          leave_eh_frame ;;;
          let* f := eh_frame_at frame in
          unwind_call_stack_to (ef_call_depth f) ;;;
          dispatch_loop fuel' tag payload
      end
  end.
Definition dispatch_exception (tag : Z) (payload : list Z) : X unit :=
  let* c := get in dispatch_loop (length (_eh_stack c)) tag payload.

(** Payload words are read as [i64] operands. *)
Fixpoint pop_payload (n : nat) (acc : list Z) : X (list Z) :=
  match n with
  | O => ret acc
  | S n' => let* e := pop_operand in let* v := to_ui64 e in pop_payload n' (v :: acc)
  end.
Definition exec_throw (tag_index : Z) : X unit :=
  let* m := the_module in
  let* tg := vec_index (m_tags m) tag_index in
  let* ft := vec_index (m_types m) (tag_type_index tg) in
  let* payload := pop_payload (length (param_types ft)) [] in
  dispatch_exception tag_index payload.
Definition exec_throw_ref : X unit :=
  let* e := pop_operand in
  let* idx := to_ui32 e in
  if idx =? UINT32_MAX then throw wasm_interpreter_exception "null exception reference" else
  let* ex := get_caught_exception idx in
  dispatch_exception (we_tag_index ex) (we_values ex).
Definition exec_delegate : X unit :=
  let* c := get in
  (if has_eh_frames c then leave_eh_frame else ret tt) ;;; inc_pc 1.

(** Reading the instruction at the program counter. *)
Definition fetch : X opcode :=
  let* p := gets _pc in
  let* m := the_module in
  match p with
  | CodeNull => undefined
  | CodeHalt => ret exit_
  | CodeAt o => vec_index (bytecode m) o
  end.
(** [get_pc()->get<try_table_t>()] *)
Definition fetch_clause : X (Z * Z) :=
  let* op := fetch in
  match op with try_table_ data pc => ret (data, pc) | _ => undefined end.

(** Two descriptor instructions per clause. *)
Fixpoint read_clauses (n : nat) (try_depth : Z) : X unit :=
  match n with
  | O => ret tt
  | S n' =>
      let* cl := fetch_clause in
      inc_pc 1 ;;;
      let* pcd := fetch_clause in
      push_eh_catch {| ec_kind := wrap 8 (Z.shiftr cl.1 24); ec_tag_index := Z.land cl.1 0x00FFFFFF;
                       ec_handler_pc := pcd.2; ec_operand_depth := wrap 32 (try_depth - cl.2);
                       ec_eh_leave_count := pcd.1 |} ;;;
      inc_pc 1 ;;;
      read_clauses n' try_depth
  end.
Definition exec_try_table (num_clauses : Z) : X unit :=
  if num_clauses =? 0 then inc_pc 1 else
  let* depth := call_depth in
  let* first := eh_catches_size in
  push_eh_frame {| ef_call_depth := depth; ef_catch_count := num_clauses; ef_first_catch := first |} ;;;
  inc_pc 1 ;;;
  let* try_depth := operand_size in
  read_clauses (Z.to_nat num_clauses) try_depth.

(** ** Vectors *)
(** A result, or undefined behaviour in the computation of it. *)
Definition push_v128 (r : option Z) : X unit :=
  match r with Some v => push_operand (V128 v) | None => undefined end.

(** [sizeof] an element. *)
Definition lane_size (t : lane) : nat := Z.to_nat (lane_bits t / 8).
(** Bytes read by a vector load, and the vector they make. *)
Definition vec_load_size (op : vec_load) : nat :=
  match op with
  | v128_load => 16
  | v128_load8x8_s | v128_load8x8_u | v128_load16x4_s | v128_load16x4_u | v128_load32x2_s | v128_load32x2_u
  | v128_load64_splat | v128_load64_zero => 8
  | v128_load8_splat => 1 | v128_load16_splat => 2 | v128_load32_splat | v128_load32_zero => 4
  end.
(** [v128_load_extend<T[n], U>]: [n] values of type [u], one behind the other. *)
Fixpoint read_lanes (n : nat) (u : lane) (p : Z) : X (list Z) :=
  match n with
  | O => ret []
  | S n =>
      let* x := on_base (on_alloc (read_unaligned p (lane_size u))) in
      let* r := read_lanes n u (p + Z.of_nat (lane_size u)) in
      ret (cast u x :: r)
  end.
Definition v128_load_extend (t u : lane) (p : Z) : X Z :=
  let* a := read_lanes (lane_count t) u p in ret (merge t a).
Definition v128_load_splat (t : lane) (p : Z) : X Z :=
  let* x := on_base (on_alloc (read_unaligned p (lane_size t))) in ret (splat t x).
Definition v128_load_zero (t : lane) (p : Z) : X Z :=
  let* x := on_base (on_alloc (read_unaligned p (lane_size t))) in
  ret (merge t (x :: repeat 0 (lane_count t - 1))).
Definition vec_load_value (op : vec_load) (p : Z) : X Z :=
  match op with
  | v128_load => on_base (on_alloc (read_unaligned p 16))
  | v128_load8x8_s => v128_load_extend i16 i8 p | v128_load8x8_u => v128_load_extend u16 u8 p
  | v128_load16x4_s => v128_load_extend i32 i16 p | v128_load16x4_u => v128_load_extend u32 u16 p
  | v128_load32x2_s => v128_load_extend i64 i32 p | v128_load32x2_u => v128_load_extend u64 u32 p
  | v128_load8_splat => v128_load_splat u8 p | v128_load16_splat => v128_load_splat u16 p
  | v128_load32_splat => v128_load_splat u32 p | v128_load64_splat => v128_load_splat u64 p
  | v128_load32_zero => v128_load_zero u32 p | v128_load64_zero => v128_load_zero u64 p
  end.
Definition exec_vec_load (op : vec_load) (m : memarg) : X unit :=
  inc_pc 1 ;;;
  let* p := pop_memop_addr_read (mem_offset m) (Z.of_nat (vec_load_size op)) in
  let* v := vec_load_value op p in
  push_operand (V128 v).
Definition exec_v128_store (m : memarg) : X unit :=
  inc_pc 1 ;;;
  let* val := pop_operand in
  let* p := pop_memop_addr_write (mem_offset m) 16 in
  let* v := to_v128 val in
  on_base (on_alloc (write_unaligned p 16 v)).
Definition pop_v128 : X Z := let* e := pop_operand in to_v128 e.

Definition load_lane (op : vec_lane_load) : lane :=
  match op with v128_load8_lane => u8 | v128_load16_lane => u16 | v128_load32_lane => u32 | v128_load64_lane => u64 end.
Definition store_lane (op : vec_lane_store) : lane :=
  match op with v128_store8_lane => u8 | v128_store16_lane => u16 | v128_store32_lane => u32 | v128_store64_lane => u64 end.
Definition exec_vec_load_lane (op : vec_lane_load) (m : memarg) (laneidx : Z) : X unit :=
  let t := load_lane op in
  inc_pc 1 ;;;
  let* val := pop_v128 in
  let* p := pop_memop_addr_read (mem_offset m) (Z.of_nat (lane_size t)) in
  let* x := on_base (on_alloc (read_unaligned p (lane_size t))) in
  push_v128 (set_lane t laneidx x val).
Definition exec_vec_store_lane (op : vec_lane_store) (m : memarg) (laneidx : Z) : X unit :=
  let t := store_lane op in
  inc_pc 1 ;;;
  let* val := pop_v128 in
  let* p := pop_memop_addr_write (mem_offset m) (Z.of_nat (lane_size t)) in
  match get_lane t laneidx val with
  | Some x => on_base (on_alloc (write_unaligned p (lane_size t) x))
  | None => undefined
  end.
Definition exec_shuffle (ls : list Z) : X unit :=
  inc_pc 1 ;;;
  let* c2 := pop_v128 in
  let* c1 := pop_v128 in
  push_v128 (shuffle ls c1 c2).

(** The array's element type and the operand it becomes. *)
Definition extract_lane (op : vec_extract) : lane * (Z -> elem) :=
  match op with
  | i8x16_extract_lane_s => (i8, wI32) | i8x16_extract_lane_u => (u8, wI32)
  | i16x8_extract_lane_s => (i16, wI32) | i16x8_extract_lane_u => (u16, wI32)
  | i32x4_extract_lane => (u32, wI32) | i64x2_extract_lane => (u64, wI64)
  | f32x4_extract_lane => (u32, wF32) | f64x2_extract_lane => (u64, wF64)
  end.
Definition exec_extract_lane (op : vec_extract) (laneidx : Z) : X unit :=
  inc_pc 1 ;;;
  let* c := pop_v128 in
  match get_lane (extract_lane op).1 laneidx c with
  | Some x => push_operand ((extract_lane op).2 x)
  | None => undefined
  end.
Definition replace_lane (op : vec_replace) : lane * (elem -> X Z) :=
  match op with
  | i8x16_replace_lane => (u8, to_ui32) | i16x8_replace_lane => (u16, to_ui32) | i32x4_replace_lane => (u32, to_ui32)
  | i64x2_replace_lane => (u64, to_ui64) | f32x4_replace_lane => (u32, to_fui32) | f64x2_replace_lane => (u64, to_fui64)
  end.
(** The operand is an argument of [v128_replace_lane], which then advances. *)
Definition exec_replace_lane (op : vec_replace) (laneidx : Z) : X unit :=
  let* e := pop_operand in
  let* c1 := (replace_lane op).2 e in
  inc_pc 1 ;;;
  let* c2 := pop_v128 in
  push_v128 (set_lane (replace_lane op).1 laneidx c1 c2).

Definition splat_operand (from : Z) (e : elem) : X Z :=
  if from =? types.i32 then to_ui32 e else if from =? types.i64 then to_ui64 e
  else if from =? types.f32 then to_fui32 e else to_fui64 e.
Definition exec_vec (op : vec_numeric) : X unit :=
  match vec_handler op with
  | Unop f => inc_pc 1 ;;; let* c1 := pop_v128 in push_v128 (f c1)
  | Binop f => inc_pc 1 ;;; let* c2 := pop_v128 in let* c1 := pop_v128 in push_v128 (f c1 c2)
  | Ternop f => inc_pc 1 ;;; let* c3 := pop_v128 in let* c2 := pop_v128 in let* c1 := pop_v128 in push_v128 (f c1 c2 c3)
  | Test f => inc_pc 1 ;;; let* c1 := pop_v128 in push_operand (wI32 (f c1))
  | Shift count_mask f =>
      let* e := pop_operand in
      let* b := to_ui32 e in
      inc_pc 1 ;;; let* c1 := pop_v128 in push_v128 (f (Z.land b count_mask) c1)
  | Splat from t =>
      let* e := pop_operand in
      let* x := splat_operand from e in
      inc_pc 1 ;;; push_operand (V128 (splat t x))
  end.

(** ** Atomics

    Each sub-instruction by what it does: the operand's width and the bytes it
    accesses. *)
Inductive atomic_shape :=
  | AFence | ANotify | AWait
  | ALoad (w : width) (n : nat) | AStore (w : width) (n : nat)
  | ARmw (w : width) (n : nat) (op : Z -> Z -> Z) | ACmpxchg (w : width) (n : nat).
Definition xchg (old val : Z) : Z := val.
Definition shape_of (sub : atomic_sub) : atomic_shape :=
  match sub with
  | atomic_fence => AFence | memory_atomic_notify => ANotify
  | memory_atomic_wait32 | memory_atomic_wait64 => AWait
  | i32_atomic_load => ALoad W32 4 | i64_atomic_load => ALoad W64 8
  | i32_atomic_load8_u => ALoad W32 1 | i32_atomic_load16_u => ALoad W32 2
  | i64_atomic_load8_u => ALoad W64 1 | i64_atomic_load16_u => ALoad W64 2
  | i64_atomic_load32_u => ALoad W64 4 | i32_atomic_store => AStore W32 4
  | i64_atomic_store => AStore W64 8 | i32_atomic_store8 => AStore W32 1
  | i32_atomic_store16 => AStore W32 2 | i64_atomic_store8 => AStore W64 1
  | i64_atomic_store16 => AStore W64 2 | i64_atomic_store32 => AStore W64 4
  | i32_atomic_rmw_add => ARmw W32 4 Z.add | i64_atomic_rmw_add => ARmw W64 8 Z.add
  | i32_atomic_rmw8_add_u => ARmw W32 1 Z.add | i32_atomic_rmw16_add_u => ARmw W32 2 Z.add
  | i64_atomic_rmw8_add_u => ARmw W64 1 Z.add | i64_atomic_rmw16_add_u => ARmw W64 2 Z.add
  | i64_atomic_rmw32_add_u => ARmw W64 4 Z.add | i32_atomic_rmw_sub => ARmw W32 4 Z.sub
  | i64_atomic_rmw_sub => ARmw W64 8 Z.sub | i32_atomic_rmw8_sub_u => ARmw W32 1 Z.sub
  | i32_atomic_rmw16_sub_u => ARmw W32 2 Z.sub | i64_atomic_rmw8_sub_u => ARmw W64 1 Z.sub
  | i64_atomic_rmw16_sub_u => ARmw W64 2 Z.sub | i64_atomic_rmw32_sub_u => ARmw W64 4 Z.sub
  | i32_atomic_rmw_and => ARmw W32 4 Z.land | i64_atomic_rmw_and => ARmw W64 8 Z.land
  | i32_atomic_rmw8_and_u => ARmw W32 1 Z.land | i32_atomic_rmw16_and_u => ARmw W32 2 Z.land
  | i64_atomic_rmw8_and_u => ARmw W64 1 Z.land | i64_atomic_rmw16_and_u => ARmw W64 2 Z.land
  | i64_atomic_rmw32_and_u => ARmw W64 4 Z.land | i32_atomic_rmw_or => ARmw W32 4 Z.lor
  | i64_atomic_rmw_or => ARmw W64 8 Z.lor | i32_atomic_rmw8_or_u => ARmw W32 1 Z.lor
  | i32_atomic_rmw16_or_u => ARmw W32 2 Z.lor | i64_atomic_rmw8_or_u => ARmw W64 1 Z.lor
  | i64_atomic_rmw16_or_u => ARmw W64 2 Z.lor | i64_atomic_rmw32_or_u => ARmw W64 4 Z.lor
  | i32_atomic_rmw_xor => ARmw W32 4 Z.lxor | i64_atomic_rmw_xor => ARmw W64 8 Z.lxor
  | i32_atomic_rmw8_xor_u => ARmw W32 1 Z.lxor | i32_atomic_rmw16_xor_u => ARmw W32 2 Z.lxor
  | i64_atomic_rmw8_xor_u => ARmw W64 1 Z.lxor | i64_atomic_rmw16_xor_u => ARmw W64 2 Z.lxor
  | i64_atomic_rmw32_xor_u => ARmw W64 4 Z.lxor | i32_atomic_rmw_xchg => ARmw W32 4 xchg
  | i64_atomic_rmw_xchg => ARmw W64 8 xchg | i32_atomic_rmw8_xchg_u => ARmw W32 1 xchg
  | i32_atomic_rmw16_xchg_u => ARmw W32 2 xchg | i64_atomic_rmw8_xchg_u => ARmw W64 1 xchg
  | i64_atomic_rmw16_xchg_u => ARmw W64 2 xchg | i64_atomic_rmw32_xchg_u => ARmw W64 4 xchg
  | i32_atomic_rmw_cmpxchg => ACmpxchg W32 4 | i64_atomic_rmw_cmpxchg => ACmpxchg W64 8
  | i32_atomic_rmw8_cmpxchg_u => ACmpxchg W32 1 | i32_atomic_rmw16_cmpxchg_u => ACmpxchg W32 2
  | i64_atomic_rmw8_cmpxchg_u => ACmpxchg W64 1 | i64_atomic_rmw16_cmpxchg_u => ACmpxchg W64 2
  | i64_atomic_rmw32_cmpxchg_u => ACmpxchg W64 4
  end.
Definition to_width (w : width) (e : elem) : X Z := match w with W32 => to_ui32 e | W64 => to_ui64 e end.
Definition of_width (w : width) (v : Z) : elem := match w with W32 => I32 v | W64 => I64 v end.
Definition read_atomic (p : Z) (n : nat) : X Z := on_base (on_alloc (read_unaligned p n)).
Definition write_atomic (p : Z) (n : nat) (v : Z) : X unit := on_base (on_alloc (write_unaligned p n (wrap (8 * Z.of_nat n) v))).
Definition exec_atomic (sub : atomic_sub) (m : memarg) : X unit :=
  inc_pc 1 ;;;
  match shape_of sub with
  | AFence => ret tt
  | ANotify => let* _ := pop_operand in let* _ := pop_operand in push_operand (I32 0)
  | AWait => pop3 ;;; push_operand (I32 1)
  | ALoad w n =>
      let* p := pop_memop_addr_read (mem_offset m) (Z.of_nat n) in
      let* v := read_atomic p n in push_operand (of_width w v)
  | AStore w n =>
      let* e := pop_operand in
      let* val := to_width w e in
      let* p := pop_memop_addr_write (mem_offset m) (Z.of_nat n) in
      write_atomic p n val
  | ARmw w n op =>
      let* e := pop_operand in
      let* val := to_width w e in
      let* p := pop_memop_addr_write (mem_offset m) (Z.of_nat n) in
      let* old := read_atomic p n in
      write_atomic p n (op old (wrap (8 * Z.of_nat n) val)) ;;;
      push_operand (of_width w old)
  | ACmpxchg w n =>
      let* e1 := pop_operand in
      let* replacement := to_width w e1 in
      let* e2 := pop_operand in
      let* expected := to_width w e2 in
      let* p := pop_memop_addr_write (mem_offset m) (Z.of_nat n) in
      let* old := read_atomic p n in
      (if old =? wrap (8 * Z.of_nat n) expected then write_atomic p n replacement else ret tt) ;;;
      push_operand (of_width w old)
  end.

(** ** One instruction *)
Definition step (op : opcode) : X unit :=
  match op with
  | unreachable_ => inc_pc 1 ;;; throw wasm_interpreter_exception "unreachable"
  | nop_ | end_ | block_ | try_ => inc_pc 1
  | exit_ | error_ => ret tt
  | loop_ => on_base validate_read_watermark ;;; inc_pc 1
  | gas_charge_ cost => on_base validate_read_watermark ;;; on_base (gas_charge cost) ;;; inc_pc 1
  | return_ data pc _ => apply_pop_call data (wrap 16 pc)
  | if_ pc => exec_if pc
  | else_ pc => set_relative_pc pc
  | br_ data pc => jump data pc
  | br_if_ data pc stacksz => exec_br_if data pc stacksz
  | br_table_ sz table => exec_br_table sz table
  | br_table_data_ index => inc_pc index
  | call_ index => call index
  | call_indirect_ index => exec_call_indirect index
  | tail_call_ index => tail_call index
  | tail_call_indirect_ index => exec_tail_call_indirect index
  | drop_ => let* _ := pop_operand in inc_pc 1
  | select_ => exec_select
  | get_local_ i => exec_get_local i
  | set_local_ i => exec_set_local i
  | tee_local_ i => exec_tee_local i
  | get_global_ i => exec_get_global i
  | set_global_ i => exec_set_global i
  | load_ o m => exec_load o m
  | store_ o m => exec_store o m
  | current_memory_ => exec_current_memory
  | grow_memory_ => exec_grow_memory
  | i32_const_ v => inc_pc 1 ;;; push_operand (I32 v)
  | i64_const_ v => inc_pc 1 ;;; push_operand (I64 v)
  | f32_const_ v => inc_pc 1 ;;; push_operand (F32 v)
  | f64_const_ v => inc_pc 1 ;;; push_operand (F64 v)
  | eqz_ w => exec_eqz w
  | relop_ w o => exec_relop w o
  | unop_ w o => exec_unop w o
  | binop_ w o => exec_binop w o
  | frelop_ w o => exec_frelop w o
  | funop_ w o => exec_funop w o
  | fbinop_ w o => exec_fbinop w o
  | conv_ o => exec_conv o
  | fconv_ o => exec_fconv o
  | ref_null_ _ => exec_ref_null
  | ref_is_null_ => exec_ref_is_null
  | ref_func_ i => exec_ref_func i
  | table_get_ i => exec_table_get i
  | table_set_ i => exec_table_set i
  | memory_init_ i => exec_memory_init i
  | data_drop_ i => inc_pc 1 ;;; on_base (drop_data i)
  | memory_copy_ => exec_memory_copy
  | memory_fill_ => exec_memory_fill
  | table_init_ i => exec_table_init i
  | elem_drop_ i => inc_pc 1 ;;; on_base (drop_elem i)
  | table_copy_ i => exec_table_copy i
  | table_grow_ i => exec_table_grow i
  | table_size_ i => exec_table_size i
  | table_fill_ i => exec_table_fill i
  | catch_ _ pc | catch_all_ _ pc => set_relative_pc pc
  | delegate_ _ => exec_delegate
  | rethrow_ _ => inc_pc 1 ;;; throw wasm_interpreter_exception "unhandled wasm exception (rethrow)"
  | throw_ tag => exec_throw tag
  | throw_ref_ => exec_throw_ref
  | try_table_ data _ => exec_try_table data
  | vec_load_ o m => exec_vec_load o m
  | v128_store_ m => exec_v128_store m
  | vec_load_lane_ o m i => exec_vec_load_lane o m i
  | vec_store_lane_ o m i => exec_vec_store_lane o m i
  | v128_const_ v => inc_pc 1 ;;; push_operand (V128 v)
  | i8x16_shuffle_ ls => exec_shuffle ls
  | vec_extract_lane_ o i => exec_extract_lane o i
  | vec_replace_lane_ o i => exec_replace_lane o i
  | vec_ o => exec_vec o
  | atomic_op_ o m => exec_atomic o m
  end.

(** ** The dispatch loop *)
Fixpoint run (fuel : nat) : X unit :=
  let* op := fetch in
  match op with
  | exit_ => ret tt
  | _ =>
      match fuel with
      | O => throw timeout_exception "execution timed out"
      | S fuel' => step op ;;; run fuel'
      end
  end.

End Interp.
