(* ===== verification/Handlers.v ===== *)
(** * Invariants of operations, by structure

    An interface between the properties of whole runs and the handlers.  A
    predicate on operations that is closed under sequencing and holds of the
    primitive accesses ([OpInv]) and of the operations that move call frames
    ([CallInv]) holds of every instruction and of the dispatch loop.  The
    invariants are instances; none of them looks at the handlers again. *)
From Stdlib Require Import ZArith Lia Bool String.
From stdpp Require Import base list numbers decidable option gmap.
From S2P Require Import Prelude Types Stack Memory Numeric Softfloat Simd InitExpr Context Interp.
Import Opcode.

(** The operations the handlers perform on the base context. *)
Inductive base_op {H : Type} : forall {A : Type}, M (base H) A -> Prop :=
  | op_read p n : base_op (on_alloc (read_unaligned p n))
  | op_write p n v : base_op (on_alloc (write_unaligned p n v))
  | op_validate sz p n : base_op (on_alloc (validate_pointer sz p n))
  | op_track_max e : base_op (track_read_max e)
  | op_track_or e : base_op (track_read_or e)
  | op_watermark : base_op validate_read_watermark
  | op_grow n : base_op (grow_linear_memory n)
  | op_init_memory x d s n : base_op (init_linear_memory x d s n)
  | op_drop_data x : base_op (drop_data x)
  | op_table_elem i t : base_op (table_elem i t)
  | op_table_load t i : base_op (table_load t i)
  | op_table_store t i e : base_op (table_store t i e)
  | op_table_size t : base_op (get_table_size t)
  | op_table_base t : base_op (get_table_base t)
  | op_table_ptr i n t : base_op (get_table_ptr i n t)
  | op_init_table x d s n t : base_op (init_table x d s n t)
  | op_drop_elem x : base_op (drop_elem x)
  | op_table_grow t n e : base_op (table_grow t n e)
  | op_table_fill t i e n : base_op (table_fill t i e n).

(** And on the operand stack. *)
Inductive os_op : forall {A : Type}, M (stack elem) A -> Prop :=
  | op_push d e : os_op (push d e)
  | op_pop : os_op pop
  | op_peek i : os_op (peek i)
  | op_poke i e : os_op (poke i e)
  | op_get i : os_op (get_at i)
  | op_set i e : os_op (set_at i e)
  | op_eat i : os_op (eat i)
  | op_compact i : os_op (compact i)
  | op_compact_n i n : 0 < n -> os_op (compact_n i n).

(** Updates of the program counter, the locals base and the handlers. *)
Definition keeps_core {H} (f : ctx H -> ctx H) : Prop := forall c,
  _base (f c) = _base c /\ _os (f c) = _os c /\ _as (f c) = _as c /\ _as_index (f c) = _as_index c /\
  _os_index (f c) = _os_index c /\ _remaining_call_depth (f c) = _remaining_call_depth c /\
  _eh_exn_stack (f c) = _eh_exn_stack c.

(** [respects P m]: the operation [m] has the property [P]. *)
Definition respects {H : Type} (P : forall A, M (ctx H) A -> Prop) {A} (m : M (ctx H) A) : Prop := P A m.

Class OpInv {H : Type} (P : forall A, M (ctx H) A -> Prop) : Prop := {
  inv_ret A (a : A) : respects P (ret a);
  inv_bind A B (m : M (ctx H) A) (k : A -> M (ctx H) B) :
    respects P m -> (forall a, respects P (k a)) -> respects P (bind m k);
  inv_throw A k msg : respects P (throw k msg : M (ctx H) A);
  inv_undefined A : respects P (undefined : M (ctx H) A);
  inv_gets A (f : ctx H -> A) : respects P (gets f);
  inv_base A (m : M (base H) A) : base_op m -> respects P (on_base m);
  inv_os A (m : M (stack elem) A) : os_op m -> respects P (on_os m);
  inv_modify (f : ctx H -> ctx H) : keeps_core f -> respects P (modify f) }.

Create HintDb inv.
#[export] Hint Constructors base_op os_op : inv.
#[export] Hint Extern 1 (keeps_core _) => (intros ?; cbn; auto 8) : inv.
#[export] Hint Extern 0 (OpInv _) => typeclasses eauto : inv.
#[export] Hint Resolve inv_ret inv_throw inv_undefined inv_gets inv_base inv_os inv_modify : inv.

(** Decompose an operation; the leaves are known to the [inv] database. *)
Ltac inv_step :=
  match goal with
  | |- respects _ (bind _ _) => apply inv_bind; [|intro]
  | |- respects _ (if ?b then _ else _) => destruct b
  | |- respects _ (match ?x with _ => _ end) => destruct x
  end.
Ltac inv_op := repeat (inv_step; cbv zeta beta); auto with inv.

Section Generic.
Context {H : Type} (P : forall A, M (ctx H) A -> Prop) {I : OpInv P}.
Abbreviation ok := (respects P).

Lemma inv_get : ok get. Proof. exact (inv_gets _ (fun c => c)). Qed.
Lemma inv_assert b k msg : ok (psizam_assert b k msg). Proof. unfold psizam_assert. inv_op. Qed.
Lemma inv_vec_index {A} (l : list A) i : ok (vec_index l i). Proof. unfold vec_index. inv_op. Qed.
Lemma inv_vec_at {A} (l : list A) i : ok (vec_at l i). Proof. unfold vec_at. inv_op. Qed.
#[local] Hint Resolve inv_get inv_assert inv_vec_index inv_vec_at : inv.

Lemma inv_push e : ok (push_operand e). Proof. unfold push_operand. auto with inv. Qed.
Lemma inv_pop : ok pop_operand. Proof. unfold pop_operand. auto with inv. Qed.
Lemma inv_peek i : ok (peek_operand i). Proof. unfold peek_operand. auto with inv. Qed.
Lemma inv_poke i e : ok (poke_operand i e). Proof. unfold poke_operand. auto with inv. Qed.
Lemma inv_get_operand i : ok (get_operand i). Proof. unfold get_operand. inv_op. Qed.
Lemma inv_set_operand i e : ok (set_operand i e). Proof. unfold set_operand. inv_op. Qed.
Lemma inv_eat i : ok (eat_operands i). Proof. unfold eat_operands. auto with inv. Qed.
Lemma inv_compact i : ok (compact_operand i). Proof. unfold compact_operand. auto with inv. Qed.
Lemma inv_size : ok operand_size. Proof. unfold operand_size. auto with inv. Qed.
Lemma inv_call_depth : ok call_depth. Proof. unfold call_depth. auto with inv. Qed.
Lemma inv_module : ok the_module. Proof. unfold the_module. auto with inv. Qed.
Lemma inv_set_pc p : ok (set_pc p). Proof. unfold set_pc. auto with inv. Qed.
#[local] Hint Resolve inv_push inv_pop inv_peek inv_poke inv_get_operand inv_set_operand inv_eat inv_compact
  inv_size inv_call_depth inv_module inv_set_pc : inv.
Lemma inv_set_relative_pc o : ok (set_relative_pc o). Proof. unfold set_relative_pc. inv_op. Qed.
Lemma inv_inc_pc n : ok (inc_pc n). Proof. unfold inc_pc. inv_op. Qed.
#[local] Hint Resolve inv_set_relative_pc inv_inc_pc : inv.

Lemma inv_to_ui32 e : ok (to_ui32 e). Proof. destruct e; cbn; auto with inv. Qed.
Lemma inv_to_i32 e : ok (to_i32 e). Proof. destruct e; cbn; auto with inv. Qed.
Lemma inv_to_ui64 e : ok (to_ui64 e). Proof. destruct e; cbn; auto with inv. Qed.
Lemma inv_to_i64 e : ok (to_i64 e). Proof. destruct e; cbn; auto with inv. Qed.
Lemma inv_to_fui32 e : ok (to_fui32 e). Proof. destruct e; cbn; auto with inv. Qed.
Lemma inv_to_fui64 e : ok (to_fui64 e). Proof. destruct e; cbn; auto with inv. Qed.
Lemma inv_to_v128 e : ok (to_v128 e). Proof. destruct e; cbn; auto with inv. Qed.
Lemma inv_is_true e : ok (is_true e). Proof. destruct e; cbn; auto with inv. Qed.
#[local] Hint Resolve inv_to_ui32 inv_to_i32 inv_to_ui64 inv_to_i64 inv_to_fui32 inv_to_fui64 inv_to_v128 inv_is_true : inv.

Lemma inv_get_global i : ok (get_global i). Proof. unfold get_global. inv_op. Qed.
Lemma inv_function_type m i : ok (get_function_type m i). Proof. unfold get_function_type. inv_op. Qed.
Lemma inv_function_stack_size m i : ok (get_function_stack_size m i). Proof. unfold get_function_stack_size. inv_op. Qed.
Lemma inv_function_pc m i : ok (get_function_pc m i). Proof. unfold get_function_pc. inv_op. Qed.
#[local] Hint Resolve inv_get_global inv_function_type inv_function_stack_size inv_function_pc : inv.

(** The pieces of calls that do not touch frames. *)
Lemma inv_type_check ft : ok (type_check ft).
Proof. unfold type_check. induction (param_types ft); cbn [type_check_loop]; inv_op. Qed.
Lemma inv_zero_local t : ok (zero_local t). Proof. unfold zero_local. inv_op. Qed.
#[local] Hint Resolve inv_zero_local : inv.
Lemma inv_push_locals n t : ok (push_locals n t). Proof. induction n; cbn [push_locals]; inv_op. Qed.
#[local] Hint Resolve inv_push_locals : inv.
Lemma inv_setup_locals i : ok (setup_locals i).
Proof. unfold setup_locals. inv_op. induction (fb_locals a0); cbn [setup_locals_loop]; inv_op. Qed.
Lemma inv_to_native t e : ok (to_native t e). Proof. unfold to_native. inv_op. Qed.
#[local] Hint Resolve inv_to_native : inv.
Lemma inv_pop_native_args ps acc : ok (pop_native_args ps acc).
Proof. revert acc. induction ps; intros acc; cbn [pop_native_args]; inv_op. Qed.
Lemma inv_push_native_result r v : ok (push_native_result r v). Proof. unfold push_native_result. inv_op. Qed.
Lemma inv_get_entry i : ok (get_entry i). Proof. unfold get_entry. inv_op. Qed.
Lemma inv_pop_n n acc : ok (pop_n n acc). Proof. revert acc. induction n; intros acc; cbn [pop_n]; inv_op. Qed.
Lemma inv_push_all l : ok (push_all l). Proof. induction l; cbn [push_all]; inv_op. Qed.
Lemma inv_type_check_args ft args : ok (type_check_args ft args). Proof. unfold type_check_args. inv_op. Qed.
End Generic.
#[export] Hint Resolve inv_get inv_assert inv_vec_index inv_vec_at inv_push inv_pop inv_peek inv_poke
  inv_get_operand inv_set_operand inv_eat inv_compact inv_size inv_call_depth inv_module inv_set_pc
  inv_set_relative_pc inv_inc_pc inv_to_ui32 inv_to_i32 inv_to_ui64 inv_to_i64 inv_to_fui32 inv_to_fui64
  inv_to_v128 inv_is_true inv_get_global inv_function_type inv_function_stack_size inv_function_pc inv_type_check
  inv_zero_local inv_push_locals inv_setup_locals inv_to_native inv_pop_native_args inv_push_native_result
  inv_get_entry inv_pop_n inv_push_all inv_type_check_args : inv.

(** The operations that write globals, spend gas, run host code, move frames or keep a
    caught exception.
    [inv_cost] restricts the charges of the metering instruction. *)
Class CallInv {H : Type} (P : forall A, M (ctx H) A -> Prop) := {
  inv_ops :: OpInv P;
  inv_cost : Z -> Prop;
  inv_set_global i e : respects P (set_global i e);
  inv_gas_charge n : inv_cost n -> respects P (on_base (gas_charge n));
  inv_charge_prologue i : respects P (charge_prologue i);
  inv_push_call x i : respects P (push_call x i);
  inv_pop_call n r : respects P (apply_pop_call n r);
  inv_call_host i : respects P (call_host i);
  inv_tail_call i : respects P (tail_call i);
  inv_unwind d : respects P (unwind_call_stack_to d);
  inv_push_caught t v : respects P (push_caught_exception t v) }.
#[export] Hint Extern 0 (CallInv _) => typeclasses eauto : inv.

(** Instructions whose metering cost is admissible. *)
Definition op_ok (cost : Z -> Prop) (op : opcode) : Prop :=
  match op with gas_charge_ n => cost n | _ => True end.

Section Calls.
Context {SF : SoftFloat} {HF : HostFloat} {H : Type} (P : forall A, M (ctx H) A -> Prop)
  {I : CallInv P}.
Abbreviation ok := (respects P).
#[local] Hint Resolve inv_set_global inv_gas_charge inv_charge_prologue inv_push_call inv_pop_call inv_call_host
  inv_tail_call inv_unwind inv_push_caught : inv.

Lemma inv_call_local i : ok (call_local i). Proof. unfold call_local. inv_op. Qed.
#[local] Hint Resolve inv_call_local : inv.
Lemma inv_call i : ok (call i). Proof. unfold call. inv_op. Qed.
Lemma inv_jump d p : ok (jump d p). Proof. unfold jump. inv_op. Qed.
#[local] Hint Resolve inv_call inv_jump : inv.

Lemma inv_current_eh_frame : ok current_eh_frame. Proof. unfold current_eh_frame. inv_op. Qed.
Lemma inv_push_eh_frame f : ok (push_eh_frame f). Proof. unfold push_eh_frame. inv_op. Qed.
Lemma inv_pop_eh_frame : ok pop_eh_frame. Proof. unfold pop_eh_frame. inv_op. Qed.
Lemma inv_push_eh_catch e : ok (push_eh_catch e). Proof. unfold push_eh_catch. inv_op. Qed.
Lemma inv_get_eh_catch i : ok (get_eh_catch i). Proof. unfold get_eh_catch. inv_op. Qed.
Lemma inv_trim n : ok (trim_eh_catches n). Proof. unfold trim_eh_catches. inv_op. Qed.
Lemma inv_get_caught i : ok (get_caught_exception i). Proof. unfold get_caught_exception. inv_op. Qed.
Lemma inv_eh_catches_size : ok eh_catches_size. Proof. unfold eh_catches_size. inv_op. Qed.
#[local] Hint Resolve inv_current_eh_frame inv_push_eh_frame inv_pop_eh_frame inv_push_eh_catch inv_get_eh_catch
  inv_trim inv_get_caught inv_eh_catches_size : inv.
Lemma inv_leave_eh_frame : ok leave_eh_frame. Proof. unfold leave_eh_frame. inv_op. Qed.
#[local] Hint Resolve inv_leave_eh_frame : inv.
Lemma inv_leave_eh_frames n : ok (leave_eh_frames n). Proof. induction n; cbn [leave_eh_frames]; inv_op. Qed.
#[local] Hint Resolve inv_leave_eh_frames : inv.

Lemma inv_fp : ok fp. Proof. unfold fp. inv_op. Qed.
Lemma inv_unary dec enc f : (forall e, ok (dec e)) -> (forall v, ok (f v)) -> ok (unary dec enc f).
Proof. intros. unfold unary. inv_op. Qed.
Lemma inv_binary dec enc f : (forall e, ok (dec e)) -> (forall l r, ok (f l r)) -> ok (binary dec enc f).
Proof. intros. unfold binary. inv_op. Qed.
Lemma inv_i32_binop op l r : ok (i32_binop op l r). Proof. unfold i32_binop. destruct op; inv_op. Qed.
Lemma inv_i64_binop op l r : ok (i64_binop op l r). Proof. unfold i64_binop. destruct op; inv_op. Qed.
Lemma inv_trunc_int m w t v : ok (trunc_int m w t v). Proof. unfold trunc_int, psizam_trunc_int. inv_op. Qed.
#[local] Hint Resolve inv_fp inv_unary inv_binary inv_i32_binop inv_i64_binop inv_trunc_int : inv.

Lemma inv_compute_effective o : ok (compute_effective o). Proof. unfold compute_effective. inv_op. Qed.
#[local] Hint Resolve inv_compute_effective : inv.
Lemma inv_addr_read o n : ok (pop_memop_addr_read o n). Proof. unfold pop_memop_addr_read. inv_op. Qed.
Lemma inv_addr_write o n : ok (pop_memop_addr_write o n). Proof. unfold pop_memop_addr_write. inv_op. Qed.
Lemma inv_store_value op e : ok (store_value op e). Proof. destruct op; cbn; auto with inv. Qed.
Lemma inv_peek_ui32 i : ok (peek_ui32 i). Proof. unfold peek_ui32. inv_op. Qed.
Lemma inv_pop3 : ok pop3. Proof. unfold pop3. inv_op. Qed.
Lemma inv_resolve_indirect i : ok (resolve_indirect i). Proof. unfold resolve_indirect. inv_op. Qed.
#[local] Hint Resolve inv_addr_read inv_addr_write inv_store_value inv_peek_ui32 inv_pop3 inv_resolve_indirect : inv.

Lemma inv_eh_frame_at i : ok (eh_frame_at i). Proof. unfold eh_frame_at. inv_op. Qed.
#[local] Hint Resolve inv_eh_frame_at : inv.
Lemma inv_find_catch n i t : ok (find_catch n i t).
Proof. revert i. induction n; intros i; cbn [find_catch]; inv_op. Qed.
Lemma inv_push_payload ps vs : ok (push_payload ps vs).
Proof. revert ps. induction vs; intros ps; cbn [push_payload]; inv_op. Qed.
Lemma inv_pop_outer n : ok (pop_outer_frames n). Proof. induction n; cbn [pop_outer_frames]; inv_op. Qed.
#[local] Hint Resolve inv_find_catch inv_push_payload inv_pop_outer : inv.
Lemma inv_enter_handler f e t p : ok (enter_handler f e t p). Proof. unfold enter_handler. inv_op. Qed.
#[local] Hint Resolve inv_enter_handler : inv.
Lemma inv_dispatch_loop n t p : ok (dispatch_loop n t p). Proof. induction n; cbn [dispatch_loop]; inv_op. Qed.
#[local] Hint Resolve inv_dispatch_loop : inv.
Lemma inv_dispatch t p : ok (dispatch_exception t p). Proof. unfold dispatch_exception. inv_op. Qed.
Lemma inv_pop_payload n acc : ok (pop_payload n acc).
Proof. revert acc. induction n; intros acc; cbn [pop_payload]; inv_op. Qed.
Lemma inv_fetch : ok fetch. Proof. unfold fetch. inv_op. Qed.
#[local] Hint Resolve inv_dispatch inv_pop_payload inv_fetch : inv.
Lemma inv_fetch_clause : ok fetch_clause. Proof. unfold fetch_clause. inv_op. Qed.
#[local] Hint Resolve inv_fetch_clause : inv.
Lemma inv_read_clauses n d : ok (read_clauses n d). Proof. induction n; cbn [read_clauses]; inv_op. Qed.
#[local] Hint Resolve inv_read_clauses : inv.

Lemma inv_push_v128 r : ok (push_v128 r). Proof. unfold push_v128. inv_op. Qed.
Lemma inv_pop_v128 : ok pop_v128. Proof. unfold pop_v128. inv_op. Qed.
Lemma inv_read_lanes n u p : ok (read_lanes n u p). Proof. revert p. induction n; intros p; cbn [read_lanes]; inv_op. Qed.
#[local] Hint Resolve inv_push_v128 inv_pop_v128 inv_read_lanes : inv.
Lemma inv_vec_load_value o p : ok (vec_load_value o p).
Proof. destruct o; cbn [vec_load_value]; unfold v128_load_extend, v128_load_splat, v128_load_zero; inv_op. Qed.
Lemma inv_replace_lane o e : ok ((replace_lane o).2 e). Proof. destruct o; cbn; auto with inv. Qed.
Lemma inv_splat_operand t e : ok (splat_operand t e). Proof. unfold splat_operand. inv_op. Qed.
Lemma inv_to_width w e : ok (to_width w e). Proof. destruct w; cbn; auto with inv. Qed.
Lemma inv_read_atomic p n : ok (read_atomic p n). Proof. unfold read_atomic. auto with inv. Qed.
Lemma inv_write_atomic p n v : ok (write_atomic p n v). Proof. unfold write_atomic. auto with inv. Qed.
#[local] Hint Resolve inv_vec_load_value inv_replace_lane inv_splat_operand inv_to_width inv_read_atomic inv_write_atomic : inv.

(** Every instruction. *)
Lemma inv_instr op : op_ok (inv_cost (P:=P)) op -> ok (step op).
Proof.
  intros Ho. destruct op; cbn [step op_ok] in *;
    unfold exec_if, exec_br_if, exec_br_table, exec_call_indirect, exec_tail_call_indirect, exec_select,
      exec_get_local, exec_set_local, exec_tee_local, exec_get_global, exec_set_global, exec_load, exec_store,
      exec_current_memory, exec_grow_memory, exec_memory_init, exec_memory_copy, exec_memory_fill,
      exec_table_init, exec_table_copy, exec_table_get, exec_table_set, exec_ref_null, exec_ref_is_null,
      exec_ref_func, exec_table_grow, exec_table_size, exec_table_fill, exec_conv, exec_fconv, exec_relop,
      exec_eqz, exec_unop, exec_binop, exec_frelop, exec_funop, exec_fbinop, exec_throw, exec_throw_ref,
      exec_delegate, exec_try_table, exec_vec_load, exec_v128_store, exec_vec_load_lane, exec_vec_store_lane,
      exec_shuffle, exec_extract_lane, exec_replace_lane, exec_vec, exec_atomic; inv_op.
  apply inv_gas_charge, Ho.
Qed.

(** The dispatch loop, when every cost is admissible. *)
Lemma inv_run n : (forall op, op_ok (inv_cost (P:=P)) op) -> ok (run n).
Proof.
  intros Ho. induction n as [|n IH]; cbn [run]; (apply inv_bind; [apply inv_fetch|intros op]);
    destruct op; auto with inv; (apply inv_bind; [apply inv_instr, Ho|auto]).
Qed.
End Calls.
