(* ===== verification/Demo.v ===== *)
(** * A small module

    One module and the context [reset] makes of it, on which the witnesses of
    the theorems evaluate the interpreter: a recursive factorial, a function
    that grows memory and stores into it, one that throws into its own scope, an
    immutable and a mutable global, and a table. *)
From Stdlib Require Import ZArith Lia Bool String.
From stdpp Require Import base list numbers decidable option gmap.
From S2P Require Import Prelude Types Stack Memory Numeric Softfloat InitExpr Context Interp.
Import Opcode.

Definition demo_type (params rets : list Z) : func_type :=
  finalize_returns
    {| form := types.func; param_types := params; return_types := rets;
       sig_hash := compute_sig_hash {| form := types.func; param_types := params; return_types := rets;
                                       sig_hash := 0; return_count := 0; return_type := 0 |};
       return_count := 0; return_type := 0 |}.

(** [fac(n) = n == 0 ? 1 : n * fac(n - 1)], at offset 0. *)
Definition fac_code : list opcode := [
  get_local_ 0; eqz_ W32; if_ 5; i32_const_ 1; return_ 1 1 0;
  get_local_ 0; get_local_ 0; i32_const_ 1; binop_ W32 sub; call_ 0; binop_ W32 mul; return_ 1 1 0 ].
(** [memory.grow(1); mem[p] = 42; global1 = mem[p]; return global1], at offset 12. *)
Definition mem_code : list opcode := [
  i32_const_ 1; grow_memory_; drop_;
  get_local_ 0; i32_const_ 42; store_ i32_store {| flags_align := 2; mem_offset := 0 |};
  get_local_ 0; load_ i32_load {| flags_align := 2; mem_offset := 0 |}; set_global_ 1;
  get_global_ 1; return_ 1 1 0 ].
(** [try_table (catch tag0 l) { throw tag0 (7) } l: return payload], at offset 23. *)
Definition throw_code : list opcode := [
  try_table_ 1 0; try_table_ 0 0; try_table_ 0 28; i64_const_ 7; throw_ 0; return_ 0 1 0 ].

(** Bulk instructions, at offsets 29 and 30. *)
Definition bulk_code : list opcode := [memory_copy_; memory_fill_].

Definition demo_body (off : Z) : function_body :=
  {| fb_wasm_body_bytes := 10; fb_locals := []; fb_code := off; fb_stack_size := 1; fb_prologue_gas_extra := 0 |}.
Definition const_expr (v : Z) : init_expr :=
  {| ie_value := v; ie_opcode := InitExpr.op_i32_const; ie_raw_expr := [] |}.
Definition demo_limits (lo hi : Z) : resizable_limits := {| lim_flags := true; lim_initial := lo; lim_maximum := hi |}.

Definition demo_module : module := {|
  m_start := UINT32_MAX;
  m_types := [demo_type [types.i32] [types.i32]; demo_type [] [types.i64]; demo_type [types.i64] []];
  m_imports := []; m_functions := [0; 0; 1];
  m_tables := [{| element_type := types.funcref; tt_limits := demo_limits 4 8 |}];
  m_memories := [{| mt_limits := demo_limits 1 3; Types.is_memory64 := false |}];
  m_globals := [{| gv_type := {| content_type := types.i32; mutability := false |}; gv_init := const_expr 17 |};
                {| gv_type := {| content_type := types.i32; mutability := true |}; gv_init := const_expr 0 |}];
  m_exports := []; m_elements := [];
  m_code := [demo_body 0; demo_body 12; demo_body 23];
  m_data := [{| ds_index := 0; ds_offset := const_expr 8; ds_passive := false; ds_data := [1; 2; 3] |}];
  m_tags := [{| tag_attribute := 0; tag_type_index := 2 |}];
  m_import_functions := []; m_num_imported_tables := 0;
  m_num_imported_memories := 0; m_num_imported_globals := 0; m_stack_limit_is_bytes := false; m_error := None;
  bytecode := fac_code ++ mem_code ++ throw_code ++ bulk_code |}.

Definition fresh_base (m : module) : base unit := {|
  _mod := m; _wasm_alloc := make_guarded 4096; _max_pages := max_pages; _table := [];
  _table_inline := false; _table_data := []; _table_sizes := []; _globals := [];
  _dropped_elems := []; _dropped_data := []; _fp := softfloat;
  _gas := {| consumed := 0; deadline := UINT64_MAX; handler := None |};
  _mem_mode := guarded; _checked_kind := strict; _read_watermark := 0; _host := tt |}.
Definition fresh_ctx (m : module) : ctx unit := {|
  _base := fresh_base m; _os := stack_make elem_default 8; _pc := CodeNull; _as_index := 0; _os_index := 0;
  _exiting := false; _last_op_index := 0; _as := stack_make frame_default 251;
  _remaining_call_depth := 250; _eh_stack := []; _eh_catches := []; _eh_exn_stack := [] |}.

(** The state an operation leaves, for closed runs. *)
Definition end_state {S A} (o : outcome S A) (d : S) : S := match o with Ok _ s | Throw _ s => s | UB => d end.

Definition demo_ctx : ctx unit := Eval vm_compute in end_state (reset (fresh_ctx demo_module)) (fresh_ctx demo_module).

(** Libraries for the closed runs; the demo does no floating point. *)
#[global] Instance demo_sf : SoftFloat := nan_lib.
#[global] Instance demo_hf : HostFloat := {|
  hf_unop := fun _ _ a => a; hf_binop := fun _ _ a _ => a; hf_promote := fun a => a; hf_demote := fun a => a;
  hf_of_int := fun _ _ a => a; hf_cast := fun _ _ a => a;
  hf_madd := fun _ a _ _ => a; hf_nmadd := fun _ a _ _ => a |}.

Definition demo_run (fuel : nat) (f : Z) (args : list elem) : outcome (ctx unit) (option elem) :=
  execute (run fuel) f args demo_ctx.

(** The result, the pages of memory and the gas of a run. *)
Definition demo_result (o : outcome (ctx unit) (option elem)) : option elem * Z * Z :=
  match o with
  | Ok r c => (r, page (_wasm_alloc (_base c)), consumed (_gas (_base c)))
  | _ => (None, -1, -1)
  end.

Example demo_fac : demo_result (demo_run 200 0 [I32 5]) = (Some (I32 120), 1, 60).
Proof. vm_compute. reflexivity. Qed.
Example demo_mem : demo_result (demo_run 200 1 [I32 70000]) = (Some (I32 42), 2, 10).
Proof. vm_compute. reflexivity. Qed.
(** The exception reaches the clause, which has been destroyed when its target is read
    ([dispatch_undefined] of [Exceptions]). *)
Example demo_throw : demo_run 200 2 [] = UB.
Proof. vm_compute. reflexivity. Qed.

(** A context stopped before an instruction of [mem]: entered by hand as
    [call_local] leaves it. *)
Definition in_mem : ctx unit := Eval vm_compute in
  end_state ((push_operand (I32 70000) ;;; set_pc (CodeAt 0) ;;; call_local 1) demo_ctx) demo_ctx.
