(* ===== verification/SimdSpec.v ===== *)
(** * What the vector instructions compute

    A reference for the integer vector instructions, on lanes read as WebAssembly
    reads them, and the proof that every handler computes it, but for the lanes on
    which the C++ expression overflows. *)
From Stdlib Require Import ZArith Lia Bool String.
From stdpp Require Import base list numbers decidable option.
From S2P Require Import Prelude Types Numeric Softfloat Simd SimdLanes Demo.
Import Opcode.

(** ** WebAssembly's lane operators

    On unsigned [n]-bit values, as the specification defines them. *)
Definition iadd (n a b : Z) : Z := wrap n (a + b).
Definition isub (n a b : Z) : Z := wrap n (a - b).
Definition imul (n a b : Z) : Z := wrap n (a * b).
Definition ineg (n a : Z) : Z := wrap n (- a).
Definition iabs (n a : Z) : Z := wrap n (Z.abs (signed n a)).
Definition imin_u (a b : Z) : Z := Z.min a b.
Definition imax_u (a b : Z) : Z := Z.max a b.
Definition imin_s (n a b : Z) : Z := wrap n (Z.min (signed n a) (signed n b)).
Definition imax_s (n a b : Z) : Z := wrap n (Z.max (signed n a) (signed n b)).
Definition sat_u (n x : Z) : Z := Z.max 0 (Z.min x (2 ^ n - 1)).
Definition sat_s (n x : Z) : Z := wrap n (Z.max (- 2 ^ (n - 1)) (Z.min x (2 ^ (n - 1) - 1))).
Definition iavgr_u (a b : Z) : Z := (a + b + 1) / 2.
Definition iq15mulrsat_s (a b : Z) : Z := sat_s 16 ((signed 16 a * signed 16 b + 2 ^ 14) / 2 ^ 15).
Definition ishl (n a k : Z) : Z := wrap n (a * 2 ^ k).
Definition ishr_u (a k : Z) : Z := a / 2 ^ k.
Definition ishr_s (n a k : Z) : Z := wrap n (signed n a / 2 ^ k).
Definition all_ones (n : Z) (b : bool) : Z := if b then 2 ^ n - 1 else 0.

(** The reference of an instruction: a vector of one, two or three vectors, a number, or a
    vector of a vector and a count below the number of bits of a lane. *)
Inductive reference :=
  | RUn (f : Z -> Z) | RBin (f : Z -> Z -> Z) | RTern (f : Z -> Z -> Z -> Z) | RTest (f : Z -> Z) | RShift (n : Z) (f : Z -> Z -> Z).
(** Lane by lane. *)
Definition each1 (n : Z) (f : Z -> Z) : reference := RUn (fun c => pack n (map f (raw n c))).
Definition each2 (n : Z) (f : Z -> Z -> Z) : reference := RBin (lift2 n f).
Definition shift (n : Z) (f : Z -> Z -> Z) : reference := RShift n (fun k c => pack n (map (fun a => f a k) (raw n c))).
Definition rel_u (n : Z) (f : Z -> Z -> bool) : reference := each2 n (fun a b => all_ones n (f a b)).
Definition rel_s (n : Z) (f : Z -> Z -> bool) : reference := each2 n (fun a b => all_ones n (f (signed n a) (signed n b))).
(** Lanes of [2 * n] bits from lanes of [n] bits; [s] reads them signed. *)
Definition sgn (s : bool) (n x : Z) : Z := if s then signed n x else x.
Definition part (high : bool) (l : list Z) : list Z := if high then drop (length l / 2) l else take (length l / 2) l.
Definition wide1 (s high : bool) (n : Z) : reference := RUn (fun c => pack (2 * n) (map (fun x => wrap (2 * n) (sgn s n x)) (part high (raw n c)))).
Definition wide2 (s high : bool) (n : Z) : reference :=
  RBin (fun c1 c2 => pack (2 * n) (map (fun p => wrap (2 * n) (sgn s n p.1 * sgn s n p.2)) (zip (part high (raw n c1)) (part high (raw n c2))))).
Definition pairwise (s : bool) (n : Z) : reference :=
  RUn (fun c => pack (2 * n) (map (fun p => wrap (2 * n) (sgn s n p.1 + sgn s n p.2)) (pairs (raw n c)))).
Definition narrowing (n : Z) (f : Z -> Z) : reference :=
  RBin (fun c1 c2 => pack n (map (fun x => f (signed (2 * n) x)) (raw (2 * n) c1 ++ raw (2 * n) c2))).
Definition dots (c1 c2 : Z) : Z :=
  pack 32 (map (fun p => wrap 32 (signed 16 p.1.1 * signed 16 p.2.1 + signed 16 p.1.2 * signed 16 p.2.2)) (zip (pairs (raw 16 c1)) (pairs (raw 16 c2)))).
Definition every (n : Z) : reference := RTest (fun c => b2z (forallb (fun x => negb (x =? 0)) (raw n c))).
(** The sign bits, the one of lane [i] as bit [i]. *)
Definition signs (n : Z) : reference := RTest (fun c => fold_right (fun x acc => b2z (2 ^ (n - 1) <=? x) + 2 * acc) 0 (raw n c)).

(** ** The integer instructions *)
Definition reference_of (op : vec_numeric) : option reference :=
  match op with
  | i8x16_eq => Some (rel_u 8 Z.eqb) | i8x16_ne => Some (rel_u 8 (fun a b => negb (a =? b)))
  | i8x16_lt_s => Some (rel_s 8 Z.ltb) | i8x16_lt_u => Some (rel_u 8 Z.ltb)
  | i8x16_gt_s => Some (rel_s 8 Z.gtb) | i8x16_gt_u => Some (rel_u 8 Z.gtb)
  | i8x16_le_s => Some (rel_s 8 Z.leb) | i8x16_le_u => Some (rel_u 8 Z.leb)
  | i8x16_ge_s => Some (rel_s 8 Z.geb) | i8x16_ge_u => Some (rel_u 8 Z.geb)
  | i16x8_eq => Some (rel_u 16 Z.eqb) | i16x8_ne => Some (rel_u 16 (fun a b => negb (a =? b)))
  | i16x8_lt_s => Some (rel_s 16 Z.ltb) | i16x8_lt_u => Some (rel_u 16 Z.ltb)
  | i16x8_gt_s => Some (rel_s 16 Z.gtb) | i16x8_gt_u => Some (rel_u 16 Z.gtb)
  | i16x8_le_s => Some (rel_s 16 Z.leb) | i16x8_le_u => Some (rel_u 16 Z.leb)
  | i16x8_ge_s => Some (rel_s 16 Z.geb) | i16x8_ge_u => Some (rel_u 16 Z.geb)
  | i32x4_eq => Some (rel_u 32 Z.eqb) | i32x4_ne => Some (rel_u 32 (fun a b => negb (a =? b)))
  | i32x4_lt_s => Some (rel_s 32 Z.ltb) | i32x4_lt_u => Some (rel_u 32 Z.ltb)
  | i32x4_gt_s => Some (rel_s 32 Z.gtb) | i32x4_gt_u => Some (rel_u 32 Z.gtb)
  | i32x4_le_s => Some (rel_s 32 Z.leb) | i32x4_le_u => Some (rel_u 32 Z.leb)
  | i32x4_ge_s => Some (rel_s 32 Z.geb) | i32x4_ge_u => Some (rel_u 32 Z.geb)
  | i64x2_eq => Some (rel_u 64 Z.eqb) | i64x2_ne => Some (rel_u 64 (fun a b => negb (a =? b)))
  | i64x2_lt_s => Some (rel_s 64 Z.ltb)
  | i64x2_gt_s => Some (rel_s 64 Z.gtb)
  | i64x2_le_s => Some (rel_s 64 Z.leb)
  | i64x2_ge_s => Some (rel_s 64 Z.geb)
  | v128_not => Some (RUn (fun c => 2 ^ 128 - 1 - c)) | v128_and => Some (RBin Z.land) | v128_or => Some (RBin Z.lor)
  | v128_xor => Some (RBin Z.lxor) | v128_andnot => Some (RBin (fun a b => Z.land a (2 ^ 128 - 1 - b)))
  | v128_bitselect => Some (RTern (fun a b c => Z.lor (Z.land a c) (Z.land b (2 ^ 128 - 1 - c))))
  | v128_any_true => Some (RTest (fun c => b2z (negb (c =? 0))))
  | i8x16_abs => Some (each1 8 (iabs 8)) | i8x16_neg => Some (each1 8 (ineg 8))
  | i8x16_popcnt => Some (each1 8 (wasm_unop 8 popcnt))
  | i8x16_all_true => Some (every 8) | i8x16_bitmask => Some (signs 8)
  | i8x16_shl => Some (shift 8 (ishl 8)) | i8x16_shr_s => Some (shift 8 (ishr_s 8)) | i8x16_shr_u => Some (shift 8 ishr_u)
  | i8x16_add => Some (each2 8 (iadd 8)) | i8x16_sub => Some (each2 8 (isub 8))
  | i8x16_min_s => Some (each2 8 (imin_s 8)) | i8x16_min_u => Some (each2 8 imin_u)
  | i8x16_max_s => Some (each2 8 (imax_s 8)) | i8x16_max_u => Some (each2 8 imax_u)
  | i8x16_add_sat_s => Some (each2 8 (fun a b => sat_s 8 (signed 8 a + signed 8 b)))
  | i8x16_add_sat_u => Some (each2 8 (fun a b => sat_u 8 (a + b)))
  | i8x16_sub_sat_s => Some (each2 8 (fun a b => sat_s 8 (signed 8 a - signed 8 b)))
  | i8x16_sub_sat_u => Some (each2 8 (fun a b => sat_u 8 (a - b)))
  | i8x16_avgr_u => Some (each2 8 iavgr_u)
  | i8x16_narrow_i16x8_s => Some (narrowing 8 (sat_s 8)) | i8x16_narrow_i16x8_u => Some (narrowing 8 (sat_u 8))
  | i16x8_abs => Some (each1 16 (iabs 16)) | i16x8_neg => Some (each1 16 (ineg 16))
  | i16x8_all_true => Some (every 16) | i16x8_bitmask => Some (signs 16)
  | i16x8_shl => Some (shift 16 (ishl 16)) | i16x8_shr_s => Some (shift 16 (ishr_s 16)) | i16x8_shr_u => Some (shift 16 ishr_u)
  | i16x8_add => Some (each2 16 (iadd 16)) | i16x8_sub => Some (each2 16 (isub 16)) | i16x8_mul => Some (each2 16 (imul 16))
  | i16x8_min_s => Some (each2 16 (imin_s 16)) | i16x8_min_u => Some (each2 16 imin_u)
  | i16x8_max_s => Some (each2 16 (imax_s 16)) | i16x8_max_u => Some (each2 16 imax_u)
  | i16x8_add_sat_s => Some (each2 16 (fun a b => sat_s 16 (signed 16 a + signed 16 b)))
  | i16x8_add_sat_u => Some (each2 16 (fun a b => sat_u 16 (a + b)))
  | i16x8_sub_sat_s => Some (each2 16 (fun a b => sat_s 16 (signed 16 a - signed 16 b)))
  | i16x8_sub_sat_u => Some (each2 16 (fun a b => sat_u 16 (a - b)))
  | i16x8_avgr_u => Some (each2 16 iavgr_u)
  | i16x8_narrow_i32x4_s => Some (narrowing 16 (sat_s 16)) | i16x8_narrow_i32x4_u => Some (narrowing 16 (sat_u 16))
  | i16x8_extend_low_i8x16_s => Some (wide1 true false 8) | i16x8_extend_high_i8x16_s => Some (wide1 true true 8)
  | i16x8_extmul_low_i8x16_s => Some (wide2 true false 8) | i16x8_extmul_high_i8x16_s => Some (wide2 true true 8)
  | i16x8_extadd_pairwise_i8x16_s => Some (pairwise true 8)
  | i16x8_extend_low_i8x16_u => Some (wide1 false false 8) | i16x8_extend_high_i8x16_u => Some (wide1 false true 8)
  | i16x8_extmul_low_i8x16_u => Some (wide2 false false 8) | i16x8_extmul_high_i8x16_u => Some (wide2 false true 8)
  | i16x8_extadd_pairwise_i8x16_u => Some (pairwise false 8)
  | i32x4_abs => Some (each1 32 (iabs 32)) | i32x4_neg => Some (each1 32 (ineg 32))
  | i32x4_all_true => Some (every 32) | i32x4_bitmask => Some (signs 32)
  | i32x4_shl => Some (shift 32 (ishl 32)) | i32x4_shr_s => Some (shift 32 (ishr_s 32)) | i32x4_shr_u => Some (shift 32 ishr_u)
  | i32x4_add => Some (each2 32 (iadd 32)) | i32x4_sub => Some (each2 32 (isub 32)) | i32x4_mul => Some (each2 32 (imul 32))
  | i32x4_min_s => Some (each2 32 (imin_s 32)) | i32x4_min_u => Some (each2 32 imin_u)
  | i32x4_max_s => Some (each2 32 (imax_s 32)) | i32x4_max_u => Some (each2 32 imax_u)
  | i32x4_extend_low_i16x8_s => Some (wide1 true false 16) | i32x4_extend_high_i16x8_s => Some (wide1 true true 16)
  | i32x4_extmul_low_i16x8_s => Some (wide2 true false 16) | i32x4_extmul_high_i16x8_s => Some (wide2 true true 16)
  | i32x4_extadd_pairwise_i16x8_s => Some (pairwise true 16)
  | i32x4_extend_low_i16x8_u => Some (wide1 false false 16) | i32x4_extend_high_i16x8_u => Some (wide1 false true 16)
  | i32x4_extmul_low_i16x8_u => Some (wide2 false false 16) | i32x4_extmul_high_i16x8_u => Some (wide2 false true 16)
  | i32x4_extadd_pairwise_i16x8_u => Some (pairwise false 16)
  | i64x2_abs => Some (each1 64 (iabs 64)) | i64x2_neg => Some (each1 64 (ineg 64))
  | i64x2_all_true => Some (every 64) | i64x2_bitmask => Some (signs 64)
  | i64x2_shl => Some (shift 64 (ishl 64)) | i64x2_shr_s => Some (shift 64 (ishr_s 64)) | i64x2_shr_u => Some (shift 64 ishr_u)
  | i64x2_add => Some (each2 64 (iadd 64)) | i64x2_sub => Some (each2 64 (isub 64)) | i64x2_mul => Some (each2 64 (imul 64))
  | i64x2_extend_low_i32x4_s => Some (wide1 true false 32) | i64x2_extend_high_i32x4_s => Some (wide1 true true 32)
  | i64x2_extmul_low_i32x4_s => Some (wide2 true false 32) | i64x2_extmul_high_i32x4_s => Some (wide2 true true 32)
  | i64x2_extend_low_i32x4_u => Some (wide1 false false 32) | i64x2_extend_high_i32x4_u => Some (wide1 false true 32)
  | i64x2_extmul_low_i32x4_u => Some (wide2 false false 32) | i64x2_extmul_high_i32x4_u => Some (wide2 false true 32)
  | i16x8_q15mulr_sat_s => Some (each2 16 iq15mulrsat_s) | i32x4_dot_i16x8_s => Some (RBin dots)
  | _ => None  end.
(** The operands on which the C++ expression overflows. *)
Definition overflows (op : vec_numeric) (args : list Z) : bool :=
  match op, args with
  | i16x8_mul, [c1; c2] => existsb (fun p => 2 ^ 31 <=? p.1 * p.2) (zip (raw 16 c1) (raw 16 c2))
  | i32x4_abs, [c] => existsb (fun a => a =? 2 ^ 31) (raw 32 c)
  | i64x2_abs, [c] => existsb (fun a => a =? 2 ^ 63) (raw 64 c)
  | i32x4_dot_i16x8_s, [c1; c2] =>
      existsb (fun p => forallb (fun a => a =? 2 ^ 15) [p.1.1; p.1.2; p.2.1; p.2.2]) (zip (pairs (raw 16 c1)) (pairs (raw 16 c2)))
  | _, _ => false
  end.
Definition meets_reference (h : handler) (r : reference) (ov : list Z -> bool) : Prop :=
  match h, r with
  | Simd.Unop f, RUn g => forall c, in_u 128 c -> f c = if ov [c] then None else Some (g c)
  | Simd.Binop f, RBin g => forall c1 c2, in_u 128 c1 -> in_u 128 c2 -> f c1 c2 = if ov [c1; c2] then None else Some (g c1 c2)
  | Simd.Ternop f, RTern g => forall c1 c2 c3, in_u 128 c1 -> in_u 128 c2 -> in_u 128 c3 ->
      f c1 c2 c3 = if ov [c1; c2; c3] then None else Some (g c1 c2 c3)
  | Simd.Test f, RTest g => forall c, in_u 128 c -> f c = g c
  | Simd.Shift m f, RShift n g => forall k c, in_u 32 k -> in_u 128 c -> f (Z.land k m) c = Some (g (k mod n) c)
  | _, _ => False
  end.

(** ** Lane functions *)

Ltac closed_consts :=
  repeat match goal with
  | |- context [Z.pow ?a ?b] => let v := eval vm_compute in (Z.pow a b) in lazymatch v with Zpos _ => change (Z.pow a b) with v end
  | H : context [Z.pow ?a ?b] |- _ => let v := eval vm_compute in (Z.pow a b) in lazymatch v with Zpos _ => change (Z.pow a b) with v in H end
  | |- context [if Z.ltb (Zpos ?a) (Zpos ?b) then _ else _] => let v := eval vm_compute in (Z.ltb (Zpos a) (Zpos b)) in change (Z.ltb (Zpos a) (Zpos b)) with v; cbv iota
  end.
Ltac lane_cbn := cbn [lane_bits lane_signed u8 i8 u16 i16 u32 i32 u64 i64 cast arith meets_at fmap option_fmap option_map] in *.
Ltac lane_cases := repeat match goal with
  | |- context [Z.ltb ?a ?b] => destruct (Z.ltb_spec a b)
  | |- context [Z.gtb ?a ?b] => rewrite (Z.gtb_ltb a b)
  | |- context [Z.leb ?a ?b] => destruct (Z.leb_spec a b)
  | |- context [Z.geb ?a ?b] => rewrite (Z.geb_leb a b)
  | |- context [Z.eqb ?a ?b] => destruct (Z.eqb_spec a b)
  end.
(** Unfold the operators of both sides, on lanes of a known width, and decide by cases. *)
Ltac lane_arith :=
  intros; unfold flag, abs_lane, sat_of, sat, min_lane, max_lane, avgr, iadd, isub, imul, ineg, iabs, imin_u, imax_u, imin_s, imax_s,
    sat_u, sat_s, iavgr_u, all_ones, sgn; unfold cast, arith, checked_int, in_u, signed in *; lane_cbn; closed_consts;
  repeat match goal with H : 0 <= ?x < _ |- _ => progress rewrite ?(wrap_small 8 x), ?(wrap_small 16 x), ?(wrap_small 32 x), ?(wrap_small 64 x) by exact H end.
Ltac lane_solve := lane_arith; lane_cases; cbn [andb negb fmap option_fmap option_map meets_at]; closed_consts; lane_cases;
  try (split; [reflexivity|]); rewrite ?wrap_wrap by lia; unfold wrap in *; closed_consts; try reflexivity; Z.div_mod_to_equations; lia.

(** Counts. *)
Lemma count_mask k m n : m = Z.ones (Z.log2 n) -> n = 2 ^ Z.log2 n -> 0 <= Z.log2 n -> Z.land k m = k mod n.
Proof. intros -> E H. rewrite Z.land_ones by exact H. now rewrite <- E. Qed.
Lemma shl_lane n a b : n = 8 \/ n = 16 \/ n = 32 \/ n = 64 -> in_u n a -> 0 <= b < n ->
  meets_at n (arith (Lane n false) (Z.shiftl a b)) (ishl n a b) false.
Proof.
  intros Hn Ha Hb. unfold ishl. rewrite Z.shiftl_mul_pow2 by lia. assert (Hw : wrap n (wrap n (a * 2 ^ b)) = wrap n (a * 2 ^ b)) by (apply wrap_wrap; lia).
  unfold arith. cbn [lane_bits lane_signed]. destruct (Z.ltb_spec n 32) as [Hl|Hl].
  - assert (Hp : 2 ^ b <= 2 ^ (n - 1)) by (apply Z.pow_le_mono_r; lia). assert (0 < 2 ^ b) by (apply Z.pow_pos_nonneg; lia).
    unfold checked_int, in_u in *. change (2 ^ (32 - 1)) with 2147483648.
    assert (0 <= a * 2 ^ b < 2147483648). { destruct Hn as [->|[->|[->| ->]]]; closed_consts; nia. }
    destruct (Z.leb_spec (- (2147483648)) (a * 2 ^ b)); [|lia]. destruct (Z.ltb_spec (a * 2 ^ b) 2147483648); [|lia]. cbn. auto.
  - cbn. auto.
Qed.
Lemma shr_s_lane n a b : 0 < n -> in_u n a -> 0 <= b -> meets_at n (Some (Z.shiftr (cast (Lane n true) a) b)) (ishr_s n a b) false.
Proof.
  intros Hn Ha Hb. unfold ishr_s, cast. cbn [lane_bits lane_signed meets_at]. rewrite (wrap_small n a Ha), Z.shiftr_div_pow2 by lia. split; [reflexivity|]. now rewrite wrap_wrap.
Qed.
Lemma shr_u_lane n a b : 0 < n -> in_u n a -> 0 <= b -> meets_at n (Some (Z.shiftr a b)) (ishr_u a b) false.
Proof. intros Hn Ha Hb. unfold ishr_u. cbn. now rewrite Z.shiftr_div_pow2. Qed.
Lemma cast_u n x : in_u n x -> cast (Lane n false) x = x.
Proof. intros H. unfold cast. now apply wrap_small. Qed.
(** ** Shifts *)
Definition width_ok (n : Z) : Prop := n = 8 \/ n = 16 \/ n = 32 \/ n = 64.
Lemma shift_meets n m f g ov : width_ok n -> m = n - 1 -> ov = (fun _ => false) ->
  (forall a b, in_u n a -> 0 <= b < n -> meets_at n (f b a) (g a b) false) ->
  meets_reference (Simd.Shift m (fun b => unop (Lane n false) (f b))) (shift n g) ov.
Proof.
  intros Hn -> -> H k c _ _. assert (Ek : Z.land k (n - 1) = k mod n) by (apply count_mask; destruct Hn as [->|[->|[->| ->]]]; reflexivity || discriminate).
  rewrite Ek. assert (0 < n) by (destruct Hn as [->|[->|[->| ->]]]; lia). apply (unop_total (Lane n false)); [assumption|].
  intros x Hx. cbn [lane_bits] in *. rewrite cast_u by assumption. apply H; [exact Hx|]. apply Z.mod_pos_bound. assumption.
Qed.

(** ** Lanes of twice the width *)
Section Wide.
Context (s : bool) (n : Z) (Hn : n = 8 \/ n = 16 \/ n = 32).
Abbreviation t := (Lane n s).
Abbreviation r := (Lane (2 * n) s).
Lemma wide_pos : 0 < n. Proof. destruct Hn as [->|[->| ->]]; lia. Qed.
Lemma cast_sgn x : in_u n x -> cast t x = sgn s n x.
Proof. intros Hx. unfold cast, sgn. cbn [lane_bits lane_signed]. rewrite (wrap_small n x Hx). now destruct s. Qed.
Lemma half_part high (l : list Z) (f : Z -> Z) : length l = lane_count t -> half high r (map f l) = map f (part high l).
Proof.
  intros Hl. unfold half, part. rewrite Hl. replace (lane_count t / 2)%nat with (lane_count r) by (destruct Hn as [->|[->| ->]]; reflexivity).
  destruct high; [apply skipn_map|apply firstn_map].
Qed.
Lemma raw_lanes c : lanes t c = map (cast t) (raw n c).
Proof. apply lanes_raw, wide_pos. Qed.
Lemma part_in high (l : list Z) (P : Z -> Prop) : Forall P l -> Forall P (part high l).
Proof. unfold part. destruct high; [apply Forall_drop|apply Forall_take]. Qed.
Lemma extend_meets high c : extend t r high c = Some (pack (2 * n) (map (fun x => wrap (2 * n) (sgn s n x)) (part high (raw n c)))).
Proof.
  pose proof wide_pos. unfold extend. rewrite raw_lanes, half_part by apply raw_length. f_equal. unfold pack. change (merge (Lane (2 * n) s)) with (merge (Lane (2 * n) false)). apply merge_ext.
  pose proof (part_in high _ _ (raw_range n c wide_pos)) as R. induction R as [|x l Hx _ IH]; constructor; auto. cbn [lane_bits]. rewrite cast_sgn by assumption. now rewrite wrap_wrap by lia.
Qed.
(** Sums and products of lanes fit the wider type. *)
Lemma wide_arith x y z : in_u n x -> in_u n y -> z = sgn s n x + sgn s n y \/ z = sgn s n x * sgn s n y ->
  meets_at (2 * n) (arith r z) (wrap (2 * n) z) false.
Proof.
  intros Hx Hy Hz. assert (Bx : - 2 ^ (n - 1) <= sgn s n x < 2 ^ n /\ (s = true -> sgn s n x < 2 ^ (n - 1)) /\ (s = false -> 0 <= sgn s n x)).
  { unfold sgn, in_u in *. pose proof (signed_range n wide_pos x Hx) as B. unfold in_s in B. pose proof (pow_half n wide_pos). destruct s; lia. }
  assert (By : - 2 ^ (n - 1) <= sgn s n y < 2 ^ n /\ (s = true -> sgn s n y < 2 ^ (n - 1)) /\ (s = false -> 0 <= sgn s n y)).
  { unfold sgn, in_u in *. pose proof (signed_range n wide_pos y Hy) as B. unfold in_s in B. pose proof (pow_half n wide_pos). destruct s; lia. }
  unfold arith. cbn [lane_bits lane_signed]. assert (Hw : wrap (2 * n) (wrap (2 * n) z) = wrap (2 * n) z) by (apply wrap_wrap; pose proof wide_pos; lia).
  assert (Hb : ((2 * n <? 32) = true \/ s = true) -> - 2 ^ (Z.max 32 (2 * n) - 1) <= z < 2 ^ (Z.max 32 (2 * n) - 1)).
  { intros Hc. assert (Bs : s = false -> n = 8) by (intros ->; destruct Hc as [Hc|Hc]; [apply Z.ltb_lt in Hc; lia|discriminate]).
    set (X := sgn s n x) in *. set (Y := sgn s n y) in *. clearbody X Y.
    assert (HX : Z.abs X <= 2 ^ (Z.max 16 n - 1) /\ Z.abs Y <= 2 ^ (Z.max 16 n - 1)).
    { destruct Hn as [->|[->| ->]]; destruct s; try (specialize (Bs eq_refl); discriminate); closed_consts; change (2 ^ (Z.max 16 8 - 1)) with 32768;
        change (2 ^ (Z.max 16 16 - 1)) with 32768; change (2 ^ (Z.max 16 32 - 1)) with 2147483648; lia. }
    assert (HB : 2 ^ (Z.max 16 n - 1) * 2 ^ (Z.max 16 n - 1) < 2 ^ (Z.max 32 (2 * n) - 1) /\ 2 * 2 ^ (Z.max 16 n - 1) < 2 ^ (Z.max 32 (2 * n) - 1)) by (destruct Hn as [->|[->| ->]]; split; reflexivity).
    destruct Hz as [->| ->]; [lia|]. assert (Z.abs (X * Y) <= 2 ^ (Z.max 16 n - 1) * 2 ^ (Z.max 16 n - 1)) by (rewrite Z.abs_mul; apply Z.mul_le_mono_nonneg; lia). lia. }
  unfold checked_int. destruct (Z.ltb_spec (2 * n) 32) as [Hl|Hl].
  - specialize (Hb (or_introl eq_refl)). replace (Z.max 32 (2 * n)) with 32 in Hb by lia. destruct (Z.leb_spec (- 2 ^ (32 - 1)) z); [|lia]. destruct (Z.ltb_spec z (2 ^ (32 - 1))); [|lia]. cbn [andb meets_at]. now rewrite Hw.
  - destruct s.
    + specialize (Hb (or_intror eq_refl)). replace (Z.max 32 (2 * n)) with (2 * n) in Hb by lia. destruct (Z.leb_spec (- 2 ^ (2 * n - 1)) z); [|lia]. destruct (Z.ltb_spec z (2 ^ (2 * n - 1))); [|lia]. cbn [andb meets_at]. now rewrite Hw.
    + cbn [meets_at]. now rewrite Hw.
Qed.
Lemma cast_again x : in_u n x -> cast r (sgn s n x) = sgn s n x.
Proof.
  intros Hx. pose proof wide_pos as Hp. unfold cast, sgn, in_u in *. cbn [lane_bits lane_signed]. destruct s.
  - apply signed_wrap; [lia|]. pose proof (signed_range n Hp x Hx) as B. unfold in_s in *. assert (2 ^ (n - 1) <= 2 ^ (2 * n - 1)) by (apply Z.pow_le_mono_r; lia). lia.
  - apply wrap_small. assert (2 ^ n <= 2 ^ (2 * n)) by (apply Z.pow_le_mono_r; lia). unfold in_u. lia.
Qed.
Lemma extmul_meets high c1 c2 : extmul t r high c1 c2 = Some (pack (2 * n) (map (fun p => wrap (2 * n) (sgn s n p.1 * sgn s n p.2)) (zip (part high (raw n c1)) (part high (raw n c2))))).
Proof.
  unfold extmul. rewrite !raw_lanes, !half_part, zip_map, collect_map by apply raw_length. rewrite (collect_meets r _ (fun p => wrap (2 * n) (sgn s n p.1 * sgn s n p.2)) (fun _ => false)); [now rewrite existsb_false|].
  pose proof (Forall_zip _ _ _ (part_in high _ _ (raw_range n c1 wide_pos)) (part_in high _ _ (raw_range n c2 wide_pos))) as R.
  rewrite List.Forall_forall in R |- *. intros p Hp. destruct (R p Hp) as [R1 R2]. cbn [fst snd lane_bits]. rewrite !cast_sgn, cast_again by assumption. apply (wide_arith p.1 p.2); auto.
Qed.
Lemma pairs_map (f : Z -> Z) l : pairs (map f l) = map (fun p => (f p.1, f p.2)) (pairs l).
Proof. revert l. fix IH 1. intros [|x [|y l]]; [reflexivity..|]. cbn. f_equal. apply IH. Qed.
Lemma pairs_in (P : Z -> Prop) l : Forall P l -> Forall (fun p => P p.1 /\ P p.2) (pairs l).
Proof. revert l. fix IH 1. intros [|x [|y l]] H; [constructor..|]. cbn. inversion_clear H as [|? ? Hx H']. inversion_clear H' as [|? ? Hy H'']. constructor; [auto|]. now apply IH. Qed.
Lemma extadd_meets c : extadd_pairwise t r c = Some (pack (2 * n) (map (fun p => wrap (2 * n) (sgn s n p.1 + sgn s n p.2)) (pairs (raw n c)))).
Proof.
  unfold extadd_pairwise. rewrite raw_lanes, pairs_map, collect_map. rewrite (collect_meets r _ (fun p => wrap (2 * n) (sgn s n p.1 + sgn s n p.2)) (fun _ => false)); [now rewrite existsb_false|].
  pose proof (pairs_in _ _ (raw_range n c wide_pos)) as R. rewrite List.Forall_forall in R |- *. intros p Hp. destruct (R p Hp) as [R1 R2].
  cbn [fst snd lane_bits]. rewrite !cast_sgn, cast_again by assumption. apply (wide_arith p.1 p.2); auto.
Qed.
End Wide.
(** ** Narrowing, dot products *)
Lemma narrow_meets n s rs f g c1 c2 : 0 < n -> (forall x, in_u (2 * n) x -> wrap n (f (cast (Lane (2 * n) s) x)) = wrap n (g (signed (2 * n) x))) ->
  narrow (Lane (2 * n) s) (Lane n rs) f c1 c2 = Some (pack n (map (fun x => g (signed (2 * n) x)) (raw (2 * n) c1 ++ raw (2 * n) c2))).
Proof.
  intros Hn H. unfold narrow. rewrite !lanes_raw, !map_map, <- map_app by (cbn; lia). f_equal. unfold pack. change (merge (Lane n rs)) with (merge (Lane n false)). apply merge_ext. cbn [lane_bits].
  assert (R : Forall (in_u (2 * n)) (raw (2 * n) c1 ++ raw (2 * n) c2)) by (apply Forall_app; split; apply raw_range; lia).
  induction R as [|x l Hx _ IH]; constructor; auto.
Qed.
Lemma signed_16_cast x : in_u 16 x -> cast i16 x = signed 16 x.
Proof. intros Hx. exact (cast_sgn true 16 x Hx). Qed.
Lemma dot_meets c1 c2 : dot c1 c2 = if overflows i32x4_dot_i16x8_s [c1; c2] then None else Some (dots c1 c2).
Proof.
  unfold dot, overflows, dots. rewrite !lanes_raw, !pairs_map, zip_map, collect_map by reflexivity. cbn [lane_bits i16].
  rewrite (collect_meets i32 _ (fun p => wrap 32 (signed 16 p.1.1 * signed 16 p.2.1 + signed 16 p.1.2 * signed 16 p.2.2))
             (fun p => forallb (fun a => a =? 2 ^ 15) [p.1.1; p.1.2; p.2.1; p.2.2])); [reflexivity|].
  pose proof (Forall_zip _ _ _ (pairs_in _ _ (raw_range 16 c1 eq_refl)) (pairs_in _ _ (raw_range 16 c2 eq_refl))) as R.
  rewrite List.Forall_forall in R |- *. intros [[a1 a2] [b1 b2]] Hp. destruct (R _ Hp) as [[Ha1 Ha2] [Hb1 Hb2]]. cbn [fst snd] in *. clear R Hp.
  unfold dot_lane. cbn [fst snd lane_bits i32]. rewrite !signed_16_cast by assumption.
  assert (Hs : forall x, in_u 16 x -> - 32768 <= signed 16 x < 32768 /\ (signed 16 x = - 32768 <-> x = 32768)).
  { intros x Hx. unfold in_u, signed in *. change (2 ^ (16 - 1)) with 32768. change (2 ^ 16) with 65536 in *. destruct (Z.ltb_spec x 32768); lia. }
  destruct (Hs a1 Ha1) as [A1 E1], (Hs a2 Ha2) as [A2 E2], (Hs b1 Hb1) as [B1 F1], (Hs b2 Hb2) as [B2 F2]. clear Hs. unfold arith, checked_int. cbn [lane_bits lane_signed i32].
  set (u1 := signed 16 a1) in *. set (u2 := signed 16 a2) in *. set (v1 := signed 16 b1) in *. set (v2 := signed 16 b2) in *. clearbody u1 u2 v1 v2.
  assert (P : forall u v, - 32768 <= u < 32768 -> - 32768 <= v < 32768 -> - 1073741824 < u * v <= 1073741824 /\ (u * v = 1073741824 -> u = - 32768 /\ v = - 32768)) by (intros; nia).
  destruct (P u1 v1 A1 B1) as [P1 Q1], (P u2 v2 A2 B2) as [P2 Q2]. clear P. change (32 <? 32) with false. cbv iota. change (2 ^ (32 - 1)) with 2147483648. change (2 ^ 15) with 32768.
  destruct (Z.leb_spec (- (2147483648)) (u1 * v1)); [|lia]. destruct (Z.ltb_spec (u1 * v1) 2147483648); [|lia].
  destruct (Z.leb_spec (- (2147483648)) (u2 * v2)); [|lia]. destruct (Z.ltb_spec (u2 * v2) 2147483648); [|lia]. cbn [andb].
  destruct (Z.leb_spec (- (2147483648)) (u1 * v1 + u2 * v2)); [|lia]. cbn [andb forallb].
  destruct (Z.ltb_spec (u1 * v1 + u2 * v2) 2147483648) as [Hl|Hl]; cbn [meets_at].
  - rewrite wrap_wrap by lia. split; [|reflexivity]. destruct (Z.eqb_spec a1 32768); [|reflexivity]. destruct (Z.eqb_spec a2 32768); [|reflexivity].
    destruct (Z.eqb_spec b1 32768); [|reflexivity]. destruct (Z.eqb_spec b2 32768); [|reflexivity]. exfalso. assert (u1 = -32768) by tauto. assert (u2 = -32768) by tauto. assert (v1 = -32768) by tauto. assert (v2 = -32768) by tauto. subst u1 u2 v1 v2. lia.
  - assert (M1 : u1 * v1 = 1073741824) by lia. assert (M2 : u2 * v2 = 1073741824) by lia. destruct (Q1 M1), (Q2 M2).
    rewrite !andb_true_iff, !Z.eqb_eq. tauto.
Qed.

(** ** Tests *)
Lemma any_true_meets c : in_u 128 c -> any_true (lanes u64 c) = b2z (negb (c =? 0)).
Proof.
  intros Hc. destruct (lane_split c Hc) as (a & b & Ha & Hb & -> & ->). unfold any_true, in_u in *. cbn [fold_left].
  destruct (Z.eqb_spec a 0), (Z.eqb_spec b 0), (Z.eqb_spec (a + 2 ^ 64 * b) 0); cbn; nia.
Qed.
Lemma all_true_fold l r : fold_left (fun result x => if x =? 0 then 0 else result) l r = if forallb (fun x => negb (x =? 0)) l then r else 0.
Proof. revert r. induction l as [|x l IH]; intros r; cbn [fold_left forallb]; [reflexivity|]. rewrite IH. destruct (x =? 0); cbn; [now destruct (forallb _ l)|reflexivity]. Qed.
Lemma all_true_meets n c : 0 < n -> all_true (lanes (Lane n false) c) = b2z (forallb (fun x => negb (x =? 0)) (raw n c)).
Proof. intros H. unfold all_true. fold (raw n c). rewrite all_true_fold. now destruct (forallb _ _). Qed.
Lemma bitmask_fold (h : Z -> bool) l : forall k r, in_u (Z.of_nat k) r ->
  fold_left (fun result p => Z.lor result (Z.shiftl (if h p.2 : bool then 1 else 0) (Z.of_nat p.1))) (zip (seq k (length l)) l) r =
  r + 2 ^ Z.of_nat k * fold_right (fun x acc => b2z (h x) + 2 * acc) 0 l.
Proof.
  induction l as [|x l IH]; intros k r Hr; cbn [length seq zip zip_with fold_left fold_right]; [lia|]. cbn [fst snd].
  assert (E : Z.lor r (Z.shiftl (if h x then 1 else 0) (Z.of_nat k)) = r + b2z (h x) * 2 ^ Z.of_nat k) by (rewrite (lor_add (Z.of_nat k)) by (lia || exact Hr); now destruct (h x)).
  rewrite E, IH.
  - rewrite Nat2Z.inj_succ, Z.pow_succ_r by lia. lia.
  - unfold in_u in *. rewrite Nat2Z.inj_succ, Z.pow_succ_r by lia. destruct (h x); cbn; lia.
Qed.
Lemma bitmask_meets n c : 0 < n -> bitmask (lanes (Lane n true) c) = fold_right (fun x acc => b2z (2 ^ (n - 1) <=? x) + 2 * acc) 0 (raw n c).
Proof.
  intros H. unfold bitmask. rewrite (bitmask_fold (fun x => x <? 0)) by (unfold in_u; cbn; lia). rewrite Z.mul_1_l, Z.add_0_l, lanes_raw by exact H. cbn [lane_bits].
  pose proof (raw_range n c H) as R. induction R as [|x l Hx _ IH]; cbn [map fold_right]; [reflexivity|]. rewrite IH. do 2 f_equal.
  unfold cast. cbn [lane_bits lane_signed]. rewrite (wrap_small n x Hx). unfold signed, in_u in *. destruct (Z.ltb_spec x (2 ^ (n - 1))), (Z.leb_spec (2 ^ (n - 1)) x); try lia; apply Z.ltb_ge + apply Z.ltb_lt; lia.
Qed.
(** ** Single instructions *)
Lemma popcnt_lane a : in_u 8 a -> meets_at 8 (Some (builtin_popcount (cast u8 a))) (wasm_unop 8 popcnt a) false.
Proof. intros Ha. rewrite (cast_u 8 a Ha : cast u8 a = a). cbn [meets_at]. split; [reflexivity|]. now rewrite (unop_spec 8 popcnt a Ha). Qed.
Lemma q15_lane a b : in_u 16 a -> in_u 16 b -> meets_at 16 (q15mulr_sat_s (cast u16 a) (cast u16 b)) (iq15mulrsat_s a b) false.
Proof.
  intros Ha Hb. rewrite (cast_u 16 a Ha : cast u16 a = a), (cast_u 16 b Hb : cast u16 b = b). unfold q15mulr_sat_s, iq15mulrsat_s. rewrite !signed_16_cast by assumption.
  pose proof (signed_range 16 ltac:(lia) a Ha) as A. pose proof (signed_range 16 ltac:(lia) b Hb) as B. unfold in_s in *. set (x := signed 16 a) in *. set (y := signed 16 b) in *. clearbody x y.
  change (2 ^ (16 - 1)) with 32768 in *. assert (P : - 1073741824 + 32768 <= x * y <= 1073741824) by nia. set (p := x * y) in *. clearbody p.
  unfold arith, checked_int. cbn [lane_bits lane_signed i32]. change (32 <? 32) with false. cbv iota. change (2 ^ (32 - 1)) with 2147483648.
  destruct (Z.leb_spec (- (2147483648)) p); [|lia]. destruct (Z.ltb_spec p 2147483648); [|lia]. cbn [andb]. change (2 ^ 14) with 0x4000.
  destruct (Z.leb_spec (- (2147483648)) (p + 0x4000)); [|lia]. destruct (Z.ltb_spec (p + 0x4000) 2147483648); [|lia]. cbn [andb fmap option_fmap option_map meets_at].
  split; [reflexivity|]. rewrite Z.shiftr_div_pow2 by lia. change (2 ^ 15) with 32768. set (q := (p + 0x4000) / 32768).
  assert (Q : - 32767 <= q <= 32768) by (unfold q; Z.div_mod_to_equations; lia). clearbody q. unfold cast, sat_s. cbn [lane_bits lane_signed u16]. change (2 ^ (16 - 1)) with 32768.
  destruct (Z.eqb_spec (wrap 16 q) 0x8000) as [E|E]; rewrite ?wrap_wrap by lia; unfold wrap in *; change (2 ^ 16) with 65536 in *.
  - replace q with 32768 by (Z.div_mod_to_equations; lia). reflexivity.
  - assert (q <> 32768) by (intros ->; now apply E). f_equal. lia.
Qed.
Lemma mul_16_lane a b : in_u 16 a -> in_u 16 b -> meets_at 16 (arith u16 (cast u16 a * cast u16 b)) (imul 16 a b) (2 ^ 31 <=? a * b).
Proof.
  intros Ha Hb. rewrite (cast_u 16 a Ha : cast u16 a = a), (cast_u 16 b Hb : cast u16 b = b). assert (P : 0 <= a * b) by (unfold in_u in *; nia). unfold arith, imul, checked_int.
  cbn [lane_bits lane_signed u16]. change (16 <? 32) with true. cbv iota. change (2 ^ (32 - 1)) with (2 ^ 31). destruct (Z.leb_spec (- 2 ^ 31) (a * b)); [|lia].
  destruct (Z.ltb_spec (a * b) (2 ^ 31)), (Z.leb_spec (2 ^ 31) (a * b)); try lia; cbn [andb meets_at]; [|reflexivity]. split; [reflexivity|]. now rewrite wrap_wrap by lia.
Qed.
Lemma abs_lane_meets n a : n = 32 \/ n = 64 -> in_u n a -> meets_at n (abs_lane (Lane n true) (cast (Lane n false) a)) (iabs n a) (a =? 2 ^ (n - 1)).
Proof.
  intros Hn Ha. rewrite cast_u by assumption. unfold abs_lane, iabs, cast. cbn [lane_bits lane_signed]. rewrite (wrap_small n a Ha). unfold arith. cbn [lane_bits lane_signed].
  replace (n <? 32) with false by (symmetry; apply Z.ltb_ge; lia). unfold checked_int, signed, in_u in *. assert (E2 : 2 ^ n = 2 * 2 ^ (n - 1)) by (apply pow_half; lia).
  assert (0 < 2 ^ (n - 1)) by (apply Z.pow_pos_nonneg; lia). set (h := 2 ^ (n - 1)) in *. clearbody h. rewrite E2 in *.
  destruct (Z.ltb_spec a h) as [L|L].
  - destruct (Z.ltb_spec a 0); [lia|]. cbn [meets_at]. destruct (Z.eqb_spec a h); [lia|]. split; [reflexivity|]. rewrite Z.abs_eq by lia. now rewrite wrap_wrap by lia.
  - destruct (Z.ltb_spec (a - 2 * h) 0); [|lia]. destruct (Z.leb_spec (- h) (- (a - 2 * h))); [|lia]. destruct (Z.ltb_spec (- (a - 2 * h)) h), (Z.eqb_spec a h); try lia; cbn [andb meets_at]; [|reflexivity].
    split; [reflexivity|]. rewrite Z.abs_neq by lia. now rewrite wrap_wrap by lia.
Qed.



(** ** Families of instructions *)
Section Shifts.
Context (n : Z) (Hn : width_ok n).
Lemma shl_family : meets_reference (Simd.Shift (n - 1) (fun b => unop (Lane n false) (fun a => arith (Lane n false) (Z.shiftl a b)))) (shift n (ishl n)) (fun _ => false).
Proof. apply shift_meets; auto. intros a b Ha Hb. now apply shl_lane. Qed.
Lemma width_pos : 0 < n. Proof. destruct Hn as [->|[->|[->| ->]]]; lia. Qed.
Lemma shr_s_family : meets_reference (Simd.Shift (n - 1) (fun b => unop (Lane n false) (fun a => Some (Z.shiftr (cast (Lane n true) a) b)))) (shift n (ishr_s n)) (fun _ => false).
Proof. pose proof width_pos. apply shift_meets; auto. intros a b Ha Hb. apply shr_s_lane; lia || assumption. Qed.
Lemma shr_u_family : meets_reference (Simd.Shift (n - 1) (fun b => unop (Lane n false) (fun a => Some (Z.shiftr a b)))) (shift n ishr_u) (fun _ => false).
Proof. pose proof width_pos. apply shift_meets; auto. intros a b Ha Hb. apply shr_u_lane; lia || assumption. Qed.
End Shifts.
Lemma w8 : width_ok 8. Proof. unfold width_ok. tauto. Qed.
Lemma w16 : width_ok 16. Proof. unfold width_ok. tauto. Qed.
Lemma w32 : width_ok 32. Proof. unfold width_ok. tauto. Qed.
Lemma w64 : width_ok 64. Proof. unfold width_ok. tauto. Qed.
Lemma h8 : 8 = 8 \/ 8 = 16 \/ 8 = 32. Proof. tauto. Qed.
Lemma h16 : 16 = 8 \/ 16 = 16 \/ 16 = 32. Proof. tauto. Qed.
Lemma h32 : 32 = 8 \/ 32 = 16 \/ 32 = 32. Proof. tauto. Qed.
Section Families.
Context (n : Z).
Abbreviation none := (fun _ : list Z => false).
Abbreviation u := (Lane n false).
Lemma every_family : width_ok n -> meets_reference (Simd.Test (fun c => all_true (lanes u c))) (every n) none.
Proof. intros Hn c _. apply all_true_meets, width_pos, Hn. Qed.
Lemma signs_family : width_ok n -> meets_reference (Simd.Test (fun c => bitmask (lanes (Lane n true) c))) (signs n) none.
Proof. intros Hn c _. apply bitmask_meets, width_pos, Hn. Qed.
Abbreviation half_ok := (n = 8 \/ n = 16 \/ n = 32).
Lemma extend_family s high : half_ok -> meets_reference (Simd.Unop (extend (Lane n s) (Lane (2 * n) s) high)) (wide1 s high n) none.
Proof. intros Hn c _. now apply extend_meets. Qed.
Lemma extmul_family s high : half_ok -> meets_reference (Simd.Binop (extmul (Lane n s) (Lane (2 * n) s) high)) (wide2 s high n) none.
Proof. intros Hn c1 c2 _ _. now apply extmul_meets. Qed.
Lemma pairwise_family s : half_ok -> meets_reference (Simd.Unop (extadd_pairwise (Lane n s) (Lane (2 * n) s))) (pairwise s n) none.
Proof. intros Hn c _. now apply extadd_meets. Qed.
Lemma narrow_family s rs f g : 0 < n -> (forall x, in_u (2 * n) x -> wrap n (f (cast (Lane (2 * n) s) x)) = wrap n (g (signed (2 * n) x))) ->
  meets_reference (Simd.Binop (narrow (Lane (2 * n) s) (Lane n rs) f)) (narrowing n g) none.
Proof. intros Hn H c1 c2 _ _. now apply narrow_meets. Qed.
End Families.
(** Operators on lanes that never overflow. *)
Lemma each1_family t f g : 0 < lane_bits t -> (forall x, in_u (lane_bits t) x -> meets_at (lane_bits t) (f (cast t x)) (g x) false) ->
  meets_reference (Simd.Unop (unop t f)) (each1 (lane_bits t) g) (fun _ => false).
Proof. intros Hn H c _. now apply unop_total. Qed.
Lemma each2_family t f g : 0 < lane_bits t -> (forall x y, in_u (lane_bits t) x -> in_u (lane_bits t) y -> meets_at (lane_bits t) (f (cast t x) (cast t y)) (g x y) false) ->
  meets_reference (Simd.Binop (binop t f)) (each2 (lane_bits t) g) (fun _ => false).
Proof. intros Hn H c1 c2 _ _. now apply binop_total. Qed.

Ltac by_width L := first [exact (L 8 w8)|exact (L 16 w16)|exact (L 32 w32)|exact (L 64 w64)].
Ltac by_half L := first [exact (L 8 true h8)|exact (L 8 false h8)|exact (L 16 true h16)|exact (L 16 false h16)|exact (L 32 true h32)|exact (L 32 false h32)].
Ltac by_halves L := first [exact (L 8 true true h8)|exact (L 8 false true h8)|exact (L 16 true true h16)|exact (L 16 false true h16)|exact (L 32 true true h32)|exact (L 32 false true h32)
   |exact (L 8 true false h8)|exact (L 8 false false h8)|exact (L 16 true false h16)|exact (L 16 false false h16)|exact (L 32 true false h32)|exact (L 32 false false h32)].
Ltac family :=
  lazymatch goal with
  | |- meets_reference _ (shift _ (ishl _)) _ => by_width shl_family
  | |- meets_reference _ (shift _ (ishr_s _)) _ => by_width shr_s_family
  | |- meets_reference _ (shift _ ishr_u) _ => by_width shr_u_family
  | |- meets_reference _ (every _) _ => by_width every_family
  | |- meets_reference _ (signs _) _ => by_width signs_family
  | |- meets_reference _ (wide1 _ _ _) _ => by_halves extend_family
  | |- meets_reference _ (wide2 _ _ _) _ => by_halves extmul_family
  | |- meets_reference _ (pairwise _ _) _ => by_half pairwise_family
  | |- meets_reference (Simd.Unop (unop ?t ?f)) (each1 _ ?g) _ => refine (each1_family t f g eq_refl _); lane_solve
  | |- meets_reference (Simd.Binop (binop ?t ?f)) (each2 _ ?g) _ => refine (each2_family t f g eq_refl _); lane_solve
  | |- meets_reference (Simd.Binop (binop ?t ?f)) (rel_u _ ?g) _ => refine (each2_family t f _ eq_refl _); lane_solve
  | |- meets_reference (Simd.Binop (binop ?t ?f)) (rel_s _ ?g) _ => refine (each2_family t f _ eq_refl _); lane_solve
  end.

(** Saturating a wider lane. *)
Lemma narrow_s_lane n x : n = 8 \/ n = 16 -> in_u (2 * n) x ->
  wrap n (sat (- 2 ^ (n - 1)) (2 ^ (n - 1) - 1) (cast (Lane (2 * n) true) x)) = wrap n (sat_s n (signed (2 * n) x)).
Proof.
  intros Hn Hx. unfold cast, sat, sat_s. cbn [lane_bits lane_signed]. rewrite (wrap_small _ x Hx), wrap_wrap by lia. set (y := signed (2 * n) x). clearbody y. f_equal.
  assert (0 < 2 ^ (n - 1)) by (apply Z.pow_pos_nonneg; lia). destruct (Z.ltb_spec y (- 2 ^ (n - 1))), (Z.ltb_spec (2 ^ (n - 1) - 1) y); lia.
Qed.
Lemma narrow_u_lane n x : n = 8 \/ n = 16 -> in_u (2 * n) x ->
  wrap n (sat 0 (2 ^ n - 1) (cast (Lane (2 * n) true) x)) = wrap n (sat_u n (signed (2 * n) x)).
Proof.
  intros Hn Hx. unfold cast, sat, sat_u. cbn [lane_bits lane_signed]. rewrite (wrap_small _ x Hx). set (y := signed (2 * n) x). clearbody y. f_equal.
  assert (0 < 2 ^ n) by (apply Z.pow_pos_nonneg; lia). destruct (Z.ltb_spec y 0), (Z.ltb_spec (2 ^ n - 1) y); lia.
Qed.
(** The instructions that work on the bits of a vector, and on single lanes. *)
Section Handlers.
Context `{SoftFloat} `{HostFloat}.
Definition handler_meets (op : vec_numeric) : Prop := forall r, reference_of op = Some r -> meets_reference (vec_handler op) r (overflows op).
Ltac start := intros r E; injection E as <-; cbn [vec_handler].
Lemma bitwise_meet op : op ∈ [v128_not; v128_and; v128_or; v128_xor; v128_andnot; v128_bitselect] -> handler_meets op.
Proof.
  intros Hop. repeat (apply elem_of_cons in Hop as [->|Hop]); [..|now apply elem_of_nil in Hop]; start.
  - intros c Hc. apply (bits1 negb (fun a => Z.lnot a) (fun c => 2 ^ 128 - 1 - c)); [bitwise..|exact Hc].
  - intros c1 c2 H1 H2. apply (bits2 andb (fun a b => Z.land a b) Z.land); [bitwise..|exact H1|exact H2].
  - intros c1 c2 H1 H2. apply (bits2 orb (fun a b => Z.lor a b) Z.lor); [bitwise..|exact H1|exact H2].
  - intros c1 c2 H1 H2. apply (bits2 xorb (fun a b => Z.lxor a b) Z.lxor); [bitwise..|exact H1|exact H2].
  - intros c1 c2 H1 H2. apply (bits2 (fun x y => andb x (negb y)) (fun a b => Z.land a (Z.lnot b)) (fun a b => Z.land a (2 ^ 128 - 1 - b))); [bitwise..|exact H1|exact H2].
  - intros c1 c2 c3 H1 H2 H3. apply (bits3 (fun x y z => orb (andb x z) (andb y (negb z))) (fun a b c => Z.lor (Z.land a c) (Z.land b (Z.lnot c)))
      (fun a b c => Z.lor (Z.land a c) (Z.land b (2 ^ 128 - 1 - c)))); [bitwise|unfold by_bits; bitwise|exact H1|exact H2|exact H3].
Qed.
Lemma narrow_meet op : op ∈ [i8x16_narrow_i16x8_s; i8x16_narrow_i16x8_u; i16x8_narrow_i32x4_s; i16x8_narrow_i32x4_u] -> handler_meets op.
Proof.
  intros Hop. repeat (apply elem_of_cons in Hop as [->|Hop]); [..|now apply elem_of_nil in Hop]; start.
  - apply (narrow_family 8 true true _ (sat_s 8)); [lia|]. intros x. apply (narrow_s_lane 8). tauto.
  - apply (narrow_family 8 true false _ (sat_u 8)); [lia|]. intros x. apply (narrow_u_lane 8). tauto.
  - apply (narrow_family 16 true true _ (sat_s 16)); [lia|]. intros x. apply (narrow_s_lane 16). tauto.
  - apply (narrow_family 16 false false _ (sat_u 16)); [lia|]. intros x Hx. rewrite (cast_u (2 * 16)) by exact Hx. apply (narrow_u_lane 16); tauto.
Qed.
Lemma single_meet op : op ∈ [v128_any_true; i8x16_popcnt; i16x8_q15mulr_sat_s; i16x8_mul; i32x4_abs; i64x2_abs; i32x4_dot_i16x8_s] -> handler_meets op.
Proof.
  intros Hop. repeat (apply elem_of_cons in Hop as [->|Hop]); [..|now apply elem_of_nil in Hop]; start.
  - intros c Hc. now apply any_true_meets.
  - refine (each1_family u8 _ (wasm_unop 8 popcnt) eq_refl _). intros x. apply popcnt_lane.
  - refine (each2_family u16 _ iq15mulrsat_s eq_refl _). intros x y. apply q15_lane.
  - intros c1 c2 _ _. refine (binop_meets u16 eq_refl _ (imul 16) (fun a b => 2 ^ 31 <=? a * b) c1 c2 _). intros x y. apply mul_16_lane.
  - intros c _. refine (unop_meets u32 eq_refl _ (iabs 32) (fun a => a =? 2 ^ (32 - 1)) c _). intros x. apply (abs_lane_meets 32). tauto.
  - intros c _. refine (unop_meets u64 eq_refl _ (iabs 64) (fun a => a =? 2 ^ (64 - 1)) c _). intros x. apply (abs_lane_meets 64). tauto.
  - intros c1 c2 _ _. apply dot_meets.
Qed.
End Handlers.

Ltac listed := solve [repeat first [apply list_elem_of_here|apply list_elem_of_further]].

Lemma handlers_meet `{SoftFloat} `{HostFloat} op : handler_meets op.
Proof.
  destruct op;
    try first [apply bitwise_meet; listed|apply narrow_meet; listed|apply single_meet; listed];
    intros r E; cbn [reference_of] in E; try discriminate E; injection E as <-; cbn [vec_handler]; family.
Qed.

(** C17. Every integer vector instruction for which [reference_of] has a reference computes
    what WebAssembly defines; it has none for the swizzles, the splats and the two relaxed
    dot products.  On operands that
    are vectors, the handler that [interpret_visitor] runs for [op] yields the value of the
    reference: lane by lane, arithmetic modulo the width of a lane, saturation, comparisons as
    masks, shifts by a count modulo that width, widening, narrowing and pairwise operations,
    and the bitwise operators on whole vectors.  It does so for every operand but those on which
    [overflows] says that the C++ expression is undefined: a product of two 16-bit lanes of at
    least 2^31, the absolute value of the least [i32] or [i64], a dot product of four lanes of
    -32768; and on exactly those the handler has no value. *)
Theorem simd_int_refines `{SoftFloat} `{HostFloat} op r : reference_of op = Some r -> meets_reference (vec_handler op) r (overflows op).
Proof. apply handlers_meet. Qed.
(** Products of 16-bit lanes; the lanes 0xffff and 0xffff have no product. *)
Lemma simd_int_refines_witness :
  binop u16 (fun a b => arith u16 (a * b)) 0x0003_0002 0x0005_8000 = Some 0x000f_0000 /\
  binop u16 (fun a b => arith u16 (a * b)) 0xffff 0xffff = None.
Proof.
  split.
  - refine (eq_trans (simd_int_refines i16x8_mul _ eq_refl 0x0003_0002 0x0005_8000 _ _) _); [split; reflexivity || discriminate..|reflexivity].
  - refine (eq_trans (simd_int_refines i16x8_mul _ eq_refl 0xffff 0xffff _ _) _); [split; reflexivity || discriminate..|reflexivity].
Defined.
