(* ===== verification/SimdTotal.v ===== *)
(** * The vector handlers are defined

    On operands that are vectors every handler of [vec_handler] yields a vector,
    but for the five whose C++ expressions can overflow ([may_overflow]). *)
From Stdlib Require Import ZArith Lia Bool String.
From stdpp Require Import base list numbers decidable option.
From S2P Require Import Prelude Types Numeric Softfloat Simd SimdLanes Demo SimdSpec.
Import Opcode.

(** The instructions whose computation of type [int] or [int64_t] overflows on some operands. *)
Definition may_overflow (op : vec_numeric) : bool :=
  match op with
  | i16x8_mul | i32x4_abs | i64x2_abs | i32x4_dot_i16x8_s | i32x4_relaxed_dot_i8x16_i7x16_add_s => true
  | _ => false
  end.

(** ** Vectors in, vectors out *)
Definition ranged (h : handler) : Prop :=
  match h with
  | Simd.Unop f => forall c v, f c = Some v -> in_u 128 v
  | Simd.Binop f => forall c1 c2 v, f c1 c2 = Some v -> in_u 128 v
  | Simd.Ternop f => forall c1 c2 c3 v, f c1 c2 c3 = Some v -> in_u 128 v
  | Simd.Shift _ f => forall k c v, f k c = Some v -> in_u 128 v
  | Simd.Test _ | Simd.Splat _ _ => True
  end.
Definition defined (h : handler) : Prop :=
  match h with
  | Simd.Unop f => forall c, in_u 128 c -> is_Some (f c)
  | Simd.Binop f => forall c1 c2, in_u 128 c1 -> in_u 128 c2 -> is_Some (f c1 c2)
  | Simd.Ternop f => forall c1 c2 c3, in_u 128 c1 -> in_u 128 c2 -> in_u 128 c3 -> is_Some (f c1 c2 c3)
  | Simd.Shift m f => forall k c, in_u 32 k -> in_u 128 c -> is_Some (f (Z.land k m) c)
  | Simd.Test _ | Simd.Splat _ _ => True
  end.

(** *** Lengths *)
Lemma collect_length {A B} (f : A -> option B) l r : collect f l = Some r -> length r = length l.
Proof.
  revert r. induction l as [|x l IH]; intros r; cbn; [now intros [= <-]|]. destruct (f x); [|discriminate].
  destruct (collect f l) as [r'|]; [|discriminate]. intros [= <-]. cbn. f_equal. now apply IH.
Qed.
Lemma collected_range {A} t (f : A -> option Z) l v : lane_bits t * Z.of_nat (length l) = 128 -> 0 <= lane_bits t ->
  merge t <$> collect f l = Some v -> in_u 128 v.
Proof.
  intros E Ht H. destruct (collect f l) as [r|] eqn:Er; [|discriminate]. injection H as <-. apply collect_length in Er.
  apply merge_full; [now rewrite Er|exact Ht].
Qed.
Lemma zip_length {A B} (l1 : list A) (l2 : list B) n : length l1 = n -> length l2 = n -> length (zip l1 l2) = n.
Proof. intros H1 H2. rewrite length_zip_with. lia. Qed.
Lemma pairs_length l n : length l = (2 * n)%nat -> length (pairs l) = n.
Proof.
  revert l. induction n as [|n IH]; intros [|x [|y l]] H; try discriminate; [reflexivity|cbn in H; lia|].
  cbn. f_equal. apply IH. cbn in H. lia.
Qed.
Lemma half_length high r l : length l = (2 * lane_count r)%nat -> length (half high r l) = lane_count r.
Proof. intros H. unfold half. destruct high; rewrite ?length_drop, ?length_take; lia. Qed.

(** *** Shapes *)
Abbreviation full t := (lane_bits t * Z.of_nat (lane_count t) = 128).
Section Ranges.
Context (t r : lane) (Ht : full t) (Hr : full r) (Hn : 0 <= lane_bits t) (Hm : 0 <= lane_bits r).
Lemma unop_ranged f : ranged (Simd.Unop (unop t f)).
Proof. intros c v. apply collected_range; [now rewrite lanes_length|exact Hn]. Qed.
Lemma binop_ranged f : ranged (Simd.Binop (binop t f)).
Proof. intros c1 c2 v. apply collected_range; [|exact Hn]. now rewrite (zip_length _ _ (lane_count t)) by apply lanes_length. Qed.
Lemma ternop_ranged f : ranged (Simd.Ternop (ternop t f)).
Proof.
  intros c1 c2 c3 v. apply collected_range; [|exact Hn]. rewrite (zip_length _ _ (lane_count t)); [exact Ht|apply lanes_length|].
  apply zip_length; apply lanes_length.
Qed.
Lemma shift_ranged m f : ranged (Simd.Shift m (fun k => unop t (f k))).
Proof. intros k c v. apply collected_range; [now rewrite lanes_length|exact Hn]. Qed.
Lemma narrow_ranged f : (2 * lane_count t)%nat = lane_count r -> ranged (Simd.Binop (narrow t r f)).
Proof.
  intros E c1 c2 v [= <-]. apply merge_full; [|exact Hm]. rewrite length_app, !length_map, !lanes_length. rewrite <- Hr. f_equal. lia.
Qed.
Context (E : lane_count t = (2 * lane_count r)%nat).
Lemma extend_ranged high : ranged (Simd.Unop (extend t r high)).
Proof. intros c v <-%(inj Some). apply merge_full; [|exact Hm]. now rewrite half_length by now rewrite lanes_length. Qed.
Lemma extadd_ranged : ranged (Simd.Unop (extadd_pairwise t r)).
Proof. intros c v. apply collected_range; [|exact Hm]. now rewrite (pairs_length _ (lane_count r)) by now rewrite lanes_length. Qed.
Lemma extmul_ranged high : ranged (Simd.Binop (extmul t r high)).
Proof.
  intros c1 c2 v. apply collected_range; [|exact Hm]. rewrite (zip_length _ _ (lane_count r)); [exact Hr|..]; now rewrite half_length by now rewrite lanes_length.
Qed.
End Ranges.
Section FloatRanges.
Context (t r : lane) (Hr : full r) (Hm : 0 <= lane_bits r) (E : lane_count t = lane_count r).
Lemma apply_ranged f : ranged (Simd.Unop (apply t r f)).
Proof. intros c v <-%(inj Some). apply merge_full; [|exact Hm]. now rewrite length_map, lanes_length, E. Qed.
Lemma apply2_ranged f : ranged (Simd.Binop (apply2 t r f)).
Proof. intros c1 c2 v <-%(inj Some). apply merge_full; [|exact Hm]. rewrite length_map, (zip_length _ _ (lane_count r)); [exact Hr|..]; now rewrite lanes_length. Qed.
End FloatRanges.
Lemma zero_ranged f : ranged (Simd.Unop (apply_f64x2_zero f)).
Proof. intros c v <-%(inj Some). apply merge_full; [|easy]. now rewrite length_app, length_map, lanes_length. Qed.
Lemma low_ranged t f : lane_count t = 4%nat -> ranged (Simd.Unop (apply_f32x4_low t f)).
Proof. intros E c v [= <-]. apply merge_full; [|easy]. now rewrite length_map, length_take, lanes_length, E. Qed.
Lemma swizzle_ranged : ranged (Simd.Binop swizzle).
Proof. intros c1 c2 v <-%(inj Some). apply merge_full; [|easy]. now rewrite length_map, lanes_length. Qed.
Lemma dot_ranged : ranged (Simd.Binop dot).
Proof.
  intros c1 c2 v. apply collected_range; [|easy]. rewrite (zip_length _ _ 4); [reflexivity|..]; apply pairs_length; now rewrite lanes_length.
Qed.
Lemma relaxed_dot_ranged : ranged (Simd.Binop relaxed_dot).
Proof.
  intros c1 c2 v. apply collected_range; [|easy]. rewrite (zip_length _ _ 8); [reflexivity|..]; apply pairs_length; now rewrite lanes_length.
Qed.
Lemma relaxed_dot_add_ranged : ranged (Simd.Ternop relaxed_dot_add).
Proof. intros c1 c2 c3 v. apply collected_range; [|easy]. now rewrite (zip_length _ _ 4) by now rewrite ?lanes_length. Qed.
Lemma handler_ranged `{SoftFloat} `{HostFloat} op : ranged (vec_handler op).
Proof.
  destruct op; cbn [vec_handler];
    first [exact I
      |refine (unop_ranged _ _ _ _); easy|refine (binop_ranged _ _ _ _); easy|refine (ternop_ranged _ _ _ _); easy
      |refine (shift_ranged _ _ _ _ _); easy|refine (narrow_ranged _ _ _ _ _ _); easy
      |refine (extend_ranged _ _ _ _ _ _); easy|refine (extadd_ranged _ _ _ _ _); easy|refine (extmul_ranged _ _ _ _ _ _); easy
      |refine (apply_ranged _ _ _ _ _ _); easy|refine (apply2_ranged _ _ _ _ _ _); easy|apply zero_ranged
      |refine (low_ranged _ _ _); easy|apply swizzle_ranged|apply dot_ranged|apply relaxed_dot_ranged|apply relaxed_dot_add_ranged].
Qed.

(** *** Definedness *)
Lemma reference_defined h r : meets_reference h r (fun _ => false) -> defined h.
Proof. destruct h, r; cbn; try easy; intros H; intros; rewrite H by assumption; eauto. Qed.
Lemma ternop_pure t f : defined (Simd.Ternop (ternop t (fun a b c => Some (f a b c)))).
Proof.
  intros c1 c2 c3 _ _ _. unfold ternop. rewrite (collect_some _ (fun p => f p.1 p.2.1 p.2.2)) by now apply List.Forall_forall.
  eauto.
Qed.
(** The sum of two products narrowed to 16 bits fits an [int]. *)
Lemma relaxed_dot_defined : defined (Simd.Binop relaxed_dot).
Proof.
  intros c1 c2 _ _. unfold relaxed_dot.
  set (g := fun p : (Z * Z) * (Z * Z) => cast i16 (p.1.1 * p.2.1) + cast i16 (p.1.2 * p.2.2)).
  rewrite (collect_some _ g); [cbn; eauto|]. apply List.Forall_forall. intros p _. unfold arith, checked_int. cbn [lane_bits lane_signed i16].
  assert (B : forall x, - 32768 <= cast i16 x < 32768) by (intros x; exact (signed_range 16 ltac:(lia) (wrap 16 x) (wrap_range 16 ltac:(lia) x))).
  pose proof (B (p.1.1 * p.2.1)). pose proof (B (p.1.2 * p.2.2)). fold (g p). unfold g at 1 2. change (16 <? 32) with true. cbv iota.
  change (2 ^ (32 - 1)) with 2147483648.
  destruct (Z.leb_spec (- (2147483648)) (cast i16 (p.1.1 * p.2.1) + cast i16 (p.1.2 * p.2.2))); [|lia].
  destruct (Z.ltb_spec (cast i16 (p.1.1 * p.2.1) + cast i16 (p.1.2 * p.2.2)) 2147483648); [|lia]. reflexivity.
Qed.
Lemma handler_defined `{SoftFloat} `{HostFloat} op : may_overflow op = false -> defined (vec_handler op).
Proof.
  intros Hop. destruct (reference_of op) as [r|] eqn:E.
  - apply (reference_defined _ r). pose proof (handlers_meet op r E) as M. destruct op; try discriminate Hop; exact M.
  - destruct op; try discriminate E; try discriminate Hop; cbn [vec_handler];
      first [exact I|apply ternop_pure|apply relaxed_dot_defined|intros c _; eexists; reflexivity|intros c1 c2 _ _; eexists; reflexivity].
Qed.
