(* ===== verification/Invariants.v ===== *)
(** * Invariants of execution

    Safety properties that hold of every instruction the interpreter can
    dispatch, proved compositionally: each primitive operation of the context
    is shown to respect a step relation on states, the relation is a preorder,
    and so every handler, the dispatch loop and [execute] respect it, whether
    they return or trap. *)
From Stdlib Require Import ZArith Lia Bool String.
From stdpp Require Import base list numbers decidable option gmap.
From S2P Require Import Prelude Types Stack Memory Numeric Softfloat InitExpr Context Interp Handlers Demo.
Import Opcode.

(** ** Stacks *)
Section StackStep.
Context {E : Type}.

(** The vector never shrinks and the index stays inside it. *)
Record stk_step (s s' : stack E) : Prop := {
  ss_len : (length (st_store s) <= length (st_store s'))%nat;
  ss_wf : stack_wf s -> stack_wf s' }.

#[global] Instance stk_step_preorder : PreOrder stk_step.
Proof.
  split; [intros s; split; auto|]. intros s1 s2 s3 [L1 W1] [L2 W2]. split; [lia|auto].
Qed.

Lemma stk_push d e : keeps stk_step (push d e).
Proof.
  intros s. unfold push. destruct (Nat.leb_spec (length (st_store s)) (st_index s)) as [Hl|Hl].
  - destruct (Nat.ltb_spec (st_index s) (length (st_store s ++ repeat d (length (st_store s))))) as [Hi|]; [|exact I].
    rewrite length_app, repeat_length in Hi.
    split; [|intros [? ?]; split]; cbn; rewrite length_insert, length_app, repeat_length; lia.
  - destruct (Nat.ltb_spec (st_index s) (length (st_store s))); [|exact I].
    split; [|intros [? ?]; split]; cbn; rewrite length_insert; lia.
Qed.
Lemma stk_pop : keeps stk_step pop.
Proof.
  intros s. unfold pop. destruct (0 <? st_index s)%nat; [|reflexivity].
  destruct (st_store s !! pred (st_index s)) eqn:El; [|exact I]. apply lookup_lt_Some in El.
  split; cbn; [lia|]. intros [? ?]. split; cbn; lia.
Qed.
Lemma stk_peek i : keeps stk_step (peek i).
Proof. intros s. unfold peek. destruct (vec_lookup _ _); [reflexivity|exact I]. Qed.
Lemma stk_get_at i : keeps stk_step (get_at i).
Proof. intros s. unfold get_at. destruct (_ <=? _); [|reflexivity]. destruct (vec_lookup _ _); [reflexivity|exact I]. Qed.

(** A state with as long a vector and the same index. *)
Lemma stk_same s store : length store = length (st_store s) ->
  stk_step s {| st_store := store; st_index := st_index s |}.
Proof. intros E0. split; cbn; [lia|]. unfold stack_wf; cbn. lia. Qed.

Lemma stk_poke i e : keeps stk_step (poke i e).
Proof.
  intros s. unfold poke. cbv zeta. destruct (vec_lookup _ _); [|exact I]. apply stk_same, vec_update_length.
Qed.
Lemma stk_set_at i e : keeps stk_step (set_at i e).
Proof.
  intros s. unfold set_at. destruct (_ <=? _); [|reflexivity].
  destruct (vec_lookup _ _); [|exact I]. apply stk_same, vec_update_length.
Qed.
Lemma stk_eat i : keeps stk_step (eat i).
Proof.
  intros s. unfold eat. destruct (Z.ltb_spec i 0); [exact I|].
  destruct (Z.leb_spec i (vec_size (st_store s))) as [Hi|]; [|reflexivity]. unfold vec_size in Hi.
  split; cbn; [lia|]. unfold stack_wf; cbn. lia.
Qed.

Lemma copy_slot_length dst src (l l' : list E) : copy_slot dst src l = Some l' ->
  length l' = length l /\ 0 <= dst < Z.of_nat (length l).
Proof.
  unfold copy_slot. destruct (vec_lookup l src); [|discriminate].
  destruct (vec_lookup l dst) eqn:Ed; [|discriminate]. intros [= <-].
  apply vec_lookup_lt in Ed. rewrite vec_update_length. auto.
Qed.
Lemma stk_compact i : keeps stk_step (compact i).
Proof.
  intros s. unfold compact. destruct (copy_slot _ _ _) eqn:Ec; [|exact I].
  apply copy_slot_length in Ec as [L B]. split; cbn; [lia|]. unfold stack_wf; cbn. lia.
Qed.
Lemma copy_slots_length n dst src (l l' : list E) : copy_slots n dst src l = Some l' ->
  length l' = length l /\ ((0 < n)%nat -> dst + Z.of_nat n <= Z.of_nat (length l)).
Proof.
  revert dst src l. induction n as [|n IH]; intros dst src l; cbn [copy_slots].
  - intros [= <-]. split; [reflexivity|lia].
  - destruct (copy_slot dst src l) as [l1|] eqn:E1; [|discriminate].
    apply copy_slot_length in E1 as [L1 B1]. intros H2. apply IH in H2 as [L2 B2].
    split; [lia|]. intros _. destruct n; [lia|]. specialize (B2 ltac:(lia)). lia.
Qed.
Lemma stk_compact_n i n : 0 < n -> keeps stk_step (compact_n i n).
Proof.
  intros Hn s. unfold compact_n. destruct (Z.ltb_spec i 0); [exact I|].
  destruct (copy_slots _ _ _ _) eqn:Ec; [|exact I].
  apply copy_slots_length in Ec as [L B]. specialize (B ltac:(lia)).
  split; cbn; [lia|]. unfold stack_wf; cbn. lia.
Qed.

End StackStep.
#[export] Hint Resolve stk_push stk_pop stk_peek stk_get_at stk_poke stk_set_at stk_eat stk_compact : keeps.

(** ** Memory *)

(** The configuration is fixed and pages are only added, up to the limit. *)
Record alloc_step (a a' : wasm_allocator) : Prop := {
  as_external : external_ a' = external_ a;
  as_limit : max_pages_limit_ a' = max_pages_limit_ a;
  as_sys : syspagesize a' = syspagesize a;
  as_page : page a <= page a';
  as_bound : page a <= max_pages_limit_ a -> page a' <= max_pages_limit_ a }.

#[global] Instance alloc_step_preorder : PreOrder alloc_step.
Proof.
  split; [intros a; split; auto; lia|].
  intros a1 a2 a3 [] []. split; congruence || lia.
Qed.

Lemma alloc_modify_raw f : keeps alloc_step (modify (upd_raw f)).
Proof. apply keeps_modify. intros a. split; cbn; auto; lia. Qed.
Lemma alloc_access addr n : keeps alloc_step (access addr n).
Proof. unfold access, oob_trap. keeps. Qed.
#[export] Hint Resolve alloc_modify_raw alloc_access : keeps.

Lemma alloc_read addr n : keeps alloc_step (read_unaligned addr n).
Proof. unfold read_unaligned. keeps. Qed.
Lemma alloc_write addr n v : keeps alloc_step (write_unaligned addr n v).
Proof. unfold write_unaligned. keeps. Qed.
Lemma alloc_validate sz p n : keeps alloc_step (validate_pointer sz p n).
Proof. unfold validate_pointer, oob_trap. keeps. Qed.
Lemma alloc_alloc n : 0 <= n -> keeps alloc_step (alloc n).
Proof.
  intros Hn s. unfold alloc. destruct (Z.eqb_spec n 0); [cbn; reflexivity|].
  unfold bind, get, psizam_assert, ret, throw, modify.
  destruct (Z.leb_spec 0 (page s)); [|cbn; reflexivity].
  destruct (Z.leb_spec (n + page s) (max_pages_limit_ s)); [|cbn; reflexivity].
  unfold update_stored_mem_size. cbn -[Z.leb]. destruct (0 <=? page s + n); split; cbn; auto; lia.
Qed.
Lemma alloc_result n a : 0 <= n ->
  match alloc n a with Ok _ a' => page a' = page a + n /\ (n = 0 \/ 0 <= page a) | Throw _ a' => a' = a | UB => True end.
Proof.
  intros Hn. unfold alloc. destruct (Z.eqb_spec n 0); [cbn; lia|].
  unfold bind, get, psizam_assert, ret, throw, modify.
  destruct (Z.leb_spec 0 (page a)); [|reflexivity]. destruct (_ <=? _); [|reflexivity].
  rewrite update_stored_page. cbn. auto.
Qed.
#[export] Hint Resolve alloc_read alloc_write alloc_validate alloc_alloc : keeps.

(** ** The base context *)
Section BaseStep.
Context {H : Type}.

(** Pages stay within the allocator's limit, the instance's limit and the
    module's declared maximum. *)
Definition pages_ok (b : base H) : Prop :=
  page (_wasm_alloc b) <= max_pages_limit_ (_wasm_alloc b) /\
  match m_memories (_mod b) with
  | [] => True
  | m :: _ =>
      -1 <= page (_wasm_alloc b) <= _max_pages b /\ _max_pages b < 2 ^ 32 /\
      (lim_flags (mt_limits m) = true -> page (_wasm_alloc b) <= lim_maximum (mt_limits m) < 2 ^ 32)
  end.

(** The recorded size of each table is the length of its storage. *)
Definition tables_ok (b : base H) : Prop :=
  _table_sizes b = map vec_size (_table_data b) /\ Forall (fun n => n < 2 ^ 32) (_table_sizes b) /\
  Forall (fun t => lim_maximum (tt_limits t) < 2 ^ 32) (m_tables (_mod b)).

(** Globals declared immutable keep their value. *)
Definition globals_step (b b' : base H) : Prop :=
  length (_globals b') = length (_globals b) /\
  forall i gv, vec_lookup (m_globals (_mod b)) i = Some gv -> mutability (gv_type gv) = false ->
    vec_lookup (_globals b') i = vec_lookup (_globals b) i.

Record base_step (b b' : base H) : Prop := {
  bs_mod : _mod b' = _mod b;
  bs_config : _max_pages b' = _max_pages b /\ _table b' = _table b /\ _fp b' = _fp b /\
              _mem_mode b' = _mem_mode b /\ _checked_kind b' = _checked_kind b /\
              handler (_gas b') = handler (_gas b);
  bs_alloc : alloc_step (_wasm_alloc b) (_wasm_alloc b');
  bs_pages : pages_ok b -> pages_ok b';
  bs_tables : length (_table_data b') = length (_table_data b) /\ (tables_ok b -> tables_ok b');
  bs_globals : globals_step b b' }.

#[global] Instance base_step_preorder : PreOrder base_step.
Proof.
  split.
  - intros b. split; auto 10; [reflexivity|]. split; auto.
  - intros b1 b2 b3 [M1 C1 A1 P1 T1 [L1 G1]] [M2 C2 A2 P2 T2 [L2 G2]]. split.
    + congruence.
    + intuition congruence.
    + now transitivity (_wasm_alloc b2).
    + auto.
    + split; [lia|]. tauto.
    + split; [lia|]. intros i gv Hg Hi. rewrite (G2 i gv), (G1 i gv); auto. now rewrite M1.
Qed.

(** Updates of the fields the relation does not mention. *)
Lemma base_step_gas b g : handler g = handler (_gas b) -> base_step b (b <| _gas := g |>).
Proof. intros Hg. split; cbn; auto 10; [reflexivity|]. split; auto. Qed.
Lemma base_step_watermark b v : base_step b (b <| _read_watermark := v |>).
Proof. split; cbn; auto 10; [reflexivity|]. split; auto. Qed.
Lemma base_step_dropped_elems b v : base_step b (b <| _dropped_elems := v |>).
Proof. split; cbn; auto 10; [reflexivity|]. split; auto. Qed.
Lemma base_step_dropped_data b v : base_step b (b <| _dropped_data := v |>).
Proof. split; cbn; auto 10; [reflexivity|]. split; auto. Qed.

(** Memory operations that do not change the number of pages. *)
Definition same_pages (a a' : wasm_allocator) : Prop := alloc_step a a' /\ page a' = page a.
#[global] Instance same_pages_preorder : PreOrder same_pages.
Proof.
  split; [intros a; split; reflexivity|]. intros a1 a2 a3 [S1 P1] [S2 P2].
  split; [now transitivity a2|congruence].
Qed.

Lemma base_step_alloc b a : same_pages (_wasm_alloc b) a -> base_step b (b <| _wasm_alloc := a |>).
Proof.
  intros [A P]. split; cbn; auto 10.
  - unfold pages_ok. cbn. destruct A. rewrite P, as_limit0. auto.
  - split; auto.
Qed.

Lemma same_modify f : keeps same_pages (modify (upd_raw f)).
Proof. apply keeps_modify. intros a. split; [split; cbn; auto 10; lia|reflexivity]. Qed.
Lemma same_access addr n : keeps same_pages (access addr n).
Proof. unfold access, oob_trap. keeps. Qed.
#[local] Hint Resolve same_modify same_access : keeps.
Lemma same_read addr n : keeps same_pages (read_unaligned addr n).
Proof. unfold read_unaligned. keeps. Qed.
Lemma same_write addr n v : keeps same_pages (write_unaligned addr n v).
Proof. unfold write_unaligned. keeps. Qed.
Lemma same_validate sz p n : keeps same_pages (validate_pointer sz p n).
Proof. unfold validate_pointer, oob_trap. keeps. Qed.

Lemma base_on_alloc {A} (m : M wasm_allocator A) : keeps same_pages m -> keeps base_step (on_alloc m).
Proof. intros Hm. unfold on_alloc. eapply keeps_zoom; [|exact Hm]. intros. now apply base_step_alloc. Qed.

Lemma base_read addr n : keeps base_step (on_alloc (read_unaligned addr n)).
Proof. apply base_on_alloc, same_read. Qed.
Lemma base_write addr n v : keeps base_step (on_alloc (write_unaligned addr n v)).
Proof. apply base_on_alloc, same_write. Qed.
Lemma base_validate sz p n : keeps base_step (on_alloc (validate_pointer sz p n)).
Proof. apply base_on_alloc, same_validate. Qed.
Lemma base_modify_raw f : keeps base_step (on_alloc (modify (upd_raw f))).
Proof. apply base_on_alloc, same_modify. Qed.
#[local] Hint Resolve base_read base_write base_validate base_modify_raw : keeps.

Lemma base_track_max e : keeps base_step (track_read_max e).
Proof. apply keeps_modify. intros b. destruct (_ <? _); [apply base_step_watermark|reflexivity]. Qed.
Lemma base_track_or e : keeps base_step (track_read_or e).
Proof. apply keeps_modify. intros b. apply base_step_watermark. Qed.
Lemma base_validate_watermark : keeps base_step validate_read_watermark.
Proof. unfold validate_read_watermark. keeps; apply keeps_modify; intros; apply base_step_watermark. Qed.
Lemma base_gas_charge cost : keeps base_step (gas_charge cost).
Proof.
  unfold gas_charge. apply keeps_bind; [exact _|apply keeps_modify; intros; now apply base_step_gas|intros _].
  apply keeps_bind; [exact _|apply keeps_get; exact _|intros b]. cbv beta.
  destruct (deadline (_gas b) <=? consumed (_gas b)); [|apply keeps_ret; exact _].
  destruct (handler (_gas b)) as [h|]; [|apply keeps_throw; exact _].
  destruct (h (consumed (_gas b)) (deadline (_gas b))) as [[c d]|e]; [apply keeps_modify; intros; now apply base_step_gas|intros s; reflexivity].
Qed.

(** Growing memory: the checks are exactly what [pages_ok] needs. *)
Lemma wrap_headroom m sz d : -1 <= sz <= m -> m < 2 ^ 32 -> 0 <= m ->
  (wrap 32 (m - sz) <? d) = false -> 0 <= d < 2 ^ 32 -> sz + d <= m.
Proof.
  intros H1 H2 H3 H4 Hd. apply Z.ltb_ge in H4. unfold wrap in H4.
  destruct (Z.eq_dec (m - sz) (2 ^ 32)) as [E|E].
  - rewrite E in H4. rewrite Z.mod_same in H4 by lia. lia.
  - rewrite Z.mod_small in H4 by lia. lia.
Qed.

Lemma base_grow pages : keeps base_step (grow_linear_memory pages).
Proof.
  intros b. unfold grow_linear_memory, bind, get.
  destruct (m_memories (_mod b)) as [|m ms] eqn:Em; [cbn; reflexivity|].
  pose proof (wrap_range 32 ltac:(lia) pages) as Hd. unfold in_u in Hd.
  destruct (_ || _) eqn:Ec; [cbn; reflexivity|]. apply orb_false_iff in Ec as [E1 E2].
  destruct (Z.ltb_spec 0 (wrap 32 pages)) as [Hpos|]; [|cbn; reflexivity].
  pose proof (alloc_alloc (wrap 32 pages) ltac:(lia) (_wasm_alloc b)) as Ha.
  unfold on_alloc, zoom. destruct (alloc (wrap 32 pages) (_wasm_alloc b)) as [[] a|e a|] eqn:Ea; [| |exact I].
  - pose proof (alloc_result (wrap 32 pages) (_wasm_alloc b) ltac:(lia)) as Hp. rewrite Ea in Hp.
    destruct Hp as [Hp Hp0]. split; cbn; auto 10; [|split; auto].
    unfold pages_ok. cbn. rewrite Em. intros (P1 & P2 & P3 & P4).
    destruct Ha as [_ Hl _ _ Hb]. rewrite Hl. split; [auto|]. rewrite Hp.
    assert (page (_wasm_alloc b) + wrap 32 pages <= _max_pages b).
    { eapply wrap_headroom; eauto; lia. }
    split; [lia|]. split; [lia|]. intros Hf. specialize (P4 Hf). rewrite Hf in E2. cbn in E2.
    assert (page (_wasm_alloc b) + wrap 32 pages <= lim_maximum (mt_limits m)); [|lia].
    eapply wrap_headroom; eauto; lia.
  - pose proof (alloc_result (wrap 32 pages) (_wasm_alloc b) ltac:(lia)) as Hp. rewrite Ea in Hp. subst a.
    apply base_step_alloc. reflexivity.
Qed.

(** Tables *)
Lemma base_step_table b t tbl tbl' :
  vec_lookup (_table_data b) t = Some tbl -> vec_size tbl' = vec_size tbl ->
  base_step b (b <| _table_data := vec_update (_table_data b) t tbl' |>).
Proof.
  intros Hl Hs. split; cbn; auto 10; [reflexivity| |split; auto].
  split; [apply vec_update_length|]. unfold tables_ok. cbn. intros (E & F). split; [|exact F].
  rewrite map_vec_update, Hs, E, vec_update_same; [reflexivity|]. now rewrite vec_lookup_map, Hl.
Qed.

Lemma clobber_same e a : same_pages a (clobber_mem_size e a).
Proof. split; [split; cbn; auto 10; lia|reflexivity]. Qed.

Lemma base_table_store t i e : keeps base_step (table_store t i e).
Proof.
  intros b. unfold table_store, bind, get. destruct (vec_lookup (_table_data b) t) as [tbl|] eqn:Et; [|exact I].
  destruct (vec_lookup tbl i); [|exact I]. unfold modify.
  pose proof (base_step_table b t tbl (vec_update tbl i e) Et (vec_update_size _ _ _)) as S1.
  destruct (_ && _); cbn; [|exact S1]. etrans; [exact S1|].
  exact (base_step_alloc (b <| _table_data := _ |>) _ (clobber_same e _)).
Qed.
Lemma base_table_store_list t i l : keeps base_step (table_store_list t i l).
Proof.
  revert i. induction l as [|e l IH]; intros i; cbn [table_store_list]; [apply keeps_ret; exact _|].
  apply keeps_bind; [exact _|apply base_table_store|auto].
Qed.
Lemma base_table_load t i : keeps base_step (table_load t i).
Proof. unfold table_load. keeps. Qed.
Lemma base_table_size_at t : keeps base_step (table_size_at t).
Proof. unfold table_size_at. keeps. Qed.
Lemma base_get_table_base t : keeps base_step (get_table_base t).
Proof. unfold get_table_base. keeps. Qed.
Lemma base_get_table_size t : keeps base_step (get_table_size t).
Proof. unfold get_table_size. keeps. Qed.
#[local] Hint Resolve base_table_store base_table_store_list base_table_load base_table_size_at
  base_get_table_base base_get_table_size : keeps.
Lemma base_table_elem i t : keeps base_step (table_elem i t).
Proof. unfold table_elem. keeps. Qed.
Lemma base_get_table_ptr i n t : keeps base_step (get_table_ptr i n t).
Proof. unfold get_table_ptr. keeps. Qed.
Lemma base_init_table x d s n t : keeps base_step (init_table x d s n t).
Proof. unfold init_table. keeps. Qed.
Lemma base_table_fill t i v n : keeps base_step (table_fill t i v n).
Proof. unfold table_fill. keeps. Qed.
Lemma base_drop_elem x : keeps base_step (drop_elem x).
Proof. unfold drop_elem. keeps. apply keeps_modify. intros. apply base_step_dropped_elems. Qed.
Lemma base_drop_data x : keeps base_step (drop_data x).
Proof. unfold drop_data. keeps. apply keeps_modify. intros. apply base_step_dropped_data. Qed.
Lemma base_init_memory x d s n : keeps base_step (init_linear_memory x d s n).
Proof. unfold init_linear_memory. keeps. Qed.

Lemma base_table_grow t delta e : keeps base_step (table_grow t delta e).
Proof.
  intros b. unfold table_grow, table_size_at, vec_index, bind, get.
  destruct (vec_lookup (_table_sizes b) t) as [old|] eqn:Es; [|exact I].
  unfold bind, get, ret. destruct (vec_lookup (m_tables (_mod b)) t) as [ty|] eqn:Et; [|exact I].
  set (d := wrap 32 delta). assert (Hd : 0 <= d) by apply (wrap_range 32 ltac:(lia) delta).
  set (mx := if lim_flags _ then _ else _).
  destruct (Z.ltb_spec mx (old + d)) as [|Hmx]; [cbn; reflexivity|].
  destruct (vec_lookup (_table_data b) t) as [tbl|] eqn:Ed; [|exact I].
  destruct (Z.ltb_spec (vec_size tbl) old) as [|Hold]; [exact I|].
  unfold modify. set (nd := take _ _ ++ _).
  assert (Step : base_step b (b <| _table_data := vec_update (_table_data b) t nd |>
                                <| _table_sizes := vec_update (_table_sizes b) t (wrap 32 (old + d)) |>)).
  { split; cbn; auto 10; [reflexivity| |split; auto].
    split; [apply vec_update_length|]. unfold tables_ok. cbn. intros (E & F & G).
    assert (Eold : old = vec_size tbl).
    { rewrite E, vec_lookup_map, Ed in Es. cbn in Es. congruence. }
    assert (Hm : mx < 2 ^ 32).
    { unfold mx. destruct (lim_flags _); [|lia]. apply vec_lookup_Some in Et as [_ Et].
      rewrite Forall_lookup in G. now apply (G _ _ Et). }
    assert (Hn : vec_size nd = old + d).
    { unfold nd, vec_size in *. rewrite length_app, length_take, repeat_length. lia. }
    rewrite wrap_small by (unfold in_u; unfold vec_size in *; lia).
    repeat split; [|apply Forall_vec_update; auto; lia|exact G].
    now rewrite map_vec_update, Hn, E. }
  destruct (t =? 0); cbn; [|exact Step]. destruct Step as [S1 S2 S3 S4 S5 S6]. split; auto.
Qed.
End BaseStep.
#[export] Hint Resolve base_read base_write base_validate base_modify_raw base_track_max base_track_or
  base_validate_watermark base_gas_charge base_grow base_table_store base_table_load base_get_table_base
  base_get_table_size base_table_elem base_get_table_ptr base_init_table base_table_fill base_drop_elem
  base_drop_data base_init_memory base_table_grow : keeps.

(** ** The execution context *)
Section CtxStep.
Context {H : Type}.

Record ctx_step (c c' : ctx H) : Prop := {
  cs_base : base_step (_base c) (_base c');
  cs_os : stk_step (_os c) (_os c');
  cs_as : stk_step (_as c) (_as c');
  cs_idx : _as_index c' = _as_index c /\ _os_index c' = _os_index c;
  cs_exn : _eh_exn_stack c `prefix_of` _eh_exn_stack c' }.

#[global] Instance ctx_step_preorder : PreOrder ctx_step.
Proof.
  split.
  - intros c. split; (reflexivity || auto).
  - intros c1 c2 c3 [B1 O1 A1 I1 X1] [B2 O2 A2 I2 X2]. split.
    + now transitivity (_base c2).
    + now transitivity (_os c2).
    + now transitivity (_as c2).
    + intuition congruence.
    + now transitivity (_eh_exn_stack c2).
Qed.

Lemma ctx_on_base {A} (m : M (base H) A) : keeps base_step m -> keeps ctx_step (on_base m).
Proof. intros Hm. eapply keeps_zoom; [|exact Hm]. intros c b Hb. split; cbn; auto 10; reflexivity. Qed.
Lemma ctx_on_os {A} (m : M (stack elem) A) : keeps stk_step m -> keeps ctx_step (on_os m : M (ctx H) A).
Proof. intros Hm. eapply keeps_zoom; [|exact Hm]. intros c b Hb. split; cbn; auto 10; reflexivity. Qed.
Lemma ctx_on_as {A} (m : M (stack activation_frame) A) :
  keeps stk_step m -> keeps ctx_step (on_as m : M (ctx H) A).
Proof. intros Hm. eapply keeps_zoom; [|exact Hm]. intros c b Hb. split; cbn; auto 10; reflexivity. Qed.

(** An update of the other fields. *)
Lemma ctx_modify (f : ctx H -> ctx H) :
  (forall c, _base (f c) = _base c /\ _os (f c) = _os c /\ _as (f c) = _as c /\
             _as_index (f c) = _as_index c /\ _os_index (f c) = _os_index c /\
             _eh_exn_stack c `prefix_of` _eh_exn_stack (f c)) ->
  keeps ctx_step (modify f).
Proof.
  intros Hf. apply keeps_modify. intros c. destruct (Hf c) as (E1 & E2 & E3 & E4 & E5 & E6).
  split; rewrite ?E1, ?E2, ?E3; auto; reflexivity.
Qed.
End CtxStep.
#[export] Hint Resolve ctx_on_base ctx_on_os ctx_on_as : keeps.
#[export] Hint Extern 1 (keeps ctx_step (modify _)) => (apply ctx_modify; intros; cbn; auto 8) : keeps.

(** ** Every operation respects the relation *)
Section Handlers.
Context {H : Type}.
Abbreviation X := (M (ctx H)).
Definition ctx_ok A (m : X A) : Prop := keeps ctx_step m.
Abbreviation ok := (keeps (@ctx_step H)).

Lemma stk_os_op {A} (m : M (stack elem) A) : os_op m -> keeps stk_step m.
Proof. destruct 1; auto with keeps. now apply stk_compact_n. Qed.
Lemma base_base_op {A} (m : M (base H) A) : base_op m -> keeps base_step m.
Proof. destruct 1; auto with keeps. Qed.

#[global] Instance ctx_op_inv : OpInv ctx_ok.
Proof.
  split; unfold respects, ctx_ok.
  - intros. apply keeps_ret. exact _.
  - intros A B m k. apply keeps_bind. exact _.
  - intros. apply keeps_throw. exact _.
  - intros. apply keeps_undefined.
  - intros. apply keeps_gets. exact _.
  - intros A m Hm. now apply ctx_on_base, base_base_op.
  - intros A m Hm. now apply ctx_on_os, stk_os_op.
  - intros f Hf. apply ctx_modify. intros c. destruct (Hf c) as (?&?&?&?&?&_&->). auto 8.
Qed.

(** Frames and the call-depth budget. *)
Lemma ok_on_as {A} (m : M (stack activation_frame) A) : keeps stk_step m -> respects ctx_ok (on_as m).
Proof. exact (ctx_on_as m). Qed.
Lemma ok_push_frame f : respects ctx_ok (push_frame f). Proof. apply ok_on_as; auto with keeps. Qed.
Lemma ok_pop_call : respects ctx_ok (pop_call (H:=H)). Proof. apply ok_on_as; auto with keeps. Qed.
#[local] Hint Resolve ok_on_as ok_push_frame ok_pop_call stk_peek stk_poke : inv.
#[local] Hint Extern 2 (respects ctx_ok (modify _)) => (apply ctx_modify; intros; cbn; auto 8) : inv.

(** Globals: [set_global] writes only after checking mutability. *)
Lemma base_step_global (b : base H) i gv g :
  vec_lookup (m_globals (_mod b)) i = Some gv -> mutability (gv_type gv) = true ->
  base_step b (b <| _globals := vec_update (_globals b) i g |>).
Proof.
  intros Hl Hm. split; cbn; auto 10; [reflexivity|]. split; cbn; [apply vec_update_length|].
  intros j gv' Hj Hi. assert (i <> j) by congruence.
  unfold vec_lookup, vec_update in *. destruct (Z.ltb_spec j 0); [reflexivity|].
  destruct (Z.ltb_spec i 0); [reflexivity|]. apply list_lookup_insert_ne. lia.
Qed.

Lemma store_global_step i w x (c : ctx H) gv :
  vec_lookup (m_globals (_mod (_base c))) i = Some gv -> mutability (gv_type gv) = true ->
  match store_global i w x c with Ok _ c' | Throw _ c' => ctx_step c c' | UB => True end.
Proof.
  intros Hl Hm. unfold store_global, bind, gets, vec_index.
  destruct (vec_lookup (_globals (_base c)) i); [|exact I].
  cbn. split; cbn; auto 10; try reflexivity. eapply base_step_global; eauto.
Qed.

Lemma assert_store_step b k msg i w x (c : ctx H) gv :
  vec_lookup (m_globals (_mod (_base c))) i = Some gv -> mutability (gv_type gv) = true ->
  match (psizam_assert b k msg ;;; store_global i w x) c with
  | Ok _ c' | Throw _ c' => ctx_step c c' | UB => True end.
Proof.
  intros. unfold bind, psizam_assert. destruct b; [|cbn; reflexivity]. cbn. eapply store_global_step; eauto.
Qed.

Lemma ok_set_global i e : ok (set_global i e).
Proof.
  intros c. unfold set_global, bind at 1, the_module, gets. unfold bind at 1, psizam_assert at 1.
  destruct (_ <? _); [|cbn; reflexivity]. unfold ret at 1, bind at 1, vec_index.
  destruct (vec_lookup _ i) as [gv|] eqn:Eg; [|exact I]. unfold ret at 1, bind at 1, psizam_assert at 1.
  destruct (mutability (gv_type gv)) eqn:Em; [|cbn; reflexivity]. unfold ret at 1.
  destruct e; eapply assert_store_step; eauto.
Qed.

(** A host function may rewrite linear memory and its own state. *)
Lemma ok_host_call i args : ok (host_call i args).
Proof.
  unfold host_call. keeps_step; [apply (inv_get_entry ctx_ok)|]. cbv beta. destruct (he_call _) as [f|]; [|auto with keeps].
  keeps_step; [auto with keeps|]. cbv beta. destruct (f _ _ _) as [[r h] mem].
  keeps_step; [|destruct r; [auto with keeps|intros c; reflexivity]].
  apply keeps_modify. intros c. split; cbn; try reflexivity; auto.
  assert (S1 : same_pages (_wasm_alloc (_base c)) (upd_raw (fun _ => mem) (_wasm_alloc (_base c))))
    by (split; [split; cbn; auto 10; lia|reflexivity]).
  pose proof (base_step_alloc (_base c) _ S1) as [B1 B2 B3 B4 B5 B6]. split; auto.
Qed.
(** A scope guard that restores a field outside of the relation. *)
Lemma ok_guard {A} (m : X A) (f : ctx H -> ctx H) : (forall c, ctx_step c (f c)) -> ok m ->
  ok (fun c => match m c with Ok a c' => Ok a (f c') | Throw e c' => Throw e (f c') | UB => UB end).
Proof. intros Hf Hm c. specialize (Hm c). destruct (m c); auto; (etrans; [exact Hm|apply Hf]). Qed.

#[global] Instance ctx_call_inv : CallInv ctx_ok.
Proof.
  assert (Hh : forall i args, respects ctx_ok (host_call i args)) by exact ok_host_call.
  assert (Hg : forall i, respects ctx_ok (charge_prologue i)).
  { intros i. unfold charge_prologue. inv_op. apply ctx_on_base, base_gas_charge. }
  refine {| inv_cost := fun _ => True |}; intros; try apply Hg.
  - exact (ok_set_global i e).
  - apply ctx_on_base, base_gas_charge.
  - unfold push_call. inv_op.
  - unfold apply_pop_call. do 3 (inv_step; cbv beta; [auto with inv|]). inv_step; [|auto with inv].
    destruct (r =? 1); [auto with inv|]. destruct (Z.ltb_spec 1 r); [|auto with inv].
    apply inv_os. constructor. lia.
  - unfold call_host. do 6 (inv_step; cbv beta; [auto with inv|]). cbv zeta. inv_step; [auto with inv|].
    apply ok_guard; [intros c; split; cbn; reflexivity || auto|].
    match goal with |- keeps _ ?m => change (respects ctx_ok m) end. inv_op.
  - unfold tail_call. inv_op.
  - unfold unwind_call_stack_to. inv_step; [auto with inv|]. generalize (Z.to_nat a) as n.
    induction n; cbn [unwind_loop]; inv_op.
  - unfold push_caught_exception. inv_step; [auto with inv|]. inv_step; [|auto with inv].
    apply ctx_modify. intros c. cbn. split_and!; auto. now apply prefix_app_r.
Defined.

Context {SF : SoftFloat} {HF : HostFloat}.
Lemma ok_run n : ok (run n).
Proof. apply (inv_run ctx_ok). intros []; exact I. Qed.
End Handlers.

(** ** Consequences for whole runs *)
Section Runs.
Context {SF : SoftFloat} {HF : HostFloat} {H : Type}.
Implicit Types c : ctx H.

(** [runs_to n c c']: dispatching at most [n] instructions from [c] ends in [c'],
    by returning or by a trap. *)
Definition runs_to (n : nat) (c c' : ctx H) : Prop :=
  match run n c with Ok _ x => x = c' | Throw _ x => x = c' | UB => False end.

Lemma runs_to_step n c c' : runs_to n c c' -> ctx_step c c'.
Proof.
  unfold runs_to. intros Hr. pose proof (ok_run n c) as Hs. destruct (run n c); subst; tauto.
Qed.

(** C25. Memory limits: no sequence of instructions, however it ends, removes a
    page of linear memory or takes it past the allocator's limit, the
    instance's [_max_pages] or the module's declared maximum. *)
Theorem run_memory_bounded n c c' :
  runs_to n c c' -> pages_ok (_base c) ->
  pages_ok (_base c') /\ page (_wasm_alloc (_base c)) <= page (_wasm_alloc (_base c')).
Proof. intros Hr Hp. destruct (runs_to_step n c c' Hr) as [[]]. destruct bs_alloc0. auto. Qed.

(** C27. Immutable globals: a global the module declares immutable has the same
    value after any run. *)
Theorem run_immutable_globals n c c' i gv :
  runs_to n c c' ->
  vec_lookup (m_globals (_mod (_base c))) i = Some gv -> mutability (gv_type gv) = false ->
  vec_lookup (_globals (_base c')) i = vec_lookup (_globals (_base c)) i.
Proof. intros Hr Hg Hm. destruct (runs_to_step n c c' Hr) as [[]]. destruct bs_globals0. eauto. Qed.

(** Table bookkeeping: any run keeps the number of tables and, for each, the
    recorded size equal to the length of the storage it indexes, so that the
    bounds checks on [_table_sizes] protect [_table_data]. *)
Theorem run_tables_consistent n c c' :
  runs_to n c c' -> tables_ok (_base c) ->
  tables_ok (_base c') /\ length (_table_data (_base c')) = length (_table_data (_base c)).
Proof. intros Hr Ht. destruct (runs_to_step n c c' Hr) as [[]]. tauto. Qed.

(** Execution of a body under [execute]. *)
Lemma ok_execute_body (loop : M (ctx H) unit) i args :
  keeps ctx_step loop -> keeps ctx_step (execute_body loop i args).
Proof.
  intros Hl. assert (Hh : forall i args, respects (@ctx_ok H) (host_call i args)) by exact ok_host_call.
  change (respects ctx_ok loop) in Hl. change (respects ctx_ok (execute_body loop i args)). unfold execute_body.
  pose proof (inv_push_call (P:=@ctx_ok H)). pose proof (inv_charge_prologue (P:=@ctx_ok H)). inv_op.
Qed.

Lemma vec_resize_length {A} (z : A) l n : length (vec_resize z l n) = n.
Proof. unfold vec_resize. rewrite length_app, length_take, repeat_length. lia. Qed.

(** The state [execute] enters the body in: the stack heights of the caller
    become the bases of the activation. *)
Definition entered c : ctx H := c <| _as_index := size (_as c) |> <| _os_index := size (_os c) |>.

(** What [execute] hands back to the caller [c] of a body that ended in [c2].
    The handlers [c] had are still those of [c] unless the body removed some of
    them; no instruction removes a caught exception. *)
Record restored c c2 c' : Prop := {
  re_base : _base c' = _base c2;
  re_os : _os c' = {| st_store := st_store (_os c2); st_index := st_index (_os c) |};
  re_as : _as c' = {| st_store := st_store (_as c2); st_index := st_index (_as c) |};
  re_state : _pc c' = _pc c /\ _as_index c' = _as_index c /\ _os_index c' = _os_index c /\ _exiting c' = _exiting c;
  re_last : _last_op_index c' = _last_op_index c;
  re_depth : _remaining_call_depth c' = _remaining_call_depth c;
  re_frames : _eh_stack c' = vec_resize frame_zero (_eh_stack c2) (length (_eh_stack c));
  re_clauses : _eh_catches c' = vec_resize catch_zero (_eh_catches c2) (length (_eh_catches c));
  re_own_frames : _eh_stack c `prefix_of` _eh_stack c2 -> _eh_stack c' = _eh_stack c;
  re_own_clauses : _eh_catches c `prefix_of` _eh_catches c2 -> _eh_catches c' = _eh_catches c;
  re_caught : _eh_exn_stack c' = _eh_exn_stack c }.

Lemma vec_resize_prefix {A} (z : A) l l' : l `prefix_of` l' -> vec_resize z l' (length l) = l.
Proof.
  intros [k ->]. unfold vec_resize. rewrite length_app, take_app_length.
  replace (length l - (length l + length k))%nat with 0%nat by lia. apply app_nil_r.
Qed.

(** A stack cut back to the height it had. *)
Lemma eat_back {E} (s s' : stack E) : stack_wf s -> stk_step s s' ->
  eat (size s) s' = Ok tt {| st_store := st_store s'; st_index := st_index s |}.
Proof.
  intros [W1 W2] [L _]. unfold eat, size, vec_size. destruct (Z.ltb_spec (Z.of_nat (st_index s)) 0); [lia|].
  destruct (Z.leb_spec (Z.of_nat (st_index s)) (Z.of_nat (length (st_store s')))); [|lia].
  now rewrite Nat2Z.id.
Qed.

Lemma cleanup_restores c c2 :
  stack_wf (_os c) -> stack_wf (_as c) ->
  ctx_step (entered c) c2 -> exists c3, cleanup c c2 = Ok tt c3 /\ restored c c2 c3.
Proof.
  intros Wo Wa [Hb Ho Ha [I1 I2] Hx]. cbn in *.
  pose proof (eat_back (_os c) (_os c2) Wo Ho) as Eo. pose proof (eat_back (_as c) (_as c2) Wa Ha) as Ea.
  unfold cleanup, bind, gets, on_os, on_as, zoom. rewrite I2, Eo. cbn. rewrite I1, Ea.
  eexists; split; [reflexivity|]. split; cbn; auto using vec_resize_prefix.
Qed.

(** C26. [execute] is transparent to its caller.  Whatever the function does, and
    whether it returns or throws, [execute] passes on its result or exception and
    hands back the program counter, the stack bases and heights, the call-depth
    budget and the caught exceptions of the caller; the exception-handling
    frames and clauses are cut or padded to the caller's number, and are the
    caller's own whenever the function left those in place.  The caller's state
    is untouched when there is no such function. *)
Theorem execute_restores fuel i args c :
  stack_wf (_os c) -> stack_wf (_as c) ->
  match execute (run fuel) i args c with
  | Ok r c' => exists c2, execute_body (run fuel) i args (entered c) = Ok r c2 /\ restored c c2 c'
  | Throw e c' =>
      (e = Exn wasm_interpreter_exception "cannot execute function, function not found" /\ c' = c) \/
      exists c2, execute_body (run fuel) i args (entered c) = Throw e c2 /\ restored c c2 c'
  | UB => execute_body (run fuel) i args (entered c) = UB
  end.
Proof.
  intros Wo Wa. unfold execute. destruct (negb _); [left; auto|].
  change (c <| _as_index := _ |> <| _os_index := _ |>) with (entered c).
  pose proof (ok_execute_body (run fuel) i args (ok_run fuel) (entered c)) as Hs.
  destruct (execute_body (run fuel) i args (entered c)) as [r c2|e c2|]; [| |reflexivity];
    destruct (cleanup_restores c c2 Wo Wa Hs) as (c3 & -> & Hf); eauto.
Qed.

End Runs.

(** ** Witnesses *)
Definition mem_end (n : nat) : ctx unit := end_state (run n in_mem) in_mem.

Lemma in_mem_pages : pages_ok (_base in_mem).
Proof. vm_compute. repeat split; congruence. Qed.

Lemma run_memory_bounded_witness :
  pages_ok (_base (mem_end 3)) /\ page (_wasm_alloc (_base in_mem)) <= page (_wasm_alloc (_base (mem_end 3))) /\
  page (_wasm_alloc (_base (mem_end 3))) = 2.
Proof.
  destruct (run_memory_bounded 3 in_mem (mem_end 3) ltac:(vm_compute; reflexivity) in_mem_pages) as [H1 H2].
  split; [exact H1|]. split; [exact H2|]. vm_compute. reflexivity.
Defined.

Lemma run_immutable_globals_witness :
  vec_lookup (_globals (_base (mem_end 9))) 0 = Some (const_expr 17) /\
  vec_lookup (_globals (_base (mem_end 9))) 1 = Some (const_expr 42).
Proof.
  split; [|vm_compute; reflexivity].
  rewrite (run_immutable_globals 9 in_mem (mem_end 9) 0
    {| gv_type := {| content_type := types.i32; mutability := false |}; gv_init := const_expr 17 |});
    vm_compute; reflexivity.
Defined.

Lemma run_tables_consistent_witness :
  tables_ok (_base (mem_end 9)) /\ length (_table_data (_base (mem_end 9))) = 1%nat.
Proof.
  apply (run_tables_consistent 9 in_mem (mem_end 9)); [vm_compute; reflexivity|].
  split; [vm_compute; reflexivity|]. split; refine (bool_decide_unpack _ _); vm_compute; exact I.
Defined.

(** A caller inside of one exception-handling scope with one clause. *)
Definition scope_ctx : ctx unit := demo_ctx
  <| _eh_stack := [{| ef_call_depth := 0; ef_catch_count := 1; ef_first_catch := 0 |}] |>
  <| _eh_catches := [{| ec_kind := 0; ec_tag_index := 0; ec_handler_pc := 4; ec_operand_depth := 0; ec_eh_leave_count := 0 |}] |>.

Lemma scope_ctx_wf : stack_wf (_os scope_ctx) /\ stack_wf (_as scope_ctx).
Proof. repeat split; (apply Nat.leb_le || apply Nat.ltb_lt); vm_compute; reflexivity. Qed.

Definition scope_run : outcome (ctx unit) (option elem) := execute (run 200) 0 [I32 5] scope_ctx.
Definition scope_body : outcome (ctx unit) (option elem) := execute_body (run 200) 0 [I32 5] (entered scope_ctx).

(** A body that returns a value and keeps the caller's scopes. *)
Definition returns (r : option elem) (o : outcome (ctx unit) (option elem)) : Prop :=
  match o with Ok r' _ => r' = r | _ => False end.
Definition keeps_scopes (c : ctx unit) (body : outcome (ctx unit) (option elem)) : Prop :=
  match body with Ok _ c2 => _eh_stack c2 = _eh_stack c /\ _eh_catches c2 = _eh_catches c | _ => False end.

Lemma scope_run_returns : returns (Some (I32 120)) scope_run.
Proof. vm_compute. reflexivity. Qed.
Lemma scope_body_keeps : keeps_scopes scope_ctx scope_body.
Proof. vm_compute. split; reflexivity. Qed.

(** A function that returns without leaving the caller's scopes hands them back. *)
Lemma scopes_kept (Q : exn -> ctx unit -> Prop) (c : ctx unit) (o body : outcome (ctx unit) (option elem)) r :
  match o with
  | Ok r c' => exists c2, body = Ok r c2 /\ restored c c2 c'
  | Throw e c' => Q e c' \/ exists c2, body = Throw e c2 /\ restored c c2 c'
  | UB => body = UB
  end -> returns r o -> keeps_scopes c body ->
  exists c', o = Ok r c' /\ _eh_stack c' = _eh_stack c /\ _eh_catches c' = _eh_catches c /\ _pc c' = _pc c.
Proof.
  destruct o as [r' c'|e c'|]; [|contradiction|contradiction]. intros (c2 & -> & R) Hr [K1 K2].
  cbn in Hr. subst r'. exists c'. split_and!; [reflexivity|apply (re_own_frames _ _ _ R)|apply (re_own_clauses _ _ _ R)|apply (re_state _ _ _ R)];
    now rewrite ?K1, ?K2.
Qed.

Lemma execute_restores_witness :
  exists c', scope_run = Ok (Some (I32 120)) c' /\
    _eh_stack c' = _eh_stack scope_ctx /\ _eh_catches c' = _eh_catches scope_ctx /\ _pc c' = _pc scope_ctx.
Proof.
  refine (scopes_kept (fun e c' => e = Exn wasm_interpreter_exception "cannot execute function, function not found" /\
    c' = scope_ctx) scope_ctx scope_run scope_body (Some (I32 120)) _ scope_run_returns scope_body_keeps).
  exact (@execute_restores demo_sf demo_hf unit 200 0 [I32 5] scope_ctx (proj1 scope_ctx_wf) (proj2 scope_ctx_wf)).
Defined.
