(* ===== verification/TypedOps.v ===== *)
(** * Handlers on typed operands

    What the handlers without control flow rely on and do: the instance they
    need, the shapes of their effects, and the numeric and memory handlers on
    operands of the declared types.  Each one either returns with results of the
    declared types, well formed, at the next instruction, or traps; it never
    leaves defined behaviour (no read of the wrong union member, no access
    outside of the operand stack or of the memory reservation). *)
From Stdlib Require Import ZArith Lia Bool String.
From stdpp Require Import base list numbers decidable option gmap.
From S2P Require Import Prelude Types Stack Memory Numeric Softfloat InitExpr Context Operands Interp Demo Invariants.
Import Opcode.

(** ** What straight-line code relies on

    An instance whose 32-bit memory is guarded by the reservation, with the
    page counts and limits [reset] establishes. *)
Section Ready.
Context {H : Type}.

Record ready (b : base H) : Prop := {
  rd_alloc : alloc_wf (_wasm_alloc b);
  rd_guarded : _mem_mode b = guarded;
  rd_reserved : external_ (_wasm_alloc b) = false;
  rd_32bit : is_memory64 b = false;
  rd_pages : pages_ok b;
  rd_limit : _max_pages b <= max_pages_limit_ (_wasm_alloc b);
  rd_defined : m_memories (_mod b) <> [] -> 0 <= page (_wasm_alloc b);
  rd_globals : length (_globals b) = length (m_globals (_mod b)) }.

(** A change of memory contents only. *)
Lemma ready_write b addr n v : ready b ->
  ready (b <| _wasm_alloc := upd_raw (fun m => write_le m addr n v) (_wasm_alloc b) |>).
Proof. intros [? ? ? ? ? ? ? ?]. split; cbn; auto using upd_raw_wf. Qed.

Lemma guarded_access a ea n : alloc_wf a -> external_ a = false -> 0 <= ea <= 2 ^ 33 + 1024 -> 0 <= n <= 1024 ->
  access ea n a = Ok tt a /\ land_at a ea n = Accessible \/
  access ea n a = Throw (Exn wasm_memory_exception "wasm memory out-of-bounds") a.
Proof.
  intros W He Ha Hn. unfold access, bind, get. destruct (land_at a ea n) eqn:El; cbn; auto.
  exfalso. revert El. unfold land_at. rewrite He. destruct (_ && _); [discriminate|].
  pose proof (awf_sys a W). change max_memory with (2 ^ 33).
  replace (_ && _) with true; [discriminate|]. symmetry. rewrite andb_true_iff, !Z.leb_le. lia.
Qed.

Lemma read_ready b ea n : ready b -> 0 <= ea <= 2 ^ 33 + 1024 -> (n <= 16)%nat ->
  (exists v, on_alloc (read_unaligned ea n) b = Ok v b /\ in_u (8 * Z.of_nat n) v) \/
  exists e, on_alloc (read_unaligned ea n) b = Throw e b /\ exn_class e = wasm_memory_exception.
Proof.
  intros R Ha Hn. unfold on_alloc, zoom, read_unaligned, bind.
  destruct (guarded_access (_wasm_alloc b) ea (Z.of_nat n)) as [[-> _]| ->];
    try apply R; auto; [lia| |]; [left|right].
  - eexists. split; [destruct b; reflexivity|]. apply read_le_range, R.
  - eexists. split; [destruct b; reflexivity|reflexivity].
Qed.

Lemma write_ready b ea n v : ready b -> 0 <= ea <= 2 ^ 33 + 1024 -> (n <= 16)%nat ->
  (exists b', on_alloc (write_unaligned ea n v) b = Ok tt b' /\ ready b' /\ _mod b' = _mod b) \/
  exists e, on_alloc (write_unaligned ea n v) b = Throw e b /\ exn_class e = wasm_memory_exception.
Proof.
  intros R Ha Hn. unfold on_alloc, zoom, write_unaligned, bind.
  destruct (guarded_access (_wasm_alloc b) ea (Z.of_nat n)) as [[-> _]| ->];
    try apply R; auto; [lia| |]; [left|right].
  - eexists. split; [reflexivity|]. split; [now apply ready_write|reflexivity].
  - eexists. split; [destruct b; reflexivity|reflexivity].
Qed.

(** [memory.grow] never throws on a ready instance: it refuses or succeeds. *)
Lemma grow_ready b pages : ready b ->
  exists r b', grow_linear_memory pages b = Ok r b' /\ ready b' /\ _mod b' = _mod b /\
    (r = -1 /\ b' = b \/ r = page (_wasm_alloc b) /\ page (_wasm_alloc b') = r + wrap 32 pages).
Proof.
  intros R. unfold grow_linear_memory, bind, get. pose proof (rd_pages b R) as P. unfold pages_ok in P.
  destruct (m_memories (_mod b)) as [|m ms] eqn:Em; [exists (-1), b; split; [reflexivity|auto]|].
  destruct (_ || _) eqn:Ec; [exists (-1), b; split; [reflexivity|auto]|]. apply orb_false_iff in Ec as [E1 E2].
  pose proof (wrap_range 32 ltac:(lia) pages) as Hd. unfold in_u in Hd.
  pose proof (rd_defined b R) as D. rewrite Em in D. specialize (D ltac:(discriminate)).
  destruct P as (P1 & P2 & P3 & P4).
  assert (Hm : page (_wasm_alloc b) + wrap 32 pages <= _max_pages b) by (eapply wrap_headroom; eauto; lia).
  pose proof (rd_limit b R) as L. pose proof (base_grow pages b) as G.
  destruct (alloc_spec (_wasm_alloc b) (wrap 32 pages)) as (a & Ea & W & Pa & Xa & La & Sa & _);
    [apply R|lia|lia|lia|].
  destruct (Z.ltb_spec 0 (wrap 32 pages)) as [Hpos|Hz].
  2:{ exists (page (_wasm_alloc b)), b. split; [reflexivity|]. split; [exact R|]. split; [reflexivity|]. right. lia. }
  unfold on_alloc, zoom, ret. rewrite Ea. do 2 eexists. split; [reflexivity|].
  revert G. unfold grow_linear_memory, bind, get. rewrite Em, E1, E2. cbn [orb].
  replace (0 <? wrap 32 pages) with true by (symmetry; apply Z.ltb_lt; lia).
  unfold on_alloc, zoom, ret. rewrite Ea. intros [_ _ _ G _ _].
  split; [|cbn; split; [reflexivity|right; lia]].
  destruct R. split; cbn; auto; try congruence; lia.
Qed.

End Ready.

(** ** Shapes of handlers *)
Section Shapes.
Context {H : Type}.
Implicit Types c : ctx H.

(** [dec] reads an operand of type [t] into a value satisfying [R]; [enc] makes
    an operand of type [t] of a value satisfying [Q]. *)
Definition reads (dec : elem -> M (ctx H) Z) (t : Z) (R : Z -> Prop) : Prop :=
  forall e c, elem_type e = t -> elem_ok e -> exists v, dec e c = Ok v c /\ R v.
Definition writes (enc : Z -> elem) (t : Z) (Q : Z -> Prop) : Prop :=
  forall v, Q v -> elem_type (enc v) = t /\ elem_ok (enc v).
(** A computation on values: a result satisfying [Q], or a trap; no effect. *)
Definition computes (m : M (ctx H) Z) (Q : Z -> Prop) : Prop := forall c,
  match m c with
  | Ok r c' => c' = c /\ Q r
  | Throw e c' => c' = c /\ exn_class e = wasm_interpreter_exception
  | UB => False
  end.

(** What an instruction at [o] may do to the context: the operands become
    [l ++ res] with [res] of types [outs], the program counter moves to the next
    instruction, the instance stays ready; call and handler stacks are kept. *)
Definition advances c (o : Z) (l : list elem) (outs : list Z) (c' : ctx H) : Prop :=
  exists res b s, c' = c <| _base := b |> <| _os := s |> <| _pc := CodeAt (o + 1) |> /\
    holds c' (l ++ res) /\ map elem_type res = outs /\ Forall elem_ok res /\
    ready b /\ _mod b = _mod (_base c).

Definition is_trap (e : exn) : Prop :=
  exn_class e = wasm_interpreter_exception \/ exn_class e = wasm_memory_exception.

Definition sound c (o : Z) (l : list elem) (outs : list Z) (r : outcome (ctx H) unit) : Prop :=
  match r with Ok _ c' => advances c o l outs c' | Throw e _ => is_trap e | UB => False end.

Lemma advances_one c o l e t b s c' :
  holds c' (l ++ [e]) -> c' = c <| _base := b |> <| _os := s |> <| _pc := CodeAt (o + 1) |> ->
  elem_type e = t -> elem_ok e -> ready b -> _mod b = _mod (_base c) -> advances c o l [t] c'.
Proof. intros Hh Hc <- Ho R Hm. exists [e], b, s. cbn. auto 8. Qed.
Lemma advances_none c o l b s c' :
  holds c' l -> c' = c <| _base := b |> <| _os := s |> <| _pc := CodeAt (o + 1) |> ->
  ready b -> _mod b = _mod (_base c) -> advances c o l [] c'.
Proof. intros Hh Hc R Hm. exists [], b, s. rewrite app_nil_r. auto 8. Qed.

Lemma poke_top c l e e' : holds c (l ++ [e]) ->
  exists c', poke_operand 0 e' c = Ok tt c' /\ with_os c (l ++ [e']) c'.
Proof. exact (poke_holds c l e e' []). Qed.
Lemma peek_top c l e : holds c (l ++ [e]) -> peek_operand 0 c = Ok e c.
Proof. exact (peek_holds c l e []). Qed.

Lemma unary_sound dec enc f t t' R Q c o l e :
  reads dec t R -> writes enc t' Q -> (forall v, R v -> computes (f v) Q) ->
  ready (_base c) -> _pc c = CodeAt o -> holds c (l ++ [e]) -> elem_type e = t -> elem_ok e ->
  sound c o l [t'] (unary dec enc f c).
Proof.
  intros Hd He Hf Hr Hpc Hh Ht Hok. unfold unary.
  rewrite (bind_Ok _ _ _ _ _ (inc_pc_at c o 1 Hpc)). set (c1 := c <| _pc := _ |>).
  assert (Hh1 : holds c1 (l ++ [e])) by exact Hh.
  rewrite (bind_Ok _ _ _ _ _ (peek_top c1 l e Hh1)).
  destruct (Hd e c1 Ht Hok) as (v & Ev & Rv). rewrite (bind_Ok _ _ _ _ _ Ev).
  specialize (Hf v Rv c1). unfold bind. destruct (f v c1) as [r c2|ex c2|]; [| |exact Hf].
  - destruct Hf as [-> Qr]. destruct (poke_top c1 l e (enc r) Hh1) as (c3 & -> & [Hh3 [s ->]]).
    destruct (He r Qr) as [T' O']. eapply (advances_one c o l (enc r) t' (_base c) s); eauto.
  - destruct Hf as [_ Hf]. now left.
Qed.

Lemma binary_sound dec enc f t t' R Q c o l e1 e2 :
  reads dec t R -> writes enc t' Q -> (forall v1 v2, R v1 -> R v2 -> computes (f v1 v2) Q) ->
  ready (_base c) -> _pc c = CodeAt o -> holds c (l ++ [e1; e2]) ->
  elem_type e1 = t -> elem_type e2 = t -> elem_ok e1 -> elem_ok e2 ->
  sound c o l [t'] (binary dec enc f c).
Proof.
  intros Hd He Hf Hr Hpc Hh T1 T2 O1 O2. unfold binary.
  rewrite (bind_Ok _ _ _ _ _ (inc_pc_at c o 1 Hpc)). set (c1 := c <| _pc := _ |>).
  assert (Hh1 : holds c1 ((l ++ [e1]) ++ [e2])) by (rewrite <- app_assoc; exact Hh).
  destruct (pop_holds c1 (l ++ [e1]) e2 Hh1) as (c2 & E2 & [Hh2 [s2 ->]]). rewrite (bind_Ok _ _ _ _ _ E2).
  set (c2 := c1 <| _os := s2 |>) in *.
  destruct (Hd e2 c2 T2 O2) as (v2 & Ev2 & R2). rewrite (bind_Ok _ _ _ _ _ Ev2).
  rewrite (bind_Ok _ _ _ _ _ (peek_top c2 l e1 Hh2)).
  destruct (Hd e1 c2 T1 O1) as (v1 & Ev1 & R1). rewrite (bind_Ok _ _ _ _ _ Ev1).
  specialize (Hf v1 v2 R1 R2 c2). unfold bind.
  destruct (f v1 v2 c2) as [r c3|ex c3|]; [| |exact Hf].
  - destruct Hf as [-> Qr]. destruct (poke_top c2 l e1 (enc r) Hh2) as (c4 & -> & [Hh4 [s ->]]).
    destruct (He r Qr) as [T' O']. eapply (advances_one c o l (enc r) t' (_base c) s); eauto.
  - destruct Hf as [_ Hf]. now left.
Qed.

(** Pushing one value after advancing. *)
Lemma push_sound c o l e t :
  ready (_base c) -> _pc c = CodeAt o -> holds c l -> elem_type e = t -> elem_ok e ->
  sound c o l [t] ((inc_pc 1 ;;; push_operand e) c).
Proof.
  intros Hr Hpc Hh Ht Ho. rewrite (bind_Ok _ _ _ _ _ (inc_pc_at c o 1 Hpc)). set (c1 := c <| _pc := _ |>).
  destruct (push_holds c1 l e Hh) as (c2 & -> & [Hh2 [s ->]]). 
  eapply (advances_one c o l e t (_base c) s); eauto.
Qed.

End Shapes.

(** ** Operand classes and computations *)
Create HintDb typing.

Section Values.
Context {SF : SoftFloat} {HF : HostFloat} {H : Type}.

Lemma reads_ui32 : reads (H := H) to_ui32 types.i32 (in_u 32).
Proof. intros [] c; try discriminate. cbn. eauto. Qed.
Lemma reads_i32 : reads (H := H) to_i32 types.i32 (fun _ => True).
Proof. intros [] c; try discriminate. cbn. eauto. Qed.
Lemma reads_ui64 : reads (H := H) to_ui64 types.i64 (in_u 64).
Proof. intros [] c; try discriminate. cbn. eauto. Qed.
Lemma reads_i64 : reads (H := H) to_i64 types.i64 (fun _ => True).
Proof. intros [] c; try discriminate. cbn. eauto. Qed.
Lemma reads_fui32 : reads (H := H) to_fui32 types.f32 (in_u 32).
Proof. intros [] c; try discriminate. cbn. eauto. Qed.
Lemma reads_fui64 : reads (H := H) to_fui64 types.f64 (in_u 64).
Proof. intros [] c; try discriminate. cbn. eauto. Qed.

Lemma writes_I32 : writes I32 types.i32 (in_u 32).
Proof. easy. Qed.
Lemma writes_I64 : writes I64 types.i64 (in_u 64).
Proof. easy. Qed.
Lemma writes_F32 : writes F32 types.f32 (in_u 32).
Proof. easy. Qed.
Lemma writes_F64 : writes F64 types.f64 (in_u 64).
Proof. easy. Qed.
Lemma writes_wI32 : writes wI32 types.i32 (fun _ => True).
Proof. split; [reflexivity|apply (wrap_range 32); lia]. Qed.
Lemma writes_wI64 : writes wI64 types.i64 (fun _ => True).
Proof. split; [reflexivity|apply (wrap_range 64); lia]. Qed.
Lemma writes_wF32 : writes wF32 types.f32 (fun _ => True).
Proof. split; [reflexivity|apply (wrap_range 32); lia]. Qed.
Lemma writes_wF64 : writes wF64 types.f64 (fun _ => True).
Proof. split; [reflexivity|apply (wrap_range 64); lia]. Qed.

Lemma computes_ret (Q : Z -> Prop) r : Q r -> computes (H := H) (ret r) Q.
Proof. intros Hq c. cbn. auto. Qed.

Lemma b2z_range b w : 0 < w -> in_u w (b2z b).
Proof. intros Hw. pose proof (Z.pow_gt_1 2 w). unfold in_u. destruct b; cbn; lia. Qed.

Lemma wasm_unop_range n op v : 0 <= wasm_unop n op v <= Z.of_nat n.
Proof.
  destruct op; cbn [wasm_unop]; revert v; induction n as [|n IH]; intros v; cbn; try lia.
  - destruct (Z.testbit _ _); [lia|]. specialize (IH v). lia.
  - destruct (Z.odd v); [lia|]. specialize (IH (v / 2)). lia.
  - specialize (IH (v / 2)). destruct (Z.odd v); cbn [b2z]; lia.
Qed.
Lemma i32_unop_range op v : in_u 32 v -> in_u 32 (i32_unop op v).
Proof.
  intros Hv. pose proof (wasm_unop_range 32 op v) as B. rewrite (unop_spec 32 op v Hv) in B.
  change (Z.of_nat 32) with 32 in B. unfold in_u, i32_unop. destruct op; lia.
Qed.
Lemma i64_unop_range op v : in_u 64 v -> in_u 64 (i64_unop op v).
Proof.
  intros Hv. pose proof (wasm_unop_range 64 op v) as B. rewrite (unop_spec 64 op v Hv) in B.
  change (Z.of_nat 64) with 64 in B. unfold in_u, i64_unop. destruct op; lia.
Qed.

(** An integer operator meets its reference, so it returns a value in range or
    traps. *)
Lemma computes_meets w spec (m : M (ctx H) Z) :
  (forall c, meets w spec (m c) c) -> computes m (in_u w).
Proof.
  intros Hm c. specialize (Hm c). unfold meets in Hm. destruct spec as [v|].
  - destruct Hm as [-> Hv]. auto.
  - destruct Hm as [msg ->]. auto.
Qed.

Lemma computes_assert b msg (m : M (ctx H) Z) Q :
  computes m Q -> computes (psizam_assert b wasm_interpreter_exception msg ;;; m) Q.
Proof. intros Hm c. destruct b; [apply Hm|]. cbn. auto. Qed.
Lemma computes_trunc_int m w t v : computes (H := H) (trunc_int m w t v) (fun _ => True).
Proof.
  unfold trunc_int, psizam_trunc_int. destruct (is_fast m); repeat apply computes_assert; now apply computes_ret.
Qed.
End Values.
#[export] Hint Resolve reads_ui32 reads_i32 reads_ui64 reads_i64 reads_fui32 reads_fui64
  writes_I32 writes_I64 writes_F32 writes_F64 writes_wI32 writes_wI64 writes_wF32 writes_wF64
  computes_ret computes_trunc_int b2z_range i32_unop_range i64_unop_range : typing.
#[export] Hint Extern 1 (0 < _) => lia : typing.

(** ** Numeric instructions *)
Definition int_t (w : width) : Z := match w with W32 => types.i32 | W64 => types.i64 end.
Definition float_t (w : width) : Z := match w with W32 => types.f32 | W64 => types.f64 end.

Definition conv_type (op : conv_op) : Z * Z :=
  match op with
  | i32_wrap_i64 => (types.i64, types.i32)
  | i64_extend_s_i32 | i64_extend_u_i32 => (types.i32, types.i64)
  | i32_extend8_s | i32_extend16_s => (types.i32, types.i32)
  | i64_extend8_s | i64_extend16_s | i64_extend32_s => (types.i64, types.i64)
  | i32_reinterpret_f32 => (types.f32, types.i32)
  | i64_reinterpret_f64 => (types.f64, types.i64)
  | f32_reinterpret_i32 => (types.i32, types.f32)
  | f64_reinterpret_i64 => (types.i64, types.f64)
  end.
Definition fconv_type (op : fconv_op) : Z * Z :=
  match op with
  | i32_trunc_s_f32 | i32_trunc_u_f32 | i32_trunc_sat_f32_s | i32_trunc_sat_f32_u => (types.f32, types.i32)
  | i32_trunc_s_f64 | i32_trunc_u_f64 | i32_trunc_sat_f64_s | i32_trunc_sat_f64_u => (types.f64, types.i32)
  | i64_trunc_s_f32 | i64_trunc_u_f32 | i64_trunc_sat_f32_s | i64_trunc_sat_f32_u => (types.f32, types.i64)
  | i64_trunc_s_f64 | i64_trunc_u_f64 | i64_trunc_sat_f64_s | i64_trunc_sat_f64_u => (types.f64, types.i64)
  | f32_convert_s_i32 | f32_convert_u_i32 => (types.i32, types.f32)
  | f32_convert_s_i64 | f32_convert_u_i64 => (types.i64, types.f32)
  | f32_demote_f64 => (types.f64, types.f32)
  | f64_convert_s_i32 | f64_convert_u_i32 => (types.i32, types.f64)
  | f64_convert_s_i64 | f64_convert_u_i64 => (types.i64, types.f64)
  | f64_promote_f32 => (types.f32, types.f64)
  end.

(** Operands, top first, and result. *)
Definition numeric_type (op : opcode) : option (list Z * Z) :=
  match op with
  | eqz_ w => Some ([int_t w], types.i32)
  | relop_ w _ => Some ([int_t w; int_t w], types.i32)
  | unop_ w _ => Some ([int_t w], int_t w)
  | binop_ w _ => Some ([int_t w; int_t w], int_t w)
  | frelop_ w _ => Some ([float_t w; float_t w], types.i32)
  | funop_ w _ => Some ([float_t w], float_t w)
  | fbinop_ w _ => Some ([float_t w; float_t w], float_t w)
  | conv_ o => Some ([(conv_type o).1], (conv_type o).2)
  | fconv_ o => Some ([(fconv_type o).1], (fconv_type o).2)
  | _ => None
  end.

Section Numeric.
Context {SF : SoftFloat} {HF : HostFloat} {H : Type}.
Implicit Types c : ctx H.

Lemma operand1 t es : map elem_type es = [t] -> Forall elem_ok es ->
  exists e, es = [e] /\ elem_type e = t /\ elem_ok e.
Proof.
  destruct es as [|e [|? ?]]; try discriminate. intros [= <-] Ho. inversion Ho. eauto.
Qed.
Lemma operand2 t1 t2 es : map elem_type es = [t2; t1] -> Forall elem_ok es ->
  exists e1 e2, es = [e2; e1] /\ elem_type e1 = t1 /\ elem_type e2 = t2 /\ elem_ok e1 /\ elem_ok e2.
Proof.
  destruct es as [|e2 [|e1 [|? ?]]]; try discriminate. intros [= <- <-] Ho.
  inversion Ho as [|? ? ? Ho']. inversion Ho'. subst. eauto 8.
Qed.

Lemma conv_sound op c o l e : ready (_base c) -> _pc c = CodeAt o -> holds c (l ++ [e]) ->
  elem_type e = (conv_type op).1 -> elem_ok e -> sound c o l [(conv_type op).2] (exec_conv op c).
Proof.
  intros Hr Hpc Hh Ht Ho. destruct op; cbn in Ht; cbn [exec_conv conv_type snd];
    (eapply unary_sound; [..|exact Ht|exact Ho]; eauto with typing); intros v Hv; apply computes_ret;
    try exact Hv; try (apply wrap_range; lia).
  unfold i64_extend_u_i32_v, in_u in *. lia.
Qed.
Lemma fconv_sound op c o l e : ready (_base c) -> _pc c = CodeAt o -> holds c (l ++ [e]) ->
  elem_type e = (fconv_type op).1 -> elem_ok e -> sound c o l [(fconv_type op).2] (exec_fconv op c).
Proof.
  intros Hr Hpc Hh Ht Ho. unfold exec_fconv. rewrite (bind_Ok fp _ c _ c eq_refl).
  destruct op; cbn in Ht; cbn [fconv_type snd];
    (eapply unary_sound; [..|exact Ht|exact Ho]; eauto with typing); intros v Hv; now apply computes_ret.
Qed.

Lemma numeric_sound op args t c o l es :
  numeric_type op = Some (args, t) -> ready (_base c) -> _pc c = CodeAt o ->
  holds c (l ++ rev es) -> map elem_type es = args -> Forall elem_ok es ->
  sound c o l [t] (step op c).
Proof.
  intros Ht Hr Hpc Hh He Ho.
  destruct op; try discriminate; cbn [numeric_type] in Ht; injection Ht as <- <-; cbn [step];
    (destruct (operand2 _ _ _ He Ho) as (e1 & e2 & -> & T1 & T2 & O1 & O2) ||
     destruct (operand1 _ _ He Ho) as (e & -> & T1 & O1)); cbn [rev app] in Hh;
    try (now apply (conv_sound op c o l e)); try (now apply (fconv_sound op c o l e));
    destruct w; cbn [int_t float_t] in *;
    unfold exec_eqz, exec_relop, exec_unop, exec_binop, exec_frelop, exec_funop, exec_fbinop;
    rewrite ?(bind_Ok fp _ c _ c eq_refl);
    ((eapply binary_sound; [..|exact T1|exact T2|exact O1|exact O2]) ||
     (eapply unary_sound; [..|exact T1|exact O1]));
    eauto with typing; intros; eauto with typing;
    ((apply computes_ret; now auto with typing) ||
     (eapply computes_meets; intros; now apply i32_binop_meets) ||
     (eapply computes_meets; intros; now apply i64_binop_meets)).
Qed.
End Numeric.

(** ** Memory instructions *)
Section MemoryOps.
Context {H : Type}.
Implicit Types c : ctx H.

Definition load_type (op : load_op) : Z :=
  match op with
  | i32_load | i32_load8_s | i32_load16_s | i32_load8_u | i32_load16_u => types.i32
  | f32_load => types.f32 | f64_load => types.f64
  | _ => types.i64
  end.
Definition store_type (op : store_op) : Z :=
  match op with
  | i32_store | i32_store8 | i32_store16 => types.i32
  | f32_store => types.f32 | f64_store => types.f64
  | _ => types.i64
  end.

Lemma compute_effective_ready c l v offset : ready (_base c) -> holds c (l ++ [I32 v]) ->
  exists c', compute_effective offset c = Ok (offset + v) c' /\ with_os c l c'.
Proof.
  intros R Hh. unfold compute_effective.
  destruct (pop_holds c l (I32 v) Hh) as (c1 & E & W). rewrite (bind_Ok _ _ _ _ _ E).
  destruct W as [Hh1 [s ->]]. exists (c <| _os := s |>). split; [|split; [exact Hh1|now exists s]].
  unfold bind, gets. cbn. rewrite (rd_32bit _ R), (rd_guarded _ R). reflexivity.
Qed.

Lemma pointer_offset_small v offset : in_u 32 v -> in_u 32 offset -> pointer_offset (offset + v) = offset + v.
Proof. unfold in_u. intros. unfold pointer_offset, signed. destruct (Z.ltb_spec (offset + v) (2 ^ (64 - 1))); lia. Qed.

Lemma pop_addr_read_ready c l v offset n : ready (_base c) -> holds c (l ++ [I32 v]) -> in_u 32 v -> in_u 32 offset ->
  exists c', pop_memop_addr_read offset n c = Ok (offset + v) c' /\ with_os c l c'.
Proof.
  intros R Hh Hv Ho. unfold pop_memop_addr_read.
  destruct (compute_effective_ready c l v offset R Hh) as (c1 & E & W). rewrite (bind_Ok _ _ _ _ _ E).
  exists c1. split; [|exact W]. destruct W as [_ [s ->]]. unfold bind, gets. cbn. rewrite (rd_guarded _ R). cbn.
  now rewrite pointer_offset_small.
Qed.
Lemma pop_addr_write_ready c l v offset n : ready (_base c) -> holds c (l ++ [I32 v]) -> in_u 32 v -> in_u 32 offset ->
  exists c', pop_memop_addr_write offset n c = Ok (offset + v) c' /\ with_os c l c'.
Proof.
  intros R Hh Hv Ho. unfold pop_memop_addr_write.
  destruct (compute_effective_ready c l v offset R Hh) as (c1 & E & W). rewrite (bind_Ok _ _ _ _ _ E).
  exists c1. split; [|exact W]. destruct W as [_ [s ->]]. unfold bind, gets. cbn. rewrite (rd_guarded _ R). cbn.
  now rewrite pointer_offset_small.
Qed.

Lemma load_value_typed op v : in_u (8 * Z.of_nat (load_size op)) v ->
  elem_type (load_value op v) = load_type op /\ elem_ok (load_value op v).
Proof.
  intros Hv. unfold in_u in Hv.
  destruct op; cbn in Hv; (split; [reflexivity|]); cbn; try (apply wrap_range; lia); unfold in_u; lia.
Qed.

Lemma i32_operand e : elem_type e = types.i32 -> elem_ok e -> exists v, e = I32 v /\ in_u 32 v.
Proof. destruct e; try discriminate. eauto. Qed.

Lemma load_sound op m c o l e : ready (_base c) -> _pc c = CodeAt o -> holds c (l ++ [e]) ->
  elem_type e = types.i32 -> elem_ok e -> in_u 32 (mem_offset m) ->
  sound c o l [load_type op] (exec_load op m c).
Proof.
  intros R Hpc Hh Ht Ho Hm. destruct (i32_operand e Ht Ho) as (v & -> & Hv). unfold exec_load.
  rewrite (bind_Ok _ _ _ _ _ (inc_pc_at c o 1 Hpc)). set (c1 := c <| _pc := _ |>).
  destruct (pop_addr_read_ready c1 l v (mem_offset m) (Z.of_nat (load_size op))) as (c2 & E2 & [Hh2 [s ->]]); auto.
  rewrite (bind_Ok _ _ _ _ _ E2). set (c2 := c1 <| _os := s |>) in *.
  destruct (read_ready (_base c) (mem_offset m + v) (load_size op)) as [(x & Ex & Hx)|(ex & Ex & Hx)];
    [exact R|unfold in_u in *; lia|destruct op; cbn; lia| |].
  - rewrite (bind_Ok _ _ _ _ _ (on_base_ok _ c2 _ _ Ex)). set (c2' := c2 <| _base := _base c |>) in *.
    destruct (load_value_typed op x Hx) as [T O].
    destruct (push_holds c2' l (load_value op x) Hh2) as (c3 & -> & [Hh3 [s3 ->]]).
    eapply (advances_one c o l _ _ (_base c) s3); eauto.
  - rewrite (bind_Throw _ _ _ _ _ (on_base_throw _ c2 _ _ Ex)). now right.
Qed.

Lemma store_value_typed op e c : elem_type e = store_type op -> elem_ok e ->
  exists v, store_value op e c = Ok v c.
Proof. destruct op, e; try discriminate; cbn; eauto. Qed.

Lemma store_sound op m c o l ea ev : ready (_base c) -> _pc c = CodeAt o -> holds c (l ++ [ea; ev]) ->
  elem_type ea = types.i32 -> elem_type ev = store_type op -> elem_ok ea -> elem_ok ev -> in_u 32 (mem_offset m) ->
  sound c o l [] (exec_store op m c).
Proof.
  intros R Hpc Hh Ta Tv Oa Ov Hm. destruct (i32_operand ea Ta Oa) as (v & -> & Hv). unfold exec_store.
  rewrite (bind_Ok _ _ _ _ _ (inc_pc_at c o 1 Hpc)). set (c1 := c <| _pc := _ |>).
  assert (Hh1 : holds c1 ((l ++ [I32 v]) ++ [ev])) by (rewrite <- app_assoc; exact Hh).
  destruct (pop_holds c1 _ ev Hh1) as (c2 & E2 & [Hh2 [s2 ->]]). rewrite (bind_Ok _ _ _ _ _ E2).
  destruct (pop_addr_write_ready (c1 <| _os := s2 |>) l v (mem_offset m) (Z.of_nat (store_size op)))
    as (c3 & E3 & [Hh3 [s ->]]); auto.
  rewrite (bind_Ok _ _ _ _ _ E3). set (c3 := _ <| _os := s |>) in *.
  destruct (store_value_typed op ev c3 Tv Ov) as (x & Ex). rewrite (bind_Ok _ _ _ _ _ Ex).
  destruct (write_ready (_base c) (mem_offset m + v) (store_size op) (wrap (8 * Z.of_nat (store_size op)) x))
    as [(b & Eb & Rb & Mb)|(ex & Eb & Hx)]; [exact R|unfold in_u in *; lia|destruct op; cbn; lia| |].
  - rewrite (on_base_ok _ c3 _ _ Eb). eapply (advances_none c o l b s); eauto.
  - rewrite (on_base_throw _ c3 _ _ Eb). now right.
Qed.

Lemma memory_size_sound c o l : ready (_base c) -> _pc c = CodeAt o -> holds c l ->
  sound c o l [types.i32] (exec_current_memory c).
Proof.
  intros R Hpc Hh. unfold exec_current_memory.
  rewrite (bind_Ok _ _ _ _ _ (inc_pc_at c o 1 Hpc)). set (c1 := c <| _pc := _ |>).
  rewrite (bind_Ok (gets _base) _ c1 (_base c) c1 eq_refl), (rd_32bit _ R).
  destruct (push_holds c1 l (I32 (wrap 32 (current_linear_memory (_base c)))) Hh) as (c3 & -> & [Hh3 [s3 ->]]).
  eapply (advances_one c o l _ _ (_base c) s3); eauto. apply (wrap_range 32). lia.
Qed.

Lemma memory_grow_sound c o l e : ready (_base c) -> _pc c = CodeAt o -> holds c (l ++ [e]) ->
  elem_type e = types.i32 -> elem_ok e -> sound c o l [types.i32] (exec_grow_memory c).
Proof.
  intros R Hpc Hh Ht Ho. destruct (i32_operand e Ht Ho) as (v & -> & Hv). unfold exec_grow_memory.
  rewrite (bind_Ok _ _ _ _ _ (inc_pc_at c o 1 Hpc)). set (c1 := c <| _pc := _ |>).
  rewrite (bind_Ok (gets _base) _ c1 (_base c) c1 eq_refl), (rd_32bit _ R).
  rewrite (bind_Ok _ _ _ _ _ (peek_top c1 l (I32 v) Hh)), (bind_Ok (to_ui32 (I32 v)) _ c1 v c1 eq_refl).
  destruct (grow_ready (_base c) (signed 32 v) R) as (r & b & Er & Rb & Mb & _).
  rewrite (bind_Ok _ _ _ _ _ (on_base_ok _ c1 _ _ Er)). set (c2 := c1 <| _base := b |>) in *.
  destruct (poke_top c2 l (I32 v) (I32 (wrap 32 r)) Hh) as (c3 & -> & [Hh3 [s3 ->]]).
  eapply (advances_one c o l _ _ b s3); eauto. apply (wrap_range 32). lia.
Qed.

End MemoryOps.
