(* ===== verification/TypedVec.v ===== *)
(** * Vector and atomic handlers on typed operands

    The handlers of the SIMD and atomic instructions, on operands of the types
    that their signatures name, return with results of the declared types at the
    next instruction, or trap.  The vector instructions whose lane arithmetic can
    overflow ([may_overflow]) have no type. *)
From Stdlib Require Import ZArith Lia Bool String.
From stdpp Require Import base list numbers decidable option gmap.
From S2P Require Import Prelude Types Stack Memory Numeric Softfloat Simd SimdLanes InitExpr Context Operands Interp.
From S2P Require Import Demo SimdSpec SimdTotal Invariants TypedOps.
Import Opcode.

(** ** Signatures, operands top first *)
Definition vec_sig (op : vec_numeric) : list Z * Z :=
  match op with
  | i8x16_splat | i16x8_splat | i32x4_splat => ([types.i32], types.v128)
  | i64x2_splat => ([types.i64], types.v128)
  | f32x4_splat => ([types.f32], types.v128)
  | f64x2_splat => ([types.f64], types.v128)
  | v128_any_true | i8x16_all_true | i8x16_bitmask | i16x8_all_true | i16x8_bitmask | i32x4_all_true | i32x4_bitmask
  | i64x2_all_true | i64x2_bitmask => ([types.v128], types.i32)
  | i8x16_shl | i8x16_shr_s | i8x16_shr_u | i16x8_shl | i16x8_shr_s | i16x8_shr_u | i32x4_shl | i32x4_shr_s | i32x4_shr_u
  | i64x2_shl | i64x2_shr_s | i64x2_shr_u => ([types.i32; types.v128], types.v128)
  | v128_bitselect | f32x4_relaxed_madd | f32x4_relaxed_nmadd | f64x2_relaxed_madd | f64x2_relaxed_nmadd
  | i32x4_relaxed_dot_i8x16_i7x16_add_s => ([types.v128; types.v128; types.v128], types.v128)
  | v128_not | i8x16_abs | i8x16_neg | i8x16_popcnt | i16x8_extadd_pairwise_i8x16_s | i16x8_extadd_pairwise_i8x16_u
  | i16x8_abs | i16x8_neg | i16x8_extend_low_i8x16_s | i16x8_extend_high_i8x16_s | i16x8_extend_low_i8x16_u
  | i16x8_extend_high_i8x16_u | i32x4_extadd_pairwise_i16x8_s | i32x4_extadd_pairwise_i16x8_u | i32x4_abs | i32x4_neg
  | i32x4_extend_low_i16x8_s | i32x4_extend_high_i16x8_s | i32x4_extend_low_i16x8_u | i32x4_extend_high_i16x8_u
  | i64x2_abs | i64x2_neg | i64x2_extend_low_i32x4_s | i64x2_extend_high_i32x4_s | i64x2_extend_low_i32x4_u
  | i64x2_extend_high_i32x4_u
  | f32x4_ceil | f32x4_floor | f32x4_trunc | f32x4_nearest | f32x4_abs | f32x4_neg | f32x4_sqrt
  | f64x2_ceil | f64x2_floor | f64x2_trunc | f64x2_nearest | f64x2_abs | f64x2_neg | f64x2_sqrt
  | i32x4_trunc_sat_f32x4_s | i32x4_trunc_sat_f32x4_u | f32x4_convert_i32x4_s | f32x4_convert_i32x4_u
  | i32x4_trunc_sat_f64x2_s_zero | i32x4_trunc_sat_f64x2_u_zero | f64x2_convert_low_i32x4_s | f64x2_convert_low_i32x4_u
  | f32x4_demote_f64x2_zero | f64x2_promote_low_f32x4 => ([types.v128], types.v128)
  | _ => ([types.v128; types.v128], types.v128)
  end.
Definition extract_type (op : vec_extract) : Z :=
  match op with i64x2_extract_lane => types.i64 | f32x4_extract_lane => types.f32 | f64x2_extract_lane => types.f64 | _ => types.i32 end.
Definition replace_type (op : vec_replace) : Z :=
  match op with i64x2_replace_lane => types.i64 | f32x4_replace_lane => types.f32 | f64x2_replace_lane => types.f64 | _ => types.i32 end.
Definition replace_shape (op : vec_replace) : lane :=
  match op with
  | i8x16_replace_lane => u8 | i16x8_replace_lane => u16 | i32x4_replace_lane | f32x4_replace_lane => u32
  | i64x2_replace_lane | f64x2_replace_lane => u64
  end.
Definition lane_ok (t : lane) (laneidx : Z) : bool := (0 <=? laneidx) && (laneidx <? Z.of_nat (lane_count t)).
Definition atomic_sig (sub : atomic_sub) : list Z * list Z :=
  match shape_of sub with
  | AFence => ([], [])
  | ANotify => ([types.i32; types.i32], [types.i32])
  | AWait => ([types.i64; match sub with memory_atomic_wait64 => types.i64 | _ => types.i32 end; types.i32], [types.i32])
  | ALoad w _ => ([types.i32], [int_t w])
  | AStore w _ => ([int_t w; types.i32], [])
  | ARmw w _ _ => ([int_t w; types.i32], [int_t w])
  | ACmpxchg w _ => ([int_t w; int_t w; types.i32], [int_t w])
  end.

(** ** Running a handler on a stack of known operands *)
Section Vec.
Context {SF : SoftFloat} {HF : HostFloat} {H : Type}.
Implicit Types c : ctx H.

(** [c'] is [c] in the middle of a handler: at [p], with the operands [l]. *)
Definition midway c (p : code_ptr) (l : list elem) (c' : ctx H) : Prop :=
  exists b s, c' = c <| _base := b |> <| _os := s |> <| _pc := p |> /\ holds c' l /\ ready b /\ _mod b = _mod (_base c).

Lemma midway_start c o l : ready (_base c) -> _pc c = CodeAt o -> holds c l -> midway c (CodeAt o) l c.
Proof. intros R E Hh. exists (_base c), (_os c). split; [destruct c; cbn in *; now rewrite E|auto]. Qed.
Lemma midway_inc c o l c1 : midway c (CodeAt o) l c1 -> exists c2, inc_pc 1 c1 = Ok tt c2 /\ midway c (CodeAt (o + 1)) l c2.
Proof.
  intros (b & s & -> & Hh & R & M). eexists. split; [now apply inc_pc_at|]. exists b, s. split; [reflexivity|auto].
Qed.
Lemma midway_pop c p l e c1 : midway c p (l ++ [e]) c1 -> exists c2, pop_operand c1 = Ok e c2 /\ midway c p l c2.
Proof.
  intros (b & s & -> & Hh & R & M). destruct (pop_holds _ l e Hh) as (c2 & E & [Hh2 [s2 ->]]). eexists. split; [exact E|].
  exists b, s2. split; [reflexivity|auto].
Qed.
Lemma midway_push c o l e t c1 : midway c (CodeAt (o + 1)) l c1 -> elem_type e = t -> elem_ok e -> sound c o l [t] (push_operand e c1).
Proof.
  intros (b & s & -> & Hh & R & M) T O. destruct (push_holds _ l e Hh) as (c2 & -> & [Hh2 [s2 ->]]). eapply (advances_one c o l e t b s2); eauto.
Qed.
Lemma midway_end c o l c1 : midway c (CodeAt (o + 1)) l c1 -> sound c o l [] (Ok tt c1).
Proof. intros (b & s & E & Hh & R & M). eapply (advances_none c o l b s); eauto. Qed.

(** *** Vectors *)
Lemma v128_operand e : elem_type e = types.v128 -> elem_ok e -> exists v, e = V128 v /\ in_u 128 v.
Proof. destruct e; try discriminate. eauto. Qed.
Lemma midway_pop_v128 c p l v c1 : midway c p (l ++ [V128 v]) c1 -> exists c2, pop_v128 c1 = Ok v c2 /\ midway c p l c2.
Proof. intros Hm. unfold pop_v128. destruct (midway_pop _ _ _ _ _ Hm) as (c2 & E & Hm2). exists c2. now rewrite (bind_Ok _ _ _ _ _ E). Qed.
Lemma midway_push_v128 c o l r c1 : midway c (CodeAt (o + 1)) l c1 -> (exists v, r = Some v /\ in_u 128 v) ->
  sound c o l [types.v128] (push_v128 r c1).
Proof. intros Hm (v & -> & Hv). now apply midway_push. Qed.

(** *** Memory *)
Lemma midway_addr_read c p l v off n c1 : midway c p (l ++ [I32 v]) c1 -> in_u 32 v -> in_u 32 off ->
  exists c2, pop_memop_addr_read off n c1 = Ok (off + v) c2 /\ midway c p l c2.
Proof.
  intros (b & s & -> & Hh & R & M) Hv Ho. edestruct (pop_addr_read_ready (H := H)) as (c2 & E & [Hh2 [s2 ->]]); [|exact Hh|exact Hv|exact Ho|]; [exact R|].
  eexists. split; [exact E|]. exists b, s2. split; [reflexivity|auto].
Qed.
Lemma midway_addr_write c p l v off n c1 : midway c p (l ++ [I32 v]) c1 -> in_u 32 v -> in_u 32 off ->
  exists c2, pop_memop_addr_write off n c1 = Ok (off + v) c2 /\ midway c p l c2.
Proof.
  intros (b & s & -> & Hh & R & M) Hv Ho. edestruct (pop_addr_write_ready (H := H)) as (c2 & E & [Hh2 [s2 ->]]); [|exact Hh|exact Hv|exact Ho|]; [exact R|].
  eexists. split; [exact E|]. exists b, s2. split; [reflexivity|auto].
Qed.
(** The end of a handler after a read: the value, or a trap. *)
Lemma midway_read c o p l outs ea n (k : Z -> M (ctx H) unit) c1 : midway c p l c1 -> 0 <= ea <= 2 ^ 33 + 1024 -> (n <= 16)%nat ->
  (forall x c2, in_u (8 * Z.of_nat n) x -> midway c p l c2 -> sound c o l outs (k x c2)) ->
  sound c o l outs ((let* x := on_base (on_alloc (read_unaligned ea n)) in k x) c1).
Proof.
  intros (b & s & E1 & Hh & R & M) Ha Hn Hk. assert (Eb : _base c1 = b) by now rewrite E1.
  destruct (read_ready b ea n R Ha Hn) as [(x & Ex & Hx)|(e & Ex & He)]; rewrite <- Eb in Ex at 1.
  - rewrite (bind_Ok _ _ _ _ _ (on_base_ok _ c1 _ _ Ex)). apply Hk; [exact Hx|]. exists b, s. rewrite E1. split; [reflexivity|]. subst c1. auto.
  - rewrite (bind_Throw _ _ _ _ _ (on_base_throw _ c1 _ _ Ex)). now right.
Qed.
Lemma midway_write c o p l outs ea n v (k : M (ctx H) unit) c1 : midway c p l c1 -> 0 <= ea <= 2 ^ 33 + 1024 -> (n <= 16)%nat ->
  (forall c2, midway c p l c2 -> sound c o l outs (k c2)) ->
  sound c o l outs ((on_base (on_alloc (write_unaligned ea n v)) ;;; k) c1).
Proof.
  intros (b & s & E1 & Hh & R & M) Ha Hn Hk. assert (Eb : _base c1 = b) by now rewrite E1.
  destruct (write_ready b ea n v R Ha Hn) as [(b2 & Ex & R2 & M2)|(e & Ex & He)]; rewrite <- Eb in Ex at 1.
  - rewrite (bind_Ok _ _ _ _ _ (on_base_ok _ c1 _ _ Ex)). apply Hk. exists b2, s. rewrite E1. split; [reflexivity|]. subst c1. split; [exact Hh|]. split; [exact R2|]. cbn in *. congruence.
  - rewrite (bind_Throw _ _ _ _ _ (on_base_throw _ c1 _ _ Ex)). now right.
Qed.

(** One handler's step after another. *)
Ltac step_inc Hm := let c' := fresh "c" in let E := fresh "E" in destruct (midway_inc _ _ _ _ Hm) as (c' & E & ?); rewrite (bind_Ok _ _ _ _ _ E); clear E.
Ltac step_pop Hm := let c' := fresh "c" in let E := fresh "E" in destruct (midway_pop _ _ _ _ _ Hm) as (c' & E & ?); rewrite (bind_Ok _ _ _ _ _ E); clear E.
Ltac step_vec Hm := let c' := fresh "c" in let E := fresh "E" in destruct (midway_pop_v128 _ _ _ _ _ Hm) as (c' & E & ?); rewrite (bind_Ok _ _ _ _ _ E); clear E.

(** *** Lane arithmetic *)
Definition handler_sig (h : Simd.handler) : list Z * Z :=
  match h with
  | Simd.Unop _ => ([types.v128], types.v128)
  | Simd.Binop _ => ([types.v128; types.v128], types.v128)
  | Simd.Ternop _ => ([types.v128; types.v128; types.v128], types.v128)
  | Simd.Test _ => ([types.v128], types.i32)
  | Simd.Shift _ _ => ([types.i32; types.v128], types.v128)
  | Simd.Splat from _ => ([from], types.v128)
  end.
Lemma vec_sig_handler op : vec_sig op = handler_sig (vec_handler op).
Proof. now destruct op. Qed.
Lemma splat_typed from e c : elem_type e = from -> from = types.i32 \/ from = types.i64 \/ from = types.f32 \/ from = types.f64 ->
  exists x, splat_operand from e c = Ok x c.
Proof. intros <- Hf. destruct e; cbn; eauto. destruct Hf as [?|[?|[?|?]]]; discriminate. Qed.
Lemma splat_range t x : full t -> 0 <= lane_bits t -> in_u 128 (splat t x).
Proof. intros E Hn. apply merge_full; [now rewrite repeat_length|exact Hn]. Qed.
(** What the vector handlers need of the functions they apply. *)
Definition handler_ok (h : Simd.handler) : Prop :=
  match h with
  | Simd.Splat from t => (from = types.i32 \/ from = types.i64 \/ from = types.f32 \/ from = types.f64) /\ full t /\ 0 <= lane_bits t
  | _ => ranged h /\ defined h
  end.
Lemma handler_fine op : may_overflow op = false -> handler_ok (vec_handler op).
Proof.
  intros Hop. pose proof (handler_ranged op) as R. pose proof (handler_defined op Hop) as D. destruct (vec_handler op) eqn:E; try (split; assumption).
  clear R D. destruct op; try discriminate E; injection E as <- <-; (split; [tauto|easy]).
Qed.
Lemma vec_typed op c o l es : may_overflow op = false -> ready (_base c) -> _pc c = CodeAt o -> holds c (l ++ rev es) ->
  map elem_type es = (vec_sig op).1 -> Forall elem_ok es -> sound c o l [(vec_sig op).2] (exec_vec op c).
Proof.
  intros Hop R Hpc Hh Ht Ho. pose proof (midway_start c o _ R Hpc Hh) as Hm. pose proof (handler_fine op Hop) as Hok. rewrite vec_sig_handler in *. unfold exec_vec.
  destruct (vec_handler op) as [f|f|f|f|k f|from t]; cbn [handler_sig fst snd] in *.
  - destruct (operand1 _ _ Ht Ho) as (e & -> & T & O). destruct (v128_operand e T O) as (v & -> & Hv). cbn [rev app] in *.
    step_inc Hm. step_vec H0. apply midway_push_v128; [assumption|]. destruct Hok as [Hr Hd]. destruct (Hd v Hv) as [r Er]. exists r. split; [exact Er|exact (Hr _ _ Er)].
  - destruct (operand2 _ _ _ Ht Ho) as (e1 & e2 & -> & T1 & T2 & O1 & O2). destruct (v128_operand e1 T1 O1) as (v1 & -> & Hv1), (v128_operand e2 T2 O2) as (v2 & -> & Hv2).
    cbn [rev app] in *. change [V128 v1; V128 v2] with ([V128 v1] ++ [V128 v2]) in Hm. rewrite app_assoc in Hm. step_inc Hm. step_vec H0. step_vec H1.
    apply midway_push_v128; [assumption|]. destruct Hok as [Hr Hd]. destruct (Hd v1 v2 Hv1 Hv2) as [r Er]. exists r. split; [exact Er|exact (Hr _ _ _ Er)].
  - destruct es as [|e3 [|e2 [|e1 [|? ?]]]]; try discriminate. injection Ht as T3 T2 T1. inversion_clear Ho as [|? ? O3 Ho']. inversion_clear Ho' as [|? ? O2 Ho]. inversion_clear Ho as [|? ? O1 _].
    destruct (v128_operand e1 T1 O1) as (v1 & -> & Hv1), (v128_operand e2 T2 O2) as (v2 & -> & Hv2), (v128_operand e3 T3 O3) as (v3 & -> & Hv3).
    cbn [rev app] in *. change [V128 v1; V128 v2; V128 v3] with ([V128 v1] ++ [V128 v2] ++ [V128 v3]) in Hm. rewrite !app_assoc in Hm. step_inc Hm. step_vec H0. step_vec H1. step_vec H2.
    apply midway_push_v128; [assumption|]. destruct Hok as [Hr Hd]. destruct (Hd v1 v2 v3 Hv1 Hv2 Hv3) as [r Er]. exists r. split; [exact Er|exact (Hr _ _ _ _ Er)].
  - destruct (operand1 _ _ Ht Ho) as (e & -> & T & O). destruct (v128_operand e T O) as (v & -> & Hv). cbn [rev app] in *.
    step_inc Hm. step_vec H0. apply (midway_push _ _ _ _ types.i32 _ H1); [reflexivity|]. apply (wrap_range 32). lia.
  - destruct (operand2 _ _ _ Ht Ho) as (e1 & e2 & -> & T1 & T2 & O1 & O2). destruct (v128_operand e1 T1 O1) as (v1 & -> & Hv1), (i32_operand e2 T2 O2) as (v2 & -> & Hv2).
    cbn [rev app] in *. change [V128 v1; I32 v2] with ([V128 v1] ++ [I32 v2]) in Hm. rewrite app_assoc in Hm. step_pop Hm. rewrite (bind_Ok (to_ui32 (I32 v2)) _ _ v2 _ eq_refl). step_inc H0. step_vec H1.
    apply midway_push_v128; [assumption|]. destruct Hok as [Hr Hd]. destruct (Hd v2 v1 Hv2 Hv1) as [r Er]. exists r. split; [exact Er|exact (Hr _ _ _ Er)].
  - destruct (operand1 _ _ Ht Ho) as (e & -> & T & O). cbn [rev app] in *. destruct Hok as (Hf & E & Hn). step_pop Hm.
    destruct (splat_typed from e c0 T Hf) as (x & Ex). rewrite (bind_Ok _ _ _ _ _ Ex). step_inc H0. apply (midway_push _ _ _ _ types.v128 _ H1); [reflexivity|]. now apply splat_range.
Qed.

(** *** Loads and stores *)
Lemma write_last c o l ea n v c1 : midway c (CodeAt (o + 1)) l c1 -> 0 <= ea <= 2 ^ 33 + 1024 -> (n <= 16)%nat ->
  sound c o l [] (on_base (on_alloc (write_unaligned ea n v)) c1).
Proof.
  intros Hm Ha Hn. pose proof (midway_write c o _ l [] ea n v (ret tt) c1 Hm Ha Hn (fun c2 => midway_end c o l c2)) as S.
  revert S. unfold bind. now destruct (on_base _ c1) as [[] ?|? ?|].
Qed.
Lemma address_bound v off : in_u 32 v -> in_u 32 off -> 0 <= off + v <= 2 ^ 33.
Proof. unfold in_u. lia. Qed.
Lemma read_lanes_sound c o p l outs u (k : list Z -> M (ctx H) unit) n : forall ea c1, midway c p l c1 -> (lane_size u <= 16)%nat ->
  0 <= ea -> ea + Z.of_nat n * Z.of_nat (lane_size u) <= 2 ^ 33 + 1024 ->
  (forall xs c2, length xs = n -> midway c p l c2 -> sound c o l outs (k xs c2)) ->
  sound c o l outs ((let* xs := read_lanes n u ea in k xs) c1).
Proof.
  revert k. induction n as [|n IH]; intros k ea c1 Hm Hu Ha Hb Hk; cbn [read_lanes].
  - exact (Hk [] c1 eq_refl Hm).
  - rewrite bind_assoc. refine (midway_read c o p l outs ea _ _ c1 Hm _ Hu _); [nia|]. intros x c2 _ Hm2. rewrite bind_assoc.
    apply (IH (fun r => let* xs := ret (cast u x :: r) in k xs) _ c2 Hm2 Hu); [nia|nia|]. intros xs c3 Hl Hm3. apply (Hk (cast u x :: xs) c3); [cbn; lia|exact Hm3].
Qed.
Lemma load_extend_sound c o l t u ea c1 : midway c (CodeAt (o + 1)) l c1 -> full t -> 0 <= lane_bits t -> (lane_count t * lane_size u <= 16)%nat -> (0 < lane_count t)%nat ->
  0 <= ea <= 2 ^ 33 -> sound c o l [types.v128] ((let* v := v128_load_extend t u ea in push_operand (V128 v)) c1).
Proof.
  intros Hm E Hn Hs Hc Ha. unfold v128_load_extend. rewrite bind_assoc. apply (read_lanes_sound c o _ l _ u _ _ ea c1 Hm); [nia|lia|nia|].
  intros xs c2 Hl Hm2. apply (midway_push _ _ _ _ types.v128 _ Hm2); [reflexivity|]. apply (merge_full t); [now rewrite Hl|exact Hn].
Qed.
Lemma load_splat_sound c o l t ea c1 : midway c (CodeAt (o + 1)) l c1 -> full t -> 0 <= lane_bits t -> (lane_size t <= 16)%nat -> 0 <= ea <= 2 ^ 33 ->
  sound c o l [types.v128] ((let* v := v128_load_splat t ea in push_operand (V128 v)) c1).
Proof.
  intros Hm E Hn Hs Ha. unfold v128_load_splat. rewrite bind_assoc. refine (midway_read c o _ l _ ea _ _ c1 Hm _ Hs _); [lia|].
  intros x c2 _ Hm2. apply (midway_push _ _ _ _ types.v128 _ Hm2); [reflexivity|]. now apply splat_range.
Qed.
Lemma load_zero_sound c o l t ea c1 : midway c (CodeAt (o + 1)) l c1 -> full t -> 0 <= lane_bits t -> (lane_size t <= 16)%nat -> 0 <= ea <= 2 ^ 33 -> (0 < lane_count t)%nat ->
  sound c o l [types.v128] ((let* v := v128_load_zero t ea in push_operand (V128 v)) c1).
Proof.
  intros Hm E Hn Hs Ha Hc. unfold v128_load_zero. rewrite bind_assoc. refine (midway_read c o _ l _ ea _ _ c1 Hm _ Hs _); [lia|].
  intros x c2 _ Hm2. apply (midway_push _ _ _ _ types.v128 _ Hm2); [reflexivity|]. apply (merge_full t); [|exact Hn].
  cbn [length]. rewrite repeat_length. now replace (S (lane_count t - 1)) with (lane_count t) by lia.
Qed.
Lemma vec_load_typed op m c o l e : ready (_base c) -> _pc c = CodeAt o -> holds c (l ++ [e]) -> elem_type e = types.i32 -> elem_ok e ->
  in_u 32 (mem_offset m) -> sound c o l [types.v128] (exec_vec_load op m c).
Proof.
  intros R Hpc Hh Ht Ho Hoff. destruct (i32_operand e Ht Ho) as (v & -> & Hv). pose proof (midway_start c o _ R Hpc Hh) as Hm. unfold exec_vec_load. step_inc Hm.
  destruct (midway_addr_read _ _ _ _ _ (Z.of_nat (vec_load_size op)) _ H0 Hv Hoff) as (c1 & E & Hm1). rewrite (bind_Ok _ _ _ _ _ E).
  pose proof (address_bound v (mem_offset m) Hv Hoff) as Ha. destruct op; cbn [vec_load_value];
    first [apply load_extend_sound; [exact Hm1|reflexivity|easy|vm_compute; lia|vm_compute; lia|exact Ha]
          |apply load_splat_sound; [exact Hm1|reflexivity|easy|vm_compute; lia|exact Ha]
          |apply load_zero_sound; [exact Hm1|reflexivity|easy|vm_compute; lia|exact Ha|vm_compute; lia]
          |refine (midway_read c o _ l _ _ 16 _ c1 Hm1 _ _ _); [lia|lia|]; intros x c2 Hx Hm2; now apply (midway_push _ _ _ _ types.v128 _ Hm2)].
Qed.
Lemma v128_store_typed m c o l ea ev : ready (_base c) -> _pc c = CodeAt o -> holds c (l ++ [ea; ev]) -> elem_type ea = types.i32 ->
  elem_type ev = types.v128 -> elem_ok ea -> elem_ok ev -> in_u 32 (mem_offset m) -> sound c o l [] (exec_v128_store m c).
Proof.
  intros R Hpc Hh Ta Tv Oa Ov Hoff. destruct (i32_operand ea Ta Oa) as (v & -> & Hv), (v128_operand ev Tv Ov) as (w & -> & Hw).
  change [I32 v; V128 w] with ([I32 v] ++ [V128 w]) in Hh. rewrite app_assoc in Hh. pose proof (midway_start c o _ R Hpc Hh) as Hm. unfold exec_v128_store. step_inc Hm. step_pop H0.
  destruct (midway_addr_write _ _ _ _ _ 16 _ H1 Hv Hoff) as (c2 & E & Hm1). rewrite (bind_Ok _ _ _ _ _ E), (bind_Ok (to_v128 (V128 w)) _ _ w _ eq_refl).
  pose proof (address_bound v (mem_offset m) Hv Hoff). apply write_last; [exact Hm1|lia|lia].
Qed.

(** *** Lanes *)
Lemma set_lane_some t i x v : full t -> 0 <= lane_bits t -> lane_ok t i = true -> exists r, set_lane t i x v = Some r /\ in_u 128 r.
Proof.
  unfold lane_ok, set_lane. rewrite andb_true_iff. intros E Hn [_ ->]. eexists. split; [reflexivity|]. apply merge_full; [|exact Hn].
  now rewrite length_insert, lanes_length.
Qed.
Lemma get_lane_some t i v : lane_ok t i = true -> exists x, get_lane t i v = Some x.
Proof.
  unfold lane_ok, get_lane. rewrite andb_true_iff, Z.leb_le, Z.ltb_lt. intros [H1 H2]. apply lookup_lt_is_Some. rewrite lanes_length. lia.
Qed.
Lemma load_lane_typed op m i c o l ea ev : ready (_base c) -> _pc c = CodeAt o -> holds c (l ++ [ea; ev]) -> elem_type ea = types.i32 ->
  elem_type ev = types.v128 -> elem_ok ea -> elem_ok ev -> in_u 32 (mem_offset m) -> lane_ok (load_lane op) i = true ->
  sound c o l [types.v128] (exec_vec_load_lane op m i c).
Proof.
  intros R Hpc Hh Ta Tv Oa Ov Hoff Hi. destruct (i32_operand ea Ta Oa) as (v & -> & Hv), (v128_operand ev Tv Ov) as (w & -> & Hw).
  change [I32 v; V128 w] with ([I32 v] ++ [V128 w]) in Hh. rewrite app_assoc in Hh. pose proof (midway_start c o _ R Hpc Hh) as Hm. unfold exec_vec_load_lane. step_inc Hm. step_vec H0.
  destruct (midway_addr_read _ _ _ _ _ (Z.of_nat (lane_size (load_lane op))) _ H1 Hv Hoff) as (c2 & E & Hm1). rewrite (bind_Ok _ _ _ _ _ E).
  pose proof (address_bound v (mem_offset m) Hv Hoff). refine (midway_read c o _ l _ _ _ _ c2 Hm1 _ _ _); [lia|destruct op; vm_compute; lia|].
  intros x c3 _ Hm3. apply midway_push_v128; [exact Hm3|]. apply set_lane_some; [now destruct op|now destruct op|exact Hi].
Qed.
Lemma store_lane_typed op m i c o l ea ev : ready (_base c) -> _pc c = CodeAt o -> holds c (l ++ [ea; ev]) -> elem_type ea = types.i32 ->
  elem_type ev = types.v128 -> elem_ok ea -> elem_ok ev -> in_u 32 (mem_offset m) -> lane_ok (store_lane op) i = true ->
  sound c o l [] (exec_vec_store_lane op m i c).
Proof.
  intros R Hpc Hh Ta Tv Oa Ov Hoff Hi. destruct (i32_operand ea Ta Oa) as (v & -> & Hv), (v128_operand ev Tv Ov) as (w & -> & Hw).
  change [I32 v; V128 w] with ([I32 v] ++ [V128 w]) in Hh. rewrite app_assoc in Hh. pose proof (midway_start c o _ R Hpc Hh) as Hm. unfold exec_vec_store_lane. step_inc Hm. step_vec H0.
  destruct (midway_addr_write _ _ _ _ _ (Z.of_nat (lane_size (store_lane op))) _ H1 Hv Hoff) as (c2 & E & Hm1). rewrite (bind_Ok _ _ _ _ _ E).
  pose proof (address_bound v (mem_offset m) Hv Hoff). destruct (get_lane_some _ _ w Hi) as (x & ->). apply write_last; [exact Hm1|lia|destruct op; vm_compute; lia].
Qed.
Lemma collect_lookup (l : list Z) ls : Forall (fun i => 0 <= i < vec_size l) ls -> exists r, collect (fun i => l !! Z.to_nat i) ls = Some r /\ length r = length ls.
Proof.
  induction 1 as [|i ls Hi _ (r & E & Hl)]; [now exists []|]. destruct (lookup_lt_is_Some_2 l (Z.to_nat i)) as [x Ex]; [unfold vec_size in Hi; lia|].
  exists (x :: r). cbn [collect]. rewrite Ex, E. cbn. auto.
Qed.
Definition shuffle_ok (ls : list Z) : bool := (Z.of_nat (length ls) =? 16) && forallb (fun i => (0 <=? i) && (i <? 32)) ls.
Lemma shuffle_some ls v1 v2 : shuffle_ok ls = true -> exists r, shuffle ls v1 v2 = Some r /\ in_u 128 r.
Proof.
  unfold shuffle_ok, shuffle. rewrite andb_true_iff, Z.eqb_eq, forallb_forall. intros [Hl Hf]. destruct (collect_lookup (lanes u8 v1 ++ lanes u8 v2) ls) as (r & -> & Hr).
  - apply List.Forall_forall. intros i Hi. specialize (Hf i Hi). rewrite andb_true_iff, Z.leb_le, Z.ltb_lt in Hf. unfold vec_size. rewrite length_app, !lanes_length. exact Hf.
  - eexists. split; [reflexivity|]. apply merge_full; [|easy]. rewrite Hr, Hl. reflexivity.
Qed.
Lemma shuffle_typed ls c o l e1 e2 : ready (_base c) -> _pc c = CodeAt o -> holds c (l ++ [e1; e2]) -> elem_type e1 = types.v128 ->
  elem_type e2 = types.v128 -> elem_ok e1 -> elem_ok e2 -> shuffle_ok ls = true -> sound c o l [types.v128] (exec_shuffle ls c).
Proof.
  intros R Hpc Hh T1 T2 O1 O2 Hl. destruct (v128_operand e1 T1 O1) as (v1 & -> & Hv1), (v128_operand e2 T2 O2) as (v2 & -> & Hv2).
  change [V128 v1; V128 v2] with ([V128 v1] ++ [V128 v2]) in Hh. rewrite app_assoc in Hh. pose proof (midway_start c o _ R Hpc Hh) as Hm. unfold exec_shuffle. step_inc Hm. step_vec H0. step_vec H1.
  apply midway_push_v128; [assumption|]. now apply shuffle_some.
Qed.
Lemma extract_typed op i c o l e : ready (_base c) -> _pc c = CodeAt o -> holds c (l ++ [e]) -> elem_type e = types.v128 -> elem_ok e ->
  lane_ok (extract_lane op).1 i = true -> sound c o l [extract_type op] (exec_extract_lane op i c).
Proof.
  intros R Hpc Hh T O Hi. destruct (v128_operand e T O) as (v & -> & Hv). pose proof (midway_start c o _ R Hpc Hh) as Hm. unfold exec_extract_lane. step_inc Hm. step_vec H0.
  destruct (get_lane_some _ _ v Hi) as (x & ->). apply midway_push; [assumption|now destruct op|].
  destruct op; cbn; apply wrap_range; lia.
Qed.
Lemma replace_typed op i c o l e1 e2 : ready (_base c) -> _pc c = CodeAt o -> holds c (l ++ [e1; e2]) -> elem_type e1 = types.v128 ->
  elem_type e2 = replace_type op -> elem_ok e1 -> elem_ok e2 -> lane_ok (replace_shape op) i = true -> sound c o l [types.v128] (exec_replace_lane op i c).
Proof.
  intros R Hpc Hh T1 T2 O1 O2 Hi. destruct (v128_operand e1 T1 O1) as (v1 & -> & Hv1).
  change [V128 v1; e2] with ([V128 v1] ++ [e2]) in Hh. rewrite app_assoc in Hh. pose proof (midway_start c o _ R Hpc Hh) as Hm. unfold exec_replace_lane. step_pop Hm.
  assert (Hx : exists x, (replace_lane op).2 e2 c0 = Ok x c0) by (destruct op, e2; try discriminate T2; cbn; eauto). destruct Hx as (x & Ex). rewrite (bind_Ok _ _ _ _ _ Ex).
  step_inc H0. step_vec H1. apply midway_push_v128; [assumption|]. replace (replace_lane op).1 with (replace_shape op) by now destruct op.
  apply set_lane_some; [now destruct op|now destruct op|exact Hi].
Qed.

(** *** Atomics *)
Lemma to_width_typed w e c : elem_type e = int_t w -> exists v, to_width w e c = Ok v c.
Proof. destruct w, e; try discriminate; cbn; eauto. Qed.
Lemma of_width_typed w n v : (8 * Z.of_nat n <= match w with W32 => 32 | W64 => 64 end) -> in_u (8 * Z.of_nat n) v ->
  elem_type (of_width w v) = int_t w /\ elem_ok (of_width w v).
Proof.
  intros Hn [H0 H1]. assert (2 ^ (8 * Z.of_nat n) <= 2 ^ (match w with W32 => 32 | W64 => 64 end)) by (apply Z.pow_le_mono_r; lia).
  destruct w; cbn; unfold in_u; (split; [reflexivity|lia]).
Qed.
(** The bytes of an access fit the operand's type. *)
Definition access_ok (w : width) (n : nat) : Prop := 8 * Z.of_nat n <= match w with W32 => 32 | W64 => 64 end.
Lemma access_small w n : access_ok w n -> (n <= 16)%nat.
Proof. unfold access_ok. destruct w; lia. Qed.
Definition shape_ok (s : atomic_shape) : Prop :=
  match s with ALoad w n | AStore w n | ARmw w n _ | ACmpxchg w n => access_ok w n | _ => True end.
Lemma shapes_ok sub : shape_ok (shape_of sub).
Proof. destruct sub; try exact I; vm_compute; intros E; discriminate E. Qed.
Lemma atomic_rmw_typed w n op off c o l v1 e2 c1 : midway c (CodeAt (o + 1)) ((l ++ [I32 v1]) ++ [e2]) c1 -> elem_type e2 = int_t w -> in_u 32 v1 -> in_u 32 off ->
  access_ok w n -> sound c o l [int_t w] ((let* e := pop_operand in
      let* val := to_width w e in
      let* p := pop_memop_addr_write off (Z.of_nat n) in
      let* old := read_atomic p n in
      write_atomic p n (op old (wrap (8 * Z.of_nat n) val)) ;;;
      push_operand (of_width w old)) c1).
Proof.
  intros Hm T2 Hv Hoff Hn. step_pop Hm. destruct (to_width_typed w e2 c0 T2) as (x & Ex). rewrite (bind_Ok _ _ _ _ _ Ex).
  destruct (midway_addr_write _ _ _ _ _ (Z.of_nat n) _ H0 Hv Hoff) as (c2 & E & Hm1). rewrite (bind_Ok _ _ _ _ _ E). pose proof (address_bound v1 off Hv Hoff). pose proof (access_small w n Hn).
  refine (midway_read c o _ l _ _ n _ c2 Hm1 _ _ _); [lia|assumption|]. intros old c3 Hold Hm3. refine (midway_write c o _ l _ _ n _ _ c3 Hm3 _ _ _); [lia|assumption|].
  intros c4 Hm4. destruct (of_width_typed w n old Hn Hold) as [T O]. exact (midway_push _ _ _ _ _ _ Hm4 T O).
Qed.
Lemma atomic_cmpxchg_typed w n off c o l v1 e2 e3 c1 : midway c (CodeAt (o + 1)) (((l ++ [I32 v1]) ++ [e2]) ++ [e3]) c1 -> elem_type e2 = int_t w -> elem_type e3 = int_t w ->
  in_u 32 v1 -> in_u 32 off -> access_ok w n -> sound c o l [int_t w] ((let* e1 := pop_operand in
      let* replacement := to_width w e1 in
      let* e2 := pop_operand in
      let* expected := to_width w e2 in
      let* p := pop_memop_addr_write off (Z.of_nat n) in
      let* old := read_atomic p n in
      (if old =? wrap (8 * Z.of_nat n) expected then write_atomic p n replacement else ret tt) ;;;
      push_operand (of_width w old)) c1).
Proof.
  intros Hm T2 T3 Hv Hoff Hn. step_pop Hm. destruct (to_width_typed w e3 c0 T3) as (x & Ex). rewrite (bind_Ok _ _ _ _ _ Ex).
  step_pop H0. destruct (to_width_typed w e2 c2 T2) as (y & Ey). rewrite (bind_Ok _ _ _ _ _ Ey).
  destruct (midway_addr_write _ _ _ _ _ (Z.of_nat n) _ H1 Hv Hoff) as (c3 & E & Hm1). rewrite (bind_Ok _ _ _ _ _ E). pose proof (address_bound v1 off Hv Hoff). pose proof (access_small w n Hn).
  refine (midway_read c o _ l _ _ n _ c3 Hm1 _ _ _); [lia|assumption|]. intros old c4 Hold Hm4. destruct (of_width_typed w n old Hn Hold) as [T O]. destruct (old =? _).
  - refine (midway_write c o _ l _ _ n _ _ c4 Hm4 _ _ _); [lia|assumption|]. intros c5 Hm5. exact (midway_push _ _ _ _ _ _ Hm5 T O).
  - rewrite bind_ret. exact (midway_push _ _ _ _ _ _ Hm4 T O).
Qed.
Lemma atomic_typed sub m c o l es : ready (_base c) -> _pc c = CodeAt o -> holds c (l ++ rev es) -> map elem_type es = (atomic_sig sub).1 ->
  Forall elem_ok es -> in_u 32 (mem_offset m) -> sound c o l (atomic_sig sub).2 (exec_atomic sub m c).
Proof.
  intros R Hpc Hh Ht Ho Hoff. pose proof (midway_start c o _ R Hpc Hh) as Hm. pose proof (shapes_ok sub) as Hs. unfold exec_atomic. step_inc Hm. unfold atomic_sig in *.
  destruct (shape_of sub) as [| | |w n|w n|w n op|w n]; cbn [fst snd shape_ok] in *.
  - destruct es; [|discriminate]. cbn [rev app] in *. rewrite app_nil_r in *. now apply midway_end.
  - destruct (operand2 _ _ _ Ht Ho) as (e1 & e2 & -> & T1 & T2 & O1 & O2). cbn [rev app] in *. change [e1; e2] with ([e1] ++ [e2]) in *. rewrite app_assoc in *.
    step_pop H0. step_pop H1. apply (midway_push _ _ _ _ types.i32 _ H2); [reflexivity|]. easy.
  - destruct es as [|e3 [|e2 [|e1 [|? ?]]]]; try discriminate. cbn [rev app] in *. change [e1; e2; e3] with ([e1] ++ [e2] ++ [e3]) in *. rewrite !app_assoc in *.
    unfold pop3. rewrite !bind_assoc. step_pop H0. rewrite bind_assoc. step_pop H1. rewrite bind_assoc. step_pop H2. rewrite bind_ret. apply (midway_push _ _ _ _ types.i32 _ H3); [reflexivity|]. easy.
  - destruct (operand1 _ _ Ht Ho) as (e & -> & T & O). destruct (i32_operand e T O) as (v & -> & Hv). cbn [rev app] in *.
    destruct (midway_addr_read _ _ _ _ _ (Z.of_nat n) _ H0 Hv Hoff) as (c1 & E & Hm1). rewrite (bind_Ok _ _ _ _ _ E). pose proof (address_bound v (mem_offset m) Hv Hoff). pose proof (access_small w n Hs).
    refine (midway_read c o _ l _ _ n _ c1 Hm1 _ _ _); [lia|assumption|]. intros x c2 Hx Hm2. destruct (of_width_typed w n x Hs Hx) as [T' O']. exact (midway_push _ _ _ _ _ _ Hm2 T' O').
  - destruct (operand2 _ _ _ Ht Ho) as (e1 & e2 & -> & T1 & T2 & O1 & O2). destruct (i32_operand e1 T1 O1) as (v & -> & Hv). cbn [rev app] in *. change [I32 v; e2] with ([I32 v] ++ [e2]) in *. rewrite app_assoc in *.
    step_pop H0. destruct (to_width_typed w e2 c1 T2) as (x & Ex). rewrite (bind_Ok _ _ _ _ _ Ex).
    destruct (midway_addr_write _ _ _ _ _ (Z.of_nat n) _ H1 Hv Hoff) as (c2 & E & Hm1). rewrite (bind_Ok _ _ _ _ _ E). pose proof (address_bound v (mem_offset m) Hv Hoff).
    apply write_last; [exact Hm1|lia|now apply (access_small w)].
  - destruct (operand2 _ _ _ Ht Ho) as (e1 & e2 & -> & T1 & T2 & O1 & O2). destruct (i32_operand e1 T1 O1) as (v & -> & Hv). cbn [rev app] in *. change [I32 v; e2] with ([I32 v] ++ [e2]) in *. rewrite app_assoc in *.
    now apply (atomic_rmw_typed w n op _ c o l v e2).
  - destruct es as [|e3 [|e2 [|e1 [|? ?]]]]; try discriminate. injection Ht as T3 T2 T1. inversion_clear Ho as [|? ? O3 Ho']. inversion_clear Ho' as [|? ? O2 Ho]. inversion_clear Ho as [|? ? O1 _].
    destruct (i32_operand e1 T1 O1) as (v & -> & Hv). cbn [rev app] in *. change [I32 v; e2; e3] with ([I32 v] ++ [e2] ++ [e3]) in *. rewrite !app_assoc in *.
    now apply (atomic_cmpxchg_typed w n _ c o l v e2 e3).
Qed.
End Vec.
