(* ===== verification/Typing.v ===== *)
(** * Type soundness of straight-line instructions

    A typing judgment for the instructions without control flow, and the proof
    that the handlers respect it, one instruction at a time and in blocks. *)
From Stdlib Require Import ZArith Lia Bool String.
From stdpp Require Import base list numbers decidable option gmap.
From S2P Require Import Prelude Types Stack Memory Numeric Softfloat InitExpr Context Operands Interp Simd SimdSpec SimdTotal Demo Invariants TypedOps TypedVec.
Import Opcode.

(** ** Typing of straight-line code

    Types are those of the stack elements: a reference is kept as an [i32].
    [L] are the types of the current function's locals; stacks are listed top
    first. *)
Definition rep_type (t : Z) : Z :=
  if (t =? types.funcref) || (t =? types.externref) || (t =? types.exnref) then types.i32 else t.
Definition fits (w v : Z) : bool := (0 <=? v) && (v <? 2 ^ w).

(** Vector and atomic instructions. *)
Definition guard {A} (b : bool) (x : A) : option A := if b then Some x else None.
Definition vector_type (op : opcode) : option (list Z * list Z) :=
  match op with
  | vec_load_ _ a => guard (fits 32 (mem_offset a)) ([types.i32], [types.v128])
  | v128_store_ a => guard (fits 32 (mem_offset a)) ([types.v128; types.i32], [])
  | vec_load_lane_ o a i => guard (fits 32 (mem_offset a) && lane_ok (load_lane o) i) ([types.v128; types.i32], [types.v128])
  | vec_store_lane_ o a i => guard (fits 32 (mem_offset a) && lane_ok (store_lane o) i) ([types.v128; types.i32], [])
  | v128_const_ v => guard (fits 128 v) ([], [types.v128])
  | i8x16_shuffle_ ls => guard (shuffle_ok ls) ([types.v128; types.v128], [types.v128])
  | vec_extract_lane_ o i => guard (lane_ok (extract_lane o).1 i) ([types.v128], [extract_type o])
  | vec_replace_lane_ o i => guard (lane_ok (replace_shape o) i) ([replace_type o; types.v128], [types.v128])
  | vec_ o => guard (negb (may_overflow o)) ((vec_sig o).1, [(vec_sig o).2])
  | atomic_op_ k a => guard (fits 32 (mem_offset a)) (atomic_sig k)
  | _ => None
  end.

Definition instr_type (m : module) (L : list Z) (op : opcode) : option (list Z * list Z) :=
  match op with
  | nop_ | block_ | end_ | loop_ => Some ([], [])
  | i32_const_ v => if fits 32 v then Some ([], [types.i32]) else None
  | i64_const_ v => if fits 64 v then Some ([], [types.i64]) else None
  | f32_const_ v => if fits 32 v then Some ([], [types.f32]) else None
  | f64_const_ v => if fits 64 v then Some ([], [types.f64]) else None
  | load_ o a => if fits 32 (mem_offset a) then Some ([types.i32], [load_type o]) else None
  | store_ o a => if fits 32 (mem_offset a) then Some ([store_type o; types.i32], []) else None
  | current_memory_ => Some ([], [types.i32])
  | grow_memory_ => Some ([types.i32], [types.i32])
  | ref_null_ _ => Some ([], [types.i32])
  | ref_is_null_ => Some ([types.i32], [types.i32])
  | ref_func_ i => if fits 32 i then Some ([], [types.i32]) else None
  | get_global_ i =>
      match vec_lookup (m_globals m) i with
      | Some g => Some ([], [rep_type (content_type (gv_type g))])
      | None => None
      end
  | set_global_ i =>
      match vec_lookup (m_globals m) i with
      | Some g => if mutability (gv_type g) then Some ([rep_type (content_type (gv_type g))], []) else None
      | None => None
      end
  | vec_load_ _ _ | v128_store_ _ | vec_load_lane_ _ _ _ | vec_store_lane_ _ _ _ | v128_const_ _ | i8x16_shuffle_ _
  | vec_extract_lane_ _ _ | vec_replace_lane_ _ _ | vec_ _ | atomic_op_ _ _ => vector_type op
  | _ => option_map (fun '(args, t) => (args, [t])) (numeric_type op)
  end.

Fixpoint strip (args ts : list Z) : option (list Z) :=
  match args, ts with
  | [], _ => Some ts
  | a :: args', t :: ts' => if a =? t then strip args' ts' else None
  | _ :: _, [] => None
  end.

Definition step_type (m : module) (L : list Z) (op : opcode) (ts : list Z) : option (list Z) :=
  match op with
  | drop_ => match ts with _ :: ts' => Some ts' | [] => None end
  | select_ =>
      match ts with
      | c :: t2 :: t1 :: ts' => if (c =? types.i32) && (t1 =? t2) then Some (t1 :: ts') else None
      | _ => None
      end
  | get_local_ i => match vec_lookup L i with Some t => Some (t :: ts) | None => None end
  | set_local_ i => match vec_lookup L i with Some t => strip [t] ts | None => None end
  | tee_local_ i =>
      match vec_lookup L i with
      | Some t => match strip [t] ts with Some _ => Some ts | None => None end
      | None => None
      end
  | _ =>
      match instr_type m L op with
      | Some (args, outs) => match strip args ts with Some ts' => Some (outs ++ ts') | None => None end
      | None => None
      end
  end.

Fixpoint block_type (m : module) (L : list Z) (code : list opcode) (ts : list Z) : option (list Z) :=
  match code with
  | [] => Some ts
  | op :: code' => match step_type m L op ts with Some ts' => block_type m L code' ts' | None => None end
  end.

Section Frames.
Context {SF : SoftFloat} {HF : HostFloat} {H : Type}.
Implicit Types c : ctx H.

(** The operand stack of [c], above the callers' part [pre], holds locals of
    types [L] and operands of types [ts]. *)
Definition frame (L : list Z) (pre : list elem) (ts : list Z) c : Prop :=
  exists locs ops, holds c ((pre ++ locs) ++ rev ops) /\
    map elem_type locs = L /\ Forall elem_ok locs /\ map elem_type ops = ts /\ Forall elem_ok ops /\
    _last_op_index c = vec_size pre /\ ready (_base c).

(** Only the instance, the operand stack and the program counter change. *)
Definition kept c c' : Prop := exists b s p,
  c' = c <| _base := b |> <| _os := s |> <| _pc := p |> /\ _mod b = _mod (_base c).

Definition step_ok (L : list Z) (pre : list elem) (ts : list Z) (o : Z) c (r : outcome (ctx H) unit) : Prop :=
  match r with
  | Ok _ c' => frame L pre ts c' /\ _pc c' = CodeAt (o + 1) /\ kept c c'
  | Throw e _ => is_trap e
  | UB => False
  end.

Lemma strip_spec args ts ts' : strip args ts = Some ts' -> ts = args ++ ts'.
Proof.
  revert ts. induction args as [|a args IH]; intros [|t ts]; cbn; try congruence.
  destruct (Z.eqb_spec a t) as [->|]; [|discriminate]. intros E. f_equal. auto.
Qed.
Lemma map_app_split (ops : list elem) ts1 ts2 : map elem_type ops = ts1 ++ ts2 -> Forall elem_ok ops ->
  exists es rest, ops = es ++ rest /\ map elem_type es = ts1 /\ map elem_type rest = ts2 /\
    Forall elem_ok es /\ Forall elem_ok rest.
Proof.
  intros E F. apply map_eq_app in E as (es & rest & -> & E1 & E2). apply Forall_app in F as [F1 F2]. eauto 8.
Qed.

Lemma sound_frame L pre c o locs rest ts outs r :
  sound c o ((pre ++ locs) ++ rev rest) outs r ->
  map elem_type locs = L -> Forall elem_ok locs -> map elem_type rest = ts -> Forall elem_ok rest ->
  _last_op_index c = vec_size pre -> step_ok L pre (rev outs ++ ts) o c r.
Proof.
  intros Hs HL FL HT FT HI. destruct r as [u c'|e c'|]; cbn in *; auto.
  destruct Hs as (res & b & s & -> & Hh & Ht & Fo & Rb & Mb). cbn in Hh. rewrite <- app_assoc in Hh.
  split; [|split; [reflexivity|now exists b, s, (CodeAt (o + 1))]].
  exists locs, (rev res ++ rest). rewrite rev_app_distr, rev_involutive, map_app, map_rev, Ht, HT.
  repeat split; auto; try apply Hh; try apply Rb. apply Forall_app. split; [|exact FT]. now apply Forall_rev.
Qed.


(** *** Globals *)
Lemma global_at c i g : vec_lookup (m_globals (_mod (_base c))) i = Some g -> ready (_base c) ->
  exists v, vec_lookup (_globals (_base c)) i = Some v.
Proof.
  intros Hg R. apply vec_lookup_range. apply vec_lookup_lt in Hg. unfold vec_size in *.
  rewrite (rd_globals _ R). exact Hg.
Qed.

Lemma get_global_typed c i g : ready (_base c) -> vec_lookup (m_globals (_mod (_base c))) i = Some g ->
  (exists e, get_global i c = Ok e c /\ elem_type e = rep_type (content_type (gv_type g)) /\ elem_ok e) \/
  exists ex, get_global i c = Throw ex c /\ is_trap ex.
Proof.
  intros R Hg. destruct (global_at c i g Hg R) as [v Hv]. unfold get_global, the_module, bind, gets.
  pose proof (vec_lookup_lt _ _ _ Hg) as B. destruct (Z.ltb_spec i (vec_size (m_globals (_mod (_base c))))); [|lia].
  cbn [psizam_assert ret]. rewrite (vec_index_Ok _ _ _ _ Hg), (vec_index_Ok _ _ _ _ Hv). unfold rep_type.
  set (t := content_type (gv_type g)).
  assert (W : forall w, 0 < w -> in_u w (wrap w (ie_value v))) by (intros; now apply wrap_range).
  do 5 (match goal with |- context [if t =? ?k then _ else _] => destruct (Z.eqb_spec t k) as [->|] end;
    [left; eexists; split; [reflexivity|]; split; [reflexivity|apply W; lia]|]).
  destruct (_ || _).
  - left. eexists. split; [reflexivity|]. split; [reflexivity|apply W; lia].
  - right. eexists. split; [reflexivity|now left].
Qed.

Lemma get_global_sound c o l i g : ready (_base c) -> _pc c = CodeAt o -> holds c l ->
  vec_lookup (m_globals (_mod (_base c))) i = Some g ->
  sound c o l [rep_type (content_type (gv_type g))] (exec_get_global i c).
Proof.
  intros R Hpc Hh Hg. unfold exec_get_global.
  rewrite (bind_Ok _ _ _ _ _ (inc_pc_at c o 1 Hpc)). set (c1 := c <| _pc := _ |>).
  destruct (get_global_typed c1 i g R Hg) as [(e & E & T & O)|(ex & E & T)].
  - rewrite (bind_Ok _ _ _ _ _ E). destruct (push_holds c1 l e Hh) as (c2 & -> & [Hh2 [s ->]]).
    eapply (advances_one c o l e _ (_base c) s); eauto.
  - now rewrite (bind_Throw _ _ _ _ _ E).
Qed.

Lemma store_global_ready c i w x v : ready (_base c) -> vec_lookup (_globals (_base c)) i = Some v ->
  exists b, store_global i w x c = Ok tt (c <| _base := b |>) /\ ready b /\ _mod b = _mod (_base c).
Proof.
  intros R Hv. unfold store_global, bind, gets. rewrite (vec_index_Ok _ _ _ _ Hv).
  unfold on_base, zoom, modify. eexists. split; [reflexivity|]. split; [|reflexivity].
  destruct R. split; cbn; auto. now rewrite vec_update_length.
Qed.

Lemma set_global_typed c i g e : ready (_base c) -> vec_lookup (m_globals (_mod (_base c))) i = Some g ->
  (exists b, set_global i e c = Ok tt (c <| _base := b |>) /\ ready b /\ _mod b = _mod (_base c)) \/
  exists ex, set_global i e c = Throw ex c /\ is_trap ex.
Proof.
  intros R Hg. destruct (global_at c i g Hg R) as [v Hv]. unfold set_global, the_module, bind, gets.
  pose proof (vec_lookup_lt _ _ _ Hg) as B. destruct (Z.ltb_spec i (vec_size (m_globals (_mod (_base c))))); [|lia].
  cbn [psizam_assert ret]. rewrite (vec_index_Ok _ _ _ _ Hg).
  destruct (mutability (gv_type g)); [|right; eexists; split; [reflexivity|now left]].
  cbn [psizam_assert ret].
  destruct e; unfold psizam_assert;
    match goal with |- context [if ?b then ret tt else _] => destruct b end;
    try (right; eexists; split; [reflexivity|now left]);
    left; unfold ret; now apply (store_global_ready _ _ _ _ v).
Qed.

Lemma set_global_sound c o l i g e : ready (_base c) -> _pc c = CodeAt o -> holds c (l ++ [e]) ->
  vec_lookup (m_globals (_mod (_base c))) i = Some g -> sound c o l [] (exec_set_global i c).
Proof.
  intros R Hpc Hh Hg. unfold exec_set_global.
  rewrite (bind_Ok _ _ _ _ _ (inc_pc_at c o 1 Hpc)). set (c1 := c <| _pc := _ |>).
  destruct (pop_holds c1 l e Hh) as (c2 & E & [Hh2 [s ->]]). rewrite (bind_Ok _ _ _ _ _ E).
  set (c2 := c1 <| _os := s |>) in *.
  destruct (set_global_typed c2 i g e R Hg) as [(b & -> & Rb & Mb)|(ex & -> & T)]; [|exact T].
  eapply (advances_none c o l b s); eauto.
Qed.

(** *** Straight-line instructions with a fixed type *)
Lemma inc_sound c o l : ready (_base c) -> _pc c = CodeAt o -> holds c l -> sound c o l [] (inc_pc 1 c).
Proof.
  intros R Hpc Hh. rewrite (inc_pc_at c o 1 Hpc). eapply (advances_none c o l (_base c) (_os c)); eauto.
Qed.
Lemma loop_sound c o l : ready (_base c) -> _pc c = CodeAt o -> holds c l -> sound c o l [] (step loop_ c).
Proof.
  intros R Hpc Hh. cbn [step].
  assert (E : validate_read_watermark (_base c) = Ok tt (_base c)).
  { unfold validate_read_watermark, bind, get. rewrite (rd_guarded _ R). reflexivity. }
  rewrite (bind_Ok _ _ _ _ _ (on_base_ok _ c _ _ E)). set (c1 := c <| _base := _ |>).
  rewrite (inc_pc_at c1 o 1 Hpc). eapply (advances_none c o l (_base c) (_os c)); eauto.
Qed.
(** [ref.null], [ref.func]: pushing before advancing. *)
Lemma push_inc_sound c o l v : ready (_base c) -> _pc c = CodeAt o -> holds c l -> in_u 32 v ->
  sound c o l [types.i32] ((push_operand (I32 v) ;;; inc_pc 1) c).
Proof.
  intros R Hpc Hh Hv. destruct (push_holds c l (I32 v) Hh) as (c2 & E & [Hh2 [s ->]]).
  rewrite (bind_Ok _ _ _ _ _ E). set (c2 := c <| _os := s |>) in *. rewrite (inc_pc_at c2 o 1 Hpc).
  eapply (advances_one c o l (I32 v) _ (_base c) s); eauto.
Qed.
Lemma ref_is_null_sound c o l e : ready (_base c) -> _pc c = CodeAt o -> holds c (l ++ [e]) ->
  elem_type e = types.i32 -> elem_ok e -> sound c o l [types.i32] (exec_ref_is_null c).
Proof.
  intros R Hpc Hh Ht Ho. destruct (i32_operand e Ht Ho) as (v & -> & Hv). unfold exec_ref_is_null.
  destruct (pop_holds c l (I32 v) Hh) as (c1 & E & [Hh1 [s ->]]). rewrite (bind_Ok _ _ _ _ _ E).
  set (c1 := c <| _os := s |>) in *. rewrite (bind_Ok (to_ui32 (I32 v)) _ c1 v c1 eq_refl).
  pose proof (push_inc_sound c1 o l (b2z (v =? UINT32_MAX)) R Hpc Hh1 (b2z_range _ 32 ltac:(lia))) as S.
  destruct ((push_operand (I32 (b2z (v =? UINT32_MAX))) ;;; inc_pc 1) c1) as [u c2|ex c2|]; auto.
Qed.

Lemma fits_in_u w v : fits w v = true -> in_u w v.
Proof. unfold fits, in_u. blia. Qed.

(** *** Vector and atomic instructions *)
Lemma vector_sound op args outs c o l es : vector_type op = Some (args, outs) -> ready (_base c) -> _pc c = CodeAt o ->
  holds c (l ++ rev es) -> map elem_type es = args -> Forall elem_ok es -> sound c o l outs (step op c).
Proof.
  intros Ht R Hpc Hh He Ho. destruct op; try discriminate Ht; cbn [vector_type] in Ht;
    match type of Ht with guard ?b _ = _ => destruct b eqn:Eb; [|discriminate]; cbn [guard] in Ht end;
    [..|injection Ht as <- <-|injection Ht as Ea]; rewrite ?andb_true_iff in Eb.
  all: try (injection Ht as <- <-; try (lazymatch type of Eb with _ /\ _ => destruct Eb as [Eb Ei] end); try apply fits_in_u in Eb;
    try (destruct es; [|discriminate]; cbn [rev] in Hh; rewrite app_nil_r in Hh);
    try (destruct (operand1 _ _ He Ho) as (e & -> & T1 & O1); cbn [rev app] in Hh);
    try (destruct (operand2 _ _ _ He Ho) as (e1 & e2 & -> & T1 & T2 & O1 & O2); cbn [rev app] in Hh);
    now eauto using push_sound, vec_load_typed, v128_store_typed, load_lane_typed, store_lane_typed, shuffle_typed, extract_typed, replace_typed).
  - apply negb_true_iff in Eb. now apply (vec_typed op c o l es).
  - apply fits_in_u in Eb. replace outs with (atomic_sig sub0).2 by now rewrite Ea. apply (atomic_typed sub0 m c o l es); auto. now rewrite He, Ea.
Qed.

Lemma instr_sound L op args outs c o l es :
  instr_type (_mod (_base c)) L op = Some (args, outs) -> ready (_base c) -> _pc c = CodeAt o ->
  holds c (l ++ rev es) -> map elem_type es = args -> Forall elem_ok es -> sound c o l outs (step op c).
Proof.
  intros Ht R Hpc Hh He Ho.
  destruct op; cbn [instr_type] in Ht; try discriminate Ht;
    try (now apply (vector_sound _ args outs c o l es));
    try match type of Ht with (if fits ?w ?v then _ else _) = _ =>
      destruct (fits w v) eqn:Ef; [apply fits_in_u in Ef|discriminate] end;
    try (destruct (numeric_type _) as [[a t]|] eqn:En; [|discriminate]; injection Ht as <- <-;
         now apply (numeric_sound _ a t c o l es));
    try (destruct (vec_lookup (m_globals (_mod (_base c))) index) as [g|] eqn:Eg; [|discriminate]);
    try (destruct (mutability _); [|discriminate]);
    injection Ht as <- <-;
    try (destruct es; [|discriminate]; cbn [rev] in Hh; rewrite app_nil_r in Hh);
    try (destruct (operand1 _ _ He Ho) as (e & -> & T1 & O1); cbn [rev app] in Hh);
    try (destruct (operand2 _ _ _ He Ho) as (e1 & e2 & -> & T1 & T2 & O1 & O2); cbn [rev app] in Hh);
    try (now apply inc_sound); try (now apply loop_sound);
    try (now apply push_sound); try (now apply push_inc_sound);
    eauto using load_sound, store_sound, memory_size_sound, memory_grow_sound, ref_is_null_sound,
      get_global_sound, set_global_sound.
Qed.

(** *** Locals, [drop] and [select] *)
Lemma vec_lookup_mid {A} (pre l post : list A) i a : vec_lookup l i = Some a ->
  vec_lookup ((pre ++ l) ++ post) (vec_size pre + i) = Some a.
Proof.
  rewrite !vec_lookup_Some. intros [H0 Hl]. unfold vec_size. split; [lia|].
  replace (Z.to_nat _) with (length pre + Z.to_nat i)%nat by lia.
  rewrite lookup_app_l by (apply lookup_lt_Some in Hl; rewrite length_app; lia).
  rewrite lookup_app_r by lia. now replace (_ - _)%nat with (Z.to_nat i) by lia.
Qed.
Lemma vec_update_mid {A} (pre l post : list A) i a : 0 <= i < vec_size l ->
  vec_update ((pre ++ l) ++ post) (vec_size pre + i) a = (pre ++ vec_update l i a) ++ post.
Proof.
  unfold vec_update, vec_size. intros Hi. destruct (Z.ltb_spec (Z.of_nat (length pre) + i) 0); [lia|].
  destruct (Z.ltb_spec i 0); [lia|]. replace (Z.to_nat _) with (length pre + Z.to_nat i)%nat by lia.
  rewrite insert_app_l by (rewrite length_app; lia). f_equal.
  rewrite insert_app_r_alt by lia. now replace (_ - _)%nat with (Z.to_nat i) by lia.
Qed.

(** The frame's slots are addressed without wrapping. *)
Lemma local_index (pre : list elem) (locs : list elem) i :
  vec_size pre + vec_size locs < 2 ^ 32 -> 0 <= i < vec_size locs ->
  wrap 32 (vec_size pre + i) = vec_size pre + i.
Proof. intros B Hi. apply wrap_small. unfold in_u, vec_size in *. lia. Qed.

Lemma get_operand_local c pre locs l i e : holds c ((pre ++ locs) ++ l) -> _last_op_index c = vec_size pre ->
  vec_size pre + vec_size locs < 2 ^ 32 -> vec_lookup locs i = Some e -> get_operand i c = Ok e c.
Proof.
  intros [Hw Hv] Hl B Hi. unfold get_operand, bind, gets. rewrite Hl, (local_index pre locs) by eauto using vec_lookup_lt.
  unfold on_os, zoom. rewrite (get_view (_os c) (vec_size pre + i) e Hw); [destruct c; reflexivity|].
  rewrite Hv. now apply vec_lookup_mid.
Qed.
Lemma set_operand_local c pre locs l i e : holds c ((pre ++ locs) ++ l) -> _last_op_index c = vec_size pre ->
  vec_size pre + vec_size locs < 2 ^ 32 -> 0 <= i < vec_size locs ->
  exists c', set_operand i e c = Ok tt c' /\ with_os c ((pre ++ vec_update locs i e) ++ l) c'.
Proof.
  intros [Hw Hv] Hl B Hi. unfold set_operand, bind, gets. rewrite Hl, (local_index pre locs) by auto.
  destruct (set_view (_os c) (vec_size pre + i) e Hw) as (s & E & W & V).
  { rewrite Hv. unfold vec_size in *. rewrite !length_app. lia. }
  exists (c <| _os := s |>). split; [now apply on_os_ok|]. split; [|now exists s].
  split; [exact W|]. cbn. rewrite V, Hv. now apply vec_update_mid.
Qed.

Section Slots.
Context (L : list Z) (pre : list elem) (Hsmall : vec_size pre + vec_size L < 2 ^ 32).

Lemma locs_small locs : map elem_type locs = L -> vec_size pre + vec_size locs < 2 ^ 32.
Proof. intros <-. revert Hsmall. unfold vec_size. now rewrite length_map. Qed.
Lemma local_typed locs i t : map elem_type locs = L -> Forall elem_ok locs -> vec_lookup L i = Some t ->
  exists e, vec_lookup locs i = Some e /\ elem_type e = t /\ elem_ok e.
Proof.
  intros <- F. rewrite vec_lookup_map. destruct (vec_lookup locs i) as [e|] eqn:E; [|discriminate].
  intros [= <-]. exists e. split; [reflexivity|]. split; [reflexivity|].
  apply vec_lookup_Some in E as [_ E]. exact (Forall_lookup_1 _ _ _ _ F E).
Qed.
Lemma update_typed locs i t e : map elem_type locs = L -> Forall elem_ok locs -> vec_lookup L i = Some t ->
  elem_type e = t -> elem_ok e ->
  map elem_type (vec_update locs i e) = L /\ Forall elem_ok (vec_update locs i e) /\ 0 <= i < vec_size locs.
Proof.
  intros <- F Hi <- Ho. rewrite map_vec_update, vec_update_same by exact Hi.
  split; [reflexivity|]. split; [now apply Forall_vec_update|].
  apply vec_lookup_lt in Hi. revert Hi. unfold vec_size. now rewrite length_map.
Qed.

Lemma frame_intro ts c locs ops : holds c ((pre ++ locs) ++ rev ops) ->
  map elem_type locs = L -> Forall elem_ok locs -> map elem_type ops = ts -> Forall elem_ok ops ->
  _last_op_index c = vec_size pre -> ready (_base c) -> frame L pre ts c.
Proof. intros. exists locs, ops. auto 10. Qed.

Lemma get_local_ok c o ts i t : frame L pre ts c -> _pc c = CodeAt o -> vec_lookup L i = Some t ->
  step_ok L pre (t :: ts) o c (exec_get_local i c).
Proof.
  intros (locs & ops & Hh & HL & FL & HT & FT & HI & R) Hpc Hi. unfold exec_get_local.
  destruct (local_typed locs i t HL FL Hi) as (e & He & Te & Oe).
  rewrite (bind_Ok _ _ _ _ _ (inc_pc_at c o 1 Hpc)). set (c1 := c <| _pc := _ |>).
  rewrite (bind_Ok _ _ _ _ _ (get_operand_local c1 pre locs (rev ops) i e Hh HI (locs_small locs HL) He)).
  destruct (push_holds c1 _ e Hh) as (c2 & -> & [Hh2 [s ->]]). rewrite <- app_assoc in Hh2. change (rev ops ++ [e]) with (rev (e :: ops)) in Hh2.
  split; [eapply frame_intro; eauto; cbn; congruence|].
  split; [reflexivity|]. now exists (_base c), s, (CodeAt (o + 1)).
Qed.

(** The common part of [local.set] and [local.tee]. *)
Lemma pop_set_local c o ts i t : frame L pre (t :: ts) c -> _pc c = CodeAt o -> vec_lookup L i = Some t ->
  exists locs ops e s, let c' := c <| _os := s |> <| _pc := CodeAt (o + 1) |> in
    (inc_pc 1 ;;; let* e := pop_operand in set_operand i e) c = Ok tt c' /\
    (inc_pc 1 ;;; let* e := pop_operand in set_operand i e ;;; push_operand e) c = push_operand e c' /\
    holds c' ((pre ++ locs) ++ rev ops) /\ map elem_type locs = L /\ Forall elem_ok locs /\
    map elem_type ops = ts /\ Forall elem_ok ops /\ elem_type e = t /\ elem_ok e /\
    _last_op_index c' = vec_size pre /\ ready (_base c').
Proof.
  intros (locs & ops & Hh & HL & FL & HT & FT & HI & R) Hpc Hi.
  destruct ops as [|e ops]; [discriminate|]. injection HT as Te HT. inversion_clear FT as [|? ? Oe FT'].
  set (c1 := c <| _pc := CodeAt (o + 1) |>).
  assert (Hh1 : holds c1 (((pre ++ locs) ++ rev ops) ++ [e])) by (rewrite <- app_assoc; exact Hh).
  destruct (pop_holds c1 _ e Hh1) as (c2 & E2 & [Hh2 [s2 ->]]). set (c2 := c1 <| _os := s2 |>) in *.
  destruct (update_typed locs i t e HL FL Hi Te Oe) as (HL' & FL' & Hb).
  destruct (set_operand_local c2 pre locs (rev ops) i e Hh2 HI (locs_small locs HL) Hb) as (c3 & E3 & [Hh3 [s ->]]).
  exists (vec_update locs i e), ops, e, s. cbv zeta.
  rewrite !(bind_Ok _ _ _ _ _ (inc_pc_at c o 1 Hpc)). fold c1.
  rewrite !(bind_Ok _ _ _ _ _ E2), E3, (bind_Ok _ _ _ _ _ E3). auto 20.
Qed.

Lemma set_local_ok c o ts i t : frame L pre (t :: ts) c -> _pc c = CodeAt o -> vec_lookup L i = Some t ->
  step_ok L pre ts o c (exec_set_local i c).
Proof.
  intros Hf Hpc Hi.
  destruct (pop_set_local c o ts i t Hf Hpc Hi) as (locs & ops & e & s & E & _ & Hh & HL & FL & HT & FT & _ & _ & HI & R).
  unfold exec_set_local. rewrite E. split; [eapply frame_intro; eauto|].
  split; [reflexivity|]. now exists (_base c), s, (CodeAt (o + 1)).
Qed.
Lemma tee_local_ok c o ts i t : frame L pre (t :: ts) c -> _pc c = CodeAt o -> vec_lookup L i = Some t ->
  step_ok L pre (t :: ts) o c (exec_tee_local i c).
Proof.
  intros Hf Hpc Hi.
  destruct (pop_set_local c o ts i t Hf Hpc Hi) as (locs & ops & e & s & _ & E & Hh & HL & FL & HT & FT & Te & Oe & HI & R).
  unfold exec_tee_local. rewrite E. set (c1 := c <| _os := s |> <| _pc := _ |>) in *.
  destruct (push_holds c1 _ e Hh) as (c2 & -> & [Hh2 [s2 ->]]). rewrite <- app_assoc in Hh2. change (rev ops ++ [e]) with (rev (e :: ops)) in Hh2.
  split; [eapply frame_intro; eauto; cbn; congruence|].
  split; [reflexivity|]. now exists (_base c), s2, (CodeAt (o + 1)).
Qed.

Lemma drop_ok c o ts t : frame L pre (t :: ts) c -> _pc c = CodeAt o -> step_ok L pre ts o c (step drop_ c).
Proof.
  intros (locs & ops & Hh & HL & FL & HT & FT & HI & R) Hpc. cbn [step].
  destruct ops as [|e ops]; [discriminate|]. injection HT as Te HT. inversion_clear FT as [|? ? Oe FT'].
  assert (Hh1 : holds c (((pre ++ locs) ++ rev ops) ++ [e])) by (rewrite <- app_assoc; exact Hh).
  destruct (pop_holds c _ e Hh1) as (c2 & E2 & [Hh2 [s2 ->]]). rewrite (bind_Ok _ _ _ _ _ E2).
  set (c2 := c <| _os := s2 |>) in *. rewrite (inc_pc_at c2 o 1 Hpc).
  split; [eapply frame_intro; eauto|]. split; [reflexivity|]. now exists (_base c), s2, (CodeAt (o + 1)).
Qed.

Lemma select_ok c o ts t : frame L pre (types.i32 :: t :: t :: ts) c -> _pc c = CodeAt o ->
  step_ok L pre (t :: ts) o c (exec_select c).
Proof.
  intros (locs & ops & Hh & HL & FL & HT & FT & HI & R) Hpc. unfold exec_select.
  destruct ops as [|e0 [|e2 [|e1 ops]]]; try discriminate. injection HT as T0 T2 T1 HT.
  do 3 match goal with F : Forall _ (_ :: _) |- _ => inversion_clear F end.
  destruct (i32_operand e0) as (v & -> & Hv); auto. cbn [rev] in Hh. set (l := (pre ++ locs) ++ rev ops) in *.
  assert (Hh1 : holds c (((l ++ [e1]) ++ [e2]) ++ [I32 v])) by (unfold l; rewrite <- !app_assoc in *; exact Hh).
  destruct (pop_holds c _ _ Hh1) as (c1 & E1 & [Hh2 [s1 ->]]). rewrite (bind_Ok _ _ _ _ _ E1).
  set (c1 := c <| _os := s1 |>) in *.
  destruct (pop_holds c1 _ _ Hh2) as (c2 & E2 & [Hh3 [s2 ->]]). rewrite (bind_Ok _ _ _ _ _ E2).
  set (c2 := c1 <| _os := s2 |>) in *. rewrite (bind_Ok (to_ui32 (I32 v)) _ c2 v c2 eq_refl).
  destruct (v =? 0).
  - rewrite bind_assoc, (bind_Ok _ _ _ _ _ (peek_top c2 l e1 Hh3)).
    destruct (poke_top c2 l e1 e2 Hh3) as (c3 & E3 & [Hh4 [s3 ->]]). rewrite (bind_Ok _ _ _ _ _ E3).
    set (c3 := c2 <| _os := s3 |>) in *. rewrite (inc_pc_at c3 o 1 Hpc).
    unfold l in Hh4. rewrite <- app_assoc in Hh4. change (rev ops ++ [e2]) with (rev (e2 :: ops)) in Hh4.
    split; [eapply frame_intro; eauto; cbn; congruence|].
    split; [reflexivity|]. now exists (_base c), s3, (CodeAt (o + 1)).
  - rewrite (bind_Ok (ret tt) _ c2 tt c2 eq_refl), (inc_pc_at c2 o 1 Hpc).
    unfold l in Hh3. rewrite <- app_assoc in Hh3. change (rev ops ++ [e1]) with (rev (e1 :: ops)) in Hh3.
    split; [eapply frame_intro; eauto; cbn; congruence|].
    split; [reflexivity|]. now exists (_base c), s2, (CodeAt (o + 1)).
Qed.

Lemma vector_type_single op args outs : vector_type op = Some (args, outs) -> (length outs <= 1)%nat.
Proof.
  destruct op; cbn [vector_type]; try discriminate; unfold guard;
    match goal with |- (if ?b then _ else _) = _ -> _ => destruct b; [|discriminate] end; try (intros [= <- <-]; cbn; lia).
  unfold atomic_sig. destruct (shape_of sub0); intros [= <- <-]; cbn; lia.
Qed.
Lemma instr_type_single m op args outs : instr_type m L op = Some (args, outs) -> (length outs <= 1)%nat.
Proof.
  destruct op; cbn [instr_type numeric_type option_map]; intros E; try discriminate E;
    try (exact (vector_type_single _ _ _ E));
    repeat match type of E with
    | (if ?b then _ else _) = _ => destruct b; try discriminate E
    | match ?x with _ => _ end = _ => destruct x; try discriminate E
    end; injection E as <- <-; cbn; lia.
Qed.

(** One instruction. *)
Lemma step_sound op ts ts' c o : frame L pre ts c -> _pc c = CodeAt o ->
  step_type (_mod (_base c)) L op ts = Some ts' -> step_ok L pre ts' o c (step op c).
Proof.
  intros Hf Hpc Ht. pose proof Hf as (locs & ops & Hh & HL & FL & HT & FT & HI & R).
  destruct (match op with drop_ | select_ | get_local_ _ | set_local_ _ | tee_local_ _ => true | _ => false end) eqn:Eop.
  - destruct op; try discriminate; cbn [step_type] in Ht; cbn [step].
    + destruct ts; [discriminate|]. injection Ht as ->. eapply drop_ok; eauto.
    + destruct ts as [|t0 [|t2 [|t1 ts]]]; try discriminate.
      destruct (Z.eqb_spec t0 types.i32) as [->|], (Z.eqb_spec t1 t2) as [->|]; try discriminate.
      injection Ht as <-. now apply select_ok.
    + destruct (vec_lookup L index) eqn:Ei; [|discriminate]. injection Ht as <-. now apply get_local_ok.
    + destruct (vec_lookup L index) eqn:Ei; [|discriminate]. apply strip_spec in Ht as ->.
      eapply set_local_ok; eauto.
    + destruct (vec_lookup L index) eqn:Ei; [|discriminate]. destruct (strip _ ts) eqn:Es; [|discriminate].
      injection Ht as <-. apply strip_spec in Es as ->. eapply tee_local_ok; eauto.
  - assert (Ht' : exists args outs rest, instr_type (_mod (_base c)) L op = Some (args, outs) /\
      strip args ts = Some rest /\ ts' = outs ++ rest /\ (length outs <= 1)%nat).
    { destruct op; try discriminate Eop; cbn [step_type] in Ht;
        match type of Ht with match ?x with _ => _ end = _ => destruct x as [[args outs]|] eqn:Ei; [|discriminate] end;
        (destruct (strip args ts) as [rest|] eqn:Er; [|discriminate]); injection Ht as <-;
        exists args, outs, rest; (split; [reflexivity|]); (split; [exact Er|]); (split; [reflexivity|]);
        exact (instr_type_single _ _ _ _ Ei). }
    destruct Ht' as (args & outs & rest & Ei & Er & -> & Hlen).
    apply strip_spec in Er as ->. apply map_app_split in HT as (es & ops' & -> & Te & To & Fe & Fo); [|exact FT].
    rewrite rev_app_distr, app_assoc in Hh. pose proof (instr_sound L op args outs c o _ es Ei R Hpc Hh Te Fe) as S.
    replace outs with (rev outs) by (destruct outs as [|? [|? ?]]; cbn in *; auto; lia).
    eapply sound_frame; eauto.
Qed.
End Slots.

End Frames.

(** ** Runs of straight-line code *)
Definition code_at (m : module) (o : Z) (code : list opcode) : Prop :=
  forall i op, code !! i = Some op -> vec_lookup (bytecode m) (o + Z.of_nat i) = Some op.

Lemma code_at_cons m o op code : code_at m o (op :: code) ->
  vec_lookup (bytecode m) o = Some op /\ code_at m (o + 1) code.
Proof.
  intros Hc. split; [specialize (Hc 0%nat op eq_refl); now rewrite Z.add_0_r in Hc|].
  intros i op' Hi. specialize (Hc (S i) op' Hi). now replace (o + 1 + Z.of_nat i) with (o + Z.of_nat (S i)) by lia.
Qed.

Section Blocks.
Context {SF : SoftFloat} {HF : HostFloat} {H : Type}.
Implicit Types c : ctx H.

Lemma kept_trans c1 c2 c3 : kept c1 c2 -> kept c2 c3 -> kept c1 c3.
Proof.
  intros (b1 & s1 & p1 & -> & M1) (b2 & s2 & p2 & -> & M2). exists b2, s2, p2. split; [reflexivity|]. cbn in M2. congruence.
Qed.
Lemma kept_mod c c' : kept c c' -> _mod (_base c') = _mod (_base c).
Proof. intros (b & s & p & -> & E). exact E. Qed.

(** One turn of the dispatch loop at a typed instruction. *)
Lemma run_step op o c n : _pc c = CodeAt o -> vec_lookup (bytecode (_mod (_base c))) o = Some op -> op <> exit_ ->
  run (S n) c = (step op ;;; run n) c.
Proof.
  intros Hpc Hop Hne. cbn [run]. unfold fetch, the_module, bind at 1 2 3, gets. rewrite Hpc, (vec_index_Ok _ _ _ _ Hop).
  destruct op; reflexivity || congruence.
Qed.

(** Type soundness of straight-line code: at code that [block_type] accepts
    (constants, locals, globals, numeric, conversion, reference and memory
    instructions), in a frame whose locals and operands have the declared types,
    the dispatch loop executes the whole block and reaches the next instruction
    with operands of the computed types, the same locals' types, callers' part of
    the stack, call stack and handlers, or it stops with a trap.  It never leaves
    defined behaviour: no operand of the wrong type is read, no stack slot
    outside of the frame or byte outside of the reservation is touched. *)
Theorem straight_line_sound L pre code ts ts' o n c :
  vec_size pre + vec_size L < 2 ^ 32 -> frame L pre ts c -> _pc c = CodeAt o ->
  code_at (_mod (_base c)) o code -> block_type (_mod (_base c)) L code ts = Some ts' ->
  (exists c', run (length code + n) c = run n c' /\ frame L pre ts' c' /\
     _pc c' = CodeAt (o + Z.of_nat (length code)) /\ kept c c') \/
  (exists e c', run (length code + n) c = Throw e c' /\ is_trap e).
Proof.
  intros Hs. revert ts o c. induction code as [|op code IH]; intros ts o c Hf Hpc Hc Ht.
  - injection Ht as <-. left. exists c. cbn [length Nat.add]. rewrite Z.add_0_r.
    split; [reflexivity|]. split; [exact Hf|]. split; [exact Hpc|].
    exists (_base c), (_os c), (_pc c). now destruct c.
  - cbn [block_type] in Ht. destruct (step_type _ L op ts) as [ts1|] eqn:E1; [|discriminate].
    apply code_at_cons in Hc as [Hop Hc]. pose proof (step_sound L pre Hs op ts ts1 c o Hf Hpc E1) as S1.
    assert (Hne : op <> exit_) by (intros ->; discriminate E1).
    cbn [length Nat.add]. rewrite (run_step op o c _ Hpc Hop Hne). unfold bind, step_ok in *.
    destruct (step op c) as [[] c1|e c1|]; [|right; eauto|contradiction].
    destruct S1 as (Hf1 & Hpc1 & K1). rewrite <- (kept_mod _ _ K1) in Hc, Ht.
    destruct (IH ts1 (o + 1) c1 Hf1 Hpc1 Hc Ht) as [(c2 & -> & Hf2 & Hpc2 & K2)|]; [left|right; assumption].
    exists c2. split; [reflexivity|]. split; [exact Hf2|].
    split; [rewrite Hpc2; f_equal; lia|now apply (kept_trans _ c1)].
Qed.
End Blocks.

(** The function of the demo that grows memory and stores into it. *)
Lemma bytes_ok_map (m : bytes) : map_Forall (fun _ v => in_u 8 v) m -> forall k, in_u 8 (mem_get m k).
Proof.
  intros Hm k. unfold mem_get. destruct (m !! k) eqn:E; cbn; [exact (Hm k z E)|]. unfold in_u. lia.
Qed.

Lemma in_mem_ready : ready (_base in_mem).
Proof.
  split; [|vm_compute; intuition congruence..].
  split; [| | | | |prot_concrete|]; try (vm_compute; intuition congruence).
  apply bytes_ok_map. refine (bool_decide_unpack _ _). vm_compute. exact I.
Qed.
Lemma in_mem_frame : frame [types.i32] [] [] in_mem.
Proof.
  exists [I32 70000], []. split; [split; [vm_compute; split; lia|reflexivity]|].
  repeat (split; [reflexivity || (repeat constructor; cbn; unfold in_u; lia)|]). apply in_mem_ready.
Qed.

Lemma straight_line_sound_witness :
  exists c', run 10 in_mem = run 0 c' /\ frame [types.i32] [] [types.i32] c' /\ _pc c' = CodeAt 22 /\ kept in_mem c'.
Proof.
  destruct (@straight_line_sound demo_sf demo_hf unit [types.i32] [] (take 10 mem_code) [] [types.i32] 12 0 in_mem)
    as [Hok|(e & c' & Hr & Ht)]; [vm_compute; reflexivity|apply in_mem_frame|reflexivity| |vm_compute; reflexivity|exact Hok|].
  - intros i op Hi. do 10 (destruct i as [|i]; [vm_compute in Hi; simplify_eq; vm_compute; reflexivity|]).
    vm_compute in Hi. destruct i; discriminate.
  - assert (E : match run (length (take 10 mem_code) + 0) in_mem with
                | Throw e _ => bool_decide (exn_class e = timeout_exception) | _ => true end = true)
      by (vm_compute; reflexivity).
    rewrite Hr in E. apply bool_decide_eq_true in E. destruct Ht as [Ht|Ht]; rewrite E in Ht; discriminate Ht.
Defined.
