(* ===== verification/Control.v ===== *)
(** * Branches, calls and returns

    The stack discipline of control flow: what a branch keeps and drops, what a
    call sets up and the matching return undoes, what a tail call reuses. *)
From Stdlib Require Import ZArith Lia Bool String.
From stdpp Require Import base list numbers decidable option gmap.
From S2P Require Import Prelude Types Stack Memory Numeric Softfloat InitExpr Context Operands Interp Demo.
Import Opcode.

Section Jump.
Context {SF : SoftFloat} {HF : HostFloat} {H : Type}.
Implicit Types c : ctx H.

Lemma set_relative_pc_at c off fb : vec_lookup (m_code (_mod (_base c))) 0 = Some fb ->
  set_relative_pc off c = Ok tt (c <| _pc := CodeAt (fb_code fb + off) |>).
Proof.
  intros Hf. unfold set_relative_pc, the_module, bind, gets. now rewrite (vec_index_Ok _ _ _ _ Hf).
Qed.

(** The operand of a branch: result count in the top byte, depth below. *)
Definition pop_info (res depth : Z) : Z := Z.lor depth (Z.shiftl res 24).
Lemma pop_info_depth r d : in_u 24 d -> 0 <= r -> Z.land (pop_info r d) 0x00FFFFFF = d.
Proof.
  intros Hd Hr. unfold pop_info. rewrite lor_add by (auto; lia). change 0x00FFFFFF with (2 ^ 24 - 1).
  rewrite land_ones_mod by lia. rewrite Z_mod_plus_full. now apply Z.mod_small.
Qed.
Lemma pop_info_count r d : in_u 24 d -> 0 <= r -> Z.shiftr (pop_info r d) 24 = r.
Proof.
  intros Hd Hr. unfold pop_info. rewrite lor_add, Z.shiftr_div_pow2, Z.div_add by (auto; lia).
  unfold in_u in Hd. rewrite Z.div_small; lia.
Qed.

(** What [jump] does to a stack [l ++ mid ++ res] whose last operands it carries. *)
Lemma jump_holds c l mid res off fb :
  holds c (l ++ mid ++ res) -> vec_lookup (m_code (_mod (_base c))) 0 = Some fb ->
  vec_size (mid ++ res) < 2 ^ 24 -> vec_size l + vec_size (mid ++ res) < 2 ^ 32 ->
  exists s, let c' := c <| _pc := CodeAt (fb_code fb + off) |> <| _os := s |> in
    jump (pop_info (vec_size res) (vec_size (mid ++ res))) off c = Ok tt c' /\ holds c' (l ++ res).
Proof.
  intros Hh Hf Hd Hs. unfold jump. rewrite (bind_Ok _ _ _ _ _ (set_relative_pc_at c off fb Hf)).
  set (c1 := c <| _pc := _ |>). assert (Hh1 : holds c1 (l ++ mid ++ res)) by exact Hh.
  assert (Hu : in_u 24 (vec_size (mid ++ res))) by (unfold in_u, vec_size in *; lia).
  rewrite (pop_info_depth _ _ Hu), (pop_info_count _ _ Hu) by (unfold vec_size; lia).
  assert (Hsz : vec_size (mid ++ res) = vec_size mid + vec_size res) by (unfold vec_size; rewrite length_app; lia).
  assert (Hl : vec_size (l ++ mid) = vec_size l + vec_size mid) by (unfold vec_size; rewrite length_app; lia).
  assert (Hlt : vec_size l < 2 ^ 32) by (unfold vec_size in *; lia).
  destruct (Z.eqb_spec (vec_size res) 1) as [E1|E1].
  { destruct res as [|e [|? ?]]; try discriminate; [|unfold vec_size in E1; cbn in E1; lia].
    rewrite app_assoc in Hh1. destruct (pop_holds c1 _ e Hh1) as (c2 & E2 & [Hh2 [s2 ->]]).
    rewrite (bind_Ok _ _ _ _ _ E2). set (c2 := c1 <| _os := s2 |>) in *.
    rewrite (bind_Ok _ _ _ _ _ (size_holds c2 _ Hh2)).
    destruct (eat_holds c2 l mid (vec_size (l ++ mid) - (vec_size (mid ++ [e]) - 1))) as (c3 & E3 & [Hh3 [s3 ->]]); [exact Hh2|lia|lia|].
    rewrite (bind_Ok _ _ _ _ _ E3). set (c3 := c2 <| _os := s3 |>) in *.
    destruct (push_holds c3 l e Hh3) as (c4 & -> & [Hh4 [s4 ->]]). exists s4. split; [reflexivity|exact Hh4]. }
  destruct (Z.ltb_spec 1 (vec_size res)) as [E2|E2].
  { unfold vec_size at 1. rewrite Nat2Z.id. rewrite app_assoc in Hh1.
    destruct (pop_n_holds c1 _ res [] Hh1) as (c2 & E3 & [Hh2 [s2 ->]]). rewrite app_nil_r in E3.
    rewrite (bind_Ok _ _ _ _ _ E3). set (c2 := c1 <| _os := s2 |>) in *.
    rewrite (bind_Ok _ _ _ _ _ (size_holds c2 _ Hh2)).
    destruct (eat_holds c2 l mid (vec_size (l ++ mid) - (vec_size (mid ++ res) - vec_size res))) as (c3 & E4 & [Hh3 [s3 ->]]); [exact Hh2|lia|lia|].
    rewrite (bind_Ok _ _ _ _ _ E4). set (c3 := c2 <| _os := s3 |>) in *.
    destruct (push_all_holds c3 l res Hh3) as (c4 & -> & [Hh4 [s4 ->]]). exists s4. split; [reflexivity|exact Hh4]. }
  destruct res as [|? res]; [|unfold vec_size in *; cbn in *; lia]. rewrite app_nil_r in *.
  rewrite (bind_Ok _ _ _ _ _ (size_holds c1 _ Hh1)).
  destruct (eat_holds c1 l mid (vec_size (l ++ mid) - vec_size mid)) as (c3 & -> & [Hh3 [s3 ->]]); [exact Hh1|lia|lia|].
  exists s3. rewrite app_nil_r. split; [reflexivity|exact Hh3].
Qed.

(** C28. A branch drops exactly the operands between the target's stack height and
    the branch's results: from a stack [l ++ mid ++ res] a [br] that carries
    [res] reaches the target with [l ++ res], for any number of results, and
    changes nothing else of the context. *)
Theorem branch_discipline c l mid res off fb :
  holds c (l ++ mid ++ res) -> vec_lookup (m_code (_mod (_base c))) 0 = Some fb ->
  vec_size (mid ++ res) < 2 ^ 24 -> vec_size l + vec_size (mid ++ res) < 2 ^ 32 ->
  exists s, let c' := c <| _pc := CodeAt (fb_code fb + off) |> <| _os := s |> in
    step (br_ (pop_info (vec_size res) (vec_size (mid ++ res))) off) c = Ok tt c' /\ holds c' (l ++ res).
Proof. exact (jump_holds c l mid res off fb). Qed.

End Jump.

(** [in_mem] with three more operands. *)
Definition deep_ctx : ctx unit := Eval vm_compute in end_state (push_all [I32 1; I32 2; I32 3] in_mem) in_mem.

Lemma branch_discipline_witness :
  exists s, let c' := deep_ctx <| _pc := CodeAt 5 |> <| _os := s |> in
    step (br_ (pop_info 2 3) 5) deep_ctx = Ok tt c' /\ holds c' [I32 70000; I32 2; I32 3].
Proof.
  refine (@branch_discipline demo_sf demo_hf unit deep_ctx [I32 70000] [I32 1] [I32 2; I32 3] 5 (demo_body 0) _ _ _ _).
  - split; [vm_compute; split; lia|reflexivity].
  - vm_compute. reflexivity.
  - vm_compute. reflexivity.
  - vm_compute. reflexivity.
Defined.

(** ** Calls and returns *)
Section Calls.
Context {SF : SoftFloat} {HF : HostFloat} {H : Type}.
Implicit Types c : ctx H.

(** A function defined by the module, with its type, body and frame size. *)
Record local_fn (m : module) (index : Z) (ft : func_type) (fb : function_body) : Prop := {
  lf_local : get_imported_functions_size m <= index;
  lf_type : exists t, vec_lookup (m_functions m) (index - get_imported_functions_size m) = Some t /\
                      vec_lookup (m_types m) t = Some ft;
  lf_body : vec_lookup (m_code m) (index - get_imported_functions_size m) = Some fb }.
Definition frame_size (m : module) (fb : function_body) : Z :=
  if m_stack_limit_is_bytes m then fb_stack_size fb else 1.

Lemma local_fn_type {S} m index ft fb (s : S) : local_fn m index ft fb -> get_function_type m index s = Ok ft s.
Proof.
  intros [Hl (t & Ht & Hft) _]. unfold get_function_type. destruct (Z.ltb_spec index (get_imported_functions_size m)); [lia|].
  pose proof (vec_lookup_lt _ _ _ Ht). destruct (Z.ltb_spec (index - get_imported_functions_size m) (vec_size (m_functions m))); [|lia].
  cbn [psizam_assert]. unfold bind, ret. rewrite (vec_index_Ok _ _ _ _ Ht). unfold vec_at. now rewrite Hft.
Qed.
Lemma local_fn_stack {S} m index ft fb (s : S) : local_fn m index ft fb ->
  get_function_stack_size m index s = Ok (frame_size m fb) s.
Proof.
  intros [Hl _ Hb]. unfold get_function_stack_size, frame_size. destruct (m_stack_limit_is_bytes m); [|reflexivity].
  cbn [negb]. destruct (Z.ltb_spec index (get_imported_functions_size m)); [lia|]. unfold vec_at. now rewrite Hb.
Qed.
Lemma local_fn_pc {S} m index ft fb (s : S) : local_fn m index ft fb ->
  get_function_pc m index s = Ok (CodeAt (fb_code fb)) s.
Proof.
  intros [Hl _ Hb]. unfold get_function_pc. destruct (Z.leb_spec (get_imported_functions_size m) index); [|lia].
  cbn [psizam_assert]. unfold bind, ret, vec_at. now rewrite Hb.
Qed.

(** The zero value of a type, and the declared locals of a body. *)
Definition zero_of (t : Z) : option elem :=
  if t =? types.i32 then Some (I32 0)
  else if t =? types.i64 then Some (I64 0)
  else if t =? types.f32 then Some (F32 0)
  else if t =? types.f64 then Some (F64 0)
  else if t =? types.v128 then Some (V128 0)
  else if (t =? types.funcref) || (t =? types.externref) || (t =? types.exnref) then Some (I32 UINT32_MAX)
  else None.
Fixpoint zero_locals (l : list local_entry) : option (list elem) :=
  match l with
  | [] => Some []
  | le :: l' =>
      match zero_of (le_type le), zero_locals l' with
      | Some e, Some es => Some (repeat e (Z.to_nat (le_count le)) ++ es)
      | _, _ => None
      end
  end.

Lemma zero_local_ok t e c : zero_of t = Some e -> zero_local t c = Ok e c.
Proof.
  unfold zero_of, zero_local. repeat (match goal with |- context [if ?b then _ else _] => destruct b end;
    [intros [= <-]; reflexivity|]). discriminate.
Qed.
Lemma push_locals_holds n t e c l : zero_of t = Some e -> holds c l ->
  exists c', push_locals n t c = Ok tt c' /\ with_os c (l ++ repeat e n) c'.
Proof.
  intros Ht. revert c l. induction n as [|n IH]; intros c l Hh; cbn [push_locals repeat].
  - exists c. rewrite app_nil_r. auto using with_os_refl.
  - rewrite bind_assoc, (bind_Ok _ _ _ _ _ (zero_local_ok t e c Ht)).
    destruct (push_holds c l e Hh) as (c1 & E1 & W1). rewrite (bind_Ok _ _ _ _ _ E1).
    destruct (IH c1 (l ++ [e])) as (c2 & E2 & W2); [apply W1|]. rewrite <- app_assoc in W2.
    exists c2. split; [exact E2|]. eapply with_os_trans; eauto.
Qed.
Lemma setup_locals_holds le es c l : zero_locals le = Some es -> holds c l ->
  exists c', setup_locals_loop le c = Ok tt c' /\ with_os c (l ++ es) c'.
Proof.
  revert es c l. induction le as [|x le IH]; intros es c l; cbn [zero_locals setup_locals_loop].
  - intros [= <-] Hh. exists c. rewrite app_nil_r. auto using with_os_refl.
  - destruct (zero_of (le_type x)) as [e|] eqn:Ez; [|discriminate].
    destruct (zero_locals le) as [es'|]; [|discriminate]. intros [= <-] Hh.
    destruct (push_locals_holds (Z.to_nat (le_count x)) _ _ c l Ez Hh) as (c1 & E1 & W1). rewrite (bind_Ok _ _ _ _ _ E1).
    destruct (IH es' c1 _ eq_refl (proj1 W1)) as (c2 & E2 & W2). rewrite <- app_assoc in W2.
    exists c2. split; [exact E2|]. eapply with_os_trans; eauto.
Qed.

(** The call stack as a list, innermost frame last. *)
Definition frames c (fs : list activation_frame) : Prop := stack_wf (_as c) /\ view (_as c) = fs.

Lemma push_frame_view c fs f : frames c fs ->
  exists s, push_frame f c = Ok tt (c <| _as := s |>) /\ stack_wf s /\ view s = fs ++ [f].
Proof.
  intros [Hw <-]. destruct (push_view frame_default f (_as c) Hw) as (s & E & W & V).
  exists s. unfold push_frame, on_as, zoom. now rewrite E.
Qed.
Lemma pop_call_view c fs f : frames c (fs ++ [f]) ->
  exists s, pop_call c = Ok f (c <| _as := s |>) /\ stack_wf s /\ view s = fs.
Proof.
  intros [Hw Hv]. destruct (pop_view (_as c) fs f Hw Hv) as (s & E & W & V).
  exists s. unfold pop_call, on_as, zoom. now rewrite E.
Qed.

(** The frame [push_call] makes; [r] is the address to return to. *)
Lemma push_call_enters x r c l args index ft fb fs :
  local_fn (_mod (_base c)) index ft fb ->
  match x with true => r = CodeHalt | false => exists o, _pc c = CodeAt o /\ r = CodeAt (o + 1) end ->
  holds c (l ++ args) -> vec_size args = vec_size (param_types ft) -> vec_size l < 2 ^ 32 ->
  frames c fs -> frame_size (_mod (_base c)) fb <= _remaining_call_depth c ->
  exists a, push_call x index c = Ok tt (c <| _as := a |> <| _last_op_index := vec_size l |>
      <| _remaining_call_depth := _remaining_call_depth c - frame_size (_mod (_base c)) fb |>) /\
    stack_wf a /\ view a = fs ++ [{| af_pc := r; af_last_op_index := _last_op_index c;
                       af_frame_size := frame_size (_mod (_base c)) fb |}].
Proof.
  intros Hf Hr Hh Ha Hl Hfs Hrem. unfold push_call, the_module, bind at 1 2 3, gets.
  replace ((if x then ret CodeHalt else match _pc c with CodeAt o => ret (CodeAt (o + 1)) | _ => undefined end) c)
    with (Ok (A:=code_ptr) r c) by (destruct x; [now subst|destruct Hr as (o & -> & ->); reflexivity]).
  rewrite (bind_Ok _ _ _ _ _ (local_fn_stack _ _ _ _ c Hf)). unfold bind at 1.
  destruct (Z.leb_spec (frame_size (_mod (_base c)) fb) (_remaining_call_depth c)); [|lia].
  cbn [psizam_assert]. unfold ret at 1, modify at 1, bind at 1 2 3.
  set (c1 := c <| _remaining_call_depth := _ |>).
  destruct (push_frame_view c1 fs {| af_pc := r; af_last_op_index := _last_op_index c;
                     af_frame_size := frame_size (_mod (_base c)) fb |} Hfs) as (a & Ea & Wa & Va).
  exists a. change (_last_op_index c1) with (_last_op_index c). rewrite (bind_Ok _ _ _ _ _ Ea). set (c2 := c1 <| _as := a |>).
  assert (Hh2 : holds c2 (l ++ args)) by exact Hh.
  rewrite (bind_Ok _ _ _ _ _ (size_holds c2 _ Hh2)), (bind_Ok _ _ _ _ _ (local_fn_type _ _ _ _ c2 Hf)).
  unfold modify. split; [|auto]. f_equal.
  replace (wrap 32 _) with (vec_size l); [reflexivity|]. rewrite <- Ha. unfold vec_size in *. rewrite length_app.
  symmetry. rewrite wrap_small; unfold in_u; lia.
Qed.
(** And the trap when the budget does not cover it. *)
Lemma push_call_overflow x c index ft fb :
  local_fn (_mod (_base c)) index ft fb -> x = true \/ (exists o, _pc c = CodeAt o) ->
  _remaining_call_depth c < frame_size (_mod (_base c)) fb ->
  push_call x index c = Throw (Exn wasm_interpreter_exception "stack overflow") c.
Proof.
  intros Hf Hr Hrem. unfold push_call, the_module, bind at 1 2 3, gets.
  assert (E : exists r, (if x then ret CodeHalt else match _pc c with CodeAt o => ret (CodeAt (o + 1)) | _ => undefined end) c
    = Ok r c) by (destruct Hr as [->|[o ->]]; [|destruct x]; eexists; reflexivity).
  destruct E as [r ->]. rewrite (bind_Ok _ _ _ _ _ (local_fn_stack _ _ _ _ c Hf)). unfold bind at 1.
  destruct (Z.leb_spec (frame_size (_mod (_base c)) fb) (_remaining_call_depth c)); [lia|]. reflexivity.
Qed.

(** The declared locals of the callee. *)
Lemma setup_locals_enters c index ft fb zs l : local_fn (_mod (_base c)) index ft fb ->
  zero_locals (fb_locals fb) = Some zs -> holds c l ->
  exists c', setup_locals index c = Ok tt c' /\ with_os c (l ++ zs) c'.
Proof.
  intros Hf Hz Hh. unfold setup_locals, the_module. unfold bind at 1, gets.
  rewrite (bind_Ok _ _ _ _ _ (vec_index_Ok _ _ _ c (lf_body _ _ _ _ Hf))). now apply setup_locals_holds.
Qed.

(** What entering a local function establishes. *)
Lemma call_local_enters c o l args index ft fb zs fs :
  local_fn (_mod (_base c)) index ft fb -> zero_locals (fb_locals fb) = Some zs ->
  _pc c = CodeAt o -> holds c (l ++ args) -> vec_size args = vec_size (param_types ft) -> vec_size l < 2 ^ 32 ->
  frames c fs -> frame_size (_mod (_base c)) fb <= _remaining_call_depth c ->
  exists s a, call_local index c = Ok tt (c <| _pc := CodeAt (fb_code fb) |> <| _os := s |> <| _as := a |>
      <| _last_op_index := vec_size l |>
      <| _remaining_call_depth := _remaining_call_depth c - frame_size (_mod (_base c)) fb |>) /\
    stack_wf s /\ view s = l ++ args ++ zs /\ stack_wf a /\
    view a = fs ++ [{| af_pc := CodeAt (o + 1); af_last_op_index := _last_op_index c;
                       af_frame_size := frame_size (_mod (_base c)) fb |}].
Proof.
  intros Hf Hz Hpc Hh Ha Hl Hfs Hrem. unfold call_local.
  destruct (push_call_enters false (CodeAt (o + 1)) c l args index ft fb fs) as (a & E1 & Wa & Va); eauto.
  rewrite (bind_Ok _ _ _ _ _ E1). set (c1 := c <| _as := a |> <| _last_op_index := _ |> <| _remaining_call_depth := _ |>).
  assert (Hh1 : holds c1 (l ++ args)) by exact Hh.
  destruct (setup_locals_enters c1 index ft fb zs _ Hf Hz Hh1) as (c2 & E2 & [Hh2 [s ->]]). rewrite (bind_Ok _ _ _ _ _ E2).
  unfold the_module, bind at 1, gets.
  set (c2 := c1 <| _os := s |>) in *. change (_mod (_base c2)) with (_mod (_base c)).
  rewrite (bind_Ok _ _ _ _ _ (local_fn_pc _ _ _ _ c2 Hf)).
  exists s, a. split; [reflexivity|]. destruct Hh2 as [W V]. rewrite <- app_assoc in V. auto.
Qed.

(** What a return of [res] from a frame holding [slots] does. *)
Lemma return_leaves c l slots res fs af :
  holds c (l ++ slots ++ res) -> frames c (fs ++ [af]) -> vec_size (l ++ slots ++ res) < 2 ^ 32 -> vec_size res < 2 ^ 16 ->
  exists s a, step (return_ (vec_size slots) (vec_size res) 0) c =
      Ok tt (c <| _pc := af_pc af |> <| _os := s |> <| _as := a |> <| _last_op_index := af_last_op_index af |>
               <| _remaining_call_depth := wrap 32 (_remaining_call_depth c + af_frame_size af) |>) /\
    stack_wf s /\ view s = l ++ res /\ stack_wf a /\ view a = fs.
Proof.
  intros Hh Hfs Hsz Hr. cbn [step]. rewrite wrap_small by (unfold in_u, vec_size in *; lia). unfold apply_pop_call.
  destruct (pop_call_view c fs af Hfs) as (a & Ea & Wa & Va). rewrite (bind_Ok _ _ _ _ _ Ea).
  unfold modify at 1, bind at 1. set (c1 := (c <| _as := a |>) <| _pc := _ |> <| _last_op_index := _ |>).
  assert (Hh1 : holds c1 (l ++ slots ++ res)) by exact Hh. rewrite (bind_Ok _ _ _ _ _ (size_holds c1 _ Hh1)).
  assert (Hl : vec_size (l ++ slots ++ res) = vec_size l + vec_size slots + vec_size res).
  { unfold vec_size. rewrite !length_app. lia. }
  assert (Hlt : vec_size l < 2 ^ 32) by (unfold vec_size in *; lia).
  assert (E : exists s, (if vec_size res =? 1 then compact_operand (vec_size (l ++ slots ++ res) - vec_size slots - 1)
     else if 1 <? vec_size res then compact_operand_n (vec_size (l ++ slots ++ res) - vec_size slots - vec_size res) (vec_size res)
     else eat_operands (vec_size (l ++ slots ++ res) - vec_size slots)) c1 = Ok tt (c1 <| _os := s |>) /\
     stack_wf s /\ view s = l ++ res).
  { destruct (Z.eqb_spec (vec_size res) 1) as [E1|E1]; [|destruct (Z.ltb_spec 1 (vec_size res)) as [E2|E2]].
    - destruct res as [|e [|? ?]]; try discriminate; [|unfold vec_size in E1; cbn in E1; lia].
      destruct (compact_holds c1 l slots e (vec_size (l ++ slots ++ [e]) - vec_size slots - 1) Hh1)
        as (c2 & E & [[W V] [s ->]]); [lia|lia|]. eauto.
    - destruct (compact_n_holds c1 l slots res (vec_size (l ++ slots ++ res) - vec_size slots - vec_size res) (vec_size res) Hh1)
        as (c2 & E & [[W V] [s ->]]); [lia|lia|lia|]. eauto.
    - destruct res as [|? ?]; [|unfold vec_size in *; cbn in *; lia]. rewrite ?app_nil_r in *.
      destruct (eat_holds c1 l slots (vec_size (l ++ slots) - vec_size slots)) as (c2 & E & [[W V] [s ->]]);
        [exact Hh1|unfold vec_size in *; cbn in *; lia|lia|]. eauto. }
  destruct E as (s & E & W & V). rewrite (bind_Ok _ _ _ _ _ E). unfold modify.
  exists s, a. split; [reflexivity|auto].
Qed.

(** The gas of a function's prologue fits the remaining budget. *)
Definition prologue_cost (fb : function_body) : Z := fb_wasm_body_bytes fb + fb_prologue_gas_extra fb.
Definition gas_fits (b : base H) (cost : Z) : Prop :=
  0 <= cost /\ 0 <= consumed (_gas b) /\ consumed (_gas b) + cost < deadline (_gas b) <= UINT64_MAX.
Definition charged (b : base H) (cost : Z) : base H :=
  b <| _gas := (_gas b) <| consumed := consumed (_gas b) + cost |> |>.

Lemma gas_charge_fits b cost : gas_fits b cost -> gas_charge cost b = Ok tt (charged b cost).
Proof.
  intros (H0 & H1 & H2). unfold gas_charge, bind, modify, get. unfold UINT64_MAX in *.
  rewrite (wrap_small 64 cost) by (unfold in_u; lia).
  rewrite (wrap_small 64 (_ + cost)) by (unfold in_u; lia). cbn -[Z.leb].
  destruct (Z.leb_spec (deadline (_gas b)) (consumed (_gas b) + cost)); [lia|reflexivity].
Qed.
Lemma charge_prologue_fits c index ft fb :
  local_fn (_mod (_base c)) index ft fb -> gas_fits (_base c) (prologue_cost fb) ->
  charge_prologue index c = Ok tt (c <| _base := charged (_base c) (prologue_cost fb) |>).
Proof.
  intros Hf Hg. unfold charge_prologue, the_module, bind at 1, gets.
  destruct (Z.leb_spec (get_imported_functions_size (_mod (_base c))) index); [|destruct Hf; lia].
  rewrite (bind_Ok _ _ _ _ _ (vec_index_Ok _ _ _ c (lf_body _ _ _ _ Hf))).
  now apply on_base_ok, gas_charge_fits.
Qed.

(** C12. Calls nest: a [call] of a local function with arguments on the stack
    enters it with the arguments as its first locals, its declared locals zeroed
    after them and its gas charged; and whatever the callee then does, when it
    returns from its own frame with the call stack as it found it, the caller
    continues after the call with the results in place of the arguments, its own
    locals base, call stack and call-depth budget exactly as before. *)
Theorem call_return_discipline c o l args index ft fb zs fs :
  local_fn (_mod (_base c)) index ft fb -> zero_locals (fb_locals fb) = Some zs ->
  _pc c = CodeAt o -> holds c (l ++ args) -> vec_size args = vec_size (param_types ft) -> vec_size l < 2 ^ 32 ->
  frames c fs -> 0 <= frame_size (_mod (_base c)) fb <= _remaining_call_depth c -> _remaining_call_depth c < 2 ^ 32 ->
  gas_fits (_base c) (prologue_cost fb) ->
  exists c1, step (call_ index) c = Ok tt c1 /\
    _pc c1 = CodeAt (fb_code fb) /\ holds c1 (l ++ args ++ zs) /\ _last_op_index c1 = vec_size l /\
    _base c1 = charged (_base c) (prologue_cost fb) /\
    forall c2 slots res,
      _as c2 = _as c1 -> _remaining_call_depth c2 = _remaining_call_depth c1 ->
      holds c2 (l ++ slots ++ res) -> vec_size (l ++ slots ++ res) < 2 ^ 32 -> vec_size res < 2 ^ 16 ->
      exists c3, step (return_ (vec_size slots) (vec_size res) 0) c2 = Ok tt c3 /\
        _pc c3 = CodeAt (o + 1) /\ holds c3 (l ++ res) /\ _last_op_index c3 = _last_op_index c /\
        frames c3 fs /\ _remaining_call_depth c3 = _remaining_call_depth c /\ _base c3 = _base c2.
Proof.
  intros Hf Hz Hpc Hh Ha Hl Hfs Hrem Hrem' Hg. cbn [step]. unfold call.
  rewrite (bind_Ok _ _ _ _ _ (charge_prologue_fits c index ft fb Hf Hg)). set (c0 := c <| _base := _ |>).
  unfold the_module, bind at 1, gets. change (_mod (_base c0)) with (_mod (_base c)).
  destruct (Z.ltb_spec index (get_imported_functions_size (_mod (_base c)))); [destruct Hf; lia|].
  destruct (call_local_enters c0 o l args index ft fb zs fs) as (s & a & -> & Ws & Vs & Wa & Va); auto; [apply Hrem|].
  eexists. split; [reflexivity|]. cbn. split; [reflexivity|]. split; [split; assumption|].
  split; [reflexivity|]. split; [reflexivity|].
  intros c2 slots res Eas Erem Hh2 Hs2 Hr2. rewrite <- Eas in Wa, Va.
  destruct (return_leaves c2 l slots res fs _ Hh2 (conj Wa Va) Hs2 Hr2) as (s3 & a3 & E3 & W3 & V3 & Wa3 & Va3).
  eexists. split; [exact E3|]. cbn. split; [reflexivity|]. split; [split; assumption|].
  split; [reflexivity|]. split; [split; assumption|]. split; [|reflexivity].
  rewrite Erem. rewrite wrap_small by (unfold in_u; lia). lia.
Qed.

End Calls.

(** The factorial called from [mem], at the instruction after its prologue. *)
Lemma call_return_discipline_witness :
  exists c1, step (call_ 0) in_mem = Ok tt c1 /\ _pc c1 = CodeAt 0 /\ holds c1 [I32 70000] /\
    exists c3, step (return_ 2 1 0) (end_state (push_all [I32 8; I32 9] c1) c1) = Ok tt c3 /\
      _pc c3 = CodeAt 13 /\ holds c3 [I32 9].
Proof.
  destruct (@call_return_discipline demo_sf demo_hf unit in_mem 12 [] [I32 70000] 0
    (demo_type [types.i32] [types.i32]) (demo_body 0) [] (view (_as in_mem)))
    as (c1 & E1 & P1 & H1 & _ & _ & Hret).
  - split; [vm_compute; congruence|exists 0; split; reflexivity|reflexivity].
  - reflexivity.
  - reflexivity.
  - split; [vm_compute; split; lia|reflexivity].
  - reflexivity.
  - vm_compute. reflexivity.
  - split; [vm_compute; split; lia|reflexivity].
  - vm_compute. split; congruence.
  - vm_compute. reflexivity.
  - vm_compute. intuition congruence.
  - exists c1. split; [exact E1|]. split; [exact P1|]. split; [exact H1|].
    assert (Hh : holds c1 [I32 70000]) by exact H1.
    destruct (push_all_holds c1 [I32 70000] [I32 8; I32 9] Hh) as (c2 & E2 & [Hh2 [s ->]]).
    rewrite E2. cbn [end_state]. set (c2 := c1 <| _os := s |>) in *.
    destruct (Hret c2 [I32 70000; I32 8] [I32 9] eq_refl eq_refl Hh2)
      as (c3 & E3 & P3 & H3 & _); [vm_compute; reflexivity|vm_compute; reflexivity|].
    exists c3. split; [exact E3|]. split; [exact P3|exact H3].
Defined.

(** ** Tail calls *)
Section TailCalls.
Context {SF : SoftFloat} {HF : HostFloat} {H : Type}.
Implicit Types c : ctx H.

Lemma peek_frame c fs f : frames c (fs ++ [f]) -> on_as (peek 0) c = Ok f c.
Proof.
  intros [Hw Hv]. unfold on_as, zoom. rewrite (peek_view (_as c) fs f [] Hw Hv : peek 0 (_as c) = _). now destruct c.
Qed.
Lemma poke_frame c fs f f' : frames c (fs ++ [f]) ->
  exists s, on_as (poke 0 f') c = Ok tt (c <| _as := s |>) /\ stack_wf s /\ view s = fs ++ [f'].
Proof.
  intros [Hw Hv]. destruct (poke_view (_as c) fs f f' [] Hw Hv) as (s & E & W & V).
  exists s. unfold on_as, zoom. now rewrite (E : poke 0 f' (_as c) = _).
Qed.

(** C29. A tail call runs in constant stack: it replaces the caller's locals and
    operands by the arguments and the callee's zeroed locals, keeps the return
    address and the number of frames, and moves the call-depth budget from the
    old frame's size to the new one's. *)
Theorem tail_call_reuses_frame c l slots args index ft fb zs fs cur :
  local_fn (_mod (_base c)) index ft fb -> zero_locals (fb_locals fb) = Some zs ->
  holds c (l ++ slots ++ args) -> _last_op_index c = vec_size l -> vec_size args = vec_size (param_types ft) ->
  vec_size (l ++ args) < 2 ^ 32 -> frames c (fs ++ [cur]) ->
  0 <= frame_size (_mod (_base c)) fb <= _remaining_call_depth c + af_frame_size cur ->
  0 <= _remaining_call_depth c + af_frame_size cur < 2 ^ 32 -> gas_fits (_base c) (prologue_cost fb) ->
  exists c1, step (tail_call_ index) c = Ok tt c1 /\
    _pc c1 = CodeAt (fb_code fb) /\ holds c1 (l ++ args ++ zs) /\ _last_op_index c1 = vec_size l /\
    frames c1 (fs ++ [{| af_pc := af_pc cur; af_last_op_index := af_last_op_index cur;
                         af_frame_size := frame_size (_mod (_base c)) fb |}]) /\
    _remaining_call_depth c1 = _remaining_call_depth c + af_frame_size cur - frame_size (_mod (_base c)) fb.
Proof.
  intros Hf Hz Hh Hlast Ha Hl Hfs Hfs1 Hfs2 Hg. cbn [step]. unfold tail_call.
  unfold the_module, bind at 1, gets. rewrite (bind_Ok _ _ _ _ _ (peek_frame c fs cur Hfs)).
  unfold modify at 1, bind at 1. rewrite wrap_small by (unfold in_u; lia). set (c0 := c <| _remaining_call_depth := _ |>).
  destruct (Z.ltb_spec index (get_imported_functions_size (_mod (_base c)))); [destruct Hf; lia|].
  rewrite (bind_Ok _ _ _ _ _ (charge_prologue_fits c0 index ft fb Hf Hg)).
  set (c1 := c0 <| _base := _ |>). change (_mod (_base c)) with (_mod (_base c1)) in *.
  rewrite (bind_Ok _ _ _ _ _ (local_fn_type _ _ _ _ c1 Hf)), (bind_Ok _ _ _ _ _ (local_fn_stack _ _ _ _ c1 Hf)).
  unfold bind at 1, gets. destruct (Z.leb_spec (frame_size (_mod (_base c1)) fb) (_remaining_call_depth c1)); [|cbn in *; lia].
  cbn [psizam_assert]. rewrite bind_ret. unfold modify at 1, bind at 1. set (c2 := c1 <| _remaining_call_depth := _ |>).
  assert (Hh2 : holds c2 ((l ++ slots) ++ args)) by (rewrite <- app_assoc; exact Hh).
  assert (Hn : length (param_types ft) = length args) by (unfold vec_size in Ha; lia). rewrite Hn.
  destruct (pop_n_holds c2 _ args [] Hh2) as (c3 & E3 & [Hh3 [s3 ->]]). rewrite app_nil_r in E3.
  rewrite (bind_Ok _ _ _ _ _ E3). set (c3 := c2 <| _os := s3 |>) in *. unfold bind at 1, gets.
  destruct (eat_holds c3 l slots (_last_op_index c3) Hh3 Hlast) as (c4 & E4 & [Hh4 [s4 ->]]);
    [unfold vec_size in *; rewrite length_app in Hl; lia|].
  rewrite (bind_Ok _ _ _ _ _ E4). set (c4 := c3 <| _os := s4 |>) in *.
  destruct (push_all_holds c4 l args Hh4) as (c5 & E5 & [Hh5 [s5 ->]]). rewrite (bind_Ok _ _ _ _ _ E5).
  set (c5 := c4 <| _os := s5 |>) in *. rewrite (bind_Ok _ _ _ _ _ (size_holds c5 _ Hh5)).
  replace (wrap 32 _) with (vec_size l)
    by (symmetry; unfold vec_size in *; rewrite length_app in *; rewrite wrap_small; unfold in_u; lia).
  unfold modify at 1, bind at 1. set (c6 := c5 <| _last_op_index := _ |>).
  destruct (poke_frame c6 fs cur {| af_pc := af_pc cur; af_last_op_index := af_last_op_index cur;
                                    af_frame_size := frame_size (_mod (_base c1)) fb |} Hfs) as (a & Ea & Wa & Va).
  rewrite (bind_Ok _ _ _ _ _ Ea). set (c7 := c6 <| _as := a |>).
  unfold setup_locals, the_module, bind at 1 2, gets. change (_mod (_base c7)) with (_mod (_base c1)).
  rewrite (bind_Ok _ _ _ _ _ (vec_index_Ok _ _ _ c7 (lf_body _ _ _ _ Hf))).
  assert (Hh7 : holds c7 (l ++ args)) by exact Hh5.
  destruct (setup_locals_holds _ _ c7 _ Hz Hh7) as (c8 & -> & [Hh8 [s ->]]). set (c8 := c7 <| _os := s |>) in *.
  rewrite (bind_Ok _ _ _ _ _ (local_fn_pc _ _ _ _ c8 Hf)).
  eexists. split; [reflexivity|]. rewrite <- app_assoc in Hh8. split; [reflexivity|]. split; [exact Hh8|].
  split; [reflexivity|]. split; [split; assumption|]. reflexivity.
Qed.
End TailCalls.

(** A tail call of the factorial from a frame of [mem] with a spare operand. *)
Lemma tail_call_reuses_frame_witness :
  exists c1, step (tail_call_ 0) deep_ctx = Ok tt c1 /\ _pc c1 = CodeAt 0 /\ holds c1 [I32 3] /\ _last_op_index c1 = 0.
Proof.
  destruct (@tail_call_reuses_frame demo_sf demo_hf unit deep_ctx [] [I32 70000; I32 1; I32 2] [I32 3] 0
    (demo_type [types.i32] [types.i32]) (demo_body 0) [] []
    {| af_pc := CodeAt 1; af_last_op_index := 0; af_frame_size := 1 |})
    as (c1 & E1 & P1 & H1 & L1 & _).
  - split; [vm_compute; congruence|exists 0; split; reflexivity|reflexivity].
  - reflexivity.
  - split; [vm_compute; split; lia|reflexivity].
  - reflexivity.
  - reflexivity.
  - vm_compute. reflexivity.
  - split; [vm_compute; split; lia|reflexivity].
  - vm_compute. split; congruence.
  - vm_compute. split; congruence.
  - vm_compute. intuition congruence.
  - exists c1. auto.
Defined.
