(* ===== verification/Verifier.v ===== *)
(** * A verifier for bytecode with control flow

    An executable check of a module's bytecode against an assignment of types to
    code offsets: the locals, the results and the operand stack of the function
    the offset belongs to.  Branches, calls and returns are checked with the
    operands the interpreter uses (the packed [pop_info], the number of slots
    below the results), so the check is about the bytecode and not about the
    source module.  Exception handling and tail calls are not admitted. *)
From Stdlib Require Import ZArith Lia Bool String.
From stdpp Require Import base list numbers decidable option gmap.
From S2P Require Import Prelude Types Stack Memory Numeric Softfloat InitExpr Context Operands Interp Demo Invariants.
From S2P Require Import TypedOps TypedVec Typing Control.
Import Opcode.

(** The types at a code offset: stack listed top first. *)
Record point := { pt_locals : list Z; pt_results : list Z; pt_stack : list Z }.
#[global] Instance point_eq_dec : EqDecision point.
Proof. solve_decision. Defined.

(** Offsets without a type are never reached. *)
Definition typing : Type := list (option point).
Definition type_at (G : typing) (o : Z) : option point := mjoin (vec_lookup G o).
Definition with_stack (pt : point) (st : list Z) : point :=
  {| pt_locals := pt_locals pt; pt_results := pt_results pt; pt_stack := st |}.
Definition flows (G : typing) (o : Z) (pt : point) : bool := bool_decide (type_at G o = Some pt).

(** The type of a function of the index space, imported or defined. *)
Definition fn_type (m : module) (i : Z) : option func_type :=
  if i <? 0 then None
  else if i <? get_imported_functions_size m then
    match nth_function_import (m_imports m) i with Some e => vec_lookup (m_types m) (im_func_t e) | None => None end
  else
    match vec_lookup (m_functions m) (i - get_imported_functions_size m) with
    | Some t => vec_lookup (m_types m) t
    | None => None
    end.
Definition stack_params (ft : func_type) : list Z := rev (map rep_type (param_types ft)).
Definition stack_results (ft : func_type) : list Z := rev (map rep_type (return_types ft)).

Section Check.
Context (m : module) (G : typing).

(** Branch targets are relative to the first function's code. *)
Definition code_base : Z := match m_code m with fb :: _ => fb_code fb | [] => 0 end.

Definition check_branch (pt : point) (st : list Z) (info pc : Z) : bool :=
  let depth := Z.land info 0x00FFFFFF in
  let count := Z.shiftr info 24 in
  (0 <=? count) && (count <=? depth) && (depth <=? vec_size st) &&
  flows G (code_base + pc) (with_stack pt (take (Z.to_nat count) st ++ drop (Z.to_nat depth) st)).

Definition check_call (pt : point) (o : Z) (ft : func_type) (st : list Z) : bool :=
  match strip (stack_params ft) st with
  | Some rest => flows G (o + 1) (with_stack pt (stack_results ft ++ rest))
  | None => false
  end.

Definition check_op (o : Z) (pt : point) (op : opcode) : bool :=
  match op with
  | unreachable_ => true
  | gas_charge_ _ => flows G (o + 1) pt
  | else_ pc => flows G (code_base + pc) pt
  | if_ pc =>
      match pt_stack pt with
      | t :: st => (t =? types.i32) && flows G (o + 1) (with_stack pt st) && flows G (code_base + pc) (with_stack pt st)
      | [] => false
      end
  | br_ info pc => check_branch pt (pt_stack pt) info pc
  | br_if_ info pc leaves =>
      match pt_stack pt with
      | t :: st => (t =? types.i32) && (leaves =? 0) && flows G (o + 1) (with_stack pt st) && check_branch pt st info pc
      | [] => false
      end
  | br_table_ sz table =>
      match pt_stack pt with
      | t :: st =>
          (t =? types.i32) && (0 <=? sz) && (vec_size table =? sz + 1) &&
          forallb (fun e => (bt_eh_leave_count e =? 0) && check_branch pt st (bt_stack_pop e) (bt_pc e)) table
      | [] => false
      end
  | return_ slots count _ =>
      match strip (rev (pt_results pt)) (pt_stack pt) with
      | Some rest => (slots =? vec_size (pt_locals pt) + vec_size rest) && (wrap 16 count =? vec_size (pt_results pt))
      | None => false
      end
  | call_ i => match fn_type m i with Some ft => check_call pt o ft (pt_stack pt) | None => false end
  | call_indirect_ i =>
      match vec_lookup (m_types m) (Z.land i 0xFFFF), pt_stack pt with
      | Some ft, t :: st =>
          (t =? types.i32) && (0 <=? Z.shiftr i 16) && (Z.shiftr i 16 <? vec_size (m_tables m)) && check_call pt o ft st
      | _, _ => false
      end
  | _ =>
      match step_type m (pt_locals pt) op (pt_stack pt) with
      | Some st => flows G (o + 1) (with_stack pt st)
      | None => false
      end
  end.

(** Where control goes within the function; a call comes back to the next
    instruction. *)
Definition succs (o : Z) (op : opcode) : list Z :=
  match op with
  | unreachable_ | return_ _ _ _ => []
  | else_ pc | br_ _ pc => [code_base + pc]
  | if_ pc | br_if_ _ pc _ => [o + 1; code_base + pc]
  | br_table_ _ table => map (fun e => code_base + bt_pc e) table
  | _ => [o + 1]
  end.

Definition is_call (op : opcode) : bool := match op with call_ _ | call_indirect_ _ => true | _ => false end.

(** Every typed offset, with frames of at most [F] slots. *)
Definition check_point (F : Z) (o : nat) (op : opcode) : bool :=
  match type_at G (Z.of_nat o) with
  | Some pt => (vec_size (pt_locals pt) + vec_size (pt_stack pt) <=? F) && check_op (Z.of_nat o) pt op
  | None => true
  end.

(** The entry of a function: parameters, then the declared locals. *)
Definition local_types (fb : function_body) : list Z :=
  fb_locals fb ≫= (fun le => repeat (le_type le) (Z.to_nat (le_count le))).
Definition entry_point (ft : func_type) (fb : function_body) : point :=
  {| pt_locals := map rep_type (param_types ft ++ local_types fb); pt_results := map rep_type (return_types ft); pt_stack := [] |}.
Definition check_fn (t : Z) (fb : function_body) : bool :=
  match vec_lookup (m_types m) t, zero_locals (fb_locals fb) with
  | Some ft, Some _ => flows G (fb_code fb) (entry_point ft fb) && (0 <? frame_size m fb)
  | _, _ => false
  end.

Definition check_import (e : import_entry) : bool :=
  negb (bool_decide (im_kind e = Function)) || bool_decide (is_Some (vec_lookup (m_types m) (im_func_t e))).

(** A type with its cached hash and result count, as the parser leaves it. *)
Definition check_type (ft : func_type) : bool :=
  (sig_hash ft =? compute_sig_hash ft) && (return_count ft =? vec_size (return_types ft)).

Definition verify (F : Z) : bool :=
  (length G <=? length (bytecode m))%nat &&
  forallb (fun p => check_point F p.1 p.2) (zip (seq 0 (length (bytecode m))) (bytecode m)) &&
  (length (m_functions m) =? length (m_code m))%nat &&
  forallb (fun p => check_fn p.1 p.2) (zip (m_functions m) (m_code m)) &&
  forallb check_import (m_imports m) &&
  forallb check_type (m_types m).

End Check.

(** ** What an accepted module guarantees *)
Section Verified.
Context (m : module) (G : typing) (F : Z) (Hv : verify m G F = true).

Lemma flows_at o pt : flows G o pt = true -> type_at G o = Some pt.
Proof. apply bool_decide_eq_true. Qed.

Lemma verify_split :
  (length G <= length (bytecode m))%nat /\
  (forall o op, bytecode m !! o = Some op -> check_point m G F o op = true) /\
  length (m_functions m) = length (m_code m) /\
  (forall j t fb, m_functions m !! j = Some t -> m_code m !! j = Some fb -> check_fn m G t fb = true) /\
  (forall e, e ∈ m_imports m -> check_import m e = true) /\
  Forall (fun ft => hashed ft /\ return_count ft = vec_size (return_types ft)) (m_types m).
Proof.
  revert Hv. unfold verify. rewrite !andb_true_iff, Nat.leb_le, Nat.eqb_eq, !forallb_forall.
  intros [[[[[H1 H2] H3] H4] H5] H6]. repeat split; auto.
  - intros o op Ho. apply (H2 (o, op)), list_elem_of_In, list_elem_of_lookup_2 with (i := o).
    apply lookup_lt_Some in Ho as Hl. rewrite lookup_zip_with, lookup_seq_lt, Ho by assumption. reflexivity.
  - intros j t fb Ht Hb. apply (H4 (t, fb)), list_elem_of_In, list_elem_of_lookup_2 with (i := j).
    now rewrite lookup_zip_with, Ht, Hb.
  - intros e He. now apply H5, list_elem_of_In.
  - rewrite Forall_forall. intros ft Hft. apply list_elem_of_In, H6 in Hft. unfold check_type in Hft.
    now rewrite andb_true_iff, !Z.eqb_eq in Hft.
Qed.

(** A typed offset holds an instruction that checks. *)
Lemma typed_op o pt : type_at G o = Some pt ->
  exists op, vec_lookup (bytecode m) o = Some op /\ check_op m G o pt op = true /\
    vec_size (pt_locals pt) + vec_size (pt_stack pt) <= F.
Proof.
  destruct verify_split as (Hl & Hp & _). intros Ht. pose proof Ht as Ht'. unfold type_at in Ht'.
  destruct (vec_lookup G o) as [x|] eqn:Eo; [|discriminate]. apply vec_lookup_Some in Eo as [H0 Eo].
  apply lookup_lt_Some in Eo as Hlt. destruct (lookup_lt_is_Some_2 (bytecode m) (Z.to_nat o)) as [op Eop]; [lia|].
  exists op. split; [now apply vec_lookup_Some|]. specialize (Hp _ _ Eop). unfold check_point in Hp.
  rewrite Z2Nat.id, Ht, andb_true_iff, Z.leb_le in Hp by lia. tauto.
Qed.

Lemma checked_type t ft : vec_lookup (m_types m) t = Some ft ->
  hashed ft /\ return_count ft = vec_size (return_types ft).
Proof.
  destruct verify_split as (_ & _ & _ & _ & _ & Hh). rewrite Forall_lookup in Hh.
  intros [_ E]%vec_lookup_Some. exact (Hh _ _ E).
Qed.

(** ** Functions *)
Lemma nth_import_Some l i : 0 <= i < Z.of_nat (length (filter (fun e => im_kind e = Function) l)) ->
  exists e, nth_function_import l i = Some e /\ e ∈ l /\ im_kind e = Function.
Proof.
  revert i. induction l as [|e l IH]; intros i Hi; [cbn in Hi; lia|]. cbn [nth_function_import].
  rewrite filter_cons in Hi. destruct (decide (im_kind e = Function)) as [Hk|Hk].
  - rewrite bool_decide_eq_true_2 by assumption. destruct (Z.eqb_spec i 0); [exists e; repeat split; auto; apply list_elem_of_here|].
    cbn [length] in Hi. destruct (IH (i - 1)) as (e' & E & Hin & Hk'); [lia|]. exists e'. repeat split; auto. (apply list_elem_of_further; assumption).
  - rewrite bool_decide_eq_false_2 by assumption. destruct (IH i Hi) as (e' & E & Hin & Hk').
    exists e'. repeat split; auto. (apply list_elem_of_further; assumption).
Qed.

Lemma fn_type_get {S} i ft (s : S) : fn_type m i = Some ft -> get_function_type m i s = Ok ft s.
Proof.
  unfold fn_type, get_function_type. destruct (Z.ltb_spec i 0); [discriminate|].
  destruct (i <? get_imported_functions_size m).
  - destruct (nth_function_import _ i) as [e|]; [|discriminate]. apply vec_index_Ok.
  - destruct (vec_lookup (m_functions m) _) as [t|] eqn:Et; [|discriminate]. intros Ht.
    pose proof (vec_lookup_lt _ _ _ Et) as Hlt. rewrite (proj2 (Z.ltb_lt _ _) (proj2 Hlt)). cbn [psizam_assert].
    unfold bind, ret. rewrite (vec_index_Ok _ _ _ _ Et). unfold vec_at. now rewrite Ht.
Qed.

Lemma fn_checked i ft : fn_type m i = Some ft -> hashed ft /\ return_count ft = vec_size (return_types ft).
Proof.
  unfold fn_type. intros E. enough (exists t, vec_lookup (m_types m) t = Some ft) as [t Et] by exact (checked_type t ft Et).
  destruct (i <? 0); [discriminate|].
  destruct (i <? _); [destruct (nth_function_import _ _)|destruct (vec_lookup (m_functions m) _)]; try discriminate; eauto.
Qed.

(** Every index of the index space has a type. *)
Lemma fn_type_total i : 0 <= i < get_functions_total m -> exists ft, fn_type m i = Some ft.
Proof.
  destruct verify_split as (_ & _ & Hlen & Hf & Hi & _). unfold get_functions_total, fn_type. intros Hr.
  destruct (Z.ltb_spec i 0); [lia|]. destruct (Z.ltb_spec i (get_imported_functions_size m)) as [Hlt|Hge].
  - destruct (nth_import_Some (m_imports m) i) as (e & -> & Hin & Hk); [unfold get_imported_functions_size in Hlt; lia|].
    specialize (Hi e Hin). unfold check_import in Hi. rewrite bool_decide_eq_true_2 in Hi by assumption.
    cbn in Hi. apply bool_decide_eq_true in Hi. exact Hi.
  - destruct (vec_lookup_range (m_functions m) (i - get_imported_functions_size m)) as [t Et].
    { unfold get_functions_size in Hr. lia. }
    rewrite Et. apply vec_lookup_Some in Et as [_ Et]. apply lookup_lt_Some in Et as Hl.
    destruct (lookup_lt_is_Some_2 (m_code m) (Z.to_nat (i - get_imported_functions_size m))) as [fb Eb]; [lia|].
    specialize (Hf _ _ _ Et Eb). unfold check_fn in Hf. destruct (vec_lookup (m_types m) t); [eauto|discriminate].
Qed.

(** A defined function can be entered at a typed offset. *)
Lemma fn_type_local i ft : fn_type m i = Some ft -> get_imported_functions_size m <= i ->
  exists fb zs, local_fn m i ft fb /\ zero_locals (fb_locals fb) = Some zs /\
    type_at G (fb_code fb) = Some (entry_point ft fb) /\ 0 < frame_size m fb.
Proof.
  destruct verify_split as (_ & _ & Hlen & Hf & _ & _). unfold fn_type. intros Ht Hi.
  destruct (Z.ltb_spec i 0); [discriminate|]. destruct (Z.ltb_spec i (get_imported_functions_size m)); [lia|].
  destruct (vec_lookup (m_functions m) _) as [t|] eqn:Et; [|discriminate].
  pose proof Et as [_ Et']%vec_lookup_Some. apply lookup_lt_Some in Et' as Hl.
  destruct (lookup_lt_is_Some_2 (m_code m) (Z.to_nat (i - get_imported_functions_size m))) as [fb Eb]; [lia|].
  specialize (Hf _ _ _ Et' Eb). unfold check_fn in Hf. rewrite Ht in Hf.
  destruct (zero_locals (fb_locals fb)) as [zs|] eqn:Ez; [|discriminate].
  apply andb_true_iff in Hf as [Hf Hz]. apply flows_at in Hf. apply Z.ltb_lt in Hz.
  exists fb, zs. split; [split; [exact Hi|eauto|apply vec_lookup_Some; split; [lia|exact Eb]]|auto].
Qed.

End Verified.

(** Zeroed locals have the declared types. *)
Lemma zero_of_typed t e : zero_of t = Some e -> elem_type e = rep_type t /\ elem_ok e.
Proof.
  unfold zero_of.
  do 5 (match goal with |- (if t =? ?b then _ else _) = _ -> _ => destruct (Z.eqb_spec t b) as [->|_] end;
        [intros [= <-]; split; [reflexivity|vm_compute; split; congruence]|]).
  unfold rep_type. destruct (_ || _); intros [= <-]. split; [reflexivity|vm_compute; split; congruence].
Qed.
Lemma zero_locals_typed l es : zero_locals l = Some es ->
  map elem_type es = map rep_type (l ≫= (fun le => repeat (le_type le) (Z.to_nat (le_count le)))) /\ Forall elem_ok es.
Proof.
  revert es. induction l as [|x l IH]; intros es; cbn [zero_locals mbind list_bind]; [intros [= <-]; split; [reflexivity|constructor]|].
  destruct (zero_of (le_type x)) as [e|] eqn:Ez; [|discriminate]. destruct (zero_locals l) as [es'|]; [|discriminate].
  intros [= <-]. destruct (IH es' eq_refl) as [E O]. destruct (zero_of_typed _ _ Ez) as [Te Oe]. split.
  - rewrite !map_app, E. f_equal. rewrite !map_repeat. now rewrite Te.
  - apply Forall_app. split; [|exact O]. apply List.Forall_forall. now intros y ->%repeat_spec.
Qed.
