(* ===== verification/Soundness.v ===== *)
(** * Type soundness of verified programs

    Verified bytecode never leaves defined behaviour: at every dispatch the
    operand stack holds the locals and operands the typing gives for the current
    offset, above the suspended frames of the callers, each of which is typed at
    its return address.  The invariant is proved for one instruction of each
    kind and lifted to the dispatch loop and to [execute]. *)
From Stdlib Require Import ZArith Lia Bool String.
From stdpp Require Import base list numbers decidable option gmap.
From S2P Require Import Prelude Types Stack Memory Numeric Softfloat InitExpr Context Operands Interp Handlers Demo.
From S2P Require Import Invariants TypedOps TypedVec Typing Control Verifier.
Import Opcode.

Definition typed (es : list elem) (ts : list Z) : Prop := map elem_type es = ts /\ Forall elem_ok es.

Lemma typed_app es ts1 ts2 : typed es (ts1 ++ ts2) ->
  exists es1 es2, es = es1 ++ es2 /\ typed es1 ts1 /\ typed es2 ts2.
Proof.
  intros [E O]. apply map_app_split in E as (es1 & es2 & -> & E1 & E2 & O1 & O2); [|exact O].
  exists es1, es2. repeat split; auto.
Qed.
Lemma typed_join es1 es2 ts1 ts2 : typed es1 ts1 -> typed es2 ts2 -> typed (es1 ++ es2) (ts1 ++ ts2).
Proof. intros [<- O1] [<- O2]. split; [apply map_app|]. now apply Forall_app. Qed.
Lemma typed_rev es ts : typed es ts -> typed (rev es) (rev ts).
Proof. intros [<- O]. split; [apply map_rev|]. now apply Forall_rev. Qed.
Lemma typed_size es ts : typed es ts -> vec_size es = vec_size ts.
Proof. intros [<- _]. unfold vec_size. now rewrite length_map. Qed.
Lemma typed_cons e es t ts : typed (e :: es) (t :: ts) -> elem_type e = t /\ elem_ok e /\ typed es ts.
Proof. intros [[= E1 E2] O]. inversion O; subst. repeat split; auto. Qed.
Lemma typed_uncons es t ts : typed es (t :: ts) -> exists e es', es = e :: es' /\ elem_type e = t /\ elem_ok e /\ typed es' ts.
Proof.
  intros Ht. destruct es as [|e es]; [destruct Ht; discriminate|]. exists e, es. split; [reflexivity|now apply typed_cons].
Qed.

Section Program.
Context {SF : SoftFloat} {HF : HostFloat} {H : Type}.
Implicit Types c : ctx H.
Context (m : module) (G : typing) (F : Z) (Hv : verify m G F = true).
(** Exceptions that host functions and the gas handler may raise. *)
Context (foreign : exn -> Prop).

(** ** The instance a program runs in *)
Definition num_type (t : Z) : Prop := t = types.i32 \/ t = types.i64 \/ t = types.f32 \/ t = types.f64.

(** A host function of the import's signature that keeps memory a sequence of
    bytes. *)
Record host_ok (ft : func_type) (he : host_entry H) : Prop := {
  ho_params : he_params he = param_types ft;
  ho_ret : he_ret he = return_types ft;
  ho_num : Forall num_type (param_types ft) /\ Forall num_type (return_types ft) /\ (length (return_types ft) <= 1)%nat;
  ho_call : forall f args h mem, he_call he = Some f ->
    match f args h mem with
    | (r, _, mem') => ((forall k, in_u 8 (mem_get mem k)) -> forall k, in_u 8 (mem_get mem' k)) /\
                      (forall e, r = inr e -> foreign e)
    end }.
Definition linked (tbl : list (host_entry H)) : Prop :=
  forall i ft, i < get_imported_functions_size m -> fn_type m i = Some ft ->
    exists k he, vec_lookup (m_import_functions m) i = Some k /\ vec_lookup tbl k = Some he /\ host_ok ft he.

Record world (b : base H) : Prop := {
  wd_ready : ready b;
  wd_mod : _mod b = m;
  wd_code : m_code m <> [];
  wd_tables : tables_ok b;
  wd_ntables : length (_table_data b) = length (m_tables m);
  wd_linked : linked (_table b);
  wd_handler : forall h x d e, handler (_gas b) = Some h -> h x d = inr e -> foreign e }.

Lemma world_step b b' : world b -> base_step b b' -> ready b' -> world b'.
Proof.
  intros [R M C T N L Hh] [SM (_ & ST & _ & _ & _ & SH) _ _ [SN STb] _] R'.
  split; auto; [congruence|congruence|now rewrite ST|].
  intros h x d e Eh. rewrite SH in Eh. eauto.
Qed.

(** How a program ends early: by itself, or when its time is up. *)
Definition halts (e : exn) : Prop :=
  is_trap e \/ exn_class e = wasm_gas_exhausted_exception \/ exn_class e = wasm_link_exception \/ foreign e.
Definition stops (e : exn) : Prop := halts e \/ exn_class e = timeout_exception.

(** ** Suspended callers

    The activation that [execute] entered returns to [_halt], above the operands
    [pre0] and frames [fs0] of whoever called it; [R0] are its results. *)
Context (pre0 : list elem) (fs0 : list activation_frame) (R0 : list Z) (D : Z).

(** [callers d R pre fs]: the frames [fs] of total size [d] suspend callers
    whose operands are [pre], the innermost expecting results [R]. *)
Inductive callers : Z -> list Z -> list elem -> list activation_frame -> Prop :=
  | callers_exit af : af_pc af = CodeHalt -> 0 < af_frame_size af ->
      callers (af_frame_size af) R0 pre0 (fs0 ++ [af])
  | callers_call d R pre fs af o pt ts locs ops :
      callers d (pt_results pt) pre fs -> af_pc af = CodeAt o -> type_at G o = Some pt ->
      pt_stack pt = rev R ++ ts -> typed locs (pt_locals pt) -> typed ops ts ->
      af_last_op_index af = vec_size pre -> 0 < af_frame_size af ->
      callers (d + af_frame_size af) R ((pre ++ locs) ++ rev ops) (fs ++ [af]).

(** An activation of a function with locals [L] and results [R], its operands of
    types [ts] above the callers' [pre]. *)
Record activation c (L R ts : list Z) (pre : list elem) (d : Z) (fs : list activation_frame) : Prop := {
  ac_frame : frame L pre ts c;
  ac_callers : callers d R pre fs;
  ac_frames : frames c fs;
  ac_budget : d + _remaining_call_depth c = D /\ 0 <= _remaining_call_depth c;
  ac_size : vec_size L + vec_size ts <= F;
  ac_exiting : _exiting c = false;
  ac_world : world (_base c) }.

(** Between two instructions, at offset [o] with callers [fs]. *)
Definition running c (o : Z) (fs : list activation_frame) : Prop := exists pt pre d,
  _pc c = CodeAt o /\ type_at G o = Some pt /\ activation c (pt_locals pt) (pt_results pt) (pt_stack pt) pre d fs.

(** After the return of the entry function. *)
Definition finished c : Prop :=
  _pc c = CodeHalt /\ _exiting c = false /\ world (_base c) /\
  exists res, holds c (pre0 ++ res) /\ typed res R0.

(** A step leads to an offset and callers that satisfy [Q], with the instance's
    new state, or out of the program. *)
Definition proceeds (Q : base H -> Z -> list activation_frame -> Prop) (r : outcome (ctx H) unit) : Prop :=
  match r with
  | Ok _ c' => (exists o fs, running c' o fs /\ Q (_base c') o fs) \/ finished c'
  | Throw e _ => halts e
  | UB => False
  end.

(** The bounds that keep stack indices within 32 bits. *)
Context (HF0 : 0 <= F) (HD : vec_size pre0 + D * F < 2 ^ 32) (HD32 : D < 2 ^ 32).

Lemma callers_size d R pre fs : callers d R pre fs -> 1 <= d /\ vec_size pre + F <= vec_size pre0 + d * F.
Proof.
  induction 1 as [af Hp Hs|d R pre fs af o pt ts locs ops Hc IH Hp Ht Hst Tl To Hi Hs]; [split; nia|].
  destruct (typed_op m G F Hv o pt Ht) as (op & _ & _ & Hsz). rewrite Hst in Hsz.
  apply typed_size in Tl. apply typed_size in To. unfold vec_size in *. rewrite !length_app, length_rev in *. nia.
Qed.
Lemma callers_prefix d R pre fs : callers d R pre fs -> exists fs1, fs = fs0 ++ fs1.
Proof. induction 1 as [af|d R pre fs af o pt ts locs ops Hc [fs1 ->]]; [eauto|]. exists (fs1 ++ [af]). now rewrite app_assoc. Qed.
Lemma active_size c L R ts pre d fs : activation c L R ts pre d fs -> vec_size pre + vec_size L + vec_size ts < 2 ^ 32.
Proof.
  intros [_ Hc _ [Hd Hr] Hs _ _]. apply callers_size in Hc as [H1 H2]. unfold vec_size in *. nia.
Qed.

Lemma active_running (Q : base H -> Z -> list activation_frame -> Prop) c o pt pre d fs : _pc c = CodeAt o -> type_at G o = Some pt ->
  activation c (pt_locals pt) (pt_results pt) (pt_stack pt) pre d fs -> Q (_base c) o fs -> proceeds Q (Ok tt c).
Proof. intros Hpc Ht Ha HQ. left. exists o, fs. split; [|exact HQ]. exists pt, pre, d. auto. Qed.

(** The loop ends where the entry function has returned to. *)
Lemma run_finished n c : _pc c = CodeHalt -> run n c = Ok tt c.
Proof. intros Hh. destruct n; cbn [run]; unfold fetch, the_module, bind, gets; now rewrite Hh. Qed.

Section Steps.
(** Where a step may lead: [Q] holds there. *)
Context (Q : base H -> Z -> list activation_frame -> Prop).

(** The frame with its locals and operands named. *)
Lemma active_holds c L R ts pre d fs : activation c L R ts pre d fs ->
  exists locs ops, holds c ((pre ++ locs) ++ rev ops) /\ typed locs L /\ typed ops ts /\ _last_op_index c = vec_size pre.
Proof.
  intros [(locs & ops & Hh & T1 & O1 & T2 & O2 & Hi & _) _ _ _ _ _ _]. exists locs, ops. repeat split; auto; apply Hh.
Qed.
(** A change of operands only. *)
Lemma active_operands c L R ts pre d fs s locs ops ts' :
  activation c L R ts pre d fs -> holds (c <| _os := s |>) ((pre ++ locs) ++ rev ops) -> typed locs L -> typed ops ts' ->
  vec_size L + vec_size ts' <= F -> activation (c <| _os := s |>) L R ts' pre d fs.
Proof.
  intros [(l0 & o0 & _ & _ & _ & _ & _ & Hi & Hr) Hc Hfs Hb _ He Hw] Hh [T1 O1] [T2 O2] Hs.
  split; auto. exists locs, ops. auto 10.
Qed.

Lemma active_pc c L R ts pre d fs p : activation c L R ts pre d fs -> activation (c <| _pc := p |>) L R ts pre d fs.
Proof. intros [Hf Hc Hfs Hb Hs He Hw]. split; assumption. Qed.

Lemma active_pop c L R t ts pre d fs : activation c L R (t :: ts) pre d fs ->
  exists e c', pop_operand c = Ok e c' /\ elem_type e = t /\ elem_ok e /\ (_pc c' = _pc c /\ _base c' = _base c) /\ activation c' L R ts pre d fs.
Proof.
  intros Ha. destruct (active_holds _ _ _ _ _ _ _ Ha) as (locs & ops & Hh & Tl & To & Hi).
  apply typed_uncons in To as (e & ops' & -> & Te & Oe & To'). cbn [rev] in Hh. rewrite app_assoc in Hh.
  destruct (pop_holds c _ e Hh) as (c1 & E1 & [Hh1 [s ->]]). exists e, (c <| _os := s |>).
  split; [exact E1|]. split; [exact Te|]. split; [exact Oe|]. split; [split; reflexivity|].
  eapply active_operands; eauto. pose proof (ac_size _ _ _ _ _ _ _ Ha). unfold vec_size in *. cbn in *. lia.
Qed.

Lemma i32_inv e : elem_type e = types.i32 -> elem_ok e -> exists v, e = I32 v /\ in_u 32 v.
Proof. destruct e; cbn; intros E O; try discriminate E. eauto. Qed.

(** ** Instructions without control flow *)
Lemma ok_step op : keeps (@ctx_step H) (step op).
Proof. change (respects (@ctx_ok H) (step op)). apply (inv_instr (@ctx_ok H)). destruct op; exact I. Qed.
Lemma straight_proceeds op c o L R ts ts' pre d fs :
  _pc c = CodeAt o -> activation c L R ts pre d fs -> step_type m L op ts = Some ts' ->
  type_at G (o + 1) = Some {| pt_locals := L; pt_results := R; pt_stack := ts' |} -> (forall b, Q b (o + 1) fs) -> proceeds Q (step op c).
Proof.
  intros Hpc Ha Hst Ht HQ. pose proof (active_size _ _ _ _ _ _ _ Ha) as Hsz. destruct Ha as [Hf Hc Hfs Hb Hs He Hw].
  rewrite <- (wd_mod _ Hw) in Hst.
  assert (Hp : vec_size pre + vec_size L < 2 ^ 32) by (unfold vec_size in *; lia).
  pose proof (step_sound L pre Hp op ts ts' c o Hf Hpc Hst) as S1.
  pose proof (ok_step op c) as S2.
  unfold step_ok in S1. destruct (step op c) as [[] c'|e c'|]; [|left; exact S1|contradiction].
  destruct S1 as (Hf' & Hpc' & (b & s & p & -> & _)). cbn [_pc] in Hpc'.
  apply (active_running Q _ (o + 1) _ pre d fs Hpc' Ht); [|apply HQ].
  destruct (typed_op m G F Hv _ _ Ht) as (_ & _ & _ & Hs'). cbn in Hs'.
  split; auto. apply (world_step _ _ Hw); [apply S2|]. now destruct Hf' as (? & ? & _ & _ & _ & _ & _ & _ & Hr).
Qed.

(** ** Branches *)
Lemma first_body b : world b -> exists fb, vec_lookup (m_code (_mod b)) 0 = Some fb /\ fb_code fb = code_base m.
Proof.
  intros Hw. rewrite (wd_mod _ Hw). pose proof (wd_code _ Hw). unfold code_base. destruct (m_code m) as [|fb l]; [done|].
  now exists fb.
Qed.
Lemma pop_info_split d : pop_info (Z.shiftr d 24) (Z.land d 0x00FFFFFF) = d.
Proof.
  unfold pop_info. change 0x00FFFFFF with (Z.ones 24). apply Z.bits_inj'. intros i Hi.
  destruct (Z.ltb_spec i 24).
  - rewrite Z.lor_spec, Z.land_spec, Z.shiftl_spec_low, Z.ones_spec_low by lia. now rewrite andb_true_r, orb_false_r.
  - rewrite Z.lor_spec, Z.land_spec, Z.ones_spec_high, Z.shiftl_spec, Z.shiftr_spec by lia.
    rewrite andb_false_r. cbn. f_equal. lia.
Qed.
Lemma typed_take es ts n : typed es ts -> typed (take n es) (take n ts).
Proof. intros [<- O]. split; [symmetry; apply firstn_map|now apply Forall_take]. Qed.
Lemma typed_drop es ts n : typed es ts -> typed (drop n es) (drop n ts).
Proof. intros [<- O]. split; [symmetry; apply skipn_map|now apply Forall_drop]. Qed.

Lemma goto_proceeds c L R ts pre d fs pc : activation c L R ts pre d fs ->
  type_at G (code_base m + pc) = Some {| pt_locals := L; pt_results := R; pt_stack := ts |} ->
  (forall b, Q b (code_base m + pc) fs) -> proceeds Q (set_relative_pc pc c).
Proof.
  intros Ha Ht HQ. destruct (first_body _ (ac_world _ _ _ _ _ _ _ Ha)) as (fb & Hfb & Hbase).
  rewrite (set_relative_pc_at c pc fb Hfb). rewrite <- Hbase in Ht, HQ. eapply active_running; [reflexivity|exact Ht| |apply HQ].
  apply active_pc, Ha.
Qed.

Lemma branch_proceeds c pt ts pre d fs info pc :
  activation c (pt_locals pt) (pt_results pt) ts pre d fs -> check_branch m G pt ts info pc = true ->
  (forall b, Q b (code_base m + pc) fs) -> proceeds Q (jump info pc c).
Proof.
  intros Ha. pose proof (active_size _ _ _ _ _ _ _ Ha) as Hsz. unfold check_branch.
  rewrite !andb_true_iff, !Z.leb_le. intros [[[H0 Hcd] Hds] Ht%flows_at] HQ.
  pose proof (pop_info_split info) as Hi. set (count := Z.shiftr info 24) in *. set (depth := Z.land info 0x00FFFFFF) in *.
  assert (Hdu : in_u 24 depth) by (unfold depth; change 0x00FFFFFF with (2 ^ 24 - 1); rewrite land_ones_mod by lia;
    apply Z.mod_pos_bound; lia).
  destruct (active_holds _ _ _ _ _ _ _ Ha) as (locs & ops & Hh & Tl & To & Hlast).
  set (A := take (Z.to_nat count) ops). set (C := drop (Z.to_nat depth) ops).
  set (B := take (Z.to_nat depth - Z.to_nat count) (drop (Z.to_nat count) ops)).
  assert (Hops : ops = A ++ B ++ C).
  { unfold A, B, C. rewrite <- (take_drop (Z.to_nat count) ops) at 1. f_equal.
    rewrite <- (take_drop (Z.to_nat depth - Z.to_nat count) (drop (Z.to_nat count) ops)) at 1. f_equal.
    rewrite drop_drop. f_equal. lia. }
  pose proof (typed_size _ _ To) as Hos. pose proof (typed_size _ _ Tl) as Hls.
  assert (HA : vec_size (rev A) = count) by (unfold vec_size, A in *; rewrite length_rev, length_take; lia).
  assert (HB : vec_size (rev B ++ rev A) = depth)
    by (unfold vec_size, A, B in *; rewrite length_app, !length_rev, !length_take, length_drop; lia).
  destruct (first_body _ (ac_world _ _ _ _ _ _ _ Ha)) as (fb & Hfb & Hbase).
  destruct (jump_holds c ((pre ++ locs) ++ rev C) (rev B) (rev A) pc fb) as (s & E & Hh'); auto.
  - rewrite Hops, !rev_app_distr, <- !app_assoc in Hh. rewrite <- !app_assoc. exact Hh.
  - rewrite HB. apply Hdu.
  - rewrite HB. unfold vec_size, C in *. rewrite !length_app, length_rev, length_drop. lia.
  - rewrite HA, HB, Hi in E. rewrite E. rewrite <- Hbase in Ht, HQ. eapply active_running; [reflexivity|exact Ht| |apply HQ].
    assert (Ha' : activation (c <| _pc := CodeAt (fb_code fb + pc) |>) (pt_locals pt) (pt_results pt) ts pre d fs)
      by now apply active_pc.
    apply (active_operands _ _ _ _ _ _ _ s locs (A ++ C) _ Ha'); auto.
    + rewrite rev_app_distr, app_assoc. exact Hh'.
    + apply typed_join; [now apply typed_take|now apply typed_drop].
    + destruct (typed_op m G F Hv _ _ Ht) as (_ & _ & _ & Hs'). exact Hs'.
Qed.

Lemma i32_pop c L R ts pre d fs : activation c L R (types.i32 :: ts) pre d fs ->
  exists v c', pop_operand c = Ok (I32 v) c' /\ in_u 32 v /\ (_pc c' = _pc c /\ _base c' = _base c) /\ activation c' L R ts pre d fs.
Proof.
  intros Ha. destruct (active_pop _ _ _ _ _ _ _ _ Ha) as (e & c' & E & Te & Oe & Hpc & Ha').
  destruct (i32_inv e Te Oe) as (v & -> & Hv'). eauto 6.
Qed.

Lemma if_proceeds c o pt ts pre d fs pc : _pc c = CodeAt o ->
  activation c (pt_locals pt) (pt_results pt) (types.i32 :: ts) pre d fs ->
  type_at G (o + 1) = Some (with_stack pt ts) -> type_at G (code_base m + pc) = Some (with_stack pt ts) ->
  (forall b, Q b (o + 1) fs) -> (forall b, Q b (code_base m + pc) fs) -> proceeds Q (exec_if pc c).
Proof.
  intros Hpc Ha H1 H2 Q1 Q2. unfold exec_if. rewrite (bind_Ok _ _ _ _ _ (inc_pc_at c o 1 Hpc)).
  set (c1 := c <| _pc := _ |>).
  assert (Ha1 : activation c1 (pt_locals pt) (pt_results pt) (types.i32 :: ts) pre d fs) by now apply active_pc.
  destruct (i32_pop _ _ _ _ _ _ _ Ha1) as (v & c2 & E & _ & [Hpc2 _] & Ha2). rewrite (bind_Ok _ _ _ _ _ E). cbn [to_ui32]. rewrite bind_ret.
  destruct (v =? 0); [exact (goto_proceeds _ _ _ _ _ _ _ _ Ha2 H2 Q2)|].
  exact (active_running Q _ _ (with_stack pt ts) _ _ _ Hpc2 H1 Ha2 (Q1 _)).
Qed.
Lemma br_if_proceeds c o pt ts pre d fs info pc : _pc c = CodeAt o ->
  activation c (pt_locals pt) (pt_results pt) (types.i32 :: ts) pre d fs ->
  type_at G (o + 1) = Some (with_stack pt ts) -> check_branch m G pt ts info pc = true ->
  (forall b, Q b (o + 1) fs) -> (forall b, Q b (code_base m + pc) fs) -> proceeds Q (exec_br_if info pc 0 c).
Proof.
  intros Hpc Ha H1 H2 Q1 Q2. unfold exec_br_if.
  destruct (i32_pop _ _ _ _ _ _ _ Ha) as (v & c2 & E & _ & [Hpc2 _] & Ha2). rewrite (bind_Ok _ _ _ _ _ E). cbn [is_true].
  rewrite bind_ret. rewrite Hpc in Hpc2. destruct (negb (v =? 0)); [exact (branch_proceeds _ _ _ _ _ _ _ _ Ha2 H2 Q2)|].
  rewrite (inc_pc_at c2 o 1 Hpc2). eapply active_running; [reflexivity|exact H1| |apply Q1]. apply active_pc, Ha2.
Qed.
Lemma br_table_proceeds c pt ts pre d fs sz table :
  activation c (pt_locals pt) (pt_results pt) (types.i32 :: ts) pre d fs -> 0 <= sz -> vec_size table = sz + 1 ->
  (forall e, e ∈ table -> bt_eh_leave_count e = 0 /\ check_branch m G pt ts (bt_stack_pop e) (bt_pc e) = true) ->
  (forall e b, e ∈ table -> Q b (code_base m + bt_pc e) fs) ->
  proceeds Q (exec_br_table sz table c).
Proof.
  intros Ha H0 Hs Ht HQ. unfold exec_br_table.
  destruct (i32_pop _ _ _ _ _ _ _ Ha) as (v & c2 & E & [Hv0 _] & Hpc2 & Ha2). rewrite (bind_Ok _ _ _ _ _ E). cbn [to_ui32]. rewrite bind_ret.
  destruct (vec_lookup_range table (Z.min v sz)) as [e Ee]; [lia|]. rewrite (bind_Ok _ _ _ _ _ (vec_index_Ok _ _ _ c2 Ee)).
  assert (Hin : e ∈ table) by (apply vec_lookup_Some in Ee as [_ Ee]; eapply list_elem_of_lookup_2; eauto).
  destruct (Ht e Hin) as [Hl Hb]. rewrite Hl. exact (branch_proceeds _ _ _ _ _ _ _ _ Ha2 Hb (fun b => HQ e b Hin)).
Qed.

(** ** Returns *)
Lemma return_proceeds c L R ts rest pre d fs slots count x : activation c L R ts pre d fs ->
  strip (rev R) ts = Some rest -> slots = vec_size L + vec_size rest -> wrap 16 count = vec_size R ->
  (forall fs1 af o b, fs = (fs0 ++ fs1) ++ [af] -> af_pc af = CodeAt o -> Q b o (fs0 ++ fs1)) ->
  proceeds Q (step (return_ slots count x) c).
Proof.
  intros Ha Hst%strip_spec Hsl Hcnt HQ. pose proof (active_size _ _ _ _ _ _ _ Ha) as Hsz.
  destruct (active_holds _ _ _ _ _ _ _ Ha) as (locs & ops & Hh & Tl & To & Hlast). rewrite Hst in To.
  apply typed_app in To as (es & ops' & -> & Te & To). apply typed_rev in Te. rewrite rev_involutive in Te.
  pose proof (typed_size _ _ Te) as Hes. pose proof (typed_size _ _ To) as Hos. pose proof (typed_size _ _ Tl) as Hls.
  rewrite Hst in Hsz. assert (Hh' : holds c (pre ++ (locs ++ rev ops') ++ rev es)) by (rewrite rev_app_distr, <- !app_assoc in Hh; rewrite <- !app_assoc; exact Hh).
  assert (Hall : vec_size (pre ++ (locs ++ rev ops') ++ rev es) < 2 ^ 32)
    by (unfold vec_size in *; rewrite !length_app, !length_rev in *; lia).
  assert (Hlen : vec_size (rev es) < 2 ^ 16) by (rewrite Hes, <- Hcnt; apply Z.mod_pos_bound; lia).
  assert (Estep : step (return_ slots count x) c = step (return_ (vec_size (locs ++ rev ops')) (vec_size (rev es)) 0) c).
  { cbn [step]. rewrite Hcnt, Hes, (wrap_small 16 (vec_size R)) by (rewrite <- Hcnt; apply Z.mod_pos_bound; lia).
    f_equal. rewrite Hsl. unfold vec_size in *. rewrite length_app, length_rev. lia. }
  rewrite Estep. destruct Ha as [_ Hc Hfs [Hb Hr] _ He Hw].
  destruct Hc as [af Hp Hs|d R pre fs af o pt ts1 locs1 ops1 Hc Hp Ht Hstk Tl1 To1 Hi Hs];
    destruct (return_leaves c _ _ _ _ af Hh' Hfs Hall Hlen) as (s & a & -> & Ws & Vs & Wa & Va).
  - right. split; [exact Hp|]. split; [exact He|]. split; [exact Hw|]. exists (rev es). split; [split; assumption|exact Te].
  - destruct (callers_prefix _ _ _ _ Hc) as [fs1 Efs].
    apply (active_running Q _ o pt pre d fs); [exact Hp|exact Ht| |rewrite Efs; apply (HQ fs1 af); [now rewrite <- Efs|exact Hp]]. rewrite Hstk.
    destruct (typed_op m G F Hv _ _ Ht) as (_ & _ & _ & Hs'). rewrite Hstk in Hs'.
    apply callers_size in Hc as Hd. split; auto.
    + exists locs1, (es ++ ops1). destruct Tl1 as [Tl1 Ol1]. destruct To1 as [To1 Oo1].
      apply typed_rev in Te as [Te Oe]. rewrite rev_involutive in Te, Oe.
      split; [split; [exact Ws|rewrite rev_app_distr, app_assoc; exact Vs]|].
      split; [exact Tl1|]. split; [exact Ol1|]. split; [rewrite map_app; congruence|].
      split; [now apply Forall_app|]. split; [exact Hi|apply Hw].
    + split; assumption.
    + change (d + wrap 32 (_remaining_call_depth c + af_frame_size af) = D /\
        0 <= wrap 32 (_remaining_call_depth c + af_frame_size af)).
      rewrite wrap_small by (unfold in_u; lia). lia.
Qed.

(** ** Gas *)
Lemma gas_charge_halts b cost : world b ->
  match gas_charge cost b with Ok _ b' => world b' | Throw e _ => halts e | UB => False end.
Proof.
  intros Hw. pose proof (base_gas_charge cost b) as Hs. unfold gas_charge, bind, modify, get, throw, ret in *.
  match goal with |- context [if ?t then _ else _] => destruct t end.
  2:{ apply (world_step _ _ Hw Hs). destruct (wd_ready _ Hw). now split. }
  cbn [handler _gas] in *. match goal with |- context [handler ?g] => destruct (handler g) as [h|] eqn:Eh end; [|now right; left].
  match goal with |- context [h ?x ?y] => destruct (h x y) as [[c1 d1]|e] eqn:Ee end.
  - apply (world_step _ _ Hw Hs). destruct (wd_ready _ Hw). now split.
  - do 3 right. exact (wd_handler _ Hw _ _ _ _ Eh Ee).
Qed.
Lemma active_base c L R ts pre d fs b : activation c L R ts pre d fs -> world b -> activation (c <| _base := b |>) L R ts pre d fs.
Proof.
  intros [(locs & ops & Hh & T1 & O1 & T2 & O2 & Hi & _) Hc Hfs Hb Hs He _] Hw. split; auto.
  exists locs, ops. repeat (split; [assumption|]). apply Hw.
Qed.
Lemma gas_proceeds c L R ts pre d fs cost : activation c L R ts pre d fs ->
  match on_base (gas_charge cost) c with
  | Ok _ c' => _pc c' = _pc c /\ activation c' L R ts pre d fs | Throw e _ => halts e | UB => False end.
Proof.
  intros Ha. pose proof (gas_charge_halts _ cost (ac_world _ _ _ _ _ _ _ Ha)) as Hg. unfold on_base, zoom.
  destruct (gas_charge cost (_base c)); auto. split; [reflexivity|now apply active_base].
Qed.
(** The watermark plays no part in guarded memory. *)
Lemma watermark_guarded (b : base H) : ready b -> validate_read_watermark b = Ok tt b.
Proof. intros R. unfold validate_read_watermark, bind, get. now rewrite (rd_guarded _ R). Qed.
Lemma on_base_same {A} (op : M (base H) A) c a : op (_base c) = Ok a (_base c) -> on_base op c = Ok a c.
Proof. intros E. rewrite (on_base_ok _ _ _ _ E). now destruct c. Qed.

Lemma charge_prologue_proceeds c L R ts pre d fs i : activation c L R ts pre d fs -> is_Some (fn_type m i) ->
  match charge_prologue i c with
  | Ok _ c' => _pc c' = _pc c /\ activation c' L R ts pre d fs | Throw e _ => halts e | UB => False end.
Proof.
  intros Ha [ft Ht]. unfold charge_prologue, the_module, bind at 1, gets. rewrite (wd_mod _ (ac_world _ _ _ _ _ _ _ Ha)).
  destruct (Z.leb_spec (get_imported_functions_size m) i) as [Hl|_]; [|now split].
  destruct (fn_type_local m G F Hv i ft Ht Hl) as (fb & zs & Hfn & _).
  rewrite (bind_Ok _ _ _ _ _ (vec_index_Ok _ _ _ c (lf_body _ _ _ _ Hfn))). now apply gas_proceeds.
Qed.

(** ** Calls of defined functions *)
Lemma call_local_proceeds c o pt ts pre d fs i ft rest : _pc c = CodeAt o ->
  activation c (pt_locals pt) (pt_results pt) ts pre d fs -> fn_type m i = Some ft -> get_imported_functions_size m <= i ->
  strip (stack_params ft) ts = Some rest -> type_at G (o + 1) = Some (with_stack pt (stack_results ft ++ rest)) ->
  (forall fb af, local_fn m i ft fb -> af_pc af = CodeAt (o + 1) -> Q (_base c) (fb_code fb) (fs ++ [af])) ->
  proceeds Q (call_local i c).
Proof.
  intros Hpc Ha Hft Hi Hst%strip_spec Ht HQ. pose proof (active_size _ _ _ _ _ _ _ Ha) as Hsz.
  destruct (fn_type_local m G F Hv i ft Hft Hi) as (fb & zs & Hfn & Hz & Hen & Hpos).
  destruct (active_holds _ _ _ _ _ _ _ Ha) as (locs & ops & Hh & Tl & To & Hlast). subst ts.
  apply typed_app in To as (es & ops' & -> & Te & To). apply typed_rev in Te. unfold stack_params in Te. rewrite rev_involutive in Te.
  destruct Ha as [_ Hc Hfs [Hb Hr] _ He Hw]. rewrite <- (wd_mod _ Hw) in Hfn.
  destruct (Z.leb_spec (frame_size (_mod (_base c)) fb) (_remaining_call_depth c)) as [Hrem|Hrem].
  2:{ unfold call_local. rewrite (bind_Throw _ _ _ _ _ (push_call_overflow false c i ft fb Hfn ltac:(eauto) Hrem)). left. now left. }
  pose proof (typed_size _ _ Te) as Hes. pose proof (typed_size _ _ To) as Hos. pose proof (typed_size _ _ Tl) as Hls.
  rewrite rev_app_distr, app_assoc in Hh.
  destruct (call_local_enters c o ((pre ++ locs) ++ rev ops') (rev es) i ft fb zs fs)
    as (s & a & -> & Ws & Vs & Wa & Va); auto.
  { rewrite Hes. unfold vec_size. now rewrite length_map. }
  { unfold vec_size, stack_params in *. rewrite !length_app, !length_rev in *. lia. }
  apply (active_running Q _ (fb_code fb) (entry_point ft fb) ((pre ++ locs) ++ rev ops') (d + frame_size m fb)
    (fs ++ [{| af_pc := CodeAt (o + 1); af_last_op_index := _last_op_index c; af_frame_size := frame_size m fb |}]));
    [reflexivity|exact Hen| |rewrite (wd_mod _ Hw) in Hfn; now apply HQ]. rewrite (wd_mod _ Hw) in *.
  destruct (typed_op m G F Hv _ _ Hen) as (_ & _ & _ & Hs'). split; auto.
  - destruct (zero_locals_typed _ _ Hz) as [Tz Oz]. destruct Te as [Te Oe].
    exists (rev es ++ zs), []. split; [split; [exact Ws|]|].
    { etrans; [exact Vs|]. cbn [rev]. now rewrite app_nil_r, <- !app_assoc. }
    split; [rewrite map_app, Te, Tz; cbn; now rewrite map_app|]. split; [now apply Forall_app|].
    split; [reflexivity|]. split; [constructor|]. split; [reflexivity|apply Hw].
  - change (frame_size m fb) with (af_frame_size {| af_pc := CodeAt (o + 1); af_last_op_index := _last_op_index c; af_frame_size := frame_size m fb |}) at 1.
    eapply (callers_call d _ pre fs _ (o + 1) (with_stack pt (stack_results ft ++ rest)) rest locs ops'); auto.
  - split; assumption.
  - cbn. lia.
Qed.

(** ** Calls of host functions *)
Lemma type_check_typed ps c l args : holds c (l ++ args) -> map elem_type args = ps -> type_check_loop ps c = Ok tt c.
Proof.
  revert l args. induction ps as [|p ps IH]; intros l args Hh E; [reflexivity|].
  destruct args as [|e args]; [discriminate|]. injection E as E1 E2. cbn [type_check_loop].
  replace (length ps) with (length args) by (rewrite <- E2; symmetry; apply length_map).
  rewrite (bind_Ok _ _ _ _ _ (peek_holds c l e args Hh)), E1, Z.eqb_refl. cbn [psizam_assert]. rewrite bind_ret.
  apply (IH (l ++ [e]) args); [now rewrite <- app_assoc|exact E2].
Qed.
Lemma to_native_typed t e c : num_type t -> elem_type e = t -> exists v, to_native t e c = Ok v c.
Proof. intros [->|[->|[->| ->]]] E; destruct e; try discriminate E; eexists; reflexivity. Qed.
Lemma pop_native_typed ps acc c l args : holds c (l ++ args) -> map elem_type args = ps -> Forall num_type ps ->
  exists vs s, pop_native_args (rev ps) acc c = Ok vs (c <| _os := s |>) /\ holds (c <| _os := s |>) l.
Proof.
  revert acc c args. induction ps as [|p ps IH] using rev_ind; intros acc c args Hh E Hn.
  - apply map_eq_nil in E as ->. rewrite app_nil_r in Hh. exists acc, (_os c). split; [now destruct c|exact Hh].
  - apply map_eq_app in E as (args1 & r & -> & E1 & E2). destruct r as [|e [|? ?]]; try discriminate E2. injection E2 as E2.
    apply Forall_app in Hn as [Hn1 Hn2]. inversion_clear Hn2. rewrite rev_app_distr. cbn [rev app pop_native_args].
    rewrite app_assoc in Hh. destruct (pop_holds c _ e Hh) as (c1 & Ep & [Hh1 [s1 ->]]). rewrite (bind_Ok _ _ _ _ _ Ep).
    destruct (to_native_typed p e (c <| _os := s1 |>)) as [v Ev]; auto. rewrite (bind_Ok _ _ _ _ _ Ev).
    destruct (IH (v :: acc) (c <| _os := s1 |>) args1 Hh1 E1 Hn1) as (vs & s & -> & Hh2). exists vs, s. split; [reflexivity|exact Hh2].
Qed.
Lemma push_native_typed rets v c l : holds c l -> Forall num_type rets -> (length rets <= 1)%nat ->
  exists res s, push_native_result rets v c = Ok tt (c <| _os := s |>) /\ holds (c <| _os := s |>) (l ++ res) /\ typed res rets.
Proof.
  intros Hh Hn Hl. destruct rets as [|t [|? ?]]; [|inversion_clear Hn as [|? ? Ht _]|cbn in Hl; lia].
  - exists [], (_os c). rewrite app_nil_r. split; [now destruct c|]. split; [exact Hh|]. split; constructor.
  - assert (He : exists e, push_native_result [t] v = push_operand (H:=H) e /\ elem_type e = t /\ elem_ok e).
    { destruct Ht as [->|[->|[->| ->]]]; eexists; (split; [reflexivity|]); (split; [reflexivity|]); apply wrap_range; lia. }
    destruct He as (e & -> & Te & Oe). destruct (push_holds c l e Hh) as (c1 & -> & [Hh1 [s ->]]).
    exists [e], s. split; [reflexivity|]. split; [exact Hh1|]. split; [cbn; congruence|repeat constructor; exact Oe].
Qed.

Lemma host_call_proceeds c k args ft he : world (_base c) -> vec_lookup (_table (_base c)) k = Some he -> host_ok ft he ->
  match host_call k args c with
  | Ok _ c' => exists b, c' = c <| _base := b |> /\ world b | Throw e _ => halts e | UB => False end.
Proof.
  intros Hw Hk Ho. pose proof (ok_host_call k args c) as Hs. unfold host_call in *.
  assert (Ee : get_entry k c = Ok he c) by (unfold get_entry, bind, gets; now rewrite Hk).
  rewrite (bind_Ok _ _ _ _ _ Ee) in Hs |- *.
  destruct (he_call he) as [f|] eqn:Ef; [|right; right; now left].
  pose proof (ho_call _ _ Ho f args (_host (_base c)) (raw (_wasm_alloc (_base c))) Ef) as Hf.
  unfold bind, gets, modify in *. destruct (f args _ _) as [[r h] mem]. destruct Hf as [Hb Hx].
  destruct r as [v|e]; [|do 3 right; now apply Hx].
  eexists. split; [reflexivity|]. destruct Hs as [Hs _ _ _]. apply (world_step _ _ Hw Hs).
  destruct (wd_ready _ Hw) as [[A1 A2 A3 A4 A5] ? ? ? ? ? ? ?]. split; auto. split; auto.
Qed.

Lemma imported_stack_size {S} i (s : S) : i < get_imported_functions_size m -> exists n, get_function_stack_size m i s = Ok n s /\ 0 <= n.
Proof.
  intros Hi. unfold get_function_stack_size. destruct (m_stack_limit_is_bytes m); cbn [negb]; [|now exists 1].
  destruct (Z.ltb_spec i (get_imported_functions_size m)); [now exists 0|lia].
Qed.
Lemma rep_num ts : Forall num_type ts -> map rep_type ts = ts.
Proof. induction 1 as [|t ts Ht _ IH]; [reflexivity|]. cbn. rewrite IH. f_equal. now destruct Ht as [->|[->|[->| ->]]]. Qed.

Lemma call_host_proceeds c o pt ts pre d fs i ft rest : _pc c = CodeAt o ->
  activation c (pt_locals pt) (pt_results pt) ts pre d fs -> fn_type m i = Some ft -> i < get_imported_functions_size m ->
  strip (stack_params ft) ts = Some rest -> type_at G (o + 1) = Some (with_stack pt (stack_results ft ++ rest)) ->
  (forall b, Q b (o + 1) fs) -> proceeds Q (call_host i c).
Proof.
  intros Hpc Ha Hft Hi Hst%strip_spec Ht HQ. pose proof (ac_world _ _ _ _ _ _ _ Ha) as Hw.
  destruct (wd_linked _ Hw i ft Hi Hft) as (k & he & Hk & Hhe & Ho). pose proof (ho_num _ _ Ho) as (Np & Nr & Nl).
  destruct (active_holds _ _ _ _ _ _ _ Ha) as (locs & ops & Hh & Tl & To & Hlast). subst ts.
  apply typed_app in To as (es & ops' & -> & Te & To). apply typed_rev in Te.
  unfold stack_params in Te. rewrite rev_involutive, (rep_num _ Np) in Te.
  rewrite rev_app_distr, app_assoc in Hh. set (l := (pre ++ locs) ++ rev ops') in *.
  unfold call_host, the_module. unfold bind at 1, gets at 1. rewrite (wd_mod _ Hw).
  rewrite (bind_Ok _ _ _ _ _ (fn_type_get m i ft c Hft)).
  rewrite (bind_Ok _ _ _ _ _ (type_check_typed _ c l (rev es) Hh (proj1 Te))).
  rewrite (bind_Ok _ _ _ _ _ (inc_pc_at c o 1 Hpc)). set (c1 := c <| _pc := _ |>).
  destruct (imported_stack_size i c1 Hi) as (n & En & Hn). rewrite (bind_Ok _ _ _ _ _ En).
  unfold bind at 1, gets at 1. change (_remaining_call_depth c1) with (_remaining_call_depth c). cbv zeta.
  destruct (n <=? _remaining_call_depth c); [|left; now left]. cbn [psizam_assert]. rewrite bind_ret. unfold modify at 1.
  unfold bind at 1. set (c2 := c1 <| _remaining_call_depth := _ |>).
  destruct (push_frame_view c2 fs {| af_pc := CodeNull; af_last_op_index := 0; af_frame_size := n |}
    (ac_frames _ _ _ _ _ _ _ Ha)) as (a & Ea & Wa & Va). rewrite (bind_Ok _ _ _ _ _ Ea). set (c3 := c2 <| _as := a |>).
  rewrite (bind_Ok _ _ _ _ _ (vec_index_Ok _ _ _ c3 Hk)).
  assert (Ee : get_entry k c3 = Ok he c3) by (unfold get_entry, bind, gets; cbn; now rewrite Hhe).
  rewrite (bind_Ok _ _ _ _ _ Ee). rewrite (ho_params _ _ Ho), (ho_ret _ _ Ho).
  assert (Hh3 : holds c3 (l ++ rev es)) by exact Hh.
  destruct (pop_native_typed _ [] c3 l (rev es) Hh3 (proj1 Te) Np) as (vs & s4 & E4 & Hh4). rewrite (bind_Ok _ _ _ _ _ E4).
  set (c4 := c3 <| _os := s4 |>) in *.
  rewrite (bind_Ok _ _ _ _ _ (on_base_same _ c4 tt (watermark_guarded _ (wd_ready _ Hw)))). unfold bind at 1.
  pose proof (host_call_proceeds c4 k vs ft he Hw Hhe Ho) as Hc. destruct (host_call k vs c4) as [v c5|e c5|]; [|exact Hc|exact Hc].
  destruct Hc as (b & -> & Hwb). set (c5 := c4 <| _base := b |>).
  destruct (push_native_typed _ v c5 l Hh4 Nr Nl) as (res & s6 & E6 & Hh6 & Tr). rewrite (bind_Ok _ _ _ _ _ E6).
  set (c6 := c5 <| _os := s6 |>) in *.
  destruct (pop_call_view c6 fs {| af_pc := CodeNull; af_last_op_index := 0; af_frame_size := n |} (conj Wa Va))
    as (a7 & E7 & Wa7 & Va7). rewrite (bind_Ok _ _ _ _ _ E7). unfold ret.
  apply (active_running Q _ (o + 1) (with_stack pt (stack_results ft ++ rest)) pre d fs); [reflexivity|exact Ht| |apply HQ].
  destruct (typed_op m G F Hv _ _ Ht) as (_ & _ & _ & Hs').
  destruct Ha as [_ Hc Hfs Hb _ He _]. destruct To as [To Oo]. destruct Tl as [Tl Ol]. destruct Tr as [Tr Or]. split; auto.
  - exists locs, (rev res ++ ops'). split; [split; [apply Hh6|]|].
    { rewrite rev_app_distr, rev_involutive, app_assoc. apply Hh6. }
    split; [exact Tl|]. split; [exact Ol|]. unfold stack_results. cbn [with_stack pt_stack]. rewrite (rep_num _ Nr), <- Tr, map_app, map_rev, To.
    split; [reflexivity|]. split; [apply Forall_app; split; [now apply Forall_rev|exact Oo]|]. split; [exact Hlast|apply Hwb].
  - split; assumption.
Qed.

(** A call of [i] from [o] with callers [fs] is charged and enters it, or is a
    host call. *)
Definition call_leads (b : base H) (o : Z) (fs : list activation_frame) (i : Z) : Prop :=
  (forall b', Q b' (o + 1) fs) /\
  (forall c c1 ft fb af, _base c = b -> charge_prologue i c = Ok tt c1 -> local_fn m i ft fb -> af_pc af = CodeAt (o + 1) ->
     Q (_base c1) (fb_code fb) (fs ++ [af])).
Lemma call_proceeds c o pt ts pre d fs i ft : _pc c = CodeAt o ->
  activation c (pt_locals pt) (pt_results pt) ts pre d fs -> fn_type m i = Some ft ->
  check_call G pt o ft ts = true -> call_leads (_base c) o fs i -> proceeds Q (call i c).
Proof.
  intros Hpc Ha Hft. unfold check_call. destruct (strip (stack_params ft) ts) as [rest|] eqn:Es; [|discriminate].
  intros Ht%flows_at [Qh Ql]. unfold call, bind at 1. pose proof (charge_prologue_proceeds c _ _ _ _ _ _ i Ha ltac:(eauto)) as Hg.
  destruct (charge_prologue i c) as [[] c1|e c1|] eqn:Ec; [|exact Hg|exact Hg]. destruct Hg as [Hpc1 Ha1]. rewrite Hpc in Hpc1.
  unfold the_module, bind, gets. rewrite (wd_mod _ (ac_world _ _ _ _ _ _ _ Ha1)).
  destruct (Z.ltb_spec i (get_imported_functions_size m));
    [eapply call_host_proceeds|eapply call_local_proceeds]; eauto.
Qed.

(** ** Indirect calls *)
Lemma table_elem_proceeds c v t : world (_base c) -> 0 <= v -> 0 <= t < vec_size (m_tables m) ->
  match on_base (table_elem v t) c with Ok fn c' => c' = c /\ in_u 32 fn | Throw e _ => halts e | UB => False end.
Proof.
  intros Hw Hv0 Ht. destruct (wd_tables _ Hw) as (Es & _ & _).
  destruct (vec_lookup_range (_table_data (_base c)) t) as [tbl Etbl]; [unfold vec_size in *; rewrite (wd_ntables _ Hw); lia|].
  assert (Esz : vec_lookup (_table_sizes (_base c)) t = Some (vec_size tbl)) by now rewrite Es, vec_lookup_map, Etbl.
  unfold on_base, zoom, table_elem, table_size_at, table_load, get_table_base, bind, get.
  rewrite (vec_index_Ok _ _ _ _ Esz). destruct (Z.ltb_spec v (vec_size tbl)); [|left; now left]. cbn [psizam_assert ret].
  destruct (vec_lookup_range tbl v) as [e Ee]; [lia|]. pose proof (vec_lookup_lt _ _ _ Etbl) as Hlt.
  replace ((if t =? 0 then ret tt else psizam_assert (t <? vec_size (_table_data (_base c))) wasm_interpreter_exception
    "table index out of range") (_base c)) with (Ok (A:=unit) tt (_base c)).
  - rewrite Etbl, (vec_index_Ok _ _ _ _ Ee). split; [now destruct c|apply wrap_range; lia].
  - destruct (t =? 0); [reflexivity|]. destruct (Z.ltb_spec t (vec_size (_table_data (_base c)))); [reflexivity|unfold vec_size in *; lia].
Qed.

Lemma call_indirect_proceeds c o pt ts pre d fs i ft : _pc c = CodeAt o ->
  activation c (pt_locals pt) (pt_results pt) (types.i32 :: ts) pre d fs ->
  vec_lookup (m_types m) (Z.land i 0xFFFF) = Some ft -> 0 <= Z.shiftr i 16 < vec_size (m_tables m) ->
  check_call G pt o ft ts = true -> (forall j, call_leads (_base c) o fs j) -> proceeds Q (exec_call_indirect i c).
Proof.
  intros Hpc Ha Hft Hti Hcc HQ. unfold exec_call_indirect, resolve_indirect. cbv zeta. rewrite bind_assoc.
  destruct (i32_pop _ _ _ _ _ _ _ Ha) as (v & c1 & E & [Hv0 _] & [Hpc1 Eb1] & Ha1). rewrite (bind_Ok _ _ _ _ _ E).
  cbn [to_ui32]. rewrite bind_assoc, bind_ret, bind_assoc. unfold bind at 1.
  pose proof (ac_world _ _ _ _ _ _ _ Ha1) as Hw. pose proof (table_elem_proceeds c1 v _ Hw Hv0 Hti) as Hte.
  destruct (on_base (table_elem v (Z.shiftr i 16)) c1) as [fn c2|e c2|]; [|exact Hte|exact Hte]. destruct Hte as [-> [Hf0 _]].
  rewrite bind_assoc. unfold the_module, bind at 1, gets. rewrite (wd_mod _ Hw), bind_assoc.
  destruct (Z.ltb_spec fn (get_functions_total m)) as [Hlt|_]; [|left; now left]. cbn [psizam_assert]. rewrite bind_ret, bind_assoc.
  unfold vec_at. rewrite Hft, bind_ret, bind_assoc. destruct (fn_type_total m G F Hv fn) as [fa Hfa]; [lia|].
  rewrite (bind_Ok _ _ _ _ _ (fn_type_get m fn fa c1 Hfa)), bind_assoc.
  destruct (func_type_eqb fa ft) eqn:Eq; [|left; now left]. cbn [psizam_assert]. rewrite !bind_ret.
  apply func_type_eqb_spec in Eq as (_ & Ep & Er); [|exact (proj1 (fn_checked m G F Hv fn fa Hfa))|now apply (checked_type m G F Hv) in Hft].
  apply (call_proceeds c1 o pt ts pre d fs fn fa); [congruence|exact Ha1|exact Hfa| |rewrite Eb1; apply HQ]. revert Hcc. unfold check_call, stack_params, stack_results. now rewrite Ep, Er.
Qed.

(** The entry function, once its arguments are pushed and its frame is made. *)
Lemma entry_proceeds c pre d fs i ft :
  activation c (map rep_type (param_types ft)) (map rep_type (return_types ft)) [] pre d fs ->
  fn_type m i = Some ft -> get_imported_functions_size m <= i ->
  exists c' fb, local_fn m i ft fb /\ running c' (fb_code fb) fs /\ _base c' = _base c /\
    forall k : M (ctx H) unit, (let* pc := get_function_pc m i in set_pc pc ;;; setup_locals i ;;; k) c = k c'.
Proof.
  intros Ha Hft Hi. destruct (fn_type_local m G F Hv i ft Hft Hi) as (fb & zs & Hfn & Hz & Hen & _).
  pose proof Hfn as Hfn'. apply (active_pc _ _ _ _ _ _ _ (CodeAt (fb_code fb))) in Ha. set (c1 := c <| _pc := _ |>) in *.
  destruct (active_holds _ _ _ _ _ _ _ Ha) as (locs & ops & Hh & [Tl Ol] & [To _] & Hlast). apply map_eq_nil in To as ->.
  cbn [rev] in Hh. rewrite app_nil_r in Hh. rewrite <- (wd_mod _ (ac_world _ _ _ _ _ _ _ Ha)) in Hfn.
  destruct (setup_locals_enters c1 i ft fb zs _ Hfn Hz Hh) as (c2 & E2 & [Hh2 [s ->]]). exists (c1 <| _os := s |>), fb.
  split; [exact Hfn'|]. split; [|split; [reflexivity|]].
  2:{ intros k. rewrite (bind_Ok _ _ _ _ _ (local_fn_pc _ _ _ _ c Hfn')). unfold set_pc, modify. unfold bind at 1.
      fold c1. now rewrite (bind_Ok _ _ _ _ _ E2). }
  exists (entry_point ft fb), pre, d. split; [reflexivity|]. split; [exact Hen|].
  destruct (typed_op m G F Hv _ _ Hen) as (_ & _ & _ & Hs'). destruct (zero_locals_typed _ _ Hz) as [Tz Oz].
  destruct Ha as [_ Hc Hfs Hb _ He Hw]. split; auto. exists (locs ++ zs), [].
  split; [cbn [rev]; rewrite app_nil_r, app_assoc; exact Hh2|].
  split; [cbn [entry_point pt_locals]; rewrite !map_app, Tl, Tz; reflexivity|]. split; [now apply Forall_app|].
  split; [reflexivity|]. split; [constructor|]. split; [exact Hlast|apply Hw].
Qed.

(** ** One instruction, the dispatch loop *)
Lemma in_second {A} (x y : A) l : y ∈ x :: y :: l.
Proof. apply list_elem_of_further, list_elem_of_here. Qed.
Lemma step_proceeds c o pt pre d fs op : _pc c = CodeAt o ->
  activation c (pt_locals pt) (pt_results pt) (pt_stack pt) pre d fs -> check_op m G o pt op = true ->
  (forall b o', o' ∈ succs m o op -> Q b o' fs) ->
  (forall fs1 af o' b, fs = (fs0 ++ fs1) ++ [af] -> af_pc af = CodeAt o' -> Q b o' (fs0 ++ fs1)) ->
  (forall j c1 c2 ft fb af, _base c1 = _base c -> charge_prologue j c1 = Ok tt c2 -> local_fn m j ft fb -> af_pc af = CodeAt (o + 1) ->
     is_call op = true -> Q (_base c2) (fb_code fb) (fs ++ [af])) ->
  proceeds Q (step op c).
Proof.
  intros Hpc Ha Hck Qs Qr Qc.
  assert (Qn : o + 1 ∈ succs m o op -> forall b, Q b (o + 1) fs) by (intros Hin b; now apply Qs).
  assert (Ql : is_call op = true -> o + 1 ∈ succs m o op -> forall j, call_leads (_base c) o fs j)
    by (intros Hc Hin j; split; [now apply Qn|intros; now apply (Qc j c0 c1 ft fb af)]).
  assert (Hline : forall st, step_type m (pt_locals pt) op (pt_stack pt) = Some st -> flows G (o + 1) (with_stack pt st) = true ->
    o + 1 ∈ succs m o op -> proceeds Q (step op c))
    by (intros st Hst Hfl%flows_at Hin; exact (straight_proceeds op c o _ _ _ st pre d fs Hpc Ha Hst Hfl (Qn Hin))).
  destruct op; cbn [check_op] in Hck;
    try (destruct (step_type m (pt_locals pt) _ (pt_stack pt)) as [st|]; [exact (Hline st eq_refl Hck (list_elem_of_here _ _))|discriminate]);
    clear Hline; cbn [step].
  - rewrite (bind_Ok _ _ _ _ _ (inc_pc_at c o 1 Hpc)). left. now left.
  - destruct (strip _ _) as [rest|] eqn:Es; [|discriminate]. apply andb_true_iff in Hck as [H1%Z.eqb_eq H2%Z.eqb_eq].
    exact (return_proceeds c _ _ _ rest pre d fs data pc stacksz Ha Es H1 H2 Qr).
  - apply flows_at in Hck. pose proof (wd_ready _ (ac_world _ _ _ _ _ _ _ Ha)) as Hr.
    rewrite (bind_Ok _ _ _ _ _ (on_base_same _ c tt (watermark_guarded _ Hr))). unfold bind at 1.
    pose proof (gas_proceeds c _ _ _ _ _ _ cost Ha) as Hg.
    destruct (on_base (gas_charge cost) c) as [[] c1|e c1|]; [|exact Hg|exact Hg]. destruct Hg as [Hpc1 Ha1].
    rewrite (inc_pc_at c1 o 1 ltac:(congruence)). eapply active_running; [reflexivity|exact Hck|apply active_pc, Ha1|apply Qn, list_elem_of_here].
  - destruct (pt_stack pt) as [|t st]; [discriminate|]. rewrite !andb_true_iff in Hck.
    destruct Hck as [[->%Z.eqb_eq H1%flows_at] H2%flows_at]. exact (if_proceeds c o pt st pre d fs pc Hpc Ha H1 H2 (Qn (list_elem_of_here _ _)) (fun b => Qs b _ (in_second _ _ _))).
  - apply flows_at in Hck. destruct pt. exact (goto_proceeds c _ _ _ pre d fs pc Ha Hck (fun b => Qs b _ (list_elem_of_here _ _))).
  - exact (branch_proceeds c pt _ pre d fs data pc Ha Hck (fun b => Qs b _ (list_elem_of_here _ _))).
  - destruct (pt_stack pt) as [|t st]; [discriminate|]. rewrite !andb_true_iff in Hck.
    destruct Hck as [[[->%Z.eqb_eq ->%Z.eqb_eq] H1%flows_at] H2]. exact (br_if_proceeds c o pt st pre d fs data pc Hpc Ha H1 H2 (Qn (list_elem_of_here _ _)) (fun b => Qs b _ (in_second _ _ _))).
  - destruct (pt_stack pt) as [|t st]; [discriminate|]. rewrite !andb_true_iff, forallb_forall in Hck.
    destruct Hck as [[[->%Z.eqb_eq H1%Z.leb_le] H2%Z.eqb_eq] H3]. apply (br_table_proceeds c pt st pre d fs); auto.
    + intros e He%list_elem_of_In. specialize (H3 e He). now rewrite andb_true_iff, Z.eqb_eq in H3.
    + intros e b He. apply Qs. apply list_elem_of_fmap. eauto.
  - destruct (fn_type m index) as [ft|] eqn:Ef; [|discriminate]. exact (call_proceeds c o pt _ pre d fs index ft Hpc Ha Ef Hck (Ql eq_refl (list_elem_of_here _ _) index)).
  - destruct (vec_lookup (m_types m) _) as [ft|] eqn:Ef; [|discriminate]. destruct (pt_stack pt) as [|t st]; [discriminate|].
    rewrite !andb_true_iff in Hck. destruct Hck as [[[->%Z.eqb_eq H1%Z.leb_le] H2%Z.ltb_lt] H3].
    exact (call_indirect_proceeds c o pt st pre d fs index ft Hpc Ha Ef (conj H1 H2) H3 (Ql eq_refl (list_elem_of_here _ _))).
Qed.

End Steps.

Lemma run_proceeds n c o fs : running c o fs ->
  match run n c with Ok _ c' => finished c' | Throw e _ => stops e | UB => False end.
Proof.
  revert c o fs. induction n as [|n IH]; intros c o fs (pt & pre & d & Hpc & Ht & Ha);
    destruct (typed_op m G F Hv o pt Ht) as (op & Hop & Hck & _);
    pose proof (ac_world _ _ _ _ _ _ _ Ha) as Hw; rewrite <- (wd_mod _ Hw) in Hop;
    assert (Hne : op <> exit_) by (intros ->; discriminate Hck).
  - cbn [run]. unfold fetch, the_module, bind, gets. rewrite Hpc, (vec_index_Ok _ _ _ _ Hop).
    destruct op; try congruence; now right.
  - rewrite (run_step op o c n Hpc Hop Hne). unfold bind.
    pose proof (step_proceeds (fun _ _ _ => True) c o pt pre d fs op Hpc Ha Hck
      ltac:(intros; exact I) ltac:(intros; exact I) ltac:(intros; exact I)) as S1.
    destruct (step op c) as [[] c1|e c1|]; [|now left|exact S1]. destruct S1 as [(o1 & fs1 & S1 & _)|S1]; [eapply IH, S1|].
    rewrite (run_finished n c1); [exact S1|apply S1].
Qed.
End Program.

(** ** [execute] *)
Definition result_typed (ft : func_type) (r : option elem) : Prop :=
  match return_types ft, r with
  | [], None => True
  | t :: _, Some e => elem_type e = rep_type t /\ elem_ok e
  | _, _ => False
  end.

Section Execute.
Context {SF : SoftFloat} {HF : HostFloat} {H : Type}.
Implicit Types c : ctx H.

Lemma cleanup_keeps c c2 c3 : cleanup c c2 = Ok tt c3 ->
  _base c3 = _base c2 /\ stk_step (_os c2) (_os c3) /\ stk_step (_as c2) (_as c3).
Proof.
  unfold cleanup, bind, gets, modify, on_os, on_as, zoom. cbv zeta. cbn [_as _os_index _as_index].
  pose proof (stk_eat (_os_index c2) (_os c2)) as So. destruct (eat _ (_os c2)) as [[] so| |]; try discriminate.
  pose proof (stk_eat (_as_index c2) (_as c2)) as Sa. cbn. destruct (eat _ (_as c2)) as [[] sa| |]; try discriminate.
  intros [= <-]. auto.
Qed.

(** Elements are never of a reference type. *)
Lemma rep_elems args : map rep_type (map elem_type args) = map elem_type args.
Proof. rewrite map_map. apply map_ext. now intros []. Qed.

(** The end of [execute_body]: the first result is returned. *)
Lemma results_popped c pre0 res ft : holds c (pre0 ++ res) -> typed res (map rep_type (return_types ft)) ->
  return_count ft = vec_size (return_types ft) -> _exiting c = false ->
  exists r c', (let* exiting := gets _exiting in
    if negb (return_count ft =? 0) && negb exiting then
      let* first := peek_operand (Z.to_nat (return_count ft - 1)) in
      let* _ := pop_n (Z.to_nat (return_count ft)) [] in ret (Some first)
    else ret None) c = Ok r c' /\ result_typed ft r /\ _base c' = _base c.
Proof.
  intros Hh Tr Hrc He. unfold bind at 1, gets. rewrite He, andb_true_r, Hrc. unfold result_typed.
  assert (Hlen : length res = length (return_types ft)) by (destruct Tr as [E _]; apply (f_equal length) in E; now rewrite !length_map in E).
  destruct (return_types ft) as [|t ts]; [exists None, c; auto|]. apply typed_uncons in Tr as (e & res' & -> & Te & Oe & _).
  cbn [length] in Hlen. replace (vec_size (t :: ts) =? 0) with false by (symmetry; apply Z.eqb_neq; unfold vec_size; cbn; lia).
  cbn [negb]. replace (Z.to_nat (vec_size (t :: ts) - 1)) with (length res') by (unfold vec_size; cbn; lia).
  replace (Z.to_nat (vec_size (t :: ts))) with (length (e :: res')) by (unfold vec_size; cbn; lia).
  rewrite (bind_Ok _ _ _ _ _ (peek_holds c pre0 e res' Hh)).
  destruct (pop_n_holds c pre0 (e :: res') [] Hh) as (c1 & E1 & [_ [s ->]]). rewrite (bind_Ok _ _ _ _ _ E1).
  eexists _, _. split; [reflexivity|]. auto.
Qed.

Context (m : module) (G : typing) (F : Z) (foreign : exn -> Prop) (Hv : verify m G F = true).

(** What the caller of [execute] provides. *)
Record callable c : Prop := {
  cl_world : world m foreign (_base c);
  cl_exiting : _exiting c = false;
  cl_stacks : stack_wf (_os c) /\ stack_wf (_as c);
  cl_depth : 0 <= _remaining_call_depth c < 2 ^ 32;
  cl_space : 0 <= F /\ size (_os c) + _remaining_call_depth c * F < 2 ^ 32 }.

Lemma callable_bounds c : callable c ->
  0 <= F /\ vec_size (view (_os c)) + _remaining_call_depth c * F < 2 ^ 32 /\ _remaining_call_depth c < 2 ^ 32.
Proof. intros [_ _ [Wo _] Hd [HF0 Hsp]]. rewrite <- (view_size _ Wo). lia. Qed.

(** How the results of the entry function leave [execute_body]. *)
Definition take_results (i : Z) : M (ctx H) (option elem) :=
  let* ft := get_function_type m i in
  let* exiting := gets _exiting in
  if negb (return_count ft =? 0) && negb exiting then
    let* first := peek_operand (Z.to_nat (return_count ft - 1)) in
    let* _ := pop_n (Z.to_nat (return_count ft)) [] in ret (Some first)
  else ret None.

(** The checks of [execute_body], and the entry function's frame. *)
Definition enter_frame (i : Z) (args : list elem) : M (ctx H) unit :=
  let* m := the_module in
  let* ft := get_function_type m i in
  type_check_args ft args ;;; push_all args ;;; push_call true i.

Lemma enter_frame_sound i args ft c : callable c -> fn_type m i = Some ft -> get_imported_functions_size m <= i ->
  Forall elem_ok args ->
  match enter_frame i args c with
  | Ok _ c2 => _base c2 = _base c /\ exists d af, af_pc af = CodeHalt /\
      activation m G F foreign (view (_os c)) (view (_as c)) (map rep_type (return_types ft)) (_remaining_call_depth c) c2
        (map rep_type (param_types ft)) (map rep_type (return_types ft)) [] (view (_os c)) d (view (_as c) ++ [af])
  | Throw e _ => halts foreign e
  | UB => False
  end.
Proof.
  intros [Hw He [Wo Wa] Hd [HF0 Hsp]] Hft Hi Hok. unfold enter_frame, the_module. unfold bind at 1, gets at 1.
  rewrite (wd_mod _ _ _ Hw), (bind_Ok _ _ _ _ _ (fn_type_get m i ft c Hft)). unfold type_check_args. rewrite bind_assoc.
  destruct (Z.eqb_spec (vec_size args) (vec_size (param_types ft))) as [Hn|]; [|left; now left]. cbn [psizam_assert]. rewrite bind_ret.
  destruct (bool_decide_reflect (map elem_type args = param_types ft)) as [Hta|]; [|left; now left]. cbn [psizam_assert]. rewrite bind_ret.
  set (pre0 := view (_os c)). assert (Hh : holds c pre0) by (split; auto).
  destruct (push_all_holds c pre0 args Hh) as (c1 & E1 & [Hh1 [s1 ->]]). rewrite (bind_Ok _ _ _ _ _ E1). set (c1 := c <| _os := s1 |>) in *.
  destruct (fn_type_local m G F Hv i ft Hft Hi) as (fb & zs & Hfn & Hz & Hen & Hpos).
  assert (Hfn' : local_fn (_mod (_base c1)) i ft fb) by (cbn; now rewrite (wd_mod _ _ _ Hw)).
  set (rem := _remaining_call_depth c) in *. assert (Hsz : size (_os c) = vec_size pre0) by now apply view_size.
  destruct (Z.leb_spec (frame_size m fb) rem) as [Hrem|Hrem].
  2:{ rewrite (push_call_overflow true c1 i ft fb Hfn' ltac:(auto) ltac:(cbn; now rewrite (wd_mod _ _ _ Hw))).
      left. now left. }
  destruct (typed_op m G F Hv _ _ Hen) as (_ & _ & _ & HsF). cbn [entry_point pt_locals pt_stack] in HsF.
  assert (Hp0 : vec_size pre0 < 2 ^ 32) by (unfold vec_size in *; nia).
  destruct (push_call_enters true CodeHalt c1 pre0 args i ft fb (view (_as c)) Hfn' eq_refl Hh1 Hn Hp0 (conj Wa eq_refl)
    ltac:(cbn; now rewrite (wd_mod _ _ _ Hw))) as (a & E2 & Wa2 & Va2).
  rewrite E2. change (_mod (_base c1)) with (_mod (_base c)) in *. rewrite (wd_mod _ _ _ Hw) in *.
  set (af := {| af_pc := CodeHalt; af_last_op_index := _; af_frame_size := _ |}) in Va2.
  set (c2 := c1 <| _as := a |> <| _last_op_index := _ |> <| _remaining_call_depth := _ |>).
  assert (Ha : activation m G F foreign pre0 (view (_as c)) (map rep_type (return_types ft)) rem c2
    (map rep_type (param_types ft)) (map rep_type (return_types ft)) [] pre0 (frame_size m fb) (view (_as c) ++ [af])).
  { split; auto.
    - exists args, []. cbn [rev]. rewrite app_nil_r. split; [exact Hh1|]. rewrite <- Hta, rep_elems.
      split; [reflexivity|]. split; [exact Hok|]. repeat (split; [constructor || reflexivity|]). apply Hw.
    - exact (callers_exit G pre0 (view (_as c)) (map rep_type (return_types ft)) af eq_refl Hpos).
    - split; assumption.
    - cbn. lia.
    - unfold vec_size in *. rewrite map_app, length_app in HsF. cbn in *. lia. }
  split; [reflexivity|]. exists (frame_size m fb), af. auto.
Qed.
Lemma execute_body_split loop i args c : _mod (_base c) = m -> get_imported_functions_size m <= i ->
  match enter_frame i args c with
  | Ok _ c2 => execute_body loop i args c =
      (charge_prologue i ;;; (let* pc := get_function_pc m i in set_pc pc ;;; setup_locals i ;;; loop) ;;; take_results i) c2
  | Throw e c' => execute_body loop i args c = Throw e c'
  | UB => execute_body loop i args c = UB
  end.
Proof.
  intros Hm Hi. unfold enter_frame, execute_body, take_results, the_module, bind, gets. rewrite Hm.
  destruct (get_function_type m i c) as [ft c1|e c1|]; [|reflexivity|reflexivity].
  destruct (type_check_args ft args c1) as [[] c2|e c2|]; [|reflexivity|reflexivity].
  destruct (push_all args c2) as [[] c3|e c3|]; [|reflexivity|reflexivity].
  destruct (push_call true i c3) as [[] c4|e c4|]; [|reflexivity|reflexivity].
  destruct (Z.ltb_spec i (get_imported_functions_size m)); [lia|reflexivity].
Qed.

(** [execute_body] stops before the first instruction, or charges the function
    and enters it. *)
Lemma execute_body_enters i args ft c : callable c -> fn_type m i = Some ft -> get_imported_functions_size m <= i ->
  Forall elem_ok args ->
  (exists e c', halts foreign e /\ forall loop, execute_body loop i args c = Throw e c') \/
  exists c2 c3 c4 fb af, _base c2 = _base c /\ charge_prologue i c2 = Ok tt c3 /\ _base c4 = _base c3 /\
    local_fn m i ft fb /\ af_pc af = CodeHalt /\
    running m G F foreign (view (_os c)) (view (_as c)) (map rep_type (return_types ft)) (_remaining_call_depth c) c4
      (fb_code fb) (view (_as c) ++ [af]) /\
    forall loop, execute_body loop i args c = (loop ;;; take_results i) c4.
Proof.
  intros Hcl Hft Hi Hok. pose proof (enter_frame_sound i args ft c Hcl Hft Hi Hok) as He.
  pose proof (fun loop => execute_body_split loop i args c (wd_mod _ _ _ (cl_world _ Hcl)) Hi) as Hs.
  destruct (enter_frame i args c) as [[] c2|e c2|]; [|left; eauto|contradiction]. destruct He as (Eb2 & d & af & Hp & Ha).
  pose proof (charge_prologue_proceeds m G F Hv foreign _ _ _ _ c2 _ _ _ _ _ _ i Ha ltac:(eauto)) as Hg.
  destruct (charge_prologue i c2) as [[] c3|e c3|] eqn:Ec; [| |contradiction].
  2:{ left. exists e, c3. split; [exact Hg|]. intros loop. rewrite Hs. now rewrite (bind_Throw _ _ _ _ _ Ec). }
  destruct Hg as [_ Ha3].
  destruct (entry_proceeds m G F Hv foreign _ _ _ _ c3 _ _ _ i ft Ha3 Hft Hi) as (c4 & fb4 & Hfn4 & Hrun & Eb & Hk).
  right. exists c2, c3, c4, fb4, af. repeat (split; [assumption || reflexivity|]). intros loop. rewrite Hs, (bind_Ok _ _ _ _ _ Ec).
  specialize (Hk loop). unfold bind at 1. rewrite Hk. reflexivity.
Qed.

Lemma take_results_sound c pre0 i ft : fn_type m i = Some ft -> finished m foreign pre0 (map rep_type (return_types ft)) c ->
  exists r c', take_results i c = Ok r c' /\ result_typed ft r /\ world m foreign (_base c').
Proof.
  intros Hft (_ & He & Hw & res & Hh & Tr). unfold take_results. rewrite (bind_Ok _ _ _ _ _ (fn_type_get m i ft c Hft)).
  destruct (results_popped c pre0 res ft Hh Tr (proj2 (fn_checked m G F Hv i ft Hft)) He) as (r & c' & E & Hres & Eb).
  exists r, c'. rewrite Eb. auto.
Qed.

Lemma execute_body_sound fuel i args ft c : callable c -> fn_type m i = Some ft -> get_imported_functions_size m <= i ->
  Forall elem_ok args ->
  match execute_body (run fuel) i args c with
  | Ok r c' => result_typed ft r /\ world m foreign (_base c')
  | Throw e _ => stops foreign e
  | UB => False
  end.
Proof.
  intros Hcl Hft Hi Hok. destruct (execute_body_enters i args ft c Hcl Hft Hi Hok) as [(e & c' & He & ->)|Hen]; [now left|].
  destruct Hen as (c2 & c3 & c4 & fb & af & _ & _ & _ & _ & _ & Hrun & ->). destruct (callable_bounds c Hcl) as (H1 & H2 & H3).
  unfold bind. pose proof (run_proceeds m G F Hv foreign _ _ _ _ H1 H2 H3 fuel c4 _ _ Hrun) as Hr.
  destruct (run fuel c4) as [[] c5|e c5|]; [|exact Hr|exact Hr].
  destruct (take_results_sound c5 _ i ft Hft Hr) as (r & c6 & -> & Hres). exact Hres.
Qed.

Lemma execute_sound fuel i args ft c : callable c -> fn_type m i = Some ft ->
  get_imported_functions_size m <= i -> Forall elem_ok args ->
  match execute (run fuel) i args c with
  | Ok r c' => result_typed ft r /\ callable c'
  | Throw e _ => stops foreign e
  | UB => False
  end.
Proof.
  intros Hcl Hft Hi Hok. unfold execute. destruct (negb _); [left; left; now left|].
  set (c1 := c <| _as_index := _ |> <| _os_index := _ |>). assert (Hcl1 : callable c1) by (destruct Hcl; now split).
  pose proof (execute_body_sound fuel i args ft c1 Hcl1 Hft Hi Hok) as Hs.
  pose proof (ok_execute_body (run fuel) i args (ok_run fuel) c1) as Hk. destruct Hcl as [_ He [Wo Wa] Hd Hsp].
  destruct (execute_body (run fuel) i args c1) as [r c2|e c2|]; [| |exact Hs];
    destruct (cleanup_restores c c2 Wo Wa Hk) as (c3 & E3 & Hf); rewrite E3; [|exact Hs].
  destruct Hs as [Hr Hw]. split; [exact Hr|]. destruct (cleanup_keeps _ _ _ E3) as (Eb & So & Sa). destruct Hk as [_ Ko Ka _ _].
  destruct Hf as [_ Fo _ (_ & _ & _ & Fe) _ Fd _ _ _ _ _]. split; [now rewrite Eb|congruence| |lia|rewrite Fo, Fd; exact Hsp].
  split; [apply So, Ko, Wo|apply Sa, Ka, Wa].
Qed.

(** C4. Type soundness of whole programs: [execute] of a function of a module whose
    bytecode the verifier accepts, with any arguments and any time budget,
    returns a result of the declared type and hands back an instance in which
    the next call is sound again, or it stops with a trap, exhausted gas, a
    timeout, an unresolved import or an exception of the host's own.  Neither a
    branch, a direct, indirect or host call nor a return, to any depth of
    recursion, reads an operand of the wrong type, a slot outside of the stacks,
    an instruction outside of the code or memory outside of the reservation. *)
Theorem verified_execute_sound fuel i args ft c : callable c -> fn_type m i = Some ft ->
  get_imported_functions_size m <= i -> Forall elem_ok args ->
  match execute (run fuel) i args c with
  | Ok r c' => result_typed ft r /\ callable c'
  | Throw e _ => stops foreign e
  | UB => False
  end.
Proof. apply execute_sound. Qed.
End Execute.

(** ** A verified program

    A recursive factorial, and a function that calls it through a table, calls
    an imported function and branches on its argument. *)
Definition prog_code : list opcode := [
  get_local_ 0; eqz_ W32; if_ 5; i32_const_ 1; return_ 1 1 0;
  get_local_ 0; get_local_ 0; i32_const_ 1; binop_ W32 sub; call_ 1; binop_ W32 mul; return_ 1 1 0;
  gas_charge_ 3; get_local_ 0; i32_const_ 0; call_indirect_ 0; call_ 0;
  get_local_ 0; br_if_ (pop_info 1 1) 21 0; drop_; i32_const_ 7; return_ 1 1 0 ].
Definition prog_module : module := {|
  m_start := UINT32_MAX; m_types := [demo_type [types.i32] [types.i32]];
  m_imports := [{| im_module := []; im_field := []; im_kind := Function; im_func_t := 0;
    im_table_t := {| element_type := 0; tt_limits := demo_limits 0 0 |};
    im_mem_t := {| mt_limits := demo_limits 0 0; Types.is_memory64 := false |};
    im_global_t := {| content_type := 0; mutability := false |} |}];
  m_functions := [0; 0];
  m_tables := [{| element_type := types.funcref; tt_limits := demo_limits 1 1 |}];
  m_memories := [{| mt_limits := demo_limits 1 1; Types.is_memory64 := false |}]; m_globals := []; m_exports := [];
  m_elements := [{| es_index := 0; es_offset := const_expr 0; es_mode := Types.active; es_type := types.funcref;
    es_elems := [{| te_type := 0; te_index := 1; te_code_ptr := 0 |}] |}];
  m_code := [demo_body 0; demo_body 12]; m_data := []; m_tags := []; m_import_functions := [0];
  m_num_imported_tables := 0; m_num_imported_memories := 0; m_num_imported_globals := 0;
  m_stack_limit_is_bytes := false; m_error := None; bytecode := prog_code |}.
Definition prog_typing : typing :=
  map (fun n => Some {| pt_locals := [types.i32]; pt_results := [types.i32]; pt_stack := repeat types.i32 n |})
    [0; 1; 1; 0; 1; 0; 1; 2; 3; 2; 2; 1; 0; 0; 1; 2; 1; 1; 2; 1; 0; 1]%nat.

(** The import increments its argument. *)
Definition prog_host : host_entry unit := {|
  he_params := [types.i32]; he_ret := [types.i32];
  he_call := Some (fun args h mem => (inl (match args with v :: _ => v + 1 | [] => 0 end), h, mem)) |}.
Definition prog_ctx : ctx unit := Eval vm_compute in
  let c := fresh_ctx prog_module in
  end_state (reset (c <| _base := (_base c) <| _table := [prog_host] |> |>)) c.

Lemma prog_verifies : verify prog_module prog_typing 4 = true.
Proof. vm_compute. reflexivity. Qed.

Lemma prog_callable : callable prog_module 4 (fun _ => False) prog_ctx.
Proof.
  split; [|reflexivity|vm_compute; repeat split; lia|vm_compute; intuition congruence|vm_compute; intuition congruence].
  split; [|reflexivity|discriminate| |reflexivity| |].
  - split; [|vm_compute; intuition congruence..]. split; [| | | | |prot_concrete|]; vm_compute; intuition congruence.
  - split; [reflexivity|]. split; repeat constructor; vm_compute; congruence.
  - intros i ft Hi Hf. unfold fn_type in Hf. destruct (Z.ltb_spec i 0); [discriminate|].
    assert (i = 0) as -> by (change (get_imported_functions_size prog_module) with 1 in Hi; lia).
    vm_compute in Hf. injection Hf as <-. exists 0, prog_host. split; [reflexivity|]. split; [reflexivity|].
    split; try reflexivity; [repeat constructor; lia|]. intros f args h mem [= <-]. split; [auto|discriminate].
  - discriminate.
Qed.

Lemma verified_execute_sound_witness :
  exists r c', execute (run 200) 2 [I32 5] prog_ctx = Ok r c' /\ r = Some (I32 121) /\
    result_typed (demo_type [types.i32] [types.i32]) r /\ callable prog_module 4 (fun _ => False) c'.
Proof.
  pose proof (verified_execute_sound prog_module prog_typing 4 (fun _ => False) prog_verifies 200 2 [I32 5]
    (demo_type [types.i32] [types.i32]) prog_ctx prog_callable eq_refl ltac:(vm_compute; congruence)
    ltac:(repeat constructor; vm_compute; congruence)) as Hs.
  assert (E : match execute (run 200) 2 [I32 5] prog_ctx with Ok r _ => r = Some (I32 121) | _ => False end)
    by (vm_compute; reflexivity).
  destruct (execute (run 200) 2 [I32 5] prog_ctx) as [r c'|e c'|]; [|contradiction|contradiction].
  exists r, c'. destruct Hs as [Hr Hc]. auto.
Defined.
