(* ===== verification/Exceptions.v ===== *)
(** * Exception dispatch

    The interpreter keeps the active [try_table] scopes in two vectors,
    [_eh_stack] (one frame per scope) and [_eh_catches] (the clauses of all
    scopes, addressed by offset).  Here they are related to a list of scopes, and
    [dispatch_exception] is shown to read elements of both after it has removed
    them, whenever a scope is active.  The lemmas on call frames that unwinding
    needs serve the budgets too. *)
From Stdlib Require Import ZArith Lia Bool String.
From stdpp Require Import base list numbers decidable option gmap sorting.
From S2P Require Import Prelude Types Stack Memory Numeric Softfloat InitExpr Context Operands Interp Demo Control.
Import Opcode.

(** ** Scopes *)

(** A scope: the call depth it was entered at and its clauses in order. *)
Definition scope : Type := Z * list eh_catch_entry.

(** The frames of a list of scopes, outermost first, with their clause offsets. *)
Fixpoint layout (start : Z) (hs : list scope) : list eh_frame :=
  match hs with
  | [] => []
  | (d, es) :: hs' =>
      {| ef_call_depth := d; ef_catch_count := vec_size es; ef_first_catch := start |}
      :: layout (start + vec_size es) hs'
  end.
Definition clauses (hs : list scope) : list eh_catch_entry := concat (map snd hs).

(** The operands a payload becomes. *)
Fixpoint payload_elems (params payload : list Z) : list elem :=
  match payload with
  | [] => []
  | v :: payload' =>
      payload_elem (match params with t :: _ => t | [] => types.i64 end) v :: payload_elems (tail params) payload'
  end.

Lemma clauses_app hs hs' : clauses (hs ++ hs') = clauses hs ++ clauses hs'.
Proof. unfold clauses. now rewrite map_app, concat_app. Qed.
Lemma clauses_take hs n : vec_size (clauses (take n hs)) <= vec_size (clauses hs).
Proof.
  rewrite <- (take_drop n hs) at 2. rewrite clauses_app, vec_size_app. pose proof (vec_size_nonneg (clauses (drop n hs))). lia.
Qed.
Lemma layout_app start hs hs' : layout start (hs ++ hs') = layout start hs ++ layout (start + vec_size (clauses hs)) hs'.
Proof.
  revert start. induction hs as [|[d es] hs IH]; intros start; cbn [app layout].
  - f_equal. unfold clauses, vec_size. cbn. lia.
  - rewrite IH. f_equal. f_equal. f_equal. unfold clauses, vec_size. cbn. rewrite length_app. lia.
Qed.
Lemma layout_length start hs : length (layout start hs) = length hs.
Proof. revert start. induction hs as [|[d es] hs IH]; intros start; cbn; congruence. Qed.

Section Dispatch.
Context {SF : SoftFloat} {HF : HostFloat} {H : Type}.
Implicit Types c : ctx H.

(** The parts of the context dispatch works on; [rem] and [lst] are the
    call-depth budget and the locals base. *)
Record eh_state c (hs : list scope) (ops : list elem) (fs : list activation_frame) (rem lst : Z) : Prop := {
  eh_frames : _eh_stack c = layout 0 hs;
  eh_clauses : _eh_catches c = clauses hs;
  eh_ops : holds c ops;
  eh_calls : frames c fs;
  eh_rem : _remaining_call_depth c = rem;
  eh_last : _last_op_index c = lst }.

(** ** The primitives *)
(** The search finds a clause of the frame, or none. *)
Lemma find_catch_spec c pre es post tag : _eh_catches c = pre ++ es ++ post ->
  exists r, find_catch (length es) (vec_size pre) tag c = Ok r c /\
    forall i, r = Some i -> vec_size pre <= i /\ exists e, vec_lookup (_eh_catches c) i = Some e /\ In e es.
Proof.
  revert pre. induction es as [|e es IH]; intros pre Hc; cbn [find_catch length]; [exists None; split; [reflexivity|discriminate]|].
  assert (He : vec_lookup (_eh_catches c) (vec_size pre) = Some e).
  { rewrite Hc. apply vec_lookup_Some. unfold vec_size. split; [lia|]. rewrite Nat2Z.id, lookup_app_r, Nat.sub_diag by lia. reflexivity. }
  unfold get_eh_catch at 1, bind at 1 2, gets. rewrite (vec_index_Ok _ _ e) by exact He. destruct (catch_matches tag e).
  - eexists. split; [reflexivity|]. intros i [= <-]. split; [lia|]. exists e. split; [exact He|now left].
  - destruct (IH (pre ++ [e])) as (r & Er & Hr); [rewrite Hc; now rewrite <- app_assoc|].
    rewrite vec_size_app in *. change (vec_size [e]) with 1 in *. exists r. split; [exact Er|].
    intros i Hi. destruct (Hr i Hi) as (H1 & e' & H2 & H3). split; [lia|]. exists e'. split; [exact H2|now right].
Qed.

Lemma leave_eh_frame_spec c hs h ops fs rem lst : eh_state c (hs ++ [h]) ops fs rem lst ->
  exists c', leave_eh_frame c = Ok tt c' /\ eh_state c' hs ops fs rem lst /\
    _base c' = _base c /\ _eh_exn_stack c' = _eh_exn_stack c.
Proof.
  intros [E1 E2 E3 E4 E5 E6]. unfold leave_eh_frame, current_eh_frame, bind, gets, pop_eh_frame, modify, trim_eh_catches.
  rewrite layout_app in E1. destruct h as [d es]. cbn [layout] in E1. rewrite Z.add_0_l in E1. rewrite E1, last_snoc.
  unfold ret. eexists. split; [reflexivity|]. split; [|split; reflexivity]. split; cbn; auto.
  - rewrite E1. apply removelast_last.
  - rewrite E2, clauses_app. unfold vec_resize, vec_size. rewrite Nat2Z.id, take_app_length, length_app.
    replace (_ - _)%nat with 0%nat by lia. apply app_nil_r.
Qed.

(** Frame sizes, and the locals base restored by dropping [gone]. *)
Definition sizes (fs : list activation_frame) : Z := foldr (fun f n => af_frame_size f + n) 0 fs.
Definition base_of (gone : list activation_frame) (lst : Z) : Z :=
  match gone with [] => lst | f :: _ => af_last_op_index f end.
Lemma sizes_app fs gs : sizes (fs ++ gs) = sizes fs + sizes gs.
Proof. unfold sizes. induction fs as [|f fs IH]; cbn; [reflexivity|]. rewrite IH. lia. Qed.
Definition sized (fs : list activation_frame) : Prop := Forall (fun f => 0 <= af_frame_size f) fs.
Lemma sizes_nonneg fs : sized fs -> 0 <= sizes fs.
Proof. unfold sizes. induction 1; cbn in *; lia. Qed.

Lemma unwind_loop_spec gone fuel c hs ops fs rem lst d :
  eh_state c hs ops (fs ++ gone) rem lst -> d = vec_size fs -> (length gone <= fuel)%nat -> sized gone ->
  0 <= rem -> rem + sizes gone < 2 ^ 32 ->
  exists c', unwind_loop fuel d c = Ok tt c' /\ eh_state c' hs ops fs (rem + sizes gone) (base_of gone lst) /\
    _base c' = _base c /\ _eh_exn_stack c' = _eh_exn_stack c.
Proof.
  intros Hst ->. revert fuel c rem lst Hst.
  induction gone as [|f gone IH] using rev_ind; intros fuel c rem lst Hst Hf Hs Hr Hb.
  - rewrite app_nil_r in Hst. destruct Hst as [E1 E2 E3 E4 E5 E6].
    exists c. cbn [sizes foldr base_of]. rewrite Z.add_0_r.
    assert (Hd : call_depth c = Ok (vec_size fs) c).
    { unfold call_depth, gets. destruct E4 as [W <-]. now rewrite view_size. }
    destruct fuel; cbn [unwind_loop]; rewrite (bind_Ok _ _ _ _ _ Hd), Z.leb_refl;
      (split; [reflexivity|]; split; [now split|auto]).
  - rewrite length_app in Hf. cbn in Hf. destruct fuel as [|fuel]; [lia|]. cbn [unwind_loop].
    apply Forall_app in Hs as [Hs Hf1]. inversion_clear Hf1 as [|? ? Hf0 _]. rewrite sizes_app in *. cbn [sizes foldr] in *.
    pose proof (sizes_nonneg _ Hs) as Hn. destruct Hst as [E1 E2 E3 E4 E5 E6]. rewrite app_assoc in E4.
    assert (Hd : call_depth c = Ok (vec_size ((fs ++ gone) ++ [f])) c).
    { unfold call_depth, gets. destruct E4 as [W <-]. now rewrite view_size. }
    rewrite (bind_Ok _ _ _ _ _ Hd).
    destruct (Z.leb_spec (vec_size ((fs ++ gone) ++ [f])) (vec_size fs)) as [Hle|_].
    { unfold vec_size in Hle. rewrite !length_app in Hle. cbn in Hle. lia. }
    destruct (pop_call_view c (fs ++ gone) f E4) as (a & Ea & Wa & Va). rewrite (bind_Ok _ _ _ _ _ Ea).
    unfold modify, bind. set (c1 := (c <| _as := a |>) <| _remaining_call_depth := _ |> <| _last_op_index := _ |>).
    destruct (IH fuel c1 (rem + af_frame_size f) (af_last_op_index f)) as (c2 & E & St & B & X); [|lia|auto|lia|lia|].
    { split; auto; [split; assumption|]. cbn. rewrite E5. apply wrap_small. unfold in_u. lia. }
    exists c2. split; [exact E|]. split; [|split; [exact B|exact X]].
    replace (rem + (sizes gone + (af_frame_size f + 0))) with (rem + af_frame_size f + sizes gone) by lia.
    destruct gone; exact St.
Qed.

(** [unwind_call_stack_to]: frames above the given depth are dropped. *)
Lemma unwind_spec c hs ops fs rem lst d :
  eh_state c hs ops fs rem lst -> 0 <= d <= vec_size fs -> sized fs -> 0 <= rem -> rem + sizes fs < 2 ^ 32 ->
  exists c', unwind_call_stack_to d c = Ok tt c' /\
    eh_state c' hs ops (take (Z.to_nat d) fs) (rem + sizes (drop (Z.to_nat d) fs)) (base_of (drop (Z.to_nat d) fs) lst) /\
    _base c' = _base c /\ _eh_exn_stack c' = _eh_exn_stack c.
Proof.
  intros Hst Hd Hs Hr Hb. unfold unwind_call_stack_to.
  assert (Hdep : call_depth c = Ok (vec_size fs) c).
  { unfold call_depth, gets. destruct (eh_calls _ _ _ _ _ _ Hst) as [W <-]. now rewrite view_size. }
  rewrite (bind_Ok _ _ _ _ _ Hdep). pose proof (take_drop (Z.to_nat d) fs) as Etd.
  rewrite <- Etd in Hs, Hb. apply Forall_app in Hs as [Hs1 Hs2]. rewrite sizes_app in Hb.
  pose proof (sizes_nonneg _ Hs1). pose proof (sizes_nonneg _ Hs2).
  apply unwind_loop_spec; auto; [now rewrite Etd| | |lia].
  - unfold vec_size in *. rewrite length_take. lia.
  - unfold vec_size in *. rewrite Nat2Z.id, length_drop. lia.
Qed.

Lemma push_payload_spec params payload c l : holds c l ->
  exists c', push_payload params payload c = Ok tt c' /\ with_os c (l ++ payload_elems params payload) c'.
Proof.
  revert params c l. induction payload as [|v payload IH]; intros params c l Hh; cbn [push_payload payload_elems].
  - exists c. rewrite app_nil_r. auto using with_os_refl.
  - destruct (push_holds c l (payload_elem (match params with t :: _ => t | [] => types.i64 end) v) Hh) as (c1 & E1 & W1).
    rewrite (bind_Ok _ _ _ _ _ E1). destruct (IH (tail params) c1 _ (proj1 W1)) as (c2 & E2 & W2). rewrite <- app_assoc in W2.
    exists c2. split; [exact E2|]. eapply with_os_trans; eauto.
Qed.

Lemma pop_outer_spec n c hs ops fs rem lst : eh_state c hs ops fs rem lst ->
  exists c', pop_outer_frames n c = Ok tt c' /\ eh_state c' (take (length hs - n) hs) ops fs rem lst /\
    _base c' = _base c /\ _eh_exn_stack c' = _eh_exn_stack c.
Proof.
  revert c hs. induction n as [|n IH]; intros c hs Hst; cbn [pop_outer_frames].
  - exists c. rewrite Nat.sub_0_r, take_ge by lia. auto.
  - unfold bind at 1, get. destruct hs as [|h hs _] using rev_ind.
    + exists c. unfold has_eh_frames. rewrite (eh_frames _ _ _ _ _ _ Hst). auto.
    + assert (Hne : has_eh_frames c = true).
      { unfold has_eh_frames. rewrite (eh_frames _ _ _ _ _ _ Hst), layout_app. destruct h.
        rewrite bool_decide_eq_false_2; [reflexivity|]. intros E. apply app_eq_nil in E as [_ E]. discriminate. }
      rewrite Hne. destruct (leave_eh_frame_spec c hs h ops fs rem lst Hst) as (c1 & E1 & S1 & B1 & X1).
      rewrite (bind_Ok _ _ _ _ _ E1). destruct (IH c1 hs S1) as (c2 & E2 & S2 & B2 & X2).
      exists c2. split; [exact E2|]. split; [|split; congruence].
      rewrite length_app. cbn [length]. replace (length hs + 1 - S n)%nat with (length hs - n)%nat by lia.
      rewrite take_app_le by lia. exact S2.
Qed.

(** ** Entering a handler *)
Definition tag_params (m : module) (tag : Z) : option (list Z) :=
  match vec_lookup (m_tags m) tag with
  | Some tg => match vec_lookup (m_types m) (tag_type_index tg) with Some ft => Some (param_types ft) | None => None end
  | None => None
  end.
Definition takes_payload (e : eh_catch_entry) : bool := (ec_kind e =? catch_tag) || (ec_kind e =? catch_tag_ref).
Definition takes_ref (e : eh_catch_entry) : bool := (ec_kind e =? catch_tag_ref) || (ec_kind e =? catch_all_ref).
(** The operands a clause receives: the payload and the reference it asks for. *)
Definition delivered (e : eh_catch_entry) (ps payload : list Z) (next_ref : Z) : list elem :=
  (if takes_payload e then payload_elems ps payload else []) ++ (if takes_ref e then [I64 (wrap 32 next_ref)] else []).

Lemma with_os_eh c c' hs ops ops' fs rem lst : eh_state c hs ops fs rem lst -> with_os c ops' c' ->
  eh_state c' hs ops' fs rem lst /\ _base c' = _base c /\ _eh_exn_stack c' = _eh_exn_stack c.
Proof. intros [E1 E2 E3 E4 E5 E6] [Hh [s ->]]. split; [|split; reflexivity]. split; auto. Qed.

Lemma deliver_spec e ps payload tag c hs ops fs rem lst :
  eh_state c hs ops fs rem lst -> tag_params (_mod (_base c)) tag = Some ps ->
  exists c',
   ((if takes_payload e then
       let* m := the_module in let* tg := vec_index (m_tags m) tag in
       let* ft := vec_index (m_types m) (tag_type_index tg) in push_payload (param_types ft) payload
     else ret tt) ;;;
    (if takes_ref e then let* idx := push_caught_exception tag payload in push_operand (I64 idx) else ret tt)) c
   = Ok tt c' /\
   eh_state c' hs (ops ++ delivered e ps payload (vec_size (_eh_exn_stack c))) fs rem lst /\ _base c' = _base c.
Proof.
  intros Hst Ht. unfold delivered.
  assert (S1 : exists c1, (if takes_payload e then
       let* m := the_module in let* tg := vec_index (m_tags m) tag in
       let* ft := vec_index (m_types m) (tag_type_index tg) in push_payload (param_types ft) payload
     else ret tt) c = Ok tt c1 /\ eh_state c1 hs (ops ++ if takes_payload e then payload_elems ps payload else []) fs rem lst /\
     _base c1 = _base c /\ _eh_exn_stack c1 = _eh_exn_stack c).
  { destruct (takes_payload e); [|exists c; rewrite app_nil_r; auto].
    unfold tag_params in Ht. destruct (vec_lookup (m_tags _) tag) as [tg|] eqn:Etg; [|discriminate].
    destruct (vec_lookup (m_types _) _) as [ft|] eqn:Eft; [|discriminate]. injection Ht as <-.
    unfold the_module, bind, gets. rewrite (vec_index_Ok _ _ _ _ Etg), (vec_index_Ok _ _ _ _ Eft).
    destruct (push_payload_spec (param_types ft) payload c ops (eh_ops _ _ _ _ _ _ Hst)) as (c1 & E1 & W1).
    exists c1. split; [exact E1|]. eapply with_os_eh; eauto. }
  destruct S1 as (c1 & E1 & St1 & B1 & X1). rewrite (bind_Ok _ _ _ _ _ E1). rewrite app_assoc.
  destruct (takes_ref e); [|exists c1; rewrite app_nil_r; auto].
  unfold push_caught_exception, bind, gets, modify, ret. rewrite X1.
  set (c2 := c1 <| _eh_exn_stack := _ |>).
  assert (St2 : eh_state c2 hs (ops ++ if takes_payload e then payload_elems ps payload else []) fs rem lst)
    by (destruct St1; split; auto).
  destruct (push_holds c2 _ (I64 (wrap 32 (vec_size (_eh_exn_stack c)))) (eh_ops _ _ _ _ _ _ St2)) as (c3 & E3 & W3).
  exists c3. split; [exact E3|]. destruct (with_os_eh _ _ _ _ _ _ _ _ St2 W3) as (St3 & B3 & _).
  split; [exact St3|]. rewrite B3. exact B1.
Qed.

(** The clause has been destroyed when its target is read. *)
Lemma enter_handler_undefined frame entry e f ps payload tag c rest d es ops fs rem lst :
  eh_state c (rest ++ [(d, es)]) ops fs rem lst -> tag_params (_mod (_base c)) tag = Some ps ->
  vec_lookup (_eh_catches c) entry = Some e -> vec_size (clauses rest) <= entry ->
  vec_lookup (_eh_stack c) frame = Some f -> ef_call_depth f = d ->
  0 <= d <= vec_size fs -> sized fs -> 0 <= rem -> rem + sizes fs < 2 ^ 32 ->
  0 <= ec_operand_depth e <= vec_size ops -> vec_size ops < 2 ^ 32 ->
  enter_handler frame entry tag payload c = UB.
Proof.
  intros Hst Ht He Hout Hf Hd Hdep Hs Hr Hb Ho H32. unfold enter_handler.
  unfold get_eh_catch at 1, bind at 1 2, gets. rewrite (vec_index_Ok _ _ e) by exact He.
  unfold eh_frame_at, bind at 1 2, gets. rewrite (vec_index_Ok _ _ f) by exact Hf. rewrite Hd.
  destruct (unwind_spec c _ ops fs rem lst d Hst Hdep Hs Hr Hb) as (c1 & E1 & S1 & B1 & _). rewrite (bind_Ok _ _ _ _ _ E1).
  destruct (eat_holds c1 (take (Z.to_nat (ec_operand_depth e)) ops) (drop (Z.to_nat (ec_operand_depth e)) ops) (ec_operand_depth e))
    as (c2 & E2 & W2); [rewrite take_drop; apply S1|unfold vec_size in *; rewrite length_take; lia|unfold vec_size in *; rewrite length_take; lia|].
  rewrite (bind_Ok _ _ _ _ _ E2). destruct (with_os_eh _ _ _ _ _ _ _ _ S1 W2) as (S2 & B2 & _).
  destruct (deliver_spec e ps payload tag c2 _ _ _ _ _ S2) as (c3 & E3 & S3 & B3); [congruence|].
  unfold takes_payload, takes_ref in E3. rewrite <- bind_assoc. rewrite (bind_Ok _ _ _ _ _ E3).
  destruct (leave_eh_frame_spec c3 rest (d, es) _ _ _ _ S3) as (c4 & E4 & S4 & B4 & _). rewrite (bind_Ok _ _ _ _ _ E4).
  destruct (pop_outer_spec (Z.to_nat (ec_eh_leave_count e)) c4 _ _ _ _ _ S4) as (c5 & E5 & S5 & _).
  rewrite (bind_Ok _ _ _ _ _ E5). unfold get_eh_catch, bind, gets. rewrite (eh_clauses _ _ _ _ _ _ S5).
  rewrite vec_index_past; [reflexivity|]. transitivity (vec_size (clauses rest)); [|exact Hout]. apply clauses_take.
Qed.

(** ** Dispatch *)

(** An exception that meets a scope leaves defined behaviour: the clause that matches is
    destroyed before its target is read, a frame without one before its call depth is.  With no
    active scope it is reported as unhandled. *)
Theorem dispatch_undefined c hs ops fs rem lst tag payload ps :
  eh_state c hs ops fs rem lst -> Forall (fun h => 0 <= h.1 <= vec_size fs) hs ->
  sized fs -> 0 <= rem -> rem + sizes fs < 2 ^ 32 ->
  (forall e, In e (clauses hs) -> 0 <= ec_operand_depth e <= vec_size ops) ->
  vec_size ops < 2 ^ 32 ->
  tag_params (_mod (_base c)) tag = Some ps ->
  dispatch_exception tag payload c =
    if bool_decide (hs = []) then Throw (Exn wasm_interpreter_exception "unhandled wasm exception") c else UB.
Proof.
  intros Hst Hd Hs Hr Hb Ho H32 Ht. pose proof (eh_frames _ _ _ _ _ _ Hst) as E. pose proof (eh_clauses _ _ _ _ _ _ Hst) as Ec.
  unfold dispatch_exception, bind at 1, get. destruct hs as [|[d es] rest _] using rev_ind.
  - cbn in E. rewrite E. cbn [length dispatch_loop]. unfold bind, get, has_eh_frames. now rewrite E.
  - rewrite bool_decide_eq_false_2 by (intros Hn; apply app_eq_nil in Hn as [_ Hn]; discriminate).
    apply Forall_app in Hd as [_ Hd]. inversion_clear Hd as [|? ? Hd0 _]. rename Hd0 into Hd. cbn in Hd.
    rewrite layout_app in E. cbn [layout] in E. set (f := {| ef_call_depth := d; ef_catch_count := _; ef_first_catch := _ |}) in E.
    rewrite clauses_app in Ec. assert (Ec' : _eh_catches c = clauses rest ++ es ++ []) by (rewrite Ec; unfold clauses at 2; cbn; now rewrite !app_nil_r).
    assert (Hl : length (_eh_stack c) = Datatypes.S (length rest)) by (rewrite E, length_app, layout_length; cbn; lia). rewrite Hl.
    cbn [dispatch_loop]. unfold bind at 1, get, has_eh_frames. rewrite bool_decide_eq_false_2 by (intros Hn; rewrite Hn in Hl; discriminate). cbn [negb].
    assert (Hf : vec_lookup (_eh_stack c) (vec_size (_eh_stack c) - 1) = Some f).
    { unfold vec_size. rewrite Hl, E. apply vec_lookup_Some. split; [lia|]. rewrite lookup_app_r, layout_length by (rewrite layout_length; lia).
      now replace (Z.to_nat _ - _)%nat with 0%nat by lia. }
    unfold eh_frame_at at 1, bind at 1 2, gets. rewrite (vec_index_Ok _ _ f) by exact Hf. cbn [ef_catch_count ef_first_catch f].
    replace (Z.to_nat (vec_size es)) with (length es) by (unfold vec_size; lia). rewrite Z.add_0_l.
    destruct (find_catch_spec c _ es [] tag Ec') as (r & Er & Hin). rewrite (bind_Ok _ _ _ _ _ Er). destruct r as [i|].
    + destruct (Hin i eq_refl) as (Hi & e & He & Hes). apply (enter_handler_undefined _ i e f ps payload tag c rest d es ops fs rem lst); auto.
      apply Ho. rewrite clauses_app. apply in_or_app. right. unfold clauses. cbn. rewrite app_nil_r. exact Hes.
    + destruct (leave_eh_frame_spec c rest (d, es) _ _ _ _ Hst) as (c1 & E1 & S1 & _). rewrite (bind_Ok _ _ _ _ _ E1).
      unfold eh_frame_at, bind, gets. rewrite (eh_frames _ _ _ _ _ _ S1). rewrite vec_index_past; [reflexivity|].
      unfold vec_size. rewrite Hl, layout_length. lia.
Qed.
End Dispatch.

(** The demo's throwing function inside its [try_table]. *)
Definition in_try : ctx unit := Eval vm_compute in
  end_state ((set_pc (CodeAt 22) ;;; call_local 2 ;;; step (try_table_ 1 0)) demo_ctx) demo_ctx.
(** Its exception is the clause's, and dispatching it is undefined. *)
Lemma caught_exception_undefined : dispatch_exception 0 [7] in_try = UB.
Proof. vm_compute. reflexivity. Qed.
