(* ===== verification/Bulk.v ===== *)
(** * Bulk memory instructions

    [memory.copy] and [memory.fill] move one byte each time they are dispatched
    and repeat until their count operand is zero.  Iterating the dispatch loop is
    shown to be [memmove] and [memset] on the linear memory, overlap included,
    with every bounds check before the first write. *)
From Stdlib Require Import ZArith Lia Bool String.
From stdpp Require Import base list numbers decidable option gmap.
From S2P Require Import Prelude Types Stack Memory Numeric Softfloat InitExpr Context Operands Interp Demo Invariants TypedOps TypedVec Typing.
Import Opcode.

(** ** Ranges *)
Definition mem_bytes (a : wasm_allocator) : Z := page a * page_size.
Definition in_bounds (a : wasm_allocator) (p n : Z) : Prop := 0 <= p /\ 0 <= n /\ p + n <= mem_bytes a.

Lemma accessible_in a p n : alloc_wf a -> external_ a = false -> in_bounds a p n -> 1 <= n -> land_at a p n = Accessible.
Proof.
  intros W He (H1 & H2 & H3) Hn. rewrite land_at_pages by auto. unfold accessible_end. rewrite He. unfold mem_bytes in H3.
  now replace (_ && _) with true by (symmetry; blia).
Qed.

Lemma validate_in a p n : alloc_wf a -> external_ a = false -> 0 <= page a -> n <= UINT32_MAX -> in_bounds a p n ->
  validate_pointer 1 p n a = Ok tt a.
Proof.
  intros W He Hp Hn (H1 & H2 & H3). unfold validate_pointer. rewrite Z.div_1_r, Z.mul_1_r.
  destruct (Z.leb_spec n UINT32_MAX); [|lia]. cbn [psizam_assert]. rewrite bind_ret.
  destruct (Z.ltb_spec (p + n - 1) 0).
  - replace (p + n - 1) with (-1) by lia. unfold bind, get. rewrite (awf_prefix a W), He.
    destruct (Z.leb_spec 0 (page a)); [reflexivity|lia].
  - apply access_in, accessible_in; auto; [|lia]. unfold in_bounds. lia.
Qed.
(** A range that sticks out traps, empty ranges included. *)
Lemma validate_out a p n : alloc_wf a -> external_ a = false -> 0 <= page a -> in_u 32 p -> in_u 32 n ->
  mem_bytes a < p + n -> validate_pointer 1 p n a = Throw (Exn wasm_memory_exception "wasm memory out-of-bounds") a.
Proof.
  intros W He Hp Hu Hn Hb. unfold in_u in *. unfold validate_pointer. rewrite Z.div_1_r, Z.mul_1_r.
  unfold UINT32_MAX, mem_bytes in *. destruct (Z.leb_spec n (2 ^ 32 - 1)); [|lia]. cbn [psizam_assert]. rewrite bind_ret.
  destruct (Z.ltb_spec (p + n - 1) 0); [unfold page_size in *; lia|].
  destruct (guarded_access a (p + n - 1) 1 W He) as [[_ E]|E]; [lia|lia| |exact E].
  revert E. rewrite land_at_pages by (auto; lia). unfold accessible_end. rewrite He. replace (_ && _) with false; [|symmetry; blia]. destruct (_ && _); discriminate.
Qed.

(** ** The abstract effects *)
Definition moved (m m' : bytes) (dst src n : Z) : Prop := forall k,
  mem_get m' k = if decide (dst <= k < dst + n) then mem_get m (src + (k - dst)) else mem_get m k.
Definition filled (m m' : bytes) (dst v n : Z) : Prop := forall k,
  mem_get m' k = if decide (dst <= k < dst + n) then v else mem_get m k.

Lemma write_byte m a v k : in_u 8 v -> mem_get (write_le m a 1 v) k = if decide (k = a) then v else mem_get m k.
Proof.
  intros Hv. rewrite mem_get_write_le. change (Z.of_nat 1) with 1.
  destruct (decide (a <= k < a + 1)), (decide (k = a)) as [->|]; try lia.
  rewrite Z.sub_diag. change (2 ^ (8 * 0)) with 1. rewrite Z.div_1_r. now apply Z.mod_small.
Qed.
Lemma read_byte m a : read_le m a 1 = mem_get m a.
Proof. cbn [read_le]. lia. Qed.

(** The step from one byte to the range, in either direction. *)
Lemma moved_zero m m' d s d' s' : moved m m' d s 0 -> moved m m' d' s' 0.
Proof. intros Hm k. specialize (Hm k). destruct (decide _), (decide _); try lia. Qed.
Lemma moved_up m m' dst src n : (forall k, in_u 8 (mem_get m k)) -> dst <= src -> 0 < n ->
  moved (write_le m dst 1 (mem_get m src)) m' (dst + 1) (src + 1) (n - 1) -> moved m m' dst src n.
Proof.
  intros Hb Hd Hn Hm k. rewrite (Hm k). rewrite !write_byte by auto.
  destruct (decide (dst + 1 <= k < _)), (decide (dst <= k < _)); try lia.
  - rewrite decide_False by lia. f_equal. lia.
  - assert (k = dst) as -> by lia. rewrite decide_True by reflexivity. f_equal. lia.
  - rewrite decide_False by lia. reflexivity.
Qed.
Lemma moved_down m m' dst src n : (forall k, in_u 8 (mem_get m k)) -> src < dst -> 0 < n ->
  moved (write_le m (dst + (n - 1)) 1 (mem_get m (src + (n - 1)))) m' dst src (n - 1) -> moved m m' dst src n.
Proof.
  intros Hb Hd Hn Hm k. rewrite (Hm k). rewrite !write_byte by auto.
  destruct (decide (dst <= k < dst + (n - 1))), (decide (dst <= k < dst + n)); try lia.
  - rewrite decide_False by lia. reflexivity.
  - assert (k = dst + (n - 1)) as -> by lia. rewrite decide_True by reflexivity. f_equal. lia.
  - rewrite decide_False by lia. reflexivity.
Qed.

Section Bulk.
Context {SF : SoftFloat} {HF : HostFloat} {H : Type}.
Implicit Types c : ctx H.

(** The context with other memory contents. *)
Definition with_raw (b : base H) (m : bytes) : base H :=
  b <| _wasm_alloc := upd_raw (fun _ => m) (_wasm_alloc b) |>.

(** At a bulk instruction with its three operands, the count on top. *)
Record at_bulk c (o : Z) (l : list elem) (x y n : Z) : Prop := {
  ab_pc : _pc c = CodeAt o;
  ab_ops : holds c (l ++ [I32 x; I32 y; I32 n]);
  ab_ready : ready (_base c);
  ab_page : 0 <= page (_wasm_alloc (_base c)) }.

Lemma peek_count c l x y n : holds c (l ++ [I32 x; I32 y; I32 n]) -> peek_ui32 0 c = Ok n c.
Proof.
  intros Hh. unfold peek_ui32.
  rewrite (bind_Ok _ _ _ _ _ (peek_holds c (l ++ [I32 x; I32 y]) (I32 n) [] ltac:(rewrite <- app_assoc; exact Hh) : peek_operand 0 c = _)).
  reflexivity.
Qed.
Lemma peek_second c l x y n : holds c (l ++ [I32 x; I32 y; I32 n]) -> peek_ui32 1 c = Ok y c.
Proof.
  intros Hh. unfold peek_ui32.
  rewrite (bind_Ok _ _ _ _ _ (peek_holds c (l ++ [I32 x]) (I32 y) [I32 n] ltac:(rewrite <- app_assoc; exact Hh) : peek_operand 1 c = _)).
  reflexivity.
Qed.
Lemma peek_first c l x y n : holds c (l ++ [I32 x; I32 y; I32 n]) -> peek_ui32 2 c = Ok x c.
Proof.
  intros Hh. unfold peek_ui32.
  rewrite (bind_Ok _ _ _ _ _ (peek_holds c l (I32 x) [I32 y; I32 n] Hh : peek_operand 2 c = _)). reflexivity.
Qed.
Lemma poke_count c l x y n n' : holds c (l ++ [I32 x; I32 y; I32 n]) ->
  exists c', poke_operand 0 (I32 n') c = Ok tt c' /\ with_os c (l ++ [I32 x; I32 y; I32 n']) c'.
Proof.
  intros Hh. destruct (poke_holds c (l ++ [I32 x; I32 y]) (I32 n) (I32 n') [] ltac:(rewrite <- app_assoc; exact Hh)) as (c' & E & W).
  rewrite <- app_assoc in W. eauto.
Qed.
Lemma poke_second c l x y n y' : holds c (l ++ [I32 x; I32 y; I32 n]) ->
  exists c', poke_operand 1 (I32 y') c = Ok tt c' /\ with_os c (l ++ [I32 x; I32 y'; I32 n]) c'.
Proof.
  intros Hh. destruct (poke_holds c (l ++ [I32 x]) (I32 y) (I32 y') [I32 n] ltac:(rewrite <- app_assoc; exact Hh)) as (c' & E & W).
  rewrite <- app_assoc in W. eauto.
Qed.
Lemma poke_first c l x y n x' : holds c (l ++ [I32 x; I32 y; I32 n]) ->
  exists c', poke_operand 2 (I32 x') c = Ok tt c' /\ with_os c (l ++ [I32 x'; I32 y; I32 n]) c'.
Proof. intros Hh. exact (poke_holds c l (I32 x) (I32 x') [I32 y; I32 n] Hh). Qed.

Lemma pop3_holds c l x y n : holds c (l ++ [I32 x; I32 y; I32 n]) -> exists c', pop3 c = Ok tt c' /\ with_os c l c'.
Proof.
  intros Hh. destruct (pop_n_holds c l [I32 x; I32 y; I32 n] [] Hh) as (c' & E & W). exists c'. split; [|exact W].
  revert E. cbn [pop_n length]. unfold pop3, bind. destruct (pop_operand c) as [? c1|? ?|]; try discriminate.
  destruct (pop_operand c1) as [? c2|? ?|]; try discriminate. destruct (pop_operand c2) as [? c3|? ?|]; try discriminate.
  now intros [= _ _ _ ->].
Qed.
Lemma on_alloc_id (m : M wasm_allocator unit) c : m (_wasm_alloc (_base c)) = Ok tt (_wasm_alloc (_base c)) ->
  on_base (on_alloc m) c = Ok tt c.
Proof. intros E. unfold on_base, on_alloc, zoom. rewrite E. now destruct c as [[]]. Qed.

Lemma write_byte_ready c d v : ready (_base c) -> in_bounds (_wasm_alloc (_base c)) d 1 -> in_u 8 v ->
  let b := with_raw (_base c) (write_le (raw (_wasm_alloc (_base c))) d 1 v) in
  on_base (on_alloc (write_unaligned d 1 v)) c = Ok tt (c <| _base := b |>) /\ ready b.
Proof.
  intros R Hd Hv. cbv zeta. split; [|exact (ready_write (_base c) d 1 v R)].
  apply on_base_ok. unfold on_alloc, zoom.
  now rewrite (write_unaligned_in _ _ 1 v (accessible_in _ d 1 (rd_alloc _ R) (rd_reserved _ R) Hd ltac:(lia))).
Qed.
Lemma read_byte_ready c s : ready (_base c) -> in_bounds (_wasm_alloc (_base c)) s 1 ->
  on_base (on_alloc (read_unaligned s 1)) c = Ok (mem_get (raw (_wasm_alloc (_base c))) s) c.
Proof.
  intros R Hs. unfold on_base, on_alloc, zoom.
  rewrite (read_unaligned_in _ _ 1 (accessible_in _ s 1 (rd_alloc _ R) (rd_reserved _ R) Hs ltac:(lia))), read_byte. now destruct c as [[]].
Qed.

(** [c'] is [c] with other operands and memory contents [m]. *)
Definition moved_to c (m : bytes) c' : Prop := exists s, c' = c <| _base := with_raw (_base c) m |> <| _os := s |>.

Lemma at_bulk_moved c c' m o l x y n x' y' n' : at_bulk c o l x y n -> moved_to c m c' ->
  (forall k, in_u 8 (mem_get m k)) -> holds c' (l ++ [I32 x'; I32 y'; I32 n']) -> at_bulk c' o l x' y' n'.
Proof.
  intros [P O R G] [s ->] Hm Hh. split; auto. destruct R as [W ? ? ? ? ? ? ?]. split; auto.
  destruct W. split; auto.
Qed.
Lemma moved_trans c m c1 m' c2 : moved_to c m c1 -> moved_to c1 m' c2 -> moved_to c m' c2.
Proof. intros [s ->] [s' ->]. exists s'. reflexivity. Qed.
Lemma bulk_bytes_ok c o l x y n : at_bulk c o l x y n -> forall k, in_u 8 (mem_get (raw (_wasm_alloc (_base c))) k).
Proof. intros [_ _ R _]. apply R. Qed.

(** ** One dispatch of [memory.copy] *)
Lemma copy_check c o l dst src n : at_bulk c o l dst src n -> in_u 32 n ->
  in_bounds (_wasm_alloc (_base c)) src n -> in_bounds (_wasm_alloc (_base c)) dst n ->
  exec_memory_copy c =
  (if n =? 0 then pop3 ;;; inc_pc 1
   else if dst <=? src then
     let* v := on_base (on_alloc (read_unaligned src 1)) in
     on_base (on_alloc (write_unaligned dst 1 v)) ;;;
     poke_operand 0 (I32 (wrap 32 (n - 1))) ;;;
     poke_operand 1 (I32 (wrap 32 (src + 1))) ;;; poke_operand 2 (I32 (wrap 32 (dst + 1)))
   else
     let* v := on_base (on_alloc (read_unaligned (src + (n - 1)) 1)) in
     on_base (on_alloc (write_unaligned (dst + (n - 1)) 1 v)) ;;; poke_operand 0 (I32 (wrap 32 (n - 1)))) c.
Proof.
  intros [P O R G] Hn Hs Hd. unfold exec_memory_copy.
  rewrite (bind_Ok _ _ _ _ _ (peek_count c l dst src n O)), (bind_Ok _ _ _ _ _ (peek_second c l dst src n O)),
    (bind_Ok _ _ _ _ _ (peek_first c l dst src n O)).
  assert (Hle : n <= UINT32_MAX) by (unfold in_u, UINT32_MAX in *; lia).
  rewrite (bind_Ok _ _ _ _ _ (on_alloc_id _ c (validate_in _ src n (rd_alloc _ R) (rd_reserved _ R) G Hle Hs))).
  now rewrite (bind_Ok _ _ _ _ _ (on_alloc_id _ c (validate_in _ dst n (rd_alloc _ R) (rd_reserved _ R) G Hle Hd))).
Qed.

Lemma on_alloc_throw (m : M wasm_allocator unit) c e :
  m (_wasm_alloc (_base c)) = Throw e (_wasm_alloc (_base c)) -> on_base (on_alloc m) c = Throw e c.
Proof. intros E. unfold on_base, on_alloc, zoom. rewrite E. now destruct c as [[]]. Qed.
Lemma copy_check_src c o l dst src n : at_bulk c o l dst src n -> in_u 32 n -> in_u 32 src ->
  mem_bytes (_wasm_alloc (_base c)) < src + n ->
  exec_memory_copy c = Throw (Exn wasm_memory_exception "wasm memory out-of-bounds") c.
Proof.
  intros [P O R G] Hn Hs Ho. unfold exec_memory_copy.
  rewrite (bind_Ok _ _ _ _ _ (peek_count c l dst src n O)), (bind_Ok _ _ _ _ _ (peek_second c l dst src n O)),
    (bind_Ok _ _ _ _ _ (peek_first c l dst src n O)).
  apply bind_Throw, on_alloc_throw, validate_out; auto; apply R.
Qed.
Lemma copy_check_dst c o l dst src n : at_bulk c o l dst src n -> in_u 32 n -> in_u 32 dst ->
  in_bounds (_wasm_alloc (_base c)) src n -> mem_bytes (_wasm_alloc (_base c)) < dst + n ->
  exec_memory_copy c = Throw (Exn wasm_memory_exception "wasm memory out-of-bounds") c.
Proof.
  intros [P O R G] Hn Hd Hs Ho. unfold exec_memory_copy.
  rewrite (bind_Ok _ _ _ _ _ (peek_count c l dst src n O)), (bind_Ok _ _ _ _ _ (peek_second c l dst src n O)),
    (bind_Ok _ _ _ _ _ (peek_first c l dst src n O)).
  assert (Hle : n <= UINT32_MAX) by (unfold in_u, UINT32_MAX in *; lia).
  rewrite (bind_Ok _ _ _ _ _ (on_alloc_id _ c (validate_in _ src n (rd_alloc _ R) (rd_reserved _ R) G Hle Hs))).
  apply bind_Throw, on_alloc_throw, validate_out; auto; apply R.
Qed.

Lemma bulk_done c o l x y : at_bulk c o l x y 0 ->
  exists s, (pop3 ;;; inc_pc 1) c = Ok tt (c <| _os := s |> <| _pc := CodeAt (o + 1) |>) /\ stack_wf s /\ view s = l.
Proof.
  intros [P O R G]. destruct (pop3_holds c l x y 0 O) as (c1 & E1 & [[W V] [s ->]]). exists s.
  rewrite (bind_Ok _ _ _ _ _ E1). set (c1 := c <| _os := s |>) in *. now rewrite (inc_pc_at c1 o 1 P).
Qed.

Definition step_to (up : bool) (p : Z) : Z := if up then wrap 32 (p + 1) else p.

Lemma copy_one c o l dst src n : at_bulk c o l dst src n -> in_u 32 n -> 0 < n ->
  in_bounds (_wasm_alloc (_base c)) src n -> in_bounds (_wasm_alloc (_base c)) dst n ->
  let up := dst <=? src in let i := if up then 0 else n - 1 in
  let m := raw (_wasm_alloc (_base c)) in let m' := write_le m (dst + i) 1 (mem_get m (src + i)) in
  exists c', exec_memory_copy c = Ok tt c' /\ moved_to c m' c' /\
    at_bulk c' o l (step_to up dst) (step_to up src) (n - 1).
Proof.
  intros B Hn H0 Hs Hd. cbv zeta. rewrite (copy_check c o l dst src n B Hn Hs Hd).
  destruct (Z.eqb_spec n 0); [lia|]. pose proof B as [P O R G]. pose proof (bulk_bytes_ok _ _ _ _ _ _ B) as Hb.
  rewrite (wrap_small 32 (n - 1)) by (unfold in_u in *; lia). set (m := raw (_wasm_alloc (_base c))) in *.
  destruct (dst <=? src); cbn [step_to]; rewrite ?Z.add_0_r.
  - rewrite (bind_Ok _ _ _ _ _ (read_byte_ready c src R ltac:(unfold in_bounds in *; lia))).
    destruct (write_byte_ready c dst (mem_get m src) R) as [E1 R1]; [unfold in_bounds in *; lia|apply Hb|].
    rewrite (bind_Ok _ _ _ _ _ E1). set (c1 := c <| _base := _ |>) in *.
    destruct (poke_count c1 l dst src n (n - 1) O) as (c2 & E2 & [H2 [s2 ->]]). rewrite (bind_Ok _ _ _ _ _ E2).
    set (c2 := c1 <| _os := s2 |>) in *.
    destruct (poke_second c2 l dst src (n - 1) (wrap 32 (src + 1)) H2) as (c3 & E3 & [H3 [s3 ->]]). rewrite (bind_Ok _ _ _ _ _ E3).
    set (c3 := c2 <| _os := s3 |>) in *.
    destruct (poke_first c3 l dst (wrap 32 (src + 1)) (n - 1) (wrap 32 (dst + 1)) H3) as (c4 & E4 & [H4 [s4 ->]]).
    eexists. split; [exact E4|].
    assert (M : moved_to c (write_le m dst 1 (mem_get m src)) (c3 <| _os := s4 |>)) by now exists s4.
    split; [exact M|]. eapply at_bulk_moved; eauto using write_le_bytes_ok.
  - rewrite (bind_Ok _ _ _ _ _ (read_byte_ready c (src + (n - 1)) R ltac:(unfold in_bounds in *; lia))).
    destruct (write_byte_ready c (dst + (n - 1)) (mem_get m (src + (n - 1))) R) as [E1 R1]; [unfold in_bounds in *; lia|apply Hb|].
    rewrite (bind_Ok _ _ _ _ _ E1). set (c1 := c <| _base := _ |>) in *.
    destruct (poke_count c1 l dst src n (n - 1) O) as (c2 & E2 & [H2 [s2 ->]]).
    eexists. split; [exact E2|].
    assert (M : moved_to c (write_le m (dst + (n - 1)) 1 (mem_get m (src + (n - 1)))) (c1 <| _os := s2 |>)) by now exists s2.
    split; [exact M|]. eapply at_bulk_moved; eauto using write_le_bytes_ok.
Qed.

(** ** The whole copy *)

(** The end of a bulk instruction that leaves memory contents [m]. *)
Definition bulk_end c (o : Z) (l : list elem) (m : bytes) c' : Prop := exists s,
  c' = c <| _base := with_raw (_base c) m |> <| _os := s |> <| _pc := CodeAt (o + 1) |> /\ stack_wf s /\ view s = l.

Lemma bulk_end_moved c m c1 o l m' c2 : moved_to c m c1 -> bulk_end c1 o l m' c2 -> bulk_end c o l m' c2.
Proof. intros [s ->] (s' & -> & W & V). exists s'. auto. Qed.
Lemma bulk_end_done c o l x y : at_bulk c o l x y 0 ->
  exists c', (pop3 ;;; inc_pc 1) c = Ok tt c' /\ bulk_end c o l (raw (_wasm_alloc (_base c))) c'.
Proof.
  intros B. destruct (bulk_done c o l x y B) as (s & E & W & V). eexists. split; [exact E|]. exists s.
  split; [|auto]. unfold with_raw, upd_raw. now destruct c as [[? []]].
Qed.
Lemma in_bounds_moved c m c' p n : moved_to c m c' ->
  in_bounds (_wasm_alloc (_base c)) p n -> in_bounds (_wasm_alloc (_base c')) p n.
Proof. now intros [s ->]. Qed.
Lemma step_to_bounds a up p n : 0 < n -> in_u 32 (p) -> in_bounds a p n -> p + n <= 2 ^ 32 ->
  in_bounds a (step_to up p) (n - 1) /\ in_u 32 (step_to up p) /\ (1 < n -> step_to up p = if up then p + 1 else p).
Proof.
  intros Hn Hu (H1 & H2 & H3) Hle. unfold step_to, in_bounds, in_u in *. destruct up; [|lia].
  unfold wrap. destruct (Z.eq_dec (p + 1) (2 ^ 32)) as [E|E].
  - rewrite E, Z.mod_same by lia. lia.
  - rewrite Z.mod_small by lia. lia.
Qed.
(** Ranges of a 32-bit memory end below [2^32]. *)
Lemma in_bounds_32 (b : base H) p n : ready b -> in_bounds (_wasm_alloc b) p n -> p + n <= 2 ^ 32.
Proof.
  intros R (H1 & H2 & H3). pose proof (rd_alloc _ R) as [W1 W2 _ _ _]. unfold mem_bytes in H3.
  change max_pages with 65536 in W2. unfold page_size in H3. lia.
Qed.

Lemma copy_run N : forall c o l dst src f, at_bulk c o l dst src (Z.of_nat N) -> Z.of_nat N < 2 ^ 32 ->
  in_u 32 dst -> in_u 32 src -> vec_lookup (bytecode (_mod (_base c))) o = Some memory_copy_ ->
  in_bounds (_wasm_alloc (_base c)) src (Z.of_nat N) -> in_bounds (_wasm_alloc (_base c)) dst (Z.of_nat N) ->
  exists m' c', run (S N + f) c = run f c' /\ bulk_end c o l m' c' /\
    moved (raw (_wasm_alloc (_base c))) m' dst src (Z.of_nat N).
Proof.
  induction N as [|N IH]; intros c o l dst src f B HN Hd Hs Hop Is Id;
    pose proof B as [P O R G]; pose proof (bulk_bytes_ok _ _ _ _ _ _ B) as Hb; cbn [Nat.add];
    rewrite (run_step memory_copy_ o c _ P Hop) by discriminate; cbn [step].
  - destruct (bulk_end_done c o l dst src B) as (c' & E & Be).
    exists (raw (_wasm_alloc (_base c))), c'. split; [|split; [exact Be|]].
    + unfold bind at 1. rewrite (copy_check c o l dst src 0 B ltac:(unfold in_u; lia) Is Id), Z.eqb_refl. now rewrite E.
    + intros k. destruct (decide _); [lia|reflexivity].
  - set (n := Z.of_nat (S N)) in *. assert (En : n - 1 = Z.of_nat N) by (unfold n; lia).
    destruct (copy_one c o l dst src n B ltac:(unfold in_u, n in *; lia) ltac:(lia) Is Id) as (c1 & E1 & M1 & B1).
    rewrite (bind_Ok _ _ _ _ _ E1). rewrite En in B1. set (up := dst <=? src) in *.
    pose proof (in_bounds_32 _ _ _ R Is) as Ls. pose proof (in_bounds_32 _ _ _ R Id) as Ld.
    destruct (step_to_bounds _ up src n ltac:(lia) Hs Is Ls) as (Is1 & Us1 & Es).
    destruct (step_to_bounds _ up dst n ltac:(lia) Hd Id Ld) as (Id1 & Ud1 & Ed).
    rewrite En in Is1, Id1. pose proof (in_bounds_moved _ _ _ _ _ M1 Is1) as Is2. pose proof (in_bounds_moved _ _ _ _ _ M1 Id1) as Id2.
    destruct (IH c1 o l _ _ f B1 ltac:(lia) Ud1 Us1) as (m' & c' & E & Be & Mv); auto.
    { now destruct M1 as [s ->]. }
    exists m', c'. split; [exact E|]. split; [eapply bulk_end_moved; eauto|].
    assert (Er : raw (_wasm_alloc (_base c1)) = write_le (raw (_wasm_alloc (_base c))) (dst + if up then 0 else n - 1) 1
      (mem_get (raw (_wasm_alloc (_base c))) (src + if up then 0 else n - 1))) by now destruct M1 as [s ->].
    rewrite Er in Mv. clear Er. rewrite <- En in Mv.
    destruct (Z.leb_spec dst src) as [Hle|Hgt]; subst up; cbn iota in *.
    + rewrite !Z.add_0_r in Mv. apply moved_up; auto; [lia|]. destruct (Z.eq_dec n 1) as [E1'|E1'].
      * rewrite E1' in *. eapply moved_zero, Mv.
      * rewrite Es, Ed in Mv by lia. exact Mv.
    + apply moved_down; auto. lia.
Qed.

(** C15. [memory.copy] is [memmove] in a 32-bit memory with guard pages of the
    allocator's own ([at_bulk]; over a caller-provided buffer it is not, see
    [checked_bulk_unbounded]): from in-bounds ranges the dispatch loop
    executes it in [n + 1] turns, after which the destination holds the bytes the
    source held before, for any overlap, every other byte is unchanged, the three
    operands are gone and execution continues after the instruction.  A range
    that exceeds the memory traps at the first turn with nothing written. *)
Theorem memory_copy_is_memmove c o l dst src n f :
  at_bulk c o l dst src n -> in_u 32 dst -> in_u 32 src -> in_u 32 n ->
  vec_lookup (bytecode (_mod (_base c))) o = Some memory_copy_ ->
  if (src + n <=? mem_bytes (_wasm_alloc (_base c))) && (dst + n <=? mem_bytes (_wasm_alloc (_base c)))
  then exists m' c', run (S (Z.to_nat n) + f) c = run f c' /\ bulk_end c o l m' c' /\
         moved (raw (_wasm_alloc (_base c))) m' dst src n
  else run (S f) c = Throw (Exn wasm_memory_exception "wasm memory out-of-bounds") c.
Proof.
  intros B Hd Hs Hn Hop. pose proof B as [P O R G].
  destruct (Z.leb_spec (src + n) (mem_bytes (_wasm_alloc (_base c)))) as [Is|Is];
    [destruct (Z.leb_spec (dst + n) (mem_bytes (_wasm_alloc (_base c)))) as [Id|Id]|]; cbn [andb].
  - rewrite <- (Z2Nat.id n) in B by (unfold in_u in *; lia). unfold in_u in *.
    destruct (copy_run (Z.to_nat n) c o l dst src f B) as (m' & c' & E & Be & Mv);
      unfold in_u, in_bounds in *; rewrite ?Z2Nat.id in * by lia; try lia; auto.
    exists m', c'. auto.
  - rewrite (run_step memory_copy_ o c _ P Hop) by discriminate. apply bind_Throw.
    apply (copy_check_dst c o l dst src n B); auto. unfold in_bounds, in_u in *. lia.
  - rewrite (run_step memory_copy_ o c _ P Hop) by discriminate. apply bind_Throw.
    now apply (copy_check_src c o l dst src n B).
Qed.

(** ** [memory.fill] *)
Lemma filled_step m m' dst v n : in_u 8 v -> 0 < n ->
  filled (write_le m dst 1 v) m' (dst + 1) v (n - 1) -> filled m m' dst v n.
Proof.
  intros Hv Hn Hf k. rewrite (Hf k), write_byte by auto.
  destruct (decide (dst + 1 <= k < _)), (decide (dst <= k < _)), (decide (k = dst)); auto; lia.
Qed.

Lemma fill_check c o l dst v n : at_bulk c o l dst v n -> in_u 32 n -> in_bounds (_wasm_alloc (_base c)) dst n ->
  exec_memory_fill c =
  (if n =? 0 then pop3 ;;; inc_pc 1
   else
     let* src := peek_ui32 1 in
     on_base (on_alloc (write_unaligned dst 1 (wrap 8 src))) ;;;
     poke_operand 0 (I32 (wrap 32 (n - 1))) ;;; poke_operand 2 (I32 (wrap 32 (dst + 1)))) c.
Proof.
  intros [P O R G] Hn Hd. unfold exec_memory_fill.
  rewrite (bind_Ok _ _ _ _ _ (peek_count c l dst v n O)), (bind_Ok _ _ _ _ _ (peek_first c l dst v n O)).
  assert (Hle : n <= UINT32_MAX) by (unfold in_u, UINT32_MAX in *; lia).
  now rewrite (bind_Ok _ _ _ _ _ (on_alloc_id _ c (validate_in _ dst n (rd_alloc _ R) (rd_reserved _ R) G Hle Hd))).
Qed.

Lemma fill_one c o l dst v n : at_bulk c o l dst v n -> in_u 32 n -> 0 < n -> in_bounds (_wasm_alloc (_base c)) dst n ->
  exists c', exec_memory_fill c = Ok tt c' /\
    moved_to c (write_le (raw (_wasm_alloc (_base c))) dst 1 (wrap 8 v)) c' /\
    at_bulk c' o l (step_to true dst) v (n - 1).
Proof.
  intros B Hn H0 Hd. rewrite (fill_check c o l dst v n B Hn Hd).
  destruct (Z.eqb_spec n 0); [lia|]. pose proof B as [P O R G]. pose proof (bulk_bytes_ok _ _ _ _ _ _ B) as Hb.
  rewrite (wrap_small 32 (n - 1)) by (unfold in_u in *; lia). set (m := raw (_wasm_alloc (_base c))) in *.
  rewrite (bind_Ok _ _ _ _ _ (peek_second c l dst v n O)).
  destruct (write_byte_ready c dst (wrap 8 v) R) as [E1 R1]; [unfold in_bounds in *; lia|apply wrap_range; lia|].
  rewrite (bind_Ok _ _ _ _ _ E1). set (c1 := c <| _base := _ |>) in *.
  destruct (poke_count c1 l dst v n (n - 1) O) as (c2 & E2 & [H2 [s2 ->]]). rewrite (bind_Ok _ _ _ _ _ E2).
  set (c2 := c1 <| _os := s2 |>) in *.
  destruct (poke_first c2 l dst v (n - 1) (wrap 32 (dst + 1)) H2) as (c4 & E4 & [H4 [s4 ->]]).
  eexists. split; [exact E4|].
  assert (M : moved_to c (write_le m dst 1 (wrap 8 v)) (c2 <| _os := s4 |>)) by now exists s4.
  split; [exact M|]. eapply at_bulk_moved; eauto using write_le_bytes_ok.
Qed.

Lemma fill_run N : forall c o l dst v f, at_bulk c o l dst v (Z.of_nat N) -> Z.of_nat N < 2 ^ 32 ->
  in_u 32 dst -> vec_lookup (bytecode (_mod (_base c))) o = Some memory_fill_ ->
  in_bounds (_wasm_alloc (_base c)) dst (Z.of_nat N) ->
  exists m' c', run (S N + f) c = run f c' /\ bulk_end c o l m' c' /\
    filled (raw (_wasm_alloc (_base c))) m' dst (wrap 8 v) (Z.of_nat N).
Proof.
  induction N as [|N IH]; intros c o l dst v f B HN Hd Hop Id;
    pose proof B as [P O R G]; cbn [Nat.add];
    rewrite (run_step memory_fill_ o c _ P Hop) by discriminate; cbn [step].
  - destruct (bulk_end_done c o l dst v B) as (c' & E & Be).
    exists (raw (_wasm_alloc (_base c))), c'. split; [|split; [exact Be|]].
    + unfold bind at 1. rewrite (fill_check c o l dst v 0 B ltac:(unfold in_u; lia) Id), Z.eqb_refl. now rewrite E.
    + intros k. destruct (decide _); [lia|reflexivity].
  - set (n := Z.of_nat (S N)) in *. assert (En : n - 1 = Z.of_nat N) by (unfold n; lia).
    destruct (fill_one c o l dst v n B ltac:(unfold in_u, n in *; lia) ltac:(lia) Id) as (c1 & E1 & M1 & B1).
    rewrite (bind_Ok _ _ _ _ _ E1). rewrite En in B1.
    destruct (step_to_bounds _ true dst n ltac:(lia) Hd Id (in_bounds_32 _ _ _ R Id)) as (Id1 & Ud1 & Ed).
    rewrite En in Id1. pose proof (in_bounds_moved _ _ _ _ _ M1 Id1) as Id2.
    destruct (IH c1 o l _ _ f B1 ltac:(lia) Ud1) as (m' & c' & E & Be & Fl); auto.
    { now destruct M1 as [s ->]. }
    exists m', c'. split; [exact E|]. split; [eapply bulk_end_moved; eauto|].
    replace (raw (_wasm_alloc (_base c1))) with (write_le (raw (_wasm_alloc (_base c))) dst 1 (wrap 8 v)) in Fl
      by now destruct M1 as [s ->].
    rewrite <- En in Fl. apply filled_step; [apply wrap_range; lia|lia|].
    destruct (Z.eq_dec n 1) as [E1'|E1']; [|rewrite Ed in Fl by lia; exact Fl].
    rewrite E1' in *. intros k. specialize (Fl k). destruct (decide _), (decide _); try lia.
Qed.

(** [memory.fill] is [memset]: from an in-bounds range the dispatch loop
    executes it in [n + 1] turns, after which the range holds the low byte of the
    value, every other byte is unchanged, the operands are gone and execution
    continues after the instruction.  A range that exceeds the memory traps at
    the first turn with nothing written. *)
Theorem memory_fill_is_memset c o l dst v n f :
  at_bulk c o l dst v n -> in_u 32 dst -> in_u 32 n ->
  vec_lookup (bytecode (_mod (_base c))) o = Some memory_fill_ ->
  if dst + n <=? mem_bytes (_wasm_alloc (_base c))
  then exists m' c', run (S (Z.to_nat n) + f) c = run f c' /\ bulk_end c o l m' c' /\
         filled (raw (_wasm_alloc (_base c))) m' dst (wrap 8 v) n
  else run (S f) c = Throw (Exn wasm_memory_exception "wasm memory out-of-bounds") c.
Proof.
  intros B Hd Hn Hop. pose proof B as [P O R G].
  destruct (Z.leb_spec (dst + n) (mem_bytes (_wasm_alloc (_base c)))) as [Id|Id].
  - rewrite <- (Z2Nat.id n) in B by (unfold in_u in *; lia). unfold in_u in *.
    destruct (fill_run (Z.to_nat n) c o l dst v f B) as (m' & c' & E & Be & Fl);
      unfold in_u, in_bounds in *; rewrite ?Z2Nat.id in * by lia; try lia; auto.
    exists m', c'. auto.
  - rewrite (run_step memory_fill_ o c _ P Hop) by discriminate. apply bind_Throw. cbn [step]. unfold exec_memory_fill.
    rewrite (bind_Ok _ _ _ _ _ (peek_count c l dst v n O)), (bind_Ok _ _ _ _ _ (peek_first c l dst v n O)).
    apply bind_Throw, on_alloc_throw, validate_out; auto; apply R.
Qed.
End Bulk.

(** The demo's memory holds 1, 2, 3 at addresses 8 to 10. *)
Definition at_copy : ctx unit := Eval vm_compute in
  end_state (push_all [I32 9; I32 8; I32 3] (in_mem <| _pc := CodeAt 29 |>)) in_mem.
Definition at_fill : ctx unit := Eval vm_compute in
  end_state (push_all [I32 9; I32 0x1FF; I32 2] (in_mem <| _pc := CodeAt 30 |>)) in_mem.

Lemma memory_copy_is_memmove_witness :
  exists m' c', run 4 at_copy = run 0 c' /\ bulk_end at_copy 29 [I32 70000] m' c' /\
    moved (raw (_wasm_alloc (_base at_copy))) m' 9 8 3.
Proof.
  refine (@memory_copy_is_memmove demo_sf demo_hf unit at_copy 29 [I32 70000] 9 8 3 0 _ _ _ _ _).
  - split; [reflexivity|split; [vm_compute; split; lia|reflexivity]|exact in_mem_ready|vm_compute; congruence].
  - vm_compute; split; congruence.
  - vm_compute; split; congruence.
  - vm_compute; split; congruence.
  - vm_compute. reflexivity.
Defined.
Lemma memory_fill_is_memset_witness :
  exists m' c', run 3 at_fill = run 0 c' /\ bulk_end at_fill 30 [I32 70000] m' c' /\
    filled (raw (_wasm_alloc (_base at_fill))) m' 9 0xFF 2.
Proof.
  refine (@memory_fill_is_memset demo_sf demo_hf unit at_fill 30 [I32 70000] 9 0x1FF 2 0 _ _ _ _).
  - split; [reflexivity|split; [vm_compute; split; lia|reflexivity]|exact in_mem_ready|vm_compute; congruence].
  - vm_compute; split; congruence.
  - vm_compute; split; congruence.
  - vm_compute. reflexivity.
Defined.
