(* ===== verification/Budget.v ===== *)
(** * Resource budgets

    What bounds an execution: the call-depth budget ([_remaining_call_depth],
    which every activation frame takes its size from) and gas ([gas_state],
    charged at calls and at the metering instruction).  Both are invariants of
    the instruction set, stated over all states an execution reaches. *)
From Stdlib Require Import ZArith Lia Bool String.
From stdpp Require Import base list numbers decidable option gmap.
From S2P Require Import Prelude Types Stack Memory Numeric Softfloat InitExpr Context Operands Interp Handlers Demo.
From S2P Require Import Invariants Control Exceptions.
Import Opcode.

(** ** Executions

    [reaches n c c']: dispatching instructions from [c] leads to [c'], [n] of
    them calls of local functions or metering instructions. *)
Definition metered {H} (op : opcode) (c : ctx H) : bool :=
  match op with
  | gas_charge_ n => 0 <? n
  | call_ i => get_imported_functions_size (_mod (_base c)) <=? i
  | _ => false
  end.

Section Reaches.
Context {SF : SoftFloat} {HF : HostFloat} {H : Type}.

Inductive reaches : Z -> ctx H -> ctx H -> Prop :=
  | reaches_refl c : reaches 0 c c
  | reaches_step n c op c1 c' :
      fetch c = Ok op c -> op <> exit_ -> step op c = Ok tt c1 -> reaches n c1 c' ->
      reaches ((if metered op c then 1 else 0) + n) c c'.

Lemma fetch_same c op c' : fetch (H:=H) c = Ok op c' -> c' = c.
Proof.
  unfold fetch, bind, gets, the_module, gets, vec_index. destruct (_pc c) as [| |o]; try discriminate.
  - intros [= <- <-]. reflexivity.
  - destruct (vec_lookup _ _); [|discriminate]. intros [= <- <-]. reflexivity.
Qed.

(** A run that ends normally reaches its final state. *)
Lemma run_reaches n : forall (c c' : ctx H), run n c = Ok tt c' -> exists k, reaches k c c'.
Proof.
  induction n as [|n IH]; intros c c'; cbn [run]; intros Hr;
    apply bind_ok in Hr as (op & c0 & Ef & Hr); pose proof (fetch_same _ _ _ Ef); subst c0;
    (assert (op = exit_ \/ op <> exit_) as [->|Hx] by (destruct op; (now left) || (right; discriminate));
     [injection Hr as <-; eexists; constructor|]).
  - destruct op; discriminate || congruence.
  - assert (Hs : exists c1, step op c = Ok tt c1 /\ run n c1 = Ok tt c').
    { destruct op; try congruence; apply bind_ok in Hr as ([] & c1 & E1 & E2); eauto. }
    destruct Hs as (c1 & E1 & E2). destruct (IH c1 c' E2) as [k Hk]. eexists. econstructor; eauto.
Qed.
End Reaches.

(** ** Call depth *)
Section Depth.
Context {H : Type}.
Implicit Types c : ctx H.

(** Operations that leave frames, budget and module alone. *)
Definition frame_same c c' : Prop :=
  _as c' = _as c /\ _remaining_call_depth c' = _remaining_call_depth c /\ _mod (_base c') = _mod (_base c).
#[global] Instance frame_same_preorder : PreOrder frame_same.
Proof. split; [intros c; repeat split|]. intros c1 c2 c3 (?&?&?) (?&?&?). repeat split; congruence. Qed.

Definition frame_ok A (m : M (ctx H) A) : Prop := keeps_ok frame_same m.

Lemma frame_modify (f : ctx H -> ctx H) : (forall c, frame_same c (f c)) -> respects frame_ok (modify f).
Proof. intros Hf c. apply Hf. Qed.
Lemma frame_on_base {A} (m : M (base H) A) : keeps base_step m -> respects frame_ok (on_base m).
Proof.
  intros Hm. eapply keeps_ok_zoom; [|apply keeps_keeps_ok, Hm]. intros c b [Hb _ _ _ _ _]. repeat split. exact Hb.
Qed.

#[global] Instance frame_op_inv : OpInv frame_ok.
Proof.
  split.
  - intros A a c. cbn. reflexivity.
  - intros A B m k. apply keeps_ok_bind. exact _.
  - intros A k msg c. exact I.
  - intros A c. exact I.
  - intros A f c. cbn. reflexivity.
  - intros A m Hm. now apply frame_on_base, base_base_op.
  - intros A m _ c. unfold on_os, zoom. destruct (m (_os c)); [repeat split|exact I|exact I].
  - intros f Hf. apply frame_modify. intros c. destruct (Hf c) as (Hb&_&Ha&_&_&Hr&_). repeat split; congruence.
Qed.

Lemma frame_charge_prologue i : respects frame_ok (charge_prologue i).
Proof. unfold charge_prologue. inv_op. apply frame_on_base, base_gas_charge. Qed.
Lemma frame_host_call i args : respects frame_ok (host_call i args).
Proof.
  unfold host_call. inv_step; [auto with inv|]. cbv beta. destruct (he_call _) as [f|]; [|auto with inv].
  inv_step; [auto with inv|]. cbv beta. destruct (f _ _ _) as [[r h] mem].
  inv_step; [apply frame_modify; intros c; repeat split|]. destruct r; [auto with inv|intros c; exact I].
Qed.
Lemma frame_push_caught t v : respects frame_ok (push_caught_exception t v).
Proof. unfold push_caught_exception. inv_op. apply frame_modify. intros c. repeat split. Qed.
Lemma frame_set_global i e : respects frame_ok (set_global i e).
Proof.
  assert (Hs : forall w x, respects frame_ok (store_global i w x)).
  { intros w x. unfold store_global. inv_op. apply frame_modify. intros c. repeat split. }
  unfold set_global. inv_op.
Qed.

(** Function sizes are unsigned. *)
Definition code_sized (m : module) : Prop := Forall (fun fb => 0 <= fb_stack_size fb) (m_code m).

(** The remaining depth and the sizes of the active frames add up to [B]. *)
Record budget (B : Z) c : Prop := {
  bd_wf : stack_wf (_as c);
  bd_sized : sized (view (_as c));
  bd_rem : 0 <= _remaining_call_depth c;
  bd_sum : _remaining_call_depth c + sizes (view (_as c)) = B;
  bd_code : code_sized (_mod (_base c)) }.

Lemma budget_same B c c' : frame_same c c' -> budget B c -> budget B c'.
Proof. intros (Ea & Er & Em) []. split; rewrite ?Ea, ?Er, ?Em; assumption. Qed.

(** Changing the budget and the frames together. *)
Lemma budget_change B c c' fs : budget B c -> _mod (_base c') = _mod (_base c) ->
  frames c' fs -> sized fs -> 0 <= _remaining_call_depth c' -> _remaining_call_depth c' + sizes fs = B ->
  budget B c'.
Proof. intros [] Em [Hw Hv] Hs Hr Hsum. split; rewrite ?Hv, ?Em; auto. Qed.

Lemma sized_snoc fs f : sized (fs ++ [f]) <-> sized fs /\ 0 <= af_frame_size f.
Proof. unfold sized. rewrite Forall_app, Forall_singleton. reflexivity. Qed.
Lemma sizes_snoc fs f : sizes (fs ++ [f]) = sizes fs + af_frame_size f.
Proof. rewrite sizes_app. unfold sizes at 2. cbn. lia. Qed.

Definition depth_step c c' : Prop := forall B, B < 2 ^ 32 -> budget B c -> budget B c'.
#[global] Instance depth_step_preorder : PreOrder depth_step.
Proof. split; [intros c B; auto|]. intros c1 c2 c3 H1 H2 B HB Hb. auto. Qed.
Definition depth_ok A (m : M (ctx H) A) : Prop := keeps_ok depth_step m.

Lemma frame_depth {A} (m : M (ctx H) A) : respects frame_ok m -> respects depth_ok m.
Proof. intros Hm c. specialize (Hm c). destruct (m c); auto. intros B _. now apply budget_same. Qed.
#[global] Instance depth_op_inv : OpInv depth_ok.
Proof.
  split; try (intros; apply frame_depth; auto with inv; fail).
  intros A B m k. apply keeps_ok_bind. exact _.
Qed.

Lemma stack_size_nonneg m i (c c' : ctx H) n : code_sized m -> get_function_stack_size m i c = Ok n c' -> 0 <= n /\ c' = c.
Proof.
  intros Hc. unfold get_function_stack_size. destruct (negb _); [intros [= <- <-]; split; [lia|reflexivity]|].
  destruct (_ <? _); [intros [= <- <-]; split; [lia|reflexivity]|].
  unfold bind, vec_at. destruct (vec_lookup _ _) as [fb|] eqn:El; [|discriminate]. intros [= <- <-]. split; [|reflexivity].
  apply vec_lookup_Some in El as [_ El]. unfold code_sized in Hc. rewrite Forall_lookup in Hc. eauto.
Qed.

(** A frame pushed for its size, which has been taken from the budget. *)
Lemma push_frame_budget B c c1 f c' : budget B c -> push_frame f c1 = Ok tt c' ->
  _as c1 = _as c -> _mod (_base c1) = _mod (_base c) -> 0 <= af_frame_size f <= _remaining_call_depth c ->
  _remaining_call_depth c1 = _remaining_call_depth c - af_frame_size f ->
  budget B c' /\ frames c' (view (_as c) ++ [f]) /\ _remaining_call_depth c' = _remaining_call_depth c1.
Proof.
  intros Hb E Ea Em Hn Er. pose proof Hb as [W S R Sum _].
  destruct (push_frame_view c1 (view (_as c)) f) as (s & E1 & W1 & V1); [now rewrite <- Ea in *|].
  rewrite E1 in E. injection E as <-.
  assert (Hfr : frames (c1 <| _as := s |>) (view (_as c) ++ [f])) by (split; assumption).
  split; [|split; [exact Hfr|reflexivity]].
  eapply budget_change; [exact Hb|exact Em|exact Hfr|apply sized_snoc; split; [exact S|lia]|cbn; lia|].
  rewrite sizes_snoc. cbn. lia.
Qed.

(** A popped frame, with its size still to be returned. *)
Lemma pop_frame_inv c f c' : stack_wf (_as c) -> pop_call c = Ok f c' ->
  exists fs, view (_as c) = fs ++ [f] /\ frames c' fs /\
    _remaining_call_depth c' = _remaining_call_depth c /\ _mod (_base c') = _mod (_base c).
Proof.
  intros W E. destruct (view (_as c)) as [|f0 fs0 _] eqn:V using rev_ind.
  - unfold pop_call, on_as, zoom in E. rewrite (pop_empty _ V W) in E. discriminate.
  - destruct (pop_call_view c fs0 f0 (conj W V)) as (s & E1 & W1 & V1). rewrite E1 in E. injection E as <- <-.
    exists fs0. split; [reflexivity|]. split; [split; assumption|]. split; reflexivity.
Qed.

(** Reading off what a monadic step did. *)
Lemma same_of {A} (m : M (ctx H) A) c a c' : respects frame_ok m -> m c = Ok a c' -> frame_same c c'.
Proof. intros Hm E. specialize (Hm c). now rewrite E in Hm. Qed.
Lemma assert_ok {S} b k msg (s s' : S) u : psizam_assert b k msg s = Ok u s' -> b = true /\ s' = s.
Proof. unfold psizam_assert. destruct b; [|discriminate]. now intros [= _ <-]. Qed.


Ltac mrun :=
  repeat (cbv beta zeta in *; match goal with
  | E : bind _ _ _ = Ok _ _ |- _ => apply bind_ok in E as (? & ? & ? & E)
  | E : gets _ _ = Ok _ _ |- _ => injection E as <- <-
  | E : ret _ _ = Ok _ _ |- _ => apply ret_ok in E as [? ?]; subst
  | E : the_module _ = Ok _ _ |- _ => injection E as <- <-
  | E : modify _ _ = Ok _ _ |- _ => apply modify_ok in E; subst
  | E : operand_size _ = Ok _ _ |- _ => injection E as <- <-
  | E : psizam_assert _ _ _ _ = Ok _ _ |- _ => apply assert_ok in E as [? ->]
  | u : unit |- _ => destruct u
  end).

(** Every step that leaves frames alone becomes an equality of frames. *)
Ltac msame :=
  repeat match goal with
  | E : ?m ?c = Ok _ ?c' |- _ =>
      let h := fresh "Hs" in
      assert (h : frame_same c c') by (eapply same_of; [|exact E]; inv_op); clear E
  end.

Lemma depth_push_call x i : respects depth_ok (push_call x i).
Proof.
  intros c. destruct (push_call x i c) as [u c'|e c'|] eqn:E; auto. intros B HB Hb. unfold push_call in E. mrun.
  match goal with E1 : (if x then _ else _) c = Ok _ ?c1 |- _ =>
    assert (c1 = c) as -> by (destruct x; [now injection E1|destruct (_pc c); try discriminate; now injection E1]) end.
  match goal with E1 : get_function_stack_size _ _ _ = Ok _ _ |- _ =>
    destruct (stack_size_nonneg _ _ _ _ _ (bd_code _ _ Hb) E1) as [? ->] end.
  match goal with E1 : push_frame _ _ = Ok _ _ |- _ =>
    destruct (push_frame_budget B c _ _ _ Hb E1 eq_refl eq_refl) as (Hb1 & _ & _); [cbn; blia|reflexivity|] end.
  msame.
  eapply budget_same; [|exact Hb1]. etrans; [exact Hs|]. repeat split.
Qed.

(** A popped frame gives its size back. *)
Lemma budget_pop B c f fs c' : B < 2 ^ 32 -> budget B c -> view (_as c) = fs ++ [f] -> frames c' fs ->
  _mod (_base c') = _mod (_base c) ->
  _remaining_call_depth c' = wrap 32 (_remaining_call_depth c + af_frame_size f) -> budget B c'.
Proof.
  intros HB Hb Hv Hf Em Er. pose proof Hb as [W S R Sum _]. rewrite Hv in S, Sum. apply sized_snoc in S as [S1 S2].
  rewrite sizes_snoc in Sum. pose proof (sizes_nonneg fs S1).
  assert (Ew : wrap 32 (_remaining_call_depth c + af_frame_size f) = _remaining_call_depth c + af_frame_size f)
    by (apply wrap_small; unfold in_u; lia).
  eapply budget_change; [exact Hb|exact Em|exact Hf|exact S1|lia|lia].
Qed.

Lemma depth_pop_call n r : respects depth_ok (apply_pop_call n r).
Proof.
  intros c. destruct (apply_pop_call n r c) as [u c'|e c'|] eqn:E; auto. intros B HB Hb.
  unfold apply_pop_call in E. mrun.
  match goal with E1 : pop_call _ = Ok _ _ |- _ =>
    destruct (pop_frame_inv _ _ _ (bd_wf _ _ Hb) E1) as (fs & Hv & Hf & Hr & Hm); clear E1 end.
  match goal with E1 : (if r =? 1 then _ else _) ?x = Ok _ ?y |- _ =>
    assert (Hs : frame_same x y); [|clear E1] end.
  { eapply same_of; [|eassumption]. destruct (r =? 1); [auto with inv|].
    destruct (Z.ltb_spec 1 r); [|auto with inv]. apply inv_os. constructor. lia. }
  destruct Hs as (Ha & Hd & Hmm). cbn in Ha, Hd, Hmm.
  eapply budget_pop; [exact HB|exact Hb|exact Hv| |cbn; congruence|cbn; congruence].
  destruct Hf as [W V]. unfold frames. cbn. rewrite Ha. split; assumption.
Qed.

Lemma depth_unwind d : respects depth_ok (unwind_call_stack_to d).
Proof.
  unfold unwind_call_stack_to. inv_step; [auto with inv|]. generalize (Z.to_nat a) as n. clear a.
  induction n as [|n IH]; intros c; cbn [unwind_loop].
  - unfold call_depth, bind, gets. destruct (_ <=? d); [cbn; reflexivity|exact I].
  - unfold call_depth. unfold bind at 1, gets. destruct (_ <=? d); [cbn; reflexivity|].
    match goal with |- match ?x with _ => _ end => destruct x as [u c'|e c'|] eqn:E end; auto.
    intros B HB Hb. mrun.
    match goal with E1 : pop_call _ = Ok _ _ |- _ =>
      destruct (pop_frame_inv _ _ _ (bd_wf _ _ Hb) E1) as (fs & Hv & Hf & Hr & Hm); clear E1 end.
    match goal with E1 : unwind_loop n d ?y = Ok _ _ |- _ => specialize (IH y); rewrite E1 in IH end.
    apply IH; [exact HB|]. eapply budget_pop; [exact HB|exact Hb|exact Hv|exact Hf|exact Hm|cbn; congruence].
Qed.

#[local] Hint Resolve frame_charge_prologue frame_host_call frame_set_global : inv.

(** A frame pushed and popped around operations that leave frames alone. *)
Lemma push_pop_frames c c1 f c2 c3 g c4 : stack_wf (_as c) -> _as c1 = _as c ->
  push_frame f c1 = Ok tt c2 -> frame_same c2 c3 -> pop_call c3 = Ok g c4 ->
  frames c4 (view (_as c)) /\ _mod (_base c4) = _mod (_base c1).
Proof.
  intros W Ea E2 (Ha & _ & Hmm) E3.
  destruct (push_frame_view c1 (view (_as c)) f) as (s & E1 & W1 & V1); [now rewrite <- Ea in *|].
  rewrite E1 in E2. injection E2 as <-. cbn in Ha, Hmm.
  assert (Wx : stack_wf (_as c3)) by (now rewrite Ha).
  destruct (pop_frame_inv c3 _ _ Wx E3) as (fs & Hv & Hf & _ & Hm').
  rewrite Ha, V1 in Hv. apply app_inj_tail in Hv as [<- _]. split; [exact Hf|congruence].
Qed.

(** Chains of operations that leave frames alone. *)
Ltac mtrans :=
  repeat match goal with
  | H1 : frame_same ?x ?y, H2 : frame_same ?y ?z |- _ =>
      let h := fresh "Hs" in assert (h : frame_same x z) by (now transitivity y); clear H1 H2
  end.

Lemma depth_call_host i : respects depth_ok (call_host i).
Proof.
  intros c. destruct (call_host i c) as [u c'|e c'|] eqn:E; auto. intros B HB Hb. unfold call_host in E. mrun.
  match type of E with match ?x with _ => _ end = _ => destruct x as [u c1|e c1|] eqn:E1; try discriminate end.
  apply ret_ok in E as [_ ->]. mrun. msame. mtrans.
  match goal with E1 : push_frame _ ?y = Ok _ ?z, E2 : pop_call ?t = Ok _ _, Hx : frame_same c ?x, Hy : frame_same ?z ?t |- _ =>
    pose proof (budget_same _ _ _ Hx Hb) as Hb1;
    destruct (push_pop_frames x y _ z t _ _ (bd_wf _ _ Hb1) eq_refl E1 Hy E2) as [Hf Hm] end.
  eapply budget_change; [exact Hb1|exact Hm|exact Hf|apply Hb1|apply Hb1|apply Hb1].
Qed.

Lemma peek_frame_inv c f c' : stack_wf (_as c) -> on_as (peek 0) c = Ok f c' ->
  c' = c /\ exists fs, view (_as c) = fs ++ [f].
Proof.
  intros W E. destruct (view (_as c)) as [|f0 fs0 _] eqn:V using rev_ind.
  - unfold on_as, zoom, peek in E. pose proof (view_length _ W) as L. rewrite V in L. cbn in L.
    rewrite <- L in E. discriminate.
  - rewrite (peek_frame c fs0 f0 (conj W V)) in E. injection E as <- <-. eauto.
Qed.

(** The size of the top frame exchanged for another. *)
Lemma exchange_frame B c f fs n g c1 c' : B < 2 ^ 32 -> budget B c -> view (_as c) = fs ++ [f] ->
  0 <= n <= wrap 32 (_remaining_call_depth c + af_frame_size f) -> af_frame_size g = n ->
  on_as (poke 0 g) c1 = Ok tt c' -> _as c1 = _as c -> _mod (_base c1) = _mod (_base c) ->
  _remaining_call_depth c1 = wrap 32 (_remaining_call_depth c + af_frame_size f) - n -> budget B c'.
Proof.
  intros HB Hb Hv Hn Hg E Ha Hm Hr. pose proof Hb as [W S R Sum _]. rewrite Hv in S, Sum.
  apply sized_snoc in S as [S1 S2]. rewrite sizes_snoc in Sum. pose proof (sizes_nonneg fs S1).
  assert (Ew : wrap 32 (_remaining_call_depth c + af_frame_size f) = _remaining_call_depth c + af_frame_size f)
    by (apply wrap_small; unfold in_u; lia).
  destruct (poke_frame c1 fs f g) as (s & E1 & W1 & V1); [unfold frames; rewrite Ha; auto|].
  rewrite E1 in E. injection E as <-.
  eapply (budget_change B c _ (fs ++ [g])); [exact Hb|exact Hm|split; assumption|apply sized_snoc; split; [exact S1|lia]|cbn; lia|].
  rewrite sizes_snoc. cbn. lia.
Qed.

(** A tail call to a host function returns from the caller's frame; one to a
    local function exchanges its size. *)
Lemma depth_tail_call i : respects depth_ok (tail_call i).
Proof.
  intros c. destruct (tail_call i c) as [u c'|e c'|] eqn:E; auto. intros B HB Hb. unfold tail_call in E. mrun.
  match goal with E1 : on_as (peek 0) _ = Ok _ _ |- _ =>
    destruct (peek_frame_inv _ _ _ (bd_wf _ _ Hb) E1) as [-> (fs & Hv)]; clear E1 end.
  destruct (i <? _).
  - mrun. msame. mtrans.
    match goal with E1 : pop_call ?t = Ok _ _, Hx : frame_same _ ?t |- _ => destruct Hx as (Ha & Hr & Hm); cbn in Ha, Hr, Hm;
      assert (Wt : stack_wf (_as t)) by (rewrite Ha; apply Hb);
      destruct (pop_frame_inv t _ _ Wt E1) as (fs' & Hv' & Hf & Hr' & Hm') end.
    rewrite Ha, Hv in Hv'. apply app_inj_tail in Hv' as [<- _].
    eapply budget_pop; [exact HB|exact Hb|exact Hv|exact Hf|cbn; congruence|cbn; congruence].
  - mrun.
    match goal with E1 : get_function_stack_size _ _ _ = Ok ?k _ |- _ =>
      destruct (stack_size_nonneg _ _ _ _ _ (bd_code _ _ Hb) E1) as [Hk ->]; clear E1; rename k into n end.
    msame. mtrans.
    match goal with Hx : frame_same (c <| _remaining_call_depth := _ |>) _, Hy : frame_same _ ?t,
        E1 : on_as (poke 0 _) (?t <| _last_op_index := _ |>) = Ok _ _, Hz : frame_same _ c' |- _ =>
      destruct Hx as (A1 & R1 & M1), Hy as (A2 & R2 & M2); cbn in A1, R1, M1, A2, R2, M2;
      eapply budget_same; [exact Hz|]; eapply exchange_frame; [exact HB|exact Hb|exact Hv| |reflexivity|exact E1|..] end;
      cbn; [blia|congruence..].
Qed.

#[global] Instance depth_call_inv : CallInv depth_ok.
Proof.
  refine {| inv_cost := fun _ => True |}; intros; auto using depth_push_call, depth_pop_call, depth_call_host,
    depth_tail_call, depth_unwind, frame_depth, frame_charge_prologue, frame_set_global, frame_push_caught.
  apply frame_depth, frame_on_base, base_gas_charge.
Defined.

End Depth.

(** ** Gas *)
Section Gas.
Context {H : Type}.
Implicit Types b : base H.
Implicit Types c : ctx H.

(** Everything but a charge leaves the gas state and the module alone. *)
Definition gas_same b b' : Prop := _gas b' = _gas b /\ _mod b' = _mod b.
#[global] Instance gas_same_preorder : PreOrder gas_same.
Proof. split; [intros b; split; reflexivity|]. intros b1 b2 b3 [] []. split; congruence. Qed.

Lemma gas_on_alloc {A} (m : M wasm_allocator A) : keeps gas_same (on_alloc m).
Proof. intros b. unfold on_alloc, zoom. destruct (m (_wasm_alloc b)); cbn; auto; split; reflexivity. Qed.
Lemma gas_modify (f : base H -> base H) : (forall b, gas_same b (f b)) -> keeps gas_same (modify f).
Proof. apply keeps_modify. Qed.
#[local] Hint Resolve gas_on_alloc : keeps.
#[local] Hint Extern 1 (keeps gas_same (modify _)) =>
  (apply gas_modify; intros; repeat case_match; split; reflexivity) : keeps.

Lemma gas_table_store t i e : keeps gas_same (table_store t i e).
Proof. unfold table_store. keeps. Qed.
#[local] Hint Resolve gas_table_store : keeps.
Lemma gas_table_store_list t i l : keeps gas_same (table_store_list t i l).
Proof. revert i. induction l; intros i; cbn [table_store_list]; keeps. Qed.
#[local] Hint Resolve gas_table_store_list : keeps.

Lemma gas_base_op {A} (m : M (base H) A) : base_op m -> keeps gas_same m.
Proof.
  destruct 1; auto with keeps; unfold track_read_max, track_read_or, validate_read_watermark, grow_linear_memory,
    init_linear_memory, drop_data, table_elem, get_table_ptr, init_table, drop_elem, table_grow, table_fill,
    get_table_base, get_table_size, table_load, table_size_at; keeps.
Qed.

(** Every cost of the module is at most [K], and a call costs something. *)
Definition costs_within (K : Z) (m : module) : Prop :=
  Forall (fun fb => 1 <= prologue_cost fb <= K) (m_code m) /\
  Forall (op_ok (fun n => 0 <= n <= K)) (bytecode m).

(** Metering without a handler, on counters that cannot overflow. *)
Record metering (K : Z) b : Prop := {
  mt_handler : handler (_gas b) = None;
  mt_range : 0 <= consumed (_gas b) <= deadline (_gas b);
  mt_headroom : deadline (_gas b) + K < 2 ^ 64;
  mt_costs : costs_within K (_mod b) }.

(** Gas is only spent, and never past the deadline. *)
Definition gas_step (K : Z) b b' : Prop := metering K b ->
  metering K b' /\ consumed (_gas b) <= consumed (_gas b') /\ deadline (_gas b') = deadline (_gas b).
#[global] Instance gas_step_preorder K : PreOrder (gas_step K).
Proof.
  split; [intros b Hb; split; [exact Hb|lia]|]. intros b1 b2 b3 H1 H2 Hb.
  destruct (H1 Hb) as (M1 & L1 & D1), (H2 M1) as (M2 & L2 & D2). split; [exact M2|]. lia.
Qed.

Lemma gas_same_step K b b' : gas_same b b' -> gas_step K b b'.
Proof. intros [Eg Em] [Hh Hr Hd Hc]. split; [split; rewrite ?Eg, ?Em; assumption|]. rewrite Eg. lia. Qed.

(** One charge. *)
Lemma gas_charge_spends K n b b' : metering K b -> 0 <= n <= K -> gas_charge n b = Ok tt b' ->
  metering K b' /\ consumed (_gas b') = consumed (_gas b) + n /\ deadline (_gas b') = deadline (_gas b).
Proof.
  intros [Hh Hr Hd Hc] Hn. unfold gas_charge, bind, modify, get.
  rewrite (wrap_small 64 n) by (unfold in_u; lia). rewrite (wrap_small 64 (_ + n)) by (unfold in_u; lia).
  cbn -[Z.leb]. rewrite Hh. destruct (Z.leb_spec (deadline (_gas b)) (consumed (_gas b) + n)) as [|Hlt]; [discriminate|].
  intros [= <-]. cbn. split; [split; cbn; auto; lia|]. lia.
Qed.

Definition gas_ok (K : Z) A (m : M (ctx H) A) : Prop := keeps_ok (fun c c' => gas_step K (_base c) (_base c')) m.
#[local] Instance gas_ctx_preorder K : PreOrder (fun c c' : ctx H => gas_step K (_base c) (_base c')).
Proof. split; [intros c; reflexivity|]. intros c1 c2 c3 H1 H2. etrans; eauto. Qed.

Lemma gas_on_base K {A} (m : M (base H) A) : keeps gas_same m -> respects (gas_ok K) (on_base m).
Proof. intros Hm. eapply keeps_ok_zoom; [|apply keeps_keeps_ok, Hm]. intros c b Hb. cbn. now apply gas_same_step. Qed.
Lemma gas_ctx_modify K (f : ctx H -> ctx H) : (forall c, gas_same (_base c) (_base (f c))) -> respects (gas_ok K) (modify f).
Proof. intros Hf c. cbn. apply gas_same_step, Hf. Qed.
Lemma gas_on_as K {A} (m : M (stack activation_frame) A) : respects (gas_ok K) (on_as m).
Proof. intros c. unfold on_as, zoom. destruct (m (_as c)); cbn; auto. reflexivity. Qed.

#[global] Instance gas_op_inv K : OpInv (gas_ok K).
Proof.
  split.
  - intros A a c. cbn. reflexivity.
  - intros A B m k. apply keeps_ok_bind. exact _.
  - intros A k msg c. exact I.
  - intros A c. exact I.
  - intros A f c. cbn. reflexivity.
  - intros A m Hm. now apply gas_on_base, gas_base_op.
  - intros A m _ c. unfold on_os, zoom. destruct (m (_os c)); cbn; auto. reflexivity.
  - intros f Hf. apply gas_ctx_modify. intros c. destruct (Hf c) as (-> & _). reflexivity.
Qed.

Lemma gas_charge_ok K n : 0 <= n <= K -> respects (gas_ok K) (on_base (gas_charge n)).
Proof.
  intros Hn c. unfold on_base, zoom. destruct (gas_charge n (_base c)) as [[] b|e b|] eqn:E; auto. cbn. intros Hm.
  destruct (gas_charge_spends K n _ _ Hm Hn E) as (M & Ec & Ed). split; [exact M|]. lia.
Qed.

(** The prologue of a local function. *)
Lemma charge_prologue_spends K i c c' : metering K (_base c) -> charge_prologue i c = Ok tt c' ->
  metering K (_base c') /\ deadline (_gas (_base c')) = deadline (_gas (_base c)) /\
  consumed (_gas (_base c)) + (if get_imported_functions_size (_mod (_base c)) <=? i then 1 else 0) <= consumed (_gas (_base c')).
Proof.
  intros Hm. unfold charge_prologue, bind, the_module, gets. destruct (_ <=? i).
  - unfold vec_index. destruct (vec_lookup _ _) as [fb|] eqn:El; [|discriminate]. unfold ret, on_base, zoom.
    pose proof (mt_costs _ _ Hm) as [Hc _]. rewrite Forall_lookup in Hc. apply vec_lookup_Some in El as [_ El].
    specialize (Hc _ _ El). cbn in Hc. fold (prologue_cost fb).
    destruct (gas_charge (prologue_cost fb) (_base c)) as [[] b|e b|] eqn:E; try discriminate. intros [= <-]. cbn.
    destruct (gas_charge_spends K (prologue_cost fb) _ _ Hm ltac:(lia) E) as (M & Ec & Ed). split; [exact M|]. lia.
  - intros [= <-]. split; [exact Hm|]. lia.
Qed.
Lemma gas_charge_prologue K i : respects (gas_ok K) (charge_prologue i).
Proof.
  intros c. destruct (charge_prologue i c) as [[] c'|e c'|] eqn:E; auto. intros Hm.
  destruct (charge_prologue_spends K i c c' Hm E) as (M & Ed & Ec). split; [exact M|]. destruct (_ <=? i); lia.
Qed.

#[local] Hint Resolve gas_on_as gas_charge_prologue : inv.
#[local] Hint Extern 2 (respects (gas_ok _) (modify _)) => (apply gas_ctx_modify; intros; split; reflexivity) : inv.
Lemma gas_host_call K i args : respects (gas_ok K) (host_call i args).
Proof.
  unfold host_call. inv_step; [auto with inv|]. cbv beta. destruct (he_call _) as [f|]; [|auto with inv].
  inv_step; [auto with inv|]. cbv beta. destruct (f _ _ _) as [[r h] mem].
  inv_step; [auto with inv|]. destruct r; [auto with inv|intros c; exact I].
Qed.
#[local] Hint Resolve gas_host_call : inv.
Lemma gas_push_frame K f : respects (gas_ok K) (push_frame f). Proof. apply gas_on_as. Qed.
Lemma gas_pop_frame K : respects (gas_ok K) (pop_call (H:=H)). Proof. apply gas_on_as. Qed.
#[local] Hint Resolve gas_push_frame gas_pop_frame : inv.

#[global] Instance gas_call_inv K : CallInv (gas_ok K).
Proof.
  refine {| inv_cost := fun n => 0 <= n <= K |}; intros; auto with inv.
  - assert (Hs : forall w x, respects (gas_ok K) (store_global i w x)).
    { intros. unfold store_global. inv_op. apply gas_on_base. auto with keeps. }
    unfold set_global. inv_op.
  - now apply gas_charge_ok.
  - unfold push_call. inv_op.
  - unfold apply_pop_call. do 3 (inv_step; cbv beta; [auto with inv|]). inv_step; [|auto with inv].
    destruct (r =? 1); [auto with inv|]. destruct (Z.ltb_spec 1 r); [|auto with inv].
    apply inv_os. constructor. lia.
  - unfold call_host. do 6 (inv_step; cbv beta; [auto with inv|]). cbv zeta. inv_step; [auto with inv|].
    match goal with |- respects _ (fun c0 => match ?m c0 with _ => _ end) =>
      assert (Hm : respects (gas_ok K) m) by inv_op; intros c; specialize (Hm c); destruct (m c); auto end.
  - unfold tail_call. inv_op.
  - unfold unwind_call_stack_to. inv_step; [auto with inv|]. generalize (Z.to_nat a) as n.
    induction n; cbn [unwind_loop]; inv_op.
  - unfold push_caught_exception. inv_op.
Defined.
End Gas.

(** ** Theorems *)
Section Theorems.
Context {SF : SoftFloat} {HF : HostFloat} {H : Type}.
Implicit Types c : ctx H.

(** C13. The call-depth budget is conserved: in every state an execution reaches,
    through any mix of calls, returns, tail calls, host calls and exceptions,
    the remaining depth and the sizes of the active frames add up to the budget
    it started with, and neither is negative; so no recursion makes the frames
    exceed the budget. *)
Theorem call_depth_conserved B n c c' : B < 2 ^ 32 -> budget B c -> reaches n c c' ->
  budget B c' /\ sizes (view (_as c')) <= B.
Proof.
  intros HB Hb Hr. assert (Hb' : budget B c').
  { induction Hr as [c|n c op c1 c' Ef Hx Es Hr IH]; [exact Hb|]. apply IH.
    assert (Ho : op_ok (inv_cost (P:=@depth_ok H)) op) by (destruct op; exact I).
    pose proof (inv_instr depth_ok op Ho c) as Hs. rewrite Es in Hs. exact (Hs B HB Hb). }
  split; [exact Hb'|]. destruct Hb'. lia.
Qed.

(** A step that is metered spends gas. *)
Lemma step_spends K op c c1 : metering K (_base c) -> fetch c = Ok op c -> step op c = Ok tt c1 ->
  metering K (_base c1) /\ deadline (_gas (_base c1)) = deadline (_gas (_base c)) /\
  consumed (_gas (_base c)) + (if metered op c then 1 else 0) <= consumed (_gas (_base c1)).
Proof.
  intros Hm Ef Es.
  assert (Ho : op_ok (inv_cost (P:=@gas_ok H K)) op).
  { destruct (mt_costs _ _ Hm) as [_ Hc]. rewrite Forall_lookup in Hc. revert Ef.
    unfold fetch, bind, gets, the_module, gets, vec_index. destruct (_pc c) as [| |o]; [discriminate|now intros [= <-]|].
    destruct (vec_lookup _ _) as [op'|] eqn:El; [|discriminate]. intros [= ->].
    apply vec_lookup_Some in El as [_ El]. exact (Hc _ _ El). }
  assert (Hstep : gas_step K (_base c) (_base c1)).
  { pose proof (inv_instr (gas_ok K) op Ho c) as Hs. now rewrite Es in Hs. }
  destruct (metered op c) eqn:Eop; [|destruct (Hstep Hm) as (M & L & D); split; [exact M|lia]].
  destruct op; try discriminate; cbn [metered step] in *.
  - apply bind_ok in Es as ([] & c0 & E1 & E2). apply bind_ok in E2 as ([] & c2 & E3 & E4).
    assert (S0 : gas_step K (_base c) (_base c0)).
    { pose proof (inv_base (P:=gas_ok K) _ validate_read_watermark op_watermark c) as Hs. now rewrite E1 in Hs. }
    assert (S4 : gas_step K (_base c2) (_base c1)).
    { pose proof (inv_inc_pc (gas_ok K) 1 c2) as Hs. now rewrite E4 in Hs. }
    destruct (S0 Hm) as (M0 & L0 & D0). unfold on_base, zoom in E3.
    destruct (gas_charge cost (_base c0)) as [[] b|e b|] eqn:Eg; try discriminate. injection E3 as <-.
    destruct (gas_charge_spends K cost _ _ M0 Ho Eg) as (M2 & C2 & D2). destruct (S4 M2) as (M4 & L4 & D4). cbn in *.
    split; [exact M4|]. apply Z.ltb_lt in Eop. lia.
  - unfold call in Es. apply bind_ok in Es as ([] & c0 & E1 & E2).
    destruct (charge_prologue_spends K index c c0 Hm E1) as (M0 & D0 & C0). rewrite Eop in C0.
    assert (S2 : gas_step K (_base c0) (_base c1)).
    { match type of E2 with ?m c0 = _ => assert (Hs : respects (gas_ok K) m) end.
      { inv_step; [auto with inv|]. cbv beta. destruct (index <? _); [apply inv_call_host|exact (inv_call_local (gas_ok K) index)]. }
      specialize (Hs c0). now rewrite E2 in Hs. }
    destruct (S2 M0) as (M2 & L2 & D2). split; [exact M2|]. lia.
Qed.

(** C14. Gas bounds work: with metering on, an execution that passes [n] metering
    instructions and direct calls of local functions has spent at least [n] more
    than at its start, and never more than the deadline; so no execution makes
    more of them than it has gas. *)
Theorem gas_bounds_work K n c c' : metering K (_base c) -> reaches n c c' ->
  metering K (_base c') /\ deadline (_gas (_base c')) = deadline (_gas (_base c)) /\
  consumed (_gas (_base c)) + n <= consumed (_gas (_base c')) <= deadline (_gas (_base c)).
Proof.
  intros Hm Hr. induction Hr as [c|n c op c1 c' Ef Hx Es Hr IH].
  - split; [exact Hm|]. destruct Hm. lia.
  - destruct (step_spends K op c c1 Hm Ef Es) as (M1 & D1 & C1). destruct (IH M1) as (M2 & D2 & C2).
    split; [exact M2|]. lia.
Qed.
End Theorems.

(** ** Witnesses

    The factorial of the demo module, entered with a gas budget of 1000 and run
    for 20 instructions: two nested calls. *)
Fixpoint dispatches (k : nat) (c : ctx unit) : option (Z * ctx unit) :=
  match k with
  | O => Some (0, c)
  | S k' =>
      match fetch c with
      | Ok exit_ _ => None
      | Ok op c0 =>
          match step op c with
          | Ok _ c1 =>
              match dispatches k' c1 with
              | Some (n, c') => Some ((if metered op c then 1 else 0) + n, c')
              | None => None
              end
          | _ => None
          end
      | _ => None
      end
  end.
Lemma dispatches_reaches k : forall c n c', dispatches k c = Some (n, c') -> reaches n c c'.
Proof.
  induction k as [|k IH]; intros c n c'; cbn [dispatches]; [intros [= <- <-]; constructor|].
  destruct (fetch c) as [op c0|e c0|] eqn:Ef; [|discriminate|discriminate].
  pose proof (fetch_same _ _ _ Ef) as ->. intros E.
  assert (Hs : op <> exit_ /\ exists c1 n1, step op c = Ok tt c1 /\ dispatches k c1 = Some (n1, c') /\
    n = (if metered op c then 1 else 0) + n1).
  { destruct op; try discriminate E; (split; [discriminate|]);
      match type of E with match step ?o c with _ => _ end = _ => destruct (step o c) as [[] c1|e c1|] end;
      try discriminate; (destruct (dispatches k c1) as [[n1 c2]|] eqn:Ed; [|discriminate]); injection E as <- <-; eauto. }
  destruct Hs as (Hx & c1 & n1 & E1 & E2 & ->). econstructor; eauto.
Qed.

Definition in_fac : ctx unit := Eval vm_compute in
  let c := end_state ((push_operand (I32 3) ;;; set_pc (CodeAt 0) ;;; call_local 0) demo_ctx) demo_ctx in
  c <| _base := set_gas_budget 1000 (_base c) |>.
Definition fac_later : ctx unit :=
  match dispatches 20 in_fac with Some (_, c) => c | None => in_fac end.
Lemma in_fac_reaches : reaches 2 in_fac fac_later.
Proof. apply (dispatches_reaches 20). vm_compute. reflexivity. Qed.

Lemma call_depth_conserved_witness :
  (budget 250 fac_later /\ sizes (view (_as fac_later)) <= 250) /\ vec_size (view (_as fac_later)) = 3.
Proof.
  split; [|vm_compute; reflexivity].
  apply (call_depth_conserved 250 2 in_fac); [lia| |exact in_fac_reaches].
  split; [split; (apply Nat.leb_le || apply Nat.ltb_lt); vm_compute; reflexivity|..];
    try (vm_compute; reflexivity); try (vm_compute; discriminate);
    refine (bool_decide_unpack _ _); vm_compute; exact I.
Defined.

Lemma gas_bounds_work_witness :
  (metering 100 (_base fac_later) /\ deadline (_gas (_base fac_later)) = 1000 /\
   0 + 2 <= consumed (_gas (_base fac_later)) <= 1000) /\ consumed (_gas (_base fac_later)) = 20.
Proof.
  split; [|vm_compute; reflexivity].
  apply (gas_bounds_work 100 2 in_fac fac_later); [|exact in_fac_reaches].
  split; [vm_compute; reflexivity|vm_compute; split; discriminate|vm_compute; reflexivity|].
  split; [refine (bool_decide_unpack _ _); vm_compute; exact I|].
  repeat (constructor; [vm_compute; try exact I; split; discriminate|]). constructor.
Defined.
