(* ===== verification/Termination.v ===== *)
(** * Metered programs end

    The interpreter charges gas at the entry of every function and at the
    metering instructions that head loops.  A ranking of the code offsets that
    falls along every step within a function but the metering ones shows that
    nothing else goes on for ever: remaining gas, weighted by the largest rank,
    plus the ranks of the current offset and of the return addresses, falls with
    every instruction.  Stated on the programs of [Verifier], whose runs
    [Soundness] describes. *)
From Stdlib Require Import ZArith Lia Bool String.
From stdpp Require Import base list numbers decidable option gmap.
From S2P Require Import Prelude Types Stack Memory Numeric Softfloat InitExpr Context Operands Interp Handlers Demo Invariants.
From S2P Require Import TypedOps TypedVec Typing Control Verifier Soundness Exceptions Budget.
Import Opcode.

(** ** Rankings *)
Section Rank.
Context (m : module) (G : typing) (rk : list nat) (R : Z).

Definition rank (o : Z) : Z := Z.of_nat (default O (vec_lookup rk o)).
(** Every step within the function goes down, unless it is paid for. *)
Definition descends (o : Z) (op : opcode) : bool :=
  match op with
  | gas_charge_ n => 0 <? n
  | _ => forallb (fun o' => rank o' <? rank o) (succs m o op)
  end.
Definition check_rank (o : nat) (op : opcode) : bool :=
  match type_at G (Z.of_nat o) with
  | Some _ => (1 <=? rank (Z.of_nat o)) && (rank (Z.of_nat o) <=? R) && descends (Z.of_nat o) op
  | None => true
  end.
Definition ranked : bool := forallb (fun p => check_rank p.1 p.2) (zip (seq 0 (length (bytecode m))) (bytecode m)).

Lemma ranked_at o pt op : ranked = true -> type_at G o = Some pt -> vec_lookup (bytecode m) o = Some op ->
  1 <= rank o <= R /\ descends o op = true.
Proof.
  unfold ranked. rewrite forallb_forall. intros Hr Ht [H0 Hop]%vec_lookup_Some.
  assert (Hin : In (Z.to_nat o, op) (zip (seq 0 (length (bytecode m))) (bytecode m))).
  { apply list_elem_of_In, list_elem_of_lookup_2 with (i := Z.to_nat o). apply lookup_lt_Some in Hop as Hl.
    now rewrite lookup_zip_with, lookup_seq_lt, Hop by assumption. }
  specialize (Hr _ Hin). unfold check_rank in Hr. cbn [fst snd] in Hr. rewrite Z2Nat.id, Ht in Hr by lia.
  rewrite !andb_true_iff, !Z.leb_le in Hr. tauto.
Qed.

Definition frame_rank (af : activation_frame) : Z := match af_pc af with CodeAt o => rank o | _ => 0 end.
Definition frame_ranks (fs : list activation_frame) : Z := foldr (fun af n => frame_rank af + n) 0 fs.
Lemma frame_ranks_snoc fs af : frame_ranks (fs ++ [af]) = frame_ranks fs + frame_rank af.
Proof. unfold frame_ranks. induction fs as [|f fs IH]; cbn; [lia|]. rewrite IH. lia. Qed.
Lemma rank_nonneg o : 0 <= rank o. Proof. unfold rank. lia. Qed.
Lemma frame_ranks_nonneg fs : 0 <= frame_ranks fs.
Proof.
  induction fs as [|f fs IH]; [cbn; lia|]. change (0 <= frame_rank f + frame_ranks fs).
  assert (0 <= frame_rank f) by (unfold frame_rank; destruct (af_pc f); try lia; apply rank_nonneg). lia.
Qed.

Definition gas_left {H} (b : base H) : Z := deadline (_gas b) - consumed (_gas b).
Definition potential {H} (b : base H) (o : Z) (fs : list activation_frame) : Z :=
  gas_left b * (R + 1) + rank o + frame_ranks fs.
End Rank.

Section Program.
Context {SF : SoftFloat} {HF : HostFloat} {H : Type}.
Implicit Types c : ctx H.
Context (m : module) (G : typing) (F : Z) (Hv : verify m G F = true) (rk : list nat) (R : Z) (Hrk : ranked m G rk R = true).
Context (foreign : exn -> Prop) (K : Z).

Section Run.
Context (pre0 : list elem) (fs0 : list activation_frame) (R0 : list Z) (D : Z).
Context (HF0 : 0 <= F) (HD : vec_size pre0 + D * F < 2 ^ 32) (HD32 : D < 2 ^ 32).
Abbreviation running := (running m G F foreign pre0 fs0 R0 D).
Abbreviation finished := (finished m foreign pre0 R0).
Abbreviation potential := (potential rk R).

(** The move that an instruction at [o] under [fs1] makes to [o'] under [fs1']. *)
Inductive moves c (op : opcode) (o : Z) (fs1 : list activation_frame) : base H -> Z -> list activation_frame -> Prop :=
  | move_within b o' : o' ∈ succs m o op -> moves c op o fs1 b o' (fs0 ++ fs1)
  | move_return b fs1' af o' : fs1 = fs1' ++ [af] -> af_pc af = CodeAt o' -> moves c op o fs1 b o' (fs0 ++ fs1')
  | move_call j c1 c2 ft fb af : _base c1 = _base c -> charge_prologue j c1 = Ok tt c2 -> local_fn m j ft fb ->
      af_pc af = CodeAt (o + 1) -> is_call op = true -> moves c op o fs1 (_base c2) (fb_code fb) (fs0 ++ fs1 ++ [af]).

Lemma running_rank c o fs : running c o fs -> 1 <= rank rk o <= R.
Proof.
  intros (pt & pre & d & _ & Ht & _). destruct (typed_op m G F Hv o pt Ht) as (op & Hop & _).
  exact (proj1 (ranked_at m G rk R o pt op Hrk Ht Hop)).
Qed.
Lemma running_op c o fs : running c o fs ->
  exists op, vec_lookup (bytecode (_mod (_base c))) o = Some op /\ fetch c = Ok op c /\ op <> exit_ /\ _pc c = CodeAt o /\
    descends m rk o op = true /\ _mod (_base c) = m.
Proof.
  intros (pt & pre & d & Hpc & Ht & Ha). destruct (typed_op m G F Hv o pt Ht) as (op & Hop & Hck & _).
  pose proof (wd_mod _ _ _ (ac_world _ _ _ _ _ _ _ _ _ _ _ _ _ _ _ Ha)) as Em. exists op. rewrite Em.
  split; [exact Hop|]. split; [unfold fetch, the_module, bind, gets; now rewrite Hpc, Em, (vec_index_Ok _ _ _ _ Hop)|].
  split; [intros ->; discriminate Hck|]. split; [exact Hpc|]. split; [|reflexivity]. exact (proj2 (ranked_at m G rk R o pt op Hrk Ht Hop)).
Qed.

Lemma running_moves c o fs1 op : running c o (fs0 ++ fs1) -> vec_lookup (bytecode m) o = Some op ->
  match step op c with
  | Ok _ c' => (exists o' fs', running c' o' fs' /\ moves c op o fs1 (_base c') o' fs') \/ finished c'
  | Throw e _ => halts foreign e
  | UB => False
  end.
Proof.
  intros (pt & pre & d & Hpc & Ht & Ha) Hop. destruct (typed_op m G F Hv o pt Ht) as (op' & Hop' & Hck & _).
  rewrite Hop in Hop'. injection Hop' as <-.
  apply (step_proceeds m G F Hv foreign pre0 fs0 R0 D HF0 HD HD32 (moves c op o fs1) c o pt pre d (fs0 ++ fs1) op Hpc Ha Hck).
  - intros b o' Hin. now apply move_within.
  - intros fs2 af o' b E Hp. rewrite <- app_assoc in E. apply app_inv_head in E. eapply move_return; eauto.
  - intros j c1 c2 ft fb af Hb Hc Hl Hp Hi. rewrite <- app_assoc. eapply move_call; eauto.
Qed.

Lemma descends_cases o op : descends m rk o op = true ->
  (exists n, op = gas_charge_ n) \/ forall o', o' ∈ succs m o op -> rank rk o' < rank rk o.
Proof.
  intros Hd. assert (Hf : forallb (fun o' => rank rk o' <? rank rk o) (succs m o op) = true -> forall o', o' ∈ succs m o op -> rank rk o' < rank rk o).
  { rewrite forallb_forall. intros Hf o' Hin%list_elem_of_In. now apply Z.ltb_lt, Hf. }
  destruct op; cbn [descends] in Hd; eauto.
Qed.
(** Gas is spent wherever the ranks do not fall. *)
Lemma move_falls c op o fs1 c' o' fs' : metering K (_base c) -> _mod (_base c) = m -> fetch c = Ok op c -> step op c = Ok tt c' ->
  descends m rk o op = true -> running c o (fs0 ++ fs1) -> running c' o' fs' -> moves c op o fs1 (_base c') o' fs' ->
  exists fs1', fs' = fs0 ++ fs1' /\ metering K (_base c') /\ potential (_base c') o' fs1' < potential (_base c) o fs1.
Proof.
  intros Hm Em Ef Es Hd Hr Hr' Hmv. destruct (step_spends K op c c' Hm Ef Es) as (M1 & D1 & C1).
  apply running_rank in Hr. apply running_rank in Hr'. unfold potential, gas_left. rewrite D1.
  assert (Hle : consumed (_gas (_base c)) <= consumed (_gas (_base c'))) by (destruct (metered op c); lia).
  destruct Hmv as [b o' Hin|b fs1' af o' -> Hp|j c1 c2 ft fb af Eb Ec Hl Hp Hi].
  - exists fs1. split; [reflexivity|]. split; [exact M1|]. destruct (descends_cases o op Hd) as [[n ->]|Hf].
    + cbn [descends metered] in *. rewrite Hd in C1. nia.
    + specialize (Hf o' Hin). nia.
  - exists fs1'. split; [reflexivity|]. split; [exact M1|]. rewrite frame_ranks_snoc. unfold frame_rank. rewrite Hp. nia.
  - exists (fs1 ++ [af]). split; [reflexivity|]. split; [exact M1|]. rewrite frame_ranks_snoc. unfold frame_rank. rewrite Hp.
    rewrite <- Eb in Hm, Em |- *. destruct (charge_prologue_spends K j c1 c2 Hm Ec) as (_ & _ & C2).
    rewrite Em, (proj2 (Z.leb_le _ _) (lf_local _ _ _ _ Hl)) in C2.
    assert (Hlt : rank rk (o + 1) < rank rk o)
      by (destruct op; try discriminate Hi; cbn [descends succs forallb] in Hd; rewrite andb_true_r in Hd; now apply Z.ltb_lt).
    nia.
Qed.

(** Enough dispatches for the potential: the run ends, and more change nothing. *)
Lemma run_ends n c o fs1 : running c o (fs0 ++ fs1) -> metering K (_base c) -> potential (_base c) o fs1 <= Z.of_nat n ->
  match run n c with Ok _ c' => finished c' | Throw e _ => halts foreign e | UB => False end /\
  forall k, run (n + k) c = run n c.
Proof.
  revert c o fs1. induction n as [|n IH]; intros c o fs1 Hr Hm Hp;
    destruct (running_op _ _ _ Hr) as (op & Hop & Ef & Hx & Hpc & Hd & Em); pose proof (running_rank _ _ _ Hr) as Hrank.
  - exfalso. unfold potential, Termination.potential, gas_left in Hp. pose proof (frame_ranks_nonneg rk fs1). destruct (mt_range _ _ Hm). nia.
  - cbn [Nat.add]. assert (Hrun : forall n, run (S n) c = (step op ;;; run n) c) by (intros k; apply (run_step op o c k Hpc Hop Hx)).
    rewrite Hrun. rewrite Em in Hop. pose proof (running_moves _ _ _ _ Hr Hop) as Hs.
    assert (Hk : forall k, run (S (n + k)) c = (step op ;;; run (n + k)) c) by (intros k; apply Hrun).
    unfold bind in *. destruct (step op c) as [[] c1|e c1|] eqn:Es; [|split; [exact Hs|intros k; apply Hk]|contradiction].
    destruct Hs as [(o1 & fs' & Hr1 & Hmv)|Hfin].
    + destruct (move_falls _ _ _ _ _ _ _ Hm Em Ef Es Hd Hr Hr1 Hmv) as (fs2 & -> & Hm1 & Hlt).
      destruct (IH c1 o1 fs2 Hr1 Hm1 ltac:(lia)) as [H1 H2]. split; [exact H1|]. intros k. rewrite Hk. apply H2.
    + rewrite (run_finished n c1) by apply Hfin. split; [exact Hfin|]. intros k. rewrite Hk. apply run_finished, Hfin.
Qed.
End Run.
End Program.

(** ** [execute] *)
Section Execute.
Context {SF : SoftFloat} {HF : HostFloat} {H : Type}.
Implicit Types c : ctx H.
Context (m : module) (G : typing) (F : Z) (foreign : exn -> Prop) (Hv : verify m G F = true).
Context (rk : list nat) (R : Z) (Hrk : ranked m G rk R = true) (K : Z).

Definition ends_typed {A} (ft : func_type) (r : outcome A (option elem)) : Prop :=
  match r with Ok v _ => result_typed ft v | Throw e _ => halts foreign e | UB => False end.

Lemma execute_body_ends i args ft c n : callable m F foreign c -> metering K (_base c) -> fn_type m i = Some ft ->
  get_imported_functions_size m <= i -> Forall elem_ok args -> gas_left (_base c) * (R + 1) <= Z.of_nat n ->
  ends_typed ft (execute_body (run n) i args c) /\
  forall k, execute_body (run (n + k)) i args c = execute_body (run n) i args c.
Proof.
  intros Hcl Hm Hft Hi Hok Hn.
  destruct (execute_body_enters m G F foreign Hv i args ft c Hcl Hft Hi Hok) as [(e & c' & He & E)|Hen].
  { rewrite E. split; [exact He|]. intros k. apply E. }
  destruct Hen as (c2 & c3 & c4 & fb & af & E2 & Ec & E4 & Hl & Hp & Hrun & E).
  destruct (callable_bounds m F foreign c Hcl) as (B1 & B2 & B3). rewrite <- E2 in Hm.
  destruct (charge_prologue_spends K i c2 c3 Hm Ec) as (M3 & D3 & C3). rewrite <- E4 in M3, D3, C3.
  assert (Em : _mod (_base c2) = m) by (rewrite E2; apply (cl_world _ _ _ _ Hcl)).
  rewrite Em, (proj2 (Z.leb_le _ _) (lf_local _ _ _ _ Hl)) in C3.
  pose proof (running_rank m G F Hv rk R Hrk foreign _ _ _ _ _ _ _ Hrun) as Hr.
  assert (Hpot : potential rk R (_base c4) (fb_code fb) [af] <= Z.of_nat n).
  { unfold potential, gas_left in *. cbn [frame_ranks foldr]. unfold frame_rank. rewrite Hp, D3. rewrite <- E2 in Hn. nia. }
  destruct (run_ends m G F Hv rk R Hrk foreign K _ _ _ _ B1 B2 B3 n c4 _ _ Hrun M3 Hpot) as [Hends Hmore].
  rewrite E. split; [|intros k; rewrite E; unfold bind; now rewrite Hmore].
  unfold bind. destruct (run n c4) as [[] c5|e c5|]; [|exact Hends|exact Hends].
  destruct (take_results_sound m G F foreign Hv c5 _ i ft Hft Hends) as (r & c6 & -> & Hres & _). exact Hres.
Qed.

Lemma execute_ends i args ft c n : callable m F foreign c -> metering K (_base c) -> fn_type m i = Some ft ->
  get_imported_functions_size m <= i -> Forall elem_ok args -> gas_left (_base c) * (R + 1) <= Z.of_nat n ->
  ends_typed ft (execute (run n) i args c) /\
  forall n', (n <= n')%nat -> execute (run n') i args c = execute (run n) i args c.
Proof.
  intros Hcl Hm Hft Hi Hok Hn. unfold execute. destruct (negb _); [split; [left; now left|reflexivity]|].
  set (c1 := c <| _as_index := _ |> <| _os_index := _ |>). assert (Hcl1 : callable m F foreign c1) by (destruct Hcl; now split).
  destruct (execute_body_ends i args ft c1 n Hcl1 Hm Hft Hi Hok Hn) as [Hends Hmore]. split.
  - pose proof (ok_execute_body (run n) i args (ok_run n) c1) as Hk. destruct Hcl as [_ _ [Wo Wa] _ _].
    destruct (execute_body (run n) i args c1) as [r c2|e c2|]; [| |exact Hends];
      destruct (cleanup_restores c c2 Wo Wa Hk) as (c3 & -> & _); exact Hends.
  - intros n' Hle. replace n' with (n + (n' - n))%nat by lia. now rewrite Hmore.
Qed.

(** C5. Metered programs end: with metering on, [execute] of a function of a
    verified module whose loops are headed by metering instructions takes at most
    [gas_left * (R + 1)] dispatches, whatever its loops, recursion, indirect and
    host calls.  It returns a result of the declared type or stops with a trap,
    exhausted gas, an unresolved import or an exception of the host, and a larger
    time budget changes nothing. *)
Theorem metered_execute_terminates i args ft c n : callable m F foreign c -> metering K (_base c) -> fn_type m i = Some ft ->
  get_imported_functions_size m <= i -> Forall elem_ok args -> gas_left (_base c) * (R + 1) <= Z.of_nat n ->
  ends_typed ft (execute (run n) i args c) /\
  forall n', (n <= n')%nat -> execute (run n') i args c = execute (run n) i args c.
Proof. apply execute_ends. Qed.
End Execute.

(** ** A program with a loop and a recursion

    [f n] sums [n], ..., 1 in a loop and returns the factorial of the sum. *)
Definition loop_code : list opcode := [
  gas_charge_ 1; get_local_ 1; get_local_ 0; binop_ W32 add; set_local_ 1;
  get_local_ 0; i32_const_ 1; binop_ W32 sub; tee_local_ 0; br_if_ (pop_info 0 0) 0 0;
  get_local_ 1; call_ 1; return_ 2 1 0;
  get_local_ 0; eqz_ W32; if_ 18; i32_const_ 1; return_ 1 1 0;
  get_local_ 0; get_local_ 0; i32_const_ 1; binop_ W32 sub; call_ 1; binop_ W32 mul; return_ 1 1 0 ].
Definition loop_module : module := {|
  m_start := UINT32_MAX; m_types := [demo_type [types.i32] [types.i32]]; m_imports := []; m_functions := [0; 0];
  m_tables := []; m_memories := [{| mt_limits := demo_limits 1 1; Types.is_memory64 := false |}]; m_globals := []; m_exports := [];
  m_elements := [];
  m_code := [{| fb_wasm_body_bytes := 10; fb_locals := [{| le_count := 1; le_type := types.i32 |}]; fb_code := 0;
                fb_stack_size := 1; fb_prologue_gas_extra := 0 |}; demo_body 13];
  m_data := []; m_tags := []; m_import_functions := [];
  m_num_imported_tables := 0; m_num_imported_memories := 0; m_num_imported_globals := 0;
  m_stack_limit_is_bytes := false; m_error := None; bytecode := loop_code |}.
Definition loop_point (locals n : nat) : option point :=
  Some {| pt_locals := repeat types.i32 locals; pt_results := [types.i32]; pt_stack := repeat types.i32 n |}.
Definition loop_typing : typing :=
  map (loop_point 2) [0; 0; 1; 2; 1; 0; 1; 2; 1; 1; 0; 1; 1]%nat ++
  map (loop_point 1) [0; 1; 1; 0; 1; 0; 1; 2; 3; 2; 2; 1]%nat.
Definition loop_ranks : list nat := [1; 13; 12; 11; 10; 9; 8; 7; 6; 5; 4; 3; 2; 13; 12; 11; 10; 9; 8; 7; 6; 5; 4; 3; 2]%nat.
Definition loop_ctx : ctx unit := Eval vm_compute in
  let c := end_state (reset (fresh_ctx loop_module)) (fresh_ctx loop_module) in
  c <| _base := set_gas_budget 200 (_base c) |>.

Lemma loop_callable : callable loop_module 5 (fun _ => False) loop_ctx.
Proof.
  split; [|reflexivity|vm_compute; repeat split; lia|vm_compute; intuition congruence|vm_compute; intuition congruence].
  split; [|reflexivity|discriminate| |reflexivity| |discriminate].
  - split; [|vm_compute; intuition congruence..]. split; [| | | | |prot_concrete|]; vm_compute; intuition congruence.
  - split; [reflexivity|]. split; repeat constructor; vm_compute; congruence.
  - intros i ft Hi Hf. unfold fn_type in Hf. destruct (Z.ltb_spec i 0); [discriminate|].
    change (get_imported_functions_size loop_module) with 0 in Hi. lia.
Qed.
Lemma loop_metering : metering 100 (_base loop_ctx).
Proof.
  split; [reflexivity|vm_compute; split; discriminate|vm_compute; reflexivity|].
  split; [refine (bool_decide_unpack _ _); vm_compute; exact I|].
  repeat (constructor; [vm_compute; try exact I; split; discriminate|]). constructor.
Qed.

Lemma metered_execute_terminates_witness :
  (exists c', execute (run 2800) 0 [I32 3] loop_ctx = Ok (Some (I32 720)) c') /\
  forall n, (2800 <= n)%nat -> execute (run n) 0 [I32 3] loop_ctx = execute (run 2800) 0 [I32 3] loop_ctx.
Proof.
  destruct (metered_execute_terminates loop_module loop_typing 5 (fun _ => False) ltac:(vm_compute; reflexivity)
    loop_ranks 13 ltac:(vm_compute; reflexivity) 100 0 [I32 3] (demo_type [types.i32] [types.i32]) loop_ctx 2800
    loop_callable loop_metering eq_refl ltac:(vm_compute; congruence) ltac:(repeat constructor; vm_compute; congruence)
    ltac:(vm_compute; congruence)) as [_ Hmore].
  split; [|exact Hmore].
  assert (E : match execute (run 2800) 0 [I32 3] loop_ctx with Ok r _ => r = Some (I32 720) | _ => False end) by (vm_compute; reflexivity).
  destruct (execute (run 2800) 0 [I32 3] loop_ctx) as [r c'|e c'|]; [|contradiction|contradiction]. exists c'. now rewrite E.
Defined.
