(* ===== verification/Writer.v ===== *)
(** * The bitcode writer and the gas injector

    Models psizam/detail/bitcode_writer.hpp, the back end that turns a function
    body into the interpreter's instructions, and
    psizam/detail/gas_injector.hpp, which prices the heavy instructions of a
    scope.  A [uint32_t*] the writer hands out is the branch target of an
    instruction, named by the instruction's index; the code segment is the
    allocator's memory, so that a vector that grows moves as it does there. *)
From Stdlib Require Import ZArith Lia Bool String.
From stdpp Require Import base list numbers decidable option.
From S2P Require Import Prelude Types.
Import Opcode.

(** ** [gas_injection_state] *)
Module GasInjector.

(** [gas_costs] *)
Definition regular : Z := 1.
Definition div_rem : Z := 10.
Definition call_indirect : Z := 5.

(** [gas_heavy_extra_for]; the opcodes are [i64_div_s] to [i64_rem_u],
    [f32_div], [f64_div] and [call_indirect]. *)
Definition gas_heavy_extra_for (op : Z) : Z :=
  if (op =? 0x7F) || (op =? 0x80) || (op =? 0x81) || (op =? 0x82) || (op =? 0x95) || (op =? 0xA3)
  then div_rem - regular
  else if op =? 0x11 then call_indirect - regular
  else 0.

(** The back of [loop_stack] is the head of the list. *)
Record gas_injection_state := { loop_stack : list Z; prepay_extra : Z }.

Definition reset : gas_injection_state := {| loop_stack := []; prepay_extra := 0 |}.

Definition on_opcode (op : Z) (g : gas_injection_state) : gas_injection_state :=
  let extra := gas_heavy_extra_for op in
  if extra =? 0 then g
  else match loop_stack g with
       | l :: ls => {| loop_stack := l + extra :: ls; prepay_extra := prepay_extra g |}
       | [] => {| loop_stack := []; prepay_extra := prepay_extra g + extra |}
       end.

Definition on_loop_enter (g : gas_injection_state) : gas_injection_state :=
  {| loop_stack := 0 :: loop_stack g; prepay_extra := prepay_extra g |}.

Definition on_loop_exit (g : gas_injection_state) : Z * gas_injection_state :=
  match loop_stack g with
  | [] => (0, g)
  | l :: ls => (l, {| loop_stack := ls; prepay_extra := prepay_extra g |})
  end.

End GasInjector.

(** ** [bitcode_writer] *)
Module BitcodeWriter.

(** [sizeof(opcode)]: a union whose largest members are 16 bytes, aligned to 8,
    and the 16-bit index of the variant. *)
Definition sizeof_opcode : Z := 24.
(** [sizeof(br_table_t::elem_t)] *)
Definition sizeof_elem : Z := 12.

(** A [uint32_t*] into the code: target [at_target] of instruction [at_op] of the
    current function (an element of a [br_table], the [pc] field otherwise). *)
Record branch_t := BranchAt { at_op : Z; at_target : Z }.
#[global] Instance branch_t_eq_dec : EqDecision branch_t.
Proof. solve_decision. Defined.

(** An [int64_t*] to a gas charge: the function's prologue or a loop header. *)
Inductive gas_ptr := prologue_gas | loop_gas (i : Z).

(** [seg] is the memory the allocator has handed out below [fb], in opcodes:
    [fb] starts at offset [length seg].  [prologue_gas_extra] is the field of the
    function body that [_prologue_gas_ptr] points to. *)
Record bitcode_writer := {
  seg : list opcode; fb : list opcode; op_index : Z; _base_offset : Z; stack_usage : Z;
  prologue_gas_extra : Z; _last_loop_gas_ptr : option Z }.
#[export] Instance eta_bitcode_writer : Eta bitcode_writer := fun x =>
  {| seg := seg x; fb := fb x; op_index := op_index x; _base_offset := _base_offset x;
     stack_usage := stack_usage x; prologue_gas_extra := prologue_gas_extra x;
     _last_loop_gas_ptr := _last_loop_gas_ptr x |}.

Section Writer.
(** What freshly allocated memory holds, and how many opcodes the allocator has
    room for. *)
Context (junk : opcode) (capacity : Z).

(** [growable_allocator::alloc<opcode>] for [guarded_vector]: a block behind all
    memory in use. *)
Definition alloc (n : Z) : M bitcode_writer unit :=
  let* w := get in
  psizam_assert (vec_size (seg w) + vec_size (fb w) + n <=? capacity) wasm_bad_alloc "Allocated too much memory" ;;;
  modify (fun w => w <| seg := seg w ++ fb w |> <| fb := repeat junk (Z.to_nat n) |>).

(** [vector::resize]: growing allocates without copying, shrinking gives the tail
    back. *)
Definition resize (n : Z) : M bitcode_writer unit :=
  let* w := get in
  if vec_size (fb w) <? n then alloc n
  else modify (fun w => w <| fb := take (Z.to_nat n) (fb w) |>).

(** [vector::at], the checked [operator[]]. *)
Definition check_at (i : Z) : M bitcode_writer unit :=
  let* w := get in
  psizam_assert (i <? vec_size (fb w)) wasm_vector_oob_exception "vector read out of bounds".
Definition put (i : Z) (op : opcode) : M bitcode_writer unit :=
  check_at i ;;; modify (fun w => w <| fb := vec_update (fb w) i op |>).

(** [append_instr], and the [emit_] functions that do nothing else. *)
Definition append_instr (op : opcode) : M bitcode_writer Z :=
  let* i := gets op_index in
  put i op ;;; modify (fun w => w <| op_index := op_index w + 1 |>) ;;; ret i.
Definition emit_op (op : opcode) : M bitcode_writer unit := append_instr op ;;; ret tt.

(** A store through a [branch_t]. *)
Definition set_target (op : opcode) (j v : Z) : option opcode :=
  match op with
  | if_ _ => Some (if_ v)
  | else_ _ => Some (else_ v)
  | br_ d _ => Some (br_ d v)
  | br_if_ d _ s => Some (br_if_ d v s)
  | catch_ d _ => Some (catch_ d v)
  | catch_all_ d _ => Some (catch_all_ d v)
  | try_table_ d _ => Some (try_table_ d v)
  | br_table_ n t =>
      match vec_lookup t j with
      | Some e => Some (br_table_ n (vec_update t j
                    {| bt_pc := v; bt_stack_pop := bt_stack_pop e; bt_eh_leave_count := bt_eh_leave_count e |}))
      | None => None
      end
  | _ => None
  end.
Definition store_branch (a : branch_t) (v : Z) : M bitcode_writer unit :=
  let* w := get in
  match vec_lookup (fb w) (at_op a) with
  | Some op =>
      match set_target op (at_target a) v with
      | Some op' => modify (fun w => w <| fb := vec_update (fb w) (at_op a) op' |>)
      | None => undefined
      end
  | None => undefined
  end.

(** [fix_branch] *)
Definition fix_branch (branch : branch_t) (target : Z) : M bitcode_writer unit :=
  let* w := get in store_branch branch (wrap 32 (_base_offset w + target)).

(** [encode_depth_change] *)
Definition encode_depth_change {S} (depth_change rt result_count : Z) : M S Z :=
  let result_count :=
    if result_count =? UINT32_MAX then (if negb (rt =? types.pseudo) then 1 else 0) else result_count in
  psizam_assert (depth_change <=? 0x00FFFFFF) wasm_parse_exception "branch depth too large for encoding" ;;;
  psizam_assert (result_count <=? 255) wasm_parse_exception "too many branch results" ;;;
  ret (Z.lor depth_change (Z.shiftl result_count 24)).

(** *** Control flow *)
Definition emit_unreachable : M bitcode_writer unit := emit_op unreachable_.
Definition emit_nop : M bitcode_writer unit := emit_op nop_.
Definition emit_end : M bitcode_writer Z := gets op_index.
Definition emit_block : M bitcode_writer unit := ret tt.
Definition emit_br (depth_change rt result_count : Z) : M bitcode_writer branch_t :=
  let* i := append_instr (br_ 0 0) in
  let* data := encode_depth_change depth_change rt result_count in
  put i (br_ data 0) ;;; ret (BranchAt i 0).
Definition emit_return (depth_change rt result_count : Z) : M bitcode_writer branch_t :=
  emit_br depth_change rt result_count.
Definition emit_loop : M bitcode_writer Z :=
  let* label := gets op_index in
  let* i := append_instr (gas_charge_ 1) in
  modify (fun w => w <| _last_loop_gas_ptr := Some i |>) ;;; ret label.
Definition emit_if : M bitcode_writer branch_t :=
  let* i := append_instr (if_ 0) in ret (BranchAt i 0).
Definition emit_else (if_loc : branch_t) : M bitcode_writer branch_t :=
  let* i := append_instr (else_ 0) in
  let* w := get in
  store_branch if_loc (wrap 32 (_base_offset w + op_index w)) ;;; ret (BranchAt i 0).
Definition emit_br_if (depth_change rt result_count eh_leave_count : Z) : M bitcode_writer branch_t :=
  let* i := append_instr (br_if_ 0 0 0) in
  let* data := encode_depth_change depth_change rt result_count in
  put i (br_if_ data 0 eh_leave_count) ;;; ret (BranchAt i 0).

(** *** Exception handling *)
Record catch_clause := {
  cc_kind : Z; cc_tag_index : Z; cc_label : Z; cc_depth_change : Z; cc_eh_leave_count : Z }.
Definition emit_try : M bitcode_writer unit := ret tt.
Definition emit_catch (tag_index : Z) : M bitcode_writer branch_t :=
  let* i := append_instr (catch_ tag_index 0) in ret (BranchAt i 0).
Definition emit_catch_all : M bitcode_writer branch_t :=
  let* i := append_instr (catch_all_ UINT32_MAX 0) in ret (BranchAt i 0).
Definition emit_throw (tag_index : Z) : M bitcode_writer unit := emit_op (throw_ tag_index).
Definition emit_rethrow (label : Z) : M bitcode_writer unit := emit_op (rethrow_ label).
Definition emit_delegate (label : Z) : M bitcode_writer unit := emit_op (delegate_ label).
Fixpoint emit_clauses (clauses : list catch_clause) : M bitcode_writer (list branch_t) :=
  match clauses with
  | [] => ret []
  | c :: cs =>
      append_instr (try_table_ (Z.lor (wrap 32 (Z.shiftl (cc_kind c) 24)) (Z.land (cc_tag_index c) 0x00FFFFFF)) (cc_depth_change c)) ;;;
      let* i := append_instr (try_table_ (cc_eh_leave_count c) 0) in
      let* l := emit_clauses cs in ret (BranchAt i 0 :: l)
  end.
Definition emit_try_table (clauses : list catch_clause) : M bitcode_writer (list branch_t) :=
  append_instr (try_table_ (wrap 32 (vec_size clauses)) 0) ;;; emit_clauses clauses.
Definition emit_throw_ref : M bitcode_writer unit := emit_op throw_ref_.
Definition emit_eh_leave : M bitcode_writer unit := emit_op (delegate_ 0).

(** *** [br_table_parser]

    The elements are written into the opcodes behind the instruction, up to the
    canary; the instruction carries them here.  The handler is the instruction's
    index. *)
Definition table_slots (table_size : Z) : Z := wrap 32 (table_size * sizeof_elem / sizeof_opcode + 2).
Definition emit_br_table (table_size : Z) : M bitcode_writer Z :=
  let* i := append_instr (br_table_ 0 []) in
  let* first := gets op_index in
  check_at first ;;;
  modify (fun w => w <| op_index := op_index w + table_slots table_size |>) ;;;
  let* last := gets op_index in
  put last error_ ;;;
  put i (br_table_ table_size []) ;;; ret i.
Definition emit_case (i depth_change rt result_count eh_leave_count : Z) : M bitcode_writer branch_t :=
  let* data := encode_depth_change depth_change rt result_count in
  let* w := get in
  match vec_lookup (fb w) i with
  | Some (br_table_ n t) =>
      put i (br_table_ n (t ++ [{| bt_pc := 0; bt_stack_pop := data; bt_eh_leave_count := eh_leave_count |}])) ;;;
      ret (BranchAt i (vec_size t))
  | _ => undefined
  end.
Definition emit_default (i depth_change rt result_count eh_leave_count : Z) : M bitcode_writer branch_t :=
  let* result := emit_case i depth_change rt result_count eh_leave_count in
  let* w := get in
  psizam_assert ((at_target result + 1) * sizeof_elem <=? (op_index w - i - 1) * sizeof_opcode)
    wasm_parse_exception "overwrote br_table data" ;;;
  ret result.

(** *** Calls and operations on several tables *)
Definition emit_call (funcnum : Z) : M bitcode_writer unit := emit_op (call_ funcnum).
Definition pack_table (x table_idx : Z) : Z := Z.lor x (wrap 32 (Z.shiftl table_idx 16)).
Definition emit_call_indirect (functypeidx table_idx : Z) : M bitcode_writer unit :=
  emit_op (call_indirect_ (pack_table functypeidx table_idx)).
Definition emit_tail_call (funcnum : Z) : M bitcode_writer unit := emit_op (tail_call_ funcnum).
Definition emit_tail_call_indirect (functypeidx table_idx : Z) : M bitcode_writer unit :=
  emit_op (tail_call_indirect_ (pack_table functypeidx table_idx)).
Definition emit_table_init (elem_idx table_idx : Z) : M bitcode_writer unit :=
  emit_op (table_init_ (pack_table elem_idx table_idx)).
Definition emit_table_copy (dst_table src_table : Z) : M bitcode_writer unit :=
  emit_op (table_copy_ (pack_table dst_table src_table)).

(** *** Gas *)
Definition patch_gas_imm_add_extra (handle : option gas_ptr) (extra : Z) : M bitcode_writer unit :=
  match handle with
  | None => ret tt
  | Some h =>
      if extra =? 0 then ret tt
      else match h with
           | prologue_gas => modify (fun w => w <| prologue_gas_extra := prologue_gas_extra w + extra |>)
           | loop_gas i =>
               let* w := get in
               match vec_lookup (fb w) i with
               | Some (gas_charge_ c) => modify (fun w => w <| fb := vec_update (fb w) i (gas_charge_ (c + extra)) |>)
               | _ => undefined
               end
           end
  end.
Definition prologue_gas_handle : M bitcode_writer (option gas_ptr) := ret (Some prologue_gas).
Definition last_loop_gas_handle : M bitcode_writer (option gas_ptr) :=
  let* w := get in ret (option_map loop_gas (_last_loop_gas_ptr w)).

(** *** Functions *)

(** [emit_prologue] for a body of [size] bytes. *)
Definition emit_prologue (size extra : Z) : M bitcode_writer unit :=
  modify (fun w => w <| op_index := 0 |>) ;;;
  alloc size ;;;
  modify (fun w => w <| prologue_gas_extra := extra |> <| _last_loop_gas_ptr := None |>).

Definition sum_locals (locals : list local_entry) : Z :=
  fold_left (fun n le => wrap 32 (n + le_count le)) locals 0.

Definition emit_epilogue (ft : func_type) (locals : list local_entry) : M bitcode_writer unit :=
  let* w := get in
  resize (op_index w + 1) ;;;
  let* w := get in
  put (vec_size (fb w) - 1)
    (return_ (wrap 32 (sum_locals locals + vec_size (param_types ft))) (return_count ft) (stack_usage w)).

(** [finalize]: the body's [code], as an offset into the allocator's memory, and
    its [stack_size]. *)
Definition finalize (body : function_body) : M bitcode_writer function_body :=
  modify (fun w => w <| op_index := op_index w + 1 |>) ;;;
  let* w := get in
  resize (op_index w) ;;;
  let* w := get in
  modify (fun w => w <| _base_offset := _base_offset w + op_index w |>) ;;;
  ret {| fb_wasm_body_bytes := fb_wasm_body_bytes body; fb_locals := fb_locals body;
         fb_code := vec_size (seg w); fb_stack_size := stack_usage w;
         fb_prologue_gas_extra := prologue_gas_extra w |}.

(** [set_stack_usage] *)
Definition set_stack_usage (usage : Z) : M bitcode_writer unit :=
  let usage := wrap 64 (usage + 16) in
  psizam_assert (usage <=? 0xFFFFFFFF) wasm_parse_exception "Sorry, not implemented." ;;;
  modify (fun w => w <| stack_usage := usage |>).

(** The constructor. *)
Definition make (source_bytes : Z) : bitcode_writer :=
  {| seg := []; fb := repeat junk (Z.to_nat source_bytes); op_index := 0; _base_offset := 0;
     stack_usage := 1; prologue_gas_extra := 0; _last_loop_gas_ptr := None |}.

End Writer.
End BitcodeWriter.
