(* ===== verification/Validator.v ===== *)
(** * Validation of function bodies

    Models the code part of psizam/detail/parser.hpp: the operand type tracker,
    the local types, the control stack and [parse_function_body_code_impl] with
    its cases, but for the vector and atomic ones, which validate a body while
    the bitcode writer emits it; [ParseVec] has the vector and atomic cases, and
    [ParseBody] the switch and the loop.  The configuration is [default_options]: no
    limit on the bytes of locals or stack.  Vectors used as stacks are listed from
    the back. *)
From Stdlib Require Import ZArith Lia Bool String.
From stdpp Require Import base list numbers decidable option.
From S2P Require Import Prelude Leb128 Types InitExpr ConstExpr ParseInit Writer.
Import GuardedPtr Leb Opcode GasInjector BitcodeWriter.

(** [Options], through the [get_] functions that default what it leaves out. *)
Record Options := {
  enable_simd : bool; enable_bulk_memory : bool; enable_sign_ext : bool;
  enable_nontrapping_fptoint : bool; enable_exception_handling : bool;
  max_nested_structures : Z; max_br_table_elements : Z; max_memory_offset : Z;
  max_code_bytes : Z; max_local_sets : Z;
  max_section_elements : Z; max_type_section_elements : Z; max_import_section_elements : Z;
  max_function_section_elements : Z; max_global_section_elements : Z; max_export_section_elements : Z;
  max_element_section_elements : Z; max_data_section_elements : Z; max_memory_section_elements : Z;
  max_table_elements : Z; max_element_segment_elements : Z; max_data_segment_bytes : Z;
  max_linear_memory_init : Z; max_symbol_bytes : Z; opt_max_pages : Z;
  max_mutable_global_bytes : option Z; parse_custom_section_name : bool }.
Definition default_options : Options := {|
  enable_simd := true; enable_bulk_memory := true; enable_sign_ext := true;
  enable_nontrapping_fptoint := true; enable_exception_handling := true;
  max_nested_structures := UINT32_MAX; max_br_table_elements := UINT32_MAX; max_memory_offset := UINT32_MAX;
  max_code_bytes := UINT32_MAX; max_local_sets := UINT32_MAX;
  max_section_elements := UINT32_MAX; max_type_section_elements := UINT32_MAX; max_import_section_elements := UINT32_MAX;
  max_function_section_elements := UINT32_MAX; max_global_section_elements := UINT32_MAX; max_export_section_elements := UINT32_MAX;
  max_element_section_elements := UINT32_MAX; max_data_section_elements := UINT32_MAX; max_memory_section_elements := 16;
  max_table_elements := UINT32_MAX; max_element_segment_elements := UINT32_MAX; max_data_segment_bytes := UINT32_MAX;
  max_linear_memory_init := 2 ^ 64 - 1; max_symbol_bytes := UINT32_MAX; opt_max_pages := UINT32_MAX;
  max_mutable_global_bytes := None; parse_custom_section_name := false |}.

Definition parse_check {S} (b : bool) (msg : string) : M S unit := psizam_assert b wasm_parse_exception msg.

(** ** [operand_stack_type_tracker] *)
Module Tracker.

Definition any_type : Z := 0x82.
Definition unreachable_tag : Z := 0x80.
Definition scope_tag : Z := 0x81.

Record tracker := { state : list Z; operand_depth : Z; maximum_operand_depth : Z }.
#[export] Instance eta_tracker : Eta tracker := fun x =>
  {| state := state x; operand_depth := operand_depth x; maximum_operand_depth := maximum_operand_depth x |}.

Definition make : tracker := {| state := [scope_tag]; operand_depth := 0; maximum_operand_depth := 0 |}.

(** [Writer::get_depth_for_type] of the bitcode writer *)
Definition get_depth_for_type (type : Z) : Z := 1.

Definition push (type : Z) : M tracker unit :=
  let* t := get in
  parse_check (operand_depth t <? UINT32_MAX) "integer overflow in operand depth" ;;;
  let d := wrap 32 (operand_depth t + get_depth_for_type type) in
  modify (fun t => t <| operand_depth := d |> <| maximum_operand_depth := Z.max d (maximum_operand_depth t) |>
                     <| state := type :: state t |>).

Definition pop (expected : Z) : M tracker unit :=
  if expected =? types.pseudo then ret tt else
  let* t := get in
  match state t with
  | [] => throw wasm_parse_exception "unexpected pop"
  | back :: rest =>
      if back =? unreachable_tag then ret tt
      else
        parse_check ((back =? expected) || (back =? any_type)) "wrong type" ;;;
        modify (fun t => t <| operand_depth := wrap 32 (operand_depth t - get_depth_for_type back) |> <| state := rest |>)
  end.

(** [uint8_t pop()] *)
Definition pop_any : M tracker Z :=
  let* t := get in
  match state t with
  | [] => throw wasm_parse_exception "unexpected pop"
  | back :: rest =>
      parse_check (negb (back =? scope_tag)) "unexpected pop" ;;;
      if back =? unreachable_tag then ret any_type
      else
        modify (fun t => t <| operand_depth := wrap 32 (operand_depth t - get_depth_for_type back) |> <| state := rest |>) ;;;
        ret back
  end.

Definition top (expected : Z) : M tracker unit := pop expected ;;; push expected.

(** The loop of [start_unreachable]. *)
Fixpoint clear_scope (st : list Z) (depth : Z) : list Z * Z :=
  match st with
  | [] => ([], depth)
  | back :: rest =>
      if back =? scope_tag then (st, depth)
      else clear_scope rest (if negb (back =? unreachable_tag) then wrap 32 (depth - get_depth_for_type back) else depth)
  end.
Definition start_unreachable : M tracker unit :=
  modify (fun t => let '(st, d) := clear_scope (state t) (operand_depth t) in
                   t <| operand_depth := d |> <| state := unreachable_tag :: st |>).

Definition push_scope : M tracker unit := modify (fun t => t <| state := scope_tag :: state t |>).

(** The loops that pop or push a list of types. *)
Fixpoint pops (ts : list Z) : M tracker unit :=
  match ts with [] => ret tt | t :: ts' => pop t ;;; pops ts' end.
Definition pop_rev (ts : list Z) : M tracker unit := pops (rev ts).
Fixpoint pushes (ts : list Z) : M tracker unit :=
  match ts with [] => ret tt | t :: ts' => push t ;;; pushes ts' end.

Definition pop_scope_multi (expected_results : list Z) : M tracker unit :=
  pop_rev expected_results ;;;
  let* t := get in
  parse_check (negb (bool_decide (state t = []))) "unexpected end" ;;;
  (match state t with
   | back :: rest => if back =? unreachable_tag then modify (fun t => t <| state := rest |>) else ret tt
   | [] => ret tt
   end) ;;;
  let* t := get in
  match state t with
  | [] => undefined
  | back :: rest =>
      parse_check (back =? scope_tag) "unexpected end" ;;;
      modify (fun t => t <| state := rest |>) ;;;
      pushes expected_results
  end.
Definition pop_scope (expected_result : Z) : M tracker unit :=
  pop_scope_multi (if expected_result =? types.pseudo then [] else [expected_result]).

Definition is_polymorphic (t : tracker) : bool :=
  match state t with back :: _ => back =? unreachable_tag | [] => false end.

End Tracker.
Import Tracker.

(** ** [local_types_t] *)
Module LocalTypes.

(** The constructor's [_boundaries]. *)
Fixpoint boundaries {S} (count : Z) (locals : list local_entry) : M S (list Z) :=
  match locals with
  | [] => ret [count]
  | le :: rest =>
      parse_check (count <=? 0xFFFFFFFF - le_count le) "too many locals" ;;;
      let* bs := boundaries (count + le_count le) rest in ret (count :: bs)
  end.

Record local_types_t := { lt_ft : func_type; lt_locals : list local_entry; lt_boundaries : list Z }.
Definition make {S} (ft : func_type) (locals : list local_entry) : M S local_types_t :=
  let* bs := boundaries (wrap 32 (vec_size (param_types ft))) locals in
  ret {| lt_ft := ft; lt_locals := locals; lt_boundaries := bs |}.

(** [std::upper_bound]: how many boundaries are not above the index. *)
Fixpoint upper_bound (bs : list Z) (x : Z) : Z :=
  match bs with [] => 0 | b :: bs' => if x <? b then 0 else 1 + upper_bound bs' x end.

(** [operator[]] *)
Definition index {S} (lt : local_types_t) (local_idx : Z) : M S Z :=
  parse_check (local_idx <? List.last (lt_boundaries lt) 0) "undefined local" ;;;
  let pos := upper_bound (lt_boundaries lt) local_idx in
  if pos =? 0 then vec_index (param_types (lt_ft lt)) local_idx
  else let* le := vec_index (lt_locals lt) (pos - 1) in ret (le_type le).

Definition locals_count (lt : local_types_t) : Z :=
  List.last (lt_boundaries lt) 0 - vec_size (param_types (lt_ft lt)).

End LocalTypes.

(** ** The control stack *)

(** [std::variant<label_t, std::vector<branch_t>>] *)
Inductive relocations_t := label_at (target : Z) | branches (l : list branch_t).

Record pc_element_t := {
  pc_operand_depth : Z; expected_result : Z; label_result : Z; is_if : bool; is_try_table : bool;
  is_loop : bool; gas_handle : option gas_ptr; relocations : relocations_t;
  expected_results : list Z; label_results : list Z; block_params : list Z }.
#[export] Instance eta_pc_element_t : Eta pc_element_t := fun x =>
  {| pc_operand_depth := pc_operand_depth x; expected_result := expected_result x; label_result := label_result x;
     is_if := is_if x; is_try_table := is_try_table x; is_loop := is_loop x; gas_handle := gas_handle x;
     relocations := relocations x; expected_results := expected_results x; label_results := label_results x;
     block_params := block_params x |}.

(** The variables of [parse_function_body_code_impl]. *)
Record pstate := {
  code : guarded_ptr; op_stack : tracker; pc_stack : list pc_element_t; gas_state : gas_injection_state;
  code_writer : bitcode_writer; has_exception_handling : bool }.
#[export] Instance eta_pstate : Eta pstate := fun x =>
  {| code := code x; op_stack := op_stack x; pc_stack := pc_stack x; gas_state := gas_state x;
     code_writer := code_writer x; has_exception_handling := has_exception_handling x |}.

Definition on_code {A} : M guarded_ptr A -> M pstate A := zoom code (fun c s => s <| code := c |>).
Definition on_stack {A} : M tracker A -> M pstate A := zoom op_stack (fun t s => s <| op_stack := t |>).
Definition on_writer {A} : M bitcode_writer A -> M pstate A := zoom code_writer (fun w s => s <| code_writer := w |>).
Definition set_back (e : pc_element_t) : M pstate unit :=
  modify (fun s => s <| pc_stack := e :: tail (pc_stack s) |>).

Definition next_byte : M pstate Z := on_code Parser.next.
Definition peek_byte : M pstate Z := on_code current.
Definition varuint32 : M pstate Z := on_code (parse_varuint 32).
Definition varint32 : M pstate Z := on_code (parse_varint 32).

(** [check_in_bounds] *)
Definition check_in_bounds : M pstate unit :=
  let* s := get in parse_check (negb (bool_decide (pc_stack s = []))) "code after function end".

(** [pc_stack[pc_stack.size() - label - 1]], after its check. *)
Definition label_target (label : Z) : M pstate pc_element_t :=
  let* s := get in
  parse_check (label <? vec_size (pc_stack s)) "invalid label" ;;;
  vec_index (pc_stack s) label.

Definition handle_branch_target (label : Z) (address : branch_t) : M pstate unit :=
  let* e := label_target label in
  match relocations e with
  | label_at target => on_writer (fix_branch address target)
  | branches l => modify (fun s => s <| pc_stack := vec_update (pc_stack s) label (e <| relocations := branches (l ++ [address]) |>) |>)
  end.

(** The number and first type of a label's results. *)
Definition label_count (e : pc_element_t) : Z :=
  match label_results e with
  | [] => if negb (label_result e =? types.pseudo) then 1 else 0
  | l => wrap 32 (vec_size l)
  end.
Definition label_type (e : pc_element_t) : Z :=
  match label_results e with [] => wrap 8 (label_result e) | t :: _ => t end.

Definition compute_depth_change (label : Z) : M pstate (Z * Z * Z) :=
  let* e := label_target label in
  let* s := get in
  let result := wrap 32 (operand_depth (op_stack s) - pc_operand_depth e) in
  (match label_results e with
   | [] => if negb (label_result e =? types.pseudo) then on_stack (top (wrap 8 (label_result e))) else ret tt
   | ts => on_stack (pop_rev ts) ;;; on_stack (pushes ts)
   end) ;;;
  ret (result, label_type e, label_count e).

Definition count_eh_leaves_for_branch (label : Z) (s : pstate) : Z :=
  if vec_size (pc_stack s) <=? label then 0
  else Z.of_nat (length (List.filter is_try_table (take (S (Z.to_nat label)) (pc_stack s)))).
Fixpoint repeat_op (n : nat) (op : M bitcode_writer unit) : M bitcode_writer unit :=
  match n with O => ret tt | S n' => op ;;; repeat_op n' op end.
Definition emit_eh_leaves_for_branch (label : Z) : M pstate unit :=
  let* s := get in on_writer (repeat_op (Z.to_nat (count_eh_leaves_for_branch label s)) emit_eh_leave).

(** The reset of the operand stack at [else], [catch] and [catch_all]. *)
Definition restart_scope (e : pc_element_t) : M pstate unit :=
  (match expected_results e with
   | [] => on_stack (pop (wrap 8 (expected_result e)))
   | rs => on_stack (pop_rev rs)
   end) ;;;
  on_stack (pop_scope types.pseudo) ;;;
  on_stack push_scope.

(** [std::get<std::vector<branch_t>>] *)
Definition get_branches (e : pc_element_t) : M pstate (list branch_t) :=
  match relocations e with branches l => ret l | label_at _ => throw std_bad_variant_access "bad_variant_access" end.

(** The end of the [then] part: the operand stack of the [if] comes back and its
    branch goes to the code behind the [else]. *)
Definition start_else (e : pc_element_t) : M pstate unit :=
  let* l := get_branches e in
  restart_scope e ;;;
  on_stack (pushes (block_params e)) ;;;
  match l with
  | [] => undefined
  | if_loc :: l' =>
      let* b := on_writer (emit_else if_loc) in
      set_back (e <| relocations := branches (b :: l') |> <| is_if := false |>)
  end.

Fixpoint fix_branches (l : list branch_t) (target : Z) : M bitcode_writer unit :=
  match l with [] => ret tt | b :: l' => fix_branch b target ;;; fix_branches l' target end.

Definition exit_scope : M pstate unit :=
  let* s := get in
  match pc_stack s with
  | [] => throw wasm_parse_exception "unexpected end instruction"
  | e :: _ =>
      (if is_loop e then
         let* s := get in
         let '(loop_extra, g) := on_loop_exit (gas_state s) in
         modify (fun s => s <| gas_state := g |>) ;;;
         on_writer (patch_gas_imm_add_extra (gas_handle e) loop_extra)
       else ret tt) ;;;
      (if is_if e then
         (match block_params e, expected_results e with
          | [], [] => parse_check (expected_result e =? types.pseudo) "type mismatch: if without else cannot have a return value"
          | bp, er => parse_check (bool_decide (bp = er)) "type mismatch: if without else requires matching params and results"
          end) ;;;
         (match block_params e with [] => ret tt | _ => start_else e end)
       else ret tt) ;;;
      let* s := get in
      match pc_stack s with
      | [] => undefined
      | e :: rest =>
          (if is_try_table e then on_writer emit_eh_leave else ret tt) ;;;
          let* end_pos := on_writer emit_end in
          (match relocations e with branches l => on_writer (fix_branches l end_pos) | label_at _ => ret tt end) ;;;
          (match expected_results e with
           | [] => on_stack (pop_scope (wrap 8 (expected_result e)))
           | rs => on_stack (pop_scope_multi rs)
           end) ;;;
          modify (fun s => s <| pc_stack := rest |>)
      end
  end.

(** ** Instructions *)
Section Body.
(** The module, [type_aliases], [_datacount], the options, and the function's
    type and local types. *)
Context (m : module) (type_aliases : list Z) (datacount : option Z) (_options : Options)
  (ft : func_type) (local_types : LocalTypes.local_types_t).

Definition mem_addr_type : Z :=
  match m_memories m with mt :: _ => if is_memory64 mt then types.i64 else types.i32 | [] => types.i32 end.

(** [while ( *code++ & 0x80) {}] *)
Fixpoint skip_leb (fuel : nat) : M pstate unit :=
  match fuel with
  | O => undefined
  | S n => let* b := next_byte in if negb (Z.land b 0x80 =? 0) then skip_leb n else ret tt
  end.
Definition skip_continuation : M pstate unit :=
  let* s := get in skip_leb (S (Z.to_nat (gp_bnds (code s) - gp_raw (code s)))).

Definition is_value_byte (b : Z) : bool :=
  (b =? types.i32) || (b =? types.i64) || (b =? types.f32) || (b =? types.f64).
Definition is_ref_byte (b : Z) : bool :=
  (b =? types.funcref) || (b =? types.externref) || (b =? types.exnref).

(** The block type: its single type, its parameters and its results. *)
Definition parse_type_index : M pstate (Z * list Z * list Z) :=
  let* type_idx := varint32 in
  parse_check ((0 <=? type_idx) && (type_idx <? vec_size (m_types m))) "invalid block type index" ;;;
  let* t := vec_index (m_types m) type_idx in
  ret (if return_count t =? 0 then types.pseudo else return_type t, param_types t, return_types t).
Definition parse_block_type : M pstate (Z * list Z * list Z) :=
  let* first_byte := peek_byte in
  if (first_byte =? types.pseudo) || is_value_byte first_byte || (first_byte =? types.v128) || is_ref_byte first_byte then
    on_code incr ;;;
    parse_check (is_value_byte first_byte || ((first_byte =? types.v128) && enable_simd _options) ||
                 is_ref_byte first_byte || (first_byte =? types.pseudo)) "Invalid type code in block" ;;;
    ret (first_byte, [], [])
  else if (first_byte =? 0x63) || (first_byte =? 0x64) then
    on_code incr ;;;
    let* heap := next_byte in
    (if 0x80 <=? heap then skip_continuation else ret tt) ;;;
    ret (if heap =? types.externref then types.externref else types.funcref, [], [])
  else parse_type_index.

(** A control element for a block whose labels carry [lr] or, if that is empty,
    the single type [lt]. *)
Definition element (depth single_type lt : Z) (bp br lr : list Z) (rel : relocations_t) : pc_element_t :=
  {| pc_operand_depth := depth; expected_result := single_type; label_result := lt; is_if := false;
     is_try_table := false; is_loop := false; gas_handle := None; relocations := rel;
     expected_results := br; label_results := lr; block_params := bp |}.
(** Entering the scope: the element, the scope and the parameters inside of it. *)
Definition enter_scope (e : pc_element_t) : M pstate unit :=
  modify (fun s => s <| pc_stack := e :: pc_stack s |>).
Definition open_scope : M pstate unit :=
  on_stack push_scope ;;;
  let* s := get in
  match pc_stack s with e :: _ => on_stack (pushes (block_params e)) | [] => undefined end.

Definition parse_block : M pstate unit :=
  let* bt := parse_block_type in
  let '(single_type, bp, br) := bt in
  on_stack (pop_rev bp) ;;;
  let* s := get in
  enter_scope (element (operand_depth (op_stack s)) single_type single_type bp br br (branches [])) ;;;
  on_writer emit_block ;;;
  open_scope.

Definition parse_loop : M pstate unit :=
  let* bt := parse_block_type in
  let '(single_type, bp, br) := bt in
  on_stack (pop_rev bp) ;;;
  let* pos := on_writer emit_loop in
  let* h := on_writer last_loop_gas_handle in
  let* s := get in
  enter_scope ((element (operand_depth (op_stack s)) single_type types.pseudo bp br bp (label_at pos))
                 <| is_loop := true |> <| gas_handle := h |>) ;;;
  modify (fun s => s <| gas_state := on_loop_enter (gas_state s) |>) ;;;
  open_scope.

Definition parse_if : M pstate unit :=
  check_in_bounds ;;;
  let* bt := parse_block_type in
  let '(single_type, bp, br) := bt in
  let* branch := on_writer emit_if in
  on_stack (pop types.i32) ;;;
  on_stack (pop_rev bp) ;;;
  let* s := get in
  enter_scope ((element (operand_depth (op_stack s)) single_type single_type bp br br (branches [branch])) <| is_if := true |>) ;;;
  open_scope.

Definition parse_else : M pstate unit :=
  check_in_bounds ;;;
  let* s := get in
  match pc_stack s with
  | [] => undefined
  | e :: _ => parse_check (is_if e) "else outside if" ;;; start_else e
  end.

Definition parse_end : M pstate unit :=
  check_in_bounds ;;;
  exit_scope ;;;
  let* s := get in
  parse_check (negb (bool_decide (pc_stack s = [])) || (offset (code s) =? bounds (code s))) "function too short".

(** *** Branches *)
Definition parse_return : M pstate unit :=
  check_in_bounds ;;;
  let* s := get in
  let label := vec_size (pc_stack s) - 1 in
  emit_eh_leaves_for_branch label ;;;
  let* d := compute_depth_change label in
  let '(depth_change, rt, rc) := d in
  let* branch := on_writer (emit_return depth_change rt rc) in
  handle_branch_target label branch ;;;
  on_stack start_unreachable.

Definition parse_br : M pstate unit :=
  check_in_bounds ;;;
  let* label := varuint32 in
  emit_eh_leaves_for_branch label ;;;
  let* d := compute_depth_change label in
  let '(depth_change, rt, rc) := d in
  let* branch := on_writer (emit_br depth_change rt rc) in
  handle_branch_target label branch ;;;
  on_stack start_unreachable.

Definition parse_br_if : M pstate unit :=
  check_in_bounds ;;;
  let* label := varuint32 in
  on_stack (pop types.i32) ;;;
  let* s := get in
  let eh_count := count_eh_leaves_for_branch label s in
  let* d := compute_depth_change label in
  let '(depth_change, rt, rc) := d in
  let* branch := on_writer (emit_br_if depth_change rt rc eh_count) in
  handle_branch_target label branch.

Fixpoint parse_labels (n : nat) : M pstate (list Z) :=
  match n with O => ret [] | S n' => let* l := varuint32 in let* ls := parse_labels n' in ret (l :: ls) end.
Fixpoint check_cases (polymorphic : bool) (def : pc_element_t) (labels : list Z) : M pstate unit :=
  match labels with
  | [] => ret tt
  | label :: ls =>
      let* tgt := label_target label in
      parse_check (label_count tgt =? label_count def) "br_table labels must have the same arity" ;;;
      (if polymorphic then ret tt
       else parse_check (label_result tgt =? wrap 8 (label_result def)) "br_table labels must have the same type") ;;;
      check_cases polymorphic def ls
  end.
Fixpoint emit_cases (handler : Z) (labels : list Z) : M pstate unit :=
  match labels with
  | [] => ret tt
  | label :: ls =>
      let* s := get in
      let* tgt := vec_index (pc_stack s) label in
      let result := wrap 32 (operand_depth (op_stack s) - pc_operand_depth tgt) in
      let* branch := on_writer (emit_case handler result (label_type tgt) (label_count tgt) (count_eh_leaves_for_branch label s)) in
      handle_branch_target label branch ;;;
      emit_cases handler ls
  end.
Definition parse_br_table : M pstate unit :=
  check_in_bounds ;;;
  let* table_size := varuint32 in
  parse_check (table_size <=? max_br_table_elements _options) "Too many labels in br_table" ;;;
  on_stack (pop types.i32) ;;;
  let* s := get in
  let polymorphic := is_polymorphic (op_stack s) in
  let* handler := on_writer (emit_br_table table_size) in
  let* case_labels := parse_labels (Z.to_nat table_size) in
  let* default_label := varuint32 in
  let* def_tgt := label_target default_label in
  check_cases polymorphic def_tgt case_labels ;;;
  emit_cases handler case_labels ;;;
  let* s := get in
  let eh_count_def := count_eh_leaves_for_branch default_label s in
  let* d := compute_depth_change default_label in
  let '(def_depth, def_rt, def_rc) := d in
  let* def_branch := on_writer (emit_default handler def_depth def_rt def_rc eh_count_def) in
  handle_branch_target default_label def_branch ;;;
  on_stack start_unreachable.

(** *** Calls *)
Definition call_types (t : func_type) : M pstate unit :=
  on_stack (pop_rev (param_types t)) ;;; on_stack (pushes (return_types t)).

Definition parse_call : M pstate unit :=
  check_in_bounds ;;;
  let* funcnum := varuint32 in
  parse_check (funcnum <? get_functions_total m) "call function index out of range" ;;;
  let* t := get_function_type m funcnum in
  call_types t ;;;
  on_writer (emit_call funcnum).

Definition check_funcref_table (table_idx : Z) : M pstate unit :=
  parse_check (table_idx <? vec_size (m_tables m)) "call_indirect table index out of range" ;;;
  let* t := vec_index (m_tables m) table_idx in
  parse_check (element_type t =? types.funcref) "call_indirect requires funcref table".

Definition parse_call_indirect : M pstate unit :=
  check_in_bounds ;;;
  let* functypeidx := varuint32 in
  parse_check (functypeidx <? vec_size (m_types m)) "call_indirect type index out of range" ;;;
  let* t := vec_index (m_types m) functypeidx in
  parse_check (0 <? vec_size (m_tables m)) "call_indirect requires a table" ;;;
  on_stack (pop types.i32) ;;;
  call_types t ;;;
  let* table_idx := varuint32 in
  check_funcref_table table_idx ;;;
  let* alias := vec_index type_aliases functypeidx in
  on_writer (emit_call_indirect alias table_idx).

(** The end of a tail call: EH scopes are left, the call is emitted, and the
    return that back ends without tail calls run. *)
Definition finish_tail_call (emit : M bitcode_writer unit) : M pstate unit :=
  let* s := get in
  let label := vec_size (pc_stack s) - 1 in
  emit_eh_leaves_for_branch label ;;;
  on_writer emit ;;;
  let* d := compute_depth_change label in
  let '(depth_change, rt, rc) := d in
  let* branch := on_writer (emit_return depth_change rt rc) in
  handle_branch_target label branch ;;;
  on_stack start_unreachable.

Definition parse_return_call : M pstate unit :=
  check_in_bounds ;;;
  let* funcnum := varuint32 in
  parse_check (funcnum <? get_functions_total m) "return_call function index out of range" ;;;
  let* target_ft := get_function_type m funcnum in
  parse_check (bool_decide (return_types target_ft = return_types ft)) "return_call type mismatch" ;;;
  call_types target_ft ;;;
  finish_tail_call (emit_tail_call funcnum).

Definition parse_return_call_indirect : M pstate unit :=
  check_in_bounds ;;;
  let* functypeidx := varuint32 in
  let* target_ft := vec_at (m_types m) functypeidx in
  parse_check (bool_decide (return_types target_ft = return_types ft)) "return_call_indirect type mismatch" ;;;
  parse_check (0 <? vec_size (m_tables m)) "return_call_indirect requires a table" ;;;
  on_stack (pop types.i32) ;;;
  call_types target_ft ;;;
  let* table_idx := varuint32 in
  check_funcref_table table_idx ;;;
  let* alias := vec_index type_aliases functypeidx in
  finish_tail_call (emit_tail_call_indirect alias table_idx).

(** *** Parametric and variable instructions *)
Definition parse_drop : M pstate unit :=
  check_in_bounds ;;; on_stack pop_any ;;; on_writer (emit_op drop_).

Definition parse_select : M pstate unit :=
  check_in_bounds ;;;
  on_stack (pop types.i32) ;;;
  let* t0 := on_stack pop_any in
  let* t1 := on_stack pop_any in
  parse_check ((t0 =? t1) || (t0 =? any_type) || (t1 =? any_type)) "incorrect types for select" ;;;
  let resolved := if negb (t0 =? any_type) then t0 else t1 in
  parse_check ((resolved =? any_type) || is_value_byte resolved || (resolved =? types.v128)) "type mismatch" ;;;
  on_stack (push resolved) ;;;
  on_writer (emit_op select_).

Definition parse_typed_select : M pstate unit :=
  check_in_bounds ;;;
  let* vec_len := varuint32 in
  parse_check (vec_len =? 1) "select t* must have exactly one type" ;;;
  let* valtype := next_byte in
  on_stack (pop types.i32) ;;;
  on_stack (pop valtype) ;;;
  on_stack (pop valtype) ;;;
  on_stack (push valtype) ;;;
  on_writer (emit_op select_).

Definition parse_get_local : M pstate unit :=
  let* local_idx := varuint32 in
  let* t := LocalTypes.index local_types local_idx in
  on_stack (push t) ;;;
  on_writer (emit_op (get_local_ local_idx)).
Definition parse_set_local : M pstate unit :=
  check_in_bounds ;;;
  let* local_idx := varuint32 in
  let* t := LocalTypes.index local_types local_idx in
  on_stack (pop t) ;;;
  on_writer (emit_op (set_local_ local_idx)).
Definition parse_tee_local : M pstate unit :=
  check_in_bounds ;;;
  let* local_idx := varuint32 in
  let* t := LocalTypes.index local_types local_idx in
  on_stack (top t) ;;;
  on_writer (emit_op (tee_local_ local_idx)).

Definition global_at (global_idx : Z) : M pstate global_type :=
  parse_check (global_idx <? vec_size (m_globals m)) "global index out of range" ;;;
  let* g := vec_index (m_globals m) global_idx in ret (gv_type g).
Definition parse_get_global : M pstate unit :=
  let* global_idx := varuint32 in
  let* g := global_at global_idx in
  on_stack (push (content_type g)) ;;;
  on_writer (emit_op (get_global_ global_idx)).
Definition parse_set_global : M pstate unit :=
  check_in_bounds ;;;
  let* global_idx := varuint32 in
  let* g := global_at global_idx in
  parse_check (mutability g) "cannot set const global" ;;;
  on_stack (pop (content_type g)) ;;;
  on_writer (emit_op (set_global_ global_idx)).

(** *** References and tables *)
Definition parse_ref_null : M pstate unit :=
  check_in_bounds ;;;
  let* first := next_byte in
  let* ref_type :=
    (if first =? types.externref then ret types.externref
     else if first =? types.funcref then ret types.funcref
     else if first <? 0x80 then ret types.funcref
     else skip_continuation ;;; ret types.funcref) in
  on_stack (push ref_type) ;;;
  on_writer (emit_op (ref_null_ ref_type)).
Definition parse_ref_is_null : M pstate unit :=
  check_in_bounds ;;;
  let* ref_type := on_stack pop_any in
  parse_check ((ref_type =? types.funcref) || (ref_type =? types.externref) || (ref_type =? any_type))
    "ref.is_null requires reference type" ;;;
  on_stack (push types.i32) ;;;
  on_writer (emit_op ref_is_null_).
Definition parse_ref_func : M pstate unit :=
  check_in_bounds ;;;
  let* func_idx := varuint32 in
  parse_check (func_idx <? get_functions_total m) "ref.func function index out of range" ;;;
  on_stack (push types.funcref) ;;;
  on_writer (emit_op (ref_func_ func_idx)).

Definition table_element (table_idx : Z) : M pstate Z :=
  parse_check (table_idx <? vec_size (m_tables m)) "table index out of range" ;;;
  let* t := vec_index (m_tables m) table_idx in ret (element_type t).
Definition parse_table_get : M pstate unit :=
  check_in_bounds ;;;
  let* table_idx := varuint32 in
  let* t := table_element table_idx in
  on_stack (pop types.i32) ;;; on_stack (push t) ;;;
  on_writer (emit_op (table_get_ table_idx)).
Definition parse_table_set : M pstate unit :=
  check_in_bounds ;;;
  let* table_idx := varuint32 in
  let* t := table_element table_idx in
  on_stack (pop t) ;;; on_stack (pop types.i32) ;;;
  on_writer (emit_op (table_set_ table_idx)).

(** *** Memory *)
Definition parse_memarg_offset : M pstate Z :=
  if mem_addr_type =? types.i64 then
    let* off64 := on_code (parse_varuint 64) in
    parse_check (off64 <=? UINT32_MAX) "memory64 offset exceeds implementation limit" ;;; ret off64
  else varuint32.
(** The immediate of a load or store of alignment at most [2 ^ max_align]. *)
Definition parse_memarg (max_align : Z) : M pstate memarg :=
  parse_check (0 <? vec_size (m_memories m)) "load or store requires memory" ;;;
  let* alignment := varuint32 in
  let* offset := parse_memarg_offset in
  parse_check (alignment <=? max_align) "alignment cannot be greater than size." ;;;
  parse_check (offset <=? max_memory_offset _options) "offset too large." ;;;
  ret {| flags_align := alignment; mem_offset := offset |}.

(** [LOAD_OP] and [STORE_OP], with the lists they are applied to, by opcode. *)
Definition load_ops : list (load_op * Z * Z) :=
  [ (i32_load, 2, types.i32); (i64_load, 3, types.i64); (f32_load, 2, types.f32); (f64_load, 3, types.f64);
    (i32_load8_s, 0, types.i32); (i32_load8_u, 0, types.i32); (i32_load16_s, 1, types.i32); (i32_load16_u, 1, types.i32);
    (i64_load8_s, 0, types.i64); (i64_load8_u, 0, types.i64); (i64_load16_s, 1, types.i64); (i64_load16_u, 1, types.i64);
    (i64_load32_s, 2, types.i64); (i64_load32_u, 2, types.i64) ].
Definition store_ops : list (store_op * Z * Z) :=
  [ (i32_store, 2, types.i32); (i64_store, 3, types.i64); (f32_store, 2, types.f32); (f64_store, 3, types.f64);
    (i32_store8, 0, types.i32); (i32_store16, 1, types.i32); (i64_store8, 0, types.i64); (i64_store16, 1, types.i64);
    (i64_store32, 2, types.i64) ].
Definition parse_load (op : load_op) (max_align type : Z) : M pstate unit :=
  check_in_bounds ;;;
  let* a := parse_memarg max_align in
  on_stack (pop mem_addr_type) ;;; on_stack (push type) ;;;
  on_writer (emit_op (load_ op a)).
Definition parse_store (op : store_op) (max_align type : Z) : M pstate unit :=
  check_in_bounds ;;;
  let* a := parse_memarg max_align in
  on_stack (pop type) ;;; on_stack (pop mem_addr_type) ;;;
  on_writer (emit_op (store_ op a)).

Definition zero_byte (msg : string) : M pstate unit :=
  let* b := peek_byte in parse_check (b =? 0) msg ;;; on_code incr.
Definition require_memory (msg : string) : M pstate unit := parse_check (negb (vec_size (m_memories m) =? 0)) msg.
Definition parse_current_memory : M pstate unit :=
  require_memory "memory.size requires memory" ;;;
  on_stack (push mem_addr_type) ;;;
  zero_byte "memory.size must end with 0x00" ;;;
  on_writer (emit_op current_memory_).
Definition parse_grow_memory : M pstate unit :=
  check_in_bounds ;;;
  require_memory "memory.grow requires memory" ;;;
  on_stack (pop mem_addr_type) ;;; on_stack (push mem_addr_type) ;;;
  zero_byte "memory.grow must end with 0x00" ;;;
  on_writer (emit_op grow_memory_).

(** *** Numeric instructions

    What each of the macros is applied to, by opcode: the instruction, its
    operands and its result. *)
Record numeric := { num_op : opcode; num_args : list Z; num_result : Z }.
Definition unary_op (op : opcode) (a r : Z) : numeric := {| num_op := op; num_args := [a]; num_result := r |}.
Definition binary_op (op : opcode) (a r : Z) : numeric := {| num_op := op; num_args := [a; a]; num_result := r |}.
(** [UNOP] and [BINOP] with result [i32], from 0x45. *)
Definition comparison_ops : list numeric :=
  [ unary_op (eqz_ W32) types.i32 types.i32; binary_op (relop_ W32 eq) types.i32 types.i32;
    binary_op (relop_ W32 ne) types.i32 types.i32; binary_op (relop_ W32 lt_s) types.i32 types.i32;
    binary_op (relop_ W32 lt_u) types.i32 types.i32; binary_op (relop_ W32 gt_s) types.i32 types.i32;
    binary_op (relop_ W32 gt_u) types.i32 types.i32; binary_op (relop_ W32 le_s) types.i32 types.i32;
    binary_op (relop_ W32 le_u) types.i32 types.i32; binary_op (relop_ W32 ge_s) types.i32 types.i32;
    binary_op (relop_ W32 ge_u) types.i32 types.i32; unary_op (eqz_ W64) types.i64 types.i32;
    binary_op (relop_ W64 eq) types.i64 types.i32; binary_op (relop_ W64 ne) types.i64 types.i32;
    binary_op (relop_ W64 lt_s) types.i64 types.i32; binary_op (relop_ W64 lt_u) types.i64 types.i32;
    binary_op (relop_ W64 gt_s) types.i64 types.i32; binary_op (relop_ W64 gt_u) types.i64 types.i32;
    binary_op (relop_ W64 le_s) types.i64 types.i32; binary_op (relop_ W64 le_u) types.i64 types.i32;
    binary_op (relop_ W64 ge_s) types.i64 types.i32; binary_op (relop_ W64 ge_u) types.i64 types.i32;
    binary_op (frelop_ W32 feq) types.f32 types.i32; binary_op (frelop_ W32 fne) types.f32 types.i32;
    binary_op (frelop_ W32 flt) types.f32 types.i32; binary_op (frelop_ W32 fgt) types.f32 types.i32;
    binary_op (frelop_ W32 fle) types.f32 types.i32; binary_op (frelop_ W32 fge) types.f32 types.i32;
    binary_op (frelop_ W64 feq) types.f64 types.i32; binary_op (frelop_ W64 fne) types.f64 types.i32;
    binary_op (frelop_ W64 flt) types.f64 types.i32; binary_op (frelop_ W64 fgt) types.f64 types.i32;
    binary_op (frelop_ W64 fle) types.f64 types.i32; binary_op (frelop_ W64 fge) types.f64 types.i32 ].
(** [UNOP] and [BINOP] with the operands' type as result, from 0x67. *)
Definition arithmetic_ops : list numeric :=
  [ unary_op (unop_ W32 clz) types.i32 types.i32; unary_op (unop_ W32 ctz) types.i32 types.i32;
    unary_op (unop_ W32 popcnt) types.i32 types.i32; binary_op (binop_ W32 add) types.i32 types.i32;
    binary_op (binop_ W32 sub) types.i32 types.i32; binary_op (binop_ W32 mul) types.i32 types.i32;
    binary_op (binop_ W32 div_s) types.i32 types.i32; binary_op (binop_ W32 div_u) types.i32 types.i32;
    binary_op (binop_ W32 rem_s) types.i32 types.i32; binary_op (binop_ W32 rem_u) types.i32 types.i32;
    binary_op (binop_ W32 and) types.i32 types.i32; binary_op (binop_ W32 or) types.i32 types.i32;
    binary_op (binop_ W32 xor) types.i32 types.i32; binary_op (binop_ W32 shl) types.i32 types.i32;
    binary_op (binop_ W32 shr_s) types.i32 types.i32; binary_op (binop_ W32 shr_u) types.i32 types.i32;
    binary_op (binop_ W32 rotl) types.i32 types.i32; binary_op (binop_ W32 rotr) types.i32 types.i32;
    unary_op (unop_ W64 clz) types.i64 types.i64; unary_op (unop_ W64 ctz) types.i64 types.i64;
    unary_op (unop_ W64 popcnt) types.i64 types.i64; binary_op (binop_ W64 add) types.i64 types.i64;
    binary_op (binop_ W64 sub) types.i64 types.i64; binary_op (binop_ W64 mul) types.i64 types.i64;
    binary_op (binop_ W64 div_s) types.i64 types.i64; binary_op (binop_ W64 div_u) types.i64 types.i64;
    binary_op (binop_ W64 rem_s) types.i64 types.i64; binary_op (binop_ W64 rem_u) types.i64 types.i64;
    binary_op (binop_ W64 and) types.i64 types.i64; binary_op (binop_ W64 or) types.i64 types.i64;
    binary_op (binop_ W64 xor) types.i64 types.i64; binary_op (binop_ W64 shl) types.i64 types.i64;
    binary_op (binop_ W64 shr_s) types.i64 types.i64; binary_op (binop_ W64 shr_u) types.i64 types.i64;
    binary_op (binop_ W64 rotl) types.i64 types.i64; binary_op (binop_ W64 rotr) types.i64 types.i64;
    unary_op (funop_ W32 fabs) types.f32 types.f32; unary_op (funop_ W32 fneg) types.f32 types.f32;
    unary_op (funop_ W32 fceil) types.f32 types.f32; unary_op (funop_ W32 ffloor) types.f32 types.f32;
    unary_op (funop_ W32 ftrunc) types.f32 types.f32; unary_op (funop_ W32 fnearest) types.f32 types.f32;
    unary_op (funop_ W32 fsqrt) types.f32 types.f32; binary_op (fbinop_ W32 fadd) types.f32 types.f32;
    binary_op (fbinop_ W32 fsub) types.f32 types.f32; binary_op (fbinop_ W32 fmul) types.f32 types.f32;
    binary_op (fbinop_ W32 fdiv) types.f32 types.f32; binary_op (fbinop_ W32 fmin) types.f32 types.f32;
    binary_op (fbinop_ W32 fmax) types.f32 types.f32; binary_op (fbinop_ W32 fcopysign) types.f32 types.f32;
    unary_op (funop_ W64 fabs) types.f64 types.f64; unary_op (funop_ W64 fneg) types.f64 types.f64;
    unary_op (funop_ W64 fceil) types.f64 types.f64; unary_op (funop_ W64 ffloor) types.f64 types.f64;
    unary_op (funop_ W64 ftrunc) types.f64 types.f64; unary_op (funop_ W64 fnearest) types.f64 types.f64;
    unary_op (funop_ W64 fsqrt) types.f64 types.f64; binary_op (fbinop_ W64 fadd) types.f64 types.f64;
    binary_op (fbinop_ W64 fsub) types.f64 types.f64; binary_op (fbinop_ W64 fmul) types.f64 types.f64;
    binary_op (fbinop_ W64 fdiv) types.f64 types.f64; binary_op (fbinop_ W64 fmin) types.f64 types.f64;
    binary_op (fbinop_ W64 fmax) types.f64 types.f64; binary_op (fbinop_ W64 fcopysign) types.f64 types.f64 ].
(** [CASTOP], from 0xA7. *)
Definition cast_ops : list numeric :=
  [ unary_op (conv_ i32_wrap_i64) types.i64 types.i32; unary_op (fconv_ i32_trunc_s_f32) types.f32 types.i32;
    unary_op (fconv_ i32_trunc_u_f32) types.f32 types.i32; unary_op (fconv_ i32_trunc_s_f64) types.f64 types.i32;
    unary_op (fconv_ i32_trunc_u_f64) types.f64 types.i32; unary_op (conv_ i64_extend_s_i32) types.i32 types.i64;
    unary_op (conv_ i64_extend_u_i32) types.i32 types.i64; unary_op (fconv_ i64_trunc_s_f32) types.f32 types.i64;
    unary_op (fconv_ i64_trunc_u_f32) types.f32 types.i64; unary_op (fconv_ i64_trunc_s_f64) types.f64 types.i64;
    unary_op (fconv_ i64_trunc_u_f64) types.f64 types.i64; unary_op (fconv_ f32_convert_s_i32) types.i32 types.f32;
    unary_op (fconv_ f32_convert_u_i32) types.i32 types.f32;
    unary_op (fconv_ f32_convert_s_i64) types.i64 types.f32;
    unary_op (fconv_ f32_convert_u_i64) types.i64 types.f32; unary_op (fconv_ f32_demote_f64) types.f64 types.f32;
    unary_op (fconv_ f64_convert_s_i32) types.i32 types.f64;
    unary_op (fconv_ f64_convert_u_i32) types.i32 types.f64;
    unary_op (fconv_ f64_convert_s_i64) types.i64 types.f64;
    unary_op (fconv_ f64_convert_u_i64) types.i64 types.f64; unary_op (fconv_ f64_promote_f32) types.f32 types.f64;
    unary_op (conv_ i32_reinterpret_f32) types.f32 types.i32;
    unary_op (conv_ i64_reinterpret_f64) types.f64 types.i64;
    unary_op (conv_ f32_reinterpret_i32) types.i32 types.f32;
    unary_op (conv_ f64_reinterpret_i64) types.i64 types.f64 ].
(** [EXTENDOP], from 0xC0. *)
Definition extend_ops : list numeric :=
  [ unary_op (conv_ i32_extend8_s) types.i32 types.i32; unary_op (conv_ i32_extend16_s) types.i32 types.i32;
    unary_op (conv_ i64_extend8_s) types.i64 types.i64; unary_op (conv_ i64_extend16_s) types.i64 types.i64;
    unary_op (conv_ i64_extend32_s) types.i64 types.i64 ].
(** [TRUNC_SAT_OP], from 0 behind the prefix 0xFC. *)
Definition trunc_sat_ops : list numeric :=
  [ unary_op (fconv_ i32_trunc_sat_f32_s) types.f32 types.i32;
    unary_op (fconv_ i32_trunc_sat_f32_u) types.f32 types.i32;
    unary_op (fconv_ i32_trunc_sat_f64_s) types.f64 types.i32;
    unary_op (fconv_ i32_trunc_sat_f64_u) types.f64 types.i32;
    unary_op (fconv_ i64_trunc_sat_f32_s) types.f32 types.i64;
    unary_op (fconv_ i64_trunc_sat_f32_u) types.f32 types.i64;
    unary_op (fconv_ i64_trunc_sat_f64_s) types.f64 types.i64;
    unary_op (fconv_ i64_trunc_sat_f64_u) types.f64 types.i64 ].
Definition numeric_ops : list numeric := comparison_ops ++ arithmetic_ops ++ cast_ops.

Definition parse_numeric (n : numeric) : M pstate unit :=
  check_in_bounds ;;;
  on_writer (emit_op (num_op n)) ;;;
  on_stack (pops (num_args n)) ;;;
  on_stack (push (num_result n)).
Definition parse_extend (n : numeric) : M pstate unit :=
  check_in_bounds ;;;
  parse_check (enable_sign_ext _options) "Sign-extension operators not enabled" ;;;
  on_writer (emit_op (num_op n)) ;;;
  on_stack (pops (num_args n)) ;;;
  on_stack (push (num_result n)).
Definition parse_trunc_sat (n : numeric) : M pstate unit :=
  check_in_bounds ;;;
  parse_check (enable_nontrapping_fptoint _options) "Non-trapping float-to-int conversions not enabled" ;;;
  on_stack (pops (num_args n)) ;;;
  on_stack (push (num_result n)) ;;;
  on_writer (emit_op (num_op n)).

(** Constants; the operand of an integer is the unsigned representation. *)
Definition parse_const (read : M guarded_ptr Z) (emit : Z -> opcode) (type : Z) : M pstate unit :=
  let* v := on_code read in
  on_writer (emit_op (emit v)) ;;; on_stack (push type).

(** *** Bulk memory and tables (prefix 0xFC) *)
Definition require_bulk : M pstate unit := parse_check (enable_bulk_memory _options) "Bulk memory not enabled".
Definition check_data (x : Z) : M pstate unit :=
  match datacount with
  | None => throw wasm_parse_exception "datacount section required"
  | Some n => parse_check (x <? n) "data segment does not exist"
  end.
Definition parse_memory_init : M pstate unit :=
  check_in_bounds ;;; require_bulk ;;; require_memory "memory.init requires memory" ;;;
  on_stack (pops [types.i32; types.i32; mem_addr_type]) ;;;
  let* x := varuint32 in
  check_data x ;;; zero_byte "memory.init must end with 0x00" ;;;
  on_writer (emit_op (memory_init_ x)).
Definition parse_data_drop : M pstate unit :=
  check_in_bounds ;;; require_bulk ;;;
  let* x := varuint32 in
  check_data x ;;; on_writer (emit_op (data_drop_ x)).
Definition parse_memory_copy : M pstate unit :=
  check_in_bounds ;;; require_bulk ;;; require_memory "memory.copy requires memory" ;;;
  on_stack (pops [mem_addr_type; mem_addr_type; mem_addr_type]) ;;;
  zero_byte "memory.copy must end with 0x00 0x00" ;;; zero_byte "memory.copy must end with 0x00 0x00" ;;;
  on_writer (emit_op memory_copy_).
Definition parse_memory_fill : M pstate unit :=
  check_in_bounds ;;; require_bulk ;;; require_memory "memory.fill requires memory" ;;;
  on_stack (pops [mem_addr_type; types.i32; mem_addr_type]) ;;;
  zero_byte "memory.fill must end with 0x00" ;;;
  on_writer (emit_op memory_fill_).
Definition parse_table_init : M pstate unit :=
  check_in_bounds ;;; require_bulk ;;;
  parse_check (negb (vec_size (m_tables m) =? 0)) "table.init requires table" ;;;
  let* elem_idx := varuint32 in
  let* table_idx := varuint32 in
  let* t := table_element table_idx in
  parse_check (elem_idx <? vec_size (m_elements m)) "elem segment does not exist" ;;;
  let* es := vec_index (m_elements m) elem_idx in
  parse_check (es_type es =? t) "type mismatch" ;;;
  on_stack (pops [types.i32; types.i32; types.i32]) ;;;
  on_writer (emit_table_init elem_idx table_idx).
Definition parse_elem_drop : M pstate unit :=
  check_in_bounds ;;; require_bulk ;;;
  let* x := varuint32 in
  parse_check (x <? vec_size (m_elements m)) "elem segment does not exist" ;;;
  on_writer (emit_op (elem_drop_ x)).
Definition parse_table_copy : M pstate unit :=
  check_in_bounds ;;; require_bulk ;;;
  parse_check (negb (vec_size (m_tables m) =? 0)) "table.copy requires table" ;;;
  let* dst_table := varuint32 in
  let* src_table := varuint32 in
  parse_check (dst_table <? vec_size (m_tables m)) "table.copy dst table index out of range" ;;;
  parse_check (src_table <? vec_size (m_tables m)) "table.copy src table index out of range" ;;;
  on_stack (pops [types.i32; types.i32; types.i32]) ;;;
  on_writer (emit_table_copy dst_table src_table).
Definition parse_table_grow : M pstate unit :=
  check_in_bounds ;;;
  let* table_idx := varuint32 in
  let* t := table_element table_idx in
  on_stack (pops [types.i32; t]) ;;; on_stack (push types.i32) ;;;
  on_writer (emit_op (table_grow_ table_idx)).
Definition parse_table_size : M pstate unit :=
  check_in_bounds ;;;
  let* table_idx := varuint32 in
  table_element table_idx ;;;
  on_stack (push types.i32) ;;;
  on_writer (emit_op (table_size_ table_idx)).
Definition parse_table_fill : M pstate unit :=
  check_in_bounds ;;;
  let* table_idx := varuint32 in
  let* t := table_element table_idx in
  on_stack (pops [types.i32; t; types.i32]) ;;;
  on_writer (emit_op (table_fill_ table_idx)).
Definition parse_ext : M pstate unit :=
  let* ext := varuint32 in
  match vec_lookup trunc_sat_ops ext with
  | Some n => parse_trunc_sat n
  | None =>
      if ext =? 8 then parse_memory_init else if ext =? 9 then parse_data_drop
      else if ext =? 10 then parse_memory_copy else if ext =? 11 then parse_memory_fill
      else if ext =? 12 then parse_table_init else if ext =? 13 then parse_elem_drop
      else if ext =? 14 then parse_table_copy else if ext =? 15 then parse_table_grow
      else if ext =? 16 then parse_table_size else if ext =? 17 then parse_table_fill
      else throw wasm_parse_exception "Illegal instruction"
  end.

(** *** Exception handling *)
Definition require_eh : M pstate unit :=
  parse_check (enable_exception_handling _options) "Exception handling not enabled" ;;;
  modify (fun s => s <| has_exception_handling := true |>).
Definition parse_try_type : M pstate (Z * list Z * list Z) :=
  let* first_byte := peek_byte in
  if (first_byte =? types.pseudo) || is_value_byte first_byte || (first_byte =? types.v128)
  then on_code incr ;;; ret (first_byte, [], [])
  else parse_type_index.
Definition parse_try : M pstate unit :=
  check_in_bounds ;;;
  let* bt := parse_try_type in
  let '(single_type, bp, br) := bt in
  on_stack (pop_rev bp) ;;;
  let* s := get in
  enter_scope (element (operand_depth (op_stack s)) single_type single_type bp br br (branches [])) ;;;
  on_writer emit_try ;;;
  open_scope.

Definition back_element : M pstate pc_element_t :=
  let* s := get in match pc_stack s with e :: _ => ret e | [] => undefined end.
Definition tag_params (tag_index : Z) : M pstate (list Z) :=
  parse_check (tag_index <? vec_size (m_tags m)) "invalid tag index" ;;;
  let* tag := vec_index (m_tags m) tag_index in
  let* t := vec_index (m_types m) (tag_type_index tag) in
  ret (param_types t).
Definition add_branch (e : pc_element_t) (b : branch_t) : M pstate unit :=
  let* l := get_branches e in set_back (e <| relocations := branches (l ++ [b]) |>).
Definition parse_catch : M pstate unit :=
  check_in_bounds ;;;
  let* tag_index := varuint32 in
  let* ts := tag_params tag_index in
  let* e := back_element in
  restart_scope e ;;;
  on_stack (pushes ts) ;;;
  get_branches e ;;;
  let* b := on_writer (emit_catch tag_index) in
  add_branch e b.
Definition parse_catch_all : M pstate unit :=
  check_in_bounds ;;;
  let* e := back_element in
  restart_scope e ;;;
  get_branches e ;;;
  let* b := on_writer emit_catch_all in
  add_branch e b.
Definition parse_throw : M pstate unit :=
  check_in_bounds ;;; require_eh ;;;
  let* tag_index := varuint32 in
  let* ts := tag_params tag_index in
  on_stack (pop_rev ts) ;;;
  on_writer (emit_throw tag_index) ;;;
  on_stack start_unreachable.
Definition parse_rethrow : M pstate unit :=
  check_in_bounds ;;; require_eh ;;;
  let* label := varuint32 in
  compute_depth_change label ;;;
  on_writer (emit_rethrow label) ;;;
  on_stack start_unreachable.
Definition parse_throw_ref : M pstate unit :=
  check_in_bounds ;;; require_eh ;;;
  on_stack (pop types.exnref) ;;;
  on_writer emit_throw_ref ;;;
  on_stack start_unreachable.
Definition parse_delegate : M pstate unit :=
  check_in_bounds ;;;
  let* label := varuint32 in
  compute_depth_change label ;;;
  on_writer (emit_delegate label) ;;;
  exit_scope.

(** [try_table]: the values a clause delivers must be those of its label. *)
Definition check_catch_types (catch_types : list Z) (target : pc_element_t) : M pstate unit :=
  match label_results target with
  | [] =>
      if negb (label_result target =? types.pseudo) then
        parse_check (vec_size catch_types =? 1) "type mismatch: catch clause arity doesn't match target label" ;;;
        parse_check (bool_decide (catch_types = [wrap 8 (label_result target)]))
          "type mismatch: catch clause type doesn't match target label"
      else parse_check (bool_decide (catch_types = []))
             "type mismatch: catch clause pushes values but target label expects none"
  | ts =>
      parse_check (vec_size catch_types =? vec_size ts) "type mismatch: catch clause arity doesn't match target label" ;;;
      parse_check (bool_decide (catch_types = ts)) "type mismatch: catch clause type doesn't match target label"
  end.
Fixpoint parse_catches (n : nat) : M pstate (list catch_clause) :=
  match n with
  | O => ret []
  | S n' =>
      let* kind := next_byte in
      parse_check (kind <=? 3) "invalid catch kind" ;;;
      let has_tag := (kind =? 0) || (kind =? 1) in
      let* tag_index := (if has_tag then let* t := varuint32 in
                           parse_check (t <? vec_size (m_tags m)) "invalid tag index" ;;; ret t else ret 0) in
      let* label := varuint32 in
      let* s := get in
      parse_check (label <? vec_size (pc_stack s)) "invalid catch label" ;;;
      let* target := vec_index (pc_stack s) label in
      let* params := (if has_tag then tag_params tag_index else ret []) in
      check_catch_types (params ++ if (kind =? 1) || (kind =? 3) then [types.exnref] else []) target ;;;
      let* rest := parse_catches n' in
      ret ({| cc_kind := kind; cc_tag_index := tag_index; cc_label := label; cc_depth_change := 0; cc_eh_leave_count := 0 |} :: rest)
  end.
Fixpoint place_catches (catch_try_depth : Z) (clauses : list catch_clause) : M pstate (list catch_clause) :=
  match clauses with
  | [] => ret []
  | c :: cs =>
      let* target := label_target (cc_label c) in
      let* s := get in
      let* rest := place_catches catch_try_depth cs in
      ret ({| cc_kind := cc_kind c; cc_tag_index := cc_tag_index c; cc_label := cc_label c;
              cc_depth_change := wrap 32 (catch_try_depth - pc_operand_depth target);
              cc_eh_leave_count := count_eh_leaves_for_branch (cc_label c) s |} :: rest)
  end.
Fixpoint handle_catches (clauses : list catch_clause) (pcs : list branch_t) : M pstate unit :=
  match clauses, pcs with
  | c :: cs, b :: bs => handle_branch_target (cc_label c) b ;;; handle_catches cs bs
  | _, _ => ret tt
  end.
Definition parse_try_table_type : M pstate (Z * list Z * list Z) :=
  let* first_byte := peek_byte in
  if (first_byte =? types.pseudo) || is_value_byte first_byte || (first_byte =? types.v128) || is_ref_byte first_byte
  then on_code incr ;;; ret (first_byte, [], [])
  else parse_type_index.
Definition parse_try_table : M pstate unit :=
  check_in_bounds ;;; require_eh ;;;
  let* bt := parse_try_table_type in
  let '(single_type, bp, br) := bt in
  let* num_catches := varuint32 in
  let* s := get in
  parse_check (num_catches <=? (bounds (code s) - offset (code s)) / 2) "catch count exceeds function body" ;;;
  let* clauses := parse_catches (Z.to_nat num_catches) in
  let* s := get in
  let catch_try_depth := operand_depth (op_stack s) in
  on_stack (pop_rev bp) ;;;
  let* s := get in
  let try_depth := operand_depth (op_stack s) in
  let* clauses := place_catches catch_try_depth clauses in
  let* clause_pcs := on_writer (emit_try_table clauses) in
  handle_catches clauses clause_pcs ;;;
  enter_scope ((element try_depth single_type single_type bp br br (branches [])) <| is_try_table := 0 <? num_catches |>) ;;;
  open_scope.

End Body.
