(* ===== verification/ParseVec.v ===== *)
(** * Validation of vector and atomic instructions

    The cases of [parse_function_body_code_impl] for the prefixes 0xFD and 0xFE
    (psizam/detail/parser.hpp), with the opcodes of psizam/detail/opcodes_def.hpp
    and psizam/detail/opcodes.hpp. *)
From Stdlib Require Import ZArith Lia Bool String.
From stdpp Require Import base list numbers decidable option.
From S2P Require Import Prelude Leb128 Types InitExpr ConstExpr ParseInit Writer Validator.
Import GuardedPtr Leb Opcode GasInjector BitcodeWriter Tracker.

(** The case of an opcode. *)
Fixpoint case_of {A} (n : Z) (cases : list (Z * A)) : option A :=
  match cases with [] => None | (k, a) :: cases => if n =? k then Some a else case_of n cases end.

(** ** Opcodes *)
Definition vec1 (op : vec_numeric) : numeric := {| num_op := vec_ op; num_args := [types.v128]; num_result := types.v128 |}.
Definition vec2 (op : vec_numeric) : numeric := {| num_op := vec_ op; num_args := [types.v128; types.v128]; num_result := types.v128 |}.
Definition vec3 (op : vec_numeric) : numeric :=
  {| num_op := vec_ op; num_args := [types.v128; types.v128; types.v128]; num_result := types.v128 |}.
Definition vec_test (op : vec_numeric) : numeric := {| num_op := vec_ op; num_args := [types.v128]; num_result := types.i32 |}.
Definition vec_shift (op : vec_numeric) : numeric := {| num_op := vec_ op; num_args := [types.i32; types.v128]; num_result := types.v128 |}.
Definition vec_splat (op : vec_numeric) (from : Z) : numeric := {| num_op := vec_ op; num_args := [from]; num_result := types.v128 |}.
(** [LOAD_OP], [LOADLANE_OP] and [STORELANE_OP], with what they are applied to: the
    instruction and the alignment. *)
Definition vec_load_ops : list (Z * (vec_load * Z)) :=
  [ (0, (v128_load, 4)); (1, (v128_load8x8_s, 3)); (2, (v128_load8x8_u, 3)); (3, (v128_load16x4_s, 3));
    (4, (v128_load16x4_u, 3)); (5, (v128_load32x2_s, 3)); (6, (v128_load32x2_u, 3)); (7, (v128_load8_splat, 0));
    (8, (v128_load16_splat, 1)); (9, (v128_load32_splat, 2)); (10, (v128_load64_splat, 3));
    (92, (v128_load32_zero, 2)); (93, (v128_load64_zero, 3)) ].
Definition load_lane_ops : list (Z * (vec_lane_load * Z)) :=
  [ (84, (v128_load8_lane, 0)); (85, (v128_load16_lane, 1)); (86, (v128_load32_lane, 2));
    (87, (v128_load64_lane, 3)) ].
Definition store_lane_ops : list (Z * (vec_lane_store * Z)) :=
  [ (88, (v128_store8_lane, 0)); (89, (v128_store16_lane, 1)); (90, (v128_store32_lane, 2));
    (91, (v128_store64_lane, 3)) ].
(** [EXTRACT_LANE_OP] and [REPLACE_LANE_OP]: the instruction, the type of a lane and the
    number of lanes. *)
Definition extract_ops : list (Z * (vec_extract * Z * Z)) :=
  [ (21, (i8x16_extract_lane_s, types.i32, 16)); (22, (i8x16_extract_lane_u, types.i32, 16));
    (24, (i16x8_extract_lane_s, types.i32, 8)); (25, (i16x8_extract_lane_u, types.i32, 8));
    (27, (i32x4_extract_lane, types.i32, 4)); (29, (i64x2_extract_lane, types.i64, 2));
    (31, (f32x4_extract_lane, types.f32, 4)); (33, (f64x2_extract_lane, types.f64, 2)) ].
Definition replace_ops : list (Z * (vec_replace * Z * Z)) :=
  [ (23, (i8x16_replace_lane, types.i32, 16)); (26, (i16x8_replace_lane, types.i32, 8));
    (28, (i32x4_replace_lane, types.i32, 4)); (30, (i64x2_replace_lane, types.i64, 2));
    (32, (f32x4_replace_lane, types.f32, 4)); (34, (f64x2_replace_lane, types.f64, 2)) ].
(** [NUMERIC_OP] *)
Definition vec_numeric_ops : list (Z * numeric) :=
  [ (14, vec2 i8x16_swizzle); (15, vec_splat i8x16_splat types.i32); (16, vec_splat i16x8_splat types.i32);
    (17, vec_splat i32x4_splat types.i32); (18, vec_splat i64x2_splat types.i64);
    (19, vec_splat f32x4_splat types.f32); (20, vec_splat f64x2_splat types.f64); (35, vec2 i8x16_eq);
    (36, vec2 i8x16_ne); (37, vec2 i8x16_lt_s); (38, vec2 i8x16_lt_u); (39, vec2 i8x16_gt_s); (40, vec2 i8x16_gt_u);
    (41, vec2 i8x16_le_s); (42, vec2 i8x16_le_u); (43, vec2 i8x16_ge_s); (44, vec2 i8x16_ge_u); (45, vec2 i16x8_eq);
    (46, vec2 i16x8_ne); (47, vec2 i16x8_lt_s); (48, vec2 i16x8_lt_u); (49, vec2 i16x8_gt_s); (50, vec2 i16x8_gt_u);
    (51, vec2 i16x8_le_s); (52, vec2 i16x8_le_u); (53, vec2 i16x8_ge_s); (54, vec2 i16x8_ge_u); (55, vec2 i32x4_eq);
    (56, vec2 i32x4_ne); (57, vec2 i32x4_lt_s); (58, vec2 i32x4_lt_u); (59, vec2 i32x4_gt_s); (60, vec2 i32x4_gt_u);
    (61, vec2 i32x4_le_s); (62, vec2 i32x4_le_u); (63, vec2 i32x4_ge_s); (64, vec2 i32x4_ge_u); (214, vec2 i64x2_eq);
    (215, vec2 i64x2_ne); (216, vec2 i64x2_lt_s); (217, vec2 i64x2_gt_s); (218, vec2 i64x2_le_s);
    (219, vec2 i64x2_ge_s); (65, vec2 f32x4_eq); (66, vec2 f32x4_ne); (67, vec2 f32x4_lt); (68, vec2 f32x4_gt);
    (69, vec2 f32x4_le); (70, vec2 f32x4_ge); (71, vec2 f64x2_eq); (72, vec2 f64x2_ne); (73, vec2 f64x2_lt);
    (74, vec2 f64x2_gt); (75, vec2 f64x2_le); (76, vec2 f64x2_ge); (77, vec1 v128_not); (78, vec2 v128_and);
    (79, vec2 v128_andnot); (80, vec2 v128_or); (81, vec2 v128_xor); (82, vec3 v128_bitselect);
    (83, vec_test v128_any_true); (96, vec1 i8x16_abs); (97, vec1 i8x16_neg); (98, vec1 i8x16_popcnt);
    (99, vec_test i8x16_all_true); (100, vec_test i8x16_bitmask); (101, vec2 i8x16_narrow_i16x8_s);
    (102, vec2 i8x16_narrow_i16x8_u); (107, vec_shift i8x16_shl); (108, vec_shift i8x16_shr_s);
    (109, vec_shift i8x16_shr_u); (110, vec2 i8x16_add); (111, vec2 i8x16_add_sat_s); (112, vec2 i8x16_add_sat_u);
    (113, vec2 i8x16_sub); (114, vec2 i8x16_sub_sat_s); (115, vec2 i8x16_sub_sat_u); (118, vec2 i8x16_min_s);
    (119, vec2 i8x16_min_u); (120, vec2 i8x16_max_s); (121, vec2 i8x16_max_u); (123, vec2 i8x16_avgr_u);
    (124, vec1 i16x8_extadd_pairwise_i8x16_s); (125, vec1 i16x8_extadd_pairwise_i8x16_u); (128, vec1 i16x8_abs);
    (129, vec1 i16x8_neg); (130, vec2 i16x8_q15mulr_sat_s); (131, vec_test i16x8_all_true);
    (132, vec_test i16x8_bitmask); (133, vec2 i16x8_narrow_i32x4_s); (134, vec2 i16x8_narrow_i32x4_u);
    (135, vec1 i16x8_extend_low_i8x16_s); (136, vec1 i16x8_extend_high_i8x16_s);
    (137, vec1 i16x8_extend_low_i8x16_u); (138, vec1 i16x8_extend_high_i8x16_u); (139, vec_shift i16x8_shl);
    (140, vec_shift i16x8_shr_s); (141, vec_shift i16x8_shr_u); (142, vec2 i16x8_add); (143, vec2 i16x8_add_sat_s);
    (144, vec2 i16x8_add_sat_u); (145, vec2 i16x8_sub); (146, vec2 i16x8_sub_sat_s); (147, vec2 i16x8_sub_sat_u);
    (149, vec2 i16x8_mul); (150, vec2 i16x8_min_s); (151, vec2 i16x8_min_u); (152, vec2 i16x8_max_s);
    (153, vec2 i16x8_max_u); (155, vec2 i16x8_avgr_u); (156, vec2 i16x8_extmul_low_i8x16_s);
    (157, vec2 i16x8_extmul_high_i8x16_s); (158, vec2 i16x8_extmul_low_i8x16_u);
    (159, vec2 i16x8_extmul_high_i8x16_u); (126, vec1 i32x4_extadd_pairwise_i16x8_s);
    (127, vec1 i32x4_extadd_pairwise_i16x8_u); (160, vec1 i32x4_abs); (161, vec1 i32x4_neg);
    (163, vec_test i32x4_all_true); (164, vec_test i32x4_bitmask); (167, vec1 i32x4_extend_low_i16x8_s);
    (168, vec1 i32x4_extend_high_i16x8_s); (169, vec1 i32x4_extend_low_i16x8_u);
    (170, vec1 i32x4_extend_high_i16x8_u); (171, vec_shift i32x4_shl); (172, vec_shift i32x4_shr_s);
    (173, vec_shift i32x4_shr_u); (174, vec2 i32x4_add); (177, vec2 i32x4_sub); (181, vec2 i32x4_mul);
    (182, vec2 i32x4_min_s); (183, vec2 i32x4_min_u); (184, vec2 i32x4_max_s); (185, vec2 i32x4_max_u);
    (186, vec2 i32x4_dot_i16x8_s); (188, vec2 i32x4_extmul_low_i16x8_s); (189, vec2 i32x4_extmul_high_i16x8_s);
    (190, vec2 i32x4_extmul_low_i16x8_u); (191, vec2 i32x4_extmul_high_i16x8_u); (192, vec1 i64x2_abs);
    (193, vec1 i64x2_neg); (195, vec_test i64x2_all_true); (196, vec_test i64x2_bitmask);
    (199, vec1 i64x2_extend_low_i32x4_s); (200, vec1 i64x2_extend_high_i32x4_s);
    (201, vec1 i64x2_extend_low_i32x4_u); (202, vec1 i64x2_extend_high_i32x4_u); (203, vec_shift i64x2_shl);
    (204, vec_shift i64x2_shr_s); (205, vec_shift i64x2_shr_u); (206, vec2 i64x2_add); (209, vec2 i64x2_sub);
    (213, vec2 i64x2_mul); (220, vec2 i64x2_extmul_low_i32x4_s); (221, vec2 i64x2_extmul_high_i32x4_s);
    (222, vec2 i64x2_extmul_low_i32x4_u); (223, vec2 i64x2_extmul_high_i32x4_u); (103, vec1 f32x4_ceil);
    (104, vec1 f32x4_floor); (105, vec1 f32x4_trunc); (106, vec1 f32x4_nearest); (224, vec1 f32x4_abs);
    (225, vec1 f32x4_neg); (227, vec1 f32x4_sqrt); (228, vec2 f32x4_add); (229, vec2 f32x4_sub);
    (230, vec2 f32x4_mul); (231, vec2 f32x4_div); (232, vec2 f32x4_min); (233, vec2 f32x4_max);
    (234, vec2 f32x4_pmin); (235, vec2 f32x4_pmax); (116, vec1 f64x2_ceil); (117, vec1 f64x2_floor);
    (122, vec1 f64x2_trunc); (148, vec1 f64x2_nearest); (236, vec1 f64x2_abs); (237, vec1 f64x2_neg);
    (239, vec1 f64x2_sqrt); (240, vec2 f64x2_add); (241, vec2 f64x2_sub); (242, vec2 f64x2_mul);
    (243, vec2 f64x2_div); (244, vec2 f64x2_min); (245, vec2 f64x2_max); (246, vec2 f64x2_pmin);
    (247, vec2 f64x2_pmax); (248, vec1 i32x4_trunc_sat_f32x4_s); (249, vec1 i32x4_trunc_sat_f32x4_u);
    (250, vec1 f32x4_convert_i32x4_s); (251, vec1 f32x4_convert_i32x4_u); (252, vec1 i32x4_trunc_sat_f64x2_s_zero);
    (253, vec1 i32x4_trunc_sat_f64x2_u_zero); (254, vec1 f64x2_convert_low_i32x4_s);
    (255, vec1 f64x2_convert_low_i32x4_u); (94, vec1 f32x4_demote_f64x2_zero); (95, vec1 f64x2_promote_low_f32x4) ].
(** The relaxed instructions, and those they are written as. *)
Definition vec_relaxed_ops : list (Z * numeric) :=
  [ (0x100, vec2 i8x16_swizzle); (0x101, vec1 i32x4_trunc_sat_f32x4_s); (0x102, vec1 i32x4_trunc_sat_f32x4_u);
    (0x103, vec1 i32x4_trunc_sat_f64x2_s_zero); (0x104, vec1 i32x4_trunc_sat_f64x2_u_zero);
    (0x105, vec3 f32x4_relaxed_madd); (0x106, vec3 f32x4_relaxed_nmadd); (0x107, vec3 f64x2_relaxed_madd);
    (0x108, vec3 f64x2_relaxed_nmadd); (0x109, vec3 v128_bitselect); (0x10A, vec3 v128_bitselect);
    (0x10B, vec3 v128_bitselect); (0x10C, vec3 v128_bitselect); (0x10D, vec2 f32x4_pmin); (0x10E, vec2 f32x4_pmax);
    (0x10F, vec2 f64x2_pmin); (0x110, vec2 f64x2_pmax); (0x111, vec2 i16x8_q15mulr_sat_s);
    (0x112, vec2 i16x8_relaxed_dot_i8x16_i7x16_s); (0x113, vec3 i32x4_relaxed_dot_i8x16_i7x16_add_s) ].
(** [atomic_sub] *)
Definition atomic_subs : list (Z * atomic_sub) :=
  [ (0x00, memory_atomic_notify); (0x01, memory_atomic_wait32); (0x02, memory_atomic_wait64); (0x03, atomic_fence);
    (0x10, i32_atomic_load); (0x11, i64_atomic_load); (0x12, i32_atomic_load8_u); (0x13, i32_atomic_load16_u);
    (0x14, i64_atomic_load8_u); (0x15, i64_atomic_load16_u); (0x16, i64_atomic_load32_u); (0x17, i32_atomic_store);
    (0x18, i64_atomic_store); (0x19, i32_atomic_store8); (0x1A, i32_atomic_store16); (0x1B, i64_atomic_store8);
    (0x1C, i64_atomic_store16); (0x1D, i64_atomic_store32); (0x1E, i32_atomic_rmw_add); (0x1F, i64_atomic_rmw_add);
    (0x20, i32_atomic_rmw8_add_u); (0x21, i32_atomic_rmw16_add_u); (0x22, i64_atomic_rmw8_add_u);
    (0x23, i64_atomic_rmw16_add_u); (0x24, i64_atomic_rmw32_add_u); (0x25, i32_atomic_rmw_sub);
    (0x26, i64_atomic_rmw_sub); (0x27, i32_atomic_rmw8_sub_u); (0x28, i32_atomic_rmw16_sub_u);
    (0x29, i64_atomic_rmw8_sub_u); (0x2A, i64_atomic_rmw16_sub_u); (0x2B, i64_atomic_rmw32_sub_u);
    (0x2C, i32_atomic_rmw_and); (0x2D, i64_atomic_rmw_and); (0x2E, i32_atomic_rmw8_and_u);
    (0x2F, i32_atomic_rmw16_and_u); (0x30, i64_atomic_rmw8_and_u); (0x31, i64_atomic_rmw16_and_u);
    (0x32, i64_atomic_rmw32_and_u); (0x33, i32_atomic_rmw_or); (0x34, i64_atomic_rmw_or);
    (0x35, i32_atomic_rmw8_or_u); (0x36, i32_atomic_rmw16_or_u); (0x37, i64_atomic_rmw8_or_u);
    (0x38, i64_atomic_rmw16_or_u); (0x39, i64_atomic_rmw32_or_u); (0x3A, i32_atomic_rmw_xor);
    (0x3B, i64_atomic_rmw_xor); (0x3C, i32_atomic_rmw8_xor_u); (0x3D, i32_atomic_rmw16_xor_u);
    (0x3E, i64_atomic_rmw8_xor_u); (0x3F, i64_atomic_rmw16_xor_u); (0x40, i64_atomic_rmw32_xor_u);
    (0x41, i32_atomic_rmw_xchg); (0x42, i64_atomic_rmw_xchg); (0x43, i32_atomic_rmw8_xchg_u);
    (0x44, i32_atomic_rmw16_xchg_u); (0x45, i64_atomic_rmw8_xchg_u); (0x46, i64_atomic_rmw16_xchg_u);
    (0x47, i64_atomic_rmw32_xchg_u); (0x48, i32_atomic_rmw_cmpxchg); (0x49, i64_atomic_rmw_cmpxchg);
    (0x4A, i32_atomic_rmw8_cmpxchg_u); (0x4B, i32_atomic_rmw16_cmpxchg_u); (0x4C, i64_atomic_rmw8_cmpxchg_u);
    (0x4D, i64_atomic_rmw16_cmpxchg_u); (0x4E, i64_atomic_rmw32_cmpxchg_u) ].

Section Vectors.
Context (m : module) (_options : Options).
Abbreviation mem_addr_type := (mem_addr_type m).

(** ** Vectors *)
Definition parse_vec_load (op : vec_load) (max_align : Z) : M pstate unit :=
  check_in_bounds ;;;
  let* a := parse_memarg m _options max_align in
  on_stack (pop mem_addr_type) ;;; on_stack (push types.v128) ;;;
  on_writer (emit_op (vec_load_ op a)).
Definition parse_v128_store : M pstate unit :=
  check_in_bounds ;;;
  let* a := parse_memarg m _options 4 in
  on_stack (pop types.v128) ;;; on_stack (pop mem_addr_type) ;;;
  on_writer (emit_op (v128_store_ a)).
(** The immediates of [LOADLANE_OP] and [STORELANE_OP]. *)
Definition parse_lane_memarg (max_align : Z) : M pstate (memarg * Z) :=
  parse_check (0 <? vec_size (m_memories m)) "load or store requires memory" ;;;
  let* alignment := varuint32 in
  let* offset := parse_memarg_offset m in
  let* lane := next_byte in
  parse_check (alignment <=? max_align) "alignment cannot be greater than size." ;;;
  parse_check (offset <=? max_memory_offset _options) "offset too large." ;;;
  parse_check (lane <? Z.shiftl 1 (4 - max_align)) "laneidx out of bounds" ;;;
  ret ({| flags_align := alignment; mem_offset := offset |}, lane).
Definition parse_load_lane (op : vec_lane_load) (max_align : Z) : M pstate unit :=
  check_in_bounds ;;;
  let* a := parse_lane_memarg max_align in
  on_stack (pop types.v128) ;;; on_stack (pop mem_addr_type) ;;; on_stack (push types.v128) ;;;
  on_writer (emit_op (vec_load_lane_ op a.1 a.2)).
Definition parse_store_lane (op : vec_lane_store) (max_align : Z) : M pstate unit :=
  check_in_bounds ;;;
  let* a := parse_lane_memarg max_align in
  on_stack (pop types.v128) ;;; on_stack (pop mem_addr_type) ;;;
  on_writer (emit_op (vec_store_lane_ op a.1 a.2)).
Definition parse_v128_const : M pstate unit :=
  check_in_bounds ;;;
  let* v := on_code (Parser.parse_raw 16) in
  on_writer (emit_op (v128_const_ v)) ;;;
  on_stack (push types.v128).
(** [lanes[0..n)], from [code.raw()] on. *)
Fixpoint read_bytes (n : nat) (raw : Z) : M guarded_ptr (list Z) :=
  match n with
  | O => ret []
  | S n => let* b := deref raw in let* r := read_bytes n (raw + 1) in ret (b :: r)
  end.
Definition read_shuffle : M guarded_ptr (list Z) :=
  let* g := get in
  advance 16 ;;;
  read_bytes 16 (gp_raw g).
Definition parse_shuffle : M pstate unit :=
  check_in_bounds ;;;
  let* ls := on_code read_shuffle in
  parse_check (forallb (fun l => l <? 32) ls) "shuffle laneidx must be less than 32" ;;;
  on_writer (emit_op (i8x16_shuffle_ ls)) ;;;
  on_stack (pop types.v128) ;;; on_stack (pop types.v128) ;;; on_stack (push types.v128).
Definition parse_extract_lane (op : vec_extract) (type N : Z) : M pstate unit :=
  check_in_bounds ;;;
  let* laneidx := next_byte in
  parse_check (laneidx <? N) "laneidx must be smaller than dim(shape)" ;;;
  on_stack (pop types.v128) ;;; on_stack (push type) ;;;
  on_writer (emit_op (vec_extract_lane_ op laneidx)).
Definition parse_replace_lane (op : vec_replace) (type N : Z) : M pstate unit :=
  check_in_bounds ;;;
  let* laneidx := next_byte in
  parse_check (laneidx <? N) "laneidx must be smaller than dim(shape)" ;;;
  on_stack (pop type) ;;; on_stack (pop types.v128) ;;; on_stack (push types.v128) ;;;
  on_writer (emit_op (vec_replace_lane_ op laneidx)).
Definition parse_vec_numeric (n : numeric) : M pstate unit :=
  check_in_bounds ;;;
  on_stack (pops (num_args n)) ;;; on_stack (push (num_result n)) ;;;
  on_writer (emit_op (num_op n)).

(** The cases behind the prefix, as far as they match. *)
Definition parse_vec_memory (op : Z) : option (M pstate unit) :=
  match case_of op vec_load_ops, case_of op load_lane_ops, case_of op store_lane_ops with
  | Some (o, a), _, _ => Some (parse_vec_load o a)
  | _, Some (o, a), _ => Some (parse_load_lane o a)
  | _, _, Some (o, a) => Some (parse_store_lane o a)
  | _, _, _ => if op =? 11 then Some parse_v128_store else None
  end.
Definition parse_vec_lanes (op : Z) : option (M pstate unit) :=
  match case_of op extract_ops, case_of op replace_ops with
  | Some (o, t, n), _ => Some (parse_extract_lane o t n)
  | _, Some (o, t, n) => Some (parse_replace_lane o t n)
  | _, _ => if op =? 12 then Some parse_v128_const else if op =? 13 then Some parse_shuffle else None
  end.
Definition parse_vec : M pstate unit :=
  parse_check (enable_simd _options) "SIMD not enabled" ;;;
  let* op := varuint32 in
  match parse_vec_memory op, parse_vec_lanes op, case_of op (vec_numeric_ops ++ vec_relaxed_ops) with
  | Some p, _, _ | None, Some p, _ => p
  | None, None, Some n => parse_vec_numeric n
  | None, None, None => throw wasm_parse_exception "Illegal instruction"
  end.

(** ** Atomics *)
Definition emit_atomic_op (asub : Z) (a : memarg) : M bitcode_writer unit :=
  match case_of asub atomic_subs with Some k => emit_op (atomic_op_ k a) | None => undefined end.
Definition parse_atomic_memarg : M pstate memarg :=
  let* align := varuint32 in
  let* offset := parse_memarg_offset m in
  ret {| flags_align := align; mem_offset := offset |}.
Definition parse_atomic_fence (asub : Z) : M pstate unit :=
  check_in_bounds ;;;
  zero_byte "atomic.fence must have 0x00 byte" ;;;
  on_writer (emit_atomic_op asub {| flags_align := 0; mem_offset := 0 |}).
(** An access with operands of the types [args] above the address. *)
Definition parse_atomic_access (asub : Z) (args results : list Z) : M pstate unit :=
  check_in_bounds ;;;
  let* a := parse_atomic_memarg in
  on_stack (pops args) ;;; on_stack (pop mem_addr_type) ;;; on_stack (pushes results) ;;;
  on_writer (emit_atomic_op asub a).
(** [is_cmpxchg] and [is_i64] *)
Definition is_cmpxchg (subop : Z) : bool := 0x48 <=? subop.
Definition is_i64 (subop : Z) : bool :=
  if is_cmpxchg subop then (subop =? 0x49) || (0x4C <=? subop)
  else let in_group := wrap 8 ((subop - 0x1E) mod 7) in (in_group =? 1) || (4 <=? in_group).
Definition parse_atomic : M pstate unit :=
  let* subop := varuint32 in
  let asub := wrap 8 subop in
  if asub =? 0x03 then parse_atomic_fence asub
  else if asub =? 0x00 then parse_atomic_access asub [types.i32] [types.i32]
  else if asub =? 0x01 then parse_atomic_access asub [types.i64; types.i32] [types.i32]
  else if asub =? 0x02 then parse_atomic_access asub [types.i64; types.i64] [types.i32]
  else if (0x10 <=? subop) && (subop <=? 0x16) then
    parse_atomic_access asub [] [if subop <=? 0x13 then types.i32 else types.i64]
  else if (0x17 <=? subop) && (subop <=? 0x1D) then
    parse_atomic_access asub [if subop <=? 0x1A then types.i32 else types.i64] []
  else if (0x1E <=? subop) && (subop <=? 0x4E) then
    let t := if is_i64 subop then types.i64 else types.i32 in
    parse_atomic_access asub (if is_cmpxchg subop then [t; t] else [t]) [t]
  else throw wasm_parse_exception "Illegal atomic instruction".
End Vectors.
