(* ===== verification/ParseBody.v ===== *)
(** * The loop over a function body

    The switch of [parse_function_body_code_impl] over the instructions, its loop,
    and [write_code_out], which parses the bodies one after the other. *)
From Stdlib Require Import ZArith Lia Bool String.
From stdpp Require Import base list numbers decidable option.
From S2P Require Import Prelude Leb128 Types InitExpr ConstExpr ParseInit Writer Validator ParseVec.
Import GuardedPtr Leb Opcode GasInjector BitcodeWriter Tracker.

Section Body.
(** The module, [type_aliases], [_datacount], the options, and the function's
    type and local types. *)
Context (m : module) (type_aliases : list Z) (datacount : option Z) (_options : Options)
  (ft : func_type) (local_types : LocalTypes.local_types_t).

(** *** The switch *)
Definition parse_control (op : Z) : option (M pstate unit) :=
  if op =? 0x00 then Some (check_in_bounds ;;; on_writer emit_unreachable ;;; on_stack start_unreachable)
  else if op =? 0x01 then Some (on_writer emit_nop)
  else if op =? 0x02 then Some (parse_block m _options)
  else if op =? 0x03 then Some (parse_loop m _options)
  else if op =? 0x04 then Some (parse_if m _options)
  else if op =? 0x05 then Some parse_else
  else if op =? 0x0B then Some parse_end
  else if op =? 0x0C then Some parse_br
  else if op =? 0x0D then Some parse_br_if
  else if op =? 0x0E then Some (parse_br_table _options)
  else if op =? 0x0F then Some parse_return
  else if op =? 0x10 then Some (parse_call m)
  else if op =? 0x11 then Some (parse_call_indirect m type_aliases)
  else if op =? 0x12 then Some (parse_return_call m ft)
  else if op =? 0x13 then Some (parse_return_call_indirect m type_aliases ft)
  else None.
Definition parse_exceptions (op : Z) : option (M pstate unit) :=
  if op =? 0x06 then Some (parse_try m)
  else if op =? 0x07 then Some (parse_catch m)
  else if op =? 0x08 then Some (parse_throw m _options)
  else if op =? 0x09 then Some (parse_rethrow _options)
  else if op =? 0x0A then Some (parse_throw_ref _options)
  else if op =? 0x18 then Some parse_catch_all
  else if op =? 0x19 then Some parse_delegate
  else if op =? 0x1F then Some (parse_try_table m _options)
  else None.
Definition parse_variable (op : Z) : option (M pstate unit) :=
  if op =? 0x1A then Some parse_drop
  else if op =? 0x1B then Some parse_select
  else if op =? 0x1C then Some parse_typed_select
  else if op =? 0x20 then Some (parse_get_local local_types)
  else if op =? 0x21 then Some (parse_set_local local_types)
  else if op =? 0x22 then Some (parse_tee_local local_types)
  else if op =? 0x23 then Some (parse_get_global m)
  else if op =? 0x24 then Some (parse_set_global m)
  else if op =? 0x25 then Some (parse_table_get m)
  else if op =? 0x26 then Some (parse_table_set m)
  else if op =? 0xD0 then Some parse_ref_null
  else if op =? 0xD1 then Some parse_ref_is_null
  else if op =? 0xD2 then Some (parse_ref_func m)
  else None.
Definition parse_memory (op : Z) : option (M pstate unit) :=
  if op =? 0x3F then Some (parse_current_memory m)
  else if op =? 0x40 then Some (parse_grow_memory m)
  else match vec_lookup load_ops (op - 0x28), vec_lookup store_ops (op - 0x36) with
       | Some (o, a, t), _ => Some (parse_load m _options o a t)
       | None, Some (o, a, t) => Some (parse_store m _options o a t)
       | None, None => None
       end.
Definition parse_number (op : Z) : option (M pstate unit) :=
  if op =? 0x41 then Some (parse_const (parse_varint 32) (fun v => i32_const_ (wrap 32 v)) types.i32)
  else if op =? 0x42 then Some (parse_const (parse_varint 64) (fun v => i64_const_ (wrap 64 v)) types.i64)
  else if op =? 0x43 then Some (parse_const (Parser.parse_raw 4) f32_const_ types.f32)
  else if op =? 0x44 then Some (parse_const (Parser.parse_raw 8) f64_const_ types.f64)
  else match vec_lookup numeric_ops (op - 0x45), vec_lookup extend_ops (op - 0xC0) with
       | Some n, _ => Some (parse_numeric n)
       | None, Some n => Some (parse_extend _options n)
       | None, None => None
       end.
Definition parse_instr (op : Z) : M pstate unit :=
  match parse_control op, parse_exceptions op, parse_variable op, parse_memory op, parse_number op with
  | Some p, _, _, _, _ | None, Some p, _, _, _ | None, None, Some p, _, _
  | None, None, None, Some p, _ | None, None, None, None, Some p => p
  | None, None, None, None, None =>
      if op =? 0xFC then parse_ext m datacount _options
      else if op =? 0xFD then parse_vec m _options
      else if op =? 0xFE then parse_atomic m
      else throw wasm_parse_exception "Illegal instruction"
  end.

(** The loop over the body; every iteration consumes its opcode. *)
Definition body_step : M pstate unit :=
  let* s := get in
  parse_check (vec_size (pc_stack s) <=? max_nested_structures _options) "nested structures validation failure" ;;;
  let* op_byte := next_byte in
  modify (fun s => s <| gas_state := on_opcode op_byte (gas_state s) |>) ;;;
  parse_instr op_byte.
Fixpoint body_loop (fuel : nat) : M pstate unit :=
  match fuel with
  | O => undefined
  | S n =>
      let* s := get in
      if offset (code s) <? bounds (code s) then body_step ;;; body_loop n else ret tt
  end.

(** The control element of the function. *)
Definition func_scope : pc_element_t :=
  let r := if return_count ft =? 0 then types.pseudo else return_type ft in
  let rs := if 1 <? return_count ft then return_types ft else [] in
  element 0 r r [] rs rs (branches []).

(** The end of [parse_function_body_code_impl]; the result is the function's
    contribution to [maximum_stack]. *)
Definition finish_body : M pstate Z :=
  let* s := get in
  parse_check (bool_decide (pc_stack s = [])) "function body too long" ;;;
  on_writer (patch_gas_imm_add_extra (Some prologue_gas) (prepay_extra (gas_state s))) ;;;
  ret (maximum_operand_depth (op_stack s) + LocalTypes.locals_count local_types).
Definition parse_body : M pstate Z :=
  let* s := get in
  body_loop (S (Z.to_nat (bounds (code s)))) ;;; finish_body.

End Body.

(** ** Functions *)

(** A body the section parser has set aside: its bytes, behind the locals. *)
Record pending_body := { pb_bytes : list Z; pb_fb : function_body }.

Section Code.
Context (junk : opcode) (capacity : Z) (m : module) (type_aliases : list Z) (datacount : option Z) (_options : Options).

(** [parse_function_body_code], on the writer of the module. *)
Definition parse_function_body_code (bytes : list Z) (ft : func_type) (lt : LocalTypes.local_types_t) : M bitcode_writer Z := fun w =>
  let s := {| code := GuardedPtr.make bytes (vec_size bytes); op_stack := Tracker.make; pc_stack := [func_scope ft];
              gas_state := reset; code_writer := w; has_exception_handling := false |} in
  match parse_body m type_aliases datacount _options ft lt s with
  | Ok r s' => Ok r (code_writer s')
  | Throw e s' => Throw e (code_writer s')
  | UB => UB
  end.

(** One iteration of [write_code_out]. *)
Definition write_function (i : Z) (b : pending_body) : M bitcode_writer (function_body * Z) :=
  let* t := vec_at (m_functions m) i in
  let* ft := vec_at (m_types m) t in
  let* lt := LocalTypes.make ft (fb_locals (pb_fb b)) in
  emit_prologue junk capacity (vec_size (pb_bytes b)) (fb_prologue_gas_extra (pb_fb b)) ;;;
  let* depth := parse_function_body_code (pb_bytes b) ft lt in
  emit_epilogue junk capacity ft (fb_locals (pb_fb b)) ;;;
  let* fb := finalize junk capacity (pb_fb b) in
  ret (fb, depth).
Fixpoint write_functions (i : Z) (bodies : list pending_body) (maximum_stack : Z) : M bitcode_writer (list function_body * Z) :=
  match bodies with
  | [] => ret ([], maximum_stack)
  | b :: bs =>
      let* r := write_function i b in
      let* rest := write_functions (i + 1) bs (Z.max maximum_stack r.2) in
      ret (r.1 :: rest.1, rest.2)
  end.

(** [write_code_out]: the module with its code, code addresses counted from the
    first function's, and [maximum_stack]. *)
Definition link_code (w : bitcode_writer) (fbs : list function_body) : module :=
  let base := match fbs with f :: _ => fb_code f | [] => 0 end in
  {| m_start := m_start m; m_types := m_types m; m_imports := m_imports m; m_functions := m_functions m;
     m_tables := m_tables m; m_memories := m_memories m; m_globals := m_globals m; m_exports := m_exports m;
     m_elements := m_elements m;
     m_code := map (fun f => {| fb_wasm_body_bytes := fb_wasm_body_bytes f; fb_locals := fb_locals f;
                                fb_code := fb_code f - base; fb_stack_size := fb_stack_size f;
                                fb_prologue_gas_extra := fb_prologue_gas_extra f |}) fbs;
     m_data := m_data m; m_tags := m_tags m; m_import_functions := m_import_functions m;
     m_num_imported_tables := m_num_imported_tables m; m_num_imported_memories := m_num_imported_memories m;
     m_num_imported_globals := m_num_imported_globals m; m_stack_limit_is_bytes := m_stack_limit_is_bytes m;
     m_error := m_error m; bytecode := drop (Z.to_nat base) (seg w ++ fb w) |}.
Definition write_code_out (source_bytes : Z) (bodies : list pending_body) : outcome bitcode_writer (module * Z) :=
  match write_functions 0 bodies 0 (BitcodeWriter.make junk source_bytes) with
  | Ok (fbs, maximum_stack) w => Ok (link_code w fbs, maximum_stack) w
  | Throw e w => Throw e w
  | UB => UB
  end.

End Code.
