(* ===== verification/Sections.v ===== *)
(** * Sections

    Models the section level of [binary_parser] (psizam/detail/parser.hpp): the
    entries of every section, the normalization of function types, the custom
    sections, and [parse_module] with its order of sections.  Function bodies and
    the code they are compiled to are [write_code_out] of [Validator].

    The flag [has_exception_handling], which nothing here reads, and the memory
    that the vectors take are not modelled. *)
From Stdlib Require Import ZArith Lia Bool String.
From stdpp Require Import base list numbers decidable option gmap sorting.
From S2P Require Import Prelude Leb128 Types InitExpr ConstExpr ParseInit Utf8 Writer Validator ParseVec ParseBody.
Import GuardedPtr Leb Opcode BitcodeWriter Utf8.

(** ** State *)

#[export] Instance eta_module : Eta module := fun x =>
  {| m_start := m_start x; m_types := m_types x; m_imports := m_imports x; m_functions := m_functions x; m_tables := m_tables x;
     m_memories := m_memories x; m_globals := m_globals x; m_exports := m_exports x; m_elements := m_elements x; m_code := m_code x;
     m_data := m_data x; m_tags := m_tags x; m_import_functions := m_import_functions x; m_num_imported_tables := m_num_imported_tables x;
     m_num_imported_memories := m_num_imported_memories x; m_num_imported_globals := m_num_imported_globals x;
     m_stack_limit_is_bytes := m_stack_limit_is_bytes x; m_error := m_error x; bytecode := bytecode x |}.

Record name_assoc := { na_idx : Z; na_name : list Z }.
Record indirect_name_assoc := { ina_idx : Z; ina_namemap : list name_assoc }.
Record name_section := {
  module_name : option (list Z); function_names : option (list name_assoc); local_names : option (list indirect_name_assoc) }.
#[export] Instance eta_name_section : Eta name_section := fun x =>
  {| module_name := module_name x; function_names := function_names x; local_names := local_names x |}.
Record branch_hint := { bh_offset : Z; bh_value : Z }.

(** [binary_parser], with the pointer it is given and the fields of the module
    that the record [module] leaves out ([names], [maximum_stack], and
    [branch_hints], by the index of the function). *)
Record binary_parser := {
  p_code : guarded_ptr; p_mod : module; p_function_bodies : list pending_body; p_globals_counter : Z;
  p_datacount : option Z; p_type_aliases : list Z; p_fast_functions : list Z; p_table_non_null : list bool;
  p_branch_hints_temp : gmap Z (list branch_hint); p_branch_hints : gmap Z (list branch_hint);
  p_names : option name_section; p_maximum_stack : Z }.
#[export] Instance eta_binary_parser : Eta binary_parser := fun x =>
  {| p_code := p_code x; p_mod := p_mod x; p_function_bodies := p_function_bodies x; p_globals_counter := p_globals_counter x;
     p_datacount := p_datacount x; p_type_aliases := p_type_aliases x; p_fast_functions := p_fast_functions x;
     p_table_non_null := p_table_non_null x; p_branch_hints_temp := p_branch_hints_temp x; p_branch_hints := p_branch_hints x;
     p_names := p_names x; p_maximum_stack := p_maximum_stack x |}.

Definition on_ptr {A} : M guarded_ptr A -> M binary_parser A := zoom p_code (fun g s => s <| p_code := g |>).
Definition on_module (f : module -> module) : M binary_parser unit := modify (fun s => s <| p_mod := f (p_mod s) |>).
Definition the_mod : M binary_parser module := gets p_mod.
Definition read_byte : M binary_parser Z := on_ptr Parser.next.
Definition look_byte : M binary_parser Z := on_ptr current.
Definition skip_byte : M binary_parser unit := on_ptr incr.
Definition read_u32 : M binary_parser Z := on_ptr (parse_varuint 32).
Definition read_name (max_size : Z) : M binary_parser (list Z) := on_ptr (parse_utf8_string max_size).
(** [code.bounds() - code.offset()] *)
Definition remaining : M binary_parser Z := gets (fun s => avail (p_code s)).

(** [scoped_consume_items] and [scoped_shrink_bounds] around code that uses more
    than the pointer. *)
Definition scoped_consume {A} (n : Z) (body : M binary_parser A) : M binary_parser A :=
  let* s := get in
  psizam_assert (n <=? avail (p_code s)) guarded_ptr_exception "guarded ptr out of bounds" ;;;
  modify (fun s => s <| p_code := set_bnds (gp_raw (p_code s) + n) (p_code s) |>) ;;;
  fun s1 => match body s1 with
            | Ok a s' =>
                if gp_raw (p_code s') =? gp_bnds (p_code s') then Ok a (s' <| p_code := set_bnds (gp_bnds (p_code s)) (p_code s') |>)
                else Throw (Exn guarded_ptr_exception "guarded_ptr not advanced") s'
            | Throw e s' => Throw e (s' <| p_code := set_bnds (gp_bnds (p_code s)) (p_code s') |>)
            | UB => UB
            end.
Definition scoped_shrink {A} (n : Z) (body : M binary_parser A) : M binary_parser A :=
  let* s := get in
  psizam_assert (n <=? avail (p_code s)) guarded_ptr_exception "guarded ptr out of bounds" ;;;
  modify (fun s => s <| p_code := set_bnds (gp_raw (p_code s) + n) (p_code s) |>) ;;;
  fun s1 => match body s1 with
            | Ok a s' => Ok a (s' <| p_code := set_bnds (gp_bnds (p_code s)) (p_code s') |>)
            | Throw e s' => Throw e (s' <| p_code := set_bnds (gp_bnds (p_code s)) (p_code s') |>)
            | UB => UB
            end.

(** [for (i = 0; i < n; i++) f(i)] *)
Fixpoint for_each {S} (n : nat) (i : Z) (f : Z -> M S unit) : M S unit :=
  match n with O => ret tt | S n' => f i ;;; for_each n' (i + 1) f end.
(** The values of [n] reads. *)
Fixpoint read_list {S A} (n : nat) (f : M S A) : M S (list A) :=
  match n with O => ret [] | S n' => let* a := f in let* l := read_list n' f in ret (a :: l) end.

(** A vector of the module: [resize] keeps what is there. *)
Record vector_of (E : Type) := { v_get : module -> list E; v_set : list E -> module -> module; v_zero : E }.
Arguments v_get {E}. Arguments v_set {E}. Arguments v_zero {E}.
Definition resized {A} (z : A) (l : list A) (n : Z) : list A := take (Z.to_nat n) (l ++ repeat z (Z.to_nat n - length l)).
Definition v_resize {E} (v : vector_of E) (n : Z) : M binary_parser unit :=
  on_module (fun m => v_set v (resized (v_zero v) (v_get v m) n) m).
Definition v_put {E} (v : vector_of E) (i : Z) (e : E) : M binary_parser unit :=
  on_module (fun m => v_set v (vec_update (v_get v m) i e) m).

Definition zero_limits : resizable_limits := {| lim_flags := false; lim_initial := 0; lim_maximum := 0 |}.
Definition zero_func_type : func_type := {| form := 0; param_types := []; return_types := []; sig_hash := 0; return_count := 0; return_type := 0 |}.
Definition zero_table : table_type := {| element_type := 0; tt_limits := zero_limits |}.
Definition zero_memory : memory_type := {| mt_limits := zero_limits; is_memory64 := false |}.
Definition zero_global : global_type := {| content_type := 0; mutability := false |}.
Definition zero_expr : init_expr := {| ie_value := 0; ie_opcode := 0; ie_raw_expr := [] |}.
Definition import_of (module_str field_str : list Z) (kind : external_kind) : import_entry := {|
  im_module := module_str; im_field := field_str; im_kind := kind; im_func_t := 0; im_table_t := zero_table; im_mem_t := zero_memory; im_global_t := zero_global |}.
Definition zero_body : function_body := {| fb_wasm_body_bytes := 0; fb_locals := []; fb_code := 0; fb_stack_size := 0; fb_prologue_gas_extra := 0 |}.

Definition types_v : vector_of func_type := {| v_get := m_types; v_set l m := m <| m_types := l |>; v_zero := zero_func_type |}.
Definition imports_v : vector_of import_entry := {| v_get := m_imports; v_set l m := m <| m_imports := l |>; v_zero := import_of [] [] Function |}.
Definition functions_v : vector_of Z := {| v_get := m_functions; v_set l m := m <| m_functions := l |>; v_zero := 0 |}.
Definition tables_v : vector_of table_type := {| v_get := m_tables; v_set l m := m <| m_tables := l |>; v_zero := zero_table |}.
Definition memories_v : vector_of memory_type := {| v_get := m_memories; v_set l m := m <| m_memories := l |>; v_zero := zero_memory |}.
Definition globals_v : vector_of global_variable := {|
  v_get := m_globals; v_set l m := m <| m_globals := l |>; v_zero := {| gv_type := zero_global; gv_init := zero_expr |} |}.
Definition exports_v : vector_of export_entry := {|
  v_get := m_exports; v_set l m := m <| m_exports := l |>; v_zero := {| ex_field := []; ex_kind := Function; ex_index := 0 |} |}.
Definition elements_v : vector_of elem_segment := {|
  v_get := m_elements; v_set l m := m <| m_elements := l |>;
  v_zero := {| es_index := 0; es_offset := zero_expr; es_mode := active; es_type := types.funcref; es_elems := [] |} |}.
Definition code_v : vector_of function_body := {| v_get := m_code; v_set l m := m <| m_code := l |>; v_zero := zero_body |}.
Definition data_v : vector_of data_segment := {|
  v_get := m_data; v_set l m := m <| m_data := l |>; v_zero := {| ds_index := 0; ds_offset := zero_expr; ds_passive := false; ds_data := [] |} |}.
Definition tags_v : vector_of tag_type := {| v_get := m_tags; v_set l m := m <| m_tags := l |>; v_zero := {| tag_attribute := 0; tag_type_index := 0 |} |}.

Section Parser.
Context (junk : opcode) (capacity : Z) (_options : Options).

(** ** Value types *)
Definition simd_byte (t : Z) : bool := (t =? types.v128) && enable_simd _options.
(** Parameters and globals; results and locals. *)
Definition param_byte (t : Z) : bool := is_value_byte t || (t =? types.funcref) || (t =? types.externref) || simd_byte t.
Definition result_byte (t : Z) : bool := is_value_byte t || (t =? types.funcref) || (t =? types.externref) || (t =? types.exnref) || simd_byte t.
Definition type_byte (ok : Z -> bool) (msg : string) : M binary_parser Z :=
  let* t := read_byte in parse_check (ok t) msg ;;; ret t.

(** ** Function types *)
Definition parse_func_type : M binary_parser func_type :=
  let* form := read_byte in
  parse_check (form =? 0x60) "invalid function type" ;;;
  let* param_count := read_u32 in
  let* left := remaining in
  parse_check (param_count <=? left) "param count exceeds section" ;;;
  let* params := read_list (Z.to_nat param_count) (type_byte param_byte "invalid function param type") in
  let* return_count := read_u32 in
  let* left := remaining in
  parse_check (return_count <=? left) "return count exceeds section" ;;;
  parse_check (return_count <=? 16) "function return count exceeds implementation limit (16)" ;;;
  let* results := read_list (Z.to_nat return_count) (type_byte result_byte "invalid function return type") in
  let return_bytes := fold_left (fun n t => n + (if t =? types.v128 then 16 else 8)) results 0 in
  parse_check (return_bytes <=? 128) "function multi-value return byte size exceeds implementation limit (128)" ;;;
  ret (finalize_returns {| form := form; param_types := params; return_types := results; sig_hash := 0; return_count := 0; return_type := 0 |}).
Definition with_sig_hash (ft : func_type) : func_type := {|
  form := form ft; param_types := param_types ft; return_types := return_types ft; sig_hash := compute_sig_hash ft;
  return_count := return_count ft; return_type := return_type ft |}.

(** ** Tables, memories, globals *)
Definition parse_flags : M binary_parser Z :=
  let* b := look_byte in parse_check (b <=? 0x03) "invalid flags" ;;; read_byte.

(** [while ( *code++ & 0x80) {}] *)
Fixpoint skip_continued (fuel : nat) : M binary_parser unit :=
  match fuel with
  | O => undefined
  | S n => let* b := read_byte in if Z.land b 0x80 =? 0 then ret tt else skip_continued n
  end.
(** The reference type, and the out-parameter [non_null]: the encoding was 0x64. *)
Definition parse_reftype : M binary_parser (Z * bool) :=
  let* b := read_byte in
  if (b =? types.funcref) || (b =? types.externref) then ret (b, false)
  else if (b =? 0x64) || (b =? 0x63) then
    let* heap := read_byte in
    let nn := b =? 0x64 in
    if heap =? 0x70 then ret (types.funcref, nn)
    else if heap =? 0x6F then ret (types.externref, nn)
    else
      (if 0x80 <=? heap then let* left := remaining in skip_continued (S (Z.to_nat left)) else ret tt) ;;;
      ret (types.funcref, nn)
  else throw wasm_parse_exception "table must have type funcref or externref".

(** [parse_init_expr] with the globals of the module. *)
Definition read_init_expr (type max_global_idx : Z) : M binary_parser init_expr :=
  let* m := the_mod in on_ptr (Parser.parse_init_expr (m_globals m) (enable_simd _options) zero_expr type max_global_idx).

Definition parse_table_type : M binary_parser table_type :=
  let* b := look_byte in
  let* has_init_expr :=
    (if b =? 0x40 then
       skip_byte ;;; let* b := look_byte in parse_check (b =? 0x00) "expected 0x00 after 0x40 in table type" ;;; skip_byte ;;; ret true
     else ret false) in
  let* r := parse_reftype in
  modify (fun s => s <| p_table_non_null := p_table_non_null s ++ [r.2] |>) ;;;
  let* raw_flags := parse_flags in
  parse_check (raw_flags <=? 0x01) "invalid table limits flags" ;;;
  let flags := negb (raw_flags =? 0) in
  let* initial := read_u32 in
  let* maximum :=
    (if flags then
       let* maximum := read_u32 in parse_check (initial <=? maximum) "table max size less than min size" ;;; ret maximum
     else ret 0) in
  parse_check (initial <=? max_table_elements _options) "table size exceeds limit" ;;;
  (if has_init_expr then let* m := the_mod in read_init_expr r.1 (vec_size (m_globals m)) ;;; ret tt else ret tt) ;;;
  ret {| element_type := r.1; tt_limits := {| lim_flags := flags; lim_initial := initial; lim_maximum := maximum |} |}.

(** [max_mutable_globals_checker]; [get_size_for_type] *)
Definition get_size_for_type (type : Z) : Z :=
  if (type =? types.i32) || (type =? types.f32) then 4
  else if (type =? types.i64) || (type =? types.f64) || (type =? types.funcref) || (type =? types.externref) || (type =? types.exnref) then 8
  else if type =? types.v128 then 16 else 0.
Definition on_mutable_global (type : Z) : M binary_parser unit :=
  match max_mutable_global_bytes _options with
  | None => ret tt
  | Some limit =>
      let size := get_size_for_type type in
      modify (fun s => s <| p_globals_counter := wrap 64 (p_globals_counter s + size) |>) ;;;
      let* n := gets p_globals_counter in
      parse_check ((n <=? limit) && (size <=? n)) "mutable globals exceeded limit"
  end.

(** [parse_varuint1] *)
Definition read_u1 : M binary_parser bool := let* b := on_ptr (parse_varuint 1) in ret (negb (b =? 0)).
Definition parse_global_variable (idx : Z) : M binary_parser global_variable :=
  let* ct := type_byte param_byte "invalid global content type" in
  let* mutable := read_u1 in
  (if mutable then on_mutable_global ct else ret tt) ;;;
  let* init := read_init_expr ct idx in
  ret {| gv_type := {| content_type := ct; mutability := mutable |}; gv_init := init |}.

(** A page count: [varuint64] of at most 65536 for a 64-bit memory. *)
Definition read_pages (is64 : bool) (msg : string) : M binary_parser Z :=
  if is64 then
    let* n := on_ptr (parse_varuint 64) in parse_check (n <=? 65536) msg ;;; ret (wrap 32 n)
  else read_u32.
Definition parse_memory_type : M binary_parser memory_type :=
  let* raw_flags := read_byte in
  parse_check (raw_flags <=? 0x07) "invalid memory flags" ;;;
  let is64 := negb (Z.land raw_flags 0x04 =? 0) in
  let flags := negb (Z.land raw_flags 0x01 =? 0) in
  let* initial := read_pages is64 "initial memory out of range" in
  parse_check (initial <=? opt_max_pages _options) "initial memory out of range" ;;;
  parse_check (initial <=? 65536) "initial memory out of range" ;;;
  (if negb (Z.land raw_flags 0x02 =? 0) then parse_check flags "shared memory requires maximum" else ret tt) ;;;
  let* maximum :=
    (if flags then
       let* maximum := read_pages is64 "maximum memory out of range" in
       parse_check (initial <=? maximum) "maximum must be at least minimum" ;;;
       parse_check (maximum <=? 65536) "maximum memory out of range" ;;; ret maximum
     else ret 0) in
  ret {| mt_limits := {| lim_flags := flags; lim_initial := initial; lim_maximum := maximum |}; is_memory64 := is64 |}.

(** ** Imports and exports *)
Definition external_kind_of (b : Z) : option external_kind :=
  if b =? 0 then Some Function else if b =? 1 then Some Table else if b =? 2 then Some Memory
  else if b =? 3 then Some Global else if b =? 4 then Some Tag else None.

(** The entry is filled in place: its kind is in the vector before its type is
    read, and the entries behind it still have the kind 0. *)
Definition parse_import_entry (idx : Z) : M binary_parser unit :=
  let* module_str := read_name (max_symbol_bytes _options) in
  let* field_str := read_name (max_symbol_bytes _options) in
  let* kind := read_byte in
  match external_kind_of kind with
  | None => throw wasm_unsupported_import_exception "unsupported import kind"
  | Some k =>
      let e := import_of module_str field_str k in
      v_put imports_v idx e ;;;
      match k with
      | Function =>
          let* type := read_u32 in
          let* m := the_mod in
          parse_check (type <? vec_size (m_types m)) "Invalid function type" ;;;
          v_put imports_v idx {| im_module := module_str; im_field := field_str; im_kind := Function; im_func_t := type;
                                 im_table_t := zero_table; im_mem_t := zero_memory; im_global_t := zero_global |}
      | Table =>
          let* t := parse_table_type in
          v_put imports_v idx {| im_module := module_str; im_field := field_str; im_kind := Table; im_func_t := 0;
                                 im_table_t := t; im_mem_t := zero_memory; im_global_t := zero_global |} ;;;
          on_module (fun m => m <| m_tables := m_tables m ++ [t] |> <| m_num_imported_tables := wrap 32 (m_num_imported_tables m + 1) |>)
      | Memory =>
          let* t := parse_memory_type in
          v_put imports_v idx {| im_module := module_str; im_field := field_str; im_kind := Memory; im_func_t := 0;
                                 im_table_t := zero_table; im_mem_t := t; im_global_t := zero_global |} ;;;
          on_module (fun m => m <| m_memories := m_memories m ++ [t] |> <| m_num_imported_memories := wrap 32 (m_num_imported_memories m + 1) |>)
      | Global =>
          let* ct := type_byte param_byte "invalid global content type" in
          let* mutable := read_u1 in
          let t := {| content_type := ct; mutability := mutable |} in
          v_put imports_v idx {| im_module := module_str; im_field := field_str; im_kind := Global; im_func_t := 0;
                                 im_table_t := zero_table; im_mem_t := zero_memory; im_global_t := t |} ;;;
          on_module (fun m => m <| m_globals := m_globals m ++ [{| gv_type := t; gv_init := zero_expr |}] |>
                                <| m_num_imported_globals := wrap 32 (m_num_imported_globals m + 1) |>)
      | Tag =>
          parse_check (enable_exception_handling _options) "Exception handling not enabled" ;;;
          let* type := read_u32 in
          parse_check (type =? 0) "invalid tag attribute" ;;;
          let* tag_type_index := read_u32 in
          let* m := the_mod in
          parse_check (tag_type_index <? vec_size (m_types m)) "invalid tag type index" ;;;
          on_module (fun m => m <| m_tags := m_tags m ++ [{| tag_attribute := wrap 8 type; Types.tag_type_index := tag_type_index |}] |>)
      end
  end.

Definition parse_export_entry : M binary_parser export_entry :=
  let* field_str := read_name (max_symbol_bytes _options) in
  let* kind := read_byte in
  let* index := read_u32 in
  let* m := the_mod in
  match external_kind_of kind with
  | None => throw wasm_parse_exception "Unknown export kind"
  | Some k =>
      (match k with
       | Function => parse_check (index <? get_functions_total m) "function export out of range"
       | Table => parse_check (index <? vec_size (m_tables m)) "table export out of range"
       | Memory => parse_check (index <? vec_size (m_memories m)) "memory export out of range"
       | Global => parse_check (index <? vec_size (m_globals m)) "global export out of range"
       | Tag => parse_check (index <? vec_size (m_tags m)) "tag export out of range"
       end) ;;;
      ret {| ex_field := field_str; ex_kind := k; ex_index := index |}
  end.

(** [validate_exports]: the names, sorted as [std::vector]s compare, have no two
    equal neighbours. *)
Fixpoint name_le (l r : list Z) : bool :=
  match l, r with
  | [], _ => true
  | _ :: _, [] => false
  | a :: l', b :: r' => (a <? b) || ((a =? b) && name_le l' r')
  end.
Fixpoint insert_name (x : list Z) (l : list (list Z)) : list (list Z) :=
  match l with [] => [x] | y :: l' => if name_le x y then x :: l else y :: insert_name x l' end.
Definition sort_names (l : list (list Z)) : list (list Z) := foldr insert_name [] l.
Fixpoint adjacent_find (l : list (list Z)) : bool :=
  match l with x :: ((y :: _) as l') => bool_decide (x = y) || adjacent_find l' | _ => false end.
Definition validate_exports : M binary_parser unit :=
  let* m := the_mod in
  parse_check (negb (adjacent_find (sort_names (map ex_field (m_exports m))))) "duplicate export name".

(** ** Type aliases *)

(** The index of the first type equal to [ti]; [reps] are the indices in
    [hash_to_idx], which hold different types, so their order does not matter. *)
Definition find_alias (ts : list func_type) (reps : list Z) (ti : func_type) : option Z :=
  List.find (fun j => match vec_lookup ts j with
                      | Some tj => (sig_hash tj =? sig_hash ti) && func_type_eqb tj ti
                      | None => false
                      end) reps.
Fixpoint alias_loop (ts rest : list func_type) (i : Z) (reps : list Z) : list Z :=
  match rest with
  | [] => []
  | ti :: rest' =>
      match find_alias ts reps ti with
      | Some a => a :: alias_loop ts rest' (i + 1) reps
      | None => i :: alias_loop ts rest' (i + 1) (reps ++ [i])
      end
  end.
Fixpoint import_aliases (aliases : list Z) (l : list import_entry) : M binary_parser (list Z) :=
  match l with
  | [] => ret []
  | e :: l' =>
      if bool_decide (im_kind e = Function)
      then let* a := vec_at aliases (im_func_t e) in let* r := import_aliases aliases l' in ret (a :: r)
      else import_aliases aliases l'
  end.
Fixpoint function_aliases (aliases : list Z) (l : list Z) : M binary_parser (list Z) :=
  match l with
  | [] => ret []
  | t :: l' =>
      parse_check (t <? vec_size aliases) "function type index out of range" ;;;
      let* a := vec_index aliases t in let* r := function_aliases aliases l' in ret (a :: r)
  end.
Definition normalize_types : M binary_parser unit :=
  let* m := the_mod in
  let aliases := alias_loop (m_types m) (m_types m) 0 [] in
  modify (fun s => s <| p_type_aliases := aliases |>) ;;;
  let* imported := import_aliases aliases (m_imports m) in
  let* own := function_aliases aliases (m_functions m) in
  modify (fun s => s <| p_fast_functions := imported ++ own |>).

(** ** Segments *)
Definition null_entry : table_entry := {| te_type := UINT32_MAX; te_index := UINT32_MAX; te_code_ptr := 0 |}.
Definition entry_of (index : Z) : M binary_parser table_entry :=
  let* functions := gets p_fast_functions in
  let* t := vec_at functions index in
  ret {| te_type := t; te_index := index; te_code_ptr := 0 |}.
Definition parse_elem_expr (expected_reftype : Z) : M binary_parser table_entry :=
  let* opcode := read_byte in
  let* te :=
    (if opcode =? 0xD0 then
       let* b := look_byte in
       parse_check ((b =? types.funcref) || (b =? types.externref)) "Unknown type for elem" ;;;
       parse_check (b =? expected_reftype) "type mismatch" ;;;
       skip_byte ;;; ret null_entry
     else if opcode =? 0xD2 then
       parse_check (expected_reftype =? types.funcref) "type mismatch" ;;;
       let* index := read_u32 in
       let* m := the_mod in
       parse_check (index <? get_functions_total m) "elem for undefined function" ;;;
       entry_of index
     else if opcode =? 0x23 then
       let* global_idx := read_u32 in
       let* m := the_mod in
       parse_check (global_idx <? vec_size (m_globals m)) "global.get index out of range in elem" ;;;
       let* gv := vec_index (m_globals m) global_idx in
       let index := ev_i32 (ie_value (gv_init gv)) in
       if index <? get_functions_total m then entry_of index
       else ret {| te_type := UINT32_MAX; te_index := index; te_code_ptr := 0 |}
     else throw wasm_parse_exception "elem expression can only accept ref.null, ref.func, and global.get") in
  let* b := read_byte in
  parse_check (b =? 0x0B) "no end op found" ;;; ret te.

Definition parse_elem_index : M binary_parser table_entry :=
  let* index := read_u32 in
  let* m := the_mod in
  parse_check (index <? get_functions_total m) "elem for undefined function" ;;;
  entry_of index.

Definition parse_elem_segment : M binary_parser elem_segment :=
  let* flags := read_u32 in
  parse_check ((flags =? 0) || enable_bulk_memory _options) "Bulk memory not enabled" ;;;
  parse_check (flags <=? 7) "Illegal flags for elem" ;;;
  let* index := (if (flags =? 2) || (flags =? 6) then read_u32 else ret 0) in
  let is_active := Z.land flags 1 =? 0 in
  let* target :=
    (if is_active then
       let* m := the_mod in
       let* offset := read_init_expr types.i32 (vec_size (m_globals m)) in
       parse_check (index <? vec_size (m_tables m)) "wrong table in elem" ;;;
       let* table := vec_index (m_tables m) index in
       ret (offset, Some table)
     else ret (zero_expr, None)) in
  let mode := if is_active then active else if negb (Z.land flags 2 =? 0) then declarative else passive in
  let* r :=
    (if (flags =? 1) || (flags =? 2) || (flags =? 3) then
       let* elemkind := read_byte in
       parse_check (elemkind =? 0x00) "elemkind must be funcref" ;;; ret (types.funcref, true)
     else if (flags =? 5) || (flags =? 6) || (flags =? 7) then parse_reftype
     else ret (types.funcref, flags <? 4)) in
  let* non_null := gets p_table_non_null in
  (match target.2 with
   | Some table =>
       parse_check (r.1 =? element_type table) "type mismatch" ;;;
       parse_check (negb (match vec_lookup non_null index with Some b => b | None => false end && negb r.2)) "type mismatch"
   | None => ret tt
   end) ;;;
  let* size := read_u32 in
  parse_check (size <=? max_element_segment_elements _options) "elem segment too large" ;;;
  let* left := remaining in
  parse_check (size <=? left) "elem count exceeds remaining bytes" ;;;
  let* elems := read_list (Z.to_nat size) (if negb (Z.land flags 4 =? 0) then parse_elem_expr r.1 else parse_elem_index) in
  ret {| es_index := index; es_offset := target.1; es_mode := mode; es_type := r.1; es_elems := elems |}.

(** [len] bytes behind the pointer, which moves past them. *)
Definition take_bytes (len : Z) : M binary_parser (list Z) :=
  on_ptr (scoped_shrink_bounds len
    (let* d := gets (fun g => take (Z.to_nat len) (drop (Z.to_nat (gp_raw g)) (gp_data g))) in advance len ;;; ret d)).
Definition parse_data_segment : M binary_parser data_segment :=
  let* flag := read_u32 in
  let* m := the_mod in
  let* r :=
    (if (flag =? 0) || negb (enable_bulk_memory _options) then
       let* offset := read_init_expr types.i32 (vec_size (m_globals m)) in
       parse_check (negb (vec_size (m_memories m) =? 0)) "data requires memory" ;;; ret (flag, offset, false)
     else if flag =? 1 then ret (flag, {| ie_value := 0; ie_opcode := InitExpr.op_i32_const; ie_raw_expr := [] |}, true)
     else if flag =? 2 then
       let* index := read_u32 in
       let* offset := read_init_expr types.i32 (vec_size (m_globals m)) in
       parse_check (index <? vec_size (m_memories m)) "Data uses nonexistent memory" ;;; ret (index, offset, false)
     else throw wasm_parse_exception "Unexpected flag for data") in
  let* len := read_u32 in
  parse_check (len <=? max_data_segment_bytes _options) "data segment too large." ;;;
  (match ie_raw_expr r.1.2 with
   | [] => parse_check (wrap 64 (ev_i32 (ie_value r.1.2) + len) <=? max_linear_memory_init _options) "out-of-bounds data section"
   | _ => ret tt
   end) ;;;
  let* data := take_bytes len in
  ret {| ds_index := r.1.1; ds_offset := r.1.2; ds_passive := r.2; ds_data := data |}.

(** ** Function bodies *)
Definition parse_local : M binary_parser local_entry :=
  let* count := read_u32 in
  let* type := type_byte result_byte "invalid local type" in
  ret {| le_count := count; le_type := type |}.
Definition parse_function_body (idx : Z) : M binary_parser function_body :=
  let* size := read_u32 in
  parse_check (size <=? max_code_bytes _options) "Function body too large" ;;;
  let* before := gets (fun s => offset (p_code s)) in
  let* local_cnt := read_u32 in
  parse_check (local_cnt <=? max_local_sets _options) "Number of local sets exceeds limit" ;;;
  let* m := the_mod in
  parse_check (idx <? vec_size (m_functions m)) "function index out of range" ;;;
  let* t := vec_index (m_functions m) idx in
  let* ft := vec_at (m_types m) t in
  let* locals := read_list (Z.to_nat local_cnt) parse_local in
  let* after := gets (fun s => offset (p_code s)) in
  let size := wrap 32 (size - (after - before)) in
  let fb := {| fb_wasm_body_bytes := size; fb_locals := locals; fb_code := 0; fb_stack_size := 0; fb_prologue_gas_extra := 0 |} in
  scoped_shrink size
    (modify (fun s => s <| p_function_bodies := p_function_bodies s ++ [
       {| pb_bytes := take (Z.to_nat size) (drop (Z.to_nat (gp_raw (p_code s))) (gp_data (p_code s))); pb_fb := fb |}] |>) ;;;
     on_ptr (advance (wrap 32 (size - 1))) ;;;
     let* b := look_byte in
     parse_check (b =? 0x0B) "failed parsing function body, expected 'end'" ;;;
     skip_byte ;;; ret fb).

(** ** Sections *)
Definition read_count (max_elements : Z) : M binary_parser Z :=
  let* count := read_u32 in
  parse_check (count <=? max_elements) "number of section elements exceeded limit" ;;;
  let* left := remaining in
  parse_check (count <=? left) "element count exceeds remaining section bytes" ;;; ret count.
(** Fill the [count] elements from [base]. *)
Definition fill {E} (v : vector_of E) (base count : Z) (elem_parse : Z -> M binary_parser E) : M binary_parser unit :=
  for_each (Z.to_nat count) base (fun i => let* e := elem_parse i in v_put v i e).
Definition parse_section_impl {E} (v : vector_of E) (max_elements : Z) (elem_parse : Z -> M binary_parser E) : M binary_parser unit :=
  let* count := read_count max_elements in
  v_resize v count ;;; fill v 0 count elem_parse.
(** The vectors that imports have begun. *)
Definition parse_section_behind {E} (v : vector_of E) (max_elements : Z) (elem_parse : Z -> M binary_parser E) : M binary_parser unit :=
  let* count := read_count max_elements in
  let* m := the_mod in
  let base := vec_size (v_get v m) in
  v_resize v (base + count) ;;; fill v base count elem_parse.

Definition parse_type_section : M binary_parser unit :=
  parse_section_impl types_v (max_type_section_elements _options) (fun _ => let* ft := parse_func_type in ret (with_sig_hash ft)).
Definition parse_import_section : M binary_parser unit :=
  let* count := read_count (max_import_section_elements _options) in
  v_resize imports_v count ;;; for_each (Z.to_nat count) 0 parse_import_entry.
Definition parse_function_section : M binary_parser unit :=
  parse_section_impl functions_v (max_function_section_elements _options) (fun _ => read_u32).
Definition parse_table_section : M binary_parser unit :=
  parse_section_behind tables_v (max_section_elements _options) (fun _ => parse_table_type).
Definition parse_memory_section : M binary_parser unit :=
  let* count := read_u32 in
  let limit := max_memory_section_elements _options in
  parse_check (count <=? limit) "number of section elements exceeded limit" ;;;
  let* m := the_mod in
  let base := vec_size (m_memories m) in
  parse_check (base + count <=? limit) "only one memory is permitted" ;;;
  v_resize memories_v (base + count) ;;; fill memories_v base count (fun _ => parse_memory_type).
Definition parse_global_section : M binary_parser unit :=
  parse_section_behind globals_v (max_global_section_elements _options) parse_global_variable.
Definition parse_export_section : M binary_parser unit :=
  parse_section_impl exports_v (max_export_section_elements _options) (fun _ => parse_export_entry).
Definition parse_start_section : M binary_parser unit :=
  let* start := read_u32 in
  on_module (fun m => m <| m_start := start |>) ;;;
  let* m := the_mod in
  let* ft := get_function_type m start in
  parse_check ((return_count ft =? 0) && (vec_size (param_types ft) =? 0)) "wrong type for start".
Definition parse_element_section : M binary_parser unit :=
  parse_section_impl elements_v (max_element_section_elements _options) (fun _ => parse_elem_segment).
Definition parse_data_section : M binary_parser unit :=
  parse_section_impl data_v (max_data_section_elements _options) (fun _ => parse_data_segment) ;;;
  let* datacount := gets p_datacount in
  let* m := the_mod in
  match datacount with
  | Some n => parse_check (n =? vec_size (m_data m)) "data count does not match data"
  | None => ret tt
  end.
Definition parse_data_count_section : M binary_parser unit :=
  let* n := read_u32 in modify (fun s => s <| p_datacount := Some n |>).
Definition parse_tag : M binary_parser tag_type :=
  parse_check (enable_exception_handling _options) "Exception handling not enabled" ;;;
  let* attribute := read_byte in
  parse_check (attribute =? 0) "invalid tag attribute" ;;;
  let* type_index := read_u32 in
  let* m := the_mod in
  parse_check (type_index <? vec_size (m_types m)) "invalid tag type index" ;;;
  ret {| tag_attribute := attribute; tag_type_index := type_index |}.
Definition parse_tag_section : M binary_parser unit :=
  parse_section_impl tags_v (max_section_elements _options) (fun _ => parse_tag).

(** The hints of the functions that the module has. *)
Definition apply_branch_hints : M binary_parser unit :=
  modify (fun s =>
    let num_imports := vec_size (m_import_functions (p_mod s)) in
    let own := filter (fun p : Z * list branch_hint => num_imports <= p.1 /\ p.1 - num_imports < vec_size (m_code (p_mod s)))
                      (map_to_list (p_branch_hints_temp s)) in
    s <| p_branch_hints := list_to_map (map (fun p : Z * list branch_hint => (p.1 - num_imports, p.2)) own) |>
      <| p_branch_hints_temp := ∅ |>).
Definition write_code : M binary_parser unit := fun s =>
  match write_code_out junk capacity (p_mod s) (p_type_aliases s) (p_datacount s) _options (avail (p_code s)) (p_function_bodies s) with
  | Ok (m, maximum_stack) _ => Ok tt (s <| p_mod := m |> <| p_maximum_stack := maximum_stack |>)
  | Throw e _ => Throw e s
  | UB => UB
  end.
Definition parse_code_section : M binary_parser unit :=
  parse_section_impl code_v (max_function_section_elements _options) parse_function_body ;;;
  let* m := the_mod in
  parse_check (vec_size (m_code m) =? vec_size (m_functions m)) "code section must have the same size as the function section" ;;;
  apply_branch_hints ;;; write_code.

(** ** Custom sections *)
Definition parse_name_assoc : M binary_parser name_assoc :=
  let* idx := read_u32 in let* name := read_name UINT32_MAX in ret {| na_idx := idx; na_name := name |}.
Definition parse_name_map (size : Z) : M binary_parser (list name_assoc) := read_list (Z.to_nat size) parse_name_assoc.
Definition set_names (f : name_section -> name_section) : M binary_parser unit :=
  modify (fun s => s <| p_names := option_map f (p_names s) |>).
Definition name_count (msg : string) : M binary_parser Z :=
  let* size := read_u32 in
  let* left := remaining in
  parse_check (size <=? left) msg ;;; ret size.
Definition parse_indirect_names : M binary_parser indirect_name_assoc :=
  let* idx := read_u32 in
  let* local_size := name_count "local name count exceeds section" in
  let* namemap := parse_name_map local_size in
  ret {| ina_idx := idx; ina_namemap := namemap |}.
(** A subsection, if it is the next one; false at the end of the section. *)
Definition subsection (id : Z) (body : M binary_parser unit) : M binary_parser bool :=
  let* left := remaining in
  if left =? 0 then ret false else
  let* b := look_byte in
  (if b =? id then skip_byte ;;; let* n := read_u32 in scoped_consume n body else ret tt) ;;; ret true.
Definition parse_name_section : M binary_parser unit :=
  modify (fun s => s <| p_names := Some {| module_name := None; function_names := None; local_names := None |} |>) ;;;
  let* more := subsection 0 (let* name := read_name UINT32_MAX in set_names (fun n => n <| module_name := Some name |>)) in
  if negb more then ret tt else
  let* more := subsection 1 (let* size := name_count "name count exceeds section" in
                             let* names := parse_name_map size in set_names (fun n => n <| function_names := Some names |>)) in
  if negb more then ret tt else
  let* more := subsection 2 (let* size := name_count "local name count exceeds section" in
                             let* names := read_list (Z.to_nat size) parse_indirect_names in set_names (fun n => n <| local_names := Some names |>)) in
  if negb more then ret tt else
  let* left := remaining in
  parse_check (left =? 0) "Invalid subsection Id".

Definition parse_hint : M binary_parser branch_hint :=
  let* offset := read_u32 in let* value := read_byte in ret {| bh_offset := offset; bh_value := value |}.
Definition parse_func_hints : M binary_parser unit :=
  let* func_idx := read_u32 in
  let* num_hints := name_count "branch hint count exceeds section" in
  let* hints := read_list (Z.to_nat num_hints) parse_hint in
  modify (fun s => s <| p_branch_hints_temp := <[func_idx := default [] (p_branch_hints_temp s !! func_idx) ++ hints]> (p_branch_hints_temp s) |>).
Definition parse_branch_hints_section : M binary_parser unit :=
  let* num_funcs := name_count "branch hint func count exceeds section" in
  for_each (Z.to_nat num_funcs) 0 (fun _ => parse_func_hints).

(** "name" and "metadata.code.branch_hint" *)
Definition str_name : list Z := [0x6E; 0x61; 0x6D; 0x65].
Definition str_branch_hint : list Z :=
  [0x6D; 0x65; 0x74; 0x61; 0x64; 0x61; 0x74; 0x61; 0x2E; 0x63; 0x6F; 0x64; 0x65; 0x2E; 0x62; 0x72; 0x61; 0x6E; 0x63; 0x68; 0x5F; 0x68; 0x69; 0x6E; 0x74].
Definition parse_custom : M binary_parser unit :=
  let* section_name := read_name UINT32_MAX in
  if parse_custom_section_name _options && bool_decide (section_name = str_name) then parse_name_section
  else if bool_decide (section_name = str_branch_hint) then parse_branch_hints_section
  else let* left := remaining in on_ptr (advance left).

(** ** Modules *)
Definition section_ids : list Z := [1; 2; 3; 4; 5; 13; 6; 7; 8; 9; 12; 10; 11].
(** [make_section_order]: the position of a section, from 1; 0 for custom ones. *)
Definition section_order : list Z :=
  foldr (fun p order => vec_update order p.2 (p.1 + 1)) (repeat 0 14) (zip (map Z.of_nat (seq 0 13)) section_ids).

Definition parse_section (id : Z) : M binary_parser unit :=
  if id =? 0 then parse_custom
  else if id =? 1 then parse_type_section
  else if id =? 2 then parse_import_section
  else if id =? 3 then parse_function_section ;;; normalize_types
  else if id =? 4 then parse_table_section
  else if id =? 5 then parse_memory_section
  else if id =? 6 then parse_global_section
  else if id =? 7 then parse_export_section ;;; validate_exports
  else if id =? 8 then parse_start_section
  else if id =? 9 then
    let* functions := gets p_fast_functions in
    let* m := the_mod in
    (if (vec_size functions =? 0) && (0 <? get_imported_functions_size m) then normalize_types else ret tt) ;;;
    parse_element_section
  else if id =? 10 then parse_code_section
  else if id =? 11 then parse_data_section
  else if id =? 12 then parse_data_count_section
  else if id =? 13 then parse_tag_section
  else throw wasm_parse_exception "error invalid section id".

(** One round of the loop: the new [highest_section_id]. *)
Definition parse_next_section (highest : Z) : M binary_parser Z :=
  let* id := read_byte in
  let* len := read_u32 in
  parse_check (id <? vec_size section_order) "invalid section id" ;;;
  let* o := vec_index section_order id in
  parse_check ((id =? 0) || (highest <? o)) "section out of order" ;;;
  scoped_consume len (parse_section id) ;;; ret (Z.max highest o).
(** A round consumes at least the section's id. *)
Fixpoint parse_sections (fuel : nat) (sz highest : Z) : M binary_parser unit :=
  match fuel with
  | O => undefined
  | S n =>
      let* s := get in
      if offset (p_code s) =? sz then ret tt
      else let* h := parse_next_section highest in parse_sections n sz h
  end.

Definition module_magic : Z := 0x6D736100.
Definition module_version : Z := 1.
Definition parse_module (sz : Z) : M binary_parser unit :=
  let* magic := on_ptr (Parser.parse_raw 4) in
  parse_check (magic =? module_magic) "magic number did not match" ;;;
  let* version := on_ptr (Parser.parse_raw 4) in
  parse_check (version =? module_version) "version number did not match" ;;;
  parse_sections (S (Z.to_nat sz)) sz 0 ;;;
  let* s := get in
  parse_check (vec_size (m_code (p_mod s)) =? vec_size (m_functions (p_mod s))) "code section must have the same size as the function section" ;;;
  (match p_datacount s with
   | Some n => parse_check (n =? vec_size (m_data (p_mod s))) "data count and data section have inconsistent lengths"
   | None => ret tt
   end) ;;;
  on_module (fun m => m <| m_stack_limit_is_bytes := false |>).

(** [parse_module(code, mod, debug)] on a new module. *)
Definition empty_module : module := {|
  m_start := UINT32_MAX; m_types := []; m_imports := []; m_functions := []; m_tables := []; m_memories := []; m_globals := []; m_exports := [];
  m_elements := []; m_code := []; m_data := []; m_tags := []; m_import_functions := []; m_num_imported_tables := 0; m_num_imported_memories := 0;
  m_num_imported_globals := 0; m_stack_limit_is_bytes := false; m_error := None; bytecode := [] |}.
Definition start_parser (bytes : list Z) : binary_parser := {|
  p_code := GuardedPtr.make bytes (vec_size bytes); p_mod := empty_module; p_function_bodies := []; p_globals_counter := 0; p_datacount := None;
  p_type_aliases := []; p_fast_functions := []; p_table_non_null := []; p_branch_hints_temp := ∅; p_branch_hints := ∅; p_names := None; p_maximum_stack := 0 |}.
Definition parse_wasm (bytes : list Z) : outcome binary_parser unit := parse_module (vec_size bytes) (start_parser bytes).
End Parser.

(** ** The names of exports are distinct *)
Lemma name_le_total x : forall y, name_le x y = true \/ name_le y x = true.
Proof.
  induction x as [|a x IH]; intros [|b y]; cbn; auto. rewrite !orb_true_iff, !andb_true_iff, !Z.ltb_lt, !Z.eqb_eq.
  destruct (IH y), (Z.lt_trichotomy a b) as [?|[?|?]]; auto.
Qed.
Lemma name_le_trans x : forall y z, name_le x y = true -> name_le y z = true -> name_le x z = true.
Proof.
  induction x as [|a x IH]; intros [|b y] [|c z]; cbn; try discriminate; auto. rewrite !orb_true_iff, !andb_true_iff, !Z.ltb_lt, !Z.eqb_eq.
  intros [?|[-> ?]] [?|[-> ?]]; eauto; left; lia.
Qed.
Lemma name_le_antisym x : forall y, name_le x y = true -> name_le y x = true -> x = y.
Proof.
  induction x as [|a x IH]; intros [|b y]; cbn; try discriminate; auto. rewrite !orb_true_iff, !andb_true_iff, !Z.ltb_lt, !Z.eqb_eq.
  intros [?|[-> ?]] [?|[? ?]]; try lia. f_equal. auto.
Qed.
Lemma insert_name_perm x l : insert_name x l ≡ₚ x :: l.
Proof. induction l as [|y l IH]; cbn; [done|]. destruct (name_le x y); [done|]. rewrite IH. constructor. Qed.
Lemma sort_names_perm l : sort_names l ≡ₚ l.
Proof. induction l as [|x l IH]; cbn; [done|]. now rewrite insert_name_perm, IH. Qed.
Abbreviation names_sorted := (Sorted (fun x y => name_le x y = true)).
Lemma insert_name_sorted x l : names_sorted l -> names_sorted (insert_name x l).
Proof.
  induction 1 as [|y l Hl IH Hy]; cbn; [repeat constructor|]. destruct (name_le x y) eqn:E; [repeat constructor; auto|].
  constructor; [exact IH|]. destruct (name_le_total x y) as [?|Hyx]; [congruence|]. destruct l as [|z l]; cbn; [now constructor|].
  destruct (name_le x z); [now constructor|]. inversion Hy; now constructor.
Qed.
Lemma adjacent_find_sorted l : names_sorted l -> adjacent_find l = negb (bool_decide (NoDup l)).
Proof.
  intros Hs. apply Sorted_StronglySorted in Hs; [|intros x y z; apply name_le_trans].
  induction Hs as [|x l Hs IH Hx]; [reflexivity|]. destruct l as [|y l]; [reflexivity|]. cbn [adjacent_find] in *.
  assert (Hin : bool_decide (x = y) = bool_decide (x ∈ y :: l)).
  { apply bool_decide_ext. split; [intros ->; constructor|]. intros [->|Hi]%elem_of_cons; [reflexivity|].
    inversion Hx as [|? ? Hxy _]; subst. inversion Hs as [|? ? _ Hy]; subst. rewrite List.Forall_forall in Hy.
    apply name_le_antisym; [exact Hxy|]. apply Hy. now apply list_elem_of_In. }
  rewrite IH, Hin. rewrite (bool_decide_ext (NoDup (x :: y :: l)) ((x ∉ y :: l) /\ NoDup (y :: l)) (NoDup_cons _ _)).
  destruct (bool_decide_reflect (x ∈ y :: l)), (bool_decide_reflect (NoDup (y :: l))); cbn; symmetry; try (apply negb_true_iff, bool_decide_eq_false; tauto).
  apply negb_false_iff, bool_decide_eq_true. tauto.
Qed.

(** C40. The duplicate check of the export section is exact.  [validate_exports],
    which sorts pointers to the names and looks for equal neighbours, succeeds and
    changes nothing if the names of the exports are pairwise different, and throws
    if any two of them, adjacent in the module or not, are equal. *)
Theorem validate_exports_exact s :
  validate_exports s = if bool_decide (NoDup (map ex_field (m_exports (p_mod s)))) then Ok tt s
                       else Throw (Exn wasm_parse_exception "duplicate export name") s.
Proof.
  set (names := map ex_field (m_exports (p_mod s))).
  assert (E : bool_decide (NoDup (sort_names names)) = bool_decide (NoDup names)) by (apply bool_decide_ext; now rewrite sort_names_perm).
  unfold validate_exports, the_mod, bind, gets. fold names. rewrite adjacent_find_sorted, negb_involutive, E.
  - unfold parse_check, psizam_assert. now destruct (bool_decide (NoDup names)).
  - clear E. unfold sort_names. induction names; cbn; [constructor|]. now apply insert_name_sorted.
Qed.
