(* ===== verification/TrackerSpec.v ===== *)
(** * What the operand type tracker tracks

    The tracker's vector of types and tags is a stack of segments, one for each
    open scope above the function's, with a scope tag between two of them.  A
    segment is live, a list of value types, or dead: it starts with the
    unreachable tag and may hold operands of any type.  Every operation of
    [operand_stack_type_tracker] is described on segments: on a live one an
    operation that is accepted does exactly what it says, and a dead one stays
    dead. *)
From Stdlib Require Import ZArith Lia Bool String.
From stdpp Require Import base list numbers decidable option.
From S2P Require Import Prelude Leb128 Types InitExpr ConstExpr ParseInit Writer Validator ParseVec ParseBody.
Import Tracker.

Definition is_valtype (t : Z) : bool := is_value_byte t || (t =? types.v128) || is_ref_byte t.
Definition valtype (t : Z) : Prop := is_valtype t = true.

(** ** Segments *)
Fixpoint join (segs : list (list Z)) : list Z :=
  match segs with
  | [] => []
  | s :: rest => match rest with [] => s | _ => s ++ scope_tag :: join rest end
  end.
Definition live_seg (s : list Z) : Prop := Forall valtype s.
Definition dead_seg (s : list Z) : Prop :=
  exists xs, s = xs ++ [unreachable_tag] /\ Forall (fun t => valtype t \/ t = any_type) xs.
Definition seg_ok (s : list Z) : Prop := live_seg s \/ dead_seg s.
Definition live (segs : list (list Z)) : bool := forallb (forallb is_valtype) segs.

(** Operands, without the tags. *)
Definition operands (st : list Z) : list Z :=
  List.filter (fun t => negb (t =? scope_tag) && negb (t =? unreachable_tag)) st.
Definition entries (segs : list (list Z)) : Z := vec_size (operands (concat segs)).

Lemma valtype_cases t : valtype t -> t <> scope_tag /\ t <> unreachable_tag /\ t <> any_type /\ t <> types.pseudo /\ in_u 8 t.
Proof.
  unfold valtype, is_valtype, is_value_byte, is_ref_byte. rewrite !orb_true_iff, !Z.eqb_eq.
  intros [[[[[H|H]|H]|H]|H]|[[H|H]|H]]; subst; unfold in_u; cbv; repeat split; congruence.
Qed.
Lemma live_segs segs : live segs = true <-> Forall live_seg segs.
Proof.
  assert (H : forall s, forallb is_valtype s = true <-> live_seg s).
  { intros s. unfold live_seg. induction s as [|t s IH]; cbn [forallb]; [easy|].
    unfold valtype in *. rewrite andb_true_iff, List.Forall_cons_iff. tauto. }
  unfold live. induction segs as [|s segs IH]; cbn [forallb]; [easy|].
  rewrite andb_true_iff, List.Forall_cons_iff, H. tauto.
Qed.
Lemma live_cons s rest : live (s :: rest) = true <-> live_seg s /\ live rest = true.
Proof. rewrite !live_segs, List.Forall_cons_iff. tauto. Qed.
Lemma live_not_dead s : live_seg s -> ~ dead_seg s.
Proof.
  intros Hl (xs & -> & _). apply Forall_app in Hl as [_ Hl]. inversion Hl as [|? ? Hv]. subst.
  now destruct (valtype_cases _ Hv) as (_ & Hne & _).
Qed.
Lemma dead_not_live s rest : dead_seg s -> live (s :: rest) = false.
Proof.
  intros Hd. destruct (live (s :: rest)) eqn:E; [|reflexivity]. apply live_cons in E as [E _].
  destruct (live_not_dead s E Hd).
Qed.
Lemma live_tail s rest : live rest = false -> live (s :: rest) = false.
Proof. unfold live. cbn. intros ->. apply andb_false_r. Qed.

Lemma operands_app a b : operands (a ++ b) = operands a ++ operands b.
Proof. apply List.filter_app. Qed.
Lemma operands_live s : live_seg s -> operands s = s.
Proof.
  induction 1 as [|t s Hv _ IH]; [reflexivity|]. cbn. destruct (valtype_cases t Hv) as (H1 & H2 & _).
  apply Z.eqb_neq in H1, H2. rewrite H1, H2. cbn. now f_equal.
Qed.
Lemma entries_live segs : live segs = true -> entries segs = vec_size (concat segs).
Proof.
  intros H. unfold entries. f_equal. apply operands_live. apply live_segs in H. unfold live_seg.
  induction H; cbn; [constructor|]. apply Forall_app. auto.
Qed.
Lemma entries_cons s rest : entries (s :: rest) = vec_size (operands s) + entries rest.
Proof. unfold entries, vec_size. cbn. rewrite operands_app, length_app. lia. Qed.
Lemma entries_nonneg segs : 0 <= entries segs.
Proof. unfold entries, vec_size. lia. Qed.

Lemma join_cons s rest : rest <> [] -> join (s :: rest) = s ++ scope_tag :: join rest.
Proof. destruct rest; [easy|reflexivity]. Qed.
Lemma join_push t s rest : join ((t :: s) :: rest) = t :: join (s :: rest).
Proof. destruct rest; reflexivity. Qed.

(** Taking the types [A], top first, from a segment. *)
Definition takes (A s s' : list Z) : Prop := live_seg s /\ s = A ++ s' \/ dead_seg s /\ dead_seg s'.
Lemma takes_nil s : seg_ok s -> takes [] s s.
Proof. intros [H|H]; [left|right]; auto. Qed.
Lemma takes_app A B s s1 s2 : takes A s s1 -> takes B s1 s2 -> takes (A ++ B) s s2.
Proof.
  intros [[H1 E1]|[H1 D1]] [[H2 E2]|[H2 D2]].
  - left. split; [exact H1|]. now rewrite E1, E2, app_assoc.
  - left. destruct (live_not_dead s1); [|exact H2]. subst s. now apply Forall_app in H1 as [_ H1].
  - destruct (live_not_dead s1 H2 D1).
  - right. auto.
Qed.
Lemma takes_ok A s s' : takes A s s' -> seg_ok s'.
Proof.
  intros [[H ->]|[_ H]]; [left|right]; auto. now apply Forall_app in H as [_ H].
Qed.
Lemma takes_live A s s' rest : takes A s s' -> live (s :: rest) = true -> s = A ++ s' /\ live (s' :: rest) = true.
Proof.
  intros [[H E]|[H D]] Hl; [|now rewrite (dead_not_live s rest H) in Hl].
  split; [exact E|]. apply live_cons in Hl as [Hl Hr]. apply live_cons. split; [|exact Hr].
  subst s. now apply Forall_app in Hl as [_ Hl].
Qed.
Lemma takes_dead A s s' rest : takes A s s' -> live (s :: rest) = false -> live (s' :: rest) = false.
Proof.
  intros [[H ->]|[H D]] Hl; [|now apply dead_not_live]. destruct (live (s' :: rest)) eqn:E; [|reflexivity].
  apply live_cons in E as [_ E]. rewrite <- Hl. symmetry. apply live_cons. auto.
Qed.

(** ** The tracker *)
Record tracks (t : tracker) (segs : list (list Z)) : Prop := {
  tr_state : state t = join segs;
  tr_segs : Forall seg_ok segs;
  tr_depth : operand_depth t = entries segs;
  tr_small : entries segs < 2 ^ 32;
  tr_max : operand_depth t <= maximum_operand_depth t }.

Definition grows (t t' : tracker) : Prop := maximum_operand_depth t <= maximum_operand_depth t'.

Lemma parse_check_Ok {S} b msg (s s' : S) u : parse_check b msg s = Ok u s' -> b = true /\ s' = s.
Proof. unfold parse_check, psizam_assert, ret, throw. destruct b; intros [= ? ?]; auto. Qed.

Lemma make_tracks : tracks Tracker.make [[]; []].
Proof. split; cbn; try reflexivity; try lia. repeat constructor. Qed.

Lemma operands_cons t s : operands (t :: s) = if negb (t =? scope_tag) && negb (t =? unreachable_tag) then t :: operands s else operands s.
Proof. reflexivity. Qed.
Lemma operands_cons_val t s : valtype t \/ t = any_type -> operands (t :: s) = t :: operands s.
Proof.
  rewrite operands_cons. intros [H| ->]; [|reflexivity]. destruct (valtype_cases t H) as (H1 & H2 & _).
  apply Z.eqb_neq in H1, H2. now rewrite H1, H2.
Qed.
Lemma entries_push t s rest : valtype t \/ t = any_type -> entries ((t :: s) :: rest) = 1 + entries (s :: rest).
Proof.
  intros H. rewrite !entries_cons, (operands_cons_val t s H). unfold vec_size. cbn [length]. lia.
Qed.

(** A segment with one more operand. *)
Definition pushable (t : Z) (s : list Z) : Prop := valtype t \/ t = any_type /\ dead_seg s.
Lemma seg_push t s : pushable t s -> seg_ok s -> seg_ok (t :: s).
Proof.
  intros Ht [Hl|(xs & -> & Hx)].
  - destruct Ht as [Hv|[_ Hd]]; [left; now constructor|destruct (live_not_dead s Hl Hd)].
  - right. exists (t :: xs). split; [reflexivity|]. constructor; [|exact Hx]. destruct Ht as [Hv|[-> _]]; auto.
Qed.
Lemma push_tracks x t t' u s rest : tracks t (s :: rest) -> pushable x s -> push x t = Ok u t' ->
  tracks t' ((x :: s) :: rest) /\ grows t t'.
Proof.
  intros [E1 E2 E3 E4 E5] Hx. unfold push, bind, get. unfold parse_check, psizam_assert.
  destruct (Z.ltb_spec (operand_depth t) UINT32_MAX) as [Hlt|]; [|discriminate]. intros [= _ <-].
  assert (Hp : valtype x \/ x = any_type) by (destruct Hx as [H|[H _]]; auto).
  assert (Hd : wrap 32 (operand_depth t + get_depth_for_type x) = 1 + entries (s :: rest)).
  { unfold get_depth_for_type. rewrite E3, Z.add_comm. apply wrap_small. pose proof (entries_nonneg (s :: rest)).
    unfold in_u. rewrite E3 in Hlt. change UINT32_MAX with (2 ^ 32 - 1) in Hlt. lia. }
  split; [split; cbn -[join entries]|unfold grows; cbn; lia].
  - now rewrite E1, join_push.
  - inversion E2. subst. constructor; [|assumption]. now apply seg_push.
  - rewrite entries_push by assumption. exact Hd.
  - rewrite entries_push by assumption. rewrite E3 in Hlt. change UINT32_MAX with (2 ^ 32 - 1) in Hlt. lia.
  - lia.
Qed.

(** The state of a tracker seen from its top segment. *)
Lemma tracks_top t s rest : tracks t (s :: rest) ->
  state t = s ++ match rest with [] => [] | _ => scope_tag :: join rest end.
Proof. intros [E1 _ _ _ _]. rewrite E1. destruct rest; [now rewrite app_nil_r|reflexivity]. Qed.

(** Dropping the top operand. *)
Lemma drop_top x s rest t : tracks t ((x :: s) :: rest) -> x <> unreachable_tag -> x <> scope_tag ->
  tracks (t <| operand_depth := wrap 32 (operand_depth t - get_depth_for_type x) |> <| state := join (s :: rest) |>) (s :: rest).
Proof.
  intros [E1 E2 E3 E4 E5] Hu Hs. inversion E2 as [|? ? Hx Hr]. subst.
  assert (Hv : valtype x \/ x = any_type /\ dead_seg s).
  { destruct Hx as [Hx|(xs & E & Hx)]; [inversion Hx; auto|]. destruct xs as [|y xs]; cbn in E; [congruence|].
    injection E as -> ->. inversion Hx as [|? ? [?|Hy] Hx']. subst; auto. right. split; [exact Hy|]. exists xs. auto. }
  assert (Ho : seg_ok s).
  { destruct Hx as [Hx|(xs & E & Hx)]; [left; now inversion Hx|]. destruct xs as [|y xs]; cbn in E; [congruence|].
    injection E as -> ->. right. exists xs. split; [reflexivity|]. now inversion Hx. }
  assert (En : entries ((x :: s) :: rest) = 1 + entries (s :: rest)) by (apply entries_push; destruct Hv as [?|[? _]]; auto).
  pose proof (entries_nonneg (s :: rest)).
  assert (Ed : wrap 32 (operand_depth t - get_depth_for_type x) = entries (s :: rest)).
  { unfold get_depth_for_type. rewrite E3, En. rewrite wrap_small; unfold in_u; lia. }
  split; cbn -[join entries]; rewrite ?Ed; auto; try lia.
Qed.
Lemma unreachable_top s rest t : tracks t (s :: rest) -> forall x st, state t = x :: st -> x <> scope_tag ->
  (x = unreachable_tag -> s = [unreachable_tag]) /\
  (x <> unreachable_tag -> rest <> [] \/ s <> [] -> exists s', s = x :: s' /\ st = join (s' :: rest)).
Proof.
  intros [E1 E2 _ _ _] x st Hst Hx. rewrite Hst in E1. inversion E2 as [|? ? Ho _]. subst. split.
  - intros ->. destruct s as [|y s].
    + destruct rest; cbn in E1; congruence.
    + rewrite join_push in E1. injection E1 as <- ->. destruct Ho as [Hl|(xs & E & Hxs)].
      * inversion Hl as [|? ? Hv]. subst. destruct (valtype_cases _ Hv) as (_ & Hn & _). congruence.
      * destruct xs as [|y xs]; cbn in E; [congruence|]. injection E as <- _. inversion Hxs as [|? ? [Hv|?]]; subst; [|discriminate].
        destruct (valtype_cases _ Hv) as (_ & Hn & _). congruence.
  - intros Hu Hne. destruct s as [|y s].
    + destruct rest; cbn in E1; [destruct Hne; congruence|congruence].
    + rewrite join_push in E1. injection E1 as <- ->. eauto.
Qed.

(** Values the operations may pop. *)
Lemma pop_tracks e t t' u s rest : tracks t (s :: rest) -> valtype e -> pop e t = Ok u t' ->
  exists s', tracks t' (s' :: rest) /\ takes [e] s s' /\ grows t t'.
Proof.
  intros Ht He. destruct (valtype_cases e He) as (He1 & He2 & He3 & He4 & _). unfold pop.
  rewrite (proj2 (Z.eqb_neq _ _) He4). unfold bind, get.
  destruct (state t) as [|x st] eqn:Est; [discriminate|].
  destruct (Z.eqb_spec x unreachable_tag) as [->|Hu].
  - intros [= _ <-]. pose proof (unreachable_top s rest t Ht _ _ Est ltac:(discriminate)) as [Hd _].
    specialize (Hd eq_refl). subst s. exists [unreachable_tag]. split; [exact Ht|]. split; [|unfold grows; lia].
    right. split; exists []; auto.
  - unfold parse_check, psizam_assert. destruct ((x =? e) || (x =? any_type)) eqn:Ec; [|discriminate].
    apply orb_true_iff in Ec. rewrite !Z.eqb_eq in Ec. intros [= _ <-].
    assert (Hs : x <> scope_tag) by (destruct Ec; subst; auto; discriminate).
    assert (Hne : s <> []).
    { intros ->. rewrite (tracks_top _ _ _ Ht) in Est. destruct rest; cbn in Est; congruence. }
    destruct (proj2 (unreachable_top s rest t Ht _ _ Est Hs) Hu (or_intror Hne)) as (s' & -> & ->).
    exists s'. split; [now apply drop_top|]. split; [|unfold grows; cbn; lia].
    pose proof (tr_segs _ _ Ht) as Hsg. inversion Hsg as [|? ? [Hl|Hd] _]; subst.
    + left. split; [exact Hl|]. inversion Hl as [|? ? Hv]. subst. destruct Ec as [->| ->]; [reflexivity|].
      now destruct (valtype_cases _ Hv) as (_ & _ & Hn & _).
    + right. split; [exact Hd|]. destruct Hd as (xs & E & Hx). destruct xs as [|y xs]; cbn in E; [congruence|].
      injection E as <- ->. exists xs. inversion Hx. auto.
Qed.

Lemma pops_tracks A : forall t t' u s rest, tracks t (s :: rest) -> Forall valtype A -> pops A t = Ok u t' ->
  exists s', tracks t' (s' :: rest) /\ takes A s s' /\ grows t t'.
Proof.
  induction A as [|e A IH]; intros t t' u s rest Ht HA; cbn [pops].
  - intros [= _ <-]. exists s. split; [exact Ht|]. split; [|unfold grows; lia]. apply takes_nil. pose proof (tr_segs _ _ Ht) as Hsg. now inversion Hsg.
  - inversion HA as [|? ? He HA']. subst. intros Hp. apply bind_ok in Hp as (? & t1 & H1 & H2).
    destruct (pop_tracks e t t1 _ s rest Ht He H1) as (s1 & Ht1 & Hs1 & Hg1).
    destruct (IH t1 t' _ s1 rest Ht1 HA' H2) as (s2 & Ht2 & Hs2 & Hg2).
    exists s2. split; [exact Ht2|]. split; [|unfold grows in *; lia]. exact (takes_app [e] A s s1 s2 Hs1 Hs2).
Qed.
Lemma pop_rev_tracks A t t' u s rest : tracks t (s :: rest) -> Forall valtype A -> pop_rev A t = Ok u t' ->
  exists s', tracks t' (s' :: rest) /\ takes (rev A) s s' /\ grows t t'.
Proof.
  intros Ht HA. apply pops_tracks; [exact Ht|]. apply List.Forall_forall. intros x Hx. apply List.in_rev in Hx.
  now apply (proj1 (List.Forall_forall _ _) HA).
Qed.
Lemma pushes_tracks A : forall t t' u s rest, tracks t (s :: rest) -> Forall valtype A -> pushes A t = Ok u t' ->
  tracks t' ((rev A ++ s) :: rest) /\ grows t t'.
Proof.
  induction A as [|e A IH]; intros t t' u s rest Ht HA; cbn [pushes].
  - intros [= _ <-]. split; [exact Ht|unfold grows; lia].
  - inversion HA as [|? ? He HA']. subst. intros Hp. apply bind_ok in Hp as (? & t1 & H1 & H2).
    destruct (push_tracks e t t1 _ s rest Ht (or_introl He) H1) as [Ht1 Hg1].
    destruct (IH t1 t' _ _ rest Ht1 HA' H2) as [Ht2 Hg2]. cbn [rev]. rewrite <- app_assoc.
    split; [exact Ht2|unfold grows in *; lia].
Qed.

Lemma pop_any_tracks t t' x s rest : tracks t (s :: rest) -> pop_any t = Ok x t' ->
  exists s', tracks t' (s' :: rest) /\ grows t t' /\ takes [x] s s' /\ (valtype x \/ x = any_type /\ dead_seg s).
Proof.
  intros Ht. unfold pop_any, bind, get. destruct (state t) as [|y st] eqn:Est; [discriminate|].
  unfold parse_check, psizam_assert. destruct (Z.eqb_spec y scope_tag) as [->|Hs]; [discriminate|]. cbn [negb].
  destruct (Z.eqb_spec y unreachable_tag) as [->|Hu].
  - intros [= <- <-]. pose proof (unreachable_top s rest t Ht _ _ Est Hs) as [Hd _]. specialize (Hd eq_refl). subst s.
    assert (Hd : dead_seg [unreachable_tag]) by (exists []; auto).
    exists [unreachable_tag]. split; [exact Ht|]. split; [unfold grows; lia|]. split; [right; auto|auto].
  - intros [= <- <-].
    assert (Hne : s <> []).
    { intros ->. rewrite (tracks_top _ _ _ Ht) in Est. destruct rest; cbn in Est; congruence. }
    destruct (proj2 (unreachable_top s rest t Ht _ _ Est Hs) Hu (or_intror Hne)) as (s' & -> & ->).
    exists s'. split; [now apply drop_top|]. split; [unfold grows; cbn; lia|].
    pose proof (tr_segs _ _ Ht) as Hsg. inversion Hsg as [|? ? [Hl|Hd] _]; subst.
    + split; [left; auto|]. left. now inversion Hl.
    + pose proof Hd as (xs & E & Hx). destruct xs as [|z xs]; cbn in E; [congruence|]. injection E as <- ->.
      inversion Hx as [|? ? Hz Hx']. subst. split; [right; split; [exact Hd|exists xs; auto]|]. destruct Hz; auto.
Qed.

(** Leaving the rest of a scope. *)
Lemma clear_scope_seg s r d : Forall (fun t => t <> scope_tag) s ->
  clear_scope (s ++ r) d = clear_scope r (fold_left (fun d t => if negb (t =? unreachable_tag) then wrap 32 (d - get_depth_for_type t) else d) s d).
Proof.
  revert d. induction s as [|t s IH]; intros d Hs; [reflexivity|]. inversion Hs as [|? ? Ht Hs']. subst.
  cbn [app clear_scope fold_left]. apply Z.eqb_neq in Ht. rewrite Ht. now apply IH.
Qed.
Lemma clear_scope_depth s : forall d n, Forall (fun t => t <> scope_tag) s -> 0 <= n -> d = vec_size (operands s) + n -> d < 2 ^ 32 ->
  fold_left (fun d t => if negb (t =? unreachable_tag) then wrap 32 (d - get_depth_for_type t) else d) s d = n.
Proof.
  induction s as [|t s IH]; intros d n Hs Hn Hd Hlt; [unfold vec_size in Hd; cbn in Hd |- *; lia|]. inversion Hs as [|? ? Ht Hs']. subst.
  cbn [fold_left]. rewrite operands_cons in *. apply Z.eqb_neq in Ht. rewrite Ht in *. cbn [negb andb] in *.
  destruct (t =? unreachable_tag); cbn [negb] in *; [now apply IH|].
  assert (Hz : vec_size (t :: operands s) = 1 + vec_size (operands s)) by (unfold vec_size; cbn [length]; lia).
  rewrite Hz in *. unfold get_depth_for_type. assert (0 <= vec_size (operands s)) by (unfold vec_size; lia).
  apply IH; auto; rewrite wrap_small; unfold in_u; lia.
Qed.
Lemma seg_no_scope s : seg_ok s -> Forall (fun t => t <> scope_tag) s.
Proof.
  assert (Hv : forall t, valtype t -> t <> scope_tag) by (intros t H; apply (valtype_cases t H)).
  intros [H|(xs & -> & H)].
  - eapply List.Forall_impl; [|exact H]. exact Hv.
  - apply Forall_app. split; [|constructor; [discriminate|constructor]]. eapply List.Forall_impl; [|exact H].
    intros t [Ht| ->]; [now apply Hv|discriminate].
Qed.
Lemma start_unreachable_tracks t t' u s rest : tracks t (s :: rest) -> rest <> [] -> start_unreachable t = Ok u t' ->
  tracks t' ([unreachable_tag] :: rest) /\ grows t t'.
Proof.
  intros Ht Hr. unfold start_unreachable, modify. rewrite (tracks_top _ _ _ Ht).
  destruct rest as [|s1 rest]; [easy|]. pose proof Ht as [E1 E2 E3 E4 E5]. inversion E2 as [|? ? Ho Hos]. subst.
  rewrite clear_scope_seg by now apply seg_no_scope. rewrite (clear_scope_depth s (operand_depth t) (entries (s1 :: rest))).
  2: now apply seg_no_scope.
  2: apply entries_nonneg.
  2: now rewrite E3, entries_cons.
  2: now rewrite E3.
  cbn [clear_scope]. change (scope_tag =? scope_tag) with true. cbv iota. intros [= _ <-].
  assert (Hle : entries (s1 :: rest) <= entries (s :: s1 :: rest)).
  { rewrite (entries_cons s). unfold vec_size. lia. }
  assert (He : entries ([unreachable_tag] :: s1 :: rest) = entries (s1 :: rest)) by (rewrite entries_cons; reflexivity).
  split; [|unfold grows; cbn; lia]. split; rewrite ?He; cbn -[join entries]; try lia.
  - reflexivity.
  - constructor; [|exact Hos]. right. exists []. auto.
Qed.

Lemma push_scope_tracks t t' u segs : tracks t segs -> segs <> [] -> push_scope t = Ok u t' ->
  tracks t' ([] :: segs) /\ grows t t'.
Proof.
  intros [E1 E2 E3 E4 E5] Hne. unfold push_scope, modify. intros [= _ <-].
  split; [|unfold grows; cbn; lia]. split; cbn -[join entries]; rewrite ?entries_cons; cbn -[join entries]; auto; try lia.
  - rewrite E1, join_cons by assumption. reflexivity.
  - constructor; [left; constructor|exact E2].
Qed.

(** [end]: exactly the results are left of the scope. *)
Lemma pop_scope_multi_tracks rs t t' u s s1 rest : tracks t (s :: s1 :: rest) -> Forall valtype rs ->
  pop_scope_multi rs t = Ok u t' ->
  tracks t' ((rev rs ++ s1) :: rest) /\ grows t t' /\ (s = rev rs \/ dead_seg s).
Proof.
  intros Ht Hrs Hp. unfold pop_scope_multi in Hp. apply bind_ok in Hp as (? & t1 & H1 & Hp).
  destruct (pop_rev_tracks rs t t1 _ s _ Ht Hrs H1) as (s0 & Ht1 & Hs0 & Hg1).
  unfold bind at 1, get at 1 in Hp. apply bind_ok in Hp as (? & t1' & Hc & Hp).
  apply parse_check_Ok in Hc as [_ ->]. apply bind_ok in Hp as (? & t2 & Hu & Hp).
  assert (Ht2 : tracks t2 ([] :: s1 :: rest) /\ grows t1 t2 /\ (s0 = [] \/ s0 = [unreachable_tag] )).
  { unfold bind at 1, get in Hp. destruct (state t2) as [|y st2] eqn:Est2; [discriminate|].
    apply bind_ok in Hp as (? & t2' & Hc & _). apply parse_check_Ok in Hc as [Hy _]. apply Z.eqb_eq in Hy. subst y.
    destruct (state t1) as [|y st1] eqn:Est1; [rewrite (tracks_top _ _ _ Ht1) in Est1; now destruct s0|].
    destruct (Z.eqb_spec y unreachable_tag) as [->|Hy].
    - injection Hu as _ <-. cbn in Est2. subst st1.
      pose proof (proj1 (unreachable_top _ _ _ Ht1 _ _ Est1 ltac:(discriminate)) eq_refl) as ->.
      split; [|split; [unfold grows; cbn; lia|auto]]. pose proof Ht1 as [E1 E2 E3 E4 E5].
      assert (He : entries ([unreachable_tag] :: s1 :: rest) = entries ([] :: s1 :: rest)) by (rewrite !entries_cons; reflexivity).
      rewrite He in *. split; cbn -[join entries]; auto.
      + rewrite E1 in Est1. cbn in Est1. injection Est1 as <-. reflexivity.
      + constructor; [left; constructor|now inversion E2].
    - injection Hu as _ <-. rewrite Est1 in Est2. injection Est2 as -> ->.
      destruct s0 as [|z s0]; [split; [exact Ht1|split; [unfold grows; lia|auto]]|].
      exfalso. rewrite (tracks_top _ _ _ Ht1) in Est1. injection Est1 as -> _.
      pose proof (seg_no_scope _ (takes_ok _ _ _ Hs0)) as Hn. now inversion Hn. }
  destruct Ht2 as (Ht2 & Hg2 & Hs00). unfold bind at 1, get in Hp. pose proof (tracks_top _ _ _ Ht2) as Est2. cbn [app] in Est2.
  rewrite Est2 in Hp. apply bind_ok in Hp as (? & t2' & Hc & Hp). apply parse_check_Ok in Hc as [_ ->].
  apply bind_ok in Hp as (? & t3 & H3 & Hp). injection H3 as _ <-.
  assert (Ht3 : tracks (t2 <| state := join (s1 :: rest) |>) (s1 :: rest)).
  { destruct Ht2 as [E1 E2 E3 E4 E5]. rewrite entries_cons in E3, E4. cbn -[entries] in E3, E4.
    split; cbn -[join entries]; auto; try lia. now inversion E2. }
  destruct (pushes_tracks rs _ _ _ _ _ Ht3 Hrs Hp) as [Ht4 Hg4]. split; [exact Ht4|]. split; [unfold grows in *; cbn in *; lia|].
  destruct Hs0 as [[Hl E]|[Hd _]]; [|auto]. left. destruct Hs00 as [->| ->]; [now rewrite E, app_nil_r|].
  exfalso. subst s. apply Forall_app in Hl as [_ Hl]. inversion Hl as [|? ? Hv]. subst.
  now destruct (valtype_cases _ Hv) as (_ & Hn & _).
Qed.
