(* ===== verification/Emission.v ===== *)
(** * Typed emission

    What an instruction asks of the code around it: a type for the next
    instruction and one for each of its branch targets.  The invariant of the
    code under construction says that every typed instruction finds what it asks
    for, at a resolved target or in the label that holds the branch. *)
From Stdlib Require Import ZArith Lia Bool String.
From stdpp Require Import base list numbers decidable option.
From S2P Require Import Prelude Leb128 Types InitExpr ConstExpr ParseInit Stack Memory Numeric Softfloat Context Operands Interp Demo Invariants.
From S2P Require Import TypedOps TypedVec Typing Control Verifier Termination Writer Validator ParseVec ParseBody TrackerSpec.
Import Opcode BitcodeWriter.

(** ** Demands of an instruction *)
Definition branch_point (pt : point) (st : list Z) (info : Z) : option point :=
  let depth := Z.land info 0x00FFFFFF in
  let count := Z.shiftr info 24 in
  if (0 <=? count) && (count <=? depth) && (depth <=? vec_size st)
  then Some (with_stack pt (take (Z.to_nat count) st ++ drop (Z.to_nat depth) st)) else None.

Definition call_point (pt : point) (ft : func_type) (st : list Z) : option point :=
  match strip (stack_params ft) st with
  | Some rest => Some (with_stack pt (stack_results ft ++ rest))
  | None => None
  end.

Fixpoint table_points (pt : point) (st : list Z) (table : list br_table_elem) : option (list point) :=
  match table with
  | [] => Some []
  | e :: es =>
      match branch_point pt st (bt_stack_pop e), table_points pt st es with
      | Some p, Some ps => if bt_eh_leave_count e =? 0 then Some (p :: ps) else None
      | _, _ => None
      end
  end.

(** The type of the next instruction, if control goes there, and of the branch
    targets. *)
Definition next_only (p : option point) : option (option point * list point) := option_map (fun p => (Some p, [])) p.
Definition needs (m : module) (pt : point) (op : opcode) : option (option point * list point) :=
  match op with
  | unreachable_ => Some (None, [])
  | gas_charge_ _ => Some (Some pt, [])
  | else_ _ => Some (None, [pt])
  | if_ _ =>
      match pt_stack pt with
      | t :: st => if t =? types.i32 then Some (Some (with_stack pt st), [with_stack pt st]) else None
      | [] => None
      end
  | br_ info _ => option_map (fun p => (None, [p])) (branch_point pt (pt_stack pt) info)
  | br_if_ info _ leaves =>
      match pt_stack pt with
      | t :: st => if (t =? types.i32) && (leaves =? 0)
                   then option_map (fun p => (Some (with_stack pt st), [p])) (branch_point pt st info) else None
      | [] => None
      end
  | br_table_ sz table =>
      match pt_stack pt with
      | t :: st => if (t =? types.i32) && (0 <=? sz) && (vec_size table =? sz + 1)
                   then option_map (fun ps => (None, ps)) (table_points pt st table) else None
      | [] => None
      end
  | return_ slots count _ =>
      match strip (rev (pt_results pt)) (pt_stack pt) with
      | Some rest => if (slots =? vec_size (pt_locals pt) + vec_size rest) && (wrap 16 count =? vec_size (pt_results pt))
                     then Some (None, []) else None
      | None => None
      end
  | call_ i => match fn_type m i with Some ft => next_only (call_point pt ft (pt_stack pt)) | None => None end
  | call_indirect_ i =>
      match vec_lookup (m_types m) (Z.land i 0xFFFF), pt_stack pt with
      | Some ft, t :: st =>
          if (t =? types.i32) && (0 <=? Z.shiftr i 16) && (Z.shiftr i 16 <? vec_size (m_tables m))
          then next_only (call_point pt ft st) else None
      | _, _ => None
      end
  | _ => next_only (option_map (with_stack pt) (step_type m (pt_locals pt) op (pt_stack pt)))
  end.

Definition targets (op : opcode) : list Z :=
  match op with
  | else_ pc | if_ pc | br_ _ pc | br_if_ _ pc _ => [pc]
  | br_table_ _ table => map bt_pc table
  | _ => []
  end.

Section Check.
Context (m : module) (G : typing).

Lemma branch_point_check pt st info pc p : branch_point pt st info = Some p ->
  flows G (code_base m + pc) p = true -> check_branch m G pt st info pc = true.
Proof.
  unfold branch_point, check_branch. cbv zeta. set (b := (_ && _ && _)%bool). destruct b; [|discriminate].
  intros E Hf. apply (inj Some) in E. rewrite <- E in Hf. exact Hf.
Qed.
Lemma call_point_check pt ft st o p : call_point pt ft st = Some p -> flows G (o + 1) p = true ->
  check_call G pt o ft st = true.
Proof. unfold call_point, check_call. destruct (strip _ _); [|discriminate]. intros [= <-] Hf. exact Hf. Qed.
Lemma table_points_check pt st table : forall ps, table_points pt st table = Some ps ->
  Forall2 (fun pc p => flows G (code_base m + pc) p = true) (map bt_pc table) ps ->
  forallb (fun e => (bt_eh_leave_count e =? 0) && check_branch m G pt st (bt_stack_pop e) (bt_pc e)) table = true.
Proof.
  induction table as [|e es IH]; intros ps; cbn [table_points forallb map]; [reflexivity|].
  destruct (branch_point pt st _) as [p|] eqn:Ep; [|discriminate].
  destruct (table_points pt st es) as [ps'|]; [|discriminate]. destruct (bt_eh_leave_count e =? 0); [|discriminate].
  intros [= <-] H2. inversion H2 as [|? ? ? ? Hp Hps]. subst. cbn [andb].
  rewrite (branch_point_check _ _ _ _ _ Ep Hp). now apply (IH ps').
Qed.

(** An instruction that finds what it asks for is accepted by the verifier. *)
Lemma needs_check o pt op nx bs : needs m pt op = Some (nx, bs) ->
  (forall p, nx = Some p -> flows G (o + 1) p = true) ->
  Forall2 (fun pc p => flows G (code_base m + pc) p = true) (targets op) bs ->
  check_op m G o pt op = true.
Proof.
  intros Hn Hnx Hbs.
  assert (Hstep : next_only (option_map (with_stack pt) (step_type m (pt_locals pt) op (pt_stack pt))) = Some (nx, bs) ->
    match step_type m (pt_locals pt) op (pt_stack pt) with Some st => flows G (o + 1) (with_stack pt st) | None => false end = true).
  { destruct (step_type m (pt_locals pt) op (pt_stack pt)); [|discriminate]. intros [= <- _]. now apply Hnx. }
  destruct op; cbn [needs targets check_op] in *; try (exact (Hstep Hn)); clear Hstep.
  - reflexivity.
  - destruct (strip _ _); [|discriminate]. destruct (_ && _); [reflexivity|discriminate].
  - injection Hn as <- <-. now apply Hnx.
  - destruct (pt_stack pt) as [|t st]; [discriminate|]. destruct (t =? types.i32); [|discriminate]. injection Hn as <- <-.
    cbn [andb]. rewrite (Hnx _ eq_refl). now inversion Hbs.
  - injection Hn as <- <-. now inversion Hbs.
  - destruct (branch_point pt _ _) as [p|] eqn:Ep; [|discriminate]. injection Hn as <- <-.
    inversion Hbs. now apply (branch_point_check _ _ _ _ p).
  - destruct (pt_stack pt) as [|t st]; [discriminate|]. destruct ((t =? types.i32) && (stacksz =? 0)); [|discriminate].
    destruct (branch_point pt _ _) as [p|] eqn:Ep; [|discriminate]. injection Hn as <- <-. rewrite (Hnx _ eq_refl). cbn [andb].
    inversion Hbs. now apply (branch_point_check _ _ _ _ p).
  - destruct (pt_stack pt) as [|t st]; [discriminate|]. destruct (_ && _ && _); [|discriminate].
    destruct (table_points pt st table) as [ps|] eqn:Ep; [|discriminate]. injection Hn as <- <-. now apply (table_points_check pt st table ps).
  - destruct (fn_type m index) as [ft|]; [|discriminate]. destruct (call_point pt ft _) as [p|] eqn:Ep; [|discriminate].
    injection Hn as <- <-. now apply (call_point_check _ _ _ _ p), Hnx.
  - destruct (vec_lookup (m_types m) _) as [ft|]; [|discriminate]. destruct (pt_stack pt) as [|t st]; [discriminate|].
    destruct (_ && _ && _); [|discriminate]. destruct (call_point pt ft _) as [p|] eqn:Ep; [|discriminate].
    injection Hn as <- <-. now apply (call_point_check _ _ _ _ p), Hnx.
Qed.

(** Its successors are among the places it names. *)
Lemma needs_succs o pt op nx bs o' : needs m pt op = Some (nx, bs) -> o' ∈ succs m o op ->
  (o' = o + 1 /\ exists p, nx = Some p) \/ exists pc, pc ∈ targets op /\ o' = code_base m + pc.
Proof.
  intros Hn Ho.
  assert (Hnext : o' ∈ [o + 1] -> next_only (option_map (with_stack pt) (step_type m (pt_locals pt) op (pt_stack pt))) = Some (nx, bs) ->
    o' = o + 1 /\ exists p, nx = Some p).
  { rewrite list_elem_of_singleton. intros ->. destruct (step_type _ _ _ _); [|discriminate]. intros [= <- _]. eauto. }
  destruct op; cbn [needs targets succs] in *; try (left; exact (Hnext Ho Hn)); clear Hnext;
    apply list_elem_of_In in Ho; cbn [In] in Ho;
    repeat match goal with
      | H : _ \/ _ |- _ => destruct H
      | H : False |- _ => destruct H
      end; subst;
    try (right; eexists; split; [apply list_elem_of_here|reflexivity]);
    try (left; split; [reflexivity|]).
  - injection Hn as <- _. eauto.
  - destruct (pt_stack pt); [discriminate|]. destruct (_ =? _); [|discriminate]. injection Hn as <- _. eauto.
  - destruct (pt_stack pt); [discriminate|]. destruct (_ && _); [|discriminate].
    destruct (branch_point _ _ _); [|discriminate]. injection Hn as <- _. eauto.
  - right. apply in_map_iff in Ho as (e & <- & He). exists (bt_pc e). split; [|reflexivity].
    now apply list_elem_of_In, (in_map bt_pc).
  - destruct (fn_type m index); [|discriminate]. destruct (call_point _ _ _); [|discriminate]. injection Hn as <- _. eauto.
  - destruct (vec_lookup _ _); [|discriminate]. destruct (pt_stack pt); [discriminate|]. destruct (_ && _ && _); [|discriminate].
    destruct (call_point _ _ _); [|discriminate]. injection Hn as <- _. eauto.
Qed.

End Check.

(** ** The code under construction *)
Section Inv.
Context (m : module) (L Rs : list Z) (B : Z).

Definition point_of (segs : list (list Z)) : point :=
  {| pt_locals := L; pt_results := Rs; pt_stack := map rep_type (concat segs) |}.
(** The type of the instruction to come; none in dead code. *)
Definition cur (segs : list (list Z)) : option point := if live segs then Some (point_of segs) else None.

Definition types_of (single : Z) (multi : list Z) : list Z :=
  match multi with [] => if single =? types.pseudo then [] else [single] | l => l end.
Definition label_types (e : pc_element_t) : list Z := types_of (label_result e) (label_results e).
Definition end_types (e : pc_element_t) : list Z := types_of (expected_result e) (expected_results e).
Definition label_point (e : pc_element_t) (below : list (list Z)) : point := point_of (rev (label_types e) :: below).
Definition else_point (e : pc_element_t) (below : list (list Z)) : point := point_of (rev (block_params e) :: below).

Definition loop_head (fb : list opcode) (n t : Z) : Prop :=
  0 <= t < n /\ exists c, vec_lookup fb t = Some (gas_charge_ c) /\ 0 < c.
(** A branch target of an instruction already emitted. *)
Definition slot_in (fb : list opcode) (n : Z) (b : branch_t) : Prop :=
  0 <= at_op b < n /\ exists op, vec_lookup fb (at_op b) = Some op /\ 0 <= at_target b < vec_size (targets op).

(** A branch that the label [e] holds carries the label's types; the first one
    of an [if] is its branch to the [else] part. *)
Definition held (e : pc_element_t) (below : list (list Z)) (b : branch_t) (p : point) : Prop :=
  match relocations e with
  | label_at _ => True
  | branches l =>
      if is_if e then
        match l with
        | [] => True
        | h :: l' => (h = b -> live below = true /\ p = else_point e below) /\
                     (b ∈ l' -> live below = true /\ p = label_point e below)
        end
      else b ∈ l -> live below = true /\ p = label_point e below
  end.
Definition holds_branch (e : pc_element_t) (b : branch_t) : Prop :=
  match relocations e with label_at _ => False | branches l => b ∈ l end.
Definition free (pcs : list pc_element_t) (b : branch_t) : Prop := Forall (fun e => ~ holds_branch e b) pcs.

Record slot_ok (n : Z) (pcs : list pc_element_t) (segs : list (list Z)) (G : typing) (fb : list opcode)
    (b : branch_t) (p : point) (pc : Z) : Prop := {
  so_held : forall k e, pcs !! k = Some e -> held e (drop (S k) segs) b p;
  so_fixed : free pcs b ->
    exists t, pc = B + t /\ type_at G t = Some p /\ (at_op b < t \/ loop_head fb n t) }.

Definition op_typed (n : Z) (pcs : list pc_element_t) (segs : list (list Z)) (G : typing) (fb : list opcode)
    (o : Z) (pt : point) (op : opcode) : Prop :=
  exists nx bs, needs m pt op = Some (nx, bs) /\ length (targets op) = length bs /\
    (forall p, nx = Some p -> type_at G (o + 1) = Some p) /\
    (forall j p pc, bs !! j = Some p -> targets op !! j = Some pc -> slot_ok n pcs segs G fb (BranchAt o (Z.of_nat j)) p pc) /\
    (forall c, op = gas_charge_ c -> 0 < c).

(** The control stack over the segments. *)
Record elem_ok (n : Z) (e : pc_element_t) (below : list (list Z)) (G : typing) (fb : list opcode) : Prop := {
  eo_depth : pc_operand_depth e = entries below;
  eo_label : Forall valtype (label_types e);
  eo_end : Forall valtype (end_types e);
  eo_params : Forall valtype (block_params e);
  eo_try : is_try_table e = false;
  eo_rel : match relocations e with
    | label_at t => is_loop e = true /\ is_if e = false /\ gas_handle e = Some (loop_gas t) /\
        label_types e = block_params e /\ loop_head fb n t /\
        (live below = true -> type_at G t = Some (label_point e below))
    | branches l => is_loop e = false /\ label_types e = end_types e /\ (is_if e = true -> l <> []) /\
        Forall (slot_in fb n) l
    end }.
Fixpoint ctl (n : Z) (pcs : list pc_element_t) (segs : list (list Z)) (G : typing) (fb : list opcode) : Prop :=
  match pcs, segs with
  | [], [_] => True
  | e :: pcs', _ :: below => elem_ok n e below G fb /\ ctl n pcs' below G fb
  | _, _ => False
  end.

(** [n] instructions have been emitted; [G] types them and, last, the one to
    come.  The instruction [x] is exempt while it is under construction. *)
Record comp (x n : Z) (pcs : list pc_element_t) (segs : list (list Z)) (G : typing) (fb : list opcode) : Prop := {
  cp_size : vec_size G = n + 1;
  cp_room : 0 <= n <= vec_size fb;
  cp_cur : vec_lookup G n = Some (cur segs);
  cp_entry : type_at G 0 = Some (point_of []);
  cp_ops : forall o pt, 0 <= o < n -> o <> x -> type_at G o = Some pt ->
    exists op, vec_lookup fb o = Some op /\ op_typed n pcs segs G fb o pt op;
  cp_ctl : ctl n pcs segs G fb;
  cp_pts : forall o pt, type_at G o = Some pt -> pt_locals pt = L /\ pt_results pt = Rs }.

(** *** Extending the typing *)
Definition extends (G G' : typing) : Prop := forall t p, type_at G t = Some p -> type_at G' t = Some p.

Lemma type_at_lookup G t p : vec_lookup G t = Some (Some p) <-> type_at G t = Some p.
Proof. unfold type_at. destruct (vec_lookup G t) as [[q|]|]; cbn; split; congruence. Qed.
Lemma type_at_range G t p : type_at G t = Some p -> 0 <= t < vec_size G.
Proof. rewrite <- type_at_lookup. apply vec_lookup_lt. Qed.
Lemma extends_snoc G c : extends G (G ++ [c]).
Proof.
  intros t p. rewrite <- !type_at_lookup, !vec_lookup_Some. intros [H0 H]. split; [exact H0|]. now apply lookup_app_l_Some.
Qed.
Lemma vec_lookup_snoc {A} (l : list A) a n : vec_size l = n -> vec_lookup (l ++ [a]) n = Some a.
Proof.
  intros <-. apply vec_lookup_Some. unfold vec_size. split; [lia|]. rewrite Nat2Z.id.
  rewrite lookup_app_r by lia. now rewrite Nat.sub_diag.
Qed.
Lemma type_at_snoc_inv G c t p : type_at (G ++ [c]) t = Some p -> type_at G t = Some p \/ t = vec_size G /\ c = Some p.
Proof.
  rewrite <- !type_at_lookup, !vec_lookup_Some. intros [H0 H]. apply lookup_app_Some in H as [H|[Hge H]]; [auto|].
  right. apply list_lookup_singleton_Some in H as [H ->]. split; [unfold vec_size; lia|reflexivity].
Qed.
Lemma extends_update G n c c' : vec_lookup G n = Some c -> (forall p, c = Some p -> c' = Some p) -> extends G (vec_update G n c').
Proof.
  intros Hn Hc t p. rewrite <- !type_at_lookup. intros Ht. rewrite vec_lookup_update by (eapply vec_lookup_lt; eauto).
  destruct (decide (t = n)) as [->|]; [|exact Ht]. f_equal. apply Hc. congruence.
Qed.

Lemma cur_pts segs pt : cur segs = Some pt -> pt_locals pt = L /\ pt_results pt = Rs /\ pt_stack pt = map rep_type (concat segs).
Proof. unfold cur. destruct (live segs); intros [= <-]. auto. Qed.

(** *** Monotonicity *)
Lemma slot_mono n n' pcs pcs' segs segs' G G' fb fb' b p pc :
  slot_ok n pcs segs G fb b p pc -> extends G G' -> (forall t, loop_head fb n t -> loop_head fb' n' t) ->
  (forall k e, pcs' !! k = Some e -> held e (drop (S k) segs') b p) -> (free pcs' b -> free pcs b) ->
  slot_ok n' pcs' segs' G' fb' b p pc.
Proof.
  intros [Hh Hf] HG Hl Hh' Hfr. split; [exact Hh'|]. intros Hfree. destruct (Hf (Hfr Hfree)) as (t & -> & Ht & Ho).
  exists t. split; [reflexivity|]. split; [now apply HG|]. destruct Ho; auto.
Qed.
Lemma op_typed_mono n n' pcs pcs' segs segs' G G' fb fb' o pt op :
  op_typed n pcs segs G fb o pt op -> extends G G' -> (forall t, loop_head fb n t -> loop_head fb' n' t) ->
  (forall j p, (forall k e, pcs !! k = Some e -> held e (drop (S k) segs) (BranchAt o j) p) ->
    forall k e, pcs' !! k = Some e -> held e (drop (S k) segs') (BranchAt o j) p) ->
  (forall j, free pcs' (BranchAt o j) -> free pcs (BranchAt o j)) ->
  op_typed n' pcs' segs' G' fb' o pt op.
Proof.
  intros (nx & bs & Hn & Hlen & Hnx & Hs & Hc) HG Hl Hh Hf. exists nx, bs.
  split; [exact Hn|]. split; [exact Hlen|]. split; [auto|]. split; [|exact Hc].
  intros j p pc Hj Hpc. specialize (Hs j p pc Hj Hpc). eapply slot_mono; [exact Hs|exact HG|exact Hl| |apply Hf].
  apply Hh, (so_held _ _ _ _ _ _ _ _ Hs).
Qed.
Lemma elem_mono n n' e below G G' fb fb' : elem_ok n e below G fb -> extends G G' ->
  (forall t, loop_head fb n t -> loop_head fb' n' t) -> (forall b, slot_in fb n b -> slot_in fb' n' b) ->
  elem_ok n' e below G' fb'.
Proof.
  intros [H1 H2 H3 H4 H5 H6] HG Hl Hs. split; auto. destruct (relocations e).
  - destruct H6 as (A1 & A2 & A3 & A4 & A5 & A6). exact (conj A1 (conj A2 (conj A3 (conj A4 (conj (Hl _ A5) (fun h => HG _ _ (A6 h))))))).
  - destruct H6 as (? & ? & ? & Hf). repeat split; auto. eapply List.Forall_impl; [|exact Hf]. exact Hs.
Qed.
Lemma ctl_mono n n' G G' fb fb' : extends G G' -> (forall t, loop_head fb n t -> loop_head fb' n' t) ->
  (forall b, slot_in fb n b -> slot_in fb' n' b) -> forall pcs segs, ctl n pcs segs G fb -> ctl n' pcs segs G' fb'.
Proof.
  intros HG Hl Hs. induction pcs as [|e pcs IH]; intros [|s below]; cbn [ctl]; auto.
  intros [He Hc]. split; [now apply (elem_mono n n' e below G G' fb fb')|auto].
Qed.
(** The control stack does not depend on the operands of the top scope. *)
Lemma ctl_top n pcs s s' rest G fb : ctl n pcs (s :: rest) G fb -> ctl n pcs (s' :: rest) G fb.
Proof. destruct pcs, rest; cbn; auto. Qed.

(** *** Emitting an instruction *)
Lemma head_append fb n op t : 0 <= n < vec_size fb -> loop_head fb n t -> loop_head (vec_update fb n op) (n + 1) t.
Proof.
  intros Hn [Ht (c & Hc & Hp)]. split; [lia|]. exists c. split; [|exact Hp].
  rewrite vec_lookup_update by assumption. destruct (decide (t = n)); [lia|exact Hc].
Qed.
Lemma slot_append fb n op b : 0 <= n < vec_size fb -> slot_in fb n b -> slot_in (vec_update fb n op) (n + 1) b.
Proof.
  intros Hn [Hb (op' & Hop & Ht)]. split; [lia|]. exists op'. split; [|exact Ht].
  rewrite vec_lookup_update by assumption. destruct (decide (at_op b = n)); [lia|exact Hop].
Qed.

Lemma comp_append n pcs s s' rest G fb op : comp (-1) n pcs (s :: rest) G fb -> n < vec_size fb ->
  comp n (n + 1) pcs (s' :: rest) (G ++ [cur (s' :: rest)]) (vec_update fb n op).
Proof.
  intros [H1 H2 H3 H4 H5 H6 H7] Hn. assert (Hr : 0 <= n < vec_size fb) by lia. split.
  - unfold vec_size in *. rewrite length_app. cbn. lia.
  - rewrite vec_update_size. lia.
  - now apply vec_lookup_snoc.
  - now apply extends_snoc.
  - intros o pt Ho Hx Ht. apply type_at_snoc_inv in Ht as [Ht|[E _]]; [|lia].
    destruct (H5 o pt ltac:(lia) ltac:(lia) Ht) as (op' & Hop & Hty). exists op'. split.
    + rewrite vec_lookup_update by assumption. destruct (decide (o = n)); [lia|exact Hop].
    + eapply op_typed_mono; [exact Hty|apply extends_snoc| | |auto].
      * intros t. now apply head_append.
      * intros j p Hh k e Hk. exact (Hh k e Hk).
  - eapply ctl_mono; [apply extends_snoc| | |].
    + intros t. now apply head_append.
    + intros b. now apply slot_append.
    + now apply (ctl_top n pcs s).
  - intros o pt Ht. apply type_at_snoc_inv in Ht as [Ht|[_ E]]; [eauto|].
    destruct (cur_pts _ _ E) as (? & ? & _). auto.
Qed.
Lemma comp_close x n pcs segs G fb : comp x n pcs segs G fb ->
  (forall pt, type_at G x = Some pt -> exists op, vec_lookup fb x = Some op /\ op_typed n pcs segs G fb x pt op) ->
  comp (-1) n pcs segs G fb.
Proof.
  intros [H1 H2 H3 H4 H5 H6 H7] Hx. split; auto. intros o pt Ho _ Ht. destruct (decide (o = x)) as [->|]; auto.
Qed.

(** *** A change of the top operands without an instruction *)
Lemma comp_retype x n pcs s s' rest G fb : comp x n pcs (s :: rest) G fb ->
  (forall p, cur (s :: rest) = Some p -> cur (s' :: rest) = Some p) ->
  comp x n pcs (s' :: rest) (vec_update G n (cur (s' :: rest))) fb.
Proof.
  intros [H1 H2 H3 H4 H5 H6 H7] Hc. pose proof (extends_update G n _ _ H3 Hc) as HG. split; auto.
  - now rewrite vec_update_size.
  - rewrite vec_lookup_update by lia. now destruct (decide (n = n)).
  - intros o pt Ho Hx Ht. rewrite <- type_at_lookup, vec_lookup_update in Ht by lia.
    destruct (decide (o = n)); [lia|]. rewrite type_at_lookup in Ht. destruct (H5 o pt Ho Hx Ht) as (op & Hop & Hty).
    exists op. split; [exact Hop|]. eapply op_typed_mono; [exact Hty|exact HG|auto|auto|auto].
  - apply (ctl_top n pcs s). now apply (ctl_mono n n G _ fb fb HG).
  - intros o pt Ht. rewrite <- type_at_lookup, vec_lookup_update in Ht by lia. destruct (decide (o = n)).
    + injection Ht as E. destruct (cur_pts _ _ E) as (? & ? & _). auto.
    + rewrite type_at_lookup in Ht. eauto.
Qed.

(** *** Scopes *)
Lemma held_free e below b p : ~ holds_branch e b -> held e below b p.
Proof.
  unfold held, holds_branch. destruct (relocations e) as [|l]; [auto|]. intros Hb. destruct (is_if e).
  - destruct l as [|h l]; [auto|]. split; [intros ->; destruct Hb; apply list_elem_of_here|].
    intros H. destruct Hb. now apply list_elem_of_further.
  - intros H. contradiction.
Qed.
Lemma ctl_lookup n pcs : forall segs G fb k e, ctl n pcs segs G fb -> pcs !! k = Some e -> elem_ok n e (drop (S k) segs) G fb.
Proof.
  induction pcs as [|e0 pcs IH]; intros [|s below] G fb k e Hc Hk; try discriminate; cbn [ctl] in Hc; [contradiction|].
  destruct Hc as [He Hc]. destruct k as [|k]; [injection Hk as ->; exact He|]. exact (IH below G fb k e Hc Hk).
Qed.
Lemma ctl_update n pcs : forall segs G fb k e e', ctl n pcs segs G fb -> pcs !! k = Some e ->
  (elem_ok n e (drop (S k) segs) G fb -> elem_ok n e' (drop (S k) segs) G fb) -> ctl n (<[k := e']> pcs) segs G fb.
Proof.
  induction pcs as [|e0 pcs IH]; intros [|s below] G fb k e e' Hc Hk He'; try discriminate; cbn [ctl] in Hc; [contradiction|].
  destruct Hc as [He Hc]. destruct k as [|k]; cbn.
  - injection Hk as ->. split; auto.
  - split; [exact He|]. eapply IH; eauto.
Qed.
(** No label holds a branch of an instruction that is not there yet. *)
Lemma ctl_fresh n pcs : forall segs G fb b, ctl n pcs segs G fb -> n <= at_op b -> free pcs b.
Proof.
  induction pcs as [|e pcs IH]; intros [|s below] G fb b Hc Hb; cbn [ctl] in Hc; try contradiction; [constructor..|].
  destruct Hc as [He Hc]. constructor; [|exact (IH below G fb b Hc Hb)]. intros Hh. unfold holds_branch in Hh.
  pose proof (eo_rel _ _ _ _ _ He) as Hr. destruct (relocations e) as [|l]; [contradiction|].
  destruct Hr as (_ & _ & _ & Hs). rewrite List.Forall_forall in Hs. apply list_elem_of_In in Hh. destruct (Hs b Hh). lia.
Qed.
Lemma ctl_length n pcs : forall segs G fb, ctl n pcs segs G fb -> length segs = S (length pcs).
Proof.
  induction pcs as [|e pcs IH]; intros [|s below] G fb Hc; cbn [ctl] in Hc; try contradiction.
  - destruct below; [reflexivity|contradiction].
  - cbn. f_equal. exact (IH below G fb (proj2 Hc)).
Qed.

Lemma comp_open x n pcs s s1 sp rest G fb e : comp x n pcs (s :: rest) G fb ->
  cur (sp :: s1 :: rest) = cur (s :: rest) -> elem_ok n e (s1 :: rest) G fb ->
  (forall b, holds_branch e b -> at_op b = x) -> comp x n (e :: pcs) (sp :: s1 :: rest) G fb.
Proof.
  intros [H1 H2 H3 H4 H5 H6 H7] Hcur He Hb. split; auto.
  - now rewrite Hcur.
  - intros o pt Ho Hx Ht. destruct (H5 o pt Ho Hx Ht) as (op & Hop & Hty). exists op. split; [exact Hop|].
    eapply op_typed_mono; [exact Hty|intros ? ? Hext; exact Hext|auto| |].
    + intros j p Hh [|k] e' Hk; [|exact (Hh k e' Hk)]. injection Hk as <-. apply held_free. intros Hf. now apply Hb in Hf.
    + intros j Hf. now inversion Hf.
  - cbn [ctl]. split; [exact He|]. now apply (ctl_top n pcs s).
Qed.

(** *** The instruction under construction *)
Lemma comp_rewrite x n pcs segs G fb op op' : comp x n pcs segs G fb -> vec_lookup fb x = Some op ->
  (forall c, op <> gas_charge_ c) -> vec_size (targets op) <= vec_size (targets op') ->
  comp x n pcs segs G (vec_update fb x op') /\
  forall b p pc, slot_ok n pcs segs G fb b p pc -> slot_ok n pcs segs G (vec_update fb x op') b p pc.
Proof.
  intros [H1 H2 H3 H4 H5 H6 H7] Hop Hg Hsz. pose proof (vec_lookup_lt _ _ _ Hop) as Hx.
  assert (Hl : forall t, loop_head fb n t -> loop_head (vec_update fb x op') n t).
  { intros t [Ht (c & Hc & Hp)]. split; [exact Ht|]. exists c. split; [|exact Hp].
    rewrite vec_lookup_update by assumption. destruct (decide (t = x)) as [->|]; [|exact Hc]. destruct (Hg c). congruence. }
  split; [split; auto|].
  - now rewrite vec_update_size.
  - intros o pt Ho Hox Ht. destruct (H5 o pt Ho Hox Ht) as (op0 & Hop0 & Hty). exists op0. split.
    + rewrite vec_lookup_update by assumption. now destruct (decide (o = x)).
    + eapply op_typed_mono; [exact Hty|intros ? ? Hext; exact Hext|exact Hl|auto|auto].
  - eapply ctl_mono; [intros ? ? Hext; exact Hext|exact Hl| |exact H6].
    intros b [Hb (op0 & Hop0 & Ht)]. split; [exact Hb|]. rewrite vec_lookup_update by assumption.
    destruct (decide (at_op b = x)) as [E|]; [|eauto]. exists op'. split; [reflexivity|]. rewrite E, Hop in Hop0. injection Hop0 as <-. lia.
  - intros b p pc Hs. eapply slot_mono; [exact Hs|intros ? ? Hext; exact Hext|exact Hl|apply (so_held _ _ _ _ _ _ _ _ Hs)|auto].
Qed.

(** A label takes a branch of the instruction under construction. *)
Definition hold (e : pc_element_t) (l : list branch_t) (b : branch_t) : pc_element_t := e <| relocations := branches (l ++ [b]) |>.
Lemma held_snoc e below l b b0 p : relocations e = branches l -> (is_if e = true -> l <> []) -> b0 <> b ->
  held e below b0 p -> held (hold e l b) below b0 p.
Proof.
  unfold held, hold, label_point, else_point. cbn. intros -> Hne Hb. destruct (is_if e).
  - destruct l as [|h l]; [now destruct Hne|]. cbn [app]. intros [Ha Hl]. split; [exact Ha|].
    rewrite elem_of_app, list_elem_of_singleton. intros [H|H]; [auto|contradiction].
  - rewrite elem_of_app, list_elem_of_singleton. intros Hl [H|H]; [auto|contradiction].
Qed.
Lemma free_hold pcs k e l b b0 : pcs !! k = Some e -> relocations e = branches l -> free (<[k := hold e l b]> pcs) b0 -> free pcs b0.
Proof.
  intros Hk He. unfold free. rewrite !Forall_lookup. intros Hf i e' Hi. destruct (decide (i = k)) as [->|Hne].
  - rewrite Hk in Hi. injection Hi as <-. assert (Hlt : (k < length pcs)%nat) by (now apply lookup_lt_Some in Hk).
    specialize (Hf k (hold e l b) (list_lookup_insert_eq _ _ _ Hlt)). unfold holds_branch, hold in *. cbn in Hf. rewrite He.
    intros H. apply Hf, elem_of_app. auto.
  - apply (Hf i e'). now rewrite list_lookup_insert_ne by congruence.
Qed.
Lemma slot_hold n pcs segs G fb k e l b b0 p pc : ctl n pcs segs G fb -> pcs !! k = Some e -> relocations e = branches l ->
  b0 <> b -> slot_ok n pcs segs G fb b0 p pc -> slot_ok n (<[k := hold e l b]> pcs) segs G fb b0 p pc.
Proof.
  intros Hc Hk He Hb Hs. eapply slot_mono; [exact Hs|intros ? ? Hext; exact Hext|auto| |now apply (free_hold pcs k e l b)].
  intros i e' Hi. destruct (decide (i = k)) as [->|Hne].
  - rewrite list_lookup_insert_eq in Hi by (now apply lookup_lt_Some in Hk). injection Hi as <-.
    apply held_snoc; auto; [|now apply (so_held _ _ _ _ _ _ _ _ Hs)].
    pose proof (eo_rel _ _ _ _ _ (ctl_lookup _ _ _ _ _ _ _ Hc Hk)) as Hr. rewrite He in Hr. apply Hr.
  - rewrite list_lookup_insert_ne in Hi by congruence. now apply (so_held _ _ _ _ _ _ _ _ Hs).
Qed.
Lemma comp_hold x n pcs segs G fb k e l b : comp x n pcs segs G fb -> pcs !! k = Some e -> relocations e = branches l ->
  at_op b = x -> slot_in fb n b -> comp x n (<[k := hold e l b]> pcs) segs G fb.
Proof.
  intros [H1 H2 H3 H4 H5 H6 H7] Hk He Hb Hs. split; auto.
  - intros o pt Ho Hx Ht. destruct (H5 o pt Ho Hx Ht) as (op & Hop & nx & bs & Hn & Hlen & Hnx & Hsl & Hc). exists op.
    split; [exact Hop|]. exists nx, bs. split; [exact Hn|]. split; [exact Hlen|]. split; [exact Hnx|]. split; [|exact Hc].
    intros j p pc Hj Hpc. apply slot_hold; auto. intros E. subst b. cbn in Hb. congruence.
  - eapply ctl_update; [exact H6|exact Hk|]. intros [A1 A2 A3 A4 A5 A6]. rewrite He in A6. destruct A6 as (B1 & B2 & B3 & B4).
    split; auto. cbn. split; [exact B1|]. split; [exact B2|]. split; [|apply Forall_app; auto].
    intros _ E. now apply (f_equal length) in E; rewrite length_app in E; cbn in E; lia.
Qed.
Lemma slot_held n pcs segs G fb k e l b pc : ctl n pcs segs G fb -> pcs !! k = Some e -> relocations e = branches l ->
  free pcs b -> live (drop (S k) segs) = true ->
  slot_ok n (<[k := hold e l b]> pcs) segs G fb b (label_point e (drop (S k) segs)) pc.
Proof.
  intros Hc Hk He Hf Hl. assert (Hlt : (k < length pcs)%nat) by (now apply lookup_lt_Some in Hk). split.
  - intros i e' Hi. destruct (decide (i = k)) as [->|Hne].
    + rewrite list_lookup_insert_eq in Hi by assumption. injection Hi as <-. unfold free in Hf. rewrite Forall_lookup in Hf.
      specialize (Hf k e Hk). unfold holds_branch in Hf. rewrite He in Hf.
      pose proof (eo_rel _ _ _ _ _ (ctl_lookup _ _ _ _ _ _ _ Hc Hk)) as Hr. rewrite He in Hr. destruct Hr as (_ & _ & Hne & _).
      unfold held, hold. cbn. destruct (is_if e); [|auto]. destruct l as [|h l]; [now destruct Hne|]. cbn. split; [|auto].
      intros ->. destruct Hf. apply list_elem_of_here.
    + rewrite list_lookup_insert_ne in Hi by congruence. apply held_free. unfold free in Hf. rewrite Forall_lookup in Hf. eauto.
  - intros Hfr. exfalso. unfold free in Hfr. rewrite Forall_lookup in Hfr.
    apply (Hfr k _ (list_lookup_insert_eq _ _ _ Hlt)). unfold holds_branch, hold. cbn. apply elem_of_app. right. apply list_elem_of_here.
Qed.
(** A branch back to a loop. *)
Lemma slot_loop n pcs segs G fb k e t b : ctl n pcs segs G fb -> pcs !! k = Some e -> relocations e = label_at t ->
  free pcs b -> live (drop (S k) segs) = true -> slot_ok n pcs segs G fb b (label_point e (drop (S k) segs)) (B + t).
Proof.
  intros Hc Hk He Hf Hl. pose proof (eo_rel _ _ _ _ _ (ctl_lookup _ _ _ _ _ _ _ Hc Hk)) as Hr. rewrite He in Hr.
  destruct Hr as (_ & _ & _ & _ & Hh & Ht). split.
  - intros i e' Hi. apply held_free. unfold free in Hf. rewrite Forall_lookup in Hf. eauto.
  - intros _. exists t. auto.
Qed.

(** *** Resolving branches *)

(** [fb'] is [fb] with the branches [l] sent to [v], and possibly larger gas
    charges. *)
Record retargets (l : list branch_t) (v : Z) (op op' : opcode) (o : Z) : Prop := {
  rt_needs : forall pt, needs m pt op' = needs m pt op;
  rt_len : length (targets op') = length (targets op);
  rt_gas : forall c, op = gas_charge_ c -> 0 < c -> exists c', op' = gas_charge_ c' /\ 0 < c';
  rt_gas' : forall c', op' = gas_charge_ c' -> exists c, op = gas_charge_ c /\ (0 < c -> 0 < c');
  rt_pc : forall j pc, targets op' !! j = Some pc ->
    BranchAt o (Z.of_nat j) ∈ l /\ pc = v \/ (BranchAt o (Z.of_nat j) ∉ l) /\ targets op !! j = Some pc }.
Definition retargeted (l : list branch_t) (v : Z) (fb fb' : list opcode) : Prop :=
  length fb' = length fb /\
  forall o op, vec_lookup fb o = Some op -> exists op', vec_lookup fb' o = Some op' /\ retargets l v op op' o.

Lemma retargets_refl v op o : retargets [] v op op o.
Proof.
  split; auto; [eauto|eauto|]. intros j pc H. right. split; [|exact H]. apply not_elem_of_nil.
Qed.
Lemma retargeted_refl v fb : retargeted [] v fb fb.
Proof. split; [reflexivity|]. intros o op H. exists op. split; [exact H|apply retargets_refl]. Qed.
Lemma retargeted_trans l l' v fb fb1 fb2 : retargeted l v fb fb1 -> retargeted l' v fb1 fb2 -> retargeted (l ++ l') v fb fb2.
Proof.
  intros [E1 H1] [E2 H2]. split; [congruence|]. intros o op Ho. destruct (H1 o op Ho) as (op1 & Ho1 & [A1 A2 A3 A4 A5]).
  destruct (H2 o op1 Ho1) as (op2 & Ho2 & [B1 B2 B3 B4 B5]). exists op2. split; [exact Ho2|]. split.
  - intros pt. now rewrite B1, A1.
  - congruence.
  - intros c Hc Hp. destruct (A3 c Hc Hp) as (c1 & Hc1 & Hp1). eauto.
  - intros c2 Hc2. destruct (B4 c2 Hc2) as (c1 & Hc1 & Hp1). destruct (A4 c1 Hc1) as (c & Hc & Hp). eauto.
  - intros j pc Hj. destruct (B5 j pc Hj) as [[Hb ->]|[Hb Hj1]]; [left; split; [|reflexivity]; apply elem_of_app; auto|].
    destruct (A5 j pc Hj1) as [[Ha ->]|[Ha Hj0]]; [left; split; [|reflexivity]; apply elem_of_app; auto|].
    right. split; [|exact Hj0]. rewrite elem_of_app. tauto.
Qed.

Lemma head_retarget l v fb fb' n t : retargeted l v fb fb' -> loop_head fb n t -> loop_head fb' n t.
Proof.
  intros [_ H] [Ht (c & Hc & Hp)]. destruct (H t _ Hc) as (op' & Hop' & R). destruct (rt_gas _ _ _ _ _ R c eq_refl Hp) as (c' & -> & Hp').
  split; [exact Ht|]. eauto.
Qed.
Lemma slot_in_retarget l v fb fb' n b : retargeted l v fb fb' -> slot_in fb n b -> slot_in fb' n b.
Proof.
  intros [_ H] [Hb (op & Hop & Ht)]. destruct (H _ _ Hop) as (op' & Hop' & R). split; [exact Hb|]. exists op'. split; [exact Hop'|].
  unfold vec_size in *. now rewrite (rt_len _ _ _ _ _ R).
Qed.

(** Branches that are resolved to [t] find their types there; others are as they
    were. *)
Lemma op_typed_retarget n pcs pcs' segs segs' G G' fb fb' l t o pt op op' :
  retargeted l (B + t) fb fb' -> retargets l (B + t) op op' o -> extends G G' -> o < t ->
  (forall j p, (forall k e, pcs !! k = Some e -> held e (drop (S k) segs) (BranchAt o j) p) ->
    (forall k e, pcs' !! k = Some e -> held e (drop (S k) segs') (BranchAt o j) p) /\
    (BranchAt o j ∈ l -> type_at G' t = Some p)) ->
  (forall j, BranchAt o j ∉ l -> free pcs' (BranchAt o j) -> free pcs (BranchAt o j)) ->
  op_typed n pcs segs G fb o pt op -> op_typed n pcs' segs' G' fb' o pt op'.
Proof.
  intros Hfb [R1 R2 R3 R4 R5] HG Hot Hh Hf (nx & bs & Hn & Hlen & Hnx & Hs & Hc).
  exists nx, bs. split; [now rewrite R1|]. split; [congruence|]. split; [intros p Hp; apply HG; auto|]. split.
  - intros j p pc' Hj Hpc'. destruct (lookup_lt_is_Some_2 (targets op) j) as [pc Hpc].
    { rewrite Hlen. now apply lookup_lt_Some in Hj. }
    specialize (Hs j p pc Hj Hpc). destruct (Hh (Z.of_nat j) p (so_held _ _ _ _ _ _ _ _ Hs)) as [Hh' Hl']. split; [exact Hh'|].
    intros Hfree. destruct (R5 j pc' Hpc') as [[Hin ->]|[Hin Hpc0]].
    + exists t. split; [reflexivity|]. split; [auto|]. now left.
    + rewrite Hpc in Hpc0. injection Hpc0 as <-. destruct (so_fixed _ _ _ _ _ _ _ _ Hs (Hf _ Hin Hfree)) as (t' & -> & Ht' & Ho').
      exists t'. split; [reflexivity|]. split; [now apply HG|]. destruct Ho' as [?|Ho']; [now left|]. right. eapply head_retarget; eauto.
  - intros c ->. destruct (R4 c eq_refl) as (c0 & -> & Hp). apply Hp. now apply Hc.
Qed.

(** A gas charge has grown. *)
Lemma comp_patch x n v pcs segs G fb fb' : comp x n pcs segs G fb -> retargeted [] (B + v) fb fb' -> comp x n pcs segs G fb'.
Proof.
  intros [H1 H2 H3 H4 H5 H6 H7] Hr. pose proof Hr as [Hlen Hops]. split; auto.
  - unfold vec_size in *. now rewrite Hlen.
  - intros o pt Ho Hx Ht. destruct (H5 o pt Ho Hx Ht) as (op & Hop & nx & bs & Hn & Hl & Hnx & Hs & Hc).
    destruct (Hops o op Hop) as (op' & Hop' & [R1 R2 R3 R4 R5]). exists op'. split; [exact Hop'|]. exists nx, bs.
    split; [now rewrite R1|]. split; [congruence|]. split; [exact Hnx|]. split.
    + intros j p pc Hj Hpc. destruct (R5 j pc Hpc) as [[Hin _]|[_ Hpc0]]; [now apply not_elem_of_nil in Hin|].
      specialize (Hs j p pc Hj Hpc0). eapply slot_mono; [exact Hs|intros ? ? Hext; exact Hext| |apply (so_held _ _ _ _ _ _ _ _ Hs)|auto].
      intros t. eapply head_retarget; eauto.
    + intros c ->. destruct (R4 c eq_refl) as (c0 & -> & Hp). apply Hp. now apply Hc.
  - eapply ctl_mono; [intros ? ? Hext; exact Hext| | |exact H6].
    + intros t. eapply head_retarget; eauto.
    + intros b. eapply slot_in_retarget; eauto.
Qed.

(** *** The end of a scope *)
Lemma cur_rejoin s s1 rest : cur (s :: s1 :: rest) = cur ((s ++ s1) :: rest).
Proof.
  unfold cur, point_of, live. cbn [forallb concat]. rewrite forallb_app, andb_assoc, app_assoc. reflexivity.
Qed.
Lemma cur_live s rest : Forall valtype s -> live rest = true -> cur (s :: rest) = Some (point_of (s :: rest)).
Proof. intros Hs Hl. unfold cur. now rewrite (proj2 (live_cons s rest) (conj Hs Hl)). Qed.
Lemma Forall_rev_val ts : Forall valtype ts -> Forall valtype (rev ts).
Proof. rewrite !List.Forall_forall. intros H x Hx. apply H. now apply List.in_rev. Qed.

Definition branches_of (e : pc_element_t) : list branch_t := match relocations e with branches l => l | label_at _ => [] end.
Lemma comp_end n e pcs s s1 rest G fb fb' : comp (-1) n (e :: pcs) (s :: s1 :: rest) G fb ->
  retargeted (branches_of e) (B + n) fb fb' -> (is_if e = true -> block_params e = label_types e) ->
  (live (s :: s1 :: rest) = true -> s = rev (end_types e)) ->
  let segs' := (rev (end_types e) ++ s1) :: rest in
  comp (-1) n pcs segs' (vec_update G n (cur segs')) fb'.
Proof.
  intros [H1 H2 H3 H4 H5 H6 H7] Hr Hif Hs segs'. pose proof Hr as [Hlen Hops]. cbn [ctl] in H6. destruct H6 as [He Hc].
  assert (Hcur : cur segs' = cur (rev (end_types e) :: s1 :: rest)) by (symmetry; apply cur_rejoin).
  assert (Hmono : forall p, cur (s :: s1 :: rest) = Some p -> cur segs' = Some p).
  { intros p Hp. rewrite Hcur. rewrite <- Hs; [exact Hp|]. unfold cur in Hp. now destruct (live _). }
  pose proof (extends_update G n _ _ H3 Hmono) as HG.
  assert (Hn' : vec_lookup (vec_update G n (cur segs')) n = Some (cur segs')).
  { rewrite vec_lookup_update by lia. now destruct (decide (n = n)). }
  assert (Hlab : live (s1 :: rest) = true -> label_types e = end_types e -> type_at (vec_update G n (cur segs')) n = Some (label_point e (s1 :: rest))).
  { intros Hl Hle. apply type_at_lookup. rewrite Hn', Hcur. f_equal. unfold label_point. rewrite Hle.
    apply cur_live; [|exact Hl]. apply Forall_rev_val, He. }
  split; auto.
  - now rewrite vec_update_size.
  - unfold vec_size in *. now rewrite Hlen.
  - intros o pt Ho Hx Ht. rewrite <- type_at_lookup, vec_lookup_update in Ht by lia. destruct (decide (o = n)); [lia|].
    rewrite type_at_lookup in Ht. destruct (H5 o pt Ho Hx Ht) as (op & Hop & Hty). destruct (Hops o op Hop) as (op' & Hop' & R).
    exists op'. split; [exact Hop'|]. eapply op_typed_retarget; [exact Hr|exact R|exact HG|lia| | |exact Hty].
    + intros j p Hh. split; [intros k e' Hk; exact (Hh (S k) e' Hk)|]. intros Hin. specialize (Hh 0%nat e eq_refl). unfold held in Hh.
      pose proof (eo_rel _ _ _ _ _ He) as Hrel. unfold branches_of in Hin.
      destruct (relocations e) as [|l]; [now apply not_elem_of_nil in Hin|]. destruct Hrel as (_ & Hle & _ & _). cbn [drop] in Hh.
      destruct (is_if e) eqn:Eif; [|destruct (Hh Hin) as [Hl ->]; now apply Hlab].
      destruct l as [|h l]; [now apply not_elem_of_nil in Hin|]. destruct Hh as [Hh1 Hh2].
      apply elem_of_cons in Hin as [E|Hin]; [|destruct (Hh2 Hin) as [Hl ->]; now apply Hlab].
      destruct (Hh1 (eq_sym E)) as [Hl ->]. unfold else_point. rewrite (Hif eq_refl). now apply Hlab.
    + intros j Hin Hf. constructor; [|exact Hf]. unfold holds_branch, branches_of in *. now destruct (relocations e).
  - eapply ctl_mono; [exact HG| | |apply (ctl_top n pcs s1); exact Hc].
    + intros t. eapply head_retarget; eauto.
    + intros b. eapply slot_in_retarget; eauto.
  - intros o pt Ht. rewrite <- type_at_lookup, vec_lookup_update in Ht by lia. destruct (decide (o = n)).
    + injection Ht as E. destruct (cur_pts _ _ E) as (? & ? & _). auto.
    + rewrite type_at_lookup in Ht. eauto.
Qed.

(** *** The [else] part *)
Lemma comp_else n e pcs s s1 rest G fb fb2 h l :
  comp (-1) n (e :: pcs) (s :: s1 :: rest) G fb -> n < vec_size fb -> is_if e = true -> relocations e = branches (h :: l) ->
  (live (s :: s1 :: rest) = true -> s = rev (end_types e)) ->
  let fb1 := vec_update fb n (else_ 0) in
  retargeted [h] (B + (n + 1)) fb1 fb2 ->
  let e' := e <| relocations := branches (BranchAt n 0 :: l) |> <| is_if := false |> in
  let segs' := rev (block_params e) :: s1 :: rest in
  comp (-1) (n + 1) (e' :: pcs) segs' (G ++ [cur segs']) fb2.
Proof.
  intros Hcp Hroom Hif Hrel Hs fb1 Hr e' segs'.
  pose proof (comp_append n (e :: pcs) s (rev (block_params e)) (s1 :: rest) G fb (else_ 0) Hcp Hroom) as Hap. fold fb1 segs' in Hap.
  pose proof (cp_ctl _ _ _ _ _ _ Hcp) as Hctl0. pose proof (cp_size _ _ _ _ _ _ Hcp) as Hsz. pose proof (cp_room _ _ _ _ _ _ Hcp) as Hrm.
  pose proof Hctl0 as [He0 Hc0]. pose proof (eo_rel _ _ _ _ _ He0) as Hr0. rewrite Hrel in Hr0. destruct Hr0 as (_ & Hle & _ & Hsl0).
  assert (Hh0 : 0 <= at_op h < n) by (inversion Hsl0 as [|? ? Hh ?]; apply Hh).
  destruct Hap as [H1 H2 H3 H4 H5 H6 H7]. pose proof Hr as [Hlen Hops]. cbn [ctl] in H6. destruct H6 as [He Hc].
  assert (Hnext : live (s1 :: rest) = true -> type_at (G ++ [cur segs']) (n + 1) = Some (else_point e (s1 :: rest))).
  { intros Hl. apply type_at_lookup. rewrite H3. f_equal. apply cur_live; [|exact Hl]. apply Forall_rev_val, He. }
  assert (Hn1 : vec_lookup fb1 n = Some (else_ 0)).
  { unfold fb1. rewrite vec_lookup_update by lia. now destruct (decide (n = n)). }
  split; auto.
  - unfold vec_size in *. now rewrite Hlen.
  - intros o pt Ho _ Ht. destruct (decide (o = n)) as [->|Hne].
    + destruct (Hops n _ Hn1) as (op' & Hop' & R). exists op'. split; [exact Hop'|].
      assert (Hpt : live (s :: s1 :: rest) = true /\ pt = point_of (s :: s1 :: rest)).
      { apply type_at_snoc_inv in Ht as [Ht|[E _]]; [|lia]. apply type_at_lookup in Ht. rewrite (cp_cur _ _ _ _ _ _ Hcp) in Ht.
        unfold cur in Ht. destruct (live _); [|discriminate]. injection Ht as <-. auto. }
      destruct Hpt as [Hl ->]. specialize (Hs Hl). subst s. apply live_cons in Hl as [_ Hl].
      exists None, [point_of (rev (end_types e) :: s1 :: rest)]. split; [now rewrite (rt_needs _ _ _ _ _ R)|].
      split; [now rewrite (rt_len _ _ _ _ _ R)|]. split; [discriminate|]. split.
      2:{ intros c ->. now destruct (rt_gas' _ _ _ _ _ R c eq_refl) as (c0 & E & _). }
      intros [|j] p pc Hj _; [|discriminate]. injection Hj as <-.
      assert (Hfr : free pcs (BranchAt n 0)) by (eapply ctl_fresh; [exact Hc0|cbn; lia]). split.
      * intros [|k] e0 Hk; cbn in Hk.
        -- injection Hk as <-. unfold held. cbn. intros _. split; [exact Hl|]. unfold label_point, label_types. cbn. fold (label_types e). now rewrite Hle.
        -- apply held_free. unfold free in Hfr. rewrite Forall_lookup in Hfr. exact (Hfr k e0 Hk).
      * intros Hf. exfalso. inversion Hf as [|? ? Hf0]. apply Hf0. unfold holds_branch. cbn. apply list_elem_of_here.
    + destruct (H5 o pt Ho Hne Ht) as (op & Hop & Hty). destruct (Hops o op Hop) as (op' & Hop' & R). exists op'. split; [exact Hop'|].
      eapply (op_typed_retarget (n + 1) (e :: pcs) _ segs' _ (G ++ [cur segs'])); [exact Hr|exact R|intros ? ? Hext; exact Hext|lia| | |exact Hty].
      * intros j q Hh. pose proof (Hh 0%nat e eq_refl) as Hh1. unfold held in Hh1. rewrite Hrel, Hif in Hh1. cbn [drop] in Hh1. destruct Hh1 as [Hh1 Hh2].
        split; [|intros Hin; apply list_elem_of_singleton in Hin; destruct (Hh1 (eq_sym Hin)) as [Hl ->]; now apply Hnext].
        intros [|k] e0 Hk; [|exact (Hh (S k) e0 Hk)]. injection Hk as <-. unfold held. cbn. intros Hin.
        apply elem_of_cons in Hin as [E|Hin]; [injection E as E _; congruence|]. destruct (Hh2 Hin) as [Hl ->]. auto.
      * intros j Hin Hf. inversion Hf as [|? ? Hf0 Hf1]. subst. constructor; [|exact Hf1]. unfold holds_branch in *. rewrite Hrel. cbn in Hf0.
        intros Hb. apply elem_of_cons in Hb as [E|Hb]; [destruct Hin; rewrite E; apply list_elem_of_here|]. apply Hf0. now apply list_elem_of_further.
  - cbn [ctl]. split.
    + eapply (elem_mono (n + 1) (n + 1) e' (s1 :: rest) _ _ fb1 fb2); [|intros ? ? Hext; exact Hext|intros t; eapply head_retarget; eauto|intros b; eapply slot_in_retarget; eauto].
      destruct He as [A1 A2 A3 A4 A5 A6]. rewrite Hrel in A6. destruct A6 as (B1 & B2 & B3 & B4). split; auto. cbn.
      split; [exact B1|]. split; [exact B2|]. split; [discriminate|]. inversion B4. constructor; [|assumption].
      split; [cbn; lia|]. exists (else_ 0). split; [exact Hn1|]. unfold vec_size. cbn. lia.
    + eapply ctl_mono; [intros ? ? Hext; exact Hext|intros t; eapply head_retarget; eauto|intros b; eapply slot_in_retarget; eauto|exact Hc].
Qed.
End Inv.
