(* ===== verification/BodySound.v ===== *)
(** * Validated bodies are typed code

    Every instruction that the validator accepts keeps the invariant of
    [Emission]: the bitcode written so far is typed, up to the branches that wait
    for their labels.  One lemma for each case of the parser's switch that the
    verifier of [Verifier] covers. *)
From Stdlib Require Import ZArith Lia Bool String.
From stdpp Require Import base list numbers decidable option.
From S2P Require Import Prelude Leb128 Types InitExpr ConstExpr ParseInit Stack Memory Numeric Softfloat Context Operands Interp Demo Invariants.
From S2P Require Import TypedOps TypedVec Typing Control Verifier Termination Writer Validator ParseVec ParseBody TrackerSpec Emission.
Import GuardedPtr Leb Opcode GasInjector BitcodeWriter Tracker.

(** ** Reading *)

(** The pointer has moved by at least [k] bytes. *)
Definition adv (k : Z) (g g' : guarded_ptr) : Prop :=
  gp_data g' = gp_data g /\ gp_bnds g' = gp_bnds g /\ gp_raw g + k <= gp_raw g' <= gp_bnds g'.

Lemma adv_refl g : good g -> adv 0 g g.
Proof. intros [[[? ?] ?] _]. unfold adv. repeat split; lia. Qed.
Lemma adv_trans a b g g1 g2 : adv a g g1 -> adv b g1 g2 -> adv (a + b) g g2.
Proof. intros (A1 & A2 & A3) (B1 & B2 & B3). unfold adv. repeat split; try congruence; lia. Qed.
Lemma adv_good k g g' : good g -> 0 <= k -> adv k g g' -> good g'.
Proof.
  intros [[[H1 H2] [H3 H4]] H5] Hk (A1 & A2 & A3). split; [|now rewrite A1]. unfold wf. rewrite A2 in A3. rewrite A1, A2. repeat split; lia.
Qed.
Lemma ate_adv g g' bs : good g -> ate g g' bs -> adv (Z.of_nat (length bs)) g g'.
Proof. intros [[[? ?] _] _] [[_ Hr] ->]. unfold adv. cbn. repeat split; lia. Qed.
Lemma leb_wf_length bs : leb_wf bs -> (1 <= length bs)%nat.
Proof. intros []; cbn; lia. Qed.

Lemma next_adv g g' b : good g -> Parser.next g = Ok b g' -> adv 1 g g' /\ in_u 8 b.
Proof.
  intros Hg H. pose proof (next_wp g Hg) as Hw. unfold wp in Hw. rewrite H in Hw. destruct Hw as [Hb Ha].
  split; [exact (ate_adv _ _ _ Hg Ha)|exact Hb].
Qed.
Lemma varuint_adv N g g' v : wide N -> good g -> parse_varuint N g = Ok v g' -> adv 1 g g' /\ in_u N v.
Proof.
  intros HN Hg H. pose proof (parse_varuint_reads N g HN (proj1 Hg) (proj2 Hg)) as Hw. unfold wp in Hw. rewrite H in Hw.
  destruct Hw as (bs & Hr & Hl & _ & _ & Hv & ->). split; [|exact Hv]. pose proof (leb_wf_length bs Hl).
  assert (Ha : ate g (set_raw (gp_raw g + Z.of_nat (length bs)) g) bs) by (split; auto).
  destruct (ate_adv _ _ _ Hg Ha) as (A1 & A2 & A3). unfold adv. repeat split; auto; lia.
Qed.
Lemma varint_adv N g g' v : wide N -> good g -> parse_varint N g = Ok v g' -> adv 1 g g' /\ in_s N v.
Proof.
  intros HN Hg H. pose proof (parse_varint_reads N g HN (proj1 Hg) (proj2 Hg)) as Hw. unfold wp in Hw. rewrite H in Hw.
  destruct Hw as (bs & Hr & Hl & _ & _ & Hv & ->). split; [|exact Hv]. pose proof (leb_wf_length bs Hl).
  assert (Ha : ate g (set_raw (gp_raw g + Z.of_nat (length bs)) g) bs) by (split; auto).
  destruct (ate_adv _ _ _ Hg Ha) as (A1 & A2 & A3). unfold adv. repeat split; auto; lia.
Qed.
Lemma le_value_range bs : Forall (in_u 8) bs -> in_u (8 * Z.of_nat (length bs)) (le_value bs).
Proof.
  induction 1 as [|b bs Hb _ IH]; [cbv; split; congruence|]. cbn [le_value length].
  replace (8 * Z.of_nat (S (length bs))) with (8 * Z.of_nat (length bs) + 8) by lia.
  unfold in_u in *. rewrite Z.pow_add_r by lia. change (2 ^ 8) with 256 in *. lia.
Qed.
Lemma raw_adv n g g' v : good g -> Parser.parse_raw n g = Ok v g' -> adv (Z.of_nat n) g g' /\ in_u (8 * Z.of_nat n) v.
Proof.
  intros Hg H. pose proof (parse_raw_wp n g Hg) as Hw. unfold wp in Hw. rewrite H in Hw.
  destruct Hw as (bs & Ha & <- & ->). split; [exact (ate_adv _ _ _ Hg Ha)|]. apply le_value_range.
  destruct Ha as [[Hb _] _]. unfold bytes_at in Hb. rewrite <- Hb. destruct Hg as [_ Hg]. now apply Forall_take, Forall_drop.
Qed.
Lemma current_same g g' b : good g -> current g = Ok b g' -> g' = g /\ in_u 8 b.
Proof.
  intros Hg H. pose proof (current_wp g Hg) as Hw. unfold wp in Hw. rewrite H in Hw. tauto.
Qed.
Lemma incr_adv g g' u : good g -> incr g = Ok u g' -> adv 1 g g'.
Proof.
  intros [[[? ?] _] _]. unfold incr, bind, get, psizam_assert. destruct (Z.ltb_spec (gp_raw g) (gp_bnds g)); [|discriminate].
  intros [= _ <-]. unfold adv. cbn. repeat split; lia.
Qed.

Lemma read_bytes_same n : forall i g ls g', good g -> read_bytes n i g = Ok ls g' -> g' = g /\ length ls = n /\ Forall (in_u 8) ls.
Proof.
  induction n as [|n IH]; intros i g ls g' Hg H; cbn [read_bytes] in H; [injection H as <- <-; auto|].
  unfold bind at 1, deref in H. destruct (i <? 0); [discriminate|]. destruct (gp_data g !! Z.to_nat i) as [b|] eqn:Eb; [|discriminate].
  unfold bind in H. destruct (read_bytes n (i + 1) g) as [r g1|? ?|] eqn:Er; try discriminate. injection H as <- <-.
  destruct (IH _ _ _ _ Hg Er) as (-> & Hl & Hr). split; [reflexivity|]. split; [cbn; lia|]. constructor; [|exact Hr].
  destruct Hg as [_ Hg]. exact (Forall_lookup_1 _ _ _ _ Hg Eb).
Qed.
Lemma shuffle_adv g g' ls : good g -> read_shuffle g = Ok ls g' -> adv 16 g g' /\ length ls = 16%nat /\ Forall (in_u 8) ls.
Proof.
  intros Hg H. unfold read_shuffle, bind at 1, get, advance in H. unfold bind at 1, bind at 1, get, psizam_assert in H.
  destruct (Z.leb_spec 16 (avail g)) as [Hle|]; [|discriminate]. rewrite avail_wf in Hle by apply Hg. unfold bind, ret, modify in H.
  assert (Ha : adv 16 g (set_raw (gp_raw g + 16) g)) by (unfold adv; cbn; repeat split; lia).
  destruct (read_bytes_same _ _ _ _ _ (adv_good 16 _ _ Hg ltac:(lia) Ha) H) as (-> & Hl & Hr). auto.
Qed.

(** ** One step at a time *)
Lemma zoom_ok {S T A} (sel : S -> T) upd (f : M T A) s a s' : zoom sel upd f s = Ok a s' ->
  exists t, f (sel s) = Ok a t /\ s' = upd t s.
Proof. unfold zoom. destruct (f (sel s)) as [? t|? t|]; intros [= <- <-]; eauto. Qed.
Lemma on_code_ok {A} (f : M guarded_ptr A) s a s' : on_code f s = Ok a s' -> exists g, f (code s) = Ok a g /\ s' = s <| code := g |>.
Proof. apply zoom_ok. Qed.
Lemma on_stack_ok {A} (f : M tracker A) s a s' : on_stack f s = Ok a s' -> exists t, f (op_stack s) = Ok a t /\ s' = s <| op_stack := t |>.
Proof. apply zoom_ok. Qed.
Lemma on_writer_ok {A} (f : M bitcode_writer A) s a s' : on_writer f s = Ok a s' ->
  exists w, f (code_writer s) = Ok a w /\ s' = s <| code_writer := w |>.
Proof. apply zoom_ok. Qed.
Lemma get_ok {S} (s a s' : S) : get s = Ok a s' -> a = s /\ s' = s.
Proof. intros [= <- <-]. auto. Qed.
Lemma gets_ok {S A} (f : S -> A) (s : S) a s' : gets f s = Ok a s' -> a = f s /\ s' = s.
Proof. intros [= <- <-]. auto. Qed.
Lemma vec_index_inv {S A} (l : list A) i (s : S) a s' : vec_index l i s = Ok a s' -> vec_lookup l i = Some a /\ s' = s.
Proof. unfold vec_index. destruct (vec_lookup l i); intros [= <- <-]. auto. Qed.
Lemma check_in_bounds_ok s u s' : check_in_bounds s = Ok u s' -> pc_stack s <> [] /\ s' = s.
Proof.
  unfold check_in_bounds, bind, get. intros H. apply parse_check_Ok in H as [H ->]. split; [|reflexivity].
  intros E. rewrite bool_decide_eq_true_2 in H by assumption. discriminate.
Qed.

(** Takes the first operation off a sequence that has returned. *)
Ltac step_in H x Hx :=
  let s1 := fresh "st" in apply bind_ok in H as (x & s1 & Hx & H);
  lazymatch type of Hx with
  | get _ = _ => apply get_ok in Hx as [-> ->]
  | gets _ _ = _ => apply gets_ok in Hx as [-> ->]
  | ret _ _ = _ => apply ret_ok in Hx as [-> ->]
  | modify _ _ = _ => apply modify_ok in Hx as ->
  | parse_check _ _ _ = _ => apply parse_check_Ok in Hx as [Hx ->]
  | vec_index _ _ _ = _ => apply vec_index_inv in Hx as [Hx ->]
  | check_in_bounds _ = _ => apply check_in_bounds_ok in Hx as [Hx ->]
  | on_code _ _ = _ => let g := fresh "g" in apply on_code_ok in Hx as (g & Hx & ->)
  | on_stack _ _ = _ => let t := fresh "t" in apply on_stack_ok in Hx as (t & Hx & ->)
  | on_writer _ _ = _ => let w := fresh "w" in apply on_writer_ok in Hx as (w & Hx & ->)
  | next_byte _ = _ => unfold next_byte in Hx; let g := fresh "g" in apply on_code_ok in Hx as (g & Hx & ->)
  | peek_byte _ = _ => unfold peek_byte in Hx; let g := fresh "g" in apply on_code_ok in Hx as (g & Hx & ->)
  | varuint32 _ = _ => unfold varuint32 in Hx; let g := fresh "g" in apply on_code_ok in Hx as (g & Hx & ->)
  | varint32 _ = _ => unfold varint32 in Hx; let g := fresh "g" in apply on_code_ok in Hx as (g & Hx & ->)
  | _ => idtac
  end.

(** ** Writing *)
Lemma put_ok i op w u w' : put i op w = Ok u w' -> i < vec_size (fb w) /\ w' = w <| fb := vec_update (fb w) i op |>.
Proof.
  intros H. unfold put in H. step_in H x Hx. apply modify_ok in H. subst w'. unfold check_at in Hx. step_in Hx y Hy.
  unfold psizam_assert in Hx. destruct (Z.ltb_spec i (vec_size (fb w))); [|discriminate]. injection Hx as _ <-. auto.
Qed.
Definition appended (w : bitcode_writer) (op : opcode) : bitcode_writer :=
  w <| fb := vec_update (fb w) (op_index w) op |> <| op_index := op_index w + 1 |>.
Lemma append_ok op w i w' : append_instr op w = Ok i w' -> i = op_index w /\ op_index w < vec_size (fb w) /\ w' = appended w op.
Proof.
  intros H. unfold append_instr in H. step_in H x Hx. step_in H y Hy. apply put_ok in Hy as [Hlt ->].
  step_in H z Hz. apply ret_ok in H as [-> ->]. auto.
Qed.
Lemma emit_op_ok op w u w' : emit_op op w = Ok u w' -> op_index w < vec_size (fb w) /\ w' = appended w op.
Proof. intros H. unfold emit_op in H. step_in H x Hx. apply append_ok in Hx as (_ & Hlt & ->). apply ret_ok in H as [_ ->]. auto. Qed.

Section Retarget.
Context (m : module).

Lemma table_points_update pt st v : forall t j e, t !! j = Some e ->
  table_points pt st (<[j := {| bt_pc := v; bt_stack_pop := bt_stack_pop e; bt_eh_leave_count := bt_eh_leave_count e |}]> t) = table_points pt st t.
Proof.
  induction t as [|x t IH]; intros [|j] e Hj; try discriminate; cbn in *; [now injection Hj as ->|]. now rewrite IH.
Qed.
Lemma set_target_retargets op j v op' o : set_target op j v = Some op' -> 0 <= j < vec_size (targets op) ->
  retargets m [BranchAt o j] v op op' o.
Proof.
  assert (Hone : forall op op' pc, targets op = [pc] -> targets op' = [v] -> (forall pt, needs m pt op' = needs m pt op) ->
    (forall c, op <> gas_charge_ c) -> (forall c, op' <> gas_charge_ c) -> 0 <= j < vec_size (targets op) -> retargets m [BranchAt o j] v op op' o).
  { intros p p' pc E E' Hn Hg Hg' Hj. split.
    - exact Hn.
    - now rewrite E, E'.
    - intros c Hc. now destruct (Hg c).
    - intros c Hc. now destruct (Hg' c).
    - intros i q. rewrite E'. destruct i as [|i]; [|discriminate]. intros [= <-]. left. split; [|reflexivity].
      rewrite E in Hj. unfold vec_size in Hj. cbn in Hj. replace j with 0 by lia. apply list_elem_of_here. }
  destruct op; cbn [set_target]; try discriminate; try (intros [= <-] Hj; eapply Hone; [reflexivity|reflexivity|reflexivity|discriminate|discriminate|exact Hj]);
    try (intros [= <-] Hj; unfold vec_size in Hj; cbn in Hj; lia).
  destruct (vec_lookup table j) as [e|] eqn:Ee; [|discriminate]. intros [= <-] Hj. apply vec_lookup_Some in Ee as [H0 Ee].
  unfold vec_update. destruct (Z.ltb_spec j 0); [lia|]. split.
  - intros pt. cbn [needs]. destruct (pt_stack pt) as [|t st]; [reflexivity|]. unfold vec_size.
    rewrite length_insert. now rewrite (table_points_update pt st v table (Z.to_nat j) e Ee).
  - cbn [targets]. now rewrite !length_map, length_insert.
  - discriminate.
  - discriminate.
  - cbn [targets]. intros i pc. rewrite list_fmap_insert. cbn [bt_pc]. destruct (decide (i = Z.to_nat j)) as [->|Hne].
    + rewrite list_lookup_insert_eq by (rewrite length_map; now apply lookup_lt_Some in Ee). intros [= <-].
      left. split; [|reflexivity]. rewrite Z2Nat.id by lia. apply list_elem_of_here.
    + rewrite list_lookup_insert_ne by congruence. intros Hi. right. split; [|exact Hi].
      rewrite list_elem_of_singleton. intros [= E]. lia.
Qed.

Lemma store_branch_ok b v w u w' n : store_branch b v w = Ok u w' -> slot_in (fb w) n b ->
  exists fb', w' = w <| fb := fb' |> /\ retargeted m [b] v (fb w) fb'.
Proof.
  intros H [Hb (op & Hop & Ht)]. unfold store_branch in H. step_in H x Hx. rewrite Hop in H.
  destruct (set_target op (at_target b) v) as [op'|] eqn:Es; [|discriminate]. apply modify_ok in H. subst w'.
  exists (vec_update (fb w) (at_op b) op'). split; [reflexivity|]. split; [apply vec_update_length|].
  intros o p Ho. rewrite vec_lookup_update by (eapply vec_lookup_lt; eauto). destruct (decide (o = at_op b)) as [->|Hne].
  - rewrite Hop in Ho. injection Ho as <-. exists op'. split; [reflexivity|]. destruct b. now apply set_target_retargets.
  - exists p. split; [exact Ho|]. destruct (retargets_refl m v p o) as [A1 A2 A3 A4 A5]. split; auto.
    intros j pc Hj. right. split; [|exact Hj]. rewrite list_elem_of_singleton. intros E. destruct b. injection E as E _. now cbn in Hne.
Qed.
Lemma fix_branch_ok b t w u w' n : fix_branch b t w = Ok u w' -> 0 <= _base_offset w + t < 2 ^ 32 -> slot_in (fb w) n b ->
  exists fb', w' = w <| fb := fb' |> /\ retargeted m [b] (_base_offset w + t) (fb w) fb'.
Proof.
  intros H Ht Hs. unfold fix_branch in H. step_in H x Hx. rewrite wrap_small in H by exact Ht. now apply (store_branch_ok _ _ _ u _ n).
Qed.
Lemma fix_branches_ok t n l : forall w u w', fix_branches l t w = Ok u w' -> 0 <= _base_offset w + t < 2 ^ 32 ->
  Forall (slot_in (fb w) n) l -> exists fb', w' = w <| fb := fb' |> /\ retargeted m l (_base_offset w + t) (fb w) fb'.
Proof.
  induction l as [|b l IH]; intros w u w' H Ht Hs; cbn [fix_branches] in H.
  - apply ret_ok in H as [_ ->]. exists (fb w). split; [now destruct w|apply retargeted_refl].
  - step_in H x Hx. inversion Hs as [|? ? Hb Hs']. subst. destruct (fix_branch_ok b t w _ _ n Hx Ht Hb) as (fb1 & -> & H1).
    destruct (IH _ _ _ H) as (fb2 & -> & H2).
    + exact Ht.
    + eapply List.Forall_impl; [|exact Hs']. intros b'. eapply slot_in_retarget. exact H1.
    + exists fb2. split; [reflexivity|]. exact (retargeted_trans m [b] l _ _ _ _ H1 H2).
Qed.
Lemma patch_loop_ok t extra v w u w' : patch_gas_imm_add_extra (Some (loop_gas t)) extra w = Ok u w' -> 0 <= extra ->
  exists fb', w' = w <| fb := fb' |> /\ retargeted m [] v (fb w) fb'.
Proof.
  intros H He. unfold patch_gas_imm_add_extra in H. destruct (extra =? 0).
  { apply ret_ok in H as [_ ->]. exists (fb w). split; [now destruct w|apply retargeted_refl]. }
  step_in H x Hx. destruct (vec_lookup (fb w) t) as [op|] eqn:Eo; [|discriminate]. destruct op; try discriminate.
  apply modify_ok in H. subst w'. eexists. split; [reflexivity|]. split; [apply vec_update_length|].
  intros o p Ho. rewrite vec_lookup_update by (eapply vec_lookup_lt; eauto). destruct (decide (o = t)) as [->|Hne].
  - rewrite Eo in Ho. injection Ho as <-. eexists. split; [reflexivity|]. split; try reflexivity.
    + intros c [= ->] Hc. exists (c + extra). split; [reflexivity|lia].
    + intros c [= <-]. exists cost. split; [reflexivity|lia].
    + intros j pc Hj. discriminate.
  - exists p. split; [exact Ho|apply retargets_refl].
Qed.
End Retarget.

(** ** The invariant of the parser *)
Section Body.
Context (m : module) (type_aliases : list Z) (datacount : option Z) (_options : Options)
  (ft : func_type) (lt : LocalTypes.local_types_t) (L Rs : list Z) (B : Z) (RT : list Z).
Abbreviation comp := (comp m L Rs B).
Abbreviation cur := (cur L Rs).

(** The function's own scope: its results, [RT], are all it leaves. *)
Definition bottom (pcs : list pc_element_t) (segs : list (list Z)) : Prop :=
  match pcs with
  | [] => segs = [rev RT]
  | _ => exists e, list.last pcs = Some e /\ (end_types e = RT /\ is_if e = false) /\ list.last segs = Some []
  end.
Lemma bottom_top pcs s s' rest : pcs <> [] -> rest <> [] -> bottom pcs (s :: rest) -> bottom pcs (s' :: rest).
Proof. destruct pcs; [easy|]. destruct rest; [easy|]. intros _ _ H. exact H. Qed.
Lemma bottom_push e pcs s s1 sp rest : pcs <> [] -> rest <> [] -> bottom pcs (s :: rest) -> bottom (e :: pcs) (sp :: s1 :: rest).
Proof. destruct pcs; [easy|]. destruct rest; [easy|]. intros _ _ H. exact H. Qed.
Lemma bottom_pop e pcs s s1 rest : length rest = length pcs -> bottom (e :: pcs) (s :: s1 :: rest) -> bottom pcs ((rev (end_types e) ++ s1) :: rest).
Proof.
  destruct pcs as [|e1 pcs], rest as [|s2 rest]; try discriminate; intros _ (e0 & H1 & H2 & H3).
  - cbn in *. injection H1 as ->. injection H3 as ->. destruct H2 as [H2 _]. now rewrite H2, app_nil_r.
  - exists e0. auto.
Qed.
Definition same_end (e e' : pc_element_t) : Prop := end_types e' = end_types e /\ (is_if e = false -> is_if e' = false).
Lemma bottom_same pcs pcs' segs : Forall2 same_end pcs pcs' -> bottom pcs segs -> bottom pcs' segs.
Proof.
  intros H Hb. destruct H as [|e e' l l' He H]; [exact Hb|]. destruct Hb as (e0 & H1 & [H2 H2'] & H3).
  assert (Hl : exists e1, list.last (e' :: l') = Some e1 /\ end_types e1 = RT /\ is_if e1 = false).
  { revert e e' He H1. induction H as [|e2 e2' l l' He2 _ IH]; intros e e' [He He'] H1.
    - injection H1 as ->. exists e'. split; [reflexivity|]. split; [congruence|auto].
    - exact (IH e2 e2' He2 H1). }
  destruct Hl as (e1 & Hl & He1). exists e1. auto.
Qed.

Record Inv (s : pstate) (segs : list (list Z)) (G : typing) : Prop := {
  iv_comp : comp (-1) (op_index (code_writer s)) (pc_stack s) segs G (fb (code_writer s));
  iv_tracks : tracks (op_stack s) segs;
  iv_base : _base_offset (code_writer s) = B;
  iv_fits : 0 <= B /\ B + vec_size (fb (code_writer s)) < 2 ^ 32;
  iv_gas : Forall (Z.le 0) (loop_stack (gas_state s));
  iv_good : good (code s);
  iv_room : vec_size (fb (code_writer s)) = gp_bnds (code s);
  iv_max : forall o pt, type_at G o = Some pt -> vec_size (pt_stack pt) <= maximum_operand_depth (op_stack s);
  iv_bottom : bottom (pc_stack s) segs }.

(** Room for [k] more instructions than have been written. *)
Definition ahead (k : Z) (s : pstate) : Prop := op_index (code_writer s) + k <= gp_raw (code s).

(** The type of the code to come is within the tracked depth. *)
Lemma cur_depth t segs pt : tracks t segs -> cur segs = Some pt -> vec_size (pt_stack pt) <= maximum_operand_depth t.
Proof.
  intros Ht. unfold cur, Emission.cur. destruct (live segs) eqn:El; [|discriminate]. intros [= <-]. cbn.
  pose proof (tr_max _ _ Ht). rewrite (tr_depth _ _ Ht), (entries_live segs El) in H. unfold vec_size in *. now rewrite length_map.
Qed.
Lemma max_snoc t segs G M : tracks t segs -> M <= maximum_operand_depth t ->
  (forall o pt, type_at G o = Some pt -> vec_size (pt_stack pt) <= M) ->
  forall o pt, type_at (G ++ [cur segs]) o = Some pt -> vec_size (pt_stack pt) <= maximum_operand_depth t.
Proof.
  intros Ht HM H o pt Ho. apply type_at_snoc_inv in Ho as [Ho|[_ Ho]]; [specialize (H o pt Ho); lia|]. eapply cur_depth; eauto.
Qed.
Lemma max_update t segs G n c M : tracks t segs -> M <= maximum_operand_depth t -> vec_lookup G n = Some c ->
  (forall o pt, type_at G o = Some pt -> vec_size (pt_stack pt) <= M) ->
  forall o pt, type_at (vec_update G n (cur segs)) o = Some pt -> vec_size (pt_stack pt) <= maximum_operand_depth t.
Proof.
  intros Ht HM Hn H o pt. rewrite <- type_at_lookup, vec_lookup_update by (eapply vec_lookup_lt; eauto).
  destruct (decide (o = n)); [intros [= E]; eapply cur_depth; eauto|].
  rewrite type_at_lookup. intros Ho. specialize (H o pt Ho). lia.
Qed.

(** *** Instructions without branches *)
Lemma Inv_append s s' s0 s1 rest G op :
  Inv s (s0 :: rest) G -> pc_stack s <> [] -> rest <> [] -> op_index (code_writer s) < vec_size (fb (code_writer s)) ->
  code_writer s' = appended (code_writer s) op -> pc_stack s' = pc_stack s -> gas_state s' = gas_state s ->
  adv 0 (code s) (code s') -> tracks (op_stack s') (s1 :: rest) -> grows (op_stack s) (op_stack s') ->
  (live (s0 :: rest) = true -> exists nx, needs m (point_of L Rs (s0 :: rest)) op = Some (nx, []) /\
     (forall p, nx = Some p -> cur (s1 :: rest) = Some p) /\ (forall c, op = gas_charge_ c -> 0 < c)) ->
  Inv s' (s1 :: rest) (G ++ [cur (s1 :: rest)]).
Proof.
  intros [H1 H2 H3 H4 H5 H6 H7 H8 H9] Hpc Hrest Hlt Ew Ep Eg Ha Ht Hg Hn. split; rewrite ?Ew, ?Ep, ?Eg; cbn; auto.
  - set (n := op_index (code_writer s)) in *. eapply comp_close; [apply (comp_append m L Rs B n _ s0); [exact H1|exact Hlt]|].
    intros pt Hpt. exists op. rewrite vec_lookup_update by (destruct (cp_room _ _ _ _ _ _ _ _ _ _ H1); lia).
    destruct (decide (n = n)); [|congruence]. split; [reflexivity|].
    assert (Hc : cur (s0 :: rest) = Some pt).
    { apply type_at_snoc_inv in Hpt as [Hpt|[E _]]; [|pose proof (cp_size _ _ _ _ _ _ _ _ _ _ H1); lia].
      apply type_at_lookup in Hpt. rewrite (cp_cur _ _ _ _ _ _ _ _ _ _ H1) in Hpt. congruence. }
    unfold cur, Emission.cur in Hc. destruct (live (s0 :: rest)) eqn:El; [|discriminate]. injection Hc as <-.
    destruct (Hn eq_refl) as (nx & Hnd & Hnx & Hgc). exists nx, []. split; [exact Hnd|].
    assert (Htg : targets op = []).
    { revert Hnd. destruct op; try reflexivity; cbn [needs targets]; unfold option_map;
        repeat match goal with |- context [match ?x with _ => _ end] => destruct x eqn:? end; try discriminate.
      intros [= <- ?]. subst. destruct table; [reflexivity|]. cbn [table_points] in *.
      repeat match goal with H : context [match ?x with _ => _ end] |- _ => destruct x eqn:? end; discriminate. }
    rewrite Htg. split; [reflexivity|]. split; [|split; [discriminate|exact Hgc]].
    intros p Hp. apply type_at_lookup. rewrite vec_lookup_snoc; [f_equal; auto|apply H1].
  - now rewrite vec_update_size.
  - eapply adv_good; [exact H6| |exact Ha]. lia.
  - rewrite vec_update_size, H7. symmetry. apply Ha.
  - now apply (max_snoc _ _ _ (maximum_operand_depth (op_stack s))).
  - now apply (bottom_top _ s0).
Qed.

(** Before and after the case of an instruction. *)
Definition Pre (s : pstate) (s0 s1 : list Z) (rest : list (list Z)) (G : typing) : Prop :=
  Inv s (s0 :: s1 :: rest) G /\ pc_stack s <> [] /\ ahead 1 s.
Definition Post (s' : pstate) : Prop :=
  exists segs G, Inv s' segs G /\ ahead 0 s' /\ (pc_stack s' = [] -> gp_raw (code s') = gp_bnds (code s') /\ ahead 1 s').

(** The instruction takes operands [A] and leaves [R], top first. *)
Definition types_as (op : opcode) (A R : list Z) : Prop :=
  Forall valtype R /\ (forall c, op <> gas_charge_ c) /\
  forall ts pt, pt_locals pt = L -> pt_stack pt = map rep_type A ++ ts ->
    needs m pt op = Some (Some (with_stack pt (map rep_type R ++ ts)), []).

Lemma straight_post s s' s0 sA s1 rest G op A R :
  Pre s s0 s1 rest G -> op_index (code_writer s) < vec_size (fb (code_writer s)) ->
  code_writer s' = appended (code_writer s) op -> pc_stack s' = pc_stack s -> gas_state s' = gas_state s ->
  adv 0 (code s) (code s') -> takes A s0 sA -> tracks (op_stack s') ((R ++ sA) :: s1 :: rest) -> grows (op_stack s) (op_stack s') ->
  (live_seg s0 -> types_as op A R) -> Post s'.
Proof.
  intros (Hi & Hp & Ha) Hlt Ew Ep Eg Hadv Ht Htr Hg Hty. do 2 eexists. split; [|split].
  - eapply (Inv_append s s'); eauto. intros Hl. destruct (Hty (proj1 (proj1 (live_cons _ _) Hl))) as (HR & Hgc & Hn).
    destruct (takes_live _ _ _ _ Ht Hl) as [-> Hl'].
    eexists. rewrite (Hn (map rep_type (sA ++ concat (s1 :: rest)))); [|reflexivity|cbn [pt_stack point_of concat]; now rewrite <- app_assoc, map_app].
    split; [reflexivity|]. split; [|intros c ->; now destruct (Hgc c)]. intros p [= <-].
    unfold cur, Emission.cur. apply live_cons in Hl' as [Hs Hr].
    rewrite (proj2 (live_cons (R ++ sA) (s1 :: rest))); [|split; [apply Forall_app; auto|exact Hr]].
    unfold point_of, with_stack. cbn [pt_locals pt_results concat]. now rewrite <- app_assoc, map_app.
  - unfold ahead in *. rewrite Ew. cbn. destruct Hadv as (_ & _ & Hadv). lia.
  - rewrite Ep. intros E. contradiction.
Qed.

(** Straight-line instructions, by their type in [Typing]. *)
Definition plain (op : opcode) : bool :=
  match op with
  | unreachable_ | gas_charge_ _ | else_ _ | if_ _ | br_ _ _ | br_if_ _ _ _ | br_table_ _ _ | return_ _ _ _ | call_ _ | call_indirect_ _ => false
  | _ => true
  end.
Lemma plain_types op A R : plain op = true -> Forall valtype R ->
  (forall ts, step_type m L op (map rep_type A ++ ts) = Some (map rep_type R ++ ts)) -> types_as op A R.
Proof.
  intros Hp HR Hst. split; [exact HR|]. split; [now intros c ->|]. intros ts pt HL Hs.
  assert (Hn : needs m pt op = next_only (option_map (with_stack pt) (step_type m (pt_locals pt) op (pt_stack pt)))) by (destruct op; try discriminate Hp; reflexivity).
  now rewrite Hn, HL, Hs, Hst.
Qed.

Lemma strip_app A ts : strip A (A ++ ts) = Some ts.
Proof. induction A as [|a A IH]; [reflexivity|]. cbn. now rewrite Z.eqb_refl. Qed.
Lemma rep_value t : is_value_byte t = true -> rep_type t = t.
Proof. unfold is_value_byte, rep_type. rewrite !orb_true_iff, !Z.eqb_eq. now intros [[[->| ->]| ->]| ->]. Qed.

(** *** Numeric instructions *)
Definition numeric_ok (n : numeric) : bool :=
  match numeric_type (num_op n) with
  | Some (args, t) => bool_decide (args = num_args n) && (t =? num_result n) && forallb is_value_byte (num_args n) && is_value_byte t
  | None => false
  end.
Lemma numeric_tables : forallb numeric_ok (numeric_ops ++ extend_ops ++ trunc_sat_ops) = true.
Proof. vm_compute. reflexivity. Qed.
Lemma numeric_types n : numeric_ok n = true -> Forall valtype (num_args n) /\ valtype (num_result n) /\
  types_as (num_op n) (num_args n) [num_result n].
Proof.
  unfold numeric_ok. destruct (numeric_type (num_op n)) as [[args t]|] eqn:En; [|discriminate].
  rewrite !andb_true_iff, bool_decide_eq_true, Z.eqb_eq. intros [[[-> ->] Ha] Ht].
  assert (Hmap : map rep_type (num_args n) = num_args n).
  { clear -Ha. induction (num_args n) as [|a l IH]; [reflexivity|]. cbn in *. apply andb_true_iff in Ha as [Ha Hl].
    now rewrite rep_value, IH. }
  assert (Hv : valtype (num_result n)) by (unfold valtype, is_valtype; now rewrite Ht).
  split; [|split; [exact Hv|]].
  - rewrite forallb_forall in Ha. apply List.Forall_forall. intros x Hx. unfold valtype, is_valtype. now rewrite (Ha x Hx).
  - apply plain_types; [destruct (num_op n); try discriminate En; reflexivity|auto|].
    intros ts. rewrite Hmap. cbn [map]. rewrite (rep_value _ Ht). unfold step_type, instr_type.
    destruct (num_op n) eqn:E; try discriminate En; rewrite En; cbn [option_map]; now rewrite strip_app.
Qed.
Lemma pops_push_tracks A r t t1 t2 u1 u2 s rest : tracks t (s :: rest) -> Forall valtype A -> valtype r ->
  pops A t = Ok u1 t1 -> push r t1 = Ok u2 t2 ->
  exists sA, takes A s sA /\ tracks t2 (([r] ++ sA) :: rest) /\ grows t t2.
Proof.
  intros Ht HA Hr H1 H2. destruct (pops_tracks A t t1 _ s rest Ht HA H1) as (sA & Ht1 & Hs & Hg1).
  destruct (push_tracks r t1 t2 _ sA rest Ht1 (or_introl Hr) H2) as [Ht2 Hg2]. exists sA.
  split; [exact Hs|]. split; [exact Ht2|unfold grows in *; lia].
Qed.

Lemma numeric_post n s s' u s0 s1 rest G : numeric_ok n = true -> Pre s s0 s1 rest G -> parse_numeric n s = Ok u s' -> Post s'.
Proof.
  intros Hn Hpre H. destruct (numeric_types n Hn) as (HA & Hr & Hty). unfold parse_numeric in H.
  step_in H a1 H1. step_in H a2 H2. step_in H a3 H3. apply on_stack_ok in H as (t' & H & ->).
  apply emit_op_ok in H2 as [Hlt ->]. pose proof Hpre as (Hi & _ & _).
  destruct (pops_push_tracks _ _ _ _ _ _ _ _ _ (iv_tracks _ _ _ Hi) HA Hr H3 H) as (sA & Hs & Ht & Hg).
  eapply (straight_post s); eauto; try reflexivity. apply adv_refl, Hi.
Qed.
Lemma extend_post n s s' u s0 s1 rest G : numeric_ok n = true -> Pre s s0 s1 rest G -> parse_extend _options n s = Ok u s' -> Post s'.
Proof.
  intros Hn Hpre H. unfold parse_extend in H. step_in H a1 H1. step_in H a2 H2.
  eapply (numeric_post n s); eauto. unfold parse_numeric, bind at 1. destruct Hpre as (_ & Hp & _).
  unfold check_in_bounds, bind at 1, get, parse_check at 1. rewrite bool_decide_eq_false_2 by exact Hp. exact H.
Qed.
Lemma trunc_sat_post n s s' u s0 s1 rest G : numeric_ok n = true -> Pre s s0 s1 rest G -> parse_trunc_sat _options n s = Ok u s' -> Post s'.
Proof.
  intros Hn Hpre H. destruct (numeric_types n Hn) as (HA & Hr & Hty). unfold parse_trunc_sat in H.
  step_in H a1 H1. step_in H a2 H2. step_in H a3 H3. step_in H a4 H4. apply on_writer_ok in H as (w' & H & ->).
  apply emit_op_ok in H as [Hlt ->]. pose proof Hpre as (Hi & _ & _).
  destruct (pops_push_tracks _ _ _ _ _ _ _ _ _ (iv_tracks _ _ _ Hi) HA Hr H3 H4) as (sA & Hs & Ht & Hg).
  eapply (straight_post s); eauto; try reflexivity. apply adv_refl, Hi.
Qed.

(** *** Constants *)
Lemma const_post (read : M guarded_ptr Z) emit type s s' u s0 s1 rest G : is_value_byte type = true ->
  (forall g g' v, good g -> read g = Ok v g' -> adv 0 g g' /\ plain (emit v) = true /\ forall ts, step_type m L (emit v) ts = Some (type :: ts)) ->
  Pre s s0 s1 rest G -> parse_const read emit type s = Ok u s' -> Post s'.
Proof.
  intros Hv Hread Hpre H. unfold parse_const in H. step_in H a1 H1. step_in H a2 H2. apply on_stack_ok in H as (t' & H & ->).
  apply emit_op_ok in H2 as [Hlt ->]. pose proof Hpre as (Hi & _ & _). destruct (Hread _ _ _ (iv_good _ _ _ Hi) H1) as (Ha & Hpl & Hst).
  assert (Hvt : valtype type) by (unfold valtype, is_valtype; now rewrite Hv).
  destruct (push_tracks _ _ _ _ _ _ (iv_tracks _ _ _ Hi) (or_introl Hvt) H) as [Ht Hg].
  apply (straight_post s _ s0 s0 s1 rest G (emit a1) [] [type]); auto; try reflexivity.
  - apply takes_nil. pose proof (tr_segs _ _ (iv_tracks _ _ _ Hi)) as Hs. now inversion Hs.
  - intros _. apply plain_types; auto. intros ts. cbn [map app]. now rewrite (rep_value _ Hv), Hst.
Qed.
Lemma in_u_fits w v : in_u w v -> fits w v = true.
Proof. unfold in_u, fits. intros [? ?]. rewrite andb_true_iff, Z.leb_le, Z.ltb_lt. auto. Qed.
Lemma adv_weaken k g g' : 0 <= k -> adv k g g' -> adv 0 g g'.
Proof. unfold adv. intros Hk (? & ? & ?). repeat split; auto; lia. Qed.

Lemma seg_ok_top s s0 s1 rest G : Pre s s0 s1 rest G -> seg_ok s0.
Proof. intros (Hi & _). pose proof (tr_segs _ _ (iv_tracks _ _ _ Hi)) as Hs. now inversion Hs. Qed.
Lemma takes_none s s0 s1 rest G : Pre s s0 s1 rest G -> takes [] s0 s0.
Proof. intros H. eapply takes_nil, seg_ok_top, H. Qed.
Lemma valtype_i32 : valtype types.i32. Proof. reflexivity. Qed.
Hint Resolve valtype_i32 : core.

Lemma nop_post s s' u s0 s1 rest G : Pre s s0 s1 rest G -> on_writer emit_nop s = Ok u s' -> Post s'.
Proof.
  intros Hpre H. apply on_writer_ok in H as (w & H & ->). apply emit_op_ok in H as [Hlt ->]. pose proof Hpre as (Hi & _).
  apply (straight_post s _ s0 s0 s1 rest G nop_ [] [] Hpre Hlt); [reflexivity|reflexivity|reflexivity|cbn..].
  - exact (adv_refl _ (iv_good _ _ _ Hi)).
  - exact (takes_none _ _ _ _ _ Hpre).
  - apply Hi.
  - unfold grows; lia.
  - intros _; now apply plain_types.
Qed.
Lemma unreachable_post s s' u s0 s1 rest G : Pre s s0 s1 rest G ->
  (check_in_bounds ;;; on_writer emit_unreachable ;;; on_stack start_unreachable) s = Ok u s' -> Post s'.
Proof.
  intros Hpre H. step_in H a1 H1. step_in H a2 H2. apply on_stack_ok in H as (t & H & ->). apply emit_op_ok in H2 as [Hlt ->].
  pose proof Hpre as (Hi & Hp & Ha). destruct (start_unreachable_tracks _ _ _ _ _ (iv_tracks _ _ _ Hi) ltac:(discriminate) H) as [Ht Hg].
  do 2 eexists. split; [|split].
  - eapply (Inv_append s _ s0 _ (s1 :: rest) G unreachable_); eauto; try reflexivity; [apply adv_refl, Hi|].
    intros _. exists None. split; [reflexivity|]. split; discriminate.
  - unfold ahead in *. cbn. lia.
  - cbn. contradiction.
Qed.

Lemma drop_post s s' u s0 s1 rest G : Pre s s0 s1 rest G -> parse_drop s = Ok u s' -> Post s'.
Proof.
  intros Hpre H. unfold parse_drop in H. step_in H a1 H1. step_in H a2 H2. apply on_writer_ok in H as (w & H & ->).
  apply emit_op_ok in H as [Hlt ->]. pose proof Hpre as (Hi & _).
  destruct (pop_any_tracks _ _ _ _ _ (iv_tracks _ _ _ Hi) H2) as (sA & Ht & Hg & Hs & _).
  apply (straight_post s _ s0 sA s1 rest G drop_ [a2] [] Hpre Hlt); [reflexivity|reflexivity|reflexivity|cbn..].
  - exact (adv_refl _ (iv_good _ _ _ Hi)).
  - exact Hs.
  - exact Ht.
  - exact Hg.
  - intros _; now apply plain_types.
Qed.

Lemma select_post s s' u s0 s1 rest G : Pre s s0 s1 rest G -> parse_select s = Ok u s' -> Post s'.
Proof.
  intros Hpre H. unfold parse_select in H. step_in H a1 H1. step_in H a2 H2. step_in H v0 H3. step_in H v1 H4.
  step_in H a5 H5. step_in H a6 H6. step_in H a7 H7. apply on_writer_ok in H as (w & H & ->).
  apply emit_op_ok in H as [Hlt ->]. pose proof Hpre as (Hi & _).
  destruct (pop_tracks _ _ _ _ _ _ (iv_tracks _ _ _ Hi) valtype_i32 H2) as (sA & Ht & Hs & Hg).
  destruct (pop_any_tracks _ _ _ _ _ Ht H3) as (sB & HtB & HgB & HsB & HB).
  destruct (pop_any_tracks _ _ _ _ _ HtB H4) as (sC & HtC & HgC & HsC & HC).
  set (r := if negb (v0 =? any_type) then v0 else v1) in *.
  assert (Hrr : pushable r sC).
  { unfold r. destruct (Z.eqb_spec v0 any_type) as [E|E]; cbn [negb].
    - destruct HC as [?|[-> HC]]; [now left|]. right. split; [reflexivity|]. destruct HsC as [[Hl _]|[_ ?]]; [|auto].
      destruct (live_not_dead _ Hl HC).
    - left. destruct HB as [?|[? _]]; [auto|contradiction]. }
  destruct (push_tracks _ _ _ _ _ _ HtC Hrr H7) as [HtD HgD].
  apply (straight_post s _ s0 sC s1 rest G select_ [types.i32; v0; v1] [r] Hpre Hlt); [reflexivity|reflexivity|reflexivity|cbn..].
  - exact (adv_refl _ (iv_good _ _ _ Hi)).
  - exact (takes_app [types.i32] [v0; v1] _ _ _ Hs (takes_app [v0] [v1] _ _ _ HsB HsC)).
  - exact HtD.
  - unfold grows in *. lia.
  - intros Hl. destruct Hs as [[_ ->]|[Hd _]]; [|destruct (live_not_dead _ Hl Hd)]. inversion Hl as [|? ? _ HlA]. subst.
    destruct HB as [HB|[_ HB]]; [|destruct (live_not_dead _ HlA HB)].
    destruct HsB as [[_ ->]|[Hd _]]; [|destruct (live_not_dead _ HlA Hd)]. inversion HlA as [|? ? _ HlB]. subst.
    destruct HC as [HC|[_ HC]]; [|destruct (live_not_dead _ HlB HC)].
    destruct (valtype_cases v0 HB) as (_ & _ & N0 & _). destruct (valtype_cases v1 HC) as (_ & _ & N1 & _).
    apply Z.eqb_neq in N0, N1. rewrite N0, N1, !orb_false_r, Z.eqb_eq in H5. subst v1. unfold r. rewrite N0. cbn [negb].
    apply plain_types; [reflexivity|auto|]. intros ts. cbn. now rewrite Z.eqb_refl.
Qed.

(** *** Variables and references *)
Definition locals_typed : Prop := forall i t (s s' : pstate), LocalTypes.index lt i s = Ok t s' ->
  s' = s /\ vec_lookup L i = Some (rep_type t) /\ valtype t.
Context (Hlocals : locals_typed).
Context (Hglobals : Forall (fun g => valtype (content_type (gv_type g))) (m_globals m)).

Lemma get_local_post s s' u s0 s1 rest G : Pre s s0 s1 rest G -> parse_get_local lt s = Ok u s' -> Post s'.
Proof.
  intros Hpre H. unfold parse_get_local in H. step_in H i H1. step_in H t H2. apply Hlocals in H2 as (-> & Hi2 & Hv).
  step_in H a3 H3. apply on_writer_ok in H as (w & H & ->). apply emit_op_ok in H as [Hlt ->]. pose proof Hpre as (Hi & _).
  destruct (push_tracks _ _ _ _ _ _ (iv_tracks _ _ _ Hi) (or_introl Hv) H3) as [Ht Hg].
  destruct (varuint_adv 32 _ _ _ (or_introl eq_refl) (iv_good _ _ _ Hi) H1) as [Ha _].
  apply (straight_post s _ s0 s0 s1 rest G (get_local_ i) [] [t] Hpre Hlt); [reflexivity|reflexivity|reflexivity|cbn..].
  - now apply (adv_weaken 1).
  - exact (takes_none _ _ _ _ _ Hpre).
  - exact Ht.
  - exact Hg.
  - intros _; apply plain_types; [reflexivity|auto|]; intros ts; cbn; now rewrite Hi2.
Qed.
Lemma set_local_post s s' u s0 s1 rest G : Pre s s0 s1 rest G -> parse_set_local lt s = Ok u s' -> Post s'.
Proof.
  intros Hpre H. unfold parse_set_local in H. step_in H b Hb. step_in H i H1. step_in H t H2. apply Hlocals in H2 as (-> & Hi2 & Hv).
  step_in H a3 H3. apply on_writer_ok in H as (w & H & ->). apply emit_op_ok in H as [Hlt ->]. pose proof Hpre as (Hi & _).
  destruct (pop_tracks _ _ _ _ _ _ (iv_tracks _ _ _ Hi) Hv H3) as (sA & Ht & Hs & Hg).
  destruct (varuint_adv 32 _ _ _ (or_introl eq_refl) (iv_good _ _ _ Hi) H1) as [Ha _].
  apply (straight_post s _ s0 sA s1 rest G (set_local_ i) [t] [] Hpre Hlt); [reflexivity|reflexivity|reflexivity|cbn..].
  - now apply (adv_weaken 1).
  - exact Hs.
  - exact Ht.
  - exact Hg.
  - intros _; apply plain_types; [reflexivity|auto|]; intros ts; cbn; now rewrite Hi2, Z.eqb_refl.
Qed.
Lemma top_tracks e t t' u s rest : tracks t (s :: rest) -> valtype e -> top e t = Ok u t' ->
  exists sA, takes [e] s sA /\ tracks t' (([e] ++ sA) :: rest) /\ grows t t'.
Proof.
  intros Ht He H. unfold top in H. step_in H a1 H1. destruct (pop_tracks _ _ _ _ _ _ Ht He H1) as (sA & Ht1 & Hs & Hg1).
  destruct (push_tracks _ _ _ _ _ _ Ht1 (or_introl He) H) as [Ht2 Hg2]. exists sA. split; [exact Hs|]. split; [exact Ht2|unfold grows in *; lia].
Qed.
Lemma tee_local_post s s' u s0 s1 rest G : Pre s s0 s1 rest G -> parse_tee_local lt s = Ok u s' -> Post s'.
Proof.
  intros Hpre H. unfold parse_tee_local in H. step_in H b Hb. step_in H i H1. step_in H t H2. apply Hlocals in H2 as (-> & Hi2 & Hv).
  step_in H a3 H3. apply on_writer_ok in H as (w & H & ->). apply emit_op_ok in H as [Hlt ->]. pose proof Hpre as (Hi & _).
  destruct (top_tracks _ _ _ _ _ _ (iv_tracks _ _ _ Hi) Hv H3) as (sA & Hs & Ht & Hg).
  destruct (varuint_adv 32 _ _ _ (or_introl eq_refl) (iv_good _ _ _ Hi) H1) as [Ha _].
  apply (straight_post s _ s0 sA s1 rest G (tee_local_ i) [t] [t] Hpre Hlt); [reflexivity|reflexivity|reflexivity|cbn..].
  - now apply (adv_weaken 1).
  - exact Hs.
  - exact Ht.
  - exact Hg.
  - intros _; apply plain_types; [reflexivity|auto|]; intros ts; cbn; now rewrite Hi2, Z.eqb_refl.
Qed.
Lemma global_at_ok i s g s' : global_at m i s = Ok g s' -> s' = s /\ valtype (content_type g) /\
  exists gv, vec_lookup (m_globals m) i = Some gv /\ gv_type gv = g.
Proof.
  intros H. unfold global_at in H. step_in H a1 H1. step_in H gv H2. apply ret_ok in H as [-> ->]. split; [reflexivity|].
  split; [|eauto]. apply vec_lookup_Some in H2 as [_ H2]. exact (Forall_lookup_1 _ _ _ _ Hglobals H2).
Qed.
Lemma get_global_post s s' u s0 s1 rest G : Pre s s0 s1 rest G -> parse_get_global m s = Ok u s' -> Post s'.
Proof.
  intros Hpre H. unfold parse_get_global in H. step_in H i H1. step_in H t H2. apply global_at_ok in H2 as (-> & Hv & gv & Hgv & <-).
  step_in H a3 H3. apply on_writer_ok in H as (w & H & ->). apply emit_op_ok in H as [Hlt ->]. pose proof Hpre as (Hi & _).
  destruct (push_tracks _ _ _ _ _ _ (iv_tracks _ _ _ Hi) (or_introl Hv) H3) as [Ht Hg].
  destruct (varuint_adv 32 _ _ _ (or_introl eq_refl) (iv_good _ _ _ Hi) H1) as [Ha _].
  apply (straight_post s _ s0 s0 s1 rest G (get_global_ i) [] [content_type (gv_type gv)] Hpre Hlt); [reflexivity|reflexivity|reflexivity|cbn..].
  - now apply (adv_weaken 1).
  - exact (takes_none _ _ _ _ _ Hpre).
  - exact Ht.
  - exact Hg.
  - intros _; apply plain_types; [reflexivity|auto|]; intros ts; cbn; now rewrite Hgv.
Qed.
Lemma set_global_post s s' u s0 s1 rest G : Pre s s0 s1 rest G -> parse_set_global m s = Ok u s' -> Post s'.
Proof.
  intros Hpre H. unfold parse_set_global in H. step_in H b Hb. step_in H i H1. step_in H t H2. apply global_at_ok in H2 as (-> & Hv & gv & Hgv & <-).
  step_in H b1 Hm. step_in H a3 H3. apply on_writer_ok in H as (w & H & ->). apply emit_op_ok in H as [Hlt ->]. pose proof Hpre as (Hi & _).
  destruct (pop_tracks _ _ _ _ _ _ (iv_tracks _ _ _ Hi) Hv H3) as (sA & Ht & Hs & Hg).
  destruct (varuint_adv 32 _ _ _ (or_introl eq_refl) (iv_good _ _ _ Hi) H1) as [Ha _].
  apply (straight_post s _ s0 sA s1 rest G (set_global_ i) [content_type (gv_type gv)] [] Hpre Hlt); [reflexivity|reflexivity|reflexivity|cbn..].
  - now apply (adv_weaken 1).
  - exact Hs.
  - exact Ht.
  - exact Hg.
  - intros _; apply plain_types; [reflexivity|auto|]; intros ts; cbn [step_type instr_type]; rewrite Hgv, Hm; cbn [strip map app]; now rewrite Z.eqb_refl.
Qed.

Lemma typed_select_post s s' u s0 s1 rest G :
  (forall v s2, (varuint32 ;;; next_byte) s = Ok v s2 -> valtype v) ->
  Pre s s0 s1 rest G -> parse_typed_select s = Ok u s' -> Post s'.
Proof.
  intros Hsup Hpre H. unfold parse_typed_select in H. step_in H b Hb. step_in H n H1. step_in H b1 Hn. step_in H v H2.
  step_in H a3 H3. step_in H a4 H4. step_in H a5 H5. step_in H a6 H6. apply on_writer_ok in H as (w & H & ->).
  apply emit_op_ok in H as [Hlt ->]. pose proof Hpre as (Hi & _).
  assert (Hv : valtype v).
  { apply (Hsup v (s <| code := g |> <| code := g0 |>)). unfold bind, varuint32, next_byte, on_code, zoom. rewrite H1. change (code (s <| code := g |>)) with g in *. now rewrite H2. }
  destruct (varuint_adv 32 _ _ _ (or_introl eq_refl) (iv_good _ _ _ Hi) H1) as [Ha1 _].
  destruct (next_adv _ _ _ (adv_good 1 _ _ (iv_good _ _ _ Hi) ltac:(lia) Ha1) H2) as [Ha2 _].
  assert (HA : Forall valtype [types.i32; v; v]) by (repeat constructor; auto).
  assert (Hp : pops [types.i32; v; v] (op_stack s) = Ok tt t1).
  { change (pop types.i32 (op_stack s) = Ok a3 t) in H3. change (pop v t = Ok a4 t0) in H4. change (pop v t0 = Ok a5 t1) in H5.
    cbn [pops]. unfold bind. rewrite H3, H4, H5. reflexivity. }
  destruct (pops_push_tracks _ _ _ _ _ _ _ _ _ (iv_tracks _ _ _ Hi) HA Hv Hp H6) as (sA & Hs & Ht & Hg).
  apply (straight_post s _ s0 sA s1 rest G select_ [types.i32; v; v] [v] Hpre Hlt); [reflexivity|reflexivity|reflexivity|cbn..].
  - apply (adv_weaken (1 + 1)); [lia|]. exact (adv_trans 1 1 _ _ _ Ha1 Ha2).
  - exact Hs.
  - exact Ht.
  - exact Hg.
  - intros _; apply plain_types; [reflexivity|auto|]. intros ts. cbn [step_type map app]. change (rep_type types.i32 =? types.i32) with true.
    now rewrite Z.eqb_refl.
Qed.

Lemma skip_leb_ok n : forall s u s', good (code s) -> skip_leb n s = Ok u s' -> exists g, s' = s <| code := g |> /\ adv 0 (code s) g.
Proof.
  induction n as [|n IH]; intros s u s' Hg H; cbn [skip_leb] in H; [discriminate|]. step_in H b Hb.
  destruct (next_adv _ _ _ Hg Hb) as [Ha _]. destruct (negb _).
  - pose proof (adv_good 1 _ _ Hg ltac:(lia) Ha) as Hg'. specialize (IH (s <| code := g |>) u s' Hg' H). destruct IH as (g' & -> & Ha'). exists g'. split; [reflexivity|].
    apply (adv_weaken (1 + 0)); [lia|]. exact (adv_trans 1 0 _ _ _ Ha Ha').
  - apply ret_ok in H as [_ ->]. exists g. split; [reflexivity|]. now apply (adv_weaken 1).
Qed.
Lemma ref_null_post s s' u s0 s1 rest G : Pre s s0 s1 rest G -> parse_ref_null s = Ok u s' -> Post s'.
Proof.
  intros Hpre H. unfold parse_ref_null in H. step_in H b Hb. step_in H v H1. pose proof Hpre as (Hi & _).
  destruct (next_adv _ _ _ (iv_good _ _ _ Hi) H1) as [Ha _].
  apply bind_ok in H as (r & s2 & H2 & H).
  assert (Hr : valtype r /\ rep_type r = types.i32 /\ exists g', s2 = s <| code := g' |> /\ adv 0 (code s) g').
  { destruct (v =? types.externref); [apply ret_ok in H2 as [-> ->]; split; [reflexivity|]; split; [reflexivity|]; exists g; split; [reflexivity|now apply (adv_weaken 1)]|].
    destruct (v =? types.funcref); [apply ret_ok in H2 as [-> ->]; split; [reflexivity|]; split; [reflexivity|]; exists g; split; [reflexivity|now apply (adv_weaken 1)]|].
    destruct (v <? 0x80); [apply ret_ok in H2 as [-> ->]; split; [reflexivity|]; split; [reflexivity|]; exists g; split; [reflexivity|now apply (adv_weaken 1)]|].
    apply bind_ok in H2 as (x & s3 & H2 & H3). apply ret_ok in H3 as [-> ->]. split; [reflexivity|]. split; [reflexivity|].
    unfold skip_continuation in H2. step_in H2 y Hy. pose proof (adv_good 1 _ _ (iv_good _ _ _ Hi) ltac:(lia) Ha) as Hg'. apply skip_leb_ok in H2 as (g' & -> & Ha'); [|exact Hg'].
    exists g'. split; [reflexivity|]. apply (adv_weaken (1 + 0)); [lia|]. exact (adv_trans 1 0 _ _ _ Ha Ha'). }
  destruct Hr as (Hv & Hrep & g' & -> & Ha'). step_in H a3 H3. apply on_writer_ok in H as (w & H & ->). apply emit_op_ok in H as [Hlt ->].
  destruct (push_tracks _ _ _ _ _ _ (iv_tracks _ _ _ Hi) (or_introl Hv) H3) as [Ht Hg].
  apply (straight_post s _ s0 s0 s1 rest G (ref_null_ r) [] [r] Hpre Hlt); [reflexivity|reflexivity|reflexivity|cbn..].
  - exact Ha'.
  - exact (takes_none _ _ _ _ _ Hpre).
  - exact Ht.
  - exact Hg.
  - intros _; apply plain_types; [reflexivity|auto|]. intros ts. cbn [map]. now rewrite Hrep.
Qed.
Lemma ref_is_null_post s s' u s0 s1 rest G : Pre s s0 s1 rest G -> parse_ref_is_null s = Ok u s' -> Post s'.
Proof.
  intros Hpre H. unfold parse_ref_is_null in H. step_in H b Hb. step_in H r H1. step_in H b1 H2. step_in H a3 H3.
  apply on_writer_ok in H as (w & H & ->). apply emit_op_ok in H as [Hlt ->]. pose proof Hpre as (Hi & _).
  destruct (pop_any_tracks _ _ _ _ _ (iv_tracks _ _ _ Hi) H1) as (sA & Ht & Hg & Hs & Hr).
  destruct (push_tracks _ _ _ _ _ _ Ht (or_introl valtype_i32) H3) as [Ht2 Hg2].
  apply (straight_post s _ s0 sA s1 rest G ref_is_null_ [r] [types.i32] Hpre Hlt); [reflexivity|reflexivity|reflexivity|cbn..].
  - exact (adv_refl _ (iv_good _ _ _ Hi)).
  - exact Hs.
  - exact Ht2.
  - unfold grows in *. lia.
  - intros Hl. destruct Hr as [Hr|[_ Hd]]; [|destruct (live_not_dead _ Hl Hd)]. destruct (valtype_cases r Hr) as (_ & _ & Hn & _).
    apply Z.eqb_neq in Hn. rewrite Hn, orb_false_r, orb_true_iff, !Z.eqb_eq in H2.
    apply plain_types; [reflexivity|auto|]. intros ts. destruct H2 as [->| ->]; reflexivity.
Qed.
Lemma ref_func_post s s' u s0 s1 rest G : Pre s s0 s1 rest G -> parse_ref_func m s = Ok u s' -> Post s'.
Proof.
  intros Hpre H. unfold parse_ref_func in H. step_in H b Hb. step_in H i H1. step_in H b1 H2. step_in H a3 H3.
  apply on_writer_ok in H as (w & H & ->). apply emit_op_ok in H as [Hlt ->]. pose proof Hpre as (Hi & _).
  destruct (varuint_adv 32 _ _ _ (or_introl eq_refl) (iv_good _ _ _ Hi) H1) as [Ha Hin].
  destruct (push_tracks types.funcref _ _ _ _ _ (iv_tracks _ _ _ Hi) (or_introl eq_refl) H3) as [Ht Hg].
  apply (straight_post s _ s0 s0 s1 rest G (ref_func_ i) [] [types.funcref] Hpre Hlt); [reflexivity|reflexivity|reflexivity|cbn..].
  - now apply (adv_weaken 1).
  - exact (takes_none _ _ _ _ _ Hpre).
  - exact Ht.
  - exact Hg.
  - intros _; apply plain_types; [reflexivity|repeat constructor|]. intros ts. cbn [step_type instr_type]. now rewrite (in_u_fits _ _ Hin).
Qed.

(** *** Memory *)
Context (Hmem : mem_addr_type m = types.i32).

Lemma parse_memarg_ok max_align s a s' : good (code s) -> parse_memarg m _options max_align s = Ok a s' ->
  exists g, s' = s <| code := g |> /\ adv 0 (code s) g /\ in_u 32 (mem_offset a).
Proof.
  intros Hg H. unfold parse_memarg in H. step_in H b Hb. step_in H al H1. unfold parse_memarg_offset in H. rewrite Hmem in H.
  change (types.i32 =? types.i64) with false in H. cbv iota in H. step_in H off H2. step_in H b1 H3. step_in H b2 H4. apply ret_ok in H as [-> ->].
  destruct (varuint_adv 32 _ _ _ (or_introl eq_refl) Hg H1) as [Ha _].
  destruct (varuint_adv 32 _ _ _ (or_introl eq_refl) (adv_good 1 _ _ Hg ltac:(lia) Ha) H2) as [Ha2 Hin].
  exists g0. split; [reflexivity|]. split; [|exact Hin]. apply (adv_weaken (1 + 1)); [lia|]. exact (adv_trans 1 1 _ _ _ Ha Ha2).
Qed.
Lemma load_tables : forallb (fun '(o, _, t) => (t =? load_type o) && is_value_byte t) load_ops = true /\
  forallb (fun '(o, _, t) => (t =? store_type o) && is_value_byte t) store_ops = true.
Proof. split; reflexivity. Qed.
Lemma load_post op al t s s' u s0 s1 rest G : t = load_type op -> is_value_byte t = true -> Pre s s0 s1 rest G ->
  parse_load m _options op al t s = Ok u s' -> Post s'.
Proof.
  intros Ht Hvb Hpre H. unfold parse_load in H. step_in H b Hb. apply bind_ok in H as (a & s2 & H1 & H). pose proof Hpre as (Hi & _).
  destruct (parse_memarg_ok _ _ _ _ (iv_good _ _ _ Hi) H1) as (g & -> & Ha & Hin). rewrite Hmem in H. step_in H a3 H3. step_in H a4 H4.
  apply on_writer_ok in H as (w & H & ->). apply emit_op_ok in H as [Hlt ->].
  assert (Hv : valtype t) by (unfold valtype, is_valtype; now rewrite Hvb).
  destruct (pop_tracks _ _ _ _ _ _ (iv_tracks _ _ _ Hi) valtype_i32 H3) as (sA & Ht1 & Hs & Hg).
  destruct (push_tracks _ _ _ _ _ _ Ht1 (or_introl Hv) H4) as [Ht2 Hg2].
  apply (straight_post s _ s0 sA s1 rest G (load_ op a) [types.i32] [t] Hpre Hlt); [reflexivity|reflexivity|reflexivity|cbn..].
  - exact Ha.
  - exact Hs.
  - exact Ht2.
  - unfold grows in *. lia.
  - intros _; apply plain_types; [reflexivity|auto|]. intros ts. cbn [map]. rewrite (rep_value _ Hvb). cbn [step_type instr_type].
    rewrite (in_u_fits _ _ Hin), Ht. reflexivity.
Qed.
Lemma store_post op al t s s' u s0 s1 rest G : t = store_type op -> is_value_byte t = true -> Pre s s0 s1 rest G ->
  parse_store m _options op al t s = Ok u s' -> Post s'.
Proof.
  intros Ht Hvb Hpre H. unfold parse_store in H. step_in H b Hb. apply bind_ok in H as (a & s2 & H1 & H). pose proof Hpre as (Hi & _).
  destruct (parse_memarg_ok _ _ _ _ (iv_good _ _ _ Hi) H1) as (g & -> & Ha & Hin). rewrite Hmem in H. step_in H a3 H3. step_in H a4 H4.
  apply on_writer_ok in H as (w & H & ->). apply emit_op_ok in H as [Hlt ->].
  assert (Hv : valtype t) by (unfold valtype, is_valtype; now rewrite Hvb).
  destruct (pop_tracks _ _ _ _ _ _ (iv_tracks _ _ _ Hi) Hv H3) as (sA & Ht1 & Hs & Hg).
  destruct (pop_tracks _ _ _ _ _ _ Ht1 valtype_i32 H4) as (sB & Ht2 & Hs2 & Hg2).
  apply (straight_post s _ s0 sB s1 rest G (store_ op a) [t; types.i32] [] Hpre Hlt); [reflexivity|reflexivity|reflexivity|cbn..].
  - exact Ha.
  - exact (takes_app [t] [types.i32] _ _ _ Hs Hs2).
  - exact Ht2.
  - unfold grows in *. lia.
  - intros _; apply plain_types; [reflexivity|auto|]. intros ts. cbn [map]. rewrite (rep_value _ Hvb). cbn [step_type instr_type].
    rewrite (in_u_fits _ _ Hin), Ht. cbn [strip app]. now rewrite Z.eqb_refl.
Qed.
Lemma zero_byte_ok msg s u s' : good (code s) -> zero_byte msg s = Ok u s' -> exists g, s' = s <| code := g |> /\ adv 0 (code s) g.
Proof.
  intros Hg H. unfold zero_byte in H. step_in H b Hb. destruct (current_same _ _ _ Hg Hb) as [-> _]. step_in H b1 H1.
  apply on_code_ok in H as (g & H & ->). apply incr_adv in H; [|exact Hg]. exists g. split; [reflexivity|]. now apply (adv_weaken 1).
Qed.
Lemma current_memory_post s s' u s0 s1 rest G : Pre s s0 s1 rest G -> parse_current_memory m s = Ok u s' -> Post s'.
Proof.
  intros Hpre H. unfold parse_current_memory, require_memory in H. rewrite Hmem in H. step_in H b Hb. step_in H a2 H2. pose proof Hpre as (Hi & _).
  apply bind_ok in H as (x & s3 & H3 & H). apply zero_byte_ok in H3 as (g & -> & Ha); [|exact (iv_good _ _ _ Hi)].
  apply on_writer_ok in H as (w & H & ->). apply emit_op_ok in H as [Hlt ->].
  destruct (push_tracks _ _ _ _ _ _ (iv_tracks _ _ _ Hi) (or_introl valtype_i32) H2) as [Ht Hg].
  apply (straight_post s _ s0 s0 s1 rest G current_memory_ [] [types.i32] Hpre Hlt); [reflexivity|reflexivity|reflexivity|cbn..].
  - exact Ha.
  - exact (takes_none _ _ _ _ _ Hpre).
  - exact Ht.
  - exact Hg.
  - intros _; apply plain_types; auto.
Qed.
Lemma grow_memory_post s s' u s0 s1 rest G : Pre s s0 s1 rest G -> parse_grow_memory m s = Ok u s' -> Post s'.
Proof.
  intros Hpre H. unfold parse_grow_memory, require_memory in H. rewrite Hmem in H. step_in H b Hb. step_in H b1 Hb1. step_in H a2 H2. step_in H a3 H3.
  pose proof Hpre as (Hi & _). apply bind_ok in H as (x & s3 & H4 & H).
  apply zero_byte_ok in H4 as (g & -> & Ha); [|exact (iv_good _ _ _ Hi)].
  apply on_writer_ok in H as (w & H & ->). apply emit_op_ok in H as [Hlt ->].
  destruct (pop_tracks _ _ _ _ _ _ (iv_tracks _ _ _ Hi) valtype_i32 H2) as (sA & Ht & Hs & Hg).
  destruct (push_tracks _ _ _ _ _ _ Ht (or_introl valtype_i32) H3) as [Ht2 Hg2].
  apply (straight_post s _ s0 sA s1 rest G grow_memory_ [types.i32] [types.i32] Hpre Hlt); [reflexivity|reflexivity|reflexivity|cbn..].
  - exact Ha.
  - exact Hs.
  - exact Ht2.
  - unfold grows in *. lia.
  - intros _; apply plain_types; auto.
Qed.

(** *** Constants by type *)
Lemma wrap_fits w x : 0 < w -> fits w (wrap w x) = true.
Proof. intros Hw. apply in_u_fits, wrap_range. lia. Qed.
Lemma i32_const_post s s' u s0 s1 rest G : Pre s s0 s1 rest G ->
  parse_const (parse_varint 32) (fun v => i32_const_ (wrap 32 v)) types.i32 s = Ok u s' -> Post s'.
Proof.
  apply const_post; [reflexivity|]. intros g g' v Hg H. destruct (varint_adv 32 _ _ _ (or_introl eq_refl) Hg H) as [Ha _].
  split; [now apply (adv_weaken 1)|]. split; [reflexivity|]. intros ts. cbn [step_type instr_type]. now rewrite wrap_fits.
Qed.
Lemma i64_const_post s s' u s0 s1 rest G : Pre s s0 s1 rest G ->
  parse_const (parse_varint 64) (fun v => i64_const_ (wrap 64 v)) types.i64 s = Ok u s' -> Post s'.
Proof.
  apply const_post; [reflexivity|]. intros g g' v Hg H. destruct (varint_adv 64 _ _ _ (or_intror eq_refl) Hg H) as [Ha _].
  split; [now apply (adv_weaken 1)|]. split; [reflexivity|]. intros ts. cbn [step_type instr_type]. now rewrite wrap_fits.
Qed.
Lemma f32_const_post s s' u s0 s1 rest G : Pre s s0 s1 rest G -> parse_const (Parser.parse_raw 4) f32_const_ types.f32 s = Ok u s' -> Post s'.
Proof.
  apply const_post; [reflexivity|]. intros g g' v Hg H. destruct (raw_adv 4 _ _ _ Hg H) as [Ha Hv].
  split; [now apply (adv_weaken 4)|]. split; [reflexivity|]. intros ts. cbn [step_type instr_type]. now rewrite (in_u_fits 32 _ Hv).
Qed.
Lemma f64_const_post s s' u s0 s1 rest G : Pre s s0 s1 rest G -> parse_const (Parser.parse_raw 8) f64_const_ types.f64 s = Ok u s' -> Post s'.
Proof.
  apply const_post; [reflexivity|]. intros g g' v Hg H. destruct (raw_adv 8 _ _ _ Hg H) as [Ha Hv].
  split; [now apply (adv_weaken 8)|]. split; [reflexivity|]. intros ts. cbn [step_type instr_type]. now rewrite (in_u_fits 64 _ Hv).
Qed.

(** *** Calls *)
Definition typed_sig (t : func_type) : Prop := Forall valtype (param_types t) /\ Forall valtype (return_types t).
Context (Htypes : Forall typed_sig (m_types m)).

Lemma type_sig i t : vec_lookup (m_types m) i = Some t -> typed_sig t.
Proof. intros [_ H]%vec_lookup_Some. exact (Forall_lookup_1 _ _ _ _ Htypes H). Qed.
Lemma get_function_type_inv {S} i t (s s' : S) : 0 <= i -> get_function_type m i s = Ok t s' ->
  s' = s /\ fn_type m i = Some t /\ typed_sig t.
Proof.
  intros Hi. unfold get_function_type, fn_type. destruct (Z.ltb_spec i 0); [lia|]. destruct (i <? get_imported_functions_size m).
  - destruct (nth_function_import _ i); [|discriminate]. intros [E ->]%vec_index_inv. split; [reflexivity|]. split; [exact E|now apply type_sig in E].
  - intros H'. apply bind_ok in H' as (x & s1 & Hx & H'). unfold psizam_assert in Hx. destruct (_ <? _); [|discriminate]. injection Hx as _ <-.
    apply bind_ok in H' as (j & s1 & [Hj ->]%vec_index_inv & H'). rewrite Hj. unfold vec_at in H'. destruct (vec_lookup (m_types m) j) eqn:Ej; [|discriminate].
    injection H' as <- <-. split; [reflexivity|]. split; [reflexivity|now apply type_sig in Ej].
Qed.
Lemma call_types_tracks t s u s' s0 rest : tracks (op_stack s) (s0 :: rest) -> typed_sig t -> call_types t s = Ok u s' ->
  exists sA tr, s' = s <| op_stack := tr |> /\ takes (rev (param_types t)) s0 sA /\
    tracks tr ((rev (return_types t) ++ sA) :: rest) /\ grows (op_stack s) tr.
Proof.
  intros Ht [Hp Hr] H. unfold call_types in H. step_in H x Hx. apply on_stack_ok in H as (t2 & H & ->).
  destruct (pop_rev_tracks _ _ _ _ _ _ Ht Hp Hx) as (sA & Ht1 & Hs & Hg).
  destruct (pushes_tracks _ _ _ _ _ _ Ht1 Hr H) as [Ht2 Hg2]. exists sA, t2. split; [reflexivity|]. split; [exact Hs|].
  split; [exact Ht2|unfold grows in *; lia].
Qed.
Lemma call_point_sig pt t ts : pt_stack pt = map rep_type (rev (param_types t)) ++ ts ->
  call_point pt t (pt_stack pt) = Some (with_stack pt (map rep_type (rev (return_types t)) ++ ts)).
Proof.
  intros ->. unfold call_point, stack_params, stack_results. rewrite !map_rev, strip_app. reflexivity.
Qed.
Lemma call_post s s' u s0 s1 rest G : Pre s s0 s1 rest G -> parse_call m s = Ok u s' -> Post s'.
Proof.
  intros Hpre H. unfold parse_call in H. step_in H b Hb. step_in H i H1. step_in H b1 H2. step_in H t H3. pose proof Hpre as (Hi & _).
  destruct (varuint_adv 32 _ _ _ (or_introl eq_refl) (iv_good _ _ _ Hi) H1) as [Ha Hin].
  apply get_function_type_inv in H3 as (-> & Hf & Hsig); [|apply Hin]. step_in H c H4.
  apply (fun h => call_types_tracks t _ c _ s0 (s1 :: rest) h Hsig) in H4 as (sA & tr & -> & Hs & Ht & Hg); [|exact (iv_tracks _ _ _ Hi)].
  apply on_writer_ok in H as (w & H & ->). apply emit_op_ok in H as [Hlt ->].
  apply (straight_post s _ s0 sA s1 rest G (call_ i) (rev (param_types t)) (rev (return_types t)) Hpre Hlt); [reflexivity|reflexivity|reflexivity|cbn..].
  - now apply (adv_weaken 1).
  - exact Hs.
  - exact Ht.
  - exact Hg.
  - intros _. split; [apply Forall_rev_val, Hsig|]. split; [discriminate|]. intros ts pt _ Hst. cbn [needs]. rewrite Hf.
    now rewrite (call_point_sig pt t ts Hst).
Qed.

Lemma pack_table_split x t : 0 <= x < 2 ^ 16 -> 0 <= t < 2 ^ 16 ->
  Z.land (pack_table x t) 0xFFFF = x /\ Z.shiftr (pack_table x t) 16 = t.
Proof.
  intros Hx Ht. unfold pack_table. rewrite (wrap_small 32) by (unfold in_u; rewrite Z.shiftl_mul_pow2; lia).
  rewrite lor_add by (unfold in_u; lia). split.
  - change 0xFFFF with (2 ^ 16 - 1). rewrite land_ones_mod, Z.mod_add by lia. now apply Z.mod_small.
  - rewrite Z.shiftr_div_pow2, Z.div_add by lia. rewrite Z.div_small; lia.
Qed.
(** The alias of a type is an equal one. *)
Definition aliases_ok : Prop := forall i a t, vec_lookup type_aliases i = Some a -> vec_lookup (m_types m) i = Some t ->
  exists t', vec_lookup (m_types m) a = Some t' /\ param_types t' = param_types t /\ return_types t' = return_types t.
Context (Haliases : aliases_ok) (Hntypes : vec_size (m_types m) <= 2 ^ 16) (Hntables : vec_size (m_tables m) <= 2 ^ 16).

Lemma call_indirect_post s s' u s0 s1 rest G : Pre s s0 s1 rest G -> parse_call_indirect m type_aliases s = Ok u s' -> Post s'.
Proof.
  intros Hpre H. unfold parse_call_indirect in H. step_in H b Hb. step_in H i H1. step_in H b1 H2. step_in H t H3. step_in H b2 H4.
  step_in H a5 H5. step_in H c H6. pose proof Hpre as (Hi & _). pose proof (type_sig _ _ H3) as Hsig.
  destruct (varuint_adv 32 _ _ _ (or_introl eq_refl) (iv_good _ _ _ Hi) H1) as [Ha _].
  destruct (pop_tracks _ _ _ _ _ _ (iv_tracks _ _ _ Hi) valtype_i32 H5) as (sI & HtI & HsI & HgI).
  apply (fun h => call_types_tracks t _ c _ sI (s1 :: rest) h Hsig) in H6 as (sA & tr & -> & Hs & Ht & Hg); [|exact HtI].
  step_in H ti H7. pose proof (adv_good 1 _ _ (iv_good _ _ _ Hi) ltac:(lia) Ha) as Hgd.
  destruct (varuint_adv 32 _ _ _ (or_introl eq_refl) Hgd H7) as [Ha2 Htin].
  step_in H b3 H8. unfold check_funcref_table in H8. step_in H8 b4 H9. step_in H8 tt0 H10. apply parse_check_Ok in H8 as [_ ->].
  step_in H al H11. apply on_writer_ok in H as (w & H & ->). apply emit_op_ok in H as [Hlt ->].
  destruct (Haliases _ _ _ H11 H3) as (t' & Ht' & Ep & Er).
  apply (straight_post s _ s0 sA s1 rest G (call_indirect_ (pack_table al ti)) (types.i32 :: rev (param_types t)) (rev (return_types t)) Hpre Hlt);
    [reflexivity|reflexivity|reflexivity|cbn..].
  - apply (adv_weaken (1 + 1)); [lia|]. exact (adv_trans 1 1 _ _ _ Ha Ha2).
  - exact (takes_app [types.i32] _ _ _ _ HsI Hs).
  - exact Ht.
  - unfold grows in *. cbn in *. lia.
  - intros _. split; [apply Forall_rev_val, Hsig|]. split; [discriminate|]. intros ts pt _ Hst. cbn [map app] in Hst.
    apply vec_lookup_lt in Ht' as Hal. apply Z.ltb_lt in H9 as Hti. destruct Htin as [Hti0 _].
    destruct (pack_table_split al ti ltac:(lia) ltac:(lia)) as [E1 E2]. cbn [needs]. rewrite E1, E2, Ht', Hst, H9, (proj2 (Z.leb_le _ _) Hti0).
    cbn [andb]. change (rep_type types.i32 =? types.i32) with true. cbn [andb]. unfold call_point, stack_params, stack_results.
    rewrite Ep, Er, !map_rev, strip_app. reflexivity.
Qed.
End Body.
