(* ===== verification/ScopeSound.v ===== *)
(** * Validated scopes

    The cases of the parser's switch that open and close scopes ([block],
    [loop], [if], [else], [end]) keep the invariant of [BodySound]: labels get
    their types, and the branches that wait for a label are resolved to code of
    that type. *)
From Stdlib Require Import ZArith Lia Bool String.
From stdpp Require Import base list numbers decidable option.
From S2P Require Import Prelude Leb128 Types InitExpr ConstExpr ParseInit Stack Memory Numeric Softfloat Context Operands Interp Demo Invariants.
From S2P Require Import TypedOps TypedVec Typing Control Verifier Termination Writer Validator ParseVec ParseBody TrackerSpec Emission BodySound.
Import GuardedPtr Leb Opcode GasInjector BitcodeWriter Tracker.

Section Scopes.
Context (m : module) (_options : Options) (L Rs : list Z) (B : Z) (RT : list Z).
Abbreviation comp := (comp m L Rs B).
Abbreviation cur := (cur L Rs).
Abbreviation Inv := (Inv m L Rs B RT).
Abbreviation Pre := (Pre m L Rs B RT).
Abbreviation Post := (Post m L Rs B RT).
Context (Htypes : Forall typed_sig (m_types m)).
Context (Hcounts : Forall (fun t => return_count t = vec_size (return_types t)) (m_types m)).

(** ** Block types *)
Definition single_ok (st : Z) (br : list Z) : Prop := br = [] -> valtype st \/ st = types.pseudo.
Lemma types_of_ok st br : single_ok st br -> Forall valtype br -> Forall valtype (types_of st br).
Proof.
  intros Hs Hb. unfold types_of. destruct br; [|exact Hb]. destruct (Z.eqb_spec st types.pseudo); [constructor|].
  destruct (Hs eq_refl); [auto|contradiction].
Qed.
Lemma types_of_single st br : Forall valtype (types_of st br) -> single_ok st br.
Proof.
  intros H ->. unfold types_of in H. destruct (Z.eqb_spec st types.pseudo); [auto|]. left. now inversion H.
Qed.
Lemma single_wrap st : valtype st \/ st = types.pseudo -> wrap 8 st = st.
Proof. intros H. apply wrap_small. destruct H as [H| ->]; [apply (valtype_cases st H)|unfold in_u; cbv; split; congruence]. Qed.

Lemma parse_block_type_ok s bt s' : good (code s) -> parse_block_type m _options s = Ok bt s' ->
  exists g, s' = s <| code := g |> /\ adv 0 (code s) g /\ Forall valtype bt.1.2 /\ Forall valtype bt.2 /\ single_ok bt.1.1 bt.2.
Proof.
  intros Hg H. unfold parse_block_type in H. step_in H b Hb. destruct (current_same _ _ _ Hg Hb) as [-> _].
  destruct ((b =? types.pseudo) || is_value_byte b || (b =? types.v128) || is_ref_byte b) eqn:Eb.
  - step_in H x Hx. step_in H y Hy. apply ret_ok in H as [-> ->]. apply incr_adv in Hx; [|exact Hg]. exists g.
    split; [reflexivity|]. split; [now apply (adv_weaken 1)|]. split; [constructor|]. split; [constructor|]. intros _. cbn [fst].
    rewrite !orb_true_iff in Eb. destruct Eb as [[[Eb|Eb]|Eb]|Eb].
    + right. now apply Z.eqb_eq.
    + left. unfold valtype, is_valtype. now rewrite Eb.
    + left. unfold valtype, is_valtype. now rewrite Eb, orb_true_r.
    + left. unfold valtype, is_valtype. now rewrite Eb, !orb_true_r.
  - destruct ((b =? 0x63) || (b =? 0x64)).
    + step_in H x Hx. apply incr_adv in Hx; [|exact Hg]. pose proof (adv_good 1 _ _ Hg ltac:(lia) Hx) as Hg1. step_in H h Hh.
      destruct (next_adv _ _ _ Hg1 Hh) as [Ha _]. pose proof (adv_good 1 _ _ Hg1 ltac:(lia) Ha) as Hg2. apply bind_ok in H as (y & s2 & Hy & H).
      apply ret_ok in H as [-> ->].
      assert (Hy' : exists g2, s2 = s <| code := g2 |> /\ adv 0 g0 g2).
      { destruct (0x80 <=? h); [|apply ret_ok in Hy as [_ ->]; exists g0; split; [reflexivity|now apply adv_refl]].
        unfold skip_continuation in Hy. step_in Hy z Hz. apply skip_leb_ok in Hy as (g' & -> & Ha'); [|exact Hg2]. exists g'. split; [reflexivity|exact Ha']. }
      destruct Hy' as (g2 & -> & Ha2). exists g2. split; [reflexivity|]. split.
      { apply (adv_weaken (1 + (1 + 0))); [lia|]. exact (adv_trans _ _ _ _ _ Hx (adv_trans _ _ _ _ _ Ha Ha2)). }
      split; [constructor|]. split; [constructor|]. intros _. left. cbn [fst]. now destruct (h =? types.externref).
    + unfold parse_type_index in H. step_in H i Hi. step_in H x Hx. step_in H t Ht. apply ret_ok in H as [-> ->].
      destruct (varint_adv 32 _ _ _ (or_introl eq_refl) Hg Hi) as [Ha _]. exists g. split; [reflexivity|].
      split; [now apply (adv_weaken 1)|]. cbn [fst snd]. apply vec_lookup_Some in Ht as [_ Ht].
      destruct (Forall_lookup_1 _ _ _ _ Htypes Ht) as [Hp Hr]. split; [exact Hp|]. split; [exact Hr|].
      intros E. right. pose proof (Forall_lookup_1 _ _ _ _ Hcounts Ht) as Hc. cbn in Hc. rewrite E in Hc. now rewrite Hc.
Qed.

(** ** Opening a scope *)
Lemma cur_takes A s0 sA rest : takes A s0 sA -> Forall valtype A -> cur (A :: sA :: rest) = cur (s0 :: rest).
Proof.
  intros [[Hl ->]|[Hd Hd']] HA; [apply cur_rejoin|]. unfold cur, Emission.cur.
  rewrite (dead_not_live s0 rest Hd), (live_tail A (sA :: rest)); [reflexivity|]. now apply dead_not_live.
Qed.
Lemma takes_live_rev A s0 sA rest : takes A s0 sA -> Forall valtype A -> live (sA :: rest) = true -> live (s0 :: rest) = true /\ s0 = A ++ sA.
Proof.
  intros Ht HA Hl. destruct (live (s0 :: rest)) eqn:E; [|now rewrite (takes_dead A s0 sA rest Ht E) in Hl].
  split; [reflexivity|]. exact (proj1 (takes_live A s0 sA rest Ht E)).
Qed.
Lemma open_scope_ok s u s' e pcs segs : pc_stack s = e :: pcs -> tracks (op_stack s) segs -> segs <> [] -> Forall valtype (block_params e) ->
  open_scope s = Ok u s' -> exists t, s' = s <| op_stack := t |> /\ tracks t (rev (block_params e) :: segs) /\ grows (op_stack s) t.
Proof.
  intros Hpc Ht Hne He H. unfold open_scope in H. step_in H x Hx. step_in H y Hy. change (pc_stack (s <| op_stack := t |>)) with (pc_stack s) in H. rewrite Hpc in H.
  apply on_stack_ok in H as (t2 & H & ->). destruct (push_scope_tracks _ _ _ _ Ht Hne Hx) as [Ht1 Hg1].
  destruct (pushes_tracks _ _ _ _ _ _ Ht1 He H) as [Ht2 Hg2]. rewrite app_nil_r in Ht2. exists t2.
  split; [reflexivity|]. split; [exact Ht2|unfold grows in *; lia].
Qed.
Lemma Inv_max_grows M M' (G : typing) : M <= M' -> (forall o pt, type_at G o = Some pt -> vec_size (pt_stack pt) <= M) ->
  forall o pt, type_at G o = Some pt -> vec_size (pt_stack pt) <= M'.
Proof. intros HM H o pt Ho. specialize (H o pt Ho). lia. Qed.

Lemma block_post s s' u s0 s1 rest G : Pre s s0 s1 rest G -> parse_block m _options s = Ok u s' -> Post s'.
Proof.
  intros Hpre H. unfold parse_block in H. pose proof Hpre as (Hi & Hp & Ha). pose proof Hi as [I1 I2 I3 I4 I5 I6 I7 I8 I9].
  apply bind_ok in H as ([[st bp] br] & sx & H1 & H). destruct (parse_block_type_ok _ _ _ I6 H1) as (g & -> & Hadv & Hbp & Hbr & Hst).
  cbn [fst snd] in Hbp, Hbr, Hst. step_in H a2 H2. step_in H a3 H3. unfold enter_scope in H. step_in H a4 H4.
  step_in H a5 H5. apply ret_ok in H5 as [_ ->].
  destruct (pop_rev_tracks _ _ _ _ _ _ I2 Hbp H2) as (sA & HtA & HsA & HgA).
  eapply open_scope_ok in H as (tr & -> & Htr & Hgr); [|reflexivity|exact HtA|discriminate|exact Hbp]. cbn in Htr, Hgr.
  assert (HbpR : Forall valtype (rev bp)) by now apply Forall_rev_val.
  exists (rev bp :: sA :: s1 :: rest), G. split; [split; cbn; auto|split].
  - eapply comp_open; [exact I1|now apply cur_takes| |].
    + split; cbn; [exact (tr_depth _ _ HtA)|now apply types_of_ok|now apply types_of_ok|exact Hbp|reflexivity|].
      repeat split; auto; discriminate.
    + intros b Hb. now apply not_elem_of_nil in Hb.
  - eapply adv_good; [exact I6| |exact Hadv]; lia.
  - rewrite I7. symmetry. apply Hadv.
  - eapply Inv_max_grows; [|exact I8]. unfold grows in *. lia.
  - exact (bottom_push RT _ (pc_stack s) s0 sA (rev bp) (s1 :: rest) Hp ltac:(discriminate) I9).
  - unfold ahead in *. cbn. destruct Hadv as (_ & _ & Hadv). lia.
  - discriminate.
Qed.

Lemma loop_post s s' u s0 s1 rest G : Pre s s0 s1 rest G -> parse_loop m _options s = Ok u s' -> Post s'.
Proof.
  intros Hpre H. unfold parse_loop in H. pose proof Hpre as (Hi & Hp & Ha). pose proof Hi as [I1 I2 I3 I4 I5 I6 I7 I8 I9].
  apply bind_ok in H as ([[st bp] br] & sx & H1 & H). destruct (parse_block_type_ok _ _ _ I6 H1) as (g & -> & Hadv & Hbp & Hbr & Hst).
  cbn [fst snd] in Hbp, Hbr, Hst. step_in H a2 H2. step_in H pos H3. unfold emit_loop in H3. step_in H3 a4 H4. step_in H3 i H5.
  apply append_ok in H5 as (-> & Hlt & ->). step_in H3 a6 H6. apply ret_ok in H3 as [-> ->].
  step_in H h H7. unfold last_loop_gas_handle in H7. step_in H7 a8 H8. apply ret_ok in H7 as [-> ->]. cbn [option_map _last_loop_gas_ptr] in H.
  step_in H a9 H9. unfold enter_scope in H. step_in H a10 H10. step_in H a11 H11.
  destruct (pop_rev_tracks _ _ _ _ _ _ I2 Hbp H2) as (sA & HtA & HsA & HgA).
  eapply open_scope_ok in H as (tr & -> & Htr & Hgr); [|reflexivity|exact HtA|discriminate|exact Hbp]. cbn in Htr, Hgr.
  assert (HbpR : Forall valtype (rev bp)) by now apply Forall_rev_val. cbn in Hlt. set (n := op_index (code_writer s)) in *.
  pose proof (cp_size _ _ _ _ _ _ _ _ _ _ I1) as Hsz. pose proof (cp_room _ _ _ _ _ _ _ _ _ _ I1) as Hroom.
  assert (Hn : vec_lookup (vec_update (fb (code_writer s)) n (gas_charge_ 1)) n = Some (gas_charge_ 1)).
  { rewrite vec_lookup_update by (subst n; lia). now destruct (decide (n = n)). }
  assert (Hc : comp (-1) (n + 1) (pc_stack s) (s0 :: s1 :: rest) (G ++ [cur (s0 :: s1 :: rest)]) (vec_update (fb (code_writer s)) n (gas_charge_ 1))).
  { eapply comp_close; [apply (comp_append m L Rs B n _ s0); [exact I1|exact Hlt]|]. intros pt Hpt. exists (gas_charge_ 1). split; [exact Hn|].
    exists (Some pt), []. split; [reflexivity|]. split; [reflexivity|]. split; [|split; [discriminate|intros c [= <-]; lia]].
    intros p [= <-]. apply type_at_snoc_inv in Hpt as [Hpt|[E _]]; [|lia]. apply type_at_lookup in Hpt.
    rewrite (cp_cur _ _ _ _ _ _ _ _ _ _ I1) in Hpt. apply type_at_lookup. rewrite vec_lookup_snoc by exact Hsz. exact Hpt. }
  exists (rev bp :: sA :: s1 :: rest), (G ++ [cur (s0 :: s1 :: rest)]). split; [split; cbn; auto|split].
  - eapply comp_open; [exact Hc|now apply cur_takes| |].
    + split; cbn; auto.
      * exact (tr_depth _ _ HtA).
      * unfold label_types. cbn. unfold types_of. destruct bp; [constructor|exact Hbp].
      * now apply types_of_ok.
      * split; [reflexivity|]. split; [reflexivity|]. split; [reflexivity|]. unfold label_types. cbn. split; [now destruct bp|].
        split; [split; [subst n; lia|exists 1; split; [exact Hn|lia]]|]. intros Hl. apply extends_snoc, type_at_lookup. fold n.
        rewrite (cp_cur _ _ _ _ _ _ _ _ _ _ I1). f_equal. destruct (takes_live_rev _ _ _ (s1 :: rest) HsA HbpR Hl) as [Hl0 Es0].
        unfold Emission.cur. rewrite Hl0, Es0. unfold label_point, label_types, point_of. cbn. f_equal. f_equal. f_equal.
        replace (types_of types.pseudo bp) with bp by now destruct bp. rewrite <- app_assoc. reflexivity.
    + intros b Hb. destruct Hb.
  - now rewrite vec_update_size.
  - constructor; [lia|exact I5].
  - eapply adv_good; [exact I6| |exact Hadv]; lia.
  - rewrite vec_update_size, I7. symmetry. apply Hadv.
  - unfold grows in *. eapply Inv_max_grows; [|apply (max_snoc L Rs (op_stack s) _ _ _ I2 (Z.le_refl _) I8)]. lia.
  - exact (bottom_push RT _ (pc_stack s) s0 sA (rev bp) (s1 :: rest) Hp ltac:(discriminate) I9).
  - unfold ahead in *. cbn. destruct Hadv as (_ & _ & Hadv). subst n. lia.
  - discriminate.
Qed.

Lemma if_post s s' u s0 s1 rest G : Pre s s0 s1 rest G -> parse_if m _options s = Ok u s' -> Post s'.
Proof.
  intros Hpre H. unfold parse_if in H. pose proof Hpre as (Hi & Hp & Ha). pose proof Hi as [I1 I2 I3 I4 I5 I6 I7 I8 I9]. step_in H b Hb.
  apply bind_ok in H as ([[st bp] br] & sx & H1 & H). destruct (parse_block_type_ok _ _ _ I6 H1) as (g & -> & Hadv & Hbp & Hbr & Hst).
  cbn [fst snd] in Hbp, Hbr, Hst. step_in H i H2. unfold emit_if in H2. step_in H2 j H3. apply append_ok in H3 as (-> & Hlt & ->).
  apply ret_ok in H2 as [-> ->]. step_in H a4 H4. step_in H a5 H5. step_in H a6 H6. unfold enter_scope in H. step_in H a7 H7.
  destruct (pop_tracks _ _ _ _ _ _ I2 valtype_i32 H4) as (sI & HtI & HsI & HgI).
  destruct (pop_rev_tracks _ _ _ _ _ _ HtI Hbp H5) as (sA & HtA & HsA & HgA).
  eapply open_scope_ok in H as (tr & -> & Htr & Hgr); [|reflexivity|exact HtA|discriminate|exact Hbp]. cbn in Htr, Hgr.
  assert (HbpR : Forall valtype (rev bp)) by now apply Forall_rev_val. cbn in Hlt. cbn [op_index code_writer].
  set (e := _ <| is_if := true |>). set (n := op_index (code_writer s)) in *.
  pose proof (cp_size _ _ _ _ _ _ _ _ _ _ I1) as Hsz. pose proof (cp_room _ _ _ _ _ _ _ _ _ _ I1) as Hroom.
  set (fb' := vec_update (fb (code_writer s)) n (if_ 0)).
  assert (Hn : vec_lookup fb' n = Some (if_ 0)).
  { unfold fb'. rewrite vec_lookup_update by (subst n; lia). now destruct (decide (n = n)). }
  set (G' := G ++ [cur (sI :: s1 :: rest)]).
  assert (Hc : comp n (n + 1) (e :: pc_stack s) (rev bp :: sA :: s1 :: rest) G' fb').
  { eapply comp_open; [apply (comp_append m L Rs B n _ s0); [exact I1|exact Hlt]|now apply cur_takes| |].
    - split; cbn; [exact (tr_depth _ _ HtA)|now apply types_of_ok|now apply types_of_ok|exact Hbp|reflexivity|].
      split; [reflexivity|]. split; [reflexivity|]. split; [discriminate|]. constructor; [|constructor]. split; [cbn; subst n; lia|].
      exists (if_ 0). split; [exact Hn|unfold vec_size; cbn; lia].
    - intros b0 Hb0. apply list_elem_of_singleton in Hb0 as ->. reflexivity. }
  assert (Hc1 : comp (-1) (n + 1) (e :: pc_stack s) (rev bp :: sA :: s1 :: rest) G' fb').
  { eapply comp_close; [exact Hc|]. intros pt Hpt. exists (if_ 0). split; [exact Hn|].
    assert (Hpt' : live (s0 :: s1 :: rest) = true /\ pt = point_of L Rs (s0 :: s1 :: rest)).
    { unfold G' in Hpt. apply type_at_snoc_inv in Hpt as [Hpt|[E _]]; [|lia]. apply type_at_lookup in Hpt.
      rewrite (cp_cur _ _ _ _ _ _ _ _ _ _ I1) in Hpt. unfold Emission.cur in Hpt. destruct (live _); [|discriminate]. injection Hpt as <-. auto. }
    destruct Hpt' as [Hl ->]. destruct (takes_live _ _ _ _ HsI Hl) as [E0 HlI]. destruct (takes_live _ _ _ _ HsA HlI) as [EI HlA].
    exists (Some (point_of L Rs (sI :: s1 :: rest))), [point_of L Rs (sI :: s1 :: rest)]. rewrite E0. split; [reflexivity|]. split; [reflexivity|].
    split; [intros p [= <-]; apply type_at_lookup; unfold G'; rewrite vec_lookup_snoc by exact Hsz; unfold Emission.cur; now rewrite HlI|].
    split; [|discriminate]. intros [|j] p pc Hj _; [|discriminate]. injection Hj as <-. split.
    - intros [|k] e0 Hk.
      + injection Hk as <-. unfold held. cbn -[live]. split; [|intros Hin; now apply not_elem_of_nil in Hin]. intros _. split; [exact HlA|].
        rewrite EI. unfold else_point, point_of. cbn. f_equal. now rewrite <- app_assoc.
      + apply held_free. assert (Hfr : free (pc_stack s) (BranchAt n 0)) by (eapply ctl_fresh; [exact (cp_ctl _ _ _ _ _ _ _ _ _ _ I1)|cbn; subst n; lia]).
        unfold free in Hfr. rewrite Forall_lookup in Hfr. exact (Hfr k e0 Hk).
    - intros Hf. exfalso. inversion Hf as [|? ? Hf0]. apply Hf0. unfold holds_branch. cbn. apply list_elem_of_here. }
  exists (rev bp :: sA :: s1 :: rest), G'. split; [split; cbn -[e]; auto|split].
  - unfold fb'. now rewrite vec_update_size.
  - eapply adv_good; [exact I6| |exact Hadv]; lia.
  - unfold fb'. rewrite vec_update_size, I7. symmetry. apply Hadv.
  - unfold grows in *. eapply Inv_max_grows; [|apply (max_snoc L Rs t _ G (maximum_operand_depth (op_stack s)) HtI HgI I8)]. lia.
  - exact (bottom_push RT _ (pc_stack s) s0 sA (rev bp) (s1 :: rest) Hp ltac:(discriminate) I9).
  - unfold ahead in *. cbn. destruct Hadv as (_ & _ & Hadv). subst n. lia.
  - discriminate.
Qed.

(** ** [else] *)
Lemma pop_single_tracks st t t' u s rest : tracks t (s :: rest) -> valtype st \/ st = types.pseudo -> pop (wrap 8 st) t = Ok u t' ->
  exists s', tracks t' (s' :: rest) /\ takes (rev (types_of st [])) s s' /\ grows t t'.
Proof.
  intros Ht Hst. rewrite (single_wrap st Hst). destruct Hst as [Hv| ->].
  - destruct (valtype_cases st Hv) as (_ & _ & _ & Hn & _). unfold types_of. rewrite (proj2 (Z.eqb_neq _ _) Hn). now apply pop_tracks.
  - intros [= _ <-]. exists s. split; [exact Ht|]. split; [|unfold grows; lia]. apply takes_nil. pose proof (tr_segs _ _ Ht) as Hs. now inversion Hs.
Qed.
Lemma pop_end_tracks e t t' u s rest : tracks t (s :: rest) -> Forall valtype (end_types e) -> (match expected_results e with [] => pop (wrap 8 (expected_result e)) | rs => pop_rev rs end) t = Ok u t' ->
  exists s', tracks t' (s' :: rest) /\ takes (rev (end_types e)) s s' /\ grows t t'.
Proof.
  intros Ht He. unfold end_types in *. destruct (expected_results e) as [|r rs] eqn:Er.
  - apply pop_single_tracks; [exact Ht|]. now apply (types_of_single _ []).
  - now apply pop_rev_tracks.
Qed.
Lemma restart_scope_ok e s u s' s0 s1 rest : tracks (op_stack s) (s0 :: s1 :: rest) -> Forall valtype (end_types e) ->
  restart_scope e s = Ok u s' ->
  exists t, s' = s <| op_stack := t |> /\ tracks t ([] :: s1 :: rest) /\ grows (op_stack s) t /\ (live_seg s0 -> s0 = rev (end_types e)).
Proof.
  intros Ht He H. unfold restart_scope in H. apply bind_ok in H as (x & sx & Hx & H).
  assert (Hx' : exists t0, sx = s <| op_stack := t0 |> /\
    (match expected_results e with [] => pop (wrap 8 (expected_result e)) | rs => pop_rev rs end) (op_stack s) = Ok x t0).
  { destruct (expected_results e); apply on_stack_ok in Hx as (t0 & Hx & ->); eauto. }
  destruct Hx' as (t0 & -> & Hx'). destruct (pop_end_tracks e _ _ _ _ _ Ht He Hx') as (sE & HtE & HsE & HgE).
  step_in H y Hy. apply on_stack_ok in H as (t2 & H & ->).
  change (pop_scope_multi [] t0 = Ok y t) in Hy. destruct (pop_scope_multi_tracks [] t0 t y sE s1 rest HtE ltac:(constructor) Hy) as (Ht1 & Hg1 & Hend).
  destruct (push_scope_tracks _ _ _ _ Ht1 ltac:(discriminate) H) as [Ht2 Hg2]. exists t2. split; [reflexivity|]. split; [exact Ht2|].
  split; [unfold grows in *; cbn in *; lia|]. intros Hl. destruct HsE as [[_ E]|[Hd _]]; [|destruct (live_not_dead _ Hl Hd)].
  destruct Hend as [->|Hd]; [now rewrite E, app_nil_r|]. rewrite E in Hl. apply Forall_app in Hl as [_ Hl]. destruct (live_not_dead _ Hl Hd).
Qed.
Lemma start_else_post s s' u e pcs s0 s1 rest G : Inv s (s0 :: s1 :: rest) G -> pc_stack s = e :: pcs -> is_if e = true ->
  start_else e s = Ok u s' ->
  exists l, Inv s' (rev (block_params e) :: s1 :: rest) (G ++ [cur (rev (block_params e) :: s1 :: rest)]) /\
    pc_stack s' = e <| relocations := l |> <| is_if := false |> :: pcs /\ code s' = code s /\
    op_index (code_writer s') = op_index (code_writer s) + 1 /\ gas_state s' = gas_state s.
Proof.
  intros Hi Hpc Hif H. pose proof Hi as [I1 I2 I3 I4 I5 I6 I7 I8 I9]. rewrite Hpc in I1. pose proof (cp_ctl _ _ _ _ _ _ _ _ _ _ I1) as [He Hctl].
  unfold start_else in H. apply bind_ok in H as (l & sx & Hl & H). unfold get_branches in Hl. destruct (relocations e) as [|l0] eqn:Erel; [discriminate|].
  apply ret_ok in Hl as [-> ->]. step_in H x Hx.
  apply (fun h => restart_scope_ok e s x st s0 s1 rest h (eo_end _ _ _ _ _ _ _ He)) in Hx as (t & -> & Ht & Hg & Hend); [|exact I2].
  step_in H y Hy. destruct l0 as [|h l]; [discriminate|]. step_in H b Hb.
  destruct (pushes_tracks _ _ _ _ _ _ Ht (eo_params _ _ _ _ _ _ _ He) Hy) as [Ht2 Hg2]. rewrite app_nil_r in Ht2.
  apply modify_ok in H. subst s'. unfold emit_else in Hb. step_in Hb i Hi2. apply append_ok in Hi2 as (-> & Hlt & ->).
  step_in Hb z Hz. apply bind_ok in Hb as (q & wx & Hst & Hb). apply ret_ok in Hb as [-> ->]. cbn in Hlt.
  set (n := op_index (code_writer s)) in *. pose proof (cp_room _ _ _ _ _ _ _ _ _ _ I1) as Hroom.
  pose proof (eo_rel _ _ _ _ _ _ _ He) as Hrel. rewrite Erel in Hrel. destruct Hrel as (_ & _ & _ & Hsl). inversion Hsl as [|? ? Hh Hsl']. subst.
  rewrite wrap_small in Hst by (cbn; subst n; unfold in_u; lia).
  apply (store_branch_ok m _ _ _ _ _ n) in Hst as (fb2 & -> & Hr).
  2:{ destruct Hh as [Hh (op & Hop & Htg)]. split; [exact Hh|]. exists op. split; [|exact Htg]. cbn. rewrite vec_lookup_update by (subst n; lia).
      fold n. destruct (decide (at_op h = n)); [lia|exact Hop]. }
  cbn in Hr. fold n in Hr.
  pose proof (comp_else m L Rs _ n e pcs s0 s1 rest G (fb (code_writer s)) fb2 h l I1 Hlt Hif Erel) as Hce.
  exists (branches (BranchAt n 0 :: l)). cbn. rewrite Hpc. split; [|auto]. split; cbn; auto.
  - apply Hce; [|exact Hr]. intros Hlv. apply live_cons in Hlv as [Hlv _]. now apply Hend.
  - destruct Hr as [Hlen _]. unfold vec_size in *. rewrite Hlen, vec_update_length. lia.
  - rewrite <- I7. destruct Hr as [Hlen _]. unfold vec_size in *. rewrite Hlen, vec_update_length. reflexivity.
  - apply (max_snoc L Rs t0 _ G (maximum_operand_depth (op_stack s)) Ht2); [unfold grows in *; cbn in *; lia|exact I8].
  - rewrite Hpc in I9. change (bottom RT (e <| relocations := branches (BranchAt n 0 :: l) |> <| is_if := false |> :: pcs) (rev (block_params e) :: s1 :: rest)).
    eapply bottom_same; [|apply (bottom_top RT (e :: pcs) s0); [discriminate|discriminate|exact I9]].
    constructor; [split; reflexivity|]. apply Forall_Forall2_diag, Forall_true. now split.
Qed.
Lemma else_post s s' u s0 s1 rest G : Pre s s0 s1 rest G -> parse_else s = Ok u s' -> Post s'.
Proof.
  intros (Hi & Hp & Ha) H. unfold parse_else in H. step_in H b Hb. step_in H x Hx. destruct (pc_stack s) as [|e pcs] eqn:Epc; [discriminate|].
  step_in H y Hif. apply (fun h1 h2 h3 => start_else_post s s' u e pcs s0 s1 rest G h1 h2 h3) in H as (l & Hi' & Epc' & Ec & En & _); auto.
  do 2 eexists. split; [exact Hi'|]. split; [unfold ahead in *; rewrite Ec, En; lia|]. rewrite Epc'. discriminate.
Qed.

(** ** [end] *)
Lemma pop_scope_end e t u t' : Forall valtype (end_types e) ->
  (match expected_results e with [] => pop_scope (wrap 8 (expected_result e)) | rs => pop_scope_multi rs end) t = Ok u t' ->
  pop_scope_multi (end_types e) t = Ok u t'.
Proof.
  intros He. unfold end_types in *. destruct (expected_results e) as [|r rs] eqn:Er; [|auto].
  rewrite single_wrap by now apply (types_of_single _ []). auto.
Qed.
Lemma fix_all_ok w u w' n e pcs segs G : comp (-1) n (e :: pcs) segs G (fb w) -> _base_offset w = B -> 0 <= B -> B + vec_size (fb w) < 2 ^ 32 ->
  (match relocations e with branches l => fix_branches l n | label_at _ => ret tt end) w = Ok u w' ->
  exists fb', w' = w <| fb := fb' |> /\ retargeted m (branches_of e) (B + n) (fb w) fb'.
Proof.
  intros Hc Hb H0 Hsz H. pose proof (cp_ctl _ _ _ _ _ _ _ _ _ _ Hc) as Hctl. destruct segs as [|s0 segs]; [destruct Hctl|]. destruct Hctl as [He _].
  pose proof (eo_rel _ _ _ _ _ _ _ He) as Hr. pose proof (cp_room _ _ _ _ _ _ _ _ _ _ Hc) as Hroom. unfold branches_of. rewrite <- Hb in *.
  destruct (relocations e) as [|l]; [apply ret_ok in H as [_ ->]; exists (fb w); split; [now destruct w|apply retargeted_refl]|].
  apply (fix_branches_ok m n n) in H; [exact H|lia|apply Hr].
Qed.
(** The scope without its loop or [else] business. *)
Definition leave_scope (e : pc_element_t) (rest : list pc_element_t) : M pstate unit :=
  (if is_try_table e then on_writer emit_eh_leave else ret tt) ;;;
  let* end_pos := on_writer emit_end in
  (match relocations e with branches l => on_writer (fix_branches l end_pos) | label_at _ => ret tt end) ;;;
  (match expected_results e with
   | [] => on_stack (pop_scope (wrap 8 (expected_result e)))
   | rs => on_stack (pop_scope_multi rs)
   end) ;;;
  modify (fun s => s <| pc_stack := rest |>).
Lemma leave_inv s s' u e pcs s0 s1 rest G : Inv s (s0 :: s1 :: rest) G -> pc_stack s = e :: pcs ->
  (is_if e = true -> block_params e = label_types e) -> leave_scope e pcs s = Ok u s' ->
  exists segs' G', Inv s' segs' G' /\ pc_stack s' = pcs /\ code s' = code s /\ op_index (code_writer s') = op_index (code_writer s).
Proof.
  intros Hi Hpc Hif H. pose proof Hi as [I1 I2 I3 I4 I5 I6 I7 I8 I9]. rewrite Hpc in I1. pose proof (cp_ctl _ _ _ _ _ _ _ _ _ _ I1) as [He Hctl].
  unfold leave_scope in H. rewrite (eo_try _ _ _ _ _ _ _ He) in H. step_in H x Hx. step_in H n Hn. apply gets_ok in Hn as [-> ->].
  apply bind_ok in H as (y & sx & Hy & H). set (n := op_index (code_writer s)) in *.
  assert (Hy' : exists fb', sx = s <| code_writer := (code_writer s) <| fb := fb' |> |> /\ retargeted m (branches_of e) (B + n) (fb (code_writer s)) fb').
  { destruct (relocations e) as [t|l] eqn:Er.
    - apply ret_ok in Hy as [_ ->]. exists (fb (code_writer s)). unfold branches_of. rewrite Er. split; [now destruct s as [? ? ? ? [] ?]|apply retargeted_refl].
    - apply on_writer_ok in Hy as (w & Hy & ->). destruct (fix_all_ok (code_writer s) y w n e pcs _ G I1 I3 (proj1 I4) (proj2 I4)) as (fb' & -> & Hr);
        [rewrite Er; exact Hy|]. exists fb'. split; [reflexivity|exact Hr]. }
  destruct Hy' as (fb' & -> & Hr). step_in H z Hz.
  assert (Hz' : exists t, st = s <| code_writer := (code_writer s) <| fb := fb' |> |> <| op_stack := t |> /\ pop_scope_multi (end_types e) (op_stack s) = Ok z t).
  { destruct (expected_results e) eqn:Er; apply on_stack_ok in Hz as (t & Hz & ->); exists t; (split; [reflexivity|]);
      apply (pop_scope_end e _ _ _ (eo_end _ _ _ _ _ _ _ He)); rewrite Er; exact Hz. }
  destruct Hz' as (t & -> & Hz'). apply modify_ok in H. subst s'.
  destruct (pop_scope_multi_tracks _ _ _ _ _ _ _ I2 (eo_end _ _ _ _ _ _ _ He) Hz') as (Ht & Hg & Hend).
  pose proof (comp_end m L Rs B n e pcs s0 s1 rest G (fb (code_writer s)) fb' I1 Hr Hif) as Hce. destruct Hr as [Hlen _].
  do 2 eexists. split; [|auto]. split; cbn.
  - apply Hce. intros Hl. apply live_cons in Hl as [Hl _]. destruct Hend as [E|Hd]; [exact E|destruct (live_not_dead _ Hl Hd)].
  - exact Ht.
  - exact I3.
  - unfold vec_size in *. rewrite Hlen. exact I4.
  - exact I5.
  - exact I6.
  - unfold vec_size in *. rewrite Hlen. exact I7.
  - eapply (max_update L Rs t _ G n _ (maximum_operand_depth (op_stack s)) Ht Hg); [exact (cp_cur _ _ _ _ _ _ _ _ _ _ I1)|exact I8].
  - rewrite Hpc in I9. apply (bottom_pop _ e pcs s0); [|exact I9]. apply ctl_length in Hctl. cbn in Hctl. lia.
Qed.
(** The loop's share of the gas. *)
Lemma patch_inv s s' u e pcs s0 s1 rest G : Inv s (s0 :: s1 :: rest) G -> pc_stack s = e :: pcs ->
  (if is_loop e then
     let* s := get in
     let '(loop_extra, g) := on_loop_exit (gas_state s) in
     modify (fun s => s <| gas_state := g |>) ;;;
     on_writer (patch_gas_imm_add_extra (gas_handle e) loop_extra)
   else ret tt) s = Ok u s' ->
  Inv s' (s0 :: s1 :: rest) G /\ pc_stack s' = e :: pcs /\ code s' = code s /\ op_index (code_writer s') = op_index (code_writer s).
Proof.
  intros Hi Hpc H. pose proof Hi as [I1 I2 I3 I4 I5 I6 I7 I8 I9]. destruct (is_loop e) eqn:El; [|apply ret_ok in H as [_ ->]; auto].
  rewrite Hpc in I1. pose proof (cp_ctl _ _ _ _ _ _ _ _ _ _ I1) as [He _]. pose proof (eo_rel _ _ _ _ _ _ _ He) as Hr.
  destruct (relocations e) as [t|l]; [|destruct Hr; congruence]. destruct Hr as (_ & _ & Hgh & _). rewrite Hgh in H.
  step_in H x Hx. destruct (on_loop_exit (gas_state s)) as [extra g] eqn:Eg. step_in H y Hy.
  apply on_writer_ok in H as (w & H & ->).
  assert (Hg : 0 <= extra /\ Forall (Z.le 0) (loop_stack g)).
  { unfold on_loop_exit in Eg. destruct (loop_stack (gas_state s)) as [|z ls] eqn:Els; injection Eg as <- <-; [rewrite Els; split; [lia|constructor]|].
    inversion I5. cbn. auto. }
  apply (patch_loop_ok m t extra (B + 0)) in H as (fb' & -> & Hr'); [|apply Hg]. cbn. split; [|rewrite <- Hpc; auto]. split; cbn; auto.
  - rewrite Hpc. now apply (comp_patch m L Rs B (-1) _ 0 _ _ _ (fb (code_writer s))).
  - destruct Hr' as [Hlen _]. unfold vec_size in *. now rewrite Hlen.
  - apply Hg.
  - destruct Hr' as [Hlen _]. unfold vec_size in *. now rewrite Hlen.
Qed.
Lemma if_without_else e (s : pstate) u s' : label_types e = end_types e ->
  (match block_params e, expected_results e with
   | [], [] => parse_check (expected_result e =? types.pseudo) "type mismatch: if without else cannot have a return value"
   | bp, er => parse_check (bool_decide (bp = er)) "type mismatch: if without else requires matching params and results"
   end) s = Ok u s' -> s' = s /\ block_params e = label_types e.
Proof.
  intros ->. unfold end_types, types_of. destruct (block_params e) as [|p ps], (expected_results e) as [|r rs]; intros [Hc ->]%parse_check_Ok;
    try (apply bool_decide_eq_true in Hc; try discriminate); auto. now rewrite Hc.
Qed.
Lemma exit_scope_inv s s' u s0 s1 rest G : Pre s s0 s1 rest G -> exit_scope s = Ok u s' ->
  exists segs' G', Inv s' segs' G' /\ ahead 0 s' /\ (pc_stack s' = [] -> ahead 1 s') /\ code s' = code s.
Proof.
  intros (Hi & Hp & Ha) H. unfold exit_scope in H. step_in H x Hx. destruct (pc_stack s) as [|e pcs] eqn:Epc; [discriminate|].
  apply bind_ok in H as (y & sp & Hy & H). destruct (patch_inv s sp y e pcs s0 s1 rest G Hi Epc Hy) as (Hi1 & Epc1 & Ec1 & En1).
  apply bind_ok in H as (z & se & Hz & H). unfold ahead in *.
  assert (He : exists s0' G' e', Inv se (s0' :: s1 :: rest) G' /\ pc_stack se = e' :: pcs /\ code se = code s /\
    op_index (code_writer se) <= op_index (code_writer s) + 1 /\ (pcs = [] -> op_index (code_writer se) = op_index (code_writer s)) /\
    (is_if e' = true -> block_params e' = label_types e')).
  { pose proof (iv_comp _ _ _ _ _ _ _ _ Hi1) as I1. rewrite Epc1 in I1. pose proof (cp_ctl _ _ _ _ _ _ _ _ _ _ I1) as [He _].
    assert (Hnoif : pcs = [] -> is_if e = false).
    { intros ->. pose proof (iv_bottom _ _ _ _ _ _ _ _ Hi1) as Hbt. rewrite Epc1 in Hbt. destruct Hbt as (e0 & E0 & [_ Hif] & _). now injection E0 as <-. }
    destruct (is_if e) eqn:Eif.
    - pose proof (eo_rel _ _ _ _ _ _ _ He) as Hr. destruct (relocations e); [destruct Hr as (_ & ? & _); congruence|]. destruct Hr as (_ & Hle & _).
      apply bind_ok in Hz as (q & sq & Hq & Hz). destruct (if_without_else _ _ _ _ Hle Hq) as [-> Hbp].
      destruct (block_params e) as [|p ps] eqn:Ebp.
      + apply ret_ok in Hz as [_ ->]. exists s0, G, e. rewrite Ebp, Ec1, En1. split; [exact Hi1|]. split; [exact Epc1|]. split; [reflexivity|]. split; [lia|]. auto.
      + destruct (start_else_post sp se z e pcs s0 s1 rest G Hi1 Epc1 Eif Hz) as (l' & Hi2 & Epc2 & Ec2 & En2 & _).
        do 3 eexists. split; [exact Hi2|]. split; [exact Epc2|]. split; [congruence|]. split; [lia|]. split; [intros E; now specialize (Hnoif E)|]. discriminate.
    - apply ret_ok in Hz as [_ ->]. exists s0, G, e. split; [exact Hi1|]. split; [exact Epc1|]. split; [exact Ec1|]. split; [lia|]. split; [auto|congruence]. }
  destruct He as (s0' & G' & e' & Hi2 & Epc2 & Ec2 & Hn2 & Hnn & Hif). step_in H w Hw. rewrite Epc2 in H.
  destruct (leave_inv se s' u e' pcs s0' s1 rest G' Hi2 Epc2 Hif H) as (segs & G2 & Hi3 & Ep3 & Ec3 & En3).
  exists segs, G2. split; [exact Hi3|]. rewrite Ec3, En3, Ec2, Ep3. split; [lia|]. split; [|reflexivity]. intros E. rewrite (Hnn E). lia.
Qed.
Lemma end_post s s' u s0 s1 rest G : Pre s s0 s1 rest G -> parse_end s = Ok u s' -> Post s'.
Proof.
  intros Hpre H. unfold parse_end in H. step_in H b Hb. step_in H x Hx.
  destruct (exit_scope_inv s st x s0 s1 rest G Hpre Hx) as (segs & G' & Hi & Ha & Ha1 & Ec). step_in H y Hy.
  apply parse_check_Ok in H as [H ->]. exists segs, G'. split; [exact Hi|]. split; [exact Ha|]. intros E.
  split; [|auto]. rewrite bool_decide_eq_true_2 in H by exact E. now apply Z.eqb_eq in H.
Qed.
End Scopes.
