(* ===== verification/BranchSound.v ===== *)
(** * Validated branches

    [br], [br_if], [br_table] and [return] keep the invariant of [BodySound]: the
    depth and the number of results that the writer packs into a branch make the
    interpreter leave exactly the label's types on the stack, and the label gets
    the branch to resolve. *)
From Stdlib Require Import ZArith Lia Bool String.
From stdpp Require Import base list numbers decidable option.
From S2P Require Import Prelude Leb128 Types InitExpr ConstExpr ParseInit Stack Memory Numeric Softfloat Context Operands Interp Demo Invariants.
From S2P Require Import TypedOps TypedVec Typing Control Verifier Termination Writer Validator ParseVec ParseBody TrackerSpec Emission BodySound ScopeSound.
Import GuardedPtr Leb Opcode GasInjector BitcodeWriter Tracker.

Section Branches.
Context (m : module) (_options : Options) (L Rs : list Z) (B : Z) (RT : list Z).
Abbreviation comp := (comp m L Rs B).
Abbreviation cur := (cur L Rs).
Abbreviation ctl := (ctl L Rs).
Abbreviation slot_ok := (slot_ok L Rs B).
Abbreviation label_point := (label_point L Rs).
Abbreviation Inv := (Inv m L Rs B RT).
Abbreviation Pre := (Pre m L Rs B RT).
Abbreviation Post := (Post m L Rs B RT).

(** ** No exception handling *)
Lemma ctl_no_try n : forall pcs segs G fb, ctl n pcs segs G fb -> List.filter is_try_table pcs = [].
Proof.
  induction pcs as [|e pcs IH]; intros [|s0 segs] G fb Hc; cbn [Emission.ctl] in Hc; try contradiction; [reflexivity|].
  destruct Hc as [He Hc]. cbn. rewrite (eo_try _ _ _ _ _ _ _ He). exact (IH _ _ _ Hc).
Qed.
Lemma no_leaves n s segs G fb label : ctl n (pc_stack s) segs G fb -> count_eh_leaves_for_branch label s = 0.
Proof.
  intros Hc. apply ctl_no_try in Hc. unfold count_eh_leaves_for_branch. destruct (_ <=? label); [reflexivity|].
  rewrite <- (take_drop (S (Z.to_nat label)) (pc_stack s)), List.filter_app in Hc. apply app_eq_nil in Hc as [-> _]. reflexivity.
Qed.
Lemma emit_leaves_ok n s segs G fb label u s' : ctl n (pc_stack s) segs G fb -> emit_eh_leaves_for_branch label s = Ok u s' -> s' = s.
Proof.
  intros Hc H. unfold emit_eh_leaves_for_branch in H. step_in H x Hx. rewrite (no_leaves _ _ _ _ _ label Hc) in H.
  apply on_writer_ok in H as (w & H & ->). apply ret_ok in H as [_ ->]. now destruct s.
Qed.

(** ** Depths *)
Lemma entries_drop k : forall segs, entries (drop k segs) <= entries segs.
Proof.
  induction k as [|k IH]; intros [|s0 segs]; cbn [drop]; try lia. rewrite (entries_cons s0). specialize (IH segs). unfold vec_size. lia.
Qed.
Lemma label_target_ok label s e s' : label_target label s = Ok e s' -> s' = s /\ vec_lookup (pc_stack s) label = Some e.
Proof. intros H. unfold label_target in H. step_in H x Hx. step_in H y Hy. apply vec_index_inv in H as [H ->]. auto. Qed.
Lemma depth_change_ok label s d rt rc s' n s0 rest G fb : tracks (op_stack s) (s0 :: rest) -> ctl n (pc_stack s) (s0 :: rest) G fb ->
  compute_depth_change label s = Ok (d, rt, rc) s' ->
  exists e t sA, vec_lookup (pc_stack s) label = Some e /\ s' = s <| op_stack := t |> /\ rc = label_count e /\
    d = entries (s0 :: rest) - entries (drop (S (Z.to_nat label)) (s0 :: rest)) /\
    takes (rev (label_types e)) s0 sA /\ tracks t ((rev (label_types e) ++ sA) :: rest) /\ grows (op_stack s) t.
Proof.
  intros Ht Hc H. unfold compute_depth_change in H. step_in H e He. apply label_target_ok in He as [-> He]. step_in H x Hx.
  apply bind_ok in H as (y & sx & Hy & H). apply ret_ok in H as [E ->]. injection E as -> -> ->.
  apply vec_lookup_Some in He as Hk. destruct Hk as [Hl Hk]. pose proof (ctl_lookup _ _ _ _ _ _ _ _ _ Hc Hk) as Hel.
  assert (Hd : wrap 32 (operand_depth (op_stack s) - pc_operand_depth e) = entries (s0 :: rest) - entries (drop (S (Z.to_nat label)) (s0 :: rest))).
  { rewrite (tr_depth _ _ Ht), (eo_depth _ _ _ _ _ _ _ Hel). apply wrap_small. pose proof (tr_small _ _ Ht).
    pose proof (entries_drop (S (Z.to_nat label)) (s0 :: rest)). pose proof (entries_nonneg (drop (S (Z.to_nat label)) (s0 :: rest))). unfold in_u. lia. }
  pose proof (eo_label _ _ _ _ _ _ _ Hel) as Hv. unfold label_types in *.
  assert (Hb : exists t sA, sx = s <| op_stack := t |> /\ takes (rev (types_of (label_result e) (label_results e))) s0 sA /\
    tracks t ((rev (types_of (label_result e) (label_results e)) ++ sA) :: rest) /\ grows (op_stack s) t).
  { destruct (label_results e) as [|r rs] eqn:Er.
    - pose proof (types_of_single _ _ Hv eq_refl) as Hs. unfold types_of in *. destruct (Z.eqb_spec (label_result e) types.pseudo) as [E|E]; cbn [negb] in Hy.
      + apply ret_ok in Hy as [_ ->]. exists (op_stack s), s0. split; [now destruct s|]. split; [|split; [exact Ht|unfold grows; lia]].
        apply takes_nil. pose proof (tr_segs _ _ Ht) as Hs'. now inversion Hs'.
      + apply on_stack_ok in Hy as (t & Hy & ->). rewrite single_wrap in Hy by exact Hs. destruct Hs as [Hs|]; [|contradiction].
        destruct (top_tracks _ _ _ _ _ _ Ht Hs Hy) as (sA & HsA & Ht' & Hg). eauto 6.
    - step_in Hy z Hz. apply on_stack_ok in Hy as (t2 & Hy & ->). cbn [types_of] in *.
      destruct (pop_rev_tracks _ _ _ _ _ _ Ht Hv Hz) as (sA & Ht1 & HsA & Hg1).
      destruct (pushes_tracks _ _ _ _ _ _ Ht1 Hv Hy) as [Ht2 Hg2]. exists t2, sA. split; [reflexivity|]. split; [exact HsA|].
      split; [exact Ht2|unfold grows in *; lia]. }
  destruct Hb as (t & sA & -> & HsA & Ht' & Hg). exists e, t, sA. repeat (split; [first [assumption|reflexivity]|]). exact Hg.
Qed.

(** ** Packed depths *)
Lemma encode_state {S} d rt rc (s : S) data s' : encode_depth_change d rt rc s = Ok data s' -> s' = s /\ d <= 0x00FFFFFF.
Proof.
  intros H. unfold encode_depth_change in H. step_in H x Hx. step_in H y Hy. apply ret_ok in H as [_ ->].
  unfold psizam_assert in Hx, Hy. destruct (Z.leb_spec d 0x00FFFFFF); [|discriminate]. destruct (_ <=? 255); [|discriminate].
  injection Hx as _ <-. injection Hy as _ <-. auto.
Qed.
Lemma encode_pop_info {S} d rt rc (s : S) data s' : 0 <= rc <= d -> encode_depth_change d rt rc s = Ok data s' -> data = pop_info rc d.
Proof.
  intros Hrc H. pose proof (encode_state _ _ _ _ _ _ H) as [_ Hd]. unfold encode_depth_change in H.
  assert (E : (rc =? UINT32_MAX) = false) by (apply Z.eqb_neq; unfold UINT32_MAX; lia). rewrite E in H.
  step_in H x Hx. step_in H y Hy. apply ret_ok in H as [-> _]. reflexivity.
Qed.
Lemma label_count_types e : vec_size (label_types e) < 2 ^ 32 -> label_count e = vec_size (label_types e).
Proof.
  unfold label_count, label_types, types_of. destruct (label_results e); [now destruct (_ =? _)|]. intros H. apply wrap_small.
  unfold in_u, vec_size in *. lia.
Qed.
(** Where a branch to the label of level [k] goes, from operands that start with
    the label's types. *)
Lemma branch_point_label k e sA rest pt data : let segs := (rev (label_types e) ++ sA) :: rest in
  live segs = true -> entries segs < 2 ^ 32 -> pt_locals pt = L -> pt_results pt = Rs ->
  let d := entries segs - entries (drop (S k) segs) in
  forall (St : Type) (s s' : St) rt, encode_depth_change d rt (label_count e) s = Ok data s' ->
  branch_point pt (map rep_type (concat segs)) data = Some (label_point e (drop (S k) segs)).
Proof.
  intros segs Hl Hsm HL HR d St s s' rt He. assert (Hcat : concat segs = concat (take (S k) segs) ++ concat (drop (S k) segs)).
  { rewrite <- concat_app. now rewrite take_drop. }
  assert (Hl' : live (drop (S k) segs) = true).
  { apply live_segs in Hl. apply live_segs. now apply Forall_drop. }
  assert (Hd : d = vec_size (concat (take (S k) segs))).
  { unfold d. rewrite (entries_live _ Hl), (entries_live _ Hl'), Hcat. unfold vec_size. rewrite length_app. lia. }
  assert (Htop : concat (take (S k) segs) = rev (label_types e) ++ (sA ++ concat (take k rest))).
  { unfold segs. cbn [take concat]. now rewrite app_assoc. }
  assert (Hrc : vec_size (label_types e) <= d).
  { rewrite Hd, Htop. unfold vec_size. rewrite !length_app, length_rev. lia. }
  assert (Hds : d <= entries segs) by (unfold d; pose proof (entries_nonneg (drop (S k) segs)); lia).
  rewrite label_count_types in He by lia. pose proof (encode_state _ _ _ _ _ _ He) as [_ Hd24].
  apply encode_pop_info in He; [|unfold vec_size in *; lia]. subst data.
  assert (Hu : in_u 24 d) by (unfold in_u; rewrite Hd in *; unfold vec_size in *; lia).
  unfold branch_point. rewrite pop_info_depth, pop_info_count by (auto; unfold vec_size; lia).
  assert (Hsz : d <= vec_size (map rep_type (concat segs))).
  { unfold vec_size. rewrite length_map. rewrite Hcat, length_app. unfold vec_size in Hd. lia. }
  rewrite (proj2 (Z.leb_le 0 _)), (proj2 (Z.leb_le _ d) Hrc), (proj2 (Z.leb_le d _) Hsz) by (unfold vec_size; lia). cbn [andb].
  f_equal. unfold label_point, Emission.label_point, point_of, with_stack. rewrite HL, HR. f_equal. cbn [concat]. rewrite map_app.
  f_equal.
  - rewrite Hcat, Htop, !map_app, <- app_assoc. rewrite take_app_length'; [reflexivity|]. rewrite length_map, length_rev. unfold vec_size. lia.
  - rewrite Hcat, map_app. rewrite drop_app_length'; [reflexivity|]. rewrite length_map, Hd. unfold vec_size. lia.
Qed.

(** ** The branch under construction *)

(** The instruction [x] has the slots of [ps] at their labels; the others are
    not held by any label.  What the slots find there matters if [Q] holds: the
    code is not dead. *)
Record building (s : pstate) (x : Z) (segs : list (list Z)) (G : typing) (op : opcode) (ps : list point) (Q : Prop) : Prop := {
  bd_comp : comp x (op_index (code_writer s)) (pc_stack s) segs G (fb (code_writer s));
  bd_op : vec_lookup (fb (code_writer s)) x = Some op;
  bd_at : 0 <= x < op_index (code_writer s);
  bd_nogas : forall c, op <> gas_charge_ c;
  bd_len : (length ps <= length (targets op))%nat;
  bd_free : forall j, Z.of_nat (length ps) <= j -> free (pc_stack s) (BranchAt x j);
  bd_slots : Q -> forall j p pc, ps !! j = Some p -> targets op !! j = Some pc ->
    slot_ok (op_index (code_writer s)) (pc_stack s) segs G (fb (code_writer s)) (BranchAt x (Z.of_nat j)) p pc;
  bd_base : _base_offset (code_writer s) = B /\ 0 <= B /\ B + vec_size (fb (code_writer s)) < 2 ^ 32 }.

(** Labels but for their branches. *)
Definition same_label (e e' : pc_element_t) : Prop := exists r, e' = e <| relocations := r |>.
Lemma same_label_refl e : same_label e e.
Proof. exists (relocations e). now destruct e. Qed.
Lemma same_label_trans e e1 e2 : same_label e e1 -> same_label e1 e2 -> same_label e e2.
Proof. intros [r ->] [r' ->]. now exists r'. Qed.
Definition same_labels : list pc_element_t -> list pc_element_t -> Prop := Forall2 same_label.
Lemma same_labels_refl l : same_labels l l.
Proof. induction l; constructor; auto using same_label_refl. Qed.
Lemma same_labels_insert l k e e' : l !! k = Some e -> same_label e e' -> same_labels l (<[k := e']> l).
Proof.
  revert k. induction l as [|a l IH]; intros [|k] Hk He; try discriminate; cbn.
  - injection Hk as ->. constructor; [exact He|apply same_labels_refl].
  - constructor; [apply same_label_refl|now apply IH].
Qed.
Lemma same_labels_lookup l l' i e : same_labels l l' -> vec_lookup l i = Some e -> exists e', vec_lookup l' i = Some e' /\ same_label e e'.
Proof.
  intros H [H0 Hi]%vec_lookup_Some. destruct (Forall2_lookup_l _ _ _ _ _ H Hi) as (e' & Hi' & He'). exists e'. split; [now apply vec_lookup_Some|exact He'].
Qed.

(** What a step of the construction leaves alone. *)
Record frame (s s' : pstate) : Prop := {
  fr_code : code s' = code s;
  fr_stack : op_stack s' = op_stack s;
  fr_gas : gas_state s' = gas_state s;
  fr_index : op_index (code_writer s') = op_index (code_writer s);
  fr_size : vec_size (fb (code_writer s')) = vec_size (fb (code_writer s));
  fr_labels : same_labels (pc_stack s) (pc_stack s') }.
Lemma frame_refl s : frame s s.
Proof. split; auto. apply same_labels_refl. Qed.
Lemma frame_trans s s1 s2 : frame s s1 -> frame s1 s2 -> frame s s2.
Proof.
  intros [A1 A2 A3 A4 A5 A6] [B1 B2 B3 B4 B5 B6]. split; try congruence. clear -A6 B6. revert B6. generalize (pc_stack s2).
  induction A6 as [|e e1 l l1 He _ IH]; intros l2 H2; inversion H2; subst; constructor; [eapply same_label_trans; eauto|now apply IH].
Qed.

(** The instruction is rewritten. *)
Lemma building_rewrite s x segs G op ps Q op' : building s x segs G op ps Q -> (forall c, op' <> gas_charge_ c) ->
  (forall j pc, (j < length ps)%nat -> targets op' !! j = Some pc -> targets op !! j = Some pc) ->
  (length (targets op) <= length (targets op'))%nat ->
  building (s <| code_writer := (code_writer s) <| fb := vec_update (fb (code_writer s)) x op' |> |>) x segs G op' ps Q.
Proof.
  intros [H1 H2 H3 H4 H5 H6 H7 H8] Hng Hpc Hlen. destruct (comp_rewrite m L Rs B _ _ _ _ _ _ op op' H1 H2 H4) as [Hc Hs]; [unfold vec_size; lia|].
  split; cbn; auto.
  - rewrite vec_lookup_update by (eapply vec_lookup_lt; eauto). now destruct (decide (x = x)).
  - lia.
  - intros q j p pc Hj Htj. apply Hs. eapply H7; [exact q|exact Hj|]. apply Hpc; [now apply lookup_lt_Some in Hj|exact Htj].
  - now rewrite vec_update_size.
Qed.

Lemma set_target_lookup op j v op' : set_target op (Z.of_nat j) v = Some op' -> (j < length (targets op))%nat -> targets op' = <[j := v]> (targets op).
Proof.
  intros H Hj. destruct op; cbn in Hj; try lia; try (cbn in H; injection H as <-; destruct j; [reflexivity|lia]).
  cbn in H. destruct (vec_lookup table (Z.of_nat j)) eqn:E; [|discriminate]. injection H as <-. unfold vec_update.
  destruct (Z.ltb_spec (Z.of_nat j) 0); [lia|]. cbn. now rewrite Nat2Z.id, list_fmap_insert.
Qed.
Lemma set_target_nogas op j v op' : set_target op j v = Some op' -> forall c, op' <> gas_charge_ c.
Proof. destruct op; cbn; try discriminate; try (now intros [= <-]). destruct (vec_lookup _ _); [|discriminate]. now intros [= <-]. Qed.

(** The next slot goes to a label. *)
Lemma building_handle s x segs G op ps Q k u s' e : building s x segs G op ps Q -> (length ps < length (targets op))%nat ->
  vec_lookup (pc_stack s) k = Some e -> (Q -> live (drop (S (Z.to_nat k)) segs) = true) ->
  handle_branch_target k (BranchAt x (Z.of_nat (length ps))) s = Ok u s' ->
  exists op', building s' x segs G op' (ps ++ [label_point e (drop (S (Z.to_nat k)) segs)]) Q /\ frame s s' /\
    (op' = op \/ exists v, set_target op (Z.of_nat (length ps)) v = Some op').
Proof.
  intros Hb Hlt Hk HQ H. pose proof Hb as [H1 H2 H3 H4 H5 H6 H7 H8]. unfold handle_branch_target in H. step_in H e0 He0.
  apply label_target_ok in He0 as [-> He0]. rewrite Hk in He0. injection He0 as <-. set (b := BranchAt x (Z.of_nat (length ps))) in *.
  apply vec_lookup_Some in Hk as Hk'. destruct Hk' as [Hk0 Hk']. set (n := op_index (code_writer s)) in *.
  pose proof (cp_ctl _ _ _ _ _ _ _ _ _ _ H1) as Hctl. pose proof (H6 (Z.of_nat (length ps)) (Z.le_refl _)) as Hfr. fold b in Hfr.
  assert (Hslot : slot_in (fb (code_writer s)) n b).
  { split; [exact H3|]. exists op. split; [exact H2|]. cbn. unfold vec_size. lia. }
  destruct (relocations e) as [t|l] eqn:Er.
  - apply on_writer_ok in H as (w & H & ->). unfold fix_branch in H. step_in H y Hy.
    pose proof (eo_rel _ _ _ _ _ _ _ (ctl_lookup _ _ _ _ _ _ _ _ _ Hctl Hk')) as Hr. rewrite Er in Hr. destruct Hr as (_ & _ & _ & _ & [Ht _] & _).
    pose proof (cp_room _ _ _ _ _ _ _ _ _ _ H1) as Hroom. destruct H8 as (Eb & HB & HB2).
    rewrite Eb, wrap_small in H by (unfold in_u; lia). unfold store_branch in H. step_in H z Hz. cbn [at_op at_target b] in H. rewrite H2 in H.
    destruct (set_target op (Z.of_nat (length ps)) (B + t)) as [op'|] eqn:Es; [|discriminate]. apply modify_ok in H. subst w.
    pose proof (set_target_lookup _ _ _ _ Es Hlt) as Htg.
    pose proof (building_rewrite s x segs G op ps Q op' Hb (set_target_nogas _ _ _ _ Es)) as Hb'. destruct Hb' as [K1 K2 K3 K4 K5 K6 K7 K8].
    { intros j pc Hj Hpc. rewrite Htg, list_lookup_insert_ne in Hpc by lia. exact Hpc. }
    { now rewrite Htg, length_insert. }
    exists op'. split; [|split; [split; cbn; auto; [now rewrite vec_update_size|apply same_labels_refl]|eauto]]. split; cbn in *; auto.
    + rewrite length_app, Htg, length_insert. cbn. lia.
    + intros j Hj. rewrite length_app in Hj. apply K6. lia.
    + intros q j p pc Hj Hpc. apply lookup_app_Some in Hj as [Hj|[Hge Hj]]; [now apply K7|].
      apply list_lookup_singleton_Some in Hj as [Hj <-]. assert (j = length ps) as -> by lia.
      rewrite Htg, list_lookup_insert_eq in Hpc by exact Hlt. injection Hpc as <-.
      apply (slot_loop L Rs B _ _ _ _ _ (Z.to_nat k) e t); auto. exact (cp_ctl _ _ _ _ _ _ _ _ _ _ K1).
  - apply modify_ok in H. subst s'. fold (hold e l b). unfold vec_update. destruct (Z.ltb_spec k 0); [lia|].
    exists op. split; [|split; [split; cbn; auto|auto]].
    + split; cbn; auto.
      * now apply comp_hold.
      * rewrite length_app. cbn. lia.
      * intros j Hj. rewrite length_app in Hj. cbn in Hj. unfold free. rewrite Forall_lookup. intros i e' Hi.
        destruct (decide (i = Z.to_nat k)) as [->|Hne].
        -- rewrite list_lookup_insert_eq in Hi by (now apply lookup_lt_Some in Hk'). injection Hi as <-. unfold holds_branch, hold. cbn.
           rewrite elem_of_app, list_elem_of_singleton. intros [Hin|E]; [|injection E as E; lia].
           specialize (H6 j ltac:(lia)). unfold free in H6. rewrite Forall_lookup in H6. apply (H6 _ _ Hk'). unfold holds_branch. now rewrite Er.
        -- rewrite list_lookup_insert_ne in Hi by congruence. specialize (H6 j ltac:(lia)). unfold free in H6. rewrite Forall_lookup in H6. eauto.
      * intros q j p pc Hj Hpc. apply lookup_app_Some in Hj as [Hj|[Hge Hj]].
        -- apply lookup_lt_Some in Hj as Hjl. apply slot_hold; auto. unfold b. intros E. injection E as E. lia.
        -- apply list_lookup_singleton_Some in Hj as [Hj <-]. assert (j = length ps) as -> by lia. now apply slot_held; auto.
    + apply same_labels_insert with (e := e); [exact Hk'|]. exists (branches (l ++ [b])). reflexivity.
Qed.

Lemma building_start s s' s0 sX rest G op Q : Inv s (s0 :: rest) G -> op_index (code_writer s) < vec_size (fb (code_writer s)) ->
  pc_stack s' = pc_stack s -> code_writer s' = appended (code_writer s) op -> (forall c, op <> gas_charge_ c) ->
  building s' (op_index (code_writer s)) (sX :: rest) (G ++ [cur (sX :: rest)]) op [] Q.
Proof.
  intros [I1 I2 I3 I4 I5 I6 I7 I8 I9] Hlt Ep Ew Hng. pose proof (cp_room _ _ _ _ _ _ _ _ _ _ I1) as Hroom. split; rewrite ?Ew, ?Ep; cbn; auto.
  - now apply (comp_append m L Rs B _ _ s0).
  - rewrite vec_lookup_update by lia. now destruct (decide _).
  - lia.
  - lia.
  - intros j _. eapply ctl_fresh; [exact (cp_ctl _ _ _ _ _ _ _ _ _ _ I1)|cbn; lia].
  - discriminate.
  - rewrite vec_update_size. tauto.
Qed.
Lemma building_close s x segs G op ps Q : building s x segs G op ps Q -> length (targets op) = length ps ->
  (forall pt, type_at G x = Some pt -> Q /\ exists nx, needs m pt op = Some (nx, ps) /\ forall p, nx = Some p -> type_at G (x + 1) = Some p) ->
  comp (-1) (op_index (code_writer s)) (pc_stack s) segs G (fb (code_writer s)).
Proof.
  intros [H1 H2 H3 H4 H5 H6 H7 H8] Hlen Hty. eapply comp_close; [exact H1|]. intros pt Hpt. exists op. split; [exact H2|].
  destruct (Hty pt Hpt) as (q & nx & Hn & Hnx). exists nx, ps. split; [exact Hn|]. split; [exact Hlen|]. split; [exact Hnx|].
  split; [now apply H7|]. intros c E. now destruct (H4 c).
Qed.
Lemma Inv_built s s' s0 segs G segs' G' : Inv s (s0 :: segs) G ->
  comp (-1) (op_index (code_writer s')) (pc_stack s') segs' G' (fb (code_writer s')) ->
  _base_offset (code_writer s') = B -> vec_size (fb (code_writer s')) = vec_size (fb (code_writer s)) -> gas_state s' = gas_state s ->
  adv 0 (code s) (code s') -> tracks (op_stack s') segs' ->
  (forall o pt, type_at G' o = Some pt -> vec_size (pt_stack pt) <= maximum_operand_depth (op_stack s')) ->
  bottom RT (pc_stack s') segs' -> Inv s' segs' G'.
Proof.
  intros [I1 I2 I3 I4 I5 I6 I7 I8 I9] Hc Eb Es Eg Ha Ht Hm Hbt. split; auto.
  - now rewrite Es.
  - now rewrite Eg.
  - eapply adv_good; [exact I6| |exact Ha]. lia.
  - rewrite Es, I7. symmetry. apply Ha.
Qed.
(** What the instruction to come was typed with. *)
Lemma point_here s segs G c pt : Inv s segs G -> type_at (G ++ [c]) (op_index (code_writer s)) = Some pt ->
  live segs = true /\ pt = point_of L Rs segs.
Proof.
  intros [I1 _ _ _ _ _ _ _ _] Hpt. apply type_at_snoc_inv in Hpt as [Hpt|[E _]]; [|pose proof (cp_size _ _ _ _ _ _ _ _ _ _ I1); lia].
  apply type_at_lookup in Hpt. rewrite (cp_cur _ _ _ _ _ _ _ _ _ _ I1) in Hpt. unfold Emission.cur in Hpt. destruct (live segs); [|discriminate].
  injection Hpt as <-. auto.
Qed.
Lemma dead_cur rest : cur ([unreachable_tag] :: rest) = None.
Proof. unfold cur, Emission.cur. rewrite dead_not_live; [reflexivity|]. exists []. auto. Qed.
Lemma Inv_code s segs G g : Inv s segs G -> adv 0 (code s) g -> Inv (s <| code := g |>) segs G.
Proof.
  intros [I1 I2 I3 I4 I5 I6 I7 I8 I9] Ha. split; cbn; auto; [eapply adv_good; [exact I6| |exact Ha]; lia|]. rewrite I7. symmetry. apply Ha.
Qed.
Lemma Pre_code s s0 s1 rest G g : Pre s s0 s1 rest G -> adv 0 (code s) g -> Pre (s <| code := g |>) s0 s1 rest G.
Proof.
  intros (Hi & Hp & Ha) Hadv. split; [now apply Inv_code|]. split; [exact Hp|]. unfold ahead in *. cbn. destruct Hadv as (_ & _ & Hadv). lia.
Qed.
Lemma live_drop k s segs : live segs = true -> live (drop (S k) (s :: segs)) = true.
Proof. rewrite !live_segs. cbn. apply Forall_drop. Qed.
Lemma same_labels_nil l l' : same_labels l l' -> l <> [] -> l' <> [].
Proof. intros H Hl ->. apply Hl. now inversion H. Qed.

Lemma bottom_labels pcs pcs' s0 s0' s1 rest : same_labels pcs pcs' -> pcs <> [] -> bottom RT pcs (s0 :: s1 :: rest) -> bottom RT pcs' (s0' :: s1 :: rest).
Proof.
  intros Hs Hp Hb. apply (bottom_same RT pcs); [|now apply (bottom_top RT pcs s0)]. clear -Hs.
  induction Hs as [|e e' l l' [r ->] _ IH]; constructor; auto. now split.
Qed.

(** ** [br] and [return] *)
Definition jump (label : Z) : M pstate unit :=
  emit_eh_leaves_for_branch label ;;;
  let* d := compute_depth_change label in
  let '(depth_change, rt, rc) := d in
  let* branch := on_writer (emit_br depth_change rt rc) in
  handle_branch_target label branch ;;;
  on_stack start_unreachable.

Lemma br_write d rt rc w b w' : emit_br d rt rc w = Ok b w' ->
  op_index w < vec_size (fb w) /\ b = BranchAt (op_index w) 0 /\
  exists data, encode_depth_change d rt rc w = Ok data w /\ w' = (appended w (br_ 0 0)) <| fb := vec_update (fb (appended w (br_ 0 0))) (op_index w) (br_ data 0) |>.
Proof.
  intros H. unfold emit_br in H. step_in H i Hi. apply append_ok in Hi as (-> & Hlt & ->). step_in H data Hd.
  apply encode_state in Hd as E. destruct E as [-> _]. step_in H x Hx. apply put_ok in Hx as [_ ->]. apply ret_ok in H as [-> ->].
  split; [exact Hlt|]. split; [reflexivity|]. exists data. split; [|reflexivity]. revert Hd. unfold encode_depth_change, bind, psizam_assert, ret, throw.
  destruct (d <=? _); [|discriminate]. destruct (_ <=? 255); [|discriminate]. now intros [= <-].
Qed.

Lemma jump_post label s s' u s0 s1 rest G : Pre s s0 s1 rest G -> jump label s = Ok u s' -> Post s'.
Proof.
  intros Hpre H. pose proof Hpre as (Hi & Hp & Ha). pose proof (iv_comp _ _ _ _ _ _ _ _ Hi) as I1. pose proof (cp_ctl _ _ _ _ _ _ _ _ _ _ I1) as Hctl.
  unfold jump in H. step_in H x Hx. apply (emit_leaves_ok _ _ _ _ _ _ _ _ Hctl) in Hx as ->. apply bind_ok in H as ([[d rt] rc] & sd & Hd & H).
  destruct (depth_change_ok _ _ _ _ _ _ _ _ _ _ _ (iv_tracks _ _ _ _ _ _ _ _ Hi) Hctl Hd) as (e & t & sA & He & -> & -> & Ed & HsA & Ht & Hg).
  step_in H b Hb. apply br_write in Hb as (Hlt & -> & data & Henc & ->). cbn [code_writer] in Hlt, Henc.
  step_in H y Hy. apply on_stack_ok in H as (t' & H & ->). set (n := op_index (code_writer s)) in *.
  set (sa := s <| op_stack := t |> <| code_writer := appended (code_writer s) (br_ 0 0) |>).
  set (Q := live (s0 :: s1 :: rest) = true). set (dead := [unreachable_tag]).
  assert (Hb0 : building sa n (dead :: s1 :: rest) (G ++ [cur (dead :: s1 :: rest)]) (br_ 0 0) [] Q) by (apply (building_start s sa s0); auto; discriminate).
  apply building_rewrite with (op' := br_ data 0) in Hb0; [|discriminate|intros j pc Hj; cbn in Hj; lia|cbn; lia].
  apply vec_lookup_Some in He as Hk. destruct Hk as [Hl0 Hk].
  destruct (building_handle _ n _ _ _ _ _ label y st e Hb0) as (op' & Hb1 & Hf & Hop'); [cbn; lia|exact He| |exact Hy|].
  { intros Hq. unfold Q in Hq. apply live_cons in Hq as [_ Hq]. now apply live_drop. }
  cbn [app] in Hb1. destruct (start_unreachable_tracks (op_stack st) t' u (rev (label_types e) ++ sA) (s1 :: rest)) as [Htd Hgd];
    [rewrite (fr_stack _ _ Hf); exact Ht|discriminate|exact H|].
  exists (dead :: s1 :: rest), (G ++ [cur (dead :: s1 :: rest)]). split; [|split].
  - apply (Inv_built s _ s0 (s1 :: rest) G _ _ Hi); cbn.
    + eapply building_close; [exact Hb1| |].
      * destruct Hop' as [->|(v & Hs)]; [reflexivity|]. cbn in Hs. injection Hs as <-. reflexivity.
      * intros pt Hpt. destruct (point_here s _ G _ pt Hi Hpt) as [Hl ->]. split; [exact Hl|]. exists None.
        split; [|discriminate]. destruct (takes_live _ _ _ _ HsA Hl) as [E0 _].
        assert (Hbp : branch_point (point_of L Rs (s0 :: s1 :: rest)) (map rep_type (concat (s0 :: s1 :: rest))) data =
          Some (label_point e (drop (S (Z.to_nat label)) (s0 :: s1 :: rest)))).
        { rewrite E0 in *. eapply branch_point_label; [exact Hl|exact (tr_small _ _ (iv_tracks _ _ _ _ _ _ _ _ Hi))|reflexivity|reflexivity|].
          rewrite Ed in Henc. exact Henc. }
        destruct Hop' as [->|(v & Hs)]; [|cbn in Hs; injection Hs as <-]; cbn [needs pt_stack point_of]; now rewrite Hbp.
    + apply Hb1.
    + rewrite (fr_size _ _ Hf). cbn. now rewrite !vec_update_size.
    + exact (fr_gas _ _ Hf).
    + rewrite (fr_code _ _ Hf). cbn. apply adv_refl, Hi.
    + exact Htd.
    + apply (max_snoc L Rs t' _ G (maximum_operand_depth (op_stack s)) Htd); [|apply Hi].
      unfold grows in *. rewrite (fr_stack _ _ Hf) in Hgd. cbn in Hgd. lia.
    + exact (bottom_labels _ _ s0 _ s1 rest (fr_labels _ _ Hf) Hp (iv_bottom _ _ _ _ _ _ _ _ Hi)).
  - unfold ahead in *. cbn. rewrite (fr_index _ _ Hf), (fr_code _ _ Hf). cbn. lia.
  - cbn. intros E. exfalso. exact (same_labels_nil _ _ (fr_labels _ _ Hf) Hp E).
Qed.
Lemma br_post s s' u s0 s1 rest G : Pre s s0 s1 rest G -> parse_br s = Ok u s' -> Post s'.
Proof.
  intros Hpre H. unfold parse_br in H. step_in H b Hb. step_in H label H1. pose proof Hpre as (Hi & _).
  destruct (varuint_adv 32 _ _ _ (or_introl eq_refl) (iv_good _ _ _ _ _ _ _ _ Hi) H1) as [Ha _].
  exact (jump_post label _ s' u s0 s1 rest G (Pre_code _ _ _ _ _ g Hpre (adv_weaken 1 _ _ ltac:(lia) Ha)) H).
Qed.
Lemma return_post s s' u s0 s1 rest G : Pre s s0 s1 rest G -> parse_return s = Ok u s' -> Post s'.
Proof. intros Hpre H. unfold parse_return in H. step_in H b Hb. step_in H x Hx. exact (jump_post _ s s' u s0 s1 rest G Hpre H). Qed.

(** ** [br_if] *)
Lemma br_if_write d rt rc w b w' : emit_br_if d rt rc 0 w = Ok b w' ->
  op_index w < vec_size (fb w) /\ b = BranchAt (op_index w) 0 /\
  exists data, encode_depth_change d rt rc w = Ok data w /\
    w' = (appended w (br_if_ 0 0 0)) <| fb := vec_update (fb (appended w (br_if_ 0 0 0))) (op_index w) (br_if_ data 0 0) |>.
Proof.
  intros H. unfold emit_br_if in H. step_in H i Hi. apply append_ok in Hi as (-> & Hlt & ->). step_in H data Hd.
  apply encode_state in Hd as E. destruct E as [-> _]. step_in H x Hx. apply put_ok in Hx as [_ ->]. apply ret_ok in H as [-> ->].
  split; [exact Hlt|]. split; [reflexivity|]. exists data. split; [|reflexivity]. revert Hd. unfold encode_depth_change, bind, psizam_assert, ret, throw.
  destruct (d <=? _); [|discriminate]. destruct (_ <=? 255); [|discriminate]. now intros [= <-].
Qed.
Definition cond_jump (label : Z) : M pstate unit :=
  on_stack (pop types.i32) ;;;
  let* s := get in
  let eh_count := count_eh_leaves_for_branch label s in
  let* d := compute_depth_change label in
  let '(depth_change, rt, rc) := d in
  let* branch := on_writer (emit_br_if depth_change rt rc eh_count) in
  handle_branch_target label branch.
Lemma cond_jump_post label s s' u s0 s1 rest G : Pre s s0 s1 rest G -> cond_jump label s = Ok u s' -> Post s'.
Proof.
  intros Hpre H. unfold cond_jump in H. pose proof Hpre as (Hi & Hp & Ha). pose proof (iv_comp _ _ _ _ _ _ _ _ Hi) as I1. pose proof (cp_ctl _ _ _ _ _ _ _ _ _ _ I1) as Hctl.
  step_in H a1 H1. destruct (pop_tracks _ _ _ _ _ _ (iv_tracks _ _ _ _ _ _ _ _ Hi) valtype_i32 H1) as (sI & HtI & HsI & HgI).
  step_in H x Hx. rewrite (no_leaves (op_index (code_writer s)) _ (s0 :: s1 :: rest) G (fb (code_writer s)) label) in H by exact Hctl.
  apply bind_ok in H as ([[d rt] rc] & sd & Hd & H).
  apply (depth_change_ok _ _ _ _ _ _ (op_index (code_writer s)) sI (s1 :: rest) G (fb (code_writer s))) in Hd as (e & t' & sA & He & -> & -> & Ed & HsA & Ht & Hg);
    [|exact HtI|exact (ctl_top L Rs _ _ s0 sI _ _ _ Hctl)].
  step_in H b Hb. apply br_if_write in Hb as (Hlt & -> & data & Henc & ->). cbn [code_writer] in Hlt, Henc. set (n := op_index (code_writer s)) in *.
  set (sX := rev (label_types e) ++ sA) in *. set (Q := live (s0 :: s1 :: rest) = true).
  set (sa := s <| op_stack := t |> <| op_stack := t' |> <| code_writer := appended (code_writer s) (br_if_ 0 0 0) |>).
  assert (Hb0 : building sa n (sX :: s1 :: rest) (G ++ [cur (sX :: s1 :: rest)]) (br_if_ 0 0 0) [] Q) by (apply (building_start s sa s0); auto; discriminate).
  apply building_rewrite with (op' := br_if_ data 0 0) in Hb0; [|discriminate|intros j pc Hj; cbn in Hj; lia|cbn; lia].
  destruct (building_handle _ n _ _ _ _ _ label u s' e Hb0) as (op' & Hb1 & Hf & Hop'); [cbn; lia|exact He| |exact H|].
  { intros Hq. unfold Q in Hq. apply live_cons in Hq as [_ Hq]. now apply live_drop. }
  cbn [app] in Hb1. exists (sX :: s1 :: rest), (G ++ [cur (sX :: s1 :: rest)]). split; [|split].
  - apply (Inv_built s _ s0 (s1 :: rest) G _ _ Hi); cbn.
    + eapply building_close; [exact Hb1| |].
      * destruct Hop' as [->|(v & Hs)]; [reflexivity|]. cbn in Hs. injection Hs as <-. reflexivity.
      * intros pt Hpt. destruct (point_here s _ G _ pt Hi Hpt) as [Hl ->]. split; [exact Hl|].
        destruct (takes_live _ _ _ _ HsI Hl) as [E0 HlI]. destruct (takes_live _ _ _ _ HsA HlI) as [EI _]. fold sX in EI.
        exists (Some (point_of L Rs (sX :: s1 :: rest))). split.
        2:{ intros p Hpp. injection Hpp as <-. apply type_at_lookup. rewrite vec_lookup_snoc by exact (cp_size _ _ _ _ _ _ _ _ _ _ I1).
            unfold Emission.cur. rewrite <- EI, HlI. reflexivity. }
        assert (Hbp : branch_point (point_of L Rs (s0 :: s1 :: rest)) (map rep_type (concat (sX :: s1 :: rest))) data =
          Some (label_point e (drop (S (Z.to_nat label)) (sX :: s1 :: rest)))).
        { rewrite EI in *. eapply branch_point_label; [exact HlI|exact (tr_small _ _ HtI)|reflexivity|reflexivity|].
          rewrite Ed in Henc. exact Henc. }
        assert (Hst : pt_stack (point_of L Rs (s0 :: s1 :: rest)) = types.i32 :: map rep_type (concat (sX :: s1 :: rest))) by (rewrite E0, EI; reflexivity).
        destruct Hop' as [->|(v & Hs)]; [|cbn in Hs; injection Hs as <-]; cbn [needs]; rewrite Hst; change (types.i32 =? types.i32) with true;
          change (0 =? 0) with true; cbn [andb]; rewrite Hbp; reflexivity.
    + apply Hb1.
    + rewrite (fr_size _ _ Hf). cbn. now rewrite !vec_update_size.
    + exact (fr_gas _ _ Hf).
    + rewrite (fr_code _ _ Hf). cbn. apply adv_refl, Hi.
    + rewrite (fr_stack _ _ Hf). exact Ht.
    + rewrite (fr_stack _ _ Hf). apply (max_snoc L Rs t' _ G (maximum_operand_depth (op_stack s)) Ht); [|apply Hi].
      unfold grows in *. cbn in *. lia.
    + exact (bottom_labels _ _ s0 _ s1 rest (fr_labels _ _ Hf) Hp (iv_bottom _ _ _ _ _ _ _ _ Hi)).
  - unfold ahead in *. cbn. rewrite (fr_index _ _ Hf), (fr_code _ _ Hf). cbn. lia.
  - cbn. intros E. exfalso. exact (same_labels_nil _ _ (fr_labels _ _ Hf) Hp E).
Qed.
Lemma br_if_post s s' u s0 s1 rest G : Pre s s0 s1 rest G -> parse_br_if s = Ok u s' -> Post s'.
Proof.
  intros Hpre H. unfold parse_br_if in H. step_in H b Hb. step_in H label H1. pose proof Hpre as (Hi & _).
  destruct (varuint_adv 32 _ _ _ (or_introl eq_refl) (iv_good _ _ _ _ _ _ _ _ Hi) H1) as [Ha _].
  exact (cond_jump_post label _ s' u s0 s1 rest G (Pre_code _ _ _ _ _ g Hpre (adv_weaken 1 _ _ ltac:(lia) Ha)) H).
Qed.

(** ** [br_table] *)
Lemma building_ext s s' x segs G op ps Q : pc_stack s' = pc_stack s -> code_writer s' = code_writer s ->
  building s x segs G op ps Q -> building s' x segs G op ps Q.
Proof. intros E1 E2 [H1 H2 H3 H4 H5 H6 H7 H8]. split; rewrite ?E1, ?E2; auto. Qed.

Lemma emit_case_ok x d rt rc leaves w b w' sz t : vec_lookup (fb w) x = Some (br_table_ sz t) -> emit_case x d rt rc leaves w = Ok b w' ->
  b = BranchAt x (vec_size t) /\ exists data, encode_depth_change d rt rc w = Ok data w /\
    w' = w <| fb := vec_update (fb w) x (br_table_ sz (t ++ [{| bt_pc := 0; bt_stack_pop := data; bt_eh_leave_count := leaves |}])) |>.
Proof.
  intros Hx H. unfold emit_case in H. step_in H data Hd. apply encode_state in Hd as E. destruct E as [-> _]. step_in H y Hy. rewrite Hx in H.
  step_in H z Hz. apply put_ok in Hz as [_ ->]. apply ret_ok in H as [-> ->]. split; [reflexivity|]. exists data. auto.
Qed.
Lemma table_points_snoc pt st el p : forall t ps, table_points pt st t = Some ps -> branch_point pt st (bt_stack_pop el) = Some p ->
  bt_eh_leave_count el = 0 -> table_points pt st (t ++ [el]) = Some (ps ++ [p]).
Proof.
  induction t as [|e0 t IH]; intros ps Ht Hp Hl; cbn [table_points app] in *.
  - injection Ht as <-. now rewrite Hp, Hl.
  - destruct (branch_point pt st (bt_stack_pop e0)); [|discriminate]. destruct (table_points pt st t) as [ps'|] eqn:Et; [|discriminate].
    destruct (bt_eh_leave_count e0 =? 0); [|discriminate]. injection Ht as <-. now rewrite (IH ps' eq_refl Hp Hl).
Qed.

(** One element of the table. *)
Lemma case_ok s x dead rest G sz t ps Q k e d rt s' u sI pt : building s x (dead :: rest) G (br_table_ sz t) ps Q -> length ps = length t ->
  vec_lookup (pc_stack s) k = Some e -> (Q -> live (sI :: rest) = true /\ exists sA, sI = rev (label_types e) ++ sA) ->
  entries (sI :: rest) < 2 ^ 32 -> pt_locals pt = L -> pt_results pt = Rs ->
  d = entries (sI :: rest) - entries (drop (S (Z.to_nat k)) (sI :: rest)) ->
  (Q -> table_points pt (map rep_type (concat (sI :: rest))) t = Some ps) ->
  (let* branch := on_writer (emit_case x d rt (label_count e) 0) in handle_branch_target k branch) s = Ok u s' ->
  exists t' ps', building s' x (dead :: rest) G (br_table_ sz t') ps' Q /\ frame s s' /\ length ps' = length t' /\ length t' = S (length t) /\
    (Q -> table_points pt (map rep_type (concat (sI :: rest))) t' = Some ps').
Proof.
  intros Hb Hlen Hk HQ Hsm HL HR Ed Htp H. step_in H b Hc. apply (emit_case_ok _ _ _ _ _ _ _ _ sz t) in Hc as (-> & data & Henc & ->); [|apply Hb].
  set (el := {| bt_pc := 0; bt_stack_pop := data; bt_eh_leave_count := 0 |}) in *.
  assert (Htg : targets (br_table_ sz (t ++ [el])) = targets (br_table_ sz t) ++ [0]) by (cbn; now rewrite map_app).
  apply building_rewrite with (op' := br_table_ sz (t ++ [el])) in Hb; [|discriminate| |].
  2:{ intros j pc Hj. rewrite Htg, lookup_app_l; [auto|]. cbn. rewrite length_map. lia. }
  2:{ rewrite Htg, length_app. lia. }
  destruct (building_handle _ x _ _ _ _ _ k u s' e Hb) as (op' & Hb1 & Hf & Hop').
  - rewrite Htg, length_app. cbn. rewrite length_map. lia.
  - exact Hk.
  - intros q. destruct (HQ q) as [Hl _]. apply live_cons in Hl as [_ Hl]. now apply live_drop.
  - unfold vec_size in H. rewrite Hlen. exact H.
  - assert (Hfr : frame s s').
    { destruct Hf as [F1 F2 F3 F4 F5 F6]. split; auto. rewrite F5. cbn. apply vec_update_size. }
    assert (Hp : Q -> table_points pt (map rep_type (concat (sI :: rest))) (t ++ [el]) = Some (ps ++ [label_point e (drop (S (Z.to_nat k)) (dead :: rest))])).
    { intros q. apply table_points_snoc; [auto| |reflexivity]. cbn [bt_stack_pop el]. destruct (HQ q) as [Hl (sA & E)]. subst sI.
      eapply branch_point_label; [exact Hl|exact Hsm|exact HL|exact HR|]. rewrite Ed in Henc. exact Henc. }
    destruct Hop' as [->|(v & Hs)].
    + exists (t ++ [el]), (ps ++ [label_point e (drop (S (Z.to_nat k)) (dead :: rest))]). split; [exact Hb1|]. split; [exact Hfr|].
      rewrite !length_app, Hlen. cbn. split; [reflexivity|]. split; [lia|exact Hp].
    + cbn [set_target] in Hs. destruct (vec_lookup (t ++ [el]) (Z.of_nat (length ps))) as [e0|] eqn:E0; [|discriminate]. injection Hs as <-.
      apply vec_lookup_Some in E0 as [_ E0]. unfold vec_update in Hb1. destruct (Z.ltb_spec (Z.of_nat (length ps)) 0); [lia|].
      eexists _, _. split; [exact Hb1|]. split; [exact Hfr|]. rewrite length_insert, !length_app, Hlen. cbn. split; [reflexivity|]. split; [lia|].
      intros q. rewrite <- Hlen, (table_points_update _ _ v _ _ _ E0). auto.
Qed.

(** The cases before the default. *)
Lemma emit_cases_ok x dead rest G sz Q sI pt lts : entries (sI :: rest) < 2 ^ 32 -> pt_locals pt = L -> pt_results pt = Rs ->
  (Q -> live (sI :: rest) = true /\ exists sA, sI = rev lts ++ sA) ->
  forall labels s u s' t ps, building s x (dead :: rest) G (br_table_ sz t) ps Q -> length ps = length t -> tracks (op_stack s) (sI :: rest) ->
  (forall l e, l ∈ labels -> vec_lookup (pc_stack s) l = Some e -> label_types e = lts) ->
  (Q -> table_points pt (map rep_type (concat (sI :: rest))) t = Some ps) -> emit_cases x labels s = Ok u s' ->
  exists t' ps', building s' x (dead :: rest) G (br_table_ sz t') ps' Q /\ frame s s' /\ length ps' = length t' /\
    length t' = (length t + length labels)%nat /\ (Q -> table_points pt (map rep_type (concat (sI :: rest))) t' = Some ps').
Proof.
  intros Hsm HL HR HQ. induction labels as [|l labels IH]; intros s u s' t ps Hb Hlen Ht Hlab Htp H; cbn [emit_cases] in H.
  - apply ret_ok in H as [_ ->]. exists t, ps. split; [exact Hb|]. split; [apply frame_refl|]. cbn. split; [exact Hlen|]. split; [lia|exact Htp].
  - step_in H y Hy. step_in H e He. pose proof (cp_ctl _ _ _ _ _ _ _ _ _ _ (bd_comp _ _ _ _ _ _ _ Hb)) as Hctl.
    rewrite (no_leaves _ _ _ _ _ l Hctl) in H.
    assert (Hd : wrap 32 (operand_depth (op_stack s) - pc_operand_depth e) = entries (sI :: rest) - entries (drop (S (Z.to_nat l)) (sI :: rest))).
    { apply vec_lookup_Some in He as [_ He]. rewrite (tr_depth _ _ Ht), (eo_depth _ _ _ _ _ _ _ (ctl_lookup _ _ _ _ _ _ _ _ _ Hctl He)). apply wrap_small.
      pose proof (entries_drop (S (Z.to_nat l)) (sI :: rest)). pose proof (entries_nonneg (drop (S (Z.to_nat l)) (sI :: rest))). cbn [drop] in *. unfold in_u. lia. }
    rewrite Hd in H. apply bind_ok in H as (b & sb & Hc & H). apply bind_ok in H as (z & s1 & Hh & H).
    assert (Hstep : (let* branch := on_writer (emit_case x (entries (sI :: rest) - entries (drop (S (Z.to_nat l)) (sI :: rest))) (label_type e) (label_count e) 0) in
      handle_branch_target l branch) s = Ok z s1) by (unfold bind at 1; now rewrite Hc).
    pose proof (Hlab l e ltac:(apply list_elem_of_here) He) as Hle.
    destruct (case_ok s x dead rest G sz t ps Q l e _ _ s1 z sI pt Hb Hlen He ltac:(now rewrite Hle) Hsm HL HR eq_refl Htp Hstep)
      as (t1 & ps1 & Hb1 & Hf1 & Hlen1 & Ht1 & Htp1).
    destruct (IH s1 u s' t1 ps1 Hb1 Hlen1) as (t2 & ps2 & Hb2 & Hf2 & Hlen2 & Ht2 & Htp2); auto.
    + now rewrite (fr_stack _ _ Hf1).
    + intros l' e' Hin He'. apply vec_lookup_Some in He' as [H0 He']. destruct (Forall2_lookup_r _ _ _ _ _ (fr_labels _ _ Hf1) He') as (e0 & He0 & [r ->]).
      apply (Hlab l' e0); [now apply list_elem_of_further|now apply vec_lookup_Some].
    + exists t2, ps2. split; [exact Hb2|]. split; [exact (frame_trans _ _ _ Hf1 Hf2)|]. split; [exact Hlen2|]. split; [cbn; lia|exact Htp2].
Qed.

(** The opcodes behind the instruction hold the table. *)
Lemma comp_skip x n pcs rest G fb : comp x n pcs ([unreachable_tag] :: rest) G fb -> n < vec_size fb ->
  comp x (n + 1) pcs ([unreachable_tag] :: rest) (G ++ [None]) fb.
Proof.
  intros [H1 H2 H3 H4 H5 H6 H7] Hn.
  assert (Hh : forall t, loop_head fb n t -> loop_head fb (n + 1) t) by (intros t [Ht Hc]; split; [lia|exact Hc]). split.
  - unfold vec_size in *. rewrite length_app. cbn. lia.
  - lia.
  - rewrite dead_cur. now apply vec_lookup_snoc.
  - now apply extends_snoc.
  - intros o pt Ho Hx Ht. apply type_at_snoc_inv in Ht as [Ht|[_ E]]; [|discriminate].
    destruct (decide (o = n)) as [->|Hne]; [apply type_at_lookup in Ht; rewrite H3, dead_cur in Ht; discriminate|].
    destruct (H5 o pt ltac:(lia) Hx Ht) as (op & Hop & Hty). exists op. split; [exact Hop|].
    eapply op_typed_mono; [exact Hty|apply extends_snoc|exact Hh|auto|auto].
  - eapply ctl_mono; [apply extends_snoc|exact Hh| |exact H6]. intros b [Hb Ht]. split; [lia|exact Ht].
  - intros o pt Ht. apply type_at_snoc_inv in Ht as [Ht|[_ E]]; [eauto|discriminate].
Qed.
Lemma comp_skips k : forall x n pcs rest G fb, comp x n pcs ([unreachable_tag] :: rest) G fb -> n + Z.of_nat k <= vec_size fb ->
  comp x (n + Z.of_nat k) pcs ([unreachable_tag] :: rest) (G ++ repeat None k) fb.
Proof.
  induction k as [|k IH]; intros x n pcs rest G fb Hc Hn; [now rewrite Z.add_0_r, app_nil_r|].
  replace (n + Z.of_nat (S k)) with (n + 1 + Z.of_nat k) by lia. replace (G ++ repeat None (S k)) with ((G ++ [None]) ++ repeat None k) by now rewrite <- app_assoc.
  apply IH; [|lia]. apply comp_skip; [exact Hc|lia].
Qed.
(** Code that has not been emitted yet does not matter. *)
Lemma comp_tail x n pcs segs G fb i op : comp x n pcs segs G fb -> n <= i < vec_size fb -> comp x n pcs segs G (vec_update fb i op).
Proof.
  intros [H1 H2 H3 H4 H5 H6 H7] Hi.
  assert (Hl : forall o, o < n -> vec_lookup (vec_update fb i op) o = vec_lookup fb o).
  { intros o Ho. rewrite vec_lookup_update by lia. destruct (decide (o = i)); [lia|reflexivity]. }
  assert (Hh : forall t, loop_head fb n t -> loop_head (vec_update fb i op) n t).
  { intros t [Ht (c & Hc & Hp)]. split; [exact Ht|]. exists c. rewrite Hl by lia. auto. }
  split; auto.
  - now rewrite vec_update_size.
  - intros o pt Ho Hx Ht. destruct (H5 o pt Ho Hx Ht) as (op0 & Hop & Hty). exists op0. rewrite Hl by lia. split; [exact Hop|].
    eapply op_typed_mono; [exact Hty|intros ? ? Hext; exact Hext|exact Hh|auto|auto].
  - eapply ctl_mono; [intros ? ? Hext; exact Hext|exact Hh| |exact H6]. intros b [Hb Ht]. split; [exact Hb|]. now rewrite Hl by lia.
Qed.

Lemma emit_br_table_ok size w i w' : emit_br_table size w = Ok i w' ->
  let n := op_index w in let last := n + 1 + table_slots size in
  i = n /\ n < vec_size (fb w) /\ last < vec_size (fb w) /\
  w' = w <| fb := vec_update (vec_update (vec_update (fb w) n (br_table_ 0 [])) last error_) n (br_table_ size []) |> <| op_index := last |>.
Proof.
  intros H. cbv zeta. unfold emit_br_table in H. step_in H i0 Hi. apply append_ok in Hi as (-> & Hlt & ->). step_in H f Hf. step_in H x Hx.
  unfold check_at in Hx. step_in Hx y Hy. unfold psizam_assert in Hx. destruct (_ <? _); [|discriminate]. injection Hx as _ <-.
  step_in H z Hz. step_in H l Hl. step_in H p Hp. apply put_ok in Hp as [Hp ->]. step_in H q Hq. apply put_ok in Hq as [_ ->].
  apply ret_ok in H as [-> ->]. cbn in Hp |- *. rewrite vec_update_size in Hp. auto.
Qed.
Lemma table_slots_small size : 0 <= size < 2 ^ 32 -> table_slots size = size / 2 + 2.
Proof.
  intros Hs. unfold table_slots, sizeof_elem, sizeof_opcode. replace (size * 12 / 24) with (size / 2).
  - apply wrap_small. unfold in_u. pose proof (Z.div_le_upper_bound size 2 (2 ^ 31) ltac:(lia) ltac:(lia)). pose proof (Z.div_pos size 2 ltac:(lia) ltac:(lia)). lia.
  - change 24 with (2 * 12). now rewrite Z.div_mul_cancel_r by lia.
Qed.
Lemma building_table s sa s0 rest G size Q w' : Inv s (s0 :: rest) G -> pc_stack sa = pc_stack s -> code_writer sa = code_writer s -> 0 <= size < 2 ^ 32 ->
  forall i, emit_br_table size (code_writer sa) = Ok i w' ->
  building (sa <| code_writer := w' |>) (op_index (code_writer s)) ([unreachable_tag] :: rest)
    ((G ++ [None]) ++ repeat None (Z.to_nat (table_slots size))) (br_table_ size []) [] Q /\
  i = op_index (code_writer s) /\ op_index w' = op_index (code_writer s) + 1 + table_slots size /\ vec_size (fb w') = vec_size (fb (code_writer s)).
Proof.
  intros Hi Ep Ew Hsz i H. apply emit_br_table_ok in H as (-> & Hlt & Hlast & ->). rewrite Ew in *. set (n := op_index (code_writer s)) in *.
  pose proof (table_slots_small size Hsz) as Es. pose proof (Z.div_pos size 2 ltac:(lia) ltac:(lia)) as Hdiv.
  set (s1 := sa <| code_writer := appended (code_writer s) (br_table_ 0 []) |>).
  assert (H0 : building s1 n ([unreachable_tag] :: rest) (G ++ [cur ([unreachable_tag] :: rest)]) (br_table_ 0 []) [] Q) by (apply (building_start s s1 s0); auto; discriminate).
  rewrite dead_cur in H0. destruct H0 as [H1 H2 H3 H4 H5 H6 H7 H8]. cbn in H1, H2, H3, H6, H8. rewrite Ep in H1, H6. fold n in H1, H2, H3.
  apply (comp_skips (Z.to_nat (table_slots size))) in H1; [|rewrite vec_update_size; lia]. rewrite Z2Nat.id in H1 by lia.
  apply (comp_tail _ _ _ _ _ _ (n + 1 + table_slots size) error_) in H1; [|rewrite vec_update_size; lia].
  set (s2 := sa <| code_writer := (code_writer s) <| fb := vec_update (vec_update (fb (code_writer s)) n (br_table_ 0 [])) (n + 1 + table_slots size) error_ |>
    <| op_index := n + 1 + table_slots size |> |>).
  assert (Hb : building s2 n ([unreachable_tag] :: rest) ((G ++ [None]) ++ repeat None (Z.to_nat (table_slots size))) (br_table_ 0 []) [] Q).
  { split; cbn; rewrite ?Ep; auto; try lia; try discriminate.
    - rewrite vec_lookup_update by (rewrite vec_update_size; lia). destruct (decide (n = n + 1 + table_slots size)); [lia|exact H2].
    - rewrite vec_update_size. tauto. }
  apply building_rewrite with (op' := br_table_ size []) in Hb; [|discriminate|intros j pc Hj; cbn in Hj; lia|cbn; lia].
  split; [|split; [reflexivity|split; [reflexivity|cbn; now rewrite !vec_update_size]]].
  eapply building_ext; [| |exact Hb]; [reflexivity|]. cbn. reflexivity.
Qed.

(** The labels of a [br_table], read without parsing the rest. *)
Fixpoint read_labels (n : nat) : M guarded_ptr (list Z) :=
  match n with O => ret [] | S n' => let* l := parse_varuint 32 in let* ls := read_labels n' in ret (l :: ls) end.
Definition read_table : M guarded_ptr (list Z * Z) :=
  let* n := parse_varuint 32 in
  let* ls := read_labels (Z.to_nat n) in
  let* d := parse_varuint 32 in
  ret (ls, d).
(** All labels carry the types of the default one. *)
Definition uniform (s : pstate) : bool :=
  match read_table (code s) with
  | Ok (ls, d) _ =>
      forallb (fun l => bool_decide (option_map label_types (vec_lookup (pc_stack s) l) = option_map label_types (vec_lookup (pc_stack s) d))) ls
  | _ => true
  end.

Lemma parse_labels_ok n : forall s ls s', good (code s) -> parse_labels n s = Ok ls s' ->
  exists g, s' = s <| code := g |> /\ read_labels n (code s) = Ok ls g /\ adv (Z.of_nat n) (code s) g /\ length ls = n.
Proof.
  induction n as [|n IH]; intros s ls s' Hg H; cbn [parse_labels] in H.
  - apply ret_ok in H as [-> ->]. exists (code s). split; [now destruct s|]. split; [reflexivity|]. split; [now apply adv_refl|reflexivity].
  - step_in H l Hl. step_in H ls' Hls. apply ret_ok in H as [-> ->]. destruct (varuint_adv 32 _ _ _ (or_introl eq_refl) Hg Hl) as [Ha _].
    pose proof (adv_good 1 _ _ Hg ltac:(lia) Ha) as Hg1. apply IH in Hls as (g' & -> & Hr & Ha' & Hlen); [|exact Hg1].
    exists g'. split; [reflexivity|]. cbn [read_labels]. unfold bind at 1. rewrite Hl. unfold bind. cbn in Hr. rewrite Hr. split; [reflexivity|].
    split; [|cbn; lia]. replace (Z.of_nat (S n)) with (1 + Z.of_nat n) by lia. exact (adv_trans _ _ _ _ _ Ha Ha').
Qed.
Lemma check_cases_ok pol def : forall ls s u s', check_cases pol def ls s = Ok u s' -> s' = s.
Proof.
  induction ls as [|l ls IH]; intros s u s' H; cbn [check_cases] in H; [now apply ret_ok in H as [_ ->]|].
  step_in H e He. apply label_target_ok in He as [-> _]. step_in H x Hx. apply bind_ok in H as (y & s1 & Hy & H).
  assert (s1 = s) as -> by (destruct pol; [now apply ret_ok in Hy as [_ ->]|now apply parse_check_Ok in Hy as [_ ->]]). now apply IH in H.
Qed.
Lemma emit_default_case x d rt rc leaves s b s' : on_writer (emit_default x d rt rc leaves) s = Ok b s' -> on_writer (emit_case x d rt rc leaves) s = Ok b s'.
Proof.
  intros H. apply on_writer_ok in H as (w & H & ->). unfold emit_default in H. step_in H r Hr. step_in H y Hy. step_in H z Hz.
  unfold psizam_assert in Hz. destruct (_ <=? _); [|discriminate]. injection Hz as _ <-. apply ret_ok in H as [-> ->].
  unfold on_writer, zoom. now rewrite Hr.
Qed.
Lemma uniform_labels s ls d g : uniform s = true -> read_table (code s) = Ok (ls, d) g -> forall e0, vec_lookup (pc_stack s) d = Some e0 ->
  forall l e, l ∈ ls -> vec_lookup (pc_stack s) l = Some e -> label_types e = label_types e0.
Proof.
  unfold uniform. intros Hu Hr. rewrite Hr, forallb_forall in Hu. intros e0 He0 l e Hin He. apply list_elem_of_In in Hin.
  specialize (Hu l Hin). apply bool_decide_eq_true in Hu. rewrite He, He0 in Hu. now injection Hu.
Qed.
Lemma repeat_none_types (G : typing) k o pt : type_at (G ++ repeat None k) o = Some pt -> type_at G o = Some pt.
Proof.
  rewrite <- !type_at_lookup, !vec_lookup_Some. intros [H0 H]. split; [exact H0|]. apply lookup_app_Some in H as [H|[_ H]]; [exact H|].
  apply list_elem_of_lookup_2, list_elem_of_In, repeat_spec in H. discriminate.
Qed.

Lemma br_table_post s s' u s0 s1 rest G : uniform s = true -> Pre s s0 s1 rest G -> parse_br_table _options s = Ok u s' -> Post s'.
Proof.
  intros Huni Hpre H. pose proof Hpre as (Hi & Hp & Ha). pose proof (iv_comp _ _ _ _ _ _ _ _ Hi) as I1. pose proof (cp_ctl _ _ _ _ _ _ _ _ _ _ I1) as Hctl.
  unfold parse_br_table in H. step_in H b Hb. step_in H tsz H1. step_in H b1 H2. step_in H a3 H3. step_in H a4 H4. step_in H h H5. step_in H ls H6.
  pose proof (iv_good _ _ _ _ _ _ _ _ Hi) as Hgd. destruct (varuint_adv 32 _ _ _ (or_introl eq_refl) Hgd H1) as [Ha1 Hsz].
  pose proof (adv_good 1 _ _ Hgd ltac:(lia) Ha1) as Hgd1. apply parse_labels_ok in H6 as (g6 & -> & Hrl & Ha6 & Hlen6); [|exact Hgd1].
  step_in H dl H7. destruct (varuint_adv 32 _ _ _ (or_introl eq_refl) (adv_good (Z.of_nat (Z.to_nat tsz)) _ _ Hgd1 ltac:(lia) Ha6) H7) as [Ha7 _].
  step_in H e8 H8. apply label_target_ok in H8 as [-> H8]. step_in H a9 H9. apply check_cases_ok in H9 as ->.
  destruct (pop_tracks _ _ _ _ _ _ (iv_tracks _ _ _ _ _ _ _ _ Hi) valtype_i32 H3) as (sI & HtI & HsI & HgI).
  set (n := op_index (code_writer s)) in *. set (Q := live (s0 :: s1 :: rest) = true /\ exists sA, sI = rev (label_types e8) ++ sA).
  pose proof (fun E1 E2 => building_table s _ s0 (s1 :: rest) G tsz Q w Hi E1 E2 Hsz h H5) as Hbt.
  destruct (Hbt eq_refl eq_refl) as (Hbt' & -> & Hix & Hfs). clear Hbt. rename Hbt' into Hbt.
  assert (Hread : read_table (code s) = Ok (ls, dl) g0).
  { unfold read_table. unfold bind at 1. rewrite H1. cbn in Hrl. unfold bind at 1. rewrite Hrl. unfold bind. cbn in H7. now rewrite H7. }
  assert (HQ : Q -> live (sI :: s1 :: rest) = true /\ exists sA, sI = rev (label_types e8) ++ sA).
  { intros [Hl HsA]. split; [|exact HsA]. exact (proj2 (takes_live _ _ _ _ HsI Hl)). }
  set (pt := point_of L Rs (s0 :: s1 :: rest)). step_in H a10 H10.
  eapply (emit_cases_ok n [unreachable_tag] (s1 :: rest) _ tsz Q sI pt (label_types e8) (tr_small _ _ HtI) eq_refl eq_refl HQ) in H10
    as (t1 & ps1 & Hb1 & Hf1 & Hl1 & Ht1 & Htp1); [|eapply building_ext; [| |exact Hbt]; reflexivity|reflexivity|exact HtI| |intros _; reflexivity].
  2:{ intros l e. exact (uniform_labels s ls dl g0 Huni Hread e8 H8 l e). }
  cbn [length] in Ht1. step_in H a11 H11. pose proof (cp_ctl _ _ _ _ _ _ _ _ _ _ (bd_comp _ _ _ _ _ _ _ Hb1)) as Hctl1.
  rewrite (no_leaves _ _ _ _ _ dl Hctl1) in H. apply bind_ok in H as ([[d rt] rc] & sd & Hd & H).
  eapply (depth_change_ok _ _ _ _ _ _ (op_index (code_writer st)) sI (s1 :: rest) _ (fb (code_writer st))) in Hd as (e & t' & sA & He & -> & -> & Ed & HsA & Ht & Hg);
    [|rewrite (fr_stack _ _ Hf1); exact HtI|exact (ctl_top L Rs _ _ _ sI _ _ _ Hctl1)].
  assert (Hle : label_types e = label_types e8).
  { destruct (same_labels_lookup _ _ _ _ (fr_labels _ _ Hf1) H8) as (e' & He' & [r ->]). rewrite He in He'. injection He' as ->. reflexivity. }
  apply bind_ok in H as (b12 & s12 & H12 & H). apply emit_default_case in H12. apply bind_ok in H as (a13 & st0 & H13 & H). apply on_stack_ok in H as (td & H & ->).
  assert (Hstep : (let* branch := on_writer (emit_case n d rt (label_count e) 0) in handle_branch_target dl branch) (st <| op_stack := t' |>) = Ok a13 st0).
  { unfold bind at 1. fold n in H12. rewrite H12. exact H13. }
  eapply (case_ok _ n [unreachable_tag] (s1 :: rest) _ tsz t1 ps1 Q dl e d rt st0 a13 sI pt) in Hstep
    as (t2 & ps2 & Hb2 & Hf2 & Hl2 & Ht2 & Htp2);
    [|eapply building_ext; [| |exact Hb1]; reflexivity|exact Hl1|exact He|rewrite Hle; exact HQ|exact (tr_small _ _ HtI)|reflexivity|reflexivity|exact Ed|exact Htp1].
  destruct (start_unreachable_tracks (op_stack st0) td u (rev (label_types e) ++ sA) (s1 :: rest)) as [Htd Hgd'];
    [rewrite (fr_stack _ _ Hf2); exact Ht|discriminate|exact H|].
  assert (Hcode : code st0 = g0) by (rewrite (fr_code _ _ Hf2); cbn; rewrite (fr_code _ _ Hf1); reflexivity).
  assert (Hadv : adv (1 + (tsz + 1)) (code s) g0).
  { replace tsz with (Z.of_nat (Z.to_nat tsz)) by (destruct Hsz; lia). exact (adv_trans _ _ _ _ _ Ha1 (adv_trans _ _ _ _ _ Ha6 Ha7)). }
  eexists _, _. split; [|split].
  - eapply (Inv_built s _ s0 (s1 :: rest) G _ _ Hi); cbn.
    + eapply building_close; [exact Hb2|cbn; rewrite length_map; congruence|].
      intros p Hpt. apply repeat_none_types in Hpt. destruct (point_here s _ G _ p Hi Hpt) as [Hl ->]. fold pt.
      destruct (takes_live _ _ _ _ HsI Hl) as [E0 HlI]. destruct (takes_live _ _ _ _ HsA HlI) as [EI _].
      assert (q : Q) by (split; [exact Hl|exists sA; now rewrite <- Hle]). split; [exact q|]. exists None. split; [|discriminate].
      assert (Hst : pt_stack pt = types.i32 :: map rep_type (concat (sI :: s1 :: rest))) by (unfold pt; rewrite E0; reflexivity).
      cbn [needs]. rewrite Hst. change (types.i32 =? types.i32) with true. destruct Hsz as [Hsz _]. rewrite (proj2 (Z.leb_le 0 tsz) Hsz).
      assert (Hvs : vec_size t2 = tsz + 1) by (unfold vec_size; lia). rewrite Hvs, Z.eqb_refl. cbn [andb]. now rewrite (Htp2 q).
    + apply Hb2.
    + rewrite (fr_size _ _ Hf2). cbn. rewrite (fr_size _ _ Hf1). cbn. exact Hfs.
    + rewrite (fr_gas _ _ Hf2). cbn. exact (fr_gas _ _ Hf1).
    + rewrite Hcode. apply (adv_weaken (1 + (tsz + 1))); [destruct Hsz; lia|exact Hadv].
    + exact Htd.
    + intros o p Hop. apply repeat_none_types in Hop. revert Hop. rewrite <- (dead_cur (s1 :: rest)).
      apply (max_snoc L Rs td _ G (maximum_operand_depth (op_stack s)) Htd); [|apply Hi].
      unfold grows in *. rewrite (fr_stack _ _ Hf2) in Hgd'. cbn in Hgd', Hg, HgI. rewrite (fr_stack _ _ Hf1) in Hg. cbn in Hg. lia.
    + eapply bottom_labels; [exact (fr_labels _ _ Hf2)|exact (same_labels_nil _ _ (fr_labels _ _ Hf1) Hp)|].
      exact (bottom_labels _ _ s0 s0 s1 rest (fr_labels _ _ Hf1) Hp (iv_bottom _ _ _ _ _ _ _ _ Hi)).
  - unfold ahead in *. cbn. rewrite (fr_index _ _ Hf2), Hcode. cbn. rewrite (fr_index _ _ Hf1). cbn. rewrite Hix, (table_slots_small _ Hsz).
    destruct Hadv as (_ & _ & Hadv). fold n in Ha. pose proof (Z.div_le_upper_bound tsz 2 tsz ltac:(lia) ltac:(destruct Hsz; lia)). lia.
  - cbn. intros E. exfalso. pose proof (same_labels_nil _ _ (fr_labels _ _ Hf1) Hp) as Hne. exact (same_labels_nil _ _ (fr_labels _ _ Hf2) Hne E).
Qed.
End Branches.
