(* ===== verification/VecSound.v ===== *)
(** * Validated vector and atomic instructions

    The cases of the parser for the prefixes 0xFD and 0xFE keep the invariant of
    [BodySound], for the vector instructions that cannot overflow and the atomic
    ones whose operands the parser types as the interpreter does. *)
From Stdlib Require Import ZArith Lia Bool String.
From stdpp Require Import base list numbers decidable option.
From S2P Require Import Prelude Leb128 Types InitExpr ConstExpr ParseInit Stack Memory Numeric Softfloat Simd SimdSpec SimdTotal Context Operands Interp Demo Invariants.
From S2P Require Import TypedOps TypedVec Typing Control Verifier Termination Writer Validator ParseVec ParseBody TrackerSpec Emission BodySound ScopeSound BranchSound.
Import GuardedPtr Leb Opcode GasInjector BitcodeWriter Tracker.

Section Vectors.
Context (m : module) (_options : Options) (L Rs : list Z) (B : Z) (RT : list Z).
Abbreviation Inv := (Inv m L Rs B RT).
Abbreviation Pre := (Pre m L Rs B RT).
Abbreviation Post := (Post m L Rs B RT).

(** ** From the signature of an instruction to the parser's state *)
Definition is_number (t : Z) : bool := is_value_byte t || (t =? types.v128).
Lemma number_valtype t : is_number t = true -> valtype t.
Proof. unfold is_number, valtype, is_valtype. rewrite orb_true_iff. intros [->| ->]; [reflexivity|]. now rewrite orb_true_r. Qed.
Lemma number_rep t : is_number t = true -> rep_type t = t.
Proof. unfold is_number. rewrite orb_true_iff, Z.eqb_eq. intros [H| ->]; [now apply rep_value|reflexivity]. Qed.
Lemma numbers_valtype l : forallb is_number l = true -> Forall valtype l.
Proof. rewrite forallb_forall. intros H. apply List.Forall_forall. intros x Hx. now apply number_valtype, H. Qed.
Lemma numbers_rep l : forallb is_number l = true -> map rep_type l = l.
Proof. induction l as [|x l IH]; [reflexivity|]. cbn. rewrite andb_true_iff. intros [Hx Hl]. now rewrite number_rep, IH. Qed.

Lemma vector_types_as op A R : vector_type op = Some (A, R) -> forallb is_number (A ++ R) = true -> types_as m L op A R.
Proof.
  rewrite forallb_app, andb_true_iff. intros Ht [HA HR]. apply plain_types; [destruct op; try discriminate Ht; reflexivity|now apply numbers_valtype|].
  intros ts. rewrite !numbers_rep by assumption. destruct op; try discriminate Ht; cbn [step_type instr_type]; rewrite Ht, strip_app; reflexivity.
Qed.
(** Operands taken and results left by the tracker, [op] written. *)
Lemma vector_post s s' s0 sA s1 rest G op A R : Pre s s0 s1 rest G -> op_index (code_writer s) < vec_size (fb (code_writer s)) ->
  vector_type op = Some (A, R) -> forallb is_number (A ++ R) = true ->
  code_writer s' = appended (code_writer s) op -> pc_stack s' = pc_stack s -> gas_state s' = gas_state s ->
  adv 0 (code s) (code s') -> takes A s0 sA -> tracks (op_stack s') ((R ++ sA) :: s1 :: rest) -> grows (op_stack s) (op_stack s') -> Post s'.
Proof. intros. eapply (straight_post m L Rs B RT s); eauto. intros _. now apply vector_types_as. Qed.

(** The tracker after some pops, and after a push. *)
Definition taken (t0 : tracker) (s0 s1 : list Z) (rest : list (list Z)) (A sA : list Z) (t : tracker) : Prop :=
  takes A s0 sA /\ tracks t (sA :: s1 :: rest) /\ grows t0 t.
Lemma taken_start t s0 s1 rest : tracks t (s0 :: s1 :: rest) -> taken t s0 s1 rest [] s0 t.
Proof. intros Ht. split; [apply takes_nil; pose proof (tr_segs _ _ Ht) as Hs; now inversion Hs|]. split; [exact Ht|unfold grows; lia]. Qed.
Lemma taken_pop t0 s0 s1 rest A sA t a u t' : taken t0 s0 s1 rest A sA t -> is_number a = true -> pop a t = Ok u t' ->
  exists sB, taken t0 s0 s1 rest (A ++ [a]) sB t'.
Proof.
  intros (Hs & Ht & Hg) Ha H. destruct (pop_tracks a _ _ _ _ _ Ht (number_valtype a Ha) H) as (sB & Ht' & Hs' & Hg'). exists sB.
  split; [exact (takes_app _ _ _ _ _ Hs Hs')|]. split; [exact Ht'|unfold grows in *; lia].
Qed.
Lemma taken_pops t0 s0 s1 rest A sA t l u t' : taken t0 s0 s1 rest A sA t -> forallb is_number l = true -> pops l t = Ok u t' ->
  exists sB, taken t0 s0 s1 rest (A ++ l) sB t'.
Proof.
  intros (Hs & Ht & Hg) Hl H. destruct (pops_tracks l _ _ _ _ _ Ht (numbers_valtype l Hl) H) as (sB & Ht' & Hs' & Hg'). exists sB.
  split; [exact (takes_app _ _ _ _ _ Hs Hs')|]. split; [exact Ht'|unfold grows in *; lia].
Qed.
Lemma taken_push t0 s0 s1 rest A sA t r u t' : taken t0 s0 s1 rest A sA t -> is_number r = true -> push r t = Ok u t' ->
  tracks t' (([r] ++ sA) :: s1 :: rest) /\ grows t0 t'.
Proof.
  intros (Hs & Ht & Hg) Hr H. destruct (push_tracks r _ _ _ _ _ Ht (or_introl (number_valtype r Hr)) H) as [Ht' Hg']. split; [exact Ht'|unfold grows in *; lia].
Qed.
Lemma taken_pushes t0 s0 s1 rest A sA t l u t' : taken t0 s0 s1 rest A sA t -> forallb is_number l = true -> (length l <= 1)%nat -> pushes l t = Ok u t' ->
  tracks t' ((l ++ sA) :: s1 :: rest) /\ grows t0 t'.
Proof.
  intros (Hs & Ht & Hg) Hr Hl H. destruct (pushes_tracks l _ _ _ _ _ Ht (numbers_valtype l Hr) H) as [Ht' Hg']. split; [|unfold grows in *; lia].
  destruct l as [|x [|? ?]]; [exact Ht'|exact Ht'|cbn in Hl; lia].
Qed.
Lemma pre_tracks s s0 s1 rest G : Pre s s0 s1 rest G -> taken (op_stack s) s0 s1 rest [] s0 (op_stack s).
Proof. intros (Hi & _). exact (taken_start _ _ _ _ (iv_tracks _ _ _ _ _ _ _ _ Hi)). Qed.
Lemma pre_good s s0 s1 rest G : Pre s s0 s1 rest G -> good (code s).
Proof. intros (Hi & _). exact (iv_good _ _ _ _ _ _ _ _ Hi). Qed.

(** ** Vectors *)
Context (Hmem : mem_addr_type m = types.i32).
Ltac pop_in Hk H := let x := fresh "x" in let Hx := fresh "Hx" in step_in H x Hx; apply (taken_pop _ _ _ _ _ _ _ _ _ _ Hk) in Hx as [? Hx]; [|reflexivity].
Ltac push_in Hk H := let x := fresh "x" in let Hx := fresh "Hx" in step_in H x Hx; apply (taken_push _ _ _ _ _ _ _ _ _ _ Hk) in Hx as [? ?]; [|reflexivity].
Ltac emit_in H := let w := fresh "w" in apply on_writer_ok in H as (w & H & ->); apply emit_op_ok in H as [? ->].

Lemma vec_load_post op al s s' u s0 s1 rest G : Pre s s0 s1 rest G -> parse_vec_load m _options op al s = Ok u s' -> Post s'.
Proof.
  intros Hpre H. unfold parse_vec_load in H. step_in H b Hb. apply bind_ok in H as (a & s2 & H1 & H).
  destruct (parse_memarg_ok _ _ Hmem _ _ _ _ (pre_good _ _ _ _ _ Hpre) H1) as (g & -> & Ha & Hin). rewrite Hmem in H.
  pose proof (pre_tracks _ _ _ _ _ Hpre) as Hk. pop_in Hk H. push_in Hx H. emit_in H.
  eapply (vector_post s _ s0 _ s1 rest G (vec_load_ op a) [types.i32] [types.v128]); eauto; try apply Hx. cbn. now rewrite (in_u_fits _ _ Hin).
Qed.
Lemma v128_store_post s s' u s0 s1 rest G : Pre s s0 s1 rest G -> parse_v128_store m _options s = Ok u s' -> Post s'.
Proof.
  intros Hpre H. unfold parse_v128_store in H. step_in H b Hb. apply bind_ok in H as (a & s2 & H1 & H).
  destruct (parse_memarg_ok _ _ Hmem _ _ _ _ (pre_good _ _ _ _ _ Hpre) H1) as (g & -> & Ha & Hin). rewrite Hmem in H.
  pose proof (pre_tracks _ _ _ _ _ Hpre) as Hk. pop_in Hk H. pop_in Hx H. emit_in H.
  eapply (vector_post s _ s0 _ s1 rest G (v128_store_ a) [types.v128; types.i32] []); eauto; try apply Hx0. cbn. now rewrite (in_u_fits _ _ Hin).
Qed.
Lemma lane_memarg_ok al n s a s' : good (code s) -> Z.shiftl 1 (4 - al) = n -> parse_lane_memarg m _options al s = Ok a s' ->
  exists g, s' = s <| code := g |> /\ adv 0 (code s) g /\ in_u 32 (mem_offset a.1) /\ 0 <= a.2 < n.
Proof.
  intros Hg Hn H. unfold parse_lane_memarg in H. step_in H b Hb. step_in H al0 H1. unfold parse_memarg_offset in H. rewrite Hmem in H.
  change (types.i32 =? types.i64) with false in H. cbv iota in H. step_in H off H2. step_in H ln H3. step_in H b1 H4. step_in H b2 H5. step_in H b3 H6. apply ret_ok in H as [-> ->].
  destruct (varuint_adv 32 _ _ _ (or_introl eq_refl) Hg H1) as [Ha _]. pose proof (adv_good 1 _ _ Hg ltac:(lia) Ha) as Hg1.
  destruct (varuint_adv 32 _ _ _ (or_introl eq_refl) Hg1 H2) as [Ha2 Hin]. pose proof (adv_good 1 _ _ Hg1 ltac:(lia) Ha2) as Hg2.
  destruct (next_adv _ _ _ Hg2 H3) as [Ha3 Hl]. eexists. split; [reflexivity|]. split; [|split; [exact Hin|]].
  - apply (adv_weaken (1 + (1 + 1))); [lia|]. exact (adv_trans 1 _ _ _ _ Ha (adv_trans 1 1 _ _ _ Ha2 Ha3)).
  - cbn [snd]. rewrite Hn in H6. apply Z.ltb_lt in H6. unfold in_u in Hl. lia.
Qed.
Lemma lane_fits t a i : in_u 32 (mem_offset a) -> 0 <= i < Z.of_nat (lane_count t) -> fits 32 (mem_offset a) && lane_ok t i = true.
Proof. intros Ha Hi. rewrite (in_u_fits _ _ Ha). unfold lane_ok. rewrite !andb_true_iff, Z.leb_le, Z.ltb_lt. lia. Qed.
Lemma load_lane_post op al s s' u s0 s1 rest G : Z.shiftl 1 (4 - al) = Z.of_nat (lane_count (load_lane op)) -> Pre s s0 s1 rest G ->
  parse_load_lane m _options op al s = Ok u s' -> Post s'.
Proof.
  intros Hn Hpre H. unfold parse_load_lane in H. step_in H b Hb. apply bind_ok in H as (a & s2 & H1 & H).
  destruct (lane_memarg_ok _ _ _ _ _ (pre_good _ _ _ _ _ Hpre) Hn H1) as (g & -> & Ha & Hin & Hl). rewrite Hmem in H.
  pose proof (pre_tracks _ _ _ _ _ Hpre) as Hk. pop_in Hk H. pop_in Hx H. push_in Hx0 H. emit_in H.
  eapply (vector_post s _ s0 _ s1 rest G (vec_load_lane_ op a.1 a.2) [types.v128; types.i32] [types.v128]); eauto; try apply Hx0.
  cbn [vector_type]. now rewrite (lane_fits _ _ _ Hin Hl).
Qed.
Lemma store_lane_post op al s s' u s0 s1 rest G : Z.shiftl 1 (4 - al) = Z.of_nat (lane_count (store_lane op)) -> Pre s s0 s1 rest G ->
  parse_store_lane m _options op al s = Ok u s' -> Post s'.
Proof.
  intros Hn Hpre H. unfold parse_store_lane in H. step_in H b Hb. apply bind_ok in H as (a & s2 & H1 & H).
  destruct (lane_memarg_ok _ _ _ _ _ (pre_good _ _ _ _ _ Hpre) Hn H1) as (g & -> & Ha & Hin & Hl). rewrite Hmem in H.
  pose proof (pre_tracks _ _ _ _ _ Hpre) as Hk. pop_in Hk H. pop_in Hx H. emit_in H.
  eapply (vector_post s _ s0 _ s1 rest G (vec_store_lane_ op a.1 a.2) [types.v128; types.i32] []); eauto; try apply Hx0.
  cbn [vector_type]. now rewrite (lane_fits _ _ _ Hin Hl).
Qed.
Lemma v128_const_post s s' u s0 s1 rest G : Pre s s0 s1 rest G -> parse_v128_const s = Ok u s' -> Post s'.
Proof.
  intros Hpre H. unfold parse_v128_const in H. step_in H b Hb. step_in H v H1. step_in H x2 H2. apply emit_op_ok in H2 as [Hlt ->].
  apply on_stack_ok in H as (t & H & ->). destruct (raw_adv 16 _ _ _ (pre_good _ _ _ _ _ Hpre) H1) as [Ha Hv].
  apply (taken_push _ _ _ _ _ _ _ _ _ _ (pre_tracks _ _ _ _ _ Hpre)) in H as [Ht Hg]; [|reflexivity].
  apply (vector_post s _ s0 s0 s1 rest G (v128_const_ v) [] [types.v128]); auto; [cbn; now rewrite (in_u_fits 128 _ Hv)|now apply (adv_weaken 16)|].
  exact (proj1 (pre_tracks _ _ _ _ _ Hpre)).
Qed.
Lemma shuffle_post s s' u s0 s1 rest G : Pre s s0 s1 rest G -> parse_shuffle s = Ok u s' -> Post s'.
Proof.
  intros Hpre H. unfold parse_shuffle in H. step_in H b Hb. step_in H ls H1. step_in H b1 H2. step_in H x2 H3. apply emit_op_ok in H3 as [Hlt ->].
  destruct (shuffle_adv _ _ _ (pre_good _ _ _ _ _ Hpre) H1) as (Ha & Hl & Hr). pose proof (pre_tracks _ _ _ _ _ Hpre) as Hk. pop_in Hk H. pop_in Hx H.
  apply on_stack_ok in H as (tr & H & ->). apply (taken_push _ _ _ _ _ _ _ _ _ _ Hx0) in H as [Ht Hg]; [|reflexivity].
  eapply (vector_post s _ s0 _ s1 rest G (i8x16_shuffle_ ls) [types.v128; types.v128] [types.v128]); eauto; [|now apply (adv_weaken 16)|apply Hx0].
  cbn [vector_type]. unfold shuffle_ok. rewrite Hl. change (Z.of_nat 16 =? 16) with true. cbn [andb]. replace (forallb _ ls) with true; [reflexivity|].
  symmetry. rewrite forallb_forall in *. rewrite List.Forall_forall in Hr. intros y Hin. specialize (H2 y Hin). specialize (Hr y Hin). unfold in_u in Hr.
  rewrite andb_true_iff, Z.leb_le. split; [lia|exact H2].
Qed.
Lemma lane_byte_ok t i : in_u 8 i -> (i <? Z.of_nat (lane_count t)) = true -> lane_ok t i = true.
Proof. unfold lane_ok, in_u. rewrite andb_true_iff, Z.leb_le. intros Hi ->. split; [lia|reflexivity]. Qed.
Lemma extract_post op t n s s' u s0 s1 rest G : t = extract_type op -> n = Z.of_nat (lane_count (extract_lane op).1) -> Pre s s0 s1 rest G ->
  parse_extract_lane op t n s = Ok u s' -> Post s'.
Proof.
  intros -> -> Hpre H. unfold parse_extract_lane in H. step_in H b Hb. step_in H i H1. step_in H b1 H2. destruct (next_adv _ _ _ (pre_good _ _ _ _ _ Hpre) H1) as [Ha Hi].
  pose proof (pre_tracks _ _ _ _ _ Hpre) as Hk. pop_in Hk H. step_in H x1 Hx1.
  apply (taken_push _ _ _ _ _ _ _ _ _ _ Hx) in Hx1 as [Ht Hg]; [|now destruct op]. emit_in H.
  eapply (vector_post s _ s0 _ s1 rest G (vec_extract_lane_ op i) [types.v128] [extract_type op]); eauto; [cbn [vector_type]; now rewrite (lane_byte_ok _ _ Hi H2)|now destruct op|now apply (adv_weaken 1)|apply Hx].
Qed.
Lemma replace_post op t n s s' u s0 s1 rest G : t = replace_type op -> n = Z.of_nat (lane_count (replace_shape op)) -> Pre s s0 s1 rest G ->
  parse_replace_lane op t n s = Ok u s' -> Post s'.
Proof.
  intros -> -> Hpre H. unfold parse_replace_lane in H. step_in H b Hb. step_in H i H1. step_in H b1 H2. destruct (next_adv _ _ _ (pre_good _ _ _ _ _ Hpre) H1) as [Ha Hi].
  pose proof (pre_tracks _ _ _ _ _ Hpre) as Hk. step_in H x1 Hx1. apply (taken_pop _ _ _ _ _ _ _ _ _ _ Hk) in Hx1 as [? Hx1]; [|now destruct op]. pop_in Hx1 H. push_in Hx H. emit_in H.
  eapply (vector_post s _ s0 _ s1 rest G (vec_replace_lane_ op i) [replace_type op; types.v128] [types.v128]); eauto;
    [cbn [vector_type]; now rewrite (lane_byte_ok _ _ Hi H2)|now destruct op|now apply (adv_weaken 1)|apply Hx].
Qed.
(** The tables give every instruction its signature. *)
Definition signed_as (n : numeric) : bool :=
  match num_op n with
  | vec_ op => bool_decide (num_args n = (vec_sig op).1) && (num_result n =? (vec_sig op).2) && forallb is_number (num_args n) && is_number (num_result n)
  | _ => false
  end.
Lemma vec_tables : forallb (fun p => signed_as p.2) (vec_numeric_ops ++ vec_relaxed_ops) = true.
Proof. vm_compute. reflexivity. Qed.
(** The instruction behind the prefix cannot overflow. *)
Definition vec_admitted (op : Z) : bool :=
  match case_of op (vec_numeric_ops ++ vec_relaxed_ops) with
  | Some n => match num_op n with vec_ o => negb (may_overflow o) | _ => true end
  | None => true
  end.
Lemma case_of_in {A} k (l : list (Z * A)) a : case_of k l = Some a -> In (k, a) l.
Proof. induction l as [|[k' a'] l IH]; cbn; [discriminate|]. destruct (Z.eqb_spec k k') as [->|]; [intros [= ->]; now left|right; auto]. Qed.
Lemma vec_numeric_post n s s' u s0 s1 rest G : signed_as n = true -> match num_op n with vec_ o => negb (may_overflow o) | _ => true end = true ->
  Pre s s0 s1 rest G -> parse_vec_numeric n s = Ok u s' -> Post s'.
Proof.
  unfold signed_as. destruct (num_op n) eqn:Eo; try discriminate. rewrite !andb_true_iff, bool_decide_eq_true, Z.eqb_eq. intros [[[Ea Er] Ha] Hr] Hov Hpre H.
  unfold parse_vec_numeric in H. step_in H b Hb. pose proof (pre_tracks _ _ _ _ _ Hpre) as Hk. step_in H x1 Hx1.
  apply (taken_pops _ _ _ _ _ _ _ _ _ _ Hk) in Hx1 as [? Hx1]; [|exact Ha]. step_in H x2 Hx2.
  apply (taken_push _ _ _ _ _ _ _ _ _ _ Hx1) in Hx2 as [Ht Hg]; [|exact Hr]. emit_in H. rewrite Eo.
  eapply (vector_post s _ s0 _ s1 rest G (vec_ op) (num_args n) [num_result n]); eauto; [cbn [vector_type]; rewrite Hov, Ea, Er; reflexivity| |apply adv_refl, (pre_good _ _ _ _ _ Hpre)|apply Hx1].
  rewrite forallb_app, Ha. cbn. now rewrite Hr.
Qed.
Lemma memory_tables : forallb (fun p => Z.shiftl 1 (4 - p.2.2) =? Z.of_nat (lane_count (load_lane p.2.1))) load_lane_ops = true /\
  forallb (fun p => Z.shiftl 1 (4 - p.2.2) =? Z.of_nat (lane_count (store_lane p.2.1))) store_lane_ops = true.
Proof. split; reflexivity. Qed.
Lemma lane_tables : forallb (fun p => (p.2.1.2 =? extract_type p.2.1.1) && (p.2.2 =? Z.of_nat (lane_count (extract_lane p.2.1.1).1))) extract_ops = true /\
  forallb (fun p => (p.2.1.2 =? replace_type p.2.1.1) && (p.2.2 =? Z.of_nat (lane_count (replace_shape p.2.1.1)))) replace_ops = true.
Proof. split; reflexivity. Qed.
Lemma vec_memory_post op p s s' u s0 s1 rest G : parse_vec_memory m _options op = Some p -> Pre s s0 s1 rest G -> p s = Ok u s' -> Post s'.
Proof.
  intros Hp Hpre H. destruct memory_tables as [Hl Hs]. rewrite forallb_forall in Hl, Hs. unfold parse_vec_memory in Hp.
  destruct (case_of op vec_load_ops) as [[o a]|]; [injection Hp as <-; eapply vec_load_post; eauto|].
  destruct (case_of op load_lane_ops) as [[o a]|] eqn:E2.
  { injection Hp as <-. apply case_of_in in E2. specialize (Hl _ E2). apply Z.eqb_eq in Hl. eapply load_lane_post; eauto. }
  destruct (case_of op store_lane_ops) as [[o a]|] eqn:E3.
  { injection Hp as <-. apply case_of_in in E3. specialize (Hs _ E3). apply Z.eqb_eq in Hs. eapply store_lane_post; eauto. }
  destruct (op =? 11); [injection Hp as <-; eapply v128_store_post; eauto|discriminate].
Qed.
Lemma vec_lanes_post op p s s' u s0 s1 rest G : parse_vec_lanes op = Some p -> Pre s s0 s1 rest G -> p s = Ok u s' -> Post s'.
Proof.
  intros Hp Hpre H. destruct lane_tables as [Hx Hr]. rewrite forallb_forall in Hx, Hr. unfold parse_vec_lanes in Hp.
  destruct (case_of op extract_ops) as [[[o t] n]|] eqn:E1.
  { injection Hp as <-. apply case_of_in in E1. specialize (Hx _ E1). rewrite andb_true_iff, !Z.eqb_eq in Hx. destruct Hx. eapply extract_post; eauto. }
  destruct (case_of op replace_ops) as [[[o t] n]|] eqn:E2.
  { injection Hp as <-. apply case_of_in in E2. specialize (Hr _ E2). rewrite andb_true_iff, !Z.eqb_eq in Hr. destruct Hr. eapply replace_post; eauto. }
  destruct (op =? 12); [injection Hp as <-; eapply v128_const_post; eauto|]. destruct (op =? 13); [injection Hp as <-; eapply shuffle_post; eauto|discriminate].
Qed.
Lemma Pre_read s g s0 s1 rest G : Pre s s0 s1 rest G -> adv 0 (code s) g -> Pre (s <| code := g |>) s0 s1 rest G.
Proof. apply Pre_code. Qed.
Lemma vec_post s s' u s0 s1 rest G : match parse_varuint 32 (code s) with Ok op _ => vec_admitted op | _ => true end = true ->
  Pre s s0 s1 rest G -> parse_vec m _options s = Ok u s' -> Post s'.
Proof.
  intros Hadm Hpre H. unfold parse_vec in H. step_in H b Hb. step_in H op Hop. rewrite Hop in Hadm.
  destruct (varuint_adv 32 _ _ _ (or_introl eq_refl) (pre_good _ _ _ _ _ Hpre) Hop) as [Ha _]. apply (adv_weaken 1) in Ha; [|lia].
  pose proof (Pre_read _ _ _ _ _ _ Hpre Ha) as Hpre'.
  destruct (parse_vec_memory m _options op) as [p|] eqn:E1; [eapply vec_memory_post; eauto|].
  destruct (parse_vec_lanes op) as [p|] eqn:E2; [eapply vec_lanes_post; eauto|]. unfold vec_admitted in Hadm.
  destruct (case_of op (vec_numeric_ops ++ vec_relaxed_ops)) as [n|] eqn:E3; [|discriminate].
  pose proof vec_tables as Ht. rewrite forallb_forall in Ht. specialize (Ht _ (case_of_in _ _ _ E3)). eapply vec_numeric_post; eauto.
Qed.

(** ** Atomics *)
(** The two instructions that the parser gives the type of a narrower one. *)
Definition atomic_admitted (subop : Z) : bool := negb ((subop =? 0x11) || (subop =? 0x18)).
Lemma atomic_access_post asub args results s s' u s0 s1 rest G : Pre s s0 s1 rest G ->
  (forall k, case_of asub atomic_subs = Some k -> atomic_sig k = (args ++ [types.i32], results)) ->
  forallb is_number (args ++ results) = true -> (length results <= 1)%nat ->
  parse_atomic_access m asub args results s = Ok u s' -> Post s'.
Proof.
  intros Hpre Hk Hn Hl H. unfold parse_atomic_access in H. step_in H b Hb. apply bind_ok in H as (a & s2 & H1 & H). unfold parse_atomic_memarg in H1.
  step_in H1 al Hal. unfold parse_memarg_offset in H1. rewrite Hmem in H, H1. change (types.i32 =? types.i64) with false in H1. cbv iota in H1. step_in H1 off Hoff. apply ret_ok in H1 as [-> ->].
  pose proof (pre_good _ _ _ _ _ Hpre) as Hg. destruct (varuint_adv 32 _ _ _ (or_introl eq_refl) Hg Hal) as [Ha _]. pose proof (adv_good 1 _ _ Hg ltac:(lia) Ha) as Hg1.
  destruct (varuint_adv 32 _ _ _ (or_introl eq_refl) Hg1 Hoff) as [Ha2 Hin]. rewrite forallb_app, andb_true_iff in Hn. destruct Hn as [Hna Hnr].
  pose proof (pre_tracks _ _ _ _ _ Hpre) as Ht. step_in H x1 Hx1. apply (taken_pops _ _ _ _ _ _ _ _ _ _ Ht) in Hx1 as [? Hx1]; [|exact Hna]. pop_in Hx1 H.
  step_in H x5 Hx2. apply (taken_pushes _ _ _ _ _ _ _ _ _ _ Hx) in Hx2 as [Htr Hgr]; [|exact Hnr|exact Hl].
  apply on_writer_ok in H as (w & H & ->). unfold emit_atomic_op in H. destruct (case_of asub atomic_subs) as [k|] eqn:Ek; [|discriminate]. apply emit_op_ok in H as [Hlt ->].
  eapply (vector_post s _ s0 _ s1 rest G (atomic_op_ k _) (args ++ [types.i32]) results); eauto; [| |apply (adv_weaken (1 + 1)); [lia|exact (adv_trans 1 1 _ _ _ Ha Ha2)]|apply Hx].
  - cbn [vector_type mem_offset]. rewrite (in_u_fits 32 _ Hin). now rewrite (Hk k eq_refl).
  - rewrite !forallb_app, Hna, Hnr. reflexivity.
Qed.
Lemma atomic_fence_post s s' u s0 s1 rest G : Pre s s0 s1 rest G -> parse_atomic_fence 0x03 s = Ok u s' -> Post s'.
Proof.
  intros Hpre H. unfold parse_atomic_fence in H. step_in H b Hb. apply bind_ok in H as (x & s2 & H1 & H).
  apply zero_byte_ok in H1 as (g & -> & Ha); [|exact (pre_good _ _ _ _ _ Hpre)]. apply on_writer_ok in H as (w & H & ->). apply emit_op_ok in H as [Hlt ->].
  destruct (pre_tracks _ _ _ _ _ Hpre) as (Hs & Ht & Hg).
  now apply (vector_post s _ s0 s0 s1 rest G (atomic_op_ atomic_fence {| flags_align := 0; mem_offset := 0 |}) [] []).
Qed.
(** What the parser takes the operands and results of an access to be. *)
Definition parsed_sig (subop : Z) : list Z * list Z :=
  if subop <=? 0x16 then ([], [if subop <=? 0x13 then types.i32 else types.i64])
  else if subop <=? 0x1D then ([if subop <=? 0x1A then types.i32 else types.i64], [])
  else let t := if is_i64 subop then types.i64 else types.i32 in (if is_cmpxchg subop then [t; t] else [t], [t]).
Lemma parsed_sigs : forallb (fun subop => negb (atomic_admitted subop) || match case_of subop atomic_subs with
    | Some k => bool_decide (atomic_sig k = ((parsed_sig subop).1 ++ [types.i32], (parsed_sig subop).2)) | None => false end)
  (map (fun i => 0x10 + Z.of_nat i) (seq 0 63)) = true.
Proof. vm_compute. reflexivity. Qed.
Lemma parsed_sig_ok subop k : 0x10 <= subop <= 0x4E -> atomic_admitted subop = true -> case_of (wrap 8 subop) atomic_subs = Some k ->
  atomic_sig k = ((parsed_sig subop).1 ++ [types.i32], (parsed_sig subop).2).
Proof.
  intros Hr Ha Hk. rewrite wrap_small in Hk by (unfold in_u; lia). pose proof parsed_sigs as H. rewrite forallb_forall in H. specialize (H subop).
  rewrite Ha, Hk in H. cbn [negb orb] in H. apply (proj1 (bool_decide_eq_true _)), H, in_map_iff. exists (Z.to_nat (subop - 0x10)). rewrite in_seq. lia.
Qed.
Lemma atomic_post s s' u s0 s1 rest G : match parse_varuint 32 (code s) with Ok subop _ => atomic_admitted subop | _ => true end = true ->
  Pre s s0 s1 rest G -> parse_atomic m s = Ok u s' -> Post s'.
Proof.
  intros Hadm Hpre H. unfold parse_atomic in H. step_in H subop Hsub. rewrite Hsub in Hadm.
  destruct (varuint_adv 32 _ _ _ (or_introl eq_refl) (pre_good _ _ _ _ _ Hpre) Hsub) as [Ha _]. apply (adv_weaken 1) in Ha; [|lia].
  pose proof (Pre_read _ _ _ _ _ _ Hpre Ha) as Hpre'. cbv zeta in H.
  destruct (Z.eqb_spec (wrap 8 subop) 0x03) as [E|_]; [rewrite E in H; eapply atomic_fence_post; eauto|].
  destruct (Z.eqb_spec (wrap 8 subop) 0x00) as [E|_]; [rewrite E in H; eapply atomic_access_post; [exact Hpre'| | | |exact H]; [now intros k [= <-]|reflexivity|cbn; lia]|].
  destruct (Z.eqb_spec (wrap 8 subop) 0x01) as [E|_]; [rewrite E in H; eapply atomic_access_post; [exact Hpre'| | | |exact H]; [now intros k [= <-]|reflexivity|cbn; lia]|].
  destruct (Z.eqb_spec (wrap 8 subop) 0x02) as [E|_]; [rewrite E in H; eapply atomic_access_post; [exact Hpre'| | | |exact H]; [now intros k [= <-]|reflexivity|cbn; lia]|].
  pose proof (parsed_sig_ok subop) as Hk. unfold parsed_sig in Hk.
  destruct (Z.leb_spec 0x10 subop), (Z.leb_spec subop 0x16); cbn [andb] in H;
    try (eapply atomic_access_post; [exact Hpre'| | | |exact H]; [intros k; apply Hk; [lia|exact Hadm]|now destruct (subop <=? 0x13)|cbn; lia]).
  all: destruct (Z.leb_spec 0x17 subop), (Z.leb_spec subop 0x1D); cbn [andb] in H; try lia;
    try (eapply atomic_access_post; [exact Hpre'| | | |exact H]; [intros k; apply Hk; [lia|exact Hadm]|now destruct (subop <=? 0x1A)|cbn; lia]).
  all: destruct (Z.leb_spec 0x1E subop), (Z.leb_spec subop 0x4E); cbn [andb] in H; try lia; try discriminate.
  eapply atomic_access_post; [exact Hpre'| | | |exact H]; [intros k; apply Hk; [lia|exact Hadm]|now destruct (is_i64 subop), (is_cmpxchg subop)|cbn; lia].
Qed.
End Vectors.
