(* ===== verification/LoopSound.v ===== *)
(** * Validated bodies

    The parser's loop over a body keeps the invariant of [BodySound], for the
    instructions that [admitted] names: all but those of exception handling,
    tail calls, bulk memory, table access and segments, a typed [select] whose type byte is no
    value type, a [br_table] whose labels differ in their types, the vector
    instructions that can overflow and two mistyped atomic ones.  A loop
    that returns has read the whole body. *)
From Stdlib Require Import ZArith Lia Bool String.
From stdpp Require Import base list numbers decidable option.
From S2P Require Import Prelude Leb128 Types InitExpr ConstExpr ParseInit Stack Memory Numeric Softfloat Context Operands Interp Demo Invariants.
From S2P Require Import TypedOps TypedVec Typing Control Verifier Termination Writer Validator ParseVec ParseBody TrackerSpec Emission BodySound ScopeSound BranchSound VecSound.
Import GuardedPtr Leb Opcode GasInjector BitcodeWriter Tracker.

(** ** Instructions within the theorem *)

(** What a read ahead gives, if it gives anything. *)
Definition peeks {A} (read : M guarded_ptr A) (P : A -> bool) (s : pstate) : bool :=
  match read (code s) with Ok a _ => P a | _ => true end.
(** Exception handling, tail calls and table access. *)
Definition excluded : list Z := [0x06; 0x07; 0x08; 0x09; 0x0A; 0x18; 0x19; 0x1F; 0x12; 0x13; 0x25; 0x26].
(** The instruction [op], whose immediates come next. *)
Definition admitted (op : Z) (s : pstate) : bool :=
  negb (existsb (Z.eqb op) excluded) &&
  (negb (op =? 0xFC) || peeks (parse_varuint 32) (fun e => e <? 8) s) &&
  (negb (op =? 0x1C) || peeks (parse_varuint 32 ;;; Parser.next) is_valtype s) &&
  (negb (op =? 0x0E) || uniform s) &&
  (negb (op =? 0xFD) || peeks (parse_varuint 32) vec_admitted s) &&
  (negb (op =? 0xFE) || peeks (parse_varuint 32) atomic_admitted s).

Section Loop.
Context (m : module) (type_aliases : list Z) (datacount : option Z) (_options : Options)
  (ft : func_type) (lt : LocalTypes.local_types_t) (L Rs : list Z) (B : Z) (RT : list Z).
Abbreviation Inv := (Inv m L Rs B RT).
Abbreviation Pre := (Pre m L Rs B RT).
Abbreviation Post := (Post m L Rs B RT).

(** What the sections before the code have been checked for. *)
Record module_ok : Prop := {
  mo_globals : Forall (fun g => valtype (content_type (gv_type g))) (m_globals m);
  mo_mem : mem_addr_type m = types.i32;
  mo_types : Forall typed_sig (m_types m);
  mo_counts : Forall (fun t => return_count t = vec_size (return_types t)) (m_types m);
  mo_aliases : aliases_ok m type_aliases;
  mo_ntypes : vec_size (m_types m) <= 2 ^ 16;
  mo_ntables : vec_size (m_tables m) <= 2 ^ 16 }.
Context (Hm : module_ok) (Hlocals : locals_typed lt L).

Lemma control_post op p s s' u s0 s1 rest G : admitted op s = true -> parse_control m type_aliases _options ft op = Some p ->
  Pre s s0 s1 rest G -> p s = Ok u s' -> Post s'.
Proof.
  intros Hadm Hp Hpre H. destruct Hm as [M1 M2 M3 M4 M5 M6 M7]. unfold parse_control in Hp.
  destruct (op =? 0x00); [injection Hp as <-; eauto using unreachable_post|].
  destruct (op =? 0x01); [injection Hp as <-; eauto using nop_post|].
  destruct (op =? 0x02); [injection Hp as <-; eauto using block_post|].
  destruct (op =? 0x03); [injection Hp as <-; eauto using loop_post|].
  destruct (op =? 0x04); [injection Hp as <-; eauto using if_post|].
  destruct (op =? 0x05); [injection Hp as <-; eauto using else_post|].
  destruct (op =? 0x0B); [injection Hp as <-; eauto using end_post|].
  destruct (op =? 0x0C); [injection Hp as <-; eauto using br_post|].
  destruct (op =? 0x0D); [injection Hp as <-; eauto using br_if_post|].
  destruct (Z.eqb_spec op 0x0E) as [->|].
  { injection Hp as <-. eapply br_table_post; eauto. unfold admitted in Hadm. rewrite !andb_true_iff in Hadm. apply Hadm. }
  destruct (op =? 0x0F); [injection Hp as <-; eauto using return_post|].
  destruct (op =? 0x10); [injection Hp as <-; eauto using call_post|].
  destruct (op =? 0x11); [injection Hp as <-; eauto using call_indirect_post|].
  destruct (Z.eqb_spec op 0x12) as [->|]; [discriminate Hadm|]. destruct (Z.eqb_spec op 0x13) as [->|]; discriminate.
Qed.
Lemma exceptions_out op p s : admitted op s = true -> parse_exceptions m _options op = Some p -> False.
Proof.
  intros Hadm Hp. unfold parse_exceptions in Hp.
  repeat match type of Hp with
    | (if op =? ?k then _ else _) = _ => destruct (Z.eqb_spec op k) as [->|]; [discriminate Hadm|]
    end. discriminate.
Qed.
Lemma variable_post op p s s' u s0 s1 rest G : admitted op s = true -> parse_variable m lt op = Some p ->
  Pre s s0 s1 rest G -> p s = Ok u s' -> Post s'.
Proof.
  intros Hadm Hp Hpre H. destruct Hm as [M1 M2 M3 M4 M5 M6 M7]. unfold parse_variable in Hp.
  destruct (op =? 0x1A); [injection Hp as <-; eauto using drop_post|].
  destruct (op =? 0x1B); [injection Hp as <-; eauto using select_post|].
  destruct (Z.eqb_spec op 0x1C) as [->|].
  { injection Hp as <-. eapply typed_select_post; [|exact Hpre|exact H]. intros v s2 Hv. unfold admitted in Hadm. rewrite !andb_true_iff in Hadm.
    destruct Hadm as [[[[_ Hadm] _] _] _]. cbn [negb orb Z.eqb] in Hadm. unfold peeks, bind in Hadm. apply bind_ok in Hv as (n & sx & Hn & Hv).
    unfold varuint32 in Hn. apply on_code_ok in Hn as (g & Hn & ->). unfold next_byte in Hv. apply on_code_ok in Hv as (g' & Hv & _).
    change (0x1C =? 0x1C) with true in Hadm. cbn [negb orb] in Hadm. rewrite Hn in Hadm. change (Parser.next g = Ok v g') in Hv. rewrite Hv in Hadm. exact Hadm. }
  destruct (op =? 0x20); [injection Hp as <-; eauto using get_local_post|].
  destruct (op =? 0x21); [injection Hp as <-; eauto using set_local_post|].
  destruct (op =? 0x22); [injection Hp as <-; eauto using tee_local_post|].
  destruct (op =? 0x23); [injection Hp as <-; eauto using get_global_post|].
  destruct (op =? 0x24); [injection Hp as <-; eauto using set_global_post|].
  destruct (Z.eqb_spec op 0x25) as [->|]; [discriminate Hadm|]. destruct (Z.eqb_spec op 0x26) as [->|]; [discriminate Hadm|].
  destruct (op =? 0xD0); [injection Hp as <-; eauto using ref_null_post|].
  destruct (op =? 0xD1); [injection Hp as <-; eauto using ref_is_null_post|].
  destruct (op =? 0xD2); [injection Hp as <-; eauto using ref_func_post|discriminate].
Qed.
Lemma memory_post op p s s' u s0 s1 rest G : parse_memory m _options op = Some p -> Pre s s0 s1 rest G -> p s = Ok u s' -> Post s'.
Proof.
  intros Hp Hpre H. destruct Hm as [M1 M2 M3 M4 M5 M6 M7]. unfold parse_memory in Hp.
  destruct (op =? 0x3F); [injection Hp as <-; eauto using current_memory_post|].
  destruct (op =? 0x40); [injection Hp as <-; eauto using grow_memory_post|].
  destruct load_tables as [Hl Hs]. rewrite forallb_forall in Hl, Hs.
  destruct (vec_lookup load_ops (op - 0x28)) as [[[o a] t]|] eqn:El.
  - injection Hp as <-. apply vec_lookup_Some in El as [_ El]. apply list_elem_of_lookup_2, list_elem_of_In, Hl in El.
    rewrite andb_true_iff, Z.eqb_eq in El. destruct El. eapply load_post; eauto.
  - destruct (vec_lookup store_ops (op - 0x36)) as [[[o a] t]|] eqn:Es; [|discriminate]. injection Hp as <-.
    apply vec_lookup_Some in Es as [_ Es]. apply list_elem_of_lookup_2, list_elem_of_In, Hs in Es.
    rewrite andb_true_iff, Z.eqb_eq in Es. destruct Es. eapply store_post; eauto.
Qed.
Lemma numeric_table_ok n : n ∈ numeric_ops ++ extend_ops ++ trunc_sat_ops -> numeric_ok n = true.
Proof. intros Hin. pose proof numeric_tables as H. rewrite forallb_forall in H. now apply H, list_elem_of_In. Qed.
Lemma number_post op p s s' u s0 s1 rest G : parse_number _options op = Some p -> Pre s s0 s1 rest G -> p s = Ok u s' -> Post s'.
Proof.
  intros Hp Hpre H. unfold parse_number in Hp.
  destruct (op =? 0x41); [injection Hp as <-; eauto using i32_const_post|].
  destruct (op =? 0x42); [injection Hp as <-; eauto using i64_const_post|].
  destruct (op =? 0x43); [injection Hp as <-; eauto using f32_const_post|].
  destruct (op =? 0x44); [injection Hp as <-; eauto using f64_const_post|].
  destruct (vec_lookup numeric_ops (op - 0x45)) as [n|] eqn:En.
  - injection Hp as <-. apply vec_lookup_Some in En as [_ En]. eapply numeric_post; [|exact Hpre|exact H].
    apply numeric_table_ok, elem_of_app. left. now apply list_elem_of_lookup_2 in En.
  - destruct (vec_lookup extend_ops (op - 0xC0)) as [n|] eqn:Ex; [|discriminate]. injection Hp as <-. apply vec_lookup_Some in Ex as [_ Ex].
    eapply extend_post; [|exact Hpre|exact H]. apply numeric_table_ok, elem_of_app. right. apply elem_of_app. left. now apply list_elem_of_lookup_2 in Ex.
Qed.
Lemma ext_post s s' u s0 s1 rest G : peeks (parse_varuint 32) (fun e => e <? 8) s = true -> Pre s s0 s1 rest G ->
  parse_ext m datacount _options s = Ok u s' -> Post s'.
Proof.
  intros Hadm Hpre H. unfold parse_ext in H. step_in H e He. pose proof Hpre as (Hi & _).
  destruct (varuint_adv 32 _ _ _ (or_introl eq_refl) (iv_good _ _ _ _ _ _ _ _ Hi) He) as [Ha [He0 _]].
  unfold peeks in Hadm. rewrite He in Hadm. apply Z.ltb_lt in Hadm.
  assert (Hn : exists n, vec_lookup trunc_sat_ops e = Some n).
  { destruct (lookup_lt_is_Some_2 trunc_sat_ops (Z.to_nat e)) as [n Hn]; [cbn; lia|]. exists n. now apply vec_lookup_Some. }
  destruct Hn as [n Hn]. rewrite Hn in H. apply vec_lookup_Some in Hn as [_ Hn]. apply list_elem_of_lookup_2 in Hn.
  eapply trunc_sat_post; [| |exact H]; [apply numeric_table_ok, elem_of_app; right; apply elem_of_app; now right|].
  apply Pre_code; [exact Hpre|]. now apply (adv_weaken 1).
Qed.

Lemma instr_post op s s' u s0 s1 rest G : admitted op s = true -> Pre s s0 s1 rest G ->
  parse_instr m type_aliases datacount _options ft lt op s = Ok u s' -> Post s'.
Proof.
  intros Hadm Hpre H. unfold parse_instr in H. destruct (parse_control m type_aliases _options ft op) as [p|] eqn:E1; [eapply control_post; eauto|].
  destruct (parse_exceptions m _options op) as [p|] eqn:E2; [destruct (exceptions_out op p s Hadm E2)|].
  destruct (parse_variable m lt op) as [p|] eqn:E3; [eapply variable_post; eauto|].
  destruct (parse_memory m _options op) as [p|] eqn:E4; [eapply memory_post; eauto|].
  destruct (parse_number _options op) as [p|] eqn:E5; [eapply number_post; eauto|].
  destruct (op =? 0xFC) eqn:E6.
  - eapply ext_post; eauto. unfold admitted in Hadm. rewrite E6 in Hadm. rewrite !andb_true_iff in Hadm. apply Hadm.
  - unfold admitted, peeks in Hadm. rewrite !andb_true_iff in Hadm. destruct Hadm as [[_ Hvec] Hatomic]. destruct Hm as [_ M2 _ _ _ _ _].
    destruct (op =? 0xFD); [eapply vec_post; eauto; exact Hvec|]. destruct (op =? 0xFE); [eapply atomic_post; eauto; exact Hatomic|discriminate].
Qed.

(** ** The loop *)

(** The instruction at the head of the loop is within the theorem. *)
Definition supported (s : pstate) : bool :=
  match Parser.next (code s) with Ok op g => admitted op (s <| code := g |>) | _ => true end.

Lemma on_opcode_gas op g : Forall (Z.le 0) (loop_stack g) -> Forall (Z.le 0) (loop_stack (on_opcode op g)).
Proof.
  intros H. unfold on_opcode. destruct (gas_heavy_extra_for op =? 0); [exact H|]. destruct H as [|l ls Hl Hls]; [constructor|]. cbn.
  constructor; [|exact Hls]. unfold gas_heavy_extra_for, div_rem, call_indirect, regular. destruct (_ || _); [lia|]. destruct (_ =? _); lia.
Qed.
Lemma Inv_gas s segs G g : Inv s segs G -> Forall (Z.le 0) (loop_stack g) -> Inv (s <| gas_state := g |>) segs G.
Proof. intros [I1 I2 I3 I4 I5 I6 I7 I8 I9] Hg. split; auto. Qed.
Lemma Inv_segs s segs G : Inv s segs G -> pc_stack s <> [] -> exists s0 s1 rest, segs = s0 :: s1 :: rest.
Proof.
  intros Hi Hp. pose proof (ctl_length _ _ _ _ _ _ _ (cp_ctl _ _ _ _ _ _ _ _ _ _ (iv_comp _ _ _ _ _ _ _ _ Hi))) as Hl.
  destruct (pc_stack s); [easy|]. destruct segs as [|s0 [|s1 rest]]; cbn in Hl; try lia. eauto.
Qed.
Lemma step_post s s' u : Post s -> supported s = true -> offset (code s) < bounds (code s) ->
  body_step m type_aliases datacount _options ft lt s = Ok u s' -> Post s'.
Proof.
  intros (segs & G & Hi & Ha & Hend) Hsup Hlt H. unfold offset, bounds in Hlt.
  assert (Hp : pc_stack s <> []) by (intros E; destruct (Hend E); lia).
  destruct (Inv_segs _ _ _ Hi Hp) as (s0 & s1 & rest & ->). unfold body_step in H. step_in H x Hx. step_in H y Hy. step_in H op Hop.
  step_in H z Hz. unfold supported in Hsup. rewrite Hop in Hsup. destruct (next_adv _ _ _ (iv_good _ _ _ _ _ _ _ _ Hi) Hop) as [Hadv _].
  eapply (instr_post op _ s' u s0 s1 rest G); [| |exact H].
  - exact Hsup.
  - split; [|split; [exact Hp|]].
    + apply Inv_gas; [|apply on_opcode_gas, Hi]. apply Inv_code; [exact Hi|]. now apply (adv_weaken 1).
    + unfold ahead in *. cbn. destruct Hadv as (_ & _ & Hadv). lia.
Qed.

(** Every instruction of the run is within the theorem. *)
Fixpoint run_supported (fuel : nat) (s : pstate) : bool :=
  match fuel with
  | O => true
  | S n =>
      if offset (code s) <? bounds (code s) then
        supported s && match body_step m type_aliases datacount _options ft lt s with Ok _ s' => run_supported n s' | _ => true end
      else true
  end.
Lemma body_loop_post fuel : forall s s' u, Post s -> run_supported fuel s = true ->
  body_loop m type_aliases datacount _options ft lt fuel s = Ok u s' -> Post s' /\ gp_bnds (code s') <= gp_raw (code s').
Proof.
  induction fuel as [|n IH]; intros s s' u Hpost Hsup H; cbn [body_loop] in H; [discriminate|]. step_in H x Hx. cbn [run_supported] in Hsup.
  destruct (Z.ltb_spec (offset (code s)) (bounds (code s))) as [Hlt|Hge].
  - apply bind_ok in H as (y & sy & Hy & H). apply andb_true_iff in Hsup as [Hs Hr]. rewrite Hy in Hr.
    exact (IH sy s' u (step_post _ _ _ Hpost Hs Hlt Hy) Hr H).
  - apply ret_ok in H as [_ ->]. split; [exact Hpost|exact Hge].
Qed.
End Loop.
