(* ===== verification/ParserFrame.v ===== *)
(** * What the parser of bodies leaves alone

    Every case of the switch, exception handling and tables included, reads
    forwards and leaves the writer's memory below the function, its base offset
    and the room of the function as they were.  So the loop over a body ends
    within its bound. *)
From Stdlib Require Import ZArith Lia Bool String.
From stdpp Require Import base list numbers decidable option.
From S2P Require Import Prelude Leb128 Types InitExpr ConstExpr ParseInit Stack Memory Numeric Softfloat Context Operands Interp Demo Invariants.
From S2P Require Import TypedOps TypedVec Typing Control Verifier Termination Writer Validator ParseVec ParseBody TrackerSpec Emission BodySound.
Import GuardedPtr Leb Opcode GasInjector BitcodeWriter Tracker.

Create HintDb parser_frame.

(** ** The writer *)
Record kept (w w' : bitcode_writer) : Prop := {
  kp_seg : seg w' = seg w; kp_usage : stack_usage w' = stack_usage w; kp_base : _base_offset w' = _base_offset w;
  kp_size : vec_size (fb w') = vec_size (fb w) }.
#[export] Instance kept_preorder : PreOrder kept.
Proof. split; [now split|]. intros w w1 w2 [A1 A2 A3 A4] [B1 B2 B3 B4]. split; congruence. Qed.

Definition keeps {A} (f : M bitcode_writer A) : Prop := forall w a w', f w = Ok a w' -> kept w w'.
Lemma writer_bind {A B} (f : M bitcode_writer A) (k : A -> M bitcode_writer B) : keeps f -> (forall a, keeps (k a)) -> keeps (bind f k).
Proof. intros Hf Hk w b w' H. apply bind_ok in H as (a & w1 & H1 & H2). transitivity w1; [exact (Hf _ _ _ H1)|exact (Hk _ _ _ _ H2)]. Qed.
Lemma keeps_same {A} (f : M bitcode_writer A) : (forall w a w', f w = Ok a w' -> w' = w) -> keeps f.
Proof. intros H w a w' Hf. now rewrite (H _ _ _ Hf). Qed.
Lemma writer_modify f : (forall w, kept w (f w)) -> keeps (modify f).
Proof. intros H w a w' Hf. apply modify_ok in Hf. subst w'. apply H. Qed.
Lemma keeps_put i op : keeps (put i op).
Proof. intros w a w' H. apply put_ok in H as [_ ->]. split; cbn; auto. apply vec_update_size. Qed.

Ltac keeps_head :=
  lazymatch goal with
  | |- keeps (bind _ _) => apply writer_bind; [|intros ?]
  | |- keeps (ret _) => apply keeps_same; intros ? ? ?; now intros [_ ->]%ret_ok
  | |- keeps get => apply keeps_same; intros ? ? ?; now intros [_ ->]%get_ok
  | |- keeps (gets _) => apply keeps_same; intros ? ? ?; now intros [_ ->]%gets_ok
  | |- keeps (psizam_assert ?b _ _) => apply keeps_same; unfold psizam_assert; destruct b; intros ? ? ?; [now intros [_ ->]%ret_ok|discriminate]
  | |- keeps undefined => intros ? ? ?; discriminate
  | |- keeps (throw _ _) => intros ? ? ?; discriminate
  | |- keeps (put _ _) => apply keeps_put
  | |- keeps (modify _) => apply writer_modify; intros ?; split; cbn; try reflexivity; apply vec_update_size
  | |- keeps (match ?x with _ => _ end) => destruct x
  end.
Ltac keeps := repeat keeps_head; try assumption.

Lemma append_keeps op : keeps (append_instr op). Proof. unfold append_instr. keeps. Qed.
Lemma emit_op_keeps op : keeps (emit_op op). Proof. unfold emit_op. keeps. apply append_keeps. Qed.
Lemma store_branch_keeps b v : keeps (store_branch b v). Proof. unfold store_branch. keeps. Qed.
Lemma fix_branch_keeps b t : keeps (fix_branch b t). Proof. unfold fix_branch. keeps. apply store_branch_keeps. Qed.
Lemma encode_keeps d rt rc : keeps (encode_depth_change d rt rc). Proof. unfold encode_depth_change. keeps. Qed.
Lemma fix_branches_keeps l t : keeps (fix_branches l t).
Proof. induction l; cbn [fix_branches]; keeps. apply fix_branch_keeps. Qed.
Lemma patch_keeps h e : keeps (patch_gas_imm_add_extra h e). Proof. unfold patch_gas_imm_add_extra. keeps. Qed.
Lemma repeat_keeps n op : keeps op -> keeps (repeat_op n op).
Proof. intros H. induction n; cbn [repeat_op]; keeps. Qed.
Lemma emit_clauses_keeps cs : keeps (emit_clauses cs).
Proof. induction cs; cbn [emit_clauses]; keeps; apply append_keeps. Qed.
#[export] Hint Resolve append_keeps emit_op_keeps store_branch_keeps fix_branch_keeps encode_keeps fix_branches_keeps patch_keeps
  repeat_keeps emit_clauses_keeps : parser_frame.
Ltac keeps_all := repeat keeps_head; auto with parser_frame.

Lemma emit_br_keeps d rt rc : keeps (emit_br d rt rc). Proof. unfold emit_br. keeps_all. Qed.
Lemma emit_br_if_keeps d rt rc n : keeps (emit_br_if d rt rc n). Proof. unfold emit_br_if. keeps_all. Qed.
Lemma emit_loop_keeps : keeps emit_loop. Proof. unfold emit_loop. keeps_all. Qed.
Lemma emit_if_keeps : keeps emit_if. Proof. unfold emit_if. keeps_all. Qed.
Lemma emit_else_keeps b : keeps (emit_else b). Proof. unfold emit_else. keeps_all. Qed.
Lemma emit_catch_keeps t : keeps (emit_catch t). Proof. unfold emit_catch. keeps_all. Qed.
Lemma emit_catch_all_keeps : keeps emit_catch_all. Proof. unfold emit_catch_all. keeps_all. Qed.
Lemma emit_try_table_keeps cs : keeps (emit_try_table cs). Proof. unfold emit_try_table. keeps_all. Qed.
Lemma emit_br_table_keeps n : keeps (emit_br_table n).
Proof. unfold emit_br_table, check_at. keeps_all. Qed.
Lemma emit_case_keeps i d rt rc n : keeps (emit_case i d rt rc n). Proof. unfold emit_case. keeps_all. Qed.
Lemma emit_default_keeps i d rt rc n : keeps (emit_default i d rt rc n). Proof. unfold emit_default. keeps_all. apply emit_case_keeps. Qed.
Lemma last_loop_keeps : keeps last_loop_gas_handle. Proof. unfold last_loop_gas_handle. keeps_all. Qed.
Lemma emit_end_keeps : keeps emit_end. Proof. unfold emit_end. keeps_all. Qed.
Lemma eh_leave_keeps : keeps emit_eh_leave. Proof. unfold emit_eh_leave. keeps_all. Qed.
Lemma ret_keeps {A} (a : A) : keeps (ret a). Proof. keeps_all. Qed.
#[export] Hint Resolve emit_br_keeps emit_br_if_keeps emit_loop_keeps emit_if_keeps emit_else_keeps emit_catch_keeps emit_catch_all_keeps
  emit_try_table_keeps emit_br_table_keeps emit_case_keeps emit_default_keeps last_loop_keeps emit_end_keeps eh_leave_keeps ret_keeps : parser_frame.

(** ** Reading *)
Definition reads {A} (f : M guarded_ptr A) : Prop := forall g a g', good g -> f g = Ok a g' -> adv 0 g g'.
Lemma next_reads : reads Parser.next.
Proof. intros g a g' Hg H. destruct (next_adv _ _ _ Hg H) as [Ha _]. now apply (adv_weaken 1). Qed.
Lemma varuint_reads N : wide N -> reads (parse_varuint N).
Proof. intros HN g a g' Hg H. destruct (varuint_adv N _ _ _ HN Hg H) as [Ha _]. now apply (adv_weaken 1). Qed.
Lemma varint_reads N : wide N -> reads (parse_varint N).
Proof. intros HN g a g' Hg H. destruct (varint_adv N _ _ _ HN Hg H) as [Ha _]. now apply (adv_weaken 1). Qed.
Lemma raw_reads n : reads (Parser.parse_raw n).
Proof. intros g a g' Hg H. destruct (raw_adv n _ _ _ Hg H) as [Ha _]. now apply (adv_weaken (Z.of_nat n)); [lia|]. Qed.
Lemma current_reads : reads current.
Proof. intros g a g' Hg H. destruct (current_same _ _ _ Hg H) as [-> _]. now apply adv_refl. Qed.
Lemma incr_reads : reads incr.
Proof. intros g a g' Hg H. apply incr_adv in H; [|exact Hg]. now apply (adv_weaken 1). Qed.
Lemma shuffle_reads : reads read_shuffle.
Proof. intros g a g' Hg H. destruct (shuffle_adv _ _ _ Hg H) as [Ha _]. now apply (adv_weaken 16). Qed.
Lemma wide_32 : wide 32. Proof. now left. Qed.
Lemma wide_64 : wide 64. Proof. now right. Qed.
#[export] Hint Resolve next_reads varuint_reads varint_reads raw_reads current_reads incr_reads shuffle_reads wide_32 wide_64 : parser_frame.

(** ** The parser *)
Record stays (s s' : pstate) : Prop := { st_code : adv 0 (code s) (code s'); st_writer : kept (code_writer s) (code_writer s') }.
Definition calm {A} (f : M pstate A) : Prop := forall s a s', good (code s) -> f s = Ok a s' -> stays s s'.
Lemma stays_refl s : good (code s) -> stays s s.
Proof. intros H. split; [now apply adv_refl|reflexivity]. Qed.
Lemma stays_trans s s1 s2 : stays s s1 -> stays s1 s2 -> stays s s2.
Proof. intros [A1 A2] [B1 B2]. split; [exact (adv_trans 0 0 _ _ _ A1 B1)|etransitivity; eauto]. Qed.
Lemma stays_good s s' : good (code s) -> stays s s' -> good (code s').
Proof. intros Hg [Ha _]. eapply adv_good; [exact Hg| |exact Ha]. lia. Qed.
Lemma calm_bind {A B} (f : M pstate A) (k : A -> M pstate B) : calm f -> (forall a, calm (k a)) -> calm (bind f k).
Proof.
  intros Hf Hk s b s' Hg H. apply bind_ok in H as (a & s1 & H1 & H2). pose proof (Hf _ _ _ Hg H1) as Hs.
  exact (stays_trans _ _ _ Hs (Hk _ _ _ _ (stays_good _ _ Hg Hs) H2)).
Qed.
Lemma calm_same {A} (f : M pstate A) : (forall s a s', f s = Ok a s' -> s' = s) -> calm f.
Proof. intros H s a s' Hg Hf. rewrite (H _ _ _ Hf). now apply stays_refl. Qed.
Lemma calm_modify f : (forall s, code (f s) = code s /\ code_writer (f s) = code_writer s) -> calm (modify f).
Proof. intros H s a s' Hg Hf. apply modify_ok in Hf. subst s'. destruct (H s) as [E1 E2]. split; [rewrite E1; now apply adv_refl|now rewrite E2]. Qed.
Lemma calm_on_code {A} (f : M guarded_ptr A) : reads f -> calm (on_code f).
Proof. intros Hf s a s' Hg H. apply on_code_ok in H as (g & H & ->). split; [exact (Hf _ _ _ Hg H)|reflexivity]. Qed.
Lemma calm_on_stack {A} (f : M tracker A) : calm (on_stack f).
Proof. intros s a s' Hg H. apply on_stack_ok in H as (t & H & ->). split; [now apply adv_refl|reflexivity]. Qed.
Lemma calm_on_writer {A} (f : M bitcode_writer A) : keeps f -> calm (on_writer f).
Proof. intros Hf s a s' Hg H. apply on_writer_ok in H as (w & H & ->). split; [now apply adv_refl|exact (Hf _ _ _ H)]. Qed.

Ltac calm_head :=
  lazymatch goal with
  | |- calm (bind _ _) => apply calm_bind; [|intros ?]
  | |- calm (ret _) => apply calm_same; intros ? ? ?; now intros [_ ->]%ret_ok
  | |- calm get => apply calm_same; intros ? ? ?; now intros [_ ->]%get_ok
  | |- calm (parse_check _ _) => apply calm_same; intros ? ? ?; now intros [_ ->]%parse_check_Ok
  | |- calm (psizam_assert ?b _ _) => apply calm_same; unfold psizam_assert; destruct b; intros ? ? ?; [now intros [_ ->]%ret_ok|discriminate]
  | |- calm (vec_index _ _) => apply calm_same; intros ? ? ?; now intros [_ ->]%vec_index_inv
  | |- calm (vec_at ?l ?i) => apply calm_same; unfold vec_at; destruct (vec_lookup l i); intros ? ? ?; [now intros [= _ <-]|discriminate]
  | |- calm undefined => intros ? ? ? ?; discriminate
  | |- calm (throw _ _) => intros ? ? ? ?; discriminate
  | |- calm (on_stack _) => apply calm_on_stack
  | |- calm (on_code _) => apply calm_on_code; solve [auto with parser_frame]
  | |- calm (on_writer _) => apply calm_on_writer; solve [auto with parser_frame]
  | |- calm (modify _) => apply calm_modify; intros ?; now split
  | |- calm (match ?x with _ => _ end) => destruct x
  end.
Ltac calm := repeat calm_head; auto with parser_frame.

Lemma next_byte_calm : calm next_byte. Proof. unfold next_byte. calm. Qed.
Lemma peek_byte_calm : calm peek_byte. Proof. unfold peek_byte. calm. Qed.
Lemma varuint32_calm : calm varuint32. Proof. unfold varuint32. calm. Qed.
Lemma varint32_calm : calm varint32. Proof. unfold varint32. calm. Qed.
Lemma in_bounds_calm : calm check_in_bounds. Proof. unfold check_in_bounds. calm. Qed.
Lemma label_target_calm l : calm (label_target l). Proof. unfold label_target. calm. Qed.
Lemma set_back_calm e : calm (set_back e). Proof. unfold set_back. calm. Qed.
Lemma get_branches_calm e : calm (get_branches e). Proof. unfold get_branches. calm. Qed.
#[export] Hint Resolve next_byte_calm peek_byte_calm varuint32_calm varint32_calm in_bounds_calm label_target_calm set_back_calm
  get_branches_calm : parser_frame.
Lemma handle_calm l b : calm (handle_branch_target l b). Proof. unfold handle_branch_target. calm. Qed.
Lemma depth_change_calm l : calm (compute_depth_change l). Proof. unfold compute_depth_change. calm. Qed.
Lemma eh_leaves_calm l : calm (emit_eh_leaves_for_branch l). Proof. unfold emit_eh_leaves_for_branch. calm. Qed.
Lemma restart_calm e : calm (restart_scope e). Proof. unfold restart_scope. calm. Qed.
#[export] Hint Resolve handle_calm depth_change_calm eh_leaves_calm restart_calm : parser_frame.
Lemma start_else_calm e : calm (start_else e). Proof. unfold start_else. calm. Qed.
#[export] Hint Resolve start_else_calm : parser_frame.
Lemma exit_scope_calm : calm exit_scope. Proof. unfold exit_scope, emit_eh_leave. calm. Qed.
#[export] Hint Resolve exit_scope_calm : parser_frame.
Lemma skip_leb_calm n : calm (skip_leb n). Proof. induction n; cbn [skip_leb]; calm. Qed.
#[export] Hint Resolve skip_leb_calm : parser_frame.
Lemma skip_calm : calm skip_continuation. Proof. unfold skip_continuation. calm. Qed.
Lemma enter_calm e : calm (enter_scope e). Proof. unfold enter_scope. calm. Qed.
Lemma open_calm : calm open_scope. Proof. unfold open_scope. calm. Qed.
Lemma parse_labels_calm n : calm (parse_labels n). Proof. induction n; cbn [parse_labels]; calm. Qed.
Lemma check_cases_calm p d ls : calm (check_cases p d ls). Proof. induction ls; cbn [check_cases]; calm. Qed.
Lemma emit_cases_calm h ls : calm (emit_cases h ls). Proof. induction ls; cbn [emit_cases]; calm. Qed.
Lemma handle_catches_calm cs : forall bs, calm (handle_catches cs bs). Proof. induction cs; intros []; cbn [handle_catches]; calm. Qed.
Lemma place_catches_calm d cs : calm (place_catches d cs). Proof. induction cs; cbn [place_catches]; calm. Qed.
Lemma local_index_calm lt i : calm (LocalTypes.index lt i). Proof. unfold LocalTypes.index. calm. Qed.
Lemma function_type_calm m i : calm (get_function_type m i). Proof. unfold get_function_type. calm. Qed.
Lemma call_types_calm t : calm (call_types t). Proof. unfold call_types. calm. Qed.
Lemma zero_byte_calm msg : calm (zero_byte msg). Proof. unfold zero_byte. calm. Qed.
Lemma back_calm : calm back_element. Proof. unfold back_element. calm. Qed.
Lemma add_branch_calm e b : calm (add_branch e b). Proof. unfold add_branch. calm. Qed.
Lemma check_catch_calm ts e : calm (check_catch_types ts e). Proof. unfold check_catch_types. calm. Qed.
#[export] Hint Resolve skip_calm enter_calm open_calm parse_labels_calm check_cases_calm emit_cases_calm handle_catches_calm
  place_catches_calm local_index_calm function_type_calm call_types_calm zero_byte_calm back_calm add_branch_calm check_catch_calm : parser_frame.

Section Body.
Context (m : module) (type_aliases : list Z) (datacount : option Z) (_options : Options)
  (ft : func_type) (lt : LocalTypes.local_types_t).

Lemma type_index_calm : calm (parse_type_index m). Proof. unfold parse_type_index. calm. Qed.
Lemma tag_params_calm i : calm (tag_params m i). Proof. unfold tag_params. calm. Qed.
Lemma require_eh_calm : calm (require_eh _options). Proof. unfold require_eh. calm. Qed.
Lemma global_at_calm i : calm (global_at m i). Proof. unfold global_at. calm. Qed.
Lemma table_element_calm i : calm (table_element m i). Proof. unfold table_element. calm. Qed.
Lemma funcref_table_calm i : calm (check_funcref_table m i). Proof. unfold check_funcref_table. calm. Qed.
Lemma require_memory_calm msg : calm (require_memory m msg). Proof. unfold require_memory. calm. Qed.
Lemma require_bulk_calm : calm (require_bulk _options). Proof. unfold require_bulk. calm. Qed.
Lemma check_data_calm x : calm (check_data datacount x). Proof. unfold check_data. calm. Qed.
Lemma memarg_calm a : calm (parse_memarg m _options a). Proof. unfold parse_memarg, parse_memarg_offset. calm. Qed.
Lemma numeric_calm n : calm (parse_numeric n). Proof. unfold parse_numeric. calm. Qed.
Lemma const_calm read emit t : reads read -> calm (parse_const read emit t). Proof. intros H. unfold parse_const. calm. Qed.
Hint Resolve type_index_calm tag_params_calm require_eh_calm global_at_calm table_element_calm funcref_table_calm require_memory_calm
  require_bulk_calm check_data_calm memarg_calm numeric_calm const_calm : parser_frame.
Lemma block_type_calm : calm (parse_block_type m _options). Proof. unfold parse_block_type. calm. Qed.
Lemma try_type_calm : calm (parse_try_type m). Proof. unfold parse_try_type. calm. Qed.
Lemma try_table_type_calm : calm (parse_try_table_type m). Proof. unfold parse_try_table_type. calm. Qed.
Lemma parse_catches_calm n : calm (parse_catches m n). Proof. induction n; cbn [parse_catches]; calm. Qed.
Lemma tail_call_calm e : keeps e -> calm (finish_tail_call e). Proof. intros H. unfold finish_tail_call, emit_return. calm. Qed.
Hint Resolve block_type_calm try_type_calm try_table_type_calm parse_catches_calm tail_call_calm : parser_frame.

Lemma control_calm op p : parse_control m type_aliases _options ft op = Some p -> calm p.
Proof.
  unfold parse_control. intros H.
  repeat (destruct (op =? _); [injection H as <-; unfold emit_unreachable, emit_nop, parse_block, parse_loop, parse_if, parse_else, parse_end, parse_br,
    parse_br_if, parse_br_table, parse_return, parse_call, parse_call_indirect, parse_return_call, parse_return_call_indirect, emit_block, emit_return,
    emit_call, emit_call_indirect, emit_tail_call, emit_tail_call_indirect; calm|]). discriminate.
Qed.
Lemma exceptions_calm op p : parse_exceptions m _options op = Some p -> calm p.
Proof.
  unfold parse_exceptions. intros H.
  repeat (destruct (op =? _); [injection H as <-; unfold parse_try, parse_catch, parse_throw, parse_rethrow, parse_throw_ref, parse_catch_all,
    parse_delegate, parse_try_table, emit_try, emit_throw, emit_rethrow, emit_throw_ref, emit_delegate; calm|]). discriminate.
Qed.
Lemma variable_calm op p : parse_variable m lt op = Some p -> calm p.
Proof.
  unfold parse_variable. intros H.
  repeat (destruct (op =? _); [injection H as <-; unfold parse_drop, parse_select, parse_typed_select, parse_get_local, parse_set_local, parse_tee_local,
    parse_get_global, parse_set_global, parse_table_get, parse_table_set, parse_ref_null, parse_ref_is_null, parse_ref_func; calm|]). discriminate.
Qed.
Lemma memory_calm op p : parse_memory m _options op = Some p -> calm p.
Proof.
  unfold parse_memory. intros H. destruct (op =? _); [injection H as <-; unfold parse_current_memory; calm|].
  destruct (op =? _); [injection H as <-; unfold parse_grow_memory; calm|].
  destruct (vec_lookup load_ops _) as [[[o a] t]|]; [injection H as <-; unfold parse_load; calm|].
  destruct (vec_lookup store_ops _) as [[[o a] t]|]; [injection H as <-; unfold parse_store; calm|discriminate].
Qed.
Lemma number_calm op p : parse_number _options op = Some p -> calm p.
Proof.
  unfold parse_number. intros H. repeat (destruct (op =? _); [injection H as <-; calm|]).
  destruct (vec_lookup numeric_ops _); [injection H as <-; calm|].
  destruct (vec_lookup extend_ops _); [injection H as <-; unfold parse_extend; calm|discriminate].
Qed.
Lemma ext_calm : calm (parse_ext m datacount _options).
Proof.
  unfold parse_ext, parse_trunc_sat, parse_memory_init, parse_data_drop, parse_memory_copy, parse_memory_fill, parse_table_init, parse_elem_drop,
    parse_table_copy, parse_table_grow, parse_table_size, parse_table_fill, emit_table_init, emit_table_copy. calm.
Qed.
Lemma lane_memarg_calm a : calm (parse_lane_memarg m _options a). Proof. unfold parse_lane_memarg, parse_memarg_offset. calm. Qed.
Lemma atomic_memarg_calm : calm (parse_atomic_memarg m). Proof. unfold parse_atomic_memarg, parse_memarg_offset. calm. Qed.
Lemma emit_atomic_keeps asub a : keeps (emit_atomic_op asub a). Proof. unfold emit_atomic_op. keeps_all. Qed.
Hint Resolve lane_memarg_calm atomic_memarg_calm emit_atomic_keeps : parser_frame.
Lemma vec_memory_calm op p : parse_vec_memory m _options op = Some p -> calm p.
Proof.
  unfold parse_vec_memory, parse_vec_load, parse_load_lane, parse_store_lane, parse_v128_store. intros H.
  destruct (case_of op vec_load_ops) as [[o a]|]; [injection H as <-; calm|]. destruct (case_of op load_lane_ops) as [[o a]|]; [injection H as <-; calm|].
  destruct (case_of op store_lane_ops) as [[o a]|]; [injection H as <-; calm|]. destruct (op =? 11); [injection H as <-; calm|discriminate].
Qed.
Lemma vec_lanes_calm op p : parse_vec_lanes op = Some p -> calm p.
Proof.
  unfold parse_vec_lanes, parse_extract_lane, parse_replace_lane, parse_v128_const, parse_shuffle. intros H.
  destruct (case_of op extract_ops) as [[[o t] n]|]; [injection H as <-; calm|]. destruct (case_of op replace_ops) as [[[o t] n]|]; [injection H as <-; calm|].
  destruct (op =? 12); [injection H as <-; calm|]. destruct (op =? 13); [injection H as <-; calm|discriminate].
Qed.
Lemma vec_calm : calm (parse_vec m _options).
Proof.
  unfold parse_vec. do 2 (apply calm_bind; [calm|intros ?]). destruct (parse_vec_memory m _options _) as [p|] eqn:E1; [now apply vec_memory_calm in E1|].
  destruct (parse_vec_lanes _) as [p|] eqn:E2; [now apply vec_lanes_calm in E2|]. destruct (case_of _ _) as [n|]; unfold parse_vec_numeric; calm.
Qed.
Lemma atomic_access_calm asub args results : calm (parse_atomic_access m asub args results). Proof. unfold parse_atomic_access. calm. Qed.
Lemma atomic_fence_calm asub : calm (parse_atomic_fence asub). Proof. unfold parse_atomic_fence. calm. Qed.
Hint Resolve atomic_access_calm atomic_fence_calm : parser_frame.
Lemma atomic_calm : calm (parse_atomic m).
Proof. unfold parse_atomic. cbv zeta. apply calm_bind; [calm|intros op]. repeat match goal with |- calm (if ?b then _ else _) => destruct b; [solve [calm]|] end. calm. Qed.
Lemma instr_calm op : calm (parse_instr m type_aliases datacount _options ft lt op).
Proof.
  unfold parse_instr. destruct (parse_control _ _ _ _ op) as [p|] eqn:E1; [now apply control_calm in E1|].
  destruct (parse_exceptions _ _ op) as [p|] eqn:E2; [now apply exceptions_calm in E2|].
  destruct (parse_variable _ _ op) as [p|] eqn:E3; [now apply variable_calm in E3|].
  destruct (parse_memory _ _ op) as [p|] eqn:E4; [now apply memory_calm in E4|].
  destruct (parse_number _ op) as [p|] eqn:E5; [now apply number_calm in E5|].
  destruct (op =? 0xFC); [apply ext_calm|]. destruct (op =? 0xFD); [apply vec_calm|]. destruct (op =? 0xFE); [apply atomic_calm|]. calm.
Qed.

(** One iteration consumes its opcode at least. *)
Lemma step_reads s u s' : good (code s) -> body_step m type_aliases datacount _options ft lt s = Ok u s' ->
  adv 1 (code s) (code s') /\ kept (code_writer s) (code_writer s').
Proof.
  intros Hg H. unfold body_step in H. step_in H x Hx. step_in H y Hy. step_in H op Hop. step_in H z Hz.
  destruct (next_adv _ _ _ Hg Hop) as [Ha _]. pose proof (adv_good 1 _ _ Hg ltac:(lia) Ha) as Hg1.
  apply instr_calm in H as [H1 H2]; [|exact Hg1]. split; [|exact H2]. exact (adv_trans 1 0 _ _ _ Ha H1).
Qed.
Abbreviation loop := (body_loop m type_aliases datacount _options ft lt).
Lemma loop_kept n : forall s u s', good (code s) -> loop n s = Ok u s' -> kept (code_writer s) (code_writer s').
Proof.
  induction n as [|n IH]; intros s u s' Hg H; cbn [body_loop] in H; [discriminate|]. step_in H x Hx.
  destruct (offset (code s) <? bounds (code s)); [|apply ret_ok in H as [_ ->]; reflexivity].
  apply bind_ok in H as (y & s1 & H1 & H2). destruct (step_reads _ _ _ Hg H1) as [Ha Hk].
  transitivity (code_writer s1); [exact Hk|]. apply (IH s1 u s'); [|exact H2]. now apply (adv_good 1 (code s)); [exact Hg|lia|].
Qed.
(** The loop over a body ends, whatever its fuel above the length of the body: no round
    leaves as many bytes as it found. *)
Definition more_body (s : pstate) : bool := offset (code s) <? bounds (code s).
Lemma body_loop_ends s : good (code s) ->
  exists k o, Z.of_nat k <= bounds (code s) - offset (code s) /\
    loop_ends more_body (fun _ : unit => body_step m type_aliases datacount _options ft lt) k tt s o /\
    forall n, (k < n)%nat -> loop n s = o.
Proof.
  intros Hg. apply (loop_ends_fuel more_body _ (fun n _ => loop n) (fun _ s => good (code s)) (fun s => bounds (code s) - offset (code s)));
    [intros n a s1; cbn [body_loop]; unfold more_body, bind at 1, get; now destruct (_ <? _)| |exact Hg|destruct Hg as [[[? ?] _] _]; unfold bounds, offset; lia].
  intros _ s1 y s2 Hg1 _ E. destruct (step_reads _ _ _ Hg1 E) as [Ha _]. pose proof Ha as (_ & Eb & Hr).
  split; [now apply (adv_good 1 (code s1)); [|lia|]|]. unfold bounds, offset in *. lia.
Qed.
End Body.
