(* ===== verification/FunctionSound.v ===== *)
(** * Validated functions

    A body that [write_code_out] accepts becomes a stretch of typed bytecode that
    ends in the return of the function; the locals are those the interpreter
    sets up. *)
From Stdlib Require Import ZArith Lia Bool String.
From stdpp Require Import base list numbers decidable option.
From S2P Require Import Prelude Leb128 Types InitExpr ConstExpr ParseInit Stack Memory Numeric Softfloat Context Operands Interp Demo Invariants.
From S2P Require Import TypedOps TypedVec Typing Control Verifier Termination Writer Validator ParseVec ParseBody TrackerSpec Emission BodySound ScopeSound BranchSound LoopSound ParserFrame.
Import GuardedPtr Leb Opcode GasInjector BitcodeWriter Tracker.

(** ** Local types *)
Section Locals.

(** [local_types_t] without its boundaries. *)
Definition expand (locals : list local_entry) : list Z := locals ≫= (fun le => repeat (le_type le) (Z.to_nat (le_count le))).
Definition total (locals : list local_entry) : Z := vec_size (expand locals).
Definition counts_ok (locals : list local_entry) : Prop := Forall (fun le => 0 <= le_count le) locals.

Lemma lookup_repeat {A} (a : A) n i : (i < n)%nat -> repeat a n !! i = Some a.
Proof. revert i. induction n as [|n IH]; intros [|i] Hi; try lia; [reflexivity|]. cbn. apply IH. lia. Qed.
Lemma total_cons le locals : 0 <= le_count le -> total (le :: locals) = le_count le + total locals.
Proof. intros H. unfold total, expand, vec_size. cbn. rewrite length_app, repeat_length. lia. Qed.
Lemma total_nonneg locals : 0 <= total locals. Proof. unfold total, vec_size. lia. Qed.

Lemma boundaries_ok {S} locals : forall count (s : S) bs s', counts_ok locals -> LocalTypes.boundaries count locals s = Ok bs s' ->
  s' = s /\ List.last bs 0 = count + total locals /\ (locals <> [] -> count + total locals <= 0xFFFFFFFF) /\ exists bs', bs = count :: bs'.
Proof.
  induction locals as [|le locals IH]; intros count s bs s' Hc H; cbn [LocalTypes.boundaries] in H.
  - apply ret_ok in H as [-> ->]. split; [reflexivity|]. split; [cbn; unfold total, vec_size; cbn; lia|]. split; [easy|eauto].
  - inversion Hc as [|? ? H0 Hc']. subst. step_in H x Hx. step_in H bs1 H1. apply ret_ok in H as [-> ->].
    destruct (IH _ _ _ _ Hc' H1) as (-> & Hl & Hb & bs' & ->). apply Z.leb_le in Hx. split; [reflexivity|].
    rewrite total_cons by assumption. split; [change (List.last (count + le_count le :: bs') 0 = count + (le_count le + total locals)); lia|].
    split; [|eauto]. intros _. destruct locals; [unfold total, vec_size; cbn; lia|]. specialize (Hb ltac:(discriminate)). lia.
Qed.
(** The boundary search finds the entry of a local. *)
Lemma upper_bound_entry {S} locals : forall count (s : S) bs s' i, counts_ok locals -> LocalTypes.boundaries count locals s = Ok bs s' ->
  count <= i < count + total locals ->
  exists le, vec_lookup locals (LocalTypes.upper_bound bs i - 1) = Some le /\ vec_lookup (expand locals) (i - count) = Some (le_type le).
Proof.
  induction locals as [|le locals IH]; intros count s bs s' i Hc H Hi; cbn [LocalTypes.boundaries] in H.
  - unfold total, vec_size in Hi. cbn in Hi. lia.
  - inversion Hc as [|? ? H0 Hc']. subst. rewrite total_cons in Hi by assumption. step_in H x Hx. step_in H bs1 H1. apply ret_ok in H as [-> ->].
    cbn [LocalTypes.upper_bound]. destruct (Z.ltb_spec i count); [lia|].
    destruct (boundaries_ok _ _ _ _ _ Hc' H1) as (_ & _ & _ & bs' & E).
    destruct (Z.ltb_spec i (count + le_count le)) as [Hin|Hout].
    + exists le. split.
      * rewrite E. cbn [LocalTypes.upper_bound]. destruct (Z.ltb_spec i (count + le_count le)); [reflexivity|lia].
      * apply vec_lookup_Some. split; [lia|]. cbn. rewrite lookup_app_l by (rewrite repeat_length; lia).
        apply lookup_repeat. lia.
    + destruct (IH _ _ _ _ i Hc' H1 ltac:(lia)) as (le' & E1 & E2). exists le'. split.
      * apply vec_lookup_Some in E1 as [G1 E1]. apply vec_lookup_Some. split; [lia|].
        replace (Z.to_nat (1 + LocalTypes.upper_bound bs1 i - 1)) with (Datatypes.S (Z.to_nat (LocalTypes.upper_bound bs1 i - 1))) by lia. exact E1.
      * apply vec_lookup_Some in E2 as [G2 E2]. apply vec_lookup_Some. split; [lia|]. cbn. rewrite lookup_app_r by (rewrite repeat_length; lia).
        rewrite repeat_length. replace (Z.to_nat (i - count) - Z.to_nat (le_count le))%nat with (Z.to_nat (i - (count + le_count le))) by lia. exact E2.
Qed.
Lemma upper_bound_zero {S} locals count (s : S) bs s' i : counts_ok locals -> LocalTypes.boundaries count locals s = Ok bs s' ->
  (LocalTypes.upper_bound bs i = 0 <-> i < count) /\ 0 <= LocalTypes.upper_bound bs i.
Proof.
  intros Hc H. destruct (boundaries_ok _ _ _ _ _ Hc H) as (_ & _ & _ & bs' & ->). cbn.
  assert (Hn : forall l, 0 <= LocalTypes.upper_bound l i) by (induction l; cbn; [lia|]; destruct (_ <? _); lia).
  specialize (Hn bs'). destruct (Z.ltb_spec i count); split; try lia; split; lia.
Qed.

Lemma local_types_typed {S} ft locals (s : S) lt s' : vec_size (param_types ft) < 2 ^ 32 -> Forall valtype (param_types ft) -> counts_ok locals ->
  Forall (fun le => valtype (le_type le)) locals -> LocalTypes.make ft locals s = Ok lt s' ->
  s' = s /\ locals_typed lt (map rep_type (param_types ft ++ expand locals)) /\
  LocalTypes.locals_count lt = total locals /\ vec_size (param_types ft) + total locals < 2 ^ 32.
Proof.
  intros Hps Hp Hc Hv H. unfold LocalTypes.make in H. rewrite wrap_small in H by (unfold in_u, vec_size in *; lia). step_in H bs Hbs. apply ret_ok in H as [-> ->].
  destruct (boundaries_ok _ _ _ _ _ Hc Hbs) as (-> & Hlast & Hmax & _). split; [reflexivity|]. split; [|split].
  - intros i t sp sp' Hi. unfold LocalTypes.index in Hi. cbn [LocalTypes.lt_boundaries LocalTypes.lt_locals LocalTypes.lt_ft] in Hi. step_in Hi x Hx.
    rewrite Hlast in Hx. apply Z.ltb_lt in Hx. destruct (upper_bound_zero _ _ _ _ _ i Hc Hbs) as [Hz Hnn].
    destruct (Z.eqb_spec (LocalTypes.upper_bound bs i) 0) as [E|E].
    + apply vec_index_inv in Hi as [Hi ->]. apply vec_lookup_Some in Hi as [H0 Hi]. split; [reflexivity|]. split.
      * apply vec_lookup_Some. split; [exact H0|]. rewrite map_app. apply lookup_app_l_Some. change (map rep_type (param_types ft)) with (rep_type <$> param_types ft).
        now rewrite list_lookup_fmap, Hi.
      * exact (Forall_lookup_1 _ _ _ _ Hp Hi).
    + step_in Hi lc Hle. apply ret_ok in Hi as [-> ->].
      assert (Hge : vec_size (param_types ft) <= i) by (destruct (Z.lt_ge_cases i (vec_size (param_types ft))); [tauto|lia]).
      destruct (upper_bound_entry _ _ _ _ _ i Hc Hbs ltac:(lia)) as (le' & E1 & E2). rewrite Hle in E1. injection E1 as <-.
      split; [reflexivity|]. split.
      * apply vec_lookup_Some in E2 as [G2 E2]. apply vec_lookup_Some. split; [unfold vec_size in *; lia|]. rewrite map_app, lookup_app_r.
        -- change (map rep_type (expand locals)) with (rep_type <$> expand locals). rewrite list_lookup_fmap, length_map.
           replace (Z.to_nat i - length (param_types ft))%nat with (Z.to_nat (i - vec_size (param_types ft))) by (unfold vec_size; lia). now rewrite E2.
        -- rewrite length_map. unfold vec_size in *. lia.
      * apply vec_lookup_Some in Hle as [_ Hle]. exact (Forall_lookup_1 _ _ _ _ Hv Hle).
  - unfold LocalTypes.locals_count. cbn [LocalTypes.lt_boundaries LocalTypes.lt_ft]. rewrite Hlast. lia.
  - destruct locals; [unfold total, vec_size in *; cbn; lia|]. specialize (Hmax ltac:(discriminate)). lia.
Qed.
Lemma sum_locals_total locals : forall n, counts_ok locals -> 0 <= n -> n + total locals < 2 ^ 32 ->
  fold_left (fun n le => wrap 32 (n + le_count le)) locals n = n + total locals.
Proof.
  induction locals as [|le locals IH]; intros n Hc Hn Hlt; cbn [fold_left].
  - unfold total, vec_size. cbn. lia.
  - inversion Hc as [|? ? H0 Hc']. subst. rewrite total_cons in * by assumption. pose proof (total_nonneg locals).
    rewrite wrap_small by (unfold in_u; lia). rewrite IH by (auto; lia). lia.
Qed.
End Locals.

(** ** The code of a function *)
Definition start_state (bytes : list Z) (ft : func_type) (w : bitcode_writer) : pstate :=
  {| code := GuardedPtr.make bytes (vec_size bytes); op_stack := Tracker.make; pc_stack := [func_scope ft];
     gas_state := reset; code_writer := w; has_exception_handling := false |}.

(** Code [C] of a function whose first instruction is [B] behind the code of the
    first function, typed by [G] with at most [M] operands. *)
Record fn_typed (m : module) (L Rs : list Z) (B M : Z) (C : list opcode) (G : typing) : Prop := {
  ft_size : length G = length C;
  ft_entry : type_at G 0 = Some {| pt_locals := L; pt_results := Rs; pt_stack := [] |};
  ft_pts : forall o pt, type_at G o = Some pt -> pt_locals pt = L /\ pt_results pt = Rs /\ vec_size (pt_stack pt) <= M;
  ft_ops : forall o pt, type_at G o = Some pt -> exists op nx bs, vec_lookup C o = Some op /\ needs m pt op = Some (nx, bs) /\
    length (targets op) = length bs /\ (forall p, nx = Some p -> type_at G (o + 1) = Some p) /\ (forall c, op = gas_charge_ c -> 0 < c) /\
    forall j p pc, bs !! j = Some p -> targets op !! j = Some pc ->
      exists t, pc = B + t /\ type_at G t = Some p /\ (o < t \/ exists c, vec_lookup C t = Some (gas_charge_ c)) }.

Record sig_ok (t : func_type) : Prop := {
  sg_types : typed_sig t;
  sg_count : return_count t = vec_size (return_types t);
  sg_single : return_count t = 1 -> return_types t = [return_type t];
  sg_results : vec_size (return_types t) < 2 ^ 16;
  sg_params : vec_size (param_types t) < 2 ^ 32 }.

Section Function.
Context (m : module) (type_aliases : list Z) (datacount : option Z) (_options : Options).
Context (Hm : module_ok m type_aliases).

Lemma func_scope_types ft : sig_ok ft -> end_types (func_scope ft) = return_types ft /\ label_types (func_scope ft) = return_types ft.
Proof.
  intros [[_ Hr] Hc Hs _ _].
  assert (H : types_of (if return_count ft =? 0 then types.pseudo else return_type ft) (if 1 <? return_count ft then return_types ft else []) = return_types ft);
    [|split; exact H].
  rewrite Hc in *. destruct (return_types ft) as [|t [|t2 ts]] eqn:E.
  - reflexivity.
  - specialize (Hs eq_refl). injection Hs as ->. inversion Hr as [|? ? Hv _]. destruct (valtype_cases _ Hv) as (_ & _ & _ & Hn & _).
    apply Z.eqb_neq in Hn. unfold types_of. change (1 <? vec_size [return_type ft]) with false. change (vec_size [return_type ft] =? 0) with false. cbv iota.
    now rewrite Hn.
  - assert (Hlt : (1 <? vec_size (t :: t2 :: ts)) = true) by (apply Z.ltb_lt; unfold vec_size; cbn [length]; lia). now rewrite Hlt.
Qed.

Section Body.
Context (ft : func_type) (lt : LocalTypes.local_types_t) (L : list Z).
Context (Hft : sig_ok ft) (Hlocals : locals_typed lt L).
Abbreviation Rs := (map rep_type (return_types ft)).
Abbreviation RT := (return_types ft).

Lemma start_post bytes w : vec_size bytes < 2 ^ 63 -> Forall (in_u 8) bytes -> op_index w = 0 -> vec_size (fb w) = vec_size bytes ->
  0 <= _base_offset w -> _base_offset w + vec_size (fb w) < 2 ^ 32 -> Post m L Rs (_base_offset w) RT (start_state bytes ft w).
Proof.
  intros Hsz Hb Hi Hfb HB Hfit. destruct (func_scope_types ft Hft) as [He Hl]. destruct Hft as [[Hp Hr] _ _ _ _].
  assert (Hnn : 0 <= vec_size bytes) by (unfold vec_size; lia).
  exists [[]; []], [Some (point_of L Rs [])]. split; [|split; [unfold ahead; cbn; lia|discriminate]].
  split; cbn [code op_stack pc_stack gas_state code_writer start_state]; auto.
  - rewrite Hi. split.
    + reflexivity.
    + rewrite Hfb. lia.
    + reflexivity.
    + reflexivity.
    + intros o pt Ho. lia.
    + cbn [ctl]. split; [|exact I]. split.
      * reflexivity.
      * now rewrite Hl.
      * now rewrite He.
      * constructor.
      * reflexivity.
      * cbn. split; [reflexivity|]. split; [now rewrite <- He in Hl|]. split; [discriminate|constructor].
    + intros o pt Ho. apply type_at_lookup, vec_lookup_Some in Ho as [_ Ho]. apply list_lookup_singleton_Some in Ho as [_ Ho]. injection Ho as <-. auto.
  - apply make_tracks.
  - split; [|exact Hb]. unfold wf, GuardedPtr.make. cbn. unfold vec_size in *. lia.
  - intros o pt Ho. apply type_at_lookup, vec_lookup_Some in Ho as [_ Ho]. apply list_lookup_singleton_Some in Ho as [_ Ho]. injection Ho as <-. unfold vec_size. cbn. lia.
  - exists (func_scope ft). split; [reflexivity|]. split; [|reflexivity]. split; [exact He|reflexivity].
Qed.

(** The instructions of the body are within the theorem. *)
Definition body_supported (bytes : list Z) (w : bitcode_writer) : bool :=
  run_supported m type_aliases datacount _options ft lt (S (Z.to_nat (vec_size bytes))) (start_state bytes ft w).

Lemma body_typed bytes w depth w' : vec_size bytes < 2 ^ 63 -> Forall (in_u 8) bytes -> op_index w = 0 -> vec_size (fb w) = vec_size bytes ->
  0 <= _base_offset w -> _base_offset w + vec_size (fb w) < 2 ^ 32 -> body_supported bytes w = true ->
  parse_function_body_code m type_aliases datacount _options bytes ft lt w = Ok depth w' ->
  exists G M, comp m L Rs (_base_offset w) (-1) (op_index w') [] [rev RT] G (fb w') /\ op_index w' + 1 <= vec_size (fb w') /\ kept w w' /\
    depth = M + LocalTypes.locals_count lt /\ forall o pt, type_at G o = Some pt -> vec_size (pt_stack pt) <= M.
Proof.
  intros Hsz Hb Hi Hfb HB Hfit Hsup H. unfold parse_function_body_code in H. fold (start_state bytes ft w) in H.
  destruct (parse_body m type_aliases datacount _options ft lt (start_state bytes ft w)) as [r s|e s|] eqn:E; try discriminate. injection H as <- <-.
  unfold parse_body in E. step_in E x Hx. step_in E y Hy. change (bounds (code (start_state bytes ft w))) with (vec_size bytes) in Hy.
  pose proof (start_post bytes w Hsz Hb Hi Hfb HB Hfit) as Hpost.
  assert (Hgood : good (code (start_state bytes ft w))) by (destruct Hpost as (segs & G & HI & _); apply HI).
  destruct (body_loop_post m type_aliases datacount _options ft lt L Rs _ RT Hm Hlocals _ _ _ _ Hpost Hsup Hy) as [(segs & G & HI & Ha & Hend) Hge].
  pose proof (loop_kept _ _ _ _ _ _ _ _ _ _ Hgood Hy) as Hk. unfold finish_body in E. step_in E z Hz. step_in E q Hq.
  apply bool_decide_eq_true in Hq. destruct (Hend Hq) as [Hraw Ha1]. step_in E v Hv. apply ret_ok in E as [-> ->].
  destruct HI as [I1 I2 I3 I4 I5 I6 I7 I8 I9]. rewrite Hq in I1, I9. cbn in I9. subst segs.
  assert (Hv' : fb w0 = fb (code_writer st) /\ op_index w0 = op_index (code_writer st) /\ kept (code_writer st) w0).
  { split; [|split; [|exact (patch_keeps _ _ _ _ _ Hv)]]; unfold patch_gas_imm_add_extra in Hv;
      (destruct (prepay_extra (gas_state st) =? 0); [apply ret_ok in Hv as [_ ->]|apply modify_ok in Hv; subst w0]; reflexivity). }
  destruct Hv' as (Ef & Eo & Hk2). exists G, (maximum_operand_depth (op_stack st)). change (code_writer (st <| code_writer := w0 |>)) with w0. rewrite Ef, Eo.
  split; [exact I1|]. split; [unfold ahead in Ha1; rewrite I7; lia|]. split; [transitivity (code_writer st); assumption|]. split; [reflexivity|exact I8].
Qed.

(** The return closes the code. *)
Lemma vec_lookup_take {A} (l : list A) n o : o < n -> vec_lookup (take (Z.to_nat n) l) o = vec_lookup l o.
Proof.
  intros Ho. unfold vec_lookup. destruct (Z.ltb_spec o 0); [reflexivity|]. rewrite lookup_take_lt by lia. reflexivity.
Qed.
Lemma return_typed B n G fb M slots cnt usage : comp m L Rs B (-1) n [] [rev RT] G fb -> n + 1 <= vec_size fb ->
  (forall o pt, type_at G o = Some pt -> vec_size (pt_stack pt) <= M) -> slots = vec_size L -> wrap 16 cnt = vec_size RT ->
  fn_typed m L Rs B M (vec_update (take (Z.to_nat (n + 1)) fb) n (return_ slots cnt usage)) G.
Proof.
  intros [H1 H2 H3 H4 H5 H6 H7] Hn HM Hs Hcnt. set (C := vec_update _ n _).
  assert (Hlen : length (take (Z.to_nat (n + 1)) fb) = Z.to_nat (n + 1)) by (rewrite length_take; unfold vec_size in *; lia).
  assert (HC : forall o, 0 <= o < n -> vec_lookup C o = vec_lookup fb o).
  { intros o Ho. unfold C. rewrite vec_lookup_update by (unfold vec_size; lia). destruct (decide (o = n)); [lia|]. apply vec_lookup_take. lia. }
  split.
  - unfold C. rewrite vec_update_length, Hlen. unfold vec_size in H1. lia.
  - exact H4.
  - intros o pt Ho. destruct (H7 o pt Ho). eauto.
  - intros o pt Ho. pose proof (type_at_range _ _ _ Ho) as Hr. destruct (decide (o = n)) as [->|Hne].
    + apply type_at_lookup in Ho. rewrite H3 in Ho. unfold cur in Ho. destruct (live [rev RT]); [|discriminate]. injection Ho as <-.
      exists (return_ slots cnt usage), None, []. split; [unfold C; rewrite vec_lookup_update by (unfold vec_size; lia); now destruct (decide (n = n))|].
      split; [|split; [reflexivity|split; [discriminate|split; discriminate]]]. cbn [needs]. unfold point_of. cbn [pt_results pt_stack pt_locals].
      replace (map rep_type (concat [rev RT])) with (rev Rs ++ []) by (cbn [concat]; now rewrite !app_nil_r, map_rev). rewrite strip_app.
      rewrite Hs, Hcnt. assert (E1 : (vec_size L =? vec_size L + vec_size ([] : list Z)) = true) by (apply Z.eqb_eq; unfold vec_size; cbn; lia).
      assert (E2 : (vec_size RT =? vec_size Rs) = true) by (apply Z.eqb_eq; unfold vec_size; now rewrite length_map). now rewrite E1, E2.
    + destruct (H5 o pt ltac:(lia) ltac:(lia) Ho) as (op & Hop & nx & bs & Hnd & Hl & Hnx & Hsl & Hg). exists op, nx, bs. rewrite HC by lia.
      split; [exact Hop|]. split; [exact Hnd|]. split; [exact Hl|]. split; [exact Hnx|]. split; [exact Hg|]. intros j p pc Hj Hpc.
      destruct (so_fixed _ _ _ _ _ _ _ _ _ _ _ (Hsl j p pc Hj Hpc) ltac:(constructor)) as (t & -> & Ht & Hor). exists t. split; [reflexivity|]. split; [exact Ht|].
      destruct Hor as [?|[Htn (c & Hc & _)]]; [now left|]. right. exists c. now rewrite HC.
Qed.
End Body.

(** ** [write_code_out] *)
Context (junk : opcode) (capacity : Z).
Definition mem (w : bitcode_writer) : list opcode := seg w ++ fb w.

Lemma assert_Ok {S} b k msg (s s' : S) u : psizam_assert b k msg s = Ok u s' -> b = true /\ s' = s.
Proof. unfold psizam_assert, ret, throw. destruct b; intros [= ? ?]; auto. Qed.
Lemma emit_prologue_ok size extra w u w' : 0 <= size -> emit_prologue junk capacity size extra w = Ok u w' ->
  seg w' = mem w /\ vec_size (fb w') = size /\ op_index w' = 0 /\ _base_offset w' = _base_offset w /\ stack_usage w' = stack_usage w /\
  vec_size (mem w) + size <= capacity.
Proof.
  intros Hs H. unfold emit_prologue in H. step_in H x Hx. apply bind_ok in H as (y & w1 & Hy & H). apply modify_ok in H. subst w'.
  unfold alloc in Hy. step_in Hy z Hz. step_in Hy q Hq. apply modify_ok in Hy. subst w1. apply assert_Ok in Hq as [Hle ->].
  apply Z.leb_le in Hle. cbn in Hle |- *.
  unfold mem, vec_size in *. rewrite repeat_length, length_app. repeat split; lia.
Qed.
(** Room for the return: no move. *)
Lemma emit_epilogue_ok ft locals w u w' : 0 <= op_index w -> op_index w + 1 <= vec_size (fb w) -> emit_epilogue junk capacity ft locals w = Ok u w' ->
  w' = w <| fb := vec_update (take (Z.to_nat (op_index w + 1)) (fb w)) (op_index w)
                   (return_ (wrap 32 (sum_locals locals + vec_size (param_types ft))) (return_count ft) (stack_usage w)) |>.
Proof.
  intros H0 Hr H. unfold emit_epilogue in H. step_in H x Hx. step_in H y Hy. unfold resize in Hy. step_in Hy z Hz.
  destruct (Z.ltb_spec (vec_size (fb w)) (op_index w + 1)); [lia|]. apply modify_ok in Hy. subst st. step_in H q Hq. apply put_ok in H as [_ ->].
  cbn. replace (vec_size (take (Z.to_nat (op_index w + 1)) (fb w)) - 1) with (op_index w) by (unfold vec_size in *; rewrite length_take; lia). reflexivity.
Qed.
Lemma finalize_ok body w f w' : vec_size (fb w) = op_index w + 1 -> finalize junk capacity body w = Ok f w' ->
  fb w' = fb w /\ seg w' = seg w /\ _base_offset w' = _base_offset w + vec_size (fb w) /\ stack_usage w' = stack_usage w /\
  fb_code f = vec_size (seg w) /\ fb_locals f = fb_locals body /\ fb_stack_size f = stack_usage w.
Proof.
  intros Hs H. unfold finalize in H. step_in H x Hx. step_in H y Hy. step_in H z Hz. unfold resize in Hz. step_in Hz q Hq. cbn in Hz.
  destruct (Z.ltb_spec (vec_size (fb w)) (op_index w + 1)); [lia|]. apply modify_ok in Hz. subst st. step_in H v Hv. step_in H r Hr.
  apply ret_ok in H as [-> ->]. cbn. rewrite take_ge by (unfold vec_size in *; lia). rewrite Hs. auto 10.
Qed.
End Function.
