(* ===== verification/CompileSound.v ===== *)
(** * Validated modules

    What [write_code_out] makes of a module it accepts passes the verifier of
    [Verifier] and the ranking of [Termination]: validation and code generation
    together are sound for the interpreter. *)
From Stdlib Require Import ZArith Lia Bool String.
From stdpp Require Import base list numbers decidable option.
From S2P Require Import Prelude Leb128 Types InitExpr ConstExpr ParseInit Stack Memory Numeric Softfloat Context Operands Interp Demo Invariants.
From S2P Require Import TypedOps TypedVec Typing Control Verifier Termination Writer Validator ParseVec ParseBody TrackerSpec Emission BodySound ScopeSound BranchSound LoopSound ParserFrame FunctionSound.
Import GuardedPtr Leb Opcode GasInjector BitcodeWriter Tracker.

(** ** Functions in a row *)
Section Code.
Context (junk : opcode) (capacity : Z) (m : module) (type_aliases : list Z) (datacount : option Z) (_options : Options).
Abbreviation write_function := (write_function junk capacity m type_aliases datacount _options).
Abbreviation write_functions := (write_functions junk capacity m type_aliases datacount _options).

(** The instructions of the functions are within the theorem. *)
Definition function_supported (i : Z) (b : pending_body) (w : bitcode_writer) : bool :=
  match (let* t := vec_at (m_functions m) i in
         let* ft := vec_at (m_types m) t in
         let* lt := LocalTypes.make ft (fb_locals (pb_fb b)) in
         emit_prologue junk capacity (vec_size (pb_bytes b)) (fb_prologue_gas_extra (pb_fb b)) ;;; ret (ft, lt)) w with
  | Ok (ft, lt) w1 => body_supported m type_aliases datacount _options ft lt (pb_bytes b) w1
  | _ => true
  end.
Fixpoint functions_supported (i : Z) (bodies : list pending_body) (w : bitcode_writer) : bool :=
  match bodies with
  | [] => true
  | b :: bs => function_supported i b w && match write_function i b w with Ok _ w' => functions_supported (i + 1) bs w' | _ => true end
  end.

(** Bytes, and locals as the section parser leaves them. *)
Record body_ok (b : pending_body) : Prop := {
  bo_bytes : Forall (in_u 8) (pb_bytes b);
  bo_counts : counts_ok (fb_locals (pb_fb b));
  bo_types : Forall (fun le => valtype (le_type le)) (fb_locals (pb_fb b));
  bo_zero : is_Some (zero_locals (fb_locals (pb_fb b))) }.

Context (Hm : module_ok m type_aliases) (Hsigs : Forall sig_ok (m_types m)) (Hcap : capacity < 2 ^ 32).

Definition fn_locals (ft : func_type) (b : pending_body) : list Z := map rep_type (param_types ft ++ expand (fb_locals (pb_fb b))).
Lemma vec_at_inv {S A} (l : list A) i (s : S) a s' : vec_at l i s = Ok a s' -> vec_lookup l i = Some a /\ s' = s.
Proof. unfold vec_at. destruct (vec_lookup l i); intros [= <- <-]. auto. Qed.

Lemma write_function_typed i b w f depth w' : body_ok b -> 0 <= _base_offset w <= vec_size (mem w) -> function_supported i b w = true ->
  write_function i b w = Ok (f, depth) w' ->
  exists t ft C G M, vec_lookup (m_functions m) i = Some t /\ vec_lookup (m_types m) t = Some ft /\
    fn_typed m (fn_locals ft b) (map rep_type (return_types ft)) (_base_offset w) M C G /\
    mem w' = mem w ++ C /\ _base_offset w' = _base_offset w + vec_size C /\ stack_usage w' = stack_usage w /\
    fb_code f = vec_size (mem w) /\ fb_locals f = fb_locals (pb_fb b) /\ fb_stack_size f = stack_usage w /\
    depth = M + total (fb_locals (pb_fb b)).
Proof.
  intros [Bb Bc Bt _] HB Hsup H. unfold ParseBody.write_function in H. step_in H t Ht. apply vec_at_inv in Ht as [Ht ->].
  step_in H ft Hft. apply vec_at_inv in Hft as [Hft ->]. step_in H lc Hlt. pose proof Hft as Hsig. apply vec_lookup_Some in Hsig as [_ Hsig].
  apply (Forall_lookup_1 _ _ _ _ Hsigs) in Hsig. pose proof Hsig as [[Sp Sr] Sc Ss Sn Spn].
  destruct (local_types_typed ft _ w lc st Spn Sp Bc Bt Hlt) as (-> & Hloc & Hlc & Hltot). fold (fn_locals ft b) in Hloc.
  step_in H x Hx. unfold function_supported, bind, vec_at in Hsup. rewrite Ht in Hsup. cbv beta iota delta [ret] in Hsup.
  rewrite Hft in Hsup. cbv beta iota delta [ret] in Hsup. rewrite Hlt in Hsup. rewrite Hx in Hsup. cbn in Hsup.
  apply emit_prologue_ok in Hx as (Eseg & Efb & Eix & Eb & Eu & Hroom); [|unfold vec_size; lia].
  assert (Hnn : 0 <= vec_size (pb_bytes b)) by (unfold vec_size; lia).
  step_in H d Hd.
  destruct (body_typed m type_aliases datacount _options Hm ft lc (fn_locals ft b) Hsig Hloc (pb_bytes b) st d st0) as (G & M & Hc & Hr & [K1 K2 K3 K4] & -> & HM); auto; try lia.
  rewrite Eb in Hc. step_in H y Hy. apply emit_epilogue_ok in Hy; [|exact (proj1 (cp_room _ _ _ _ _ _ _ _ _ _ Hc))|exact Hr]. subst st1.
  step_in H f0 Hf. apply ret_ok in H as [E ->]. injection E as -> ->.
  assert (Hsum : wrap 32 (sum_locals (fb_locals (pb_fb b)) + vec_size (param_types ft)) = vec_size (fn_locals ft b)).
  { unfold sum_locals. rewrite sum_locals_total by (auto; unfold vec_size in *; lia). unfold fn_locals, vec_size, total in *. rewrite length_map, length_app.
    unfold vec_size in *. rewrite wrap_small; [lia|]. unfold in_u. lia. }
  set (C := vec_update (take (Z.to_nat (op_index st0 + 1)) (fb st0)) (op_index st0)
              (return_ (wrap 32 (sum_locals (fb_locals (pb_fb b)) + vec_size (param_types ft))) (return_count ft) (stack_usage st0))) in *.
  assert (HC : vec_size C = op_index st0 + 1).
  { unfold C. rewrite vec_update_size. unfold vec_size in *. rewrite length_take. pose proof (cp_room _ _ _ _ _ _ _ _ _ _ Hc). lia. }
  apply finalize_ok in Hf; [|exact HC]. cbn in Hf. destruct Hf as (F1 & F2 & F3 & F4 & F5 & F6 & F7).
  exists t, ft, C, G, M. split; [exact Ht|]. split; [exact Hft|]. split.
  { apply return_typed; auto. rewrite Sc. apply wrap_small. unfold in_u, vec_size in *. lia. }
  unfold mem at 1. rewrite F1, F2, F3, F4, F5, F6, F7, K1, K2, K3, Eseg, Eb, Eu, Hlc. auto 10.
Qed.

(** Stretches of code one behind the other. *)
Definition before {A} (j : nat) (ls : list (list A)) : Z := vec_size (concat (take j ls)).
Lemma before_S {A} j (l : list A) ls : before (S j) (l :: ls) = vec_size l + before j ls.
Proof. unfold before, vec_size. cbn [take concat]. rewrite length_app. lia. Qed.
Lemma before_nonneg {A} j (ls : list (list A)) : 0 <= before j ls. Proof. unfold before, vec_size. lia. Qed.
Lemma concat_at {A} : forall (ls : list (list A)) j l o a, ls !! j = Some l -> vec_lookup l o = Some a -> vec_lookup (concat ls) (before j ls + o) = Some a.
Proof.
  induction ls as [|l0 ls IH]; intros [|j] l o a Hj Ho; try discriminate.
  - injection Hj as ->. unfold before, vec_size. cbn [take concat length]. apply vec_lookup_Some in Ho as [H0 Ho]. apply vec_lookup_Some. split; [lia|]. cbn. now apply lookup_app_l_Some.
  - specialize (IH j l o a Hj Ho). apply vec_lookup_Some in IH as [H0 IH]. rewrite before_S. apply vec_lookup_Some. unfold vec_size in *. split; [lia|].
    cbn [concat]. rewrite lookup_app_r by lia. replace (Z.to_nat (Z.of_nat (length l0) + before j ls + o) - length l0)%nat with (Z.to_nat (before j ls + o)) by lia.
    exact IH.
Qed.
Lemma concat_find {A} : forall (ls : list (list A)) i a, vec_lookup (concat ls) i = Some a ->
  exists j l o, ls !! j = Some l /\ vec_lookup l o = Some a /\ i = before j ls + o.
Proof.
  induction ls as [|l0 ls IH]; intros i a Hi; apply vec_lookup_Some in Hi as [H0 Hi]; [discriminate|]. cbn [concat] in Hi.
  apply lookup_app_Some in Hi as [Hi|[Hge Hi]].
  - exists 0%nat, l0, i. split; [reflexivity|]. split; [now apply vec_lookup_Some|]. unfold before, vec_size. cbn. lia.
  - destruct (IH (i - vec_size l0) a) as (j & l & o & Hj & Ho & E).
    { apply vec_lookup_Some. unfold vec_size. split; [lia|]. now replace (Z.to_nat (i - Z.of_nat (length l0))) with (Z.to_nat i - length l0)%nat by lia. }
    exists (S j), l, o. split; [exact Hj|]. split; [exact Ho|]. rewrite before_S. lia.
Qed.
Lemma before_same {A B} (ls : list (list A)) (ks : list (list B)) : Forall2 (fun l k => length l = length k) ls ks -> forall j, before j ls = before j ks.
Proof.
  induction 1 as [|l k ls ks Hl _ IH]; intros [|j]; try reflexivity. rewrite !before_S, IH. unfold vec_size. lia.
Qed.

(** What is known of the function [f] that body [b], number [j], has become. *)
Definition placed (i : Z) (j : nat) (A0 B0 U ms : Z) (b : pending_body) (f : function_body) (C : list opcode) (G : typing) (off : Z) : Prop :=
  exists t ft M, vec_lookup (m_functions m) (i + Z.of_nat j) = Some t /\ vec_lookup (m_types m) t = Some ft /\
    fn_typed m (fn_locals ft b) (map rep_type (return_types ft)) (B0 + off) M C G /\
    fb_code f = A0 + off /\ fb_locals f = fb_locals (pb_fb b) /\ fb_stack_size f = U /\ M + total (fb_locals (pb_fb b)) <= ms.

Lemma write_functions_typed : forall bodies i ms w fbs ms' w', Forall body_ok bodies -> 0 <= _base_offset w <= vec_size (mem w) ->
  functions_supported i bodies w = true -> write_functions i bodies ms w = Ok (fbs, ms') w' ->
  exists Cs Gs, mem w' = mem w ++ concat Cs /\ ms <= ms' /\ length fbs = length bodies /\ Forall2 (fun (G : typing) (C : list opcode) => length G = length C) Gs Cs /\
    length Cs = length bodies /\
    forall j b f C G, bodies !! j = Some b -> fbs !! j = Some f -> Cs !! j = Some C -> Gs !! j = Some G ->
      placed i j (vec_size (mem w)) (_base_offset w) (stack_usage w) ms' b f C G (before j Cs).
Proof.
  induction bodies as [|b bodies IH]; intros i ms w fbs ms' w' Hok HB Hsup H; cbn [ParseBody.write_functions] in H.
  - apply ret_ok in H as [E ->]. injection E as -> ->. exists [], []. cbn. rewrite app_nil_r. repeat split; auto; try lia. discriminate.
  - inversion Hok as [|? ? Hb Hok']. subst. cbn [functions_supported] in Hsup. apply andb_true_iff in Hsup as [Hs1 Hs2].
    step_in H r Hr. destruct r as [f depth]. step_in H rest Hrest. destruct rest as [fbs0 ms0]. apply ret_ok in H as [E ->]. cbn [fst snd] in *. injection E as -> ->.
    rewrite Hr in Hs2. destruct (write_function_typed i b w f depth st Hb HB Hs1 Hr) as (t & ft & C & G & M & Ht & Hft & Hty & Em & Eb & Eu & Ef & El & Es & Ed).
    assert (HB1 : 0 <= _base_offset st <= vec_size (mem st)) by (rewrite Em, Eb; unfold vec_size in *; rewrite length_app; lia).
    destruct (IH (i + 1) (Z.max ms depth) st fbs0 ms0 _ Hok' HB1 Hs2 Hrest) as (Cs & Gs & Em2 & Hms & Hlen & Hf2 & Hlc & Hp).
    exists (C :: Cs), (G :: Gs). split; [cbn [concat]; now rewrite Em2, Em, app_assoc|]. split; [lia|]. split; [cbn; lia|].
    split; [constructor; [exact (ft_size _ _ _ _ _ _ _ Hty)|exact Hf2]|]. split; [cbn; lia|].
    intros [|j] b0 f0 C0 G0 H1 H2 H3 H4.
    + injection H1 as <-. injection H2 as <-. injection H3 as <-. injection H4 as <-. exists t, ft, M. unfold before, vec_size at 2. cbn. rewrite !Z.add_0_r.
      repeat (split; [assumption|]). lia.
    + destruct (Hp j b0 f0 C0 G0 H1 H2 H3 H4) as (t0 & ft0 & M0 & P1 & P2 & P3 & P4 & P5 & P6 & P7). exists t0, ft0, M0. rewrite before_S.
      split; [rewrite <- P1; f_equal; lia|]. split; [exact P2|]. split; [replace (_base_offset w + (vec_size C + before j Cs)) with (_base_offset st + before j Cs) by lia; exact P3|].
      split; [rewrite P4, Em; unfold vec_size; rewrite length_app; lia|]. split; [exact P5|]. split; [congruence|exact P7].
Qed.
End Code.

(** ** The module *)
Section Module.
Context (junk : opcode) (capacity : Z) (m : module) (type_aliases : list Z) (datacount : option Z) (_options : Options).

(** Executable versions of the assumptions. *)
Definition sig_wf (t : func_type) : bool :=
  forallb is_valtype (param_types t) && forallb is_valtype (return_types t) && check_type t &&
  (negb (return_count t =? 1) || bool_decide (return_types t = [return_type t])) &&
  (vec_size (return_types t) <? 2 ^ 16) && (vec_size (param_types t) <? 2 ^ 32).
Definition alias_wf (p : nat * Z) : bool :=
  match m_types m !! p.1, vec_lookup (m_types m) p.2 with
  | Some t, Some t' => bool_decide (param_types t' = param_types t) && bool_decide (return_types t' = return_types t)
  | None, _ => true
  | _, _ => false
  end.
Definition module_wf : bool :=
  forallb sig_wf (m_types m) && forallb (fun g => is_valtype (content_type (gv_type g))) (m_globals m) &&
  (mem_addr_type m =? types.i32) && (vec_size (m_types m) <=? 2 ^ 16) && (vec_size (m_tables m) <=? 2 ^ 16) &&
  forallb alias_wf (zip (seq 0 (length type_aliases)) type_aliases) && forallb (check_import m) (m_imports m).
Definition body_wf (b : pending_body) : bool :=
  forallb (fun x => (0 <=? x) && (x <? 2 ^ 8)) (pb_bytes b) &&
  forallb (fun le => (0 <=? le_count le) && is_valtype (le_type le)) (fb_locals (pb_fb b)) &&
  match zero_locals (fb_locals (pb_fb b)) with Some _ => true | None => false end.

Lemma forallb_Forall {A} (P : A -> bool) l : forallb P l = true <-> Forall (fun a => P a = true) l.
Proof. rewrite forallb_forall, List.Forall_forall. reflexivity. Qed.
Lemma sig_wf_ok t : sig_wf t = true -> sig_ok t /\ check_type t = true.
Proof.
  unfold sig_wf. rewrite !andb_true_iff, !forallb_Forall, !Z.ltb_lt. intros [[[[[H1 H2] H3] H4] H5] H6]. split; [|exact H3].
  unfold check_type in H3. rewrite andb_true_iff, !Z.eqb_eq in H3. split; try tauto; [split; auto|]. intros E. rewrite E in H4. cbn in H4. now apply bool_decide_eq_true in H4.
Qed.
Lemma module_wf_ok : module_wf = true -> module_ok m type_aliases /\ Forall sig_ok (m_types m) /\ forallb check_type (m_types m) = true /\
  forallb (check_import m) (m_imports m) = true.
Proof.
  unfold module_wf. rewrite !andb_true_iff, Z.eqb_eq, !Z.leb_le. intros [[[[[[H1 H2] H3] H4] H5] H6] H7].
  apply forallb_Forall in H1, H2. assert (Hs : Forall sig_ok (m_types m)) by (eapply List.Forall_impl; [|exact H1]; intros t Ht; apply (sig_wf_ok t Ht)).
  split; [|split; [exact Hs|split; [|exact H7]]].
  - split; auto.
    + eapply List.Forall_impl; [|exact Hs]. intros t Ht. apply Ht.
    + eapply List.Forall_impl; [|exact Hs]. intros t Ht. apply Ht.
    + intros i a t Hi Ht. apply vec_lookup_Some in Hi as [H0 Hi], Ht as [_ Ht]. rewrite forallb_forall in H6.
      specialize (H6 (Z.to_nat i, a)). unfold alias_wf in H6. cbn [fst snd] in H6. rewrite Ht in H6.
      assert (Hin : In (Z.to_nat i, a) (zip (seq 0 (length type_aliases)) type_aliases)).
      { apply list_elem_of_In, list_elem_of_lookup_2 with (i := Z.to_nat i). rewrite lookup_zip_with, lookup_seq_lt, Hi by (now apply lookup_lt_Some in Hi). reflexivity. }
      specialize (H6 Hin). destruct (vec_lookup (m_types m) a) as [t'|]; [|discriminate]. exists t'. split; [reflexivity|].
      apply andb_true_iff in H6 as [E1 E2]. apply bool_decide_eq_true in E1, E2. auto.
  - apply forallb_Forall. eapply List.Forall_impl; [|exact H1]. intros t Ht. apply (sig_wf_ok t Ht).
Qed.
Lemma body_wf_ok b : body_wf b = true -> body_ok b.
Proof.
  unfold body_wf. rewrite !andb_true_iff, !forallb_Forall. intros [[H1 H2] H3]. split.
  - eapply List.Forall_impl; [|exact H1]. intros x Hx. cbn in Hx. rewrite andb_true_iff, Z.leb_le, Z.ltb_lt in Hx. exact Hx.
  - eapply List.Forall_impl; [|exact H2]. intros le Hle. cbn in Hle. rewrite andb_true_iff, Z.leb_le in Hle. apply Hle.
  - eapply List.Forall_impl; [|exact H2]. intros le Hle. cbn in Hle. rewrite andb_true_iff in Hle. apply Hle.
  - destruct (zero_locals _); [eauto|discriminate].
Qed.

(** A ranking for the code: loop headers last, otherwise backwards. *)
Definition is_gas (op : opcode) : bool := match op with gas_charge_ _ => true | _ => false end.
Definition ranks (code : list opcode) : list nat := imap (fun o op => if is_gas op then 1%nat else S (length code - o)) code.
Lemma rank_at code o op : vec_lookup code o = Some op -> rank (ranks code) o = if is_gas op then 1 else vec_size code - o + 1.
Proof.
  intros [H0 Ho]%vec_lookup_Some. unfold rank, ranks. assert (E : vec_lookup (imap (fun o op => if is_gas op then 1%nat else S (length code - o)) code) o =
    Some (if is_gas op then 1%nat else S (length code - Z.to_nat o))) by (apply vec_lookup_Some; split; [exact H0|]; now rewrite list_lookup_imap, Ho).
  rewrite E. apply lookup_lt_Some in Ho. unfold vec_size. destruct (is_gas op); cbn [default]; unfold id; lia.
Qed.

Definition code_supported (source_bytes : Z) (bodies : list pending_body) : bool :=
  functions_supported junk capacity m type_aliases datacount _options 0 bodies (BitcodeWriter.make junk source_bytes).

Section Linked.
Context (w : bitcode_writer) (fbs : list function_body).
Abbreviation m' := (link_code m w fbs).
Lemma link_needs pt op : needs m' pt op = needs m pt op. Proof. destruct op; reflexivity. Qed.
Lemma link_code_base : code_base m' = 0.
Proof. unfold code_base. cbn [m_code link_code]. destruct fbs as [|f l]; [reflexivity|]. cbn. lia. Qed.

(** Typed stretches of code, one for each function. *)
Context (Cs : list (list opcode)) (Gs : list typing) (F : Z).
Context (Hsame : Forall2 (fun (G : typing) (C : list opcode) => length G = length C) Gs Cs).
Context (Hcode : forall o op, vec_lookup (concat Cs) o = Some op -> vec_lookup (bytecode m') o = Some op).
Context (Hfns : forall j C G, Cs !! j = Some C -> Gs !! j = Some G ->
  exists L Rs M, fn_typed m L Rs (before j Cs) M C G /\ vec_size L + M <= F).

Lemma glued_at j G t p : Gs !! j = Some G -> type_at G t = Some p -> type_at (concat Gs) (before j Cs + t) = Some p.
Proof.
  intros HG Ht. apply type_at_lookup in Ht. apply type_at_lookup. rewrite <- (before_same _ _ Hsame j). now apply (concat_at Gs j G).
Qed.
Lemma glued_op o pt : type_at (concat Gs) o = Some pt ->
  exists j G C L Rs M t, Gs !! j = Some G /\ Cs !! j = Some C /\ fn_typed m L Rs (before j Cs) M C G /\ vec_size L + M <= F /\
    o = before j Cs + t /\ type_at G t = Some pt.
Proof.
  intros Ho. apply type_at_lookup in Ho. destruct (concat_find _ _ _ Ho) as (j & G & t & HG & Ht & ->).
  destruct (Forall2_lookup_l _ _ _ _ _ Hsame HG) as (C & HC & _). destruct (Hfns j C G HC HG) as (L & Rs & M & Hty & HF).
  exists j, G, C, L, Rs, M, t. repeat (split; [assumption|]). split; [|now apply type_at_lookup]. now rewrite (before_same _ _ Hsame j).
Qed.
Lemma glued_lookup j C t op : Cs !! j = Some C -> vec_lookup C t = Some op -> vec_lookup (bytecode m') (before j Cs + t) = Some op.
Proof. intros HC Ht. apply Hcode. now apply (concat_at Cs j C). Qed.

Lemma linked_points o op : bytecode m' !! o = Some op -> check_point m' (concat Gs) F o op = true.
Proof.
  intros Hop. unfold check_point. destruct (type_at (concat Gs) (Z.of_nat o)) as [pt|] eqn:Ept; [|reflexivity].
  destruct (glued_op _ _ Ept) as (j & G & C & L & Rs & M & t & HG & HC & Hty & HF & Eo & Ht).
  destruct (ft_ops _ _ _ _ _ _ _ Hty t pt Ht) as (op' & nx & bs & Hop' & Hnd & Hlen & Hnx & _ & Hsl).
  destruct (ft_pts _ _ _ _ _ _ _ Hty t pt Ht) as (EL & _ & HM). pose proof (glued_lookup j C t op' HC Hop') as Hl. rewrite <- Eo in Hl.
  apply vec_lookup_Some in Hl as [_ Hl]. rewrite Nat2Z.id, Hop in Hl. injection Hl as <-. apply andb_true_iff. split; [apply Z.leb_le; rewrite EL; lia|].
  eapply needs_check; [rewrite link_needs; exact Hnd| |].
  - intros p Hp. apply bool_decide_eq_true. rewrite Eo, <- Z.add_assoc. exact (glued_at j G (t + 1) p HG (Hnx p Hp)).
  - apply Forall2_same_length_lookup_2; [exact Hlen|]. intros k pc p Hpc Hp. destruct (Hsl k p pc Hp Hpc) as (t' & -> & Ht' & _).
    apply bool_decide_eq_true. rewrite link_code_base. exact (glued_at j G t' p HG Ht').
Qed.
Lemma linked_ranks o op : bytecode m' !! o = Some op ->
  check_rank m' (concat Gs) (ranks (bytecode m')) (vec_size (bytecode m') + 1) o op = true.
Proof.
  intros Hop. unfold check_rank. destruct (type_at (concat Gs) (Z.of_nat o)) as [pt|] eqn:Ept; [|reflexivity].
  destruct (glued_op _ _ Ept) as (j & G & C & L & Rs & M & t & HG & HC & Hty & HF & Eo & Ht).
  destruct (ft_ops _ _ _ _ _ _ _ Hty t pt Ht) as (op' & nx & bs & Hop' & Hnd & Hlen & Hnx & Hgas & Hsl).
  pose proof (glued_lookup j C t op' HC Hop') as Hl. rewrite <- Eo in Hl. pose proof Hl as Hl'. apply vec_lookup_Some in Hl' as [_ Hl'].
  rewrite Nat2Z.id, Hop in Hl'. injection Hl' as <-. pose proof (vec_lookup_lt _ _ _ Hl) as Hrng.
  pose proof (rank_at _ _ _ Hl) as Hrk. rewrite !andb_true_iff, !Z.leb_le. split; [rewrite Hrk; destruct (is_gas op); lia|].
  assert (Hdown : is_gas op = false -> forall o', o' ∈ succs m' (Z.of_nat o) op -> rank (ranks (bytecode m')) o' < rank (ranks (bytecode m')) (Z.of_nat o)).
  { intros Hng o' Ho'. rewrite Hrk, Hng. assert (Hfwd : forall k p, type_at G k = Some p -> o' = before j Cs + k -> Z.of_nat o < o' ->
      rank (ranks (bytecode m')) o' < vec_size (bytecode m') - Z.of_nat o + 1).
    { intros k p Hk -> Hlt. destruct (ft_ops _ _ _ _ _ _ _ Hty k p Hk) as (opk & _ & _ & Hopk & _).
      rewrite (rank_at _ _ _ (glued_lookup j C k opk HC Hopk)). destruct (is_gas opk); lia. }
    destruct (needs_succs m' (Z.of_nat o) pt op nx bs o') as [[-> (p & ->)]|(pc & Hpc & ->)]; [rewrite link_needs; exact Hnd|exact Ho'| |].
    - apply (Hfwd (t + 1) p); [now apply Hnx|lia|lia].
    - rewrite link_code_base, Z.add_0_l in *. apply list_elem_of_lookup in Hpc as [k Hk].
      destruct (lookup_lt_is_Some_2 bs k) as [p Hp]; [rewrite <- Hlen; now apply lookup_lt_Some in Hk|].
      destruct (Hsl k p pc Hp Hk) as (t' & -> & Ht' & [Hlt|(c & Hc)]); [apply (Hfwd t' p); [exact Ht'|reflexivity|lia]|].
      rewrite (rank_at _ _ _ (glued_lookup j C t' _ HC Hc)). cbn [is_gas]. lia. }
  unfold descends. destruct op; cbn [is_gas] in Hdown; try (apply forallb_forall; intros o' Ho'; apply Z.ltb_lt, Hdown; [reflexivity|now apply list_elem_of_In]).
  apply Z.ltb_lt. now apply Hgas.
Qed.
End Linked.

Lemma forallb_indexed {A} (P : nat * A -> bool) l : (forall o a, l !! o = Some a -> P (o, a) = true) -> forallb P (zip (seq 0 (length l)) l) = true.
Proof.
  intros H. apply forallb_forall. intros [o a] Hin. apply list_elem_of_In, list_elem_of_lookup in Hin as [k Hk]. rewrite lookup_zip_with in Hk.
  destruct (l !! k) as [a'|] eqn:Ea; [|destruct (seq 0 (length l) !! k); discriminate]. rewrite lookup_seq_lt in Hk by (now apply lookup_lt_Some in Ea).
  injection Hk as <- <-. now apply H.
Qed.
Lemma forallb_zip {A B} (P : A * B -> bool) l k : (forall j a b, l !! j = Some a -> k !! j = Some b -> P (a, b) = true) -> forallb P (zip l k) = true.
Proof.
  intros H. apply forallb_forall. intros [a b] Hin. apply list_elem_of_In, list_elem_of_lookup in Hin as [j Hj]. rewrite lookup_zip_with in Hj.
  destruct (l !! j) eqn:El; [|discriminate]. destruct (k !! j) eqn:Ek; [|discriminate]. injection Hj as <- <-. eauto.
Qed.

Lemma write_code_out_verified source_bytes bodies m' ms w P :
  module_wf = true -> forallb body_wf bodies = true -> capacity < 2 ^ 32 -> length bodies = length (m_functions m) ->
  forallb (fun t => vec_size (param_types t) <=? P) (m_types m) = true -> code_supported source_bytes bodies = true ->
  write_code_out junk capacity m type_aliases datacount _options source_bytes bodies = Ok (m', ms) w ->
  exists G, verify m' G (ms + P) = true /\ ranked m' G (ranks (bytecode m')) (vec_size (bytecode m') + 1) = true.
Proof.
  intros Hwf Hbw Hcap Hlen HP Hsup H. destruct (module_wf_ok Hwf) as (Hm & Hsigs & Hck & Him).
  assert (Hb : Forall body_ok bodies).
  { apply forallb_Forall in Hbw. eapply List.Forall_impl; [|exact Hbw]. exact body_wf_ok. }
  unfold write_code_out in H. destruct (write_functions _ _ _ _ _ _ _ _ _ _) as [[fbs ms0] w0|e w0|] eqn:E; try discriminate. injection H as <- <- <-.
  set (w1 := BitcodeWriter.make junk source_bytes) in *.
  destruct (write_functions_typed junk capacity m type_aliases datacount _options Hm Hsigs Hcap bodies 0 0 w1 fbs ms0 w0 Hb
    ltac:(unfold vec_size; cbn; lia) Hsup E) as (Cs & Gs & Em & Hms & Hfl & Hsame & Hcl & Hpl).
  cbn [_base_offset stack_usage w1 BitcodeWriter.make] in Hpl. set (A0 := vec_size (mem w1)) in *. exists (concat Gs).
  assert (Hgl : length Gs = length bodies) by (rewrite <- Hcl; exact (Forall2_length Hsame)).
  assert (Hbase : forall f l, fbs = f :: l -> fb_code f = A0).
  { intros f l ->. destruct bodies as [|b bs]; [discriminate|]. destruct Cs as [|C Cs]; [discriminate|]. destruct Gs as [|G Gs]; [discriminate|].
    destruct (Hpl 0%nat b f C G eq_refl eq_refl eq_refl eq_refl) as (_ & _ & _ & _ & _ & _ & Hc & _). rewrite Hc. unfold before, vec_size. cbn. lia. }
  assert (Hcode : forall o op, vec_lookup (concat Cs) o = Some op -> vec_lookup (bytecode (link_code m w0 fbs)) o = Some op).
  { intros o op Ho. cbn [bytecode link_code]. change (seg w0 ++ fb w0) with (mem w0). rewrite Em. destruct fbs as [|f l].
    - destruct bodies; [|discriminate]. destruct Cs; [|discriminate]. apply vec_lookup_Some in Ho as [_ Ho]. discriminate.
    - rewrite (Hbase f l eq_refl). unfold A0, vec_size. now rewrite Nat2Z.id, drop_app_length. }
  assert (Hfns : forall j C G, Cs !! j = Some C -> Gs !! j = Some G -> exists L Rs M, fn_typed m L Rs (before j Cs) M C G /\ vec_size L + M <= ms0 + P).
  { intros j C G HC HG. destruct (lookup_lt_is_Some_2 bodies j) as [b Hbj]; [rewrite <- Hcl; now apply lookup_lt_Some in HC|].
    destruct (lookup_lt_is_Some_2 fbs j) as [f Hfj]; [rewrite Hfl; now apply lookup_lt_Some in Hbj|].
    destruct (Hpl j b f C G Hbj Hfj HC HG) as (t & ft & M & _ & Hft & Hty & _ & _ & _ & HM). eexists _, _, M. split; [exact Hty|].
    rewrite forallb_forall in HP. apply vec_lookup_Some in Hft as [_ Hft]. apply list_elem_of_lookup_2, list_elem_of_In, HP in Hft. apply Z.leb_le in Hft.
    unfold fn_locals, total, vec_size in *. rewrite length_map, length_app. lia. }
  split.
  - unfold verify. rewrite !andb_true_iff, Nat.leb_le, Nat.eqb_eq. repeat split.
    + destruct (Nat.eq_dec (length (concat Gs)) 0%nat) as [Ez|Hz]; [lia|].
      assert (Hcc : length (concat Gs) = length (concat Cs)) by (clear -Hsame; induction Hsame; cbn; [reflexivity|]; rewrite !length_app; lia).
      destruct (lookup_lt_is_Some_2 (concat Cs) (length (concat Cs) - 1)) as [op Hop]; [lia|].
      assert (Hv : vec_lookup (concat Cs) (Z.of_nat (length (concat Cs) - 1)) = Some op) by (apply vec_lookup_Some; rewrite Nat2Z.id; split; [lia|exact Hop]).
      apply Hcode, vec_lookup_lt in Hv. unfold vec_size in Hv. lia.
    + apply forallb_indexed. intros o op Ho. cbn [fst snd]. exact (linked_points w0 fbs Cs Gs (ms0 + P) Hsame Hcode Hfns o op Ho).
    + cbn. rewrite length_map. lia.
    + apply forallb_zip. intros j t f Ht Hf. cbn [fst snd m_functions m_code link_code] in *. rewrite list_lookup_fmap in Hf.
      destruct (fbs !! j) as [f0|] eqn:Ef; [|discriminate]. injection Hf as <-.
      destruct (lookup_lt_is_Some_2 bodies j) as [b Hbj]; [rewrite <- Hfl; now apply lookup_lt_Some in Ef|].
      destruct (lookup_lt_is_Some_2 Cs j) as [C HC]; [rewrite Hcl; now apply lookup_lt_Some in Hbj|].
      destruct (lookup_lt_is_Some_2 Gs j) as [G HG]; [rewrite Hgl; now apply lookup_lt_Some in Hbj|].
      destruct (Hpl j b f0 C G Hbj Ef HC HG) as (t0 & ft & M & Ht0 & Hft & Hty & Hc & Hl & Hst & _).
      apply vec_lookup_Some in Ht0 as [_ Ht0]. rewrite Z.add_0_l, Nat2Z.id, Ht in Ht0. injection Ht0 as ->.
      pose proof (Forall_lookup_1 _ _ _ _ Hb Hbj) as [_ _ _ [z Hz]]. unfold check_fn. cbn [m_types link_code fb_locals]. rewrite Hft, Hl, Hz.
      apply andb_true_iff. split.
      * apply bool_decide_eq_true. cbn [fb_code]. assert (Hb0 : match fbs with f :: _ => fb_code f | [] => 0 end = A0).
        { destruct fbs as [|f1 l1]; [discriminate|]. now apply (Hbase f1 l1). }
        rewrite Hb0, Hc. replace (A0 + before j Cs - A0) with (before j Cs + 0) by lia.
        rewrite (glued_at Cs Gs Hsame j G 0 _ HG (ft_entry _ _ _ _ _ _ _ Hty)). reflexivity.
      * apply Z.ltb_lt. unfold frame_size. cbn [m_stack_limit_is_bytes link_code fb_stack_size]. rewrite Hst. destruct (m_stack_limit_is_bytes m); lia.
    + exact Him.
    + exact Hck.
  - unfold ranked. apply forallb_indexed. intros o op Ho. cbn [fst snd]. exact (linked_ranks w0 fbs Cs Gs (ms0 + P) Hsame Hcode Hfns o op Ho).
Qed.
End Module.
