(* ===== verification/SectionFrame.v ===== *)
(** * What the parsers of section entries leave alone

    Every parser below the section level reads forwards, within the bounds of its
    section, and leaves the module alone, but for the entry it returns. *)
From Stdlib Require Import ZArith Lia Bool String.
From stdpp Require Import base list numbers decidable option gmap.
From S2P Require Import Prelude Leb128 Types InitExpr ConstExpr ParseInit Utf8 Stack Memory Numeric Softfloat Context Operands Interp Demo Invariants.
From S2P Require Import TypedOps TypedVec Typing Control Verifier Termination Writer Validator ParseVec ParseBody Sections TrackerSpec Emission BodySound ParserFrame.
Import GuardedPtr Leb Opcode BitcodeWriter Utf8.

Create HintDb section_frame.

(** ** Readers *)
Lemma reads_bind {A B} (f : M guarded_ptr A) (k : A -> M guarded_ptr B) : reads f -> (forall a, reads (k a)) -> reads (bind f k).
Proof.
  intros Hf Hk g b g' Hg H. apply bind_ok in H as (a & g1 & H1 & H2). pose proof (Hf _ _ _ Hg H1) as Ha.
  exact (adv_trans 0 0 _ _ _ Ha (Hk a _ _ _ (adv_good 0 _ _ Hg ltac:(lia) Ha) H2)).
Qed.
Lemma reads_same {A} (f : M guarded_ptr A) : (forall g a g', f g = Ok a g' -> g' = g) -> reads f.
Proof. intros H g a g' Hg Hf. rewrite (H _ _ _ Hf). now apply adv_refl. Qed.
Lemma advance_reads i : 0 <= i -> reads (advance i).
Proof.
  intros Hi g a g' Hg H. unfold advance in H. apply bind_ok in H as (x & g1 & Hx & H). apply get_ok in Hx as [-> ->].
  apply bind_ok in H as (y & g2 & Hy & H). unfold psizam_assert in Hy. destruct (Z.leb_spec i (avail g)) as [Hl|]; [|discriminate].
  apply ret_ok in Hy as [_ ->]. apply modify_ok in H as ->. rewrite (avail_good g Hg) in Hl. unfold adv. cbn. repeat split; lia.
Qed.
Lemma shrink_adv g g' n : good g -> n <= avail g -> adv 0 (set_bnds (gp_raw g + n) g) g' -> adv 0 g (set_bnds (gp_bnds g) g').
Proof. intros Hg Hn. rewrite (avail_good g Hg) in Hn. intros (A1 & A2 & A3). unfold adv in *. cbn in *. repeat split; auto; lia. Qed.
Lemma shrink_reads {A} n (body : M guarded_ptr A) : 0 <= n -> reads body -> reads (scoped_shrink_bounds n body).
Proof.
  intros Hn Hb g a g' Hg H. destruct (Z.leb_spec n (avail g)) as [Hl|Hl].
  - rewrite shrunk_run in H by exact Hl. destruct (body _) as [x g1|e g1|] eqn:E; try discriminate. injection H as <- <-.
    apply shrink_adv with n; [exact Hg|exact Hl|]. apply (Hb _ x); [|exact E]. apply shrink_good; [exact Hg|lia].
  - unfold scoped_shrink_bounds, bind, get, psizam_assert in H. destruct (Z.leb_spec n (avail g)); [lia|discriminate].
Qed.
Lemma reads_of_ate {A} (f : M guarded_ptr A) : (forall g, good g -> wp f (fun a g' => exists bs, ate g g' bs) any g) -> reads f.
Proof.
  intros H g a g' Hg Hf. specialize (H g Hg). unfold wp in H. rewrite Hf in H. destruct H as [bs Ha].
  apply (adv_weaken (Z.of_nat (length bs))); [lia|]. now apply ate_adv.
Qed.

Ltac reads_head :=
  lazymatch goal with
  | |- reads (bind _ _) => apply reads_bind; [|intros ?]
  | |- reads (ret _) => apply reads_same; intros ? ? ?; now intros [_ ->]%ret_ok
  | |- reads get => apply reads_same; intros ? ? ?; now intros [_ ->]%get_ok
  | |- reads (gets _) => apply reads_same; intros ? ? ?; now intros [_ ->]%gets_ok
  | |- reads (psizam_assert ?b _ _) => apply reads_same; unfold psizam_assert; destruct b; intros ? ? ?; [now intros [_ ->]%ret_ok|discriminate]
  | |- reads (Parser.check _ _) => unfold Parser.check
  | |- reads (vec_index ?l ?i) => apply reads_same; intros ? ? ?; now intros [_ ->]%vec_index_inv
  | |- reads undefined => intros ? ? ? ?; discriminate
  | |- reads (throw _ _) => intros ? ? ? ?; discriminate
  | |- reads (advance (Z.of_nat _)) => apply advance_reads; lia
  | |- reads (match ?x with _ => _ end) => destruct x
  end.
Ltac reads_all := repeat reads_head; auto with parser_frame.

Lemma deref_reads i : reads (deref i).
Proof. apply reads_same. intros g a g'. unfold deref. destruct (i <? 0); [discriminate|]. destruct (_ !! _); [|discriminate]. now intros [= _ <-]. Qed.
Lemma at_reads i : reads (at_ i). Proof. unfold at_. reads_all. apply deref_reads. Qed.
Lemma read_loop_reads check_last N fuel : (forall b, reads (check_last b)) -> forall cnt, reads (read_loop check_last N fuel cnt).
Proof. intros Hc. induction fuel; intros cnt; cbn [read_loop]; reads_all; apply at_reads. Qed.
(** At any width, the one-bit flags included. *)
Lemma varuint_any_reads N : reads (parse_varuint N).
Proof. unfold parse_varuint, varuint_from_code, from_code, varuint_check_last. reads_all. apply read_loop_reads. intros b. reads_all. Qed.
Lemma name_reads n : reads (parse_utf8_string n).
Proof.
  apply reads_of_ate. intros g Hg. eapply wp_mono; [| |apply (parse_utf8_string_wp n g Hg)]; [|auto].
  intros name g' (_ & imm & _ & Ha & _). eauto.
Qed.
Lemma global_ref_reads gs max : reads (Parser.parse_global_ref gs max).
Proof. unfold Parser.parse_global_ref. reads_all. Qed.
#[export] Hint Resolve varuint_any_reads name_reads global_ref_reads : parser_frame.
Lemma first_reads gs simd op v type max : reads (Parser.parse_first gs simd op v type max).
Proof. unfold Parser.parse_first. reads_all. Qed.
Lemma more_reads gs op d max : reads (Parser.parse_more gs op d max).
Proof. unfold Parser.parse_more. reads_all. Qed.
Lemma check_simple_reads gs op v type : reads (Parser.check_simple gs op v type).
Proof. unfold Parser.check_simple. reads_all. Qed.
#[export] Hint Resolve first_reads more_reads check_simple_reads : parser_frame.
Lemma rest_reads gs fuel : forall d max, reads (Parser.parse_rest gs fuel d max).
Proof. induction fuel; intros d max; cbn [Parser.parse_rest]; reads_all. Qed.
#[export] Hint Resolve rest_reads : parser_frame.
Lemma init_expr_reads gs simd ie type max : reads (Parser.parse_init_expr gs simd ie type max).
Proof. unfold Parser.parse_init_expr. reads_all. Qed.
#[export] Hint Resolve init_expr_reads : parser_frame.

(** ** Quiet parsers *)

(** What an entry's parser leaves alone. *)
Definition module_part (s : binary_parser) : module * list Z * list pending_body * option Z * Z :=
  (p_mod s, p_type_aliases s, p_function_bodies s, p_datacount s, p_maximum_stack s).
Record quietly (s s' : binary_parser) : Prop := { q_code : adv 0 (p_code s) (p_code s'); q_part : module_part s' = module_part s }.
Definition quiet {A} (p : M binary_parser A) : Prop := forall s a s', good (p_code s) -> p s = Ok a s' -> quietly s s'.
Lemma quietly_good s s' : good (p_code s) -> quietly s s' -> good (p_code s').
Proof. intros Hg [Ha _]. eapply adv_good; [exact Hg| |exact Ha]. lia. Qed.
Lemma quietly_trans s s1 s2 : quietly s s1 -> quietly s1 s2 -> quietly s s2.
Proof. intros [A1 A2] [B1 B2]. split; [exact (adv_trans 0 0 _ _ _ A1 B1)|congruence]. Qed.
Lemma quiet_bind_value {A B} (V : A -> Prop) (p : M binary_parser A) (k : A -> M binary_parser B) : quiet p ->
  (forall s a s', good (p_code s) -> p s = Ok a s' -> V a) -> (forall a, V a -> quiet (k a)) -> quiet (bind p k).
Proof.
  intros Hp HV Hk s b s' Hg H. apply bind_ok in H as (a & s1 & H1 & H2). pose proof (Hp _ _ _ Hg H1) as Hs.
  exact (quietly_trans _ _ _ Hs (Hk a (HV _ _ _ Hg H1) _ _ _ (quietly_good _ _ Hg Hs) H2)).
Qed.
Lemma quiet_bind {A B} (p : M binary_parser A) (k : A -> M binary_parser B) : quiet p -> (forall a, quiet (k a)) -> quiet (bind p k).
Proof. intros Hp Hk. apply (quiet_bind_value (fun _ => True)); auto. Qed.
Lemma quiet_same {A} (p : M binary_parser A) : (forall s a s', p s = Ok a s' -> s' = s) -> quiet p.
Proof. intros H s a s' Hg Hp. rewrite (H _ _ _ Hp). split; [now apply adv_refl|reflexivity]. Qed.
Lemma quiet_modify f : (forall s, p_code (f s) = p_code s /\ module_part (f s) = module_part s) -> quiet (modify f).
Proof. intros H s a s' Hg Hf. apply modify_ok in Hf. subst s'. destruct (H s) as [E1 E2]. split; [rewrite E1; now apply adv_refl|exact E2]. Qed.
Lemma on_ptr_ok {A} (f : M guarded_ptr A) s a s' : on_ptr f s = Ok a s' -> exists g, f (p_code s) = Ok a g /\ s' = s <| p_code := g |>.
Proof. intros H. apply zoom_ok in H as (g & H & ->). eauto. Qed.
Lemma quiet_on_ptr {A} (f : M guarded_ptr A) : reads f -> quiet (on_ptr f).
Proof. intros Hf s a s' Hg H. apply on_ptr_ok in H as (g & H & ->). split; [exact (Hf _ _ _ Hg H)|reflexivity]. Qed.
Lemma read_u32_range s a s' : good (p_code s) -> read_u32 s = Ok a s' -> in_u 32 a.
Proof. intros Hg H. apply on_ptr_ok in H as (g & H & ->). apply (varuint_adv 32 _ _ _ wide_32 Hg H). Qed.
Lemma read_byte_range s a s' : good (p_code s) -> read_byte s = Ok a s' -> in_u 8 a.
Proof. intros Hg H. apply on_ptr_ok in H as (g & H & ->). apply (next_adv _ _ _ Hg H). Qed.

(** ** Scopes *)
Definition inside (n : Z) (s : binary_parser) : binary_parser := s <| p_code := set_bnds (gp_raw (p_code s) + n) (p_code s) |>.
Definition outside (s s' : binary_parser) : binary_parser := s' <| p_code := set_bnds (gp_bnds (p_code s)) (p_code s') |>.
Lemma inside_good n s : 0 <= n -> n <= avail (p_code s) -> good (p_code s) -> good (p_code (inside n s)).
Proof. intros H0 Hn Hg. apply shrink_good; [exact Hg|lia]. Qed.
Lemma scoped_shrink_ok {A} n (body : M binary_parser A) s a s' : scoped_shrink n body s = Ok a s' ->
  n <= avail (p_code s) /\ exists s1, body (inside n s) = Ok a s1 /\ s' = outside s s1.
Proof.
  unfold scoped_shrink, bind, get, psizam_assert. destruct (Z.leb_spec n (avail (p_code s))); [|discriminate].
  change (match body (inside n s) with Ok a s1 => Ok a (outside s s1) | Throw e s1 => Throw e (outside s s1) | UB => UB end = Ok a s' -> n <= avail (p_code s) /\ exists s1, body (inside n s) = Ok a s1 /\ s' = outside s s1).
  destruct (body (inside n s)) as [x s1|e s1|]; try discriminate. intros [= <- <-]. eauto.
Qed.
Lemma scoped_consume_ok {A} n (body : M binary_parser A) s a s' : scoped_consume n body s = Ok a s' ->
  n <= avail (p_code s) /\ exists s1, body (inside n s) = Ok a s1 /\ gp_raw (p_code s1) = gp_bnds (p_code s1) /\ s' = outside s s1.
Proof.
  unfold scoped_consume, bind, get, psizam_assert. destruct (Z.leb_spec n (avail (p_code s))); [|discriminate].
  change (match body (inside n s) with
          | Ok a s1 => if gp_raw (p_code s1) =? gp_bnds (p_code s1) then Ok a (outside s s1) else Throw (Exn guarded_ptr_exception "guarded_ptr not advanced") s1
          | Throw e s1 => Throw e (outside s s1) | UB => UB end = Ok a s' ->
          n <= avail (p_code s) /\ exists s1, body (inside n s) = Ok a s1 /\ gp_raw (p_code s1) = gp_bnds (p_code s1) /\ s' = outside s s1).
  destruct (body (inside n s)) as [x s1|e s1|]; try discriminate. destruct (Z.eqb_spec (gp_raw (p_code s1)) (gp_bnds (p_code s1))); [|discriminate].
  intros [= <- <-]. eauto.
Qed.
Lemma outside_adv n s s1 : good (p_code s) -> n <= avail (p_code s) -> adv 0 (p_code (inside n s)) (p_code s1) -> adv 0 (p_code s) (p_code (outside s s1)).
Proof. intros Hg Hn Ha. exact (shrink_adv _ _ _ Hg Hn Ha). Qed.
Lemma quiet_shrink {A} n (body : M binary_parser A) : 0 <= n -> quiet body -> quiet (scoped_shrink n body).
Proof.
  intros Hn Hb s a s' Hg H. apply scoped_shrink_ok in H as (Hl & s1 & H & ->). destruct (Hb _ _ _ (inside_good n s Hn Hl Hg) H) as [Ha Hp].
  split; [now apply (outside_adv n)|exact Hp].
Qed.
Lemma quiet_consume {A} n (body : M binary_parser A) : 0 <= n -> quiet body -> quiet (scoped_consume n body).
Proof.
  intros Hn Hb s a s' Hg H. apply scoped_consume_ok in H as (Hl & s1 & H & _ & ->). destruct (Hb _ _ _ (inside_good n s Hn Hl Hg) H) as [Ha Hp].
  split; [now apply (outside_adv n)|exact Hp].
Qed.

(** ** Entries *)
Ltac quiet_head :=
  lazymatch goal with
  | |- quiet (bind read_u32 _) => apply (quiet_bind_value (in_u 32)); [apply quiet_on_ptr; auto with parser_frame|exact read_u32_range|intros ? [? ?]]
  | |- quiet (bind _ _) => apply quiet_bind; [|intros ?]
  | |- quiet (ret _) => apply quiet_same; intros ? ? ?; now intros [_ ->]%ret_ok
  | |- quiet get => apply quiet_same; intros ? ? ?; now intros [_ ->]%get_ok
  | |- quiet (gets _) => apply quiet_same; intros ? ? ?; now intros [_ ->]%gets_ok
  | |- quiet the_mod => apply quiet_same; intros ? ? ?; now intros [_ ->]%gets_ok
  | |- quiet remaining => apply quiet_same; intros ? ? ?; now intros [_ ->]%gets_ok
  | |- quiet (parse_check _ _) => apply quiet_same; intros ? ? ?; now intros [_ ->]%parse_check_Ok
  | |- quiet (psizam_assert ?b _ _) => apply quiet_same; unfold psizam_assert; destruct b; intros ? ? ?; [now intros [_ ->]%ret_ok|discriminate]
  | |- quiet (vec_index _ _) => apply quiet_same; intros ? ? ?; now intros [_ ->]%vec_index_inv
  | |- quiet (vec_at ?l ?i) => apply quiet_same; unfold vec_at; destruct (vec_lookup l i); intros ? ? ?; [now intros [= _ <-]|discriminate]
  | |- quiet undefined => intros ? ? ? ?; discriminate
  | |- quiet (throw _ _) => intros ? ? ? ?; discriminate
  | |- quiet (on_ptr _) => apply quiet_on_ptr; solve [auto with parser_frame]
  | |- quiet read_byte => apply quiet_on_ptr; solve [auto with parser_frame]
  | |- quiet look_byte => apply quiet_on_ptr; solve [auto with parser_frame]
  | |- quiet skip_byte => apply quiet_on_ptr; solve [auto with parser_frame]
  | |- quiet read_u32 => apply quiet_on_ptr; solve [auto with parser_frame]
  | |- quiet (read_name _) => apply quiet_on_ptr; solve [auto with parser_frame]
  | |- quiet (modify _) => apply quiet_modify; intros ?; now split
  | |- quiet (scoped_consume _ _) => apply quiet_consume; [assumption|]
  | |- quiet (match ?x with _ => _ end) => destruct x
  end.
Ltac quiet := repeat quiet_head; auto with section_frame.

Lemma read_list_quiet {A} n (p : M binary_parser A) : quiet p -> quiet (read_list n p).
Proof. intros Hp. induction n; cbn [read_list]; quiet. Qed.
Lemma for_each_quiet n : forall i f, (forall i, quiet (f i)) -> quiet (for_each n i f).
Proof. induction n; intros i f Hf; cbn [for_each]; quiet. Qed.
#[export] Hint Resolve read_list_quiet for_each_quiet : section_frame.

Section Entries.
Context (_options : Options).
Lemma type_byte_quiet ok msg : quiet (type_byte ok msg). Proof. unfold type_byte. quiet. Qed.
Lemma parse_flags_quiet : quiet parse_flags. Proof. unfold parse_flags. quiet. Qed.
Lemma skip_continued_quiet n : quiet (skip_continued n). Proof. induction n; cbn [skip_continued]; quiet. Qed.
Lemma init_expr_quiet type max : quiet (read_init_expr _options type max). Proof. unfold read_init_expr. quiet. Qed.
Lemma read_u1_quiet : quiet read_u1. Proof. unfold read_u1. quiet. Qed.
Lemma read_pages_quiet is64 msg : quiet (read_pages is64 msg). Proof. unfold read_pages. quiet. Qed.
Lemma entry_of_quiet i : quiet (entry_of i). Proof. unfold entry_of. quiet. Qed.
Lemma elem_index_quiet : quiet parse_elem_index. Proof. unfold parse_elem_index. quiet. apply entry_of_quiet. Qed.
Lemma on_mutable_quiet t : quiet (on_mutable_global _options t). Proof. unfold on_mutable_global. quiet. Qed.
End Entries.
#[export] Hint Resolve type_byte_quiet parse_flags_quiet skip_continued_quiet init_expr_quiet read_u1_quiet read_pages_quiet entry_of_quiet
  elem_index_quiet on_mutable_quiet : section_frame.

Section Quiet.
Context (_options : Options).
Lemma func_type_quiet : quiet (parse_func_type _options). Proof. unfold parse_func_type. quiet. Qed.
Lemma reftype_quiet : quiet parse_reftype. Proof. unfold parse_reftype. quiet. Qed.
#[local] Hint Resolve reftype_quiet : section_frame.
Lemma table_type_quiet : quiet (parse_table_type _options). Proof. unfold parse_table_type. quiet. Qed.
Lemma global_variable_quiet i : quiet (parse_global_variable _options i). Proof. unfold parse_global_variable. quiet. Qed.
Lemma memory_type_quiet : quiet (parse_memory_type _options). Proof. unfold parse_memory_type. quiet. Qed.
Lemma export_entry_quiet : quiet (parse_export_entry _options). Proof. unfold parse_export_entry. quiet. Qed.
Lemma validate_exports_quiet : quiet validate_exports. Proof. unfold validate_exports. quiet. Qed.
Lemma elem_expr_quiet t : quiet (parse_elem_expr t). Proof. unfold parse_elem_expr. quiet. Qed.
#[local] Hint Resolve elem_expr_quiet : section_frame.
Lemma elem_segment_quiet : quiet (parse_elem_segment _options). Proof. unfold parse_elem_segment. quiet; apply read_list_quiet; quiet. Qed.
Lemma take_bytes_quiet n : 0 <= n -> quiet (take_bytes n).
Proof.
  intros Hn. unfold take_bytes. apply quiet_on_ptr, shrink_reads; [exact Hn|]. reads_all. now apply advance_reads.
Qed.
#[local] Hint Resolve take_bytes_quiet : section_frame.
Lemma data_segment_quiet : quiet (parse_data_segment _options). Proof. unfold parse_data_segment. quiet. Qed.
Lemma tag_quiet : quiet (parse_tag _options). Proof. unfold parse_tag. quiet. Qed.
Lemma local_quiet : quiet (parse_local _options). Proof. unfold parse_local. quiet. Qed.
Lemma read_count_quiet n : quiet (read_count n). Proof. unfold read_count. quiet. Qed.
Lemma name_count_quiet msg : quiet (name_count msg). Proof. unfold name_count. quiet. Qed.
#[local] Hint Resolve name_count_quiet : section_frame.
Lemma name_assoc_quiet : quiet parse_name_assoc. Proof. unfold parse_name_assoc. quiet. Qed.
#[local] Hint Resolve name_assoc_quiet : section_frame.
Lemma name_map_quiet n : quiet (parse_name_map n). Proof. unfold parse_name_map. quiet. Qed.
Lemma set_names_quiet f : quiet (set_names f). Proof. unfold set_names. quiet. Qed.
#[local] Hint Resolve name_map_quiet set_names_quiet : section_frame.
Lemma indirect_names_quiet : quiet parse_indirect_names. Proof. unfold parse_indirect_names. quiet. Qed.
Lemma subsection_quiet id body : quiet body -> quiet (subsection id body). Proof. intros Hb. unfold subsection. quiet. Qed.
#[local] Hint Resolve indirect_names_quiet subsection_quiet : section_frame.
Lemma name_section_quiet : quiet parse_name_section.
Proof.
  unfold parse_name_section. quiet_head; [quiet|]. repeat (quiet_head; [apply subsection_quiet; quiet|]; quiet_head; [quiet|]). quiet.
Qed.
Lemma hint_quiet : quiet parse_hint. Proof. unfold parse_hint. quiet. Qed.
#[local] Hint Resolve hint_quiet : section_frame.
Lemma func_hints_quiet : quiet parse_func_hints. Proof. unfold parse_func_hints. quiet. Qed.
#[local] Hint Resolve name_section_quiet func_hints_quiet : section_frame.
Lemma branch_hints_quiet : quiet parse_branch_hints_section. Proof. unfold parse_branch_hints_section. quiet. Qed.
#[local] Hint Resolve branch_hints_quiet : section_frame.

Lemma custom_quiet : quiet (parse_custom _options).
Proof.
  unfold parse_custom. quiet_head; [quiet|]. destruct (_ && _); [quiet|]. destruct (bool_decide _); [quiet|]. intros s u s' Hg H. apply bind_ok in H as (n & s1 & Hn & H).
  apply gets_ok in Hn as [-> ->]. refine (quiet_on_ptr _ _ s u s' Hg H). apply advance_reads. rewrite (avail_good _ Hg). destruct Hg as [[? _] _]. lia.
Qed.
End Quiet.
#[export] Hint Resolve func_type_quiet table_type_quiet global_variable_quiet memory_type_quiet export_entry_quiet validate_exports_quiet elem_segment_quiet
  data_segment_quiet tag_quiet local_quiet read_count_quiet custom_quiet : section_frame.

(** ** Skipped encodings

    The loops over the continuation bytes of an encoding that is not decoded are
    never out of fuel: each round takes a byte or throws at the end. *)
Lemma next_defined g : good g -> Parser.next g <> UB.
Proof. intros Hg E. pose proof (next_wp g Hg) as Hw. unfold wp in Hw. now rewrite E in Hw. Qed.
Lemma skip_leb_defined n s : good (code s) -> gp_bnds (code s) - gp_raw (code s) < Z.of_nat n -> skip_leb n s <> UB.
Proof.
  revert s. induction n as [|n IH]; intros s Hg Hn; [destruct Hg as [[[? ?] _] _]; lia|].
  cbn [skip_leb]. unfold next_byte, on_code, zoom, bind.
  destruct (Parser.next (code s)) as [b g|e g|] eqn:E; [|discriminate|now apply next_defined in E].
  destruct (next_adv _ _ _ Hg E) as [Ha _]. pose proof Ha as (_ & Eb & Hr). destruct (negb _); [|discriminate].
  apply IH; cbn; [exact (adv_good 1 _ _ Hg ltac:(lia) Ha)|lia].
Qed.
Lemma skip_continued_defined n s : good (p_code s) -> gp_bnds (p_code s) - gp_raw (p_code s) < Z.of_nat n -> skip_continued n s <> UB.
Proof.
  revert s. induction n as [|n IH]; intros s Hg Hn; [destruct Hg as [[[? ?] _] _]; lia|].
  cbn [skip_continued]. unfold read_byte, on_ptr, zoom, bind.
  destruct (Parser.next (p_code s)) as [b g|e g|] eqn:E; [|discriminate|now apply next_defined in E].
  destruct (next_adv _ _ _ Hg E) as [Ha _]. pose proof Ha as (_ & Eb & Hr). destruct (_ =? 0); [discriminate|].
  apply IH; cbn; [exact (adv_good 1 _ _ Hg ltac:(lia) Ha)|lia].
Qed.
Lemma skip_continuation_defined s : good (code s) -> skip_continuation s <> UB.
Proof.
  intros Hg. unfold skip_continuation, bind, get. apply skip_leb_defined; [exact Hg|]. destruct Hg as [[[? ?] _] _]. lia.
Qed.
Lemma skip_remaining_defined s : good (p_code s) -> (let* left := remaining in skip_continued (S (Z.to_nat left))) s <> UB.
Proof.
  intros Hg. unfold remaining, bind, gets. apply skip_continued_defined; [exact Hg|].
  destruct Hg as [[[? ?] [? ?]] _]. unfold avail. rewrite wrap_small by (unfold in_u; lia). lia.
Qed.
