(* ===== verification/SectionSound.v ===== *)
(** * Sections are well formed

    What the section parsers establish: the well-formedness of the module that
    the validation and compilation of its code relies on. *)
From Stdlib Require Import ZArith Lia Bool String.
From stdpp Require Import base list numbers decidable option gmap.
From S2P Require Import Prelude Leb128 Types InitExpr ConstExpr ParseInit Utf8 Stack Memory Numeric Softfloat Context Operands Interp Demo Invariants.
From S2P Require Import TypedOps TypedVec Typing Control Verifier Soundness Termination Writer Validator ParseVec ParseBody Sections TrackerSpec Emission BodySound LoopSound ParserFrame.
From S2P Require Import FunctionSound CompileSound SectionFrame.
Import GuardedPtr Leb Opcode BitcodeWriter Utf8.

(** ** What entries are *)
Definition yields {A} (Q : A -> Prop) (p : M binary_parser A) : Prop := forall s a s', good (p_code s) -> p s = Ok a s' -> Q a.
(** One step of a parser, and the pointer behind it. *)
Ltac psteps H :=
  lazymatch type of H with
  | bind read_u32 _ _ = Ok _ _ =>
      let x := fresh "n" in let s1 := fresh "st" in let Hx := fresh "Hx" in
      apply bind_ok in H as (x & s1 & Hx & H);
      match type of Hx with read_u32 ?s = _ =>
        let Hg := fresh "Hg" in assert (Hg : good (p_code s)) by assumption;
        pose proof (read_u32_range _ _ _ Hg Hx);
        pose proof (quietly_good _ _ Hg (quiet_on_ptr _ (varuint_any_reads 32) _ _ _ Hg Hx)); clear Hg
      end
  | bind ?p _ _ = Ok _ _ =>
      let x := fresh "x" in let s1 := fresh "st" in let Hx := fresh "Hx" in
      apply bind_ok in H as (x & s1 & Hx & H);
      first
        [ apply gets_ok in Hx as [-> ->] | apply get_ok in Hx as [-> ->] | apply ret_ok in Hx as [-> ->] | apply parse_check_Ok in Hx as [Hx ->]
        | match type of Hx with ?q ?s = _ =>
            let Hg := fresh "Hg" in assert (Hg : good (p_code s)) by assumption;
            let Hq := fresh "Hq" in assert (Hq : SectionFrame.quiet q) by (quiet; fail);
            pose proof (quietly_good _ _ Hg (Hq _ _ _ Hg Hx)); clear Hq Hg
          end ]
  end.

Lemma type_byte_yields ok msg : yields (fun t => ok t = true /\ in_u 8 t) (type_byte ok msg).
Proof.
  intros s t s' Hg H. unfold type_byte in H. apply bind_ok in H as (x & s1 & Hx & H). apply bind_ok in H as (y & s2 & Hy & H).
  apply parse_check_Ok in Hy as [Hy ->]. apply ret_ok in H as [-> ->]. split; [exact Hy|exact (read_byte_range _ _ _ Hg Hx)].
Qed.
Lemma read_list_yields {A} Q n (p : M binary_parser A) : SectionFrame.quiet p -> yields Q p -> yields (fun l => Forall Q l /\ length l = n) (read_list n p).
Proof.
  intros Hp HQ. induction n as [|n IH]; intros s l s' Hg H; cbn [read_list] in H.
  - apply ret_ok in H as [-> _]. auto.
  - apply bind_ok in H as (a & s1 & H1 & H). apply bind_ok in H as (l1 & s2 & H2 & H). apply ret_ok in H as [-> ->].
    destruct (IH _ _ _ (quietly_good _ _ Hg (Hp _ _ _ Hg H1)) H2) as [Hf Hl]. split; [constructor; [exact (HQ _ _ _ Hg H1)|exact Hf]|cbn; lia].
Qed.

Section Values.
Context (_options : Options).
Lemma param_valtype t : param_byte _options t = true -> is_valtype t = true.
Proof. unfold param_byte, is_valtype, simd_byte, is_ref_byte. rewrite !orb_true_iff, andb_true_iff. tauto. Qed.
Lemma result_valtype t : result_byte _options t = true -> is_valtype t = true.
Proof. unfold result_byte, is_valtype, simd_byte, is_ref_byte. rewrite !orb_true_iff, andb_true_iff. tauto. Qed.

Lemma func_type_yields : yields (fun t => sig_wf (with_sig_hash t) = true) (parse_func_type _options).
Proof.
  intros s t s' Hg H. unfold parse_func_type in H. do 5 psteps H.
  apply bind_ok in H as (ps & s1 & Hp & H). pose proof (quietly_good _ _ ltac:(eassumption) (read_list_quiet _ _ (type_byte_quiet _ _) _ _ _ ltac:(eassumption) Hp)).
  apply (read_list_yields _ _ _ (type_byte_quiet _ _) (type_byte_yields _ _)) in Hp as [Hps Lps]; [|assumption]. do 4 psteps H.
  apply bind_ok in H as (rs & s2 & Hr & H).
  apply (read_list_yields _ _ _ (type_byte_quiet _ _) (type_byte_yields _ _)) in Hr as [Hrs Lrs]; [|assumption].
  psteps H. apply ret_ok in H as [-> _]. rewrite !Z.leb_le in *. unfold in_u in *.
  assert (Er : wrap 8 (vec_size rs) = vec_size rs) by (apply wrap_small; unfold in_u, vec_size; lia).
  unfold sig_wf, with_sig_hash, finalize_returns. cbn [param_types return_types return_count return_type]. rewrite !andb_true_iff, !forallb_forall, !Z.ltb_lt, Er.
  rewrite !Forall_forall in *. repeat split; unfold vec_size; try lia.
  - intros y Hin. apply param_valtype. apply Hps. now apply list_elem_of_In.
  - intros y Hin. apply result_valtype. apply Hrs. now apply list_elem_of_In.
  - unfold check_type. cbn [sig_hash return_count return_types]. rewrite andb_true_iff, !Z.eqb_eq. auto.
  - destruct rs as [|r [|r2 rs]]; [reflexivity|now apply bool_decide_eq_true|]. apply orb_true_iff. left. apply negb_true_iff, Z.eqb_neq. cbn [length]. lia.
Qed.
Lemma global_variable_yields i : yields (fun g => is_valtype (content_type (gv_type g)) = true) (parse_global_variable _options i).
Proof.
  intros s g s' Hg H. unfold parse_global_variable in H. apply bind_ok in H as (ct & s1 & Hc & H). destruct (type_byte_yields _ _ _ _ _ Hg Hc) as [Ht _].
  repeat (apply bind_ok in H as (? & ? & _ & H)). apply ret_ok in H as [-> _]. now apply (param_valtype).
Qed.
Lemma local_yields : yields (fun le => (0 <=? le_count le) && is_valtype (le_type le) = true) (parse_local _options).
Proof.
  intros s le s' Hg H. unfold parse_local in H. psteps H. apply bind_ok in H as (t & s1 & Ht & H). apply type_byte_yields in Ht as [Ht _]; [|assumption].
  apply ret_ok in H as [-> _]. cbn. apply andb_true_iff. split; [apply Z.leb_le; unfold in_u in *; lia|now apply result_valtype].
Qed.
End Values.

(** ** Vectors *)
Record lens {E} (v : vector_of E) : Prop := {
  ln_get : forall l m, v_get v (v_set v l m) = l;
  ln_put : forall l l' m, v_set v l (v_set v l' m) = v_set v l m;
  ln_same : forall m, v_set v (v_get v m) m = m }.
Ltac lens_tac := split; [reflexivity|reflexivity|intros []; reflexivity].
Lemma types_lens : lens types_v. Proof. lens_tac. Qed.
Lemma functions_lens : lens functions_v. Proof. lens_tac. Qed.
Lemma tables_lens : lens tables_v. Proof. lens_tac. Qed.
Lemma memories_lens : lens memories_v. Proof. lens_tac. Qed.
Lemma globals_lens : lens globals_v. Proof. lens_tac. Qed.
Lemma exports_lens : lens exports_v. Proof. lens_tac. Qed.
Lemma elements_lens : lens elements_v. Proof. lens_tac. Qed.
Lemma data_lens : lens data_v. Proof. lens_tac. Qed.
Lemma tags_lens : lens tags_v. Proof. lens_tac. Qed.

Lemma resized_length {A} (z : A) l n : 0 <= n -> length (resized z l n) = Z.to_nat n.
Proof. intros Hn. unfold resized. rewrite length_take, length_app, repeat_length. lia. Qed.
Lemma resized_lookup {A} (z : A) l n j : (j < length l)%nat -> Z.of_nat j < n -> resized z l n !! j = l !! j.
Proof. intros Hj Hn. unfold resized. rewrite lookup_take_lt by lia. apply lookup_app_l. exact Hj. Qed.

(** The module part with the vector [v] set to [l]. *)
Definition part_with {E} (v : vector_of E) (l : list E) (s : binary_parser) : module * list Z * list pending_body * option Z * Z :=
  (v_set v l (p_mod s), p_type_aliases s, p_function_bodies s, p_datacount s, p_maximum_stack s).
Lemma on_module_ok f s u s' : on_module f s = Ok u s' -> s' = s <| p_mod := f (p_mod s) |>.
Proof. intros H. unfold on_module in H. now apply modify_ok in H. Qed.

Section Fill.
Context {E} (v : vector_of E) (Hv : lens v) (parse : Z -> M binary_parser E) (Q : E -> Prop).
Context (Hquiet : forall i, SectionFrame.quiet (parse i)) (HQ : forall i, yields Q (parse i)).

(** The entries from [i] to [i + n] are what the parser yields, the others are as
    they were. *)
Definition filled (i : Z) (n : nat) (old l : list E) : Prop :=
  length l = length old /\ forall j x, l !! j = Some x -> if (i <=? Z.of_nat j) && (Z.of_nat j <? i + Z.of_nat n) then Q x else old !! j = Some x.
Lemma fill_filled n : forall i s u s', 0 <= i -> good (p_code s) ->
  for_each n i (fun i => let* e := parse i in v_put v i e) s = Ok u s' ->
  adv 0 (p_code s) (p_code s') /\ exists l, module_part s' = part_with v l s /\ filled i n (v_get v (p_mod s)) l.
Proof.
  induction n as [|n IH]; intros i s u s' Hi Hg H; cbn [for_each] in H.
  - apply ret_ok in H as [_ ->]. split; [now apply adv_refl|]. exists (v_get v (p_mod s)). unfold part_with. rewrite (ln_same v Hv). split; [reflexivity|].
    split; [reflexivity|]. intros j x Hj. destruct (Z.leb_spec i (Z.of_nat j)), (Z.ltb_spec (Z.of_nat j) (i + Z.of_nat 0)); cbn [andb]; try exact Hj. lia.
  - apply bind_ok in H as (y & s2 & H1 & H). apply bind_ok in H1 as (e & s1 & H1 & H2). apply on_module_ok in H2. subst s2.
    destruct (Hquiet _ _ _ _ Hg H1) as [Ha Hp]. pose proof (adv_good 0 _ _ Hg ltac:(lia) Ha) as Hg1. pose proof (HQ _ _ _ _ Hg H1) as He.
    apply IH in H as [Ha2 (l & El & Hl & Hf)]; [|lia|exact Hg1]. split; [exact (adv_trans 0 0 _ _ _ Ha Ha2)|]. exists l.
    unfold module_part in Hp. injection Hp as Em Eal Eb Ed Ems. cbn [p_mod] in El, Hl, Hf. unfold part_with in *. cbn in El, Hl, Hf.
    rewrite (ln_get v Hv) in Hl, Hf. rewrite (ln_put v Hv) in El. rewrite Em, ?Eal, ?Eb, ?Ed, ?Ems in *. split; [rewrite El; cbn; congruence|].
    split; [rewrite Hl; unfold vec_update; destruct (i <? 0); [reflexivity|apply length_insert]|].
    intros j x Hj. specialize (Hf j x Hj). unfold vec_update in Hf. destruct (Z.ltb_spec i 0); [lia|].
    destruct (Z.leb_spec (i + 1) (Z.of_nat j)), (Z.leb_spec i (Z.of_nat j)), (Z.ltb_spec (Z.of_nat j) (i + 1 + Z.of_nat n)), (Z.ltb_spec (Z.of_nat j) (i + Z.of_nat (S n)));
      cbn [andb] in *; try lia; try exact Hf; try (rewrite list_lookup_insert_ne in Hf by lia; exact Hf).
    apply list_lookup_insert_Some in Hf as [(_ & <- & _)|[Hne _]]; [exact He|lia].
Qed.
End Fill.

Lemma read_count_range n : yields (in_u 32) (read_count n).
Proof.
  intros s c s' Hg H. unfold read_count in H. apply bind_ok in H as (c1 & s1 & H1 & H). repeat (apply bind_ok in H as (? & ? & _ & H)).
  apply ret_ok in H as [-> _]. exact (read_u32_range _ _ _ Hg H1).
Qed.

Section Sections.
Context {E} (v : vector_of E) (Hv : lens v) (parse : Z -> M binary_parser E) (Q : E -> Prop).
Context (Hquiet : forall i, SectionFrame.quiet (parse i)) (HQ : forall i, yields Q (parse i)).

(** The vector resized and filled from [base] on. *)
Lemma resize_fill base count s u s' : 0 <= count -> 0 <= base <= vec_size (v_get v (p_mod s)) -> good (p_code s) ->
  (v_resize v (base + count) ;;; fill v base count parse) s = Ok u s' ->
  adv 0 (p_code s) (p_code s') /\ exists l, module_part s' = part_with v l s /\
    forall P : E -> Prop, (forall x, Q x -> P x) -> Forall P (take (Z.to_nat base) (v_get v (p_mod s))) -> Forall P l.
Proof.
  intros Hc Hb Hg H. apply bind_ok in H as (r & s1 & Hr & H). apply on_module_ok in Hr. subst s1. unfold fill in H.
  apply (fill_filled v Hv parse Q Hquiet HQ) in H as [Ha (l & El & Hl & Hf)]; [|lia|exact Hg]. split; [exact Ha|]. exists l.
  unfold part_with in *. cbn in El, Hl, Hf. rewrite (ln_put v Hv) in El. rewrite (ln_get v Hv) in Hl, Hf. split; [exact El|].
  intros P HP Hold. rewrite resized_length in Hl by lia. apply Forall_lookup_2. intros j x Hj. specialize (Hf j x Hj).
  pose proof (lookup_lt_Some _ _ _ Hj) as Hlt. unfold vec_size in Hb.
  destruct (Z.leb_spec base (Z.of_nat j)), (Z.ltb_spec (Z.of_nat j) (base + Z.of_nat (Z.to_nat count))); cbn [andb] in Hf; [auto|lia| |];
    rewrite resized_lookup in Hf by lia; apply (Forall_lookup_1 _ _ j x Hold); rewrite lookup_take_lt by lia; exact Hf.
Qed.
Lemma section_impl_ok max s u s' : good (p_code s) -> parse_section_impl v max parse s = Ok u s' ->
  adv 0 (p_code s) (p_code s') /\ exists l, module_part s' = part_with v l s /\ Forall Q l.
Proof.
  intros Hg H. unfold parse_section_impl in H. apply bind_ok in H as (c & s1 & H1 & H). pose proof (read_count_range _ _ _ _ Hg H1) as Hc.
  destruct (read_count_quiet _ _ _ _ Hg H1) as [Ha Hp]. pose proof (adv_good 0 _ _ Hg ltac:(lia) Ha) as Hg1. unfold in_u in Hc.
  change c with (0 + c) in H at 1. apply (resize_fill 0 c) in H as [Ha1 (l & El & Hl)]; [|lia|unfold vec_size; lia|exact Hg1].
  split; [exact (adv_trans 0 0 _ _ _ Ha Ha1)|]. exists l. split; [|apply Hl; [auto|constructor]].
  unfold module_part in Hp. injection Hp as Em Eal Eb Ed Ems. rewrite El. unfold part_with. congruence.
Qed.
Lemma section_behind_ok max s u s' : good (p_code s) -> parse_section_behind v max parse s = Ok u s' ->
  adv 0 (p_code s) (p_code s') /\ exists l, module_part s' = part_with v l s /\
    forall P : E -> Prop, (forall x, Q x -> P x) -> Forall P (v_get v (p_mod s)) -> Forall P l.
Proof.
  intros Hg H. unfold parse_section_behind in H. apply bind_ok in H as (c & s1 & H1 & H). pose proof (read_count_range _ _ _ _ Hg H1) as Hc.
  destruct (read_count_quiet _ _ _ _ Hg H1) as [Ha Hp]. pose proof (adv_good 0 _ _ Hg ltac:(lia) Ha) as Hg1. unfold in_u in Hc.
  apply bind_ok in H as (m & s2 & Hm & H). apply gets_ok in Hm as [-> ->].
  apply resize_fill in H as [Ha1 (l & El & Hl)]; [|lia|unfold vec_size; lia|exact Hg1].
  unfold module_part in Hp. injection Hp as Em Eal Eb Ed Ems. unfold part_with in *. rewrite Em, Eal, Eb, Ed, Ems in *.
  split; [exact (adv_trans 0 0 _ _ _ Ha Ha1)|]. exists l. split; [exact El|]. intros P HP Hold. apply Hl; [exact HP|]. now apply Forall_take.
Qed.
End Sections.

(** ** Type aliases *)
Lemma func_type_eqb_sig a b : func_type_eqb a b = true -> param_types a = param_types b /\ return_types a = return_types b.
Proof.
  unfold func_type_eqb. destruct (negb _); [discriminate|]. rewrite !andb_true_iff, !bool_decide_eq_true. tauto.
Qed.
Lemma alias_loop_sound ts rest : forall i reps, rest = drop i ts ->
  length (alias_loop ts rest (Z.of_nat i) reps) = length rest /\
  forall k a t, alias_loop ts rest (Z.of_nat i) reps !! k = Some a -> rest !! k = Some t ->
    exists t', vec_lookup ts a = Some t' /\ param_types t' = param_types t /\ return_types t' = return_types t.
Proof.
  induction rest as [|ti rest IH]; intros i reps Hd; [split; [reflexivity|discriminate]|].
  assert (Ht : ts !! i = Some ti) by (rewrite <- (Nat.add_0_r i), <- lookup_drop, <- Hd; reflexivity).
  assert (Hd' : rest = drop (S i) ts) by (replace (S i) with (i + 1)%nat by lia; rewrite <- drop_drop, <- Hd; reflexivity).
  cbn [alias_loop]. destruct (find_alias ts reps ti) as [a|] eqn:Ef.
  - destruct (IH (S i) reps Hd') as [Hl Hs]. replace (Z.of_nat (S i)) with (Z.of_nat i + 1) in * by lia. split; [cbn; lia|].
    intros [|k] b t Hb Hk; cbn in Hb, Hk; [|exact (Hs k b t Hb Hk)]. injection Hb as <-. injection Hk as <-. unfold find_alias in Ef.
    apply List.find_some in Ef as [_ Ef]. destruct (vec_lookup ts a) as [t'|]; [|discriminate]. apply andb_true_iff in Ef as [_ Ef]. exists t'.
    split; [reflexivity|]. now apply func_type_eqb_sig.
  - destruct (IH (S i) (reps ++ [Z.of_nat i]) Hd') as [Hl Hs]. replace (Z.of_nat (S i)) with (Z.of_nat i + 1) in * by lia. split; [cbn; lia|].
    intros [|k] b t Hb Hk; cbn in Hb, Hk; [|exact (Hs k b t Hb Hk)]. injection Hb as <-. injection Hk as <-. exists ti.
    unfold vec_lookup. destruct (Z.ltb_spec (Z.of_nat i) 0); [lia|]. rewrite Nat2Z.id. auto.
Qed.
Lemma aliases_wf m : let l := alias_loop (m_types m) (m_types m) 0 [] in forallb (alias_wf m) (zip (seq 0 (length l)) l) = true.
Proof.
  intros l. destruct (alias_loop_sound (m_types m) (m_types m) 0 [] eq_refl) as [Hl Hs]. change (Z.of_nat 0) with 0 in *. fold l in Hl, Hs.
  apply forallb_forall. intros [k a] Hin. apply list_elem_of_In, list_elem_of_lookup in Hin as [j Hj]. rewrite lookup_zip_with in Hj.
  destruct (seq 0 (length l) !! j) as [k'|] eqn:Ek; [|discriminate]. destruct (l !! j) as [a'|] eqn:Ea; [|discriminate]. injection Hj as -> ->.
  apply lookup_seq in Ek as [Ek Hlt]. cbn in Ek. subst k. unfold alias_wf. cbn [fst snd]. destruct (m_types m !! j) as [t|] eqn:Et; [|reflexivity].
  destruct (Hs j a t Ea Et) as (t' & -> & E1 & E2). apply andb_true_iff. split; now apply bool_decide_eq_true.
Qed.

(** ** The invariant between sections *)
Definition source_module (s : binary_parser) : module :=
  (p_mod s) <| m_code := map pb_fb (p_function_bodies s) |> <| m_data := [] |> <| bytecode := [] |>.

Section Invariant.
Context (junk : opcode) (capacity : Z) (_options : Options).

(** No code, and the code of a code section. *)
Definition blank (s : binary_parser) : Prop :=
  m_code (p_mod s) = [] /\ p_function_bodies s = [] /\ bytecode (p_mod s) = [] /\ p_maximum_stack s = 0.
Definition written (s : binary_parser) : Prop :=
  forallb body_wf (p_function_bodies s) = true /\ length (p_function_bodies s) = length (m_functions (p_mod s)) /\
  exists w, write_code_out junk capacity (source_module s) (p_type_aliases s) (p_datacount s) _options 0 (p_function_bodies s) =
            Ok ((p_mod s) <| m_data := [] |>, p_maximum_stack s) w.
(** [h] is [highest_section_id]: below 1 there are no types yet, below 12 there is
    no code, below 13 no data. *)
Record parsed (h : Z) (s : binary_parser) : Prop := {
  pa_types : forallb sig_wf (m_types (p_mod s)) = true;
  pa_imports : forallb (check_import (p_mod s)) (m_imports (p_mod s)) = true;
  pa_globals : Forall (fun g => is_valtype (content_type (gv_type g)) = true) (m_globals (p_mod s));
  pa_aliases : p_type_aliases s = [] \/ p_type_aliases s = alias_loop (m_types (p_mod s)) (m_types (p_mod s)) 0 [];
  pa_limit : m_stack_limit_is_bytes (p_mod s) = false;
  pa_early : h < 1 -> p_type_aliases s = [] /\ m_imports (p_mod s) = [];
  pa_blank : h < 12 -> blank s /\ m_data (p_mod s) = [];
  pa_code : blank s \/ written s }.

(** The invariant speaks of the module only. *)
Lemma parsed_part h s s' : module_part s' = module_part s -> parsed h s -> parsed h s'.
Proof.
  unfold module_part. intros E. injection E as E1 E2 E3 E4 E5. intros [H1 H2 H3 H4 H5 H6 H7 H8].
  split; unfold blank, written, source_module in *; rewrite ?E1, ?E2, ?E3, ?E4, ?E5 in *; assumption.
Qed.
(** Before the code, and of these parts of it. *)
Definition core (s : binary_parser) :=
  (m_types (p_mod s), m_imports (p_mod s), m_globals (p_mod s), p_type_aliases s, m_stack_limit_is_bytes (p_mod s),
   m_code (p_mod s), p_function_bodies s, bytecode (p_mod s), m_data (p_mod s), p_maximum_stack s).
Lemma check_import_types m m' : m_types m' = m_types m -> check_import m' = check_import m.
Proof. intros E. unfold check_import. now rewrite E. Qed.
Lemma parsed_core h h' s s' : core s' = core s -> h <= h' -> h < 12 -> parsed h s -> parsed h' s'.
Proof.
  unfold core. intros E Hh Hlt. injection E as E1 E2 E3 E4 E5 E6 E7 E8 E9 E10. intros [H1 H2 H3 H4 H5 H6 H7 H8]. destruct (H7 Hlt) as [Hb Hd].
  assert (Ec : check_import (p_mod s') = check_import (p_mod s)) by now apply check_import_types.
  assert (Hb' : blank s') by (unfold blank in *; now rewrite E6, E7, E8, E10).
  split; rewrite ?E1, ?E2, ?E3, ?E4, ?E5, ?E6, ?E7, ?E8, ?E9, ?E10, ?Ec in *; auto. intros; apply H6; lia.
Qed.

(** *** Sections that set one vector *)
Definition core_of (p : module * list Z * list pending_body * option Z * Z) :=
  let '(m, aliases, bodies, _, stack) := p in
  (m_types m, m_imports m, m_globals m, aliases, m_stack_limit_is_bytes m, m_code m, bodies, bytecode m, m_data m, stack).
Lemma vector_parsed {E} (v : vector_of E) l h h' s s' : module_part s' = part_with v l s -> core_of (part_with v l s) = core s ->
  h <= h' -> h < 12 -> parsed h s -> parsed h' s'.
Proof. intros El Ec. apply parsed_core. change (core s') with (core_of (module_part s')). now rewrite El. Qed.

Definition all {A} (_ : A) : Prop := True.
Lemma yields_all {A} (p : M binary_parser A) : yields all p. Proof. now intros s a s' _ _. Qed.
Lemma type_entry_quiet : SectionFrame.quiet (let* ft := parse_func_type _options in ret (with_sig_hash ft)).
Proof. quiet. Qed.
Lemma type_section_parsed h s u s' : h < 1 -> good (p_code s) -> parsed h s -> parse_type_section _options s = Ok u s' ->
  adv 0 (p_code s) (p_code s') /\ parsed 1 s'.
Proof.
  intros Hh Hg [H1 H2 H3 H4 H5 H6 H7 H8] H. destruct (H6 Hh) as [Ea Ei]. destruct (H7 ltac:(lia)) as [Hb Hd].
  apply (section_impl_ok types_v types_lens _ (fun t => sig_wf t = true)) in H as [Ha (l & El & Hl)].
  - split; [exact Ha|]. unfold module_part, part_with in El. injection El as E1 E2 E3 E4 E5. unfold types_v in E1. cbn [v_set] in E1.
    assert (Hb' : blank s') by (unfold blank in *; rewrite E1, E3, E5; exact Hb).
    split; rewrite ?E1, ?E2, ?E3, ?E5; cbn; rewrite ?Ea, ?Ei; auto; try lia. apply forallb_Forall. exact Hl.
  - intros i. apply type_entry_quiet.
  - intros i s0 t s0' Hg0 Ht. apply bind_ok in Ht as (ft & s1 & Hf & Ht). apply ret_ok in Ht as [-> _]. exact (func_type_yields _ _ _ _ Hg0 Hf).
  - exact Hg.
Qed.

Section Vector.
Context (h h' : Z) (s s' : binary_parser) (u : unit) (Hh : h < h') (Hlt : h < 12) (Hg : good (p_code s)) (Hp : parsed h s).

Lemma function_section_parsed : parse_function_section _options s = Ok u s' -> adv 0 (p_code s) (p_code s') /\ parsed h' s'.
Proof.
  intros H. apply (section_impl_ok functions_v functions_lens _ all) in H as [Ha (l & El & _)]; [|intros i; quiet|intros i; apply yields_all|exact Hg].
  split; [exact Ha|]. exact (vector_parsed functions_v l h h' s s' El eq_refl ltac:(lia) Hlt Hp).
Qed.
Lemma table_section_parsed : parse_table_section _options s = Ok u s' -> adv 0 (p_code s) (p_code s') /\ parsed h' s'.
Proof.
  intros H. apply (section_behind_ok tables_v tables_lens _ all) in H as [Ha (l & El & _)]; [|intros i; quiet|intros i; apply yields_all|exact Hg].
  split; [exact Ha|]. exact (vector_parsed tables_v l h h' s s' El eq_refl ltac:(lia) Hlt Hp).
Qed.
Lemma export_section_parsed : parse_export_section _options s = Ok u s' -> adv 0 (p_code s) (p_code s') /\ parsed h' s'.
Proof.
  intros H. apply (section_impl_ok exports_v exports_lens _ all) in H as [Ha (l & El & _)]; [|intros i; quiet|intros i; apply yields_all|exact Hg].
  split; [exact Ha|]. exact (vector_parsed exports_v l h h' s s' El eq_refl ltac:(lia) Hlt Hp).
Qed.
Lemma element_section_parsed : parse_element_section _options s = Ok u s' -> adv 0 (p_code s) (p_code s') /\ parsed h' s'.
Proof.
  intros H. apply (section_impl_ok elements_v elements_lens _ all) in H as [Ha (l & El & _)]; [|intros i; quiet|intros i; apply yields_all|exact Hg].
  split; [exact Ha|]. exact (vector_parsed elements_v l h h' s s' El eq_refl ltac:(lia) Hlt Hp).
Qed.
Lemma tag_section_parsed : parse_tag_section _options s = Ok u s' -> adv 0 (p_code s) (p_code s') /\ parsed h' s'.
Proof.
  intros H. apply (section_impl_ok tags_v tags_lens _ all) in H as [Ha (l & El & _)]; [|intros i; quiet|intros i; apply yields_all|exact Hg].
  split; [exact Ha|]. exact (vector_parsed tags_v l h h' s s' El eq_refl ltac:(lia) Hlt Hp).
Qed.
Lemma memory_section_parsed : parse_memory_section _options s = Ok u s' -> adv 0 (p_code s) (p_code s') /\ parsed h' s'.
Proof.
  intros H. unfold parse_memory_section in H. apply bind_ok in H as (c & s1 & H1 & H). pose proof (read_u32_range _ _ _ Hg H1) as [Hc _].
  destruct (quiet_on_ptr _ (varuint_any_reads 32) _ _ _ Hg H1) as [Ha Hm]. pose proof (adv_good 0 _ _ Hg ltac:(lia) Ha) as Hg1.
  apply bind_ok in H as (x & s2 & Hx & H). apply parse_check_Ok in Hx as [_ ->]. apply bind_ok in H as (m & s2 & Hx & H). apply gets_ok in Hx as [-> ->].
  apply bind_ok in H as (y & s2 & Hy & H). apply parse_check_Ok in Hy as [_ ->].
  apply (resize_fill memories_v memories_lens _ all) in H as [Ha1 (l & El & _)]; [|intros i; quiet|intros i; apply yields_all|exact Hc|unfold vec_size; cbn; lia|exact Hg1].
  split; [exact (adv_trans 0 0 _ _ _ Ha Ha1)|]. apply (vector_parsed memories_v l h h' s1); [exact El|reflexivity|lia|exact Hlt|]. exact (parsed_part h s s1 Hm Hp).
Qed.
Lemma global_section_parsed : parse_global_section _options s = Ok u s' -> adv 0 (p_code s) (p_code s') /\ parsed h' s'.
Proof.
  intros H. apply (section_behind_ok globals_v globals_lens _ (fun g => is_valtype (content_type (gv_type g)) = true)) in H as [Ha (l & El & Hl)];
    [|intros i; quiet|apply global_variable_yields|exact Hg].
  split; [exact Ha|]. destruct Hp as [H1 H2 H3 H4 H5 H6 H7 H8]. specialize (Hl _ (fun x Hx => Hx) H3). destruct (H7 Hlt) as [Hb Hd].
  unfold module_part, part_with in El. injection El as E1 E2 E3 E4 E5.
  assert (Hb' : blank s') by (unfold blank in *; rewrite E1, E3, E5; exact Hb).
  split; rewrite ?E1, ?E2, ?E3, ?E5; auto. intros Hx. apply H6. lia.
Qed.
Lemma start_section_parsed : parse_start_section s = Ok u s' -> adv 0 (p_code s) (p_code s') /\ parsed h' s'.
Proof.
  intros H. unfold parse_start_section in H. apply bind_ok in H as (c & s1 & H1 & H).
  destruct (quiet_on_ptr _ (varuint_any_reads 32) _ _ _ Hg H1) as [Ha Hm]. pose proof (parsed_part h s s1 Hm Hp) as Hp1.
  apply bind_ok in H as (x & s2 & Hx & H). apply on_module_ok in Hx. subst s2.
  assert (Hq : SectionFrame.quiet (let* m := the_mod in let* ft := get_function_type m c in
    parse_check ((return_count ft =? 0) && (vec_size (param_types ft) =? 0)) "wrong type for start")) by (unfold get_function_type; quiet).
  pose proof (adv_good 0 _ _ Hg ltac:(lia) Ha) as Hg1. apply Hq in H as [Ha1 Hm1]; [|exact Hg1]. split; [exact (adv_trans 0 0 _ _ _ Ha Ha1)|].
  apply (parsed_part h' _ _ Hm1). refine (parsed_core h h' s1 _ _ _ Hlt Hp1); [reflexivity|lia].
Qed.
Lemma data_count_parsed : parse_data_count_section s = Ok u s' -> adv 0 (p_code s) (p_code s') /\ parsed h' s'.
Proof.
  intros H. unfold parse_data_count_section in H. apply bind_ok in H as (c & s1 & H1 & H).
  destruct (quiet_on_ptr _ (varuint_any_reads 32) _ _ _ Hg H1) as [Ha Hm]. pose proof (parsed_part h s s1 Hm Hp) as Hp1.
  apply modify_ok in H. subst s'. split; [exact Ha|]. refine (parsed_core h h' s1 _ _ _ Hlt Hp1); [reflexivity|lia].
Qed.
Lemma same_aliases aliases l : SectionFrame.quiet (import_aliases aliases l).
Proof. induction l as [|e l IH]; cbn [import_aliases]; [quiet|]. destruct (bool_decide _); quiet. Qed.
Lemma same_functions aliases l : SectionFrame.quiet (function_aliases aliases l).
Proof. induction l as [|e l IH]; cbn [function_aliases]; quiet. Qed.
Lemma normalize_parsed : 1 <= h' -> normalize_types s = Ok u s' -> adv 0 (p_code s) (p_code s') /\ parsed h' s'.
Proof.
  intros H1' H. unfold normalize_types in H. apply bind_ok in H as (m & s1 & Hm & H). apply gets_ok in Hm as [-> ->].
  apply bind_ok in H as (x & s1 & Hx & H). apply modify_ok in Hx. subst s1. set (s1 := s <| p_type_aliases := _ |>) in H.
  apply bind_ok in H as (im & s2 & Him & H). apply same_aliases in Him as [Ha Hq]; [|exact Hg]. pose proof (adv_good 0 _ _ Hg ltac:(lia) Ha) as Hg2.
  apply bind_ok in H as (ow & s3 & How & H). apply same_functions in How as [Ha3 Hq3]; [|exact Hg2]. apply modify_ok in H. subst s'.
  split; [exact (adv_trans 0 0 _ _ _ Ha Ha3)|]. apply (parsed_part h' s1).
  - rewrite <- Hq, <- Hq3. reflexivity.
  - destruct Hp as [H1 H2 H3 H4 H5 H6 H7 _]. destruct (H7 Hlt) as [Hb Hd]. assert (Hb1 : blank s1) by exact Hb.
    split; [exact H1|exact H2|exact H3|right; reflexivity|exact H5|lia|intros _; exact (conj Hb1 Hd)|left; exact Hb1].
Qed.
End Vector.

(** *** Imports *)
Definition fixed (s : binary_parser) :=
  (m_types (p_mod s), p_type_aliases s, m_stack_limit_is_bytes (p_mod s), m_code (p_mod s), p_function_bodies s, bytecode (p_mod s), m_data (p_mod s), p_maximum_stack s).
Definition fixed_of (p : module * list Z * list pending_body * option Z * Z) :=
  let '(m, aliases, bodies, _, stack) := p in (m_types m, aliases, m_stack_limit_is_bytes m, m_code m, bodies, bytecode m, m_data m, stack).
Lemma fixed_part s s' : module_part s' = module_part s -> fixed s' = fixed s.
Proof. intros E. change (fixed_of (module_part s') = fixed_of (module_part s)). now rewrite E. Qed.
Definition globals_ok (s : binary_parser) : Prop := Forall (fun g => is_valtype (content_type (gv_type g)) = true) (m_globals (p_mod s)).
Lemma vec_update_twice {A} (l : list A) i a b : vec_update (vec_update l i a) i b = vec_update l i b.
Proof. unfold vec_update. destruct (i <? 0); [reflexivity|]. apply list_insert_insert_eq. Qed.

(** The import at [idx] is read, the others are left. *)
Record import_step (idx : Z) (s s' : binary_parser) : Prop := {
  is_adv : adv 0 (p_code s) (p_code s');
  is_fixed : fixed s' = fixed s;
  is_globals : globals_ok s -> globals_ok s';
  is_import : exists e, m_imports (p_mod s') = vec_update (m_imports (p_mod s)) idx e /\ check_import (p_mod s) e = true }.
Lemma import_entry_step idx s u s' : good (p_code s) -> parse_import_entry _options idx s = Ok u s' -> import_step idx s s'.
Proof.
  intros Hg H. unfold parse_import_entry in H. do 3 psteps H. rename st1 into s1.
  assert (Hq : quietly s s1).
  { apply (quietly_trans _ st); [apply (quiet_on_ptr _ (name_reads _) _ _ _ Hg Hx)|]. apply (quietly_trans _ st0); [eapply (quiet_on_ptr _ (name_reads _)); eassumption|].
    eapply (quiet_on_ptr _ next_reads); eassumption. }
  clear Hx Hx0 Hx1. destruct Hq as [Ha Hm]. pose proof (fixed_part _ _ Hm) as Hf. unfold module_part in Hm. injection Hm as Em _ _ _ _.
  destruct (external_kind_of x1) as [k|]; [|discriminate]. apply bind_ok in H as (z & s2 & Hz & H). apply on_module_ok in Hz. subst s2.
  set (s2 := s1 <| p_mod := _ |>) in H. assert (Hg2 : good (p_code s2)) by assumption.
  assert (Hf2 : fixed s2 = fixed s) by exact Hf.
  assert (Hi2 : forall e, m_imports (v_set imports_v (vec_update (m_imports (p_mod s2)) idx e) (p_mod s2)) = vec_update (m_imports (p_mod s)) idx e).
  { intros e. cbn. rewrite vec_update_twice, Em. reflexivity. }
  assert (Hgl : globals_ok s -> globals_ok s2) by (unfold globals_ok; cbn; now rewrite Em).
  destruct k.
  - psteps H. psteps H. psteps H. apply on_module_ok in H. subst s'. assert (Hq : quietly s2 st1) by (eapply (quiet_on_ptr _ (varuint_any_reads 32)); eassumption).
    destruct Hq as [Ha3 Hm3]. pose proof (fixed_part _ _ Hm3) as Hf3. unfold module_part in Hm3. injection Hm3 as Em3 _ _ _ _.
    split; [exact (adv_trans 0 0 _ _ _ Ha Ha3)|etransitivity; [exact Hf3|exact Hf2]|intros Hs; unfold globals_ok; cbn; rewrite Em3; apply Hgl, Hs|].
    eexists. split; [cbn; rewrite Em3; apply Hi2|]. unfold check_import. cbn. apply bool_decide_eq_true. rewrite Em3 in Hx0. cbn in Hx0. rewrite Em in Hx0.
    apply Z.ltb_lt in Hx0. destruct H3 as [H3 _]. destruct (vec_lookup_range (m_types (p_mod s)) n ltac:(lia)) as [t ->]. now exists t.
  - apply bind_ok in H as (t & s3 & H3 & H). destruct (table_type_quiet _options _ _ _ Hg2 H3) as [Ha3 Hm3].
    pose proof (fixed_part _ _ Hm3) as Hf3. unfold module_part in Hm3. injection Hm3 as Em3 _ _ _ _.
    apply bind_ok in H as (z1 & s4 & H4 & H). apply on_module_ok in H4. subst s4. apply on_module_ok in H. subst s'.
    split; [exact (adv_trans 0 0 _ _ _ Ha Ha3)|etransitivity; [exact Hf3|exact Hf2]|intros Hs; unfold globals_ok; cbn; rewrite Em3; apply Hgl, Hs|].
    eexists. split; [cbn; rewrite Em3; apply Hi2|]. reflexivity.
  - apply bind_ok in H as (t & s3 & H3 & H). destruct (memory_type_quiet _options _ _ _ Hg2 H3) as [Ha3 Hm3].
    pose proof (fixed_part _ _ Hm3) as Hf3. unfold module_part in Hm3. injection Hm3 as Em3 _ _ _ _.
    apply bind_ok in H as (z1 & s4 & H4 & H). apply on_module_ok in H4. subst s4. apply on_module_ok in H. subst s'.
    split; [exact (adv_trans 0 0 _ _ _ Ha Ha3)|etransitivity; [exact Hf3|exact Hf2]|intros Hs; unfold globals_ok; cbn; rewrite Em3; apply Hgl, Hs|].
    eexists. split; [cbn; rewrite Em3; apply Hi2|]. reflexivity.
  - apply bind_ok in H as (ct & s3 & H3 & H). destruct (type_byte_quiet _ _ _ _ _ Hg2 H3) as [Ha3 Hm3]. pose proof (adv_good 0 _ _ Hg2 ltac:(lia) Ha3) as Hg3.
    apply type_byte_yields in H3 as [Hct _]; [|exact Hg2]. apply bind_ok in H as (mu & s4 & H4 & H). destruct (read_u1_quiet _ _ _ Hg3 H4) as [Ha4 Hm4].
    rewrite Hm3 in Hm4. pose proof (fixed_part _ _ Hm4) as Hf3. unfold module_part in Hm4. injection Hm4 as Em3 _ _ _ _.
    apply bind_ok in H as (z1 & s5 & H5 & H). apply on_module_ok in H5. subst s5. apply on_module_ok in H. subst s'.
    split; [exact (adv_trans 0 0 _ _ _ Ha (adv_trans 0 0 _ _ _ Ha3 Ha4))|etransitivity; [exact Hf3|exact Hf2]| |].
    + intros Hs. unfold globals_ok. cbn. rewrite Em3. apply Forall_app. split; [apply Hgl, Hs|]. constructor; [|constructor]. cbn. now apply (param_valtype _options).
    + eexists. split; [cbn; rewrite Em3; apply Hi2|]. reflexivity.
  - do 6 psteps H. apply on_module_ok in H. subst s'.
    assert (Hq : quietly s2 st2) by (apply (quietly_trans _ st1); eapply (quiet_on_ptr _ (varuint_any_reads 32)); eassumption).
    destruct Hq as [Ha3 Hm3]. pose proof (fixed_part _ _ Hm3) as Hf3. unfold module_part in Hm3. injection Hm3 as Em3 _ _ _ _.
    split; [exact (adv_trans 0 0 _ _ _ Ha Ha3)|etransitivity; [exact Hf3|exact Hf2]|intros Hs; unfold globals_ok; cbn; rewrite Em3; apply Hgl, Hs|].
    eexists. split; [cbn; rewrite Em3; cbn; rewrite Em; reflexivity|]. reflexivity.
Qed.

Lemma imports_loop n : forall i s u s', 0 <= i -> good (p_code s) -> for_each n i (parse_import_entry _options) s = Ok u s' ->
  adv 0 (p_code s) (p_code s') /\ fixed s' = fixed s /\ (globals_ok s -> globals_ok s') /\ length (m_imports (p_mod s')) = length (m_imports (p_mod s)) /\
  forall j e, m_imports (p_mod s') !! j = Some e ->
    if (i <=? Z.of_nat j) && (Z.of_nat j <? i + Z.of_nat n) then check_import (p_mod s) e = true else m_imports (p_mod s) !! j = Some e.
Proof.
  induction n as [|n IH]; intros i s u s' Hi Hg H; cbn [for_each] in H.
  - apply ret_ok in H as [_ ->]. split; [now apply adv_refl|]. repeat (split; [auto|]). intros j e Hj.
    destruct (Z.leb_spec i (Z.of_nat j)), (Z.ltb_spec (Z.of_nat j) (i + Z.of_nat 0)); cbn [andb]; try exact Hj. lia.
  - apply bind_ok in H as (y & s1 & H1 & H). apply import_entry_step in H1 as [Ha Hf Hgl (e & Ei & He)]; [|exact Hg].
    apply IH in H as (Ha2 & Hf2 & Hgl2 & Hl & Hj); [|lia|exact (adv_good 0 _ _ Hg ltac:(lia) Ha)]. split; [exact (adv_trans 0 0 _ _ _ Ha Ha2)|].
    split; [congruence|]. split; [auto|]. assert (Ec : check_import (p_mod s1) = check_import (p_mod s)) by (apply check_import_types; unfold fixed in Hf; congruence).
    rewrite Ei in Hl, Hj. rewrite Ec in Hj. unfold vec_update in Hl, Hj. destruct (Z.ltb_spec i 0); [lia|]. split; [rewrite Hl; apply length_insert|].
    intros j e1 H1. specialize (Hj j e1 H1).
    destruct (Z.leb_spec (i + 1) (Z.of_nat j)), (Z.leb_spec i (Z.of_nat j)), (Z.ltb_spec (Z.of_nat j) (i + 1 + Z.of_nat n)), (Z.ltb_spec (Z.of_nat j) (i + Z.of_nat (S n)));
      cbn [andb] in *; try lia; try exact Hj; try (rewrite list_lookup_insert_ne in Hj by lia; exact Hj).
    apply list_lookup_insert_Some in Hj as [(_ & <- & _)|[Hne _]]; [exact He|lia].
Qed.
Lemma import_section_parsed h s u s' : h < 2 -> good (p_code s) -> parsed h s -> parse_import_section _options s = Ok u s' ->
  adv 0 (p_code s) (p_code s') /\ parsed 2 s'.
Proof.
  intros Hh Hg Hp H. unfold parse_import_section in H. apply bind_ok in H as (c & s1 & H1 & H). pose proof (read_count_range _ _ _ _ Hg H1) as Hc.
  destruct (read_count_quiet _ _ _ _ Hg H1) as [Ha Hm]. pose proof (adv_good 0 _ _ Hg ltac:(lia) Ha) as Hg1. unfold in_u in Hc.
  pose proof (parsed_part h s s1 Hm Hp) as [P1 P2 P3 P4 P5 P6 P7 _]. destruct (P7 ltac:(lia)) as [Hb Hd].
  apply bind_ok in H as (x & s2 & Hx & H). apply on_module_ok in Hx. subst s2. set (s2 := s1 <| p_mod := _ |>) in H.
  apply imports_loop in H as (Ha2 & Hf & Hgl & Hl & Hj); [|lia|exact Hg1]. split; [exact (adv_trans 0 0 _ _ _ Ha Ha2)|].
  specialize (Hgl P3). unfold fixed in Hf. injection Hf as F1 F2 F3 F4 F5 F6 F7 F8. change (p_mod s2) with (v_set imports_v (resized (v_zero imports_v) (m_imports (p_mod s1)) c) (p_mod s1)) in *.
  cbn in F1, F2, F3, F4, F5, F6, F7, F8, Hl. rewrite resized_length in Hl by lia.
  assert (Hb' : blank s') by (unfold blank in *; rewrite F4, F5, F6, F8; exact Hb).
  split; rewrite ?F1, ?F2, ?F3, ?F7; auto; [|lia]. rewrite (check_import_types _ _ F1). apply forallb_Forall, Forall_lookup_2. intros j e He.
  specialize (Hj j e He). pose proof (lookup_lt_Some _ _ _ He) as Hlt. destruct (Z.leb_spec 0 (Z.of_nat j)); [|lia].
  destruct (Z.ltb_spec (Z.of_nat j) (0 + Z.of_nat (Z.to_nat c))); [|lia]. exact Hj.
Qed.

(** *** Function bodies *)
Lemma zero_locals_some l : Forall (fun le => (0 <=? le_count le) && is_valtype (le_type le) = true) l -> exists es, zero_locals l = Some es.
Proof.
  induction 1 as [|le l Hle _ [es IH]]; [now exists []|]. cbn [zero_locals]. rewrite IH. apply andb_true_iff in Hle as [_ Ht].
  assert (Hz : exists e, zero_of (le_type le) = Some e); [|destruct Hz as [e ->]; eauto]. unfold is_valtype, is_value_byte, is_ref_byte in Ht. unfold zero_of.
  destruct (_ =? types.i32); [eauto|]. destruct (_ =? types.i64); [eauto|]. destruct (_ =? types.f32); [eauto|]. destruct (_ =? types.f64); [eauto|].
  destruct (_ =? types.v128); [eauto|]. destruct ((_ =? types.funcref) || _ || _); [eauto|discriminate].
Qed.
Lemma quietly_refl s : good (p_code s) -> quietly s s.
Proof. intros Hg. split; [now apply adv_refl|reflexivity]. Qed.
Lemma quiet_step {A} (p : M binary_parser A) s0 s a s' : SectionFrame.quiet p -> good (p_code s0) -> quietly s0 s -> p s = Ok a s' ->
  quietly s0 s' /\ good (p_code s').
Proof.
  intros Hp Hg Hq H. pose proof (quietly_trans _ _ _ Hq (Hp _ _ _ (quietly_good _ _ Hg Hq) H)) as Hq'. split; [exact Hq'|exact (quietly_good _ _ Hg Hq')].
Qed.
Lemma function_body_step idx s fb s' : good (p_code s) -> parse_function_body _options idx s = Ok fb s' ->
  adv 0 (p_code s) (p_code s') /\ exists b, pb_fb b = fb /\ body_wf b = true /\
    module_part s' = (p_mod s, p_type_aliases s, p_function_bodies s ++ [b], p_datacount s, p_maximum_stack s).
Proof.
  intros Hg H. unfold parse_function_body in H.
  apply bind_ok in H as (sz & s1 & H1 & H). destruct (quiet_step _ s s _ _ (quiet_on_ptr _ (varuint_any_reads 32)) Hg (quietly_refl s Hg) H1) as [Q1 G1].
  apply bind_ok in H as (x1 & s2 & Hx & H). apply parse_check_Ok in Hx as [_ ->]. apply bind_ok in H as (before & s2 & Hx & H). apply gets_ok in Hx as [-> ->].
  apply bind_ok in H as (cnt & s2 & H2 & H). destruct (quiet_step _ s s1 _ _ (quiet_on_ptr _ (varuint_any_reads 32)) Hg Q1 H2) as [Q2 G2].
  apply bind_ok in H as (x2 & s3 & Hx & H). apply parse_check_Ok in Hx as [_ ->]. apply bind_ok in H as (m & s3 & Hx & H). apply gets_ok in Hx as [-> ->].
  apply bind_ok in H as (x3 & s3 & Hx & H). apply parse_check_Ok in Hx as [_ ->]. apply bind_ok in H as (t & s3 & Hx & H). apply vec_index_inv in Hx as [_ ->].
  apply bind_ok in H as (ft & s3 & Hx & H). apply vec_at_inv in Hx as [_ ->].
  apply bind_ok in H as (ls & s3 & H3 & H). destruct (quiet_step _ s s2 _ _ (read_list_quiet _ _ (local_quiet _options)) Hg Q2 H3) as [Q3 G3].
  apply (read_list_yields _ _ _ (local_quiet _options) (local_yields _options)) in H3 as [Hls _]; [|exact G2].
  apply bind_ok in H as (after & s4 & Hx & H). apply gets_ok in Hx as [-> ->].
  set (size := wrap 32 _) in H. assert (Hsz : in_u 32 size) by (apply wrap_range; lia).
  apply scoped_shrink_ok in H as (Hl & s4 & H & ->). apply bind_ok in H as (x4 & s5 & Hx & H). apply modify_ok in Hx. subst s5.
  set (b := {| pb_bytes := _; pb_fb := _ |}) in H. set (s5 := (inside size s3) <| p_function_bodies := _ |>) in H.
  assert (Hq : SectionFrame.quiet (on_ptr (advance (wrap 32 (size - 1))) ;;; let* y := look_byte in
    parse_check (y =? 0x0B) "failed parsing function body, expected 'end'" ;;; skip_byte ;;; ret (pb_fb b))).
  { quiet_head; [apply quiet_on_ptr, advance_reads; apply wrap_range; lia|]. quiet. }
  assert (G5 : good (p_code s5)) by exact (inside_good size s3 ltac:(unfold in_u in Hsz; lia) Hl G3).
  assert (Hr : pb_fb b = fb).
  { repeat (apply bind_ok in H as (? & ? & _ & H)). now apply ret_ok in H as [-> _]. }
  apply (Hq s5 fb s4 G5) in H as [Ha5 Hm5]. split.
  - destruct Q3 as [Ha3 _]. apply (adv_trans 0 0 _ _ _ Ha3). exact (outside_adv size s3 s4 G3 Hl Ha5).
  - exists b. split; [exact Hr|]. split.
    + unfold body_wf. rewrite !andb_true_iff. split; [split|].
      * apply forallb_Forall. destruct G3 as [_ G3]. assert (Hb : Forall (in_u 8) (pb_bytes b)) by now apply Forall_take, Forall_drop.
        eapply List.Forall_impl; [|exact Hb]. intros x [Hx1 Hx2]. apply andb_true_iff. split; [now apply Z.leb_le|now apply Z.ltb_lt].
      * now apply forallb_Forall.
      * destruct (zero_locals_some ls Hls) as [es Ez]. cbn [pb_fb fb_locals b]. now rewrite Ez.
    + change (module_part (outside s3 s4)) with (module_part s4). rewrite Hm5. destruct Q3 as [_ Hm3]. unfold module_part in Hm3 |- *.
      injection Hm3 as E1 E2 E3 E4 E5. cbn. now rewrite E1, E2, E3, E4, E5.
Qed.

Lemma insert_split {A} (l : list A) i n a : (i < length l)%nat -> take (S i) (<[i := a]> l) = take i l ++ [a] /\ drop (S i + n) (<[i := a]> l) = drop (S i + n) l.
Proof.
  intros Hi. split; [|apply drop_insert_lt; lia]. rewrite (take_S_r _ i a) by (apply list_lookup_insert_eq; lia). f_equal. apply take_insert_ge. lia.
Qed.
Lemma bodies_loop n : forall i s u s', good (p_code s) -> (i + n <= length (m_code (p_mod s)))%nat ->
  for_each n (Z.of_nat i) (fun i => let* e := parse_function_body _options i in v_put code_v i e) s = Ok u s' ->
  adv 0 (p_code s) (p_code s') /\ exists bs, length bs = n /\ forallb body_wf bs = true /\
    module_part s' = (v_set code_v (take i (m_code (p_mod s)) ++ map pb_fb bs ++ drop (i + n) (m_code (p_mod s))) (p_mod s),
                      p_type_aliases s, p_function_bodies s ++ bs, p_datacount s, p_maximum_stack s).
Proof.
  induction n as [|n IH]; intros i s u s' Hg Hl H; cbn [for_each] in H.
  - apply ret_ok in H as [_ ->]. split; [now apply adv_refl|]. exists []. split; [reflexivity|]. split; [reflexivity|]. rewrite Nat.add_0_r. cbn [map app].
    rewrite app_nil_r, take_drop. unfold module_part. now destruct (p_mod s).
  - apply bind_ok in H as (y & s2 & H1 & H). apply bind_ok in H1 as (e & s1 & H1 & H2). apply on_module_ok in H2. subst s2.
    apply function_body_step in H1 as [Ha (b & <- & Hb & Hm)]; [|exact Hg]. unfold module_part in Hm. injection Hm as E1 E2 E3 E4 E5.
    replace (Z.of_nat i + 1) with (Z.of_nat (S i)) in H by lia. pose proof (adv_good 0 _ _ Hg ltac:(lia) Ha) as Hg1.
    unfold vec_update in H. destruct (Z.ltb_spec (Z.of_nat i) 0); [lia|]. rewrite Nat2Z.id, E1 in H. apply IH in H as [Ha2 (bs & Hbs & Hwf & Hm)]; [|exact Hg1|cbn; rewrite length_insert; lia].
    split; [exact (adv_trans 0 0 _ _ _ Ha Ha2)|]. exists (b :: bs). split; [cbn; lia|]. split; [cbn; now rewrite Hb|]. rewrite Hm. cbn [p_mod p_type_aliases p_function_bodies p_datacount p_maximum_stack].
    destruct (insert_split (m_code (p_mod s)) i n (pb_fb b) ltac:(lia)) as [T1 T2]. cbn. cbn [Nat.add] in T2. rewrite E2, E3, E4, E5, T1, T2, <- !app_assoc, Nat.add_succ_r. reflexivity.
Qed.

Lemma write_code_out_links m aliases datacount source_bytes bodies m' ms w :
  write_code_out junk capacity m aliases datacount _options source_bytes bodies = Ok (m', ms) w -> exists w0 fbs, m' = link_code m w0 fbs.
Proof.
  unfold write_code_out. destruct (write_functions _ _ _ _ _ _ _ _ _ _) as [[fbs ms0] w0|e w0|]; intros H; try discriminate. injection H as <- _ _. eauto.
Qed.
(** The state in which the code is written. *)
Record uncompiled (s : binary_parser) : Prop := {
  uc_types : forallb sig_wf (m_types (p_mod s)) = true;
  uc_imports : forallb (check_import (p_mod s)) (m_imports (p_mod s)) = true;
  uc_globals : Forall (fun g => is_valtype (content_type (gv_type g)) = true) (m_globals (p_mod s));
  uc_aliases : p_type_aliases s = [] \/ p_type_aliases s = alias_loop (m_types (p_mod s)) (m_types (p_mod s)) 0 [];
  uc_limit : m_stack_limit_is_bytes (p_mod s) = false;
  uc_bodies : forallb body_wf (p_function_bodies s) = true;
  uc_length : length (p_function_bodies s) = length (m_functions (p_mod s));
  uc_code : m_code (p_mod s) = map pb_fb (p_function_bodies s);
  uc_data : m_data (p_mod s) = [];
  uc_bytecode : bytecode (p_mod s) = [] }.
Lemma write_code_parsed s u s' : uncompiled s -> write_code junk capacity _options s = Ok u s' ->
  p_code s' = p_code s /\ (avail (p_code s) = 0 -> parsed 12 s').
Proof.
  intros [H1 H2 H3 H4 H5 H6 H7 H8 H9 H10] H. unfold write_code in H.
  destruct (write_code_out _ _ _ _ _ _ _ _) as [[m' ms] w|e w|] eqn:Ew; [|discriminate|discriminate]. injection H as _ <-. split; [reflexivity|].
  intros Hav. rewrite Hav in Ew. destruct (write_code_out_links _ _ _ _ _ _ _ _ Ew) as (w0 & fbs & Em).
  set (s' := s <| p_mod := m' |> <| p_maximum_stack := ms |>).
  assert (Es : source_module s' = p_mod s).
  { unfold source_module. cbn. rewrite Em, <- H8, <- H9, <- H10. cbn. now destruct (p_mod s). }
  assert (Ed : m' <| m_data := [] |> = m') by (rewrite Em; unfold link_code; cbn; now rewrite H9).
  split; [cbn; rewrite Em; assumption..|lia|lia|]. right. split; [exact H6|]. split; [cbn; rewrite Em; exact H7|]. exists w.
  change (write_code_out junk capacity (source_module s') (p_type_aliases s) (p_datacount s) _options 0 (p_function_bodies s) = Ok (m' <| m_data := [] |>, ms) w).
  rewrite Es, Ed. exact Ew.
Qed.
Lemma code_section_parsed h s u s' : h < 12 -> good (p_code s) -> parsed h s -> parse_code_section junk capacity _options s = Ok u s' ->
  adv 0 (p_code s) (p_code s') /\ (avail (p_code s') = 0 -> parsed 12 s').
Proof.
  intros Hh Hg Hp H. unfold parse_code_section in H. apply bind_ok in H as (x & s4 & Hx & H). unfold parse_section_impl in Hx.
  apply bind_ok in Hx as (c & s1 & H1 & Hx). pose proof (read_count_range _ _ _ _ Hg H1) as Hc. unfold in_u in Hc.
  destruct (read_count_quiet _ _ _ _ Hg H1) as [Ha Hm]. pose proof (adv_good 0 _ _ Hg ltac:(lia) Ha) as Hg1.
  pose proof (parsed_part h s s1 Hm Hp) as [P1 P2 P3 P4 P5 P6 P7 _]. destruct (P7 Hh) as [(B1 & B2 & B3 & B4) Hd].
  apply bind_ok in Hx as (y & s2 & Hy & Hx). apply on_module_ok in Hy. subst s2. set (s2 := s1 <| p_mod := _ |>) in Hx.
  assert (Hl2 : length (m_code (p_mod s2)) = Z.to_nat c) by (apply resized_length; lia).
  apply (bodies_loop (Z.to_nat c) 0 s2) in Hx as [Ha2 (bs & Hbs & Hwf & Hm4)]; [|exact Hg1|lia].
  rewrite Nat.add_0_l, (drop_ge _ (Z.to_nat c)), app_nil_r in Hm4 by lia. cbn [take app] in Hm4. unfold module_part in Hm4. injection Hm4 as E1 E2 E3 E4 E5.
  cbn in E2, E3, E4, E5. rewrite B2 in E3. cbn [app] in E3. rewrite B4 in E5.
  apply bind_ok in H as (m & s5 & H5 & H). apply gets_ok in H5 as [-> ->]. apply bind_ok in H as (z & s5 & H5 & H). apply parse_check_Ok in H5 as [Hlen ->].
  apply bind_ok in H as (z1 & s5 & H5 & H). apply modify_ok in H5. subst s5. set (s5 := s4 <| p_branch_hints := _ |> <| p_branch_hints_temp := _ |>) in H.
  apply Z.eqb_eq in Hlen. rewrite E1 in Hlen. unfold vec_size in Hlen. cbn [v_set code_v m_code m_functions] in Hlen. rewrite length_map in Hlen.
  apply write_code_parsed in H as [Ec H].
  - rewrite Ec. split; [exact (adv_trans 0 0 _ _ _ Ha Ha2)|exact H].
  - split; cbn; rewrite ?E1, ?E2, ?E3; cbn; auto. lia.
Qed.

Lemma parsed_later h h' s : h <= h' -> parsed h s -> parsed h' s.
Proof. intros Hh [H1 H2 H3 H4 H5 H6 H7 H8]. split; auto; intros Hx; [apply H6|apply H7]; lia. Qed.
Lemma data_section_parsed h s u s' : good (p_code s) -> parsed h s -> parse_data_section _options s = Ok u s' ->
  adv 0 (p_code s) (p_code s') /\ parsed 13 s'.
Proof.
  intros Hg [H1 H2 H3 H4 H5 _ _ H8] H. unfold parse_data_section in H. apply bind_ok in H as (x & s1 & Hx & H).
  apply (section_impl_ok data_v data_lens _ all) in Hx as [Ha (l & El & _)]; [|intros i; quiet|intros i; apply yields_all|exact Hg].
  assert (Es : s' = s1).
  { apply bind_ok in H as (d & s2 & Hd & H). apply gets_ok in Hd as [-> ->]. apply bind_ok in H as (m & s2 & Hm & H). apply gets_ok in Hm as [-> ->].
    destruct (p_datacount s1); [now apply parse_check_Ok in H as [_ ->]|now apply ret_ok in H as [_ ->]]. }
  subst s'. split; [exact Ha|]. unfold module_part, part_with in El. injection El as E1 E2 E3 E4 E5.
  split; rewrite ?E1, ?E2; auto; [lia|lia|]. destruct H8 as [H8|H8]; [left|right].
  - unfold blank in *. rewrite E1, E3, E5. exact H8.
  - unfold written, source_module in *. rewrite E1, E2, E3, E4, E5. exact H8.
Qed.

(** *** All sections *)
Lemma section_parsed id o h s u s' : vec_lookup section_order id = Some o -> id = 0 \/ h < o -> good (p_code s) -> parsed h s ->
  parse_section junk capacity _options id s = Ok u s' ->
  adv 0 (p_code s) (p_code s') /\ (avail (p_code s') = 0 -> parsed (Z.max h o) s').
Proof.
  intros Ho Hord Hg Hp H.
  assert (Hid : exists k, (k < 14)%nat /\ id = Z.of_nat k).
  { unfold vec_lookup in Ho. destruct (Z.ltb_spec id 0); [discriminate|]. exists (Z.to_nat id). split; [|lia].
    apply lookup_lt_Some in Ho. exact Ho. }
  destruct Hid as (k & Hk & ->). unfold parse_section in H.
  assert (Hseq : forall p q h', (p ;;; q) s = Ok u s' -> (forall s1, p s = Ok tt s1 -> adv 0 (p_code s) (p_code s1) /\ parsed h' s1) ->
    (forall s1, good (p_code s1) -> parsed h' s1 -> q s1 = Ok u s' -> adv 0 (p_code s1) (p_code s') /\ parsed o s') ->
    adv 0 (p_code s) (p_code s') /\ parsed o s').
  { intros p q h' Hpq H1 H2. apply bind_ok in Hpq as ([] & s1 & Hs1 & Hpq). destruct (H1 _ Hs1) as [Ha1 Hp1].
    destruct (H2 _ (adv_good 0 _ _ Hg ltac:(lia) Ha1) Hp1 Hpq) as [Ha2 Hp2]. split; [exact (adv_trans 0 0 _ _ _ Ha1 Ha2)|exact Hp2]. }
  assert (Hkeep : adv 0 (p_code s) (p_code s') /\ parsed o s' -> adv 0 (p_code s) (p_code s') /\ (avail (p_code s') = 0 -> parsed (Z.max h o) s')).
  { intros [Ha Hx]. split; [exact Ha|]. intros _. apply (parsed_later o); [lia|exact Hx]. }
  do 14 try (destruct k as [|k]; [vm_compute in Ho; injection Ho as <-; cbn [Z.of_nat Pos.of_succ_nat Pos.succ Z.eqb Pos.eqb] in H|]); [..|lia].
  - apply custom_quiet in H as [Ha Hm]; [|exact Hg]. split; [exact Ha|]. intros _. apply (parsed_part _ s _ Hm). apply (parsed_later h); [lia|exact Hp].
  - apply Hkeep. apply (type_section_parsed h s u s'); auto; lia.
  - apply Hkeep. apply (import_section_parsed h s u s'); auto; lia.
  - apply Hkeep. apply (Hseq _ _ 3 H).
    + intros s1. apply (function_section_parsed h); auto; lia.
    + intros s1 Hg1 Hp1. apply (normalize_parsed 3); auto; lia.
  - apply Hkeep. apply (table_section_parsed h 4 s s' u); auto; lia.
  - apply Hkeep. apply (memory_section_parsed h 5 s s' u); auto; lia.
  - apply Hkeep. apply (global_section_parsed h 7 s s' u); auto; lia.
  - apply Hkeep. apply (Hseq _ _ 8 H).
    + intros s1. apply (export_section_parsed h); auto; lia.
    + intros s1 Hg1 Hp1 H1. apply validate_exports_quiet in H1 as [Ha Hm]; [|exact Hg1]. split; [exact Ha|]. exact (parsed_part _ _ _ Hm Hp1).
  - apply Hkeep. apply (start_section_parsed h 9 s s' u); auto; lia.
  - apply Hkeep. apply bind_ok in H as (f & s1 & Hf & H). apply gets_ok in Hf as [-> ->]. apply bind_ok in H as (m & s1 & Hm & H). apply gets_ok in Hm as [-> ->].
    apply (Hseq _ _ (Z.max h 1) H).
    + intros s1. destruct (_ && _); [apply (normalize_parsed h); auto; lia|]. intros Hr. apply ret_ok in Hr as [_ ->].
      split; [now apply adv_refl|]. apply (parsed_later h); [lia|exact Hp].
    + intros s1 Hg1 Hp1. apply (element_section_parsed (Z.max h 1)); auto; lia.
  - destruct (code_section_parsed h s u s' ltac:(lia) Hg Hp H) as [Ha Hx]. split; [exact Ha|]. intros Hav. apply (parsed_later 12); [lia|auto].
  - apply Hkeep. apply (data_section_parsed h s u s'); auto; lia.
  - apply Hkeep. apply (data_count_parsed h 11 s s' u); auto; lia.
  - apply Hkeep. apply (tag_section_parsed h 6 s s' u); auto; lia.
Qed.

(** *** The loop over the sections *)
Lemma next_section_parsed h s h' s' : 0 <= h -> good (p_code s) -> parsed h s -> parse_next_section junk capacity _options h s = Ok h' s' ->
  adv 1 (p_code s) (p_code s') /\ parsed h' s' /\ 0 <= h'.
Proof.
  intros Hh Hg Hp H. unfold parse_next_section in H. apply bind_ok in H as (id & s1 & H1 & H). apply on_ptr_ok in H1 as (g & H1 & ->).
  destruct (next_adv _ _ _ Hg H1) as [Ha _]. set (s1 := s <| p_code := g |>) in H. assert (Hg1 : good (p_code s1)) by exact (adv_good 1 _ _ Hg ltac:(lia) Ha).
  apply bind_ok in H as (len & s2 & H2 & H). pose proof (read_u32_range _ _ _ Hg1 H2) as [Hlen _].
  destruct (quiet_on_ptr _ (varuint_any_reads 32) _ _ _ Hg1 H2) as [Ha2 Hm]. pose proof (adv_good 0 _ _ Hg1 ltac:(lia) Ha2) as Hg2.
  apply bind_ok in H as (x & s3 & Hx & H). apply parse_check_Ok in Hx as [_ ->]. apply bind_ok in H as (o & s3 & Hx & H). apply vec_index_inv in Hx as [Ho ->].
  apply bind_ok in H as (y & s3 & Hx & H). apply parse_check_Ok in Hx as [Hord ->]. apply bind_ok in H as (z & s3 & Hx & H). apply ret_ok in H as [-> ->].
  apply scoped_consume_ok in Hx as (Hl & s4 & Hx & Hend & ->). assert (Hord' : id = 0 \/ h < o) by (apply orb_true_iff in Hord; rewrite Z.eqb_eq, Z.ltb_lt in Hord; exact Hord).
  apply (section_parsed id o h) in Hx as [Ha4 Hx]; [|exact Ho|exact Hord'|exact (inside_good len s2 Hlen Hl Hg2)|].
  - split; [exact (adv_trans 1 0 _ _ _ Ha (adv_trans 0 0 _ _ _ Ha2 (outside_adv len s2 s4 Hg2 Hl Ha4)))|]. split; [|lia].
    apply (parsed_part _ s4); [reflexivity|]. apply Hx. unfold avail. rewrite Hend, Z.sub_diag. reflexivity.
  - exact (parsed_part h s (inside len s2) Hm Hp).
Qed.
Lemma sections_parsed sz fuel : forall h s u s', 0 <= h -> good (p_code s) -> parsed h s -> parse_sections junk capacity _options fuel sz h s = Ok u s' ->
  good (p_code s') /\ exists h', parsed h' s'.
Proof.
  induction fuel as [|n IH]; intros h s u s' Hh Hg Hp H; cbn [parse_sections] in H; [discriminate|].
  apply bind_ok in H as (x & s1 & Hx & H). apply get_ok in Hx as [-> ->]. destruct (_ =? _).
  - apply ret_ok in H as [_ ->]. eauto.
  - apply bind_ok in H as (h1 & s2 & H1 & H). apply next_section_parsed in H1 as (Ha & Hp1 & Hh1); [|exact Hh|exact Hg|exact Hp].
    exact (IH _ _ _ _ Hh1 (adv_good 1 _ _ Hg ltac:(lia) Ha) Hp1 H).
Qed.
(** The loop ends, whatever its fuel above the number of bytes. *)
Definition more_sections (sz : Z) (s : binary_parser) : bool := negb (offset (p_code s) =? sz).
Lemma sections_end sz h s : 0 <= h -> good (p_code s) -> parsed h s ->
  exists k o, Z.of_nat k <= bounds (p_code s) - offset (p_code s) /\
    loop_ends (more_sections sz) (parse_next_section junk capacity _options) k h s o /\
    forall n, (k < n)%nat -> parse_sections junk capacity _options n sz h s = o.
Proof.
  intros Hh Hg Hp. apply (loop_ends_fuel (more_sections sz) _ (fun n h => parse_sections junk capacity _options n sz h)
    (fun h s => 0 <= h /\ good (p_code s) /\ parsed h s) (fun s => bounds (p_code s) - offset (p_code s)));
    [|..|auto|destruct Hg as [[[? ?] _] _]; unfold bounds, offset; lia].
  - intros n a s1. cbn [parse_sections]. unfold more_sections, bind at 1, get. now destruct (_ =? _).
  - intros h1 s1 h2 s2 (H1 & H2 & H3) _ E. apply next_section_parsed in E as (Ha & Hp1 & Hh1); auto. pose proof Ha as (_ & Eb & Hr).
    split; [split; [exact Hh1|split; [exact (adv_good 1 _ _ H2 ltac:(lia) Ha)|exact Hp1]]|]. unfold bounds, offset in *. lia.
Qed.

(** *** Modules *)
Lemma start_parsed bytes : parsed 0 (start_parser bytes).
Proof. split; cbn; auto; try (constructor; fail); [intros _; split; [repeat split|reflexivity]|left; repeat split]. Qed.
Lemma start_good bytes : Forall (in_u 8) bytes -> vec_size bytes < 2 ^ 63 -> good (p_code (start_parser bytes)).
Proof. intros Hb Hl. split; [|exact Hb]. unfold wf, start_parser, GuardedPtr.make, vec_size in *. cbn [p_code gp_raw gp_bnds gp_data]. lia. Qed.
Lemma raw_quiet n : SectionFrame.quiet (on_ptr (Parser.parse_raw n)).
Proof. apply quiet_on_ptr. intros g a g' Hg H. apply raw_adv in H as [Ha _]; [|exact Hg]. apply (adv_weaken (Z.of_nat n)); [lia|exact Ha]. Qed.
Lemma wasm_parsed bytes s : Forall (in_u 8) bytes -> vec_size bytes < 2 ^ 63 -> parse_wasm junk capacity _options bytes = Ok tt s ->
  (exists h, parsed h s) /\ length (m_code (p_mod s)) = length (m_functions (p_mod s)).
Proof.
  intros Hb Hl H. unfold parse_wasm, parse_module in H. pose proof (start_good bytes Hb Hl) as Hg. pose proof (start_parsed bytes) as Hp.
  apply bind_ok in H as (mg & s1 & H1 & H). destruct (raw_quiet 4 _ _ _ Hg H1) as [Ha1 Hm1]. pose proof (adv_good 0 _ _ Hg ltac:(lia) Ha1) as Hg1.
  apply bind_ok in H as (x & s2 & Hx & H). apply parse_check_Ok in Hx as [_ ->].
  apply bind_ok in H as (v & s2 & H2 & H). destruct (raw_quiet 4 _ _ _ Hg1 H2) as [Ha2 Hm2]. pose proof (adv_good 0 _ _ Hg1 ltac:(lia) Ha2) as Hg2.
  apply bind_ok in H as (y & s3 & Hx & H). apply parse_check_Ok in Hx as [_ ->].
  apply bind_ok in H as (z & s3 & H3 & H). apply (sections_parsed _ _ 0) in H3 as [_ [h Hp3]]; [|lia|exact Hg2|exact (parsed_part _ _ _ Hm2 (parsed_part _ _ _ Hm1 Hp))].
  apply bind_ok in H as (t & s4 & Hx & H). apply get_ok in Hx as [-> ->]. apply bind_ok in H as (y1 & s4 & Hx & H). apply parse_check_Ok in Hx as [Hlen ->].
  assert (Hs : s = s3 <| p_mod := (p_mod s3) <| m_stack_limit_is_bytes := false |> |>).
  { apply bind_ok in H as (y2 & s4 & Hx & H). apply on_module_ok in H. subst s.
    destruct (p_datacount s3); [now apply parse_check_Ok in Hx as [_ ->]|now apply ret_ok in Hx as [_ ->]]. }
  assert (Hm : module_part s = module_part s3).
  { rewrite Hs. unfold module_part. cbn. rewrite <- (pa_limit _ _ Hp3). now destruct (p_mod s3). }
  apply Z.eqb_eq in Hlen. unfold vec_size in Hlen. split; [exists h; exact (parsed_part _ s3 s Hm Hp3)|]. unfold module_part in Hm. injection Hm as -> _ _ _ _. lia.
Qed.
End Invariant.
