(* ===== verification/Validated.v ===== *)
(** * From bytes to execution

    The parser of modules, the validator, the bitcode writer and the interpreter
    together: a module of supported instructions that [parse_module] accepts runs
    without undefined behaviour and, with metering on, ends; and parsing ends
    whatever the bytes. *)
From Stdlib Require Import ZArith Lia Bool String.
From stdpp Require Import base list numbers decidable option gmap.
From S2P Require Import Prelude Leb128 Types InitExpr ConstExpr ParseInit Stack Memory Numeric Softfloat Context Operands Interp Handlers Demo Invariants.
From S2P Require Import TypedOps TypedVec Typing Control Verifier Soundness Exceptions Budget Termination.
From S2P Require Import Writer Validator ParseVec ParseBody Sections TrackerSpec Emission BodySound ScopeSound BranchSound LoopSound ParserFrame FunctionSound CompileSound.
From S2P Require Import SectionFrame SectionSound.
Import GuardedPtr Opcode BitcodeWriter.

(** ** A module with a loop and a [br_table]

    [f n] is the factorial of [n], in a loop; [g n] is [f n] but for [n = 0]. *)
Definition wasm_section (id : Z) (content : list Z) : list Z := id :: vec_size content :: content.
Definition wasm_body (locals code : list Z) : list Z := vec_size (locals ++ code) :: locals ++ code.
Definition src_f : list Z :=
  [0x41; 0x01; 0x21; 0x01; 0x02; 0x40; 0x20; 0x00; 0x45; 0x0D; 0x00; 0x03; 0x40; 0x20; 0x01; 0x20; 0x00; 0x6C; 0x21; 0x01;
   0x20; 0x00; 0x41; 0x01; 0x6B; 0x22; 0x00; 0x0D; 0x00; 0x0B; 0x0B; 0x20; 0x01; 0x0B].
Definition src_g : list Z :=
  [0x02; 0x40; 0x02; 0x40; 0x20; 0x00; 0x0E; 0x01; 0x00; 0x01; 0x0B; 0x41; 0x09; 0x0F; 0x0B; 0x20; 0x00; 0x10; 0x00; 0x0B].
Definition src_wasm : list Z :=
  [0x00; 0x61; 0x73; 0x6D; 1; 0; 0; 0] ++ wasm_section 1 [1; 0x60; 1; 0x7F; 1; 0x7F] ++ wasm_section 3 [2; 0; 0] ++ wasm_section 5 [1; 1; 1; 1] ++
  wasm_section 7 [2; 1; 0x66; 0; 0; 1; 0x67; 0; 1] ++ wasm_section 10 (2 :: wasm_body [1; 1; 0x7F] src_f ++ wasm_body [0] src_g).
Definition src_state : binary_parser := Eval vm_compute in
  match parse_wasm error_ 1000 default_options src_wasm with Ok _ s => s | _ => start_parser [] end.
Definition out_module : module := Eval vm_compute in p_mod src_state.
Definition out_ctx : ctx unit := Eval vm_compute in
  let c := end_state (reset (fresh_ctx out_module)) (fresh_ctx out_module) in
  c <| _base := set_gas_budget 200 (_base c) |>.

Example out_stack : p_maximum_stack src_state = 3.
Proof. vm_compute. reflexivity. Qed.
(** The function exported as "g". *)
Example out_runs : match execute_named (run 2000) [0x67] [I32 5] out_ctx, execute_named (run 2000) [0x67] [I32 0] out_ctx with
  | Ok r _, Ok r' _ => (r, r') = (Some (I32 120), Some (I32 9)) | _, _ => False end.
Proof. vm_compute. reflexivity. Qed.

(** ** Theorems *)
Section Validated.
Context (junk : opcode) (capacity : Z) (_options : Options).

(** What the theorems take of a module: the parser accepts its bytes, ending in
    the state [s]; its memory, if it has one, has 32-bit addresses; it has at most
    2^16 types and tables; and no function type has more than [P] parameters. *)
Record accepted (bytes : list Z) (P : Z) (s : binary_parser) : Prop := {
  ac_bytes : Forall (in_u 8) bytes;
  ac_size : vec_size bytes < 2 ^ 63;
  ac_capacity : capacity < 2 ^ 32;
  ac_parsed : parse_wasm junk capacity _options bytes = Ok tt s;
  ac_memory : mem_addr_type (p_mod s) = types.i32;
  ac_types : vec_size (m_types (p_mod s)) <= 2 ^ 16;
  ac_tables : vec_size (m_tables (p_mod s)) <= 2 ^ 16;
  ac_params : forallb (fun t => vec_size (param_types t) <=? P) (m_types (p_mod s)) = true }.

(** The bodies keep to the instructions that [code_supported] admits: no exception
    handling, no tail calls, no bulk memory, table access or segments (the prefix
    0xFC from 8 on, [table.get] and [table.set]), no
    [br_table] over labels of different types, no [select] with an invalid type
    byte, none of the five vector instructions that can overflow and neither of
    the two atomic loads with the wrong type. *)
Definition supported_code (s : binary_parser) : Prop :=
  code_supported junk capacity (source_module s) (p_type_aliases s) (p_datacount s) _options 0 (p_function_bodies s) = true.

(** The sections that are parsed before the code are what its validation relies
    on. *)
Lemma parsed_module_wf h s : parsed junk capacity _options h s -> mem_addr_type (p_mod s) = types.i32 -> vec_size (m_types (p_mod s)) <= 2 ^ 16 ->
  vec_size (m_tables (p_mod s)) <= 2 ^ 16 -> module_wf (source_module s) (p_type_aliases s) = true.
Proof.
  intros [H1 H2 H3 H4 _ _ _ _] Hm Ht Htab. unfold module_wf. rewrite !andb_true_iff, !Z.leb_le, Z.eqb_eq.
  split; [|exact H2]. split; [|]. { repeat split; [exact H1|now apply forallb_Forall|exact Hm|exact Ht|exact Htab]. }
  destruct H4 as [->| ->]; [reflexivity|]. exact (aliases_wf (source_module s)).
Qed.
Lemma verify_data m G F d : verify (m <| m_data := d |>) G F = verify m G F.
Proof. destruct m. reflexivity. Qed.
Lemma accepted_verifies bytes P s : accepted bytes P s -> supported_code s ->
  exists G, verify (p_mod s) G (p_maximum_stack s + P) = true /\
            ranked (p_mod s) G (ranks (bytecode (p_mod s))) (vec_size (bytecode (p_mod s)) + 1) = true.
Proof.
  intros [H1 H2 H3 H4 H5 H6 H7 H8] H9. destruct (wasm_parsed junk capacity _options bytes s H1 H2 H4) as [[h Hp] Hlen].
  pose proof (parsed_module_wf h s Hp H5 H6 H7) as Hwf. destruct (pa_code _ _ _ _ _ Hp) as [(B1 & B2 & B3 & B4)|(W1 & W2 & w & W3)].
  - exists []. rewrite B1 in Hlen. apply eq_sym, length_zero_iff_nil in Hlen. unfold verify, ranked. rewrite B1, B3, Hlen. split; [|reflexivity]. cbn.
    rewrite (pa_imports _ _ _ _ _ Hp). cbn. apply forallb_Forall. pose proof (pa_types _ _ _ _ _ Hp) as Ht. apply forallb_Forall in Ht.
    eapply List.Forall_impl; [|exact Ht]. intros t Hs. now apply sig_wf_ok.
  - destruct (write_code_out_verified _ _ _ _ _ _ _ _ _ _ _ P Hwf W1 H3 W2 H8 H9 W3) as (G & Hv & Hr). exists G. rewrite verify_data in Hv. auto.
Qed.

(** C1. Parsing establishes what the interpreter relies on, for the supported
    instructions.  If [parse_module] accepts the bytes of a module with a 32-bit
    memory (or none) and at most 2^16 types and tables, and the bodies keep to
    the instructions that [supported_code] admits (no exception handling, tail calls,
    bulk memory, table access or segments, nor the cases of the findings), then
    the bytecode it has written passes the verifier: every branch, whatever the
    order in which its label was met, goes to an instruction of the same function
    that expects exactly the operands the packed depth and result count leave;
    every local, global, call and return has its declared type; every imported
    function has a type; and the operands of a function are never more than the
    recorded maximum.  Also every cycle within a function passes a metering
    instruction. *)
Theorem parsed_module_verifies bytes P s : accepted bytes P s -> supported_code s ->
  exists G, verify (p_mod s) G (p_maximum_stack s + P) = true /\
            ranked (p_mod s) G (ranks (bytecode (p_mod s))) (vec_size (bytecode (p_mod s)) + 1) = true.
Proof. apply accepted_verifies. Qed.

(** C2. A module of supported instructions that the parser accepts runs safely and
    ends.  The module is as in C1, the memory is the allocator's own, with guard
    pages, and metering is on without a handler that extends the budget.  Called
    on the module that [parse_module] has made of its bytes, [execute] returns a
    result of the declared type, in a context in which the next call is safe
    again, or stops with a trap, exhausted gas, an unresolved import or an
    exception of the host; it never reads or writes outside of the stacks, the
    code or the memory, and takes a number of instructions bounded by the gas and
    the length of the code. *)
Theorem parsed_execute_sound {SF : SoftFloat} {HF : HostFloat} {H : Type} bytes P s
    (foreign : exn -> Prop) (K i : Z) args ft (c : ctx H) n :
  accepted bytes P s -> supported_code s -> let m := p_mod s in let F := p_maximum_stack s + P in
  callable m F foreign c -> metering K (_base c) -> fn_type m i = Some ft -> get_imported_functions_size m <= i ->
  Forall Stack.elem_ok args -> gas_left (_base c) * (vec_size (bytecode m) + 2) <= Z.of_nat n ->
  match execute (run n) i args c with
  | Ok r c' => result_typed ft r /\ callable m F foreign c'
  | Throw e _ => halts foreign e
  | UB => False
  end /\ forall n', (n <= n')%nat -> execute (run n') i args c = execute (run n) i args c.
Proof.
  intros Hac Hsup m F Hcl Hmt Hft Hi Hok Hn. destruct (accepted_verifies _ _ _ Hac Hsup) as (G & Hv & Hr). fold m F in Hv. fold m in Hr.
  pose proof (execute_sound m G F foreign Hv n i args ft c Hcl Hft Hi Hok) as Hs.
  destruct (execute_ends m G F foreign Hv _ _ Hr K i args ft c n Hcl Hmt Hft Hi Hok ltac:(lia)) as [He Hmore].
  split; [|exact Hmore]. unfold ends_typed in He. destruct (execute (run n) i args c) as [r c'|e c'|]; auto.
Qed.

(** [n] rounds of the loop over the sections behind the header of a module, and
    of the loop over the body of a function. *)
Definition after_header (bytes : list Z) : binary_parser :=
  (start_parser bytes) <| p_code := set_raw 8 (p_code (start_parser bytes)) |>.
Definition section_rounds (n : nat) (bytes : list Z) : outcome binary_parser unit :=
  parse_sections junk capacity _options n (vec_size bytes) 0 (after_header bytes).
Definition body_rounds (m : module) (type_aliases : list Z) (datacount : option Z) (n : nat) (bytes : list Z) (ft : func_type)
    (lt : LocalTypes.local_types_t) (w : bitcode_writer) : outcome pstate unit :=
  body_loop m type_aliases datacount _options ft lt n (start_state bytes ft w).

(** C3. Parsing ends, whatever the bytes.  Without any bound on their rounds, the
    loop over the sections of a module and the loop over the body of a function
    end, normally or in the outcome of a round, after no more rounds than there
    are bytes: every section takes at least its id and every instruction at least
    its opcode.  The bound the definitions carry is above that and does not show:
    with it or any larger one they end the same way.  Within a round the bounded
    loops do not run out either: the skipped continuation bytes are stated here,
    names, LEB128 integers and initializers in [utf8_names_exact],
    [leb128_reads_sound] and [parse_init_expr_exact]. *)
Theorem parse_terminates bytes :
  Forall (in_u 8) bytes -> vec_size bytes < 2 ^ 32 ->
  (8 <= vec_size bytes -> exists k o, (k <= length bytes)%nat /\
     loop_ends (more_sections (vec_size bytes)) (parse_next_section junk capacity _options) k 0 (after_header bytes) o /\
     forall n, (k < n)%nat -> section_rounds n bytes = o) /\
  (forall m type_aliases datacount ft lt w, exists k o, (k <= length bytes)%nat /\
     loop_ends more_body (fun _ : unit => body_step m type_aliases datacount _options ft lt) k tt (start_state bytes ft w) o /\
     forall n, (k < n)%nat -> body_rounds m type_aliases datacount n bytes ft lt w = o) /\
  (forall s, good (code s) -> skip_continuation s <> UB) /\
  (forall s, good (p_code s) -> (let* left := remaining in skip_continued (S (Z.to_nat left))) s <> UB).
Proof.
  intros Hb Hl. unfold vec_size in Hl. split; [intros H8|split; [intros|split; [exact skip_continuation_defined|exact skip_remaining_defined]]].
  - destruct (sections_end junk capacity _options (vec_size bytes) 0 (after_header bytes)) as (k & o & Hk & Hloop); [lia| |apply (parsed_part _ _ _ _ (start_parser bytes)); [reflexivity|apply start_parsed]|].
    + split; [|exact Hb]. unfold wf, after_header, start_parser, GuardedPtr.make, set_raw, vec_size in *. cbn. lia.
    + exists k, o. split; [|exact Hloop]. revert Hk. unfold bounds, offset, after_header, start_parser, GuardedPtr.make, set_raw, vec_size. cbn. lia.
  - destruct (body_loop_ends m type_aliases datacount _options ft lt (start_state bytes ft w)) as (k & o & Hk & Hloop); unfold start_state in *; cbn [code] in *.
    + split; [|exact Hb]. unfold wf, GuardedPtr.make, vec_size. cbn [gp_raw gp_bnds gp_data]. lia.
    + exists k, o. split; [|exact Hloop]. revert Hk. unfold bounds, offset, GuardedPtr.make, vec_size. cbn [gp_raw gp_bnds]. lia.
Qed.
End Validated.

(** ** Witnesses *)
Lemma src_bytes : Forall (in_u 8) src_wasm.
Proof. repeat (constructor; [vm_compute; split; congruence|]). constructor. Qed.
Lemma src_accepted : accepted error_ 1000 default_options src_wasm 1 src_state.
Proof. split; [exact src_bytes|vm_compute; reflexivity..|vm_compute; congruence|vm_compute; congruence|vm_compute; reflexivity]. Qed.
Lemma src_supported : supported_code error_ 1000 default_options src_state.
Proof. vm_compute. reflexivity. Qed.
Lemma parsed_module_verifies_witness :
  exists G, verify out_module G 4 = true /\ ranked out_module G (ranks (bytecode out_module)) (vec_size (bytecode out_module) + 1) = true.
Proof. exact (parsed_module_verifies error_ 1000 default_options src_wasm 1 src_state src_accepted src_supported). Defined.

Lemma out_callable : callable out_module 4 (fun _ => False) out_ctx.
Proof.
  split; [|reflexivity|vm_compute; repeat split; lia|vm_compute; intuition congruence|vm_compute; intuition congruence].
  split; [|reflexivity|discriminate| |reflexivity| |discriminate].
  - split; [|vm_compute; intuition congruence..]. split; [| | | | |prot_concrete|]; vm_compute; intuition congruence.
  - split; [reflexivity|]. split; repeat constructor; vm_compute; congruence.
  - intros i ft Hi Hf. unfold fn_type in Hf. destruct (Z.ltb_spec i 0); [discriminate|].
    change (get_imported_functions_size out_module) with 0 in Hi. lia.
Qed.
Lemma out_metering : metering 100 (_base out_ctx).
Proof.
  split; [reflexivity|vm_compute; split; discriminate|vm_compute; reflexivity|].
  split; [refine (bool_decide_unpack _ _); vm_compute; exact I|].
  repeat (constructor; [vm_compute; try exact I; split; discriminate|]). constructor.
Qed.
Lemma parsed_execute_sound_witness :
  (exists c', execute (run 7000) 1 [I32 5] out_ctx = Ok (Some (I32 120)) c' /\ callable out_module 4 (fun _ => False) c') /\
  forall n, (7000 <= n)%nat -> execute (run n) 1 [I32 5] out_ctx = execute (run 7000) 1 [I32 5] out_ctx.
Proof.
  destruct (parsed_execute_sound error_ 1000 default_options src_wasm 1 src_state (fun _ => False) 100 1 [I32 5]
    (demo_type [types.i32] [types.i32]) out_ctx 7000 src_accepted src_supported out_callable out_metering eq_refl ltac:(vm_compute; congruence) ltac:(repeat constructor; vm_compute; congruence)
    ltac:(vm_compute; congruence)) as [Hs Hmore].
  split; [|exact Hmore].
  assert (E : match execute (run 7000) 1 [I32 5] out_ctx with Ok r _ => r = Some (I32 120) | _ => False end) by (vm_compute; reflexivity).
  destruct (execute (run 7000) 1 [I32 5] out_ctx) as [r c'|e c'|]; [|contradiction|contradiction]. exists c'. rewrite E. split; [reflexivity|apply Hs].
Defined.

Lemma parse_terminates_witness :
  exists k o, (k <= length src_wasm)%nat /\
    loop_ends (more_sections (vec_size src_wasm)) (parse_next_section error_ 1000 default_options) k 0 (after_header src_wasm) o /\
    o = section_rounds error_ 1000 default_options (S (length src_wasm)) src_wasm.
Proof.
  destruct (parse_terminates error_ 1000 default_options src_wasm src_bytes ltac:(vm_compute; reflexivity)) as [Hs _].
  destruct (Hs ltac:(vm_compute; congruence)) as (k & o & Hk & Hloop & Hn). exists k, o. split; [exact Hk|]. split; [exact Hloop|].
  symmetry. apply Hn. lia.
Defined.
