(* ===== verification/ValidatorFindings.v ===== *)
(** * Findings in the validator and the bitcode writer

    Modules that the parser accepts and should not, or accepts and compiles to
    code that does something else.  Each is a concrete module, run through
    [write_code_out] and, where it matters, through [execute]. *)
From Stdlib Require Import ZArith Lia Bool String.
From stdpp Require Import base list numbers decidable option gmap.
From S2P Require Import Prelude Leb128 Types InitExpr ConstExpr ParseInit Stack Memory Numeric Softfloat Context Operands Interp Handlers Demo Invariants.
From S2P Require Import TypedOps TypedVec Typing Control Verifier Soundness Exceptions Budget Termination.
From S2P Require Import Writer Validator ParseVec ParseBody TrackerSpec Emission BodySound ScopeSound BranchSound LoopSound ParserFrame FunctionSound CompileSound Validated.
Import Opcode BitcodeWriter.

(** One function, of the first of the types [ts], with the body [bytes]. *)
Definition probe_module (ts : list func_type) : module := {|
  m_start := UINT32_MAX; m_types := ts; m_imports := []; m_functions := [0];
  m_tables := []; m_memories := [{| mt_limits := demo_limits 1 1; Types.is_memory64 := false |}]; m_globals := []; m_exports := [];
  m_elements := []; m_code := []; m_data := []; m_tags := []; m_import_functions := [];
  m_num_imported_tables := 0; m_num_imported_memories := 0; m_num_imported_globals := 0;
  m_stack_limit_is_bytes := false; m_error := None; bytecode := [] |}.
Definition probe_body (bytes : list Z) : pending_body := {|
  pb_bytes := bytes;
  pb_fb := {| fb_wasm_body_bytes := vec_size bytes; fb_locals := []; fb_code := 0; fb_stack_size := 0; fb_prologue_gas_extra := 0 |} |}.
Definition probe_out (ts : list func_type) (bytes : list Z) : outcome bitcode_writer (module * Z) :=
  write_code_out error_ 1000 (probe_module ts) (map Z.of_nat (seq 0 (List.length ts))) None default_options 60 [probe_body bytes].
Definition probe_code (ts : list func_type) (bytes : list Z) : option (list opcode) :=
  match probe_out ts bytes with Ok (m, _) _ => Some (bytecode m) | _ => None end.
Definition probe_error (ts : list func_type) (bytes : list Z) : option exn :=
  match probe_out ts bytes with Throw e _ => Some e | _ => None end.
Definition probe_run (ts : list func_type) (bytes : list Z) : option (outcome unit (option Stack.elem)) :=
  match probe_out ts bytes with
  | Ok (m, _) _ =>
      Some (match execute (run 1000) 0 [] (end_state (reset (fresh_ctx m)) (fresh_ctx m)) with
            | Ok r _ => Ok r tt | Throw e _ => Throw e tt | UB => UB end)
  | _ => None
  end.

(** ** [br_table] compares the labels by arity and first result only

    The default label expects [i32 i64], the case label [i32 f64]: both have two
    results and [label_result], the first of them, does not tell them apart, so
    the [i64] is read as an [f64]. *)
Definition confusion_types : list func_type :=
  [demo_type [] [types.i32]; demo_type [] [types.i32; types.i64]; demo_type [] [types.i32; types.f64]].
Definition confusion_body : list Z :=
  [0x02; 0x02; 0x02; 0x01; 0x41; 0; 0x42; 5; 0x41; 0; 0x0E; 1; 1; 0; 0x0B; 0x1A; 0x1A; 0x41; 0; 0x44; 0; 0; 0; 0; 0; 0; 0; 0; 0x0B;
   0x99; 0x1A; 0x0B].
(** A module that is accepted although the two labels of its [br_table] have
    different types; running it reads an operand under the wrong type. *)
Lemma br_table_type_confusion : probe_run confusion_types confusion_body = Some UB.
Proof. vm_compute. reflexivity. Qed.

(** ** A typed [select] takes any byte for its type

    With the byte 0x40, which stands for no type, the two operands are not
    popped at all, and validation and execution disagree on the depth. *)
Definition select_body : list Z := [0x41; 1; 0x1C; 1; 0x40; 0x1A; 0x41; 3; 0x0B].
(** The body [i32.const 1; select 0x40; drop; i32.const 3] is accepted and its
    code underflows the operand stack. *)
Lemma typed_select_underflows :
  probe_code [demo_type [] [types.i32]] select_body = Some [i32_const_ 1; select_; drop_; i32_const_ 3; return_ 0 1 1] /\
  match probe_run [demo_type [] [types.i32]] select_body with Some (Throw e _) => exn_class e = wasm_interpreter_exception | _ => False end.
Proof. split; vm_compute; reflexivity. Qed.

(** ** A function's code is allocated at one instruction per byte

    A branch out of [n] [try_table]s emits [n] [eh_leave]s and the branch for two
    bytes of source.  When the instructions are as many as the bytes, the resize
    in [emit_epilogue] grows the vector, and growing does not copy; when they
    are more, the write is out of the bounds of the vector. *)
Definition nested_try : list Z := concat (replicate 4 [0x1F; 0x40; 1; 2; 0]).
Definition leaving_body (branches : nat) : list Z := nested_try ++ concat (replicate branches [0x0C; 4]) ++ replicate 5 0x0B.
(** The written instructions of a valid function are replaced by whatever the
    allocator's memory held. *)
Lemma emitted_code_is_lost :
  probe_code [demo_type [] []] (leaving_body 3) = Some (replicate 31 error_ ++ [return_ 0 0 1]).
Proof. vm_compute. reflexivity. Qed.
(** A valid function with one branch more is rejected. *)
Lemma valid_code_is_rejected :
  match probe_error [demo_type [] []] (leaving_body 4) with Some e => exn_class e = wasm_vector_oob_exception | None => False end.
Proof. vm_compute. reflexivity. Qed.
(** With a branch less the code is the source's. *)
Lemma shorter_code_is_kept :
  match probe_run [demo_type [] []] (leaving_body 2) with Some (Ok r _) => r = None | _ => False end.
Proof. vm_compute. reflexivity. Qed.

(** ** Two indices share one 32-bit immediate

    A type index of 65536 on table 0 and the type index 0 on table 1 become the
    same instruction; neither the parser nor the writer bounds them by 16 bits. *)
Lemma call_indirect_indices_collide w : emit_call_indirect 65536 0 w = emit_call_indirect 0 1 w.
Proof. reflexivity. Qed.
