(* ===== verification/VecFindings.v ===== *)
(** * Findings in the vector and atomic instructions

    Modules that the parser accepts and whose execution is undefined, or that
    WebAssembly rejects; each is a concrete module, run as in
    [ValidatorFindings]. *)
From Stdlib Require Import ZArith Lia Bool String.
From stdpp Require Import base list numbers decidable option gmap.
From S2P Require Import Prelude Leb128 Types InitExpr ConstExpr ParseInit Stack Memory Numeric Softfloat Simd Context Operands Interp Handlers Demo.
From S2P Require Import Writer Validator ParseVec ParseBody ValidatorFindings.
Import Opcode BitcodeWriter.

(** ** Lane arithmetic that overflows *)
(** [v128.const] with the byte [b] in every place. *)
Definition const_of (b : Z) : list Z := [0xFD; 12] ++ replicate 16 b.
Definition mul_body : list Z := const_of 0xFF ++ const_of 0xFF ++ [0xFD; 149; 1; 0x1A; 0x0B].
(** [i16x8.mul] of two lanes 0xffff: the lanes of type [uint16_t] are promoted to
    [int], where the product overflows. *)
Lemma i16x8_mul_undefined : probe_run [demo_type [] []] mul_body = Some UB.
Proof. vm_compute. reflexivity. Qed.
(** Lanes of the bytes [bs], over and over. *)
Definition lanes_of (bs : list Z) (n : nat) : list Z := [0xFD; 12] ++ concat (replicate n bs).
Definition abs32_body : list Z := lanes_of [0; 0; 0; 0x80] 4 ++ [0xFD; 160; 1; 0x1A; 0x0B].
Definition abs64_body : list Z := lanes_of [0; 0; 0; 0; 0; 0; 0; 0x80] 2 ++ [0xFD; 192; 1; 0x1A; 0x0B].
(** The absolute value of the least lane negates [INT32_MIN], or [INT64_MIN]. *)
Lemma abs_undefined : probe_run [demo_type [] []] abs32_body = Some UB /\ probe_run [demo_type [] []] abs64_body = Some UB.
Proof. split; vm_compute; reflexivity. Qed.
Definition dot_body : list Z := lanes_of [0; 0x80] 8 ++ lanes_of [0; 0x80] 8 ++ [0xFD; 186; 1; 0x1A; 0x0B].
(** [i32x4.dot_i16x8_s] of lanes -32768: the sum of the products is 2^31. *)
Lemma dot_undefined : probe_run [demo_type [] []] dot_body = Some UB.
Proof. vm_compute. reflexivity. Qed.
Definition dot_add_body : list Z := const_of 1 ++ const_of 1 ++ lanes_of [0xFF; 0xFF; 0xFF; 0x7F] 4 ++ [0xFD; 0x93; 2; 0x1A; 0x0B].
(** [i32x4.relaxed_dot_i8x16_i7x16_add_s] adds to the accumulator as [int32_t]. *)
Lemma relaxed_dot_add_undefined : probe_run [demo_type [] []] dot_add_body = Some UB.
Proof. vm_compute. reflexivity. Qed.

(** ** Atomic instructions of a wrong type *)
Definition atomic_load_body : list Z := [0x41; 0; 0xFE; 0x11; 3; 0; 0x41; 1; 0x6A; 0x0B].
(** The parser gives [i64.atomic.load] the result [i32]; what follows reads the
    [i64] that the handler pushes as an [i32]. *)
Lemma atomic_load_mistyped : probe_run [demo_type [] [types.i32]] atomic_load_body = Some UB.
Proof. vm_compute. reflexivity. Qed.
Definition atomic_store_body : list Z := [0x41; 0; 0x41; 1; 0xFE; 0x18; 3; 0; 0x0B].
(** [i64.atomic.store] is taken to store an [i32]. *)
Lemma atomic_store_mistyped : probe_run [demo_type [] []] atomic_store_body = Some UB.
Proof. vm_compute. reflexivity. Qed.

(** ** Atomic instructions that WebAssembly rejects or that trap *)
(** Sub-opcodes are cut to 8 bits: 0x103 is taken for [atomic.fence]. *)
Lemma atomic_subop_truncated : probe_code [demo_type [] []] [0xFE; 0x83; 2; 0; 0x0B] =
  Some [atomic_op_ atomic_fence {| flags_align := 0; mem_offset := 0 |}; return_ 0 0 1].
Proof. vm_compute. reflexivity. Qed.
(** The alignment immediate is not compared with the size of the access, which
    WebAssembly requires to be equal: 0 is taken for a 4-byte access. *)
Lemma atomic_alignment_unchecked : probe_code [demo_type [] [types.i32]] [0x41; 1; 0xFE; 0x10; 0; 0; 0x0B] =
  Some [i32_const_ 1; atomic_op_ i32_atomic_load {| flags_align := 0; mem_offset := 0 |}; return_ 0 1 1].
Proof. vm_compute. reflexivity. Qed.
(** An access at the address 1 does not trap. *)
Lemma atomic_unaligned_access : match probe_run [demo_type [] [types.i32]] [0x41; 1; 0xFE; 0x10; 2; 0; 0x0B] with
  | Some (Ok r _) => r = Some (Stack.I32 0) | _ => False end.
Proof. vm_compute. reflexivity. Qed.
(** A module without a memory may access it. *)
Definition no_memory_out (bytes : list Z) : outcome bitcode_writer (module * Z) :=
  write_code_out error_ 1000 (let m := probe_module [demo_type [] [types.i32]] in
    {| m_start := m_start m; m_types := m_types m; m_imports := []; m_functions := m_functions m; m_tables := []; m_memories := []; m_globals := [];
       m_exports := []; m_elements := []; m_code := []; m_data := []; m_tags := []; m_import_functions := []; m_num_imported_tables := 0;
       m_num_imported_memories := 0; m_num_imported_globals := 0; m_stack_limit_is_bytes := false; m_error := None; bytecode := [] |})
    [0] None default_options 60 [probe_body bytes].
Lemma atomic_without_memory : match no_memory_out [0x41; 1; 0xFE; 0x10; 2; 0; 0x0B] with
  | Ok (m, _) _ => bytecode m = [i32_const_ 1; atomic_op_ i32_atomic_load {| flags_align := 2; mem_offset := 0 |}; return_ 0 1 1] | _ => False end.
Proof. vm_compute. reflexivity. Qed.
(** A wait returns at once, with the result of a failed comparison, whatever memory holds. *)
Lemma atomic_wait_returns : match probe_run [demo_type [] [types.i32]] [0x41; 0; 0x41; 0; 0x42; 0x7F; 0xFE; 0x01; 2; 0; 0x0B] with
  | Some (Ok r _) => r = Some (Stack.I32 1) | _ => False end.
Proof. vm_compute. reflexivity. Qed.
