(* ===== verification/SectionFindings.v ===== *)
(** * Findings in the parsers of sections

    Modules that [parse_module] accepts and should not, or turns into something
    else than they say.  Each is the bytes of a module, run through
    [parse_wasm]. *)
From Stdlib Require Import ZArith Lia Bool String.
From stdpp Require Import base list numbers decidable option gmap.
From S2P Require Import Prelude Leb128 Types InitExpr ConstExpr ParseInit Utf8 Writer Validator ParseVec ParseBody Sections.
Import Opcode BitcodeWriter.

Definition probe_header : list Z := [0x00; 0x61; 0x73; 0x6D; 1; 0; 0; 0].
Definition probe_section (id : Z) (content : list Z) : list Z := id :: vec_size content :: content.
(** What a module becomes, seen through [f]. *)
Definition parse_probe {A} (options : Options) (sections : list (list Z)) (f : binary_parser -> A) : option A :=
  match parse_wasm error_ 1000 options (probe_header ++ concat sections) with Ok _ s => Some (f s) | _ => None end.
(** One type, without parameters or results; and the import of "a" "b". *)
Definition unit_type : list Z := probe_section 1 [1; 0x60; 0; 0].
Definition import_ab (desc : list Z) : list Z := probe_section 2 ([1; 1; 0x61; 1; 0x62] ++ desc).

(** ** Imported tags are overwritten by the tag section *)
(** A module that imports a tag and defines another has one tag. *)
Lemma tag_section_drops_imports :
  parse_probe default_options [unit_type; import_ab [4; 0; 0]] (fun s => length (m_tags (p_mod s))) = Some 1%nat /\
  parse_probe default_options [unit_type; import_ab [4; 0; 0]; probe_section 13 [1; 0; 0]] (fun s => length (m_tags (p_mod s))) = Some 1%nat.
Proof. split; vm_compute; reflexivity. Qed.
(** Imported globals are kept. *)
Lemma global_section_keeps_imports :
  parse_probe default_options [import_ab [3; 0x7F; 0]; probe_section 6 [1; 0x7F; 0; 0x41; 5; 0x0B]] (fun s => length (m_globals (p_mod s))) = Some 2%nat.
Proof. vm_compute. reflexivity. Qed.

(** ** Branch hints do not skip the imported functions *)
(** "metadata.code.branch_hint" for the function [f] *)
Definition hint_section (f : Z) : list Z := probe_section 0 (vec_size str_branch_hint :: str_branch_hint ++ [1; f; 1; 3; 1]).
(** With one imported function the hint for function 1, the first body, is
    attached to the second. *)
Lemma hints_shifted_by_imports :
  parse_probe default_options
    [unit_type; import_ab [0; 0]; probe_section 3 [2; 0; 0]; hint_section 1; probe_section 10 [2; 2; 0; 0x0B; 2; 0; 0x0B]]
    (fun s => map_to_list (p_branch_hints s)) = Some [(1, [{| bh_offset := 3; bh_value := 1 |}])].
Proof. vm_compute. reflexivity. Qed.

(** ** Elements given by globals *)
Definition funcref_table : list Z := probe_section 4 [1; 0x70; 0; 4].
(** [global.get 0] at offset 0 of the table *)
Definition global_element : list Z := probe_section 9 [1; 4; 0x41; 0; 0x0B; 1; 0x23; 0; 0x0B].
Definition the_elements (s : binary_parser) : list Z := List.concat (map (fun e => map te_index (es_elems e)) (m_elements (p_mod s))).
(** An [i32] global is accepted as a function reference; an imported global,
    whose value is not known yet, becomes function 0. *)
Lemma elem_global_untyped :
  parse_probe default_options [unit_type; probe_section 3 [1; 0]; funcref_table; probe_section 6 [1; 0x7F; 0; 0x41; 5; 0x0B]; global_element; probe_section 10 [1; 2; 0; 0x0B]]
    the_elements = Some [5] /\
  parse_probe default_options [unit_type; import_ab [3; 0x70; 0]; probe_section 3 [1; 0]; funcref_table; global_element; probe_section 10 [1; 2; 0; 0x0B]]
    the_elements = Some [0].
Proof. split; vm_compute; reflexivity. Qed.

(** ** The memory of a data segment *)
Definition no_bulk_memory : Options := {|
  enable_simd := true; enable_bulk_memory := false; enable_sign_ext := true;
  enable_nontrapping_fptoint := true; enable_exception_handling := true;
  max_nested_structures := UINT32_MAX; max_br_table_elements := UINT32_MAX; max_memory_offset := UINT32_MAX;
  max_code_bytes := UINT32_MAX; max_local_sets := UINT32_MAX;
  max_section_elements := UINT32_MAX; max_type_section_elements := UINT32_MAX; max_import_section_elements := UINT32_MAX;
  max_function_section_elements := UINT32_MAX; max_global_section_elements := UINT32_MAX; max_export_section_elements := UINT32_MAX;
  max_element_section_elements := UINT32_MAX; max_data_section_elements := UINT32_MAX; max_memory_section_elements := 16;
  max_table_elements := UINT32_MAX; max_element_segment_elements := UINT32_MAX; max_data_segment_bytes := UINT32_MAX;
  max_linear_memory_init := 2 ^ 64 - 1; max_symbol_bytes := UINT32_MAX; opt_max_pages := UINT32_MAX;
  max_mutable_global_bytes := None; parse_custom_section_name := false |}.
(** Without bulk memory a segment for memory 7 of a module with one memory is
    accepted; with it, it is rejected. *)
Lemma data_index_unchecked :
  let sections := [probe_section 5 [1; 0; 1]; probe_section 11 [1; 7; 0x41; 0; 0x0B; 1; 0xAB]] in
  parse_probe no_bulk_memory sections (fun s => map ds_index (m_data (p_mod s))) = Some [7] /\ parse_probe default_options sections (fun _ => tt) = None.
Proof. split; vm_compute; reflexivity. Qed.

(** ** The initializer of a table is dropped *)
(** A table of four [ref.func 0] and a table of four nulls become the same
    module. *)
Lemma table_init_dropped :
  let code := probe_section 10 [1; 2; 0; 0x0B] in
  parse_probe default_options [unit_type; probe_section 3 [1; 0]; probe_section 4 [1; 0x40; 0; 0x70; 0; 4; 0xD2; 0; 0x0B]; code] p_mod =
  parse_probe default_options [unit_type; probe_section 3 [1; 0]; funcref_table; code] p_mod /\
  is_Some (parse_probe default_options [unit_type; probe_section 3 [1; 0]; funcref_table; code] p_mod).
Proof. split; [vm_compute; reflexivity|]. vm_compute. eauto. Qed.
