(* ===== verification/GasPool.v ===== *)
(** * Gas shared by instances: [gas_pool]

    Models psizam/gas_pool.hpp.  One thread leases exactly what the pool has and
    leaves it alone otherwise.  Two threads do not: [try_lease] subtracts first
    and adds back on failure, and in between the unsigned balance has wrapped
    around, so another thread is granted gas the pool never had. *)
From Stdlib Require Import ZArith Lia Bool String.
From stdpp Require Import base list numbers decidable option gmap functions.
From S2P Require Import Prelude Types Stack Memory Context.

Record gas_pool := { remaining : Z; lease_size : Z }.
#[global] Instance eta_gas_pool : Eta gas_pool := fun p => {| remaining := remaining p; lease_size := lease_size p |}.

Definition pool_make (budget lease : Z) : gas_pool := {| remaining := budget; lease_size := lease |}.
Definition balance (p : gas_pool) : Z := remaining p.
Definition pool_add (delta : Z) (p : gas_pool) : gas_pool := p <| remaining := wrap 64 (remaining p + delta) |>.
(** The first atomic operation of [try_lease]: the previous balance is returned. *)
Definition lease_sub (want : Z) (p : gas_pool) : Z * gas_pool := (remaining p, p <| remaining := wrap 64 (remaining p - want) |>).
Definition try_lease (want : Z) (p : gas_pool) : Z * gas_pool :=
  let (prev, p1) := lease_sub want p in
  if want <=? prev then (want, p1) else (0, pool_add want p1).

(** The handler at a deadline. *)
Definition pool_yield_handler : M (gas_state * gas_pool) unit := fun gp =>
  let (lease, p) := try_lease (lease_size gp.2) gp.2 in
  if lease =? 0 then Throw (Exn wasm_gas_exhausted_exception "gas_pool: exhausted") (gp.1, p)
  else Ok tt (gp.1 <| deadline := wrap 64 (deadline gp.1 + lease) |>, p).

(** ** One thread *)
Lemma try_lease_exact want p : in_u 64 (remaining p) -> in_u 64 want ->
  try_lease want p = if want <=? remaining p then (want, p <| remaining := remaining p - want |>) else (0, p).
Proof.
  intros Hr Hw. unfold try_lease, lease_sub. destruct (Z.leb_spec want (remaining p)) as [Hle|Hlt].
  - rewrite wrap_small by (unfold in_u in *; lia). reflexivity.
  - unfold pool_add, wrap. cbn. rewrite Zplus_mod_idemp_l, Z.sub_add, Z.mod_small by (unfold in_u in *; lia). now destruct p.
Qed.
(** The handler conserves gas: what the instance gains the pool loses, and an
    exhausted pool changes neither. *)
Lemma pool_yield_conserves g p : in_u 64 (remaining p) -> 0 < lease_size p < 2 ^ 64 ->
  match pool_yield_handler (g, p) with
  | Ok _ (g', p') => lease_size p <= remaining p /\ remaining p' = remaining p - lease_size p /\
      deadline g' = wrap 64 (deadline g + lease_size p) /\ consumed g' = consumed g
  | Throw e (g', p') => remaining p < lease_size p /\ g' = g /\ p' = p /\ exn_class e = wasm_gas_exhausted_exception
  | UB => False
  end.
Proof.
  intros Hr Hl. unfold pool_yield_handler. cbn [fst snd]. rewrite try_lease_exact by (unfold in_u in *; lia).
  destruct (Z.leb_spec (lease_size p) (remaining p)); cbn -[Z.eqb]; [|repeat split; auto].
  destruct (Z.eqb_spec (lease_size p) 0); [lia|]. repeat split; auto.
Qed.

(** ** Two threads

    A thread in [try_lease]: before the subtraction, before it adds back, done. *)
Inductive lease_pc := LSub (want : Z) | LUndo (want : Z) | LDone (granted : Z).
Definition lease_step (t : nat) (s : gas_pool * (nat -> lease_pc)) : gas_pool * (nat -> lease_pc) :=
  match s.2 t with
  | LSub want => let (prev, p) := lease_sub want s.1 in (p, <[t := if want <=? prev then LDone want else LUndo want]> s.2)
  | LUndo want => (pool_add want s.1, <[t := LDone 0]> s.2)
  | LDone _ => s
  end.
(** Both ask a pool of 5 for 10. *)
Definition lease_race : gas_pool * (nat -> lease_pc) := fold_left (fun s t => lease_step t s) [1; 2; 1]%nat (pool_make 5 10, fun _ => LSub 10).
Lemma gas_pool_overdrawn : (lease_race.2 1%nat, lease_race.2 2%nat, balance lease_race.1) = (LDone 0, LDone 10, 2 ^ 64 - 5).
Proof. vm_compute. reflexivity. Qed.
