(* ===== verification/HandleTable.v ===== *)
(** * WIT resource handles: [handle_table]

    Models psizam/handle_table.hpp: a slab of [Capacity] slots with a free list
    threaded through them and a generation per slot.  A handle packs the slot's
    index and generation.  The table refines a finite map from handles to values
    whose [create] chooses the handle; destructors of values are taken to leave
    the table alone. *)
From Stdlib Require Import ZArith Lia Bool.
From stdpp Require Import base list numbers decidable option gmap.
From S2P Require Import Prelude.

(** ** The table *)
Record slot (T : Type) := { storage : option T; next_free : Z; generation : Z; occupied : bool }.
Arguments storage {T}. Arguments next_free {T}. Arguments generation {T}. Arguments occupied {T}.
Record handle_table (T : Type) := { slots_ : list (slot T); free_head_ : Z; live_count_ : Z; max_live_ : Z }.
Arguments slots_ {T}. Arguments free_head_ {T}. Arguments live_count_ {T}. Arguments max_live_ {T}.
#[global] Instance eta_slot {T} : Eta (slot T) := fun s =>
  {| storage := storage s; next_free := next_free s; generation := generation s; occupied := occupied s |}.
#[global] Instance eta_handle_table {T} : Eta (handle_table T) := fun t =>
  {| slots_ := slots_ t; free_head_ := free_head_ t; live_count_ := live_count_ t; max_live_ := max_live_ t |}.

Definition invalid_handle : Z := UINT32_MAX.
Definition pack (index gen : Z) : Z := Z.lor (wrap 32 (Z.shiftl index 16)) gen.
Definition unpack_index (handle : Z) : Z := Z.shiftr handle 16.
Definition unpack_gen (handle : Z) : Z := Z.land handle 0xFFFF.

Section Table.
Context {T : Type} (Capacity : Z).
Abbreviation table := (handle_table T).

(** The constructor; slot [i] is free and links to slot [i + 1]. *)
Definition fresh_slot (i : nat) : slot T :=
  {| storage := None; next_free := Z.of_nat i + 1; generation := 0; occupied := false |}.
Definition table_init (max_live : Z) : table :=
  {| slots_ := map fresh_slot (seq 0 (Z.to_nat Capacity)); free_head_ := 0; live_count_ := 0; max_live_ := max_live |}.

Definition create (v : T) : M table Z :=
  let* t := get in
  if (max_live_ t <=? live_count_ t) || (Capacity <=? free_head_ t) then ret invalid_handle
  else
    let idx := free_head_ t in
    let* s := vec_index (slots_ t) idx in
    modify (fun t => t <| free_head_ := next_free s |>) ;;;
    modify (fun t => t <| slots_ := vec_update (slots_ t) idx (s <| storage := Some v |> <| occupied := true |>) |>) ;;;
    modify (fun t => t <| live_count_ := wrap 32 (live_count_ t + 1) |>) ;;;
    ret (pack idx (generation s)).

(** [get] *)
Definition get_handle (handle : Z) : M table (option T) :=
  let* t := get in
  let idx := unpack_index handle in
  let gen := unpack_gen handle in
  if Capacity <=? idx then ret None
  else
    let* s := vec_index (slots_ t) idx in
    if negb (occupied s) || negb (generation s =? gen) then ret None
    else match storage s with Some v => ret (Some v) | None => undefined end.

Definition destroy (handle : Z) : M table bool :=
  let* t := get in
  let idx := unpack_index handle in
  let gen := unpack_gen handle in
  if Capacity <=? idx then ret false
  else
    let* s := vec_index (slots_ t) idx in
    if negb (occupied s) || negb (generation s =? gen) then ret false
    else
      modify (fun t => t <| slots_ := vec_update (slots_ t) idx
        {| storage := None; occupied := false; generation := wrap 16 (generation s + 1); next_free := free_head_ t |} |>) ;;;
      modify (fun t => t <| free_head_ := idx |> <| live_count_ := wrap 32 (live_count_ t - 1) |>) ;;;
      ret true.

(** The first loop of [destroy_all] on one slot, and the second on all. *)
Definition retire (s : slot T) : slot T :=
  if occupied s then s <| storage := None |> <| occupied := false |> <| generation := wrap 16 (generation s + 1) |> else s.
Definition destroy_all : M table unit :=
  modify (fun t => t <| slots_ := map retire (slots_ t) |>) ;;;
  modify (fun t => t <| live_count_ := 0 |>) ;;;
  modify (fun t => t <| slots_ := imap (fun i s => s <| next_free := Z.of_nat i + 1 |>) (slots_ t) |>) ;;;
  modify (fun t => t <| free_head_ := 0 |>).

Definition live_count (t : table) : Z := live_count_ t.
Definition max_live (t : table) : Z := max_live_ t.
Definition full (t : table) : bool := max_live_ t <=? live_count_ t.

(** ** Handles *)
Context (Hcap : 0 <= Capacity <= 0xFFFF).

Lemma pack_value i g : 0 <= i < 2 ^ 16 -> in_u 16 g -> pack i g = g + i * 2 ^ 16.
Proof.
  intros Hi Hg. unfold pack. rewrite wrap_small by (rewrite Z.shiftl_mul_pow2 by lia; unfold in_u in *; lia).
  rewrite Z.lor_comm. apply lor_add; [lia|exact Hg].
Qed.
Lemma unpack_gen_value h : unpack_gen h = h mod 2 ^ 16.
Proof. unfold unpack_gen. change 0xFFFF with (2 ^ 16 - 1). apply land_ones_mod. lia. Qed.
Lemma unpack_index_value h : unpack_index h = h / 2 ^ 16.
Proof. apply Z.shiftr_div_pow2. lia. Qed.
Lemma unpack_pack i g : 0 <= i < 2 ^ 16 -> in_u 16 g -> unpack_index (pack i g) = i /\ unpack_gen (pack i g) = g /\ in_u 32 (pack i g).
Proof.
  intros Hi Hg. rewrite unpack_index_value, unpack_gen_value, (pack_value i g Hi Hg). unfold in_u in *.
  rewrite Z.div_add, Z.mod_add, Z.div_small, Z.mod_small by lia. lia.
Qed.
Lemma unpack_inj h h' : unpack_index h = unpack_index h' -> unpack_gen h = unpack_gen h' -> h = h'.
Proof.
  rewrite !unpack_index_value, !unpack_gen_value. intros E1 E2.
  rewrite (Z.div_mod h (2 ^ 16)), (Z.div_mod h' (2 ^ 16)) by lia. congruence.
Qed.
Lemma unpack_range h : in_u 32 h -> 0 <= unpack_index h < 2 ^ 16 /\ in_u 16 (unpack_gen h).
Proof.
  intros Hh. rewrite unpack_index_value, unpack_gen_value. unfold in_u in *. split.
  - split; [apply Z.div_pos; lia|apply Z.div_lt_upper_bound; lia].
  - apply Z.mod_pos_bound. lia.
Qed.

(** ** The invariant *)

(** The free list, from its head. *)
Fixpoint chain (sl : list (slot T)) (h : Z) (l : list Z) : Prop :=
  match l with
  | [] => Capacity <= h
  | i :: l' => h = i /\ exists s, vec_lookup sl i = Some s /\ chain sl (next_free s) l'
  end.
Record table_wf (t : table) (l : list Z) : Prop := {
  tw_size : vec_size (slots_ t) = Capacity;
  tw_chain : chain (slots_ t) (free_head_ t) l;
  tw_nodup : NoDup l;
  tw_slots : forall i s, vec_lookup (slots_ t) i = Some s ->
    in_u 16 (generation s) /\ (occupied s = false <-> i ∈ l) /\ (occupied s = true <-> is_Some (storage s));
  tw_count : live_count_ t + Z.of_nat (length l) = Capacity }.

(** What a handle denotes. *)
Definition denotes (t : table) (h : Z) : option T :=
  match vec_lookup (slots_ t) (unpack_index h) with
  | Some s => if occupied s && (generation s =? unpack_gen h) then storage s else None
  | None => None
  end.

Lemma slot_in t l i : table_wf t l -> 0 <= i < Capacity -> exists s, vec_lookup (slots_ t) i = Some s.
Proof. intros W Hi. apply vec_lookup_range. now rewrite (tw_size _ _ W). Qed.
Lemma slot_out t l i : table_wf t l -> Capacity <= i -> vec_lookup (slots_ t) i = None.
Proof.
  intros W Hi. destruct (vec_lookup (slots_ t) i) as [s|] eqn:E; [|reflexivity]. apply vec_lookup_lt in E.
  rewrite (tw_size _ _ W) in E. lia.
Qed.
Lemma chain_ext sl sl' h l : (forall i, i ∈ l -> vec_lookup sl' i = vec_lookup sl i) -> chain sl h l -> chain sl' h l.
Proof.
  revert h. induction l as [|i l IH]; intros h He; cbn; [auto|]. intros (-> & s & Hs & Hc). split; [reflexivity|].
  exists s. rewrite He by apply list_elem_of_here. split; [exact Hs|]. apply IH; [|exact Hc]. intros j Hj. apply He. now apply list_elem_of_further.
Qed.
(** The head of the list is out of range exactly when the list is empty. *)
Lemma chain_head sl h l : chain sl h l -> vec_size sl = Capacity -> h < Capacity -> exists l', l = h :: l' /\ 0 <= h.
Proof.
  destruct l as [|i l]; cbn; [lia|]. intros (-> & s & Hs & _) _ _. apply vec_lookup_lt in Hs. exists l. split; [reflexivity|lia].
Qed.

Lemma chain_in sl h l j : chain sl h l -> j ∈ l -> exists s, vec_lookup sl j = Some s.
Proof.
  revert h. induction l as [|i l IH]; intros h; cbn; [intros _ Hj; now apply not_elem_of_nil in Hj|].
  intros (_ & s & Hs & Hc). rewrite elem_of_cons. intros [->|Hj]; eauto.
Qed.

(** A table with one slot replaced. *)
Lemma denotes_update t t' l i s' h : table_wf t l -> 0 <= i < Capacity -> slots_ t' = vec_update (slots_ t) i s' ->
  denotes t' h = if decide (unpack_index h = i) then (if occupied s' && (generation s' =? unpack_gen h) then storage s' else None)
                 else denotes t h.
Proof.
  intros W Hi E. unfold denotes. rewrite E, vec_lookup_update by now rewrite (tw_size _ _ W). now destruct (decide _).
Qed.
Lemma denotes_free t l i h : table_wf t l -> i ∈ l -> unpack_index h = i -> denotes t h = None.
Proof.
  intros W Hl E. unfold denotes. rewrite E. destruct (vec_lookup (slots_ t) i) as [s|] eqn:Es; [|reflexivity].
  destruct (tw_slots _ _ W i s Es) as (_ & [_ Ho] & _). now rewrite (Ho Hl).
Qed.

(** ** The operations *)
Lemma get_handle_denotes t l h : table_wf t l -> in_u 32 h -> get_handle h t = Ok (denotes t h) t.
Proof.
  intros W Hh. destruct (unpack_range h Hh) as [Hi _]. unfold get_handle, denotes, bind at 1, get. cbv zeta.
  destruct (Z.leb_spec Capacity (unpack_index h)) as [Hc|Hc]; [now rewrite (slot_out t l _ W Hc)|].
  destruct (slot_in t l (unpack_index h) W) as [s Es]; [lia|]. rewrite (bind_Ok _ _ _ _ _ (vec_index_Ok _ _ _ t Es)), Es.
  destruct (occupied s) eqn:Eo, (generation s =? unpack_gen h); try reflexivity. cbn.
  destruct (tw_slots _ _ W _ s Es) as (_ & _ & [Hs _]). now destruct (Hs Eo) as [v ->].
Qed.

Lemma create_full t l v : table_wf t l -> max_live_ t <= live_count_ t \/ Capacity <= live_count_ t ->
  create v t = Ok invalid_handle t.
Proof.
  intros W Hf. unfold create, bind at 1, get. destruct (Z.leb_spec (max_live_ t) (live_count_ t)); [reflexivity|].
  destruct (Z.leb_spec Capacity (free_head_ t)) as [|Hlt]; [reflexivity|]. exfalso.
  destruct (chain_head _ _ _ (tw_chain _ _ W) (tw_size _ _ W) Hlt) as (l' & -> & _). pose proof (tw_count _ _ W). cbn [length] in *. lia.
Qed.
Lemma create_room t l v : table_wf t l -> 0 <= live_count_ t -> live_count_ t < max_live_ t -> live_count_ t < Capacity ->
  exists h t' l', create v t = Ok h t' /\ table_wf t' l' /\ in_u 32 h /\ h <> invalid_handle /\ denotes t h = None /\
    (forall h', denotes t' h' = if decide (h' = h) then Some v else denotes t h') /\
    live_count_ t' = live_count_ t + 1 /\ max_live_ t' = max_live_ t.
Proof.
  intros W H0 Hm Hl. pose proof (tw_count _ _ W) as Hc. unfold create, bind at 1, get.
  destruct (Z.leb_spec (max_live_ t) (live_count_ t)); [lia|].
  destruct l as [|i l]; [cbn in Hc; lia|]. pose proof (tw_chain _ _ W) as (Eh & s & Es & Hch). pose proof (vec_lookup_lt _ _ _ Es) as Hi.
  rewrite (tw_size _ _ W) in Hi. rewrite Eh. destruct (Z.leb_spec Capacity i); [lia|]. cbn [orb]. cbv zeta.
  rewrite (bind_Ok _ _ _ _ _ (vec_index_Ok _ _ _ t Es)). unfold bind, modify, ret. cbn.
  destruct (tw_slots _ _ W i s Es) as (Hg & [_ Hfree] & _). specialize (Hfree (list_elem_of_here _ _)).
  destruct (unpack_pack i (generation s) ltac:(lia) Hg) as (Ei & Eg & Hu).
  pose proof (tw_nodup _ _ W) as Hnd. apply NoDup_cons in Hnd as [Hn Hnd].
  set (s' := s <| storage := Some v |> <| occupied := true |>). set (t' := {| slots_ := _ |}).
  assert (Ew : wrap 32 (live_count_ t + 1) = live_count_ t + 1) by (apply wrap_small; unfold in_u; lia).
  assert (W' : table_wf t' l).
  { split; cbn.
    - rewrite vec_update_size. apply W.
    - eapply chain_ext; [|exact Hch]. intros j Hj. rewrite vec_lookup_update by now rewrite (tw_size _ _ W).
      rewrite decide_False by (intros ->; contradiction). reflexivity.
    - exact Hnd.
    - intros j sj. rewrite vec_lookup_update by now rewrite (tw_size _ _ W). destruct (decide (j = i)) as [->|Hne].
      + intros [= <-]. cbn. split; [exact Hg|]. split; [|split; eauto]. split; [discriminate|intros; contradiction].
      + intros Ej. destruct (tw_slots _ _ W j sj Ej) as (G1 & G2 & G3). split; [exact G1|]. split; [|exact G3].
        rewrite G2, elem_of_cons. tauto.
    - rewrite Ew. cbn [length] in Hc. lia. }
  exists (pack i (generation s)), t', l. split; [reflexivity|]. split; [exact W'|]. split; [exact Hu|].
  split; [intros E; apply (f_equal unpack_index) in E; rewrite Ei in E; vm_compute in E; subst i; lia|].
  split; [eapply denotes_free; [exact W|apply list_elem_of_here|exact Ei]|]. split; [|split; [exact Ew|reflexivity]].
  intros h'. rewrite (denotes_update t t' (i :: l) i s' h' W ltac:(lia) eq_refl). subst s'. cbn.
  destruct (decide (unpack_index h' = i)) as [E1|E1].
  - destruct (Z.eqb_spec (generation s) (unpack_gen h')) as [E2|E2].
    + rewrite decide_True; [reflexivity|]. apply unpack_inj; congruence.
    + rewrite decide_False by (intros ->; congruence). symmetry. eapply denotes_free; [exact W|apply list_elem_of_here|exact E1].
  - rewrite decide_False by (intros ->; congruence). reflexivity.
Qed.

(** The free list misses a slot in use. *)
Lemma free_length t l i : table_wf t l -> 0 <= i < Capacity -> i ∉ l -> Z.of_nat (length l) < Capacity.
Proof.
  intros W Hi Hn. assert (Hsub : i :: l ⊆+ map Z.of_nat (seq 0 (Z.to_nat Capacity))).
  { apply NoDup_submseteq; [apply NoDup_cons; split; [exact Hn|apply W]|]. intros j Hj. apply list_elem_of_fmap.
    assert (0 <= j < Capacity).
    { apply elem_of_cons in Hj as [->|Hj]; [exact Hi|]. destruct (chain_in _ _ _ j (tw_chain _ _ W) Hj) as [sj Ej].
      apply vec_lookup_lt in Ej. now rewrite (tw_size _ _ W) in Ej. }
    exists (Z.to_nat j). split; [lia|]. apply elem_of_seq. lia. }
  apply submseteq_length in Hsub. rewrite length_map, length_seq in Hsub. cbn [length] in Hsub. lia.
Qed.
Lemma destroy_stale t l h : table_wf t l -> in_u 32 h -> denotes t h = None -> destroy h t = Ok false t.
Proof.
  intros W Hh. destruct (unpack_range h Hh) as [Hi _]. unfold destroy, denotes, bind at 1, get. cbv zeta.
  destruct (Z.leb_spec Capacity (unpack_index h)) as [Hc|Hc]; [reflexivity|].
  destruct (slot_in t l (unpack_index h) W) as [s Es]; [lia|]. rewrite (bind_Ok _ _ _ _ _ (vec_index_Ok _ _ _ t Es)), Es.
  destruct (occupied s) eqn:Eo, (generation s =? unpack_gen h); try reflexivity. cbn. intros E.
  destruct (tw_slots _ _ W _ s Es) as (_ & _ & [Hs _]). destruct (Hs Eo) as [v Ev]. congruence.
Qed.
Lemma destroy_live t l h v : table_wf t l -> in_u 32 h -> denotes t h = Some v -> live_count_ t < 2 ^ 32 ->
  exists t' l', destroy h t = Ok true t' /\ table_wf t' l' /\
    (forall h', denotes t' h' = if decide (h' = h) then None else denotes t h') /\
    live_count_ t' = live_count_ t - 1 /\ max_live_ t' = max_live_ t.
Proof.
  intros W Hh Hd H32. destruct (unpack_range h Hh) as [Hi0 Hg0]. set (i := unpack_index h) in *.
  assert (exists s, vec_lookup (slots_ t) i = Some s /\ occupied s = true /\ generation s = unpack_gen h) as (s & Es & Eo & Eg).
  { unfold denotes in Hd. fold i in Hd. destruct (vec_lookup (slots_ t) i) as [s|]; [|discriminate].
    destruct (occupied s) eqn:Eo, (Z.eqb_spec (generation s) (unpack_gen h)); try discriminate. eauto. }
  pose proof (vec_lookup_lt _ _ _ Es) as Hi. rewrite (tw_size _ _ W) in Hi. pose proof (tw_count _ _ W) as Hc.
  destruct (tw_slots _ _ W i s Es) as (_ & Hfree & _). assert (Hn : i ∉ l) by (rewrite <- Hfree; congruence).
  pose proof (free_length t l i W ltac:(lia) Hn) as Hle.
  assert (Ew : wrap 32 (live_count_ t - 1) = live_count_ t - 1) by (apply wrap_small; unfold in_u; lia).
  unfold destroy, bind at 1, get. cbv zeta. fold i. destruct (Z.leb_spec Capacity i); [lia|].
  rewrite (bind_Ok _ _ _ _ _ (vec_index_Ok _ _ _ t Es)), Eo, Eg, Z.eqb_refl. unfold bind, modify, ret. cbn.
  set (s' := {| storage := None |}). set (t' := {| slots_ := _ |}).
  assert (W' : table_wf t' (i :: l)).
  { split; cbn.
    - rewrite vec_update_size. apply W.
    - split; [reflexivity|]. exists s'. rewrite vec_lookup_update, decide_True by (rewrite ?(tw_size _ _ W); auto; lia).
      split; [reflexivity|]. eapply chain_ext; [|apply W]. intros j Hj. rewrite vec_lookup_update by now rewrite (tw_size _ _ W).
      rewrite decide_False by (intros ->; contradiction). reflexivity.
    - apply NoDup_cons. split; [exact Hn|apply W].
    - intros j sj. rewrite vec_lookup_update by now rewrite (tw_size _ _ W). destruct (decide (j = i)) as [->|Hne].
      + intros [= <-]. cbn. split; [apply wrap_range; lia|]. split; [|split; [discriminate|intros [x Hx]; discriminate Hx]].
        split; [intros _; apply list_elem_of_here|reflexivity].
      + intros Ej. destruct (tw_slots _ _ W j sj Ej) as (G1 & G2 & G3). split; [exact G1|]. split; [|exact G3].
        rewrite G2, elem_of_cons. tauto.
    - rewrite Ew. cbn [length]. lia. }
  exists t', (i :: l). split; [reflexivity|]. split; [exact W'|]. split; [|split; [exact Ew|reflexivity]].
  intros h'. rewrite (denotes_update t t' l i s' h' W ltac:(lia) eq_refl). cbn.
  destruct (decide (unpack_index h' = i)) as [E1|E1].
  - destruct (decide (h' = h)) as [->|Hne]; [reflexivity|]. unfold denotes. rewrite E1, Es, Eo, Eg.
    destruct (Z.eqb_spec (unpack_gen h) (unpack_gen h')) as [E2|E2]; [|reflexivity]. exfalso. apply Hne, unpack_inj; [exact E1|now symmetry].
  - rewrite decide_False by (intros ->; contradiction). reflexivity.
Qed.

(** A table all of whose slots are free, in order. *)
Definition slots_free (sl : list (slot T)) : Prop := forall i s, vec_lookup sl i = Some s ->
  storage s = None /\ occupied s = false /\ next_free s = i + 1 /\ in_u 16 (generation s).
Lemma chain_seq sl k n : slots_free sl -> vec_size sl = Capacity -> Z.of_nat (k + n) = Capacity ->
  chain sl (Z.of_nat k) (map Z.of_nat (seq k n)).
Proof.
  intros Hf Hs. revert k. induction n as [|n IH]; intros k Hk; cbn; [lia|]. split; [reflexivity|].
  destruct (vec_lookup_range sl (Z.of_nat k)) as [s Es]; [lia|]. exists s. split; [exact Es|].
  destruct (Hf _ _ Es) as (_ & _ & -> & _). replace (Z.of_nat k + 1) with (Z.of_nat (S k)) by lia. apply IH. lia.
Qed.
Lemma free_wf t : slots_free (slots_ t) -> vec_size (slots_ t) = Capacity -> free_head_ t = 0 -> live_count_ t = 0 ->
  table_wf t (map Z.of_nat (seq 0 (Z.to_nat Capacity))) /\ forall h, denotes t h = None.
Proof.
  intros Hf Hs Hh Hl. split.
  - split; auto.
    + rewrite Hh. apply (chain_seq (slots_ t) 0); auto. lia.
    + apply NoDup_fmap_2; [intros x y; lia|apply NoDup_seq].
    + intros i s Es. destruct (Hf i s Es) as (E1 & E2 & _ & E4). rewrite E1, E2. split; [exact E4|].
      split; [|split; [discriminate|intros [x Hx]; discriminate Hx]]. split; [intros _|reflexivity]. apply vec_lookup_lt in Es.
      apply list_elem_of_fmap. exists (Z.to_nat i). split; [lia|]. apply elem_of_seq. lia.
    + rewrite Hl, length_map, length_seq. lia.
  - intros h. unfold denotes. destruct (vec_lookup _ _) as [s|] eqn:Es; [|reflexivity]. now destruct (Hf _ _ Es) as (_ & -> & _).
Qed.
Lemma init_free max : slots_free (slots_ (table_init max)) /\ vec_size (slots_ (table_init max)) = Capacity.
Proof.
  split; [|unfold vec_size; cbn; rewrite length_map, length_seq; lia]. intros i s. cbn. rewrite vec_lookup_map.
  destruct (vec_lookup _ i) as [k|] eqn:E; [|discriminate]. intros [= <-]. apply vec_lookup_Some in E as [H0 E].
  apply lookup_seq in E as [-> Hk]. cbn. repeat split; lia.
Qed.
Lemma destroy_all_free t l : table_wf t l -> exists t', destroy_all t = Ok tt t' /\ slots_free (slots_ t') /\
  vec_size (slots_ t') = Capacity /\ free_head_ t' = 0 /\ live_count_ t' = 0 /\ max_live_ t' = max_live_ t /\
  forall i s, vec_lookup (slots_ t) i = Some s -> exists s', vec_lookup (slots_ t') i = Some s' /\
    (generation s' = generation s \/ generation s' = wrap 16 (generation s + 1)).
Proof.
  intros W. eexists. split; [reflexivity|]. cbn. split; [|split; [|split; [reflexivity|split; [reflexivity|split; [reflexivity|]]]]].
  - intros i s'. rewrite vec_lookup_Some, list_lookup_imap, list_lookup_fmap. intros [H0 E].
    destruct (slots_ t !! Z.to_nat i) as [s|] eqn:Es; [|discriminate]. injection E as <-.
    destruct (tw_slots _ _ W i s) as (Hg & _ & Ho); [apply vec_lookup_Some; auto|]. cbn. unfold retire.
    destruct (occupied s) eqn:Eo; cbn.
    + repeat split; [lia|apply wrap_range; lia..].
    + assert (storage s = None) by (destruct (storage s); [|reflexivity]; destruct Ho as [_ Ho]; now discriminate Ho). repeat split; auto; [lia|apply Hg..].
  - unfold vec_size. rewrite length_imap, length_fmap. apply W.
  - intros i s [H0 Es]%vec_lookup_Some. eexists. rewrite vec_lookup_Some, list_lookup_imap, list_lookup_fmap, Es. split; [split; [exact H0|reflexivity]|].
    cbn. unfold retire. destruct (occupied s); cbn; auto.
Qed.

(** ** Refinement of a finite map

    [handles_rep t M]: the handles of [M] are the live ones, with their values. *)
Definition handles_rep (t : table) (M : gmap Z T) : Prop := exists l, table_wf t l /\
  (forall h, in_u 32 h -> M !! h = denotes t h) /\ (forall h, is_Some (M !! h) -> in_u 32 h) /\
  Z.of_nat (size M) = live_count_ t.

Inductive handle_op := Create (v : T) | Get (h : Z) | Destroy (h : Z) | DestroyAll.
Inductive handle_result := Handle (h : Z) | Found (v : option T) | Destroyed (b : bool) | Done.
Definition perform (op : handle_op) : Prelude.M table handle_result :=
  match op with
  | Create v => let* h := create v in ret (Handle h)
  | Get h => let* v := get_handle h in ret (Found v)
  | Destroy h => let* b := destroy h in ret (Destroyed b)
  | DestroyAll => destroy_all ;;; ret Done
  end.
(** A handle is a [uint32_t]. *)
Definition op_handles (op : handle_op) : Prop := match op with Get h | Destroy h => in_u 32 h | _ => True end.

(** What a client may rely on: [create] gives a handle that is not in use, or
    the invalid one when there is no room. *)
Inductive spec_step (max : Z) (M : gmap Z T) : handle_op -> handle_result -> gmap Z T -> Prop :=
  | spec_create v h : Z.of_nat (size M) < Z.min max Capacity -> M !! h = None -> in_u 32 h -> h <> invalid_handle ->
      spec_step max M (Create v) (Handle h) (<[h := v]> M)
  | spec_full v : Z.min max Capacity <= Z.of_nat (size M) -> spec_step max M (Create v) (Handle invalid_handle) M
  | spec_get h : spec_step max M (Get h) (Found (M !! h)) M
  | spec_destroy h : spec_step max M (Destroy h) (Destroyed (bool_decide (is_Some (M !! h)))) (delete h M)
  | spec_destroy_all : spec_step max M DestroyAll Done ∅.

Lemma rep_free t : slots_free (slots_ t) -> vec_size (slots_ t) = Capacity -> free_head_ t = 0 -> live_count_ t = 0 -> handles_rep t ∅.
Proof.
  intros Hf Hs Hh Hl. destruct (free_wf t Hf Hs Hh Hl) as [W Hd]. eexists. split; [exact W|].
  split; [intros h _; rewrite Hd; apply lookup_empty|]. split; [|rewrite map_size_empty; lia]. intros h [v Hv]. now rewrite lookup_empty in Hv.
Qed.
Lemma perform_refines op t M : handles_rep t M -> op_handles op -> exists r t' M', perform op t = Ok r t' /\ handles_rep t' M' /\
  spec_step (max_live_ t) M op r M' /\ max_live_ t' = max_live_ t.
Proof.
  intros (l & W & Hd & Hu & Hs) Ho. pose proof (tw_count _ _ W) as Hc. destruct op as [v|h|h|]; cbn [perform op_handles] in *.
  - destruct (Z.le_gt_cases (Z.min (max_live_ t) Capacity) (live_count_ t)) as [Hle|Hgt].
    + rewrite (bind_Ok _ _ _ _ _ (create_full t l v W ltac:(lia))). eexists _, t, M. split; [reflexivity|].
      split; [exists l; auto|]. split; [apply spec_full; lia|reflexivity].
    + destruct (create_room t l v W ltac:(lia) ltac:(lia) ltac:(lia)) as (h & t' & l' & E & W' & Hh & Hne & Hfresh & Hd' & El & Em).
      rewrite (bind_Ok _ _ _ _ _ E). eexists _, t', (<[h := v]> M). split; [reflexivity|].
      assert (Hn : M !! h = None) by now rewrite Hd. split; [|split; [apply spec_create; auto; lia|exact Em]].
      exists l'. split; [exact W'|]. split; [|split].
      * intros h' Hh'. rewrite Hd'. destruct (decide (h' = h)) as [->|Hx]; [apply lookup_insert_eq|].
        rewrite lookup_insert_ne by congruence. auto.
      * intros h' Hs'. destruct (decide (h' = h)) as [->|Hx]; [exact Hh|]. rewrite lookup_insert_ne in Hs' by congruence. auto.
      * rewrite map_size_insert_None by exact Hn. lia.
  - rewrite (bind_Ok _ _ _ _ _ (get_handle_denotes t l h W Ho)). eexists _, t, M. split; [reflexivity|].
    split; [exists l; auto|]. split; [rewrite <- Hd by assumption; constructor|reflexivity].
  - destruct (denotes t h) as [v|] eqn:Ed.
    + destruct (destroy_live t l h v W Ho Ed ltac:(lia)) as (t' & l' & E & W' & Hd' & El & Em).
      rewrite (bind_Ok _ _ _ _ _ E). assert (Hm : M !! h = Some v) by now rewrite Hd. eexists _, t', (delete h M). split; [reflexivity|].
      split; [|split; [|exact Em]].
      * exists l'. split; [exact W'|]. split; [|split].
        -- intros h' Hh'. rewrite Hd'. destruct (decide (h' = h)) as [->|Hx]; [apply lookup_delete_eq|].
           rewrite lookup_delete_ne by congruence. auto.
        -- intros h' Hs'. apply Hu. destruct (decide (h' = h)) as [->|Hx]; [eauto|]. now rewrite lookup_delete_ne in Hs' by congruence.
        -- rewrite map_size_delete_Some by eauto. destruct (size M) eqn:E0; [|lia]. apply map_size_empty_inv in E0 as ->. now rewrite lookup_empty in Hm.
      * replace true with (bool_decide (is_Some (M !! h))) by (apply bool_decide_eq_true; eauto). constructor.
    + rewrite (bind_Ok _ _ _ _ _ (destroy_stale t l h W Ho Ed)). assert (Hm : M !! h = None) by now rewrite Hd.
      eexists _, t, (delete h M). split; [reflexivity|]. rewrite delete_id by exact Hm. split; [exists l; auto|]. split; [|reflexivity].
      rewrite <- (delete_id M h Hm) at 2. replace false with (bool_decide (is_Some (M !! h))); [constructor|].
      apply bool_decide_eq_false. rewrite Hm. intros [x Hx]. discriminate.
  - destruct (destroy_all_free t l W) as (t' & E & Hf & Hsz & Hh & Hl & Hm & _). rewrite (bind_Ok _ _ _ _ _ E).
    eexists _, t', ∅. split; [reflexivity|]. split; [now apply rep_free|]. split; [constructor|exact Hm].
Qed.

(** ** Sequences of operations *)
Fixpoint perform_all (ops : list handle_op) : Prelude.M table (list handle_result) :=
  match ops with
  | [] => ret []
  | op :: ops' => let* r := perform op in let* rs := perform_all ops' in ret (r :: rs)
  end.
Inductive spec_run (max : Z) : gmap Z T -> list handle_op -> list handle_result -> gmap Z T -> Prop :=
  | spec_done M : spec_run max M [] [] M
  | spec_more M op r M1 ops rs M' : spec_step max M op r M1 -> spec_run max M1 ops rs M' -> spec_run max M (op :: ops) (r :: rs) M'.

Lemma perform_all_refines ops t M : handles_rep t M -> Forall op_handles ops -> exists rs t' M', perform_all ops t = Ok rs t' /\
  handles_rep t' M' /\ spec_run (max_live_ t) M ops rs M'.
Proof.
  revert t M. induction ops as [|op ops IH]; intros t M Hr Ho; cbn [perform_all].
  { exists [], t, M. split; [reflexivity|]. split; [exact Hr|constructor]. }
  inversion_clear Ho as [|? ? Ho1 Ho2]. destruct (perform_refines op t M Hr Ho1) as (r & t1 & M1 & E1 & Hr1 & Hs1 & Hm).
  destruct (IH t1 M1 Hr1 Ho2) as (rs & t' & M' & E' & Hr' & Hs'). rewrite (bind_Ok _ _ _ _ _ E1), (bind_Ok _ _ _ _ _ E').
  exists (r :: rs), t', M'. split; [reflexivity|]. split; [exact Hr'|]. econstructor; [exact Hs1|]. now rewrite Hm in Hs'.
Qed.
Lemma init_rep max : handles_rep (table_init max) ∅.
Proof. destruct (init_free max). now apply rep_free. Qed.

(** ** Generations *)
Lemma perform_generation op t t' r i s : perform op t = Ok r t' -> vec_lookup (slots_ t) i = Some s ->
  exists s', vec_lookup (slots_ t') i = Some s' /\ (generation s' = generation s \/ generation s' = wrap 16 (generation s + 1)).
Proof.
  intros E Es. assert (Hup : forall j s0 s1 t2, vec_lookup (slots_ t) j = Some s0 -> slots_ t2 = vec_update (slots_ t) j s1 ->
    generation s1 = generation s0 \/ generation s1 = wrap 16 (generation s0 + 1) ->
    exists s', vec_lookup (slots_ t2) i = Some s' /\ (generation s' = generation s \/ generation s' = wrap 16 (generation s + 1))).
  { intros j s0 s1 t2 Ej E2 Hg. rewrite E2, vec_lookup_update by exact (vec_lookup_lt _ _ _ Ej).
    destruct (decide (i = j)) as [->|Hne]; [|eauto]. rewrite Es in Ej. injection Ej as <-. eauto. }
  destruct op as [v|h|h|]; cbn [perform] in E; apply bind_ok in E as (x & t2 & E & [= <- <-]).
  - unfold create, vec_index, bind, get, modify, ret in E. destruct (_ || _); [injection E as _ <-; eauto|].
    destruct (vec_lookup (slots_ t) (free_head_ t)) as [s0|] eqn:E0; [|discriminate]. injection E as _ <-. eapply Hup; [exact E0|reflexivity|now left].
  - unfold get_handle, vec_index, bind, get, ret in E. destruct (_ <=? _); [injection E as _ <-; eauto|].
    destruct (vec_lookup (slots_ t) (unpack_index h)) as [s0|]; [|discriminate]. destruct (_ || _); [injection E as _ <-; eauto|].
    destruct (storage s0); [injection E as _ <-; eauto|discriminate].
  - unfold destroy, vec_index, bind, get, modify, ret in E. destruct (_ <=? _); [injection E as _ <-; eauto|].
    destruct (vec_lookup (slots_ t) (unpack_index h)) as [s0|] eqn:E0; [|discriminate]. destruct (_ || _); [injection E as _ <-; eauto|].
    injection E as _ <-. eapply Hup; [exact E0|reflexivity|now right].
  - injection E as _ <-. cbn. apply vec_lookup_Some in Es as [H0 Es]. eexists. rewrite vec_lookup_Some, list_lookup_imap, list_lookup_fmap, Es.
    split; [split; [exact H0|reflexivity]|]. cbn. unfold retire. destruct (occupied s); cbn; auto.
Qed.

(** How far a slot's generation is past [g], before it comes round again. *)
Definition past (t : table) (i g k : Z) : Prop :=
  exists s, vec_lookup (slots_ t) i = Some s /\ 1 <= wrap 16 (generation s - g) <= k.
Lemma past_step op t t' r i g k : perform op t = Ok r t' -> past t i g k -> k + 1 < 2 ^ 16 -> past t' i g (k + 1).
Proof.
  intros E (s & Es & Hk) Hlt. destruct (perform_generation op t t' r i s E Es) as (s' & Es' & [Eg|Eg]); exists s'; (split; [exact Es'|]); rewrite Eg; [lia|].
  unfold wrap in *. replace ((generation s + 1) mod 2 ^ 16 - g) with ((generation s - g) + 1 - 2 ^ 16 * ((generation s + 1) / 2 ^ 16))
    by (rewrite (Z.mod_eq (generation s + 1)) by lia; lia).
  replace ((generation s - g) + 1 - 2 ^ 16 * ((generation s + 1) / 2 ^ 16)) with
    ((generation s - g) mod 2 ^ 16 + 1 + ((generation s - g) / 2 ^ 16 - (generation s + 1) / 2 ^ 16) * 2 ^ 16)
    by (rewrite (Z.mod_eq (generation s - g)) by lia; lia).
  rewrite Z.mod_add, Z.mod_small by lia. lia.
Qed.
Lemma past_all ops t t' rs i g k : perform_all ops t = Ok rs t' -> past t i g k -> k + Z.of_nat (length ops) < 2 ^ 16 ->
  past t' i g (k + Z.of_nat (length ops)).
Proof.
  revert t rs k. induction ops as [|op ops IH]; intros t rs k; cbn [perform_all length]; intros E Hp Hk.
  { injection E as _ <-. now replace (k + Z.of_nat 0) with k by lia. }
  apply bind_ok in E as (r & t1 & E1 & E). apply bind_ok in E as (rs' & t2 & E2 & [= _ <-]).
  replace (k + Z.of_nat (S (length ops))) with (k + 1 + Z.of_nat (length ops)) by lia.
  apply (IH t1 rs' (k + 1)); [exact E2|eapply past_step; eauto; lia|lia].
Qed.
Lemma past_stale t h k : past t (unpack_index h) (unpack_gen h) k -> denotes t h = None.
Proof.
  intros (s & Es & Hk). unfold denotes. rewrite Es. destruct (Z.eqb_spec (generation s) (unpack_gen h)) as [E|E]; [|now rewrite andb_false_r].
  rewrite E, Z.sub_diag in Hk. unfold wrap in Hk. rewrite Zmod_0_l in Hk. lia.
Qed.

(** C23. [handle_table] is a finite map: any sequence of [create], [get], [destroy]
    and [destroy_all] on a new table stays within the slab and answers as a map
    from handles to values does.  [create] returns a handle that is not in use,
    until the map has [max_live] or [Capacity] entries and then the invalid one;
    [get] and [destroy] of anything but a live handle fail and change nothing. *)
Theorem handle_table_refines max ops : Forall op_handles ops ->
  exists rs t M, perform_all ops (table_init max) = Ok rs t /\ spec_run max ∅ ops rs M /\ live_count t = Z.of_nat (size M).
Proof.
  intros Ho. destruct (perform_all_refines ops (table_init max) ∅ (init_rep max) Ho) as (rs & t & M & E & (l & _ & _ & _ & Hs) & Hr).
  exists rs, t, M. auto.
Qed.

(** C24. Stale handles are rejected: once [destroy] has accepted a handle, through
    any 65534 further operations, creations in the same slot included, [get]
    finds nothing under it and [destroy] refuses it. *)
Theorem stale_handle_rejected max ops0 rs0 t0 h t1 ops : Forall op_handles ops0 -> Forall op_handles ops -> in_u 32 h ->
  perform_all ops0 (table_init max) = Ok rs0 t0 -> destroy h t0 = Ok true t1 -> Z.of_nat (length ops) < 65535 ->
  exists rs t2, perform_all ops t1 = Ok rs t2 /\ get_handle h t2 = Ok None t2 /\ destroy h t2 = Ok false t2.
Proof.
  intros Ho0 Ho Hh E0 Ed Hlen. destruct (perform_all_refines ops0 _ _ (init_rep max) Ho0) as (rs' & t' & M0 & E0' & R0 & _).
  rewrite E0 in E0'. injection E0' as <- <-.
  destruct (perform_refines (Destroy h) t0 M0 R0 Hh) as (r & t' & M1 & E1 & R1 & _). cbn [perform] in E1. rewrite (bind_Ok _ _ _ _ _ Ed) in E1.
  injection E1 as _ <-. destruct (perform_all_refines ops t1 M1 R1 Ho) as (rs & t2 & M2 & E2 & (l & W & _) & _).
  exists rs, t2. split; [exact E2|]. assert (Hp : past t1 (unpack_index h) (unpack_gen h) 1).
  { unfold destroy, vec_index, bind, get, modify, ret in Ed. destruct (_ <=? _); [discriminate|].
    destruct (vec_lookup (slots_ t0) (unpack_index h)) as [s|] eqn:Es; [|discriminate]. destruct (_ || _) eqn:Eo; [discriminate|].
    injection Ed as <-. apply orb_false_iff in Eo as [_ Eg%negb_false_iff%Z.eqb_eq]. unfold past. cbn.
    rewrite vec_lookup_update, decide_True by (reflexivity || exact (vec_lookup_lt _ _ _ Es)). eexists. split; [reflexivity|]. cbn. rewrite Eg.
    unfold wrap. rewrite Zminus_mod_idemp_l. replace (unpack_gen h + 1 - unpack_gen h) with 1 by lia. rewrite Z.mod_small by lia. lia. }
  pose proof (past_stale _ _ _ (past_all ops t1 t2 rs _ _ 1 E2 Hp ltac:(lia))) as Hn.
  rewrite (get_handle_denotes t2 l h W Hh), (destroy_stale t2 l h W Hh Hn), Hn. auto.
Qed.
End Table.

(** ** Witnesses *)
Definition handle_demo : list (handle_op (T:=nat)) :=
  [Create 7%nat; Create 8%nat; Create 9%nat; Destroy 0; Get 0; Create 9%nat; Get 1; Get 65536; Destroy 0; DestroyAll; Create 5%nat].
Definition handle_demo_results : list (handle_result (T:=nat)) :=
  [Handle 0; Handle 65536; Handle invalid_handle; Destroyed true; Found None; Handle 1; Found (Some 9%nat); Found (Some 8%nat);
   Destroyed false; Done; Handle 2].
Lemma handle_table_refines_witness : exists rs t M,
  (perform_all 2 handle_demo (table_init 2 2) = Ok rs t /\ spec_run 2 2 ∅ handle_demo rs M /\ live_count t = Z.of_nat (size M)) /\
  rs = handle_demo_results.
Proof.
  destruct (handle_table_refines (T:=nat) 2 ltac:(lia) 2 handle_demo) as (rs & t & M & Hr).
  { repeat constructor; vm_compute; congruence. }
  exists rs, t, M. split; [exact Hr|]. destruct Hr as (E & _).
  assert (E' : match perform_all 2 handle_demo (table_init 2 2) with Ok rs' _ => rs' = handle_demo_results | _ => False end) by (vm_compute; reflexivity).
  rewrite E in E'. exact E'.
Defined.

(** The state after operations that do not fail. *)
Definition after_ops (cap : Z) (ops : list (handle_op (T:=nat))) (t : handle_table nat) : handle_table nat :=
  match perform_all cap ops t with Ok _ t' => t' | _ => t end.
Lemma stale_handle_rejected_witness :
  let t0 := after_ops 1 [Create 7%nat] (table_init 1 1) in
  exists rs t2, perform_all 1 [Create 8%nat; Get 1] (after_ops 1 [Destroy 0] t0) = Ok rs t2 /\
    get_handle 1 0 t2 = Ok None t2 /\ destroy 1 0 t2 = Ok false t2.
Proof.
  intros t0. refine (stale_handle_rejected 1 ltac:(lia) 1 [Create 7%nat] [Handle 0] t0 0 (after_ops 1 [Destroy 0] t0)
    [Create 8%nat; Get 1] _ _ _ _ _ _).
  - repeat constructor.
  - repeat constructor; vm_compute; congruence.
  - vm_compute. intuition congruence.
  - vm_compute. reflexivity.
  - vm_compute. reflexivity.
  - vm_compute. reflexivity.
Defined.

(** Generations come round: after 65536 reuses of its slot a destroyed handle
    is valid again. *)
Definition reuse (th : handle_table nat * Z) : handle_table nat * Z :=
  match destroy 1 th.2 th.1 with
  | Ok true t => match create 1 9%nat t with Ok h t' => (t', h) | _ => th end
  | _ => th
  end.
Lemma stale_handle_revives :
  let th := N.iter 65536 reuse (after_ops 1 [Create 7%nat] (table_init 1 1), 0) in
  match get_handle 1 0 th.1 with Ok v _ => v = Some 9%nat | _ => False end.
Proof. vm_compute. reflexivity. Qed.
