(* ===== verification/Fibers.v ===== *)
(** * psiber: fibers and their wait queues

    Models the parts of psiber/detail/fiber.hpp and psiber/src/scheduler.cpp that
    the locks of psiber/src/fiber_mutex.cpp rely on.  A lock keeps its waiters in
    a list threaded through [Fiber::next_blocked], with a head and a tail
    pointer; the same three statements append to it and the same five remove its
    head in every lock.  A fiber that parks is resumed by [Scheduler::wake], which
    pushes it onto the wake list of its own scheduler; the scheduler drains that
    list on the fiber's own thread, after the fiber has parked, so a wake that
    comes first is not lost. *)
From Stdlib Require Import ZArith Lia Bool.
From stdpp Require Import base numbers decidable option gmap functions list.
From S2P Require Import Prelude.

(** A [Fiber*] other than null. *)
Abbreviation fid := nat.

(** ** Intrusive FIFO queues *)

(** [next_blocked] of every fiber; a missing entry is null. *)
Abbreviation links := (gmap fid fid).
Record wait_queue := { wait_head : option fid; wait_tail : option fid }.
Definition wait_empty : wait_queue := {| wait_head := None; wait_tail := None |}.

(** [self->next_blocked = nullptr; if (_wait_tail) _wait_tail->next_blocked = self;
    else _wait_head = self; _wait_tail = self;] *)
Definition wait_push (self : fid) (q : wait_queue) (nx : links) : wait_queue * links :=
  let nx := delete self nx in
  match wait_tail q with
  | Some t => ({| wait_head := wait_head q; wait_tail := Some self |}, <[t := self]> nx)
  | None => ({| wait_head := Some self; wait_tail := Some self |}, nx)
  end.

(** [next = _wait_head; _wait_head = next->next_blocked; if (!_wait_head)
    _wait_tail = nullptr; next->next_blocked = nullptr;] *)
Definition wait_pop (next : fid) (q : wait_queue) (nx : links) : wait_queue * links :=
  let h := nx !! next in
  ({| wait_head := h; wait_tail := match h with None => None | Some _ => wait_tail q end |}, delete next nx).

(** The fibers of a queue, first to last. *)
Fixpoint linked (nx : links) (l : list fid) : Prop :=
  match l with [] => True | f :: l' => nx !! f = head l' /\ linked nx l' end.
Record queue_rep (q : wait_queue) (nx : links) (l : list fid) : Prop := {
  qr_head : wait_head q = head l;
  qr_tail : wait_tail q = last l;
  qr_linked : linked nx l;
  qr_nodup : NoDup l }.

Lemma linked_ext nx nx' l : (forall f, f ∈ l -> nx' !! f = nx !! f) -> linked nx l -> linked nx' l.
Proof.
  induction l as [|f l IH]; cbn; [done|]. intros He [H1 H2]. split; [rewrite He by set_solver; exact H1|].
  apply IH; [|exact H2]. intros g Hg. apply He. set_solver.
Qed.
Lemma linked_snoc nx l t f : linked nx (l ++ [t]) -> NoDup (l ++ [t]) -> f ∉ l ++ [t] ->
  linked (<[t := f]> (delete f nx)) ((l ++ [t]) ++ [f]).
Proof.
  induction l as [|a l IH]; cbn [app linked head].
  - intros _ _ Hf. split; [apply lookup_insert_eq|]. split; [|done].
    rewrite lookup_insert_ne by set_solver. apply lookup_delete_eq.
  - rewrite NoDup_cons. intros [H1 H2] [Hn Hd] Hf. split; [|apply IH; set_solver].
    rewrite lookup_insert_ne, lookup_delete_ne by set_solver. rewrite H1. now destruct l.
Qed.

Lemma wait_push_rep self q nx l : queue_rep q nx l -> self ∉ l ->
  queue_rep (wait_push self q nx).1 (wait_push self q nx).2 (l ++ [self]).
Proof.
  intros [Hh Ht Hl Hn] Hs. unfold wait_push. rewrite Ht. destruct (last l) as [t|] eqn:El.
  - apply last_Some in El as [l' ->]. cbn. split; cbn.
    + rewrite Hh. now destruct l'.
    + symmetry. apply last_snoc.
    + now apply linked_snoc.
    + apply NoDup_app. split; [exact Hn|]. split; [set_solver|apply NoDup_singleton].
  - apply last_None in El as ->. cbn. split; cbn; auto using NoDup_singleton. split; [apply lookup_delete_eq|done].
Qed.
Lemma wait_pop_rep q nx f l : queue_rep q nx (f :: l) ->
  queue_rep (wait_pop f q nx).1 (wait_pop f q nx).2 l.
Proof.
  intros [Hh Ht [Hl1 Hl2] [Hn1 Hn2]%NoDup_cons]. unfold wait_pop. rewrite Hl1. split; cbn; auto.
  - destruct l as [|g l]; [done|]. now rewrite Ht.
  - eapply linked_ext; [|exact Hl2]. intros g Hg. apply lookup_delete_ne. set_solver.
Qed.
