(* ===== verification/FiberMutex.v ===== *)
(** * psiber: [fiber_mutex]

    Models [fiber_mutex] of psiber/src/fiber_mutex.cpp as the interleaving of its
    callers, fibers of any number of schedulers: one step per access to the
    shared state, so a fiber can be overtaken between any two of them.  Memory is
    sequentially consistent.  The spin lock that protects the queue is a flag;
    spinning is waiting for it.  A fiber calls [unlock] only while it holds the
    mutex.  Shutdown, which resumes parked fibers with an exception, is not
    modelled. *)
From Stdlib Require Import ZArith Lia Bool.
From stdpp Require Import base numbers decidable option gmap functions list.
From S2P Require Import Prelude Fibers.

(** ** State *)

(** Where a fiber is: outside of the mutex, in [lock], in [try_lock], holding
    the mutex, or in [unlock] with the fiber it hands the mutex to. *)
Inductive mutex_pc :=
  | Idle
  | LockCas | LockSpin | LockCas2 | LockGot | LockEnqueue | LockRelease | Parking | Parked
  | TryCas
  | Holding
  | UnlockSpin | UnlockPop | UnlockStore (next : option fid) | UnlockRelease (next : option fid) | Waking (next : fid).

Record mutex := {
  _owner : option fid; _queue : wait_queue; _queue_lock : bool;
  next_blocked : links; wake_list : gset fid; pcs : fid -> mutex_pc }.

#[global] Instance eta_mutex : Eta mutex := fun s =>
  {| _owner := _owner s; _queue := _queue s; _queue_lock := _queue_lock s;
     next_blocked := next_blocked s; wake_list := wake_list s; pcs := pcs s |}.

Definition mutex_init : mutex :=
  {| _owner := None; _queue := wait_empty; _queue_lock := false; next_blocked := ∅; wake_list := ∅;
     pcs := fun _ => Idle |}.

Definition goto (f : fid) (p : mutex_pc) (s : mutex) : mutex := s <| pcs := <[f := p]> (pcs s) |>.

(** ** The operations, step by step *)

(** [_owner.compare_exchange_strong(nullptr, self)] *)
Definition cas_owner (f : fid) (yes no : mutex_pc) (s : mutex) : mutex :=
  match _owner s with
  | None => goto f yes (s <| _owner := Some f |>)
  | Some _ => goto f no s
  end.
(** [_queue_lock.lock()] returns once the flag was clear. *)
Definition spin_lock_acquire (f : fid) (p : mutex_pc) (s : mutex) : option mutex :=
  if _queue_lock s then None else Some (goto f p (s <| _queue_lock := true |>)).
Definition spin_lock_release (f : fid) (p : mutex_pc) (s : mutex) : mutex := goto f p (s <| _queue_lock := false |>).

Definition lock_step (f : fid) (s : mutex) : option mutex :=
  match pcs s f with
  | LockCas => Some (cas_owner f Holding LockSpin s)
  | LockSpin => spin_lock_acquire f LockCas2 s
  | LockCas2 => Some (cas_owner f LockGot LockEnqueue s)
  | LockGot => Some (spin_lock_release f Holding s)
  | LockEnqueue =>
      let (q, nx) := wait_push f (_queue s) (next_blocked s) in
      Some (goto f LockRelease (s <| _queue := q |> <| next_blocked := nx |>))
  | LockRelease => Some (spin_lock_release f Parking s)
  | Parking => Some (goto f Parked s)
  | Parked => if decide (f ∈ wake_list s) then Some (goto f Holding (s <| wake_list := wake_list s ∖ {[f]} |>)) else None
  | _ => None
  end.
Definition unlock_step (f : fid) (s : mutex) : option mutex :=
  match pcs s f with
  | UnlockSpin => spin_lock_acquire f UnlockPop s
  | UnlockPop =>
      match wait_head (_queue s) with
      | Some next =>
          let (q, nx) := wait_pop next (_queue s) (next_blocked s) in
          Some (goto f (UnlockStore (Some next)) (s <| _queue := q |> <| next_blocked := nx |>))
      | None => Some (goto f (UnlockStore None) s)
      end
  | UnlockStore next => Some (goto f (UnlockRelease next) (s <| _owner := next |>))
  | UnlockRelease next =>
      Some (spin_lock_release f (match next with Some n => Waking n | None => Idle end) s)
  | Waking next => Some (goto f Idle (s <| wake_list := {[next]} ∪ wake_list s |>))
  | _ => None
  end.
Definition try_lock_step (f : fid) (s : mutex) : option mutex :=
  match pcs s f with TryCas => Some (cas_owner f Holding Idle s) | _ => None end.

(** The caller's choices. *)
Inductive mutex_call := CallLock | CallTryLock | CallUnlock.
Definition call_step (f : fid) (k : mutex_call) (s : mutex) : option mutex :=
  match k, pcs s f with
  | CallLock, Idle => Some (goto f LockCas s)
  | CallTryLock, Idle => Some (goto f TryCas s)
  | CallUnlock, Holding => Some (goto f UnlockSpin s)
  | _, _ => None
  end.

(** A step inside of a call. *)
Definition internal_step (f : fid) (s : mutex) : option mutex :=
  match lock_step f s with
  | Some s' => Some s'
  | None => match unlock_step f s with Some s' => Some s' | None => try_lock_step f s end
  end.

Inductive mutex_step (f : fid) (s s' : mutex) : Prop :=
  | step_internal : internal_step f s = Some s' -> mutex_step f s s'
  | step_call k : call_step f k s = Some s' -> mutex_step f s s'.

Inductive reachable : mutex -> Prop :=
  | reach_init : reachable mutex_init
  | reach_step f s s' : reachable s -> mutex_step f s s' -> reachable s'.

(** ** The invariant

    Who the mutex belongs to, and how far its hand-over has come. *)
Inductive phase :=
  | Free
  | Owned (f : fid)
  | Popped (g n : fid)  (* [g] took [n] off the queue *)
  | Handed (g n : fid)  (* [g] made [n] the owner and will wake it *)
  | Woken (n : fid).    (* [n] is in its wake list *)
#[global] Instance phase_eq_dec : EqDecision phase.
Proof. solve_decision. Defined.

Definition phase_owner (ph : phase) : option fid :=
  match ph with Free => None | Owned f | Popped f _ => Some f | Handed _ n | Woken n => Some n end.
(** The fiber that waits for a hand-over under way. *)
Definition next_owner (ph : phase) : option fid :=
  match ph with Popped _ n | Handed _ n | Woken n => Some n | _ => None end.
(** The fiber that carries the mutex or the hand-over. *)
Definition carrier (ph : phase) : option fid :=
  match ph with Owned f | Popped f _ | Handed f _ => Some f | _ => None end.

(** What the place of a fiber says about the rest: [l] the queue, [h] the holder
    of the queue's lock. *)
Definition outside (l : list fid) (ph : phase) (f : fid) : Prop :=
  (f ∉ l) /\ next_owner ph <> Some f /\ carrier ph <> Some f.
Definition placed (l : list fid) (h : option fid) (ph : phase) (f : fid) (p : mutex_pc) : Prop :=
  match p with
  | Idle | LockCas | LockSpin | TryCas => h <> Some f /\ outside l ph f
  | LockCas2 => h = Some f /\ outside l ph f
  | LockEnqueue => h = Some f /\ outside l ph f /\ ph <> Free
  | LockGot | UnlockPop => h = Some f /\ (f ∉ l) /\ ph = Owned f
  | LockRelease => h = Some f /\ f ∈ l /\ next_owner ph <> Some f /\ carrier ph <> Some f
  | Parking | Parked => h <> Some f /\ carrier ph <> Some f /\ (f ∈ l <-> next_owner ph <> Some f)
  | Holding | UnlockSpin => h <> Some f /\ (f ∉ l) /\ ph = Owned f
  | UnlockStore None => h = Some f /\ ph = Owned f /\ l = []
  | UnlockStore (Some n) => h = Some f /\ (f ∉ l) /\ ph = Popped f n
  | UnlockRelease None => h = Some f /\ outside l ph f
  | UnlockRelease (Some n) => h = Some f /\ (f ∉ l) /\ ph = Handed f n
  | Waking n => h <> Some f /\ (f ∉ l) /\ ph = Handed f n
  end.

Record mutex_inv (s : mutex) (l : list fid) (h : option fid) (ph : phase) : Prop := {
  mi_queue : queue_rep (_queue s) (next_blocked s) l;
  mi_lock : _queue_lock s = bool_decide (is_Some h);
  mi_owner : _owner s = phase_owner ph;
  mi_wakes : wake_list s = match ph with Woken n => {[n]} | _ => ∅ end;
  mi_waited : l <> [] -> ph <> Free;
  mi_distinct : forall n, next_owner ph = Some n -> carrier ph <> Some n;
  mi_pcs : forall f, placed l h ph f (pcs s f) }.

Lemma init_inv : mutex_inv mutex_init [] None Free.
Proof.
  split; try done; [split; try done; constructor|]. intros f. cbn. split; [done|]. split; [set_solver|done].
Qed.

(** What a step of another fiber must leave alone for [g]'s place to stand. *)
Lemma placed_frame l l' h h' ph ph' g p : placed l h ph g p ->
  (g ∈ l' <-> g ∈ l) -> (h' = Some g <-> h = Some g) ->
  (next_owner ph' = Some g <-> next_owner ph = Some g) -> (carrier ph' = Some g <-> carrier ph = Some g) ->
  (carrier ph = Some g -> ph' = ph) -> (h = Some g -> l = [] -> l' = []) -> (h = Some g -> ph <> Free -> ph' <> Free) ->
  placed l' h' ph' g p.
Proof.
  intros Hp El Eh En Ec Ep Hl Hf. unfold placed, outside in *.
  destruct p as [| | | | | | | | | | | | |[n|]|[n|]|n]; intuition (subst; cbn in *; auto; congruence).
Qed.

(** A queued fiber is parked or about to. *)
Lemma placed_queued l h ph n p : placed l h ph n p -> n ∈ l -> h <> Some n -> p = Parking \/ p = Parked.
Proof.
  intros Hp Hl Hh. unfold placed, outside in Hp.
  destruct p as [| | | | | | | | | | | | |[m|]|[m|]|m]; intuition (subst; auto; congruence || now apply not_elem_of_nil in Hl).
Qed.

(** ** Every step preserves the invariant *)
Lemma placed_goto l' h' ph' s f p' :
  placed l' h' ph' f p' -> (forall g, g <> f -> placed l' h' ph' g (pcs s g)) ->
  forall g, placed l' h' ph' g (pcs (goto f p' s) g).
Proof.
  intros Hf Hg g. cbn. destruct (decide (g = f)) as [->|Hne]; [now rewrite fn_lookup_insert|].
  rewrite fn_lookup_insert_ne by congruence. auto.
Qed.

(** The places of the other fibers, when the phase and the lock change hands at [f] only. *)
Ltac other I g :=
  eapply placed_frame; [exact (mi_pcs _ _ _ _ I g)|..]; cbn [next_owner carrier phase_owner];
  rewrite ?elem_of_app, ?list_elem_of_singleton, ?elem_of_cons; intuition congruence.
Ltac others I := let g := fresh in intros g ?; other I g.

(** The fields of the invariant a step does not touch. *)
Ltac inv_fields := split; auto; try (intros; discriminate).

Section Preservation.
Context (s : mutex) (l : list fid) (h : option fid) (ph : phase) (f : fid) (I : mutex_inv s l h ph).

Lemma inv_goto p' : placed l h ph f p' -> mutex_inv (goto f p' s) l h ph.
Proof.
  intros Hp. destruct I as [? ? ? ? ? ? ?]. split; auto. apply placed_goto; auto.
Qed.
Lemma inv_acquire p' : h = None -> placed l (Some f) ph f p' ->
  mutex_inv (goto f p' (s <| _queue_lock := true |>)) l (Some f) ph.
Proof.
  intros -> Hp. pose proof I as [? ? ? ? ? ? ?]. split; auto.
  apply placed_goto; [exact Hp|]. others I.
Qed.
Lemma inv_release p' : h = Some f -> placed l None ph f p' -> mutex_inv (spin_lock_release f p' s) l None ph.
Proof.
  intros -> Hp. pose proof I as [? ? ? ? ? ? ?]. split; auto.
  apply placed_goto; [exact Hp|]. others I.
Qed.
Lemma inv_cas_null p' : ph = Free -> placed l h (Owned f) f p' ->
  mutex_inv (goto f p' (s <| _owner := Some f |>)) l h (Owned f).
Proof.
  intros -> Hp. pose proof I as [? ? ? ? Hw ? ?]. inv_fields. apply placed_goto; [exact Hp|]. others I.
Qed.
Lemma minv_push q nx : wait_push f (_queue s) (next_blocked s) = (q, nx) -> pcs s f = LockEnqueue ->
  mutex_inv (goto f LockRelease (s <| _queue := q |> <| next_blocked := nx |>)) (l ++ [f]) h ph.
Proof.
  intros E Hpc. pose proof I as [Q ? ? ? Hw ? P]. pose proof (P f) as Hf. rewrite Hpc in Hf. destruct Hf as (-> & (Ho1 & Ho2 & Ho3) & Hfree).
  pose proof (wait_push_rep f _ _ _ Q Ho1) as Q'. rewrite E in Q'. split; auto.
  apply placed_goto; [repeat split; auto; set_solver|]. others I.
Qed.
Lemma minv_pop n q nx : wait_head (_queue s) = Some n -> wait_pop n (_queue s) (next_blocked s) = (q, nx) ->
  pcs s f = UnlockPop ->
  exists l', l = n :: l' /\ mutex_inv (goto f (UnlockStore (Some n)) (s <| _queue := q |> <| next_blocked := nx |>)) l' h (Popped f n).
Proof.
  intros Eh E Hpc. pose proof I as [Q ? ? ? Hw ? P]. pose proof (P f) as Hf. rewrite Hpc in Hf. destruct Hf as (-> & Hfl & ->).
  rewrite (qr_head _ _ _ Q) in Eh. destruct l as [|n' l']; [discriminate|]. injection Eh as ->. exists l'. split; [reflexivity|].
  pose proof (wait_pop_rep _ _ _ _ Q) as Q'. rewrite E in Q'. pose proof (qr_nodup _ _ _ Q) as [Hn1 Hn2]%NoDup_cons. inv_fields.
  - intros m [= <-] [= ->]. set_solver.
  - intros g. destruct (decide (g = f)) as [->|Hg]; [cbn; rewrite fn_lookup_insert|cbn; rewrite fn_lookup_insert_ne by congruence].
    { split; [done|]. split; [|done]. intros Hin. apply Hfl. now apply list_elem_of_further. }
     destruct (decide (g = n)) as [->|Hgn].
    + destruct (placed_queued _ _ _ _ _ (P n) (list_elem_of_here _ _) ltac:(congruence)) as [Ep|Ep];
        pose proof (P n) as Hp; rewrite Ep in Hp |- *; destruct Hp as (Hp1 & Hp2 & _); refine (conj Hp1 (conj Hp2 _));
        (split; intros Hx; [contradiction|now destruct Hx]).
    + other I g.
Qed.
Lemma inv_store next : pcs s f = UnlockStore next ->
  mutex_inv (goto f (UnlockRelease next) (s <| _owner := next |>)) l h
    (match next with Some n => Handed f n | None => Free end).
Proof.
  intros Hpc. pose proof I as [Q ? ? ? Hw Hd P]. pose proof (P f) as Hf. rewrite Hpc in Hf. destruct next as [n|].
  - destruct Hf as (-> & Hl & ->). inv_fields. apply placed_goto; [done|]. others I.
  - destruct Hf as (-> & -> & ->). inv_fields. apply placed_goto; [|others I].
    split; [done|]. split; [set_solver|done].
Qed.
Lemma inv_wake n : pcs s f = Waking n ->
  mutex_inv (goto f Idle (s <| wake_list := {[n]} ∪ wake_list s |>)) l h (Woken n).
Proof.
  intros Hpc. pose proof I as [Q ? ? Ew Hw Hd P]. pose proof (P f) as Hf. rewrite Hpc in Hf. destruct Hf as (Hh & Hl & ->).
  inv_fields; [cbn; rewrite Ew; set_solver|].
  apply placed_goto; [|others I]. split; [exact Hh|]. split; [exact Hl|].
  split; [|discriminate]. intros [= ->]. now apply (Hd f).
Qed.
Lemma inv_resume : pcs s f = Parked -> f ∈ wake_list s ->
  mutex_inv (goto f Holding (s <| wake_list := wake_list s ∖ {[f]} |>)) l h (Owned f).
Proof.
  intros Hpc Hin. pose proof I as [Q ? Ho Ew Hw Hd P]. rewrite Ew in Hin. destruct ph as [| | | |n]; try (now apply not_elem_of_empty in Hin).
  apply elem_of_singleton in Hin as <-. pose proof (P f) as Hf. rewrite Hpc in Hf. destruct Hf as (Hh & _ & Hl).
  inv_fields; [cbn; rewrite Ew; set_solver|].
  apply placed_goto; [|others I]. split; [exact Hh|]. split; [|done]. intros Hin. apply Hl in Hin. now apply Hin.
Qed.
End Preservation.

(** The fibers waiting for the mutex, in order; a popped one is still first. *)
Definition line (l : list fid) (ph : phase) : list fid := match ph with Popped _ n => n :: l | _ => l end.

(** What one step can do to the owner and to the line. *)
Inductive advances (own own' : option fid) (ln ln' : list fid) : Prop :=
  | adv_same : own' = own -> ln' = ln -> advances own own' ln ln'
  | adv_arrive f : own' = own -> ln' = ln ++ [f] -> advances own own' ln ln'
  | adv_free : own' = None -> ln = [] -> ln' = [] -> advances own own' ln ln'
  | adv_take f : own = None -> own' = Some f -> ln = [] -> ln' = [] -> advances own own' ln ln'
  | adv_hand n : own <> Some n -> own' = Some n -> ln = n :: ln' -> advances own own' ln ln'.

Definition preserved (s s' : mutex) (l : list fid) (ph : phase) : Prop :=
  exists l' h' ph', mutex_inv s' l' h' ph' /\ advances (_owner s) (_owner s') (line l ph) (line l' ph').

Section Steps.
Context (s : mutex) (l : list fid) (h : option fid) (ph : phase) (f : fid) (I : mutex_inv s l h ph).

(** A step that leaves owner and line alone. *)
Lemma preserved_same s' h' ph' : mutex_inv s' l h' ph' -> _owner s' = _owner s -> line l ph' = line l ph -> preserved s s' l ph.
Proof. intros I' Ho Hl. exists l, h', ph'. split; [exact I'|]. now apply adv_same. Qed.
Lemma preserved_goto p' : placed l h ph f p' -> preserved s (goto f p' s) l ph.
Proof. intros Hp. apply (preserved_same _ h ph); auto. now apply inv_goto. Qed.

(** The compare-exchange on [_owner]: it succeeds only when nobody waits. *)
Lemma preserved_cas yes no : outside l ph f -> (ph = Free -> placed l h (Owned f) f yes) -> (ph <> Free -> placed l h ph f no) ->
  preserved s (cas_owner f yes no s) l ph.
Proof.
  intros Ho Hy Hn. unfold cas_owner. rewrite (mi_owner _ _ _ _ I). destruct (decide (ph = Free)) as [Ep|Ep].
  - rewrite Ep. cbn [phase_owner]. assert (El : l = []) by (destruct (decide (l = [])) as [|Hne]; [done|now destruct (mi_waited _ _ _ _ I Hne)]).
    exists l, h, (Owned f). split; [apply (inv_cas_null s l h ph f I); auto|]. apply (adv_take _ _ _ _ f); auto.
    now rewrite (mi_owner _ _ _ _ I), Ep.
  - replace (match phase_owner ph with Some _ => goto f no s | None => _ end) with (goto f no s) by (now destruct ph).
    now apply preserved_goto, Hn.
Qed.

Lemma lock_preserved s' : lock_step f s = Some s' -> preserved s s' l ph.
Proof.
  unfold lock_step. pose proof (mi_pcs _ _ _ _ I f) as Hp. destruct (pcs s f) eqn:Epc; try discriminate; intros [= <-] || intros E; cbn in Hp.
  - apply preserved_cas; [tauto| |]; intros; cbn; unfold outside in *; tauto.
  - unfold spin_lock_acquire in E. rewrite (mi_lock _ _ _ _ I) in E. destruct h as [g|] eqn:Eh; [discriminate|]. injection E as <-.
    apply (preserved_same _ (Some f) ph); auto. apply (inv_acquire s l _ ph f I); auto. cbn. tauto.
  - apply preserved_cas; [tauto| |]; intros; cbn; unfold outside in *; tauto.
  - apply (preserved_same _ None ph); auto. apply (inv_release s l h ph f I); [tauto|]. cbn. intuition discriminate.
  - destruct (wait_push f (_queue s) (next_blocked s)) as [q nx] eqn:Eq. injection E as <-.
    exists (l ++ [f]), h, ph. split; [now apply (minv_push s l h ph f I)|]. apply (adv_arrive _ _ _ _ f); [reflexivity|]. now destruct ph.
  - apply (preserved_same _ None ph); auto. apply (inv_release s l h ph f I); [tauto|]. cbn. intuition discriminate.
  - apply preserved_goto. exact Hp.
  - destruct (decide (f ∈ wake_list s)) as [Hin|]; [|discriminate]. injection E as <-.
    exists l, h, (Owned f). split; [now apply (inv_resume s l h ph f I)|]. rewrite (mi_wakes _ _ _ _ I) in Hin.
    destruct ph; try (now apply not_elem_of_empty in Hin). apply adv_same; reflexivity.
Qed.
Lemma unlock_preserved s' : unlock_step f s = Some s' -> preserved s s' l ph.
Proof.
  unfold unlock_step. pose proof (mi_pcs _ _ _ _ I f) as Hp. destruct (pcs s f) as [| | | | | | | | | | | | |next|next|next] eqn:Epc;
    try discriminate; intros E; cbn in Hp.
  - unfold spin_lock_acquire in E. rewrite (mi_lock _ _ _ _ I) in E. destruct h as [g|] eqn:Eh; [discriminate|]. injection E as <-.
    apply (preserved_same _ (Some f) ph); auto. apply (inv_acquire s l _ ph f I); auto. cbn. tauto.
  - destruct (wait_head (_queue s)) as [n|] eqn:Eh.
    + destruct (wait_pop n (_queue s) (next_blocked s)) as [q nx] eqn:Eq. injection E as <-.
      destruct (minv_pop s l h ph f I n q nx Eh Eq Epc) as (l' & -> & I'). exists l', h, (Popped f n). split; [exact I'|].
      destruct Hp as (_ & _ & ->). now apply adv_same.
    + injection E as <-. apply preserved_goto. rewrite (qr_head _ _ _ (mi_queue _ _ _ _ I)) in Eh. destruct l; [cbn; tauto|discriminate].
  - injection E as <-. pose proof (inv_store s l h ph f I next Epc) as I'. destruct next as [n|]; eexists l, h, _; (split; [exact I'|]).
    + destruct Hp as (_ & _ & ->). apply (adv_hand _ _ _ _ n); [|reflexivity|reflexivity].
      rewrite (mi_owner _ _ _ _ I). intros [= <-]. exact (mi_distinct _ _ _ _ I f eq_refl eq_refl).
    + destruct Hp as (_ & -> & ->). now apply adv_free.
  - injection E as <-. apply (preserved_same _ None ph); auto. apply (inv_release s l h ph f I); destruct next; cbn in *; intuition discriminate.
  - injection E as <-. exists l, h, (Woken next). split; [now apply (inv_wake s l h ph f I)|]. destruct Hp as (_ & _ & ->). now apply adv_same.
Qed.
Lemma call_preserved k s' : call_step f k s = Some s' -> preserved s s' l ph.
Proof.
  unfold call_step. pose proof (mi_pcs _ _ _ _ I f) as Hp.
  destruct k, (pcs s f); try discriminate; intros [= <-]; apply preserved_goto; exact Hp.
Qed.
Lemma step_preserved s' : mutex_step f s s' -> preserved s s' l ph.
Proof.
  intros [E|k E]; [|exact (call_preserved k s' E)]. unfold internal_step in E.
  destruct (lock_step f s) eqn:E1; [injection E as <-; now apply lock_preserved|].
  destruct (unlock_step f s) eqn:E2; [injection E as <-; now apply unlock_preserved|].
  unfold try_lock_step in E. pose proof (mi_pcs _ _ _ _ I f) as Hp. destruct (pcs s f); try discriminate. injection E as <-. cbn in Hp.
  apply preserved_cas; [tauto| |]; intros; cbn; unfold outside in *; tauto.
Qed.
End Steps.

Lemma reachable_inv s : reachable s -> exists l h ph, mutex_inv s l h ph.
Proof.
  induction 1 as [|f s s' _ (l & h & ph & I) Hs]; [exists [], None, Free; apply init_inv|].
  destruct (step_preserved s l h ph f I s' Hs) as (l' & h' & ph' & I' & _). eauto.
Qed.

(** ** Exclusion *)

(** C18. Mutual exclusion of [fiber_mutex]: however the steps of [lock], [try_lock]
    and [unlock] of any number of fibers interleave, a fiber between the return
    of its [lock] and the store that ends its [unlock] is the recorded owner, so
    there is never a second one. *)
Theorem fiber_mutex_exclusive s f g : reachable s ->
  pcs s f ∈ [Holding; UnlockSpin; UnlockPop] -> pcs s g ∈ [Holding; UnlockSpin; UnlockPop] ->
  _owner s = Some f /\ g = f.
Proof.
  intros (l & h & ph & I)%reachable_inv Hf Hg. pose proof (mi_pcs _ _ _ _ I f) as Pf. pose proof (mi_pcs _ _ _ _ I g) as Pg.
  assert (Ef : ph = Owned f) by (rewrite !elem_of_cons in Hf; destruct Hf as [E|[E|[E|E%not_elem_of_nil]]]; try done; rewrite E in Pf; apply Pf).
  assert (Eg : ph = Owned g) by (rewrite !elem_of_cons in Hg; destruct Hg as [E|[E|[E|E%not_elem_of_nil]]]; try done; rewrite E in Pg; apply Pg).
  rewrite (mi_owner _ _ _ _ I), Ef. split; [reflexivity|congruence].
Qed.

(** ** Order *)

(** The fibers that become the owner along a run. *)
Definition granted (s s' : mutex) : list fid :=
  if decide (_owner s' = _owner s) then [] else option_list (_owner s').
Inductive mutex_run : mutex -> list fid -> mutex -> Prop :=
  | run_done s : mutex_run s [] s
  | run_more f s s1 s2 gs : mutex_step f s s1 -> mutex_run s1 gs s2 -> mutex_run s (granted s s1 ++ gs) s2.

Lemma prefix_snoc_inv {A} (l k : list A) a : l `prefix_of` k ++ [a] -> l = k ++ [a] \/ l `prefix_of` k.
Proof.
  intros [r Hr]. destruct r as [|b r _] using rev_ind; [left; now rewrite app_nil_r in Hr|].
  rewrite app_assoc in Hr. apply app_inj_tail in Hr as [-> _]. right. now exists r.
Qed.
Lemma advances_granted s s' ln ln' gs : advances (_owner s) (_owner s') ln ln' ->
  gs `prefix_of` ln' \/ ln' `prefix_of` gs -> granted s s' ++ gs `prefix_of` ln \/ ln `prefix_of` granted s s' ++ gs.
Proof.
  unfold granted. intros [E ->|f E ->|E -> ->|f E1 E2 -> ->|n Hne E ->] Hp.
  - rewrite decide_True by exact E. exact Hp.
  - rewrite decide_True by exact E. cbn. destruct Hp as [Hp|Hp]; [|right; etrans; [|exact Hp]; now apply prefix_app_r].
    destruct (prefix_snoc_inv gs ln f Hp) as [->|Hp']; [right; now apply prefix_app_r|now left].
  - right. apply prefix_nil.
  - right. apply prefix_nil.
  - rewrite decide_False by congruence. rewrite E. cbn. destruct Hp as [Hp|Hp]; [left|right]; now apply prefix_cons.
Qed.

(** C20. First come, first served: the fibers waiting in a reachable state are in
    a line such that, whatever happens next, the mutex is granted to them in
    that order before anyone else; neither the fast path of [lock] nor
    [try_lock] can overtake a waiter. *)
Theorem fiber_mutex_fifo s : reachable s ->
  exists ln, NoDup ln /\
    (forall f, pcs s f = Parking \/ pcs s f = Parked -> _owner s <> Some f -> f ∈ ln) /\
    (forall gs s', mutex_run s gs s' -> gs `prefix_of` ln \/ ln `prefix_of` gs).
Proof.
  intros (l & h & ph & I)%reachable_inv. exists (line l ph). split; [|split].
  - pose proof (qr_nodup _ _ _ (mi_queue _ _ _ _ I)) as Hn. destruct ph as [| |g n| |]; cbn; auto. apply NoDup_cons. split; [|exact Hn].
    intros Hin. pose proof (mi_pcs _ _ _ _ I n) as Pn. assert (Hh : h = Some g).
    { pose proof (mi_pcs _ _ _ _ I g) as Pg. unfold placed, outside in Pg. cbn in Pg.
      destruct (pcs s g) as [| | | | | | | | | | | | |[m|]|[m|]|m]; intuition (congruence || discriminate). }
    destruct (placed_queued _ _ _ _ _ Pn Hin) as [E|E].
    { rewrite Hh. intros [= ->]. exact (mi_distinct _ _ _ _ I n eq_refl eq_refl). }
    all: rewrite E in Pn; destruct Pn as (_ & _ & Pn); now apply Pn in Hin.
  - intros f Hf Ho. pose proof (mi_pcs _ _ _ _ I f) as Pf. rewrite (mi_owner _ _ _ _ I) in Ho.
    assert (Hl : f ∈ l <-> next_owner ph <> Some f) by (destruct Hf as [E|E]; rewrite E in Pf; apply Pf).
    destruct ph as [| |g n| |]; cbn in *; try (apply Hl; congruence).
    destruct (decide (n = f)) as [->|Hne]; [apply list_elem_of_here|]. apply list_elem_of_further, Hl. congruence.
  - intros gs s' Hr. revert l h ph I. induction Hr as [s|f s s1 s2 gs Hs Hr IH]; intros l h ph I; [left; apply prefix_nil|].
    destruct (step_preserved s l h ph f I s1 Hs) as (l' & h' & ph' & I' & Ha).
    eapply advances_granted; [exact Ha|]. now apply (IH l' h' ph').
Qed.

(** ** Progress *)

(** How many steps of its own a fiber has left in its call. *)
Definition steps_left (p : mutex_pc) : nat :=
  match p with
  | Idle | Holding => 0
  | LockCas => 8 | LockSpin => 7 | LockCas2 => 6 | LockGot => 1 | LockEnqueue => 5 | LockRelease => 4
  | Parking => 3 | Parked => 2 | TryCas => 1
  | UnlockSpin => 5 | UnlockPop => 4 | UnlockStore _ => 3 | UnlockRelease _ => 2 | Waking _ => 1
  end.

Lemma internal_step_moves f s s' : internal_step f s = Some s' ->
  exists p, pcs s' = <[f := p]> (pcs s) /\ (steps_left p < steps_left (pcs s f))%nat.
Proof.
  unfold internal_step, lock_step, unlock_step, try_lock_step, spin_lock_acquire, spin_lock_release, cas_owner.
  destruct (pcs s f) as [| | | | | | | | | | | | |next|next|next], (_owner s), (_queue_lock s), (wait_head (_queue s)),
    (decide (f ∈ wake_list s)); try destruct (wait_push _ _ _); try destruct (wait_pop _ _ _); intros [= <-];
    eexists; (split; [reflexivity|cbn; lia]) || (split; [reflexivity|destruct next; cbn; lia]).
Qed.

(** Only a fiber that waits can be unable to go on. *)
Lemma stuck_pcs s l h ph f : mutex_inv s l h ph -> (forall f, internal_step f s = None) ->
  pcs s f = Idle \/ pcs s f = Holding \/ (pcs s f = Parked /\ f ∉ wake_list s).
Proof.
  intros I Hs. assert (Hh : h = None).
  { destruct h as [g|]; [|reflexivity]. pose proof (mi_pcs _ _ _ _ I g) as Pg. specialize (Hs g).
    unfold internal_step, lock_step, unlock_step, try_lock_step in Hs. unfold placed in Pg.
    destruct (pcs s g) as [| | | | | | | | | | | | |[m|]|[m|]|m], (wait_head (_queue s)); try destruct (wait_push _ _ _);
      try destruct (wait_pop _ _ _); try discriminate Hs; exfalso; now apply Pg. }
  pose proof (mi_lock _ _ _ _ I) as El. rewrite Hh in El. change (_queue_lock s = false) in El. specialize (Hs f).
  unfold internal_step, lock_step, unlock_step, try_lock_step, spin_lock_acquire in Hs. rewrite El in Hs.
  destruct (pcs s f) as [| | | | | | | | | | | | |next|next|next], (wait_head (_queue s)), (decide (f ∈ wake_list s)); auto;
    try destruct (wait_push _ _ _); try destruct (wait_pop _ _ _); discriminate Hs.
Qed.

(** C19. No lost wake-up: in every reachable state each internal step brings its
    caller closer to the end of the call, and when no fiber can take one, every
    fiber is outside of the mutex, holds it, or is parked while another fiber
    holds it. *)
Theorem fiber_mutex_progress s : reachable s ->
  (forall f s', internal_step f s = Some s' ->
     (steps_left (pcs s' f) < steps_left (pcs s f))%nat /\ forall g, g <> f -> pcs s' g = pcs s g) /\
  ((forall f, internal_step f s = None) -> forall f,
     pcs s f = Idle \/ pcs s f = Holding \/ (pcs s f = Parked /\ exists g, g <> f /\ pcs s g = Holding)).
Proof.
  intros (l & h & ph & I)%reachable_inv. split.
  - intros f s' (p & -> & Hlt)%internal_step_moves. rewrite fn_lookup_insert. split; [exact Hlt|].
    intros g Hg. now rewrite fn_lookup_insert_ne by congruence.
  - intros Hs f. destruct (stuck_pcs s l h ph f I Hs) as [E|[E|[E Hw]]]; auto. right; right. split; [exact E|].
    pose proof (mi_pcs _ _ _ _ I f) as Pf. rewrite E in Pf. destruct Pf as (_ & Hc & Hl). rewrite (mi_wakes _ _ _ _ I) in Hw.
    assert (Hcar : forall g, carrier ph = Some g -> pcs s g = Holding /\ ph = Owned g).
    { intros g Hg. pose proof (mi_pcs _ _ _ _ I g) as Pg.
      destruct (stuck_pcs s l h ph g I Hs) as [E'|[E'|[E' _]]]; rewrite E' in Pg; [now destruct Pg as (_ & _ & _ & Pg)|split; [exact E'|apply Pg]|now destruct Pg as (_ & Pg & _)]. }
    destruct (carrier ph) as [g|] eqn:Eg; [exists g; destruct (Hcar g eq_refl); split; [congruence|assumption]|exfalso].
    destruct ph as [|g|g n|g n|n]; try discriminate Eg.
    + assert (Hin : f ∈ l) by (apply Hl; discriminate). apply (mi_waited _ _ _ _ I); [|reflexivity]. now intros ->; apply not_elem_of_nil in Hin.
    + destruct (stuck_pcs s l h _ n I Hs) as [E'|[E'|[E' Hw']]]; pose proof (mi_pcs _ _ _ _ I n) as Pn; rewrite E' in Pn.
      * now destruct Pn as (_ & _ & Pn & _).
      * now destruct Pn as (_ & _ & Pn).
      * apply Hw'. rewrite (mi_wakes _ _ _ _ I). now apply elem_of_singleton.
Qed.

(** ** Schedules and witnesses

    A schedule names the fiber of each step, and the call where it starts one. *)
Definition turn : Type := fid * option mutex_call.
Definition take_turn (t : turn) (s : mutex) : option mutex :=
  match t.2 with Some k => call_step t.1 k s | None => internal_step t.1 s end.
Fixpoint follow (ts : list turn) (s : mutex) : option mutex :=
  match ts with [] => Some s | t :: ts' => match take_turn t s with Some s' => follow ts' s' | None => None end end.

Lemma follow_reachable ts s s' : reachable s -> follow ts s = Some s' -> reachable s'.
Proof.
  revert s. induction ts as [|[f [k|]] ts IH]; intros s Hr; cbn [follow take_turn fst snd]; [intros [= <-]; exact Hr|..].
  - destruct (call_step f k s) as [s1|] eqn:E; [|discriminate]. apply IH. eapply reach_step; [exact Hr|]. exact (step_call f s s1 k E).
  - destruct (internal_step f s) as [s1|] eqn:E; [|discriminate]. apply IH. eapply reach_step; [exact Hr|]. exact (step_internal f s s1 E).
Qed.

Definition own_steps (f : fid) (n : nat) : list turn := repeat (f, None) n.
(** Fiber 1 has the mutex, 2 and then 3 have parked behind it. *)
Definition contended_schedule : list turn :=
  (1, Some CallLock)%nat :: own_steps 1 1 ++ (2, Some CallLock)%nat :: (3, Some CallLock)%nat :: own_steps 2 6 ++ own_steps 3 6.
Definition contended : mutex := default mutex_init (follow contended_schedule mutex_init).
Lemma contended_reachable : reachable contended.
Proof. refine (follow_reachable contended_schedule mutex_init _ reach_init _). vm_compute. reflexivity. Qed.

Lemma fiber_mutex_exclusive_witness : pcs contended 1 = Holding /\ _owner contended = Some 1%nat.
Proof.
  split; [vm_compute; reflexivity|]. refine (proj1 (fiber_mutex_exclusive contended 1 1 contended_reachable _ _)); vm_compute; constructor.
Defined.
(** 1 unlocks; the mutex goes to 2. *)
Definition handover : list turn := (1, Some CallUnlock)%nat :: own_steps 1 3.
Lemma fiber_mutex_fifo_witness : exists ln, NoDup ln /\ 2%nat ∈ ln /\ 3%nat ∈ ln /\
  forall gs s', mutex_run contended gs s' -> gs `prefix_of` ln \/ ln `prefix_of` gs.
Proof.
  destruct (fiber_mutex_fifo contended contended_reachable) as (ln & Hn & Hw & Hr). exists ln. split; [exact Hn|].
  split; [apply Hw; [right; vm_compute; reflexivity|vm_compute; discriminate]|].
  split; [apply Hw; [right; vm_compute; reflexivity|vm_compute; discriminate]|exact Hr].
Defined.
Example handover_grants : option_map _owner (follow handover contended) = Some (Some 2%nat).
Proof. vm_compute. reflexivity. Qed.
Lemma fiber_mutex_progress_witness :
  pcs contended 2 = Parked /\ pcs contended 1 = Holding /\
  ((forall f, internal_step f contended = None) -> exists g, g <> 2%nat /\ pcs contended g = Holding).
Proof.
  split; [vm_compute; reflexivity|]. split; [vm_compute; reflexivity|]. intros Hs.
  destruct (proj2 (fiber_mutex_progress contended contended_reachable) Hs 2%nat) as [E|[E|[_ E]]]; [discriminate E|discriminate E|exact E].
Defined.
