(* ===== verification/SharedMutex.v ===== *)
(** * psiber: [fiber_shared_mutex]

    Models [fiber_shared_mutex] of psiber/src/fiber_mutex.cpp, one step per access
    to the shared state, as in [FiberMutex].  Fibers of one scheduler run until
    they park, so between them the operations are atomic: the second half proves
    the mutex correct for that use.  Fibers of several schedulers interleave
    inside of the operations: [LockFindings] has runs in which exclusion fails. *)
From Stdlib Require Import ZArith Lia Bool.
From stdpp Require Import base numbers decidable option gmap functions list.
From S2P Require Import Prelude Fibers.

(** ** State *)
Inductive shared_pc :=
  | Idle
  (* lock *)
  | WSpin | WLoadWriter | WLoadReaders | WStore | WGot | WEnqueue | WRelease | WParking | WParked
  | Writing
  (* unlock *)
  | UnSpin | UnStore | UnPick | UnReadersRelease (r : fid) | UnReaders (r : option fid) | UnReaderWake (r : fid) (next : option fid)
  | UnWriterStore (n : fid) | UnWriterRelease (n : fid) | UnWriterWake (n : fid) | UnRelease
  (* lock_shared *)
  | RLoadWriter | RLoadQueue | RAddFast | RCheck | RUndo | RSpin | RLoadLocked | RAdd | RGot | REnqueue | RRelease | RParking | RParked
  | Reading
  (* unlock_shared *)
  | RUnSub | RUnSpin | RUnCheck | RUnStore (n : fid) | RUnHandRelease (n : fid) | RUnWake (n : fid) | RUnRelease
  (* try_lock, try_lock_shared *)
  | TSpin | TLoadWriter | TLoadReaders | TStore | TGot | TFail | TRLoad | TRAdd | TRCheck | TRUndo.

Record shared_mutex := {
  _readers : Z; _writer : bool; _writers : wait_queue; _waiting_readers : wait_queue; _queue_lock : bool;
  next_blocked : links; wake_list : gset fid; pcs : fid -> shared_pc }.

#[global] Instance eta_shared : Eta shared_mutex := fun s =>
  {| _readers := _readers s; _writer := _writer s; _writers := _writers s; _waiting_readers := _waiting_readers s;
     _queue_lock := _queue_lock s; next_blocked := next_blocked s; wake_list := wake_list s; pcs := pcs s |}.

Definition shared_init : shared_mutex :=
  {| _readers := 0; _writer := false; _writers := wait_empty; _waiting_readers := wait_empty; _queue_lock := false;
     next_blocked := ∅; wake_list := ∅; pcs := fun _ => Idle |}.

Definition goto (f : fid) (p : shared_pc) (s : shared_mutex) : shared_mutex := s <| pcs := <[f := p]> (pcs s) |>.

(** ** Primitive steps *)
Definition acquire (f : fid) (p : shared_pc) (s : shared_mutex) : option shared_mutex :=
  if _queue_lock s then None else Some (goto f p (s <| _queue_lock := true |>)).
Definition release (f : fid) (p : shared_pc) (s : shared_mutex) : option shared_mutex :=
  Some (goto f p (s <| _queue_lock := false |>)).
Definition store_writer (f : fid) (v : bool) (p : shared_pc) (s : shared_mutex) : option shared_mutex :=
  Some (goto f p (s <| _writer := v |>)).
(** [_readers.fetch_add(d)] on an [int32_t] *)
Definition add_readers (f : fid) (d : Z) (p : shared_pc) (s : shared_mutex) : option shared_mutex :=
  Some (goto f p (s <| _readers := signed 32 (wrap 32 (_readers s + d)) |>)).
Definition push_writer (f : fid) (p : shared_pc) (s : shared_mutex) : option shared_mutex :=
  let (q, nx) := wait_push f (_writers s) (next_blocked s) in
  Some (goto f p (s <| _writers := q |> <| next_blocked := nx |>)).
Definition push_reader (f : fid) (p : shared_pc) (s : shared_mutex) : option shared_mutex :=
  let (q, nx) := wait_push f (_waiting_readers s) (next_blocked s) in
  Some (goto f p (s <| _waiting_readers := q |> <| next_blocked := nx |>)).
Definition pop_writer (f n : fid) (p : shared_pc) (s : shared_mutex) : option shared_mutex :=
  let (q, nx) := wait_pop n (_writers s) (next_blocked s) in
  Some (goto f p (s <| _writers := q |> <| next_blocked := nx |>)).
Definition wake (f n : fid) (p : shared_pc) (s : shared_mutex) : option shared_mutex :=
  Some (goto f p (s <| wake_list := {[n]} ∪ wake_list s |>)).
Definition resume (f : fid) (p : shared_pc) (s : shared_mutex) : option shared_mutex :=
  if decide (f ∈ wake_list s) then Some (goto f p (s <| wake_list := wake_list s ∖ {[f]} |>)) else None.

(** ** The operations *)
Definition lock_step (f : fid) (s : shared_mutex) : option shared_mutex :=
  match pcs s f with
  | WSpin => acquire f WLoadWriter s
  | WLoadWriter => Some (goto f (if _writer s then WEnqueue else WLoadReaders) s)
  | WLoadReaders =>
      Some (goto f (if (_readers s =? 0) && bool_decide (wait_head (_writers s) = None) then WStore else WEnqueue) s)
  | WStore => store_writer f true WGot s
  | WGot => release f Writing s
  | WEnqueue => push_writer f WRelease s
  | WRelease => release f WParking s
  | WParking => Some (goto f WParked s)
  | WParked => resume f Writing s
  | _ => None
  end.
Definition unlock_step (f : fid) (s : shared_mutex) : option shared_mutex :=
  match pcs s f with
  | UnSpin => acquire f UnStore s
  | UnStore => store_writer f false UnPick s
  | UnPick =>
      match wait_head (_waiting_readers s), wait_head (_writers s) with
      | Some r, _ => Some (goto f (UnReadersRelease r) (s <| _waiting_readers := wait_empty |>))
      | None, Some n => pop_writer f n (UnWriterStore n) s
      | None, None => Some (goto f UnRelease s)
      end
  | UnReadersRelease r => release f (UnReaders (Some r)) s
  | UnReaders (Some r) =>
      let next := next_blocked s !! r in
      add_readers f 1 (UnReaderWake r next) (s <| next_blocked := delete r (next_blocked s) |>)
  | UnReaders None => Some (goto f Idle s)
  | UnReaderWake r next => wake f r (UnReaders next) s
  | UnWriterStore n => store_writer f true (UnWriterRelease n) s
  | UnWriterRelease n => release f (UnWriterWake n) s
  | UnWriterWake n => wake f n Idle s
  | UnRelease => release f Idle s
  | _ => None
  end.
(** The fast path reads [_writer_wait_head] without the lock. *)
Definition lock_shared_step (f : fid) (s : shared_mutex) : option shared_mutex :=
  match pcs s f with
  | RLoadWriter => Some (goto f (if _writer s then RSpin else RLoadQueue) s)
  | RLoadQueue => Some (goto f (match wait_head (_writers s) with Some _ => RSpin | None => RAddFast end) s)
  | RAddFast => add_readers f 1 RCheck s
  | RCheck => Some (goto f (if _writer s then RUndo else Reading) s)
  | RUndo => add_readers f (-1) RSpin s
  | RSpin => acquire f RLoadLocked s
  | RLoadLocked =>
      Some (goto f (if negb (_writer s) && bool_decide (wait_head (_writers s) = None) then RAdd else REnqueue) s)
  | RAdd => add_readers f 1 RGot s
  | RGot => release f Reading s
  | REnqueue => push_reader f RRelease s
  | RRelease => release f RParking s
  | RParking => Some (goto f RParked s)
  | RParked => resume f Reading s
  | _ => None
  end.
Definition unlock_shared_step (f : fid) (s : shared_mutex) : option shared_mutex :=
  match pcs s f with
  | RUnSub => add_readers f (-1) (if _readers s =? 1 then RUnSpin else Idle) s
  | RUnSpin => acquire f RUnCheck s
  | RUnCheck =>
      if _readers s =? 0 then
        match wait_head (_writers s) with
        | Some n => pop_writer f n (RUnStore n) s
        | None => Some (goto f RUnRelease s)
        end
      else Some (goto f RUnRelease s)
  | RUnStore n => store_writer f true (RUnHandRelease n) s
  | RUnHandRelease n => release f (RUnWake n) s
  | RUnWake n => wake f n Idle s
  | RUnRelease => release f Idle s
  | _ => None
  end.
Definition try_lock_step (f : fid) (s : shared_mutex) : option shared_mutex :=
  match pcs s f with
  | TSpin => acquire f TLoadWriter s
  | TLoadWriter => Some (goto f (if _writer s then TFail else TLoadReaders) s)
  | TLoadReaders => Some (goto f (if _readers s =? 0 then TStore else TFail) s)
  | TStore => store_writer f true TGot s
  | TGot => release f Writing s
  | TFail => release f Idle s
  | _ => None
  end.
Definition try_lock_shared_step (f : fid) (s : shared_mutex) : option shared_mutex :=
  match pcs s f with
  | TRLoad => Some (goto f (if _writer s then Idle else TRAdd) s)
  | TRAdd => add_readers f 1 TRCheck s
  | TRCheck => Some (goto f (if _writer s then TRUndo else Reading) s)
  | TRUndo => add_readers f (-1) Idle s
  | _ => None
  end.

Definition internal_step (f : fid) (s : shared_mutex) : option shared_mutex :=
  match pcs s f with
  | Idle | Writing | Reading => None
  | WSpin | WLoadWriter | WLoadReaders | WStore | WGot | WEnqueue | WRelease | WParking | WParked => lock_step f s
  | UnSpin | UnStore | UnPick | UnReadersRelease _ | UnReaders _ | UnReaderWake _ _ | UnWriterStore _ | UnWriterRelease _
  | UnWriterWake _ | UnRelease => unlock_step f s
  | RUnSub | RUnSpin | RUnCheck | RUnStore _ | RUnHandRelease _ | RUnWake _ | RUnRelease => unlock_shared_step f s
  | TSpin | TLoadWriter | TLoadReaders | TStore | TGot | TFail => try_lock_step f s
  | TRLoad | TRAdd | TRCheck | TRUndo => try_lock_shared_step f s
  | _ => lock_shared_step f s
  end.

Inductive shared_call := CallLock | CallUnlock | CallLockShared | CallUnlockShared | CallTryLock | CallTryLockShared.
Definition call_step (f : fid) (k : shared_call) (s : shared_mutex) : option shared_mutex :=
  match k, pcs s f with
  | CallLock, Idle => Some (goto f WSpin s)
  | CallUnlock, Writing => Some (goto f UnSpin s)
  | CallLockShared, Idle => Some (goto f RLoadWriter s)
  | CallUnlockShared, Reading => Some (goto f RUnSub s)
  | CallTryLock, Idle => Some (goto f TSpin s)
  | CallTryLockShared, Idle => Some (goto f TRLoad s)
  | _, _ => None
  end.

(** ** Runs by schedule *)
Definition turn : Type := fid * option shared_call.
Definition take_turn (t : turn) (s : shared_mutex) : option shared_mutex :=
  match t.2 with Some k => call_step t.1 k s | None => internal_step t.1 s end.
Fixpoint follow (ts : list turn) (s : shared_mutex) : option shared_mutex :=
  match ts with [] => Some s | t :: ts' => match take_turn t s with Some s' => follow ts' s' | None => None end end.

(** ** Cooperative use

    On one scheduler a fiber runs until it parks: a call runs from its start to
    a resting place before another fiber gets a turn.  [n] bounds the number of
    fibers. *)
Definition resting (p : shared_pc) : bool :=
  match p with Idle | Writing | Reading | WParked | RParked => true | _ => false end.
Inductive own_run (f : fid) : shared_mutex -> shared_mutex -> Prop :=
  | own_done s : resting (pcs s f) = true -> own_run f s s
  | own_more s s1 s' : resting (pcs s f) = false -> internal_step f s = Some s1 -> own_run f s1 s' -> own_run f s s'.
Inductive coop_step (n : nat) : shared_mutex -> shared_mutex -> Prop :=
  | coop_call f k s s1 s' : (f < n)%nat -> call_step f k s = Some s1 -> own_run f s1 s' -> coop_step n s s'
  | coop_resume f s s' : resting (pcs s f) = true -> internal_step f s = Some s' -> coop_step n s s'.
Inductive coop_reachable (n : nat) : shared_mutex -> Prop :=
  | coop_init : coop_reachable n shared_init
  | coop_more s s' : coop_reachable n s -> coop_step n s s' -> coop_reachable n s'.

(** The fibers that have the mutex, woken or not, and those that wait. *)
Definition shared_placed (wl rl : list fid) (R : gset fid) (w : option fid) (wk : gset fid) (f : fid) (p : shared_pc) : Prop :=
  match p with
  | Idle => (f ∉ wl) /\ (f ∉ rl) /\ (f ∉ R) /\ w <> Some f /\ f ∉ wk
  | Writing => (f ∉ wl) /\ (f ∉ rl) /\ (f ∉ R) /\ w = Some f /\ f ∉ wk
  | Reading => (f ∉ wl) /\ (f ∉ rl) /\ (f ∈ R) /\ w <> Some f /\ f ∉ wk
  | WParked => (f ∉ rl) /\ (f ∉ R) /\ (f ∈ wl <-> f ∉ wk) /\ (w = Some f <-> f ∈ wk)
  | RParked => (f ∉ wl) /\ w <> Some f /\ (f ∈ rl <-> f ∉ wk) /\ (f ∈ R <-> f ∈ wk)
  | _ => False
  end.
Record coop_inv (n : nat) (s : shared_mutex) (wl rl : list fid) (R : gset fid) (w : option fid) : Prop := {
  ci_writers : queue_rep (_writers s) (next_blocked s) wl;
  ci_waiting : queue_rep (_waiting_readers s) (next_blocked s) rl;
  ci_lock : _queue_lock s = false;
  ci_readers : _readers s = Z.of_nat (size R);
  ci_writer : _writer s = bool_decide (is_Some w);
  ci_excl : w <> None -> R = ∅;
  ci_wl : wl <> [] -> w <> None \/ R <> ∅;
  ci_rl : rl <> [] -> w <> None \/ wl <> [];
  ci_pcs : forall f, shared_placed wl rl R w (wake_list s) f (pcs s f);
  ci_bound : forall f, pcs s f <> Idle -> (f < n)%nat }.

Lemma own_next f s s' : own_run f s s' ->
  if resting (pcs s f) then s' = s
  else match internal_step f s with Some s1 => own_run f s1 s' | None => False end.
Proof. intros [? Hr|? ? ? Hr Hi Ho]; rewrite Hr; [reflexivity|]. now rewrite Hi. Qed.

Lemma pcs_goto f p s : pcs (goto f p s) f = p. Proof. apply fn_lookup_insert. Qed.
Lemma goto_lock f p s : _queue_lock (goto f p s) = _queue_lock s. Proof. reflexivity. Qed.
Lemma goto_writer f p s : _writer (goto f p s) = _writer s. Proof. reflexivity. Qed.
Lemma goto_readers f p s : _readers (goto f p s) = _readers s. Proof. reflexivity. Qed.
Lemma goto_writers f p s : _writers (goto f p s) = _writers s. Proof. reflexivity. Qed.
Lemma goto_waiting f p s : _waiting_readers (goto f p s) = _waiting_readers s. Proof. reflexivity. Qed.
Lemma goto_next f p s : next_blocked (goto f p s) = next_blocked s. Proof. reflexivity. Qed.
Lemma goto_wakes f p s : wake_list (goto f p s) = wake_list s. Proof. reflexivity. Qed.

(** One step of a run whose place is known. *)
Ltac goto_fields H :=
  rewrite ?goto_lock, ?goto_writer, ?goto_readers, ?goto_writers, ?goto_waiting, ?goto_next, ?goto_wakes in H;
  cbn [set_field _queue_lock _writer _readers _writers _waiting_readers next_blocked wake_list] in H.
Ltac own H :=
  apply own_next in H; rewrite !pcs_goto in H; cbn iota beta delta [resting] in H;
  unfold internal_step, lock_step, unlock_step, lock_shared_step, unlock_shared_step, try_lock_step, try_lock_shared_step in H;
  rewrite ?pcs_goto in H; cbn iota beta in H; unfold acquire, release, store_writer, add_readers, wake in H; repeat goto_fields H.

(** ** The invariant under each outcome of a call

    [moved f p s s']: in [s'] fiber [f] is at [p] and the others where they were. *)
Definition moved (f : fid) (p : shared_pc) (s s' : shared_mutex) : Prop :=
  pcs s' f = p /\ forall g, g <> f -> pcs s' g = pcs s g.

(** The place of a fiber that the call does not concern. *)
Lemma shared_frame wl rl R w wk wl' rl' R' w' wk' g p : shared_placed wl rl R w wk g p ->
  (g ∈ wl' <-> g ∈ wl) -> (g ∈ rl' <-> g ∈ rl) -> (g ∈ R' <-> g ∈ R) -> (w' = Some g <-> w = Some g) -> (g ∈ wk' <-> g ∈ wk) ->
  shared_placed wl' rl' R' w' wk' g p.
Proof. intros Hp E1 E2 E3 E4 E5. destruct p; cbn in *; tauto. Qed.

(** Fibers waiting for one queue are not in the other. *)
Lemma queues_disjoint n s wl rl R w f : coop_inv n s wl rl R w -> f ∈ wl -> f ∉ rl.
Proof. intros I Hw. pose proof (ci_pcs _ _ _ _ _ _ I f) as P. destruct (pcs s f); cbn in P; tauto. Qed.

Lemma push_other self q nx l l2 q2 : queue_rep q nx l -> queue_rep q2 nx l2 -> self ∉ l2 -> (forall f, f ∈ l -> f ∉ l2) ->
  queue_rep q2 (wait_push self q nx).2 l2.
Proof.
  intros [_ Ht _ _] [H1 H2 H3 H4] Hs Hd. split; auto. eapply linked_ext; [|exact H3]. intros f Hf. unfold wait_push.
  destruct (wait_tail q) as [t|] eqn:Et; cbn.
  - rewrite lookup_insert_ne, lookup_delete_ne; [done|congruence|]. intros <-. apply (Hd t); [|exact Hf].
    symmetry in Ht. apply last_Some in Ht as [l' ->]. apply elem_of_app. right. apply list_elem_of_here.
  - apply lookup_delete_ne. congruence.
Qed.
Lemma pop_other n q nx l2 q2 : queue_rep q2 nx l2 -> n ∉ l2 -> queue_rep q2 (wait_pop n q nx).2 l2.
Proof.
  intros [H1 H2 H3 H4] Hn. split; auto. eapply linked_ext; [|exact H3]. intros f Hf. cbn. apply lookup_delete_ne. congruence.
Qed.

Section Outcomes.
Context (n : nat) (s : shared_mutex) (wl rl : list fid) (R : gset fid) (w : option fid) (f : fid)
  (I : coop_inv n s wl rl R w) (Hn : (f < n)%nat).

(** The places of all fibers after a call of [f]. *)
Lemma outcome_pcs s' p wl' rl' R' w' : moved f p s s' ->
  shared_placed wl' rl' R' w' (wake_list s') f p ->
  (forall g, g <> f -> shared_placed wl' rl' R' w' (wake_list s') g (pcs s g)) ->
  (forall g, shared_placed wl' rl' R' w' (wake_list s') g (pcs s' g)) /\ (forall g, pcs s' g <> Idle -> (g < n)%nat).
Proof.
  intros [Ef Eg] Hf Ho. split; intros g; destruct (decide (g = f)) as [->|Hne]; rewrite ?Ef, ?Eg by assumption; auto.
  intros Hi. now apply (ci_bound _ _ _ _ _ _ I).
Qed.

(** Nothing but the mutex's own state decides; [same_queues] and [same_wakes] are kept. *)
Definition same_queues (s' : shared_mutex) : Prop :=
  _writers s' = _writers s /\ _waiting_readers s' = _waiting_readers s /\ next_blocked s' = next_blocked s /\ _queue_lock s' = false.

Lemma outside_idle : pcs s f = Idle -> (f ∉ wl) /\ (f ∉ rl) /\ (f ∉ R) /\ w <> Some f /\ f ∉ wake_list s.
Proof. intros E. pose proof (ci_pcs _ _ _ _ _ _ I f) as P. now rewrite E in P. Qed.

Lemma outcome_same s' : same_queues s' -> _readers s' = _readers s -> _writer s' = _writer s -> wake_list s' = wake_list s ->
  moved f (pcs s f) s s' -> coop_inv n s' wl rl R w.
Proof.
  intros (E1 & E2 & E3 & E4) Er Ew Ek Hm. destruct (outcome_pcs s' _ wl rl R w Hm) as [Hp Hb].
  { rewrite Ek. apply (ci_pcs _ _ _ _ _ _ I). }
  { intros g _. rewrite Ek. apply (ci_pcs _ _ _ _ _ _ I). }
  destruct I. split; auto; congruence.
Qed.
Lemma outcome_write s' : pcs s f = Idle -> w = None -> R = ∅ -> same_queues s' -> _readers s' = _readers s ->
  _writer s' = true -> wake_list s' = wake_list s -> moved f Writing s s' -> coop_inv n s' wl rl R (Some f).
Proof.
  intros Hi Hw HR (E1 & E2 & E3 & E4) Er Ew Ek Hm. destruct (outside_idle Hi) as (? & ? & ? & ? & ?).
  destruct (outcome_pcs s' _ wl rl R (Some f) Hm) as [Hp Hb].
  { rewrite Ek. now repeat split. }
  { intros g Hg. rewrite Ek. eapply shared_frame; [apply (ci_pcs _ _ _ _ _ _ I)|..]; intuition congruence. }
  destruct I. split; auto; try congruence; left; discriminate.
Qed.
Lemma outcome_read s' : pcs s f = Idle -> w = None -> same_queues s' -> _readers s' = _readers s + 1 ->
  _writer s' = false -> wake_list s' = wake_list s -> moved f Reading s s' -> coop_inv n s' wl rl ({[f]} ∪ R) w.
Proof.
  intros Hi Hw (E1 & E2 & E3 & E4) Er Ew Ek Hm. destruct (outside_idle Hi) as (? & ? & ? & ? & ?).
  destruct (outcome_pcs s' _ wl rl ({[f]} ∪ R) w Hm) as [Hp Hb].
  { rewrite Ek. repeat split; auto. apply elem_of_union_l, elem_of_singleton_2. reflexivity. }
  { intros g Hg. rewrite Ek. eapply shared_frame; [apply (ci_pcs _ _ _ _ _ _ I)|..]; try tauto.
    rewrite elem_of_union, elem_of_singleton. tauto. }
  destruct I. split; auto; try congruence.
  - rewrite Er, size_union_alt, size_singleton. replace ((R ∖ {[f]}) : gset fid) with R by set_solver. lia.
  - rewrite Ew, Hw. reflexivity.
  - intros _. right. set_solver.
Qed.
Lemma outcome_queue_writer s' : pcs s f = Idle -> w <> None \/ R <> ∅ -> 
  (_writers s', next_blocked s') = wait_push f (_writers s) (next_blocked s) -> _waiting_readers s' = _waiting_readers s ->
  _queue_lock s' = false -> _readers s' = _readers s -> _writer s' = _writer s -> wake_list s' = wake_list s ->
  moved f WParked s s' -> coop_inv n s' (wl ++ [f]) rl R w.
Proof.
  intros Hi Hh Eq E2 E4 Er Ew Ek Hm. destruct (outside_idle Hi) as (? & Hfr & ? & ? & Hk).
  destruct (outcome_pcs s' _ (wl ++ [f]) rl R w Hm) as [Hp Hb].
  { rewrite Ek. repeat split; auto; try tauto. intros _. apply elem_of_app. right. apply list_elem_of_here. }
  { intros g Hg. rewrite Ek. eapply shared_frame; [apply (ci_pcs _ _ _ _ _ _ I)|..]; try tauto.
    rewrite elem_of_app, list_elem_of_singleton. tauto. }
  pose proof (ci_writers _ _ _ _ _ _ I) as Qw. pose proof (wait_push_rep f _ _ _ Qw) as Q1.
  pose proof (push_other f _ _ _ _ _ Qw (ci_waiting _ _ _ _ _ _ I) Hfr) as Q2. rewrite <- Eq in Q1, Q2. cbn in Q1, Q2.
  pose proof (fun g => queues_disjoint n s wl rl R w g I) as Hd.
  destruct I. split; auto; try congruence.
  - rewrite E2. auto.
  - intros _. right. now destruct wl.
Qed.
Lemma outcome_queue_reader s' : pcs s f = Idle -> w <> None \/ wl <> [] ->
  (_waiting_readers s', next_blocked s') = wait_push f (_waiting_readers s) (next_blocked s) -> _writers s' = _writers s ->
  _queue_lock s' = false -> _readers s' = _readers s -> _writer s' = _writer s -> wake_list s' = wake_list s ->
  moved f RParked s s' -> coop_inv n s' wl (rl ++ [f]) R w.
Proof.
  intros Hi Hh Eq E2 E4 Er Ew Ek Hm. destruct (outside_idle Hi) as (Hfw & ? & ? & ? & Hk).
  destruct (outcome_pcs s' _ wl (rl ++ [f]) R w Hm) as [Hp Hb].
  { rewrite Ek. repeat split; auto; try tauto. intros _. apply elem_of_app. right. apply list_elem_of_here. }
  { intros g Hg. rewrite Ek. eapply shared_frame; [apply (ci_pcs _ _ _ _ _ _ I)|..]; try tauto.
    rewrite elem_of_app, list_elem_of_singleton. tauto. }
  pose proof (ci_waiting _ _ _ _ _ _ I) as Qw. pose proof (wait_push_rep f _ _ _ Qw) as Q1.
  pose proof (push_other f _ _ _ _ _ Qw (ci_writers _ _ _ _ _ _ I) Hfw) as Q2. rewrite <- Eq in Q1, Q2. cbn in Q1, Q2.
  assert (Hd : forall g, g ∈ rl -> g ∉ wl) by (intros g Hg Hg'; exact (queues_disjoint n s wl rl R w g I Hg' Hg)).
  destruct I. split; auto; try congruence. rewrite E2. auto.
Qed.

(** The holder [f] leaves. *)
Lemma holder_facts : pcs s f = Writing \/ pcs s f = Reading ->
  (f ∉ wl) /\ (f ∉ rl) /\ (f ∉ wake_list s) /\ (w = None \/ w = Some f).
Proof.
  intros Hh. pose proof (ci_pcs _ _ _ _ _ _ I f) as P. destruct Hh as [E|E]; rewrite E in P; cbn in P; [tauto|].
  repeat split; try tauto. left. destruct w as [g|] eqn:Ew; [|reflexivity]. exfalso.
  destruct P as (_ & _ & HR & _). rewrite (ci_excl _ _ _ _ _ _ I) in HR by congruence. now apply not_elem_of_empty in HR.
Qed.
Lemma outcome_leave s' : pcs s f = Writing \/ pcs s f = Reading -> same_queues s' ->
  _readers s' = Z.of_nat (size (R ∖ {[f]})) -> _writer s' = false -> wake_list s' = wake_list s -> moved f Idle s s' ->
  (R ∖ {[f]} <> ∅ \/ wl = []) -> (rl = [] \/ wl <> []) -> coop_inv n s' wl rl (R ∖ {[f]}) None.
Proof.
  intros Hh (E1 & E2 & E3 & E4) Er Ew Ek Hm Hwl Hrl. destruct (holder_facts Hh) as (? & ? & ? & Hw).
  destruct (outcome_pcs s' _ wl rl (R ∖ {[f]}) None Hm) as [Hp Hb].
  { rewrite Ek. repeat split; auto. set_solver. }
  { intros g Hg. rewrite Ek. eapply shared_frame; [apply (ci_pcs _ _ _ _ _ _ I)|..]; try tauto.
    - rewrite elem_of_difference, elem_of_singleton. tauto.
    - destruct Hw as [->| ->]; intuition congruence. }
  destruct I. split; auto; try congruence; destruct Hwl, Hrl; auto; congruence.
Qed.
(** The mutex goes to the first waiting writer. *)
Lemma outcome_hand s' m wl' : pcs s f = Writing \/ pcs s f = Reading -> wl = m :: wl' -> R ∖ {[f]} = ∅ ->
  (_writers s', next_blocked s') = wait_pop m (_writers s) (next_blocked s) -> _waiting_readers s' = _waiting_readers s ->
  _queue_lock s' = false -> _readers s' = 0 -> _writer s' = true -> wake_list s' = {[m]} ∪ wake_list s ->
  moved f Idle s s' -> coop_inv n s' wl' rl ∅ (Some m).
Proof.
  intros Hh Hwl HR Eq E2 E4 Er Ew Ek Hm. destruct (holder_facts Hh) as (Hfw & ? & Hfk & Hw).
  pose proof (ci_writers _ _ _ _ _ _ I) as Qw. pose proof (qr_nodup _ _ _ Qw) as Hnd. rewrite Hwl in Qw, Hnd, Hfw.
  apply NoDup_cons in Hnd as [Hm1 _]. assert (Hmw : m ∈ wl) by (rewrite Hwl; apply list_elem_of_here).
  pose proof (queues_disjoint n s wl rl R w m I Hmw) as Hmr. assert (Hfm : f <> m) by (intros ->; apply Hfw, list_elem_of_here).
  destruct (outcome_pcs s' _ wl' rl ∅ (Some m) Hm) as [Hp Hb].
  { rewrite Ek. repeat split; auto; try congruence; set_solver. }
  { intros g Hg. rewrite Ek. pose proof (ci_pcs _ _ _ _ _ _ I g) as P. destruct (decide (g = m)) as [->|Hgm].
    - destruct (pcs s m); cbn in P |- *; try (exfalso; tauto). repeat split; try tauto; try set_solver.
    - eapply shared_frame; [exact P|..].
      + rewrite Hwl, elem_of_cons. tauto.
      + tauto.
      + set_solver.
      + destruct Hw as [->| ->]; intuition congruence.
      + set_solver. }
  pose proof (wait_pop_rep _ _ _ _ Qw) as Q1. pose proof (pop_other m (_writers s) _ _ _ (ci_waiting _ _ _ _ _ _ I) Hmr) as Q2.
  rewrite <- Eq in Q1, Q2. cbn in Q1, Q2. destruct I. split; auto; try congruence; left; discriminate.
Qed.
(** The mutex goes to all waiting readers. *)
Lemma outcome_readers s' : pcs s f = Writing -> linked (next_blocked s') wl -> _writers s' = _writers s ->
  _waiting_readers s' = wait_empty -> _queue_lock s' = false -> _readers s' = Z.of_nat (length rl) -> _writer s' = false ->
  wake_list s' = list_to_set rl ∪ wake_list s -> rl <> [] -> moved f Idle s s' ->
  coop_inv n s' wl [] (list_to_set rl) None.
Proof.
  intros Hh Hlk E1 E2 E4 Er Ew Ek Hne Hm. destruct (holder_facts (or_introl Hh)) as (Hfw & ? & Hfk & _).
  pose proof (ci_pcs _ _ _ _ _ _ I f) as Pf. rewrite Hh in Pf. destruct Pf as (_ & _ & _ & Hw & _).
  assert (HR : R = ∅) by (apply (ci_excl _ _ _ _ _ _ I); congruence).
  pose proof (qr_nodup _ _ _ (ci_waiting _ _ _ _ _ _ I)) as Hnd.
  destruct (outcome_pcs s' _ wl [] (list_to_set rl) None Hm) as [Hp Hb].
  { rewrite Ek. repeat split; auto; set_solver. }
  { intros g Hg. rewrite Ek. pose proof (ci_pcs _ _ _ _ _ _ I g) as P. destruct (pcs s g); cbn in P |- *; set_solver. }
  destruct I as [Q1 Q2]. split; auto; try congruence.
  - rewrite E1. destruct Q1. split; auto.
  - rewrite E2. split; try done. constructor.
  - rewrite Er. f_equal. symmetry. now apply size_list_to_set.
  - intros _. right. destruct rl as [|x rl']; [done|]. set_solver.
Qed.
(** A woken fiber resumes. *)
Lemma outcome_resume s' : (pcs s f = WParked /\ moved f Writing s s') \/ (pcs s f = RParked /\ moved f Reading s s') ->
  f ∈ wake_list s -> same_queues s' -> _readers s' = _readers s -> _writer s' = _writer s -> wake_list s' = wake_list s ∖ {[f]} ->
  coop_inv n s' wl rl R w.
Proof.
  intros Hh Hk (E1 & E2 & E3 & E4) Er Ew Ek. pose proof (ci_pcs _ _ _ _ _ _ I f) as Pf.
  assert (Ho : forall g, g <> f -> shared_placed wl rl R w (wake_list s') g (pcs s g)).
  { intros g Hg. rewrite Ek. eapply shared_frame; [apply (ci_pcs _ _ _ _ _ _ I)|..]; try tauto. set_solver. }
  assert (H2 : (forall g, shared_placed wl rl R w (wake_list s') g (pcs s' g)) /\ (forall g, pcs s' g <> Idle -> (g < n)%nat)).
  { destruct Hh as [[E Hm]|[E Hm]]; rewrite E in Pf; cbn in Pf; apply (outcome_pcs s' _ wl rl R w Hm); auto; rewrite Ek;
      repeat split; try tauto; set_solver. }
  destruct H2 as [Hp Hb]. destruct I. split; auto; congruence.
Qed.
End Outcomes.

(** ** Counting *)
Lemma readers_count x d : - 2 ^ 31 <= x + d < 2 ^ 31 -> signed 32 (wrap 32 (x + d)) = x + d.
Proof. intros Hx. apply (signed_wrap 32 ltac:(lia)). unfold in_s. lia. Qed.
Lemma fids_bound n (X : gset fid) : (forall f, f ∈ X -> (f < n)%nat) -> (size X <= n)%nat.
Proof.
  intros HX. rewrite <- (size_set_seq (C:=gset nat) 0 n). apply subseteq_size. intros f Hf. apply elem_of_set_seq. specialize (HX f Hf). lia.
Qed.
Lemma holders_bound n s wl rl R w : coop_inv n s wl rl R w -> (forall f, f ∈ R -> (f < n)%nat) /\ (length rl <= n)%nat.
Proof.
  intros I. split.
  - intros f Hf. apply (ci_bound _ _ _ _ _ _ I). intros E. pose proof (ci_pcs _ _ _ _ _ _ I f) as P. rewrite E in P. cbn in P. tauto.
  - rewrite <- (size_list_to_set (C:=gset fid) rl) by apply (qr_nodup _ _ _ (ci_waiting _ _ _ _ _ _ I)).
    apply fids_bound. intros f Hf%elem_of_list_to_set.
    apply (ci_bound _ _ _ _ _ _ I). intros E. pose proof (ci_pcs _ _ _ _ _ _ I f) as P. rewrite E in P. cbn in P. tauto.
Qed.

(** The loop of [unlock] that wakes the readers of the detached list. *)
Lemma wake_loop f l s s' : linked (next_blocked s) l -> NoDup l -> 0 <= _readers s -> _readers s + Z.of_nat (length l) < 2 ^ 31 ->
  own_run f (goto f (UnReaders (head l)) s) s' ->
  _readers s' = _readers s + Z.of_nat (length l) /\ wake_list s' = list_to_set l ∪ wake_list s /\
  (forall g, g ∉ l -> next_blocked s' !! g = next_blocked s !! g) /\ _writers s' = _writers s /\
  _waiting_readers s' = _waiting_readers s /\ _queue_lock s' = _queue_lock s /\ _writer s' = _writer s /\ moved f Idle s s'.
Proof.
  revert s. induction l as [|r l IH]; intros s Hl Hd H0 Hs Hr; cbn [head] in Hr; own Hr; own Hr.
  - subst s'. cbn -[Z.of_nat]. rewrite Z.add_0_r. repeat split; auto; [set_solver|cbn; now rewrite fn_lookup_insert|].
    intros g Hg. cbn. now rewrite !fn_lookup_insert_ne by congruence.
  - destruct Hl as [Hl1 Hl2]. apply NoDup_cons in Hd as [Hd1 Hd2]. cbn [length] in Hs. rewrite readers_count in Hr by lia.
    rewrite Hl1 in Hr. apply IH in Hr; cbn; auto; try lia.
    + destruct Hr as (E1 & E2 & E3 & E4 & E5 & E6 & E7 & Hm1 & Hm2).
      cbn [_readers _writer _writers _waiting_readers _queue_lock next_blocked wake_list pcs] in *.
      split; [lia|]. split; [rewrite E2; set_solver|]. split.
      { intros g Hg. rewrite E3 by set_solver. apply lookup_delete_ne. set_solver. }
      do 4 (split; [assumption|]). split; [exact Hm1|]. intros g Hg. rewrite (Hm2 g Hg). cbn.
      now rewrite !fn_lookup_insert_ne by congruence.
    + eapply linked_ext; [|exact Hl2]. intros g Hg. apply lookup_delete_ne. congruence.
Qed.

(** ** Calls end

    Where the fiber holds the queue's lock, and how many steps are left at most
    before it rests or wakes readers. *)
Definition holds_lock (p : shared_pc) : bool :=
  match p with
  | WLoadWriter | WLoadReaders | WStore | WGot | WEnqueue | WRelease
  | UnStore | UnPick | UnReadersRelease _ | UnWriterStore _ | UnWriterRelease _ | UnRelease
  | RLoadLocked | RAdd | RGot | REnqueue | RRelease | RUnCheck | RUnStore _ | RUnHandRelease _ | RUnRelease
  | TLoadWriter | TLoadReaders | TStore | TGot | TFail => true
  | _ => false
  end.
Definition steps_left (p : shared_pc) : nat :=
  match p with
  | WSpin => 6 | WLoadWriter => 5 | WLoadReaders => 4 | WStore => 2 | WGot => 1 | WEnqueue => 3 | WRelease => 2 | WParking => 1
  | UnSpin => 6 | UnStore => 5 | UnPick => 4 | UnReadersRelease _ => 1 | UnWriterStore _ => 3 | UnWriterRelease _ => 2 | UnWriterWake _ => 1
  | UnRelease => 1
  | RLoadWriter => 10 | RLoadQueue => 9 | RAddFast => 8 | RCheck => 7 | RUndo => 6 | RSpin => 5 | RLoadLocked => 4 | RAdd => 2 | RGot => 1
  | REnqueue => 3 | RRelease => 2 | RParking => 1
  | RUnSub => 6 | RUnSpin => 5 | RUnCheck => 4 | RUnStore _ => 3 | RUnHandRelease _ => 2 | RUnWake _ => 1 | RUnRelease => 1
  | TSpin => 5 | TLoadWriter => 4 | TLoadReaders => 3 | TStore => 2 | TGot => 1 | TFail => 1
  | TRLoad => 4 | TRAdd => 3 | TRCheck => 2 | TRUndo => 1
  | _ => 0
  end.
(** The list of readers that [unlock] will walk is well formed. *)
Definition readers_linked (s : shared_mutex) (p : shared_pc) : Prop :=
  match p with
  | UnReaders _ | UnReaderWake _ _ => False
  | UnReadersRelease r => exists l, linked (next_blocked s) (r :: l) /\ NoDup (r :: l)
  | UnSpin | UnStore | UnPick => exists l, queue_rep (_waiting_readers s) (next_blocked s) l
  | _ => True
  end.

Lemma own_step f s s1 : resting (pcs s f) = false -> internal_step f s = Some s1 -> (exists s', own_run f s1 s') -> exists s', own_run f s s'.
Proof. intros Hr Hs [s' Ho]. exists s'. eapply own_more; eauto. Qed.
Ltac own_go := eapply own_step; [rewrite ?pcs_goto; reflexivity|unfold internal_step, unlock_step; rewrite pcs_goto; reflexivity|].

Lemma wake_ends f l s : linked (next_blocked s) l -> NoDup l -> exists s', own_run f (goto f (UnReaders (head l)) s) s'.
Proof.
  revert s. induction l as [|r l IH]; intros s Hl Hd; own_go.
  - eexists. apply own_done. now rewrite pcs_goto.
  - destruct Hl as [Hl1 Hl2]. apply NoDup_cons in Hd as [Hd1 Hd2]. cbn [goto set_field next_blocked]. rewrite Hl1. own_go. apply IH; [|exact Hd2].
    eapply linked_ext; [|exact Hl2]. intros g Hg. apply lookup_delete_ne. congruence.
Qed.

Ltac descend :=
  repeat match goal with |- context [if ?b then _ else _] => destruct b | |- context [match wait_head ?q with _ => _ end] => destruct (wait_head q) end;
  cbn [steps_left holds_lock resting readers_linked goto set_field _queue_lock _waiting_readers next_blocked];
  repeat split; first [lia|assumption|reflexivity|now left|now right|idtac].
(** A step towards rest. *)
Lemma own_descends f s : resting (pcs s f) = false -> _queue_lock s = holds_lock (pcs s f) -> readers_linked s (pcs s f) ->
  (exists r, pcs s f = UnReadersRelease r) \/
  exists s1, internal_step f s = Some s1 /\ (steps_left (pcs s1 f) < steps_left (pcs s f))%nat /\
    _queue_lock s1 = holds_lock (pcs s1 f) /\ (resting (pcs s1 f) = true \/ readers_linked s1 (pcs s1 f)).
Proof.
  intros Hr El Hl. unfold internal_step, lock_step, unlock_step, lock_shared_step, unlock_shared_step, try_lock_step, try_lock_shared_step,
    acquire, release, store_writer, add_readers, wake, push_writer, push_reader, pop_writer.
  destruct (pcs s f) eqn:Ep; try discriminate Hr; cbn [holds_lock readers_linked] in El, Hl; try contradiction; try (left; eauto; fail); right;
    rewrite ?El; try destruct (wait_push _ _ _); try (eexists; split; [reflexivity|]; rewrite !pcs_goto; descend).
  - destruct Hl as [l [Hh _ Hk Hd]]. destruct (wait_head (_waiting_readers s)) as [r|] eqn:Ew.
    + eexists; split; [reflexivity|]. rewrite !pcs_goto. repeat split; auto; [cbn; lia|]. right. destruct l as [|r' l]; [discriminate|].
      injection Hh as ->. exists l. now split.
    + destruct (wait_head (_writers s)); try destruct (wait_pop _ _ _); eexists; (split; [reflexivity|]); rewrite !pcs_goto; descend.
  - destruct (_readers s =? 0); [destruct (wait_head (_writers s)); try destruct (wait_pop _ _ _)|];
      eexists; (split; [reflexivity|]); rewrite !pcs_goto; descend.
Qed.
Lemma own_ends k f s : (steps_left (pcs s f) <= k)%nat -> _queue_lock s = holds_lock (pcs s f) ->
  resting (pcs s f) = true \/ readers_linked s (pcs s f) -> exists s', own_run f s s'.
Proof.
  revert s. induction k as [|k IH]; intros s Hk El Hl; destruct (resting (pcs s f)) eqn:Er; try (eexists; now apply own_done);
    destruct Hl as [|Hl]; try discriminate.
  all: destruct (own_descends f s Er El Hl) as [[r E]|(s1 & Hs & Hlt & El1 & Hl1)].
  all: try (eapply own_step; [exact Er|exact Hs|]; apply IH; auto; lia).
  all: try lia.
  all: rewrite E in *; destruct Hl as (l & Hl & Hd); eapply own_step; [now rewrite E| |].
  all: try (unfold internal_step, unlock_step, release; rewrite E; reflexivity).
  all: change (Some r) with (head (r :: l)); apply wake_ends; assumption.
Qed.

(** ** Calls *)
Section Calls.
Context (n : nat) (Hn31 : Z.of_nat n < 2 ^ 31) (s : shared_mutex) (wl rl : list fid) (R : gset fid) (w : option fid) (f : fid)
  (I : coop_inv n s wl rl R w) (Hn : (f < n)%nat).

Definition keeps_inv (s' : shared_mutex) : Prop := exists wl' rl' R' w', coop_inv n s' wl' rl' R' w'.

(** [f] has moved any number of times. *)
Ltac moved_tac := split; cbn; [now rewrite fn_lookup_insert|intros ? ?; rewrite !fn_lookup_insert_ne by congruence; auto].

Lemma no_writer : _writer s = false <-> w = None.
Proof. rewrite (ci_writer _ _ _ _ _ _ I). destruct w; cbn; intuition discriminate. Qed.
Lemma no_readers : _readers s = 0 <-> R = ∅.
Proof.
  rewrite (ci_readers _ _ _ _ _ _ I). split; [|now intros ->]. intros E. apply leibniz_equiv, size_empty_iff. now apply Nat2Z.inj.
Qed.
Lemma no_writers : wait_head (_writers s) = None <-> wl = [].
Proof. rewrite (qr_head _ _ _ (ci_writers _ _ _ _ _ _ I)). destruct wl; cbn; intuition discriminate. Qed.


(** The slow path of [lock], from a state that still agrees with [s]. *)
Record agrees (s1 : shared_mutex) : Prop := {
  ag_writers : _writers s1 = _writers s; ag_next : next_blocked s1 = next_blocked s;
  ag_waiting : _waiting_readers s1 = _waiting_readers s; ag_readers : _readers s1 = _readers s;
  ag_writer : _writer s1 = _writer s; ag_wakes : wake_list s1 = wake_list s;
  ag_pcs : forall g, g <> f -> pcs s1 g = pcs s g }.
Lemma agrees_goto p s1 : agrees s1 -> agrees (goto f p s1).
Proof. intros []. split; auto. intros g Hg. cbn. rewrite fn_lookup_insert_ne by congruence. auto. Qed.

Lemma enqueue_writer s1 s' : pcs s f = Idle -> agrees s1 -> own_run f (goto f WEnqueue s1) s' -> w <> None \/ R <> ∅ -> keeps_inv s'.
Proof.
  intros Hi [F2 F3 F4 F5 F6 F7 F8] Hr Hh. own Hr. unfold push_writer in Hr. goto_fields Hr. rewrite F2, F3 in Hr.
  destruct (wait_push f (_writers s) (next_blocked s)) as [q nx] eqn:Eq. own Hr. own Hr. own Hr. subst s'.
  exists (wl ++ [f]), rl, R, w. eapply (outcome_queue_writer n s wl rl R w f I Hn); cbn; eauto. moved_tac.
Qed.
Lemma enqueue_reader s1 s' : pcs s f = Idle -> agrees s1 -> own_run f (goto f REnqueue s1) s' -> w <> None \/ wl <> [] -> keeps_inv s'.
Proof.
  intros Hi [F2 F3 F4 F5 F6 F7 F8] Hr Hh. own Hr. unfold push_reader in Hr. goto_fields Hr. rewrite F4, F3 in Hr.
  destruct (wait_push f (_waiting_readers s) (next_blocked s)) as [q nx] eqn:Eq. own Hr. own Hr. own Hr. subst s'.
  exists wl, (rl ++ [f]), R, w. eapply (outcome_queue_reader n s wl rl R w f I Hn); cbn; eauto. moved_tac.
Qed.
Ltac agrees_tac := repeat apply agrees_goto; split; cbn; auto; intros ? ?; rewrite ?fn_lookup_insert_ne by congruence; auto.

Lemma lock_keeps s' : pcs s f = Idle -> own_run f (goto f WSpin s) s' -> keeps_inv s'.
Proof.
  intros Hi Hr. pose proof (ci_lock _ _ _ _ _ _ I) as El. own Hr. rewrite El in Hr. own Hr.
  destruct (_writer s) eqn:Ew.
  { eapply enqueue_writer; [exact Hi| |exact Hr|left; rewrite <- no_writer; congruence]. agrees_tac. }
  own Hr. destruct ((_readers s =? 0) && bool_decide (wait_head (_writers s) = None)) eqn:Ec.
  - apply andb_true_iff in Ec as [H1%Z.eqb_eq%no_readers H2%bool_decide_eq_true%no_writers]. own Hr. own Hr. own Hr. subst s'.
    exists wl, rl, R, (Some f). apply (outcome_write n s wl rl R w f I Hn); cbn; auto; [now apply no_writer| |]; [repeat split; auto|moved_tac].
  - eapply enqueue_writer; [exact Hi| |exact Hr|]; [agrees_tac|]. apply andb_false_iff in Ec as [H1%Z.eqb_neq|H2%bool_decide_eq_false].
    + right. now rewrite <- no_readers.
    + apply (ci_wl _ _ _ _ _ _ I). now rewrite <- no_writers.
Qed.
Lemma try_lock_keeps s' : pcs s f = Idle -> own_run f (goto f TSpin s) s' -> keeps_inv s'.
Proof.
  intros Hi Hr. pose proof (ci_lock _ _ _ _ _ _ I) as El. own Hr. rewrite El in Hr. own Hr. destruct (_writer s) eqn:Ew.
  { own Hr. own Hr. subst s'. exists wl, rl, R, w. apply (outcome_same n s wl rl R w f I Hn); cbn; auto; [repeat split; auto|]. rewrite Hi. moved_tac. }
  own Hr. destruct (Z.eqb_spec (_readers s) 0) as [Er|Er].
  - own Hr. own Hr. own Hr. subst s'. exists wl, rl, R, (Some f).
    apply (outcome_write n s wl rl R w f I Hn); cbn; auto; [now apply no_writer|now apply no_readers|repeat split; auto|moved_tac].
  - own Hr. own Hr. subst s'. exists wl, rl, R, w. apply (outcome_same n s wl rl R w f I Hn); cbn; auto; [repeat split; auto|]. rewrite Hi. moved_tac.
Qed.

Lemma room_for_reader : pcs s f = Idle -> 0 <= _readers s /\ _readers s + 1 < 2 ^ 31.
Proof.
  intros Hi. destruct (outside_idle n s wl rl R w f I Hi) as (_ & _ & HR & _). destruct (holders_bound _ _ _ _ _ _ I) as [Hb _].
  assert (Hs : (size ({[f]} ∪ R) <= n)%nat) by (apply fids_bound; intros g [->%elem_of_singleton|Hg]%elem_of_union; auto).
  rewrite size_union, size_singleton in Hs by set_solver. rewrite (ci_readers _ _ _ _ _ _ I). lia.
Qed.
Lemma try_lock_shared_keeps s' : pcs s f = Idle -> own_run f (goto f TRLoad s) s' -> keeps_inv s'.
Proof.
  intros Hi Hr. pose proof (ci_lock _ _ _ _ _ _ I) as El. destruct (room_for_reader Hi). own Hr. destruct (_writer s) eqn:Ew.
  { own Hr. subst s'. exists wl, rl, R, w. apply (outcome_same n s wl rl R w f I Hn); cbn; auto; [repeat split; auto|]. rewrite Hi. moved_tac. }
  own Hr. rewrite readers_count in Hr by lia. own Hr. rewrite Ew in Hr. own Hr. subst s'.
  exists wl, rl, ({[f]} ∪ R), w. apply (outcome_read n s wl rl R w f I Hn); cbn; auto; [now apply no_writer|repeat split; auto|moved_tac].
Qed.
Lemma lock_shared_keeps s' : pcs s f = Idle -> own_run f (goto f RLoadWriter s) s' -> keeps_inv s'.
Proof.
  intros Hi Hr. pose proof (ci_lock _ _ _ _ _ _ I) as El. destruct (room_for_reader Hi). own Hr. destruct (_writer s) eqn:Ew.
  { own Hr. rewrite El in Hr. own Hr. rewrite Ew in Hr. cbn [negb andb] in Hr.
    eapply enqueue_reader; [exact Hi| |exact Hr|left; rewrite <- no_writer; congruence]. agrees_tac. }
  own Hr. destruct (wait_head (_writers s)) as [m|] eqn:Eh.
  - own Hr. rewrite El in Hr. own Hr. rewrite Ew, bool_decide_eq_false_2 in Hr by congruence. cbn [negb andb] in Hr.
    eapply enqueue_reader; [exact Hi| |exact Hr|right; rewrite <- no_writers; congruence]. agrees_tac.
  - own Hr. rewrite readers_count in Hr by lia. own Hr. rewrite Ew in Hr. own Hr. subst s'.
    exists wl, rl, ({[f]} ∪ R), w. apply (outcome_read n s wl rl R w f I Hn); cbn; auto; [now apply no_writer|repeat split; auto|moved_tac].
Qed.

Lemma unlock_keeps s' : pcs s f = Writing -> own_run f (goto f UnSpin s) s' -> keeps_inv s'.
Proof.
  intros Hi Hr. pose proof (ci_lock _ _ _ _ _ _ I) as El. pose proof (ci_pcs _ _ _ _ _ _ I f) as Pf. rewrite Hi in Pf.
  destruct Pf as (_ & _ & HfR & Hw & _). assert (HR : R = ∅) by (apply (ci_excl _ _ _ _ _ _ I); congruence).
  assert (HR' : R ∖ {[f]} = ∅) by set_solver. assert (Er : _readers s = 0) by now apply no_readers.
  own Hr. rewrite El in Hr. own Hr. own Hr. pose proof (ci_waiting _ _ _ _ _ _ I) as Qr. pose proof (ci_writers _ _ _ _ _ _ I) as Qw.
  rewrite (qr_head _ _ _ Qr), (qr_head _ _ _ Qw) in Hr. destruct (decide (rl = [])) as [Erl|Hrl].
  - rewrite Erl in Hr. cbn [head] in Hr. destruct wl as [|m wl'] eqn:Ewl; cbn [head] in Hr.
    + own Hr. own Hr. subst s'. exists [], rl, (R ∖ {[f]}), None.
      apply (outcome_leave n s [] rl R w f I Hn); cbn; auto; [repeat split; auto|rewrite HR'; now rewrite Er|moved_tac].
    + unfold pop_writer in Hr. goto_fields Hr. destruct (wait_pop m (_writers s) (next_blocked s)) as [q nx] eqn:Eq.
      own Hr. own Hr. own Hr. own Hr. subst s'. exists wl', rl, ∅, (Some m).
      eapply (outcome_hand n s (m :: wl') rl R w f I Hn); cbn; eauto. moved_tac.
  - destruct rl as [|r rl'] eqn:Erl; [done|]. cbn [head] in Hr. own Hr.
    change (Some r) with (head (r :: rl')) in Hr. destruct (holders_bound _ _ _ _ _ _ I) as [_ Hb].
    apply wake_loop in Hr; [|apply Qr|apply Qr|..]; try (cbn [_readers length goto set_field] in *; rewrite Er; lia).
    destruct Hr as (E1 & E2 & E3 & E4 & E5 & E6 & E7 & Hm1 & Hm2). exists wl, [], (list_to_set (r :: rl')), None.
    apply (outcome_readers n s wl (r :: rl') R w f I Hn); auto.
    + eapply linked_ext; [|apply Qw]. intros g Hg. rewrite E3; [reflexivity|]. now apply (queues_disjoint n s wl (r :: rl') R w g I).
    + rewrite E1. cbn -[Z.of_nat]. lia.
    + split; [exact Hm1|]. intros g Hg. rewrite (Hm2 g Hg). cbn. now rewrite !fn_lookup_insert_ne by congruence.
Qed.
Lemma unlock_shared_keeps s' : pcs s f = Reading -> own_run f (goto f RUnSub s) s' -> keeps_inv s'.
Proof.
  intros Hi Hr. pose proof (ci_lock _ _ _ _ _ _ I) as El. pose proof (ci_pcs _ _ _ _ _ _ I f) as Pf. rewrite Hi in Pf.
  destruct Pf as (_ & _ & HfR & Hwf & _).
  assert (Hw : w = None) by (destruct w eqn:Ew; [|done]; rewrite (ci_excl _ _ _ _ _ _ I) in HfR by congruence; now apply not_elem_of_empty in HfR).
  assert (Ew : _writer s = false) by now apply no_writer. pose proof (ci_readers _ _ _ _ _ _ I) as ER.
  assert (ES : size R = S (size (R ∖ {[f]}))) by (rewrite (union_difference_L {[f]} R) at 1 by set_solver; rewrite size_union, size_singleton by set_solver; lia).
  destruct (holders_bound _ _ _ _ _ _ I) as [Hb _]. apply fids_bound in Hb.
  assert (Hrl : rl = [] \/ wl <> []) by (destruct (decide (rl = [])) as [|Hne]; [now left|right]; destruct (ci_rl _ _ _ _ _ _ I Hne); [congruence|assumption]).
  own Hr. rewrite readers_count in Hr by lia. destruct (Z.eqb_spec (_readers s) 1) as [E1|E1].
  - own Hr. rewrite El in Hr. own Hr. replace (_readers s + -1 =? 0) with true in Hr by (symmetry; apply Z.eqb_eq; lia).
    assert (HR' : R ∖ {[f]} = ∅) by (apply leibniz_equiv, size_empty_iff; lia).
    rewrite (qr_head _ _ _ (ci_writers _ _ _ _ _ _ I)) in Hr. destruct wl as [|m wl'] eqn:Ewl; cbn [head] in Hr.
    + own Hr. own Hr. subst s'. exists [], rl, (R ∖ {[f]}), None.
      apply (outcome_leave n s [] rl R w f I Hn); cbn -[Z.of_nat]; auto; [repeat split; auto|lia|moved_tac].
    + unfold pop_writer in Hr. goto_fields Hr. destruct (wait_pop m (_writers s) (next_blocked s)) as [q nx] eqn:Eq.
      own Hr. own Hr. own Hr. own Hr. subst s'. exists wl', rl, ∅, (Some m).
      eapply (outcome_hand n s (m :: wl') rl R w f I Hn); cbn; eauto; [lia|moved_tac].
  - own Hr. subst s'. exists wl, rl, (R ∖ {[f]}), None.
    apply (outcome_leave n s wl rl R w f I Hn); cbn -[Z.of_nat]; auto; [repeat split; auto|lia|moved_tac|].
    left. intros HE. rewrite HE, size_empty in ES. lia.
Qed.
Lemma resume_keeps s' : resting (pcs s f) = true -> internal_step f s = Some s' -> keeps_inv s'.
Proof.
  intros Hr Hs. pose proof (ci_lock _ _ _ _ _ _ I) as El. unfold internal_step, lock_step, lock_shared_step, resume in Hs.
  destruct (pcs s f) eqn:Ep; try discriminate; destruct (decide (f ∈ wake_list s)) as [Hk|]; try discriminate; injection Hs as <-;
    exists wl, rl, R, w; (apply (outcome_resume n s wl rl R w f I); cbn; auto; [|repeat split; auto]); [left|right]; (split; [exact Ep|moved_tac]).
Qed.
End Calls.

Lemma coop_step_keeps n s s' wl rl R w : Z.of_nat n < 2 ^ 31 -> coop_inv n s wl rl R w -> coop_step n s s' -> keeps_inv n s'.
Proof.
  intros H31 I Hst. inversion Hst as [f k ? s1 ? Hn Hc Hr|f ? ? Hr Hs]; subst.
  2:{ eapply resume_keeps; eauto. apply (ci_bound _ _ _ _ _ _ I). intros E. unfold internal_step in Hs. now rewrite E in Hs. }
  unfold call_step in Hc.
  destruct k, (pcs s f) eqn:Ep; try discriminate Hc; injection Hc as <-;
    [eapply lock_keeps|eapply unlock_keeps|eapply lock_shared_keeps|eapply unlock_shared_keeps|eapply try_lock_keeps|eapply try_lock_shared_keeps]; eauto.
Qed.
(** Every call ends. *)
Lemma call_ends n s wl rl R w f k s1 : coop_inv n s wl rl R w -> call_step f k s = Some s1 -> exists s', own_run f s1 s'.
Proof.
  intros I Hc. unfold call_step in Hc.
  destruct k, (pcs s f); try discriminate Hc; injection Hc as <-; (eapply own_ends; [reflexivity| |]);
    rewrite pcs_goto; try apply (ci_lock _ _ _ _ _ _ I); right; cbn; auto. eexists. apply (ci_waiting _ _ _ _ _ _ I).
Qed.
Lemma coop_reachable_inv n s : Z.of_nat n < 2 ^ 31 -> coop_reachable n s -> keeps_inv n s.
Proof.
  intros H31. induction 1 as [|s s' _ (wl & rl & R & w & I) Hs]; [|eapply coop_step_keeps; eauto].
  exists [], [], ∅, None. split; try done; [split; try done; constructor|split; try done; constructor|].
  intros f. cbn. repeat split; try set_solver.
Qed.

(** C21. [fiber_shared_mutex] on one scheduler: where fibers run until they park,
    through any sequence of calls of fewer than [2 ^ 31] fibers, a fiber that
    holds the mutex exclusively excludes every other holder, [_readers] counts
    the fibers that read or have been woken to, a fiber that is parked and not
    yet woken waits for somebody, a fiber that holds the mutex or has been woken
    to, and every call returns or parks. *)
Theorem shared_mutex_cooperative n s : Z.of_nat n < 2 ^ 31 -> coop_reachable n s ->
  (forall f g, pcs s f = Writing -> pcs s g = Writing \/ pcs s g = Reading -> g = f) /\
  (exists R : gset fid, _readers s = Z.of_nat (size R) /\
     forall f, f ∈ R <-> pcs s f = Reading \/ (pcs s f = RParked /\ f ∈ wake_list s)) /\
  (forall f, pcs s f = WParked \/ pcs s f = RParked -> f ∉ wake_list s ->
     exists g, pcs s g = Writing \/ pcs s g = Reading \/ g ∈ wake_list s) /\
  (forall f k s1, call_step f k s = Some s1 -> exists s', own_run f s1 s').
Proof.
  intros H31 (wl & rl & R & w & I)%coop_reachable_inv; [|exact H31].
  assert (HW : forall f, pcs s f = Writing -> w = Some f) by (intros f E; pose proof (ci_pcs _ _ _ _ _ _ I f) as P; rewrite E in P; apply P).
  assert (HR : forall f, pcs s f = Reading -> f ∈ R) by (intros f E; pose proof (ci_pcs _ _ _ _ _ _ I f) as P; rewrite E in P; apply P).
  split; [|split; [|split]].
  4:{ intros f k s1. eapply call_ends; exact I. }
  - intros f g Hf%HW [Hg%HW|Hg%HR]; [congruence|]. rewrite (ci_excl _ _ _ _ _ _ I) in Hg by congruence. now apply not_elem_of_empty in Hg.
  - exists R. split; [apply (ci_readers _ _ _ _ _ _ I)|]. intros f. pose proof (ci_pcs _ _ _ _ _ _ I f) as P.
    destruct (pcs s f); cbn in P; try contradiction; intuition (congruence || tauto).
  - intros f Hf Hk. assert (Hq : w <> None \/ R <> ∅).
    { pose proof (ci_pcs _ _ _ _ _ _ I f) as P. destruct Hf as [E|E]; rewrite E in P; destruct P as (_ & _ & [_ Hin] & _); specialize (Hin Hk).
      - apply (ci_wl _ _ _ _ _ _ I). intros ->. now apply not_elem_of_nil in Hin.
      - destruct (ci_rl _ _ _ _ _ _ I) as [|Hwl]; [|now left|now apply (ci_wl _ _ _ _ _ _ I)]. intros ->. now apply not_elem_of_nil in Hin. }
    destruct Hq as [Hw|HRn].
    + destruct w as [g|]; [|done]. exists g. pose proof (ci_pcs _ _ _ _ _ _ I g) as P. destruct (pcs s g); cbn in P; auto; tauto.
    + apply set_choose_L in HRn as [g Hg]. exists g. pose proof (ci_pcs _ _ _ _ _ _ I g) as P. destruct (pcs s g); cbn in P; auto; tauto.
Qed.

(** ** A cooperative run *)
Fixpoint finish (fuel : nat) (f : fid) (s : shared_mutex) : option shared_mutex :=
  if resting (pcs s f) then Some s
  else match fuel with O => None | S fuel' => match internal_step f s with Some s1 => finish fuel' f s1 | None => None end end.
Lemma finish_own fuel f s s' : finish fuel f s = Some s' -> own_run f s s'.
Proof.
  revert s. induction fuel as [|fuel IH]; intros s; cbn [finish]; destruct (resting (pcs s f)) eqn:Er;
    [intros [= <-]; now apply own_done|discriminate|intros [= <-]; now apply own_done|].
  destruct (internal_step f s) as [s1|] eqn:Es; [|discriminate]. intros Hf%IH. eapply own_more; eauto.
Qed.
Fixpoint calls (l : list (fid * shared_call)) (s : shared_mutex) : option shared_mutex :=
  match l with
  | [] => Some s
  | (f, k) :: l' => match call_step f k s with
                    | Some s1 => match finish 20 f s1 with Some s2 => calls l' s2 | None => None end
                    | None => None
                    end
  end.
Lemma calls_reachable n l s s' : Forall (fun c => (c.1 < n)%nat) l -> coop_reachable n s -> calls l s = Some s' -> coop_reachable n s'.
Proof.
  revert s. induction l as [|[f k] l IH]; intros s Hl Hr; cbn [calls]; [intros [= <-]; exact Hr|]. inversion_clear Hl as [|? ? Hf Hl'].
  destruct (call_step f k s) as [s1|] eqn:Ec; [|discriminate]. destruct (finish 20 f s1) as [s2|] eqn:Ef; [|discriminate].
  apply IH; [exact Hl'|]. eapply coop_more; [exact Hr|]. eapply coop_call; [exact Hf|exact Ec|now apply (finish_own 20)].
Qed.
(** A writer, with a reader and another writer parked behind it. *)
Definition shared_demo : shared_mutex :=
  default shared_init (calls [(1, CallLock); (2, CallLockShared); (3, CallLock)]%nat shared_init).
Lemma shared_mutex_cooperative_witness :
  pcs shared_demo 1 = Writing /\ pcs shared_demo 2 = RParked /\ pcs shared_demo 3 = WParked /\
  (exists g, pcs shared_demo g = Writing \/ pcs shared_demo g = Reading \/ g ∈ wake_list shared_demo).
Proof.
  repeat (split; [vm_compute; reflexivity|]).
  refine (proj1 (proj2 (proj2 (shared_mutex_cooperative 4 shared_demo _ _))) 2%nat _ _).
  - vm_compute. reflexivity.
  - refine (calls_reachable 4 [(1, CallLock); (2, CallLockShared); (3, CallLock)]%nat shared_init _ _ (coop_init 4) _);
      [repeat constructor|vm_compute; reflexivity].
  - right. vm_compute. reflexivity.
  - vm_compute. intros H. inversion H.
Defined.
