(* ===== verification/TxMutex.v ===== *)
(** * psiber: [fiber_tx_mutex]

    Models [fiber_tx_mutex] of psiber/src/fiber_mutex.cpp.  Every access to a
    mutex's fields is made under its spin lock, so a critical section is one
    step.  The fibers' [next_blocked], [tx_timestamp] and [wounded] are shared by
    the mutexes a fiber uses, so the state holds all of them. *)
From Stdlib Require Import ZArith Lia Bool.
From stdpp Require Import base numbers decidable option gmap functions list.
From S2P Require Import Prelude Fibers.

Record tx_mutex := { tx_owner : option fid; tx_owner_timestamp : Z; tx_queue : wait_queue }.
Definition tx_free : tx_mutex := {| tx_owner := None; tx_owner_timestamp := 0; tx_queue := wait_empty |}.

(** A fiber runs, is parked in [lock] of a mutex, or has left [lock] with
    [wound_exception]. *)
Inductive tx_pc := TxRunning | TxParked (m : nat) | TxAborted.

Record tx_state := {
  tx_mutexes : nat -> tx_mutex; tx_next : links; tx_timestamp : fid -> Z; wounded : fid -> bool;
  tx_wakes : gset fid; tx_pcs : fid -> tx_pc }.
#[global] Instance eta_tx : Eta tx_state := fun s =>
  {| tx_mutexes := tx_mutexes s; tx_next := tx_next s; tx_timestamp := tx_timestamp s; wounded := wounded s;
     tx_wakes := tx_wakes s; tx_pcs := tx_pcs s |}.

Definition put_mutex (m : nat) (x : tx_mutex) (s : tx_state) : tx_state := s <| tx_mutexes := <[m := x]> (tx_mutexes s) |>.

(** [lock] up to the park. *)
Definition tx_lock (f : fid) (m : nat) (ts : Z) (s : tx_state) : tx_state :=
  let x := tx_mutexes s m in
  match tx_owner x with
  | None =>
      put_mutex m {| tx_owner := Some f; tx_owner_timestamp := ts; tx_queue := tx_queue x |}
        (s <| wounded := <[f := false]> (wounded s) |>)
  | Some o =>
      let (q, nx) := wait_push f (tx_queue x) (tx_next s) in
      let s := put_mutex m {| tx_owner := Some o; tx_owner_timestamp := tx_owner_timestamp x; tx_queue := q |}
                 (s <| tx_next := nx |> <| tx_pcs := <[f := TxParked m]> (tx_pcs s) |>) in
      if ts <? tx_owner_timestamp x then s <| wounded := <[o := true]> (wounded s) |> else s
  end.

(** [unlock]; the new owner's timestamp is the one in its [Fiber]. *)
Definition tx_unlock (m : nat) (s : tx_state) : tx_state :=
  let x := tx_mutexes s m in
  match wait_head (tx_queue x) with
  | Some n =>
      let (q, nx) := wait_pop n (tx_queue x) (tx_next s) in
      put_mutex m {| tx_owner := Some n; tx_owner_timestamp := tx_timestamp s n; tx_queue := q |}
        (s <| tx_next := nx |> <| tx_wakes := {[n]} ∪ tx_wakes s |>)
  | None => put_mutex m {| tx_owner := None; tx_owner_timestamp := 0; tx_queue := tx_queue x |} s
  end.

(** [lock] after the park: a fiber wounded while it waited gives the mutex up. *)
Definition tx_resume (f : fid) (s : tx_state) : option tx_state :=
  match tx_pcs s f with
  | TxParked m =>
      if decide (f ∈ tx_wakes s) then
        let s := s <| tx_wakes := tx_wakes s ∖ {[f]} |> in
        Some (if wounded s f then (tx_unlock m s) <| tx_pcs := <[f := TxAborted]> (tx_pcs s) |>
              else s <| tx_pcs := <[f := TxRunning]> (tx_pcs s) |>)
      else None
  | _ => None
  end.

Definition tx_try_lock (f : fid) (m : nat) (ts : Z) (s : tx_state) : bool * tx_state :=
  let x := tx_mutexes s m in
  match tx_owner x with
  | None => (true, put_mutex m {| tx_owner := Some f; tx_owner_timestamp := ts; tx_queue := tx_queue x |} s)
  | Some _ => (false, s)
  end.
Definition holder_timestamp (m : nat) (s : tx_state) : Z := tx_owner_timestamp (tx_mutexes s m).
(** [check_wounded] throws when this is true. *)
Definition check_wounded (f : fid) (s : tx_state) : bool := wounded s f.

(** Fibers whose timestamps their transactions have set. *)
Definition tx_init (ts : fid -> Z) : tx_state :=
  {| tx_mutexes := fun _ => tx_free; tx_next := ∅; tx_timestamp := ts; wounded := fun _ => false;
     tx_wakes := ∅; tx_pcs := fun _ => TxRunning |}.

(** ** What holds

    A waiter that is older than the holder when it arrives wounds the holder,
    and a younger one does not. *)
Lemma tx_lock_wounds f m ts s o : tx_owner (tx_mutexes s m) = Some o ->
  let s' := tx_lock f m ts s in
  tx_pcs s' f = TxParked m /\ tx_owner (tx_mutexes s' m) = Some o /\
  wounded s' o = (ts <? tx_owner_timestamp (tx_mutexes s m)) || wounded s o /\
  forall g, g <> o -> wounded s' g = wounded s g.
Proof.
  intros Ho. unfold tx_lock. cbv zeta. rewrite Ho. destruct (wait_push f _ _) as [q nx].
  destruct (ts <? _); cbn; rewrite ?fn_lookup_insert; repeat split; auto; intros g Hg; now rewrite fn_lookup_insert_ne by congruence.
Qed.
