(* ===== verification/MpscStack.v ===== *)
(** * psiber: [mpsc_stack], the scheduler's wake list

    Models psiber/detail/mpsc_stack.hpp and its use by [drainWakeList] of
    psiber/src/scheduler.cpp: any number of threads push nodes with a
    compare-and-swap loop while one thread detaches the whole list, reverses it
    and handles its nodes.  One step per access to shared memory, sequentially
    consistent; [compare_exchange_weak] may fail spuriously.  The locks of
    [FiberMutex] and [SharedMutex] rely on it: a fiber pushed by [wake] is handled
    once, in the order of the pushes. *)
From Stdlib Require Import ZArith Lia Bool.
From stdpp Require Import base numbers decidable option gmap functions list.
From S2P Require Import Prelude Fibers.

(** ** State *)

(** A thread in [push] of a node: before the load of the head, before it links
    the node to the head it read, before the compare-and-swap. *)
Inductive push_pc := PIdle | PLoad (node : fid) | PLink (node : fid) (old_head : option fid) | PCas (node : fid) (old_head : option fid).
(** The consumer: idle, in [reverse], or handling the reversed list. *)
Inductive drain_pc := DIdle | DReverse (head reversed : option fid) | DWalk (fiber : option fid).

(** [pushed] and [handled] record the order of the successful pushes and of the
    handled nodes. *)
Record mpsc := {
  _head : option fid; next_wake : links; pushers : nat -> push_pc; consumer : drain_pc;
  pushed : list fid; handled : list fid }.
#[global] Instance eta_mpsc : Eta mpsc := fun s =>
  {| _head := _head s; next_wake := next_wake s; pushers := pushers s; consumer := consumer s; pushed := pushed s; handled := handled s |}.
Definition mpsc_init : mpsc :=
  {| _head := None; next_wake := ∅; pushers := fun _ => PIdle; consumer := DIdle; pushed := []; handled := [] |}.

Definition set_next (n : fid) (o : option fid) (nx : links) : links :=
  match o with Some x => <[n := x]> nx | None => delete n nx end.
Definition push_at (t : nat) (p : push_pc) (s : mpsc) : mpsc := s <| pushers := <[t := p]> (pushers s) |>.

(** ** Steps *)

(** [push]; [spurious] is the weak compare-and-swap's choice. *)
Definition push_step (t : nat) (spurious : bool) (s : mpsc) : option mpsc :=
  match pushers s t with
  | PLoad n => Some (push_at t (PLink n (_head s)) s)
  | PLink n old => Some (push_at t (PCas n old) (s <| next_wake := set_next n old (next_wake s) |>))
  | PCas n old =>
      if bool_decide (_head s = old) && negb spurious
      then Some (push_at t PIdle (s <| _head := Some n |> <| pushed := pushed s ++ [n] |>))
      else Some (push_at t (PLink n (_head s)) s)
  | PIdle => None
  end.
(** [drain]: one exchange. *)
Definition drain_step (s : mpsc) : option mpsc :=
  match consumer s with DIdle => Some (s <| _head := None |> <| consumer := DReverse (_head s) None |>) | _ => None end.
(** An iteration of [reverse]. *)
Definition reverse_step (s : mpsc) : option mpsc :=
  match consumer s with
  | DReverse (Some h) r =>
      Some (s <| next_wake := set_next h r (next_wake s) |> <| consumer := DReverse (next_wake s !! h) (Some h) |>)
  | DReverse None r => Some (s <| consumer := DWalk r |>)
  | _ => None
  end.
(** An iteration of the loop over the reversed list: the link is read before the
    fiber is handed on. *)
Definition route_step (s : mpsc) : option mpsc :=
  match consumer s with
  | DWalk (Some f) =>
      Some (s <| next_wake := set_next f None (next_wake s) |> <| consumer := DWalk (next_wake s !! f) |> <| handled := handled s ++ [f] |>)
  | DWalk None => Some (s <| consumer := DIdle |>)
  | _ => None
  end.

(** The node a thread is pushing. *)
Definition pushing (p : push_pc) : option fid :=
  match p with PIdle => None | PLoad n | PLink n _ | PCas n _ => Some n end.
(** Pushed and not handled yet. *)
Definition pending (s : mpsc) : list fid := drop (length (handled s)) (pushed s).

Inductive mpsc_step (s : mpsc) : mpsc -> Prop :=
  | mpsc_call t n : pushers s t = PIdle -> n ∉ pending s -> (forall t', pushing (pushers s t') <> Some n) ->
      mpsc_step s (push_at t (PLoad n) s)
  | mpsc_push t b s' : push_step t b s = Some s' -> mpsc_step s s'
  | mpsc_drain s' : drain_step s = Some s' -> mpsc_step s s'
  | mpsc_reverse s' : reverse_step s = Some s' -> mpsc_step s s'
  | mpsc_route s' : route_step s = Some s' -> mpsc_step s s'.
Inductive mpsc_reachable : mpsc -> Prop :=
  | mpsc_start : mpsc_reachable mpsc_init
  | mpsc_more s s' : mpsc_reachable s -> mpsc_step s s' -> mpsc_reachable s'.

(** ** The invariant

    [c] the nodes of the list, newest first; [a] those still to be reversed and
    [b] those reversed. *)
Definition consumer_rep (nx : links) (p : drain_pc) (a b : list fid) : Prop :=
  match p with
  | DIdle => a = [] /\ b = []
  | DReverse h r => h = head a /\ r = head b
  | DWalk r => a = [] /\ r = head b
  end.
Record mpsc_inv (s : mpsc) (c a b : list fid) : Prop := {
  mv_head : _head s = head c;
  mv_linked : linked (next_wake s) c /\ linked (next_wake s) a /\ linked (next_wake s) b;
  mv_consumer : consumer_rep (next_wake s) (consumer s) a b;
  mv_pushed : pushed s = handled s ++ (rev a ++ b) ++ rev c;
  mv_nodup : NoDup (c ++ a ++ b);
  mv_pushing : forall t n, pushing (pushers s t) = Some n -> n ∉ c ++ a ++ b;
  mv_distinct : forall t t' n, pushing (pushers s t) = Some n -> pushing (pushers s t') = Some n -> t = t';
  mv_cas : forall t n old, pushers s t = PCas n old -> next_wake s !! n = old }.

Lemma init_mpsc : mpsc_inv mpsc_init [] [] [].
Proof. split; cbn; try done; [constructor|..]; intros; discriminate. Qed.
Lemma set_next_same n o nx : set_next n o nx !! n = o.
Proof. destruct o; cbn; [apply lookup_insert_eq|apply lookup_delete_eq]. Qed.
Lemma set_next_other n o nx f : f <> n -> set_next n o nx !! f = nx !! f.
Proof. intros Hf. destruct o; cbn; [apply lookup_insert_ne|apply lookup_delete_ne]; congruence. Qed.
Lemma linked_set_next n o nx l : n ∉ l -> linked nx l -> linked (set_next n o nx) l.
Proof. intros Hn. apply linked_ext. intros f Hf. apply set_next_other. congruence. Qed.

Lemma pending_inv s c a b : mpsc_inv s c a b -> pending s = (rev a ++ b) ++ rev c.
Proof. intros I. unfold pending. now rewrite (mv_pushed _ _ _ _ I), drop_app_length. Qed.
Lemma in_pending s c a b n : mpsc_inv s c a b -> n ∈ pending s <-> n ∈ c ++ a ++ b.
Proof.
  intros I. rewrite (pending_inv _ _ _ _ I), !elem_of_app, !list_elem_of_In, <- !in_rev. tauto.
Qed.

Section Preservation.
Context (s : mpsc) (c a b : list fid) (I : mpsc_inv s c a b).

(** A pusher moves on with its node, or without one. *)
Lemma pusher_moves t p : (forall n, pushing p = Some n -> pushing (pushers s t) = Some n) ->
  (forall n old, p = PCas n old -> next_wake s !! n = old) -> mpsc_inv (push_at t p s) c a b.
Proof.
  intros Hp Hc. pose proof I as [? ? ? ? ? I6 I7 I8]. split; auto; cbn; unfold push_at; cbn.
  - intros t' n. destruct (decide (t' = t)) as [->|Hne]; [rewrite fn_lookup_insert; eauto|rewrite fn_lookup_insert_ne by congruence; eauto].
  - assert (Hq : forall u n, pushing ((<[t := p]> (pushers s)) u) = Some n -> pushing (pushers s u) = Some n).
    { intros u n. destruct (decide (u = t)) as [->|Hne]; [rewrite fn_lookup_insert; eauto|now rewrite fn_lookup_insert_ne by congruence]. }
    intros t1 t2 n H1%Hq H2%Hq. eauto.
  - intros t' n old. destruct (decide (t' = t)) as [->|Hne]; [rewrite fn_lookup_insert; eauto|rewrite fn_lookup_insert_ne by congruence; eauto].
Qed.

(** The links of a node outside of the lists, or of one that moves between them. *)
Lemma linked_rest n o : n ∉ c ++ a ++ b ->
  linked (set_next n o (next_wake s)) c /\ linked (set_next n o (next_wake s)) a /\ linked (set_next n o (next_wake s)) b.
Proof.
  rewrite !not_elem_of_app. intros (? & ? & ?). destruct I as [_ (? & ? & ?) _ _ _ _ _ _]. auto using linked_set_next.
Qed.

Lemma call_keeps t n : pushers s t = PIdle -> n ∉ pending s -> (forall t', pushing (pushers s t') <> Some n) ->
  mpsc_inv (push_at t (PLoad n) s) c a b.
Proof.
  intros Hi Hn Ho. rewrite (in_pending _ _ _ _ _ I) in Hn. destruct I as [? ? ? ? ? I6 I7 I8]. split; auto; unfold push_at; cbn.
  - intros t' n'. destruct (decide (t' = t)) as [->|Hne]; [rewrite fn_lookup_insert; now intros [= <-]|rewrite fn_lookup_insert_ne by congruence; eauto].
  - intros t1 t2 n'. destruct (decide (t1 = t)) as [->|H1], (decide (t2 = t)) as [->|H2];
      rewrite ?fn_lookup_insert, ?(fn_lookup_insert_ne _ t) by congruence; cbn; eauto; [intros [= <-] Hx|intros Hx [= <-]]; now apply Ho in Hx.
  - intros t' n' old. destruct (decide (t' = t)) as [->|Hne]; [rewrite fn_lookup_insert; discriminate|rewrite fn_lookup_insert_ne by congruence; eauto].
Qed.

Lemma link_keeps t n old : pushers s t = PLink n old ->
  mpsc_inv (push_at t (PCas n old) (s <| next_wake := set_next n old (next_wake s) |>)) c a b.
Proof.
  intros Hp. assert (Hpn : pushing (pushers s t) = Some n) by now rewrite Hp. destruct (linked_rest n old (mv_pushing _ _ _ _ I t n Hpn)) as (L1 & L2 & L3).
  assert (I' : mpsc_inv (push_at t (PLoad n) s) c a b) by (apply pusher_moves; [now rewrite Hp|discriminate]).
  destruct I' as [? ? ? ? ? I6 I7 I8]. split; auto; unfold push_at in *; cbn in *.
  - intros t' n'. specialize (I6 t' n'). destruct (decide (t' = t)) as [->|Hne]; rewrite ?fn_lookup_insert, ?(fn_lookup_insert_ne _ t) in * by congruence; auto.
  - intros t1 t2 n'. specialize (I7 t1 t2 n'). destruct (decide (t1 = t)) as [->|H1], (decide (t2 = t)) as [->|H2];
      rewrite ?fn_lookup_insert, ?(fn_lookup_insert_ne _ t) in * by congruence; auto.
  - intros t' n' old'. destruct (decide (t' = t)) as [->|Hne].
    + rewrite fn_lookup_insert. intros [= <- <-]. apply set_next_same.
    + rewrite (fn_lookup_insert_ne _ t) by congruence. intros Hq. rewrite set_next_other; [eapply (mv_cas _ _ _ _ I); eauto|].
      intros ->. apply Hne. eapply (mv_distinct _ _ _ _ I); [|exact Hpn]. now rewrite Hq.
Qed.

Lemma cas_keeps t n : pushers s t = PCas n (_head s) ->
  mpsc_inv (push_at t PIdle (s <| _head := Some n |> <| pushed := pushed s ++ [n] |>)) (n :: c) a b.
Proof.
  intros Hp. assert (Hpn : pushing (pushers s t) = Some n) by now rewrite Hp. pose proof (mv_pushing _ _ _ _ I t n Hpn) as Hn.
  pose proof (mv_cas _ _ _ _ I t n _ Hp) as Hnx. pose proof I as [I1 (L1 & L2 & L3) I3 I4 I5 I6 I7 I8].
  assert (I' : mpsc_inv (push_at t PIdle s) c a b) by (apply pusher_moves; discriminate).
  destruct I' as [_ _ _ _ _ J6 J7 J8]. split; auto; unfold push_at in *; cbn in *.
  - rewrite <- I1. auto.
  - rewrite I4. cbn [rev]. rewrite <- !app_assoc. reflexivity.
  - apply NoDup_cons. auto.
  - intros t' n' Hq. apply not_elem_of_cons. split; [|eauto]. intros ->. destruct (decide (t' = t)) as [->|Hne].
    + rewrite fn_lookup_insert in Hq. discriminate.
    + rewrite fn_lookup_insert_ne in Hq by congruence. apply Hne. eauto.
Qed.

Lemma drain_keeps : consumer s = DIdle -> mpsc_inv (s <| _head := None |> <| consumer := DReverse (_head s) None |>) [] c [].
Proof.
  intros Hc. pose proof I as [I1 (L1 & _) I3 I4 I5 I6 I7 I8]. rewrite Hc in I3. destruct I3 as [-> ->].
  split; auto; cbn in *; rewrite ?app_nil_r in *; auto.
Qed.

(** A node of the consumer's lists is not being pushed. *)
Lemma cas_other n o t n' old : n ∈ c ++ a ++ b -> pushers s t = PCas n' old -> set_next n o (next_wake s) !! n' = old.
Proof.
  intros Hn Hq. rewrite set_next_other; [eapply (mv_cas _ _ _ _ I); eauto|]. intros ->.
  eapply (mv_pushing _ _ _ _ I t n); [now rewrite Hq|exact Hn].
Qed.
End Preservation.

Lemma reverse_keeps s c h a b r : mpsc_inv s c (h :: a) b -> consumer s = DReverse (Some h) r ->
  mpsc_inv (s <| next_wake := set_next h r (next_wake s) |> <| consumer := DReverse (next_wake s !! h) (Some h) |>) c a (h :: b).
Proof.
  intros I Hc. pose proof I as [I1 (L1 & [L2 L3] & L4) I3 I4 I5 I6 I7 I8]. rewrite Hc in I3. destruct I3 as [_ ->].
  assert (Hp : c ++ (h :: a) ++ b ≡ₚ c ++ a ++ h :: b) by (f_equiv; cbn; apply Permutation_middle).
  assert (Hd : h ∉ c ++ a ++ b). { rewrite Hp, app_assoc in I5. rewrite <- Permutation_middle, NoDup_cons in I5. now rewrite <- app_assoc in I5. }
  rewrite !not_elem_of_app in Hd. destruct Hd as (D1 & D2 & D3).
  split; auto; cbn.
  - split; [now apply linked_set_next|]. split; [now apply linked_set_next|]. split; [apply set_next_same|now apply linked_set_next].
  - auto.
  - rewrite I4. cbn [rev]. rewrite <- !app_assoc. reflexivity.
  - now rewrite <- Hp.
  - intros t n Hn. rewrite <- Hp. eauto.
  - intros t n old Hq. eapply (cas_other _ _ _ _ I); [|exact Hq]. set_solver.
Qed.
Lemma route_keeps s c f b : mpsc_inv s c [] (f :: b) -> consumer s = DWalk (Some f) ->
  mpsc_inv (s <| next_wake := set_next f None (next_wake s) |> <| consumer := DWalk (next_wake s !! f) |> <| handled := handled s ++ [f] |>) c [] b.
Proof.
  intros I Hc. pose proof I as [I1 (L1 & _ & [L2 L3]) I3 I4 I5 I6 I7 I8]. cbn [app] in *.
  assert (Hd : f ∉ c ++ b) by (rewrite <- Permutation_middle, NoDup_cons in I5; tauto).
  rewrite not_elem_of_app in Hd. destruct Hd as (D1 & D2). split; auto; cbn.
  - split; [now apply (linked_set_next f None)|]. split; [exact Logic.I|now apply (linked_set_next f None)].
  - auto.
  - rewrite I4. cbn. now rewrite <- !app_assoc.
  - rewrite <- Permutation_middle, NoDup_cons in I5. tauto.
  - intros t n Hn. specialize (I6 t n Hn). set_solver.
  - intros t n old Hq. apply (cas_other _ _ _ _ I f None t); [|exact Hq]. set_solver.
Qed.

Lemma mpsc_step_keeps s c a b s' : mpsc_inv s c a b -> mpsc_step s s' -> exists c' a' b', mpsc_inv s' c' a' b'.
Proof.
  intros I [t n Hi Hn Ho|t sp s1 Hs|s1 Hs|s1 Hs|s1 Hs].
  - exists c, a, b. now apply call_keeps.
  - unfold push_step in Hs. destruct (pushers s t) as [|n|n old|n old] eqn:Ep; [discriminate|injection Hs as <-|injection Hs as <-|].
    + exists c, a, b. apply (pusher_moves s c a b I); [now rewrite Ep|discriminate].
    + exists c, a, b. now apply link_keeps.
    + destruct (bool_decide_reflect (_head s = old)) as [<-|_], sp; injection Hs as <-;
        try (exists (n :: c), a, b; now apply (cas_keeps s c a b I t n));
        (exists c, a, b; apply (pusher_moves s c a b I); [now rewrite Ep|discriminate]).
  - unfold drain_step in Hs. destruct (consumer s) eqn:Ec; try discriminate. injection Hs as <-. exists [], c, []. eapply drain_keeps; eauto.
  - unfold reverse_step in Hs. pose proof (mv_consumer _ _ _ _ I) as Hc. destruct (consumer s) as [|[h|] r|r] eqn:Ec; try discriminate; injection Hs as <-.
    + destruct a as [|h' a]; [now destruct Hc|]. destruct Hc as [[= <-] Hr]. exists c, a, (h :: b). now apply reverse_keeps.
    + destruct a as [|h' a]; [|now destruct Hc]. exists c, [], b. destruct Hc as [_ Hr]. destruct I. split; auto. now split.
  - unfold route_step in Hs. pose proof (mv_consumer _ _ _ _ I) as Hc. destruct (consumer s) as [|h r|[f|]] eqn:Ec; try discriminate; injection Hs as <-;
      destruct Hc as [-> Hr].
    + destruct b as [|f' b]; [discriminate|]. injection Hr as <-. exists c, [], b. now apply route_keeps.
    + destruct b as [|f' b]; [|discriminate]. exists c, [], []. destruct I. split; auto. now split.
Qed.
Lemma mpsc_reachable_inv s : mpsc_reachable s -> exists c a b, mpsc_inv s c a b.
Proof.
  induction 1 as [|s s' _ (c & a & b & I) Hs]; [exists [], [], []; apply init_mpsc|]. eapply mpsc_step_keeps; eauto.
Qed.

(** C22. The wake list is a queue: however the steps of any number of pushing
    threads, spurious failures included, interleave with the consumer's, the
    nodes are handled in the order their pushes took effect, none twice and none
    left out; and when the consumer is idle and the head null, every pushed node
    has been handled. *)
Theorem mpsc_stack_fifo s : mpsc_reachable s ->
  pushed s = handled s ++ pending s /\ NoDup (pending s) /\
  (consumer s = DIdle -> _head s = None -> handled s = pushed s).
Proof.
  intros (c & a & b & I)%mpsc_reachable_inv. rewrite (pending_inv _ _ _ _ I). split; [apply I|]. split.
  - assert (Hp : (rev a ++ b) ++ rev c ≡ₚ c ++ a ++ b).
    { rewrite <- !Permutation_rev. apply Permutation_app_comm. }
    rewrite Hp. apply I.
  - intros Hd Hh. pose proof (mv_consumer _ _ _ _ I) as Hc. rewrite Hd in Hc. destruct Hc as [-> ->].
    rewrite (mv_head _ _ _ _ I) in Hh. destruct c; [|discriminate]. rewrite (mv_pushed _ _ _ _ I). cbn. now rewrite app_nil_r.
Qed.

(** ** A run *)
Inductive mpsc_turn := TCall (t : nat) (n : fid) | TPush (t : nat) (spurious : bool) | TDrain | TReverse | TRoute.
Definition mpsc_turn_step (u : mpsc_turn) (s : mpsc) : option mpsc :=
  match u with
  | TCall t n => match pushers s t with PIdle => Some (push_at t (PLoad n) s) | _ => None end
  | TPush t b => push_step t b s
  | TDrain => drain_step s
  | TReverse => reverse_step s
  | TRoute => route_step s
  end.
Definition mpsc_turns (us : list mpsc_turn) (s : mpsc) : mpsc :=
  fold_left (fun s u => default s (mpsc_turn_step u s)) us s.
Lemma turn_reachable u s : mpsc_reachable s ->
  match u with TCall t n => (n ∉ pending s) /\ forall t', pushing (pushers s t') <> Some n | _ => True end ->
  mpsc_reachable (default s (mpsc_turn_step u s)).
Proof.
  intros Hr Hc. destruct (mpsc_turn_step u s) as [s'|] eqn:E; [|exact Hr]. eapply mpsc_more; [exact Hr|].
  destruct u as [t n|t b| | |]; cbn in E; [|now apply (mpsc_push s t b)|now apply mpsc_drain|now apply mpsc_reverse|now apply mpsc_route].
  destruct (pushers s t) eqn:Ep; try discriminate. injection E as <-. now apply mpsc_call.
Qed.

Lemma turns_reachable us s : Forall (fun u => match u with TCall _ _ => False | _ => True end) us -> mpsc_reachable s ->
  mpsc_reachable (mpsc_turns us s).
Proof.
  revert s. induction us as [|u us IH]; intros s Hu Hr; [exact Hr|]. inversion_clear Hu as [|? ? Hu1 Hu2].
  apply IH; [exact Hu2|]. apply turn_reachable; [exact Hr|]. now destruct u.
Qed.

(** Threads 1 and 2 push fibers 10 and 20 at once; one compare-and-swap fails for
    contention and one spuriously; a drain in between takes the first. *)
Definition mpsc_demo : mpsc :=
  mpsc_turns [TPush 1 false; TPush 2 false; TPush 1 false; TPush 2 false; TPush 1 false; TPush 2 false;
    TDrain; TPush 2 false; TPush 2 true; TPush 2 false; TPush 2 false; TReverse; TReverse; TRoute; TRoute;
    TDrain; TReverse; TReverse; TRoute; TRoute]%nat
    (push_at 2 (PLoad 20) (push_at 1 (PLoad 10) mpsc_init)).
Lemma mpsc_stack_fifo_witness :
  (pushed mpsc_demo = handled mpsc_demo ++ pending mpsc_demo /\ NoDup (pending mpsc_demo) /\
   (consumer mpsc_demo = DIdle -> _head mpsc_demo = None -> handled mpsc_demo = pushed mpsc_demo)) /\
  (_head mpsc_demo, consumer mpsc_demo, handled mpsc_demo) = (None, DIdle, [10; 20]%nat).
Proof.
  split; [|vm_compute; reflexivity]. apply (mpsc_stack_fifo mpsc_demo). apply turns_reachable; [repeat constructor|].
  eapply mpsc_more; [eapply mpsc_more; [apply mpsc_start|]|]; apply mpsc_call; try reflexivity; try apply not_elem_of_nil; try (intros t'; discriminate).
  intros t'. unfold push_at. cbn. destruct (decide (t' = 1%nat)) as [->|Hne]; [rewrite fn_lookup_insert|rewrite fn_lookup_insert_ne by congruence]; discriminate.
Defined.
