(* ===== verification/LockFindings.v ===== *)
(** * Where psiber's locks fall short of their documentation

    Runs of [fiber_shared_mutex] on several schedulers in which exclusion fails,
    and a run of [fiber_tx_mutex] that deadlocks.  Each is a schedule that the
    models of [SharedMutex] and [TxMutex] execute. *)
From Stdlib Require Import ZArith Lia Bool.
From stdpp Require Import base numbers decidable option gmap functions list.
From S2P Require Import Prelude Fibers SharedMutex TxMutex.

(** ** [fiber_shared_mutex] *)

(** Fiber [f] makes [n] steps of the call it is in. *)
Definition own_turns (f : fid) (n : nat) : list turn := repeat (f, None) n.

(** A writer that has read [_readers == 0] stores [_writer] only after a reader
    on the fast path has seen no writer twice. *)
Definition reader_overtakes_writer : list turn :=
  (1%nat, Some CallLock) :: own_turns 1 3 ++ (2%nat, Some CallLockShared) :: own_turns 2 4 ++ own_turns 1 2.
Lemma shared_mutex_reader_with_writer :
  (fun s => (pcs s 1%nat, pcs s 2%nat)) <$> follow reader_overtakes_writer shared_init = Some (Writing, Reading).
Proof. vm_compute. reflexivity. Qed.

(** [unlock] releases the queue lock before it counts the readers it wakes: a
    writer that comes in between finds the mutex free. *)
Definition writer_overtakes_handover : list turn :=
  (1%nat, Some CallLock) :: own_turns 1 5 ++ (2%nat, Some CallLockShared) :: own_turns 2 6 ++
  (1%nat, Some CallUnlock) :: own_turns 1 4 ++ (3%nat, Some CallLock) :: own_turns 3 5 ++ own_turns 1 2 ++ own_turns 2 1.
Lemma shared_mutex_writer_with_woken_reader :
  (fun s => (pcs s 2%nat, pcs s 3%nat)) <$> follow writer_overtakes_handover shared_init = Some (Reading, Writing).
Proof. vm_compute. reflexivity. Qed.

(** [unlock_shared] hands the mutex to a waiting writer without a look at
    [_writer], which [try_lock] may have set since the count dropped to zero. *)
Definition two_writers : list turn :=
  (1%nat, Some CallLockShared) :: own_turns 1 4 ++ (2%nat, Some CallLock) :: own_turns 2 6 ++
  (1%nat, Some CallUnlockShared) :: own_turns 1 1 ++ (3%nat, Some CallTryLock) :: own_turns 3 5 ++
  own_turns 1 5 ++ own_turns 2 1.
Lemma shared_mutex_two_writers :
  (fun s => (pcs s 2%nat, pcs s 3%nat)) <$> follow two_writers shared_init = Some (Writing, Writing).
Proof. vm_compute. reflexivity. Qed.

(** ** [fiber_tx_mutex] *)

(** Fibers 1, 2 and 3 run transactions of these ages; 1 is the oldest. *)
Definition ages : fid -> Z := fun f => Z.of_nat f.
(** 1 takes mutex 20 and 2 takes mutex 10; 3 queues for 10, then 1 does, and
    wounds 2, which gives 10 up: it goes to 3, the first in the queue, and 3 is
    not wounded although 1 waits for it.  When 3 locks 20 it waits for 1. *)
Definition wound_wait_run : tx_state :=
  let s := tx_lock 1 20 1 (tx_init ages) in
  let s := tx_lock 2 10 2 s in
  let s := tx_lock 3 10 3 s in
  let s := tx_lock 1 10 1 s in
  let s := tx_unlock 10 s in
  let s := default s (tx_resume 3 s) in
  tx_lock 3 20 3 s.
Lemma tx_mutex_deadlock :
  let s := wound_wait_run in
  tx_owner (tx_mutexes s 10) = Some 3%nat /\ tx_pcs s 3%nat = TxParked 20 /\
  tx_owner (tx_mutexes s 20) = Some 1%nat /\ tx_pcs s 1%nat = TxParked 10 /\
  wounded s 1%nat = false /\ wounded s 3%nat = false /\ tx_resume 1 s = None /\ tx_resume 3 s = None.
Proof. vm_compute. repeat split; reflexivity. Qed.

(** A free mutex clears the wound its taker has not noticed yet. *)
Lemma tx_mutex_forgets_wound :
  let s := tx_lock 1 10 1 (tx_lock 2 10 2 (tx_init ages)) in
  check_wounded 2 s = true /\ check_wounded 2 (tx_lock 2 30 2 s) = false.
Proof. vm_compute. split; reflexivity. Qed.
