(* ===== verification/Findings.v ===== *)
(** * Where the code and its documentation part

    Closed evaluations of the model on inputs for which the modelled code does
    not do what its documentation, or the WebAssembly specification it follows,
    says. *)
From Stdlib Require Import ZArith Lia Bool String.
From stdpp Require Import base list numbers decidable option gmap.
From S2P Require Import Prelude Types Stack Memory Numeric Softfloat InitExpr Context Interp Demo.
Import Opcode.

(** The trap an operation ends with, if it throws. *)
Definition thrown {S A} (o : outcome S A) : option exn := match o with Throw e _ => Some e | _ => None end.
Definition is_ok {S A} (o : outcome S A) : bool := match o with Ok _ _ => true | _ => false end.

(** ** Checked mode, relaxed kind

    The deferred check ORs the exclusive ends of the reads, and [2^k] is not in
    the closed range [[0, 2^k - 1]] the documentation argues about: two reads
    inside of a one-page memory leave a watermark beyond it. *)
Definition relaxed_ctx : ctx unit := Eval vm_compute in
  in_mem <| _base := (_base in_mem) <| _mem_mode := checked |> <| _checked_kind := relaxed |> |>.
Definition load_at (a : Z) : M (ctx unit) unit :=
  push_operand (I32 a) ;;; exec_load i32_load8_u {| flags_align := 0; mem_offset := 0 |}.

Lemma relaxed_reads_in_bounds :
  memory_size_bytes (_base relaxed_ctx) = 65536 /\
  is_ok ((load_at 65535 ;;; on_base validate_read_watermark ;;; load_at 0 ;;; on_base validate_read_watermark) relaxed_ctx) = true.
Proof. split; vm_compute; reflexivity. Qed.
Lemma relaxed_false_positive :
  thrown ((load_at 65535 ;;; load_at 0 ;;; on_base validate_read_watermark) relaxed_ctx)
  = Some (Exn wasm_memory_exception "deferred memory read out-of-bounds").
Proof. vm_compute. reflexivity. Qed.

(** ** An inline table over the stored memory size

    A fixed table of 255 entries fits the inline limit of [indirect_table], but
    its last entry covers the slot that holds the memory size: initializing the
    table overwrites it, and checked-mode bounds checks compare with
    [0xFFFFFFFF]. *)
Definition table_255 : module := {|
  m_start := m_start demo_module; m_types := m_types demo_module; m_imports := m_imports demo_module;
  m_functions := m_functions demo_module;
  m_tables := [{| element_type := types.funcref; tt_limits := demo_limits 255 255 |}];
  m_memories := m_memories demo_module; m_globals := m_globals demo_module; m_exports := m_exports demo_module;
  m_elements := m_elements demo_module; m_code := m_code demo_module; m_data := m_data demo_module;
  m_tags := m_tags demo_module; m_import_functions := m_import_functions demo_module;
  m_num_imported_tables := 0; m_num_imported_memories := 0; m_num_imported_globals := 0;
  m_stack_limit_is_bytes := m_stack_limit_is_bytes demo_module; m_error := m_error demo_module;
  bytecode := bytecode demo_module |}.
Lemma inline_table_clobbers_size :
  indirect_table 4096 table_255 0 = false /\
  match reset (fresh_ctx table_255) with
  | Ok _ c => page (_wasm_alloc (_base c)) = 1 /\ memory_size_bytes (_base c) = 0xFFFFFFFF
  | _ => False
  end.
Proof. split; vm_compute; [reflexivity|split; reflexivity]. Qed.

(** ** 64-bit memories *)
Definition memory64_ctx : ctx unit := Eval vm_compute in
  match fresh_ctx {|
    m_start := UINT32_MAX; m_types := []; m_imports := []; m_functions := []; m_tables := [];
    m_memories := [{| mt_limits := demo_limits 1 3; Types.is_memory64 := true |}]; m_globals := []; m_exports := [];
    m_elements := []; m_code := [demo_body 0]; m_data := []; m_tags := []; m_import_functions := [];
    m_num_imported_tables := 0; m_num_imported_memories := 0; m_num_imported_globals := 0;
    m_stack_limit_is_bytes := false; m_error := None; bytecode := [] |} with c => end_state (reset c) c end.
Definition checked64_ctx : ctx unit := Eval vm_compute in
  memory64_ctx <| _pc := CodeAt 0 |>
    <| _base := (_base memory64_ctx) <| _mem_mode := checked |> <| _checked_kind := immediate |> |>.

(** The end of the access wraps at 64 bits, so the check of a write at the top of
    the address space passes, for a pointer below the start of the memory. *)
Lemma memory64_bounds_check_wraps :
  match (push_operand (I64 (2 ^ 64 - 4)) ;;; pop_memop_addr_write 0 4) checked64_ctx with
  | Ok p _ => p = -4
  | _ => False
  end.
Proof. vm_compute. reflexivity. Qed.
(** [memory.grow] of [2^32] pages succeeds, growing by none. *)
Lemma memory64_grow_truncates :
  match (push_operand (I64 (2 ^ 32)) ;;; exec_grow_memory ;;; pop_operand) (memory64_ctx <| _pc := CodeAt 0 |>) with
  | Ok e c => e = I64 1 /\ page (_wasm_alloc (_base c)) = 1
  | _ => False
  end.
Proof. vm_compute. split; reflexivity. Qed.

(** ** Bulk instructions in checked mode

    They rely on the guard pages; over a caller's buffer there are none, and a
    range beyond the current size but inside of the buffer is written. *)
Definition external_ctx : ctx unit := Eval vm_compute in
  match make_external 4096 false (4 * 65536) tt with
  | Ok a _ =>
      let c := fresh_ctx demo_module in
      let c := c <| _base := (_base c) <| _wasm_alloc := a |> <| _mem_mode := checked |> <| _checked_kind := immediate |> |> in
      (end_state (reset c) c) <| _pc := CodeAt 0 |>
  | _ => fresh_ctx demo_module
  end.
Lemma checked_bulk_unbounded :
  page (_wasm_alloc (_base external_ctx)) = 1 /\
  thrown ((push_all [I32 65536; I32 7] ;;; exec_store i32_store8 {| flags_align := 0; mem_offset := 0 |}) external_ctx)
    = Some (Exn wasm_memory_exception "memory write out of bounds") /\
  match (push_all [I32 65536; I32 7; I32 1] ;;; exec_memory_fill) external_ctx with
  | Ok _ c => mem_get (raw (_wasm_alloc (_base c))) 65536 = 7
  | _ => False
  end.
Proof. repeat split; vm_compute; reflexivity. Qed.

(** ** Extended constant expressions

    [i64.const 2^63-1; i64.const 1; i64.add] is a valid initializer whose value
    wraps; the evaluation adds signed integers. *)
Definition overflowing_init : init_expr := {|
  ie_value := 0; ie_opcode := InitExpr.op_i64_const;
  ie_raw_expr := [0x42; 0xFF; 0xFF; 0xFF; 0xFF; 0xFF; 0xFF; 0xFF; 0xFF; 0xFF; 0x00; 0x42; 0x01; 0x7C; 0x0B] |}.
Lemma init_expr_overflow_undefined : InitExpr.evaluate [] overflowing_init tt = UB.
Proof. vm_compute. reflexivity. Qed.
