(* ===== verification/Fracpack.v ===== *)
(** * Fracpack

    Models the fracpack codec (psio1/fracpack.hpp): the encoding of numbers,
    strings, vectors, arrays, optionals, tuples, variants and reflected structs as
    a fixed region of values and relative offsets with a heap behind it.

    [is_packable<T>] is the record [packable]: a template specialization that is
    built from others is a function on such records.  [unpack] is the verifying
    one ([Unpack = Verify = true]); a read outside of the buffer is undefined
    behaviour.  [T*] parameters are the initial value of the target, whose fields
    and elements are assigned one by one.  The batching of adjacent fields
    (detail/run_detector.hpp), which writes the same bytes in one call, and user
    validation hooks are not modelled. *)
From Stdlib Require Import ZArith Lia Bool String.
From stdpp Require Import base list numbers decidable option.
From S2P Require Import Prelude.

(** ** Little-endian numbers *)
Fixpoint to_le (n : nat) (z : Z) : list Z :=
  match n with O => [] | S n => wrap 8 z :: to_le n (Z.shiftr z 8) end.
Fixpoint of_le (bs : list Z) : Z :=
  match bs with [] => 0 | b :: bs => b + Z.shiftl (of_le bs) 8 end.

(** ** Streams *)
Class Stream (S : Type) := {
  st_write : list Z -> M S unit;
  st_rewrite : Z -> list Z -> M S unit;
  st_written : S -> Z }.
(** The size only. *)
#[global] Instance size_stream : Stream Z := {
  st_write bs := modify (fun n => wrap 64 (n + vec_size bs));
  st_rewrite _ _ := ret tt;
  st_written n := n }.
(** A buffer: what is behind the write position, and what is in front of it. *)
Record fixed_buf_stream := { sb_done : list Z; sb_room : list Z }.
Definition fb_write (bs : list Z) : M fixed_buf_stream unit := fun s =>
  if vec_size (sb_room s) <? vec_size bs then Throw (Exn std_runtime_error "stream overrun") s
  else Ok tt {| sb_done := sb_done s ++ bs; sb_room := drop (length bs) (sb_room s) |}.
Definition fb_rewrite (offset : Z) (bs : list Z) : M fixed_buf_stream unit := fun s =>
  let buf := sb_done s ++ sb_room s in
  if (offset <? 0) || (vec_size buf <? offset + vec_size bs) then UB
  else let buf' := take (Z.to_nat offset) buf ++ bs ++ drop (Z.to_nat offset + length bs) buf in
       Ok tt {| sb_done := take (length (sb_done s)) buf'; sb_room := drop (length (sb_done s)) buf' |}.
#[global] Instance buf_stream : Stream fixed_buf_stream := {
  st_write := fb_write; st_rewrite := fb_rewrite; st_written s := vec_size (sb_done s) }.

(** ** Positions

    [cursor] is what [unpack] changes; [ecursor] what [embedded_unpack] does, with
    a position in the fixed region and one in the heap. *)
Record cursor := Cursor { has_unknown : bool; known_end : bool; pos : Z }.
Record ecursor := ECursor { e_unknown : bool; known_pos : bool; fixed_pos : Z; heap_pos : Z }.
#[export] Instance eta_cursor : Eta cursor := fun x => {| has_unknown := has_unknown x; known_end := known_end x; pos := pos x |}.
#[export] Instance eta_ecursor : Eta ecursor := fun x =>
  {| e_unknown := e_unknown x; known_pos := known_pos x; fixed_pos := fixed_pos x; heap_pos := heap_pos x |}.
Definition on_pos {A} : M Z A -> M cursor A := zoom pos (fun p c => c <| pos := p |>).
Definition on_fixed {A} : M Z A -> M ecursor A := zoom fixed_pos (fun p c => c <| fixed_pos := p |>).
(** A call with the heap position, or the fixed position, for [pos]. *)
Definition at_heap {A} : M cursor A -> M ecursor A :=
  zoom (fun e => Cursor (e_unknown e) (known_pos e) (heap_pos e))
       (fun c e => e <| e_unknown := has_unknown c |> <| known_pos := known_end c |> <| heap_pos := pos c |>).
Definition at_fixed {A} : M cursor A -> M ecursor A :=
  zoom (fun e => Cursor (e_unknown e) (known_pos e) (fixed_pos e))
       (fun c e => e <| e_unknown := has_unknown c |> <| known_pos := known_end c |> <| fixed_pos := pos c |>).

(** [memcpy] from the buffer. *)
Definition read_bytes {S} (src : list Z) (p : Z) (n : nat) : M S (list Z) :=
  if (0 <=? p) && (p + Z.of_nat n <=? vec_size src) then ret (take n (drop (Z.to_nat p) src)) else undefined.
Definition unpack_numeric (skip : bool) (n : nat) (src : list Z) (end_pos : Z) : M Z (option Z) :=
  let* p := get in
  if negb skip && (wrap 32 (end_pos - p) <? Z.of_nat n) then ret None
  else let* bs := read_bytes src p n in
       modify (fun p => wrap 32 (p + Z.of_nat n)) ;;; ret (Some (of_le bs)).

(** ** Dictionaries *)
Record packable (A : Type) := {
  fixed_size : Z;
  is_variable_size : bool;
  is_optional : bool;
  supports_0_offset : bool;
  (** [T()] *)
  default_value : A;
  (** [is_packable_memcpy], with the value of the bytes. *)
  memcpy_value : option (list Z -> A);
  has_value : A -> bool;
  (** [has_value<Verify>(src, pos, end_pos)] *)
  has_value_at : forall S, list Z -> Z -> Z -> M S bool;
  is_empty_container : A -> bool;
  (** [is_empty_container(src, pos, end_pos)] *)
  empty_at : forall S, list Z -> Z -> Z -> M S bool;
  pack : forall S, Stream S -> A -> M S unit;
  embedded_fixed_pack : forall S, Stream S -> A -> M S unit;
  embedded_fixed_repack : forall S, Stream S -> A -> Z -> Z -> M S unit;
  embedded_variable_pack : forall S, Stream S -> A -> M S unit;
  packed_size : A -> Z;
  embedded_variable_packed_size : A -> Z;
  unpack : A -> list Z -> Z -> M cursor (option A);
  (** With [SkipOffsetCheck]. *)
  embedded_variable_unpack : bool -> A -> list Z -> Z -> Z -> M ecursor (option A);
  embedded_unpack : bool -> A -> list Z -> Z -> Z -> M ecursor (option A) }.
Arguments fixed_size {A} p : rename.
Arguments is_variable_size {A} p : rename.
Arguments is_optional {A} p : rename.
Arguments supports_0_offset {A} p : rename.
Arguments default_value {A} p : rename.
Arguments memcpy_value {A} p : rename.
Arguments has_value {A} p _ : rename.
Arguments has_value_at {A} p {S} _ _ _ : rename.
Arguments is_empty_container {A} p _ : rename.
Arguments empty_at {A} p {S} _ _ _ : rename.
Arguments pack {A} p {S _} _ : rename.
Arguments embedded_fixed_pack {A} p {S _} _ : rename.
Arguments embedded_fixed_repack {A} p {S _} _ _ _ : rename.
Arguments embedded_variable_pack {A} p {S _} _ : rename.
Arguments packed_size {A} p _ : rename.
Arguments embedded_variable_packed_size {A} p _ : rename.
Arguments unpack {A} p _ _ _ : rename.
Arguments embedded_variable_unpack {A} p _ _ _ _ _ : rename.
Arguments embedded_unpack {A} p _ _ _ _ _ : rename.

(** [Format::size_bytes], 4 or 2. *)
Section Format.
Context (size_bytes : nat).

(** ** [base_packable_impl] *)
Section Base.
Context {A : Type} (variable zero_offset : bool) (dflt cleared : A) (empty : A -> bool)
        (empty_src : forall S, list Z -> Z -> Z -> M S bool)
        (pk : forall S, Stream S -> A -> M S unit) (up : A -> list Z -> Z -> M cursor (option A)).

Definition base_fixed_pack {S} `{Stream S} (v : A) : M S unit :=
  if variable then st_write (to_le size_bytes 0) else pk S _ v.
Definition base_fixed_repack {S} `{Stream S} (v : A) (fixed_pos heap_pos : Z) : M S unit :=
  if variable && negb (empty v) then st_rewrite fixed_pos (to_le size_bytes (wrap 32 (heap_pos - fixed_pos))) else ret tt.
Definition base_variable_pack {S} `{Stream S} (v : A) : M S unit :=
  if variable && negb (empty v) then pk S _ v else ret tt.
Definition run_size (m : M Z unit) : Z := match m 0 with Ok _ n => wrap 32 n | _ => 0 end.
Definition base_packed_size (v : A) : Z := run_size (pk Z _ v).
Definition base_variable_packed_size (v : A) : Z := run_size (base_variable_pack v).

Definition base_variable_unpack (skip : bool) (v : A) (src : list Z) (end_fixed_pos end_heap_pos : Z) : M ecursor (option A) :=
  let* orig_pos := gets fixed_pos in
  let* o := on_fixed (unpack_numeric skip size_bytes src end_fixed_pos) in
  match o with
  | None => ret None
  | Some offset =>
      if zero_offset && (offset =? 0) then modify (fun e => e <| known_pos := true |>) ;;; ret (Some cleared)
      else
        let new_heap_pos := wrap 32 (orig_pos + offset) in
        let* e := get in
        if (offset <? Z.of_nat size_bytes) || (new_heap_pos <? heap_pos e) || (end_heap_pos <? new_heap_pos) then ret None
        else if negb (new_heap_pos =? heap_pos e) && known_pos e then ret None
        else
          let* is_empty := (if zero_offset then empty_src _ src new_heap_pos end_heap_pos else ret false) in
          if is_empty then ret None
          else modify (fun e => e <| heap_pos := new_heap_pos |>) ;;; at_heap (up v src end_heap_pos)
  end.
Definition base_unpack (skip : bool) (v : A) (src : list Z) (end_fixed_pos end_heap_pos : Z) : M ecursor (option A) :=
  if variable then base_variable_unpack skip v src end_fixed_pos end_heap_pos else at_fixed (up v src end_fixed_pos).
(** A type that is not optional. *)
Definition base_impl (fixed : Z) (mem : option (list Z -> A)) (size vsize : A -> Z) : packable A := {|
  fixed_size := fixed; is_variable_size := variable; is_optional := false; supports_0_offset := zero_offset; default_value := dflt;
  memcpy_value := mem; has_value _ := true; has_value_at _ _ _ _ := ret true; is_empty_container := empty; empty_at := empty_src;
  pack := pk; embedded_fixed_pack S _ v := base_fixed_pack v; embedded_fixed_repack S _ v fp hp := base_fixed_repack v fp hp;
  embedded_variable_pack S _ v := base_variable_pack v; packed_size := size; embedded_variable_packed_size := vsize;
  unpack := up; embedded_variable_unpack := base_variable_unpack; embedded_unpack := base_unpack |}.
End Base.
Definition never {A} (_ : A) : bool := false.
Definition never_at (S : Type) (_ : list Z) (_ _ : Z) : M S bool := ret false.

(** ** [is_packable<PackableMemcpy>]: [n] bytes, copied *)
Section Memcpy.
Context {A : Type} (n : nat) (to_bytes : A -> list Z) (of_bytes : list Z -> A).
Definition memcpy_pack (S : Type) (_ : Stream S) (v : A) : M S unit := st_write (to_bytes v).
Definition memcpy_unpack (_ : A) (src : list Z) (end_pos : Z) : M cursor (option A) :=
  modify (fun c => c <| known_end := true |>) ;;;
  let* p := gets pos in
  if wrap 32 (end_pos - p) <? Z.of_nat n then ret None
  else let* bs := read_bytes src p n in
       modify (fun c => c <| pos := wrap 32 (p + Z.of_nat n) |>) ;;; ret (Some (of_bytes bs)).
Definition memcpy_impl : packable A :=
  base_impl false false (of_bytes (repeat 0 n)) (of_bytes (repeat 0 n)) never never_at memcpy_pack memcpy_unpack
    (Z.of_nat n) (Some of_bytes) (fun _ => Z.of_nat n) (fun _ => 0).
End Memcpy.

(** ** [is_packable<bool>] *)
Definition bool_pack (S : Type) (_ : Stream S) (v : bool) : M S unit := st_write [if v then 1 else 0].
Definition bool_unpack (_ : bool) (src : list Z) (end_pos : Z) : M cursor (option bool) :=
  modify (fun c => c <| known_end := true |>) ;;;
  let* p := gets pos in
  if wrap 32 (end_pos - p) <? 1 then ret None
  else let* bs := read_bytes src p 1 in
       if 1 <? of_le bs then ret None
       else modify (fun c => c <| pos := wrap 32 (p + 1) |>) ;;; ret (Some (negb (of_le bs =? 0))).
Definition bool_impl : packable bool :=
  base_impl false false false false never never_at bool_pack bool_unpack 1 None
    (base_packed_size bool_pack) (base_variable_packed_size false never bool_pack).

(** ** [packable_container_memcpy_impl]: strings, and vectors of bytes or numbers *)
Section ContainerMemcpy.
Context {A : Type} (n : nat) (to_bytes : A -> list Z) (of_bytes : list Z -> A).
Definition container_memcpy_pack (S : Type) (_ : Stream S) (v : list A) : M S unit :=
  st_write (to_le size_bytes (vec_size v * Z.of_nat n)) ;;;
  (if vec_size v =? 0 then ret tt else st_write (concat (map to_bytes v))).
(** [is_empty_container(src, pos, end_pos)] of all containers. *)
Definition container_empty_at (S : Type) (src : list Z) (p end_pos : Z) : M S bool := fun s =>
  match unpack_numeric false size_bytes src end_pos p with
  | Ok (Some fixed_size) _ => Ok (fixed_size =? 0) s
  | Ok None _ => Ok false s
  | Throw e _ => Throw e s
  | UB => UB
  end.
Fixpoint split_elems (fuel : nat) (bs : list Z) : list A :=
  match fuel with O => [] | S k => of_bytes (take n bs) :: split_elems k (drop n bs) end.
Definition container_memcpy_unpack (_ : list A) (src : list Z) (end_pos : Z) : M cursor (option (list A)) :=
  let* o := on_pos (unpack_numeric false size_bytes src end_pos) in
  match o with
  | None => ret None
  | Some fixed_size =>
      let size := fixed_size / Z.of_nat n in
      let* p := gets pos in
      let new_pos := wrap 32 (p + fixed_size) in
      modify (fun c => c <| known_end := true |>) ;;;
      if negb (fixed_size mod Z.of_nat n =? 0) || (new_pos <? p) || (end_pos <? new_pos) then ret None
      else let* bs := read_bytes src p (Z.to_nat fixed_size) in
           modify (fun c => c <| pos := new_pos |>) ;;; ret (Some (split_elems (Z.to_nat size) bs))
  end.
Definition is_nil {B} (l : list B) : bool := match l with [] => true | _ => false end.
Definition container_memcpy_size (v : list A) : Z := wrap 32 (Z.of_nat size_bytes + wrap 32 (vec_size v * Z.of_nat n)).
Definition container_memcpy_impl : packable (list A) :=
  base_impl true true [] [] is_nil container_empty_at container_memcpy_pack container_memcpy_unpack (Z.of_nat size_bytes) None
    container_memcpy_size (fun v => if is_nil v then 0 else container_memcpy_size v).
End ContainerMemcpy.

(** ** Elements of containers and members of structs, one after the other *)
Fixpoint each {A S} (f : A -> M S unit) (l : list A) : M S unit :=
  match l with [] => ret tt | x :: l => f x ;;; each f l end.
(** The loop that fills the heap: [advance] is added to the fixed position. *)
Fixpoint pack_heap {A S} `{Stream S} (p : packable A) (advance fixed_pos : Z) (l : list A) : M S unit :=
  match l with
  | [] => ret tt
  | x :: l =>
      let* heap := gets (fun s => wrap 32 (st_written s)) in
      embedded_fixed_repack p x fixed_pos heap ;;;
      embedded_variable_pack p x ;;;
      pack_heap p advance (wrap 32 (fixed_pos + advance)) l
  end.
(** [unpack_items]: a failure ends the loop. *)
Fixpoint unpack_items {A} (p : packable A) (old : list A) (src : list Z) (end_fixed_pos end_pos : Z) : M ecursor (option (list A)) :=
  match old with
  | [] => ret (Some [])
  | v :: old =>
      let* o := embedded_unpack p false v src end_fixed_pos end_pos in
      match o with
      | None => ret None
      | Some x =>
          let* r := unpack_items p old src end_fixed_pos end_pos in
          ret (option_map (cons x) r)
      end
  end.
(** A call for the fixed region from [fixed] to [heap] and the heap behind it;
    its end becomes the position when it succeeds. *)
Definition in_region {B} (fixed heap : Z) (m : M ecursor (option B)) : M cursor (option B) := fun c =>
  match m (ECursor (has_unknown c) (known_end c) fixed heap) with
  | Ok (Some b) e => Ok (Some b) (Cursor (e_unknown e) (known_pos e) (heap_pos e))
  | Ok None e => Ok None (Cursor (e_unknown e) (known_pos e) (pos c))
  | Throw x e => Throw x (Cursor (e_unknown e) (known_pos e) (pos c))
  | UB => UB
  end.
Definition resize_to {A} (dflt : A) (old : list A) (n : nat) : list A := take n (old ++ repeat dflt n).

(** ** [packable_container_impl]: vectors of anything else *)
Section Container.
Context {A : Type} (p : packable A).
Definition container_pack (S : Type) (_ : Stream S) (v : list A) : M S unit :=
  let num_bytes := wrap 32 (vec_size v * fixed_size p) in
  st_write (to_le size_bytes num_bytes) ;;;
  let* fixed_pos := gets (fun s => wrap 32 (st_written s)) in
  each (embedded_fixed_pack p) v ;;;
  pack_heap p (Z.of_nat size_bytes) fixed_pos v.
Definition container_unpack (old : list A) (src : list Z) (end_pos : Z) : M cursor (option (list A)) :=
  let* o := on_pos (unpack_numeric false size_bytes src end_pos) in
  match o with
  | None => ret None
  | Some bytes =>
      if fixed_size p =? 0 then undefined else
      let size := bytes / fixed_size p in
      let* fixed := gets pos in
      let heap := wrap 32 (fixed + bytes) in
      modify (fun c => c <| known_end := true |>) ;;;
      if negb (bytes mod fixed_size p =? 0) || (heap <? fixed) || (end_pos <? heap) then ret None
      else in_region fixed heap (unpack_items p (resize_to (default_value p) old (Z.to_nat size)) src heap end_pos)
  end.
Definition container_impl : packable (list A) :=
  base_impl true true [] [] is_nil container_empty_at container_pack container_unpack (Z.of_nat size_bytes) None
    (base_packed_size container_pack) (base_variable_packed_size true is_nil container_pack).

(** ** [is_packable<std::array<T, N>>] of elements that are not copied *)
Context (N : nat).
Definition array_pack (S : Type) (_ : Stream S) (v : list A) : M S unit :=
  let* fixed_pos := gets (fun s => wrap 32 (st_written s)) in
  each (embedded_fixed_pack p) v ;;;
  pack_heap p (fixed_size p) fixed_pos v.
Definition array_unpack (old : list A) (src : list Z) (end_pos : Z) : M cursor (option (list A)) :=
  let* fixed := gets pos in
  let heap := wrap 32 (fixed + fixed_size p * Z.of_nat N) in
  modify (fun c => c <| known_end := true |>) ;;;
  if (heap <? fixed) || (end_pos <? heap) then ret None
  else in_region fixed heap (unpack_items p old src heap end_pos).
Definition array_impl : packable (list A) :=
  let dflt := repeat (default_value p) N in
  base_impl (is_variable_size p) false dflt dflt never never_at array_pack array_unpack
    (if is_variable_size p then Z.of_nat size_bytes else fixed_size p * Z.of_nat N) None
    (base_packed_size array_pack) (base_variable_packed_size (is_variable_size p) never array_pack).
End Container.

(** ** [is_packable<std::optional<T>>] *)
Section Optional.
Context {A : Type} (p : packable A).
(** [T] has an offset of its own, which the optional shares. *)
Definition shares_offset : bool := negb (is_optional p) && is_variable_size p.
Definition optional_fixed_pack {S} `{Stream S} (v : option A) : M S unit :=
  match v with
  | Some x => if shares_offset then embedded_fixed_pack p x else st_write (to_le size_bytes 1)
  | None => st_write (to_le size_bytes 1)
  end.
Definition optional_fixed_repack {S} `{Stream S} (v : option A) (fixed_pos heap_pos : Z) : M S unit :=
  match v with
  | Some x => if shares_offset then embedded_fixed_repack p x fixed_pos heap_pos
              else st_rewrite fixed_pos (to_le size_bytes (wrap 32 (heap_pos - fixed_pos)))
  | None => ret tt
  end.
Definition optional_variable_pack {S} `{Stream S} (v : option A) : M S unit :=
  match v with Some x => if is_empty_container p x then ret tt else pack p x | None => ret tt end.
Definition optional_pack (S : Type) (_ : Stream S) (v : option A) : M S unit :=
  let* fixed_pos := gets (fun s => wrap 32 (st_written s)) in
  optional_fixed_pack v ;;;
  let* heap_pos := gets (fun s => wrap 32 (st_written s)) in
  optional_fixed_repack v fixed_pos heap_pos ;;;
  optional_variable_pack v.
Definition optional_has_value_at (S : Type) (src : list Z) (q end_pos : Z) : M S bool := fun s =>
  match unpack_numeric false size_bytes src end_pos q with
  | Ok (Some offset) _ => Ok (negb (offset =? 1)) s
  | Ok None _ => Ok false s
  | Throw e _ => Throw e s
  | UB => UB
  end.
Definition optional_embedded_unpack (skip : bool) (_ : option A) (src : list Z) (end_fixed_pos end_heap_pos : Z) : M ecursor (option (option A)) :=
  let* orig_pos := gets fixed_pos in
  let* o := on_fixed (unpack_numeric skip size_bytes src end_fixed_pos) in
  match o with
  | None => ret None
  | Some offset =>
      if offset =? 1 then ret (Some None)
      else modify (fun e => e <| fixed_pos := orig_pos |>) ;;;
           let* r := embedded_variable_unpack p skip (default_value p) src end_fixed_pos end_heap_pos in
           ret (option_map Some r)
  end.
(** A call with [pos] itself for the heap position. *)
Definition with_heap {B} (fixed : Z) (m : M ecursor B) : M cursor B :=
  zoom (fun c => ECursor (has_unknown c) (known_end c) fixed (pos c)) (fun e _ => Cursor (e_unknown e) (known_pos e) (heap_pos e)) m.
Definition optional_unpack (v : option A) (src : list Z) (end_pos : Z) : M cursor (option (option A)) :=
  let* fixed := gets pos in
  modify (fun c => c <| known_end := true |>) ;;;
  if wrap 32 (end_pos - fixed) <? Z.of_nat size_bytes then ret None
  else
    let end_fixed := wrap 32 (fixed + Z.of_nat size_bytes) in
    modify (fun c => c <| pos := end_fixed |>) ;;;
    with_heap fixed (optional_embedded_unpack false v src end_fixed end_pos).
Definition optional_impl : packable (option A) := {|
  fixed_size := Z.of_nat size_bytes; is_variable_size := true; is_optional := true; supports_0_offset := false; default_value := None;
  memcpy_value := None; has_value v := match v with Some _ => true | None => false end; has_value_at := optional_has_value_at;
  is_empty_container := never; empty_at := never_at; pack := optional_pack;
  embedded_fixed_pack S _ v := optional_fixed_pack v; embedded_fixed_repack S _ v fp hp := optional_fixed_repack v fp hp;
  embedded_variable_pack S _ v := optional_variable_pack v;
  packed_size := base_packed_size optional_pack; embedded_variable_packed_size v := run_size (optional_variable_pack v);
  unpack := optional_unpack; embedded_variable_unpack := base_variable_unpack false None never_at optional_unpack;
  embedded_unpack := optional_embedded_unpack |}.
End Optional.

(** ** Members: what reflection knows of a struct or tuple *)
Record member (T : Type) := Member {
  m_type : Type; m_packable : packable m_type; m_get : T -> m_type; m_set : m_type -> T -> T }.
#[global] Arguments Member {T m_type} m_packable m_get m_set.
#[global] Arguments m_type {T} m : rename.
#[global] Arguments m_packable {T} m : rename.
#[global] Arguments m_get {T} m _ : rename.
#[global] Arguments m_set {T} m _ _ : rename.

Section Members.
Context {T : Type}.
Definition m_fixed (m : member T) : Z := fixed_size (m_packable m).
Definition members_fixed_size (ms : list (member T)) : Z := fold_right (fun m n => m_fixed m + n) 0 ms.
(** [num_present_and_size_fn], and [num_present_fn] with [fixed_size_fn]: members
    behind the last one with a value are left out. *)
Fixpoint num_present (v : T) (ms : list (member T)) : nat :=
  match ms with
  | [] => 0
  | m :: ms' =>
      match num_present v ms' with
      | O => if is_optional (m_packable m) && negb (has_value (m_packable m) (m_get m v)) then 0%nat else 1%nat
      | S k => S (S k)
      end
  end.
Definition members_fixed_pack {S} `{Stream S} (v : T) (ms : list (member T)) : M S unit :=
  each (fun m => embedded_fixed_pack (m_packable m) (m_get m v)) ms.
Fixpoint members_heap_pack {S} `{Stream S} (v : T) (fixed_pos : Z) (ms : list (member T)) : M S unit :=
  match ms with
  | [] => ret tt
  | m :: ms' =>
      let* heap := gets (fun s => wrap 32 (st_written s)) in
      embedded_fixed_repack (m_packable m) (m_get m v) fixed_pos heap ;;;
      embedded_variable_pack (m_packable m) (m_get m v) ;;;
      members_heap_pack v (wrap 32 (fixed_pos + m_fixed m)) ms'
  end.
(** A header, the fixed region and the heap. *)
Definition members_pack {S} `{Stream S} (header : list Z) (v : T) (ms : list (member T)) : M S unit :=
  st_write header ;;;
  let* fixed_pos := gets (fun s => wrap 32 (st_written s)) in
  members_fixed_pack v ms ;;;
  members_heap_pack v fixed_pos ms.
(** [packed_size_fn] *)
Definition member_size (v : T) (m : member T) : Z := m_fixed m + embedded_variable_packed_size (m_packable m) (m_get m v).
Definition members_size (v : T) (ms : list (member T)) : Z := wrap 32 (fold_right (fun m n => member_size v m + n) 0 ms).

(** [verify_extensions], over [k] slots: [None] where the code returns false, or
    the last [last_has_value]. *)
Fixpoint verify_slots (k : nat) (src : list Z) (known last : bool) (fixed end_fixed_pos end_heap_pos : Z) : M Z (option bool) :=
  match k with
  | O => ret (Some last)
  | S k =>
      let* heap := get in
      let* o := (fun s => match unpack_numeric true size_bytes src end_fixed_pos fixed with
                          | Ok o _ => Ok o s | Throw e _ => Throw e s | UB => UB end) in
      match o with
      | None => ret None
      | Some offset =>
          let next := wrap 32 (fixed + Z.of_nat size_bytes) in
          let has := negb (offset =? 1) in
          if 2 <=? offset then
            if (offset <? Z.of_nat size_bytes) || (known && negb (wrap 32 (offset + fixed) =? heap)) ||
               (wrap 32 (end_heap_pos - fixed) <? offset) || (offset <? wrap 32 (heap - fixed)) then ret None
            else modify (fun _ => wrap 32 (fixed + offset)) ;;; verify_slots k src false has next end_fixed_pos end_heap_pos
          else verify_slots k src known has next end_fixed_pos end_heap_pos
      end
  end.
Definition verify_extensions (src : list Z) (known last : bool) (fixed end_fixed_pos end_heap_pos : Z) : M Z (option bool) :=
  let left := wrap 32 (end_fixed_pos - fixed) in
  if negb (left mod Z.of_nat size_bytes =? 0) then ret None
  else verify_slots (Z.to_nat (left / Z.of_nat size_bytes)) src known last fixed end_fixed_pos end_heap_pos.
(** What [unpack] does with the slots that the type does not know. *)
Definition check_extensions (last : bool) (src : list Z) (end_fixed_pos end_heap_pos : Z) : M ecursor (option bool) :=
  let* e := get in
  if fixed_pos e <? end_fixed_pos then
    let* o := zoom heap_pos (fun h e => e <| heap_pos := h |>) (verify_extensions src (known_pos e) last (fixed_pos e) end_fixed_pos end_heap_pos) in
    match o with
    | None => ret None
    | Some last => modify (fun e => e <| e_unknown := true |> <| known_pos := false |>) ;;; ret (Some last)
    end
  else ret (Some last).

(** The loops of [unpack] over the members: the target, whether all succeeded, and
    whether the last slot that was read has a value.  A failure does not end them.
    [members_gated] is the slow path of structs, where the slots of members at the
    end may be missing, [members_all] the path where all are there and the fixed
    region has been checked as a whole, [members_inline] that of a struct without
    a heap; [tuple_gated] looks at the unpacked member instead of its slot. *)
Fixpoint members_gated (ms : list (member T)) (v : T) (ok last : bool) (src : list Z) (end_fixed_pos end_pos : Z) : M ecursor (T * bool * bool) :=
  match ms with
  | [] => ret (v, ok, last)
  | m :: ms' =>
      let p := m_packable m in
      let* e := get in
      if (fixed_pos e <? end_fixed_pos) || negb (is_optional p) then
        let* has := (if is_optional p then has_value_at p src (fixed_pos e) end_fixed_pos else ret true) in
        let* o := embedded_unpack p false (m_get m v) src end_fixed_pos end_pos in
        match o with
        | Some x => members_gated ms' (m_set m x v) ok has src end_fixed_pos end_pos
        | None => members_gated ms' v false has src end_fixed_pos end_pos
        end
      else members_gated ms' v ok last src end_fixed_pos end_pos
  end.
Fixpoint tuple_gated (ms : list (member T)) (v : T) (ok last : bool) (src : list Z) (end_fixed_pos end_pos : Z) : M ecursor (T * bool * bool) :=
  match ms with
  | [] => ret (v, ok, last)
  | m :: ms' =>
      let p := m_packable m in
      let* e := get in
      if (fixed_pos e <? end_fixed_pos) || negb (is_optional p) then
        let* o := embedded_unpack p false (m_get m v) src end_fixed_pos end_pos in
        match o with
        | Some x => tuple_gated ms' (m_set m x v) ok (has_value p x) src end_fixed_pos end_pos
        | None => tuple_gated ms' v false last src end_fixed_pos end_pos
        end
      else tuple_gated ms' v ok last src end_fixed_pos end_pos
  end.
Fixpoint members_all (ms : list (member T)) (v : T) (ok : bool) (src : list Z) (end_fixed_pos end_pos : Z) : M ecursor (T * bool) :=
  match ms with
  | [] => ret (v, ok)
  | m :: ms' =>
      let p := m_packable m in
      let* o :=
        (if is_variable_size p then embedded_unpack p true (m_get m v) src end_fixed_pos end_pos
         else match memcpy_value p with
              | Some of_bytes =>
                  let* q := gets fixed_pos in
                  let* bs := read_bytes src q (Z.to_nat (fixed_size p)) in
                  modify (fun e => e <| fixed_pos := wrap 32 (q + fixed_size p) |>) ;;; ret (Some (of_bytes bs))
              | None => at_fixed (unpack p (m_get m v) src end_fixed_pos)
              end) in
      match o with
      | Some x => members_all ms' (m_set m x v) ok src end_fixed_pos end_pos
      | None => members_all ms' v false src end_fixed_pos end_pos
      end
  end.
Fixpoint members_inline (ms : list (member T)) (v : T) (ok : bool) (src : list Z) (end_pos : Z) : M cursor (T * bool) :=
  match ms with
  | [] => ret (v, ok)
  | m :: ms' =>
      let p := m_packable m in
      let* o :=
        (match memcpy_value p with
         | Some of_bytes =>
             let* q := gets pos in
             let* bs := read_bytes src q (Z.to_nat (fixed_size p)) in
             modify (fun c => c <| pos := wrap 32 (q + fixed_size p) |>) ;;; ret (Some (of_bytes bs))
         | None => unpack p (m_get m v) src end_pos
         end) in
      match o with
      | Some x => members_inline ms' (m_set m x v) ok src end_pos
      | None => members_inline ms' v false src end_pos
      end
  end.
End Members.

(** ** [is_packable_reflected]: [dwnc] is [definitionWillNotChange],
    [header_size] the width of [header_type] *)
Section Reflected.
Context {T : Type} (dwnc : bool) (header_size : nat) (dflt : T) (ms : list (member T)).
Definition struct_variable : bool := negb dwnc || existsb (fun m => is_variable_size (m_packable m)) ms.
Definition has_trailing_optionals : bool := match head (rev ms) with Some m => is_optional (m_packable m) | None => false end.
Definition all_members_present : bool := dwnc || negb has_trailing_optionals.
Definition struct_header (n : Z) : list Z := if dwnc then [] else to_le header_size n.
Definition struct_packed_size (v : T) : Z :=
  if negb struct_variable then members_fixed_size ms
  else if all_members_present then wrap 32 ((if dwnc then 0 else Z.of_nat header_size) + members_size v ms)
  else wrap 32 (Z.of_nat header_size + members_size v (take (num_present v ms) ms)).
Definition struct_pack (S : Type) (_ : Stream S) (v : T) : M S unit :=
  if negb struct_variable then each (fun m => pack (m_packable m) (m_get m v)) ms
  else if all_members_present then members_pack (struct_header (members_fixed_size ms)) v ms
  else let present := take (num_present v ms) ms in
       members_pack (struct_header (wrap 32 (members_fixed_size present))) v present.
Definition struct_all_unpack (v : T) (fixed heap src_end : Z) (src : list Z) : M cursor (option T) :=
  in_region fixed heap
    (let* r := members_all ms v true src heap src_end in
     if negb r.2 then ret None
     else let* x := check_extensions true src heap src_end in
          ret (option_map (fun _ => r.1) x)).
Definition struct_gated_unpack (v : T) (fixed heap src_end : Z) (src : list Z) : M cursor (option T) :=
  in_region fixed heap
    (let* r := members_gated ms v true true src heap src_end in
     if negb r.1.2 then ret None
     else let* x := check_extensions r.2 src heap src_end in
          match x with Some true => ret (Some r.1.1) | _ => ret None end).
Definition struct_unpack (v : T) (src : list Z) (end_pos : Z) : M cursor (option T) :=
  if struct_variable then
    let* hdr := (if dwnc then ret (Some (members_fixed_size ms)) else on_pos (unpack_numeric false header_size src end_pos)) in
    match hdr with
    | None => ret None
    | Some hdr =>
        if 0xffffffff <? hdr then ret None else
        let* fixed := gets pos in
        let heap := wrap 32 (fixed + hdr) in
        if (heap <? fixed) || (end_pos <? heap) then ret None else
        modify (fun c => c <| known_end := true |>) ;;;
        if all_members_present then
          if negb dwnc && (hdr <? members_fixed_size ms) then ret None else struct_all_unpack v fixed heap end_pos src
        else struct_gated_unpack v fixed heap end_pos src
    end
  else
    modify (fun c => c <| known_end := true |>) ;;;
    let* p := gets pos in
    if wrap 32 (end_pos - p) <? members_fixed_size ms then ret None
    else let* r := members_inline ms v true src end_pos in ret (if r.2 then Some r.1 else None).
Definition struct_impl : packable T :=
  base_impl struct_variable false dflt dflt never never_at struct_pack struct_unpack
    (if struct_variable then Z.of_nat size_bytes else members_fixed_size ms) None
    struct_packed_size (fun v => if struct_variable then struct_packed_size v else 0).

(** ** [is_packable<std::tuple<Ts...>>] *)
Definition tuple_pack (S : Type) (_ : Stream S) (v : T) : M S unit :=
  let present := take (num_present v ms) ms in
  members_pack (to_le 2 (wrap 32 (members_fixed_size present))) v present.
Definition tuple_unpack (v : T) (src : list Z) (end_pos : Z) : M cursor (option T) :=
  let* hdr := on_pos (unpack_numeric false 2 src end_pos) in
  match hdr with
  | None => ret None
  | Some hdr =>
      let* fixed := gets pos in
      let heap := wrap 32 (fixed + hdr) in
      modify (fun c => c <| known_end := true |>) ;;;
      if (heap <? fixed) || (end_pos <? heap) then ret None
      else in_region fixed heap
        (let* r := tuple_gated ms v true true src heap end_pos in
         if negb r.1.2 then ret None
         else let* x := check_extensions r.2 src heap end_pos in
              match x with Some true => ret (Some r.1.1) | _ => ret None end)
  end.
Definition tuple_impl : packable T :=
  base_impl true false dflt dflt never never_at tuple_pack tuple_unpack (Z.of_nat size_bytes) None
    (base_packed_size tuple_pack) (base_variable_packed_size true never tuple_pack).
End Reflected.

(** ** [is_packable<std::variant<Ts...>>] *)
Record alternative (T : Type) := Alternative { a_type : Type; a_packable : packable a_type; a_in : a_type -> T; a_out : T -> option a_type }.
#[global] Arguments Alternative {T a_type} a_packable a_in a_out.
#[global] Arguments a_type {T} a : rename.
#[global] Arguments a_packable {T} a : rename.
#[global] Arguments a_in {T} a _ : rename.
#[global] Arguments a_out {T} a _ : rename.
Section Variant.
Context {T : Type} (dflt : T) (alts : list (alternative T)).
(** [value.index()], and [std::visit]. *)
Fixpoint variant_index (l : list (alternative T)) (v : T) : nat :=
  match l with [] => 0 | a :: l => match a_out a v with Some _ => 0 | None => S (variant_index l v) end end.
Fixpoint variant_visit {S} `{Stream S} (l : list (alternative T)) (v : T) : M S unit :=
  match l with [] => undefined | a :: l => match a_out a v with Some x => pack (a_packable a) x | None => variant_visit l v end end.
Definition variant_pack (S : Type) (_ : Stream S) (v : T) : M S unit :=
  st_write [wrap 8 (Z.of_nat (variant_index alts v))] ;;;
  let* size_pos := gets (fun s => wrap 32 (st_written s)) in
  st_write (to_le size_bytes 0) ;;;
  let* content_pos := gets (fun s => wrap 32 (st_written s)) in
  variant_visit alts v ;;;
  let* end_ := gets st_written in
  st_rewrite size_pos (to_le size_bytes (wrap 64 (end_ - content_pos))).
Fixpoint unpack_variant_impl (l : list (alternative T)) (tag : nat) (src : list Z) (end_pos : Z) : M cursor (option T) :=
  match l with
  | [] => ret None
  | a :: l =>
      match tag with
      | O => let* o := unpack (a_packable a) (default_value (a_packable a)) src end_pos in ret (option_map (a_in a) o)
      | S tag => unpack_variant_impl l tag src end_pos
      end
  end.
Definition variant_unpack (_ : T) (src : list Z) (end_pos : Z) : M cursor (option T) :=
  let* tag := on_pos (unpack_numeric false 1 src end_pos) in
  match tag with
  | None => ret None
  | Some tag =>
      if 0x80 <=? tag then ret None else
      let* size := on_pos (unpack_numeric false size_bytes src end_pos) in
      match size with
      | None => ret None
      | Some size =>
          let* c := get in
          let content_end := wrap 32 (pos c + size) in
          if (content_end <? pos c) || (end_pos <? content_end) then ret None
          else
            let* o := unpack_variant_impl alts (Z.to_nat tag) src content_end in
            let* inner := get in
            match o with
            | None => modify (fun _ => Cursor (has_unknown inner) (known_end c) (pos c)) ;;; ret None
            | Some v =>
                if known_end inner && negb (pos inner =? content_end) then modify (fun _ => Cursor (has_unknown inner) true (pos c)) ;;; ret None
                else modify (fun _ => Cursor (has_unknown inner) true content_end) ;;; ret (Some v)
            end
      end
  end.
Definition variant_impl : packable T :=
  base_impl true false dflt dflt never never_at variant_pack variant_unpack (Z.of_nat size_bytes) None
    (base_packed_size variant_pack) (base_variable_packed_size true never variant_pack).
End Variant.

(** ** Entry points *)
Section Entry.
Context {A : Type} (p : packable A).
Definition fracpack_size (v : A) : Z := packed_size p v.
Definition to_frac (v : A) : outcome fixed_buf_stream (list Z) :=
  let sz := fracpack_size v in
  match pack p v {| sb_done := []; sb_room := repeat 0 (Z.to_nat sz) |} with
  | Ok _ s => Ok (sb_done s ++ sb_room s) s
  | Throw e s => Throw e s
  | UB => UB
  end.
(** [from_frac(value, data)]: the result is the new value, or [None] for false.
    [known_end] starts uninitialized. *)
Definition from_frac_into (junk : bool) (v : A) (data : list Z) : outcome cursor (option A) :=
  match unpack p v data (wrap 32 (vec_size data)) (Cursor false junk 0) with
  | Ok (Some x) c => Ok (if known_end c && negb (pos c =? vec_size data) then None else Some x) c
  | o => o
  end.
Definition from_frac (junk : bool) (data : list Z) : outcome cursor A :=
  match from_frac_into junk (default_value p) data with
  | Ok (Some x) c => Ok x c
  | Ok None c => Throw (Exn std_runtime_error "invalid frac encoding") c
  | Throw e c => Throw e c
  | UB => UB
  end.
Definition from_frac_strict_into (junk : bool) (v : A) (data : list Z) : outcome cursor (option A) :=
  match unpack p v data (wrap 32 (vec_size data)) (Cursor false junk 0) with
  | Ok (Some x) c => Ok (if has_unknown c || (known_end c && negb (pos c =? vec_size data)) then None else Some x) c
  | o => o
  end.
End Entry.
End Format.
