(* ===== verification/FracpackSpec.v ===== *)
(** * The layout of fracpack data

    What [pack] writes, as a function of the value: the interface [lawful] between
    a codec and the codecs built from it, and the stream interface that packing is
    proved against. *)
From Stdlib Require Import ZArith Lia Bool String.
From stdpp Require Import base list numbers decidable option.
From S2P Require Import Prelude Fracpack.

(** ** Little-endian numbers *)
Lemma to_le_length n : forall z, length (to_le n z) = n.
Proof. induction n; intros z; cbn; auto. Qed.
Lemma to_le_size n z : vec_size (to_le n z) = Z.of_nat n.
Proof. unfold vec_size. now rewrite to_le_length. Qed.
Lemma to_le_bytes n : forall z, Forall (in_u 8) (to_le n z).
Proof. induction n; intros z; cbn; constructor; auto. apply wrap_range. lia. Qed.
Lemma of_to_le n : forall z, of_le (to_le n z) = wrap (8 * Z.of_nat n) z.
Proof.
  induction n as [|n IH]; intros z; cbn [to_le of_le]; [unfold wrap; now rewrite Z.mod_1_r|].
  rewrite IH, Z.shiftl_mul_pow2, Z.shiftr_div_pow2 by lia. unfold wrap. replace (8 * Z.of_nat (S n)) with (8 + 8 * Z.of_nat n) by lia.
  rewrite Z.pow_add_r, Z.rem_mul_r by lia. lia.
Qed.
Lemma of_le_range bs : Forall (in_u 8) bs -> 0 <= of_le bs < 2 ^ (8 * Z.of_nat (length bs)).
Proof.
  induction 1 as [|b bs Hb _ IH]; cbn [of_le length]; [cbn; lia|]. unfold in_u in Hb. rewrite Z.shiftl_mul_pow2 by lia.
  replace (8 * Z.of_nat (S (length bs))) with (8 + 8 * Z.of_nat (length bs)) by lia. rewrite Z.pow_add_r by lia. nia.
Qed.
Lemma to_of_le bs : Forall (in_u 8) bs -> to_le (length bs) (of_le bs) = bs.
Proof.
  induction 1 as [|b bs Hb _ IH]; cbn [to_le of_le length]; [reflexivity|]. unfold in_u in Hb.
  rewrite Z.shiftr_div_pow2, Z.shiftl_mul_pow2 by lia. f_equal; [|rewrite Z.div_add, Z.div_small, Z.add_0_l by lia; exact IH].
  unfold wrap. rewrite Z.mod_add by lia. apply Z.mod_small. lia.
Qed.

(** ** Streams that keep what is written *)
Class StreamSpec (S : Type) `{Stream S} := {
  (** There is room for [n] bytes. *)
  fits : S -> Z -> Prop;
  (** [bs] has been written behind [s]. *)
  adds : S -> list Z -> S -> Prop;
  ss_write : forall s bs, fits s (vec_size bs) -> exists s', st_write bs s = Ok tt s' /\ adds s bs s';
  ss_rewrite : forall s a old b s' bs, adds s (a ++ old ++ b) s' -> length bs = length old ->
    exists s'', st_rewrite (st_written s + vec_size a) bs s' = Ok tt s'' /\ adds s (a ++ bs ++ b) s'';
  ss_nil : forall s, fits s 0 -> adds s [] s;
  ss_app : forall s a s1 b s2, adds s a s1 -> adds s1 b s2 -> adds s (a ++ b) s2;
  ss_fits : forall s bs s' n, adds s bs s' -> fits s (vec_size bs + n) -> fits s' n;
  ss_less : forall s m n, 0 <= m <= n -> fits s n -> fits s m;
  ss_written : forall s bs s', adds s bs s' -> st_written s' = st_written s + vec_size bs;
  ss_nonneg : forall s n, fits s n -> 0 <= st_written s }.

#[global] Program Instance size_stream_spec : StreamSpec Z := {
  fits n m := 0 <= n /\ n + m < 2 ^ 64;
  adds n bs n' := n' = n + vec_size bs }.
Next Obligation. intros n bs [H0 H]. eexists. split; [reflexivity|]. apply wrap_small. pose proof (vec_size_nonneg bs). split; lia. Qed.
Next Obligation. intros n a old b n' bs -> Hl. eexists. split; [reflexivity|]. unfold vec_size. rewrite !length_app. lia. Qed.
Next Obligation. intros n _. cbn. unfold vec_size. cbn. lia. Qed.
Next Obligation. intros n a n1 b n2 -> ->. rewrite vec_size_app. lia. Qed.
Next Obligation. intros n bs n' m -> [H0 H]. pose proof (vec_size_nonneg bs). split; lia. Qed.
Next Obligation. intros n m k Hm [H0 H]. split; lia. Qed.
Next Obligation. intros n bs n' ->. reflexivity. Qed.
Next Obligation. intros n m [H _]. exact H. Qed.

#[global] Program Instance buf_stream_spec : StreamSpec fixed_buf_stream := {
  fits s n := n <= vec_size (sb_room s);
  adds s bs s' := sb_done s' = sb_done s ++ bs /\ sb_room s' = drop (length bs) (sb_room s) /\ vec_size bs <= vec_size (sb_room s) }.
Next Obligation.
  intros s bs Hf. cbv beta in Hf. cbn. unfold fb_write. destruct (Z.ltb_spec (vec_size (sb_room s)) (vec_size bs)); [lia|]. eexists. split; [reflexivity|]. cbn. auto.
Qed.
Next Obligation.
  intros s a old b s' bs (E1 & E2 & E3) Hl. cbn. unfold fb_rewrite. rewrite E1, <- !app_assoc. unfold vec_size in *. rewrite !length_app in *.
  destruct (Z.ltb_spec (Z.of_nat (length (sb_done s)) + Z.of_nat (length a)) 0); [lia|]. cbn [orb].
  destruct (Z.ltb_spec (Z.of_nat (length (sb_done s) + (length a + (length old + (length b + length (sb_room s'))))))
              (Z.of_nat (length (sb_done s)) + Z.of_nat (length a) + Z.of_nat (length bs))); [lia|].
  replace (Z.to_nat (Z.of_nat (length (sb_done s)) + Z.of_nat (length a))) with (length (sb_done s) + length a)%nat by lia.
  rewrite take_app_add, take_app_length, <- Nat.add_assoc, drop_app_add, Hl, drop_app_add, drop_app_length.
  eexists. split; [reflexivity|]. cbn [sb_done sb_room]. rewrite <- !app_assoc.
  replace (sb_done s ++ a ++ bs ++ b ++ sb_room s') with ((sb_done s ++ a ++ bs ++ b) ++ sb_room s') by now rewrite <- !app_assoc.
  replace (length (sb_done s) + (length a + (length old + length b)))%nat with (length (sb_done s ++ a ++ bs ++ b)) by (rewrite !length_app; lia).
  rewrite take_app_length, drop_app_length, E2. split; [reflexivity|]. split; [f_equal; lia|lia].
Qed.
Next Obligation. intros s Hf. cbn. rewrite app_nil_r. auto. Qed.
Next Obligation.
  intros s a s1 b s2 (E1 & E2 & E3) (F1 & F2 & F3). rewrite F1, E1, F2, E2, drop_drop, length_app, <- app_assoc. split; [reflexivity|]. split; [f_equal; lia|].
  rewrite E2 in F3. unfold vec_size in *. rewrite length_drop in F3. rewrite length_app. lia.
Qed.
Next Obligation. intros s bs s' n (E1 & E2 & E3) Hf. cbv beta in *. rewrite E2. unfold vec_size in *. rewrite length_drop. lia. Qed.
Next Obligation. intros s m n Hm Hf. cbv beta in *. lia. Qed.
Next Obligation. intros s bs s' (E1 & _ & _). cbn. now rewrite E1, vec_size_app. Qed.
Next Obligation. intros s n _. cbn. apply vec_size_nonneg. Qed.

(** ** Layouts

    [enc] is what [pack] writes of a value on its own, [slot] the fixed part of an
    embedded value, [d] bytes in front of its [heap] part, and [ini] the slot
    before its offset is known. *)
Record layout (A : Type) := Layout {
  wf : A -> Prop; enc : A -> list Z; ini : A -> list Z; slot : A -> Z -> list Z; heap : A -> list Z }.
Arguments Layout {A} wf enc ini slot heap.
Arguments wf {A} l _ : rename.
Arguments enc {A} l _ : rename.
Arguments ini {A} l _ : rename.
Arguments slot {A} l _ _ : rename.
Arguments heap {A} l _ : rename.

(** The operation writes exactly [bs], to any stream with room for it. *)
Definition packs (bs : list Z) (m : forall S, Stream S -> M S unit) : Prop :=
  forall S (H : Stream S) (HS : StreamSpec S) (s : S), fits s (vec_size bs) -> st_written s + vec_size bs < 2 ^ 32 ->
    exists s', m S H s = Ok tt s' /\ adds s bs s'.

Section Format.
Context (size_bytes : nat).
Abbreviation sz := (Z.of_nat size_bytes).
Definition limit : Z := 2 ^ (8 * sz).
(** [frac_format_16] and [frac_format_32] *)
Definition frac_format : Prop := size_bytes = 2%nat \/ size_bytes = 4%nat.
Lemma limit_32 : frac_format -> limit <= 2 ^ 32.
Proof. intros Hfmt. unfold limit. destruct Hfmt as [-> | ->]; cbn; lia. Qed.
Lemma sz_pos : frac_format -> 2 <= sz <= 4.
Proof. intros Hfmt. destruct Hfmt as [-> | ->]; cbn; lia. Qed.

(** The shared slot and the heap part of a value behind an offset: the offset 0
    stands for an empty container. *)
Definition vslot {A} (p : packable A) (a : A) (d : Z) : list Z := to_le size_bytes (if is_empty_container p a then 0 else d).
Definition vheap {A} (p : packable A) (L : layout A) (a : A) : list Z := if is_empty_container p a then [] else enc L a.

Record packs_ok {A} (p : packable A) (L : layout A) : Prop := {
  po_nonneg : 0 <= fixed_size p;
  po_ini : forall a, wf L a -> vec_size (ini L a) = fixed_size p;
  po_slot : forall a d, wf L a -> vec_size (slot L a d) = fixed_size p;
  po_variable : is_variable_size p = true -> fixed_size p = sz;
  po_inline : forall a, is_variable_size p = false -> wf L a -> ini L a = enc L a /\ (forall d, slot L a d = enc L a) /\ heap L a = [];
  po_inline_repack : forall S (H : Stream S) a fp hp (s : S), is_variable_size p = false -> embedded_fixed_repack p a fp hp s = Ok tt s;
  po_shared : forall a d, is_variable_size p = true -> is_optional p = false -> slot L a d = vslot p a d /\ heap L a = vheap p L a;
  po_empty : forall a, is_empty_container p a = true -> is_variable_size p = true /\ is_optional p = false;
  po_pack : forall a, wf L a -> packs (enc L a) (fun S H => pack p a);
  po_fixed_pack : forall a, wf L a -> packs (ini L a) (fun S H => embedded_fixed_pack p a);
  po_repack : forall S (H : Stream S) (HS : StreamSpec S) a (s : S) pre post s', wf L a -> adds s (pre ++ ini L a ++ post) s' -> 0 <= st_written s ->
    st_written s' < 2 ^ 32 ->
    exists s'', embedded_fixed_repack p a (st_written s + vec_size pre) (st_written s') s' = Ok tt s'' /\
                adds s (pre ++ slot L a (vec_size (ini L a ++ post)) ++ post) s'';
  po_variable_pack : forall a, wf L a -> packs (heap L a) (fun S H => embedded_variable_pack p a);
  po_size : forall a, wf L a -> vec_size (enc L a) < 2 ^ 32 -> packed_size p a = vec_size (enc L a);
  po_vsize : forall a, wf L a -> vec_size (heap L a) < 2 ^ 32 -> embedded_variable_packed_size p a = vec_size (heap L a) }.

(** *** Writing *)
Lemma packs_write bs : packs bs (fun S H => st_write bs).
Proof. intros S H HS s Hf _. now apply ss_write. Qed.
Lemma packs_nil : packs [] (fun S H => ret tt).
Proof. intros S H HS s Hf _. exists s. split; [reflexivity|now apply ss_nil]. Qed.
Lemma packs_app a b m k : packs a m -> packs b k -> packs (a ++ b) (fun S H => m S H ;;; k S H).
Proof.
  intros Hm Hk S H HS s Hf Hw. rewrite vec_size_app in Hf, Hw. pose proof (vec_size_nonneg a). pose proof (vec_size_nonneg b).
  destruct (Hm S H HS s) as (s1 & E1 & A1); [eapply ss_less; [|exact Hf]; lia|lia|].
  destruct (Hk S H HS s1) as (s2 & E2 & A2); [exact (ss_fits _ _ _ _ A1 Hf)|rewrite (ss_written _ _ _ A1); lia|].
  exists s2. unfold bind. rewrite E1. split; [exact E2|exact (ss_app _ _ _ _ _ A1 A2)].
Qed.
Lemma packs_size bs m : packs bs m -> vec_size bs < 2 ^ 32 -> run_size (m Z _) = vec_size bs.
Proof.
  intros Hm Hl. pose proof (vec_size_nonneg bs). unfold run_size.
  destruct (Hm Z size_stream size_stream_spec 0) as (n & E & A); [split; lia|exact Hl|].
  rewrite E. cbn in A. subst n. apply wrap_small. split; lia.
Qed.

(** ** [base_packable_impl] *)
Section Base.
Context {A : Type} (variable zero_offset : bool) (dflt cleared : A) (empty : A -> bool)
        (empty_src : forall S, list Z -> Z -> Z -> M S bool)
        (pk : forall S, Stream S -> A -> M S unit) (up : A -> list Z -> Z -> M cursor (option A))
        (fixed : Z) (mem : option (list Z -> A)) (size vsize : A -> Z).
Context (W : A -> Prop) (E : A -> list Z).
Abbreviation p := (base_impl size_bytes variable zero_offset dflt cleared empty empty_src pk up fixed mem size vsize).
Definition base_layout : layout A := {|
  wf := W; enc := E;
  ini a := if variable then to_le size_bytes 0 else E a;
  slot a d := if variable then vslot p a d else E a;
  heap a := if variable then vheap p (Layout W E (fun _ => []) (fun _ _ => []) (fun _ => [])) a else [] |}.

Lemma base_packs_ok : 0 <= fixed -> (variable = true -> fixed = sz) -> (variable = false -> forall a, W a -> vec_size (E a) = fixed) ->
  (variable = false -> forall a, empty a = false) -> (forall a, W a -> packs (E a) (fun S H => pk S H a)) ->
  (forall a, W a -> vec_size (E a) < 2 ^ 32 -> size a = vec_size (E a)) ->
  (forall a, W a -> vec_size (heap base_layout a) < 2 ^ 32 -> vsize a = vec_size (heap base_layout a)) ->
  packs_ok p base_layout.
Proof.
  intros H0 Hv Hi He Hp Hs Hvs. split; cbn [base_impl base_layout fixed_size is_variable_size is_optional wf enc ini slot heap is_empty_container
    pack embedded_fixed_pack embedded_fixed_repack embedded_variable_pack packed_size embedded_variable_packed_size] in *; auto.
  - intros a Ha. destruct variable; [rewrite to_le_size; symmetry; auto|auto].
  - intros a d Ha. destruct variable; [unfold vslot; rewrite to_le_size; symmetry; auto|auto].
  - intros a Hf Ha. rewrite Hf. auto.
  - intros S H a fp hp s Hf. unfold base_fixed_repack. rewrite Hf. reflexivity.
  - intros a d Hf _. rewrite Hf. auto.
  - intros a Ha. destruct variable; [auto|]. rewrite He in Ha; [discriminate|reflexivity].
  - intros a Ha. unfold base_fixed_pack. destruct variable; [apply packs_write|auto].
  - intros S H HS a s pre post s' Ha Ad Hn Hw. unfold base_fixed_repack, vslot. cbn [is_empty_container base_impl].
    destruct variable; cbn [andb]; [|now exists s']. destruct (empty a); cbn [negb]; [now exists s'|].
    destruct (ss_rewrite s pre (to_le size_bytes 0) post s' (to_le size_bytes (wrap 32 (st_written s' - (st_written s + vec_size pre)))) Ad) as (s'' & E1 & A1);
      [now rewrite !to_le_length|].
    exists s''. split; [exact E1|]. pose proof (ss_written _ _ _ Ad) as Hws. rewrite !vec_size_app in *. pose proof (vec_size_nonneg pre). pose proof (vec_size_nonneg post).
    rewrite to_le_size in *. rewrite wrap_small in A1 by (split; lia).
    replace (st_written s' - (st_written s + vec_size pre)) with (sz + vec_size post) in A1 by lia. exact A1.
  - intros a Ha. unfold base_variable_pack, vheap. cbn [is_empty_container base_impl enc]. destruct variable; cbn [andb]; [|apply packs_nil].
    destruct (empty a); cbn [negb]; [apply packs_nil|auto].
Qed.
(** The defaults of the sizes. *)
Lemma base_size_ok a : (forall a, W a -> packs (E a) (fun S H => pk S H a)) -> W a -> vec_size (E a) < 2 ^ 32 -> base_packed_size pk a = vec_size (E a).
Proof. intros Hp Ha Hl. unfold base_packed_size. now apply (packs_size _ (fun S H => pk S H a)); [apply Hp|]. Qed.
Lemma base_vsize_ok a : (forall a, W a -> packs (E a) (fun S H => pk S H a)) -> W a -> vec_size (heap base_layout a) < 2 ^ 32 ->
  base_variable_packed_size variable empty pk a = vec_size (heap base_layout a).
Proof.
  intros Hp Ha Hl. unfold base_variable_packed_size. apply (packs_size _ (fun S H => @base_variable_pack A variable empty pk S H a)); [|exact Hl].
  cbn [heap base_layout]. unfold base_variable_pack, vheap. cbn [is_empty_container base_impl enc]. destruct variable; cbn [andb]; [|apply packs_nil].
  destruct (empty a); cbn [negb]; [apply packs_nil|auto].
Qed.
End Base.

(** ** Regions: embedded values one behind the other, and their heap *)
Record cell := Cell { c_size : Z; c_ini : list Z; c_slot : Z -> list Z; c_heap : list Z }.
(** [d] is the distance from the first slot to the heap. *)
Fixpoint lay (d : Z) (cs : list cell) : list Z :=
  match cs with [] => [] | c :: cs => c_slot c d ++ lay (d - c_size c + vec_size (c_heap c)) cs end.
Definition inis (cs : list cell) : list Z := concat (map c_ini cs).
Definition heaps (cs : list cell) : list Z := concat (map c_heap cs).
Definition sizes (cs : list cell) : Z := fold_right (fun c n => c_size c + n) 0 cs.
Definition region (cs : list cell) : list Z := lay (sizes cs) cs ++ heaps cs.

(** The operations that write a cell. *)
Record ops := Ops {
  o_size : Z; o_fix : forall S, Stream S -> M S unit; o_re : forall S, Stream S -> Z -> Z -> M S unit; o_var : forall S, Stream S -> M S unit }.
Record ops_ok (o : ops) (c : cell) : Prop := {
  oo_size : o_size o = c_size c;
  oo_ini : vec_size (c_ini c) = c_size c;
  oo_slot : forall d, vec_size (c_slot c d) = c_size c;
  oo_fix : packs (c_ini c) (o_fix o);
  oo_re : forall S (H : Stream S) (HS : StreamSpec S) (s : S) pre post s', adds s (pre ++ c_ini c ++ post) s' -> 0 <= st_written s -> st_written s' < 2 ^ 32 ->
    exists s'', o_re o S H (st_written s + vec_size pre) (st_written s') s' = Ok tt s'' /\ adds s (pre ++ c_slot c (vec_size (c_ini c ++ post)) ++ post) s'';
  oo_var : packs (c_heap c) (o_var o) }.
Fixpoint heap_loop {S} (H : Stream S) (fixed : Z) (os : list ops) : M S unit :=
  match os with
  | [] => ret tt
  | o :: os =>
      let* hp := gets (fun s => wrap 32 (st_written s)) in
      o_re o S H fixed hp ;;; o_var o S H ;;; heap_loop H (wrap 32 (fixed + o_size o)) os
  end.
Definition region_pack {S} (H : Stream S) (os : list ops) : M S unit :=
  let* fixed := gets (fun s => wrap 32 (st_written s)) in each (fun o => o_fix o S H) os ;;; heap_loop H fixed os.

Lemma inis_size os cs : Forall2 ops_ok os cs -> vec_size (inis cs) = sizes cs.
Proof. induction 1 as [|o c os cs Ho _ IH]; [reflexivity|]. cbn. rewrite vec_size_app, (oo_ini _ _ Ho). f_equal. exact IH. Qed.
Lemma lay_size os cs : Forall2 ops_ok os cs -> forall d, vec_size (lay d cs) = sizes cs.
Proof. induction 1 as [|o c os cs Ho _ IH]; intros d; [reflexivity|]. cbn. now rewrite vec_size_app, (oo_slot _ _ Ho), IH. Qed.
Lemma fix_loop os cs : Forall2 ops_ok os cs -> packs (inis cs) (fun S H => each (fun o => o_fix o S H) os).
Proof.
  induction 1 as [|o c os cs Ho _ IH]; [apply packs_nil|]. cbn [each inis map concat].
  exact (packs_app _ _ _ (fun S H => each (fun o => o_fix o S H) os) (oo_fix _ _ Ho) IH).
Qed.
Lemma heap_loop_ok os cs : Forall2 ops_ok os cs -> forall S (H : Stream S) (HS : StreamSpec S) (s : S) pre post s',
  adds s (pre ++ inis cs ++ post) s' -> fits s (vec_size (pre ++ inis cs ++ post ++ heaps cs)) -> 0 <= st_written s ->
  st_written s + vec_size (pre ++ inis cs ++ post ++ heaps cs) < 2 ^ 32 ->
  exists s'', heap_loop H (st_written s + vec_size pre) os s' = Ok tt s'' /\
              adds s (pre ++ lay (vec_size (inis cs ++ post)) cs ++ post ++ heaps cs) s''.
Proof.
  induction 1 as [|o c os cs Ho Hos IH]; intros S H HS s pre post s' Ad Hf Hn Hw.
  - cbn in *. rewrite app_nil_r. now exists s'.
  - cbn [heap_loop lay]. unfold heaps, inis in *. cbn [map concat] in *. fold (heaps cs) (inis cs) in *. rewrite <- !app_assoc in *.
    pose proof (ss_written _ _ _ Ad) as Hws. rewrite !vec_size_app in *. rewrite (oo_ini _ _ Ho) in *.
    pose proof (vec_size_nonneg (heaps cs)). pose proof (vec_size_nonneg (c_heap c)). pose proof (vec_size_nonneg (c_ini c)) as Hc. rewrite (oo_ini _ _ Ho) in Hc.
    pose proof (vec_size_nonneg pre). pose proof (vec_size_nonneg post). pose proof (vec_size_nonneg (inis cs)).
    destruct (oo_re _ _ Ho S H HS s pre (inis cs ++ post) s' Ad Hn ltac:(lia)) as (s1 & E1 & A1).
    rewrite !vec_size_app, (oo_ini _ _ Ho) in A1. set (d := c_size c + (vec_size (inis cs) + vec_size post)) in *.
    unfold bind at 1. unfold gets. rewrite wrap_small by (split; lia). unfold bind at 1. rewrite E1.
    pose proof (ss_written _ _ _ A1) as Hs1. rewrite !vec_size_app, (oo_slot _ _ Ho) in Hs1.
    assert (Hf1 : fits s1 (vec_size (c_heap c) + vec_size (heaps cs))).
    { apply (ss_fits _ _ _ _ A1). rewrite !vec_size_app, (oo_slot _ _ Ho). eapply ss_less; [|exact Hf]. lia. }
    destruct (oo_var _ _ Ho S H HS s1) as (s2 & E2 & A2); [eapply ss_less; [|exact Hf1]; lia|lia|].
    unfold bind at 1. rewrite E2. pose proof (ss_app _ _ _ _ _ A1 A2) as A3. rewrite <- !app_assoc in A3. rewrite (app_assoc pre) in A3.
    destruct (IH S H HS s (pre ++ c_slot c d) (post ++ c_heap c) s2) as (s3 & E3 & A4); [exact A3| |exact Hn| |].
    + rewrite <- !app_assoc, !vec_size_app, (oo_slot _ _ Ho). eapply ss_less; [|exact Hf]. lia.
    + rewrite <- !app_assoc, !vec_size_app, (oo_slot _ _ Ho). lia.
    + exists s3. rewrite (oo_size _ _ Ho), wrap_small by (split; lia). rewrite vec_size_app, (oo_slot _ _ Ho), Z.add_assoc in E3. split; [exact E3|].
      rewrite <- !app_assoc, !vec_size_app in A4. replace (d - c_size c + vec_size (c_heap c)) with (vec_size (inis cs) + (vec_size post + vec_size (c_heap c))) by (unfold d; lia).
      exact A4.
Qed.
Lemma region_pack_ok os cs : Forall2 ops_ok os cs -> packs (region cs) (fun S H => region_pack H os).
Proof.
  intros Hos S H HS s Hf Hw. unfold region in *. rewrite !vec_size_app, (lay_size _ _ Hos) in *. pose proof (vec_size_nonneg (heaps cs)).
  pose proof (inis_size _ _ Hos) as Hi. pose proof (vec_size_nonneg (inis cs)). pose proof (ss_nonneg _ _ Hf).
  destruct (fix_loop _ _ Hos S H HS s) as (s1 & E1 & A1); [eapply ss_less; [|exact Hf]; lia|lia|].
  unfold region_pack, bind, gets. rewrite wrap_small by (split; lia). rewrite E1.
  destruct (heap_loop_ok _ _ Hos S H HS s [] [] s1) as (s2 & E2 & A2); [now rewrite app_nil_r| |lia| |].
  - cbn [app]. rewrite vec_size_app. eapply ss_less; [|exact Hf]; lia.
  - cbn [app]. rewrite vec_size_app. lia.
  - exists s2. change (vec_size []) with 0 in E2. rewrite Z.add_0_r in E2. split; [exact E2|]. cbn [app] in A2. rewrite app_nil_r, Hi in A2. exact A2.
Qed.
End Format.
