(* ===== verification/FracpackPack.v ===== *)
(** * What [pack] writes

    Every codec of [Fracpack] writes the layout of its value: the layouts, and the
    proof of [packs_ok] for each, given that of the codecs it is built from. *)
From Stdlib Require Import ZArith Lia Bool String.
From stdpp Require Import base list numbers decidable option.
From S2P Require Import Prelude Fracpack FracpackSpec.

Lemma concat_size {A} (f : A -> list Z) n l : Forall (fun a => length (f a) = n) l -> vec_size (concat (map f l)) = vec_size l * Z.of_nat n.
Proof. unfold vec_size. induction 1 as [|a l Ha _ IH]; [reflexivity|]. cbn [map concat length]. rewrite length_app, Ha. lia. Qed.

Section Format.
Context (size_bytes : nat) (Hfmt : frac_format size_bytes).
Abbreviation sz := (Z.of_nat size_bytes).
Abbreviation limit := (limit size_bytes).
Abbreviation packs_ok := (packs_ok size_bytes).

(** ** Values that are copied *)
Section Memcpy.
Context {A : Type} (n : nat) (to_bytes : A -> list Z) (of_bytes : list Z -> A) (V : A -> Prop).
Context (Hlen : forall a, V a -> length (to_bytes a) = n).
Definition memcpy_layout : layout A := Layout V to_bytes to_bytes (fun a _ => to_bytes a) (fun _ => []).
Lemma memcpy_packs : packs_ok (memcpy_impl size_bytes n to_bytes of_bytes) memcpy_layout.
Proof.
  apply (base_packs_ok size_bytes false false _ _ _ _ _ _ _ _ _ _ V to_bytes); try discriminate; try reflexivity; [lia| | |].
  - intros _ a Ha. unfold vec_size. now rewrite Hlen.
  - intros a Ha. apply packs_write.
  - intros a Ha _. unfold vec_size. now rewrite Hlen.
Qed.

(** Strings and vectors of such values. *)
Definition container_memcpy_layout : layout (list A) :=
  base_layout size_bytes true true [] [] is_nil (container_empty_at size_bytes) (container_memcpy_pack size_bytes n to_bytes)
    (container_memcpy_unpack size_bytes n of_bytes) sz None (container_memcpy_size size_bytes n) (fun v => if is_nil v then 0 else container_memcpy_size size_bytes n v)
    (fun v => Forall V v /\ vec_size v * Z.of_nat n < limit) (fun v => to_le size_bytes (vec_size v * Z.of_nat n) ++ concat (map to_bytes v)).
Lemma container_memcpy_size_ok v : wf container_memcpy_layout v -> vec_size (enc container_memcpy_layout v) < 2 ^ 32 ->
  container_memcpy_size size_bytes n v = vec_size (enc container_memcpy_layout v).
Proof.
  intros [Hv Hl]. cbn [enc container_memcpy_layout base_layout]. rewrite vec_size_app, to_le_size, (concat_size _ n).
  - intros Hs. unfold container_memcpy_size. pose proof (vec_size_nonneg v). rewrite !wrap_small; [reflexivity| |rewrite wrap_small]; split; nia.
  - eapply List.Forall_impl; [|exact Hv]. exact Hlen.
Qed.
Lemma container_memcpy_packs : packs_ok (container_memcpy_impl size_bytes n to_bytes of_bytes) container_memcpy_layout.
Proof.
  apply base_packs_ok; auto; try discriminate; [lia| |exact container_memcpy_size_ok|].
  - intros v [Hv _]. unfold container_memcpy_pack. apply (packs_app _ _ (fun S H => st_write _)); [apply packs_write|].
    destruct v as [|x v]; [exact packs_nil|]. destruct (Z.eqb_spec (vec_size (x :: v)) 0) as [E|_]; [unfold vec_size in E; cbn in E; lia|apply packs_write].
  - intros v Hv Hs. cbn [heap base_layout] in *. unfold vheap in *. cbn [is_empty_container base_impl enc] in *. destruct v as [|x v]; [reflexivity|].
    now apply container_memcpy_size_ok.
Qed.
End Memcpy.

Definition bool_layout : layout bool :=
  let bytes (b : bool) := [if b then 1 else 0] in Layout (fun _ => True) bytes bytes (fun b _ => bytes b) (fun _ => []).
Lemma bool_packs : packs_ok (bool_impl size_bytes) bool_layout.
Proof.
  assert (Hp : forall b : bool, True -> packs [if b then 1 else 0] (fun S H => bool_pack S H b)) by (intros b _; apply packs_write).
  apply (base_packs_ok size_bytes false false _ _ _ _ _ _ _ _ _ _ (fun _ => True) (fun b : bool => [if b then 1 else 0])); auto; try discriminate; lia.
Qed.

(** ** Cells of embedded values *)
Definition cell_of {A} (p : packable A) (L : layout A) (a : A) : cell := Cell (fixed_size p) (ini L a) (slot L a) (heap L a).
Definition ops_of {A} (p : packable A) (a : A) : ops :=
  Ops (fixed_size p) (fun S H => embedded_fixed_pack p a) (fun S H => embedded_fixed_repack p a) (fun S H => embedded_variable_pack p a).
Lemma ops_of_ok {A} (p : packable A) L a : packs_ok p L -> wf L a -> ops_ok (ops_of p a) (cell_of p L a).
Proof.
  intros Hp Ha. split; cbn [ops_of cell_of o_size c_size c_ini c_slot c_heap o_fix o_re o_var]; auto.
  - now apply (po_ini _ _ _ Hp).
  - intros d. now apply (po_slot _ _ _ Hp).
  - now apply (po_fixed_pack _ _ _ Hp).
  - intros S H HS s pre post s'. now apply (po_repack _ _ _ Hp).
  - now apply (po_variable_pack _ _ _ Hp).
Qed.
Lemma ops_list_ok {A} (p : packable A) L l : packs_ok p L -> Forall (wf L) l -> Forall2 ops_ok (map (ops_of p) l) (map (cell_of p L) l).
Proof. intros Hp Hl. induction Hl; cbn; constructor; auto. now apply ops_of_ok. Qed.
Lemma each_map {A B S} (f : B -> M S unit) (g : A -> B) l : each f (map g l) = each (fun x => f (g x)) l.
Proof. induction l as [|x l IH]; [reflexivity|]. cbn. now rewrite IH. Qed.
(** For values without a heap part the fixed position is not used. *)
Lemma heap_loop_inline {A} (p : packable A) L S (H : Stream S) l : packs_ok p L -> is_variable_size p = false ->
  forall f1 f2 s, heap_loop H f1 (map (ops_of p) l) s = heap_loop H f2 (map (ops_of p) l) s.
Proof.
  intros Hp Hv. induction l as [|x l IH]; intros f1 f2 s; [reflexivity|]. cbn [map heap_loop ops_of o_re o_var o_size]. unfold bind, gets.
  rewrite !(po_inline_repack _ _ _ Hp) by exact Hv. destruct (embedded_variable_pack p x s); auto.
Qed.
Lemma pack_heap_loop {A} (p : packable A) L S (H : Stream S) advance l : packs_ok p L ->
  is_variable_size p = false \/ advance = fixed_size p -> forall fixed s, pack_heap p advance fixed l s = heap_loop H fixed (map (ops_of p) l) s.
Proof.
  intros Hp Ha. induction l as [|x l IH]; intros fixed s; [reflexivity|]. cbn [pack_heap map heap_loop ops_of o_re o_var o_size]. unfold bind, gets.
  destruct (embedded_fixed_repack p x fixed (wrap 32 (st_written s)) s) as [u s1|e s1|]; auto.
  destruct (embedded_variable_pack p x s1) as [u1 s2|e s2|]; auto. rewrite IH. destruct Ha as [Ha| ->]; [|reflexivity]. now apply (heap_loop_inline p L).
Qed.
Lemma elements_pack {A} (p : packable A) L advance l : packs_ok p L -> is_variable_size p = false \/ advance = fixed_size p -> Forall (wf L) l ->
  packs (region (map (cell_of p L) l)) (fun S H => let* fixed := gets (fun s => wrap 32 (st_written s)) in each (embedded_fixed_pack p) l ;;; pack_heap p advance fixed l).
Proof.
  intros Hp Ha Hl S H HS s Hf Hw. destruct (region_pack_ok _ _ (ops_list_ok p L l Hp Hl) S H HS s Hf Hw) as (s' & E & Ad). exists s'. split; [|exact Ad].
  rewrite <- E. unfold region_pack, bind, gets. rewrite each_map. cbn [ops_of o_fix].
  change (each (fun x => embedded_fixed_pack p x) l s) with (each (embedded_fixed_pack p) l s).
  destruct (each (embedded_fixed_pack p) l s); auto. now apply (pack_heap_loop p L).
Qed.

(** ** Vectors and arrays *)
Section Container.
Context {A : Type} (p : packable A) (L : layout A) (Hp : packs_ok p L).
Definition container_layout : layout (list A) :=
  base_layout size_bytes true true [] [] is_nil (container_empty_at size_bytes) (container_pack size_bytes p) (container_unpack size_bytes p) sz None
    (base_packed_size (container_pack size_bytes p)) (base_variable_packed_size true is_nil (container_pack size_bytes p))
    (fun v => Forall (wf L) v /\ vec_size v * fixed_size p < limit) (fun v => to_le size_bytes (vec_size v * fixed_size p) ++ region (map (cell_of p L) v)).
Lemma container_pack_ok v : wf container_layout v -> packs (enc container_layout v) (fun S H => container_pack size_bytes p S H v).
Proof.
  intros [Hv Hl]. pose proof (po_nonneg _ _ _ Hp). pose proof (vec_size_nonneg v). pose proof (limit_32 size_bytes Hfmt).
  unfold container_pack. rewrite wrap_small by (split; nia). cbn [enc container_layout base_layout].
  apply (packs_app _ _ (fun S H => st_write _)); [apply packs_write|]. apply elements_pack; auto.
  destruct (is_variable_size p) eqn:Ev; [right; symmetry; now apply (po_variable _ _ _ Hp)|now left].
Qed.
Lemma container_packs : packs_ok (container_impl size_bytes p) container_layout.
Proof.
  apply base_packs_ok; auto; try discriminate; [lia|exact container_pack_ok| |].
  - intros v Hv Hs. exact (base_size_ok _ _ _ v container_pack_ok Hv Hs).
  - intros v Hv Hs. exact (base_vsize_ok size_bytes _ _ _ _ _ _ _ _ _ _ _ _ _ _ v container_pack_ok Hv Hs).
Qed.

Context (N : nat).
Definition array_layout : layout (list A) :=
  base_layout size_bytes (is_variable_size p) false (repeat (default_value p) N) (repeat (default_value p) N) never never_at (array_pack p) (array_unpack p N)
    (if is_variable_size p then sz else fixed_size p * Z.of_nat N) None (base_packed_size (array_pack p)) (base_variable_packed_size (is_variable_size p) never (array_pack p))
    (fun v => Forall (wf L) v /\ length v = N) (fun v => region (map (cell_of p L) v)).
Lemma array_pack_ok v : wf array_layout v -> packs (enc array_layout v) (fun S H => array_pack p S H v).
Proof. intros [Hv Hl]. unfold array_pack. apply elements_pack; auto. Qed.
Lemma region_inline l : is_variable_size p = false -> Forall (wf L) l -> vec_size (region (map (cell_of p L) l)) = fixed_size p * vec_size l.
Proof.
  intros Hv Hl. unfold region. rewrite vec_size_app, (lay_size _ _ (ops_list_ok p L l Hp Hl)).
  assert (E : heaps (map (cell_of p L) l) = []).
  { unfold heaps. induction Hl as [|a l Ha _ IH]; [reflexivity|]. cbn. rewrite IH, app_nil_r. now apply (po_inline _ _ _ Hp). }
  rewrite E. change (vec_size []) with 0. rewrite Z.add_0_r. clear. unfold vec_size, sizes.
  induction l as [|a l IH]; cbn [map fold_right cell_of c_size length]; lia.
Qed.
Lemma array_packs : packs_ok (array_impl size_bytes p N) array_layout.
Proof.
  pose proof (po_nonneg _ _ _ Hp). apply base_packs_ok; auto; [destruct (is_variable_size p); nia|now intros ->| |exact array_pack_ok| |].
  - intros Hv v [Hl Hn]. rewrite region_inline by assumption. rewrite Hv. unfold vec_size. now rewrite Hn.
  - intros v Hv Hs. exact (base_size_ok _ _ _ v array_pack_ok Hv Hs).
  - intros v Hv Hs. exact (base_vsize_ok size_bytes _ _ _ _ _ _ _ _ _ _ _ _ _ _ v array_pack_ok Hv Hs).
Qed.
End Container.

(** ** Optionals *)
Section Optional.
Context {A : Type} (p : packable A) (L : layout A) (Hp : packs_ok p L).
Definition optional_slot (v : option A) (d : Z) : list Z :=
  match v with Some x => if shares_offset p then slot L x d else to_le size_bytes d | None => to_le size_bytes 1 end.
Definition optional_heap (v : option A) : list Z := match v with Some x => vheap p L x | None => [] end.
Definition optional_layout : layout (option A) := {|
  wf v := match v with Some x => wf L x | None => True end;
  enc v := optional_slot v sz ++ optional_heap v;
  ini v := match v with Some x => if shares_offset p then ini L x else to_le size_bytes 1 | None => to_le size_bytes 1 end;
  slot := optional_slot; heap := optional_heap |}.
Abbreviation q := (optional_impl size_bytes p).
Lemma shares_variable : shares_offset p = true -> is_optional p = false /\ is_variable_size p = true.
Proof. unfold shares_offset. rewrite andb_true_iff, negb_true_iff. tauto. Qed.
Lemma optional_fixed_size v : wf optional_layout v -> vec_size (ini optional_layout v) = sz /\ forall d, vec_size (optional_slot v d) = sz.
Proof.
  intros Hv. unfold optional_slot. cbn [ini optional_layout wf] in *. destruct v as [x|]; [|split; intros; apply to_le_size].
  destruct (shares_offset p) eqn:Es; [|split; intros; apply to_le_size]. apply shares_variable in Es as [_ Es]. rewrite <- (po_variable _ _ _ Hp Es).
  split; [now apply (po_ini _ _ _ Hp)|]. intros d. now apply (po_slot _ _ _ Hp).
Qed.
Lemma optional_fix v : wf optional_layout v -> packs (ini optional_layout v) (fun S H => @optional_fixed_pack size_bytes A p S H v).
Proof.
  intros Hv. unfold optional_fixed_pack. cbn [ini optional_layout wf] in *. destruct v as [x|]; [|apply packs_write].
  destruct (shares_offset p); [now apply (po_fixed_pack _ _ _ Hp)|apply packs_write].
Qed.
Lemma optional_var v : wf optional_layout v -> packs (optional_heap v) (fun S H => @optional_variable_pack A p S H v).
Proof.
  intros Hv. unfold optional_variable_pack, optional_heap, vheap. cbn [optional_layout wf] in *. destruct v as [x|]; [|apply packs_nil].
  destruct (is_empty_container p x); [apply packs_nil|now apply (po_pack _ _ _ Hp)].
Qed.
Lemma optional_re v S (H : Stream S) (HS : StreamSpec S) (s : S) pre post s' : wf optional_layout v -> adds s (pre ++ ini optional_layout v ++ post) s' ->
  0 <= st_written s -> st_written s' < 2 ^ 32 ->
  exists s'', optional_fixed_repack size_bytes p v (st_written s + vec_size pre) (st_written s') s' = Ok tt s'' /\
              adds s (pre ++ optional_slot v (vec_size (ini optional_layout v ++ post)) ++ post) s''.
Proof.
  intros Hv Ad Hn Hw. unfold optional_fixed_repack, optional_slot. cbn [ini optional_layout wf] in *. destruct v as [x|]; [|now exists s'].
  destruct (shares_offset p); [now apply (po_repack _ _ _ Hp)|].
  destruct (ss_rewrite s pre _ post s' (to_le size_bytes (wrap 32 (st_written s' - (st_written s + vec_size pre)))) Ad) as (s'' & E1 & A1); [now rewrite !to_le_length|].
  exists s''. split; [exact E1|]. pose proof (ss_written _ _ _ Ad) as Hws. rewrite !vec_size_app in *. pose proof (vec_size_nonneg pre). pose proof (vec_size_nonneg post).
  rewrite to_le_size in *. rewrite wrap_small in A1 by (split; lia). replace (sz + vec_size post) with (st_written s' - (st_written s + vec_size pre)) by lia. exact A1.
Qed.
Lemma optional_ops v : wf optional_layout v -> ops_ok (ops_of q v) (cell_of q optional_layout v).
Proof.
  intros Hv. destruct (optional_fixed_size v Hv) as [Hi Hs]. split; auto.
  - now apply optional_fix.
  - intros S H HS s pre post s'. now apply optional_re.
  - now apply optional_var.
Qed.
Lemma optional_pack_ok v : wf optional_layout v -> packs (enc optional_layout v) (fun S H => optional_pack size_bytes p S H v).
Proof.
  intros Hv S H HS s Hf Hw. assert (Hos : Forall2 ops_ok [ops_of q v] [cell_of q optional_layout v]) by (constructor; [now apply optional_ops|constructor]).
  assert (Er : region [cell_of q optional_layout v] = enc optional_layout v).
  { unfold region, heaps, sizes. cbn [lay map concat fold_right c_slot c_heap c_size cell_of]. rewrite !app_nil_r, Z.add_0_r. reflexivity. }
  destruct (region_pack_ok _ _ Hos S H HS s) as (s' & E & Ad); [now rewrite Er..|]. rewrite Er in Ad. exists s'. split; [|exact Ad].
  unfold region_pack in E. cbn [each heap_loop ops_of o_fix o_re o_var] in E. unfold optional_pack, bind, gets, ret in *.
  cbn [optional_impl embedded_fixed_pack embedded_fixed_repack embedded_variable_pack] in E.
  destruct (optional_fixed_pack size_bytes p v s) as [u s1|e s1|]; [|discriminate..].
  destruct (optional_fixed_repack size_bytes p v _ _ s1) as [u1 s2|e s2|]; [|discriminate..].
  destruct (optional_variable_pack p v s2) as [u2 s3|e s3|]; [|discriminate..]. destruct u2. exact E.
Qed.
Lemma optional_packs : packs_ok q optional_layout.
Proof.
  split; cbn [optional_impl is_variable_size is_optional fixed_size is_empty_container never]; try discriminate; auto.
  - lia.
  - intros v Hv. now apply optional_fixed_size.
  - intros v d Hv. now apply optional_fixed_size.
  - exact optional_pack_ok.
  - exact optional_fix.
  - intros S H HS v s pre post s'. now apply optional_re.
  - exact optional_var.
  - intros v Hv Hs. now apply (base_size_ok _ (wf optional_layout) (enc optional_layout)); [exact optional_pack_ok|..].
  - intros v Hv Hs. cbn [embedded_variable_packed_size optional_impl]. now apply (packs_size _ (fun S H => @optional_variable_pack A p S H v)); [apply optional_var|].
Qed.
End Optional.

(** ** Members *)
Record lmember (T : Type) := LMember { lm : member T; lm_layout : layout (m_type lm) }.
#[global] Arguments LMember {T} lm lm_layout.
#[global] Arguments lm {T} l : rename.
#[global] Arguments lm_layout {T} l : rename.
Section Members.
Context {T : Type}.
Definition member_ok (l : lmember T) : Prop := packs_ok (m_packable (lm l)) (lm_layout l).
Definition member_wf (v : T) (l : lmember T) : Prop := wf (lm_layout l) (m_get (lm l) v).
Definition member_cell (v : T) (l : lmember T) : cell := cell_of (m_packable (lm l)) (lm_layout l) (m_get (lm l) v).
Definition member_ops (v : T) (m : member T) : ops := ops_of (m_packable m) (m_get m v).
Lemma member_ops_ok v ls : Forall member_ok ls -> Forall (member_wf v) ls -> Forall2 ops_ok (map (member_ops v) (map lm ls)) (map (member_cell v) ls).
Proof. induction ls as [|l ls IH]; intros Hl Hv; inversion Hl; inversion Hv; subst; cbn; constructor; auto. now apply ops_of_ok. Qed.
Lemma members_pack_ok header v ls : Forall member_ok ls -> Forall (member_wf v) ls ->
  packs (header ++ region (map (member_cell v) ls)) (fun S H => @members_pack T S H header v (map lm ls)).
Proof.
  intros Hl Hv. apply (packs_app _ _ (fun S H => st_write header)); [apply packs_write|]. intros S H HS s Hf Hw.
  destruct (region_pack_ok _ _ (member_ops_ok v ls Hl Hv) S H HS s Hf Hw) as (s' & E & Ad). exists s'. split; [|exact Ad]. rewrite <- E.
  unfold region_pack, bind, gets, members_fixed_pack. rewrite (each_map (fun o => o_fix o S H) (member_ops v)).
  change (each (fun m => embedded_fixed_pack (m_packable m) (m_get m v)) (map lm ls) s) with (each (fun x => o_fix (member_ops v x) S H) (map lm ls) s).
  destruct (each (fun x => o_fix (member_ops v x) S H) (map lm ls) s) as [u s1|e s1|]; auto. generalize (wrap 32 (st_written s)) as f. clear. revert s1.
  induction ls as [|l ls IH]; intros s f; [reflexivity|]. cbn [map members_heap_pack heap_loop member_ops ops_of o_re o_var o_size]. unfold bind, gets, m_fixed.
  destruct (embedded_fixed_repack _ _ _ _ s) as [u s1|e s1|]; auto. destruct (embedded_variable_pack _ _ s1) as [u1 s2|e s2|]; auto.
Qed.
Lemma cells_fixed v ls : sizes (map (member_cell v) ls) = members_fixed_size (map lm ls).
Proof. unfold sizes, members_fixed_size. induction ls as [|l ls IH]; [reflexivity|]. cbn [map fold_right member_cell cell_of c_size]. now rewrite IH. Qed.
Lemma members_fixed_nonneg ls : Forall member_ok ls -> 0 <= members_fixed_size (map lm ls).
Proof.
  unfold members_fixed_size. induction 1 as [|l ls Hl _ IH]; cbn [map fold_right]; [lia|]. pose proof (po_nonneg _ _ _ Hl). unfold m_fixed at 1. lia.
Qed.
Lemma members_size_ok v ls : Forall member_ok ls -> Forall (member_wf v) ls -> vec_size (region (map (member_cell v) ls)) < 2 ^ 32 ->
  members_size v (map lm ls) = vec_size (region (map (member_cell v) ls)).
Proof.
  intros Hl Hv Hs. unfold region in *. rewrite vec_size_app, (lay_size _ _ (member_ops_ok v ls Hl Hv)) in *. unfold members_size.
  assert (E : fold_right (fun m n => member_size v m + n) 0 (map lm ls) = sizes (map (member_cell v) ls) + vec_size (heaps (map (member_cell v) ls))).
  { revert Hs. induction ls as [|l ls IH]; [reflexivity|]. inversion Hl as [|? ? Hl0 Hl1]; inversion Hv as [|? ? Hv0 Hv1]; subst. unfold heaps in *.
    cbn [map fold_right concat sizes]. rewrite vec_size_app. intros Hs. pose proof (vec_size_nonneg (c_heap (member_cell v l))).
    pose proof (vec_size_nonneg (concat (map c_heap (map (member_cell v) ls)))). pose proof (po_nonneg _ _ _ Hl0) as Hnn. fold (sizes (map (member_cell v) ls)) in *.
    pose proof (members_fixed_nonneg ls Hl1) as Hmn. rewrite <- (cells_fixed v) in Hmn. change (c_size (member_cell v l)) with (fixed_size (m_packable (lm l))) in *.
    rewrite IH by (auto; lia). unfold member_size, m_fixed. change (c_heap (member_cell v l)) with (heap (lm_layout l) (m_get (lm l) v)) in *.
    rewrite (po_vsize _ _ _ Hl0) by (auto; lia). lia. }
  rewrite E. apply wrap_small. split; [|exact Hs]. pose proof (members_fixed_nonneg ls Hl) as H1. rewrite <- (cells_fixed v) in H1.
  pose proof (vec_size_nonneg (heaps (map (member_cell v) ls))). lia.
Qed.
End Members.

(** ** Structs and tuples *)
Section Reflected.
Context {T : Type} (dwnc : bool) (header_size : nat) (dflt : T) (ls : list (lmember T)) (Hls : Forall member_ok ls).
Abbreviation ms := (map lm ls).
Definition present (v : T) : list (lmember T) := take (num_present v ms) ls.
Lemma present_members v : map lm (present v) = take (num_present v ms) ms.
Proof. unfold present. generalize (num_present v ms). intros k. apply fmap_take. Qed.
Lemma present_fixed v : members_fixed_size (map lm (present v)) <= members_fixed_size ms.
Proof.
  unfold present. rewrite <- (take_drop (num_present v ms) ls) at 3. unfold members_fixed_size. rewrite map_app, fold_right_app.
  assert (H : 0 <= fold_right (fun m n => m_fixed m + n) 0 (map lm (drop (num_present v ms) ls))) by (apply members_fixed_nonneg; now apply Forall_drop).
  revert H. generalize (fold_right (fun m n => m_fixed m + n) 0 (map lm (drop (num_present v ms) ls))). intros z Hz.
  induction (map lm (take (num_present v ms) ls)) as [|m l IH]; cbn [fold_right]; lia.
Qed.

Definition inline_enc (v : T) : list Z := concat (map (fun l => enc (lm_layout l) (m_get (lm l) v)) ls).
Definition region_enc (header : Z -> list Z) (v : T) (shown : list (lmember T)) : list Z :=
  header (members_fixed_size (map lm shown)) ++ region (map (member_cell v) shown).
Definition struct_enc (v : T) : list Z :=
  if negb (struct_variable dwnc ms) then inline_enc v
  else region_enc (struct_header dwnc header_size) v (if all_members_present dwnc ms then ls else present v).
Definition struct_layout : layout T :=
  base_layout size_bytes (struct_variable dwnc ms) false dflt dflt never never_at (struct_pack dwnc header_size ms) (struct_unpack size_bytes dwnc header_size ms)
    (if struct_variable dwnc ms then sz else members_fixed_size ms) None (struct_packed_size dwnc header_size ms)
    (fun v => if struct_variable dwnc ms then struct_packed_size dwnc header_size ms v else 0) (fun v => Forall (member_wf v) ls) struct_enc.

Lemma struct_inline : struct_variable dwnc ms = false -> Forall (fun l => is_variable_size (m_packable (lm l)) = false) ls.
Proof.
  unfold struct_variable. rewrite orb_false_iff. intros [_ H]. clear Hls. induction ls as [|l l' IH]; constructor; cbn in H; apply orb_false_iff in H as [H1 H2]; auto.
Qed.
Lemma inline_size v : struct_variable dwnc ms = false -> Forall (member_wf v) ls -> vec_size (inline_enc v) = members_fixed_size ms.
Proof.
  intros Hv%struct_inline Hw. unfold inline_enc, members_fixed_size. induction ls as [|l l' IH]; [reflexivity|]. inversion Hls; inversion Hv; inversion Hw; subst.
  cbn [map concat fold_right]. rewrite vec_size_app, IH by assumption. f_equal. unfold m_fixed. rewrite <- (po_slot _ _ _ ltac:(eassumption) (m_get (lm l) v) 0) by assumption.
  f_equal. symmetry. eapply po_inline; eassumption.
Qed.
Lemma inline_pack_ok v : Forall (member_wf v) ls -> packs (inline_enc v) (fun S H => each (fun m => pack (m_packable m) (m_get m v)) ms).
Proof.
  intros Hw. unfold inline_enc. induction ls as [|l l' IH]; [apply packs_nil|]. inversion Hls; inversion Hw; subst. cbn [map each concat].
  apply (packs_app _ _ (fun S H => pack (m_packable (lm l)) (m_get (lm l) v)) (fun S H => each (fun m => pack (m_packable m) (m_get m v)) (map lm l')));
    [eapply po_pack; eassumption|apply IH; assumption].
Qed.
Lemma struct_pack_ok v : members_fixed_size ms < 2 ^ 32 -> Forall (member_wf v) ls -> packs (struct_enc v) (fun S H => struct_pack dwnc header_size ms S H v).
Proof.
  intros Hsm Hw. unfold struct_enc, struct_pack. destruct (struct_variable dwnc ms); cbn [negb]; [|now apply inline_pack_ok].
  destruct (all_members_present dwnc ms); [now apply members_pack_ok|]. rewrite <- present_members.
  pose proof (present_fixed v). rewrite wrap_small; [|split; [apply members_fixed_nonneg; now apply Forall_take|lia]].
  apply members_pack_ok; now apply Forall_take.
Qed.
Lemma struct_header_size n : vec_size (struct_header dwnc header_size n) = if dwnc then 0 else Z.of_nat header_size.
Proof. unfold struct_header. destruct dwnc; [reflexivity|apply to_le_size]. Qed.
Lemma struct_size_ok v : Forall (member_wf v) ls -> vec_size (struct_enc v) < 2 ^ 32 -> struct_packed_size dwnc header_size ms v = vec_size (struct_enc v).
Proof.
  intros Hw. unfold struct_enc, struct_packed_size. destruct (struct_variable dwnc ms) eqn:Ev; cbn [negb]; [|intros _; symmetry; now apply inline_size].
  destruct (all_members_present dwnc ms) eqn:Ea; unfold region_enc; rewrite vec_size_app, struct_header_size; intros Hs.
  - pose proof (vec_size_nonneg (region (map (member_cell v) ls))). destruct dwnc; rewrite members_size_ok by (auto; lia); apply wrap_small; split; lia.
  - destruct dwnc; [discriminate|]. pose proof (vec_size_nonneg (region (map (member_cell v) (present v)))). rewrite <- present_members.
    rewrite members_size_ok by (try (apply Forall_take; assumption); lia). apply wrap_small. split; lia.
Qed.
Lemma struct_packs : members_fixed_size ms < 2 ^ 32 -> packs_ok (struct_impl size_bytes dwnc header_size dflt ms) struct_layout.
Proof.
  intros Hsm. pose proof (members_fixed_nonneg ls Hls). apply base_packs_ok; auto.
  - destruct (struct_variable dwnc ms); lia.
  - now intros ->.
  - intros Ev v Hw. rewrite Ev. unfold struct_enc. rewrite Ev. cbn [negb]. now apply inline_size.
  - intros v Hw. now apply struct_pack_ok.
  - exact struct_size_ok.
  - intros v Hw. cbn [heap base_layout]. destruct (struct_variable dwnc ms) eqn:Ev; [|reflexivity]. apply struct_size_ok. exact Hw.
Qed.

Definition tuple_enc (v : T) : list Z := region_enc (to_le 2) v (present v).
Definition tuple_layout : layout T :=
  base_layout size_bytes true false dflt dflt never never_at (tuple_pack ms) (tuple_unpack size_bytes ms) sz None
    (base_packed_size (tuple_pack ms)) (base_variable_packed_size true never (tuple_pack ms)) (fun v => Forall (member_wf v) ls) tuple_enc.
Lemma tuple_pack_ok : members_fixed_size ms < 2 ^ 32 -> forall v, Forall (member_wf v) ls -> packs (tuple_enc v) (fun S H => tuple_pack ms S H v).
Proof.
  intros Hsm v Hw. unfold tuple_enc, tuple_pack. rewrite <- present_members. pose proof (present_fixed v).
  rewrite wrap_small; [|split; [apply members_fixed_nonneg; now apply Forall_take|lia]]. apply members_pack_ok; now apply Forall_take.
Qed.
Lemma tuple_packs : members_fixed_size ms < 2 ^ 32 -> packs_ok (tuple_impl size_bytes dflt ms) tuple_layout.
Proof.
  intros Hsm. apply base_packs_ok; auto; try discriminate; [lia|now apply tuple_pack_ok| |].
  - intros v Hv Hs. exact (base_size_ok _ _ _ v (tuple_pack_ok Hsm) Hv Hs).
  - intros v Hv Hs. exact (base_vsize_ok size_bytes _ _ _ _ _ _ _ _ _ _ _ _ _ _ v (tuple_pack_ok Hsm) Hv Hs).
Qed.
End Reflected.

(** ** Variants *)
Record lalternative (T : Type) := LAlternative { la : alternative T; la_layout : layout (a_type la) }.
#[global] Arguments LAlternative {T} la la_layout.
#[global] Arguments la {T} l : rename.
#[global] Arguments la_layout {T} l : rename.
Section Variant.
Context {T : Type} (dflt : T) (las : list (lalternative T)) (Hlas : Forall (fun l => packs_ok (a_packable (la l)) (la_layout l)) las).
Fixpoint alt_wf (l : list (lalternative T)) (v : T) : Prop :=
  match l with [] => False | a :: l => match a_out (la a) v with Some x => wf (la_layout a) x | None => alt_wf l v end end.
Fixpoint alt_enc (l : list (lalternative T)) (v : T) : list Z :=
  match l with [] => [] | a :: l => match a_out (la a) v with Some x => enc (la_layout a) x | None => alt_enc l v end end.
Definition variant_enc (v : T) : list Z :=
  wrap 8 (Z.of_nat (variant_index (map la las) v)) :: to_le size_bytes (vec_size (alt_enc las v)) ++ alt_enc las v.
Definition variant_layout : layout T :=
  base_layout size_bytes true false dflt dflt never never_at (variant_pack size_bytes (map la las)) (variant_unpack size_bytes (map la las)) sz None
    (base_packed_size (variant_pack size_bytes (map la las))) (base_variable_packed_size true never (variant_pack size_bytes (map la las)))
    (fun v => alt_wf las v /\ vec_size (alt_enc las v) < limit) variant_enc.
Lemma visit_ok v : alt_wf las v -> packs (alt_enc las v) (fun S H => @variant_visit T S H (map la las) v).
Proof.
  induction las as [|a l IH]; [contradiction|]. inversion Hlas; subst. cbn [alt_wf alt_enc map variant_visit]. intros Hw.
  destruct (a_out (la a) v) as [x|]; [eapply po_pack; eassumption|auto].
Qed.
Lemma variant_pack_ok v : wf variant_layout v -> packs (variant_enc v) (fun S H => variant_pack size_bytes (map la las) S H v).
Proof.
  intros [Hw Hl] S H HS s Hf Hws. unfold variant_enc in *. set (tag := wrap 8 _) in *. change (tag :: ?l) with ([tag] ++ l) in *.
  assert (Hp : packs ([tag] ++ to_le size_bytes 0 ++ alt_enc las v)
    (fun S H => st_write [tag] ;;; st_write (to_le size_bytes 0) ;;; @variant_visit T S H (map la las) v)).
  { apply (packs_app _ _ (fun S H => st_write [tag])); [apply packs_write|]. apply (packs_app _ _ (fun S H => st_write _)); [apply packs_write|]. now apply visit_ok. }
  pose proof (vec_size_nonneg (alt_enc las v)) as Hnn. pose proof (ss_nonneg _ _ Hf) as H0. rewrite !vec_size_app, to_le_size in Hf, Hws. change (vec_size [tag]) with 1 in *.
  destruct (packs_write [tag] S H HS s) as (s1 & E1 & A1); [eapply ss_less; [|exact Hf]; change (vec_size [tag]) with 1; lia|change (vec_size [tag]) with 1; lia|].
  pose proof (ss_written _ _ _ A1) as W1. change (vec_size [tag]) with 1 in W1.
  assert (F1 : fits s1 (sz + vec_size (alt_enc las v))) by exact (ss_fits _ _ _ _ A1 Hf).
  destruct (packs_write (to_le size_bytes 0) S H HS s1) as (s2 & E2 & A2); [rewrite to_le_size; eapply ss_less; [|exact F1]; lia|rewrite to_le_size; lia|].
  pose proof (ss_written _ _ _ A2) as W2. rewrite to_le_size in W2.
  assert (F2 : fits s2 (vec_size (alt_enc las v))) by (apply (ss_fits _ _ _ _ A2); now rewrite to_le_size).
  destruct (visit_ok v Hw S H HS s2 F2) as (s3 & E3 & A3); [lia|]. pose proof (ss_written _ _ _ A3) as W3.
  pose proof (ss_app _ _ _ _ _ A1 (ss_app _ _ _ _ _ A2 A3)) as A4.
  destruct (ss_rewrite s [tag] (to_le size_bytes 0) (alt_enc las v) s3 (to_le size_bytes (vec_size (alt_enc las v))) A4) as (s4 & E4 & A5); [now rewrite !to_le_length|].
  exists s4. split; [|exact A5]. unfold variant_pack. fold tag. unfold bind, gets. rewrite E1, E2, E3.
  rewrite (wrap_small 32 (st_written s1)), (wrap_small 32 (st_written s2)) by (split; lia).
  assert (Ed : st_written s3 - st_written s2 = vec_size (alt_enc las v)) by (rewrite W3; ring).
  rewrite Ed, (wrap_small 64 (vec_size (alt_enc las v))), W1 by (split; lia). exact E4.
Qed.
Lemma variant_packs : packs_ok (variant_impl size_bytes dflt (map la las)) variant_layout.
Proof.
  apply base_packs_ok; auto; try discriminate; [lia|exact variant_pack_ok| |].
  - intros v Hv Hs. exact (base_size_ok _ _ _ v variant_pack_ok Hv Hs).
  - intros v Hv Hs. exact (base_vsize_ok size_bytes _ _ _ _ _ _ _ _ _ _ _ _ _ _ v variant_pack_ok Hv Hs).
Qed.
End Variant.
End Format.
