(* ===== verification/FracpackUnpack.v ===== *)
(** * What [unpack] reads

    Every codec of [Fracpack] unpacks its layout to the value it came from; on
    arbitrary bytes it stays within the buffer, and what it accepts without
    unknown fields is the layout of the value it returns. *)
From Stdlib Require Import ZArith Lia Bool String.
From stdpp Require Import base list numbers decidable option.
From S2P Require Import Prelude Fracpack FracpackSpec FracpackPack.

(** ** Bytes in the buffer *)
Definition holds (src : list Z) (q : Z) (bs : list Z) : Prop :=
  0 <= q /\ q + vec_size bs <= vec_size src /\ take (length bs) (drop (Z.to_nat q) src) = bs.
Lemma holds_nil src q : 0 <= q <= vec_size src -> holds src q [].
Proof. intros H. split; [lia|]. split; [unfold vec_size in *; cbn [length]; lia|reflexivity]. Qed.
Lemma holds_app src q a b : holds src q (a ++ b) <-> holds src q a /\ holds src (q + vec_size a) b.
Proof.
  unfold holds, vec_size. rewrite length_app, Nat2Z.inj_add. split.
  - intros (H0 & Hl & E). rewrite <- (take_drop (length a) (drop (Z.to_nat q) src)) in E. rewrite drop_drop in E.
    rewrite take_app_ge in E by (rewrite length_take, length_drop; lia). rewrite length_take, length_drop, Nat.min_l in E by lia.
    apply app_inj_1 in E as [E1 E2]; [|rewrite length_take, length_drop; lia]. split; [split; [lia|split; [lia|exact E1]]|].
    split; [lia|]. split; [lia|]. replace (Z.to_nat (q + Z.of_nat (length a))) with (Z.to_nat q + length a)%nat by lia.
    replace (length a + length b - length a)%nat with (length b) in E2 by lia. exact E2.
  - intros [(H0 & Hl & E1) (_ & Hl' & E2)]. split; [lia|]. split; [lia|].
    replace (Z.to_nat (q + Z.of_nat (length a))) with (Z.to_nat q + length a)%nat in E2 by lia.
    rewrite <- (take_drop (length a) (drop (Z.to_nat q) src)), drop_drop, E1. rewrite take_app_add, E2. reflexivity.
Qed.
Lemma holds_self bs : holds bs 0 bs.
Proof. split; [lia|]. split; [lia|]. cbn [Z.to_nat drop]. now rewrite take_ge. Qed.
Lemma holds_read {S} src q bs (s : S) : holds src q bs -> read_bytes src q (length bs) s = Ok bs s.
Proof.
  intros (H0 & Hl & E). unfold read_bytes, vec_size in *. destruct (Z.leb_spec 0 q); [|lia].
  destruct (Z.leb_spec (q + Z.of_nat (length bs)) (Z.of_nat (length src))); [|lia]. cbn [andb]. now rewrite E.
Qed.
Lemma read_holds {S} src q n (s : S) : 0 <= q -> q + Z.of_nat n <= vec_size src ->
  exists bs, read_bytes src q n s = Ok bs s /\ holds src q bs /\ length bs = n.
Proof.
  intros H0 Hl. unfold read_bytes. destruct (Z.leb_spec 0 q); [|lia]. destruct (Z.leb_spec (q + Z.of_nat n) (vec_size src)); [|lia]. cbn [andb].
  eexists. split; [reflexivity|]. unfold vec_size in *. assert (E : length (take n (drop (Z.to_nat q) src)) = n) by (rewrite length_take, length_drop; lia).
  split; [|exact E]. split; [lia|]. unfold vec_size. rewrite E. split; [lia|reflexivity].
Qed.
Lemma holds_bytes src q bs : Forall (in_u 8) src -> holds src q bs -> Forall (in_u 8) bs.
Proof. intros Hs (_ & _ & <-). now apply Forall_take, Forall_drop. Qed.

(** Operations that end without an exception or undefined behaviour. *)
Definition runs {S A} (m : M S A) (Q : A -> S -> Prop) (s : S) : Prop := wp m Q (fun _ _ => False) s.
Lemma runs_bind {S A B} (m : M S A) (k : A -> M S B) Q s : runs m (fun a => runs (k a) Q) s -> runs (bind m k) Q s.
Proof. apply wp_bind. Qed.
Lemma runs_mono {S A} (m : M S A) (Q Q' : A -> S -> Prop) s : (forall a s', Q a s' -> Q' a s') -> runs m Q s -> runs m Q' s.
Proof. intros H. apply wp_mono; auto. Qed.
Lemma runs_ret {S A} (a : A) (Q : A -> S -> Prop) s : Q a s -> runs (ret a) Q s.
Proof. auto. Qed.

(** ** Numbers *)
Lemma numeric_complete skip n z src ef q : holds src q (to_le n z) -> q + Z.of_nat n <= ef -> ef <= vec_size src -> vec_size src < 2 ^ 32 ->
  unpack_numeric skip n src ef q = Ok (Some (wrap (8 * Z.of_nat n) z)) (q + Z.of_nat n).
Proof.
  intros Hh Hq He Hs. pose proof Hh as (H0 & _ & _). unfold unpack_numeric, bind, get. rewrite (wrap_small 32 (ef - q)) by (split; lia).
  destruct (Z.ltb_spec (ef - q) (Z.of_nat n)); [lia|]. rewrite andb_false_r. rewrite <- (to_le_length n z) at 1. rewrite (holds_read _ _ _ _ Hh).
  unfold modify, ret. rewrite of_to_le, (wrap_small 32 (q + Z.of_nat n)) by (split; lia). reflexivity.
Qed.
Lemma unpack_numeric_sound skip n src ef q : 0 <= q <= ef -> ef <= vec_size src -> vec_size src < 2 ^ 32 -> (skip = true -> q + Z.of_nat n <= ef) ->
  runs (unpack_numeric skip n src ef)
    (fun o q' => match o with
                 | Some z => q' = q + Z.of_nat n /\ q' <= ef /\ exists bs, holds src q bs /\ length bs = n /\ z = of_le bs
                 | None => q' = q end) q.
Proof.
  intros Hq He Hs Hskip. unfold runs, wp, unpack_numeric, bind, get. rewrite (wrap_small 32 (ef - q)) by (split; lia).
  destruct (Z.ltb_spec (ef - q) (Z.of_nat n)) as [Hlt|Hge].
  - destruct skip; [specialize (Hskip eq_refl); lia|reflexivity].
  - rewrite andb_false_r. destruct (read_holds src q n q ltac:(lia) ltac:(lia)) as (bs & -> & Hh & Hl). unfold modify, ret.
    rewrite (wrap_small 32 (q + Z.of_nat n)) by (split; lia). split; [reflexivity|]. split; [lia|]. eauto.
Qed.

Section Format.
Context (size_bytes : nat) (Hfmt : frac_format size_bytes).
Abbreviation sz := (Z.of_nat size_bytes).
Abbreviation limit := (limit size_bytes).
Abbreviation vslot := (vslot size_bytes).

(** ** The interface of readers *)
Record reads_ok {A} (p : packable A) (L : layout A) : Prop := {
  ro_unpack : forall a src en u k q, wf L a -> vec_size (enc L a) < limit -> holds src q (enc L a) -> q + vec_size (enc L a) <= en ->
    en <= vec_size src -> vec_size src < 2 ^ 32 ->
    unpack p (default_value p) src en (Cursor u k q) = Ok (Some a) (Cursor u true (q + vec_size (enc L a)));
  ro_variable : forall a skip src ef eh u fp hp, wf L a -> vec_size (vheap p L a) < limit -> holds src fp (vslot p a (hp - fp)) -> holds src hp (vheap p L a) ->
    fp + sz <= ef -> ef <= hp -> hp - fp < limit -> hp + vec_size (vheap p L a) <= eh -> eh <= vec_size src -> vec_size src < 2 ^ 32 ->
    embedded_variable_unpack p skip (default_value p) src ef eh (ECursor u true fp hp) =
    Ok (Some a) (ECursor u true (fp + sz) (hp + vec_size (vheap p L a)));
  ro_embedded : forall a skip src ef eh u fp hp, wf L a -> vec_size (heap L a) < limit -> holds src fp (slot L a (hp - fp)) -> holds src hp (heap L a) ->
    fp + fixed_size p <= ef -> ef <= hp -> hp - fp < limit -> hp + vec_size (heap L a) <= eh -> eh <= vec_size src -> vec_size src < 2 ^ 32 ->
    vec_size (slot L a (hp - fp)) < limit ->
    embedded_unpack p skip (default_value p) src ef eh (ECursor u true fp hp) =
    Ok (Some a) (ECursor u true (fp + fixed_size p) (hp + vec_size (heap L a)));
  ro_memcpy : forall f, memcpy_value p = Some f -> is_variable_size p = false /\ forall a, wf L a -> f (enc L a) = a;
  ro_has_value : forall S a src en q d (s : S), is_optional p = true -> wf L a -> holds src q (slot L a d) -> fixed_size p <= d < limit ->
    q + fixed_size p <= en -> en <= vec_size src -> vec_size src < 2 ^ 32 -> has_value_at p src q en s = Ok (has_value p a) s;
  ro_absent : forall a, is_optional p = true -> has_value p a = false -> a = default_value p;
  ro_present : forall a, is_optional p = false -> has_value p a = true }.

(** Behind a read from [c] to [c']: within the bounds, and the encoding of the
    result if all of it is known. *)
Definition unpack_post {A} (p : packable A) (L : layout A) (v : A) (src : list Z) (en : Z) (c : cursor) (o : option A) (c' : cursor) : Prop :=
  pos c <= pos c' <= en /\ (is_variable_size p = false -> pos c' <= pos c + fixed_size p) /\ (has_unknown c = true -> has_unknown c' = true) /\
  forall a, o = Some a -> v = default_value p -> has_unknown c' = false ->
    known_end c' = true /\ wf L a /\ holds src (pos c) (enc L a) /\ pos c' = pos c + vec_size (enc L a).
Definition embedded_post {A} (width : Z) (dflt : A) (W : A -> Prop) (sl : A -> Z -> list Z) (hp : A -> list Z)
    (v : A) (src : list Z) (ef eh : Z) (e : ecursor) (o : option A) (e' : ecursor) : Prop :=
  fixed_pos e <= fixed_pos e' <= fixed_pos e + width /\ fixed_pos e' <= ef /\ heap_pos e <= heap_pos e' <= eh /\
  (e_unknown e = true -> e_unknown e' = true) /\
  forall a, o = Some a -> v = dflt -> known_pos e = true -> e_unknown e' = false ->
    known_pos e' = true /\ W a /\ holds src (fixed_pos e) (sl a (heap_pos e - fixed_pos e)) /\ holds src (heap_pos e) (hp a) /\
    fixed_pos e' = fixed_pos e + width /\ heap_pos e' = heap_pos e + vec_size (hp a).
Record sound_ok {A} (p : packable A) (L : layout A) : Prop := {
  so_unpack : forall v src en c, 0 <= pos c <= en -> en <= vec_size src -> vec_size src < 2 ^ 32 -> Forall (in_u 8) src ->
    runs (unpack p v src en) (unpack_post p L v src en c) c;
  so_variable : forall v skip src ef eh e, 0 <= fixed_pos e <= ef -> ef <= heap_pos e <= eh -> eh <= vec_size src -> vec_size src < 2 ^ 32 -> Forall (in_u 8) src ->
    (skip = true -> fixed_pos e + sz <= ef) ->
    runs (embedded_variable_unpack p skip v src ef eh) (embedded_post sz (default_value p) (wf L) (vslot p) (vheap p L) v src ef eh e) e;
  so_embedded : forall v skip src ef eh e, 0 <= fixed_pos e <= ef -> ef <= heap_pos e <= eh -> eh <= vec_size src -> vec_size src < 2 ^ 32 -> Forall (in_u 8) src ->
    (skip = true -> fixed_pos e + fixed_size p <= ef) ->
    runs (embedded_unpack p skip v src ef eh) (embedded_post (fixed_size p) (default_value p) (wf L) (slot L) (heap L) v src ef eh e) e;
  so_inline : forall v skip src ef eh, is_variable_size p = false -> embedded_unpack p skip v src ef eh = at_fixed (unpack p v src ef);
  so_memcpy : forall f bs, memcpy_value p = Some f -> Forall (in_u 8) bs -> vec_size bs = fixed_size p -> wf L (f bs) /\ enc L (f bs) = bs;
  so_has_value : forall S src en q (s : S), 0 <= q <= en -> en <= vec_size src -> vec_size src < 2 ^ 32 -> exists b, has_value_at p src q en s = Ok b s;
  (** The slot tells whether the result has a value. *)
  so_seen : forall S (s : S) v skip src ef eh e, 0 <= fixed_pos e <= ef -> ef <= heap_pos e <= eh -> eh <= vec_size src -> vec_size src < 2 ^ 32 -> Forall (in_u 8) src ->
    (skip = true -> fixed_pos e + fixed_size p <= ef) ->
    runs (embedded_unpack p skip v src ef eh) (fun o _ => forall a, o = Some a -> has_value_at p src (fixed_pos e) ef s = Ok (has_value p a) s) e;
  so_absent : is_optional p = true -> wf L (default_value p) /\ has_value p (default_value p) = false }.

Lemma slot_runs skip src ef u k fp hp (Q : option Z -> ecursor -> Prop) : 0 <= fp <= ef -> ef <= vec_size src -> vec_size src < 2 ^ 32 -> Forall (in_u 8) src ->
  (skip = true -> fp + sz <= ef) -> Q None (ECursor u k fp hp) ->
  (forall z, 0 <= z < limit -> holds src fp (to_le size_bytes z) -> fp + sz <= ef -> Q (Some z) (ECursor u k (fp + sz) hp)) ->
  runs (on_fixed (unpack_numeric skip size_bytes src ef)) Q (ECursor u k fp hp).
Proof.
  intros Hq He Hs Hb Hskip Hnone Hsome. pose proof (unpack_numeric_sound skip size_bytes src ef fp Hq He Hs Hskip) as Hn. unfold runs, wp, on_fixed, zoom in *. cbn [fixed_pos].
  destruct (unpack_numeric skip size_bytes src ef fp) as [[z|] q'|x q'|]; try contradiction; [|now subst].
  destruct Hn as (-> & Hq' & bs & Hh & Hl & ->). pose proof (holds_bytes _ _ _ Hb Hh) as Hbb. apply Hsome; auto; [unfold FracpackSpec.limit; rewrite <- Hl; now apply of_le_range|].
  rewrite <- Hl at 1. now rewrite to_of_le.
Qed.

(** ** [base_packable_impl] *)
Section Base.
Context {A : Type} (variable zero_offset : bool) (dflt : A) (empty : A -> bool)
        (empty_src : forall S, list Z -> Z -> Z -> M S bool)
        (pk : forall S, Stream S -> A -> M S unit) (up : A -> list Z -> Z -> M cursor (option A))
        (fixed : Z) (mem : option (list Z -> A)) (size vsize : A -> Z).
Context (W : A -> Prop) (E : A -> list Z).
Abbreviation p := (base_impl size_bytes variable zero_offset dflt dflt empty empty_src pk up fixed mem size vsize).
Abbreviation L := (base_layout size_bytes variable zero_offset dflt dflt empty empty_src pk up fixed mem size vsize W E).
(** The offset 0 stands for the default value. *)
Context (Hempty : forall a, W a -> empty a = true -> zero_offset = true /\ a = dflt).
Context (Hfix : variable = false -> forall a, W a -> vec_size (E a) = fixed).
Context (Hvar : variable = true -> fixed = sz).

Section Complete.
Context (Hzero : forall S a src q en (s : S), W a -> empty a = false -> zero_offset = true -> vec_size (E a) < limit -> holds src q (E a) -> q + vec_size (E a) <= en ->
  en <= vec_size src -> vec_size src < 2 ^ 32 -> empty_src S src q en s = Ok false s).
Context (Hmem : forall f, mem = Some f -> variable = false /\ forall a, W a -> f (E a) = a).
Context (Hup : forall a src en u k q, W a -> vec_size (E a) < limit -> holds src q (E a) -> q + vec_size (E a) <= en -> en <= vec_size src -> vec_size src < 2 ^ 32 ->
  up dflt src en (Cursor u k q) = Ok (Some a) (Cursor u true (q + vec_size (E a)))).

Lemma base_variable_complete a skip src ef eh u fp hp : W a -> vec_size (vheap p L a) < limit -> holds src fp (vslot p a (hp - fp)) -> holds src hp (vheap p L a) ->
  fp + sz <= ef -> ef <= hp -> hp - fp < limit -> hp + vec_size (vheap p L a) <= eh -> eh <= vec_size src -> vec_size src < 2 ^ 32 ->
  base_variable_unpack size_bytes zero_offset dflt empty_src up skip dflt src ef eh (ECursor u true fp hp) =
  Ok (Some a) (ECursor u true (fp + sz) (hp + vec_size (vheap p L a))).
Proof.
  intros Ha Hl Hs Hh Hef Hhp Hd Heh Hsrc H32. pose proof Hs as (H0 & _ & _). pose proof (sz_pos _ Hfmt). unfold base_variable_unpack.
  unfold vheap, vslot in *. cbn [is_empty_container base_impl enc base_layout] in *.
  unfold bind at 1. unfold gets. cbn [fixed_pos]. unfold bind at 1. unfold on_fixed, zoom. cbn [fixed_pos].
  assert (Hhz : vec_size (if empty a then [] else E a) >= 0) by (pose proof (vec_size_nonneg (if empty a then [] else E a)); lia).
  rewrite (numeric_complete skip size_bytes _ src ef fp Hs) by lia. cbn [set_field]. cbn. rewrite wrap_small by (destruct (empty a); unfold in_u; fold limit; lia).
  destruct (empty a) eqn:Ee.
  - destruct (Hempty a Ha Ee) as [-> ->]. cbn. rewrite Z.add_0_r. reflexivity.
  - destruct (Z.eqb_spec (hp - fp) 0); [lia|]. rewrite andb_false_r. unfold bind at 1, get. cbn [heap_pos known_pos].
    replace (fp + (hp - fp)) with hp by lia. rewrite (wrap_small 32 hp) by (split; lia).
    destruct (Z.ltb_spec (hp - fp) sz); [lia|]. destruct (Z.ltb_spec hp hp); [lia|]. destruct (Z.ltb_spec eh hp); [lia|]. cbn [orb].
    rewrite Z.eqb_refl. cbn [negb andb].
    assert (Hz : (if zero_offset then empty_src ecursor src hp eh else ret false) (ECursor u true (fp + sz) hp) = Ok false (ECursor u true (fp + sz) hp)).
    { destruct zero_offset eqn:Ez; [|reflexivity]. apply (Hzero _ a); auto. }
    unfold bind at 1. rewrite Hz. unfold bind, modify, at_heap, zoom. cbn [e_unknown known_pos heap_pos].
    cbn. rewrite (Hup a) by assumption. reflexivity.
Qed.
Lemma base_reads : reads_ok p L.
Proof.
  split; cbn [base_impl unpack embedded_variable_unpack embedded_unpack memcpy_value is_variable_size is_optional default_value fixed_size]; auto; try discriminate.
  - intros a skip src ef eh u fp hp. exact (base_variable_complete a skip src ef eh u fp hp).
  - intros a skip src ef eh u fp hp Ha Hl Hs Hh Hef Hhp Hd Heh Hsrc H32 Hsl. unfold base_unpack. cbn [slot heap base_layout wf] in *.
    destruct variable eqn:Ev.
    + rewrite (Hvar eq_refl) in *. now apply base_variable_complete.
    + rewrite <- (Hfix eq_refl a Ha) in Hef |- *. unfold at_fixed, zoom. cbn [e_unknown known_pos fixed_pos]. pose proof Hh as (_ & Hh1 & _).
      change (vec_size []) with 0 in *. rewrite (Hup a) by (auto; lia). cbn. now rewrite Z.add_0_r.
Qed.

End Complete.

Section Sound.
Context (Hcan : forall v src en c, 0 <= pos c <= en -> en <= vec_size src -> vec_size src < 2 ^ 32 -> Forall (in_u 8) src -> runs (up v src en) (unpack_post p L v src en c) c).
Context (Hzsafe : forall S src q en (s : S), zero_offset = true -> 0 <= q <= en -> en <= vec_size src -> vec_size src < 2 ^ 32 ->
  exists b, empty_src S src q en s = Ok b s /\ forall a, b = false -> W a -> holds src q (E a) -> q + vec_size (E a) <= en -> empty a = false).
Context (Hzdflt : zero_offset = true -> W dflt /\ empty dflt = true).
Context (Hmemc : forall f bs, mem = Some f -> Forall (in_u 8) bs -> vec_size bs = fixed -> W (f bs) /\ E (f bs) = bs).

Lemma base_variable_sound v skip src ef eh e : 0 <= fixed_pos e <= ef -> ef <= heap_pos e <= eh -> eh <= vec_size src -> vec_size src < 2 ^ 32 -> Forall (in_u 8) src ->
  (skip = true -> fixed_pos e + sz <= ef) ->
  runs (base_variable_unpack size_bytes zero_offset dflt empty_src up skip v src ef eh) (embedded_post sz dflt W (vslot p) (vheap p L) v src ef eh e) e.
Proof.
  intros Hf Hh Hsrc H32 Hb Hskip. destruct e as [u k fp hp]. cbn [fixed_pos heap_pos] in *. unfold base_variable_unpack. pose proof (sz_pos _ Hfmt).
  apply runs_bind. unfold gets, runs at 1, wp. cbn [fixed_pos]. apply runs_bind. pose proof (limit_32 _ Hfmt).
  apply slot_runs; auto; [lia|apply runs_ret; split; [cbn; lia|]; split; [cbn; lia|]; split; [cbn; lia|]; split; [auto|discriminate]|].
  intros off Hr Hbs Hq.
  destruct (zero_offset && (off =? 0)) eqn:Ez.
  - apply andb_true_iff in Ez as [Ez Eo]. apply Z.eqb_eq in Eo. subst off. destruct (Hzdflt Ez) as [Wd Ed]. apply runs_bind. unfold runs, wp, modify, ret.
    split; [cbn; lia|]. split; [cbn; lia|]. split; [cbn; lia|]. split; [auto|]. intros a [= <-] _ _ Hu. cbn in Hu |- *. unfold vslot, vheap. cbn [is_empty_container base_impl]. rewrite Ed.
    split; [reflexivity|]. split; [exact Wd|]. split; [exact Hbs|]. split; [apply holds_nil; lia|]. change (vec_size []) with 0. lia.
  - apply runs_bind. unfold get, runs at 1, wp. cbn [heap_pos known_pos].
    destruct ((off <? sz) || _ || _) eqn:Ec; [apply runs_ret; split; [cbn; lia|]; split; [cbn; lia|]; split; [cbn; lia|]; split; [auto|]; discriminate|].
    rewrite !orb_false_iff, !Z.ltb_ge in Ec. destruct Ec as [[Ec1 Ec2] Ec3].
    assert (Hnw : wrap 32 (fp + off) = fp + off).
    { destruct (Z.lt_ge_cases (fp + off) (2 ^ 32)); [apply wrap_small; split; lia|]. exfalso. revert Ec2. unfold wrap.
      rewrite <- (Z.mod_add _ (-1)) by lia. rewrite Z.mod_small by lia. lia. }
    rewrite Hnw in *. destruct (negb (fp + off =? hp) && k) eqn:Ek; [apply runs_ret; split; [cbn; lia|]; split; [cbn; lia|]; split; [cbn; lia|]; split; [auto|]; discriminate|].
    apply runs_bind.
    assert (Hz : exists b, (if zero_offset then empty_src ecursor src (fp + off) eh else ret false) (ECursor u k (fp + sz) hp) = Ok b (ECursor u k (fp + sz) hp) /\
      forall a, b = false -> W a -> holds src (fp + off) (E a) -> fp + off + vec_size (E a) <= eh -> empty a = false).
    { destruct zero_offset eqn:Ezo; [apply Hzsafe; auto; lia|]. exists false. split; [reflexivity|]. intros a _ Ha _ _. destruct (empty a) eqn:Ee; [|reflexivity].
      now destruct (Hempty a Ha Ee). }
    destruct Hz as (b & Hz & Hne). unfold runs at 1, wp. rewrite Hz. destruct b; [apply runs_ret; split; [cbn; lia|]; split; [cbn; lia|]; split; [cbn; lia|]; split; [auto|]; discriminate|].
    apply runs_bind. unfold runs at 1, wp, modify. unfold runs, wp, at_heap, zoom. cbn.
    specialize (Hcan v src eh (Cursor u k (fp + off)) ltac:(cbn; lia) Hsrc H32 Hb). unfold runs, wp in Hcan.
    destruct (up v src eh (Cursor u k (fp + off))) as [o c|ex c|]; [|contradiction|contradiction]. destruct Hcan as ([Hp1 Hp2] & _ & Hcu & Hc). cbn [pos has_unknown] in *.
    split; [cbn; lia|]. split; [cbn; lia|]. split; [cbn; lia|]. split; [exact Hcu|]. cbn. intros a -> -> -> Hu. destruct (Hc a eq_refl eq_refl Hu) as (Hk & Wa & Hha & Hpos).
    cbn [base_layout wf enc] in Wa, Hha, Hpos. rewrite andb_true_r, negb_false_iff, Z.eqb_eq in Ek. subst hp.
    unfold vslot, vheap. cbn [is_empty_container base_impl enc base_layout]. rewrite (Hne a eq_refl Wa Hha ltac:(lia)).
    replace (fp + off - fp) with off by lia. auto 10.
Qed.
Lemma base_embedded_sound v skip src ef eh e : 0 <= fixed_pos e <= ef -> ef <= heap_pos e <= eh -> eh <= vec_size src -> vec_size src < 2 ^ 32 -> Forall (in_u 8) src ->
  (skip = true -> fixed_pos e + fixed <= ef) ->
  runs (base_unpack size_bytes variable zero_offset dflt empty_src up skip v src ef eh) (embedded_post fixed dflt W (slot L) (heap L) v src ef eh e) e.
Proof.
  intros Hf Hh Hsrc H32 Hb Hskip. pose proof (base_variable_sound v skip src ef eh e Hf Hh Hsrc H32 Hb) as Hbv.
  unfold base_unpack. destruct variable eqn:Ev.
  - rewrite (Hvar eq_refl) in *. exact (Hbv Hskip).
  - destruct e as [u k fp hp]. cbn [fixed_pos heap_pos] in *. unfold runs, wp, at_fixed, zoom. cbn [e_unknown known_pos fixed_pos].
    specialize (Hcan v src ef (Cursor u k fp) ltac:(cbn; lia) ltac:(lia) H32 Hb). unfold runs, wp in Hcan.
    destruct (up v src ef (Cursor u k fp)) as [o c|ex c|]; [|contradiction|contradiction]. destruct Hcan as ([Hp1 Hp2] & Hpf & Hcu & Hc). cbn in *. specialize (Hpf eq_refl).
    split; [cbn; lia|]. split; [cbn; lia|]. split; [cbn; lia|]. split; [exact Hcu|]. cbn. intros a -> -> -> Hu. destruct (Hc a eq_refl eq_refl Hu) as (Hk & Wa & Hha & Hpos).
    rewrite (Hfix eq_refl a Wa) in Hpos. split; [exact Hk|]. split; [exact Wa|]. split; [exact Hha|].
    split; [apply holds_nil; lia|]. change (vec_size []) with 0. lia.
Qed.
Lemma base_sound : sound_ok p L.
Proof.
  split; cbn [base_impl unpack embedded_variable_unpack embedded_unpack memcpy_value default_value fixed_size has_value_at]; auto.
  - intros v skip src ef eh e. exact (base_variable_sound v skip src ef eh e).
  - intros v skip src ef eh e. exact (base_embedded_sound v skip src ef eh e).
  - intros v skip src ef eh Hv. unfold base_unpack. cbn [is_variable_size base_impl] in Hv. now rewrite Hv.
  - intros S src en q s _ _ _. now exists true.
  - intros S s v skip src ef eh e Hf Hh Hsrc H32 Hb Hskip. eapply runs_mono; [|apply (base_embedded_sound v skip src ef eh e); auto]. auto.
  - discriminate.
Qed.
End Sound.
End Base.
End Format.
