(* ===== verification/FracpackValues.v ===== *)
(** * Reading numbers, strings, vectors, arrays and optionals

    [reads_ok] and [sound_ok] for the codecs of values and of containers. *)
From Stdlib Require Import ZArith Lia Bool String.
From stdpp Require Import base list numbers decidable option.
From S2P Require Import Prelude Fracpack FracpackSpec FracpackPack FracpackUnpack.

Lemma region_runs {B} fixed heap (m : M ecursor (option B)) Q c :
  runs m (fun o e => Q o (Cursor (e_unknown e) (known_pos e) (match o with Some _ => heap_pos e | None => pos c end))) (ECursor (has_unknown c) (known_end c) fixed heap) ->
  runs (in_region fixed heap m) Q c.
Proof. unfold runs, wp, in_region. now destruct (m _) as [[b|] e|x e|]. Qed.
Lemma heap_runs {B} fixed (m : M ecursor B) Q c :
  runs m (fun o e => Q o (Cursor (e_unknown e) (known_pos e) (heap_pos e))) (ECursor (has_unknown c) (known_end c) fixed (pos c)) -> runs (with_heap fixed m) Q c.
Proof. unfold runs, wp, with_heap, zoom. now destruct (m _) as [o e|x e|]. Qed.
Lemma all_repeat {A} (d : A) n : Forall (fun x => x = d) (repeat d n).
Proof. induction n; cbn; auto. Qed.
(** A read that ends without a value. *)
Lemma unpack_none {A} (p : packable A) L v src en c c' : pos c <= pos c' <= en -> (is_variable_size p = false -> pos c' <= pos c + fixed_size p) ->
  (has_unknown c = true -> has_unknown c' = true) -> unpack_post p L v src en c None c'.
Proof. intros H1 H2 H3. split; [exact H1|]. split; [exact H2|]. split; [exact H3|]. discriminate. Qed.

(** What a value with a number in front is read to. *)
Definition prefix_post {A} (dflt : A) (W : A -> Prop) (E : A -> list Z) (v : A) (src : list Z) (en : Z) (c : cursor) (o : option A) (c' : cursor) : Prop :=
  pos c <= pos c' <= en /\ (has_unknown c = true -> has_unknown c' = true) /\
  forall a, o = Some a -> v = dflt -> has_unknown c' = false -> known_end c' = true /\ W a /\ holds src (pos c) (E a) /\ pos c' = pos c + vec_size (E a).
Lemma prefix_none {A} (dflt : A) W E v src en c c' : pos c <= pos c' <= en -> (has_unknown c = true -> has_unknown c' = true) -> prefix_post dflt W E v src en c None c'.
Proof. intros H1 H2. split; [exact H1|]. split; [exact H2|]. discriminate. Qed.
Lemma prefix_unpacked {A} (p : packable A) L v src en c o c' : is_variable_size p = true -> prefix_post (default_value p) (wf L) (enc L) v src en c o c' -> unpack_post p L v src en c o c'.
Proof. intros Hv (P1 & P2 & P3). split; [exact P1|]. split; [congruence|]. split; [exact P2|exact P3]. Qed.

(** ** Empty containers *)
Lemma container_empty_complete (w : nat) S k src q en (s : S) : holds src q (to_le w k) -> 0 <= k < limit w -> q + Z.of_nat w <= en -> en <= vec_size src -> vec_size src < 2 ^ 32 ->
  container_empty_at w S src q en s = Ok (k =? 0) s.
Proof.
  intros Hh Hk Hq He Hs. unfold container_empty_at. rewrite (numeric_complete false w k) by assumption. now rewrite wrap_small by exact Hk.
Qed.
Lemma container_empty_safe (w : nat) S src q en (s : S) : 0 <= q <= en -> en <= vec_size src -> vec_size src < 2 ^ 32 -> exists b, container_empty_at w S src q en s = Ok b s.
Proof.
  intros Hq He Hs. pose proof (unpack_numeric_sound false w src en q Hq He Hs ltac:(discriminate)) as Hn. unfold runs, wp in Hn. unfold container_empty_at.
  destruct (unpack_numeric false w src en q) as [[z|] q'|x q'|]; try contradiction; eauto.
Qed.

Lemma limit_pos (w : nat) : 0 < limit w.
Proof. unfold limit. apply Z.pow_pos_nonneg; lia. Qed.

Section Format.
Context (size_bytes : nat) (Hfmt : frac_format size_bytes).
Abbreviation sz := (Z.of_nat size_bytes).
Abbreviation limit := (limit size_bytes).
Abbreviation packs_ok := (packs_ok size_bytes).
Abbreviation reads_ok := (reads_ok size_bytes).
Abbreviation sound_ok := (sound_ok size_bytes).

(** ** Numbers in front *)
Lemma header_runs n src en u k q (Q : option Z -> cursor -> Prop) : 0 <= q <= en -> en <= vec_size src -> vec_size src < 2 ^ 32 -> Forall (in_u 8) src ->
  Q None (Cursor u k q) -> (forall z, 0 <= z < 2 ^ (8 * Z.of_nat n) -> holds src q (to_le n z) -> q + Z.of_nat n <= en -> Q (Some z) (Cursor u k (q + Z.of_nat n))) ->
  runs (on_pos (unpack_numeric false n src en)) Q (Cursor u k q).
Proof.
  intros Hq He Hs Hb Hnone Hsome. pose proof (unpack_numeric_sound false n src en q Hq He Hs ltac:(discriminate)) as Hn. unfold runs, wp, on_pos, zoom in *. cbn [pos].
  destruct (unpack_numeric false n src en q) as [[z|] q'|x q'|]; try contradiction; [|now subst].
  destruct Hn as (-> & Hq' & bs & Hh & <- & ->). pose proof (holds_bytes _ _ _ Hb Hh) as Hbb. apply Hsome; auto; [now apply of_le_range|]. now rewrite to_of_le.
Qed.
Lemma wrap_32_sum q z : 0 <= q < 2 ^ 32 -> 0 <= z < 2 ^ 32 -> q <= wrap 32 (q + z) -> wrap 32 (q + z) = q + z.
Proof.
  intros Hq Hz Hle. destruct (Z.lt_ge_cases (q + z) (2 ^ 32)); [apply wrap_small; split; lia|]. exfalso. revert Hle. unfold wrap.
  rewrite <- (Z.mod_add _ (-1)) by lia. rewrite Z.mod_small by lia. lia.
Qed.

(** ** Values that are copied *)
Section Memcpy.
Context {A : Type} (n : nat) (to_bytes : A -> list Z) (of_bytes : list Z -> A) (V : A -> Prop).
Context (Hlen : forall a, V a -> length (to_bytes a) = n).
Context (Hof : forall a, V a -> of_bytes (to_bytes a) = a).
Context (Hto : forall bs, Forall (in_u 8) bs -> length bs = n -> V (of_bytes bs) /\ to_bytes (of_bytes bs) = bs).
Abbreviation p := (memcpy_impl size_bytes n to_bytes of_bytes).
Abbreviation L := (memcpy_layout to_bytes V).

Lemma memcpy_complete a src en u k q : V a -> holds src q (to_bytes a) -> q + vec_size (to_bytes a) <= en -> en <= vec_size src -> vec_size src < 2 ^ 32 ->
  memcpy_unpack n of_bytes (of_bytes (repeat 0 n)) src en (Cursor u k q) = Ok (Some a) (Cursor u true (q + vec_size (to_bytes a))).
Proof.
  intros Ha Hh Hq He Hs. pose proof Hh as (H0 & _ & _). assert (Hl : vec_size (to_bytes a) = Z.of_nat n) by (unfold vec_size; now rewrite Hlen). rewrite Hl in *.
  unfold memcpy_unpack, bind, modify, gets. cbn. rewrite wrap_small by (split; lia). destruct (Z.ltb_spec (en - q) (Z.of_nat n)); [lia|].
  rewrite <- (Hlen a Ha) at 1. rewrite (holds_read _ _ _ _ Hh). cbn. rewrite Hof, wrap_small by (auto; split; lia). reflexivity.
Qed.
Lemma memcpy_reads : reads_ok p L.
Proof.
  apply (base_reads size_bytes Hfmt false false _ never never_at _ _ _ _ _ _ V to_bytes); try discriminate; auto.
  - intros _ a Ha. unfold vec_size. now rewrite Hlen.
  - intros f [= <-]. auto.
  - intros a src en u k q Ha _. now apply memcpy_complete.
Qed.
Lemma memcpy_sound : sound_ok p L.
Proof.
  apply (base_sound size_bytes Hfmt false false _ never never_at _ _ _ _ _ _ V to_bytes); try discriminate; auto.
  - intros _ a Ha. unfold vec_size. now rewrite Hlen.
  - intros v src en [u k q] Hq He Hs Hb. cbn [pos] in *. unfold runs, wp, memcpy_unpack, bind, modify, gets. cbn. rewrite wrap_small by (split; lia).
    destruct (Z.ltb_spec (en - q) (Z.of_nat n)); [apply unpack_none; cbn; [lia|lia|auto]|].
    edestruct (@read_holds cursor src q n) as (bs & -> & Hh & Hl); [lia|lia|]. cbn. rewrite wrap_small by (split; lia).
    split; [cbn; lia|]. split; [cbn; lia|]. split; [auto|]. intros a [= <-] _ Hu. cbn in *. destruct (Hto bs (holds_bytes _ _ _ Hb Hh) Hl) as [Hv Hbs]. rewrite Hbs.
    unfold vec_size. rewrite Hl. auto.
  - intros f bs [= <-] Hb Hl. apply Hto; [exact Hb|]. unfold vec_size in Hl. lia.
Qed.

(** Many of them, behind a prefix of [w] bytes. *)
Context (Hpos : (0 < n)%nat) (w : nat).
Abbreviation pw := (Z.of_nat w).
Definition copied_ok (v : list A) : Prop := Forall V v /\ vec_size v * Z.of_nat n < (FracpackSpec.limit w).
Definition copied_enc (v : list A) : list Z := to_le w (vec_size v * Z.of_nat n) ++ concat (map to_bytes v).
Lemma split_concat v : Forall V v -> split_elems n of_bytes (length v) (concat (map to_bytes v)) = v.
Proof.
  induction 1 as [|a v Ha _ IH]; [reflexivity|]. cbn [length split_elems map concat]. 
  rewrite take_app_length', drop_app_length', Hof, IH by (auto; symmetry; auto). reflexivity.
Qed.
Lemma concat_split k : forall bs, Forall (in_u 8) bs -> length bs = (k * n)%nat ->
  let v := split_elems n of_bytes k bs in Forall V v /\ concat (map to_bytes v) = bs /\ length v = k.
Proof.
  induction k as [|k IH]; intros bs Hb Hl; cbn [split_elems map concat length].
  - destruct bs; [|discriminate]. auto.
  - destruct (Hto (take n bs)) as [H1 H2]; [now apply Forall_take|rewrite length_take; lia|].
    destruct (IH (drop n bs)) as (I1 & I2 & I3); [now apply Forall_drop|rewrite length_drop; lia|].
    split; [now constructor|]. rewrite H2, I2, I3, take_drop. auto.
Qed.
Lemma container_memcpy_complete v src en u k q : (FracpackSpec.limit w) <= 2 ^ 32 -> copied_ok v -> holds src q (copied_enc v) -> q + vec_size (copied_enc v) <= en -> en <= vec_size src ->
  vec_size src < 2 ^ 32 -> container_memcpy_unpack w n of_bytes [] src en (Cursor u k q) = Ok (Some v) (Cursor u true (q + vec_size (copied_enc v))).
Proof.
  intros Hl32 [Hv Hl] Hh Hq He Hs. unfold copied_enc in *. set (bytes := vec_size v * Z.of_nat n) in *.
  assert (Hb : vec_size (concat (map to_bytes v)) = bytes) by (apply concat_size; eapply List.Forall_impl; [|exact Hv]; exact Hlen).
  apply holds_app in Hh as [Hh Hc]. pose proof Hh as (H0 & _ & _). rewrite vec_size_app, to_le_size, Hb in *. pose proof (vec_size_nonneg v).
  assert (0 <= bytes) by (unfold bytes; lia). unfold container_memcpy_unpack, bind at 1, on_pos, zoom. cbn [pos].
  rewrite (numeric_complete false w bytes) by (auto; lia). rewrite (wrap_small (8 * pw)) by (split; [lia|exact Hl]). cbn.
  unfold bytes at 1. rewrite Z.mod_mul by lia. rewrite (wrap_small 32 (q + pw + bytes)) by (split; lia). cbn.
  destruct (Z.ltb_spec (q + pw + bytes) (q + pw)); [lia|]. destruct (Z.ltb_spec en (q + pw + bytes)); [lia|]. cbn.
  replace (Z.to_nat bytes) with (length (concat (map to_bytes v))) by (unfold vec_size in Hb; lia). unfold bind. rewrite (holds_read _ _ _ _ Hc). cbn.
  unfold bytes at 1. rewrite Z.div_mul by lia. unfold vec_size at 1. rewrite Nat2Z.id, split_concat, Z.add_assoc by exact Hv. reflexivity.
Qed.
Lemma container_memcpy_safe v src en c : (FracpackSpec.limit w) <= 2 ^ 32 -> 0 <= pos c <= en -> en <= vec_size src -> vec_size src < 2 ^ 32 -> Forall (in_u 8) src ->
  runs (container_memcpy_unpack w n of_bytes v src en) (prefix_post [] copied_ok copied_enc v src en c) c.
Proof.
  intros Hl32. destruct c as [u k q]. cbn [pos]. intros Hq He Hs Hb. unfold container_memcpy_unpack. apply runs_bind.
  apply header_runs; auto; [apply runs_ret, prefix_none; cbn; [lia|auto]|]. intros z Hz Hh Hqn.
  apply runs_bind. unfold runs at 1, gets, wp. cbn [pos]. apply runs_bind. unfold runs at 1, modify, wp. cbn.
  destruct (negb _ || _ || _) eqn:Ec; [apply runs_ret, prefix_none; cbn; [lia|auto]|]. rewrite !orb_false_iff, !Z.ltb_ge, negb_false_iff, Z.eqb_eq in Ec.
  destruct Ec as [[Ec1 Ec2] Ec3]. change (2 ^ (8 * pw)) with (FracpackSpec.limit w) in Hz. assert (Hw : wrap 32 (q + pw + z) = q + pw + z) by (apply wrap_32_sum; lia). rewrite Hw in *.
  unfold runs, wp, bind. edestruct (@read_holds cursor src (q + pw) (Z.to_nat z)) as (bs & -> & Hc & Hl); [lia|lia|]. cbn.
  split; [cbn; lia|]. split; [auto|]. intros a [= <-] _ Hu. cbn in *.
  assert (Hdm : z = z / Z.of_nat n * Z.of_nat n) by (pose proof (Z.div_mod z (Z.of_nat n)); lia). assert (0 <= z / Z.of_nat n) by (apply Z.div_pos; lia).
  destruct (concat_split (Z.to_nat (z / Z.of_nat n)) bs) as (I1 & I2 & I3); [exact (holds_bytes _ _ _ Hb Hc)|lia|]. unfold copied_ok, copied_enc.
  rewrite I2, vec_size_app, to_le_size. unfold vec_size. rewrite I3, Hl, !Z2Nat.id, <- Hdm by lia. rewrite holds_app, to_le_size. repeat split; auto; try apply Hh; try apply Hc; lia.
Qed.
Lemma copied_empty S src q en (s : S) v : copied_ok v -> holds src q (copied_enc v) -> q + vec_size (copied_enc v) <= en -> en <= vec_size src -> vec_size src < 2 ^ 32 ->
  container_empty_at w S src q en s = Ok (is_nil v) s.
Proof.
  intros [_ Hl] Hh Hq He Hs. unfold copied_enc in *. apply holds_app in Hh as [Hh _]. rewrite vec_size_app, to_le_size in Hq. pose proof (vec_size_nonneg (concat (map to_bytes v))).
  pose proof (vec_size_nonneg v). rewrite (container_empty_complete w S _ _ _ _ _ Hh) by (try split; nia). f_equal.
  destruct v as [|x v]; [reflexivity|]. apply Z.eqb_neq. unfold vec_size. cbn [length]. lia.
Qed.
End Memcpy.

(** ** Strings and vectors of such values *)
Section ContainerMemcpy.
Context {A : Type} (n : nat) (to_bytes : A -> list Z) (of_bytes : list Z -> A) (V : A -> Prop).
Context (Hlen : forall a, V a -> length (to_bytes a) = n) (Hof : forall a, V a -> of_bytes (to_bytes a) = a).
Context (Hto : forall bs, Forall (in_u 8) bs -> length bs = n -> V (of_bytes bs) /\ to_bytes (of_bytes bs) = bs) (Hpos : (0 < n)%nat).
Lemma is_nil_true {B} (v : list B) : is_nil v = true -> v = [].
Proof. now destruct v. Qed.
Section Prefix.
Context (w : nat) (pk : forall S, Stream S -> list A -> M S unit) (up : list A -> list Z -> Z -> M cursor (option (list A))) (size vsize : list A -> Z).
Context (Hw : FracpackSpec.limit w <= 2 ^ 32) (Hup : forall v src en u k q, exists k', up v src en (Cursor u k q) = container_memcpy_unpack w n of_bytes v src en (Cursor u k' q)).
Abbreviation pp := (base_impl size_bytes true true [] [] is_nil (container_empty_at w) pk up sz None size vsize).
Abbreviation pL := (base_layout size_bytes true true [] [] is_nil (container_empty_at w) pk up sz None size vsize (copied_ok n V w) (copied_enc n to_bytes w)).
Lemma copied_reads : reads_ok pp pL.
Proof.
  apply base_reads; try discriminate; auto using is_nil_true.
  - intros S v src q en s Hv Hne _ _ Hh Hq He Hs. rewrite (copied_empty n to_bytes V Hpos w S src q en s v) by assumption. now rewrite Hne.
  - intros v src en u k q Hv _ Hh Hq He Hs. destruct (Hup [] src en u k q) as [k' ->]. now apply container_memcpy_complete with (V := V).
Qed.
Lemma copied_sound : sound_ok pp pL.
Proof.
  apply base_sound; try discriminate; auto using is_nil_true.
  - intros v src en [u k q] Hq He Hs Hb. destruct (Hup v src en u k q) as [k' E]. unfold runs, wp. rewrite E.
    pose proof (container_memcpy_safe n to_bytes of_bytes V Hto Hpos w v src en (Cursor u k' q) Hw Hq He Hs Hb) as Hc. unfold runs, wp in Hc.
    destruct (container_memcpy_unpack w n of_bytes v src en (Cursor u k' q)); try contradiction. apply prefix_unpacked; [reflexivity|exact Hc].
  - intros S src q en s _ Hq He Hs. destruct (container_empty_safe w S src q en s Hq He Hs) as [b Eb]. exists b. split; [exact Eb|]. intros v -> Hv Hh Hqe.
    rewrite (copied_empty n to_bytes V Hpos w S src q en s v) in Eb by assumption. now injection Eb.
  - intros _. split; [|reflexivity]. split; [constructor|apply limit_pos].
Qed.
End Prefix.
Abbreviation CL := (container_memcpy_layout size_bytes n to_bytes of_bytes V).
Lemma container_memcpy_reads : reads_ok (container_memcpy_impl size_bytes n to_bytes of_bytes) CL.
Proof. apply copied_reads; [now apply limit_32|eauto]. Qed.
Lemma container_memcpy_sound : sound_ok (container_memcpy_impl size_bytes n to_bytes of_bytes) CL.
Proof. apply copied_sound; [now apply limit_32|eauto]. Qed.
End ContainerMemcpy.

(** ** Booleans *)
Lemma bool_reads : reads_ok (bool_impl size_bytes) bool_layout.
Proof.
  apply (base_reads size_bytes Hfmt false false false never never_at _ _ _ _ _ _ (fun _ => True) (fun b : bool => [if b then 1 else 0])); try discriminate; auto.
  intros a src en u k q _ _ Hh Hq He Hs. pose proof Hh as (H0 & _ & _). change (vec_size [if a then 1 else 0]) with 1 in *.
  unfold bool_unpack, bind, modify, gets. cbn [pos]. cbn. rewrite wrap_small by (split; lia). destruct (Z.ltb_spec (en - q) 1); [lia|].
  rewrite (holds_read src q [if a then 1 else 0] _ Hh). destruct a; cbn; rewrite wrap_small by (split; lia); reflexivity.
Qed.
Lemma bool_sound : sound_ok (bool_impl size_bytes) bool_layout.
Proof.
  apply (base_sound size_bytes Hfmt false false false never never_at _ _ _ _ _ _ (fun _ => True) (fun b : bool => [if b then 1 else 0])); try discriminate; auto.
  intros v src en [u k q] Hq He Hs Hb. cbn [pos] in *. unfold runs, wp, bool_unpack, bind, modify, gets. cbn. rewrite wrap_small by (split; lia).
  destruct (Z.ltb_spec (en - q) 1); [apply unpack_none; cbn; [lia|lia|auto]|]. edestruct (@read_holds cursor src q 1) as (bs & -> & Hh & Hl); [lia|lia|].
  destruct bs as [|b [|]]; try discriminate. pose proof (holds_bytes _ _ _ Hb Hh) as Hbb. inversion Hbb as [|? ? Hb0 _]; subst. unfold in_u in Hb0.
  cbn [of_le]. change (Z.shiftl 0 8) with 0. rewrite Z.add_0_r. destruct (Z.ltb_spec 1 b); [apply unpack_none; cbn; [lia|lia|auto]|]. cbn. rewrite wrap_small by (split; lia).
  split; [cbn; lia|]. split; [cbn; lia|]. split; [auto|]. intros a [= <-] _ Hu. cbn in *. assert (Eb : (if negb (b =? 0) then 1 else 0) = b) by (destruct (Z.eqb_spec b 0); cbn; lia).
  rewrite Eb. auto.
Qed.

(** ** Elements *)
Section Items.
Context {A : Type} (p : packable A) (L : layout A) (Hp : packs_ok p L).
Abbreviation cells l := (map (cell_of p L) l).
Lemma cells_size l : sizes (cells l) = vec_size l * fixed_size p.
Proof. unfold sizes, vec_size. induction l as [|a l IH]; cbn [map fold_right cell_of c_size length]; lia. Qed.
Lemma items_complete (Hr : reads_ok p L) src eh l : eh <= vec_size src -> vec_size src < 2 ^ 32 -> Forall (wf L) l ->
  forall ef u fp hp, holds src fp (lay (hp - fp) (cells l)) -> holds src hp (heaps (cells l)) -> fp + sizes (cells l) <= ef -> ef <= hp ->
  hp + vec_size (heaps (cells l)) <= eh -> hp + vec_size (heaps (cells l)) - fp < limit ->
  unpack_items p (repeat (default_value p) (length l)) src ef eh (ECursor u true fp hp) =
  Ok (Some l) (ECursor u true (fp + sizes (cells l)) (hp + vec_size (heaps (cells l)))).
Proof.
  intros Hsrc H32. induction 1 as [|a l Ha Hl IH]; intros ef u fp hp Hf Hh Hef Hhp Heh Hlim.
  - cbn. now rewrite !Z.add_0_r.
  - unfold heaps in *. cbn [length repeat unpack_items map concat lay sizes fold_right cell_of c_size c_slot c_heap] in *. fold (heaps (cells l)) (sizes (cells l)) in *.
    apply holds_app in Hf as [Hf1 Hf2], Hh as [Hh1 Hh2]. rewrite vec_size_app in *. rewrite (po_slot _ _ _ Hp _ _ Ha) in *.
    pose proof (vec_size_nonneg (heap L a)). pose proof (vec_size_nonneg (heaps (cells l))). pose proof (po_nonneg _ _ _ Hp).
    assert (0 <= sizes (cells l)) by (rewrite cells_size; pose proof (vec_size_nonneg l); nia).
    unfold bind. rewrite (ro_embedded _ _ _ Hr a) by (auto; try (rewrite (po_slot _ _ _ Hp _ _ Ha)); lia).
    rewrite (IH ef u); try lia; [|replace (hp + vec_size (heap L a) - (fp + fixed_size p)) with (hp - fp - fixed_size p + vec_size (heap L a)) by lia; exact Hf2|exact Hh2].
    unfold ret. cbn. do 2 f_equal; lia.
Qed.

Definition items_post (old : list A) (src : list Z) (ef eh : Z) (e : ecursor) (o : option (list A)) (e' : ecursor) : Prop :=
  fixed_pos e <= fixed_pos e' <= ef /\ heap_pos e <= heap_pos e' <= eh /\ (is_variable_size p = false -> heap_pos e' = heap_pos e) /\
  (e_unknown e = true -> e_unknown e' = true) /\
  forall l, o = Some l -> Forall (fun x => x = default_value p) old -> known_pos e = true -> e_unknown e' = false ->
    known_pos e' = true /\ Forall (wf L) l /\ length l = length old /\ holds src (fixed_pos e) (lay (heap_pos e - fixed_pos e) (cells l)) /\
    holds src (heap_pos e) (heaps (cells l)) /\ fixed_pos e' = fixed_pos e + sizes (cells l) /\ heap_pos e' = heap_pos e + vec_size (heaps (cells l)).
Lemma embedded_inline (Hr : sound_ok p L) v skip src ef eh e Q : runs (embedded_unpack p skip v src ef eh) Q e ->
  runs (embedded_unpack p skip v src ef eh) (fun o e' => Q o e' /\ (is_variable_size p = false -> heap_pos e' = heap_pos e)) e.
Proof.
  unfold runs, wp. destruct (embedded_unpack p skip v src ef eh e) as [o e'|x e'|] eqn:E; auto. intros HQ. split; [exact HQ|]. intros Hv.
  rewrite (so_inline _ _ _ Hr) in E by exact Hv. unfold at_fixed, zoom in E. destruct (unpack p v src ef _); [|discriminate..]. now injection E as <- <-.
Qed.
Lemma items_sound (Hr : sound_ok p L) src ef eh old : eh <= vec_size src -> vec_size src < 2 ^ 32 -> Forall (in_u 8) src ->
  forall e, 0 <= fixed_pos e <= ef -> ef <= heap_pos e <= eh -> runs (unpack_items p old src ef eh) (items_post old src ef eh e) e.
Proof.
  intros Hsrc H32 Hb. induction old as [|v old IH]; intros e Hf Hh; cbn [unpack_items].
  - apply runs_ret. split; [lia|]. split; [lia|]. split; [auto|]. split; [auto|]. intros l [= <-] _ Hk Hu. unfold heaps, sizes. cbn [map lay concat fold_right].
    change (vec_size []) with 0. rewrite !Z.add_0_r. split; [exact Hk|]. split; [constructor|]. split; [reflexivity|]. split; [apply holds_nil; lia|]. split; [apply holds_nil; lia|auto].
  - apply runs_bind. eapply runs_mono; [|apply (embedded_inline Hr), (so_embedded _ _ _ Hr); auto; discriminate]. intros o e1 ((P1 & P2 & P3 & P4 & P5) & Hin).
    destruct o as [x|]; [|apply runs_ret; split; [lia|]; split; [lia|]; split; [exact Hin|]; split; [exact P4|discriminate]].
    apply runs_bind. eapply runs_mono; [|apply IH; lia]. intros o e2 (Q1 & Q2 & Q3 & Q4 & Q5). apply runs_ret. split; [lia|]. split; [lia|].
    split; [intros Hv; rewrite Q3, Hin; auto|]. split; [auto|]. intros l El Hold Hk Hu. destruct o as [l'|]; [|discriminate]. injection El as <-. inversion Hold as [|? ? Hv Hold']; subst.
    assert (Hu1 : e_unknown e1 = false) by (destruct (e_unknown e1); [rewrite Q4 in Hu by reflexivity; discriminate|reflexivity]).
    destruct (P5 x eq_refl eq_refl Hk Hu1) as (R1 & R2 & R3 & R4 & R5 & R6). destruct (Q5 l' eq_refl Hold' R1 Hu) as (S1 & S2 & S3 & S4 & S5 & S6 & S7).
    unfold heaps, sizes. cbn [map lay concat fold_right cell_of c_size c_slot c_heap length]. fold (heaps (cells l')) (sizes (cells l')).
    rewrite !holds_app, vec_size_app, (po_slot _ _ _ Hp _ _ R2), <- R5, <- R6.
    replace (heap_pos e - fixed_pos e - fixed_size p + vec_size (heap L x)) with (heap_pos e1 - fixed_pos e1) by lia.
    split; [exact S1|]. split; [now constructor|]. split; [now rewrite S3|]. split; [split; [exact R3|exact S4]|]. split; [split; [exact R4|exact S5]|]. lia.
Qed.
End Items.

(** ** Vectors *)
Section Container.
Context {A : Type} (p : packable A) (L : layout A) (Hp : packs_ok p L).
Abbreviation cells l := (map (cell_of p L) l).
Lemma resize_nil n : resize_to (default_value p) [] n = repeat (default_value p) n.
Proof. unfold resize_to. cbn [app]. apply take_ge. now rewrite repeat_length. Qed.
Lemma resize_length old n : length (resize_to (default_value p) old n) = n.
Proof. unfold resize_to. rewrite length_take, length_app, repeat_length. lia. Qed.
Lemma region_size l : Forall (wf L) l -> vec_size (region (cells l)) = sizes (cells l) + vec_size (heaps (cells l)).
Proof. intros Hl. unfold region. now rewrite vec_size_app, (lay_size _ _ (ops_list_ok size_bytes p L l Hp Hl)). Qed.

(** A prefix of [w] bytes. *)
Context (Hpos : 0 < fixed_size p).
Definition items_ok (w : nat) (v : list A) : Prop := Forall (wf L) v /\ vec_size v * fixed_size p < FracpackSpec.limit w.
Definition items_enc (w : nat) (v : list A) : list Z := to_le w (vec_size v * fixed_size p) ++ region (cells v).
Lemma container_complete (Hr : reads_ok p L) (w : nat) v src en u k q : FracpackSpec.limit w <= 2 ^ 32 -> items_ok w v -> vec_size (items_enc w v) < limit -> holds src q (items_enc w v) ->
  q + vec_size (items_enc w v) <= en -> en <= vec_size src -> vec_size src < 2 ^ 32 ->
  container_unpack w p [] src en (Cursor u k q) = Ok (Some v) (Cursor u true (q + vec_size (items_enc w v))).
Proof.
  intros Hw32 [Hv Hl] Hlim Hh Hq He Hs. unfold items_enc in *. pose proof (limit_32 _ Hfmt). pose proof (vec_size_nonneg v).
  rewrite <- (cells_size p L v) in *. assert (0 <= sizes (cells v)) by (rewrite cells_size; nia).
  assert (Hmod : sizes (cells v) mod fixed_size p = 0) by (rewrite cells_size; apply Z.mod_mul; lia).
  assert (Hdiv : sizes (cells v) / fixed_size p = vec_size v) by (rewrite cells_size; apply Z.div_mul; lia).
  apply holds_app in Hh as [Hh Hc]. pose proof Hh as (Hq0 & _ & _). rewrite vec_size_app, to_le_size, region_size in * by exact Hv. pose proof (vec_size_nonneg (heaps (cells v))).
  apply holds_app in Hc as [Hc1 Hc2]. rewrite (lay_size _ _ (ops_list_ok size_bytes p L v Hp Hv)) in Hc2. set (pw := Z.of_nat w) in *.
  unfold container_unpack, bind at 1, on_pos, zoom. cbn [pos]. rewrite (numeric_complete false w (sizes (cells v))) by (auto; lia). fold pw.
  rewrite (wrap_small (8 * pw)) by (split; [lia|exact Hl]). destruct (Z.eqb_spec (fixed_size p) 0); [lia|]. cbn.
  rewrite (wrap_small 32 (q + pw + sizes (cells v))) by (split; lia). rewrite Hmod. cbn.
  destruct (Z.ltb_spec (q + pw + sizes (cells v)) (q + pw)); [lia|]. destruct (Z.ltb_spec en (q + pw + sizes (cells v))); [lia|]. cbn [orb].
  unfold in_region. cbn [has_unknown known_end]. rewrite Hdiv. unfold vec_size at 1. rewrite Nat2Z.id, resize_nil.
  rewrite (items_complete p L Hp Hr) by (auto; try lia; replace (q + pw + sizes (cells v) - (q + pw)) with (sizes (cells v)) by lia; auto).
  cbn. do 2 f_equal. lia.
Qed.
Lemma container_safe (Hr : sound_ok p L) (w : nat) v src en c : FracpackSpec.limit w <= 2 ^ 32 -> 0 <= pos c <= en -> en <= vec_size src -> vec_size src < 2 ^ 32 -> Forall (in_u 8) src ->
  runs (container_unpack w p v src en) (prefix_post [] (items_ok w) (items_enc w) v src en c) c.
Proof.
  destruct c as [u k q]. cbn [pos]. intros Hw32 Hq He Hs Hb. unfold container_unpack. apply runs_bind. apply header_runs; auto; [apply runs_ret, prefix_none; cbn; [lia|auto]|].
  intros z Hz Hh Hqn. change (2 ^ (8 * Z.of_nat w)) with (FracpackSpec.limit w) in Hz. set (pw := Z.of_nat w) in *.
  destruct (Z.eqb_spec (fixed_size p) 0); [lia|]. apply runs_bind. unfold runs at 1, gets, wp. cbn [pos]. apply runs_bind. unfold runs at 1, modify, wp. cbn.
  destruct (negb _ || _ || _) eqn:Ec; [apply runs_ret, prefix_none; cbn; [lia|auto]|]. rewrite !orb_false_iff, !Z.ltb_ge, negb_false_iff, Z.eqb_eq in Ec.
  destruct Ec as [[Ec1 Ec2] Ec3]. assert (Hw : wrap 32 (q + pw + z) = q + pw + z) by (apply wrap_32_sum; lia). rewrite Hw in *.
  apply region_runs. eapply runs_mono; [|apply (items_sound p L Hp Hr); auto; cbn; lia]. cbn [has_unknown known_end pos].
  intros o e (P1 & P2 & P3 & P4 & P5). cbn in P1, P2, P3, P4, P5. destruct o as [l|]; [|apply prefix_none; cbn; [lia|auto]].
  split; [cbn; lia|]. split; [exact P4|]. cbn. intros a [= <-] -> Hu. rewrite resize_nil in P5.
  destruct (P5 l eq_refl (all_repeat _ _) eq_refl Hu) as (S1 & S2 & S3 & S4 & S5 & S6 & S7). rewrite repeat_length in S3.
  assert (Hdm : z = z / fixed_size p * fixed_size p) by (pose proof (Z.div_mod z (fixed_size p)); lia). assert (0 <= z / fixed_size p) by (apply Z.div_pos; lia).
  assert (Hz' : z = vec_size l * fixed_size p) by (unfold vec_size; rewrite S3, Z2Nat.id; lia). unfold items_ok, items_enc. rewrite <- Hz'.
  replace (q + pw + z - (q + pw)) with z in S4 by lia. rewrite Hz', <- (cells_size p L) in S4. rewrite Hz', <- (cells_size p L) in S5.
  split; [exact S1|]. split; [split; [exact S2|lia]|]. rewrite vec_size_app, to_le_size, region_size by exact S2. fold pw.
  split; [|rewrite cells_size; lia]. apply holds_app. rewrite to_le_size. split; [exact Hh|]. apply holds_app.
  rewrite (lay_size _ _ (ops_list_ok size_bytes p L l Hp S2)). auto.
Qed.
Lemma items_empty S (w : nat) src q en (s : S) v : items_ok w v -> holds src q (items_enc w v) -> q + vec_size (items_enc w v) <= en -> en <= vec_size src -> vec_size src < 2 ^ 32 ->
  container_empty_at w S src q en s = Ok (is_nil v) s.
Proof.
  intros [_ Hl] Hh Hq He Hs. unfold items_enc in *. apply holds_app in Hh as [Hh _]. rewrite vec_size_app, to_le_size in Hq. pose proof (vec_size_nonneg (region (cells v))).
  pose proof (vec_size_nonneg v). rewrite (container_empty_complete w S _ _ _ _ _ Hh) by (try split; nia). f_equal.
  destruct v as [|x v]; [reflexivity|]. apply Z.eqb_neq. unfold vec_size. cbn [length]. lia.
Qed.
(** A container with that prefix, however it is packed: [up] may set [known_end]
    before it reads. *)
Section Prefix.
Context (w : nat) (pk : forall S, Stream S -> list A -> M S unit) (up : list A -> list Z -> Z -> M cursor (option (list A))) (size vsize : list A -> Z).
Context (Hw : FracpackSpec.limit w <= 2 ^ 32) (Hup : forall v src en u k q, exists k', up v src en (Cursor u k q) = container_unpack w p v src en (Cursor u k' q)).
Abbreviation pp := (base_impl size_bytes true true [] [] is_nil (container_empty_at w) pk up sz None size vsize).
Abbreviation pL := (base_layout size_bytes true true [] [] is_nil (container_empty_at w) pk up sz None size vsize (items_ok w) (items_enc w)).
Lemma prefix_reads : reads_ok p L -> reads_ok pp pL.
Proof.
  intros Hr. apply base_reads; try discriminate; auto using is_nil_true.
  - intros S v src q en s Hv Hne _ _ Hh Hq He Hs. rewrite (items_empty S w src q en s v) by assumption. now rewrite Hne.
  - intros v src en u k q Hv Hlim Hh Hq He Hs. destruct (Hup [] src en u k q) as [k' ->]. now apply container_complete.
Qed.
Lemma prefix_sound : sound_ok p L -> sound_ok pp pL.
Proof.
  intros Hr. apply base_sound; try discriminate; auto using is_nil_true.
  - intros v src en [u k q] Hq He Hs Hb. destruct (Hup v src en u k q) as [k' E]. unfold runs, wp. rewrite E.
    pose proof (container_safe Hr w v src en (Cursor u k' q) Hw Hq He Hs Hb) as Hc. unfold runs, wp in Hc. destruct (container_unpack w p v src en (Cursor u k' q)); try contradiction.
    apply prefix_unpacked; [reflexivity|exact Hc].
  - intros S src q en s _ Hq He Hs. destruct (container_empty_safe w S src q en s Hq He Hs) as [b Eb]. exists b. split; [exact Eb|]. intros v -> Hv Hh Hqe.
    rewrite (items_empty S w src q en s v) in Eb by assumption. now injection Eb.
  - intros _. split; [|reflexivity]. split; [constructor|apply limit_pos].
Qed.
End Prefix.
Abbreviation CL := (container_layout size_bytes p L).
Lemma container_reads : reads_ok p L -> reads_ok (container_impl size_bytes p) CL.
Proof. apply prefix_reads; [now apply limit_32|eauto]. Qed.
Lemma container_sound : sound_ok p L -> sound_ok (container_impl size_bytes p) CL.
Proof. apply prefix_sound; [now apply limit_32|eauto]. Qed.
End Container.

(** ** Arrays *)
Section Array.
Context {A : Type} (p : packable A) (L : layout A) (Hp : packs_ok p L) (N : nat) (HN : fixed_size p * Z.of_nat N < 2 ^ 32).
Abbreviation cells l := (map (cell_of p L) l).
Abbreviation AL := (array_layout size_bytes p L N).
Lemma array_cells v : length v = N -> sizes (cells v) = fixed_size p * Z.of_nat N.
Proof. intros Hl. rewrite cells_size. unfold vec_size. rewrite Hl. lia. Qed.
Lemma array_complete (Hr : reads_ok p L) v src en u k q : wf AL v -> vec_size (enc AL v) < limit -> holds src q (enc AL v) -> q + vec_size (enc AL v) <= en ->
  en <= vec_size src -> vec_size src < 2 ^ 32 ->
  array_unpack p N (repeat (default_value p) N) src en (Cursor u k q) = Ok (Some v) (Cursor u true (q + vec_size (enc AL v))).
Proof.
  intros [Hv Hl] Hlim Hh Hq He Hs. cbn [enc array_layout base_layout] in *. pose proof (limit_32 _ Hfmt). pose proof (array_cells v Hl) as Hsz.
  pose proof (po_nonneg _ _ _ Hp). rewrite region_size in * by assumption. pose proof (vec_size_nonneg (heaps (cells v))). rewrite <- Hl in *.
  apply holds_app in Hh as [Hc1 Hc2]. pose proof Hc1 as (Hq0 & _ & _). rewrite (lay_size _ _ (ops_list_ok size_bytes p L v Hp Hv)) in Hc2.
  unfold array_unpack, bind, gets, modify. cbn [pos]. cbn. rewrite <- Hsz. rewrite (wrap_small 32 (q + sizes (cells v))) by (split; lia).
  destruct (Z.ltb_spec (q + sizes (cells v)) q); [lia|]. destruct (Z.ltb_spec en (q + sizes (cells v))); [lia|]. cbn [orb]. unfold in_region. cbn [has_unknown known_end].
  rewrite (items_complete p L Hp Hr) by (auto; try lia; replace (q + sizes (cells v) - q) with (sizes (cells v)) by lia; auto).
  cbn. do 2 f_equal. lia.
Qed.
Lemma array_reads : reads_ok p L -> reads_ok (array_impl size_bytes p N) AL.
Proof.
  intros Hr. apply (base_reads size_bytes Hfmt (is_variable_size p) false _ never never_at _ _ _ _ _ _
    (fun v => Forall (wf L) v /\ length v = N) (fun v => region (cells v))); try discriminate; auto.
  - intros Hv v [Hl Hn]. rewrite (region_inline size_bytes p L Hp) by assumption. rewrite Hv. unfold vec_size. now rewrite Hn.
  - now intros ->.
  - intros v src en u k q Hv. now apply array_complete.
Qed.
Lemma array_sound : sound_ok p L -> sound_ok (array_impl size_bytes p N) AL.
Proof.
  intros Hr. pose proof (po_nonneg _ _ _ Hp). apply (base_sound size_bytes Hfmt (is_variable_size p) false _ never never_at _ _ _ _ _ _
    (fun v => Forall (wf L) v /\ length v = N) (fun v => region (cells v))); try discriminate; auto.
  - intros Hv v [Hl Hn]. rewrite (region_inline size_bytes p L Hp) by assumption. rewrite Hv. unfold vec_size. now rewrite Hn.
  - now intros ->.
  - intros v src en [u k q] Hq He Hs Hb. cbn [pos] in *. unfold array_unpack. apply runs_bind. unfold runs at 1, gets, wp. cbn [pos]. apply runs_bind.
    unfold runs at 1, modify, wp. cbn. destruct (_ || _) eqn:Ec; [apply runs_ret, unpack_none; cbn; [lia|intros ->; lia|auto]|].
    rewrite orb_false_iff, !Z.ltb_ge in Ec. destruct Ec as [Ec1 Ec2]. set (z := fixed_size p * Z.of_nat N) in *. assert (0 <= z) by (unfold z; nia).
    assert (Hw : wrap 32 (q + z) = q + z) by (apply wrap_32_sum; lia). rewrite Hw in *.
    apply region_runs. eapply runs_mono; [|apply (items_sound p L Hp Hr); auto; cbn; lia]. cbn [has_unknown known_end pos].
    intros o e (P1 & P2 & P3 & P4 & P5). cbn in P1, P2, P3, P4, P5. destruct o as [l|]; [|apply unpack_none; cbn; [lia|intros ->; lia|auto]].
    split; [cbn; lia|]. split; [cbn; intros Hv; rewrite Hv, P3; [fold z; lia|exact Hv]|]. split; [exact P4|]. cbn. intros a [= <-] -> Hu.
    destruct (P5 l eq_refl (all_repeat _ _) eq_refl Hu) as (S1 & S2 & S3 & S4 & S5 & S6 & S7). rewrite repeat_length in S3.
    pose proof (array_cells l S3) as Hsz. fold z in Hsz. replace (q + z - q) with z in S4 by lia. rewrite region_size by assumption.
    split; [exact S1|]. split; [auto|]. split; [|lia]. apply holds_app. rewrite (lay_size _ _ (ops_list_ok size_bytes p L l Hp S2)), Hsz. auto.
Qed.
End Array.

(** ** Optionals *)
Section Optional.
Context {A : Type} (p : packable A) (L : layout A) (Hp : packs_ok p L).
Abbreviation q := (optional_impl size_bytes p).
Abbreviation OL := (optional_layout size_bytes p L).
(** The slot of a value is that of the value on its own. *)
Lemma optional_slot_some x d : wf L x -> optional_slot size_bytes p L (Some x) d = vslot size_bytes p x d.
Proof.
  intros Hx. unfold optional_slot, vslot. destruct (shares_offset p) eqn:Es.
  - apply shares_variable in Es as [Eo Ev]. now destruct (po_shared _ _ _ Hp x d Ev Eo) as [-> _].
  - destruct (is_empty_container p x) eqn:Ee; [|reflexivity]. destruct (po_empty _ _ _ Hp x Ee) as [Ev Eo]. unfold shares_offset in Es. rewrite Ev, Eo in Es. discriminate.
Qed.
Lemma optional_embedded_complete (Hr : reads_ok p L) v skip old src ef eh u fp hp : wf OL v -> vec_size (optional_heap p L v) < limit ->
  holds src fp (optional_slot size_bytes p L v (hp - fp)) -> holds src hp (optional_heap p L v) ->
  fp + sz <= ef -> ef <= hp -> hp - fp < limit -> hp + vec_size (optional_heap p L v) <= eh -> eh <= vec_size src -> vec_size src < 2 ^ 32 ->
  optional_embedded_unpack size_bytes p skip old src ef eh (ECursor u true fp hp) =
  Ok (Some v) (ECursor u true (fp + sz) (hp + vec_size (optional_heap p L v))).
Proof.
  intros Hv Hl Hs Hh Hef Hhp Hd Heh Hsrc H32. pose proof (sz_pos _ Hfmt). pose proof (limit_32 _ Hfmt). unfold optional_embedded_unpack.
  unfold bind at 1. unfold gets. cbn [fixed_pos]. unfold bind at 1. unfold on_fixed, zoom. cbn [fixed_pos]. cbn [wf optional_layout] in Hv.
  pose proof Hh as (_ & Hh1 & _). pose proof (vec_size_nonneg (optional_heap p L v)). destruct v as [x|].
  - rewrite optional_slot_some in Hs by exact Hv. rewrite (numeric_complete skip size_bytes _ src ef fp Hs) by lia. cbn.
    rewrite wrap_small by (destruct (is_empty_container p x); unfold in_u; change (2 ^ (8 * sz)) with limit; lia).
    destruct (Z.eqb_spec (if is_empty_container p x then 0 else hp - fp) 1); [destruct (is_empty_container p x); lia|].
    unfold bind, modify. cbn. rewrite (ro_variable _ _ _ Hr x) by assumption. reflexivity.
  - cbn [optional_slot] in Hs. rewrite (numeric_complete skip size_bytes _ src ef fp Hs) by lia. cbn.
    rewrite wrap_small by (unfold in_u; change (2 ^ (8 * sz)) with limit; lia). cbn. now rewrite Z.add_0_r.
Qed.
Lemma optional_complete (Hr : reads_ok p L) v src en u k o : wf OL v -> vec_size (enc OL v) < limit -> holds src o (enc OL v) -> o + vec_size (enc OL v) <= en ->
  en <= vec_size src -> vec_size src < 2 ^ 32 ->
  optional_unpack size_bytes p None src en (Cursor u k o) = Ok (Some v) (Cursor u true (o + vec_size (enc OL v))).
Proof.
  intros Hv Hlim Hh Hq He Hs. cbn [enc optional_layout] in *. pose proof (sz_pos _ Hfmt). pose proof (limit_32 _ Hfmt).
  destruct (optional_fixed_size size_bytes p L Hp v Hv) as [_ Hsz]. apply holds_app in Hh as [H1 H2]. pose proof H1 as (Ho0 & _ & _). rewrite vec_size_app, Hsz in *.
  pose proof (vec_size_nonneg (optional_heap p L v)). unfold optional_unpack, bind, gets, modify. cbn. rewrite (wrap_small 32 (en - o)) by (split; lia).
  destruct (Z.ltb_spec (en - o) sz); [lia|]. cbn. rewrite (wrap_small 32 (o + sz)) by (split; lia). unfold with_heap, zoom. cbn [has_unknown known_end pos].
  rewrite (optional_embedded_complete Hr v) by (auto; try lia; replace (o + sz - o) with sz by lia; auto). cbn. now rewrite Z.add_assoc.
Qed.
Lemma optional_reads : reads_ok p L -> reads_ok q OL.
Proof.
  intros Hr. pose proof (sz_pos _ Hfmt).
  split; cbn [optional_impl unpack embedded_variable_unpack embedded_unpack memcpy_value is_variable_size is_optional default_value fixed_size has_value_at has_value];
    try discriminate.
  - intros v src en u k o. now apply optional_complete.
  - intros v skip src ef eh u fp hp Hv.
    apply (base_variable_complete size_bytes Hfmt true false None never never_at (optional_pack size_bytes p) _ sz None (fun _ => 0) (fun _ => 0) (wf OL) (enc OL));
      try discriminate; auto. intros a src' en u' k o. now apply optional_complete.
  - intros v skip src ef eh u fp hp Hv Hl Hs Hh Hef Hhp Hd Heh Hsrc H32 _. now apply optional_embedded_complete.
  - intros S v src en o d s _ Hv Hs Hd Hq He H32. cbn [fixed_size] in *. unfold optional_has_value_at. cbn [slot optional_layout] in Hs. destruct v as [x|].
    + rewrite optional_slot_some in Hs by exact Hv. rewrite (numeric_complete false size_bytes _ src en o Hs) by lia.
      rewrite wrap_small by (destruct (is_empty_container p x); unfold in_u; change (2 ^ (8 * sz)) with limit; lia).
      destruct (Z.eqb_spec (if is_empty_container p x then 0 else d) 1); [destruct (is_empty_container p x); lia|reflexivity].
    + cbn [optional_slot] in Hs. rewrite (numeric_complete false size_bytes _ src en o Hs) by lia.
      rewrite wrap_small by (unfold in_u; change (2 ^ (8 * sz)) with limit; lia). reflexivity.
  - intros [a|] _; [discriminate|reflexivity].
Qed.
Lemma optional_seen (Hr : sound_ok p L) S (s : S) v skip src ef eh e : 0 <= fixed_pos e <= ef -> ef <= heap_pos e <= eh -> eh <= vec_size src -> vec_size src < 2 ^ 32 ->
  Forall (in_u 8) src -> (skip = true -> fixed_pos e + sz <= ef) ->
  runs (optional_embedded_unpack size_bytes p skip v src ef eh)
    (fun o _ => forall a, o = Some a -> optional_has_value_at size_bytes S src (fixed_pos e) ef s = Ok (match a with Some _ => true | None => false end) s) e.
Proof.
  intros Hf Hh Hsrc H32 Hb Hskip. destruct e as [u k fp hp]. cbn [fixed_pos heap_pos] in *. unfold optional_embedded_unpack.
  apply runs_bind. unfold gets, runs at 1, wp. cbn [fixed_pos]. apply runs_bind. apply slot_runs; auto; [lia|apply runs_ret; discriminate|].
  intros off Hr' Hbs Hq. assert (Hat : optional_has_value_at size_bytes S src fp ef s = Ok (negb (off =? 1)) s).
  { unfold optional_has_value_at. rewrite (numeric_complete false size_bytes off) by (auto; lia). now rewrite wrap_small by exact Hr'. }
  rewrite Hat. destruct (Z.eqb_spec off 1) as [->|Hne]; [apply runs_ret; now intros a [= <-]|].
  apply runs_bind. unfold runs at 1, modify, wp. cbn. apply runs_bind. eapply runs_mono; [|apply (so_variable _ _ _ Hr); auto].
  intros o e _. apply runs_ret. destruct o as [x|]; [|discriminate]. now intros a [= <-].
Qed.
Lemma optional_embedded_sound (Hr : sound_ok p L) v skip src ef eh e : 0 <= fixed_pos e <= ef -> ef <= heap_pos e <= eh -> eh <= vec_size src -> vec_size src < 2 ^ 32 ->
  Forall (in_u 8) src -> (skip = true -> fixed_pos e + sz <= ef) ->
  runs (optional_embedded_unpack size_bytes p skip v src ef eh) (embedded_post sz None (wf OL) (optional_slot size_bytes p L) (optional_heap p L) v src ef eh e) e.
Proof.
  intros Hf Hh Hsrc H32 Hb Hskip. pose proof (sz_pos _ Hfmt). destruct e as [u k fp hp]. cbn [fixed_pos heap_pos] in *. unfold optional_embedded_unpack.
  apply runs_bind. unfold gets, runs at 1, wp. cbn [fixed_pos]. apply runs_bind.
  apply slot_runs; auto; [lia|apply runs_ret; split; [cbn; lia|]; split; [cbn; lia|]; split; [cbn; lia|]; split; [auto|discriminate]|].
  intros off Hr' Hbs Hq. destruct (Z.eqb_spec off 1) as [->|Hne].
  - apply runs_ret. split; [cbn; lia|]. split; [cbn; lia|]. split; [cbn; lia|]. split; [auto|]. cbn [known_pos fixed_pos heap_pos]. intros a [= <-] _ Hk Hu.
    unfold optional_slot, optional_heap. change (vec_size []) with 0. split; [exact Hk|]. split; [exact I|]. split; [exact Hbs|]. split; [apply holds_nil; lia|lia].
  - apply runs_bind. unfold runs at 1, modify, wp. cbn. apply runs_bind. eapply runs_mono; [|apply (so_variable _ _ _ Hr); auto].
    intros o e (P1 & P2 & P3 & P4 & P5). cbn in P1, P2, P3, P4, P5. apply runs_ret. split; [cbn; lia|]. split; [cbn; lia|]. split; [cbn; lia|]. split; [exact P4|].
    cbn. intros a Ea _ Hk Hu. destruct o as [x|]; [|discriminate]. injection Ea as <-. destruct (P5 x eq_refl eq_refl Hk Hu) as (R1 & R2 & R3 & R4 & R5).
    rewrite optional_slot_some by exact R2. auto.
Qed.
Lemma optional_sound : sound_ok p L -> sound_ok q OL.
Proof.
  intros Hr. pose proof (sz_pos _ Hfmt).
  assert (Hup : forall v src en c, 0 <= pos c <= en -> en <= vec_size src -> vec_size src < 2 ^ 32 -> Forall (in_u 8) src ->
    runs (optional_unpack size_bytes p v src en) (unpack_post q OL v src en c) c).
  { intros v src en [u k o] Hq He Hs Hb. cbn [pos] in *. unfold optional_unpack. apply runs_bind. unfold runs at 1, gets, wp. cbn [pos]. apply runs_bind.
    unfold runs at 1, modify, wp. cbn. rewrite (wrap_small 32 (en - o)) by (split; lia).
    destruct (Z.ltb_spec (en - o) sz); [apply runs_ret, unpack_none; cbn; [lia|discriminate|auto]|]. apply runs_bind. unfold runs at 1, modify, wp. cbn.
    rewrite (wrap_small 32 (o + sz)) by (split; lia). apply heap_runs. eapply runs_mono; [|apply (optional_embedded_sound Hr); auto; cbn; try lia; discriminate].
    cbn [has_unknown known_end pos]. intros r e (P1 & P2 & P3 & P4 & P5). cbn in P1, P2, P3, P4, P5. destruct r as [a|]; [|apply unpack_none; cbn; [lia|discriminate|auto]].
    split; [cbn; lia|]. split; [discriminate|]. split; [exact P4|]. cbn. intros a' [= <-] Hv Hu. destruct (P5 a eq_refl Hv eq_refl Hu) as (R1 & R2 & R3 & R4 & R5 & R6).
    replace (o + sz - o) with sz in R3 by lia. destruct (optional_fixed_size size_bytes p L Hp a R2) as [_ Hsz].
    split; [exact R1|]. split; [exact R2|]. rewrite vec_size_app, Hsz. split; [|lia]. apply holds_app. rewrite Hsz. auto. }
  split; cbn [optional_impl unpack embedded_variable_unpack embedded_unpack memcpy_value is_variable_size default_value fixed_size has_value_at]; try discriminate; auto.
  - intros v skip src ef eh e.
    apply (base_variable_sound size_bytes Hfmt true false None never never_at (optional_pack size_bytes p) _ sz None (fun _ => 0) (fun _ => 0) (wf OL) (enc OL));
      try discriminate; auto.
  - intros v skip src ef eh e. now apply optional_embedded_sound.
  - intros S src en o s Hq He Hs. pose proof (unpack_numeric_sound false size_bytes src en o Hq He Hs ltac:(discriminate)) as Hn. unfold runs, wp in Hn. unfold optional_has_value_at.
    destruct (unpack_numeric false size_bytes src en o) as [[z|] o'|x o'|]; try contradiction; eauto.
  - intros S s v skip src ef eh e. now apply optional_seen.
  - split; [exact I|reflexivity].
Qed.
End Optional.
End Format.
