(* ===== verification/FracpackBounded.v ===== *)
(** * Bounded containers and bits in fracpack

    Models the codecs of [bounded_list], [bounded_string] and [bitlist], whose
    length prefix is the smallest number type that holds the bound, and of
    [std::vector<bool>] and the associative containers (psio1/fracpack.hpp,
    psio1/bounded.hpp, psio1/bitset.hpp), with the laws of the first three. *)
From Stdlib Require Import ZArith Lia Bool String.
From stdpp Require Import base list numbers decidable option.
From S2P Require Import Prelude Fracpack FracpackSpec FracpackPack FracpackUnpack FracpackValues.

(** [sizeof(bounded_length_t<N>)] *)
Definition bounded_length (N : Z) : nat :=
  if N <? Z.shiftl 1 8 then 1 else if N <? Z.shiftl 1 16 then 2 else if N <? Z.shiftl 1 32 then 4 else 8.
(** [static_cast<uint32_t>] of a [length_t] of [w] bytes. *)
Definition length_u32 (w : nat) (len : Z) : Z := if (w <=? 4)%nat then len else wrap 32 len.

Section Format.
Context (size_bytes : nat).
Abbreviation sz := (Z.of_nat size_bytes).

(** ** [packable_bounded_memcpy_impl]: at most [N] elements of [n] bytes *)
Section BoundedMemcpy.
Context {A : Type} (N : Z) (n : nat) (to_bytes : A -> list Z) (of_bytes : list Z -> A).
Definition bounded_memcpy_length : nat := bounded_length (N * Z.of_nat n).
Abbreviation w := bounded_memcpy_length.
Definition bounded_memcpy_pack (S : Type) (_ : Stream S) (v : list A) : M S unit :=
  st_write (to_le w (vec_size v * Z.of_nat n)) ;;;
  (if vec_size v =? 0 then ret tt else st_write (concat (map to_bytes v))).
Definition bounded_memcpy_unpack (_ : list A) (src : list Z) (end_pos : Z) : M cursor (option (list A)) :=
  modify (fun c => c <| known_end := true |>) ;;;
  let* o := on_pos (unpack_numeric false w src end_pos) in
  match o with
  | None => ret None
  | Some len =>
      let byte_count := length_u32 w len in
      let count := byte_count / Z.of_nat n in
      let* p := gets pos in
      let new_pos := wrap 32 (p + byte_count) in
      if negb (byte_count mod Z.of_nat n =? 0) || (new_pos <? p) || (end_pos <? new_pos) then ret None
      else let* bs := read_bytes src p (Z.to_nat byte_count) in
           modify (fun c => c <| pos := new_pos |>) ;;; ret (Some (split_elems n of_bytes (Z.to_nat count) bs))
  end.
Definition bounded_memcpy_size (v : list A) : Z := wrap 32 (Z.of_nat w + wrap 32 (vec_size v * Z.of_nat n)).
Definition bounded_memcpy_impl : packable (list A) :=
  base_impl size_bytes true true [] [] is_nil (container_empty_at w) bounded_memcpy_pack bounded_memcpy_unpack sz None
    bounded_memcpy_size (fun v => if is_nil v then 0 else bounded_memcpy_size v).
End BoundedMemcpy.

(** ** [packable_bounded_container_impl]: at most [N] elements of any other type *)
Section BoundedContainer.
Context {A : Type} (N : Z) (p : packable A).
Definition bounded_container_length : nat := bounded_length (N * sz).
Abbreviation w := bounded_container_length.
Definition bounded_container_pack (S : Type) (_ : Stream S) (v : list A) : M S unit :=
  let num_bytes := wrap 32 (vec_size v * fixed_size p) in
  st_write (to_le w num_bytes) ;;;
  let* fixed_pos := gets (fun s => wrap 32 (st_written s)) in
  each (embedded_fixed_pack p) v ;;;
  pack_heap p (fixed_size p) fixed_pos v.
Definition bounded_container_unpack (old : list A) (src : list Z) (end_pos : Z) : M cursor (option (list A)) :=
  modify (fun c => c <| known_end := true |>) ;;;
  let* o := on_pos (unpack_numeric false w src end_pos) in
  match o with
  | None => ret None
  | Some len =>
      let num_bytes := length_u32 w len in
      if fixed_size p =? 0 then undefined else
      let size := num_bytes / fixed_size p in
      let* fixed := gets pos in
      let heap := wrap 32 (fixed + num_bytes) in
      if negb (num_bytes mod fixed_size p =? 0) || (heap <? fixed) || (end_pos <? heap) then ret None
      else in_region fixed heap (unpack_items p (resize_to (default_value p) old (Z.to_nat size)) src heap end_pos)
  end.
Definition bounded_container_impl : packable (list A) :=
  base_impl size_bytes true true [] [] is_nil (container_empty_at w) bounded_container_pack bounded_container_unpack sz None
    (base_packed_size bounded_container_pack) (base_variable_packed_size true is_nil bounded_container_pack).
End BoundedContainer.

(** ** [packable_bitlist_impl] *)
Record bitlist := { bl_count : Z; bl_bytes : list Z }.
Definition bitlist_default : bitlist := {| bl_count := 0; bl_bytes := [] |}.
Section Bitlist.
Context (MaxN : Z).
Definition bitlist_length : nat := bounded_length MaxN.
Abbreviation w := bitlist_length.
Definition bits_to_bytes (bit_count : Z) : Z := (bit_count + 7) / 8.
Definition bitlist_empty (v : bitlist) : bool := bl_count v =? 0.
Definition bitlist_pack (S : Type) (_ : Stream S) (v : bitlist) : M S unit :=
  st_write (to_le w (bl_count v)) ;;;
  (if is_nil (bl_bytes v) then ret tt else st_write (bl_bytes v)).
(** The bits of the last byte behind [bit_count] are zero. *)
Definition trailing_clear (bit_count last : Z) : bool :=
  let mask := wrap 8 (Z.shiftl 1 (Z.land bit_count 7) - 1) in Z.land last (Z.lnot mask) =? 0.
Definition check_trailing {S} (bit_count byte_count : Z) (src : list Z) (p : Z) : M S bool :=
  if (0 <? byte_count) && negb (Z.land bit_count 7 =? 0) then
    let* b := read_bytes src (p + byte_count - 1) 1 in ret (trailing_clear bit_count (of_le b))
  else ret true.
Definition bitlist_unpack (_ : bitlist) (src : list Z) (end_pos : Z) : M cursor (option bitlist) :=
  modify (fun c => c <| known_end := true |>) ;;;
  let* o := on_pos (unpack_numeric false w src end_pos) in
  match o with
  | None => ret None
  | Some len =>
      let bit_count := length_u32 w len in
      let byte_count := wrap 32 (bit_count + 7) / 8 in
      let* p := gets pos in
      let new_pos := wrap 32 (p + byte_count) in
      if (MaxN <? bit_count) || (new_pos <? p) || (end_pos <? new_pos) then ret None
      else
        let* clear := check_trailing bit_count byte_count src p in
        if negb clear then ret None
        else let* bs := read_bytes src p (Z.to_nat (bits_to_bytes bit_count)) in
             modify (fun c => c <| pos := new_pos |>) ;;; ret (Some {| bl_count := bit_count; bl_bytes := bs |})
  end.
Definition bitlist_size (v : bitlist) : Z := wrap 32 (Z.of_nat w + wrap 32 (bits_to_bytes (bl_count v))).
Definition bitlist_impl : packable bitlist :=
  base_impl size_bytes true true bitlist_default bitlist_default bitlist_empty (container_empty_at w) bitlist_pack bitlist_unpack sz None
    bitlist_size (fun v => if bitlist_empty v then 0 else bitlist_size v).
End Bitlist.

(** ** [is_packable<std::vector<bool>>] *)
Definition pack_vector_bool (v : list bool) : list Z :=
  fold_left (fun out i => if nth i v false then alter (fun b => Z.lor b (Z.shiftl 1 (Z.of_nat (i mod 8)))) (i / 8)%nat out else out)
    (seq 0 (length v)) (repeat 0 ((length v + 7) / 8)%nat).
Definition vector_bool_pack (S : Type) (_ : Stream S) (v : list bool) : M S unit :=
  st_write (to_le size_bytes (vec_size v)) ;;;
  (if is_nil (pack_vector_bool v) then ret tt else st_write (pack_vector_bool v)).
(** The loop of [unpack_vector_bool] over the last [k] bits. *)
Fixpoint unpack_vector_bool {S} (k : nat) (i : Z) (src : list Z) (p : Z) : M S (list bool) :=
  match k with
  | O => ret []
  | Datatypes.S k =>
      let* b := read_bytes src (p + Z.shiftr i 3) 1 in
      let* r := unpack_vector_bool k (i + 1) src p in
      ret (negb (Z.land (of_le b) (Z.shiftl 1 (Z.land i 7)) =? 0) :: r)
  end.
Definition vector_bool_unpack (_ : list bool) (src : list Z) (end_pos : Z) : M cursor (option (list bool)) :=
  modify (fun c => c <| known_end := true |>) ;;;
  let* o := on_pos (unpack_numeric false size_bytes src end_pos) in
  match o with
  | None => ret None
  | Some bit_count =>
      let byte_count := wrap 32 (bit_count + 7) / 8 in
      let* p := gets pos in
      let new_pos := wrap 32 (p + byte_count) in
      if (new_pos <? p) || (end_pos <? new_pos) then ret None
      else
        let* clear := check_trailing bit_count byte_count src p in
        if negb clear then ret None
        else let* v := unpack_vector_bool (Z.to_nat bit_count) 0 src p in
             modify (fun c => c <| pos := new_pos |>) ;;; ret (Some v)
  end.
Definition vector_bool_size (v : list bool) : Z := wrap 32 (sz + wrap 32 (bits_to_bytes (vec_size v))).
Definition vector_bool_impl : packable (list bool) :=
  base_impl size_bytes true true [] [] is_nil (container_empty_at size_bytes) vector_bool_pack vector_bool_unpack sz None
    vector_bool_size (fun v => if is_nil v then 0 else vector_bool_size v).

(** ** [packable_associative_container_impl]: [insert] is that of the container *)
Section Associative.
Context {A : Type} (p : packable A) (insert : A -> list A -> list A).
Fixpoint insert_items (k : nat) (value : list A) (src : list Z) (end_fixed_pos end_pos : Z) : M ecursor (option (list A)) :=
  match k with
  | O => ret (Some value)
  | S k =>
      let* o := embedded_unpack p false (default_value p) src end_fixed_pos end_pos in
      match o with None => ret None | Some item => insert_items k (insert item value) src end_fixed_pos end_pos end
  end.
Definition associative_unpack (_ : list A) (src : list Z) (end_pos : Z) : M cursor (option (list A)) :=
  let* o := on_pos (unpack_numeric false size_bytes src end_pos) in
  match o with
  | None => ret None
  | Some bytes =>
      if fixed_size p =? 0 then undefined else
      let size := bytes / fixed_size p in
      let* fixed := gets pos in
      let heap := wrap 32 (fixed + bytes) in
      modify (fun c => c <| known_end := true |>) ;;;
      if negb (bytes mod fixed_size p =? 0) || (heap <? fixed) || (end_pos <? heap) then ret None
      else in_region fixed heap (insert_items (Z.to_nat size) [] src heap end_pos)
  end.
Definition associative_impl : packable (list A) :=
  base_impl size_bytes true true [] [] is_nil (container_empty_at size_bytes) (container_pack size_bytes p) associative_unpack sz None
    (base_packed_size (container_pack size_bytes p)) (base_variable_packed_size true is_nil (container_pack size_bytes p)).
End Associative.
End Format.

(** ** Laws *)
Lemma bounded_length_small N : N < 2 ^ 32 -> (bounded_length N <= 4)%nat /\ N < limit (bounded_length N) /\ limit (bounded_length N) <= 2 ^ 32.
Proof.
  intros HN. unfold bounded_length, limit. change (Z.shiftl 1 8) with 256. change (Z.shiftl 1 16) with 65536. change (Z.shiftl 1 32) with 4294967296.
  destruct (Z.ltb_spec N 256); [cbn; lia|]. destruct (Z.ltb_spec N 65536); [cbn; lia|]. destruct (Z.ltb_spec N 4294967296); cbn; lia.
Qed.
Lemma length_small w len : (w <= 4)%nat -> length_u32 w len = len.
Proof. intros H. unfold length_u32. now rewrite (proj2 (Nat.leb_le w 4) H). Qed.

Section Laws.
Context (size_bytes : nat) (Hfmt : frac_format size_bytes).
Abbreviation sz := (Z.of_nat size_bytes).

Section BoundedMemcpy.
Context {A : Type} (N : Z) (n : nat) (to_bytes : A -> list Z) (of_bytes : list Z -> A) (V : A -> Prop).
Context (Hlen : forall a, V a -> length (to_bytes a) = n) (Hof : forall a, V a -> of_bytes (to_bytes a) = a).
Context (Hto : forall bs, Forall (in_u 8) bs -> length bs = n -> V (of_bytes bs) /\ to_bytes (of_bytes bs) = bs) (Hpos : (0 < n)%nat) (HN : N * Z.of_nat n < 2 ^ 32).
Abbreviation w := (bounded_memcpy_length N n).
Abbreviation p := (bounded_memcpy_impl size_bytes N n to_bytes of_bytes).
Definition bounded_memcpy_layout : layout (list A) :=
  base_layout size_bytes true true [] [] is_nil (container_empty_at w) (bounded_memcpy_pack N n to_bytes) (bounded_memcpy_unpack N n of_bytes) sz None
    (bounded_memcpy_size N n) (fun v => if is_nil v then 0 else bounded_memcpy_size N n v) (copied_ok n V w) (copied_enc n to_bytes w).
(** A list within its bound fits its length prefix. *)
Lemma bounded_memcpy_fits v : Forall V v -> vec_size v <= N -> wf bounded_memcpy_layout v.
Proof.
  intros Hv Hle. split; [exact Hv|]. destruct (bounded_length_small _ HN) as (_ & Hlt & _). unfold bounded_memcpy_length. nia.
Qed.
Lemma bounded_memcpy_eq v src en u k q : exists k', bounded_memcpy_unpack N n of_bytes v src en (Cursor u k q) = container_memcpy_unpack w n of_bytes v src en (Cursor u k' q).
Proof.
  exists true. unfold bounded_memcpy_unpack, container_memcpy_unpack, bind, modify, gets, on_pos, zoom.
  change ((Cursor u k q) <| known_end := true |>) with (Cursor u true q). cbn [pos]. destruct (unpack_numeric false w src en q) as [[len|] q1|y q1|]; try reflexivity.
  rewrite length_small by apply (bounded_length_small _ HN). cbn. destruct (_ || _ || _); [reflexivity|]. destruct (read_bytes _ _ _ _); reflexivity.
Qed.
Lemma bounded_memcpy_packs : packs_ok size_bytes p bounded_memcpy_layout.
Proof.
  assert (Hsz : forall v, copied_ok n V w v -> vec_size (copied_enc n to_bytes w v) < 2 ^ 32 -> bounded_memcpy_size N n v = vec_size (copied_enc n to_bytes w v)).
  { intros v [Hv _]. unfold copied_enc, bounded_memcpy_size. rewrite vec_size_app, to_le_size, (concat_size _ n) by (eapply List.Forall_impl; [|exact Hv]; exact Hlen).
    pose proof (vec_size_nonneg v). intros Hs. rewrite !wrap_small; [reflexivity| |rewrite wrap_small]; split; nia. }
  apply base_packs_ok; auto; try discriminate; [lia| |].
  - intros v _. unfold bounded_memcpy_pack. apply (packs_app _ _ (fun S H => st_write _)); [apply packs_write|].
    destruct v as [|x v]; [exact packs_nil|]. destruct (Z.eqb_spec (vec_size (x :: v)) 0) as [E|_]; [unfold vec_size in E; cbn in E; lia|apply packs_write].
  - intros v Hv Hs. cbn [heap base_layout] in *. unfold vheap in *. cbn [is_empty_container base_impl enc] in *. destruct v as [|x v]; [reflexivity|]. now apply Hsz.
Qed.
Lemma bounded_memcpy_reads : reads_ok size_bytes p bounded_memcpy_layout.
Proof. apply copied_reads with (of_bytes := of_bytes); auto; [apply (bounded_length_small _ HN)|exact bounded_memcpy_eq]. Qed.
Lemma bounded_memcpy_sound : sound_ok size_bytes p bounded_memcpy_layout.
Proof. apply copied_sound with (of_bytes := of_bytes); auto; [apply (bounded_length_small _ HN)|exact bounded_memcpy_eq]. Qed.
End BoundedMemcpy.

Section BoundedContainer.
Context {A : Type} (N : Z) (p : packable A) (L : layout A) (Hp : packs_ok size_bytes p L) (Hpos : 0 < fixed_size p) (HN : N * sz < 2 ^ 32).
Abbreviation w := (bounded_container_length size_bytes N).
Abbreviation bp := (bounded_container_impl size_bytes N p).
Definition bounded_container_layout : layout (list A) :=
  base_layout size_bytes true true [] [] is_nil (container_empty_at w) (bounded_container_pack size_bytes N p) (bounded_container_unpack size_bytes N p) sz None
    (base_packed_size (bounded_container_pack size_bytes N p)) (base_variable_packed_size true is_nil (bounded_container_pack size_bytes N p)) (items_ok p L w) (items_enc p L w).
(** So does one of elements that are no wider than an offset; of wider ones it may not. *)
Lemma bounded_container_fits v : fixed_size p <= sz -> Forall (wf L) v -> vec_size v <= N -> wf bounded_container_layout v.
Proof.
  intros Hw Hv Hle. split; [exact Hv|]. destruct (bounded_length_small _ HN) as (_ & Hlt & _). pose proof (vec_size_nonneg v).
  unfold bounded_container_length. nia.
Qed.
Lemma bounded_container_eq v src en u k q : exists k', bounded_container_unpack size_bytes N p v src en (Cursor u k q) = container_unpack w p v src en (Cursor u k' q).
Proof.
  exists true. unfold bounded_container_unpack, container_unpack, bind, modify, gets, on_pos, zoom.
  change ((Cursor u k q) <| known_end := true |>) with (Cursor u true q). cbn [pos]. destruct (unpack_numeric false w src en q) as [[len|] q1|y q1|]; try reflexivity.
  rewrite length_small by apply (bounded_length_small _ HN). cbn. destruct (fixed_size p =? 0); [reflexivity|]. cbn. now destruct (_ || _ || _).
Qed.
Lemma bounded_container_pack_ok v : items_ok p L w v -> packs (items_enc p L w v) (fun S H => bounded_container_pack size_bytes N p S H v).
Proof.
  intros [Hv Hl]. pose proof (vec_size_nonneg v). destruct (bounded_length_small _ HN) as (_ & _ & H32). change (bounded_length (N * sz)) with w in H32.
  unfold bounded_container_pack. rewrite wrap_small by (split; nia). apply (packs_app _ _ (fun S H => st_write _)); [apply packs_write|]. apply (elements_pack size_bytes); auto.
Qed.
Lemma bounded_container_packs : packs_ok size_bytes bp bounded_container_layout.
Proof.
  apply base_packs_ok; auto; try discriminate; [lia|exact bounded_container_pack_ok| |].
  - intros v Hv Hs. exact (base_size_ok _ _ _ v bounded_container_pack_ok Hv Hs).
  - intros v Hv Hs. exact (base_vsize_ok size_bytes _ _ _ _ _ _ _ _ _ _ _ _ _ _ v bounded_container_pack_ok Hv Hs).
Qed.
Lemma bounded_container_reads : reads_ok size_bytes p L -> reads_ok size_bytes bp bounded_container_layout.
Proof. apply prefix_reads; auto; [apply (bounded_length_small _ HN)|exact bounded_container_eq]. Qed.
Lemma bounded_container_sound : sound_ok size_bytes p L -> sound_ok size_bytes bp bounded_container_layout.
Proof. apply prefix_sound; auto; [apply (bounded_length_small _ HN)|exact bounded_container_eq]. Qed.
End BoundedContainer.

Section Bitlist.
Context (MaxN : Z) (HM : MaxN + 7 < 2 ^ 32).
Abbreviation w := (bitlist_length MaxN).
Abbreviation pw := (Z.of_nat w).
Definition bitlist_ok (v : bitlist) : Prop :=
  0 <= bl_count v <= MaxN /\ vec_size (bl_bytes v) = bits_to_bytes (bl_count v) /\ Forall (in_u 8) (bl_bytes v) /\
  (Z.land (bl_count v) 7 <> 0 -> trailing_clear (bl_count v) (List.last (bl_bytes v) 0) = true).
Definition bitlist_enc (v : bitlist) : list Z := to_le w (bl_count v) ++ bl_bytes v.
Definition bitlist_layout : layout bitlist :=
  base_layout size_bytes true true bitlist_default bitlist_default bitlist_empty (container_empty_at w) (bitlist_pack MaxN) (bitlist_unpack MaxN) sz None
    (bitlist_size MaxN) (fun v => if bitlist_empty v then 0 else bitlist_size MaxN v) bitlist_ok bitlist_enc.
Lemma bitlist_limit : (w <= 4)%nat /\ MaxN < limit w /\ limit w <= 2 ^ 32.
Proof. apply bounded_length_small. lia. Qed.
Lemma bits_nonneg z : 0 <= z -> 0 <= bits_to_bytes z /\ (z <> 0 -> 0 < bits_to_bytes z).
Proof. intros Hz. unfold bits_to_bytes. split; [apply Z.div_pos; lia|]. intros H. apply Z.div_str_pos. lia. Qed.
Lemma bitlist_packs : packs_ok size_bytes (bitlist_impl size_bytes MaxN) bitlist_layout.
Proof.
  assert (Hsz : forall v, bitlist_ok v -> vec_size (bitlist_enc v) < 2 ^ 32 -> bitlist_size MaxN v = vec_size (bitlist_enc v)).
  { intros v (H0 & Hl & _). unfold bitlist_enc, bitlist_size. rewrite vec_size_app, to_le_size, Hl. intros Hs. destruct (bits_nonneg (bl_count v) ltac:(lia)) as [Hb _].
    rewrite !wrap_small; [reflexivity| |rewrite wrap_small]; split; lia. }
  apply base_packs_ok; auto; try discriminate; [lia| |].
  - intros v _. unfold bitlist_pack, bitlist_enc. apply (packs_app _ _ (fun S H => st_write _)); [apply packs_write|]. destruct (bl_bytes v); [exact packs_nil|apply packs_write].
  - intros v Hv Hs. cbn [heap base_layout] in *. unfold vheap in *. cbn [is_empty_container base_impl enc] in *. destruct (bitlist_empty v); [reflexivity|]. now apply Hsz.
Qed.
Lemma bitlist_empty_at S src q en (s : S) v : bitlist_ok v -> holds src q (bitlist_enc v) -> q + vec_size (bitlist_enc v) <= en -> en <= vec_size src -> vec_size src < 2 ^ 32 ->
  container_empty_at w S src q en s = Ok (bitlist_empty v) s.
Proof.
  intros (H0 & _) Hh Hq He Hs. unfold bitlist_enc in *. apply holds_app in Hh as [Hh _]. rewrite vec_size_app, to_le_size in Hq. pose proof (vec_size_nonneg (bl_bytes v)).
  pose proof bitlist_limit. now rewrite (container_empty_complete w S _ _ _ _ _ Hh) by lia.
Qed.
Lemma bitlist_default_eq v : bitlist_ok v -> bitlist_empty v = true -> v = bitlist_default.
Proof.
  intros (_ & Hl & _) He. apply Z.eqb_eq in He. destruct v as [c bs]. cbn in *. subst c. change (bits_to_bytes 0) with 0 in Hl. destruct bs; [reflexivity|]. unfold vec_size in Hl. cbn in Hl. lia.
Qed.
(** The last byte is where it is read. *)
Lemma last_held src p bs : holds src p bs -> 0 < vec_size bs -> holds src (p + vec_size bs - 1) [List.last bs 0].
Proof.
  intros Hh Hl. destruct bs as [|b bs] using rev_ind; [unfold vec_size in Hl; cbn in Hl; lia|]. rewrite List.last_last. apply holds_app in Hh as [_ Hh].
  rewrite vec_size_app. change (vec_size [b]) with 1. now replace (p + (vec_size bs + 1) - 1) with (p + vec_size bs) by lia.
Qed.
Lemma check_complete {S} count src p bs (s : S) : holds src p bs -> vec_size bs = bits_to_bytes count -> 0 <= count ->
  check_trailing count (bits_to_bytes count) src p s = Ok ((Z.land count 7 =? 0) || trailing_clear count (List.last bs 0)) s.
Proof.
  intros Hh Hl H0. unfold check_trailing. destruct (Z.eqb_spec (Z.land count 7) 0) as [E|E]; cbn [negb andb orb]; [now rewrite andb_false_r|].
  destruct (Z.ltb_spec 0 (bits_to_bytes count)) as [H1|H1].
  - cbn [andb]. unfold bind. pose proof (holds_read _ _ _ s (last_held src p bs Hh ltac:(lia))) as Hr. rewrite Hl in Hr. cbn [length] in Hr. rewrite Hr. cbn [of_le].
    change (Z.shiftl 0 8) with 0. now rewrite Z.add_0_r.
  - exfalso. destruct (bits_nonneg count H0) as [_ Hb]. apply E. destruct (Z.eq_dec count 0) as [->|Hn]; [reflexivity|]. specialize (Hb Hn). lia.
Qed.
Lemma bitlist_complete v src en u k q : bitlist_ok v -> holds src q (bitlist_enc v) -> q + vec_size (bitlist_enc v) <= en -> en <= vec_size src -> vec_size src < 2 ^ 32 ->
  bitlist_unpack MaxN bitlist_default src en (Cursor u k q) = Ok (Some v) (Cursor u true (q + vec_size (bitlist_enc v))).
Proof.
  intros (H0 & Hl & Hb & Ht) Hh Hq He Hs. unfold bitlist_enc in *. apply holds_app in Hh as [Hh Hc]. pose proof Hh as (Hq0 & _ & _). rewrite vec_size_app, to_le_size, Hl in *.
  destruct (bits_nonneg (bl_count v) ltac:(lia)) as [Hn _]. destruct bitlist_limit as (Hw4 & HwM & Hw32). unfold bitlist_unpack, bind at 1, modify. change ((Cursor u k q) <| known_end := true |>) with (Cursor u true q).
  unfold bind at 1, on_pos, zoom. cbn [pos]. rewrite (numeric_complete false w (bl_count v)) by (auto; lia). rewrite (wrap_small (8 * pw)) by (split; [lia|unfold limit in HwM; lia]).
  rewrite length_small by exact Hw4. rewrite (wrap_small 32 (bl_count v + 7)) by (split; lia). change ((bl_count v + 7) / 8) with (bits_to_bytes (bl_count v)).
  unfold bind at 1, gets. cbn [pos]. change (pos ((Cursor u true q) <| pos := q + pw |>)) with (q + pw). rewrite (wrap_small 32 (q + pw + bits_to_bytes (bl_count v))) by (split; lia).
  destruct (Z.ltb_spec MaxN (bl_count v)); [lia|]. destruct (Z.ltb_spec (q + pw + bits_to_bytes (bl_count v)) (q + pw)); [lia|].
  destruct (Z.ltb_spec en (q + pw + bits_to_bytes (bl_count v))); [lia|]. cbn [orb]. unfold bind. rewrite (check_complete _ _ _ _ _ Hc Hl) by lia.
  assert (Hok : (Z.land (bl_count v) 7 =? 0) || trailing_clear (bl_count v) (List.last (bl_bytes v) 0) = true) by (destruct (Z.eqb_spec (Z.land (bl_count v) 7) 0); [reflexivity|now apply Ht]).
  rewrite Hok. cbn [negb]. rewrite <- Hl at 1. unfold vec_size at 1. rewrite Nat2Z.id, (holds_read _ _ _ _ Hc). cbn. rewrite Z.add_assoc. now destruct v.
Qed.
Lemma bitlist_safe v src en c : 0 <= pos c <= en -> en <= vec_size src -> vec_size src < 2 ^ 32 -> Forall (in_u 8) src ->
  runs (bitlist_unpack MaxN v src en) (prefix_post bitlist_default bitlist_ok bitlist_enc v src en c) c.
Proof.
  destruct c as [u k q]. cbn [pos]. intros Hq He Hs Hb. destruct bitlist_limit as (Hw4 & HwM & Hw32). unfold bitlist_unpack. apply runs_bind. unfold runs at 1, modify, wp. cbn.
  apply runs_bind. apply header_runs; auto; [apply runs_ret, prefix_none; cbn; [lia|auto]|]. intros z Hz Hh Hqn. rewrite length_small by exact Hw4.
  apply runs_bind. unfold runs at 1, gets, wp. cbn [pos]. destruct (_ || _ || _) eqn:Ec; [apply runs_ret, prefix_none; cbn; [lia|auto]|].
  rewrite !orb_false_iff, !Z.ltb_ge in Ec. destruct Ec as [[Ec1 Ec2] Ec3]. rewrite (wrap_small 32 (z + 7)) in * by (split; lia).
  change ((z + 7) / 8) with (bits_to_bytes z) in *. destruct (bits_nonneg z ltac:(lia)) as [Hn _]. assert (Hbz : bits_to_bytes z < 2 ^ 32) by (apply Z.div_lt_upper_bound; lia).
  assert (Hw : wrap 32 (q + pw + bits_to_bytes z) = q + pw + bits_to_bytes z) by (apply wrap_32_sum; lia). rewrite Hw in *.
  destruct (@read_holds cursor src (q + pw) (Z.to_nat (bits_to_bytes z)) (Cursor u true (q + pw))) as (bs & Er & Hc & Hl); [lia|lia|].
  assert (Hbl : vec_size bs = bits_to_bytes z) by (unfold vec_size; lia).
  apply runs_bind. unfold runs at 1, wp. rewrite (check_complete _ _ _ _ _ Hc Hbl) by lia. destruct (_ || _) eqn:Et; cbn [negb]; [|apply runs_ret, prefix_none; cbn; [lia|auto]].
  unfold runs, wp, bind. unfold read_bytes in Er |- *. destruct (_ && _); [|discriminate]. injection Er as Er. rewrite Er. cbn.
  split; [cbn; lia|]. split; [auto|]. intros a [= <-] _ Hu. unfold bitlist_ok, bitlist_enc. cbn [bl_count bl_bytes pos known_end]. rewrite vec_size_app, to_le_size, Hbl, holds_app, to_le_size.
  split; [reflexivity|]. split; [|split; [auto|lia]]. split; [lia|]. split; [reflexivity|]. split; [exact (holds_bytes _ _ _ Hb Hc)|].
  intros Hne. apply orb_true_iff in Et as [Et|Et]; [|exact Et]. apply Z.eqb_eq in Et. contradiction.
Qed.
Lemma bitlist_reads : reads_ok size_bytes (bitlist_impl size_bytes MaxN) bitlist_layout.
Proof.
  apply base_reads; try discriminate; auto using bitlist_default_eq.
  - intros S v src q en s Hv Hne _ _ Hh Hq He Hs. rewrite (bitlist_empty_at S src q en s v) by assumption. now rewrite Hne.
  - intros v src en u k q Hv _ Hh Hq He Hs. now apply bitlist_complete.
Qed.
Lemma bitlist_sound : 0 <= MaxN -> sound_ok size_bytes (bitlist_impl size_bytes MaxN) bitlist_layout.
Proof.
  intros H0. apply base_sound; try discriminate; auto using bitlist_default_eq.
  - intros v src en c Hq He Hs Hb. eapply runs_mono; [|apply bitlist_safe; auto]. intros o c' Hp. apply prefix_unpacked; [reflexivity|exact Hp].
  - intros S src q en s _ Hq He Hs. destruct (container_empty_safe w S src q en s Hq He Hs) as [b Eb]. exists b. split; [exact Eb|]. intros v -> Hv Hh Hqe.
    rewrite (bitlist_empty_at S src q en s v) in Eb by assumption. now injection Eb.
  - intros _. split; [|reflexivity]. split; [cbn; lia|]. split; [reflexivity|]. split; [constructor|]. intros Hne. now destruct Hne.
Qed.
End Bitlist.
End Laws.
