(* ===== verification/FracpackLoops.v ===== *)
(** * The loops over members

    Lenses, the loops of structs and tuples on arbitrary bytes, and the check of
    the slots that a type does not know. *)
From Stdlib Require Import ZArith Lia Bool String.
From stdpp Require Import base list numbers decidable option.
From S2P Require Import Prelude Fracpack FracpackSpec FracpackPack FracpackUnpack FracpackValues.

Lemma runs_and {S A} (m : M S A) (Q Q' : A -> S -> Prop) s : runs m Q s -> runs m Q' s -> runs m (fun a s' => Q a s' /\ Q' a s') s.
Proof. unfold runs, wp. destruct (m s); auto. Qed.

(** ** Members as lenses *)
Section Lenses.
Context {T : Type}.
Definition apart (m m' : member T) : Prop := forall x v, m_get m (m_set m' x v) = m_get m v.
(** A member reads what was assigned to it, and the others do not. *)
Fixpoint separate (ms : list (member T)) : Prop :=
  match ms with
  | [] => True
  | m :: ms => (forall x v, m_get m (m_set m x v) = x) /\ Forall (fun m' => apart m m' /\ apart m' m) ms /\ separate ms
  end.
(** [T()] default-constructs the members, which are all there is to a value. *)
Record lenses (dflt : T) (ms : list (member T)) : Prop := {
  ln_separate : separate ms;
  ln_default : Forall (fun m => m_get m dflt = default_value (m_packable m)) ms;
  ln_ext : forall a b, Forall (fun m => m_get m a = m_get m b) ms -> a = b }.
(** Assigning to [ms] does not change other members. *)
Definition keeps (ms : list (member T)) (v v' : T) : Prop := forall m, Forall (apart m) ms -> m_get m v' = m_get m v.
Definition fresh (v : T) (ms : list (member T)) : Prop := Forall (fun m => m_get m v = default_value (m_packable m)) ms.
Lemma fresh_set m x v ms : separate (m :: ms) -> fresh v (m :: ms) -> fresh (m_set m x v) ms.
Proof.
  intros (_ & Ha & _) Hf. apply Forall_cons_1 in Hf as [_ Hf]. induction Hf as [|m' ms E _ IH]; constructor; apply Forall_cons_1 in Ha as [[_ Hm] Ha].
  - now rewrite Hm.
  - now apply IH.
Qed.
Lemma keeps_cons m x v v' ms : separate (m :: ms) -> keeps ms (m_set m x v) v' -> m_get m v' = x /\ keeps (m :: ms) v v'.
Proof.
  intros (Hm & Ha & _) Hk. split.
  - rewrite (Hk m); [apply Hm|]. eapply List.Forall_impl; [|exact Ha]. now intros m' [H _].
  - intros m' Hm'. inversion Hm' as [|? ? H1 H2]; subst. now rewrite (Hk m' H2), H1.
Qed.
Lemma keeps_skip m v v' ms : keeps ms v v' -> keeps (m :: ms) v v'.
Proof. intros Hk m' Hm'. inversion Hm'; subst. now apply Hk. Qed.

(** All members of [a], one after the other. *)
Definition assign (a : T) (ms : list (member T)) (v : T) : T := fold_left (fun v m => m_set m (m_get m a) v) ms v.
Lemma assign_keeps a ms : forall v, separate ms -> keeps ms v (assign a ms v) /\ Forall (fun m => m_get m (assign a ms v) = m_get m a) ms.
Proof.
  induction ms as [|m ms IH]; intros v Hs; cbn [assign fold_left]; [split; [now intros m|constructor]|].
  destruct (IH (m_set m (m_get m a) v)) as [Hk Hg]; [apply Hs|]. destruct (keeps_cons _ _ _ _ _ Hs Hk) as [H1 H2]. split; [exact H2|]. now constructor.
Qed.
End Lenses.

Section Format.
Context (size_bytes : nat) (Hfmt : frac_format size_bytes).
Abbreviation sz := (Z.of_nat size_bytes).
Abbreviation limit := (limit size_bytes).

(** What the codecs built from a codec need of it. *)
Record lawful {A} (p : packable A) (L : layout A) : Prop := {
  lw_packs : packs_ok size_bytes p L; lw_reads : reads_ok size_bytes p L; lw_sound : sound_ok size_bytes p L }.

(** ** The loops over members *)
Section Members.
Context {T : Type}.
Definition lawful_member (l : lmember T) : Prop := lawful (m_packable (lm l)) (lm_layout l) /\ 0 < fixed_size (m_packable (lm l)).
Definition shows (v : T) (m : member T) : bool := negb (is_optional (m_packable m)) || has_value (m_packable m) (m_get m v).
Definition absent (v : T) (m : member T) : Prop := is_optional (m_packable m) = true /\ m_get m v = default_value (m_packable m).

(** [gated false] is [members_gated], [gated true] is [tuple_gated]. *)
Fixpoint gated (tup : bool) (ms : list (member T)) (v : T) (ok last : bool) (src : list Z) (ef eh : Z) : M ecursor (T * bool * bool) :=
  match ms with
  | [] => ret (v, ok, last)
  | m :: ms' =>
      let p := m_packable m in
      let* e := get in
      if (fixed_pos e <? ef) || negb (is_optional p) then
        let* has := (if negb tup && is_optional p then has_value_at p src (fixed_pos e) ef else ret true) in
        let* o := embedded_unpack p false (m_get m v) src ef eh in
        match o with
        | Some x => gated tup ms' (m_set m x v) ok (if tup then has_value p x else has) src ef eh
        | None => gated tup ms' v false (if tup then last else has) src ef eh
        end
      else gated tup ms' v ok last src ef eh
  end.
Lemma gated_struct ms src ef eh : forall v ok last e, members_gated ms v ok last src ef eh e = gated false ms v ok last src ef eh e.
Proof.
  induction ms as [|m ms IH]; intros v ok last e; [reflexivity|]. cbn [members_gated gated negb andb]. unfold bind, get.
  destruct (_ || _); [|apply IH]. destruct (is_optional (m_packable m)); [|unfold ret]; repeat case_match; auto.
Qed.
Lemma gated_tuple ms src ef eh : forall v ok last e, tuple_gated ms v ok last src ef eh e = gated true ms v ok last src ef eh e.
Proof.
  induction ms as [|m ms IH]; intros v ok last e; [reflexivity|]. cbn [tuple_gated gated negb andb]. unfold bind, get.
  destruct (_ || _); [|apply IH]. unfold ret at 1. destruct (embedded_unpack _ _ _ _ _ _ e) as [[x|] e2|x e2|]; auto.
Qed.

Lemma members_fixed_cons (m : member T) ms : members_fixed_size (m :: ms) = fixed_size (m_packable m) + members_fixed_size ms.
Proof. reflexivity. Qed.
(** Behind a loop over [ls] from [v] and [e]: within the bounds; and if all members
    were read and are known, the slots and heap parts of the [shown] members of
    the result have been read, and [R] says which these are. *)
Definition known_post (ls : list (lmember T)) (src : list Z) (ef : Z) (e : ecursor) (v' : T) (e' : ecursor) (R : list (lmember T) -> Prop) : Prop :=
  known_pos e' = true /\ exists shown rest, ls = shown ++ rest /\ Forall (member_wf v') shown /\ Forall (absent v') (map lm rest) /\
    holds src (fixed_pos e) (lay (heap_pos e - fixed_pos e) (map (member_cell v') shown)) /\ holds src (heap_pos e) (heaps (map (member_cell v') shown)) /\
    fixed_pos e' = fixed_pos e + sizes (map (member_cell v') shown) /\ heap_pos e' = heap_pos e + vec_size (heaps (map (member_cell v') shown)) /\
    (rest <> [] -> fixed_pos e' = ef) /\ R shown.
Definition loop_post (ls : list (lmember T)) (v : T) (ok : bool) (src : list Z) (ef eh : Z) (e : ecursor) (v' : T) (ok' : bool) (e' : ecursor) (R : list (lmember T) -> Prop) : Prop :=
  fixed_pos e <= fixed_pos e' <= ef /\ fixed_pos e' <= fixed_pos e + members_fixed_size (map lm ls) /\ heap_pos e <= heap_pos e' <= eh /\
  (e_unknown e = true -> e_unknown e' = true) /\ (ok' = true -> ok = true) /\ keeps (map lm ls) v v' /\
  (ok' = true -> fresh v (map lm ls) -> known_pos e = true -> e_unknown e' = false -> known_post ls src ef e v' e' R).
Lemma loop_nil v ok src ef eh e (R : list (lmember T) -> Prop) : 0 <= fixed_pos e <= ef -> ef <= heap_pos e <= eh -> eh <= vec_size src -> R [] ->
  loop_post [] v ok src ef eh e v ok e R.
Proof.
  intros Hf Hh Hs HR. unfold members_fixed_size. split; [lia|]. split; [cbn; lia|]. split; [lia|]. split; [auto|]. split; [auto|]. split; [now intros m|].
  intros _ _ Hk _. split; [exact Hk|]. exists [], []. unfold heaps, sizes. cbn [app map lay concat fold_right]. change (vec_size []) with 0.
  split; [reflexivity|]. split; [constructor|]. split; [constructor|]. split; [apply holds_nil; lia|]. split; [apply holds_nil; lia|]. split; [lia|]. split; [lia|]. split; [congruence|exact HR].
Qed.
(** The member failed. *)
Lemma loop_failed l ls v ok src ef eh e e1 v' ok' e' R R' :
  fixed_pos e <= fixed_pos e1 <= fixed_pos e + fixed_size (m_packable (lm l)) -> heap_pos e <= heap_pos e1 -> (e_unknown e = true -> e_unknown e1 = true) ->
  loop_post ls v false src ef eh e1 v' ok' e' R -> loop_post (l :: ls) v ok src ef eh e v' ok' e' R'.
Proof.
  intros P1 P2 P3 (Q1 & Q2 & Q3 & Q4 & Q5 & Q6 & _). unfold loop_post. cbn [map] in *. rewrite members_fixed_cons.
  split; [lia|]. split; [lia|]. split; [lia|]. split; [auto|]. split; [intros Hok; discriminate (Q5 Hok)|]. split; [now apply keeps_skip|]. intros Hok. discriminate (Q5 Hok).
Qed.
(** The member was read. *)
Lemma loop_read l ls v ok src ef eh e x e1 v' ok' e' (R R' : list (lmember T) -> Prop) : lawful_member l -> separate (map lm (l :: ls)) ->
  let p := m_packable (lm l) in let L := lm_layout l in
  embedded_post (fixed_size p) (default_value p) (wf L) (slot L) (heap L) (m_get (lm l) v) src ef eh e (Some x) e1 ->
  loop_post ls (m_set (lm l) x v) ok src ef eh e1 v' ok' e' R -> (m_get (lm l) v' = x -> forall shown, R shown -> R' (l :: shown)) ->
  loop_post (l :: ls) v ok src ef eh e v' ok' e' R'.
Proof.
  intros [Hl _] Hsep p L (P1 & P2 & P3 & P4 & P5) (Q1 & Q2 & Q3 & Q4 & Q5 & Q6 & Q7) HR. unfold loop_post. cbn [map] in *. rewrite members_fixed_cons. fold p.
  destruct (keeps_cons _ _ _ _ _ Hsep Q6) as [Hx Hk].
  split; [lia|]. split; [lia|]. split; [lia|]. split; [auto|]. split; [exact Q5|]. split; [exact Hk|]. intros Hok Hfr Hkn Hu.
  assert (Hu1 : e_unknown e1 = false) by (destruct (e_unknown e1); [rewrite Q4 in Hu by reflexivity; discriminate|reflexivity]).
  pose proof (fresh_set _ x _ _ Hsep Hfr) as Hfr'. apply Forall_cons_1 in Hfr as [Hd _]. destruct (P5 x eq_refl Hd Hkn Hu1) as (R1 & R2 & R3 & R4 & R5 & R6).
  destruct (Q7 Hok Hfr' R1 Hu) as (S1 & shown & rest & S2 & S3 & S4 & S5 & S6 & S7 & S8 & S9 & S10).
  split; [exact S1|]. exists (l :: shown), rest. unfold heaps, sizes in *. cbn [map lay concat fold_right app].
  change (c_size (member_cell v' l)) with (fixed_size p). change (c_slot (member_cell v' l)) with (slot L (m_get (lm l) v')). change (c_heap (member_cell v' l)) with (heap L (m_get (lm l) v')).
  rewrite Hx, !holds_app, vec_size_app, (po_slot _ _ _ (lw_packs _ _ Hl) _ _ R2). fold p. rewrite <- R5, <- R6.
  replace (heap_pos e - fixed_pos e - fixed_size p + vec_size (heap L x)) with (heap_pos e1 - fixed_pos e1) by lia.
  split; [now rewrite S2|]. split; [constructor; [unfold member_wf; now rewrite Hx|exact S3]|]. split; [exact S4|]. split; [auto|]. split; [auto|]. split; [lia|]. split; [lia|]. split; [exact S9|auto].
Qed.
Lemma shown_nil v (ls : list (lmember T)) : Forall lawful_member ls -> sizes (map (member_cell v) ls) <= 0 -> ls = [].
Proof.
  intros Hl Hs. destruct Hl as [|l ls [_ Hl] Hls]; [reflexivity|]. exfalso. rewrite cells_fixed in Hs. cbn [map] in Hs. rewrite members_fixed_cons in Hs.
  pose proof (members_fixed_nonneg size_bytes ls) as Hn. assert (0 <= members_fixed_size (map lm ls)); [|lia]. apply Hn. eapply List.Forall_impl; [|exact Hls].
  intros l' [H _]. apply H.
Qed.
(** There was no slot for the member. *)
Lemma loop_skip l ls v ok src ef eh e v' ok' e' (R R' : list (lmember T) -> Prop) : Forall lawful_member (l :: ls) -> separate (map lm (l :: ls)) ->
  ef <= fixed_pos e -> is_optional (m_packable (lm l)) = true -> (R [] -> R' []) ->
  loop_post ls v ok src ef eh e v' ok' e' R -> loop_post (l :: ls) v ok src ef eh e v' ok' e' R'.
Proof.
  intros Hls Hsep He Ho HR (Q1 & Q2 & Q3 & Q4 & Q5 & Q6 & Q7). apply Forall_cons_1 in Hls as [[_ Hl] Hls]. unfold loop_post. cbn [map] in *. rewrite members_fixed_cons.
  split; [lia|]. split; [lia|]. split; [lia|]. split; [auto|]. split; [auto|]. split; [now apply keeps_skip|]. intros Hok Hfr Hkn Hu.
  apply Forall_cons_1 in Hfr as [Hd Hfr]. destruct (Q7 Hok Hfr Hkn Hu) as (S1 & shown & rest & S2 & S3 & S4 & S5 & S6 & S7 & S8 & S9 & S10).
  assert (shown = []); [|subst shown].
  { apply (shown_nil v'); [|lia]. rewrite S2 in Hls. now apply Forall_app in Hls as [Hls _]. }
  split; [exact S1|]. exists [], (l :: ls). cbn [map app lay] in *. unfold heaps, sizes in *. cbn [map concat fold_right] in *. subst ls.
  split; [reflexivity|]. split; [constructor|]. split; [constructor; [|exact S4]|].
  { split; [exact Ho|]. rewrite <- Hd. apply Q6. eapply List.Forall_impl; [|exact (proj1 (proj2 Hsep))]. now intros m [H _]. }
  split; [exact S5|]. split; [exact S6|]. split; [exact S7|]. split; [exact S8|]. split; [lia|auto].
Qed.

Lemma gated_sound tup src ef eh ls : Forall lawful_member ls -> separate (map lm ls) -> eh <= vec_size src -> vec_size src < 2 ^ 32 -> Forall (in_u 8) src ->
  forall v ok last e, 0 <= fixed_pos e <= ef -> ef <= heap_pos e <= eh ->
  runs (gated tup (map lm ls) v ok last src ef eh)
    (fun r e' => loop_post ls v ok src ef eh e r.1.1 r.1.2 e' (fun shown => r.2 = fold_left (fun _ m => shows r.1.1 m) (map lm shown) last)) e.
Proof.
  intros Hls Hsep Hsrc H32 Hb. induction ls as [|l ls IH]; intros v ok last e Hf Hh; [apply runs_ret; cbn; now apply loop_nil|].
  pose proof (Forall_cons_1 _ _ _ Hls) as [Hl Hls']. pose proof (proj1 Hl) as [Hp Hr Hs]. cbn [map gated]. specialize (IH Hls' (proj2 (proj2 Hsep))).
  apply runs_bind. unfold runs at 1, get, wp. destruct (_ || _) eqn:Eg.
  - apply runs_bind. set (p := m_packable (lm l)) in *.
    assert (Hhas : exists has, (if negb tup && is_optional p then has_value_at p src (fixed_pos e) ef else ret true) e = Ok has e /\
      (tup = false -> is_optional p = false -> has = true)).
    { destruct (negb tup && is_optional p) eqn:Et; [|now exists true]. destruct (so_has_value _ _ _ Hs ecursor src ef (fixed_pos e) e) as [b Eb]; try lia.
      exists b. split; [exact Eb|]. intros -> Eo. now rewrite Eo in Et. }
    destruct Hhas as (has & Ehas & Htrue). unfold runs at 1, wp. rewrite Ehas. apply runs_bind.
    eapply runs_mono; [|apply runs_and; [apply (so_embedded _ _ _ Hs); auto; discriminate|apply (so_seen _ _ _ Hs ecursor e); auto; discriminate]].
    intros o e1 [P Hseen]. cbn beta in Hseen. pose proof P as (P1 & P2 & P3 & P4 & _). destruct o as [x|].
    + eapply runs_mono; [|apply IH; lia]. intros r e' Hpost. eapply loop_read; [exact Hl|exact Hsep|exact P|exact Hpost|]. cbn beta. intros Hx shown ->.
      cbn [map fold_left]. f_equal. unfold shows. fold p. rewrite Hx. specialize (Hseen x eq_refl). destruct tup; cbn [negb andb] in *.
      * destruct (is_optional p) eqn:Eo; [reflexivity|]. now rewrite (ro_present _ _ _ Hr).
      * destruct (is_optional p) eqn:Eo; [|now rewrite Htrue]. cbn. rewrite Hseen in Ehas. congruence.
    + eapply runs_mono; [|apply IH; lia]. intros r e' Hpost. eapply loop_failed; [| | |exact Hpost]; auto; lia.
  - apply orb_false_iff in Eg as [Eg1 Eg2]. apply Z.ltb_ge in Eg1. apply negb_false_iff in Eg2. eapply runs_mono; [|apply IH; auto].
    intros r e' Hpost. eapply loop_skip; [exact Hls|exact Hsep|exact Eg1|exact Eg2| |exact Hpost]. auto.
Qed.

(** How [members_all] and [members_inline] read a member. *)
Definition all_read {A} (p : packable A) (v : A) (src : list Z) (ef eh : Z) : M ecursor (option A) :=
  if is_variable_size p then embedded_unpack p true v src ef eh
  else match memcpy_value p with
       | Some of_bytes =>
           let* q := gets fixed_pos in
           let* bs := read_bytes src q (Z.to_nat (fixed_size p)) in
           modify (fun e => e <| fixed_pos := wrap 32 (q + fixed_size p) |>) ;;; ret (Some (of_bytes bs))
       | None => at_fixed (unpack p v src ef)
       end.
Definition inline_read {A} (p : packable A) (v : A) (src : list Z) (en : Z) : M cursor (option A) :=
  match memcpy_value p with
  | Some of_bytes =>
      let* q := gets pos in
      let* bs := read_bytes src q (Z.to_nat (fixed_size p)) in
      modify (fun c => c <| pos := wrap 32 (q + fixed_size p) |>) ;;; ret (Some (of_bytes bs))
  | None => unpack p v src en
  end.
Definition inline_post {A} (p : packable A) (L : layout A) (v : A) (src : list Z) (c : cursor) (o : option A) (c' : cursor) : Prop :=
  pos c <= pos c' <= pos c + fixed_size p /\ (has_unknown c = true -> has_unknown c' = true) /\
  forall a, o = Some a -> v = default_value p -> known_end c = true -> has_unknown c' = false ->
    known_end c' = true /\ wf L a /\ holds src (pos c) (enc L a) /\ pos c' = pos c + fixed_size p.
Lemma inline_size_of {A} (p : packable A) L a : packs_ok size_bytes p L -> is_variable_size p = false -> wf L a -> vec_size (enc L a) = fixed_size p.
Proof. intros Hp Hv Ha. destruct (po_inline _ _ _ Hp a Hv Ha) as (_ & E & _). rewrite <- (E 0). now apply (po_slot _ _ _ Hp). Qed.
Lemma inline_read_sound {A} (p : packable A) L v src en c : lawful p L -> is_variable_size p = false -> 0 <= pos c -> pos c + fixed_size p <= en -> en <= vec_size src ->
  vec_size src < 2 ^ 32 -> Forall (in_u 8) src -> runs (inline_read p v src en) (inline_post p L v src c) c.
Proof.
  intros [Hp Hr Hs] Hv Hq Hen Hsrc H32 Hb. pose proof (po_nonneg _ _ _ Hp). unfold inline_read. destruct (memcpy_value p) as [f|] eqn:Em.
  - destruct c as [u k q]. cbn [pos] in *. unfold runs, wp, bind, gets. cbn [pos].
    edestruct (@read_holds cursor src q (Z.to_nat (fixed_size p))) as (bs & -> & Hh & Hl); [lia|lia|]. cbn. rewrite wrap_small by (split; lia).
    split; [cbn; lia|]. split; [auto|]. cbn. intros a [= <-] _ Hk Hu. assert (Hbl : vec_size bs = fixed_size p) by (unfold vec_size; lia).
    destruct (so_memcpy _ _ _ Hs f bs Em (holds_bytes _ _ _ Hb Hh) Hbl) as [Hw He]. rewrite He. auto.
  - eapply runs_mono; [|apply (so_unpack _ _ _ Hs); auto; lia]. intros o c' (P1 & P2 & P3 & P4). specialize (P2 Hv). split; [lia|]. split; [exact P3|].
    intros a -> -> Hk Hu. destruct (P4 a eq_refl eq_refl Hu) as (R1 & R2 & R3 & R4). rewrite (inline_size_of p L a Hp Hv R2) in R4. auto.
Qed.
Lemma inline_read_complete {A} (p : packable A) L a src en u q : lawful p L -> is_variable_size p = false -> wf L a -> vec_size (enc L a) < limit ->
  holds src q (enc L a) -> q + fixed_size p <= en -> en <= vec_size src -> vec_size src < 2 ^ 32 ->
  inline_read p (default_value p) src en (Cursor u true q) = Ok (Some a) (Cursor u true (q + fixed_size p)).
Proof.
  intros [Hp Hr Hs] Hv Ha Hl Hh Hq He H32. pose proof Hh as (H0 & _ & _). pose proof (inline_size_of p L a Hp Hv Ha) as Hsz. unfold inline_read.
  destruct (memcpy_value p) as [f|] eqn:Em; [|rewrite <- Hsz; apply (ro_unpack _ _ _ Hr); auto; lia].
  unfold bind, gets. cbn [pos]. replace (Z.to_nat (fixed_size p)) with (length (enc L a)) by (unfold vec_size in Hsz; lia). rewrite (holds_read _ _ _ _ Hh). cbn.
  destruct (ro_memcpy _ _ _ Hr f Em) as [_ Hf]. pose proof (po_nonneg _ _ _ Hp). now rewrite Hf, wrap_small by (auto; split; lia).
Qed.
(** Without a heap part, the first is the second at the fixed position. *)
Lemma all_read_inline {A} (p : packable A) v src ef eh e : is_variable_size p = false -> all_read p v src ef eh e = at_fixed (inline_read p v src ef) e.
Proof.
  intros Hv. unfold all_read, inline_read. rewrite Hv. destruct (memcpy_value p) as [f|]; [|reflexivity]. destruct e as [u k fp hp].
  unfold at_fixed, zoom, bind, gets. cbn. unfold read_bytes. destruct (_ && _); reflexivity.
Qed.
Lemma all_read_sound {A} (p : packable A) L v src ef eh e : lawful p L -> 0 <= fixed_pos e -> fixed_pos e + fixed_size p <= ef -> ef <= heap_pos e <= eh -> eh <= vec_size src ->
  vec_size src < 2 ^ 32 -> Forall (in_u 8) src ->
  runs (all_read p v src ef eh) (embedded_post (fixed_size p) (default_value p) (wf L) (slot L) (heap L) v src ef eh e) e.
Proof.
  intros Hl Hf Hef Hh Hsrc H32 Hb. pose proof (po_nonneg _ _ _ (lw_packs _ _ Hl)). destruct (is_variable_size p) eqn:Ev.
  - unfold all_read. rewrite Ev. apply (so_embedded _ _ _ (lw_sound _ _ Hl)); auto; lia.
  - unfold runs, wp. rewrite all_read_inline by exact Ev. unfold at_fixed, zoom.
    pose proof (inline_read_sound p L v src ef (Cursor (e_unknown e) (known_pos e) (fixed_pos e)) Hl Ev Hf Hef ltac:(lia) H32 Hb) as Hi. unfold runs, wp in Hi.
    destruct (inline_read p v src ef _) as [o c|x c|]; try contradiction. destruct Hi as (P1 & P2 & P3). destruct e as [u k fp hp]. cbn in *.
    split; [cbn; lia|]. split; [cbn; lia|]. split; [cbn; lia|]. split; [exact P2|]. cbn. intros a -> -> Hk Hu. destruct (P3 a eq_refl eq_refl Hk Hu) as (R1 & R2 & R3 & R4).
    destruct (po_inline _ _ _ (lw_packs _ _ Hl) a Ev R2) as (_ & -> & ->). change (vec_size []) with 0.
    split; [exact R1|]. split; [exact R2|]. split; [exact R3|]. split; [apply holds_nil; lia|]. lia.
Qed.
Lemma all_read_complete {A} (p : packable A) L a src ef eh u fp hp : lawful p L -> wf L a -> vec_size (heap L a) < limit -> holds src fp (slot L a (hp - fp)) -> holds src hp (heap L a) ->
  fp + fixed_size p <= ef -> ef <= hp -> hp - fp < limit -> hp + vec_size (heap L a) <= eh -> eh <= vec_size src -> vec_size src < 2 ^ 32 ->
  all_read p (default_value p) src ef eh (ECursor u true fp hp) = Ok (Some a) (ECursor u true (fp + fixed_size p) (hp + vec_size (heap L a))).
Proof.
  intros Hl Ha Hhl Hs Hh Hef Hhp Hd Heh Hsrc H32. pose proof (vec_size_nonneg (heap L a)). destruct (is_variable_size p) eqn:Ev.
  - unfold all_read. rewrite Ev. apply (ro_embedded _ _ _ (lw_reads _ _ Hl)); auto. rewrite (po_slot _ _ _ (lw_packs _ _ Hl)) by exact Ha. lia.
  - rewrite all_read_inline by exact Ev. destruct (po_inline _ _ _ (lw_packs _ _ Hl) a Ev Ha) as (_ & Es & Eh). rewrite Es in Hs. rewrite Eh in *. change (vec_size []) with 0 in *.
    unfold at_fixed, zoom. cbn [e_unknown known_pos fixed_pos]. rewrite (inline_read_complete p L a); auto; [cbn; now rewrite Z.add_0_r| |lia].
    rewrite (inline_size_of p L a (lw_packs _ _ Hl) Ev Ha). lia.
Qed.

Lemma all_sound src ef eh ls : Forall lawful_member ls -> separate (map lm ls) -> eh <= vec_size src -> vec_size src < 2 ^ 32 -> Forall (in_u 8) src ->
  forall v ok e, 0 <= fixed_pos e <= ef -> fixed_pos e + members_fixed_size (map lm ls) <= ef -> ef <= heap_pos e <= eh ->
  runs (members_all (map lm ls) v ok src ef eh) (fun r e' => loop_post ls v ok src ef eh e r.1 r.2 e' (fun shown => shown = ls)) e.
Proof.
  intros Hls Hsep Hsrc H32 Hb. induction ls as [|l ls IH]; intros v ok e Hf Hef Hh; [apply runs_ret; cbn; now apply loop_nil|].
  pose proof (Forall_cons_1 _ _ _ Hls) as [Hl Hls']. specialize (IH Hls' (proj2 (proj2 Hsep))). cbn [map] in Hef. rewrite members_fixed_cons in Hef.
  assert (0 <= members_fixed_size (map lm ls)) by (apply (members_fixed_nonneg size_bytes); eapply List.Forall_impl; [|exact Hls']; now intros l' [[H _ _] _]).
  change (members_all (map lm (l :: ls)) v ok src ef eh) with
    (let* o := all_read (m_packable (lm l)) (m_get (lm l) v) src ef eh in
     match o with Some x => members_all (map lm ls) (m_set (lm l) x v) ok src ef eh | None => members_all (map lm ls) v false src ef eh end).
  apply runs_bind. eapply runs_mono; [|apply all_read_sound; [exact (proj1 Hl)|auto; lia..]]. intros o e1 P. pose proof P as (P1 & P2 & P3 & P4 & _). destruct o as [x|].
  - eapply runs_mono; [|apply IH; lia]. intros r e' Hpost. eapply loop_read; [exact Hl|exact Hsep|exact P|exact Hpost|]. now intros _ shown ->.
  - eapply runs_mono; [|apply IH; lia]. intros r e' Hpost. eapply loop_failed; [| | |exact Hpost]; auto; lia.
Qed.

(** Without heap parts. *)
Definition inline_loop_post (ls : list (lmember T)) (v : T) (ok : bool) (src : list Z) (c : cursor) (v' : T) (ok' : bool) (c' : cursor) : Prop :=
  pos c <= pos c' <= pos c + members_fixed_size (map lm ls) /\ (has_unknown c = true -> has_unknown c' = true) /\ (ok' = true -> ok = true) /\ keeps (map lm ls) v v' /\
  (ok' = true -> fresh v (map lm ls) -> known_end c = true -> has_unknown c' = false ->
    known_end c' = true /\ Forall (member_wf v') ls /\ holds src (pos c) (inline_enc ls v') /\ pos c' = pos c + members_fixed_size (map lm ls)).
Definition inline_member (l : lmember T) : Prop := is_variable_size (m_packable (lm l)) = false.
Lemma inline_sound src en ls : Forall lawful_member ls -> Forall inline_member ls -> separate (map lm ls) -> en <= vec_size src -> vec_size src < 2 ^ 32 -> Forall (in_u 8) src ->
  forall v ok c, 0 <= pos c -> pos c + members_fixed_size (map lm ls) <= en ->
  runs (members_inline (map lm ls) v ok src en) (fun r c' => inline_loop_post ls v ok src c r.1 r.2 c') c.
Proof.
  intros Hls Hin Hsep Hsrc H32 Hb. induction ls as [|l ls IH]; intros v ok c Hf Hef.
  { apply runs_ret. unfold inline_loop_post, members_fixed_size in *. cbn in *. split; [lia|]. split; [auto|]. split; [auto|]. split; [now intros m|]. intros _ _ Hk _.
    split; [exact Hk|]. split; [constructor|]. split; [apply holds_nil; lia|lia]. }
  pose proof (Forall_cons_1 _ _ _ Hls) as [Hl Hls']. pose proof (Forall_cons_1 _ _ _ Hin) as [Hi Hin']. specialize (IH Hls' Hin' (proj2 (proj2 Hsep))).
  unfold inline_loop_post. cbn [map] in *. rewrite members_fixed_cons in *. set (p := m_packable (lm l)) in *.
  assert (0 <= members_fixed_size (map lm ls)) by (apply (members_fixed_nonneg size_bytes); eapply List.Forall_impl; [|exact Hls']; now intros l' [[H _ _] _]).
  change (members_inline (lm l :: map lm ls) v ok src en) with
    (let* o := inline_read p (m_get (lm l) v) src en in
     match o with Some x => members_inline (map lm ls) (m_set (lm l) x v) ok src en | None => members_inline (map lm ls) v false src en end).
  apply runs_bind. eapply runs_mono; [|apply (inline_read_sound p (lm_layout l)); [exact (proj1 Hl)|auto; lia..]]. intros o c1 (P1 & P2 & P3). destruct o as [x|].
  - eapply runs_mono; [|apply IH; lia]. intros r c' (Q1 & Q2 & Q3 & Q4 & Q5). destruct (keeps_cons _ _ _ _ _ Hsep Q4) as [Hx Hk].
    split; [lia|]. split; [auto|]. split; [exact Q3|]. split; [exact Hk|]. intros Hok Hfr Hkn Hu.
    assert (Hu1 : has_unknown c1 = false) by (destruct (has_unknown c1); [rewrite Q2 in Hu by reflexivity; discriminate|reflexivity]).
    pose proof (fresh_set _ x _ _ Hsep Hfr) as Hfr'. apply Forall_cons_1 in Hfr as [Hd _]. destruct (P3 x eq_refl Hd Hkn Hu1) as (R1 & R2 & R3 & R4).
    destruct (Q5 Hok Hfr' R1 Hu) as (S1 & S2 & S3 & S4). split; [exact S1|]. split; [constructor; [unfold member_wf; now rewrite Hx|exact S2]|].
    split; [|lia]. unfold inline_enc. cbn [map concat]. rewrite Hx. apply holds_app. rewrite (inline_size_of p (lm_layout l) x (lw_packs _ _ (proj1 Hl)) Hi R2), <- R4. auto.
  - eapply runs_mono; [|apply IH; lia]. intros r c' (Q1 & Q2 & Q3 & Q4 & _). split; [lia|]. split; [auto|]. split; [intros Hok; discriminate (Q3 Hok)|].
    split; [now apply keeps_skip|]. intros Hok. discriminate (Q3 Hok).
Qed.

(** ** Slots that the type does not know *)
Lemma verify_sound src ef eh : eh <= vec_size src -> vec_size src < 2 ^ 32 -> Forall (in_u 8) src ->
  forall k known last fixed hp, 0 <= fixed -> fixed + Z.of_nat k * sz <= ef -> ef <= hp <= eh ->
  runs (verify_slots size_bytes k src known last fixed ef eh) (fun _ hp' => hp <= hp' <= eh) hp.
Proof.
  intros Hsrc H32 Hb. pose proof (sz_pos _ Hfmt). pose proof (limit_32 _ Hfmt). induction k as [|k IH]; intros known last fixed hp Hf Hef Hh; [apply runs_ret; lia|].
  cbn [verify_slots]. apply runs_bind. unfold runs at 1, get, wp. apply runs_bind. unfold runs at 1, wp.
  pose proof (unpack_numeric_sound true size_bytes src ef fixed ltac:(lia) ltac:(lia) H32 ltac:(lia)) as Hn. unfold runs, wp in Hn.
  destruct (unpack_numeric true size_bytes src ef fixed) as [[off|] q|x q|]; try contradiction; [|apply runs_ret; lia].
  destruct Hn as (-> & Hq & bs & Hh' & Hl & ->). pose proof (of_le_range bs (holds_bytes _ _ _ Hb Hh')) as Hr. rewrite Hl in Hr. change (2 ^ (8 * sz)) with limit in Hr.
  set (off := of_le bs) in *. rewrite (wrap_small 32 (fixed + sz)) by (split; lia). destruct (Z.leb_spec 2 off); [|apply IH; auto; lia].
  rewrite (wrap_small 32 (eh - fixed)), (wrap_small 32 (hp - fixed)) by (split; lia). destruct (_ || _ || _ || _) eqn:Ec; [apply runs_ret; lia|].
  rewrite !orb_false_iff, !Z.ltb_ge in Ec. destruct Ec as [[[E1 _] E3] E4]. rewrite (wrap_small 32 (fixed + off)) by (split; lia).
  apply runs_bind. unfold runs at 1, modify, wp. eapply runs_mono; [|apply IH; auto; lia]. cbn. lia.
Qed.
Lemma extensions_sound last src ef eh e : eh <= vec_size src -> vec_size src < 2 ^ 32 -> Forall (in_u 8) src -> 0 <= fixed_pos e <= ef -> ef <= heap_pos e <= eh ->
  runs (check_extensions size_bytes last src ef eh)
    (fun o e' => heap_pos e <= heap_pos e' <= eh /\ (e_unknown e = true -> e_unknown e' = true) /\
                 forall b, o = Some b -> e_unknown e' = false -> b = last /\ e' = e /\ fixed_pos e = ef) e.
Proof.
  intros Hsrc H32 Hb Hf Hh. pose proof (sz_pos _ Hfmt). unfold check_extensions. apply runs_bind. unfold runs at 1, get, wp. destruct (Z.ltb_spec (fixed_pos e) ef).
  - apply runs_bind. unfold runs at 1, wp, zoom, verify_extensions. rewrite (wrap_small 32 (ef - fixed_pos e)) by (split; lia).
    destruct (Z.eqb_spec ((ef - fixed_pos e) mod sz) 0) as [Em|]; cbn [negb]; [|cbn; split; [lia|]; split; [auto|discriminate]].
    assert (Hd : ef - fixed_pos e = (ef - fixed_pos e) / sz * sz) by (pose proof (Z.div_mod (ef - fixed_pos e) sz); lia).
    assert (0 <= (ef - fixed_pos e) / sz) by (apply Z.div_pos; lia).
    pose proof (verify_sound src ef eh Hsrc H32 Hb (Z.to_nat ((ef - fixed_pos e) / sz)) (known_pos e) last (fixed_pos e) (heap_pos e) ltac:(lia) ltac:(lia) Hh) as Hv.
    unfold runs, wp in Hv. destruct (verify_slots _ _ _ _ _ _ _ _ (heap_pos e)) as [[b|] h|x h|]; try contradiction.
    + unfold runs, wp, bind, modify, ret. cbn. split; [lia|]. split; [auto|]. discriminate.
    + apply runs_ret. cbn. split; [lia|]. split; [auto|]. discriminate.
  - apply runs_ret. split; [lia|]. split; [auto|]. intros b [= <-] _. split; [reflexivity|]. split; [reflexivity|]. lia.
Qed.
End Members.
End Format.
