(* ===== verification/FracpackMembers.v ===== *)
(** * Structs, tuples and variants

    [lawful] for the codecs that are made of members and alternatives. *)
From Stdlib Require Import ZArith Lia Bool String.
From stdpp Require Import base list numbers decidable option.
From S2P Require Import Prelude Fracpack FracpackSpec FracpackPack FracpackUnpack FracpackValues FracpackLoops.

(** ** Members that are present *)
Section Present.
Context {T : Type}.
Definition missing (v : T) (m : member T) : Prop := is_optional (m_packable m) = true /\ has_value (m_packable m) (m_get m v) = false.
Lemma fold_last {A} (f : A -> bool) l b b' : l <> [] -> fold_left (fun _ x => f x) l b = fold_left (fun _ x => f x) l b'.
Proof. destruct l; [congruence|reflexivity]. Qed.
Lemma shows_missing v (m : member T) : shows v m = true \/ missing v m.
Proof. unfold shows, missing. destruct (is_optional _), (has_value _ _); cbn; auto. Qed.
Lemma num_present_spec v (ms : list (member T)) : let k := num_present v ms in
  (k <= length ms)%nat /\ Forall (missing v) (drop k ms) /\ fold_left (fun _ m => shows v m) (take k ms) true = true.
Proof.
  cbn zeta. induction ms as [|m ms (IH1 & IH2 & IH3)]; [cbn; auto|]. cbn [num_present]. destruct (num_present v ms) as [|k] eqn:E.
  - destruct (shows_missing v m) as [Hs|Hm].
    + assert (Hc : is_optional (m_packable m) && negb (has_value (m_packable m) (m_get m v)) = false) by (unfold shows in Hs; destruct (is_optional _), (has_value _ _); auto; discriminate).
      rewrite Hc. cbn. split; [lia|]. split; [|exact Hs]. now destruct ms.
    + pose proof Hm as [H1 H2]. rewrite H1, H2. cbn. split; [lia|]. split; [|reflexivity]. constructor; [exact Hm|]. now destruct ms.
  - cbn [drop take length fold_left]. split; [lia|]. split; [exact IH2|]. rewrite (fold_last _ _ _ true); [exact IH3|]. destruct ms; [cbn in IH1; lia|discriminate].
Qed.
Lemma num_present_unique v (shown rest : list (member T)) : Forall (missing v) rest -> fold_left (fun _ m => shows v m) shown true = true ->
  num_present v (shown ++ rest) = length shown.
Proof.
  intros Hr. assert (H0 : num_present v rest = 0%nat) by (induction Hr as [|m ms [H1 H2] _ IH]; cbn [num_present]; [reflexivity|now rewrite IH, H1, H2]).
  induction shown as [|m shown IH]; intros Hf; cbn [app]; [exact H0|]. cbn [num_present length fold_left] in *. destruct shown as [|m' shown].
  - cbn [app length fold_left] in *. rewrite H0. unfold shows in Hf. now destruct (is_optional _), (has_value _ _).
  - rewrite IH by (rewrite <- Hf; now apply fold_last). reflexivity.
Qed.
Lemma separate_app (ms ms' : list (member T)) : separate (ms ++ ms') -> separate ms /\ separate ms' /\ Forall (fun m' => Forall (apart m') ms) ms'.
Proof.
  induction ms as [|m ms IH]; cbn [app separate]; [intros H; split; [exact I|]; split; [exact H|]; apply Forall_true; constructor|].
  intros (H1 & H2 & H3). apply Forall_app in H2 as [H2 H4]. destruct (IH H3) as (I1 & I2 & I3). split; [auto|]. split; [exact I2|].
  clear -I3 H4. induction I3; constructor; apply Forall_cons_1 in H4 as [[_ Ha] H4]; auto.
Qed.
Lemma assign_ext dflt a (shown rest : list (member T)) : lenses dflt (shown ++ rest) -> Forall (fun m => m_get m a = default_value (m_packable m)) rest ->
  assign a shown dflt = a.
Proof.
  intros [Hs Hd He] Hr. destruct (separate_app _ _ Hs) as (S1 & S2 & S3). destruct (assign_keeps a shown dflt S1) as [Hk Hg]. apply He. apply Forall_app. split; [exact Hg|].
  apply Forall_app in Hd as [_ Hd]. clear -Hk S3 Hd Hr. induction rest as [|m rest IH]; constructor; apply Forall_cons_1 in S3 as [Ha S3], Hd as [Hm Hd], Hr as [Hv Hr]; auto.
  now rewrite (Hk m Ha), Hm, Hv.
Qed.
End Present.

Section Format.
Context (size_bytes : nat) (Hfmt : frac_format size_bytes).
Abbreviation sz := (Z.of_nat size_bytes).
Abbreviation limit := (limit size_bytes).
Abbreviation lawful := (lawful size_bytes).
Abbreviation lawful_member := (lawful_member size_bytes).

(** ** The loops on encodings *)
Section Complete.
Context {T : Type} (a : T) (src : list Z) (eh : Z) (Hsrc : eh <= vec_size src) (H32 : vec_size src < 2 ^ 32).
Abbreviation cells ls := (map (member_cell a) ls).
Definition region_at (ls : list (lmember T)) (ef fp hp : Z) : Prop :=
  holds src fp (lay (hp - fp) (cells ls)) /\ holds src hp (heaps (cells ls)) /\ fp + sizes (cells ls) <= ef /\ ef <= hp /\
  hp + vec_size (heaps (cells ls)) <= eh /\ hp + vec_size (heaps (cells ls)) - fp < limit.
Lemma cells_nonneg ls : Forall lawful_member ls -> 0 <= sizes (cells ls).
Proof. intros Hl. rewrite cells_fixed. apply (members_fixed_nonneg size_bytes). eapply List.Forall_impl; [|exact Hl]. now intros l [[H _ _] _]. Qed.
Lemma region_cons l ls ef fp hp : lawful_member l -> Forall lawful_member ls -> member_wf a l -> region_at (l :: ls) ef fp hp ->
  let p := m_packable (lm l) in let L := lm_layout l in let x := m_get (lm l) a in
  wf L x /\ vec_size (heap L x) < limit /\ holds src fp (slot L x (hp - fp)) /\ holds src hp (heap L x) /\ fp + fixed_size p <= ef /\ ef <= hp /\ hp - fp < limit /\
  hp + vec_size (heap L x) <= eh /\ vec_size (slot L x (hp - fp)) < limit /\ 0 < fixed_size p /\ region_at ls ef (fp + fixed_size p) (hp + vec_size (heap L x)).
Proof.
  intros [[Hp Hr Hs] H0] Hls Hw (R1 & R2 & R3 & R4 & R5 & R6) p L x. pose proof (cells_nonneg ls Hls). pose proof (vec_size_nonneg (heaps (cells ls))).
  unfold region_at, heaps, sizes in *. cbn [map lay concat fold_right] in *. change (c_size (member_cell a l)) with (fixed_size p) in *.
  change (c_slot (member_cell a l)) with (slot L x) in *. change (c_heap (member_cell a l)) with (heap L x) in *. fold p in H0.
  apply holds_app in R1 as [R1 R1'], R2 as [R2 R2']. rewrite vec_size_app in *. pose proof (po_slot _ _ _ Hp x (hp - fp) Hw) as Hsl. fold L p in Hsl. rewrite Hsl in *.
  pose proof (vec_size_nonneg (heap L x)). replace (hp + vec_size (heap L x) - (fp + fixed_size p)) with (hp - fp - fixed_size p + vec_size (heap L x)) by lia.
  repeat (match goal with |- _ /\ _ => split | |- holds _ _ _ => assumption end); try assumption; lia.
Qed.
Lemma gated_shown tup ef ls : Forall lawful_member ls -> separate (map lm ls) -> Forall (member_wf a) ls ->
  forall v ok last u fp hp, fresh v (map lm ls) -> region_at ls ef fp hp ->
  gated tup (map lm ls) v ok last src ef eh (ECursor u true fp hp) =
  Ok (assign a (map lm ls) v, ok, fold_left (fun _ m => shows a m) (map lm ls) last) (ECursor u true (fp + sizes (cells ls)) (hp + vec_size (heaps (cells ls)))).
Proof.
  intros Hls Hsep Hw. induction ls as [|l ls IH]; intros v ok last u fp hp Hfr Hreg; [cbn; now rewrite !Z.add_0_r|].
  apply Forall_cons_1 in Hls as [Hl Hls], Hw as [Hwl Hw]. destruct (region_cons _ _ _ _ _ Hl Hls Hwl Hreg) as (Hx & Hhl & R1 & R2 & R3 & R4 & R5 & R6 & R7 & R8 & Hreg').
  specialize (IH Hls (proj2 (proj2 Hsep)) Hw). cbn [map gated assign fold_left]. pose proof (fresh_set _ (m_get (lm l) a) _ _ Hsep Hfr) as Hfr'.
  apply Forall_cons_1 in Hfr as [Hd _]. destruct Hl as [[Hp Hr Hs] _]. pose proof (sz_pos _ Hfmt). unfold bind at 1, get. cbn [fixed_pos].
  destruct (Z.ltb_spec fp ef); [|lia]. cbn [orb].
  assert (Hhas : (if negb tup && is_optional (m_packable (lm l)) then has_value_at (m_packable (lm l)) src fp ef else ret true) (ECursor u true fp hp) =
    Ok (tup || shows a (lm l)) (ECursor u true fp hp)).
  { unfold shows. destruct tup; [reflexivity|]. cbn. destruct (is_optional _) eqn:Eo; [|reflexivity]. cbn. pose proof (vec_size_nonneg (heap (lm_layout l) (m_get (lm l) a))). apply (ro_has_value _ _ _ Hr _ _ _ _ _ (hp - fp)); auto; try lia. }
  unfold bind at 1. rewrite Hhas. unfold bind at 1. rewrite Hd, (ro_embedded _ _ _ Hr (m_get (lm l) a)) by assumption.
  assert (El : (if tup then has_value (m_packable (lm l)) (m_get (lm l) a) else tup || shows a (lm l)) = shows a (lm l)).
  { unfold shows. destruct tup; [|reflexivity]. destruct (is_optional _) eqn:Eo; [reflexivity|]. now rewrite (ro_present _ _ _ Hr). }
  rewrite El, IH by assumption. unfold heaps, sizes. cbn [map concat fold_right]. rewrite vec_size_app. change (c_size (member_cell a l)) with (fixed_size (m_packable (lm l))).
  change (c_heap (member_cell a l)) with (heap (lm_layout l) (m_get (lm l) a)). now rewrite !Z.add_assoc.
Qed.
Lemma gated_app tup ms ms' ef : forall v ok last e, gated tup (ms ++ ms') v ok last src ef eh e =
  (let* r := gated tup ms v ok last src ef eh in @gated T tup ms' r.1.1 r.1.2 r.2 src ef eh) e.
Proof.
  induction ms as [|m ms IH]; intros v ok last e; [reflexivity|]. cbn [app gated]. unfold bind, get in *. destruct (_ || _); [|apply IH].
  match goal with |- context [match ?x with Ok _ _ => _ | Throw _ _ => _ | UB => _ end] => destruct x as [has e1|y e1|]; auto end.
  destruct (embedded_unpack _ _ _ _ _ _ e1) as [[x|] e2|y e2|]; auto.
Qed.
Lemma gated_rest tup ef ms : Forall (fun m => is_optional (m_packable m) = true) ms ->
  forall v ok last e, ef <= fixed_pos e -> @gated T tup ms v ok last src ef eh e = Ok (v, ok, last) e.
Proof.
  induction 1 as [|m ms Hm _ IH]; intros v ok last e He; [reflexivity|]. cbn [gated]. unfold bind, get. rewrite Hm.
  destruct (Z.ltb_spec (fixed_pos e) ef); [lia|]. cbn [orb negb]. now apply IH.
Qed.
Lemma all_complete ef ls : Forall lawful_member ls -> separate (map lm ls) -> Forall (member_wf a) ls ->
  forall v ok u fp hp, fresh v (map lm ls) -> region_at ls ef fp hp ->
  members_all (map lm ls) v ok src ef eh (ECursor u true fp hp) =
  Ok (assign a (map lm ls) v, ok) (ECursor u true (fp + sizes (cells ls)) (hp + vec_size (heaps (cells ls)))).
Proof.
  intros Hls Hsep Hw. induction ls as [|l ls IH]; intros v ok u fp hp Hfr Hreg; [cbn; now rewrite !Z.add_0_r|].
  apply Forall_cons_1 in Hls as [Hl Hls], Hw as [Hwl Hw]. destruct (region_cons _ _ _ _ _ Hl Hls Hwl Hreg) as (Hx & Hhl & R1 & R2 & R3 & R4 & R5 & R6 & R7 & R8 & Hreg').
  specialize (IH Hls (proj2 (proj2 Hsep)) Hw). cbn [map assign fold_left]. pose proof (fresh_set _ (m_get (lm l) a) _ _ Hsep Hfr) as Hfr'. apply Forall_cons_1 in Hfr as [Hd _].
  change (members_all (lm l :: map lm ls) v ok src ef eh) with
    (let* o := all_read (m_packable (lm l)) (m_get (lm l) v) src ef eh in
     match o with Some x => members_all (map lm ls) (m_set (lm l) x v) ok src ef eh | None => members_all (map lm ls) v false src ef eh end).
  unfold bind at 1. rewrite Hd, (all_read_complete size_bytes (m_packable (lm l)) (lm_layout l) (m_get (lm l) a)) by (assumption || exact (proj1 Hl)).
  rewrite IH by assumption. unfold heaps, sizes. cbn [map concat fold_right]. rewrite vec_size_app. change (c_size (member_cell a l)) with (fixed_size (m_packable (lm l))).
  change (c_heap (member_cell a l)) with (heap (lm_layout l) (m_get (lm l) a)). now rewrite !Z.add_assoc.
Qed.
Lemma inline_complete ls : Forall lawful_member ls -> Forall inline_member ls -> separate (map lm ls) -> Forall (member_wf a) ls ->
  forall v ok u q, fresh v (map lm ls) -> holds src q (inline_enc ls a) -> q + members_fixed_size (map lm ls) <= eh -> members_fixed_size (map lm ls) < limit ->
  members_inline (map lm ls) v ok src eh (Cursor u true q) = Ok (assign a (map lm ls) v, ok) (Cursor u true (q + members_fixed_size (map lm ls))).
Proof.
  intros Hls Hin Hsep Hw. induction ls as [|l ls IH]; intros v ok u q Hfr Hh Hq Hlim; [cbn; now rewrite !Z.add_0_r|].
  apply Forall_cons_1 in Hls as [Hl Hls], Hw as [Hwl Hw], Hin as [Hi Hin]. pose proof (cells_nonneg ls Hls) as Hn. rewrite cells_fixed in Hn.
  specialize (IH Hls Hin (proj2 (proj2 Hsep)) Hw). unfold inline_enc in Hh. cbn [map assign fold_left concat] in *. rewrite members_fixed_cons in *.
  pose proof (inline_size_of size_bytes _ _ _ (lw_packs _ _ _ (proj1 Hl)) Hi Hwl) as Hsz. apply holds_app in Hh as [H1 H2]. rewrite Hsz in H2.
  pose proof (fresh_set _ (m_get (lm l) a) _ _ Hsep Hfr) as Hfr'. apply Forall_cons_1 in Hfr as [Hd _]. destruct Hl as [Hl H0].
  change (members_inline (lm l :: map lm ls) v ok src eh) with
    (let* o := inline_read (m_packable (lm l)) (m_get (lm l) v) src eh in
     match o with Some x => members_inline (map lm ls) (m_set (lm l) x v) ok src eh | None => members_inline (map lm ls) v false src eh end).
  unfold bind at 1. rewrite Hd, (inline_read_complete size_bytes (m_packable (lm l)) (lm_layout l) (m_get (lm l) a)) by (auto; lia).
  rewrite IH by (auto; lia). now rewrite Z.add_assoc.
Qed.
End Complete.

(** ** Regions of members *)
Section Region.
Context {T : Type} (dflt : T) (ls : list (lmember T)) (Hls : Forall lawful_member ls) (Hln : lenses dflt (map lm ls)).
Abbreviation ms := (map lm ls).
Abbreviation cells v l := (map (member_cell v) l).
Definition gated_unpack (tup : bool) (v : T) (fixed heap en : Z) (src : list Z) : M cursor (option T) :=
  in_region fixed heap
    (let* r := gated tup ms v true true src heap en in
     if negb r.1.2 then ret None
     else let* x := check_extensions size_bytes r.2 src heap en in
          match x with Some true => ret (Some r.1.1) | _ => ret None end).
Lemma struct_gated_eq v fixed heap en src c : struct_gated_unpack size_bytes ms v fixed heap en src c = gated_unpack false v fixed heap en src c.
Proof. unfold struct_gated_unpack, gated_unpack, in_region, bind. now rewrite gated_struct. Qed.

Lemma members_packs : Forall (member_ok size_bytes) ls.
Proof. eapply List.Forall_impl; [|exact Hls]. now intros l [[H _ _] _]. Qed.
Lemma present_split a : ls = present ls a ++ drop (num_present a ms) ls.
Proof. unfold present. now rewrite take_drop. Qed.
Lemma present_rest a : Forall (missing a) (map lm (drop (num_present a ms) ls)) /\ fold_left (fun _ m => shows a m) (map lm (present ls a)) true = true.
Proof.
  destruct (num_present_spec a ms) as (_ & H1 & H2). unfold present.
  change (map lm (drop (num_present a ms) ls)) with (lm <$> drop (num_present a ms) ls). change (map lm (take (num_present a ms) ls)) with (lm <$> take (num_present a ms) ls).
  now rewrite fmap_drop, fmap_take.
Qed.
Lemma missing_default (a : T) (rest : list (lmember T)) : Forall lawful_member rest -> Forall (missing a) (map lm rest) -> Forall (fun m : member T => m_get m a = default_value (m_packable m)) (map lm rest).
Proof.
  induction rest as [|l rest IH]; intros H1 H2; [constructor|]. apply Forall_cons_1 in H1 as [[[_ Hr _] _] H1]. apply Forall_cons_1 in H2 as [[Ho Hv] H2].
  constructor; [now apply (ro_absent _ _ _ Hr)|auto].
Qed.
Lemma absent_missing (a : T) (rest : list (lmember T)) : Forall lawful_member rest -> Forall (absent a) (map lm rest) -> Forall (missing a) (map lm rest) /\ Forall (member_wf a) rest.
Proof.
  induction rest as [|l rest IH]; intros H1 H2; [split; constructor|]. apply Forall_cons_1 in H1 as [[[_ _ Hs] _] H1]. apply Forall_cons_1 in H2 as [[Ho Hv] H2].
  destruct (IH H1 H2) as [I1 I2]. destruct (so_absent _ _ _ Hs Ho) as [Hw Hh]. split; (constructor; [|assumption]); [split; [exact Ho|now rewrite Hv]|unfold member_wf; now rewrite Hv].
Qed.
(** A region that holds the encoding of [shown]. *)
Lemma region_starts (a : T) (shown : list (lmember T)) src en fixed : Forall lawful_member shown -> Forall (member_wf a) shown -> let hdr := members_fixed_size (map lm shown) in
  holds src fixed (region (cells a shown)) -> fixed + vec_size (region (cells a shown)) <= en -> vec_size (region (cells a shown)) < limit ->
  region_at a src en shown (fixed + hdr) fixed (fixed + hdr) /\ fixed + hdr + vec_size (heaps (cells a shown)) = fixed + vec_size (region (cells a shown)) /\
  fixed + sizes (cells a shown) = fixed + hdr.
Proof.
  intros Hl Hw hdr Hh He Hlim. assert (Hok : Forall (member_ok size_bytes) shown) by (eapply List.Forall_impl; [|exact Hl]; now intros l [[H _ _] _]).
  unfold region in *. rewrite vec_size_app, (lay_size _ _ (member_ops_ok size_bytes a shown Hok Hw)) in *. unfold region_at, hdr. rewrite <- (cells_fixed a shown).
  apply holds_app in Hh as [H1 H2]. rewrite (lay_size _ _ (member_ops_ok size_bytes a shown Hok Hw)) in H2. replace (fixed + sizes (cells a shown) - fixed) with (sizes (cells a shown)) by lia.
  repeat (match goal with |- _ /\ _ => split | |- holds _ _ _ => assumption end); lia.
Qed.
Lemma gated_complete tup a src en fixed u q : Forall (member_wf a) ls -> let shown := present ls a in let hdr := members_fixed_size (map lm shown) in
  en <= vec_size src -> vec_size src < 2 ^ 32 -> holds src fixed (region (cells a shown)) -> fixed + vec_size (region (cells a shown)) <= en -> vec_size (region (cells a shown)) < limit ->
  gated_unpack tup dflt fixed (fixed + hdr) en src (Cursor u true q) = Ok (Some a) (Cursor u true (fixed + vec_size (region (cells a shown)))).
Proof.
  intros Hw shown hdr Hsrc H32 Hh He Hlim. set (rest := drop (num_present a ms) ls). assert (Hsp : ls = shown ++ rest) by apply present_split.
  pose proof Hls as Hl'. rewrite Hsp in Hl'. apply Forall_app in Hl' as [Hl1 Hl2]. pose proof Hw as Hw'. rewrite Hsp in Hw'. apply Forall_app in Hw' as [Hw1 Hw2].
  destruct (region_starts a shown src en fixed Hl1 Hw1 Hh He Hlim) as (Hreg & Eh & Ef). destruct (present_rest a) as [Hmiss Hlast]. fold rest in Hmiss. fold shown in Hlast.
  pose proof Hln as Hln'. rewrite Hsp, map_app in Hln'. pose proof Hln' as [Hsep Hfr _]. apply separate_app in Hsep as (Hs1 & _). apply Forall_app in Hfr as [Hfr _].
  unfold gated_unpack, in_region. cbn [has_unknown known_end]. unfold bind at 1. rewrite Hsp at 1. rewrite map_app, gated_app. unfold bind at 1.
  rewrite (gated_shown a src en Hsrc H32 tup _ shown) by assumption. cbn [fst snd]. rewrite gated_rest.
  - cbn [fst snd negb]. unfold check_extensions, bind, get. cbn [fixed_pos]. fold hdr in Ef. rewrite Ef, Z.ltb_irrefl, Hlast. cbn.
    rewrite (assign_ext dflt a _ (map lm rest)); [fold hdr in Eh; now rewrite Eh|exact Hln'|now apply missing_default].
  - eapply List.Forall_impl; [|exact Hmiss]. now intros m [H _].
  - cbn [fixed_pos]. fold hdr in Ef. lia.
Qed.
Lemma all_unpack_complete a src en fixed u q : Forall (member_wf a) ls -> let hdr := members_fixed_size ms in
  en <= vec_size src -> vec_size src < 2 ^ 32 -> holds src fixed (region (cells a ls)) -> fixed + vec_size (region (cells a ls)) <= en -> vec_size (region (cells a ls)) < limit ->
  struct_all_unpack size_bytes ms dflt fixed (fixed + hdr) en src (Cursor u true q) = Ok (Some a) (Cursor u true (fixed + vec_size (region (cells a ls)))).
Proof.
  intros Hw hdr Hsrc H32 Hh He Hlim. destruct (region_starts a ls src en fixed Hls Hw Hh He Hlim) as (Hreg & Eh & Ef). fold hdr in Hreg, Eh, Ef.
  unfold struct_all_unpack, in_region. cbn [has_unknown known_end]. unfold bind at 1.
  rewrite (all_complete a src en Hsrc H32 _ ls Hls (ln_separate _ _ Hln) Hw) by (assumption || exact (ln_default _ _ Hln)). cbn [fst snd negb].
  unfold check_extensions, bind, get. cbn [fixed_pos]. rewrite Ef, Z.ltb_irrefl. cbn. rewrite (assign_ext dflt a ms []); [now rewrite Eh|now rewrite app_nil_r|constructor].
Qed.

(** Behind a read of a region from [fixed] to [heap]: [shown] are the members whose
    slots are in the encoding. *)
Definition region_post (shown : T -> list (lmember T)) (v : T) (src : list Z) (fixed heap en : Z) (c : cursor) (o : option T) (c' : cursor) : Prop :=
  (match o with Some _ => heap <= pos c' <= en | None => pos c' = pos c end) /\ (has_unknown c = true -> has_unknown c' = true) /\
  forall a, o = Some a -> v = dflt -> known_end c = true -> has_unknown c' = false ->
    known_end c' = true /\ Forall (member_wf a) ls /\ heap - fixed = members_fixed_size (map lm (shown a)) /\ holds src fixed (region (cells a (shown a))) /\
    pos c' = fixed + vec_size (region (cells a (shown a))).
Lemma region_known a shown rest src fixed heap e' : ls = shown ++ rest -> Forall (member_wf a) shown -> Forall (absent a) (map lm rest) ->
  holds src fixed (lay (heap - fixed) (cells a shown)) -> holds src heap (heaps (cells a shown)) -> heap = fixed + sizes (cells a shown) ->
  heap_pos e' = heap + vec_size (heaps (cells a shown)) ->
  Forall (member_wf a) ls /\ heap - fixed = members_fixed_size (map lm shown) /\ holds src fixed (region (cells a shown)) /\ heap_pos e' = fixed + vec_size (region (cells a shown)).
Proof.
  intros Hsp Hw Hab H1 H2 Hhp He'. pose proof Hls as Hl. rewrite Hsp in Hl. apply Forall_app in Hl as [Hl1 Hl2]. destruct (absent_missing a rest Hl2 Hab) as [_ Hwr].
  assert (Hok : Forall (member_ok size_bytes) shown) by (eapply List.Forall_impl; [|exact Hl1]; now intros l [[H _ _] _]).
  replace (heap - fixed) with (sizes (cells a shown)) in * by lia. unfold region. rewrite vec_size_app, holds_app, (lay_size _ _ (member_ops_ok size_bytes a shown Hok Hw)), <- Hhp.
  split; [rewrite Hsp; now apply Forall_app|]. split; [apply cells_fixed|]. split; [auto|lia].
Qed.
Lemma gated_unpack_sound tup v src en fixed heap c : en <= vec_size src -> vec_size src < 2 ^ 32 -> Forall (in_u 8) src -> 0 <= fixed <= heap -> heap <= en ->
  runs (gated_unpack tup v fixed heap en src) (region_post (present ls) v src fixed heap en c) c.
Proof.
  intros Hsrc H32 Hb Hf Hh. unfold gated_unpack. apply region_runs. apply runs_bind.
  eapply runs_mono; [|apply (gated_sound size_bytes tup src heap en ls Hls (ln_separate _ _ Hln) Hsrc H32 Hb); cbn; lia].
  intros [[v' ok] last] e (P1 & P2 & P3 & P4 & P5 & P6 & P7). cbn [fst snd fixed_pos heap_pos e_unknown known_pos] in *.
  destruct ok; cbn [negb]; [|apply runs_ret; split; [reflexivity|]; split; [exact P4|discriminate]]. apply runs_bind.
  eapply runs_mono; [|apply (extensions_sound size_bytes Hfmt last src heap en e Hsrc H32 Hb); lia]. intros o e' (Q1 & Q2 & Q3).
  destruct o as [[|]|]; apply runs_ret; (split; [cbn; lia|]); (split; [cbn; auto|]); try discriminate. cbn. intros a [= <-] -> Hk Hu.
  destruct (Q3 true eq_refl Hu) as (<- & -> & Hfe). destruct (P7 eq_refl (ln_default _ _ Hln) Hk Hu) as (S1 & shown & rest & S2 & S3 & S4 & S5 & S6 & S7 & S8 & S9 & S10).
  cbn [fixed_pos heap_pos] in *. destruct (region_known v' shown rest src fixed heap e S2 S3 S4 S5 S6 ltac:(lia) S8) as (K1 & K2 & K3 & K4).
  assert (Hpr : present ls v' = shown).
  { unfold present. rewrite S2 at 2. replace (num_present v' ms) with (length shown); [apply take_app_length|]. symmetry. rewrite S2, map_app, num_present_unique; [apply length_map| |auto].
    apply absent_missing; [|exact S4]. rewrite S2 in Hls. now apply Forall_app in Hls as [_ H]. }
  rewrite Hpr. auto.
Qed.
Lemma all_unpack_sound v src en fixed heap c : en <= vec_size src -> vec_size src < 2 ^ 32 -> Forall (in_u 8) src -> 0 <= fixed -> fixed + members_fixed_size ms <= heap -> heap <= en ->
  runs (struct_all_unpack size_bytes ms v fixed heap en src) (region_post (fun _ => ls) v src fixed heap en c) c.
Proof.
  intros Hsrc H32 Hb Hf Hm Hh. assert (0 <= members_fixed_size ms) by (apply (members_fixed_nonneg size_bytes), members_packs). unfold struct_all_unpack. apply region_runs. apply runs_bind.
  eapply runs_mono; [|apply (all_sound size_bytes src heap en ls Hls (ln_separate _ _ Hln) Hsrc H32 Hb); cbn; lia].
  intros [v' ok] e (P1 & P2 & P3 & P4 & P5 & P6 & P7). cbn [fst snd fixed_pos heap_pos e_unknown known_pos] in *.
  destruct ok; cbn [negb]; [|apply runs_ret; split; [reflexivity|]; split; [exact P4|discriminate]]. apply runs_bind.
  eapply runs_mono; [|apply (extensions_sound size_bytes Hfmt true src heap en e Hsrc H32 Hb); lia]. intros o e' (Q1 & Q2 & Q3).
  destruct o as [b|]; apply runs_ret; (split; [cbn; lia|]); (split; [cbn; auto|]); try discriminate. cbn. intros a [= <-] -> Hk Hu.
  destruct (Q3 b eq_refl Hu) as (_ & -> & Hfe). destruct (P7 eq_refl (ln_default _ _ Hln) Hk Hu) as (S1 & shown & rest & S2 & S3 & S4 & S5 & S6 & S7 & S8 & S9 & ->).
  cbn [fixed_pos heap_pos] in *. destruct (region_known v' ls rest src fixed heap e S2 S3 S4 S5 S6 ltac:(lia) S8) as (K1 & K2 & K3 & K4). auto.
Qed.
(** A region behind a header. *)
Lemma region_unpacked (p : packable T) (L : layout T) (header : Z -> list Z) (hb : Z) (shown : T -> list (lmember T)) v src fixed heap en c c1 o c' : is_variable_size p = true ->
  default_value p = dflt -> (forall n, vec_size (header n) = hb) -> (forall a, wf L a <-> Forall (member_wf a) ls) -> (forall a, enc L a = region_enc header a (shown a)) ->
  fixed = pos c + hb -> 0 <= hb -> fixed <= pos c1 <= en -> pos c <= pos c1 -> fixed <= heap -> has_unknown c1 = has_unknown c -> known_end c1 = true -> holds src (pos c) (header (heap - fixed)) ->
  region_post shown v src fixed heap en c1 o c' -> unpack_post p L v src en c o c'.
Proof.
  intros Hv Hd Hsz Hwf Henc Hf Hhb Hp1 Hp2 Hfh Hu Hk Hh (P1 & P2 & P3). destruct o as [a|].
  - split; [lia|]. split; [congruence|]. split; [rewrite <- Hu; exact P2|]. intros a' [= <-] Hvd Hun. destruct (P3 a eq_refl ltac:(congruence) Hk Hun) as (R1 & R2 & R3 & R4 & R5).
    split; [exact R1|]. split; [now apply Hwf|]. rewrite Henc. unfold region_enc. rewrite vec_size_app, Hsz, holds_app, Hsz, <- R3, <- Hf. split; [auto|lia].
  - split; [lia|]. split; [congruence|]. split; [rewrite <- Hu; exact P2|]. discriminate.
Qed.
End Region.

(** ** Structs *)
Section Struct.
Context {T : Type} (dwnc : bool) (header_size : nat) (dflt : T) (ls : list (lmember T)) (Hls : Forall lawful_member ls) (Hln : lenses dflt (map lm ls)).
Abbreviation ms := (map lm ls).
Context (Hm32 : members_fixed_size ms < 2 ^ 32) (Hhdr : dwnc = false -> members_fixed_size ms < 2 ^ (8 * Z.of_nat header_size)).
Abbreviation cells v l := (map (member_cell v) l).
Abbreviation SL := (struct_layout size_bytes dwnc header_size dflt ls).
Definition header_bytes : Z := if dwnc then 0 else Z.of_nat header_size.
Definition read_header (src : list Z) (en : Z) : M cursor (option Z) :=
  if dwnc then ret (Some (members_fixed_size ms)) else on_pos (unpack_numeric false header_size src en).
Lemma header_complete hdr src en u k q : 0 <= hdr <= members_fixed_size ms -> (dwnc = true -> hdr = members_fixed_size ms) -> holds src q (struct_header dwnc header_size hdr) ->
  q + header_bytes <= en -> en <= vec_size src -> vec_size src < 2 ^ 32 -> read_header src en (Cursor u k q) = Ok (Some hdr) (Cursor u k (q + header_bytes)).
Proof.
  intros Hr Hd Hh Hq He H32. unfold read_header, header_bytes, struct_header in *. destruct dwnc; [now rewrite Hd, Z.add_0_r|]. specialize (Hhdr eq_refl).
  unfold on_pos, zoom. cbn [pos]. rewrite (numeric_complete false header_size hdr) by assumption. rewrite wrap_small by (split; lia). reflexivity.
Qed.
Lemma header_sound src en u k q (Q : option Z -> cursor -> Prop) : 0 <= q <= en -> en <= vec_size src -> vec_size src < 2 ^ 32 -> Forall (in_u 8) src -> Q None (Cursor u k q) ->
  (forall hdr, 0 <= hdr -> holds src q (struct_header dwnc header_size hdr) -> q + header_bytes <= en -> (dwnc = true -> hdr = members_fixed_size ms) ->
     Q (Some hdr) (Cursor u k (q + header_bytes))) -> runs (read_header src en) Q (Cursor u k q).
Proof.
  intros Hq He Hs Hb Hn Hsome. unfold read_header, header_bytes, struct_header in *. destruct dwnc.
  - apply runs_ret. rewrite Z.add_0_r in Hsome. apply Hsome; [apply (members_fixed_nonneg size_bytes), members_packs, Hls|apply holds_nil; lia|lia|reflexivity].
  - apply header_runs; auto. intros z Hz Hh Hqn. apply Hsome; auto; [lia|discriminate].
Qed.
Lemma header_bytes_size n : vec_size (struct_header dwnc header_size n) = header_bytes.
Proof. apply struct_header_size. Qed.
Lemma struct_complete a src en u k q : Forall (member_wf a) ls -> let E := struct_enc dwnc header_size ls a in
  vec_size E < limit -> holds src q E -> q + vec_size E <= en -> en <= vec_size src -> vec_size src < 2 ^ 32 ->
  struct_unpack size_bytes dwnc header_size ms dflt src en (Cursor u k q) = Ok (Some a) (Cursor u true (q + vec_size E)).
Proof.
  intros Hw E Hlim Hh Hq He H32. pose proof (limit_32 _ Hfmt). assert (Hn : 0 <= members_fixed_size ms) by (apply (members_fixed_nonneg size_bytes), members_packs, Hls).
  pose proof Hh as (Hq0 & _ & _). unfold struct_unpack, E, struct_enc in *. destruct (struct_variable dwnc ms) eqn:Ev; cbn [negb] in *.
  - set (shown := if all_members_present dwnc ms then ls else present ls a) in *. set (hdr := members_fixed_size (map lm shown)) in *.
    unfold region_enc in Hlim, Hh, Hq |- *. fold hdr in Hlim, Hh, Hq |- *. rewrite vec_size_app, header_bytes_size in *. apply holds_app in Hh as [H1 H2]. rewrite header_bytes_size in H2.
    assert (Hhr : 0 <= hdr <= members_fixed_size ms).
    { unfold hdr, shown. destruct (all_members_present dwnc ms); [lia|]. split; [|apply (present_fixed size_bytes), members_packs, Hls].
      apply (members_fixed_nonneg size_bytes). apply Forall_take. now apply members_packs. }
    assert (Hhb : 0 <= header_bytes) by (unfold header_bytes; destruct dwnc; lia).
    assert (Hdw : dwnc = true -> hdr = members_fixed_size ms) by (intros ->; reflexivity).
    assert (Hrs : hdr <= vec_size (region (cells a shown))).
    { unfold region. rewrite vec_size_app. pose proof (vec_size_nonneg (heaps (cells a shown))). unfold hdr. rewrite <- (cells_fixed a shown).
      rewrite (lay_size (map (member_ops a) (map lm shown))); [lia|].
      unfold shown. destruct (all_members_present dwnc ms); apply (member_ops_ok size_bytes); try (apply Forall_take); auto; now apply members_packs. }
    change (if dwnc then ret (Some (members_fixed_size ms)) else on_pos (unpack_numeric false header_size src en)) with (read_header src en).
    unfold bind at 1. rewrite (header_complete hdr) by (auto; lia). destruct (Z.ltb_spec 4294967295 hdr); [lia|]. unfold bind at 1, gets. cbn [pos].
    rewrite (wrap_small 32 (q + header_bytes + hdr)) by (split; lia). destruct (Z.ltb_spec (q + header_bytes + hdr) (q + header_bytes)); [lia|].
    destruct (Z.ltb_spec en (q + header_bytes + hdr)); [lia|]. cbn [orb]. unfold bind, modify. cbn. rewrite Z.add_assoc in Hq |- *. unfold shown in *.
    destruct (all_members_present dwnc ms).
    + rewrite (proj2 (Z.ltb_ge hdr (members_fixed_size ms))), andb_false_r by (unfold hdr; lia).
      apply (all_unpack_complete dflt ls Hls Hln a); auto; lia.
    + rewrite struct_gated_eq. apply (gated_complete dflt ls Hls Hln false a); auto; lia.
  - pose proof (struct_inline dwnc ls Ev) as Hin. rewrite (inline_size size_bytes dwnc ls (members_packs ls Hls) a Ev Hw) in *.
    unfold bind, modify, gets. cbn [pos]. cbn. rewrite (wrap_small 32 (en - q)) by (split; lia). destruct (Z.ltb_spec (en - q) (members_fixed_size ms)); [lia|].
    rewrite (inline_complete a src en He H32 ls Hls Hin (ln_separate _ _ Hln) Hw) by (auto; exact (ln_default _ _ Hln)). cbn.
    now rewrite (assign_ext dflt a ms []); [|rewrite app_nil_r|constructor].
Qed.
Lemma struct_sound_unpack v src en c : 0 <= pos c <= en -> en <= vec_size src -> vec_size src < 2 ^ 32 -> Forall (in_u 8) src ->
  runs (struct_unpack size_bytes dwnc header_size ms v src en) (unpack_post (struct_impl size_bytes dwnc header_size dflt ms) SL v src en c) c.
Proof.
  destruct c as [u k q]. cbn [pos]. intros Hq He Hs Hb. assert (Hn : 0 <= members_fixed_size ms) by (apply (members_fixed_nonneg size_bytes), members_packs, Hls).
  assert (Hhb : 0 <= header_bytes) by (unfold header_bytes; destruct dwnc; lia).
  unfold struct_unpack. destruct (struct_variable dwnc ms) eqn:Ev.
  - change (if dwnc then ret (Some (members_fixed_size ms)) else on_pos (unpack_numeric false header_size src en)) with (read_header src en).
    assert (Hvp : is_variable_size (struct_impl size_bytes dwnc header_size dflt ms) = true) by exact Ev.
    apply runs_bind. apply header_sound; auto; [apply runs_ret, unpack_none; cbn [pos has_unknown]; [lia|congruence|auto]|]. intros hdr Hh0 Hh Hqn Hdw.
    destruct (Z.ltb_spec 4294967295 hdr); [apply runs_ret, unpack_none; cbn [pos has_unknown]; [lia|congruence|auto]|]. apply runs_bind. unfold runs at 1, gets, wp. cbn [pos].
    destruct (_ || _) eqn:Ec; [apply runs_ret, unpack_none; cbn [pos has_unknown]; [lia|congruence|auto]|]. rewrite orb_false_iff, !Z.ltb_ge in Ec. destruct Ec as [Ec1 Ec2].
    assert (Hw : wrap 32 (q + header_bytes + hdr) = q + header_bytes + hdr) by (apply wrap_32_sum; lia). rewrite Hw in *.
    apply runs_bind. unfold runs at 1, modify, wp. cbn. assert (Hwf : forall a, wf SL a <-> Forall (member_wf a) ls) by (intros a; reflexivity).
    assert (Henc : forall a, enc SL a = region_enc (struct_header dwnc header_size) a (if all_members_present dwnc ms then ls else present ls a)).
    { intros a. cbn [enc struct_layout base_layout]. unfold struct_enc. now rewrite Ev. }
    replace (holds src q (struct_header dwnc header_size hdr)) with (holds src q (struct_header dwnc header_size (q + header_bytes + hdr - (q + header_bytes)))) in Hh by (do 2 f_equal; lia).
    destruct (all_members_present dwnc ms).
    + destruct (negb dwnc && (hdr <? members_fixed_size ms)) eqn:Eh; [apply runs_ret, unpack_none; cbn [pos has_unknown]; [lia|congruence|auto]|].
      assert (Hle : members_fixed_size ms <= hdr).
      { apply andb_false_iff in Eh as [Eh|Eh]; [apply negb_false_iff in Eh; rewrite (Hdw Eh); lia|now apply Z.ltb_ge in Eh]. }
      eapply runs_mono; [|apply (all_unpack_sound dflt ls Hls Hln); auto; lia]. intros o c' Hpost.
      eapply (region_unpacked dflt ls _ _ (struct_header dwnc header_size) header_bytes (fun _ => ls)); [exact Hvp|reflexivity|exact header_bytes_size|exact Hwf|exact Henc|..]; try exact Hpost; cbn; auto; lia.
    + unfold runs, wp. rewrite struct_gated_eq. fold (wp (gated_unpack ls false v (q + header_bytes) (q + header_bytes + hdr) en src)).
      eapply runs_mono; [|apply (gated_unpack_sound dflt ls Hls Hln false); auto; lia]. intros o c' Hpost.
      eapply (region_unpacked dflt ls _ _ (struct_header dwnc header_size) header_bytes (present ls)); [exact Hvp|reflexivity|exact header_bytes_size|exact Hwf|exact Henc|..]; try exact Hpost; cbn; auto; lia.
  - pose proof (struct_inline dwnc ls Ev) as Hin. apply runs_bind. unfold runs at 1, modify, wp. apply runs_bind. unfold runs at 1, gets, wp. cbn.
    assert (Hfx : fixed_size (struct_impl size_bytes dwnc header_size dflt ms) = members_fixed_size ms) by (cbn; now rewrite Ev).
    rewrite (wrap_small 32 (en - q)) by (split; lia). destruct (Z.ltb_spec (en - q) (members_fixed_size ms)); [apply runs_ret, unpack_none; cbn [pos has_unknown]; [lia|lia|auto]|].
    apply runs_bind. eapply runs_mono; [|apply (inline_sound size_bytes src en ls Hls Hin (ln_separate _ _ Hln) He Hs Hb); cbn; lia].
    intros [v' ok] c' (P1 & P2 & P3 & P4 & P5). cbn in P1, P2, P3, P4, P5. apply runs_ret. cbn [fst snd]. destruct ok; [|apply unpack_none; cbn [pos has_unknown]; [lia|lia|auto]].
    split; [cbn [pos]; lia|]. split; [cbn [pos]; lia|]. split; [exact P2|]. intros a [= <-] -> Hu. destruct (P5 eq_refl (ln_default _ _ Hln) eq_refl Hu) as (R1 & R2 & R3 & R4).
    split; [exact R1|]. split; [exact R2|]. cbn [enc struct_layout base_layout pos]. unfold struct_enc. rewrite Ev. cbn [negb].
    rewrite (inline_size size_bytes dwnc ls (members_packs ls Hls) v' Ev R2). auto.
Qed.
Lemma struct_lawful : lawful (struct_impl size_bytes dwnc header_size dflt ms) SL.
Proof.
  assert (Hfix : struct_variable dwnc ms = false -> forall a, Forall (member_wf a) ls -> vec_size (struct_enc dwnc header_size ls a) = if struct_variable dwnc ms then sz else members_fixed_size ms).
  { intros Ev a Hw. rewrite Ev. unfold struct_enc. rewrite Ev. cbn [negb]. now apply (inline_size size_bytes dwnc ls (members_packs ls Hls)). }
  split.
  - apply struct_packs; [now apply members_packs|exact Hm32].
  - apply (base_reads size_bytes Hfmt _ false dflt never never_at _ _ _ _ _ _ (fun a => Forall (member_wf a) ls) (struct_enc dwnc header_size ls)); try discriminate; auto; [now intros ->|].
    intros a src en u k q Hw. now apply struct_complete.
  - apply (base_sound size_bytes Hfmt _ false dflt never never_at _ _ _ _ _ _ (fun a => Forall (member_wf a) ls) (struct_enc dwnc header_size ls)); try discriminate; auto; [now intros ->|].
    intros v src en c. now apply struct_sound_unpack.
Qed.
End Struct.

(** ** Tuples *)
Section Tuple.
Context {T : Type} (dflt : T) (ls : list (lmember T)) (Hls : Forall lawful_member ls) (Hln : lenses dflt (map lm ls)).
Abbreviation ms := (map lm ls).
Context (Hm16 : members_fixed_size ms < 2 ^ 16).
Abbreviation TL := (tuple_layout size_bytes dflt ls).
Abbreviation cells v l := (map (member_cell v) l).
Definition tuple_region (v : T) (fixed heap en : Z) (src : list Z) : M cursor (option T) :=
  in_region fixed heap
    (let* r := tuple_gated ms v true true src heap en in
     if negb r.1.2 then ret None
     else let* x := check_extensions size_bytes r.2 src heap en in
          match x with Some true => ret (Some r.1.1) | _ => ret None end).
Lemma tuple_gated_eq v fixed heap en src c : tuple_region v fixed heap en src c = gated_unpack ls true v fixed heap en src c.
Proof. unfold tuple_region, gated_unpack, in_region, bind. now rewrite gated_tuple. Qed.
Lemma tuple_header_size n : vec_size (to_le 2 n) = 2.
Proof. apply to_le_size. Qed.
Lemma tuple_complete a src en u k q : Forall (member_wf a) ls -> let E := tuple_enc ls a in
  vec_size E < limit -> holds src q E -> q + vec_size E <= en -> en <= vec_size src -> vec_size src < 2 ^ 32 ->
  tuple_unpack size_bytes ms dflt src en (Cursor u k q) = Ok (Some a) (Cursor u true (q + vec_size E)).
Proof.
  intros Hw E Hlim Hh Hq He H32. pose proof (limit_32 _ Hfmt). pose proof Hh as (Hq0 & _ & _). unfold tuple_unpack, E, tuple_enc, region_enc in *.
  set (shown := present ls a) in *. set (hdr := members_fixed_size (map lm shown)) in *. rewrite vec_size_app, tuple_header_size in *.
  apply holds_app in Hh as [H1 H2]. rewrite tuple_header_size in H2.
  assert (Hhr : 0 <= hdr <= members_fixed_size ms).
  { split; [|apply (present_fixed size_bytes), members_packs, Hls]. apply (members_fixed_nonneg size_bytes). apply Forall_take. now apply members_packs. }
  assert (Hrs : hdr <= vec_size (region (cells a shown))).
  { unfold region. rewrite vec_size_app. pose proof (vec_size_nonneg (heaps (cells a shown))). unfold hdr. rewrite <- (cells_fixed a shown).
    rewrite (lay_size (map (member_ops a) (map lm shown))); [lia|]. apply (member_ops_ok size_bytes); apply Forall_take; auto; now apply members_packs. }
  unfold bind at 1, on_pos, zoom. cbn [pos]. rewrite (numeric_complete false 2 hdr) by (auto; lia). change (8 * Z.of_nat 2) with 16. rewrite (wrap_small 16) by (split; lia).
  change (Z.of_nat 2) with 2. unfold bind, gets, modify. cbn. rewrite (wrap_small 32 (q + 2 + hdr)) by (split; lia). destruct (Z.ltb_spec (q + 2 + hdr) (q + 2)); [lia|].
  destruct (Z.ltb_spec en (q + 2 + hdr)); [lia|]. cbn [orb]. rewrite Z.add_assoc in Hq |- *.
  transitivity (gated_unpack ls true dflt (q + 2) (q + 2 + hdr) en src (Cursor u true (q + 2))); [apply tuple_gated_eq|]. apply (gated_complete dflt ls Hls Hln true a); fold shown; auto; lia.
Qed.
Lemma tuple_sound_unpack v src en c : 0 <= pos c <= en -> en <= vec_size src -> vec_size src < 2 ^ 32 -> Forall (in_u 8) src ->
  runs (tuple_unpack size_bytes ms v src en) (unpack_post (tuple_impl size_bytes dflt ms) TL v src en c) c.
Proof.
  destruct c as [u k q]. cbn [pos]. intros Hq He Hs Hb. unfold tuple_unpack. apply runs_bind. apply header_runs; auto; [apply runs_ret, unpack_none; cbn; [lia|discriminate|auto]|].
  intros hdr Hz Hh Hqn. change (2 ^ (8 * Z.of_nat 2)) with 65536 in Hz. change (Z.of_nat 2) with 2 in *.
  apply runs_bind. unfold runs at 1, gets, wp. cbn [pos]. apply runs_bind. unfold runs at 1, modify, wp. cbn.
  destruct (_ || _) eqn:Ec; [apply runs_ret, unpack_none; cbn [pos has_unknown]; [lia|discriminate|auto]|]. rewrite orb_false_iff, !Z.ltb_ge in Ec. destruct Ec as [Ec1 Ec2].
  assert (Hw : wrap 32 (q + 2 + hdr) = q + 2 + hdr) by (apply wrap_32_sum; lia). rewrite Hw in *.
  unfold runs, wp. change (in_region _ _ _ ?c) with (tuple_region v (q + 2) (q + 2 + hdr) en src c). rewrite tuple_gated_eq.
  fold (wp (gated_unpack ls true v (q + 2) (q + 2 + hdr) en src)).
  eapply runs_mono; [|apply (gated_unpack_sound dflt ls Hls Hln true); auto; lia]. intros o c' Hpost.
  eapply (region_unpacked dflt ls _ _ (to_le 2) 2 (present ls)); [reflexivity|reflexivity|exact tuple_header_size|reflexivity|reflexivity|..]; try exact Hpost; cbn [pos has_unknown known_end]; auto; try lia.
  replace (q + 2 + hdr - (q + 2)) with hdr by lia. exact Hh.
Qed.
Lemma tuple_lawful : lawful (tuple_impl size_bytes dflt ms) TL.
Proof.
  split.
  - apply tuple_packs; [now apply members_packs|lia].
  - apply (base_reads size_bytes Hfmt true false dflt never never_at _ _ _ _ _ _ (fun a => Forall (member_wf a) ls) (tuple_enc ls)); try discriminate; auto.
    intros a src en u k q Hw. now apply tuple_complete.
  - apply (base_sound size_bytes Hfmt true false dflt never never_at _ _ _ _ _ _ (fun a => Forall (member_wf a) ls) (tuple_enc ls)); try discriminate; auto.
    intros v src en c. now apply tuple_sound_unpack.
Qed.
End Tuple.

(** ** Variants *)
Section Variant.
Context {T : Type}.
(** The alternatives are injections with disjoint images. *)
Fixpoint disjoint_alts (las : list (lalternative T)) : Prop :=
  match las with
  | [] => True
  | l :: las => (forall x, a_out (la l) (a_in (la l) x) = Some x) /\ (forall v x, a_out (la l) v = Some x -> a_in (la l) x = v) /\
                Forall (fun l' => forall x, a_out (la l) (a_in (la l') x) = None) las /\ disjoint_alts las
  end.
Definition lawful_alt (l : lalternative T) : Prop := lawful (a_packable (la l)) (la_layout l).
Lemma alt_complete src en (las : list (lalternative T)) : en <= vec_size src -> vec_size src < 2 ^ 32 -> Forall lawful_alt las -> disjoint_alts las -> forall v u k q, alt_wf las v ->
  vec_size (alt_enc las v) < limit -> holds src q (alt_enc las v) -> q + vec_size (alt_enc las v) <= en ->
  unpack_variant_impl (map la las) (variant_index (map la las) v) src en (Cursor u k q) = Ok (Some v) (Cursor u true (q + vec_size (alt_enc las v))).
Proof.
  intros He H32 Hl Hd v u k q. induction las as [|l las IH]; [contradiction|]. apply Forall_cons_1 in Hl as [[_ Hr _] Hl]. destruct Hd as (_ & Hin & _ & Hd).
  cbn [map variant_index unpack_variant_impl alt_wf alt_enc]. destruct (a_out (la l) v) as [x|] eqn:Eo; [|now apply IH]. intros Hw Hlim Hh Hq.
  unfold bind. rewrite (ro_unpack _ _ _ Hr x) by assumption. cbn. now rewrite (Hin v x Eo).
Qed.
Lemma alt_index_lt (las : list (lalternative T)) v : alt_wf las v -> (variant_index (map la las) v < length las)%nat.
Proof.
  induction las as [|l las IH]; [contradiction|]. cbn [map variant_index alt_wf length]. destruct (a_out (la l) v); [lia|]. intros H. specialize (IH H). lia.
Qed.
Lemma alt_sound src en (las : list (lalternative T)) c : 0 <= pos c <= en -> en <= vec_size src -> vec_size src < 2 ^ 32 -> Forall (in_u 8) src -> Forall lawful_alt las -> disjoint_alts las ->
  forall tag, runs (unpack_variant_impl (map la las) tag src en)
    (fun o c' => pos c <= pos c' <= en /\ (has_unknown c = true -> has_unknown c' = true) /\
       forall v, o = Some v -> has_unknown c' = false -> known_end c' = true /\ alt_wf las v /\ variant_index (map la las) v = tag /\
         holds src (pos c) (alt_enc las v) /\ pos c' = pos c + vec_size (alt_enc las v) /\ exists l x, In l las /\ v = a_in (la l) x) c.
Proof.
  intros Hq He H32 Hb Hl Hd. induction las as [|l las IH]; intros tag; [apply runs_ret; split; [lia|]; split; [auto|discriminate]|].
  apply Forall_cons_1 in Hl as [[_ _ Hs] Hl]. destruct Hd as (Hout & Hin & Hdis & Hd). cbn [map unpack_variant_impl]. destruct tag as [|tag].
  - apply runs_bind. eapply runs_mono; [|apply (so_unpack _ _ _ Hs); auto]. intros o c' (P1 & _ & P3 & P4). apply runs_ret. split; [exact P1|]. split; [exact P3|].
    intros v Ev Hu. destruct o as [x|]; [|discriminate]. injection Ev as <-. destruct (P4 x eq_refl eq_refl Hu) as (R1 & R2 & R3 & R4).
    cbn [alt_wf alt_enc variant_index]. rewrite Hout. repeat split; auto; try apply R3. exists l, x. split; [now left|reflexivity].
  - eapply runs_mono; [|apply IH; auto]. intros o c' (P1 & P3 & P4). split; [exact P1|]. split; [exact P3|]. intros v Ev Hu.
    destruct (P4 v Ev Hu) as (R1 & R2 & R3 & R4 & R5 & l' & x & Hl' & ->). cbn [alt_wf alt_enc variant_index].
    assert (Hno : a_out (la l) (a_in (la l') x) = None) by exact (proj1 (List.Forall_forall _ _) Hdis l' Hl' x). rewrite Hno, R3. repeat split; auto; try apply R4.
    exists l', x. split; [now right|reflexivity].
Qed.

Context (dflt : T) (las : list (lalternative T)) (Hlas : Forall lawful_alt las) (Hdis : disjoint_alts las) (H128 : (length las < 128)%nat).
Abbreviation alts := (map la las).
Abbreviation VL := (variant_layout size_bytes dflt las).
Lemma variant_complete v src en u k q : wf VL v -> let E := variant_enc size_bytes las v in
  vec_size E < limit -> holds src q E -> q + vec_size E <= en -> en <= vec_size src -> vec_size src < 2 ^ 32 ->
  variant_unpack size_bytes alts dflt src en (Cursor u k q) = Ok (Some v) (Cursor u true (q + vec_size E)).
Proof.
  intros [Hw Hl] E Hlim Hh Hq He H32. pose proof (limit_32 _ Hfmt). pose proof (alt_index_lt las v Hw) as Hi. unfold E, variant_enc in *. set (body := alt_enc las v) in *.
  rewrite (wrap_small 8) in * by (split; lia). set (tag := Z.of_nat (variant_index alts v)) in *. change (tag :: ?l) with ([tag] ++ l) in *.
  assert (Et : [tag] = to_le 1 tag) by (cbn; rewrite wrap_small by (split; lia); reflexivity). rewrite Et in *. rewrite !vec_size_app, !to_le_size in *. change (Z.of_nat 1) with 1 in *.
  apply holds_app in Hh as [H1 H2]. apply holds_app in H2 as [H2 H3]. rewrite !to_le_size in *. change (Z.of_nat 1) with 1 in *. pose proof H1 as (Hq0 & _ & _). pose proof (vec_size_nonneg body).
  unfold variant_unpack, bind at 1, on_pos at 1, zoom. cbn [pos]. rewrite (numeric_complete false 1 tag) by (auto; lia). change (8 * Z.of_nat 1) with 8. rewrite (wrap_small 8) by (split; lia).
  destruct (Z.leb_spec 128 tag); [lia|]. change (Z.of_nat 1) with 1. cbv beta iota. unfold bind at 1, on_pos, zoom. cbn [pos].
  change (pos (_ <| pos := q + 1 |>)) with (q + 1).
  rewrite (numeric_complete false size_bytes (vec_size body)) by (auto; lia). rewrite (wrap_small (8 * sz)) by (split; [lia|exact Hl]). cbn. rewrite (wrap_small 32 (q + 1 + sz + vec_size body)) by (split; lia).
  destruct (Z.ltb_spec (q + 1 + sz + vec_size body) (q + 1 + sz)); [lia|]. destruct (Z.ltb_spec en (q + 1 + sz + vec_size body)); [lia|]. cbn [orb].
  unfold bind at 1. unfold tag. rewrite Nat2Z.id, (alt_complete src) by (auto; fold body; lia). fold body. unfold bind, get, modify. cbn. rewrite Z.eqb_refl. cbn. now rewrite !Z.add_assoc.
Qed.
Lemma variant_sound_unpack v src en c : 0 <= pos c <= en -> en <= vec_size src -> vec_size src < 2 ^ 32 -> Forall (in_u 8) src ->
  runs (variant_unpack size_bytes alts v src en) (unpack_post (variant_impl size_bytes dflt alts) VL v src en c) c.
Proof.
  destruct c as [u k q]. cbn [pos]. intros Hq He Hs Hb. pose proof (limit_32 _ Hfmt). unfold variant_unpack. apply runs_bind.
  apply header_runs; auto; [apply runs_ret, unpack_none; cbn; [lia|discriminate|auto]|]. intros tag Ht Hh1 Hq1. change (2 ^ (8 * Z.of_nat 1)) with 256 in Ht. change (Z.of_nat 1) with 1 in *.
  destruct (Z.leb_spec 128 tag); [apply runs_ret, unpack_none; cbn; [lia|discriminate|auto]|]. apply runs_bind.
  apply header_runs; auto; [lia|apply runs_ret, unpack_none; cbn; [lia|discriminate|auto]|]. intros size Hz Hh2 Hq2. change (2 ^ (8 * sz)) with limit in Hz.
  apply runs_bind. unfold runs at 1, get, wp. cbn [pos].
  destruct (_ || _) eqn:Ec; [apply runs_ret, unpack_none; cbn; [lia|discriminate|auto]|]. rewrite orb_false_iff, !Z.ltb_ge in Ec. destruct Ec as [Ec1 Ec2].
  assert (Hw : wrap 32 (q + 1 + sz + size) = q + 1 + sz + size) by (apply wrap_32_sum; lia). rewrite Hw in *. set (ce := q + 1 + sz + size) in *.
  apply runs_bind. eapply runs_mono; [|apply (alt_sound src ce las); auto; cbn; lia]. cbn [pos has_unknown]. intros o c (P1 & P2 & P3).
  apply runs_bind. unfold runs at 1, get, wp. destruct o as [x|]; [|apply runs_bind; unfold runs, wp, modify, ret; apply unpack_none; cbn; [lia|discriminate|auto]].
  destruct (known_end c && negb (pos c =? ce)) eqn:Ek; [apply runs_bind; unfold runs, wp, modify, ret; apply unpack_none; cbn; [lia|discriminate|auto]|].
  apply runs_bind. unfold runs, wp, modify, ret. cbn. split; [cbn; lia|]. split; [discriminate|]. split; [exact P2|]. cbn. intros a [= <-] _ Hu.
  destruct (P3 x eq_refl Hu) as (R1 & R2 & R3 & R4 & R5 & _). rewrite R1 in Ek. cbn [andb] in Ek. apply negb_false_iff, Z.eqb_eq in Ek.
  assert (Hsz : size = vec_size (alt_enc las x)) by lia. split; [reflexivity|]. split; [split; [exact R2|lia]|].
  unfold variant_enc. rewrite R3, Z2Nat.id, wrap_small by (try split; lia). change (tag :: ?l) with ([tag] ++ l).
  assert (Et : [tag] = to_le 1 tag) by (cbn; rewrite wrap_small by (split; lia); reflexivity). rewrite Et, !vec_size_app, !holds_app, !to_le_size, <- Hsz. change (Z.of_nat 1) with 1. split; [auto|lia].
Qed.
Lemma variant_lawful : lawful (variant_impl size_bytes dflt alts) VL.
Proof.
  split.
  - apply variant_packs. eapply List.Forall_impl; [|exact Hlas]. now intros l [H _ _].
  - apply (base_reads size_bytes Hfmt true false dflt never never_at _ _ _ _ _ _ (wf VL) (variant_enc size_bytes las)); try discriminate; auto.
    intros a src en u k q Hw. now apply variant_complete.
  - apply (base_sound size_bytes Hfmt true false dflt never never_at _ _ _ _ _ _ (wf VL) (variant_enc size_bytes las)); try discriminate; auto.
    intros v src en c. now apply variant_sound_unpack.
Qed.
End Variant.
End Format.
