(* ===== verification/FracpackSound.v ===== *)
(** * The fracpack codec as a whole

    [codec] is a family of types with a fracpack encoding: specializations of
    [is_packable] applied to each other.  It leaves out [vector<bool>], the
    associative containers and [std::bitset], containers, structs and tuples of
    types that take no bytes, and variants of 128 alternatives or more; what goes
    wrong with most of these is in [FracpackFindings].  For each type of it, [to_frac] fills its buffer
    with the layout of the value, [from_frac] returns the value that was packed,
    no input makes it read outside of the buffer, and what the strict variant
    accepts is what [to_frac] produces. *)
From Stdlib Require Import ZArith Lia Bool String.
From stdpp Require Import base list numbers decidable option.
From S2P Require Import Prelude Fracpack FracpackSpec FracpackPack FracpackUnpack FracpackValues FracpackBounded FracpackLoops FracpackMembers.

Section Format.
Context (size_bytes : nat) (Hfmt : frac_format size_bytes).
Abbreviation limit := (limit size_bytes).
Abbreviation lawful := (lawful size_bytes).

(** ** Types *)
Inductive codec : forall A : Type, packable A -> layout A -> Prop :=
| codec_memcpy A n to_bytes of_bytes (V : A -> Prop) :
    (forall a, V a -> length (to_bytes a) = n) -> (forall a, V a -> of_bytes (to_bytes a) = a) ->
    (forall bs, Forall (in_u 8) bs -> length bs = n -> V (of_bytes bs) /\ to_bytes (of_bytes bs) = bs) ->
    codec A (memcpy_impl size_bytes n to_bytes of_bytes) (memcpy_layout to_bytes V)
| codec_bool : codec bool (bool_impl size_bytes) bool_layout
| codec_container_memcpy A n to_bytes of_bytes (V : A -> Prop) :
    (forall a, V a -> length (to_bytes a) = n) -> (forall a, V a -> of_bytes (to_bytes a) = a) ->
    (forall bs, Forall (in_u 8) bs -> length bs = n -> V (of_bytes bs) /\ to_bytes (of_bytes bs) = bs) -> (0 < n)%nat ->
    codec (list A) (container_memcpy_impl size_bytes n to_bytes of_bytes) (container_memcpy_layout size_bytes n to_bytes of_bytes V)
| codec_container A p L : codec A p L -> 0 < fixed_size p -> codec (list A) (container_impl size_bytes p) (container_layout size_bytes p L)
| codec_array A p L N : codec A p L -> fixed_size p * Z.of_nat N < 2 ^ 32 -> codec (list A) (array_impl size_bytes p N) (array_layout size_bytes p L N)
| codec_optional A p L : codec A p L -> codec (option A) (optional_impl size_bytes p) (optional_layout size_bytes p L)
| codec_bounded_memcpy A N n to_bytes of_bytes (V : A -> Prop) :
    (forall a, V a -> length (to_bytes a) = n) -> (forall a, V a -> of_bytes (to_bytes a) = a) ->
    (forall bs, Forall (in_u 8) bs -> length bs = n -> V (of_bytes bs) /\ to_bytes (of_bytes bs) = bs) -> (0 < n)%nat -> N * Z.of_nat n < 2 ^ 32 ->
    codec (list A) (bounded_memcpy_impl size_bytes N n to_bytes of_bytes) (bounded_memcpy_layout size_bytes N n to_bytes of_bytes V)
| codec_bounded_container A N p L : codec A p L -> 0 < fixed_size p -> N * Z.of_nat size_bytes < 2 ^ 32 ->
    codec (list A) (bounded_container_impl size_bytes N p) (bounded_container_layout size_bytes N p L)
| codec_bitlist MaxN : 0 <= MaxN -> MaxN + 7 < 2 ^ 32 -> codec bitlist (bitlist_impl size_bytes MaxN) (bitlist_layout size_bytes MaxN)
| codec_struct T dwnc header_size (dflt : T) ls :
    (forall l, In l ls -> codec _ (m_packable (lm l)) (lm_layout l)) -> (forall l, In l ls -> 0 < fixed_size (m_packable (lm l))) -> lenses dflt (map lm ls) ->
    members_fixed_size (map lm ls) < 2 ^ 32 -> (dwnc = false -> members_fixed_size (map lm ls) < 2 ^ (8 * Z.of_nat header_size)) ->
    codec T (struct_impl size_bytes dwnc header_size dflt (map lm ls)) (struct_layout size_bytes dwnc header_size dflt ls)
| codec_tuple T (dflt : T) ls :
    (forall l, In l ls -> codec _ (m_packable (lm l)) (lm_layout l)) -> (forall l, In l ls -> 0 < fixed_size (m_packable (lm l))) -> lenses dflt (map lm ls) ->
    members_fixed_size (map lm ls) < 2 ^ 16 -> codec T (tuple_impl size_bytes dflt (map lm ls)) (tuple_layout size_bytes dflt ls)
| codec_variant T (dflt : T) las :
    (forall l, In l las -> codec _ (a_packable (la l)) (la_layout l)) -> disjoint_alts las -> (length las < 128)%nat ->
    codec T (variant_impl size_bytes dflt (map la las)) (variant_layout size_bytes dflt las).

Lemma members_lawful {T} (ls : list (lmember T)) : (forall l, In l ls -> lawful (m_packable (lm l)) (lm_layout l)) -> (forall l, In l ls -> 0 < fixed_size (m_packable (lm l))) ->
  Forall (lawful_member size_bytes) ls.
Proof. intros H1 H2. apply List.Forall_forall. intros l Hl. split; auto. Qed.
Lemma codec_lawful A p L : codec A p L -> lawful p L.
Proof.
  induction 1 as [A n tb ob V H1 H2 H3| |A n tb ob V H1 H2 H3 H4|A p L _ [IHp IHr IHs] H1|A p L N _ [IHp IHr IHs] H1|A p L _ [IHp IHr IHs]|A N n tb ob V H1 H2 H3 H4 H5|A N p L _ [IHp IHr IHs] H1 H2|M H1 H2|T d hs df ls _ IH H1 H2 H3 H4|T df ls _ IH H1 H2 H3|T df las _ IH H1 H2].
  - split; [now apply memcpy_packs|now apply memcpy_reads|now apply memcpy_sound].
  - split; [exact (bool_packs size_bytes)|now apply bool_reads|now apply bool_sound].
  - split; [now apply container_memcpy_packs|now apply container_memcpy_reads|now apply container_memcpy_sound].
  - split; [now apply container_packs|now apply container_reads|now apply container_sound].
  - split; [now apply array_packs|now apply array_reads|now apply array_sound].
  - split; [now apply optional_packs|now apply optional_reads|now apply optional_sound].
  - split; [now apply bounded_memcpy_packs|now apply bounded_memcpy_reads|now apply bounded_memcpy_sound].
  - split; [now apply bounded_container_packs|now apply bounded_container_reads|now apply bounded_container_sound].
  - split; [now apply bitlist_packs|now apply bitlist_reads|now apply bitlist_sound].
  - apply struct_lawful; auto using members_lawful.
  - apply tuple_lawful; auto using members_lawful.
  - apply variant_lawful; auto. apply List.Forall_forall. exact IH.
Qed.

(** ** Packing and unpacking *)
Lemma to_frac_enc {A} (p : packable A) L v : lawful p L -> wf L v -> vec_size (enc L v) < 2 ^ 32 ->
  exists s, to_frac p v = Ok (enc L v) s /\ fracpack_size p v = vec_size (enc L v).
Proof.
  intros [Hp _ _] Hw Hl. unfold to_frac, fracpack_size. rewrite (po_size _ _ _ Hp v Hw Hl). pose proof (vec_size_nonneg (enc L v)).
  destruct (po_pack _ _ _ Hp v Hw fixed_buf_stream buf_stream buf_stream_spec {| sb_done := []; sb_room := repeat 0 (Z.to_nat (vec_size (enc L v))) |}) as (s & -> & Ed & Er & _).
  - cbn. unfold vec_size. rewrite repeat_length. lia.
  - cbn. unfold vec_size in *. cbn. lia.
  - exists s. cbn in Ed, Er. rewrite Ed, Er, drop_ge by (rewrite repeat_length; unfold vec_size; lia). now rewrite app_nil_r.
Qed.
Lemma unpack_enc {A} (p : packable A) L v junk : lawful p L -> wf L v -> vec_size (enc L v) < limit ->
  unpack p (default_value p) (enc L v) (wrap 32 (vec_size (enc L v))) (Cursor false junk 0) = Ok (Some v) (Cursor false true (vec_size (enc L v))).
Proof.
  intros [_ Hr _] Hw Hl. pose proof (limit_32 _ Hfmt). pose proof (vec_size_nonneg (enc L v)). rewrite wrap_small by (split; lia).
  rewrite (ro_unpack _ _ _ Hr v) by (auto using holds_self; lia). reflexivity.
Qed.
Lemma unpack_bytes {A} (p : packable A) L v junk data : lawful p L -> Forall (in_u 8) data -> vec_size data < 2 ^ 32 ->
  runs (unpack p v data (wrap 32 (vec_size data))) (unpack_post p L v data (vec_size data) (Cursor false junk 0)) (Cursor false junk 0).
Proof. intros [_ _ Hs] Hb Hl. pose proof (vec_size_nonneg data). rewrite wrap_small by (split; lia). apply (so_unpack _ _ _ Hs); auto; cbn; lia. Qed.
Lemma holds_all src bs : holds src 0 bs -> vec_size src = vec_size bs -> bs = src.
Proof. intros (_ & _ & E) Hl. rewrite <- E. cbn [Z.to_nat drop]. unfold vec_size in Hl. apply take_ge. lia. Qed.

(** C7. For every type of the family [codec], built from numbers, booleans, strings, vectors, arrays, bounded lists,
    bitlists, optionals, tuples, structs, fixed or extensible, and variants (but not [vector<bool>], associative
    containers, members without bytes or 128 alternatives), and every well-formed value of it whose encoding is below the
    limit of the offsets: [to_frac] returns exactly [fracpack_size] bytes, and [from_frac] on these bytes returns the
    value, also in the strict mode, which refuses unknown members.  A list is well-formed when its byte count fits its
    length prefix.  A bounded list within its bound does if its elements are copied or are no wider than an offset
    ([bounded_memcpy_fits], [bounded_container_fits]); with wider elements it may not, and is then written with a
    truncated prefix ([bounded_list_prefix_truncates] of the findings). *)
Theorem frac_roundtrip A (p : packable A) L v junk : codec A p L -> wf L v -> vec_size (enc L v) < limit ->
  exists bytes s c, to_frac p v = Ok bytes s /\ vec_size bytes = fracpack_size p v /\ from_frac p junk bytes = Ok v c /\
                    exists c', from_frac_strict_into p junk (default_value p) bytes = Ok (Some v) c'.
Proof.
  intros Hc Hw Hl. apply codec_lawful in Hc. pose proof (limit_32 _ Hfmt). destruct (to_frac_enc p L v Hc Hw ltac:(lia)) as (s & Ef & Es).
  exists (enc L v), s. unfold from_frac, from_frac_into, from_frac_strict_into. rewrite (unpack_enc p L v junk Hc Hw Hl). cbn. rewrite Z.eqb_refl. cbn. eauto 6.
Qed.
(** C8. [from_frac] on arbitrary bytes, below 4 GiB, into any target of a type of the family [codec] neither reads
    outside the bytes nor divides by zero nor throws: it answers with a value or with a refusal, and ends at a position
    inside the bytes.  Outside of the family this is false: a [vector<bool>] can read behind the bytes
    ([vector_bool_count_wraps]), a container of elements without bytes divides by zero ([vector_of_empty_undefined]). *)
Theorem from_frac_safe A (p : packable A) L v junk data : codec A p L -> Forall (in_u 8) data -> vec_size data < 2 ^ 32 ->
  exists o c, from_frac_into p junk v data = Ok o c /\ 0 <= pos c <= vec_size data.
Proof.
  intros Hc Hb Hl. apply codec_lawful in Hc. pose proof (unpack_bytes p L v junk data Hc Hb Hl) as Hr. unfold runs, wp, from_frac_into in *.
  destruct (unpack p v data _ _) as [[x|] c|e c|]; try contradiction; destruct Hr as (P & _); cbn in P; eauto.
Qed.
(** C9. Strict acceptance is canonical: when the strict reader accepts bytes as a new value of a type of the family
    [codec] (all of whose struct and tuple members take bytes; otherwise see [empty_member_not_canonical]), the bytes are
    exactly what [to_frac] writes for the value, so no other bytes are accepted for it.  The value is well-formed:
    numbers in range and lists that fit their length prefix.  It does not follow that a bounded list is within its
    bound, which the reader does not check ([bounded_list_reads_more_than_its_bound]). *)
Theorem frac_strict_canonical A (p : packable A) L v junk data c : codec A p L -> Forall (in_u 8) data -> vec_size data < 2 ^ 32 ->
  from_frac_strict_into p junk (default_value p) data = Ok (Some v) c -> wf L v /\ exists s, to_frac p v = Ok data s.
Proof.
  intros Hc Hb Hl. apply codec_lawful in Hc. pose proof (unpack_bytes p L (default_value p) junk data Hc Hb Hl) as Hr. unfold runs, wp, from_frac_strict_into in *.
  destruct (unpack p (default_value p) data _ _) as [[x|] c0|e c0|]; try contradiction; [|discriminate]. destruct Hr as (_ & _ & _ & P). intros E.
  destruct (has_unknown c0) eqn:Hu; [discriminate|]. destruct (P x eq_refl eq_refl eq_refl) as (R1 & R2 & R3 & R4). rewrite R1 in E. cbn in E, R3, R4.
  destruct (Z.eqb_spec (pos c0) (vec_size data)) as [Ep|]; [|discriminate]. injection E as <- _. pose proof (holds_all data (enc L x) R3 ltac:(lia)) as Ed.
  split; [exact R2|]. rewrite <- Ed in Hl |- *. destruct (to_frac_enc p L x Hc R2 Hl) as (s & Es & _). eauto.
Qed.
End Format.

(** ** A type of the family *)
Section Numbers.
Context (size_bytes n : nat).
Definition number : packable Z := memcpy_impl size_bytes n (to_le n) of_le.
Definition number_layout : layout Z := memcpy_layout (to_le n) (in_u (8 * Z.of_nat n)).
Lemma number_laws : (forall z, in_u (8 * Z.of_nat n) z -> length (to_le n z) = n) /\ (forall z, in_u (8 * Z.of_nat n) z -> of_le (to_le n z) = z) /\
  (forall bs, Forall (in_u 8) bs -> length bs = n -> in_u (8 * Z.of_nat n) (of_le bs) /\ to_le n (of_le bs) = bs).
Proof.
  split; [intros z _; apply to_le_length|]. split; [intros z Hz; rewrite of_to_le; now apply wrap_small|].
  intros bs Hb <-. split; [now apply of_le_range|now apply to_of_le].
Qed.
Lemma number_codec : codec size_bytes Z number number_layout.
Proof. destruct number_laws as (H1 & H2 & H3). now apply codec_memcpy. Qed.
(** Strings, and vectors of numbers. *)
Definition numbers : packable (list Z) := container_memcpy_impl size_bytes n (to_le n) of_le.
Definition numbers_layout : layout (list Z) := container_memcpy_layout size_bytes n (to_le n) of_le (in_u (8 * Z.of_nat n)).
Lemma numbers_codec : (0 < n)%nat -> codec size_bytes (list Z) numbers numbers_layout.
Proof. intros Hn. destruct number_laws as (H1 & H2 & H3). now apply codec_container_memcpy. Qed.
End Numbers.

(** A struct with a fixed member, a string, a vector of strings and two optionals. *)
Record document := { d_id : Z; d_name : list Z; d_tags : list (list Z); d_size : option Z; d_note : option (list Z) }.
#[export] Instance eta_document : Eta document := fun d => {| d_id := d_id d; d_name := d_name d; d_tags := d_tags d; d_size := d_size d; d_note := d_note d |}.
Definition document_default : document := {| d_id := 0; d_name := []; d_tags := []; d_size := None; d_note := None |}.
Definition document_members : list (lmember document) := [
  LMember (Member (number 4 4) d_id (fun x d => d <| d_id := x |>)) (number_layout 4);
  LMember (Member (numbers 4 1) d_name (fun x d => d <| d_name := x |>)) (numbers_layout 4 1);
  LMember (Member (container_impl 4 (numbers 4 1)) d_tags (fun x d => d <| d_tags := x |>)) (container_layout 4 (numbers 4 1) (numbers_layout 4 1));
  LMember (Member (optional_impl 4 (number 4 2)) d_size (fun x d => d <| d_size := x |>)) (optional_layout 4 (number 4 2) (number_layout 2));
  LMember (Member (optional_impl 4 (numbers 4 1)) d_note (fun x d => d <| d_note := x |>)) (optional_layout 4 (numbers 4 1) (numbers_layout 4 1))].
Definition document_impl : packable document := struct_impl 4 false 2 document_default (map lm document_members).
Definition document_layout : layout document := struct_layout 4 false 2 document_default document_members.
Lemma format_32 : frac_format 4.
Proof. now right. Qed.
Lemma document_codec : codec 4 document document_impl document_layout.
Proof.
  assert (Hn : codec 4 (list Z) (numbers 4 1) (numbers_layout 4 1)) by (apply numbers_codec; lia).
  apply codec_struct.
  - intros l Hl. repeat (destruct Hl as [<-|Hl]; [cbn|]); [apply number_codec|exact Hn|apply codec_container; [exact Hn|cbn; lia]|apply codec_optional, number_codec|now apply codec_optional|contradiction].
  - intros l Hl. repeat (destruct Hl as [<-|Hl]; [cbn; lia|]). contradiction.
  - split.
    + repeat (split; [intros x v; reflexivity|]; split; [repeat (constructor; [split; intros x v; reflexivity|]); constructor|]). exact I.
    + repeat constructor.
    + intros [] [] H. repeat (apply Forall_cons_1 in H as [? H]). cbn in *. now subst.
  - cbn. lia.
  - intros _. cbn. lia.
Qed.
Definition document_1 : document := {| d_id := 7; d_name := [104; 105]; d_tags := [[97]; []; [98; 99]]; d_size := Some 9; d_note := None |}.
Definition document_1_bytes : list Z :=
  [16;0; 7;0;0;0; 12;0;0;0; 14;0;0;0; 37;0;0;0; 2;0;0;0;104;105; 12;0;0;0; 12;0;0;0; 0;0;0;0; 9;0;0;0; 1;0;0;0;97; 2;0;0;0;98;99; 9;0].
Lemma document_1_wf : wf document_layout document_1 /\ vec_size (enc document_layout document_1) < limit 4.
Proof. split; [|vm_compute; reflexivity]. repeat (constructor; unfold in_u; cbn; try lia). Qed.
Example document_1_packs : exists s, to_frac document_impl document_1 = Ok document_1_bytes s.
Proof. eexists. vm_compute. reflexivity. Qed.

Lemma frac_roundtrip_witness : exists bytes s c, to_frac document_impl document_1 = Ok bytes s /\ vec_size bytes = fracpack_size document_impl document_1 /\
  from_frac document_impl true bytes = Ok document_1 c /\ exists c', from_frac_strict_into document_impl true (default_value document_impl) bytes = Ok (Some document_1) c'.
Proof.
  exact (frac_roundtrip 4 format_32 document document_impl document_layout document_1 true document_codec (proj1 document_1_wf) (proj2 document_1_wf)).
Defined.
(** Cut short, into a target that is not empty. *)
Lemma from_frac_safe_witness : exists o c, from_frac_into document_impl false document_1 (take 30 document_1_bytes) = Ok o c /\ 0 <= pos c <= vec_size (take 30 document_1_bytes).
Proof.
  apply (from_frac_safe 4 format_32 document document_impl document_layout document_1 false (take 30 document_1_bytes) document_codec);
    [repeat (constructor; unfold in_u; cbn; try lia)|vm_compute; reflexivity].
Defined.
Lemma frac_strict_canonical_witness : wf document_layout document_1 /\ exists s, to_frac document_impl document_1 = Ok document_1_bytes s.
Proof.
  apply (frac_strict_canonical 4 format_32 document document_impl document_layout document_1 false document_1_bytes (Cursor false true (vec_size document_1_bytes)) document_codec);
    [repeat (constructor; unfold in_u; cbn; try lia)|vm_compute; reflexivity|vm_compute; reflexivity].
Defined.
