(* ===== verification/FracpackEvolution.v ===== *)
(** * Evolution of fracpack structs

    A struct type and a later version of it, with optional members added at its
    end: each reads what the other has packed. *)
From Stdlib Require Import ZArith Lia Bool String.
From stdpp Require Import base list numbers decidable option.
From S2P Require Import Prelude Fracpack FracpackSpec FracpackPack FracpackUnpack FracpackValues FracpackLoops FracpackMembers FracpackSound.

(** ** Values made of members *)
Lemma transfer_spec {T X} (m : X -> member T) (val : forall x, m_type (m x)) (xs : list X) : separate (map m xs) -> forall v,
  let v' := fold_left (fun v x => m_set (m x) (val x) v) xs v in keeps (map m xs) v v' /\ forall x, In x xs -> m_get (m x) v' = val x.
Proof.
  induction xs as [|x xs IH]; intros Hs v; cbn [fold_left map]; [split; [now intros m'|contradiction]|].
  destruct (IH (proj2 (proj2 Hs)) (m_set (m x) (val x) v)) as [Hk Hg]. destruct (keeps_cons _ _ _ _ _ Hs Hk) as [H1 H2]. split; [exact H2|]. intros y [<-|Hy]; auto.
Qed.
Lemma members_fixed_app {T} (ms ms' : list (member T)) : members_fixed_size (ms ++ ms') = members_fixed_size ms + members_fixed_size ms'.
Proof. induction ms as [|m ms IH]; [reflexivity|]. cbn [app]. rewrite !members_fixed_cons, IH. lia. Qed.
Lemma lay_app cs cs' : forall d, lay d (cs ++ cs') = lay d cs ++ lay (d - sizes cs + vec_size (heaps cs)) cs'.
Proof.
  induction cs as [|c cs IH]; intros d; cbn [app lay]; [unfold sizes, heaps; cbn; f_equal; unfold vec_size; cbn; lia|].
  rewrite IH, <- app_assoc. do 3 f_equal. unfold sizes, heaps. cbn [map concat fold_right]. rewrite vec_size_app. lia.
Qed.
Lemma heaps_app cs cs' : heaps (cs ++ cs') = heaps cs ++ heaps cs'.
Proof. unfold heaps. now rewrite map_app, concat_app. Qed.
Lemma slot_sizes_app cs cs' : sizes (cs ++ cs') = sizes cs + sizes cs'.
Proof. unfold sizes. induction cs as [|c cs IH]; cbn [app fold_right]; lia. Qed.
Lemma last_with {A} (f : A -> bool) l : existsb f l = true -> exists e1 x e2, l = e1 ++ x :: e2 /\ f x = true /\ forall y, In y e2 -> f y = false.
Proof.
  induction l as [|a l IH]; [discriminate|]. cbn. destruct (existsb f l) eqn:E.
  - intros _. destruct (IH eq_refl) as (e1 & x & e2 & -> & Hx & He). exists (a :: e1), x, e2. auto.
  - rewrite orb_false_r. intros Ha. exists [], a, l. split; [reflexivity|]. split; [exact Ha|]. intros y Hy. destruct (f y) eqn:Ey; [|reflexivity].
    rewrite <- E. symmetry. apply existsb_exists. eauto.
Qed.
(** The slots in an encoding are those of the members that are present. *)
Lemma struct_enc_present {T} header_size (ls : list (lmember T)) v : struct_enc false header_size ls v = region_enc (to_le header_size) v (present ls v).
Proof.
  unfold struct_enc, struct_variable. cbn [negb orb]. unfold region_enc, struct_header. destruct (all_members_present false (map lm ls)) eqn:Ea; [|reflexivity].
  assert (Hp : present ls v = ls); [|now rewrite Hp]. unfold present. apply take_ge.
  assert (Hf : fold_left (fun _ m => shows v m) (map lm ls) true = true).
  { unfold all_members_present, has_trailing_optionals in Ea. cbn [orb] in Ea. destruct (map lm ls) as [|m ms] using rev_ind; [reflexivity|].
    rewrite rev_app_distr in Ea. cbn in Ea. apply negb_true_iff in Ea. rewrite fold_left_app. cbn. unfold shows. now rewrite Ea. }
  pose proof (num_present_unique v (map lm ls) [] ltac:(constructor) Hf) as Hn. rewrite app_nil_r in Hn. rewrite Hn, length_map. lia.
Qed.

Section Format.
Context (size_bytes : nat) (Hfmt : frac_format size_bytes).
Abbreviation sz := (Z.of_nat size_bytes).
Abbreviation limit := (limit size_bytes).
Abbreviation codec := (codec size_bytes).

(** A member of both versions, and an optional member of the later one. *)
Record shared (T1 T2 : Type) := Shared {
  s_type : Type; s_packable : packable s_type; s_layout : layout s_type; s_get : T1 -> s_type; s_set : s_type -> T1 -> T1; s_get' : T2 -> s_type; s_set' : s_type -> T2 -> T2 }.
Record added (T2 : Type) := Added {
  x_type : Type; x_packable : packable x_type; x_layout : layout x_type; x_get : T2 -> option x_type; x_set : option x_type -> T2 -> T2 }.
#[global] Arguments s_packable {T1 T2} s : rename.
#[global] Arguments s_layout {T1 T2} s : rename.
#[global] Arguments s_get {T1 T2} s _ : rename.
#[global] Arguments s_set {T1 T2} s _ _ : rename.
#[global] Arguments s_get' {T1 T2} s _ : rename.
#[global] Arguments s_set' {T1 T2} s _ _ : rename.
#[global] Arguments x_packable {T2} a : rename.
#[global] Arguments x_layout {T2} a : rename.
#[global] Arguments x_get {T2} a _ : rename.
#[global] Arguments x_set {T2} a _ _ : rename.
Section Versions.
Context {T1 T2 : Type} (header_size : nat) (d1 : T1) (d2 : T2) (sh : list (shared T1 T2)) (ext : list (added T2)).
Definition before (s : shared T1 T2) : lmember T1 := LMember (Member (s_packable s) (s_get s) (s_set s)) (s_layout s).
Definition after (s : shared T1 T2) : lmember T2 := LMember (Member (s_packable s) (s_get' s) (s_set' s)) (s_layout s).
Definition extra (x : added T2) : lmember T2 :=
  LMember (Member (optional_impl size_bytes (x_packable x)) (x_get x) (x_set x)) (optional_layout size_bytes (x_packable x) (x_layout x)).
Definition ls1 : list (lmember T1) := map before sh.
Definition ls2 : list (lmember T2) := map after sh ++ map extra ext.
Definition version1 : packable T1 := struct_impl size_bytes false header_size d1 (map lm ls1).
Definition version2 : packable T2 := struct_impl size_bytes false header_size d2 (map lm ls2).
Definition layout1 : layout T1 := struct_layout size_bytes false header_size d1 ls1.
Definition layout2 : layout T2 := struct_layout size_bytes false header_size d2 ls2.
(** The same value, as far as both know it. *)
Definition agree (v1 : T1) (v2 : T2) : Prop := forall s, In s sh -> s_get s v1 = s_get' s v2.
(** What both types must satisfy to be packed at all. *)
Record evolves : Prop := {
  ev_codec : forall s, In s sh -> codec _ (s_packable s) (s_layout s) /\ 0 < fixed_size (s_packable s);
  ev_extra : forall x, In x ext -> codec _ (x_packable x) (x_layout x);
  ev_lenses1 : lenses d1 (map lm ls1);
  ev_lenses2 : lenses d2 (map lm ls2);
  ev_32 : members_fixed_size (map lm ls2) < 2 ^ 32;
  ev_header : members_fixed_size (map lm ls2) < 2 ^ (8 * Z.of_nat header_size) }.
Context (Hev : evolves).

Lemma fixed_shared (xs : list (shared T1 T2)) : members_fixed_size (map lm (map before xs)) = members_fixed_size (map lm (map after xs)).
Proof. induction xs as [|x xs IH]; [reflexivity|]. cbn [map]. rewrite !members_fixed_cons, IH. reflexivity. Qed.
Lemma fixed_extra (xs : list (added T2)) : members_fixed_size (map lm (map extra xs)) = Z.of_nat (length xs) * sz.
Proof. induction xs as [|x xs IH]; [reflexivity|]. cbn [map length]. rewrite members_fixed_cons, IH. cbn [lm extra m_packable optional_impl fixed_size]. lia. Qed.
Lemma fixed_le : members_fixed_size (map lm ls1) <= members_fixed_size (map lm ls2).
Proof. unfold ls1, ls2. rewrite map_app, members_fixed_app, fixed_shared, fixed_extra. pose proof (sz_pos _ Hfmt). lia. Qed.
Lemma codec1 : codec T1 version1 layout1.
Proof.
  pose proof fixed_le as Hfix.
  destruct Hev as [Hc Hx Hl1 Hl2 H32 Hh]. apply codec_struct; auto; try lia; try (intros _; lia); unfold ls1; intros l Hl; apply in_map_iff in Hl as (s & <- & Hs); apply Hc, Hs.
Qed.
Lemma codec2 : codec T2 version2 layout2.
Proof.
  pose proof (sz_pos _ Hfmt). destruct Hev as [Hc Hx Hl1 Hl2 H32 Hh]. apply codec_struct; auto; unfold ls2; intros l Hl; apply in_app_iff in Hl as [Hl|Hl]; apply in_map_iff in Hl as (s & <- & Hs);
    [apply Hc, Hs|apply codec_optional, Hx, Hs|apply Hc, Hs|cbn; lia].
Qed.

Lemma cells_agree v1 v2 xs : (forall s, In s xs -> s_get s v1 = s_get' s v2) -> map (member_cell v1) (map before xs) = map (member_cell v2) (map after xs).
Proof.
  induction xs as [|x xs IH]; intros H; [reflexivity|]. cbn [map]. rewrite IH by (intros s Hs; apply H; now right). f_equal. unfold member_cell, cell_of. cbn [lm before after m_packable m_get lm_layout].
  now rewrite (H x) by now left.
Qed.
Lemma shown_agree v1 v2 xs : (forall s, In s xs -> s_get s v1 = s_get' s v2) -> map (shows v1) (map lm (map before xs)) = map (shows v2) (map lm (map after xs)).
Proof.
  induction xs as [|x xs IH]; intros H; [reflexivity|]. cbn [map]. rewrite IH by (intros s Hs; apply H; now right). f_equal. unfold shows. cbn [lm before after m_packable m_get].
  now rewrite (H x) by now left.
Qed.
Lemma fold_map {A} (f : A -> bool) l b : fold_left (fun _ x => f x) l b = fold_left (fun _ y => y) (map f l) b.
Proof. revert b. induction l as [|x l IH]; intros b; [reflexivity|]. apply IH. Qed.
(** Without values of extra members, the encodings are the same. *)
Lemma same_encoding v1 v2 : agree v1 v2 -> (forall x, In x ext -> x_get x v2 = None) -> struct_enc false header_size ls1 v1 = struct_enc false header_size ls2 v2.
Proof.
  intros Ha Hn. rewrite !struct_enc_present. set (k := num_present v1 (map lm ls1)). destruct (num_present_spec v1 (map lm ls1)) as (Hk & Hm & Hf). fold k in Hk, Hm, Hf.
  assert (E1 : present ls1 v1 = map before (take k sh)) by (unfold present, ls1; fold k; symmetry; apply fmap_take).
  assert (Hin : forall s, In s (take k sh) -> s_get s v1 = s_get' s v2) by (intros s Hs; apply Ha; rewrite <- (take_drop k sh); apply in_app_iff; now left).
  assert (E2 : present ls2 v2 = map after (take k sh)).
  { unfold present. assert (Es : ls2 = map after (take k sh) ++ (map after (drop k sh) ++ map extra ext)).
    { unfold ls2. rewrite app_assoc, <- map_app, take_drop. reflexivity. }
    rewrite Es at 1. rewrite map_app, num_present_unique; [rewrite Es, length_map; apply take_app_length| |].
    - rewrite map_app. apply Forall_app. split.
      + apply List.Forall_forall. intros m Hm'. rewrite map_map in Hm'. apply in_map_iff in Hm' as (s & <- & Hs).
        assert (Hms : missing v1 (lm (before s))).
        { eapply List.Forall_forall; [exact Hm|]. unfold ls1. rewrite map_map.
          change (map (fun x => lm (before x)) sh) with ((fun x => lm (before x)) <$> sh). rewrite <- fmap_drop. apply in_map_iff. now exists s. }
        unfold missing in *. cbn [lm before after m_packable m_get] in *. rewrite <- (Ha s); [exact Hms|]. rewrite <- (take_drop k sh). apply in_app_iff. now right.
      + apply List.Forall_forall. intros m Hm'. rewrite map_map in Hm'. apply in_map_iff in Hm' as (x & <- & Hx). split; [reflexivity|]. cbn. now rewrite Hn.
    - rewrite fold_map, <- (shown_agree v1 v2) by exact Hin. rewrite <- fold_map. revert Hf. unfold ls1.
      change (map lm (map before sh)) with (lm <$> (before <$> sh)). rewrite <- !fmap_take. auto. }
  rewrite E1, E2. unfold region_enc. rewrite (cells_agree v1 v2) by exact Hin. now rewrite fixed_shared.
Qed.

(** ** The later version reads the earlier one *)
Definition upgrade (v1 : T1) : T2 := fold_left (fun v s => s_set' s (s_get s v1) v) sh d2.
Lemma upgrade_spec v1 : agree v1 (upgrade v1) /\ forall x, In x ext -> x_get x (upgrade v1) = None.
Proof.
  destruct Hev as [_ _ _ [Hs Hd _] _ _]. unfold ls2 in Hs, Hd. rewrite map_app in Hs, Hd. apply separate_app in Hs as (Hs & _ & Hx). apply Forall_app in Hd as [_ Hd].
  rewrite map_map in Hs. destruct (transfer_spec (fun s => lm (after s)) (fun s => s_get s v1) sh Hs d2) as [Hk Hg]. split; [intros s Hin; symmetry; exact (Hg s Hin)|].
  intros x Hin. assert (Hl : In (lm (extra x)) (map lm (map extra ext))) by (rewrite map_map; apply in_map_iff; now exists x).
  pose proof (proj1 (List.Forall_forall _ _) Hd _ Hl) as Hd'. pose proof (proj1 (List.Forall_forall _ _) Hx _ Hl) as Hx'. cbv beta in Hx'. rewrite map_map in Hx'.
  etransitivity; [|exact Hd']. exact (Hk _ Hx').
Qed.
Lemma upgrade_wf v1 : wf layout1 v1 -> wf layout2 (upgrade v1).
Proof.
  destruct (upgrade_spec v1) as [Ha Hn]. intros Hw. change (Forall (member_wf v1) ls1) in Hw. change (Forall (member_wf (upgrade v1)) ls2). unfold ls1, ls2 in *. apply Forall_app. split; apply List.Forall_forall.
  - intros l Hl. apply in_map_iff in Hl as (s & <- & Hs). unfold member_wf. cbn [lm after lm_layout m_get]. rewrite <- (Ha s Hs).
    exact (proj1 (List.Forall_forall _ _) Hw (before s) (in_map before _ _ Hs)).
  - intros l Hl. apply in_map_iff in Hl as (x & <- & Hx). unfold member_wf. cbn [lm extra lm_layout m_get optional_layout wf]. now rewrite (Hn x Hx).
Qed.
(** C11. A version of a struct with optional members added at its end reads what the older version has packed: every
    shared member has its value and every added member is empty. *)
Theorem newer_reads_older v1 junk : wf layout1 v1 -> vec_size (enc layout1 v1) < limit ->
  exists bytes s v2 c, to_frac version1 v1 = Ok bytes s /\ from_frac version2 junk bytes = Ok v2 c /\ agree v1 v2 /\ forall x, In x ext -> x_get x v2 = None.
Proof.
  intros Hw Hl. pose proof (limit_32 _ Hfmt). destruct (upgrade_spec v1) as [Ha Hn]. pose proof (codec_lawful _ Hfmt _ _ _ codec1) as L1. pose proof (codec_lawful _ Hfmt _ _ _ codec2) as L2.
  destruct (to_frac_enc _ version1 layout1 v1 L1 Hw ltac:(lia)) as (s & Es & _). assert (Ee : enc layout1 v1 = enc layout2 (upgrade v1)) by exact (same_encoding v1 (upgrade v1) Ha Hn).
  exists (enc layout1 v1), s, (upgrade v1). unfold from_frac, from_frac_into. rewrite Ee in Hl |- *. rewrite (unpack_enc _ Hfmt version2 layout2 (upgrade v1) junk L2 (upgrade_wf v1 Hw) Hl). cbn.
  rewrite Z.eqb_refl. cbn. rewrite Ee in Es. eauto.
Qed.

(** ** The earlier version reads the later one *)
Definition downgrade (v2 : T2) : T1 := fold_left (fun v s => s_set s (s_get' s v2) v) sh d1.
Lemma downgrade_spec v2 : agree (downgrade v2) v2.
Proof.
  destruct Hev as [_ _ [Hs _ _] _ _ _]. unfold ls1 in Hs. rewrite map_map in Hs. destruct (transfer_spec (fun s => lm (before s)) (fun s => s_get' s v2) sh Hs d1) as [_ Hg].
  intros s Hin. exact (Hg s Hin).
Qed.
Lemma downgrade_wf v2 : wf layout2 v2 -> Forall (member_wf (downgrade v2)) ls1.
Proof.
  intros Hw. change (Forall (member_wf v2) ls2) in Hw. unfold ls1, ls2 in *. apply Forall_app in Hw as [Hw _]. apply List.Forall_forall.
  intros l Hl. apply in_map_iff in Hl as (s & <- & Hs). unfold member_wf. cbn [lm before lm_layout m_get]. rewrite (downgrade_spec v2 s Hs).
  exact (proj1 (List.Forall_forall _ _) Hw (after s) (in_map after _ _ Hs)).
Qed.
(** The check of slots that the earlier version does not know: [h] is the heap
    position that it keeps, [hp] where the next value is. *)
Definition has (v2 : T2) (x : added T2) : bool := match x_get x v2 with Some _ => true | None => false end.
Lemma verify_complete v2 src ef eh : eh <= vec_size src -> vec_size src < 2 ^ 32 -> forall xs known last fp hp h,
  (forall x, In x xs -> In x ext) -> Forall (member_wf v2) (map extra xs) -> let cs := map (member_cell v2) (map extra xs) in
  holds src fp (lay (hp - fp) cs) -> fp + vec_size xs * sz <= ef -> ef <= h <= hp -> hp + vec_size (heaps cs) <= eh -> hp + vec_size (heaps cs) - fp < limit -> (known = true -> h = hp) ->
  exists h', verify_slots size_bytes (length xs) src known last fp ef eh h = Ok (Some (fold_left (fun _ x => has v2 x) xs last)) h'.
Proof.
  intros Hsrc H32. pose proof (sz_pos _ Hfmt). pose proof (limit_32 _ Hfmt). induction xs as [|x xs IH]; intros known last fp hp h Hin Hw cs Hh Hef Hhp Heh Hlim Hk; [now exists h|].
  assert (Hc : lawful size_bytes (x_packable x) (x_layout x)) by (apply codec_lawful, (ev_extra Hev), Hin; [exact Hfmt|now left]).
  apply Forall_cons_1 in Hw as [Hwx Hw]. cbn [map length lay] in *. unfold heaps in *. subst cs. cbn [map concat] in *. fold (heaps (map (member_cell v2) (map extra xs))) in *.
  set (q := member_cell v2 (extra x)) in *. set (cs := map (member_cell v2) (map extra xs)) in *. rewrite vec_size_app in *. apply holds_app in Hh as [Hh1 Hh2].
  change (c_size q) with sz in *. change (c_slot q) with (optional_slot size_bytes (x_packable x) (x_layout x) (x_get x v2)) in *.
  change (c_heap q) with (optional_heap (x_packable x) (x_layout x) (x_get x v2)) in *. pose proof (optional_fixed_size size_bytes _ _ (lw_packs _ _ _ Hc) _ Hwx) as [_ Hsz]. rewrite Hsz in Hh2.
  assert (Hxs : vec_size (x :: xs) = 1 + vec_size xs) by (unfold vec_size; cbn [length]; lia). rewrite Hxs in Hef. pose proof (vec_size_nonneg xs). pose proof (vec_size_nonneg (heaps cs)).
  pose proof Hh1 as (Hf0 & _ & _). pose proof (vec_size_nonneg (optional_heap (x_packable x) (x_layout x) (x_get x v2))) as Hoh.
  set (off := match x_get x v2 with Some a => if is_empty_container (x_packable x) a then 0 else hp - fp | None => 1 end).
  assert (Hslot : optional_slot size_bytes (x_packable x) (x_layout x) (x_get x v2) (hp - fp) = to_le size_bytes off).
  { unfold off. change (wf (optional_layout size_bytes (x_packable x) (x_layout x)) (x_get x v2)) in Hwx. destruct (x_get x v2) as [a|]; [|reflexivity].
    now apply (optional_slot_some size_bytes _ _ (lw_packs _ _ _ Hc)). }
  assert (Hoff : off = hp - fp \/ (off < 2 /\ optional_heap (x_packable x) (x_layout x) (x_get x v2) = [])).
  { unfold off, optional_heap, vheap. destruct (x_get x v2) as [a|]; [destruct (is_empty_container _ a)|]; auto; right; split; auto; lia. }
  assert (Hhas : negb (off =? 1) = has v2 x).
  { unfold off, has. destruct (x_get x v2) as [a|]; [|reflexivity]. destruct (is_empty_container _ a); [reflexivity|]. destruct (Z.eqb_spec (hp - fp) 1); [lia|reflexivity]. }
  rewrite Hslot in Hh1. cbn [verify_slots fold_left]. unfold bind at 1, get. unfold bind at 1.
  rewrite (numeric_complete true size_bytes off) by (auto; lia). rewrite (wrap_small (8 * sz)) by (unfold in_u; change (2 ^ (8 * sz)) with limit; unfold off; destruct (x_get x v2) as [a|]; [destruct (is_empty_container _ a)|]; lia).
  rewrite Hhas, (wrap_small 32 (fp + sz)) by (split; lia).
  replace (hp - fp - sz + vec_size (optional_heap (x_packable x) (x_layout x) (x_get x v2))) with (hp + vec_size (optional_heap (x_packable x) (x_layout x) (x_get x v2)) - (fp + sz)) in Hh2 by lia.
  destruct (Z.leb_spec 2 off) as [Ho2|Ho2].
  - destruct Hoff as [Eo|[Eo _]]; [|lia]. rewrite Eo in *. replace (hp - fp + fp) with hp by lia. replace (fp + (hp - fp)) with hp by lia.
    rewrite !(wrap_small 32) by (split; lia). destruct (Z.ltb_spec (hp - fp) sz); [lia|]. destruct (Z.ltb_spec (eh - fp) (hp - fp)); [lia|]. destruct (Z.ltb_spec (hp - fp) (h - fp)); [lia|].
    assert (Ek : known && negb (hp =? h) = false) by (destruct known; [rewrite (Hk eq_refl), Z.eqb_refl|]; reflexivity). rewrite Ek. cbn [orb]. unfold bind, modify.
    apply (IH false _ (fp + sz) (hp + vec_size (optional_heap (x_packable x) (x_layout x) (x_get x v2))) hp); auto; try lia; try discriminate; intros y Hy; apply Hin; now right.
  - destruct Hoff as [Eo|[_ Eh]]; [lia|]. rewrite Eh in *. change (vec_size []) with 0 in *. rewrite Z.add_0_r in *.
    apply (IH known _ (fp + sz) hp h); auto; try lia; intros y Hy; apply Hin; now right.
Qed.
Lemma extensions_complete v2 xs x last src ef eh fp hp : let ys := xs ++ [x] in let cs := map (member_cell v2) (map extra ys) in
  eh <= vec_size src -> vec_size src < 2 ^ 32 -> (forall y, In y ys -> In y ext) -> Forall (member_wf v2) (map extra ys) -> has v2 x = true ->
  holds src fp (lay (hp - fp) cs) -> fp + vec_size ys * sz = ef -> ef <= hp -> hp + vec_size (heaps cs) <= eh -> hp + vec_size (heaps cs) - fp < limit ->
  exists h', check_extensions size_bytes last src ef eh (ECursor false true fp hp) = Ok (Some true) (ECursor true false fp h').
Proof.
  intros ys cs Hsrc H32 Hin Hw Hx Hh Hef Hhp Heh Hlim. pose proof (sz_pos _ Hfmt). pose proof Hh as (Hf0 & _ & _). pose proof (vec_size_nonneg (heaps cs)).
  assert (Hys : 1 <= vec_size ys) by (unfold ys, vec_size; rewrite length_app; cbn [length]; lia).
  destruct (verify_complete v2 src ef eh Hsrc H32 ys true last fp hp hp Hin Hw Hh ltac:(lia) ltac:(lia) Heh Hlim ltac:(auto)) as [h' Hv]. exists h'.
  unfold check_extensions, bind, get. cbn [fixed_pos known_pos heap_pos]. destruct (Z.ltb_spec fp ef); [|nia]. unfold zoom, verify_extensions. cbn [heap_pos].
  assert (Hl : wrap 32 (ef - fp) = vec_size ys * sz) by (rewrite wrap_small; [lia|split; lia]). rewrite Hl, Z.mod_mul, Z.div_mul by lia. cbn [negb Z.eqb].
  unfold vec_size. rewrite Nat2Z.id, Hv. unfold ys. rewrite fold_left_app. cbn [fold_left]. rewrite Hx. reflexivity.
Qed.
Lemma present_extra v2 e1 x e2 : ext = e1 ++ x :: e2 -> has v2 x = true -> (forall y, In y e2 -> has v2 y = false) -> present ls2 v2 = map after sh ++ map extra (e1 ++ [x]).
Proof.
  intros He Hx Hn. assert (Es : ls2 = (map after sh ++ map extra (e1 ++ [x])) ++ map extra e2) by (unfold ls2; now rewrite He, <- app_assoc, <- map_app, <- app_assoc).
  unfold present. rewrite Es at 1. rewrite map_app, num_present_unique; [rewrite Es, length_map; apply take_app_length| |].
  - apply List.Forall_forall. intros m Hm. rewrite map_map in Hm. apply in_map_iff in Hm as (y & <- & Hy). split; [reflexivity|]. exact (Hn y Hy).
  - rewrite !map_app, !fold_left_app. exact Hx.
Qed.
Lemma lawful1 : Forall (lawful_member size_bytes) ls1.
Proof. apply members_lawful; unfold ls1; intros l Hl; apply in_map_iff in Hl as (s & <- & Hs); [apply codec_lawful; [exact Hfmt|]|]; apply (ev_codec Hev), Hs. Qed.
(** Values with extra members up to the last of [ys]. *)
Section Newer.
Context (v2 : T2) (e1 : list (added T2)) (x : added T2) (e2 : list (added T2)).
Context (He : ext = e1 ++ x :: e2) (Hx : has v2 x = true) (Hn : forall y, In y e2 -> has v2 y = false) (Hw : Forall (member_wf v2) ls2).
Abbreviation ys := (e1 ++ [x]).
Abbreviation v1 := (downgrade v2).
Abbreviation c1 := (map (member_cell v1) ls1).
Abbreviation c2 := (map (member_cell v2) (map extra ys)).
Abbreviation hs := (Z.of_nat header_size).
Definition fixed1 : Z := members_fixed_size (map lm ls1).
Definition newer_header : Z := fixed1 + vec_size ys * sz.
Lemma ys_in : (forall y, In y ys -> In y ext) /\ Forall (member_wf v2) (map extra ys).
Proof.
  split.
  - rewrite He. intros y Hy. apply in_app_iff in Hy as [Hy|[<-|[]]]; apply in_app_iff; [now left|right; now left].
  - unfold ls2 in Hw. apply Forall_app in Hw as [_ Hw']. rewrite He in Hw'. change (x :: e2) with ([x] ++ e2) in Hw'. rewrite app_assoc, map_app in Hw'. now apply Forall_app in Hw' as [Hw' _].
Qed.
Lemma newer_sizes : sizes c1 = fixed1 /\ sizes c2 = vec_size ys * sz /\ (forall d, vec_size (lay d c1) = fixed1) /\ (forall d, vec_size (lay d c2) = vec_size ys * sz).
Proof.
  assert (Hs1 : sizes c1 = fixed1) by apply cells_fixed. assert (Hs2 : sizes c2 = vec_size ys * sz) by (rewrite cells_fixed, fixed_extra; reflexivity).
  split; [exact Hs1|]. split; [exact Hs2|]. split; intros d.
  - rewrite <- Hs1. apply (lay_size (map (member_ops v1) (map lm ls1))). apply (member_ops_ok size_bytes); [apply members_packs, lawful1|exact (downgrade_wf v2 Hw)].
  - rewrite <- Hs2. apply (lay_size (map (member_ops v2) (map lm (map extra ys)))). apply (member_ops_ok size_bytes); [|apply ys_in].
    apply List.Forall_forall. intros l Hl. apply in_map_iff in Hl as (y & <- & Hy). apply (optional_packs size_bytes). apply codec_lawful; [exact Hfmt|]. now apply (ev_extra Hev), ys_in.
Qed.
Lemma newer_encoding : enc layout2 v2 =
  to_le header_size newer_header ++ (lay newer_header c1 ++ lay (newer_header - fixed1 + vec_size (heaps c1)) c2) ++ heaps c1 ++ heaps c2.
Proof.
  destruct newer_sizes as (Hs1 & Hs2 & _). change (enc layout2 v2) with (struct_enc false header_size ls2 v2). rewrite struct_enc_present, (present_extra v2 e1 x e2 He Hx Hn).
  unfold region_enc. rewrite (map_app lm (map after sh)), members_fixed_app, fixed_extra, <- fixed_shared, (map_app (member_cell v2) (map after sh)).
  rewrite <- (cells_agree v1 v2) by exact (downgrade_spec v2). unfold region. rewrite slot_sizes_app, lay_app, heaps_app. change (map before sh) with ls1. rewrite Hs1, Hs2. reflexivity.
Qed.
(** Where its parts are. *)
Lemma newer_parts src : src = enc layout2 v2 -> vec_size src < limit -> let hp := hs + newer_header in
  holds src 0 (to_le header_size newer_header) /\ region_at size_bytes v1 src (vec_size src) ls1 hp hs hp /\
  holds src (hs + fixed1) (lay (hp + vec_size (heaps c1) - (hs + fixed1)) c2) /\ hp + vec_size (heaps c1) + vec_size (heaps c2) = vec_size src.
Proof.
  intros Es Hl hp. destruct newer_sizes as (Hs1 & Hs2 & Hl1 & Hl2). pose proof (holds_self src) as Hh. pose proof (cells_nonneg size_bytes v1 ls1 lawful1) as Hc. rewrite Hs1 in Hc.
  rewrite Es in Hh at 2. rewrite newer_encoding in Hh, Es. apply (f_equal vec_size) in Es. rewrite !vec_size_app, to_le_size, Hl1, Hl2 in Es.
  apply holds_app in Hh as [H1 Hh]. rewrite to_le_size in Hh. apply holds_app in Hh as [Hh1 Hh2]. apply holds_app in Hh1 as [H2 H3]. rewrite vec_size_app, Hl1, Hl2 in Hh2.
  apply holds_app in Hh2 as [H4 H5]. rewrite Hl1 in H3. cbn [Z.add] in *. pose proof (vec_size_nonneg (heaps c2)). pose proof (vec_size_nonneg (heaps c1)).
  assert (0 <= vec_size ys * sz) by (pose proof (vec_size_nonneg ys); nia). fold newer_header in H4, H5. fold hp in H4, H5.
  split; [exact H1|]. unfold region_at. replace (hp - hs) with newer_header by (unfold hp; lia). rewrite Hs1.
  split; [repeat (match goal with |- _ /\ _ => split | |- holds _ _ _ => assumption end); unfold hp, newer_header in *; lia|].
  split; [|unfold hp, newer_header; lia]. replace (hp + vec_size (heaps c1) - (hs + fixed1)) with (newer_header - fixed1 + vec_size (heaps c1)) by (unfold hp; lia). exact H3.
Qed.
Lemma newer_header_range : 0 <= fixed1 <= newer_header /\ newer_header <= members_fixed_size (map lm ls2).
Proof.
  pose proof (sz_pos _ Hfmt). pose proof (cells_nonneg size_bytes v1 ls1 lawful1) as Hc. rewrite (proj1 newer_sizes) in Hc. pose proof (vec_size_nonneg ys).
  unfold newer_header, ls2. rewrite map_app, members_fixed_app, <- fixed_shared, fixed_extra. change (members_fixed_size (map lm (map before sh))) with fixed1.
  split; [nia|]. assert (vec_size ys <= Z.of_nat (length ext)); [|nia]. rewrite He. unfold vec_size. rewrite !length_app. cbn [length]. lia.
Qed.
(** Both paths end with the members of [v1] and the check of the slots behind them. *)
Lemma older_region src en fixed heap q : src = enc layout2 v2 -> en = vec_size src -> vec_size src < limit -> fixed = hs -> heap = hs + newer_header ->
  exists h', (if all_members_present false (map lm ls1) then struct_all_unpack size_bytes (map lm ls1) d1 fixed heap en src else struct_gated_unpack size_bytes (map lm ls1) d1 fixed heap en src)
               (Cursor false true q) = Ok (Some v1) (Cursor true false h').
Proof.
  intros Es -> Hlim -> ->. destruct (newer_parts src Es Hlim) as (_ & Hreg & H3 & Hlen). pose proof (limit_32 _ Hfmt). destruct newer_sizes as (Hs1 & Hs2 & _). destruct ys_in as [Hin Hwy].
  pose proof (vec_size_nonneg (heaps c1)). pose proof (vec_size_nonneg (heaps c2)). pose proof newer_header_range as [Hr _]. pose proof Hreg as (_ & _ & _ & _ & Hreg5 & _).
  pose proof (ev_lenses1 Hev) as Hln. pose proof (downgrade_wf v2 Hw) as Hw1.
  assert (Hext : forall last, exists h', check_extensions size_bytes last src (hs + newer_header) (vec_size src) (ECursor false true (hs + fixed1) (hs + newer_header + vec_size (heaps c1))) =
    Ok (Some true) (ECursor true false (hs + fixed1) h')).
  { intros last. apply (extensions_complete v2 e1 x); auto; unfold newer_header in *; lia. }
  destruct (all_members_present false (map lm ls1)).
  - destruct (Hext true) as [h' Eh]. exists h'. unfold struct_all_unpack, in_region. cbn [has_unknown known_end]. unfold bind at 1.
    rewrite (all_complete size_bytes v1 src (vec_size src)) by (auto using lawful1; try lia; apply Hln). cbn [fst snd negb]. rewrite Hs1. unfold bind. rewrite Eh. cbn.
    now rewrite (assign_ext d1 v1 (map lm ls1) []); [|rewrite app_nil_r|constructor].
  - rewrite struct_gated_eq. destruct (Hext (fold_left (fun _ m => shows v1 m) (map lm ls1) true)) as [h' Eh]. exists h'. unfold gated_unpack, in_region. cbn [has_unknown known_end]. unfold bind at 1.
    rewrite (gated_shown size_bytes Hfmt v1 src (vec_size src)) by (auto using lawful1; try lia; apply Hln). cbn [fst snd negb]. rewrite Hs1. unfold bind. rewrite Eh. cbn.
    now rewrite (assign_ext d1 v1 (map lm ls1) []); [|rewrite app_nil_r|constructor].
Qed.
Lemma older_unpacks junk : vec_size (enc layout2 v2) < limit ->
  exists h', unpack version1 d1 (enc layout2 v2) (vec_size (enc layout2 v2)) (Cursor false junk 0) = Ok (Some v1) (Cursor true false h').
Proof.
  intros Hlim. remember (enc layout2 v2) as src eqn:Es. destruct (newer_parts src Es Hlim) as (H1 & _ & _ & Hlen). pose proof (limit_32 _ Hfmt).
  pose proof (vec_size_nonneg (heaps c2)). pose proof (vec_size_nonneg (heaps c1)). destruct newer_header_range as [Hr1 Hr2]. pose proof (ev_header Hev) as Hh. pose proof (ev_32 Hev) as Hh32.
  cbn [unpack version1 struct_impl base_impl]. unfold struct_unpack, struct_variable. cbn [negb orb]. unfold bind at 1, on_pos, zoom. cbn [pos].
  rewrite (numeric_complete false header_size newer_header) by (auto; lia). rewrite (wrap_small (8 * hs)) by (split; lia).
  destruct (Z.ltb_spec 4294967295 newer_header); [lia|]. unfold bind at 1, gets. cbn.
  rewrite !Z.add_0_l, (wrap_small 32 (hs + newer_header)) by (split; lia). destruct (Z.ltb_spec (hs + newer_header) hs); [lia|].
  destruct (Z.ltb_spec (vec_size src) (hs + newer_header)); [lia|]. cbn [orb]. unfold bind, modify. cbn. change (members_fixed_size (map lm ls1)) with fixed1.
  destruct (Z.ltb_spec newer_header fixed1); [lia|]. destruct (older_region src (vec_size src) hs (hs + newer_header) hs Es eq_refl Hlim eq_refl eq_refl) as [h' E]. exists h'. exact E.
Qed.
End Newer.
(** C10. The older version of a struct reads what the newer one has packed: every shared member has its value, and
    [has_unknown] is set exactly when an added member has a value, so that the strict mode refuses then and only then. *)
Theorem older_reads_newer v2 junk : wf layout2 v2 -> vec_size (enc layout2 v2) < limit ->
  exists bytes s v1 c, to_frac version2 v2 = Ok bytes s /\ from_frac version1 junk bytes = Ok v1 c /\ agree v1 v2 /\ has_unknown c = existsb (has v2) ext.
Proof.
  intros Hw Hl. pose proof (limit_32 _ Hfmt). pose proof (codec_lawful _ Hfmt _ _ _ codec1) as L1. pose proof (codec_lawful _ Hfmt _ _ _ codec2) as L2.
  destruct (to_frac_enc _ version2 layout2 v2 L2 Hw ltac:(lia)) as (s & Es & _). exists (enc layout2 v2), s, (downgrade v2). unfold from_frac, from_frac_into.
  destruct (existsb (has v2) ext) eqn:Ex.
  - destruct (last_with _ _ Ex) as (e1 & x & e2 & He & Hx & Hn). destruct (older_unpacks v2 e1 x e2 He Hx Hn Hw junk Hl) as [h' E].
    rewrite wrap_small by (split; [apply vec_size_nonneg|lia]). change (default_value version1) with d1. rewrite E. cbn. eexists. split; [exact Es|]. split; [reflexivity|]. split; [apply downgrade_spec|reflexivity].
  - assert (Hn : forall x, In x ext -> x_get x v2 = None).
    { intros x Hx. destruct (x_get x v2) eqn:E; [|reflexivity]. enough (existsb (has v2) ext = true) by congruence. apply existsb_exists. exists x. unfold has. now rewrite E. }
    assert (Ee : enc layout1 (downgrade v2) = enc layout2 v2) by exact (same_encoding _ _ (downgrade_spec v2) Hn). rewrite <- Ee in Hl, Es |- *.
    rewrite (unpack_enc _ Hfmt version1 layout1 (downgrade v2) junk L1 (downgrade_wf v2 Hw) Hl). cbn. rewrite Z.eqb_refl. cbn.
    eexists. split; [exact Es|]. split; [reflexivity|]. split; [apply downgrade_spec|reflexivity].
Qed.
End Versions.
End Format.

(** ** Two versions of a type *)
Record contact := { k_id : Z; k_name : list Z }.
Record contact2 := { k2_id : Z; k2_name : list Z; k2_note : option (list Z); k2_age : option Z }.
#[export] Instance eta_contact : Eta contact := fun k => {| k_id := k_id k; k_name := k_name k |}.
#[export] Instance eta_contact2 : Eta contact2 := fun k => {| k2_id := k2_id k; k2_name := k2_name k; k2_note := k2_note k; k2_age := k2_age k |}.
Definition contact_default : contact := {| k_id := 0; k_name := [] |}.
Definition contact2_default : contact2 := {| k2_id := 0; k2_name := []; k2_note := None; k2_age := None |}.
Definition contact_shared : list (shared contact contact2) := [
  Shared _ _ _ (number 4 4) (number_layout 4) k_id (fun x k => k <| k_id := x |>) k2_id (fun x k => k <| k2_id := x |>);
  Shared _ _ _ (numbers 4 1) (numbers_layout 4 1) k_name (fun x k => k <| k_name := x |>) k2_name (fun x k => k <| k2_name := x |>)].
Definition contact_added : list (added contact2) := [
  Added _ _ (numbers 4 1) (numbers_layout 4 1) k2_note (fun x k => k <| k2_note := x |>);
  Added _ _ (number 4 2) (number_layout 2) k2_age (fun x k => k <| k2_age := x |>)].
Lemma contact_evolves : evolves 4 2 contact_default contact2_default contact_shared contact_added.
Proof.
  assert (Hn : codec 4 (list Z) (numbers 4 1) (numbers_layout 4 1)) by (apply numbers_codec; lia). split.
  - intros s [<-|[<-|[]]]; cbn; (split; [|lia]); [apply number_codec|exact Hn].
  - intros s [<-|[<-|[]]]; cbn; [exact Hn|apply number_codec].
  - split; [repeat (split; [intros x v; reflexivity|]; split; [repeat (constructor; [split; intros x v; reflexivity|]); constructor|]); exact I|repeat constructor|].
    intros [] [] H. repeat (apply Forall_cons_1 in H as [? H]). cbn in *. now subst.
  - split; [repeat (split; [intros x v; reflexivity|]; split; [repeat (constructor; [split; intros x v; reflexivity|]); constructor|]); exact I|repeat constructor|].
    intros [] [] H. repeat (apply Forall_cons_1 in H as [? H]). cbn in *. now subst.
  - cbn. lia.
  - cbn. lia.
Qed.
Definition contact_1 : contact := {| k_id := 3; k_name := [97; 98] |}.
Definition contact2_1 : contact2 := {| k2_id := 3; k2_name := [97; 98]; k2_note := None; k2_age := Some 30 |}.
Abbreviation contact_v1 := (version1 4 2 contact_default contact_shared).
Abbreviation contact_v2 := (version2 4 2 contact2_default contact_shared contact_added).
Lemma newer_reads_older_witness : exists bytes s v2 c, to_frac contact_v1 contact_1 = Ok bytes s /\ from_frac contact_v2 false bytes = Ok v2 c /\
  agree contact_shared contact_1 v2 /\ forall x, In x contact_added -> x_get x v2 = None.
Proof.
  apply (newer_reads_older 4 format_32 2 contact_default contact2_default contact_shared contact_added contact_evolves contact_1 false);
    [repeat (constructor; unfold in_u; cbn; try lia)|vm_compute; reflexivity].
Defined.
Lemma older_reads_newer_witness : exists bytes s v1 c, to_frac contact_v2 contact2_1 = Ok bytes s /\ from_frac contact_v1 false bytes = Ok v1 c /\
  agree contact_shared v1 contact2_1 /\ has_unknown c = existsb (has contact2_1) contact_added.
Proof.
  apply (older_reads_newer 4 format_32 2 contact_default contact2_default contact_shared contact_added contact_evolves contact2_1 false);
    [repeat (constructor; unfold in_u; cbn; try lia)|vm_compute; reflexivity].
Defined.
