(* ===== verification/FracpackFindings.v ===== *)
(** * Findings in the fracpack codec

    Values and bytes outside of what [codec] covers, and a target that is not
    empty. *)
From Stdlib Require Import ZArith Lia Bool String.
From stdpp Require Import base list numbers decidable option.
From S2P Require Import Prelude Fracpack FracpackSpec FracpackPack FracpackBounded FracpackSound.

(** What a read returns, without the positions. *)
Definition read_as {S A} (o : outcome S (option A)) : option A := match o with Ok r _ => r | _ => None end.
Definition written {S} (o : outcome S (list Z)) : list Z := match o with Ok bs _ => bs | _ => [] end.

(** ** A target that is used again keeps optional members *)
(** [from_frac(value, data)] succeeds, but the note of the old value stays. *)
Lemma from_frac_keeps_stale_optionals :
  read_as (from_frac_into document_impl false {| d_id := 1; d_name := []; d_tags := []; d_size := None; d_note := Some [1; 2] |} document_1_bytes) =
  Some {| d_id := 7; d_name := [104; 105]; d_tags := [[97]; []; [98; 99]]; d_size := Some 9; d_note := Some [1; 2] |}.
Proof. vm_compute. reflexivity. Qed.

(** ** Members without a size *)
(** A struct with [definitionWillNotChange] and no members. *)
Definition empty_impl : packable unit := struct_impl 4 true 2 tt [].
(** A vector of them divides by zero. *)
Lemma vector_of_empty_undefined : from_frac_into (container_impl 4 empty_impl) false [] [4; 0; 0; 0; 0; 0; 0; 0] = UB.
Proof. vm_compute. reflexivity. Qed.
(** In a tuple behind an optional, the strict reader accepts a second encoding. *)
Definition pair_impl : packable (option Z * unit) :=
  tuple_impl 4 (None, tt) [Member (optional_impl 4 (number 4 4)) fst (fun x v => (x, v.2)); Member empty_impl snd (fun x v => (v.1, x))].
Lemma empty_member_not_canonical :
  written (to_frac pair_impl (None, tt)) = [4; 0; 1; 0; 0; 0] /\ read_as (from_frac_strict_into pair_impl false (None, tt) [0; 0]) = Some (None, tt).
Proof. split; vm_compute; reflexivity. Qed.

(** ** The 16-bit format does not check sizes *)
(** A string of 65536 bytes is packed with the size 0, and cannot be read back. *)
Definition long_string : list Z := repeat 1 (Z.to_nat 65536).
Lemma frac16_truncates_sizes :
  take 2 (written (to_frac (numbers 2 1) long_string)) = [0; 0] /\ read_as (from_frac_into (numbers 2 1) false [] (written (to_frac (numbers 2 1) long_string))) = None.
Proof. split; vm_compute; reflexivity. Qed.

(** ** A bit count that wraps *)
(** [(bit_count + 7) / 8] is 0 for the greatest count: the four bytes pass the checks,
    and the first bit is read behind the data. *)
Lemma unpack_bits_outside {S} k i src p (s : S) : vec_size src <= p + Z.shiftr i 3 -> unpack_vector_bool (Datatypes.S k) i src p s = UB.
Proof. intros H. cbn [unpack_vector_bool]. unfold bind, read_bytes. change (Z.of_nat 1) with 1. destruct (Z.leb_spec (p + Z.shiftr i 3 + 1) (vec_size src)); [lia|]. now rewrite andb_false_r. Qed.
Lemma vector_bool_count_wraps : from_frac_into (vector_bool_impl 4) false [] [255; 255; 255; 255] = UB.
Proof.
  unfold from_frac_into. cbn [unpack vector_bool_impl base_impl]. unfold vector_bool_unpack, bind at 1, modify. unfold bind at 1.
  change (on_pos (unpack_numeric false 4 [255; 255; 255; 255] (wrap 32 (vec_size [255; 255; 255; 255]))) ((Cursor false false 0) <| known_end := true |>))
    with (@Ok cursor (option Z) (Some 4294967295) (Cursor false true 4)).
  cbv iota beta. unfold bind at 1, gets. cbn [pos]. change (wrap 32 (4294967295 + 7) / 8) with 0. change (wrap 32 (4 + 0)) with 4.
  change ((4 <? 4) || (wrap 32 (vec_size [255; 255; 255; 255]) <? 4)) with false. cbv iota. unfold bind at 1, check_trailing. change ((0 <? 0) && _) with false. cbv iota. unfold ret at 1. cbn [negb].
  assert (E : Z.to_nat 4294967295 = Datatypes.S (Z.to_nat 4294967294)) by lia. rewrite E. unfold bind at 1. now rewrite unpack_bits_outside.
Qed.

(** ** The bound of a bounded container *)
(** A [bounded_list<uint8_t, 300>] is read with 400 elements. *)
Definition bounded_bytes_300 : packable (list Z) := bounded_memcpy_impl 4 300 1 (to_le 1) of_le.
Lemma bounded_list_reads_more_than_its_bound :
  option_map vec_size (read_as (from_frac_strict_into bounded_bytes_300 false [] (to_le 2 400 ++ repeat 1 (Z.to_nat 400)))) = Some 400.
Proof. vm_compute. reflexivity. Qed.
(** The prefix of a [bounded_list<array<bool, 8>, 60>] is sized for 60 slots of four bytes, but
    its elements have eight: with 60 elements the length 480 is written as 224. *)
Definition flags_list_impl : packable (list (list bool)) := bounded_container_impl 4 60 (array_impl 4 (bool_impl 4) 8).
Lemma bounded_list_prefix_truncates :
  take 1 (written (to_frac flags_list_impl (repeat (repeat true 8) 60))) = [224] /\
  read_as (from_frac_into flags_list_impl false [] (written (to_frac flags_list_impl (repeat (repeat true 8) 60)))) = None.
Proof. split; vm_compute; reflexivity. Qed.

(** ** Keys that are not sorted *)
(** A [std::set<uint8_t>] accepts keys in any order, and twice, in the strict mode too. *)
Fixpoint set_insert (x : Z) (l : list Z) : list Z :=
  match l with [] => [x] | y :: r => if x <? y then x :: l else if y <? x then y :: set_insert x r else l end.
Definition set_impl : packable (list Z) := associative_impl 4 (number 4 1) set_insert.
Lemma set_accepts_unsorted_keys :
  read_as (from_frac_strict_into set_impl false [] [4; 0; 0; 0; 3; 1; 2; 1]) = Some [1; 2; 3] /\ written (to_frac set_impl [1; 2; 3]) = [3; 0; 0; 0; 1; 2; 3].
Proof. split; vm_compute; reflexivity. Qed.
